(* ===== verification/_CoqProject ===== *)
-Q . S2P
Prelude.v
GoStrings.v
GoTime.v
GoVal.v
GoCodec.v
GoBytes.v
GoIO.v
Event.v
Rows.v
Merge.v
BinlogOrder.v
PkCanon.v
Spill.v
Fold.v
FullTable.v
Arithmetic.v
Reconstruct.v
SysVersion.v
SqlText.v
Recovery.v
Undo.v
SysFold.v
Planner.v
PositionFloor.v
StmtClock.v
TxnBatch.v
StreamRun.v
Capture.v
CaptureGtid.v
KeyIdx.v
KeyFind.v
KeyBuild.v
GoText.v
PkRange.v
TopN.v
QueryWhere.v
QueryFetch.v
NewestWalk.v
LatestPK.v
MergeLatest.v
LatestKept.v
FetchMerged.v
MergedRead.v
StreamRead.v
FetchFull.v
Cascade.v
CascadeScan.v
CascadeRef.v
CascadeClosure.v
CascadeGraph.v
CascadeRecover.v
CascadeCases.v
PartitionHour.v
RotateWorld.v
Rotate.v
RotateKeeps.v
RotateAdds.v
RotateLoop.v
RotateDrops.v
RotateCases.v
DdlText.v
DdlNames.v
MapRow.v
Skips.v
RowEvents.v
Stream.v
StreamLog.v
StreamRows.v
StreamTxn.v
LogRead.v
StreamOnce.v
StreamCases.v
BinlogFile.v
FileWhole.v
