(* ===== verification/Prelude.v ===== *)
(** * DBTrail: a verification of the change-history core

    DBTrail indexes the row changes of a MySQL, MariaDB or PostgreSQL server
    and answers three questions from them: which changes happened ("query"),
    what a row or a table held at a moment ("reconstruct"), and how to undo a
    set of changes ("recover"). Capture writes the index; archives, storage, the
    console, the command line and the SQL front ends move data to and from
    these. This library models the core of capture and of the three questions,
    and the parts they rely on.

    The program's parts and the files that model them

    A change is a [query.ResultRow]: an event with its position in the binary
    log, its key text and its two row images. A query reads changes from the
    index and from archives and merges them; a reconstruction folds them over a
    baseline; a recovery reverses them. Capture writes every [event.Event] of a
    source's log to the index that a query reads.

    - Prelude (this file): three-way comparisons and sorting, list lemmas, the
      error monad, the hint and rewrite databases, [dec_compute].
    - GoIO: a state and error monad with its weakest preconditions, for code
      that mutates and fails.
    - GoBytes: big-endian integers, CRC-32C, [sort.Search], reads at an offset.
    - GoStrings, GoTime, GoVal, GoCodec: what the code uses of Go's library.
      Byte strings, case and trimming, UTF-8, hex, decimal padding; times as
      nanoseconds since Go's zero time; the dynamic values of a row image
      ([GoVal], without floating point); base64, JSON, [strconv.Quote],
      [strings.Fields].
    - Event: [internal/event/event.go], [toast.go] and the records of
      [internal/metadata/metadata.go]: key text (built, split, one component
      dropped or inserted, canonical spelling), the TOAST guard.
    - Rows: [internal/query/query.go]: positions, [ResultRow],
      [LaterInBinlog].
    - Merge: [internal/query/merge.go]: deduplication, order, limits, the
      latest changes of each key.
    - BinlogOrder: [internal/query/binlogorder.go]: whether a set of rows can be
      put in binary log order, and the proof the index gives for it.
    - Planner: [internal/query/planner.go]: which hours of a range are read from
      where, gaps, archives filed under another hour.
    - PositionFloor: [internal/query/positionfloor.go]: how far back in time a
      fetch from a binary log position must look.
    - GoText, TopN, MergeLatest: decimal text and string cutting; the first [n]
      of a sorted list, of a part and of a union; the latest rows of each key.
    - PkRange: [internal/query/pkrange.go]: ranges of integer keys, as predicates
      for MySQL and DuckDB and in memory.
    - QueryWhere: [internal/query/query.go], [columneq.go]: the options of a
      read, their validation and the WHERE clause: each conjunct as data, as text
      with its arguments, and as what MySQL makes of it.
    - QueryFetch, NewestWalk: [query.go], [newest.go]: the statements, the fetch,
      redaction, and the newest-first page read partition by partition.
    - LatestPK, LatestKept: [internal/query/latestperpk.go], [repick.go]: the
      latest changes of each key in binary log order.
    - FetchMerged, MergedRead, StreamRead, FetchFull: [fetchmerged.go],
      [archivescope.go], [windowcovered.go]: the read of the live index and the
      archives together, in one piece and in pages. What the sources, discovery
      and the index tables answer is a record [world].
    - StmtClock: [internal/stmtclock/stmtclock.go]: time caps that can be held,
      as a step relation over all interleavings of statements, holds and timers.
    - TxnBatch: [internal/indexer/indexer.go], [txn.go], [txnbatch.go]: batch
      inserts, index transactions and the batcher that shows a source
      transaction at its end; its invariant [core] and a weakest precondition
      for every operation.
    - StreamRun: [internal/streamrun/streamrun.go]: the capture loop, its
      checkpoints, the cleanup and the restart after a crash, as an executable
      step function [exec] on a run and the state it leaves behind.
    - Capture, CaptureGtid: the runs of StreamRun, by position and by GTID.
    - KeyIdx, KeyFind, KeyBuild: [internal/keyidx]: the index of key tuples
      beside a snapshot file: format, lookup, build.
    - PkCanon: [internal/reconstruct/pk_canonicalize.go]: key values of a
      baseline row brought to the index's spelling.
    - Spill: [internal/reconstruct/changespill.go] and the size estimates of
      [eventfold.go]: changes moved to disk, in groups, and read back in passes.
    - Fold: [internal/reconstruct/eventfold.go]: pages of events folded into the
      last change of each key, with the guards, the budget and the spill.
    - FullTable: the merge of [internal/reconstruct/fulltable.go]: the baseline
      scanned in pages and joined with the folded changes, in memory or in
      passes.
    - Arithmetic: [internal/reconstruct/arithmetic.go]: the row counts of a
      refresh.
    - Reconstruct: [internal/reconstruct/reconstruct.go], [boundary.go]: one
      row's state and history, changes from before a snapshot, transactions at
      the cut.
    - SysVersion, SysFold: [internal/sysversion/sysversion.go],
      [internal/reconstruct/sysversion.go]: MariaDB's row versions and what an
      event means for the current rows.
    - SqlText, Recovery, Undo: [internal/recovery/recovery.go],
      [sysversion.go]: literals and names in both dialects, the generator and
      its script, and what running the script does.
    - Cascade, CascadeScan, CascadeClosure: [internal/cascade/cascade.go]: the
      search for the rows a foreign-key cascade touched below the binary log,
      what one scan finds and what a run delivers. The variables the closures of
      [SynthesizeVictims] share are the record [cs]. CascadeRef is a reference
      index that meets the contract of the scan.
    - CascadeGraph, CascadeRecover: the foreign keys of a moment, the groups of
      roots that share them, the merge of the groups' results, and the part of
      [internal/cli/recover_cascade.go] that composes these; CascadeCases: runs
      that are wrong with no caveat.
    - PartitionHour: [internal/indexer/partitions.go], [partition_history.go],
      [internal/rotation/implicit_retain.go] and the arithmetic of
      [rotation.go]: partition names, archive paths, how many partitions are
      added from where, the retention window and the upgrade guard; with the
      calendar that makes names and hours inverse.
    - RotateWorld, Rotate, RotateLoop: [internal/rotation/rotation.go],
      [ddl_lock.go], [loop.go] and what they call of [internal/archive] and
      [internal/storage]: the index tables, the staging directory and the bucket
      as a record, each call with an answer from a script; one cycle
      ([Perform]); the built-in loop. RotateKeeps holds the Hoare logic of these
      calls and the invariant [during]; RotateAdds and RotateDrops what a cycle
      adds and drops; RotateCases that the conditions are needed, and the
      witnesses.
    - DdlText, DdlNames: [internal/ddltext/ddltext.go] and the statement parts of
      [internal/parser/parser.go], [txnend.go]: which DDL a logged statement is
      and the tables it names, row DML logged as text, ends of transactions.
    - MapRow, Skips, RowEvents: [internal/metadata/metadata.go],
      [internal/parser/skips.go], [handleRows] of [parser.go]: a row under its
      column names, the tally of discards, one row event with its guards. What a
      parser sends to and records in is the class [Sink], with the stream, the
      file reader and a plain list as instances.
    - Stream: [internal/parser/stream.go], [fillcorrect.go]: the stream parser.
      StreamLog says what a source logs and what connections deliver of it, and
      is the reference; StreamRows, StreamTxn, LogRead, StreamOnce relate a run
      to it; StreamCases has runs.
    - BinlogFile, FileWhole: [ParseFile] of [parser.go] and its verdict.

    Each operation is a function with the source's name, on the source's data:
    a struct is a record, a nil map [None], an error a value of a sum type (its
    numbers and names kept, its prose left out). [uint64] is [N]; a position
    with the top bit set is told apart as the code does. Loops are structural
    recursion; those over a text that are not ([quote_loop], [json_string_loop],
    [norm_loop], [strip_loop], [names_loop], [replace_all]) take its length as
    fuel, and consume a byte a step, as does the scan for runes; [chunks] takes the length of the list it cuts. Go's random map
    iteration is an argument [iter] that lists a map's entries in any order.

    What the theorems show

    - Reconstruction ([FullTable.reconstruct_replays],
      [Fold.foldEventWindow_replay]): a table reconstructed from a baseline and
      a window is the table the window's changes, applied one by one in binary
      log order, make of the baseline. The abstract specification is [replay],
      one change at a time on a map from key to row; the fold, the spill, the
      pages and the hash join refine it. What a fold holds does not depend on
      arrival order, paging, map order or the budget; it succeeds exactly when
      no guard refuses; its counts are the window's; the refresh arithmetic
      closes on every history.
    - Recovery ([Undo.recovery_undoes]): the statements of a script, run in its
      order, take the table back, duplicates included; the text at each
      reported offset is the statement's; a script is written exactly when no
      guard refuses; every literal and name is read back as the value it was
      made from, and no value can end a comment line. The abstract
      specification is the step relation [row_step] on tables as multisets of
      rows.
    - Order ([BinlogOrder.OrderByBinlog_sound] and its companions,
      [Rows.LaterInBinlog_strict_order]): rows are only reordered into binary
      log order with every precondition confirmed, and an answer without a
      warning is in that order.
    - Merging ([Merge.MergeResultsReport_spec], [LimitPerPK_latest],
      [MergeAndTrim_pipeline]): one row per event, the first copy, in order;
      the latest changes of each key before the global limit.
    - One read ([QueryWhere.buildWhere_admits], [QueryFetch.statements_bind],
      [NewestWalk.Fetch_newest_walk], [PkRange.pk_range_engines_agree]): the
      WHERE clause keeps exactly the rows the options name (the abstract
      specification is [admits]), the statements bind what they have placeholders
      for, the partition walk answers as the single statement.
    - Reads of several sources ([FetchFull.FetchMerged_reference],
      [FetchMergedFull_strict], [FetchMergedStream_delivers],
      [StreamRead.FetchMergedStream_terminates]): a merged read is what one table holding
      every event would answer ([MergedRead.reference]), also where the archives
      are proved not to be needed; the paged read ends and delivers each event
      once; a strict read leaves no source out. The paged loop takes fuel: one
      page for each event cursor and each archive, plus two, is enough.
    - Latest changes ([LatestKept.LatestPerPKInBinlog_keeps]): each key is left
      with its latest changes in the order the index received them, or is named
      as refused.
    - Capture ([Capture.capture_position_once], [capture_position_complete],
      [CaptureGtid.capture_gtid_once]): whatever the index server answers,
      whenever the process dies and however often it is resumed, the index
      holds the rows of the log in order, once each, and once a checkpoint
      returns none is missing. The invariant [sys_inv] relates a run, the saved
      checkpoint and the table to a prefix of the log; it is proved once for
      both modes, which differ in how coordinates follow the log ([link],
      [cklink]) and in the restart.
    - Parsing ([StreamOnce.Run_changes_once], [FileWhole.ParseFile_whole],
      [DdlNames.parseDDL_names], [Skips.tally_counts],
      [MapRow.coerceUnsigned_restores]): over any lost connections the stream
      sends each change of the log once; a file is sent whole or fails; the
      tables of a logged DROP or RENAME are read back; discards are counted; an
      unsigned value keeps its value. The abstract specification of the stream is
      [StreamLog.read_log], the log read once from its start, and of the file
      [FileWhole.whole_file]; [StreamOnce.Inv] relates a run to a phase of the
      log.
    - Reading what capture wrote ([Planner.buildPlan_classifies],
      [misfiledHours_complete], [PositionFloor.PositionReadFloor_reaches]): a
      plan leaves no hour out, and a read from a position loses no event.
    - Cascades ([CascadeRecover.recover_cascade_delivers],
      [CascadeGraph.loadCascadeClosure_enough],
      [CascadeScan.scanChildren_finds]): a recovery with no caveat delivers the
      rows the cascades of its roots removed and the foreign keys they set to
      NULL, and nothing else. The abstract specification is the inductive
      closure [CascadeClosure.doomed] over the foreign keys of each root's time;
      the layers, the visited and emitted sets, the groups and the merge refine
      it ([delivers]). The loading of edges takes fuel: one round for each child
      schema, plus one, is enough.
    - Statement clocks: a clock runs exactly when nobody holds it, a statement
      is stopped only after it ran for its cap, and then is.
    - Rotation ([RotateKeeps.rotation_keeps_rows],
      [RotateDrops.rotateOneIndex_drops], [protected_drop],
      [RotateAdds.addAhead_reaches], [RotateLoop.loop_polls_bounded]): cycle
      after cycle, whatever call fails, goes unanswered or kills the process,
      a row the index held is in the index, in a complete local archive or in
      the bucket, unless it came between the last count and the drop; drops
      obey the window, the guard and what is pending; adds reach their target;
      a new index is polled a bounded number of times. The invariant [during]
      says of every hour what its record, its file and its object may hold.
    - Key index ([KeyBuild.Build_Find], [KeyFind.Find_spec]): a lookup finds
      exactly the rows of the table with one of the keys.
    - Keys (Event, PkCanon): splitting inverts building, the two spellings of a
      fixed BINARY key and of raw bytes get one canonical text, and the type
      gate agrees with the canonicalizer.
    - Theorems that show where a condition is needed, or where the code does not
      do what its comments say. Refutations of a theorem above without one of its
      conditions: [FetchFull.merged_read_conditions],
      [RotateCases.rotation_conditions], [CaptureGtid.gtid_ctas_lost],
      [gtid_quiet_resume_twice]. A general statement:
      [FetchFull.skipped_live_rows] (reads that do not depend on the live index
      although it may have rows of the window) and [KeyBuild.readIndex_panic].
      Runs against a specification: [Undo.unkeyed_text_not_undone] (the WHERE
      over all columns compares stored base64 text),
      [CascadeCases.null_key_victims] (a NULL key taken for the empty text),
      [moved_child_resurrected], [gapped_window_complete],
      [CaptureGtid.gtid_cleanup_shows_part],
      [Reconstruct.TrimPartialTailTransaction_keeps_partial],
      [StreamCases.ctas_cut_sent_twice].

    Assumptions

    The hypotheses of a theorem are its own: rows with a binary log coordinate
    and distinct ids where a fold's result is compared with the log, a baseline
    with distinct keys and the row count its footer declares, for recovery a
    table whose snapshot has a key or a MySQL table matched on all columns.
    A merged read is compared with the reference for sources that answer as the
    statement would ([MergedRead.honest], proved of the live engine by
    [Fetch_newest_walk]) and tables that say where the rows are
    ([FetchFull.accurate], from which [plan_true] is derived); the server's [=]
    in a recovery's WHERE clause is identity of values, and its digest is
    injective. A cascade is compared with the closure for an index
    and baselines that say what the children held up to the root's second
    ([CascadeClosure.truthful], [CascadeScan.serves]): every change of a child
    logged under an unchanged key, no referenced key NULL or empty, no child
    older than the lookback without a baseline, a listed child where the window
    since the baseline has unreadable hours. MySQL's collation, casts, digest and scan order are a
    class with laws ([QueryWhere.MySQL]), of which [ci_mysql] is an instance. In
    the fold and in a reconstruction [query.FetchMerged] appears as the answer of
    a query ([Reconstruct.finds_rows]); the parser of MariaDB's fixed-width text
    ([metadata.ParseMariaDBFixed]) and the printable-rune table are arguments
    of the functions that use them, and every theorem holds for any. The index
    server takes, refuses or takes without an answer each statement, by a
    sequence that is an argument ([TxnBatch.Env]), and gives rising ids; a GTID
    set is a class of three operations ([StreamRun.GTIDSet]) and what is assumed
    of them is in [gtid_log]; the log a source sends is an argument, with its
    positions in order ([position_log], [gtid_log]) and sent again after a
    restart from where the checkpoint says ([replay]). The wire of the stream
    parser is what connections deliver of a log ([StreamLog.conveys]): groups
    that are transactions, table DDLs or single statements, positions the
    corrector restores, and a DDL hook whose snapshot depends on the statement's
    place in the log; the cp1252 decoder and Go's case folding are arguments. DuckDB, Parquet files and
    the disk are arguments of the key index. Of a rotation the script is an
    argument ([RotateWorld.step]: time, insertions, the answer); what MySQL does
    with DROP and REORGANIZE PARTITION is written out from its manual
    ([drop_partitions], [reorganize]), reads of the local disk do not fail, and
    a directory is a clean path.

    Not modelled, and what comes next

    Database, archive, file and network access; log lines and error prose;
    floating-point values; output formats; of a cascade, the restore statements
    and what an ON UPDATE run delivers (its steps are modelled, the theorems are
    about deleted roots); of a rotation, the parsing of settings, the sidecar,
    the columns of [archive_state] no step reads, and the loop's panics and
    callbacks; of the parsers, error texts, metrics and the JSON form of the
    tally. Next along the plan: gap detection and the start of a capture run,
    MariaDB's fixed-width text, hide rules, the retention of local snapshots. *)
From stdpp Require Export base tactics list gmap strings sorting pretty.
From Stdlib Require Export ZArith Lia Ascii.

#[export] Set Warnings "-register-all,-clear-no-such-hyp".

(** Notations of the development live in a scope of their own. *)
Declare Scope trail_scope.
Delimit Scope trail_scope with trail.

(** Let appended strings simplify when the first one is known. *)
#[global] Arguments String.append : simpl nomatch.

Create HintDb trail discriminated.
Create Rewrite HintDb trailrw.

(** Decides a closed decidable goal by evaluation. *)
Ltac dec_compute := apply (bool_decide_unpack _); vm_compute; exact I.

(** ** Three-way comparison, as Go's [cmp.Compare] and [cmp.Or]

    A Go comparison function returns a negative, zero or positive [int]; only
    the sign is used, so it is modelled by [comparison]. *)

(** [cmp.Or] on comparison results: the first that is not zero. *)
Definition cmp_or (c d : comparison) : comparison :=
  match c with Eq => d | _ => c end.

Infix "⊕" := cmp_or (at level 50, left associativity) : trail_scope.
Open Scope trail_scope.

(** The laws of a comparison function that sorts: a total preorder. *)
Class CmpOrder {A : Type} (cmp : A → A → comparison) : Prop := {
  cmp_antisym x y : cmp x y = CompOpp (cmp y x);
  cmp_trans x y z : cmp x y ≠ Gt → cmp y z ≠ Gt → cmp x z ≠ Gt;
}.

Arguments cmp_antisym {A} cmp {_} x y.
Arguments cmp_trans {A} cmp {_} x y z.

(** A comparison that tells every two distinct values apart. *)
Class CmpTotal {A : Type} (cmp : A → A → comparison) : Prop := {
  cmp_total_order :: CmpOrder cmp;
  cmp_eq x y : cmp x y = Eq → x = y;
}.

Arguments cmp_eq {A} cmp {_} x y.

Section cmp_order.
Context {A : Type} (cmp : A → A → comparison) `{!CmpOrder cmp}.

Lemma cmp_refl x : cmp x x = Eq.
Proof. pose proof (cmp_antisym cmp x x) as H. by destruct (cmp x x). Qed.

Lemma cmp_gt_lt x y : cmp x y = Gt ↔ cmp y x = Lt.
Proof. rewrite (cmp_antisym cmp x y). by destruct (cmp y x). Qed.

Lemma cmp_eq_sym x y : cmp x y = Eq → cmp y x = Eq.
Proof. rewrite (cmp_antisym cmp x y). by destruct (cmp y x). Qed.

Lemma cmp_le_total x y : cmp x y ≠ Gt ∨ cmp y x ≠ Gt.
Proof. rewrite (cmp_antisym cmp y x). destruct (cmp x y); simpl; auto. Qed.

Lemma cmp_eq_trans x y z : cmp x y = Eq → cmp y z = Eq → cmp x z = Eq.
Proof.
  intros H1 H2.
  assert (cmp x z ≠ Gt) by (apply (cmp_trans cmp x y z); congruence).
  assert (cmp z x ≠ Gt) as H4.
  { apply (cmp_trans cmp z y x); rewrite (cmp_antisym cmp); rewrite ?H1, ?H2; done. }
  rewrite (cmp_antisym cmp) in H4. destruct (cmp x z); done.
Qed.

Lemma cmp_eq_lt_trans x y z : cmp x y = Eq → cmp y z = Lt → cmp x z = Lt.
Proof.
  intros H1 H2. destruct (cmp x z) eqn:H3; [|done|].
  - apply cmp_eq_sym in H1. pose proof (cmp_eq_trans _ _ _ H1 H3). congruence.
  - assert (cmp x z ≠ Gt) by (apply (cmp_trans cmp x y z); congruence). done.
Qed.

Lemma cmp_lt_eq_trans x y z : cmp x y = Lt → cmp y z = Eq → cmp x z = Lt.
Proof.
  intros H1 H2. destruct (cmp x z) eqn:H3; [|done|].
  - apply cmp_eq_sym in H2. pose proof (cmp_eq_trans _ _ _ H3 H2). congruence.
  - assert (cmp x z ≠ Gt) by (apply (cmp_trans cmp x y z); congruence). done.
Qed.

Lemma cmp_lt_trans x y z : cmp x y = Lt → cmp y z = Lt → cmp x z = Lt.
Proof.
  intros H1 H2. destruct (cmp x z) eqn:H3; [|done|].
  - apply cmp_eq_sym in H3. pose proof (cmp_eq_lt_trans _ _ _ H3 H1) as H4.
    apply cmp_gt_lt in H4. congruence.
  - assert (cmp x z ≠ Gt) by (apply (cmp_trans cmp x y z); congruence). done.
Qed.

Lemma cmp_lt_le_trans x y z : cmp x y = Lt → cmp y z ≠ Gt → cmp x z = Lt.
Proof. intros H1 H2. destruct (cmp y z) eqn:H3; [by eapply cmp_lt_eq_trans|by eapply cmp_lt_trans|done]. Qed.

Lemma cmp_le_lt_trans x y z : cmp x y ≠ Gt → cmp y z = Lt → cmp x z = Lt.
Proof. intros H1 H2. destruct (cmp x y) eqn:H3; [by eapply cmp_eq_lt_trans|by eapply cmp_lt_trans|done]. Qed.
End cmp_order.

#[export] Hint Resolve cmp_refl cmp_eq_sym : trail.

(** Pulling a comparison back along a projection. *)
Definition cmp_on {A B} (f : A → B) (cmp : B → B → comparison) (x y : A) : comparison :=
  cmp (f x) (f y).

#[export] Instance cmp_on_order {A B} (f : A → B) cmp `{!CmpOrder cmp} : CmpOrder (cmp_on f cmp).
Proof.
  split; unfold cmp_on; intros *; [apply (cmp_antisym cmp)|apply (cmp_trans cmp)].
Qed.

(** Lexicographic composition, the shape of [cmp.Or(c1, c2)]. *)
#[export] Instance cmp_or_order {A} (c1 c2 : A → A → comparison) `{!CmpOrder c1, !CmpOrder c2} :
  CmpOrder (λ x y, c1 x y ⊕ c2 x y).
Proof.
  split.
  - intros *. rewrite (cmp_antisym c1 x y), (cmp_antisym c2 x y).
    by destruct (c1 y x).
  - intros *. unfold cmp_or.
    destruct (c1 x y) eqn:H1, (c1 y z) eqn:H2; try done; intros.
    + rewrite (cmp_eq_trans c1 _ _ _ H1 H2). by eapply (cmp_trans c2).
    + by rewrite (cmp_eq_lt_trans c1 _ _ _ H1 H2).
    + by rewrite (cmp_lt_eq_trans c1 _ _ _ H1 H2).
    + by rewrite (cmp_lt_trans c1 _ _ _ H1 H2).
Qed.

#[export] Instance N_compare_total : CmpTotal N.compare.
Proof.
  split; [split|]; intros *; [apply N.compare_antisym| |apply N.compare_eq].
  rewrite !N.compare_le_iff. lia.
Qed.

#[export] Instance Z_compare_total : CmpTotal Z.compare.
Proof.
  split; [split|]; intros *; [apply Z.compare_antisym| |apply Z.compare_eq].
  rewrite !Z.compare_le_iff. lia.
Qed.

#[export] Instance nat_compare_total : CmpTotal Nat.compare.
Proof.
  split; [split|]; intros *; [apply Nat.compare_antisym| |apply Nat.compare_eq].
  rewrite !Nat.compare_le_iff. lia.
Qed.

(** Go compares strings by bytes, which is [String.compare]. *)
Lemma string_compare_le s t : String.compare s t ≠ Gt ↔ String.le s t.
Proof. unfold String.le, String.leb. destruct (String.compare s t); simpl; naive_solver. Qed.

#[export] Instance string_compare_total : CmpTotal String.compare.
Proof.
  split; [split|]; intros *; [apply String.compare_antisym| |apply String.compare_eq_iff].
  rewrite !string_compare_le. apply transitivity.
Qed.

(** ** Stable sorting, as [slices.SortStableFunc]

    Insertion keeps the first of two equal elements first, so [sort_by] is
    the stable sort. Where the source calls the unstable [slices.SortFunc]
    the comparison is total on the elements at hand and [sort_by_unique]
    says that every sort returns this list. *)

Fixpoint insert_by {A} (cmp : A → A → comparison) (x : A) (l : list A) : list A :=
  match l with
  | [] => [x]
  | y :: l' => match cmp x y with Gt => y :: insert_by cmp x l' | _ => x :: l end
  end.

Definition sort_by {A} (cmp : A → A → comparison) (l : list A) : list A :=
  foldr (insert_by cmp) [] l.

(** The order a sorted slice is in. *)
Definition cmp_le {A} (cmp : A → A → comparison) (x y : A) : Prop := cmp x y ≠ Gt.

#[export] Instance cmp_le_dec {A} (cmp : A → A → comparison) : RelDecision (cmp_le cmp).
Proof. intros x y. unfold cmp_le. solve_decision. Defined.

Section sort_by.
Context {A : Type} (cmp : A → A → comparison).

Lemma insert_by_perm x l : insert_by cmp x l ≡ₚ x :: l.
Proof.
  induction l as [|y l IH]; [done|]. simpl.
  destruct (cmp x y); [done..|]. rewrite IH. constructor.
Qed.

Lemma sort_by_perm l : sort_by cmp l ≡ₚ l.
Proof. induction l as [|x l IH]; [done|]. simpl. by rewrite insert_by_perm, IH. Qed.

Lemma sort_by_length l : length (sort_by cmp l) = length l.
Proof. by rewrite sort_by_perm. Qed.

Lemma elem_of_sort_by x l : x ∈ sort_by cmp l ↔ x ∈ l.
Proof. by rewrite sort_by_perm. Qed.

Lemma sort_by_id l : StronglySorted (cmp_le cmp) l → sort_by cmp l = l.
Proof.
  induction 1 as [|x l Hs IH Hx]; [done|]. simpl. rewrite IH.
  destruct Hx as [|y l Hxy _]; [done|]. simpl. unfold cmp_le in Hxy. by destruct (cmp x y).
Qed.

Context `{!CmpOrder cmp}.

#[local] Instance cmp_le_trans : Transitive (cmp_le cmp).
Proof. intros x y z. apply (cmp_trans cmp). Qed.

Lemma insert_by_sorted x l :
  StronglySorted (cmp_le cmp) l → StronglySorted (cmp_le cmp) (insert_by cmp x l).
Proof.
  induction 1 as [|y l Hs IH Hy]; [by repeat constructor|]. simpl.
  destruct (cmp x y) eqn:Hxy.
  1,2: constructor; [by constructor|]; constructor; [unfold cmp_le; congruence|];
    eapply Forall_impl; [exact Hy|]; intros z Hz; eapply cmp_le_trans; [|exact Hz];
    unfold cmp_le; congruence.
  constructor; [done|]. rewrite Forall_forall. intros z. rewrite insert_by_perm, elem_of_cons.
  intros [->|Hz].
  - unfold cmp_le. apply cmp_gt_lt in Hxy; [|done]. congruence.
  - rewrite Forall_forall in Hy. auto.
Qed.

Lemma sort_by_sorted l : StronglySorted (cmp_le cmp) (sort_by cmp l).
Proof. induction l; [constructor|]. by apply insert_by_sorted. Qed.

(** Any sorted rearrangement is [sort_by]'s, when equal elements are one. *)
Lemma sort_by_unique l l' :
  (∀ x y, x ∈ l → y ∈ l → cmp x y = Eq → x = y) →
  l' ≡ₚ l → StronglySorted (cmp_le cmp) l' → l' = sort_by cmp l.
Proof.
  intros Heq Hp Hs. eapply StronglySorted_unique_strong; [| |apply sort_by_sorted|].
  - intros x y Hx Hy H1 H2. rewrite Hp in Hx. rewrite sort_by_perm in Hy.
    unfold cmp_le in *. apply Heq; [done..|]. rewrite (cmp_antisym cmp) in H2.
    by destruct (cmp x y).
  - done.
  - by rewrite Hp, sort_by_perm.
Qed.

Lemma sort_by_proper l l' :
  (∀ x y, x ∈ l → y ∈ l → cmp x y = Eq → x = y) →
  l ≡ₚ l' → sort_by cmp l = sort_by cmp l'.
Proof.
  intros Heq Hp. symmetry. apply sort_by_unique; [done| |apply sort_by_sorted].
  by rewrite sort_by_perm.
Qed.
End sort_by.

#[export] Hint Resolve sort_by_perm sort_by_sorted : trail.
#[export] Hint Rewrite @sort_by_length : trailrw.

(** Sorting the images is the image of the sorted list. *)
Lemma insert_by_fmap {A B} (f : A → B) cmp x l :
  insert_by cmp (f x) (f <$> l) = f <$> insert_by (cmp_on f cmp) x l.
Proof.
  induction l as [|y l IH]; [done|]. csimpl. unfold cmp_on at 1.
  destruct (cmp (f x) (f y)); [done..|]. csimpl. by f_equal.
Qed.

Lemma sort_by_fmap {A B} (f : A → B) cmp l :
  sort_by cmp (f <$> l) = f <$> sort_by (cmp_on f cmp) l.
Proof.
  induction l as [|x l IH]; [done|]. rewrite fmap_cons. unfold sort_by in *. simpl.
  rewrite IH. apply insert_by_fmap.
Qed.

(** ** A value or an error

    A Go call that returns [(T, error)] is a [T + E]: [inl] the value, [inr] the
    error. [x ←? m; k] is the early return on an error, [ensure b or e; k] the
    guard [if !b { return e }]. *)

Definition try_bind {A B E : Type} (m : A + E) (k : A → B + E) : B + E :=
  match m with inl a => k a | inr e => inr e end.

Notation "x ←? m ; k" := (try_bind m (λ x, k))
  (at level 20, m at level 100, k at level 200, only parsing) : trail_scope.
Notation "' x ←? m ; k" := (try_bind m (λ x, k))
  (at level 20, x pattern, m at level 100, k at level 200, only parsing) : trail_scope.
Notation "'ensure' b 'or' e ; k" := (if b then k else inr e)
  (at level 20, b at level 100, e at level 100, k at level 200, only parsing) : trail_scope.

(** An option with the error a missing value is. *)
Definition or_err {A E : Type} (m : option A) (e : E) : A + E :=
  match m with Some a => inl a | None => inr e end.

Lemma try_bind_inl {A B E} (m : A + E) (k : A → B + E) b :
  try_bind m k = inl b ↔ ∃ a, m = inl a ∧ k a = inl b.
Proof. destruct m; simpl; naive_solver. Qed.

Lemma or_err_inl {A E} (m : option A) (e : E) a : or_err m e = inl a ↔ m = Some a.
Proof. destruct m; simpl; naive_solver. Qed.

(** Takes a successful run apart: every call in it returned a value and every
    guard held. *)
Ltac inv_try :=
  repeat match goal with
  | H : try_bind _ _ = inl _ |- _ => apply try_bind_inl in H as (? & ? & H)
  | H : or_err _ _ = inl _ |- _ => apply or_err_inl in H
  | H : (if ?b then _ else inr _) = inl _ |- _ => let Hb := fresh "Hb" in destruct b eqn:Hb; [|discriminate H]
  | H : inl _ = inl _ |- _ => injection H as H
  | H : inr _ = inl _ |- _ => discriminate H
  | H : context [let '(_, _) := ?p in _] |- _ => destruct p
  end.

(** ** Generic lemmas on lists *)

Lemma filter_iff_in {A} (P Q : A → Prop) `{!∀ x, Decision (P x), !∀ x, Decision (Q x)} (l : list A) :
  (∀ x, x ∈ l → P x ↔ Q x) → filter P l = filter Q l.
Proof.
  induction l as [|x l IH]; intros Hl; [done|]. rewrite !filter_cons.
  rewrite IH by (intros y Hy; apply Hl; by right).
  assert (P x ↔ Q x) by (apply Hl; by left).
  repeat case_decide; tauto.
Qed.

Lemma filter_all {A} (P : A → Prop) `{!∀ x, Decision (P x)} (l : list A) :
  (∀ x, x ∈ l → P x) → filter P l = l.
Proof.
  induction l as [|x l IH]; intros Hl; [done|]. rewrite filter_cons, decide_True by (apply Hl; by left).
  rewrite IH; [done|]. intros y Hy. apply Hl. by right.
Qed.

Lemma Forall_filter_of {A} (P Q : A → Prop) `{!∀ x, Decision (Q x)} (l : list A) :
  Forall P l → Forall P (filter Q l).
Proof. rewrite !Forall_forall. intros Hl x [_ Hx]%list_elem_of_filter. auto. Qed.

Lemma filter_none {A} (P : A → Prop) `{!∀ x, Decision (P x)} (l : list A) :
  (∀ x, x ∈ l → ¬ P x) → filter P l = [].
Proof.
  induction l as [|x l IH]; intros Hl; [done|]. rewrite filter_cons, decide_False by (apply Hl; by left).
  apply IH. intros y Hy. apply Hl. by right.
Qed.

(** Disjoint tests share out the elements that pass one of them. *)
Lemma filter_length_disjoint {A} (P Q R : A → Prop)
    `{!∀ x, Decision (P x), !∀ x, Decision (Q x), !∀ x, Decision (R x)} (l : list A) :
  (∀ x, P x → Q x → False) → (∀ x, R x ↔ P x ∨ Q x) →
  length (filter R l) = length (filter P l) + length (filter Q l).
Proof.
  intros Hd Hr. induction l as [|x l IH]; [done|]. rewrite !filter_cons.
  repeat case_decide; simpl; rewrite ?IH; try lia; exfalso; naive_solver.
Qed.

Lemma filter_fmap {A B} (f : A → B) (P : B → Prop) `{!∀ x, Decision (P x)} (l : list A) :
  filter P (f <$> l) = f <$> filter (λ x, P (f x)) l.
Proof. induction l as [|x l IH]; [done|]. csimpl. rewrite !filter_cons. case_decide; csimpl; by rewrite IH. Qed.

Lemma StronglySorted_sublist {A} (R : relation A) (l k : list A) :
  l `sublist_of` k → StronglySorted R k → StronglySorted R l.
Proof.
  induction 1 as [|x l k Hl IH|x l k Hl IH]; [done|..]; intros [Hs Hx]%StronglySorted_inv; [|auto].
  constructor; [auto|]. rewrite Forall_forall in *. intros y Hy. apply Hx. by eapply elem_of_sublist.
Qed.

Lemma StronglySorted_filter {A} (R : relation A) (P : A → Prop) `{!∀ x, Decision (P x)} (l : list A) :
  StronglySorted R l → StronglySorted R (filter P l).
Proof. apply StronglySorted_sublist, sublist_filter. Qed.

Lemma concat_snoc {A} (l : list (list A)) x : concat (l ++ [x]) = concat l ++ x.
Proof. rewrite concat_app. simpl. by rewrite app_nil_r. Qed.

(** The last [n] elements. *)
Definition lastn {A} (n : nat) (l : list A) : list A := drop (length l - n) l.

Lemma lastn_all {A} n (l : list A) : length l ≤ n → lastn n l = l.
Proof. intros. unfold lastn. by replace (length l - n) with 0 by lia. Qed.

Lemma lastn_cons_ge {A} n (x : A) l : n ≤ length l → lastn n (x :: l) = lastn n l.
Proof. intros. unfold lastn. simpl. by replace (S (length l) - n) with (S (length l - n)) by lia. Qed.

Lemma lastn_length {A} n (l : list A) : length (lastn n l) = n `min` length l.
Proof. unfold lastn. rewrite length_drop. lia. Qed.

#[export] Hint Rewrite @lastn_length : trailrw.
