(* ===== verification/GoStrings.v ===== *)
(** * Go strings: the operations of [strings], [unicode/utf8] and
    [encoding/hex] that the modelled code calls

    A Go [string] is a sequence of bytes. It is modelled by [string], whose
    [ascii] elements are bytes. *)
From S2P Require Import Prelude.


(** ** Bytes *)

Definition byte_val (c : ascii) : N := N_of_ascii c.

(** [c < 0x80]. *)
Definition is_ascii (c : ascii) : bool := (byte_val c <? 128)%N.

(** [c >= '0' && c <= '9']. *)
Definition is_digit (c : ascii) : bool := ((48 <=? byte_val c) && (byte_val c <=? 57))%N.

Definition str1 (c : ascii) : string := String c "".

(** ** [strings.Contains] and [strings.ReplaceAll] with a one-byte argument *)

Fixpoint has_byte (c : ascii) (s : string) : bool :=
  match s with
  | "" => false
  | String d s' => bool_decide (c = d) || has_byte c s'
  end.

Fixpoint replace_byte (c : ascii) (r : string) (s : string) : string :=
  match s with
  | "" => ""
  | String d s' => (if decide (c = d) then r else str1 d) +:+ replace_byte c r s'
  end.

(** [strings.Count] with a one-byte argument. *)
Fixpoint count_byte (c : ascii) (s : string) : nat :=
  match s with
  | "" => 0
  | String d s' => (if decide (c = d) then 1 else 0) + count_byte c s'
  end.

(** Every byte passes the test. *)
Fixpoint str_forall (p : ascii → bool) (s : string) : bool :=
  match s with
  | "" => true
  | String c s' => p c && str_forall p s'
  end.

(** [strings.LastIndexByte(s, c)], [None] for -1. *)
Fixpoint last_index_byte (c : ascii) (s : string) : option nat :=
  match s with
  | "" => None
  | String d s' =>
      match last_index_byte c s' with
      | Some i => Some (S i)
      | None => if decide (c = d) then Some 0 else None
      end
  end.

(** The slices [s[:n]] and [s[n:]], for [n <= len(s)]. *)
Fixpoint str_take (n : nat) (s : string) : string :=
  match n, s with
  | S n', String c s' => String c (str_take n' s')
  | _, _ => ""
  end.

Fixpoint str_drop (n : nat) (s : string) : string :=
  match n, s with
  | S n', String _ s' => str_drop n' s'
  | _, _ => s
  end.

(** ** ASCII case, as [strings.ToUpper], [strings.ToLower] and
    [strings.EqualFold] act on ASCII text *)

Definition upper_byte (c : ascii) : ascii :=
  if ((97 <=? byte_val c) && (byte_val c <=? 122))%N
  then ascii_of_N (byte_val c - 32) else c.

Fixpoint str_map (f : ascii → ascii) (s : string) : string :=
  match s with
  | "" => ""
  | String c s' => String (f c) (str_map f s')
  end.

Definition to_upper (s : string) : string := str_map upper_byte s.

Definition lower_byte (c : ascii) : ascii :=
  if ((65 <=? byte_val c) && (byte_val c <=? 90))%N
  then ascii_of_N (byte_val c + 32) else c.

Definition to_lower (s : string) : string := str_map lower_byte s.

(** [strings.EqualFold] on ASCII text. *)
Definition equal_fold (s t : string) : bool := bool_decide (to_lower s = to_lower t).

(** ** [strings.TrimSpace] on ASCII text, [TrimRight] with one byte *)

Definition is_space (c : ascii) : bool :=
  ((byte_val c =? 32) || ((9 <=? byte_val c) && (byte_val c <=? 13)))%N.

Fixpoint trim_left (p : ascii → bool) (s : string) : string :=
  match s with
  | "" => ""
  | String c s' => if p c then trim_left p s' else s
  end.

Fixpoint trim_right (p : ascii → bool) (s : string) : string :=
  match s with
  | "" => ""
  | String c s' =>
      match trim_right p s' with
      | "" => if p c then "" else str1 c
      | t => String c t
      end
  end.

Definition trim_space (s : string) : string := trim_right is_space (trim_left is_space s).

(** [strings.HasPrefix], [strings.HasSuffix]. *)
Definition has_prefix (s prefix : string) : bool :=
  bool_decide (str_take (String.length prefix) s = prefix).

Definition has_suffix (s suffix : string) : bool :=
  (String.length suffix <=? String.length s) &&
  bool_decide (str_drop (String.length s - String.length suffix) s = suffix).

(** ** [strconv.Atoi] *)

Fixpoint digits_val (s : string) (acc : Z) : option Z :=
  match s with
  | "" => Some acc
  | String c s' => if is_digit c then digits_val s' (acc * 10 + Z.of_N (byte_val c - 48)) else None
  end.

Definition atoi (s : string) : option Z :=
  let '(sign, body) :=
    match s with
    | String c s' =>
        if bool_decide (c = "-"%char) then ((-1)%Z, s')
        else if bool_decide (c = "+"%char) then (1%Z, s') else (1%Z, s)
    | "" => (1%Z, s)
    end in
  if bool_decide (body = "") then None
  else
    match digits_val body 0 with
    | Some n =>
        let v := (sign * n)%Z in
        if (- 2 ^ 63 <=? v)%Z && (v <? 2 ^ 63)%Z then Some v else None
    | None => None
    end.

Example atoi_samples :
  atoi "16" = Some 16%Z ∧ atoi "-3" = Some (-3)%Z ∧ atoi "" = None ∧ atoi "1a" = None ∧
  atoi "9223372036854775808" = None ∧ trim_space " Binary " = "Binary" ∧
  has_suffix "binary(16)" ")" = true ∧ has_prefix "binary(16)" "binary(" = true.
Proof. repeat split; vm_compute; reflexivity. Qed.

(** ** [hex.EncodeToString] *)

Definition hex_digit (n : N) : ascii :=
  if (n <? 10)%N then ascii_of_N (48 + n) else ascii_of_N (87 + n).

Fixpoint hex_encode (s : string) : string :=
  match s with
  | "" => ""
  | String c s' =>
      String (hex_digit (byte_val c / 16)) (String (hex_digit (byte_val c mod 16)) (hex_encode s'))
  end.

(** ** [utf8.Valid] and [utf8.ValidString]

    The accepting automaton of RFC 3629, with the byte ranges of the table
    [first]/[acceptRanges] of Go's package: between runes ([UStart]), or with
    [n + 1] continuation bytes to come of which the next lies in [lo, hi]. *)

Inductive ustate :=
| UStart
| UCont (lo hi : N) (n : nat).

#[export] Instance ustate_eq_dec : EqDecision ustate.
Proof. solve_decision. Defined.

Definition ustart (b : N) : option ustate :=
  if (b <? 128)%N then Some UStart
  else if (b <? 194)%N then None
  else if (b <? 224)%N then Some (UCont 128 191 0)
  else if (b =? 224)%N then Some (UCont 160 191 1)
  else if (b =? 237)%N then Some (UCont 128 159 1)
  else if (b <? 240)%N then Some (UCont 128 191 1)
  else if (b =? 240)%N then Some (UCont 144 191 2)
  else if (b <? 244)%N then Some (UCont 128 191 2)
  else if (b =? 244)%N then Some (UCont 128 143 2)
  else None.

Definition ustep (u : ustate) (c : ascii) : option ustate :=
  let b := byte_val c in
  match u with
  | UStart => ustart b
  | UCont lo hi n =>
      if ((lo <=? b) && (b <=? hi))%N
      then Some (match n with 0 => UStart | S n' => UCont 128 191 n' end)
      else None
  end.

Fixpoint urun (u : ustate) (s : string) : option ustate :=
  match s with
  | "" => Some u
  | String c s' => ustep u c ≫= λ u', urun u' s'
  end.

Definition utf8_valid (s : string) : bool := bool_decide (urun UStart s = Some UStart).

(** ** Lemmas *)

Lemma str_app_assoc (s t u : string) : (s +:+ t) +:+ u = s +:+ (t +:+ u).
Proof. induction s as [|c s IH]; [done|]. simpl. by rewrite IH. Qed.

Lemma str_app_nil_r (s : string) : s +:+ "" = s.
Proof. induction s as [|c s IH]; [done|]. simpl. by rewrite IH. Qed.

Lemma str_cons_app c (s : string) : String c s = str1 c +:+ s.
Proof. done. Qed.

#[export] Hint Rewrite str_app_assoc str_app_nil_r : trailrw.

Lemma str_app_inj_l (s t u : string) : s +:+ t = s +:+ u → t = u.
Proof. induction s as [|c s IH]; [done|]. simpl. intros [=]. auto. Qed.

Lemma str_app_empty s t : s +:+ t = "" → s = "" ∧ t = "".
Proof. by destruct s. Qed.

Lemma str_length_app (s t : string) : String.length (s +:+ t) = String.length s + String.length t.
Proof. induction s as [|c s IH]; [done|]. simpl. by rewrite IH. Qed.

Lemma replace_byte_app c r s t :
  replace_byte c r (s +:+ t) = replace_byte c r s +:+ replace_byte c r t.
Proof.
  induction s as [|d s IH]; [done|]. simpl. by rewrite IH, <-str_app_assoc.
Qed.

Lemma has_byte_app c s t : has_byte c (s +:+ t) = has_byte c s || has_byte c t.
Proof. induction s as [|d s IH]; [done|]. simpl. by rewrite IH, orb_assoc. Qed.

Lemma str_take_app s t : str_take (String.length s) (s +:+ t) = s.
Proof. induction s as [|c s IH]; [by destruct t|]. simpl. by rewrite IH. Qed.

Lemma str_drop_app s t : str_drop (String.length s) (s +:+ t) = t.
Proof. induction s as [|c s IH]; [by destruct t|]. done. Qed.

Lemma str_forall_app p s t : str_forall p (s +:+ t) = str_forall p s && str_forall p t.
Proof. induction s as [|c s IH]; [done|]. simpl. by rewrite IH, andb_assoc. Qed.

Lemma str_forall_impl (p q : ascii → bool) s :
  (∀ c, p c = true → q c = true) → str_forall p s = true → str_forall q s = true.
Proof.
  intros Hpq. induction s as [|c s IH]; [done|]. simpl.
  rewrite !andb_true_iff. intros [??]. auto.
Qed.

(** *** Validity: an ASCII byte always sits between two runes. *)

Lemma urun_app u s t : urun u (s +:+ t) = urun u s ≫= λ u', urun u' t.
Proof.
  revert u. induction s as [|c s IH]; [done|]. intros u. simpl.
  destruct (ustep u c); simpl; auto.
Qed.

Definition ustate_wf (u : ustate) : Prop :=
  match u with UStart => True | UCont lo _ _ => (128 ≤ lo)%N end.

Lemma ustep_wf u c u' : ustate_wf u → ustep u c = Some u' → ustate_wf u'.
Proof.
  destruct u as [|lo hi n]; unfold ustep, ustart; intros Hwf Hs;
    repeat case_match; simplify_eq; simpl in *; lia.
Qed.

Lemma urun_wf u s u' : ustate_wf u → urun u s = Some u' → ustate_wf u'.
Proof.
  revert u. induction s as [|c s IH]; intros u Hwf; simpl; [by intros [= <-]|].
  intros (v & Hv & Hs)%bind_Some. eauto using ustep_wf.
Qed.

Lemma ustep_ascii u c : ustate_wf u → is_ascii c = true →
  ustep u c = match u with UStart => Some UStart | _ => None end.
Proof.
  unfold is_ascii. intros Hwf Hc%N.ltb_lt. destruct u as [|lo hi n]; simpl in *.
  - unfold ustart. by rewrite (proj2 (N.ltb_lt _ _) Hc).
  - assert ((lo <=? byte_val c)%N = false) as ->; [apply N.leb_gt; lia|done].
Qed.

Lemma utf8_valid_cut s c t : is_ascii c = true →
  utf8_valid (s +:+ String c t) = utf8_valid s && utf8_valid t.
Proof.
  intros Hc. unfold utf8_valid. rewrite urun_app.
  destruct (urun UStart s) as [u|] eqn:Hs; simpl.
  - rewrite ustep_ascii; [|by eapply (urun_wf UStart s u)|done].
    by destruct u.
  - done.
Qed.

Lemma utf8_valid_cons c t : is_ascii c = true → utf8_valid (String c t) = utf8_valid t.
Proof. intros. exact (utf8_valid_cut "" c t H). Qed.

Lemma utf8_valid_ascii s : str_forall is_ascii s = true → utf8_valid s = true.
Proof.
  induction s as [|c s IH]; [done|]. simpl. rewrite andb_true_iff. intros [??].
  rewrite utf8_valid_cons by done. auto.
Qed.

Lemma hex_encode_ascii s : str_forall is_ascii (to_upper (hex_encode s)) = true.
Proof.
  induction s as [|c s IH]; [done|]. unfold to_upper in *. simpl. rewrite IH.
  destruct c as [[] [] [] [] [] [] [] []]; reflexivity.
Qed.

Lemma hex_encode_length s : String.length (hex_encode s) = 2 * String.length s.
Proof. induction s as [|c s IH]; [done|]. simpl. rewrite IH. lia. Qed.

(** The value of an upper-case hexadecimal digit. *)
Definition unhex_digit (c : ascii) : N :=
  if is_digit c then (byte_val c - 48)%N else (byte_val c - 55)%N.

Lemma unhex_byte c :
  ascii_of_N (16 * unhex_digit (upper_byte (hex_digit (byte_val c / 16)))
              + unhex_digit (upper_byte (hex_digit (byte_val c mod 16)))) = c.
Proof. destruct c as [[] [] [] [] [] [] [] []]; reflexivity. Qed.

Lemma upper_hex_inj s t : to_upper (hex_encode s) = to_upper (hex_encode t) → s = t.
Proof.
  unfold to_upper. revert t. induction s as [|c s IH]; intros [|d t]; [done..|].
  cbn [hex_encode str_map]. intros [= H1 H2 H3]. f_equal; [|by apply IH].
  rewrite <-(unhex_byte c), <-(unhex_byte d). by rewrite H1, H2.
Qed.

(** *** Joins *)

Lemma concat_cons sep x l :
  String.concat sep (x :: l) = match l with [] => x | _ => x +:+ sep +:+ String.concat sep l end.
Proof. by destruct l. Qed.

(** ** Decimal text, as [%d] and [%0wd] print an unsigned number *)

Definition digit (n : N) : ascii := ascii_of_N (48 + n).

(** The [w] low decimal digits of [n]. *)
Fixpoint fixed (w : nat) (n : N) : string :=
  match w with
  | 0 => ""
  | S w' => fixed w' (n / 10) +:+ str1 (digit (n mod 10))
  end.

(** How many digits [n] has; [fuel] is its size in bits, which is enough. *)
Fixpoint ndigits_go (fuel : nat) (n : N) : nat :=
  match fuel with
  | 0 => 1
  | S f => if (n <? 10)%N then 1 else S (ndigits_go f (n / 10))
  end.

Definition ndigits (n : N) : nat := ndigits_go (N.to_nat (N.size n)) n.

(** [%0wd]. *)
Definition pad (w : nat) (n : N) : string := fixed (w `max` ndigits n) n.

Example pad_samples :
  pad 4 13 = "0013" ∧ pad 4 12345 = "12345" ∧ pad 0 0 = "0" ∧
  pad 20 18446744073709551615 = "18446744073709551615".
Proof. repeat split; vm_compute; reflexivity. Qed.

Lemma mod10_lt (n : N) : (n mod 10 < 10)%N.
Proof. by apply N.mod_upper_bound. Qed.

Lemma fixed_length w n : String.length (fixed w n) = w.
Proof. revert n. induction w; intros; simpl; [done|]. rewrite str_length_app, IHw. simpl. lia. Qed.

Lemma fixed_no_byte c w n : is_digit c = false → has_byte c (fixed w n) = false.
Proof.
  intros Hc. revert n. induction w as [|w IH]; intros n; [done|]. simpl.
  rewrite has_byte_app, IH. simpl. rewrite orb_false_r.
  apply bool_decide_eq_false_2. intros ->. clear IH. revert Hc. unfold is_digit, digit, byte_val.
  pose proof (mod10_lt n) as Hk. revert Hk. generalize (n mod 10)%N. intros k Hk.
  rewrite N_ascii_embedding by lia. intros [H%N.leb_gt|H%N.leb_gt]%andb_false_iff; lia.
Qed.

Lemma string_compare_snoc s t c d : String.length s = String.length t →
  String.compare (s +:+ str1 c) (t +:+ str1 d) = (String.compare s t ⊕ Ascii.compare c d)%trail.
Proof.
  revert t. induction s as [|a s IH]; intros [|b t]; simpl; try lia; intros Hl.
  - by destruct (Ascii.compare c d).
  - rewrite IH by lia. by destruct (Ascii.compare a b).
Qed.

Lemma N_add_compare_mono_l (p n m : N) : N.compare (p + n) (p + m) = N.compare n m.
Proof.
  destruct (N.compare_spec n m) as [->|H|H];
    [apply N.compare_refl|apply N.compare_lt_iff; lia|apply N.compare_gt_iff; lia].
Qed.

Lemma digit_compare n m : (n < 10)%N → (m < 10)%N →
  Ascii.compare (digit n) (digit m) = N.compare n m.
Proof.
  intros. unfold Ascii.compare, digit. rewrite !N_ascii_embedding by lia.
  apply N_add_compare_mono_l.
Qed.

Lemma lex10 (a b r s : N) : (a < b → r < 10 → 10 * a + r < 10 * b + s)%N.
Proof. lia. Qed.

(** Equal-width decimals compare as the numbers they hold. *)
Lemma fixed_compare w n m : (n < 10 ^ N.of_nat w)%N → (m < 10 ^ N.of_nat w)%N →
  String.compare (fixed w n) (fixed w m) = N.compare n m.
Proof.
  revert n m. induction w as [|w IH]; intros n m Hn Hm.
  { simpl in *. assert (n = 0%N) as -> by lia. by assert (m = 0%N) as -> by lia. }
  rewrite Nat2N.inj_succ, N.pow_succ_r' in Hn, Hm.
  assert (n / 10 < 10 ^ N.of_nat w)%N by (apply N.Div0.div_lt_upper_bound; lia).
  assert (m / 10 < 10 ^ N.of_nat w)%N by (apply N.Div0.div_lt_upper_bound; lia).
  pose proof (mod10_lt n). pose proof (mod10_lt m).
  simpl. rewrite string_compare_snoc by by rewrite !fixed_length.
  rewrite IH, digit_compare by lia.
  rewrite (N.div_mod n 10) at 3 by lia. rewrite (N.div_mod m 10) at 3 by lia. unfold cmp_or.
  destruct (N.compare_spec (n / 10) (m / 10)) as [Heq|Hlt|Hgt].
  - rewrite Heq. symmetry. apply N_add_compare_mono_l.
  - symmetry. by apply N.compare_lt_iff, lex10.
  - symmetry. by apply N.compare_gt_iff, lex10.
Qed.

Lemma ndigits_go_bound fuel n : (n < 2 ^ N.of_nat fuel)%N →
  (n < 10 ^ N.of_nat (ndigits_go fuel n))%N.
Proof.
  revert n. induction fuel as [|f IH]; intros n Hn; simpl in *; [lia|].
  destruct (n <? 10)%N eqn:H10; [apply N.ltb_lt in H10; lia|].
  rewrite Nat2N.inj_succ, N.pow_succ_r' in *.
  assert (n / 10 < 10 ^ N.of_nat (ndigits_go f (n / 10)))%N.
  { apply IH. apply N.Div0.div_lt_upper_bound. lia. }
  pose proof (N.Div0.div_mod n 10). pose proof (mod10_lt n). lia.
Qed.

Lemma ndigits_go_least fuel n : 1 < ndigits_go fuel n →
  (10 ^ N.of_nat (pred (ndigits_go fuel n)) ≤ n)%N.
Proof.
  revert n. induction fuel as [|f IH]; intros n Hn; simpl in *; [lia|].
  destruct (n <? 10)%N eqn:H10; [lia|]. apply N.ltb_ge in H10. simpl in *.
  destruct (decide (1 < ndigits_go f (n / 10))) as [Hd|Hd].
  - specialize (IH _ Hd). destruct (ndigits_go f (n / 10)) as [|d]; [lia|]. simpl in *.
    rewrite Nat2N.inj_succ, N.pow_succ_r'.
    etransitivity; [apply N.mul_le_mono_l, IH|]. by apply N.Div0.mul_div_le.
  - assert (ndigits_go f (n / 10) ≤ 1) as Hle by lia.
    transitivity (10 ^ 1)%N; [apply N.pow_le_mono_r; lia|done].
Qed.

Lemma ndigits_bound n : (n < 10 ^ N.of_nat (ndigits n))%N.
Proof. apply ndigits_go_bound. rewrite N2Nat.id. apply N.size_gt. Qed.

Lemma ndigits_pos n : 1 ≤ ndigits n.
Proof. unfold ndigits. destruct (N.to_nat (N.size n)); simpl; [lia|]. case_match; lia. Qed.

Lemma ndigits_least n : 1 < ndigits n → (10 ^ N.of_nat (pred (ndigits n)) ≤ n)%N.
Proof. apply ndigits_go_least. Qed.

Lemma ndigits_lt n m : ndigits n < ndigits m → (n < m)%N.
Proof.
  intros Hl. pose proof (ndigits_bound n). pose proof (ndigits_pos n).
  assert (10 ^ N.of_nat (pred (ndigits m)) ≤ m)%N by (apply ndigits_least; lia).
  assert (10 ^ N.of_nat (ndigits n) ≤ 10 ^ N.of_nat (pred (ndigits m)))%N
    by (apply N.pow_le_mono_r; lia). lia.
Qed.

Lemma pad_length w n : String.length (pad w n) = w `max` ndigits n.
Proof. apply fixed_length. Qed.

Lemma pad_bound w n : (n < 10 ^ N.of_nat (w `max` ndigits n))%N.
Proof.
  eapply N.lt_le_trans; [apply ndigits_bound|]. apply N.pow_le_mono_r; lia.
Qed.

(** Zero-padded decimals compare as numbers when the shorter one comes first. *)
Lemma pad_compare w n m :
  (Nat.compare (String.length (pad w n)) (String.length (pad w m))
    ⊕ String.compare (pad w n) (pad w m))%trail = N.compare n m.
Proof.
  rewrite !pad_length. unfold cmp_or.
  destruct (Nat.compare_spec (w `max` ndigits n) (w `max` ndigits m)) as [Heq|Hlt|Hgt].
  - unfold pad. rewrite Heq. apply fixed_compare; [rewrite <-Heq|]; apply pad_bound.
  - symmetry. apply N.compare_lt_iff, ndigits_lt. lia.
  - symmetry. apply N.compare_gt_iff, ndigits_lt. lia.
Qed.

Lemma pad_small w n : 1 ≤ w → (n < 10 ^ N.of_nat w)%N → pad w n = fixed w n.
Proof.
  intros Hw Hn. unfold pad. f_equal. apply Nat.max_l.
  destruct (decide (ndigits n ≤ w)) as [|Hgt]; [done|]. exfalso.
  assert (10 ^ N.of_nat (pred (ndigits n)) ≤ n)%N by (apply ndigits_least; lia).
  assert (10 ^ N.of_nat w ≤ 10 ^ N.of_nat (pred (ndigits n)))%N by (apply N.pow_le_mono_r; lia). lia.
Qed.

(** A common prefix, or a first difference between strings of one length,
    decides the comparison. *)
Lemma string_compare_app_l s t u :
  String.compare (s +:+ t) (s +:+ u) = String.compare t u.
Proof.
  induction s as [|c s IH]; [done|]. simpl. unfold Ascii.compare. by rewrite N.compare_refl.
Qed.

Lemma string_compare_app s t u v : String.length s = String.length t →
  String.compare (s +:+ u) (t +:+ v) = (String.compare s t ⊕ String.compare u v)%trail.
Proof.
  revert t. induction s as [|a s IH]; intros [|b t]; simpl; try lia; intros Hl; [done|].
  rewrite IH by lia. by destruct (Ascii.compare a b).
Qed.

(** The high digits are those of the quotient. *)
Lemma fixed_split d k n : fixed (d + k) n = fixed d (n / 10 ^ N.of_nat k) +:+ fixed k n.
Proof.
  revert n. induction k as [|k IH]; intros n.
  - rewrite Nat.add_0_r, N.div_1_r. simpl. by rewrite str_app_nil_r.
  - rewrite Nat.add_succ_r. simpl. rewrite IH, N.Div0.div_div, <-str_app_assoc.
    replace (10 * 10 ^ N.of_nat k)%N with (10 ^ N.of_nat (S k))%N; [done|].
    rewrite Nat2N.inj_succ, N.pow_succ_r'. done.
Qed.

(** ** Trimming one side *)

Lemma trim_right_app_all p s t : str_forall p t = true → trim_right p (s +:+ t) = trim_right p s.
Proof.
  intros Ht. assert (trim_right p t = "") as H0.
  { induction t as [|c t IH]; [done|]. simpl in *. apply andb_true_iff in Ht as [Hc Ht].
    by rewrite IH, Hc. }
  induction s as [|c s IH]; simpl; [done|]. by rewrite IH.
Qed.

(** What is trimmed all passes the test. *)
Lemma trim_right_split p s : ∃ t, s = trim_right p s +:+ t ∧ str_forall p t = true.
Proof.
  induction s as [|c s (t & Hs & Ht)]; [by exists ""|]. simpl.
  destruct (trim_right p s) as [|d r] eqn:Hr.
  - destruct (p c) eqn:Hc.
    + exists (String c s). simpl. simpl in Hs. subst s. by rewrite Hc, Ht.
    + exists s. simpl in Hs. subst s. done.
  - exists t. split; [|done]. by rewrite Hs at 1.
Qed.

Lemma trim_right_idem p s : trim_right p (trim_right p s) = trim_right p s.
Proof.
  destruct (trim_right_split p s) as (t & Hs & Ht). rewrite Hs at 2. by rewrite trim_right_app_all.
Qed.

Lemma trim_left_map p f s : (∀ c, p (f c) = p c) → trim_left p (str_map f s) = str_map f (trim_left p s).
Proof. intros Hf. induction s as [|c s IH]; [done|]. simpl. rewrite Hf. by destruct (p c). Qed.

Lemma trim_right_map p f s : (∀ c, p (f c) = p c) → trim_right p (str_map f s) = str_map f (trim_right p s).
Proof.
  intros Hf. induction s as [|c s IH]; [done|]. simpl. rewrite IH, Hf.
  destruct (trim_right p s); simpl; [by destruct (p c)|done].
Qed.

Lemma trim_left_id p s : match s with "" => True | String c _ => p c = false end → trim_left p s = s.
Proof. destruct s as [|c s]; [done|]. simpl. by intros ->. Qed.

Lemma trim_left_head p s : match trim_left p s with "" => True | String c _ => p c = false end.
Proof. induction s as [|c s IH]; [done|]. simpl. by destruct (p c) eqn:Hc. Qed.

Lemma trim_right_head p s :
  match s with "" => True | String c _ => p c = false end →
  match trim_right p s with "" => True | String c _ => p c = false end.
Proof. destruct s as [|c s]; [done|]. simpl. intros Hc. destruct (trim_right p s); by rewrite ?Hc. Qed.

Lemma trim_space_idem s : trim_space (trim_space s) = trim_space s.
Proof.
  unfold trim_space. rewrite (trim_left_id _ (trim_right _ _)); [apply trim_right_idem|].
  apply trim_right_head, trim_left_head.
Qed.

(** A statement about all 256 bytes is decided by evaluation. *)
Lemma forall_bytes (P : ascii → bool) :
  forallb (λ n, P (ascii_of_nat n)) (seq 0 256) = true → ∀ c, P c = true.
Proof.
  intros H c. rewrite forallb_forall in H. rewrite <-(ascii_nat_embedding c). apply H.
  apply in_seq. pose proof (nat_ascii_bounded c). lia.
Qed.

Lemma is_space_lower c : is_space (lower_byte c) = is_space c.
Proof.
  apply eqb_prop. revert c. apply (forall_bytes (λ c, Bool.eqb (is_space (lower_byte c)) (is_space c))).
  vm_compute. reflexivity.
Qed.

Lemma lower_byte_idem c : lower_byte (lower_byte c) = lower_byte c.
Proof.
  apply Ascii.eqb_eq. revert c. apply (forall_bytes (λ c, Ascii.eqb (lower_byte (lower_byte c)) (lower_byte c))).
  vm_compute. reflexivity.
Qed.

Lemma to_lower_idem s : to_lower (to_lower s) = to_lower s.
Proof. unfold to_lower. induction s as [|c s IH]; [done|]. simpl. by rewrite lower_byte_idem, IH. Qed.

(** [strings.ToLower(strings.TrimSpace(s))] is its own normal form. *)
Lemma lower_trim_idem s : to_lower (trim_space (to_lower (trim_space s))) = to_lower (trim_space s).
Proof.
  assert (trim_space (to_lower (trim_space s)) = to_lower (trim_space s)) as ->; [|apply to_lower_idem].
  unfold to_lower. rewrite <-(trim_space_idem s) at 2. unfold trim_space at 1.
  rewrite trim_left_map, trim_right_map by apply is_space_lower. done.
Qed.
