(* ===== verification/GoTime.v ===== *)
(** * Times: the operations of Go's [time] that the modelled code calls

    A [time.Time] is a [Z]: the nanoseconds since Go's zero time (0001-01-01
    00:00:00 UTC), so [IsZero] is [= 0], [Before] is [<] and
    [Truncate(time.Hour)] rounds down to a multiple of an hour. The layouts are
    those of [Format] on a UTC time of a year from 1 on. *)
From S2P Require Import Prelude GoStrings.

Definition second : Z := 1000000000.
Definition hour : Z := 3600 * second.
Definition day : Z := 24 * hour.

Definition truncate_hour (t : Z) : Z := (t / hour * hour)%Z.

(** Year, month and day of a day count since 0001-01-01. *)
Definition civil (d : Z) : Z * Z * Z :=
  let z := (d + 306)%Z in
  let era := (z / 146097)%Z in
  let doe := (z mod 146097)%Z in
  let yoe := ((doe - doe / 1460 + doe / 36524 - doe / 146096) / 365)%Z in
  let doy := (doe - (365 * yoe + yoe / 4 - yoe / 100))%Z in
  let mp := ((5 * doy + 2) / 153)%Z in
  let dd := (doy - (153 * mp + 2) / 5 + 1)%Z in
  let m := (if mp <? 10 then mp + 3 else mp - 9)%Z in
  ((yoe + era * 400 + (if m <=? 2 then 1 else 0))%Z, m, dd).

Definition padZ (w : nat) (z : Z) : string := pad w (Z.to_N z).

(** Layout ["2006-01-02"]. *)
Definition format_date (t : Z) : string :=
  let '(y, m, d) := civil (t / day) in padZ 4 y +:+ "-" +:+ padZ 2 m +:+ "-" +:+ padZ 2 d.

(** Layout ["15:04:05"]. *)
Definition format_clock (t : Z) : string :=
  let s := ((t mod day) / second)%Z in
  padZ 2 (s / 3600) +:+ ":" +:+ padZ 2 (s / 60 mod 60) +:+ ":" +:+ padZ 2 (s mod 60).

Definition nanosecond (t : Z) : Z := (t mod second)%Z.

(** Layouts ["2006-01-02 15:04:05"] and ["2006-01-02 15:04:05.000000"]. *)
Definition format_datetime (t : Z) : string := format_date t +:+ " " +:+ format_clock t.

Definition format_datetime_us (t : Z) : string :=
  format_datetime t +:+ "." +:+ padZ 6 (nanosecond t / 1000).

(** Trailing zeros of a fraction, which the layout [.999999999] drops. *)
Fixpoint trim_zeros (s : string) : string :=
  match s with
  | "" => ""
  | String c s' =>
      match trim_zeros s' with
      | "" => if bool_decide (c = "0"%char) then "" else str1 c
      | t => String c t
      end
  end.

(** [time.Time.String], which [%v] prints. *)
Definition time_String (t : Z) : string :=
  let frac := trim_zeros (padZ 9 (nanosecond t)) in
  format_datetime t +:+ (if bool_decide (frac = "") then "" else "." +:+ frac) +:+ " +0000 UTC".

Example format_samples :
  format_date 0 = "0001-01-01" ∧
  format_datetime_us (63844847999999999000) = "2024-02-29 23:59:59.999999" ∧
  time_String (63844847999500000000) = "2024-02-29 23:59:59.5 +0000 UTC" ∧
  format_datetime (63843552000 * second) = "2024-02-15 00:00:00".
Proof. repeat split; vm_compute; reflexivity. Qed.
