(* ===== verification/GoVal.v ===== *)
(** * The dynamic values of a row image

    A row image is a [map[string]any]. [GoVal] is the [any]: the dynamic types
    a decoded image holds ([query.UnmarshalRowImage] decodes with [UseNumber],
    so numbers are [json.Number]; the blob decoder adds [[]byte]; the binlog
    parser hands integers; a DuckDB scan of a baseline file adds [time.Time], in
    UTC). Floating-point values are not in the model. *)
From S2P Require Import Prelude GoStrings GoTime.

Inductive GoVal :=
| VNil
| VBool (b : bool)
| VInt (z : Z)             (* any of Go's integer types *)
| VNumber (s : string)     (* json.Number *)
| VString (s : string)
| VBytes (s : string)      (* []byte *)
| VTime (t : Z)            (* time.Time *)
| VArray (l : list GoVal)  (* []any *)
| VMap (m : gmap string GoVal). (* map[string]any *)

(** [reflect.DeepEqual] on two such values is equality: the dynamic types are
    the constructors, and a [gmap] is equal to another exactly when it has the
    same entries. *)
#[export] Instance GoVal_eq_dec : EqDecision GoVal.
Proof.
  refine (fix go v w {struct v} := let _ : EqDecision GoVal := @go in
    match v, w with
    | VNil, VNil => left eq_refl
    | VBool a, VBool b => cast_if (decide (a = b))
    | VInt a, VInt b => cast_if (decide (a = b))
    | VNumber a, VNumber b => cast_if (decide (a = b))
    | VString a, VString b => cast_if (decide (a = b))
    | VBytes a, VBytes b => cast_if (decide (a = b))
    | VTime a, VTime b => cast_if (decide (a = b))
    | VArray a, VArray b => cast_if (decide (a = b))
    | VMap a, VMap b => cast_if (decide (a = b))
    | _, _ => right _
    end); try clear go; abstract congruence.
Defined.

#[export] Instance GoVal_inhabited : Inhabited GoVal := populate VNil.

(** A row image; a nil map is [None] at the places that hold one. *)
Abbreviation Row := (gmap string GoVal).

(** [row[col]]: a missing key reads as nil. *)
Definition row_get (row : Row) (col : string) : GoVal := default VNil (row !! col).

(** The keys of a map, sorted by bytes. *)
Definition sortedKeys {V} (m : gmap string V) : list string :=
  sort_by String.compare (map_to_list m).*1.

Lemma elem_of_sortedKeys {V} (m : gmap string V) k : k ∈ sortedKeys m ↔ is_Some (m !! k).
Proof.
  unfold sortedKeys. rewrite elem_of_sort_by, list_elem_of_fmap. split.
  - intros ([k' v] & -> & Hkv%elem_of_map_to_list). eauto.
  - intros [v Hv]. exists (k, v). by rewrite elem_of_map_to_list.
Qed.

Lemma sortedKeys_NoDup {V} (m : gmap string V) : NoDup (sortedKeys m).
Proof. unfold sortedKeys. rewrite sort_by_perm. apply NoDup_fst_map_to_list. Qed.

Lemma sortedKeys_sorted {V} (m : gmap string V) :
  StronglySorted (cmp_le String.compare) (sortedKeys m).
Proof. apply sort_by_sorted, _. Qed.

#[export] Hint Resolve sortedKeys_NoDup sortedKeys_sorted : trail.

(** [fmt.Sprintf("%v", v)]. *)
Fixpoint format_v (v : GoVal) : string :=
  match v with
  | VNil => "<nil>"
  | VBool b => if b then "true" else "false"
  | VInt z => pretty z
  | VNumber s | VString s => s
  | VBytes s =>
      "[" +:+ String.concat " " ((λ c, pretty (byte_val c)) <$> String.list_ascii_of_string s) +:+ "]"
  | VTime t => time_String t
  | VArray l => "[" +:+ String.concat " " (format_v <$> l) +:+ "]"
  | VMap m =>
      let m' := format_v <$> m in
      "map[" +:+ String.concat " " ((λ k, k +:+ ":" +:+ default "" (m' !! k)) <$> sortedKeys m') +:+ "]"
  end.

Example format_v_samples :
  format_v (VInt (-7)) = "-7" ∧
  format_v (VArray [VNumber "1"; VNil]) = "[1 <nil>]" ∧
  format_v (VMap (<["b" := VBool true]> (<["a" := VInt 2]> ∅))) = "map[a:2 b:true]".
Proof. repeat split; vm_compute; reflexivity. Qed.
