(* ===== verification/GoCodec.v ===== *)
(** * Go text encodings: the parts of [encoding/base64], [encoding/json],
    [encoding/binary], [strconv] and [strings] that the recovery scripts use

    [base64.StdEncoding], [json.Marshal] of a row value, [strconv.Quote] and
    [strings.Fields], on strings of bytes. The one table of the Unicode
    standard they read, the printable runes above U+00FF ([strconv.IsPrint]),
    is the argument [isPrint]. *)
From S2P Require Import Prelude GoStrings GoTime GoVal.

(** ** Runes: [utf8.DecodeRuneInString] *)

(** The continuation bytes of a rune whose head left state [u] and the bits
    [acc]: the rune, its bytes after the head, and the text after it. *)
Fixpoint cont_run (s : string) (u : ustate) (acc : N) : option (N * string * string) :=
  match u with
  | UStart => Some (acc, "", s)
  | UCont _ _ _ =>
      match s with
      | "" => None
      | String c s' =>
          u' ← ustep u c;
          '(r, taken, rest) ← cont_run s' u' (acc * 64 + byte_val c mod 64)%N;
          Some (r, String c taken, rest)
      end
  end.

(** The payload bits of a head byte of a rune with [n + 1] bytes to come. *)
Definition head_bits (b : N) (n : nat) : N :=
  match n with 0 => (b mod 32)%N | 1 => (b mod 16)%N | _ => (b mod 8)%N end.

(** A rune at the head of [String c s'], its bytes and the text after it;
    [None] when the head is not the start of a valid one (Go answers
    [RuneError] with width 1). *)
Definition decode_rune (c : ascii) (s' : string) : option (N * string * string) :=
  match ustart (byte_val c) with
  | None => None
  | Some UStart => Some (byte_val c, str1 c, s')
  | Some (UCont lo hi n) =>
      '(r, taken, rest) ← cont_run s' (UCont lo hi n) (head_bits (byte_val c) n);
      Some (r, String c taken, rest)
  end.

(** ** [strconv.Quote] *)

(** [n] lower-case hexadecimal digits. *)
Fixpoint hex_fixed (n : nat) (v : N) : string :=
  match n with
  | 0 => ""
  | S n' => hex_fixed n' (v / 16)%N +:+ str1 (hex_digit (v mod 16)%N)
  end.

Definition chr (n : N) : string := str1 (ascii_of_N n).

Section quote.
Context (isPrint : N → bool).

(** [strconv.IsPrint]. *)
Definition IsPrint (r : N) : bool :=
  if (r <=? 255)%N
  then ((32 <=? r) && (r <? 127) || (161 <=? r) && negb (r =? 173))%N
  else isPrint r.

(** [appendEscapedRune] with the double quote (byte 34); [raw] is the rune's bytes. *)
Definition escaped_rune (r : N) (raw : string) : string :=
  if (r =? 34)%N || (r =? 92)%N then chr 92 +:+ raw
  else if IsPrint r then raw
  else if (r =? 7)%N then chr 92 +:+ "a"
  else if (r =? 8)%N then chr 92 +:+ "b"
  else if (r =? 12)%N then chr 92 +:+ "f"
  else if (r =? 10)%N then chr 92 +:+ "n"
  else if (r =? 13)%N then chr 92 +:+ "r"
  else if (r =? 9)%N then chr 92 +:+ "t"
  else if (r =? 11)%N then chr 92 +:+ "v"
  else if (r <? 32)%N || (r =? 127)%N then chr 92 +:+ "x" +:+ hex_fixed 2 r
  else if (r <? 65536)%N then chr 92 +:+ "u" +:+ hex_fixed 4 r
  else chr 92 +:+ "U" +:+ hex_fixed 8 r.

(** The loop over the runes; [fuel] bounds their number, the length suffices. *)
Fixpoint quote_loop (fuel : nat) (s : string) : string :=
  match fuel, s with
  | S fuel', String c s' =>
      match decode_rune c s' with
      | Some (r, raw, rest) => escaped_rune r raw +:+ quote_loop fuel' rest
      | None => chr 92 +:+ "x" +:+ hex_fixed 2 (byte_val c) +:+ quote_loop fuel' s'
      end
  | _, _ => ""
  end.

Definition Quote (s : string) : string := chr 34 +:+ quote_loop (String.length s) s +:+ chr 34.
End quote.

(** ** [base64.StdEncoding] *)

Definition b64_char (i : N) : ascii :=
  if (i <? 26)%N then ascii_of_N (65 + i)
  else if (i <? 52)%N then ascii_of_N (71 + i)
  else if (i <? 62)%N then ascii_of_N (i - 4)
  else if (i =? 62)%N then "+"%char else "/"%char.

Definition b64_index (c : ascii) : option N :=
  let b := byte_val c in
  if ((65 <=? b) && (b <=? 90))%N then Some (b - 65)%N
  else if ((97 <=? b) && (b <=? 122))%N then Some (b - 71)%N
  else if is_digit c then Some (b + 4)%N
  else if (b =? 43)%N then Some 62%N
  else if (b =? 47)%N then Some 63%N
  else None.

Definition pad_char : ascii := "=".

(** [EncodeToString]. *)
Fixpoint b64_encode (s : string) : string :=
  match s with
  | "" => ""
  | String a "" =>
      String (b64_char (byte_val a / 4)) (String (b64_char (byte_val a mod 4 * 16)) "==")
  | String a (String b "") =>
      String (b64_char (byte_val a / 4)) (String (b64_char (byte_val a mod 4 * 16 + byte_val b / 16))
        (String (b64_char (byte_val b mod 16 * 4)) "="))
  | String a (String b (String c s')) =>
      String (b64_char (byte_val a / 4)) (String (b64_char (byte_val a mod 4 * 16 + byte_val b / 16))
        (String (b64_char (byte_val b mod 16 * 4 + byte_val c / 64))
          (String (b64_char (byte_val c mod 64)) (b64_encode s'))))
  end%N.

(** Line ends inside the text are skipped. *)
Fixpoint drop_breaks (s : string) : string :=
  match s with
  | "" => ""
  | String c s' => if (byte_val c =? 10)%N || (byte_val c =? 13)%N then drop_breaks s' else String c (drop_breaks s')
  end.

(** Groups of four; padding only closes the last one; the bits a padded group
    leaves over are not checked (the encoding is not [Strict]). *)
Fixpoint b64_groups (s : string) : option string :=
  match s with
  | "" => Some ""
  | String a (String b (String c (String d s'))) =>
      i ← b64_index a; j ← b64_index b;
      let x := ascii_of_N (i * 4 + j / 16) in
      if bool_decide (c = pad_char)
      then if bool_decide (d = pad_char) && bool_decide (s' = "") then Some (str1 x) else None
      else
        k ← b64_index c;
        let y := ascii_of_N (j mod 16 * 16 + k / 4) in
        if bool_decide (d = pad_char)
        then if bool_decide (s' = "") then Some (String x (str1 y)) else None
        else
          l ← b64_index d;
          rest ← b64_groups s';
          Some (String x (String y (String (ascii_of_N (k mod 4 * 64 + l)) rest)))
  | _ => None
  end%N.

(** [DecodeString]; [None] is its error. *)
Definition b64_decode (s : string) : option string := b64_groups (drop_breaks s).

(** ** [json.Marshal] of a row value *)

Definition html_safe (b : N) : bool :=
  ((32 <=? b) && negb (b =? 34) && negb (b =? 38) && negb (b =? 60) && negb (b =? 62) && negb (b =? 92))%N.

Definition json_byte (c : ascii) : string :=
  let b := byte_val c in
  if html_safe b then str1 c
  else if (b =? 92)%N || (b =? 34)%N then chr 92 +:+ str1 c
  else if (b =? 8)%N then chr 92 +:+ "b"
  else if (b =? 12)%N then chr 92 +:+ "f"
  else if (b =? 10)%N then chr 92 +:+ "n"
  else if (b =? 13)%N then chr 92 +:+ "r"
  else if (b =? 9)%N then chr 92 +:+ "t"
  else chr 92 +:+ "u00" +:+ hex_fixed 2 b.

Fixpoint json_string_loop (fuel : nat) (s : string) : string :=
  match fuel, s with
  | S fuel', String c s' =>
      if is_ascii c then json_byte c +:+ json_string_loop fuel' s'
      else
        match decode_rune c s' with
        | Some (r, raw, rest) =>
            (if (r =? 8232)%N then chr 92 +:+ "u2028"
             else if (r =? 8233)%N then chr 92 +:+ "u2029" else raw) +:+ json_string_loop fuel' rest
        | None => chr 92 +:+ "ufffd" +:+ json_string_loop fuel' s'
        end
  | _, _ => ""
  end.

Definition json_string (s : string) : string := chr 34 +:+ json_string_loop (String.length s) s +:+ chr 34.

(** [isValidNumber]: a sign, an integer without leading zeros, a fraction and
    an exponent. *)
Fixpoint skip_digits (s : string) : string :=
  match s with
  | String c s' => if is_digit c then skip_digits s' else s
  | "" => ""
  end.

Definition is_byte (c : ascii) (s : string) : bool :=
  match s with String d _ => bool_decide (c = d) | "" => false end.

Definition starts_digit (s : string) : bool :=
  match s with String d _ => is_digit d | "" => false end.

Definition valid_exponent (s : string) : bool :=
  if is_byte "e" s || is_byte "E" s then
    let s := str_drop 1 s in
    let s := if is_byte "+" s || is_byte "-" s then str_drop 1 s else s in
    starts_digit s && bool_decide (skip_digits s = "")
  else bool_decide (s = "").

Definition valid_fraction (s : string) : bool :=
  if is_byte "." s && starts_digit (str_drop 1 s)
  then valid_exponent (skip_digits (str_drop 1 s)) else valid_exponent s.

Definition valid_number (s : string) : bool :=
  let s := if is_byte "-" s then str_drop 1 s else s in
  starts_digit s && valid_fraction (if is_byte "0" s then str_drop 1 s else skip_digits s).

(** [time.Time.MarshalJSON] of a UTC time of a year up to 9999. *)
Definition json_time (t : Z) : string :=
  let frac := trim_zeros (padZ 9 (nanosecond t)) in
  chr 34 +:+ format_date t +:+ "T" +:+ format_clock t +:+
    (if bool_decide (frac = "") then "" else "." +:+ frac) +:+ "Z" +:+ chr 34.

(** [None] is an error: a [json.Number] that is not a number. *)
Fixpoint json_marshal (v : GoVal) : option string :=
  match v with
  | VNil => Some "null"
  | VBool b => Some (if b then "true" else "false")
  | VInt z => Some (pretty z)
  | VNumber s =>
      if bool_decide (s = "") then Some "0" else if valid_number s then Some s else None
  | VString s => Some (json_string s)
  | VBytes s => Some (chr 34 +:+ b64_encode s +:+ chr 34)
  | VTime t => Some (json_time t)
  | VArray l => parts ← mapM id (json_marshal <$> l); Some ("[" +:+ String.concat "," parts +:+ "]")
  | VMap m =>
      let m' := json_marshal <$> m in
      parts ← mapM (λ k, s ← default None (m' !! k); Some (json_string k +:+ ":" +:+ s)) (sortedKeys m');
      Some ("{" +:+ String.concat "," parts +:+ "}")
  end.

(** ** [strings.Fields] *)

(** The length of the white space rune at the head, 0 when there is none. *)
Definition space_len (s : string) : nat :=
  match String.list_ascii_of_string s with
  | a :: l =>
      if is_space a then 1
      else
        match byte_val a, byte_val <$> l with
        | 194%N, b :: _ => if ((b =? 133) || (b =? 160))%N then 2 else 0
        | 225%N, 154%N :: 128%N :: _ => 3
        | 226%N, 128%N :: c :: _ =>
            if ((128 <=? c) && (c <=? 138) || (c =? 168) || (c =? 169) || (c =? 175))%N then 3 else 0
        | 226%N, 129%N :: 159%N :: _ => 3
        | 227%N, 128%N :: 128%N :: _ => 3
        | _, _ => 0
        end
  | [] => 0
  end.

(** [skip] bytes of the current white space rune are left; [cur] is the word
    being read. *)
Fixpoint fields_loop (s : string) (skip : nat) (cur : string) : list string :=
  match s with
  | "" => if bool_decide (cur = "") then [] else [cur]
  | String c s' =>
      match skip with
      | S k => fields_loop s' k cur
      | 0 =>
          match space_len s with
          | 0 => fields_loop s' 0 (cur +:+ str1 c)
          | S k => if bool_decide (cur = "") then fields_loop s' k "" else cur :: fields_loop s' k ""
          end
      end
  end.

Definition fields (s : string) : list string := fields_loop s 0 "".

(** [binary.LittleEndian.Uint32] of the first four bytes. *)
Definition le_uint32 (s : string) : N :=
  match String.list_ascii_of_string s with
  | a :: b :: c :: d :: _ => byte_val a + 256 * byte_val b + 65536 * byte_val c + 16777216 * byte_val d
  | _ => 0
  end%N.

Example codec_samples :
  b64_encode "hello" = "aGVsbG8=" ∧ b64_decode "aGVsbG8=" = Some "hello" ∧ b64_decode "aGVsbG8" = None ∧
  Quote (λ _, true) ("a" +:+ chr 10 +:+ "b" +:+ chr 200) = chr 34 +:+ "a\nb\xc8" +:+ chr 34 ∧
  json_marshal (VMap (<["k" := VArray [VNumber "1"; VString "<a>"]]> ∅)) =
    Some ("{" +:+ chr 34 +:+ "k" +:+ chr 34 +:+ ":[1," +:+ chr 34 +:+ "\u003ca\u003e" +:+ chr 34 +:+ "]}") ∧
  fields ("  ab" +:+ chr 194 +:+ chr 160 +:+ "c d ") = ["ab"; "c"; "d"] ∧
  valid_number "-0.5e+10" = true ∧ valid_number "01" = false.
Proof. repeat split; vm_compute; reflexivity. Qed.

(** ** Lemmas *)

Lemma below_64 (P : N → bool) : forallb P (N.of_nat <$> seq 0 64) = true → ∀ i, (i < 64)%N → P i = true.
Proof.
  rewrite forallb_forall. intros H i Hi. apply H. apply list_elem_of_In, list_elem_of_fmap.
  exists (N.to_nat i). split; [lia|]. apply elem_of_seq. lia.
Qed.

Lemma b64_index_char i : (i < 64)%N → b64_index (b64_char i) = Some i.
Proof.
  intros Hi. apply (bool_decide_eq_true_1 _). revert i Hi.
  apply (below_64 (λ i, bool_decide (b64_index (b64_char i) = Some i))). vm_compute. reflexivity.
Qed.

Lemma b64_char_text i : (i < 64)%N →
  b64_char i ≠ pad_char ∧ (byte_val (b64_char i) =? 10)%N || (byte_val (b64_char i) =? 13)%N = false.
Proof.
  intros Hi. apply (bool_decide_eq_true_1 _). revert i Hi.
  apply (below_64 (λ i, bool_decide (b64_char i ≠ pad_char ∧
    (byte_val (b64_char i) =? 10)%N || (byte_val (b64_char i) =? 13)%N = false))). vm_compute. reflexivity.
Qed.

Lemma drop_breaks_char i s : (i < 64)%N →
  drop_breaks (String (b64_char i) s) = String (b64_char i) (drop_breaks s).
Proof. intros Hi. simpl. by rewrite (proj2 (b64_char_text i Hi)). Qed.

Lemma byte_val_lt c : (byte_val c < 256)%N.
Proof. destruct c as [[] [] [] [] [] [] [] []]; reflexivity. Qed.

(** Induction three bytes at a time, as the encoder recurses. *)
Lemma string_ind3 (P : string → Prop) :
  P "" → (∀ a, P (String a "")) → (∀ a b, P (String a (String b ""))) →
  (∀ a b c s, P s → P (String a (String b (String c s)))) → ∀ s, P s.
Proof.
  intros H0 H1 H2 H3. fix IH 1. intros [|a [|b [|c s]]]; [exact H0|apply H1|apply H2|]. apply H3, IH.
Qed.

(** The six-bit groups of one, two and three bytes are in range, and the bytes
    come back from them. *)
Lemma six_bits a b c : (a < 256 → b < 256 → c < 256 →
  a / 4 < 64 ∧ a mod 4 * 16 < 64 ∧ a mod 4 * 16 + b / 16 < 64 ∧ b mod 16 * 4 < 64 ∧ b mod 16 * 4 + c / 64 < 64 ∧
  c mod 64 < 64 ∧
  a / 4 * 4 + (a mod 4 * 16) / 16 = a ∧ a / 4 * 4 + (a mod 4 * 16 + b / 16) / 16 = a ∧
  (a mod 4 * 16 + b / 16) mod 16 * 16 + b mod 16 * 4 / 4 = b ∧
  (a mod 4 * 16 + b / 16) mod 16 * 16 + (b mod 16 * 4 + c / 64) / 4 = b ∧
  (b mod 16 * 4 + c / 64) mod 4 * 64 + c mod 64 = c)%N.
Proof.
  intros. zify. repeat match goal with |- _ ∧ _ => split end; Z.to_euclidean_division_equations; lia.
Qed.

Lemma ascii_byte_val n c : n = byte_val c → ascii_of_N n = c.
Proof. intros ->. apply ascii_N_embedding. Qed.

Lemma b64_roundtrip s : b64_decode (b64_encode s) = Some s.
Proof.
  unfold b64_decode. induction s as [|a|a b|a b c s IH] using string_ind3; [done|..].
  1: destruct (six_bits (byte_val a) 0 0) as (?&?&?&?&?&?&E1&_); [apply byte_val_lt|done..|].
  2: destruct (six_bits (byte_val a) (byte_val b) 0) as (?&?&?&?&?&?&_&E1&E2&_); [apply byte_val_lt..|done|].
  3: destruct (six_bits (byte_val a) (byte_val b) (byte_val c)) as (?&?&?&?&?&?&_&E1&_&E2&E3); [apply byte_val_lt..|].
  all: cbn [b64_encode]; rewrite !drop_breaks_char by done; cbn [b64_groups drop_breaks];
    rewrite !b64_index_char by done; simpl.
  - by rewrite (ascii_byte_val _ _ E1).
  - rewrite bool_decide_eq_false_2 by by apply b64_char_text. simpl.
    by rewrite (ascii_byte_val _ _ E1), (ascii_byte_val _ _ E2).
  - rewrite !bool_decide_eq_false_2 by by apply b64_char_text.
    rewrite IH. simpl. by rewrite (ascii_byte_val _ _ E1), (ascii_byte_val _ _ E2), (ascii_byte_val _ _ E3).
Qed.

(** No byte of [s] ends a line or a statement text: no LF, CR or NUL. *)
Definition comment_byte (c : ascii) : bool :=
  negb ((byte_val c =? 10) || (byte_val c =? 13) || (byte_val c =? 0))%N.

Definition one_line (s : string) : bool := str_forall comment_byte s.

Lemma one_line_app s t : one_line (s +:+ t) = one_line s && one_line t.
Proof. apply str_forall_app. Qed.

Lemma high_byte_one_line c : (128 <=? byte_val c)%N = true → comment_byte c = true.
Proof. destruct c as [[] [] [] [] [] [] [] []]; done. Qed.

Lemma cont_run_high s u acc r taken rest :
  ustate_wf u → cont_run s u acc = Some (r, taken, rest) →
  str_forall (λ c, 128 <=? byte_val c)%N taken = true.
Proof.
  revert u acc r taken rest. induction s as [|c s IH]; intros u acc r taken rest Hwf; simpl.
  { destruct u; [by intros [= <- <- <-]|done]. }
  destruct u as [|lo hi n]; [by intros [= <- <- <-]|].
  intros (u' & Hu & ([[r' t'] rest'] & Ht & [= <- <- <-])%bind_Some)%bind_Some. simpl.
  rewrite (IH _ _ _ _ _ (ustep_wf _ _ _ Hwf Hu) Ht), andb_true_r.
  simpl in Hu, Hwf. destruct ((lo <=? byte_val c) && _)%N eqn:E; [|done].
  apply andb_true_iff in E as [E%N.leb_le _]. apply N.leb_le. lia.
Qed.

Lemma hex_digit_text n : (n < 16)%N → comment_byte (hex_digit n) = true.
Proof.
  intros Hn. apply (implb_true_iff (n <? 16)%N); [|by apply N.ltb_lt].
  apply (below_64 (λ n, implb (n <? 16)%N (comment_byte (hex_digit n)))); [vm_compute; reflexivity|lia].
Qed.

Lemma hex_fixed_one_line n v : one_line (hex_fixed n v) = true.
Proof.
  revert v. induction n as [|n IH]; intros v; [done|]. simpl. rewrite one_line_app, IH. unfold one_line. simpl.
  rewrite hex_digit_text; [done|]. by apply N.mod_lt.
Qed.

(** A decoded rune is one ASCII byte or bytes above 127 only. *)
Lemma decode_rune_raw c s r raw rest :
  decode_rune c s = Some (r, raw, rest) →
  (raw = str1 c ∧ r = byte_val c) ∨ one_line raw = true.
Proof.
  unfold decode_rune. destruct (ustart (byte_val c)) as [[|lo hi n]|] eqn:E; [| |done].
  - intros [= <- <- <-]. by left.
  - intros ([[r' taken] rest'] & Ht & [= <- <- <-])%bind_Some. right. unfold one_line. simpl.
    assert (ustate_wf (UCont lo hi n) ∧ (128 <=? byte_val c)%N = true) as [Hwf Hc].
    { unfold ustart in E. rewrite N.leb_antisym.
      destruct (byte_val c <? 128)%N eqn:Hb; [done|]. split; [|done].
      repeat case_match; simplify_eq; simpl; lia. }
    rewrite (high_byte_one_line _ Hc). simpl.
    eapply str_forall_impl; [exact high_byte_one_line|]. by eapply cont_run_high.
Qed.

Lemma escaped_rune_one_line isPrint c r raw :
  (raw = str1 c ∧ r = byte_val c) ∨ one_line raw = true → one_line (escaped_rune isPrint r raw) = true.
Proof.
  intros [[-> ->]|Hraw].
  - unfold escaped_rune, IsPrint. rewrite (proj2 (N.leb_le (byte_val c) 255)) by (pose proof (byte_val_lt c); lia).
    unfold one_line. destruct c as [[] [] [] [] [] [] [] []]; reflexivity.
  - unfold escaped_rune. repeat case_match; rewrite ?one_line_app, ?hex_fixed_one_line, ?Hraw; done.
Qed.

Lemma Quote_one_line isPrint s : one_line (Quote isPrint s) = true.
Proof.
  unfold Quote. rewrite !one_line_app. simpl. rewrite andb_true_r. generalize (String.length s). intros n.
  revert s. induction n as [|n IH]; intros s; [done|]. destruct s as [|c s]; [done|]. simpl.
  destruct (decode_rune c s) as [[[r raw] rest]|] eqn:E.
  - rewrite one_line_app, IH, andb_true_r. eapply escaped_rune_one_line. by eapply decode_rune_raw.
  - change (one_line (chr 92 +:+ "x" +:+ (hex_fixed 2 (byte_val c) +:+ quote_loop isPrint n s)) = true).
    rewrite !one_line_app, hex_fixed_one_line, IH. done.
Qed.
