(* ===== verification/GoBytes.v ===== *)
(** * Byte slices: the operations of Go's [bytes], [encoding/binary],
    [hash/crc32] and [sort.Search] that the modelled code calls, and the
    conversions between its 64-bit integer types

    A [[]byte] is a list of bytes. [uint64] is [N], [int64] is [Z] within its
    range; arithmetic that may leave the range goes through [wrap64]. *)
From S2P Require Import Prelude GoStrings.

Abbreviation Bytes := (list ascii).

(** ** Integers *)

Definition two64 : Z := 2 ^ 64.

(** The [int64] a result modulo 2^64 is. *)
Definition wrap64 (z : Z) : Z := ((z + 2 ^ 63) mod two64 - 2 ^ 63)%Z.

(** [uint64(z)] of an [int64], [int64(n)] of a [uint64]. *)
Definition u64_of (z : Z) : N := Z.to_N (z mod two64).
Definition i64_of (n : N) : Z := wrap64 (Z.of_N n).

Definition is_i64 (z : Z) : Prop := (- 2 ^ 63 ≤ z < 2 ^ 63)%Z.
Definition is_u64 (n : N) : Prop := (n < 2 ^ 64)%N.

(** ** Comparing *)

(** [bytes.Compare]. *)
Fixpoint bytes_compare (a b : Bytes) : comparison :=
  match a, b with
  | [], [] => Eq
  | [], _ :: _ => Lt
  | _ :: _, [] => Gt
  | x :: a', y :: b' => N.compare (byte_val x) (byte_val y) ⊕ bytes_compare a' b'
  end.

(** ** Big-endian integers *)

(** [binary.BigEndian.PutUint16/32/64]: the [w] low bytes of [n], the most
    significant first. *)
Fixpoint be_put (w : nat) (n : N) : Bytes :=
  match w with
  | 0 => []
  | S w' => be_put w' (n / 256)%N ++ [ascii_of_N (n mod 256)]
  end.

#[global] Arguments be_put : simpl never.

Lemma be_put_S w n : be_put (S w) n = be_put w (n / 256)%N ++ [ascii_of_N (n mod 256)].
Proof. done. Qed.

Definition be_get (b : Bytes) : N := fold_left (λ acc c, acc * 256 + byte_val c)%N b 0%N.

(** [binary.LittleEndian.Uint32]. *)
Definition le_get (b : Bytes) : N := be_get (reverse b).

(** ** CRC-32C, as [crc32.Update] with the Castagnoli table *)

Definition crc_poly : N := 0x82f63b78.

Definition crc_bit (c : N) : N :=
  if N.testbit c 0 then N.lxor (N.shiftr c 1) crc_poly else N.shiftr c 1.

(** The table's entry of a byte, one shift a bit. *)
Definition crc_entry (c : N) : N := Nat.iter 8 crc_bit c.

Definition crc_byte (crc : N) (v : ascii) : N :=
  N.lxor (crc_entry (N.lxor (N.land crc 255) (byte_val v))) (N.shiftr crc 8).

Definition crc_not (c : N) : N := N.lxor c 0xffffffff.

Definition crc_update (crc : N) (p : Bytes) : N := crc_not (fold_left crc_byte p (crc_not crc)).

Definition crc_checksum (p : Bytes) : N := crc_update 0 p.

(** ** [sort.Search] *)

(** The loop of [sort.Search], which halves [j - i] in every step; [fuel] is
    the distance it starts from. *)
Fixpoint search_loop (fuel : nat) (i j : nat) (f : nat → bool) : nat :=
  match fuel with
  | 0 => i
  | S fuel' =>
      if i <? j then
        let h := (i + j) `div` 2 in
        if f h then search_loop fuel' i h f else search_loop fuel' (S h) j f
      else i
  end.

Definition Search (n : nat) (f : nat → bool) : nat := search_loop n 0 n f.

(** ** Slices of a file *)

(** [b[from:from+n]]. *)
Definition slice (from n : nat) (b : Bytes) : Bytes := take n (drop from b).

(** [ReadAt] of [n] bytes at [off]: all of them, or an error. *)
Definition ReadAt (file : Bytes) (off : Z) (n : nat) : option Bytes :=
  if ((0 <=? off) && (off + Z.of_nat n <=? Z.of_nat (length file)))%Z
  then Some (slice (Z.to_nat off) n file) else None.

Example crc_samples :
  crc_checksum (String.list_ascii_of_string "123456789") = 0xe3069283%N ∧
  be_put 4 0x01020304 = ascii_of_N <$> [1; 2; 3; 4]%N ∧
  wrap64 (2 ^ 63) = (- 2 ^ 63)%Z ∧ u64_of (-1) = (2 ^ 64 - 1)%N ∧ i64_of (2 ^ 64 - 1) = (-1)%Z.
Proof. repeat split; vm_compute; reflexivity. Qed.

(** ** Laws *)

Lemma byte_val_inj c d : byte_val c = byte_val d → c = d.
Proof. unfold byte_val. intros H. rewrite <- (ascii_N_embedding c), <- (ascii_N_embedding d). by rewrite H. Qed.

#[export] Instance bytes_compare_total : CmpTotal bytes_compare.
Proof.
  split; [split|].
  - intros x. induction x as [|c x IH]; intros [|d y]; [done..|]. simpl.
    rewrite IH, (cmp_antisym N.compare (byte_val c)). by destruct (N.compare (byte_val d) (byte_val c)).
  - intros x. induction x as [|c x IH]; intros [|d y] [|e z]; try done. simpl.
    destruct (N.compare_spec (byte_val c) (byte_val d)) as [H|H|H],
      (N.compare_spec (byte_val d) (byte_val e)) as [H'|H'|H']; simpl; try done; intros H1 H2.
    + rewrite H, H', N.compare_refl. simpl. eauto.
    + rewrite H, (proj2 (N.compare_lt_iff _ _)) by done. done.
    + rewrite <- H', (proj2 (N.compare_lt_iff _ _)) by done. done.
    + rewrite (proj2 (N.compare_lt_iff _ _)) by lia. done.
  - intros x. induction x as [|c x IH]; intros [|d y]; [done..|]. simpl.
    destruct (N.compare_spec (byte_val c) (byte_val d)) as [H|H|H]; simpl; [|done..].
    intros H2. f_equal; [by apply byte_val_inj|auto].
Qed.

Lemma bytes_compare_app a b c d : length a = length b →
  bytes_compare (a ++ c) (b ++ d) = bytes_compare a b ⊕ bytes_compare c d.
Proof.
  revert b. induction a as [|x a IH]; intros [|y b]; [done..|]. simpl. intros [= H].
  rewrite IH by done. by destruct (N.compare _ _).
Qed.

Lemma be_put_length w n : length (be_put w n) = w.
Proof. revert n. induction w as [|w IH]; intros n; [done|]. rewrite be_put_S. rewrite length_app, IH. simpl. lia. Qed.

#[export] Hint Rewrite be_put_length : trailrw.

Lemma byte_val_ascii n : (n < 256)%N → byte_val (ascii_of_N n) = n.
Proof. apply N_ascii_embedding. Qed.

Lemma be_get_app a c : be_get (a ++ [c]) = (be_get a * 256 + byte_val c)%N.
Proof. unfold be_get. by rewrite fold_left_app. Qed.

Lemma be_get_put w n : (n < 256 ^ N.of_nat w)%N → be_get (be_put w n) = n.
Proof.
  revert n. induction w as [|w IH]; intros n Hn.
  - simpl in Hn. unfold be_get. simpl. lia.
  - rewrite be_put_S. rewrite be_get_app, byte_val_ascii by (apply N.mod_lt; lia).
    rewrite IH; [pose proof (N.div_mod n 256); lia|].
    rewrite Nat2N.inj_succ, N.pow_succ_r' in Hn. apply N.Div0.div_lt_upper_bound; lia.
Qed.

Lemma be_get_bound b : (be_get b < 256 ^ N.of_nat (length b))%N.
Proof.
  induction b as [|c b IH] using rev_ind; [done|]. rewrite be_get_app, length_app. simpl.
  rewrite Nat.add_1_r, Nat2N.inj_succ, N.pow_succ_r'. pose proof (N_ascii_bounded c). unfold byte_val. lia.
Qed.

Lemma be_put_get b : be_put (length b) (be_get b) = b.
Proof.
  induction b as [|c b IH] using rev_ind; [done|]. rewrite be_get_app, length_app. simpl.
  rewrite Nat.add_1_r. rewrite be_put_S. pose proof (N_ascii_bounded c).
  rewrite N.div_add_l, N.div_small, N.add_0_r, IH by (unfold byte_val; lia).
  rewrite N.add_comm, N.Div0.mod_add, N.mod_small by (unfold byte_val; lia).
  f_equal. f_equal. apply ascii_N_embedding.
Qed.

(** Byte order is numeric order. *)
Lemma be_put_compare w n m : (n < 256 ^ N.of_nat w)%N → (m < 256 ^ N.of_nat w)%N →
  bytes_compare (be_put w n) (be_put w m) = N.compare n m.
Proof.
  revert n m. induction w as [|w IH]; intros n m Hn Hm.
  { simpl in *. replace n with 0%N by lia. by replace m with 0%N by lia. }
  rewrite Nat2N.inj_succ, N.pow_succ_r' in Hn, Hm. rewrite !be_put_S.
  rewrite bytes_compare_app, IH by
    (rewrite ?be_put_length; try apply N.Div0.div_lt_upper_bound; lia).
  simpl. rewrite !byte_val_ascii by (apply N.mod_lt; lia).
  assert (Hdm : ∀ k, k = (256 * (k / 256) + k mod 256)%N ∧ (k mod 256 < 256)%N)
    by (intros k; split; [apply N.div_mod|apply N.mod_lt]; lia).
  pose proof (Hdm n) as [Hn' Bn]. pose proof (Hdm m) as [Hm' Bm].
  revert Hn' Hm' Bn Bm. generalize (n / 256)%N (m / 256)%N (n mod 256)%N (m mod 256)%N.
  intros qn qm rn rm Hn' Hm' Bn Bm. subst n m. clear -Bn Bm.
  destruct (N.compare_spec qn qm) as [->|H|H]; simpl.
  - destruct (N.compare_spec rn rm) as [->|H|H]; simpl; symmetry.
    + apply N.compare_refl.
    + apply N.compare_lt_iff. lia.
    + apply N.compare_gt_iff. lia.
  - symmetry. apply N.compare_lt_iff. lia.
  - symmetry. apply N.compare_gt_iff. lia.
Qed.

Lemma wrap64_small z : is_i64 z → wrap64 z = z.
Proof. unfold is_i64, wrap64, two64. intros. rewrite Z.mod_small; lia. Qed.

Lemma wrap64_range z : is_i64 (wrap64 z).
Proof. unfold is_i64, wrap64, two64. pose proof (Z.mod_pos_bound (z + 2 ^ 63) (2 ^ 64)). lia. Qed.

Lemma u64_of_range z : is_u64 (u64_of z).
Proof. unfold is_u64, u64_of, two64. pose proof (Z.mod_pos_bound z (2 ^ 64)). lia. Qed.

Lemma i64_of_u64 z : is_i64 z → i64_of (u64_of z) = z.
Proof.
  intros Hz. unfold i64_of, u64_of. rewrite Z2N.id by (apply Z.mod_pos_bound; done).
  unfold wrap64. rewrite Z.add_mod_idemp_l by done. by apply wrap64_small.
Qed.

Lemma u64_of_pos z : (0 ≤ z < two64)%Z → u64_of z = Z.to_N z.
Proof. intros. unfold u64_of. by rewrite Z.mod_small. Qed.

Lemma crc_update_app a b : crc_update (crc_checksum a) b = crc_checksum (a ++ b).
Proof.
  unfold crc_checksum, crc_update. rewrite fold_left_app. do 2 f_equal.
  unfold crc_not. by rewrite N.lxor_assoc, N.lxor_nilpotent, N.lxor_0_r.
Qed.

Lemma midpoint i j : i < j → i ≤ (i + j) `div` 2 < j.
Proof. intros. split; [apply Nat.div_le_lower_bound|apply Nat.Div0.div_lt_upper_bound]; lia. Qed.

Lemma search_loop_spec fuel i j n f :
  i ≤ j ≤ n → j - i ≤ fuel →
  (∀ a, a < i → f a = false) → (∀ a, j ≤ a < n → f a = true) →
  (∀ a b, a ≤ b < n → f a = true → f b = true) →
  let r := search_loop fuel i j f in
  r ≤ n ∧ (∀ a, a < r → f a = false) ∧ (∀ a, r ≤ a < n → f a = true).
Proof.
  revert i j. induction fuel as [|fuel IH]; intros i j Hij Hf Hlo Hhi Hm; cbn [search_loop].
  { assert (i = j) as -> by lia. naive_solver lia. }
  destruct (Nat.ltb_spec i j) as [Hlt|Hge].
  2:{ assert (i = j) as -> by lia. naive_solver lia. }
  pose proof (midpoint i j Hlt) as Hh.
  destruct (f ((i + j) `div` 2)) eqn:Hfh.
  - apply IH; [lia..|done| |done]. intros a Ha. destruct (decide (j ≤ a)); [apply Hhi; lia|].
    apply (Hm ((i + j) `div` 2)); [lia|done].
  - apply IH; [lia..| |done|done]. intros a Ha. destruct (f a) eqn:Hfa; [|done].
    rewrite <- Hfh. symmetry. apply (Hm a); [lia|done].
Qed.

(** On a monotone test, [Search] is the first index that passes it. *)
Lemma Search_spec n f :
  (∀ a b, a ≤ b < n → f a = true → f b = true) →
  Search n f ≤ n ∧ (∀ a, a < Search n f → f a = false) ∧ (∀ a, Search n f ≤ a < n → f a = true).
Proof. intros Hm. apply search_loop_spec; [lia..|done]. Qed.

(** [Search] never leaves its range, whatever the test. *)
Lemma search_loop_range fuel i j f : i ≤ j → i ≤ search_loop fuel i j f ≤ j.
Proof.
  revert i j. induction fuel as [|fuel IH]; intros i j Hij; cbn [search_loop]; [lia|].
  destruct (Nat.ltb_spec i j) as [Hlt|]; [|lia].
  pose proof (midpoint i j Hlt) as Hh.
  destruct (f _); [pose proof (IH i ((i + j) `div` 2))|pose proof (IH (S ((i + j) `div` 2)) j)]; lia.
Qed.

Lemma Search_range n f : Search n f ≤ n.
Proof. unfold Search. pose proof (search_loop_range n 0 n f). lia. Qed.

Lemma slice_app a b c n m : length a = n → length b = m → slice n m (a ++ b ++ c) = b.
Proof. intros <- <-. unfold slice. by rewrite drop_app_length, take_app_length. Qed.

Lemma ReadAt_app a b c off n : length a = Z.to_nat off → (0 ≤ off)%Z → length b = n →
  ReadAt (a ++ b ++ c) off n = Some b.
Proof.
  intros Ha H0 Hb. unfold ReadAt. rewrite !length_app.
  rewrite (proj2 (Z.leb_le _ _)), (proj2 (Z.leb_le _ _)) by lia. simpl.
  f_equal. by apply slice_app.
Qed.

Lemma ReadAt_end a b off n : length a = Z.to_nat off → (0 ≤ off)%Z → length b = n →
  ReadAt (a ++ b) off n = Some b.
Proof. intros. rewrite <- (app_nil_r b) at 1. by apply ReadAt_app. Qed.

Lemma ReadAt_length file off n b : ReadAt file off n = Some b → length b = n.
Proof.
  unfold ReadAt, slice. destruct (Z.leb_spec 0 off); [|done].
  destruct (Z.leb_spec (off + Z.of_nat n) (Z.of_nat (length file))); [|done]. intros [= <-].
  rewrite length_take, length_drop. lia.
Qed.

Lemma lxor_bound k a b : (a < 2 ^ k)%N → (b < 2 ^ k)%N → (N.lxor a b < 2 ^ k)%N.
Proof.
  intros Ha Hb. destruct (decide (N.lxor a b = 0)%N) as [->|Hn]; [lia|].
  apply N.log2_lt_pow2; [lia|]. pose proof (N.log2_lxor a b) as Hl.
  assert (0 < k)%N. { destruct k; [|lia]. simpl in *. exfalso. apply Hn. by replace a with 0%N by lia; replace b with 0%N by lia. }
  assert (∀ x, (x < 2 ^ k)%N → (N.log2 x < k)%N) as Hx.
  { intros x Hx. destruct (decide (x = 0)%N) as [->|]; [done|]. apply N.log2_lt_pow2; lia. }
  pose proof (Hx a Ha). pose proof (Hx b Hb). lia.
Qed.

Lemma shiftr_bound k a n : (a < 2 ^ k)%N → (N.shiftr a n < 2 ^ k)%N.
Proof.
  intros Ha. rewrite N.shiftr_div_pow2. eapply N.le_lt_trans; [|exact Ha].
  apply N.Div0.div_le_upper_bound. assert (2 ^ n ≠ 0)%N by (by apply N.pow_nonzero). nia.
Qed.

Lemma crc_checksum_bound p : (crc_checksum p < 2 ^ 32)%N.
Proof.
  unfold crc_checksum, crc_update, crc_not. apply lxor_bound; [|done].
  assert (Hbit : ∀ c, (c < 2 ^ 32)%N → (crc_bit c < 2 ^ 32)%N).
  { intros c Hc. unfold crc_bit. destruct (N.testbit c 0); [apply lxor_bound; [|done]|]; by apply shiftr_bound. }
  assert (Hent : ∀ c, (c < 2 ^ 32)%N → (crc_entry c < 2 ^ 32)%N) by (intros c Hc; unfold crc_entry; simpl; auto 10).
  generalize (N.lxor 0 0xffffffff) (eq_refl : (N.lxor 0 0xffffffff <? 2 ^ 32)%N = true). intros c Hc%N.ltb_lt.
  revert c Hc. induction p as [|v p IH]; intros c Hc; [done|]. simpl. apply IH.
  apply lxor_bound; [|by apply shiftr_bound]. apply Hent, lxor_bound.
  - change 255%N with (N.ones 8). rewrite N.land_ones. eapply N.lt_trans; [apply N.mod_lt|]; done.
  - pose proof (N_ascii_bounded v). unfold byte_val. lia.
Qed.
