(* ===== verification/GoIO.v ===== *)
(** * Methods that write state and may fail

    A Go method on a pointer receiver that returns an error is a function from
    the state to its result and the state it leaves: [io]. The state is kept on
    an error, as the fields a method assigned before its early return are.
    [wp m Q E s] says what holds after running [m] from [s]: [Q] on a return
    without an error, [E] on one with. *)
From S2P Require Import Prelude.

Definition io (S E A : Type) : Type := S → (A + E) * S.

Section io.
Context {S E : Type}.

Definition io_ret {A} (a : A) : io S E A := λ s, (inl a, s).
Definition io_fail {A} (e : E) : io S E A := λ s, (inr e, s).
Definition io_get : io S E S := λ s, (inl s, s).
Definition io_mod (f : S → S) : io S E unit := λ s, (inl tt, f s).

Definition io_bind {A B} (m : io S E A) (k : A → io S E B) : io S E B := λ s,
  match m s with
  | (inl a, s') => k a s'
  | (inr e, s') => (inr e, s')
  end.

(** [v, err := m()]: the error as a value, for a caller that looks at it. *)
Definition io_try {A} (m : io S E A) : io S E (A + E) := λ s, let '(r, s') := m s in (inl r, s').

(** A value that is already computed, or its error. *)
Definition io_of {A} (r : A + E) : io S E A := λ s, (r, s).

Definition wp {A} (m : io S E A) (Q : A → S → Prop) (F : S → Prop) (s : S) : Prop :=
  match m s with
  | (inl a, s') => Q a s'
  | (inr _, s') => F s'
  end.

Lemma wp_bind {A B} (m : io S E A) (k : A → io S E B) Q F s :
  wp m (λ a, wp (k a) Q F) F s → wp (io_bind m k) Q F s.
Proof. unfold wp, io_bind. by destruct (m s) as [[a|e] s']. Qed.

Lemma wp_ret {A} (a : A) (Q : A → S → Prop) F s : Q a s → wp (io_ret a) Q F s.
Proof. done. Qed.

Lemma wp_fail {A} e (Q : A → S → Prop) (F : S → Prop) s : F s → wp (io_fail e) Q F s.
Proof. done. Qed.

Lemma wp_get (Q : S → S → Prop) F s : Q s s → wp io_get Q F s.
Proof. done. Qed.

Lemma wp_mod f (Q : unit → S → Prop) F s : Q tt (f s) → wp (io_mod f) Q F s.
Proof. done. Qed.

Lemma wp_of {A} (r : A + E) (Q : A → S → Prop) (F : S → Prop) s :
  (∀ a, r = inl a → Q a s) → (∀ e, r = inr e → F s) → wp (io_of r) Q F s.
Proof. intros HQ HF. unfold wp, io_of. destruct r; eauto. Qed.

Lemma wp_try {A} (m : io S E A) (Q : A + E → S → Prop) F s :
  wp m (λ a, Q (inl a)) (λ s', ∀ e, Q (inr e) s') s → wp (io_try m) Q F s.
Proof. unfold wp, io_try. by destruct (m s) as [[a|e] s']. Qed.

Lemma wp_mono {A} (m : io S E A) (Q Q' : A → S → Prop) (F F' : S → Prop) s :
  wp m Q F s → (∀ a s', Q a s' → Q' a s') → (∀ s', F s' → F' s') → wp m Q' F' s.
Proof. unfold wp. destruct (m s) as [[a|e] s']; auto. Qed.

Lemma wp_frame {A} (m : io S E A) (Q : A → S → Prop) (F G : S → Prop) s :
  (∀ r s', m s = (r, s') → G s') → wp m Q F s → wp m (λ a s', Q a s' ∧ G s') (λ s', F s' ∧ G s') s.
Proof. unfold wp. intros HG. destruct (m s) as [[a|e] s'] eqn:Hm; eauto. Qed.
End io.

Notation "x ←! m ; k" := (io_bind m (λ x, k))
  (at level 20, m at level 100, k at level 200, only parsing) : trail_scope.
Notation "' x ←! m ; k" := (io_bind m (λ x, k))
  (at level 20, x pattern, m at level 100, k at level 200, only parsing) : trail_scope.
Notation "'do!' m ; k" := (io_bind m (λ _, k))
  (at level 20, m at level 100, k at level 200, only parsing) : trail_scope.

(** One step of a program under [wp]. *)
Ltac wp_step :=
  lazymatch goal with
  | |- wp (io_bind _ _) _ _ _ => apply wp_bind
  | |- wp (io_ret _) _ _ _ => apply wp_ret
  | |- wp (io_fail _) _ _ _ => apply wp_fail
  | |- wp io_get _ _ _ => apply wp_get
  | |- wp (io_mod _) _ _ _ => apply wp_mod
  | |- wp (io_try _) _ _ _ => apply wp_try
  end.
Ltac wp_steps := repeat (wp_step; simpl).
