(* ===== verification/Event.v ===== *)
(** * Change events and primary-key spellings: [internal/event]

    The event type that flows from capture to every reader, the text form of
    a primary key that names its row in the index ([BuildPKValues] and the
    functions that take such a text apart), and the unchanged-TOAST guard. *)
From S2P Require Import Prelude GoStrings GoVal.

(** ** Event types (a persistence contract: the numbers are stored) *)

Definition EventInsert : N := 1.
Definition EventUpdate : N := 2.
Definition EventDelete : N := 3.
Definition EventDDL : N := 4.
Definition EventGTID : N := 5.
Definition EventSnapshot : N := 6.
Definition EventCommit : N := 7.
Definition EventRelation : N := 8.
Definition EventCaughtUp : N := 9.

(** ** [metadata.ColumnMeta] and [metadata.TableMeta] *)

Record ColumnMeta := {
  Name : string;
  OrdinalPosition : Z;
  IsPK : bool;
  DataType : string;
  ColumnType : string;
  IsGenerated : bool;
  CharacterSet : string;
  IsNullable : string;
  IsIdentityAlways : bool;
}.

Record TableMeta := {
  tm_Schema : string;
  tm_Table : string;
  Columns : list ColumnMeta;
  PKColumns : list string;
}.

Definition PKColumnMetas (t : TableMeta) : list ColumnMeta :=
  filter (λ c, IsPK c = true) (Columns t).

(** ** Filters *)

(** [None] is a nil map: accept all. *)
Record Filters := {
  Schemas : option (gmap string bool);
  Tables : option (gmap string bool);
}.

Definition Matches (f : Filters) (schema table : string) : bool :=
  let pass (m : option (gmap string bool)) (k : string) :=
    match m with None => true | Some m => default false (m !! k) end in
  if negb (pass (Schemas f) schema) then false
  else if negb (pass (Tables f) (schema +:+ "." +:+ table)) then false
  else true.

(** ** Primary-key text *)

Definition pipe : ascii := "|".
Definition backslash : ascii := "\".

Definition EscapePKValue (val : string) : string :=
  let val := replace_byte backslash "\\" val in
  replace_byte pipe "\|" val.

Definition MaxPKValuesLen : Z := 512.
Definition hexPKPrefix : string := "0x".

Definition formatPKValue (v : GoVal) : string :=
  match v with
  | VBytes b =>
      if negb (utf8_valid b) then hexPKPrefix +:+ to_upper (hex_encode b) else b
  | _ => format_v v
  end.

Definition BuildPKValues (pkColumns : list ColumnMeta) (row : Row) : string :=
  String.concat "|" ((λ col, EscapePKValue (formatPKValue (row_get row (Name col)))) <$> pkColumns).

(** The loop of [splitPKValues]: [cur] is the builder's content. *)
Fixpoint split_loop (s cur : string) : list string :=
  match s with
  | "" => [cur]
  | String c s' =>
      if decide (c = backslash) then
        match s' with
        | String d s'' => split_loop s'' (cur +:+ str1 d)
        | "" => [cur +:+ str1 c]
        end
      else if decide (c = pipe) then cur :: split_loop s' ""
      else split_loop s' (cur +:+ str1 c)
  end.

Definition splitPKValues (s : string) : list string := split_loop s "".

(** The loops over [i, p := range parts] of the next two functions. *)
Fixpoint drop_loop (parts : list string) (i idx : Z) : list string :=
  match parts with
  | [] => []
  | p :: parts' =>
      (if (i =? idx)%Z then [] else [EscapePKValue p]) ++ drop_loop parts' (i + 1) idx
  end.

Fixpoint insert_loop (parts : list string) (i idx : Z) (value : string) : list string :=
  match parts with
  | [] => []
  | p :: parts' =>
      (if (i =? idx)%Z then [EscapePKValue value] else []) ++
      EscapePKValue p :: insert_loop parts' (i + 1) idx value
  end.

Definition DropPKComponent (pkValues : string) (idx n : Z) : option string :=
  let parts := splitPKValues pkValues in
  if negb (Z.of_nat (length parts) =? n)%Z || (idx <? 0)%Z || (n <=? idx)%Z then None
  else Some (String.concat "|" (drop_loop parts 0 idx)).

Definition InsertPKComponent (pkValues : string) (idx n : Z) (value : string) : option string :=
  let parts := splitPKValues pkValues in
  if negb (Z.of_nat (length parts) =? n - 1)%Z || (idx <? 0)%Z || (n <=? idx)%Z then None
  else
    let out := insert_loop parts 0 idx value in
    let out := if (idx =? n - 1)%Z then out ++ [EscapePKValue value] else out in
    Some (String.concat "|" out).

Definition CanonicalPKValues (s : string) : string :=
  if utf8_valid s then s
  else
    let parts := splitPKValues s in
    String.concat "|" ((λ p,
      let p := if negb (utf8_valid p) then hexPKPrefix +:+ to_upper (hex_encode p) else p in
      EscapePKValue p) <$> parts).

(** ** Changed columns *)

Definition ChangedColumns (before after : option Row) : list string :=
  match before, after with
  | Some before, Some after =>
      sort_by String.compare
        (filter (λ key, row_get before key ≠ row_get after key) (map_to_list before).*1)
  | _, _ => []
  end.

(** ** The unchanged-TOAST marker *)

Definition UnchangedToastKey : string := "__bintrail_unchanged_toast__".

Definition IsUnchangedToastMarker (v : GoVal) : bool :=
  match v with
  | VMap m =>
      if negb (size m =? 1)%nat then false
      else match m !! UnchangedToastKey with Some (VBool flag) => flag | _ => false end
  | _ => false
  end.

Definition UnresolvedToastColumns (image : option Row) : list string :=
  match image with
  | None => []
  | Some m => sort_by String.compare
      (filter (λ kv : string * GoVal, IsUnchangedToastMarker kv.2 = true) (map_to_list m)).*1
  end.

(** The error carries the columns it names; its prose is left out. *)
Inductive ToastError := UnresolvedToastError (schema table pkValues : string) (cols : list string).

Fixpoint CheckUnresolvedToast (schema table pkValues : string) (images : list (option Row))
    : option ToastError :=
  match images with
  | [] => None
  | img :: rest =>
      match UnresolvedToastColumns img with
      | [] => CheckUnresolvedToast schema table pkValues rest
      | cols => Some (UnresolvedToastError schema table pkValues cols)
      end
  end.

(** ** Properties of primary-key text *)

(** The text of a key with the given raw components. *)
Definition pk_text (parts : list string) : string := String.concat "|" (EscapePKValue <$> parts).

(** The canonical spelling of one raw component. *)
Definition canon_component (p : string) : string :=
  if utf8_valid p then p else hexPKPrefix +:+ to_upper (hex_encode p).

Definition escape_byte (c : ascii) : string :=
  if decide (c = backslash) then "\\" else if decide (c = pipe) then "\|" else str1 c.

Lemma EscapePKValue_cons c s :
  EscapePKValue (String c s) = escape_byte c +:+ EscapePKValue s.
Proof.
  unfold EscapePKValue, escape_byte. simpl. rewrite replace_byte_app.
  destruct (decide (c = backslash)) as [->|Hb].
  - by rewrite decide_True by done.
  - rewrite (decide_False (P := backslash = c)) by done. simpl.
    destruct (decide (c = pipe)) as [->|Hp]; [by rewrite decide_True by done|].
    by rewrite decide_False by done.
Qed.

Lemma split_loop_escape x rest cur :
  split_loop (EscapePKValue x +:+ rest) cur = split_loop rest (cur +:+ x).
Proof.
  revert cur. induction x as [|c x IH]; intros cur.
  { simpl. by rewrite str_app_nil_r. }
  rewrite EscapePKValue_cons, str_app_assoc. unfold escape_byte.
  rewrite (str_cons_app c x), <-(str_app_assoc cur).
  destruct (decide (c = backslash)) as [->|Hb]; [by rewrite <-IH|].
  destruct (decide (c = pipe)) as [->|Hp]; [by rewrite <-IH|].
  rewrite <-IH. simpl. by rewrite !decide_False by done.
Qed.

Lemma pk_text_cons p parts :
  pk_text (p :: parts) =
    EscapePKValue p +:+ (match parts with [] => "" | _ => String pipe (pk_text parts) end).
Proof.
  unfold pk_text. rewrite fmap_cons, concat_cons. destruct parts; simpl; [|done].
  by rewrite str_app_nil_r.
Qed.

Lemma split_loop_text p parts cur :
  split_loop (pk_text (p :: parts)) cur = (cur +:+ p) :: parts.
Proof.
  revert p cur. induction parts as [|q parts IH]; intros p cur;
    rewrite pk_text_cons, split_loop_escape; [done|].
  cbn [split_loop]. rewrite decide_False by done. rewrite decide_True by done.
  f_equal. by rewrite IH.
Qed.

Lemma split_pk_text parts : parts ≠ [] → splitPKValues (pk_text parts) = parts.
Proof. destruct parts as [|p parts]; [done|]. intros _. apply split_loop_text. Qed.

Lemma split_nonempty s : splitPKValues s ≠ [].
Proof.
  unfold splitPKValues. generalize ""%string as cur. revert s.
  fix IH 1. intros [|c s] cur; simpl; [done|].
  destruct (decide _); [destruct s; [done|apply IH]|].
  destruct (decide _); [done|apply IH].
Qed.

Lemma BuildPKValues_text cols row :
  BuildPKValues cols row = pk_text ((λ col, formatPKValue (row_get row (Name col))) <$> cols).
Proof. unfold BuildPKValues, pk_text. by rewrite <-list_fmap_compose. Qed.

Lemma EscapePKValue_valid s : utf8_valid (EscapePKValue s) = utf8_valid s.
Proof.
  enough (∀ pre, utf8_valid (pre +:+ EscapePKValue s) = utf8_valid (pre +:+ s)) as H
    by exact (H "").
  induction s as [|c s IH]; intros pre; [done|].
  rewrite EscapePKValue_cons. unfold escape_byte.
  rewrite (str_cons_app c s).
  destruct (decide (c = backslash)) as [->|Hb]; [|destruct (decide (c = pipe)) as [->|Hp]].
  - simpl. rewrite !utf8_valid_cut by done. rewrite utf8_valid_cons by done.
    f_equal. exact (IH "").
  - simpl. rewrite !utf8_valid_cut by done. rewrite utf8_valid_cons by done.
    f_equal. exact (IH "").
  - rewrite <-!str_app_assoc. apply IH.
Qed.

Lemma pk_text_valid parts : utf8_valid (pk_text parts) = forallb utf8_valid parts.
Proof.
  induction parts as [|p parts IH]; [done|]. rewrite pk_text_cons.
  destruct parts as [|q parts].
  { rewrite str_app_nil_r, EscapePKValue_valid. simpl. by rewrite andb_true_r. }
  rewrite utf8_valid_cut by done. rewrite EscapePKValue_valid, IH. done.
Qed.

Lemma canon_component_valid p : utf8_valid (canon_component p) = true.
Proof.
  unfold canon_component. destruct (utf8_valid p) eqn:Hp; [done|].
  apply utf8_valid_ascii. rewrite str_forall_app, hex_encode_ascii. done.
Qed.

Lemma canon_component_id p : utf8_valid p = true → canon_component p = p.
Proof. unfold canon_component. by intros ->. Qed.

Lemma CanonicalPKValues_text parts :
  parts ≠ [] → CanonicalPKValues (pk_text parts) = pk_text (canon_component <$> parts).
Proof.
  intros Hne. unfold CanonicalPKValues. destruct (utf8_valid (pk_text parts)) eqn:Hv.
  - rewrite pk_text_valid in Hv. apply Is_true_true, forallb_True in Hv. f_equal. clear Hne.
    induction Hv as [|p parts Hp%Is_true_true _ IH]; [done|]. rewrite fmap_cons.
    rewrite canon_component_id by done. by f_equal.
  - rewrite split_pk_text by done. unfold pk_text. f_equal.
    rewrite <-list_fmap_compose. apply list_fmap_ext. intros i p _. simpl.
    unfold canon_component. by destruct (utf8_valid p).
Qed.

Lemma drop_loop_past parts i idx : (idx < i)%Z → drop_loop parts i idx = EscapePKValue <$> parts.
Proof.
  revert i. induction parts as [|p parts IH]; intros i Hi; [done|]. simpl.
  rewrite (proj2 (Z.eqb_neq _ _)) by lia. by rewrite IH by lia.
Qed.

Lemma drop_loop_at parts i (k : nat) :
  drop_loop parts i (i + Z.of_nat k) = EscapePKValue <$> delete k parts.
Proof.
  revert i k. induction parts as [|p parts IH]; intros i [|k]; [done..| |]; simpl.
  - rewrite Z.add_0_r, Z.eqb_refl. by rewrite drop_loop_past by lia.
  - rewrite (proj2 (Z.eqb_neq _ _)) by lia. simpl. f_equal. rewrite <-(IH (i + 1)%Z). f_equal. lia.
Qed.

Lemma insert_loop_past parts i idx v :
  (idx < i)%Z → insert_loop parts i idx v = EscapePKValue <$> parts.
Proof.
  revert i. induction parts as [|p parts IH]; intros i Hi; [done|]. simpl.
  rewrite (proj2 (Z.eqb_neq _ _)) by lia. by rewrite IH by lia.
Qed.

Lemma insert_loop_at parts i (k : nat) v :
  insert_loop parts i (i + Z.of_nat k) v ++
    (if decide (k = length parts) then [EscapePKValue v] else [])
  = if decide (k ≤ length parts)
    then EscapePKValue <$> (take k parts ++ v :: drop k parts) else EscapePKValue <$> parts.
Proof.
  revert i k. induction parts as [|p parts IH]; intros i [|k]; cbn [insert_loop length].
  - done.
  - by rewrite !decide_False by lia.
  - rewrite decide_False, decide_True by lia. rewrite Z.add_0_r, Z.eqb_refl.
    rewrite insert_loop_past by lia. by rewrite app_nil_r.
  - rewrite (proj2 (Z.eqb_neq _ _)) by lia. simpl.
    replace (i + Z.of_nat (S k))%Z with (i + 1 + Z.of_nat k)%Z by lia.
    specialize (IH (i + 1)%Z k). repeat case_decide; try lia; simpl; f_equal; exact IH.
Qed.

Lemma DropPKComponent_text parts idx :
  parts ≠ [] → idx < length parts →
  DropPKComponent (pk_text parts) (Z.of_nat idx) (Z.of_nat (length parts))
    = Some (pk_text (delete idx parts)).
Proof.
  intros Hne Hidx. unfold DropPKComponent. rewrite split_pk_text by done.
  rewrite Z.eqb_refl. rewrite (proj2 (Z.ltb_ge _ _)) by lia.
  rewrite (proj2 (Z.leb_gt _ _)) by lia. simpl. unfold pk_text. by rewrite <-(drop_loop_at parts 0).
Qed.

Lemma InsertPKComponent_text parts idx v :
  parts ≠ [] → idx ≤ length parts →
  InsertPKComponent (pk_text parts) (Z.of_nat idx) (Z.of_nat (length parts) + 1) v
    = Some (pk_text (take idx parts ++ v :: drop idx parts)).
Proof.
  intros Hne Hidx. unfold InsertPKComponent. rewrite split_pk_text by done.
  rewrite Z.add_simpl_r, Z.eqb_refl. rewrite (proj2 (Z.ltb_ge _ _)) by lia.
  rewrite (proj2 (Z.leb_gt _ _)) by lia. simpl. unfold pk_text. do 2 f_equal.
  pose proof (insert_loop_at parts 0 idx v) as H.
  rewrite (decide_True (P := idx ≤ length parts)) in H by lia.
  rewrite <-H. simpl. destruct (decide (idx = length parts)) as [->|Hi].
  - by rewrite Z.eqb_refl.
  - rewrite (proj2 (Z.eqb_neq _ _)) by lia. by rewrite app_nil_r.
Qed.

(** ** Claims *)

(** A key column, for the witnesses. *)
Definition key_column (name : string) : ColumnMeta :=
  {| Name := name; OrdinalPosition := 1; IsPK := true; DataType := "varchar";
     ColumnType := "varchar(64)"; IsGenerated := false; CharacterSet := "utf8mb4";
     IsNullable := "NO"; IsIdentityAlways := false |}.

(** [splitPKValues] takes the text [BuildPKValues] wrote apart into exactly
    the components it was built from, whatever pipes and backslashes the values
    hold. So two rows get the same key text only if every key column is
    spelled the same. *)
Theorem split_build_pk cols row :
  cols ≠ [] →
  splitPKValues (BuildPKValues cols row) =
    (λ col, formatPKValue (row_get row (Name col))) <$> cols.
Proof.
  intros Hne. rewrite BuildPKValues_text. apply split_pk_text.
  by destruct cols.
Qed.

Lemma split_build_pk_witness :
  let cols := [key_column "a"; key_column "b"] in
  let row : Row := <["a" := VString "x|y\"]> (<["b" := VInt 7]> ∅) in
  BuildPKValues cols row = "x\|y\\|7" ∧ splitPKValues (BuildPKValues cols row) = ["x|y\"; "7"].
Proof. split; [vm_compute; reflexivity|]. by rewrite split_build_pk. Defined.

(** Putting a component back undoes removing it: for a key with at least
    one other component, [InsertPKComponent] yields the text with [v] at
    position [idx], and [DropPKComponent] gets the original text back from it. *)
Theorem insert_drop_pk parts idx v :
  parts ≠ [] → idx ≤ length parts →
  let n := (Z.of_nat (length parts) + 1)%Z in
  ∃ k, InsertPKComponent (pk_text parts) (Z.of_nat idx) n v = Some k ∧
    splitPKValues k = take idx parts ++ v :: drop idx parts ∧
    DropPKComponent k (Z.of_nat idx) n = Some (pk_text parts).
Proof.
  intros Hne Hidx n. eexists. split; [by apply InsertPKComponent_text|].
  split; [apply split_pk_text; by destruct (take idx parts)|].
  subst n. replace (Z.of_nat (length parts) + 1)%Z
    with (Z.of_nat (length (take idx parts ++ v :: drop idx parts))).
  - rewrite DropPKComponent_text; [|by destruct (take idx parts)|].
    + do 2 f_equal. transitivity (delete (length (take idx parts)) (take idx parts ++ v :: drop idx parts)).
      * f_equal. rewrite length_take. lia.
      * by rewrite delete_middle, take_drop.
    + rewrite length_app, length_take. simpl. rewrite length_drop. lia.
  - rewrite length_app, length_take. simpl. rewrite length_drop. lia.
Qed.

Lemma insert_drop_pk_witness :
  ∃ k, InsertPKComponent "a\|b|c" 1 3 "2038" = Some k ∧
    splitPKValues k = ["a|b"; "2038"; "c"] ∧ DropPKComponent k 1 3 = Some "a\|b|c".
Proof. apply (insert_drop_pk ["a|b"; "c"] 1 "2038"); [done|simpl; lia]. Defined.

(** [CanonicalPKValues] rewrites a key stored with raw bytes into the
    spelling [BuildPKValues] gives the same bytes today, leaves a canonical
    key alone (it is idempotent) and always returns valid UTF-8; its fast
    path is exact, since the whole text is valid exactly when every raw
    component is. *)
Theorem canonical_pk_values cols row parts :
  parts ≠ [] → ((λ col, row_get row (Name col)) <$> cols) = VBytes <$> parts →
  CanonicalPKValues (pk_text parts) = BuildPKValues cols row ∧
  CanonicalPKValues (CanonicalPKValues (pk_text parts)) = CanonicalPKValues (pk_text parts) ∧
  utf8_valid (CanonicalPKValues (pk_text parts)) = true ∧
  utf8_valid (pk_text parts) = forallb utf8_valid parts.
Proof.
  intros Hne Hrow. rewrite CanonicalPKValues_text by done.
  assert (utf8_valid (pk_text (canon_component <$> parts)) = true) as Hv.
  { rewrite pk_text_valid. apply Is_true_true, forallb_True, Forall_fmap, Forall_true.
    intros p. simpl. by rewrite canon_component_valid. }
  split_and!; [|unfold CanonicalPKValues; by rewrite Hv|done|apply pk_text_valid].
  rewrite BuildPKValues_text. f_equal.
  change ((λ col, formatPKValue (row_get row (Name col))) <$> cols)
    with (formatPKValue ∘ (λ col, row_get row (Name col)) <$> cols).
  rewrite list_fmap_compose, Hrow.
  rewrite <-list_fmap_compose. apply list_fmap_ext. intros i p _. simpl.
  unfold canon_component. by destruct (utf8_valid p).
Qed.

Lemma canonical_pk_values_witness :
  let raw := String (ascii_of_N 233) (String (ascii_of_N 1) "") in
  let row : Row := <["a" := VBytes raw]> (<["b" := VBytes "x"]> ∅) in
  CanonicalPKValues (raw +:+ "|x") = "0xE901|x" ∧
  CanonicalPKValues (raw +:+ "|x") = BuildPKValues [key_column "a"; key_column "b"] row.
Proof.
  intros raw row. split; [vm_compute; reflexivity|].
  apply (canonical_pk_values [key_column "a"; key_column "b"] row [raw; "x"]);
    [done|vm_compute; reflexivity].
Defined.
