(* ===== verification/Rows.v ===== *)
(** * Result rows and binary log positions: [internal/query/query.go],
    [internal/query/binlogorder.go]

    One decoded row of [binlog_events], the order of binary log coordinates,
    and the "later in the binary log" rule every fold is built on.

    [uint64] fields are [N]; a [time.Time] is a [Z], the nanoseconds since Go's
    zero time, so [IsZero] is [= 0] and [Truncate(d)] rounds down to a multiple
    of [d]. *)
From S2P Require Import Prelude GoStrings GoVal Event.

(** ** Positions *)

Record BinlogPos := { File : string; Pos : N }.

#[export] Instance BinlogPos_eq_dec : EqDecision BinlogPos.
Proof. solve_decision. Defined.

Definition slash : ascii := "/".

Definition IsLSN (p : BinlogPos) : bool := has_byte slash (File p).

Definition AtOrBefore (p q : BinlogPos) : bool :=
  if IsLSN p && IsLSN q then (Pos p <=? Pos q)%N
  else if negb (Bool.eqb (IsLSN p) (IsLSN q)) then true
  else if negb (String.length (File p) =? String.length (File q)) then
    (String.length (File p) <? String.length (File q))
  else if negb (bool_decide (File p = File q)) then String.ltb (File p) (File q)
  else (Pos p <=? Pos q)%N.

(** ** Rows *)

Record ResultRow := {
  EventID : N;
  BinlogFile : string;
  StartPos : N;
  EndPos : N;
  EventTimestamp : Z;
  GTID : option string;
  ConnectionID : option N;
  SchemaName : string;
  TableName : string;
  EventType : N;
  PKValues : string;
  RowChangedColumns : list string;
  RowBefore : option Row;
  RowAfter : option Row;
  SchemaVersion : N;
  QueryText : option string;
  QueryHash : option string;
  CommitTsUS : option N;
  KeySpanFirst : string;
  KeySpanLast : string;
}.

#[export] Instance ResultRow_eq_dec : EqDecision ResultRow.
Proof. solve_decision. Defined.

(** The zero value of the struct. *)
Definition zero_row : ResultRow := {|
  EventID := 0; BinlogFile := ""; StartPos := 0; EndPos := 0; EventTimestamp := 0;
  GTID := None; ConnectionID := None; SchemaName := ""; TableName := ""; EventType := 0;
  PKValues := ""; RowChangedColumns := []; RowBefore := None; RowAfter := None;
  SchemaVersion := 0; QueryText := None; QueryHash := None; CommitTsUS := None;
  KeySpanFirst := ""; KeySpanLast := "" |}.

#[export] Instance ResultRow_inhabited : Inhabited ResultRow := populate zero_row.

(** [strings.EqualFold(order, "DESC")] on ASCII text, and the direction it picks. *)
Definition OrderDirection (order : string) : string :=
  if bool_decide (to_upper order = "DESC") then "DESC" else "ASC".

Definition hasBinlogCoordinate (r : ResultRow) : bool :=
  negb (bool_decide (BinlogFile r = "")) && (StartPos r <? 2 ^ 63)%N
    && negb (has_byte slash (BinlogFile r)).

Definition row_pos (r : ResultRow) : BinlogPos := {| File := BinlogFile r; Pos := StartPos r |}.

Definition LaterInBinlog (a b : ResultRow) : bool :=
  if negb (hasBinlogCoordinate a) || negb (hasBinlogCoordinate b) then false
  else
    let pa := row_pos a in
    let pb := row_pos b in
    if bool_decide (pa = pb) then (EventID b <? EventID a)%N
    else negb (AtOrBefore pa pb).

(** [compareBinlogCoordinate]: (length of the file name, file name, start
    position, event id). *)
Definition compareBinlogCoordinate (a b : ResultRow) : comparison :=
  Nat.compare (String.length (BinlogFile a)) (String.length (BinlogFile b))
  ⊕ String.compare (BinlogFile a) (BinlogFile b)
  ⊕ N.compare (StartPos a) (StartPos b)
  ⊕ N.compare (EventID a) (EventID b).

(** [compareStatementTime]: the order every fetch returns. *)
Definition compareStatementTime (a b : ResultRow) : comparison :=
  Z.compare (EventTimestamp a) (EventTimestamp b) ⊕ N.compare (EventID a) (EventID b).

Definition compareEventID (a b : ResultRow) : comparison := N.compare (EventID a) (EventID b).

#[export] Instance compareBinlogCoordinate_order : CmpOrder compareBinlogCoordinate.
Proof.
  unfold compareBinlogCoordinate.
  repeat apply cmp_or_order;
    [apply (cmp_on_order (λ r, String.length (BinlogFile r)) Nat.compare)|apply (cmp_on_order BinlogFile String.compare)
    |apply (cmp_on_order StartPos N.compare)|apply (cmp_on_order EventID N.compare)]; apply _.
Qed.

#[export] Instance compareStatementTime_order : CmpOrder compareStatementTime.
Proof.
  unfold compareStatementTime.
  apply cmp_or_order; [apply (cmp_on_order EventTimestamp Z.compare)|apply (cmp_on_order EventID N.compare)]; apply _.
Qed.

#[export] Instance compareEventID_order : CmpOrder compareEventID.
Proof. apply (cmp_on_order EventID N.compare). Qed.

(** Two rows each comparison cannot tell apart have one event id. *)
Lemma compareStatementTime_id a b : compareStatementTime a b = Eq → EventID a = EventID b.
Proof.
  unfold compareStatementTime, cmp_or. destruct (Z.compare _ _); [|done..]. apply N.compare_eq.
Qed.

Lemma compareBinlogCoordinate_id a b : compareBinlogCoordinate a b = Eq → EventID a = EventID b.
Proof.
  unfold compareBinlogCoordinate, cmp_or. repeat case_match; try done. apply N.compare_eq.
Qed.

(** ** The order of positions *)

(** Without LSNs: by name length, then name, then position. *)
Definition pos_compare (p q : BinlogPos) : comparison :=
  Nat.compare (String.length (File p)) (String.length (File q))
  ⊕ String.compare (File p) (File q) ⊕ N.compare (Pos p) (Pos q).

#[export] Instance pos_compare_order : CmpOrder pos_compare.
Proof.
  unfold pos_compare. repeat apply cmp_or_order;
    [apply (cmp_on_order (λ p, String.length (File p)) Nat.compare)|apply (cmp_on_order File String.compare)
    |apply (cmp_on_order Pos N.compare)]; apply _.
Qed.

#[export] Instance pos_compare_total : CmpTotal pos_compare.
Proof.
  split; [apply _|]. intros [f p] [g q]. unfold pos_compare, cmp_or. simpl.
  repeat case_match; try done. intros Hq%N.compare_eq.
  f_equal; [by apply String.compare_eq_iff|done].
Qed.

Lemma string_ltb_compare s t : String.ltb s t = true ↔ String.compare s t = Lt.
Proof. unfold String.ltb. by destruct (String.compare s t). Qed.

Lemma AtOrBefore_compare p q : IsLSN p = false → IsLSN q = false →
  AtOrBefore p q = match pos_compare p q with Gt => false | _ => true end.
Proof.
  intros Hp Hq. unfold AtOrBefore, pos_compare, cmp_or. rewrite Hp, Hq. simpl.
  destruct (Nat.compare_spec (String.length (File p)) (String.length (File q))) as [He|Hl|Hg].
  - rewrite He, Nat.eqb_refl. simpl.
    destruct (String.compare (File p) (File q)) eqn:Hs.
    + apply String.compare_eq_iff in Hs as ->. rewrite bool_decide_eq_true_2 by done. simpl.
      unfold N.leb. by destruct (N.compare _ _).
    + rewrite bool_decide_eq_false_2. 2:{ intros Hfg. rewrite Hfg, (cmp_refl String.compare) in Hs. done. }
      simpl. unfold String.ltb. by rewrite Hs.
    + rewrite bool_decide_eq_false_2. 2:{ intros Hfg. rewrite Hfg, (cmp_refl String.compare) in Hs. done. }
      simpl. unfold String.ltb. by rewrite Hs.
  - rewrite (proj2 (Nat.eqb_neq _ _)) by lia. simpl. by apply Nat.ltb_lt.
  - rewrite (proj2 (Nat.eqb_neq _ _)) by lia. simpl. apply Nat.ltb_ge. lia.
Qed.

Lemma hasBinlogCoordinate_LSN r : hasBinlogCoordinate r = true → IsLSN (row_pos r) = false.
Proof.
  unfold hasBinlogCoordinate, IsLSN. rewrite !andb_true_iff, !negb_true_iff. by intros [_ ?].
Qed.

Lemma compareBinlogCoordinate_pos a b :
  compareBinlogCoordinate a b = pos_compare (row_pos a) (row_pos b) ⊕ compareEventID a b.
Proof. done. Qed.

(** For two rows with coordinates the rule is the comparison. *)
Lemma LaterInBinlog_compare a b :
  hasBinlogCoordinate a = true → hasBinlogCoordinate b = true →
  LaterInBinlog a b = match compareBinlogCoordinate a b with Gt => true | _ => false end.
Proof.
  intros Ha Hb. unfold LaterInBinlog. rewrite Ha, Hb. simpl.
  rewrite compareBinlogCoordinate_pos. unfold compareEventID.
  destruct (decide (row_pos a = row_pos b)) as [He|Hne].
  - rewrite bool_decide_eq_true_2 by done. rewrite He, (cmp_refl pos_compare). simpl.
    unfold N.ltb. rewrite N.compare_antisym. by destruct (N.compare (EventID a) _).
  - rewrite bool_decide_eq_false_2 by done.
    rewrite AtOrBefore_compare by auto using hasBinlogCoordinate_LSN.
    destruct (pos_compare _ _) eqn:Hc; [|done..]. by apply (cmp_eq pos_compare) in Hc.
Qed.

(** [row_pos] decides the order of two rows but for the id. *)
Lemma LaterInBinlog_pos a b : LaterInBinlog a b = true → AtOrBefore (row_pos b) (row_pos a) = true.
Proof.
  intros Hl. assert (hasBinlogCoordinate a = true ∧ hasBinlogCoordinate b = true) as [Ha Hb].
  { revert Hl. unfold LaterInBinlog. by destruct (hasBinlogCoordinate a), (hasBinlogCoordinate b). }
  rewrite LaterInBinlog_compare, compareBinlogCoordinate_pos in Hl by done.
  rewrite AtOrBefore_compare by auto using hasBinlogCoordinate_LSN.
  rewrite (cmp_antisym pos_compare). by destruct (pos_compare (row_pos a) (row_pos b)).
Qed.

(** A row of table [shop.orders], for the examples and witnesses. *)
Definition mk_row (id : N) (file : string) (pos : N) (ts : Z) (type : N) (pk : string)
    (before after : option Row) : ResultRow := {|
  EventID := id; BinlogFile := file; StartPos := pos; EndPos := pos + 1; EventTimestamp := ts;
  GTID := None; ConnectionID := None; SchemaName := "shop"; TableName := "orders";
  EventType := type; PKValues := pk; RowChangedColumns := []; RowBefore := before;
  RowAfter := after; SchemaVersion := 0; QueryText := None; QueryHash := None;
  CommitTsUS := None; KeySpanFirst := ""; KeySpanLast := "" |}.

(** ** Claims *)

(** A file of one server's binary log sequence: a constant base name and a
    number zero-padded to at least six digits. *)
Definition binlog_name (base : string) (n : N) : string := base +:+ "." +:+ pad 6 n.

Lemma binlog_name_compare base n m :
  (Nat.compare (String.length (binlog_name base n)) (String.length (binlog_name base m))
   ⊕ String.compare (binlog_name base n) (binlog_name base m)) = N.compare n m.
Proof.
  unfold binlog_name. rewrite <-(pad_compare 6 n m).
  rewrite <-!(str_app_assoc base "."), string_compare_app_l, !(str_length_app (base +:+ ".")).
  f_equal. destruct (Nat.compare_spec (String.length (pad 6 n)) (String.length (pad 6 m)));
    [apply Nat.compare_eq_iff|apply Nat.compare_lt_iff|apply Nat.compare_gt_iff]; lia.
Qed.

(** Within one server's sequence the position order is the order the
    server wrote the files in, also past the rollover of the number to a
    seventh digit ([.999999] to [.1000000]), where plain text order inverts. *)
Theorem AtOrBefore_sequence base n m p q :
  has_byte slash base = false →
  AtOrBefore {| File := binlog_name base n; Pos := p |} {| File := binlog_name base m; Pos := q |} = true
  ↔ (n < m ∨ n = m ∧ p ≤ q)%N.
Proof.
  intros Hb.
  assert (∀ k, has_byte slash (binlog_name base k) = false) as Hn.
  { intros k. unfold binlog_name. rewrite !has_byte_app, Hb. simpl. by apply fixed_no_byte. }
  rewrite AtOrBefore_compare by apply Hn. unfold pos_compare. simpl. rewrite binlog_name_compare.
  unfold cmp_or. destruct (N.compare_spec n m); [|split; first [done|lia|intros _; lia]..].
  destruct (N.compare_spec p q); split; first [done|lia|intros _; lia].
Qed.

Lemma AtOrBefore_sequence_witness :
  AtOrBefore {| File := "binlog.999999"; Pos := 4 |} {| File := "binlog.1000000"; Pos := 4 |} = true ∧
  AtOrBefore {| File := "binlog.1000000"; Pos := 4 |} {| File := "binlog.999999"; Pos := 4 |} = false.
Proof.
  split.
  - apply (AtOrBefore_sequence "binlog" 999999 1000000 4 4); [reflexivity|lia].
  - reflexivity.
Defined.

(** On rows with a coordinate, "later in the binary log" is a strict
    total order (irreflexive, transitive, and of two rows with different ids
    one is later), and it is exactly the order [OrderByBinlog] sorts by. *)
Theorem LaterInBinlog_strict_order a b c :
  hasBinlogCoordinate a = true → hasBinlogCoordinate b = true → hasBinlogCoordinate c = true →
  LaterInBinlog a a = false ∧
  (LaterInBinlog a b = true → LaterInBinlog b c = true → LaterInBinlog a c = true) ∧
  (EventID a ≠ EventID b → LaterInBinlog a b = true ∨ LaterInBinlog b a = true) ∧
  (LaterInBinlog a b = true ↔ compareBinlogCoordinate a b = Gt).
Proof.
  intros Ha Hb Hc. rewrite !LaterInBinlog_compare by done.
  rewrite (cmp_refl compareBinlogCoordinate). split_and!; [done| | |].
  - destruct (compareBinlogCoordinate a b) eqn:H1, (compareBinlogCoordinate b c) eqn:H2; try done.
    apply cmp_gt_lt in H1, H2; try apply _. pose proof (cmp_lt_trans _ _ _ _ H2 H1) as H3.
    apply cmp_gt_lt in H3; [|apply _]. by rewrite H3.
  - intros Hid. rewrite (cmp_antisym compareBinlogCoordinate b a).
    destruct (compareBinlogCoordinate a b) eqn:H1; simpl; auto.
    by apply compareBinlogCoordinate_id in H1.
  - by destruct (compareBinlogCoordinate a b).
Qed.

Lemma LaterInBinlog_strict_order_witness :
  let r1 := mk_row 1 "binlog.000001" 900 50 EventUpdate "1" None None in
  let r2 := mk_row 2 "binlog.000002" 4 40 EventUpdate "1" None None in
  let r3 := mk_row 3 "binlog.000002" 4 40 EventUpdate "1" None None in
  LaterInBinlog r3 r1 = true ∧ compareBinlogCoordinate r3 r2 = Gt.
Proof.
  intros r1 r2 r3.
  destruct (LaterInBinlog_strict_order r3 r2 r1) as (_ & Htrans & _ & Hcmp); [reflexivity..|].
  split; [apply Htrans; reflexivity|apply Hcmp; reflexivity].
Defined.
