(* ===== verification/Merge.v ===== *)
(** * Merging the rows of several sources: [internal/query/merge.go]

    Deduplication by event id, the (event_timestamp, event_id) order in either
    direction, the "latest n per key" trim and the global cap. *)
From S2P Require Import Prelude GoStrings GoVal Event Rows.

Definition maxDivergenceReports : Z := 5.

Definition sameOptionalString (a b : option string) : bool :=
  match a, b with
  | Some a, Some b => bool_decide (a = b)
  | _, _ => true
  end.

(** The optional numbers of [sameEvent] follow the same rule. *)
Definition sameOptionalN (a b : option N) : bool :=
  match a, b with
  | Some a, Some b => (a =? b)%N
  | _, _ => true
  end.

(** [len] of a possibly nil map. *)
Definition image_len (a : option Row) : nat := match a with None => 0 | Some m => size m end.

Definition sameRowImage (a b : option Row) : bool :=
  if negb (image_len a =? image_len b) then false
  else if (image_len a =? 0) then true
  else bool_decide (a = b).

Definition sameEvent (a b : ResultRow) : bool :=
  if negb (bool_decide (BinlogFile a = BinlogFile b)) || negb (StartPos a =? StartPos b)%N
     || negb (EndPos a =? EndPos b)%N || negb (EventTimestamp a =? EventTimestamp b)%Z
     || negb (bool_decide (SchemaName a = SchemaName b))
     || negb (bool_decide (TableName a = TableName b))
     || negb (EventType a =? EventType b)%N || negb (bool_decide (PKValues a = PKValues b))
  then false
  else if negb (sameOptionalString (GTID a) (GTID b))
     || negb (sameOptionalString (QueryText a) (QueryText b))
     || negb (sameOptionalString (QueryHash a) (QueryHash b))
  then false
  else if negb (sameOptionalN (ConnectionID a) (ConnectionID b)) then false
  else if negb (sameOptionalN (CommitTsUS a) (CommitTsUS b)) then false
  else if negb (bool_decide (RowChangedColumns a = RowChangedColumns b)) then false
  else sameRowImage (RowBefore a) (RowBefore b) && sameRowImage (RowAfter a) (RowAfter b).

(** [r] with another key span. *)
Definition with_span (r : ResultRow) (first last : string) : ResultRow := {|
  EventID := EventID r; BinlogFile := BinlogFile r; StartPos := StartPos r; EndPos := EndPos r;
  EventTimestamp := EventTimestamp r; GTID := GTID r; ConnectionID := ConnectionID r;
  SchemaName := SchemaName r; TableName := TableName r; EventType := EventType r;
  PKValues := PKValues r; RowChangedColumns := RowChangedColumns r; RowBefore := RowBefore r;
  RowAfter := RowAfter r; SchemaVersion := SchemaVersion r; QueryText := QueryText r;
  QueryHash := QueryHash r; CommitTsUS := CommitTsUS r;
  KeySpanFirst := first; KeySpanLast := last |}.

Definition WidenKeySpan (r dup : ResultRow) : ResultRow :=
  let first :=
    if negb (bool_decide (KeySpanFirst dup = "")) &&
       (bool_decide (KeySpanFirst r = "") || String.ltb (KeySpanFirst dup) (KeySpanFirst r))
    then KeySpanFirst dup else KeySpanFirst r in
  let last := if String.ltb (KeySpanLast r) (KeySpanLast dup) then KeySpanLast dup else KeySpanLast r in
  with_span r first last.

(** The state of the dedup loop: [seen], [unique], [diverged]. *)
Definition merge_step (st : gmap N nat * list ResultRow * Z) (r : ResultRow)
    : gmap N nat * list ResultRow * Z :=
  let '(seen, unique, diverged) := st in
  match seen !! EventID r with
  | Some kept =>
      let unique' := alter (λ u, WidenKeySpan u r) kept unique in
      let diverged' :=
        match unique' !! kept with
        | Some u => if negb (sameEvent u r) then (diverged + 1)%Z else diverged
        | None => diverged
        end in
      (seen, unique', diverged')
  | None => (<[EventID r := length unique]> seen, unique ++ [r], diverged)
  end.

Definition merge_loop (rows : list ResultRow) : gmap N nat * list ResultRow * Z :=
  foldl merge_step (∅, [], 0%Z) rows.

(** The comparison of the sort, in the requested direction. *)
Definition merge_compare (order : string) (a b : ResultRow) : comparison :=
  let c := compareStatementTime a b in
  if bool_decide (OrderDirection order = "DESC") then CompOpp c else c.

(** [if limit > 0 && len(rows) > limit { rows = rows[:limit] }]. *)
Definition cap (limit : Z) (rows : list ResultRow) : list ResultRow :=
  if (0 <? limit)%Z && (limit <? Z.of_nat (length rows))%Z then take (Z.to_nat limit) rows else rows.

Definition MergeResultsReport (rows : list ResultRow) (limit : Z) (order : string)
    : list ResultRow * Z :=
  let '(_, unique, diverged) := merge_loop rows in
  let unique := sort_by (merge_compare order) unique in
  (cap limit unique, diverged).

Definition MergeResults (rows : list ResultRow) (limit : Z) (order : string) : list ResultRow :=
  (MergeResultsReport rows limit order).1.

(** The bucket a row counts against: its key, or its own for a row without one. *)
Definition pk_bucket (r : ResultRow) : string :=
  if bool_decide (PKValues r = "") then String (ascii_of_N 0) ("drift:" +:+ pad 0 (EventID r))
  else PKValues r.

(** The reverse walk: the counts of the rows after, and the keep flags. *)
Fixpoint limit_walk (rows : list ResultRow) (n : Z) : gmap string Z * list bool :=
  match rows with
  | [] => (∅, [])
  | r :: rest =>
      let '(counts, keep) := limit_walk rest n in
      let pk := pk_bucket r in
      let c := default 0%Z (counts !! pk) in
      if (c <? n)%Z then (<[pk := (c + 1)%Z]> counts, true :: keep) else (counts, false :: keep)
  end.

Fixpoint pick_kept (keep : list bool) (rows : list ResultRow) : list ResultRow :=
  match keep, rows with
  | b :: keep', r :: rows' => if b then r :: pick_kept keep' rows' else pick_kept keep' rows'
  | _, _ => []
  end.

Definition LimitPerPK (rows : list ResultRow) (n : Z) : list ResultRow :=
  if (n <=? 0)%Z || (length rows =? 0) then rows
  else pick_kept (limit_walk rows n).2 rows.

Definition MergeAndTrimReport (rows : list ResultRow) (limit limitPerPK : Z) (order : string)
    : list ResultRow * Z :=
  let '(rows, diverged) :=
    if (0 <? limitPerPK)%Z then
      let '(rows, diverged) := MergeResultsReport rows 0 "ASC" in
      let rows := LimitPerPK rows limitPerPK in
      ((if bool_decide (OrderDirection order = "DESC") then MergeResults rows 0 "DESC" else rows),
       diverged)
    else MergeResultsReport rows 0 order in
  (cap limit rows, diverged).

Definition MergeAndTrim (rows : list ResultRow) (limit limitPerPK : Z) (order : string)
    : list ResultRow :=
  (MergeAndTrimReport rows limit limitPerPK order).1.

(** ** The dedup loop *)

(** The row without its key span, which is not event content. *)
Definition strip_span (r : ResultRow) : ResultRow := with_span r "" "".

(** The first copy of an event. *)
Definition first_copy (rows : list ResultRow) (id : N) : option ResultRow :=
  head (filter (λ r, EventID r = id) rows).

Lemma strip_EventID r r' : strip_span r = strip_span r' → EventID r = EventID r'.
Proof. intros H. by apply (f_equal EventID) in H. Qed.

Lemma strip_widen u r : strip_span (WidenKeySpan u r) = strip_span u.
Proof. done. Qed.

Lemma first_copy_snoc rows r id :
  first_copy (rows ++ [r]) id =
    match first_copy rows id with
    | Some x => Some x
    | None => if decide (EventID r = id) then Some r else None
    end.
Proof.
  unfold first_copy. rewrite filter_app, filter_cons, filter_nil.
  destruct (filter _ rows); simpl; [|done]. by case_decide.
Qed.

Lemma first_copy_Some rows id r : first_copy rows id = Some r → r ∈ rows ∧ EventID r = id.
Proof.
  unfold first_copy. intros H. apply head_Some_elem_of in H. apply list_elem_of_filter in H. tauto.
Qed.

Lemma first_copy_is_Some rows r : r ∈ rows → is_Some (first_copy rows (EventID r)).
Proof.
  intros Hr. unfold first_copy. apply not_eq_None_Some. intros H%head_None.
  assert (r ∈ filter (λ x, EventID x = EventID r) rows) as Hin by by apply list_elem_of_filter.
  rewrite H in Hin. by apply not_elem_of_nil in Hin.
Qed.

(** A later copy that disagrees with the first one. *)
Definition disagrees (rows : list ResultRow) (r : ResultRow) : Prop :=
  match first_copy rows (EventID r) with Some f => sameEvent f r = false | None => False end.

#[export] Instance disagrees_dec rows r : Decision (disagrees rows r).
Proof. unfold disagrees. destruct (first_copy _ _); apply _. Defined.

Lemma sameRowImage_refl a : sameRowImage a a = true.
Proof.
  unfold sameRowImage. rewrite Nat.eqb_refl. simpl. case_match; [done|].
  by apply bool_decide_eq_true_2.
Qed.

Lemma sameEvent_refl a : sameEvent a a = true.
Proof.
  unfold sameEvent. rewrite !bool_decide_eq_true_2 by done.
  rewrite !N.eqb_refl, Z.eqb_refl, !sameRowImage_refl. simpl.
  assert (∀ o, sameOptionalString o o = true) as Hs.
  { intros []; [|done]. simpl. by apply bool_decide_eq_true_2. }
  assert (∀ o, sameOptionalN o o = true) as Hn.
  { intros []; [|done]. simpl. apply N.eqb_refl. }
  by rewrite !Hs, !Hn.
Qed.

Lemma sameEvent_strip u u' r : strip_span u = strip_span u' → sameEvent u r = sameEvent u' r.
Proof. intros H. change (sameEvent (strip_span u) r = sameEvent (strip_span u') r). by rewrite H. Qed.

Record merge_inv (rows : list ResultRow) (st : gmap N nat * list ResultRow * Z) : Prop := {
  mi_seen id i : st.1.1 !! id = Some i ↔ ∃ u, st.1.2 !! i = Some u ∧ EventID u = id;
  mi_first u : u ∈ st.1.2 → ∃ f, first_copy rows (EventID u) = Some f ∧ strip_span u = strip_span f;
  mi_all r : r ∈ rows → is_Some (st.1.1 !! EventID r);
  mi_diverged : st.2 = Z.of_nat (length (filter (disagrees rows) rows));
}.

Lemma merge_inv_NoDup rows st : merge_inv rows st → NoDup (EventID <$> st.1.2).
Proof.
  intros [Hs _ _ _]. apply NoDup_alt. intros i j id Hi Hj.
  rewrite list_lookup_fmap in Hi, Hj.
  apply fmap_Some in Hi as (u & Hu & ->), Hj as (v & Hv & Huv).
  assert (st.1.1 !! EventID u = Some i) as H1 by (apply Hs; eauto).
  assert (st.1.1 !! EventID u = Some j) as H2 by (apply Hs; eauto). congruence.
Qed.

Lemma disagrees_snoc rows r r' :
  r ∈ rows → disagrees (rows ++ [r']) r ↔ disagrees rows r.
Proof.
  intros Hr. unfold disagrees. rewrite first_copy_snoc.
  by destruct (first_copy_is_Some rows r Hr) as [f ->].
Qed.

(** Only the new row can add to the count of disagreeing copies. *)
Lemma diverged_snoc rows r :
  length (filter (disagrees (rows ++ [r])) (rows ++ [r]))
  = length (filter (disagrees rows) rows)
    + match first_copy rows (EventID r) with Some f => if sameEvent f r then 0 else 1 | None => 0 end.
Proof.
  rewrite filter_app, length_app. f_equal.
  - f_equal. apply filter_iff_in. intros x Hx. exact (disagrees_snoc rows x r Hx).
  - rewrite filter_cons, filter_nil. case_decide as H; unfold disagrees in H;
      rewrite first_copy_snoc in H; destruct (first_copy rows (EventID r)) as [f|].
    + by rewrite H.
    + rewrite decide_True, sameEvent_refl in H by done. done.
    + by destruct (sameEvent f r).
    + done.
Qed.

Lemma merge_inv_step rows st r : merge_inv rows st → merge_inv (rows ++ [r]) (merge_step st r).
Proof.
  intros [Hs Hf Ha Hd]. destruct st as [[seen unique] diverged]. simpl in *. subst diverged.
  destruct (seen !! EventID r) as [kept|] eqn:Hseen.
  - destruct (proj1 (Hs _ _) Hseen) as (u & Hu & Hid).
    destruct (Hf u) as (f & Hfc & Hst); [by eapply list_elem_of_lookup_2|].
    rewrite Hid in Hfc. rewrite list_lookup_alter_eq, Hu. simpl. split; simpl.
    + intros id i. rewrite Hs. destruct (decide (i = kept)) as [->|Hne].
      * rewrite list_lookup_alter_eq, Hu. simpl. split; intros (v & [= <-] & Hv); eauto.
      * by rewrite list_lookup_alter_ne.
    + intros v Hv. apply list_elem_of_lookup in Hv as [i Hi].
      assert (∃ w, w ∈ unique ∧ strip_span v = strip_span w) as (w & Hw & Hvw).
      { destruct (decide (i = kept)) as [->|Hne].
        - rewrite list_lookup_alter_eq, Hu in Hi. simpl in Hi. injection Hi as <-.
          exists u. split; [by eapply list_elem_of_lookup_2|done].
        - rewrite list_lookup_alter_ne in Hi by done. exists v. eauto using list_elem_of_lookup_2. }
      destruct (Hf w Hw) as (f' & Hf' & Hw'). exists f'. rewrite first_copy_snoc.
      apply strip_EventID in Hvw as Hidv. rewrite Hidv, Hf'. split; [done|congruence].
    + intros x [Hx|Hx%list_elem_of_singleton]%elem_of_app; [by apply Ha|]. subst x. eauto.
    + rewrite diverged_snoc, Hfc. rewrite (sameEvent_strip (WidenKeySpan u r) f) by done.
      destruct (sameEvent f r); simpl; lia.
  - assert (first_copy rows (EventID r) = None) as Hnone.
    { destruct (first_copy rows (EventID r)) as [f|] eqn:Hfc; [|done].
      apply first_copy_Some in Hfc as [Hin Hid]. destruct (Ha f Hin) as [i Hi]. congruence. }
    split; simpl.
    + intros id i. destruct (decide (EventID r = id)) as [<-|Hne].
      * rewrite lookup_insert_eq. split.
        -- intros [= <-]. exists r. by rewrite list_lookup_middle.
        -- intros (u & Hu & Hid). f_equal. apply lookup_app_Some in Hu as [Hu|[Hle Hu]].
           ++ assert (seen !! EventID r = Some i) by (apply Hs; eauto). congruence.
           ++ apply list_lookup_singleton_Some in Hu as [? _]. lia.
      * rewrite lookup_insert_ne, Hs by done. split; intros (u & Hu & Hid).
        -- exists u. split; [|done]. by apply lookup_app_l_Some.
        -- exists u. split; [|done]. apply lookup_app_Some in Hu as [Hu|[_ Hu]]; [done|].
           apply list_lookup_singleton_Some in Hu as [_ <-]. done.
    + intros u [Hu|Hu%list_elem_of_singleton]%elem_of_app.
      * destruct (Hf u Hu) as (f & Hfc & Hst). exists f. by rewrite first_copy_snoc, Hfc.
      * subst u. exists r. rewrite first_copy_snoc, Hnone, decide_True by done. done.
    + intros x [Hx|Hx%list_elem_of_singleton]%elem_of_app.
      * destruct (Ha x Hx) as [i Hi]. destruct (decide (EventID r = EventID x)) as [->|Hne].
        -- rewrite lookup_insert_eq. eauto.
        -- rewrite lookup_insert_ne by done. eauto.
      * subst x. rewrite lookup_insert_eq. eauto.
    + rewrite diverged_snoc, Hnone. lia.
Qed.

Lemma merge_loop_inv rows : merge_inv rows (merge_loop rows).
Proof.
  unfold merge_loop. induction rows as [|r rows IH] using rev_ind.
  - split; simpl; [|by intros u Hu%not_elem_of_nil|by intros u Hu%not_elem_of_nil|done].
    intros id i. split; [done|]. intros (u & [=] & _).
  - rewrite foldl_app. by apply merge_inv_step.
Qed.

(** ** The order *)

#[export] Instance merge_compare_order order : CmpOrder (merge_compare order).
Proof.
  unfold merge_compare. destruct (bool_decide _); [|apply _]. split; intros *.
  - f_equal. apply (cmp_antisym compareStatementTime).
  - rewrite !(cmp_antisym compareStatementTime _ y), (cmp_antisym compareStatementTime x z),
      !CompOpp_involutive. rewrite (cmp_antisym compareStatementTime y z), CompOpp_involutive.
    intros H1 H2. by eapply (cmp_trans compareStatementTime).
Qed.

Lemma merge_compare_id order a b : merge_compare order a b = Eq → EventID a = EventID b.
Proof.
  intros H. apply compareStatementTime_id. unfold merge_compare in H.
  destruct (bool_decide _); [|done]. by destruct (compareStatementTime a b).
Qed.

(** Rows with distinct ids are told apart by the order. *)
Lemma NoDup_id_inj (rows : list ResultRow) a b :
  NoDup (EventID <$> rows) → a ∈ rows → b ∈ rows → EventID a = EventID b → a = b.
Proof.
  intros Hnd [i Hi]%list_elem_of_lookup [j Hj]%list_elem_of_lookup Hid.
  assert (i = j) as ->; [|congruence].
  eapply NoDup_lookup; [exact Hnd|..]; rewrite list_lookup_fmap; [by rewrite Hi|].
  rewrite Hj. simpl. by f_equal.
Qed.

(** The dedup loop leaves distinct ids alone. *)
Lemma merge_loop_NoDup rows :
  NoDup (EventID <$> rows) → (merge_loop rows).1.2 = rows ∧ (merge_loop rows).2 = 0%Z.
Proof.
  unfold merge_loop. induction rows as [|r rows IH] using rev_ind; [done|].
  rewrite fmap_app, NoDup_app. intros (Hnd & Hr & _). destruct (IH Hnd) as [IH1 IH2].
  rewrite foldl_app. pose proof (merge_loop_inv rows) as [Hs _ _ _]. unfold merge_loop in Hs.
  destruct (foldl _ _ rows) as [[seen unique] d]. simpl in *. subst unique d.
  destruct (seen !! EventID r) as [i|] eqn:Hi; [|done].
  apply Hs in Hi as (u & Hu & Hid). exfalso. eapply (Hr (EventID u)); [|rewrite Hid; by left].
  apply list_elem_of_fmap. exists u. split; [done|]. by eapply list_elem_of_lookup_2.
Qed.

Lemma cap_take limit rows : (0 < limit)%Z → cap limit rows = take (Z.to_nat limit) rows.
Proof.
  intros H. unfold cap. rewrite (proj2 (Z.ltb_lt 0 limit)) by done. simpl.
  destruct (Z.ltb_spec limit (Z.of_nat (length rows))); [done|]. rewrite take_ge; [done|lia].
Qed.

Lemma cap_0 rows : cap 0 rows = rows.
Proof. done. Qed.

(** What a merge without a limit returns. *)
Lemma MergeResultsReport_eq rows limit order :
  MergeResultsReport rows limit order
  = (cap limit (sort_by (merge_compare order) (merge_loop rows).1.2), (merge_loop rows).2).
Proof. unfold MergeResultsReport. by destruct (merge_loop rows) as [[??]?]. Qed.

Lemma MergeResults_eq rows order :
  MergeResults rows 0 order = sort_by (merge_compare order) (merge_loop rows).1.2.
Proof. unfold MergeResults. by rewrite MergeResultsReport_eq. Qed.

Lemma MergeResults_NoDup rows order : NoDup (EventID <$> MergeResults rows 0 order).
Proof.
  rewrite MergeResults_eq, sort_by_perm. eapply merge_inv_NoDup, merge_loop_inv.
Qed.

Lemma MergeResults_sorted rows order :
  StronglySorted (cmp_le (merge_compare order)) (MergeResults rows 0 order).
Proof. rewrite MergeResults_eq. apply sort_by_sorted, _. Qed.

Lemma MergeResults_first rows order u :
  u ∈ MergeResults rows 0 order → ∃ f, first_copy rows (EventID u) = Some f ∧ strip_span u = strip_span f.
Proof. rewrite MergeResults_eq, sort_by_perm. apply merge_loop_inv. Qed.

Lemma MergeResults_ids rows order id :
  id ∈ EventID <$> MergeResults rows 0 order ↔ id ∈ EventID <$> rows.
Proof.
  split; intros (u & -> & Hu)%list_elem_of_fmap.
  - apply MergeResults_first in Hu as (f & Hf & _). apply first_copy_Some in Hf as [Hin <-].
    by apply list_elem_of_fmap_2.
  - rewrite MergeResults_eq, sort_by_perm. destruct (merge_loop_inv rows) as [Hs _ Ha _].
    destruct (Ha u Hu) as [i Hi]. apply Hs in Hi as (v & Hv & <-).
    apply list_elem_of_fmap_2. by eapply list_elem_of_lookup_2.
Qed.

#[export] Hint Resolve MergeResults_NoDup MergeResults_sorted : trail.

(** Rows the source sorted: sorting distinct ids does not depend on the input order. *)
Lemma merge_sort_perm order l l' :
  NoDup (EventID <$> l) → l ≡ₚ l' →
  sort_by (merge_compare order) l = sort_by (merge_compare order) l'.
Proof.
  intros Hnd Hp. apply sort_by_proper; [apply _| |done].
  intros x y Hx Hy H%merge_compare_id. by eapply NoDup_id_inj.
Qed.

(** ** The per-key trim *)

Lemma pick_kept_sublist keep rows : pick_kept keep rows `sublist_of` rows.
Proof.
  revert rows. induction keep as [|[] keep IH]; intros [|r rows]; simpl; try by constructor.
  apply sublist_nil_l.
Qed.

(** The counts of the reverse walk are the lengths of what it keeps. *)
Lemma limit_walk_spec rows n b :
  (0 < n)%Z →
  let kept := pick_kept (limit_walk rows n).2 rows in
  default 0%Z ((limit_walk rows n).1 !! b)
    = Z.of_nat (length (filter (λ r, pk_bucket r = b) kept)) ∧
  filter (λ r, pk_bucket r = b) kept = lastn (Z.to_nat n) (filter (λ r, pk_bucket r = b) rows).
Proof.
  intros Hn. induction rows as [|r rows [IHc IHk]]; [done|]. simpl.
  destruct (limit_walk rows n) as [counts keep]. simpl in *.
  destruct (decide (pk_bucket r = b)) as [<-|Hb].
  - rewrite IHc, IHk, lastn_length.
    rewrite (filter_cons_True (λ r0, pk_bucket r0 = pk_bucket r) r rows) by done.
    set (l := filter _ rows) in *. destruct (Z.ltb_spec (Z.of_nat (Z.to_nat n `min` length l)) n).
    + simpl. rewrite lookup_insert_eq, filter_cons_True by done. rewrite IHk.
      rewrite !lastn_all by (simpl; lia). split; [simpl; lia|done].
    + simpl. rewrite IHc, IHk, lastn_length, lastn_cons_ge by lia. done.
  - rewrite (filter_cons_False _ r rows) by done.
    destruct (default 0%Z (counts !! pk_bucket r) <? n)%Z; simpl;
      [rewrite lookup_insert_ne, filter_cons_False by done|]; done.
Qed.

Lemma LimitPerPK_sublist rows n : LimitPerPK rows n `sublist_of` rows.
Proof. unfold LimitPerPK. destruct (_ || _); [done|]. apply pick_kept_sublist. Qed.

(** ** Claims *)

(** A merge keeps exactly one row per event id, for exactly the ids of
    the input, in the requested (event_timestamp, event_id) order; each kept
    row is the copy the caller passed first (but for the key span, which is
    widened); and the reported count is the number of later copies that
    disagree with the first one. *)
Theorem MergeResultsReport_spec rows order :
  let out := (MergeResultsReport rows 0 order).1 in
  NoDup (EventID <$> out) ∧
  (∀ id, id ∈ EventID <$> out ↔ id ∈ EventID <$> rows) ∧
  (∀ u, u ∈ out → ∃ f, first_copy rows (EventID u) = Some f ∧ strip_span u = strip_span f) ∧
  StronglySorted (cmp_le (merge_compare order)) out ∧
  (MergeResultsReport rows 0 order).2 = Z.of_nat (length (filter (disagrees rows) rows)).
Proof.
  split_and!.
  - apply MergeResults_NoDup.
  - apply MergeResults_ids.
  - apply MergeResults_first.
  - apply MergeResults_sorted.
  - rewrite MergeResultsReport_eq. apply merge_loop_inv.
Qed.

(** The two directions are exact mirrors, and a limit is a prefix of the
    page in the requested direction: the oldest rows ascending, the newest
    descending. *)
Theorem MergeResults_page rows limit :
  (0 < limit)%Z →
  MergeResults rows limit "DESC" = take (Z.to_nat limit) (reverse (MergeResults rows 0 "ASC")) ∧
  MergeResults rows limit "ASC" = take (Z.to_nat limit) (MergeResults rows 0 "ASC").
Proof.
  intros Hl. rewrite MergeResults_eq. unfold MergeResults. rewrite !MergeResultsReport_eq. simpl.
  rewrite !cap_take by done. split; [|done]. f_equal.
  assert (NoDup (EventID <$> (merge_loop rows).1.2)) as Hnd by eapply merge_inv_NoDup, merge_loop_inv.
  symmetry. apply sort_by_unique; [apply _|..].
  - intros x y Hx Hy H%merge_compare_id. by eapply NoDup_id_inj.
  - by rewrite reverse_Permutation, sort_by_perm.
  - pose proof (sort_by_sorted (merge_compare "ASC") (merge_loop rows).1.2) as Hs.
    induction Hs as [|x l Hs IH Hx]; [constructor|]. rewrite reverse_cons.
    apply StronglySorted_app_2; [|done|by repeat constructor].
    intros a b Ha Hb%list_elem_of_singleton. subst b. rewrite elem_of_reverse in Ha.
    rewrite Forall_forall in Hx. specialize (Hx a Ha). revert Hx. unfold cmp_le, merge_compare. simpl.
    by rewrite <-(cmp_antisym compareStatementTime).
Qed.

Lemma MergeResults_page_witness :
  let r1 := mk_row 1 "b.1" 4 50 EventInsert "1" None None in
  let r2 := mk_row 2 "b.1" 9 40 EventUpdate "1" None None in
  MergeResults [r1; r2; r1] 1 "DESC" = [r1] ∧ MergeResults [r1; r2; r1] 1 "ASC" = [r2].
Proof.
  intros r1 r2. destruct (MergeResults_page [r1; r2; r1] 1) as [H1 H2]; [lia|].
  rewrite H1, H2. split; vm_compute; reflexivity.
Defined.

(** the per-key trim keeps, of every key, exactly the last [n] rows of
    that key, in the input's order; a row without a key is never trimmed
    against another row without one. *)
Theorem LimitPerPK_latest rows n b :
  (0 < n)%Z →
  filter (λ r, pk_bucket r = b) (LimitPerPK rows n)
    = lastn (Z.to_nat n) (filter (λ r, pk_bucket r = b) rows) ∧
  LimitPerPK rows n `sublist_of` rows ∧
  (∀ r r', PKValues r = "" → PKValues r' = "" → pk_bucket r = pk_bucket r' → EventID r = EventID r').
Proof.
  intros Hn. split_and!; [|apply LimitPerPK_sublist|].
  - unfold LimitPerPK. rewrite (proj2 (Z.leb_gt n 0)) by lia. simpl.
    destruct (length rows =? 0) eqn:H.
    + apply Nat.eqb_eq, nil_length_inv in H as ->. by rewrite lastn_all by (simpl; lia).
    + by apply limit_walk_spec.
  - intros r r' Hr Hr'. unfold pk_bucket. rewrite !bool_decide_eq_true_2 by done.
    intros [= H]. pose proof (pad_compare 0 (EventID r) (EventID r')) as Hc. rewrite H in Hc.
    rewrite (cmp_refl String.compare), Nat.compare_refl in Hc. by apply N.compare_eq.
Qed.

Lemma LimitPerPK_latest_witness :
  let r1 := mk_row 1 "b.1" 4 40 EventInsert "1" None None in
  let r2 := mk_row 2 "b.1" 9 50 EventUpdate "1" None None in
  let r3 := mk_row 3 "b.1" 19 60 EventUpdate "2" None None in
  filter (λ r, pk_bucket r = "1") (LimitPerPK [r1; r2; r3] 1) = [r2].
Proof.
  intros r1 r2 r3. destruct (LimitPerPK_latest [r1; r2; r3] 1 "1") as [H _]; [lia|].
  rewrite H. vm_compute. reflexivity.
Defined.

(** The pipeline trims per key before the global cap: its page is the
    first [limit] rows, in the requested direction, of "the last [n] of every
    key" of the whole deduplicated, ascending history, so a row of one key is
    never crowded out by the history of another before the trim. *)
Theorem MergeAndTrim_pipeline rows limit n order :
  (0 < n)%Z →
  let latest := LimitPerPK (MergeResults rows 0 "ASC") n in
  let page := MergeAndTrim rows 0 n order in
  page ≡ₚ latest ∧ StronglySorted (cmp_le (merge_compare order)) page ∧
  MergeAndTrim rows limit n order = cap limit page.
Proof.
  intros Hn. unfold MergeAndTrim, MergeAndTrimReport. rewrite (proj2 (Z.ltb_lt 0 n)) by done.
  rewrite MergeResultsReport_eq. simpl. rewrite <-MergeResults_eq.
  set (latest := LimitPerPK _ n).
  assert (NoDup (EventID <$> latest)) as Hnd.
  { eapply sublist_NoDup; [apply MergeResults_NoDup|apply fmap_sublist, LimitPerPK_sublist]. }
  assert (StronglySorted (cmp_le (merge_compare "ASC")) latest) as Hs.
  { eapply StronglySorted_sublist; [apply LimitPerPK_sublist|apply MergeResults_sorted]. }
  destruct (bool_decide (OrderDirection order = "DESC")) eqn:Hd; simpl.
  - split_and!; [| |done].
    + rewrite MergeResults_eq, sort_by_perm. by rewrite (proj1 (merge_loop_NoDup _ Hnd)).
    + assert (merge_compare order = merge_compare "DESC") as -> by (unfold merge_compare; by rewrite Hd).
      apply MergeResults_sorted.
  - split_and!; [done| |done].
    assert (merge_compare order = merge_compare "ASC") as -> by (unfold merge_compare; by rewrite Hd).
    done.
Qed.

Lemma MergeAndTrim_pipeline_witness :
  let r1 := mk_row 1 "b.1" 4 40 EventInsert "1" None None in
  let r2 := mk_row 2 "b.1" 9 50 EventUpdate "2" None None in
  let r3 := mk_row 3 "b.1" 19 60 EventUpdate "2" None None in
  MergeAndTrim [r3; r2; r1; r2] 2 1 "desc" = [r3; r1].
Proof.
  intros r1 r2 r3. destruct (MergeAndTrim_pipeline [r3; r2; r1; r2] 2 1 "desc") as (_ & _ & H); [lia|].
  rewrite H. vm_compute. reflexivity.
Defined.
