(* ===== verification/BinlogOrder.v ===== *)
(** * Binary log order of a set of rows: [internal/query/binlogorder.go]

    [OrderByBinlog] puts a fetched window in the order of the source's binary
    log when that order can be established for the whole set, and leaves it as
    it came otherwise. The index tables it asks ([stream_state],
    [index_state]) are a parameter: [IndexDB] holds what the two statements
    answer. *)
From S2P Require Import Prelude GoStrings GoTime GoVal Event Rows Merge.

Inductive BinlogOrderReason :=
  | OrderAgrees | OrderPostgres | OrderSorted | OrderNoCoordinate | OrderSeveralBaseNames
  | OrderIDsUnproven | OrderRenumbered.

#[export] Instance BinlogOrderReason_eq_dec : EqDecision BinlogOrderReason.
Proof. solve_decision. Defined.

Inductive IDProof := IDsUnproven | IDsFollowStream | IDsFollowFileIndexing.

#[export] Instance IDProof_eq_dec : EqDecision IDProof.
Proof. solve_decision. Defined.

Record BinlogOrder := mkBinlogOrder {
  Reason : BinlogOrderReason;
  Total : nat;
  Moved : nat;
  Missing : nat;
  detail : string;
}.

Definition Sorted (o : BinlogOrder) : bool := bool_decide (Reason o = OrderSorted).

Definition Note (o : BinlogOrder) : string :=
  if negb (Sorted o) then ""
  else pretty (Moved o) +:+ " of " +:+ pretty (Total o) +:+
    " changes were written to the binary log in a different order than their statements started " +:+
    "(a statement that waited for a row lock, or ran long). They are in binary log order, which is commit order, so their times are not all in sequence.".

Definition statementTimeTail : string :=
  "The changes are in the order their statements started, as before. " +:+
  "That order is wrong for a row that two sessions changed close together when one of them waited for the other: " +:+
  "check such rows by hand, or narrow the time range.".

(** The start the three refusals with coordinates share. *)
Definition disagree_text (o : BinlogOrder) : string :=
  "the binary log and the statement times disagree on the order of " +:+ pretty (Moved o) +:+
  " of " +:+ pretty (Total o) +:+ " changes, and ".

Definition Warning (o : BinlogOrder) : string :=
  match Reason o with
  | OrderNoCoordinate =>
      pretty (Missing o) +:+ " of " +:+ pretty (Total o) +:+
      " changes carry no binary log position (they were indexed by an older build, or mixed with changes of another kind of source), " +:+
      "so the order of these changes cannot be taken from the binary log. " +:+ statementTimeTail
  | OrderSeveralBaseNames =>
      disagree_text o +:+ "the changes come from binary logs with different names (" +:+ detail o +:+ "): " +:+
      "the source's binary log was renamed or the source was replaced inside this time range, and positions of different logs cannot be compared. " +:+
      statementTimeTail
  | OrderIDsUnproven =>
      disagree_text o +:+ "this index cannot show which one is right: " +:+ detail o +:+ ". " +:+
      "A restart of the source's binary log numbering (a failover, RESET MASTER) inside this time range cannot be ruled out. " +:+
      statementTimeTail
  | OrderRenumbered =>
      disagree_text o +:+ "the binary log position goes down inside this time range (" +:+ detail o +:+ "): " +:+
      "the source's binary log numbering restarted (a failover, RESET MASTER), or binary log files were indexed out of order. " +:+
      statementTimeTail
  | _ => ""
  end.

Definition binlogBaseName (file : string) : string :=
  if has_byte slash file then "/"
  else
    match last_index_byte "." file with
    | None => file
    | Some i =>
        if (i =? String.length file - 1) then file
        else if str_forall is_digit (str_drop (S i) file) then str_take i file
        else file
    end.

Fixpoint base_names_loop (rows : list ResultRow) (seen : gset string) (names : list string) : list string :=
  match rows with
  | [] => names
  | r :: rest =>
      let base := binlogBaseName (BinlogFile r) in
      if bool_decide (base ∈ seen) then base_names_loop rest seen names
      else base_names_loop rest ({[base]} ∪ seen) (names ++ [base])
  end.

Definition binlogBaseNames (rows : list ResultRow) : list string :=
  sort_by String.compare (base_names_loop rows ∅ []).

Definition distinctBinlogFiles (rows : list ResultRow) : nat :=
  size (list_to_set (BinlogFile <$> rows) : gset string).

(** [slices.SortStableFunc] over the indexes of [rows]. *)
Definition sort_index (cmp : ResultRow → ResultRow → comparison) (rows : list ResultRow) : list nat :=
  sort_by (λ a b, cmp (rows !!! a) (rows !!! b)) (seq 0 (length rows)).

(** How many entries of a permutation are not at their own index. *)
Fixpoint moved_from (i : nat) (perm : list nat) : nat :=
  match perm with
  | [] => 0
  | p :: perm' => (if p =? i then 0 else 1) + moved_from (S i) perm'
  end.

(** The walk by event id: the first neighbours whose position goes down. *)
Fixpoint first_descent (rows : list ResultRow) : option (ResultRow * ResultRow) :=
  match rows with
  | prev :: (cur :: _) as rest =>
      if negb (AtOrBefore (row_pos prev) (row_pos cur)) then Some (prev, cur) else first_descent rest
  | _ => None
  end.

Definition descent_detail (prev cur : ResultRow) : string :=
  "event " +:+ pad 0 (EventID prev) +:+ " is at " +:+ BinlogFile prev +:+ ":" +:+ pad 0 (StartPos prev) +:+
  " and the next one indexed, event " +:+ pad 0 (EventID cur) +:+ ", is at " +:+ BinlogFile cur +:+ ":" +:+
  pad 0 (StartPos cur).

Definition files_detail (files : nat) : string :=
  "it was built with `bintrail index` only and these changes are in " +:+ pretty files +:+
  " binary log files, so its ids follow the order the files were indexed in, which is not shown to be the order the source wrote them in".

Definition unproven_detail : string :=
  "binary log files were indexed into it with `bintrail index` beside the stream, or the index could not be asked, so its ids do not say in which order the changes were written".

(** Returns the rows (the Go function reorders them in place) and the answer.
    [idsFollowBinlog] is [None] for a nil function. *)
Definition OrderByBinlog (rows : list ResultRow) (idsFollowBinlog : option (list ResultRow → IDProof))
    : list ResultRow * BinlogOrder :=
  let total := length rows in
  if total <? 2 then (rows, mkBinlogOrder OrderAgrees total 0 0 "")
  else
    let missing := length (filter (λ r, hasBinlogCoordinate r = false) rows) in
    let lsn := length (filter (λ r, hasBinlogCoordinate r = false ∧ has_byte slash (BinlogFile r) = true) rows) in
    if lsn =? total then (rows, mkBinlogOrder OrderPostgres total 0 0 "")
    else if 0 <? missing then (rows, mkBinlogOrder OrderNoCoordinate total 0 missing "")
    else
      let perm := sort_index compareBinlogCoordinate rows in
      let moved := moved_from 0 perm in
      if moved =? 0 then (rows, mkBinlogOrder OrderAgrees total 0 0 "")
      else
        let names := binlogBaseNames rows in
        if 1 <? length names then
          (rows, mkBinlogOrder OrderSeveralBaseNames total moved 0 (String.concat ", " names))
        else
          let proof := match idsFollowBinlog with Some f => f rows | None => IDsUnproven end in
          let files := distinctBinlogFiles rows in
          let walk :=
            match first_descent ((rows !!!.) <$> sort_index compareEventID rows) with
            | Some (prev, cur) =>
                (rows, mkBinlogOrder OrderRenumbered total moved 0 (descent_detail prev cur))
            | None => ((rows !!!.) <$> perm, mkBinlogOrder OrderSorted total moved 0 "")
            end in
          match proof with
          | IDsFollowStream => walk
          | IDsFollowFileIndexing =>
              if 1 <? files then (rows, mkBinlogOrder OrderIDsUnproven total moved 0 (files_detail files))
              else walk
          | IDsUnproven => (rows, mkBinlogOrder OrderIDsUnproven total moved 0 unproven_detail)
          end.

(** ** Who wrote the index *)

Definition fileIndexingMargin : Z := hour.

Definition writersKeepBinlogOrder (streamCaptured fileIndexingUnfinished : bool)
    (lastFileIndexed since : Z) : bool :=
  if negb streamCaptured || ((lastFileIndexed =? 0)%Z && negb fileIndexingUnfinished) then true
  else if fileIndexingUnfinished then false
  else (lastFileIndexed <? since - fileIndexingMargin)%Z.

Record indexWriters := {
  known : bool;
  iw_streamCaptured : bool;
  iw_fileIndexingUnfinished : bool;
  iw_lastFileIndexed : Z;
}.

Definition no_writers : indexWriters :=
  {| known := false; iw_streamCaptured := false; iw_fileIndexingUnfinished := false; iw_lastFileIndexed := 0 |}.

(** What the two statements answer: [StreamCaptured], and the newest
    [completed_at] with the number of runs without one. *)
Inductive sqlErr := MissingTable | OtherErr (text : string).

Record IndexDB := {
  StreamCaptured : bool + string;
  index_state : (option Z * Z) + sqlErr;
}.

Definition readIndexWriters (db : option IndexDB) : indexWriters + string :=
  match db with
  | None => inl no_writers
  | Some db =>
      match StreamCaptured db with
      | inr e => inr e
      | inl false => inl {| known := true; iw_streamCaptured := false;
                            iw_fileIndexingUnfinished := false; iw_lastFileIndexed := 0 |}
      | inl true =>
          match index_state db with
          | inr (OtherErr e) => inr ("read index_state: " +:+ e)
          | inr MissingTable => inl {| known := true; iw_streamCaptured := true;
                                       iw_fileIndexingUnfinished := false; iw_lastFileIndexed := 0 |}
          | inl (last, unfinished) =>
              inl {| known := true; iw_streamCaptured := true;
                     iw_fileIndexingUnfinished := (0 <? unfinished)%Z;
                     iw_lastFileIndexed := default 0%Z last |}
          end
      end
  end.

Definition proof (w : indexWriters) (since : Z) : IDProof :=
  if negb (known w) then IDsUnproven
  else if negb (iw_streamCaptured w) then IDsFollowFileIndexing
  else if writersKeepBinlogOrder true (iw_fileIndexingUnfinished w) (iw_lastFileIndexed w) since
  then IDsFollowStream else IDsUnproven.

Definition IDsFollowBinlog (db : option IndexDB) (since : Z) : IDProof * option string :=
  match readIndexWriters db with
  | inr e => (IDsUnproven, Some e)
  | inl w => (proof w since, None)
  end.

(** [rows] must not be empty: [rows[0]] panics there, which no caller reaches. *)
Definition earliestTimestamp (rows : list ResultRow) : Z :=
  match rows with
  | [] => 0
  | r :: _ => foldl (λ since x, if (EventTimestamp x <? since)%Z then EventTimestamp x else since)
                (EventTimestamp r) rows
  end.

Definition BinlogOrderProof (db : option IndexDB) (rows : list ResultRow) : IDProof :=
  match rows with
  | [] => IDsUnproven
  | _ =>
      match IDsFollowBinlog db (earliestTimestamp rows) with
      | (_, Some _) => IDsUnproven
      | (p, None) => p
      end
  end.

(** The closure of [BinlogOrderProofOnce]: its captured variable is the state,
    [None] until the first question. *)
Definition BinlogOrderProofOnce (db : option IndexDB) (st : option indexWriters) (rows : list ResultRow)
    : option indexWriters * IDProof :=
  match rows with
  | [] => (st, IDsUnproven)
  | _ =>
      let w := match st with
               | Some w => w
               | None => match readIndexWriters db with inl w => w | inr _ => no_writers end
               end in
      (Some w, proof w (earliestTimestamp rows))
  end.

(** ** Lemmas *)

Lemma lookup_total_seq (rows : list ResultRow) : (rows !!!.) <$> seq 0 (length rows) = rows.
Proof.
  apply list_eq. intros i. rewrite list_lookup_fmap. destruct (decide (i < length rows)) as [Hi|Hi].
  - rewrite lookup_seq_lt by done. simpl. rewrite (list_lookup_lookup_total_lt rows i Hi). done.
  - rewrite lookup_seq_ge, lookup_ge_None_2 by lia. done.
Qed.

Lemma sort_index_rows cmp rows : (rows !!!.) <$> sort_index cmp rows = sort_by cmp rows.
Proof.
  pose proof (sort_by_fmap (rows !!!.) cmp (seq 0 (length rows))) as H.
  by rewrite lookup_total_seq in H.
Qed.

Lemma moved_from_0 perm i : moved_from i perm = 0 → perm = seq i (length perm).
Proof.
  revert i. induction perm as [|p perm IH]; intros i; [done|]. simpl.
  destruct (Nat.eqb_spec p i) as [->|]; [|done]. simpl. intros H. f_equal. by apply IH.
Qed.

Lemma sort_index_unmoved cmp rows :
  moved_from 0 (sort_index cmp rows) = 0 → sort_by cmp rows = rows.
Proof.
  intros H%moved_from_0. rewrite <-(sort_index_rows cmp rows), H at 1.
  unfold sort_index. rewrite sort_by_length, length_seq. apply lookup_total_seq.
Qed.

(** The position order of two rows. *)
Definition pos_le (a b : ResultRow) : Prop := pos_compare (row_pos a) (row_pos b) ≠ Gt.

#[export] Instance pos_le_trans : Transitive pos_le.
Proof. intros a b c. unfold pos_le. apply (cmp_trans pos_compare). Qed.

Lemma pos_le_AtOrBefore a b :
  hasBinlogCoordinate a = true → hasBinlogCoordinate b = true →
  AtOrBefore (row_pos a) (row_pos b) = true ↔ pos_le a b.
Proof.
  intros Ha Hb. rewrite AtOrBefore_compare by auto using hasBinlogCoordinate_LSN.
  unfold pos_le. by destruct (pos_compare _ _).
Qed.

Lemma first_descent_None rows :
  Forall (λ r, hasBinlogCoordinate r = true) rows →
  first_descent rows = None ↔ StronglySorted pos_le rows.
Proof.
  intros Hc. split.
  - intros Hd. apply Sorted_StronglySorted; [apply _|].
    induction rows as [|a [|b rows] IH]; [constructor|by repeat constructor|].
    apply Forall_cons in Hc as [Ha Hc]. simpl in Hd.
    destruct (AtOrBefore (row_pos a) (row_pos b)) eqn:Hab; [|done]. simpl in Hd.
    constructor; [by apply IH|]. constructor. apply Forall_cons in Hc as [Hb _].
    by apply pos_le_AtOrBefore.
  - induction 1 as [|a rows Hs IH Ha]; [done|]. apply Forall_cons in Hc as [Hca Hc].
    destruct rows as [|b rows]; [done|]. apply Forall_cons in Ha as [Hab _].
    pose proof Hc as [Hb _]%Forall_cons. apply (pos_le_AtOrBefore a b) in Hab; [|done..].
    change (first_descent (a :: b :: rows)) with
      (if negb (AtOrBefore (row_pos a) (row_pos b)) then Some (a, b) else first_descent (b :: rows)).
    rewrite Hab. simpl. by apply IH.
Qed.

(** With positions rising along the ids, coordinate order is id order. *)
Lemma coordinate_sorted_ids (rows : list ResultRow) (l : list ResultRow) :
  StronglySorted pos_le (sort_by compareEventID rows) → l ≡ₚ rows →
  StronglySorted (cmp_le compareBinlogCoordinate) l → StronglySorted (cmp_le compareEventID) l.
Proof.
  intros Hpos Hp Hs.
  assert (∀ x y, x ∈ rows → y ∈ rows → compareEventID x y = Lt → pos_le x y) as Hrise.
  { intros x y Hx Hy Hxy. rewrite <-(sort_by_perm compareEventID) in Hx, Hy.
    pose proof (sort_by_sorted compareEventID rows) as Hid. revert Hpos Hid Hx Hy.
    generalize (sort_by compareEventID rows). intros k. induction 1 as [|z k Hk IH Hz];
      intros Hid Hx Hy; [by apply not_elem_of_nil in Hx|].
    apply StronglySorted_inv in Hid as [Hid Hzid]. rewrite Forall_forall in Hz, Hzid.
    apply elem_of_cons in Hx as [->|Hx]; apply elem_of_cons in Hy as [->|Hy].
    - rewrite (cmp_refl compareEventID) in Hxy. done.
    - by apply Hz.
    - exfalso. specialize (Hzid x Hx). apply Hzid. by apply cmp_gt_lt; [apply _|].
    - by apply IH. }
  assert (∀ x y, x ∈ l → y ∈ l → cmp_le compareBinlogCoordinate x y → cmp_le compareEventID x y) as Himp.
  { intros x y Hx Hy Hxy Hgt. rewrite Hp in Hx, Hy. apply cmp_gt_lt in Hgt as Hlt; [|apply _].
    specialize (Hrise y x Hy Hx Hlt). unfold cmp_le in Hxy. rewrite compareBinlogCoordinate_pos in Hxy.
    unfold pos_le in Hrise. rewrite (cmp_antisym pos_compare) in Hrise.
    destruct (pos_compare (row_pos x) (row_pos y)); simpl in *; congruence. }
  clear Hp Hrise Hpos. induction Hs as [|x l Hs IH Hx]; constructor.
  - apply IH. intros a b Ha Hb. apply Himp; by right.
  - rewrite Forall_forall in *. intros y Hy. apply Himp; [by left|by right|by apply Hx].
Qed.

Lemma missing_none rows :
  (0 <? length (filter (λ r, hasBinlogCoordinate r = false) rows)) = false →
  Forall (λ r, hasBinlogCoordinate r = true) rows.
Proof.
  intros H%Nat.ltb_ge. rewrite Forall_forall. intros r Hr. apply not_false_iff_true. intros Hf.
  assert (r ∈ filter (λ r, hasBinlogCoordinate r = false) rows) as Hin by by apply list_elem_of_filter.
  destruct (filter _ rows); [by apply not_elem_of_nil in Hin|simpl in H; lia].
Qed.

(** What confirms the ids: the stream, or files indexed when there is one. *)
Definition confirmed (rows : list ResultRow) (f : option (list ResultRow → IDProof)) : bool :=
  match f with
  | None => false
  | Some f =>
      match f rows with
      | IDsFollowStream => true
      | IDsFollowFileIndexing => distinctBinlogFiles rows <=? 1
      | IDsUnproven => false
      end
  end.

(** One case analysis of the function for all its theorems: what each answer
    was given for. *)
Lemma OrderByBinlog_cases rows f (P : list ResultRow * BinlogOrder → Prop) :
  let all := Forall (λ r, hasBinlogCoordinate r = true) rows in
  (length rows < 2 → P (rows, mkBinlogOrder OrderAgrees (length rows) 0 0 "")) →
  (2 ≤ length rows → Forall (λ r, has_byte slash (BinlogFile r) = true) rows →
     P (rows, mkBinlogOrder OrderPostgres (length rows) 0 0 "")) →
  (∀ n, 0 < n → n = length (filter (λ r, hasBinlogCoordinate r = false) rows) →
     P (rows, mkBinlogOrder OrderNoCoordinate (length rows) 0 n "")) →
  (all → sort_by compareBinlogCoordinate rows = rows →
     P (rows, mkBinlogOrder OrderAgrees (length rows) 0 0 "")) →
  (∀ m d, all → 1 < length (binlogBaseNames rows) →
     P (rows, mkBinlogOrder OrderSeveralBaseNames (length rows) m 0 d)) →
  (∀ m d, all → confirmed rows f = false →
     P (rows, mkBinlogOrder OrderIDsUnproven (length rows) m 0 d)) →
  (∀ m d, all → ¬ StronglySorted pos_le (sort_by compareEventID rows) →
     P (rows, mkBinlogOrder OrderRenumbered (length rows) m 0 d)) →
  (∀ m, all → 0 < m → length (binlogBaseNames rows) ≤ 1 → confirmed rows f = true →
     StronglySorted pos_le (sort_by compareEventID rows) →
     P (sort_by compareBinlogCoordinate rows, mkBinlogOrder OrderSorted (length rows) m 0 "")) →
  P (OrderByBinlog rows f).
Proof.
  intros all Hshort Hpg Hmiss Hagree Hnames Hids Hren Hsorted. unfold OrderByBinlog.
  destruct (Nat.ltb_spec (length rows) 2); [auto|].
  case_match eqn:Hlsn.
  { apply Hpg; [done|]. apply Nat.eqb_eq in Hlsn. rewrite Forall_forall. intros r Hr.
    assert (r ∈ filter (λ r, hasBinlogCoordinate r = false ∧ has_byte slash (BinlogFile r) = true) rows)
      as Hin%list_elem_of_filter; [|tauto].
    revert Hlsn Hr. clear. induction rows as [|x rows IH]; intros Hl Hr; [by apply not_elem_of_nil in Hr|].
    rewrite filter_cons in Hl |- *. case_decide; simpl in Hl.
    - apply elem_of_cons in Hr as [->|Hr]; [by left|]. right. apply IH; [lia|done].
    - pose proof (length_filter (λ r, hasBinlogCoordinate r = false ∧ has_byte slash (BinlogFile r) = true) rows). lia. }
  case_match eqn:Hm; [apply Hmiss; [by apply Nat.ltb_lt|done]|]. apply missing_none in Hm.
  case_match eqn:Hmv; [apply Hagree; [done|]; apply sort_index_unmoved; by apply Nat.eqb_eq|].
  apply Nat.eqb_neq in Hmv. case_match eqn:Hn; [apply Hnames; [done|by apply Nat.ltb_lt]|].
  apply Nat.ltb_ge in Hn. rewrite !sort_index_rows.
  assert (Forall (λ r, hasBinlogCoordinate r = true) (sort_by compareEventID rows)) as Hall
    by by rewrite sort_by_perm.
  pose proof (first_descent_None _ Hall) as Hfd.
  set (m := moved_from 0 _) in *.
  destruct f as [f|]; [|by apply Hids]. unfold confirmed in *.
  destruct (f rows) eqn:Hf; [by apply Hids| |].
  - destruct (first_descent _) as [[p c]|] eqn:Hd.
    + apply Hren; [done|]. by rewrite <-Hfd.
    + apply Hsorted; [done|lia|done|done|by apply Hfd].
  - case_match eqn:Hfiles.
    { apply Hids; [done|]. apply Nat.leb_gt. by apply Nat.ltb_lt in Hfiles. }
    apply Nat.ltb_ge in Hfiles.
    destruct (first_descent _) as [[p c]|] eqn:Hd.
    + apply Hren; [done|]. by rewrite <-Hfd.
    + apply Hsorted; [done|lia|done| |by apply Hfd]. by apply Nat.leb_le.
Qed.

(** Whatever it decides, the rows are the rows given. *)
Lemma OrderByBinlog_perm rows f : (OrderByBinlog rows f).1 ≡ₚ rows.
Proof.
  apply (OrderByBinlog_cases rows f (λ p, p.1 ≡ₚ rows)); intros; simpl; auto using sort_by_perm.
Qed.

(** ** Claims *)

(** C17: when the rows are reordered they are a rearrangement of the input,
    in binary log order and at the same time in ascending id order, every row had a coordinate, one base name held them
    and the index confirmed its ids; in every other case the rows are
    returned exactly as they came. No path returns a third order. *)
Theorem OrderByBinlog_sound rows f :
  let '(out, o) := OrderByBinlog rows f in
  Total o = length rows ∧
  (Sorted o = true →
     out ≡ₚ rows ∧ StronglySorted (cmp_le compareBinlogCoordinate) out ∧
     StronglySorted (cmp_le compareEventID) out ∧
     Forall (λ r, hasBinlogCoordinate r = true) rows ∧
     length (binlogBaseNames rows) ≤ 1 ∧ confirmed rows f = true ∧ 0 < Moved o) ∧
  (Sorted o = false → out = rows).
Proof.
  apply OrderByBinlog_cases; intros; (split; [done|]); try by split.
  assert (sort_by compareBinlogCoordinate rows ≡ₚ rows) by apply sort_by_perm.
  pose proof (sort_by_sorted compareBinlogCoordinate rows).
  split; [|done]. intros _. split_and!; auto. by eapply coordinate_sorted_ids.
Qed.

Lemma OrderByBinlog_sound_witness :
  let waited := mk_row 2 "binlog.000001" 900 40 EventUpdate "1" None None in
  let first := mk_row 1 "binlog.000001" 500 50 EventUpdate "1" None None in
  ∃ out o, OrderByBinlog [waited; first] (Some (λ _, IDsFollowStream)) = (out, o) ∧ Sorted o = true ∧
    StronglySorted (cmp_le compareBinlogCoordinate) out.
Proof.
  intros waited first.
  pose proof (OrderByBinlog_sound [waited; first] (Some (λ _, IDsFollowStream))) as H.
  destruct (OrderByBinlog _ _) as [out o] eqn:E. exists out, o.
  assert (Sorted o = true) as Ho by (vm_compute in E; injection E as _ <-; reflexivity).
  split; [done|]. split; [done|]. destruct H as (_ & H & _). apply (H Ho).
Defined.

(** An answer without a warning can be relied on: either every row is a
    PostgreSQL one, or the returned rows are in binary log order. *)
Theorem OrderByBinlog_silent_is_ordered rows f out o :
  OrderByBinlog rows f = (out, o) → Warning o = "" →
  Forall (λ r, has_byte slash (BinlogFile r) = true) rows ∨
  StronglySorted (cmp_le compareBinlogCoordinate) out.
Proof.
  intros E. change (let '(out, o) := (out, o) in Warning o = "" →
    Forall (λ r, has_byte slash (BinlogFile r) = true) rows ∨
    StronglySorted (cmp_le compareBinlogCoordinate) out). rewrite <-E. clear out o E.
  apply OrderByBinlog_cases; auto; try done.
  - right. destruct rows as [|a [|b rows]]; [constructor|by repeat constructor|simpl in *; lia].
  - intros n _ _ H. by apply str_app_empty in H as [_ ?].
  - intros _ Hs _. right. rewrite <-Hs. apply sort_by_sorted, _.
  - intros. right. apply sort_by_sorted, _.
Qed.

Lemma OrderByBinlog_silent_is_ordered_witness :
  let waited := mk_row 2 "binlog.000001" 900 40 EventUpdate "1" None None in
  let first := mk_row 1 "binlog.000001" 500 50 EventUpdate "1" None None in
  ∃ out o, OrderByBinlog [waited; first] (Some (λ _, IDsFollowStream)) = (out, o) ∧ Warning o = "" ∧
    (Forall (λ r, has_byte slash (BinlogFile r) = true) [waited; first] ∨
     StronglySorted (cmp_le compareBinlogCoordinate) out).
Proof.
  intros waited first.
  destruct (OrderByBinlog [waited; first] (Some (λ _, IDsFollowStream))) as [out o] eqn:E. exists out, o.
  assert (Warning o = "") as Ho by (vm_compute in E; injection E as _ <-; reflexivity).
  split; [done|]. split; [done|].
  apply (OrderByBinlog_silent_is_ordered [waited; first] (Some (λ _, IDsFollowStream)) out o E Ho).
Defined.

(** Nothing is refused without cause: rows with coordinates, of one base
    name, whose ids the index confirms and whose positions rise with the ids
    come back in binary log order, which is id order, and without a warning. *)
Theorem OrderByBinlog_complete rows f :
  Forall (λ r, hasBinlogCoordinate r = true) rows →
  NoDup (EventID <$> rows) → length (binlogBaseNames rows) ≤ 1 → confirmed rows f = true →
  (∀ a b, a ∈ rows → b ∈ rows → (EventID a < EventID b)%N → AtOrBefore (row_pos a) (row_pos b) = true) →
  let '(out, o) := OrderByBinlog rows f in
  out = sort_by compareBinlogCoordinate rows ∧ out = sort_by compareEventID rows ∧ Warning o = "".
Proof.
  intros Hall Hnd Hnames Hconf Hrise. rewrite Forall_forall in Hall.
  assert (StronglySorted pos_le (sort_by compareEventID rows)) as Hpos.
  { assert (NoDup (EventID <$> sort_by compareEventID rows)) as Hnd' by by rewrite sort_by_perm.
    pose proof (sort_by_sorted compareEventID rows) as Hs.
    assert (∀ r, r ∈ sort_by compareEventID rows → r ∈ rows) as Hsub by (intros r; by rewrite sort_by_perm).
    induction Hs as [|x l Hs IH Hx]; constructor.
    - apply NoDup_cons in Hnd' as [_ ?]. apply IH; [done|]. intros r Hr. apply Hsub. by right.
    - rewrite Forall_forall in *. intros y Hy. assert (x ∈ rows ∧ y ∈ rows) as [Hxr Hyr]
        by (split; apply Hsub; [by left|by right]).
      apply pos_le_AtOrBefore; [by apply Hall..|]. apply Hrise; [done..|].
      specialize (Hx y Hy). unfold cmp_le, compareEventID in Hx. rewrite N.compare_le_iff in Hx.
      apply NoDup_cons in Hnd' as [Hni _].
      assert (EventID x ≠ EventID y); [|lia]. intros He. apply Hni. rewrite He. by apply list_elem_of_fmap_2. }
  assert (sort_by compareBinlogCoordinate rows = sort_by compareEventID rows) as Heq.
  { apply sort_by_unique; [apply _| |apply sort_by_perm|].
    - intros a b Ha Hb Hab%N.compare_eq. by eapply NoDup_id_inj.
    - eapply coordinate_sorted_ids; [done|apply sort_by_perm|apply sort_by_sorted, _]. }
  rewrite <-Heq. apply OrderByBinlog_cases; try by intros; exfalso; first [congruence|lia].
  - intros. destruct rows as [|a [|b rows]]; [done..|simpl in *; lia].
  - intros Hlen Hpg. exfalso. destruct rows as [|a rows]; [simpl in *; lia|].
    assert (hasBinlogCoordinate a = true) as Ha by (apply Hall; by left).
    apply Forall_cons in Hpg as [Hsl _]. apply hasBinlogCoordinate_LSN in Ha. unfold IsLSN in Ha.
    simpl in Ha. congruence.
  - intros n Hn Hmiss. exfalso. rewrite filter_none in Hmiss; [simpl in Hmiss; lia|].
    intros r Hr. by rewrite Hall.
  - intros _ Hs. by rewrite Hs.
  - done.
Qed.

Lemma OrderByBinlog_complete_witness :
  let waited := mk_row 2 "binlog.000001" 900 40 EventUpdate "1" None None in
  let first := mk_row 1 "binlog.000001" 500 50 EventUpdate "1" None None in
  (OrderByBinlog [waited; first] (Some (λ _, IDsFollowStream))).1 = [first; waited].
Proof.
  intros waited first.
  pose proof (OrderByBinlog_complete [waited; first] (Some (λ _, IDsFollowStream))) as H.
  destruct (OrderByBinlog _ _) as [out o]. destruct H as [-> _].
  - repeat constructor.
  - dec_compute.
  - vm_compute. lia.
  - reflexivity.
  - intros a b Ha Hb Hlt. repeat apply elem_of_cons in Ha as [->|Ha];
      repeat apply elem_of_cons in Hb as [->|Hb]; try by apply not_elem_of_nil in Ha.
    all: try by apply not_elem_of_nil in Hb. all: try (simpl in Hlt; lia). reflexivity.
  - reflexivity.
Defined.

(** The answers of one [BinlogOrderProofOnce] closure to a series of questions. *)
Fixpoint proof_once_run (db : option IndexDB) (st : option indexWriters) (qs : list (list ResultRow))
    : list IDProof :=
  match qs with
  | [] => []
  | q :: qs' => let '(st', p) := BinlogOrderProofOnce db st q in p :: proof_once_run db st' qs'
  end.

Lemma proof_once_eq db rows :
  BinlogOrderProof db rows =
    match rows with
    | [] => IDsUnproven
    | _ => proof match readIndexWriters db with inl w => w | inr _ => no_writers end (earliestTimestamp rows)
    end.
Proof.
  unfold BinlogOrderProof, IDsFollowBinlog. destruct rows; [done|]. by destruct (readIndexWriters db).
Qed.

(** Reading the index once answers every set of rows as reading it for
    each set would, failed reads included. *)
Theorem BinlogOrderProofOnce_equiv db qs :
  proof_once_run db None qs = BinlogOrderProof db <$> qs.
Proof.
  assert (∀ qs st, st = None ∨ st = Some match readIndexWriters db with inl w => w | inr _ => no_writers end →
    proof_once_run db st qs = BinlogOrderProof db <$> qs) as H; [|auto].
  clear qs. induction qs as [|q qs IH]; intros st Hst; [done|].
  rewrite fmap_cons, proof_once_eq. simpl. unfold BinlogOrderProofOnce.
  destruct q as [|r q]; [by rewrite IH|].
  rewrite IH; destruct Hst as [-> | ->]; auto.
Qed.
