(* ===== verification/PkCanon.v ===== *)
(** * Canonical primary keys of baseline rows:
    [internal/reconstruct/pk_canonicalize.go]

    A baseline file holds typed values, the index holds key text. A baseline
    row's key values are brought to the form the indexer spelled, so that
    [BuildPKValues] gives both sides one text. The parser of MariaDB's
    fixed-width types ([metadata.ParseMariaDBFixed]) is an argument,
    [parseFixed]. *)
From S2P Require Import Prelude GoStrings GoTime GoVal Event.

Definition integerPKDataType (dt : string) : bool :=
  bool_decide (to_lower (trim_space dt) ∈
    ["int"; "integer"; "smallint"; "tinyint"; "mediumint"; "bigint"; "year"]).

(** The errors of this file, by message. *)
Inductive PKError :=
  | NilPKValue (col : string)
  | UnexpectedType (dt col : string)
  | ParseFixedError (dt col why : string)
  | UnsupportedPKType (col dt : string)
  | MissingPKColumnError (col : string).

Definition pkValueBytes (raw : GoVal) : option string :=
  match raw with VBytes v | VString v => Some v | _ => None end.

Definition nul : ascii := ascii_of_N 0.

Definition TrimFixedBinaryPad (b : string) : string := trim_right (λ c, bool_decide (c = nul)) b.

Definition FixedBinaryWidth (columnType : string) : Z :=
  let s := to_lower (trim_space columnType) in
  if negb (has_prefix s "binary(") || negb (has_suffix s ")") then 0
  else
    match atoi (str_take (String.length s - 1 - 7) (str_drop 7 s)) with
    | Some n => if (n <=? 0)%Z then 0 else n
    | None => 0
    end.

(** The precision, [None] when it is not known. *)
Definition precision_of (rest : string) : option Z :=
  if bool_decide (rest = "") then Some 0%Z
  else if negb (has_prefix rest "(") || negb (has_suffix rest ")") then None
  else
    match atoi (str_take (String.length rest - 2) (str_drop 1 rest)) with
    | Some n => if (n <? 0)%Z || (6 <? n)%Z then None else Some n
    | None => None
    end.

Definition parseDatetimePrecision (columnType : string) : option Z :=
  let s := to_lower (trim_space columnType) in
  if bool_decide (s = "") then None
  else if has_prefix s "datetime" then precision_of (str_drop 8 s)
  else if has_prefix s "timestamp" then precision_of (str_drop 9 s)
  else None.

Definition canonicalizeDatetime (raw : GoVal) (col : ColumnMeta) : GoVal + PKError :=
  match raw with
  | VTime t =>
      match parseDatetimePrecision (ColumnType col) with
      | None =>
          if (nanosecond t =? 0)%Z then inl (VString (format_datetime t))
          else inl (VString (format_datetime_us t))
      | Some dec =>
          if (dec =? 0)%Z then inl (VString (format_datetime t))
          else
            let full := format_datetime_us t in
            inl (VString (str_take (String.length full - Z.to_nat (6 - dec)) full))
      end
  | VString v => inl (VString v)
  | _ => inr (UnexpectedType "datetime" (Name col))
  end.

Definition canonicalizeDate (raw : GoVal) (col : ColumnMeta) : GoVal + PKError :=
  match raw with
  | VTime t => inl (VString (format_date t))
  | VString v => inl (VString v)
  | _ => inr (UnexpectedType "date" (Name col))
  end.

Definition text_types : list string :=
  ["char"; "varchar"; "text"; "tinytext"; "mediumtext"; "longtext"; "enum"; "set"].
Definition blob_types : list string := ["varbinary"; "tinyblob"; "blob"; "mediumblob"; "longblob"].

Definition canonicalizePKValue (parseFixed : string → string → string + string)
    (raw : GoVal) (col : ColumnMeta) : GoVal + PKError :=
  if bool_decide (raw = VNil) then inr (NilPKValue (Name col))
  else
    let dt := to_lower (trim_space (DataType col)) in
    if integerPKDataType dt then inl raw
    else if bool_decide (dt ∈ text_types) || bool_decide (dt ∈ ["decimal"; "numeric"]) then
      match raw with VString _ => inl raw | _ => inr (UnexpectedType dt (Name col)) end
    else if bool_decide (dt = "binary") then
      match pkValueBytes raw with
      | Some b => inl (VBytes (TrimFixedBinaryPad b))
      | None => inr (UnexpectedType dt (Name col))
      end
    else if bool_decide (dt ∈ blob_types) then
      match pkValueBytes raw with
      | Some b => inl (VBytes b)
      | None => inr (UnexpectedType dt (Name col))
      end
    else if bool_decide (dt ∈ ["datetime"; "timestamp"]) then canonicalizeDatetime raw col
    else if bool_decide (dt = "date") then canonicalizeDate raw col
    else if bool_decide (dt ∈ ["uuid"; "inet4"; "inet6"]) then
      match raw with
      | VString s =>
          match parseFixed dt s with
          | inl b => inl (VBytes b)
          | inr why => inr (ParseFixedError dt (Name col) why)
          end
      | _ => inr (UnexpectedType dt (Name col))
      end
    else inr (UnsupportedPKType (Name col) (DataType col)).

(** The loop over the key columns; [out] starts as a copy of the row. *)
Fixpoint canonicalizePKMap (parseFixed : string → string → string + string)
    (out : Row) (pkCols : list ColumnMeta) : Row + PKError :=
  match pkCols with
  | [] => inl out
  | col :: rest =>
      match out !! Name col with
      | None => inr (MissingPKColumnError (Name col))
      | Some raw =>
          match canonicalizePKValue parseFixed raw col with
          | inr e => inr e
          | inl val => canonicalizePKMap parseFixed (<[Name col := val]> out) rest
          end
      end
  end.

(** One column's other spelling: padded when short, stripped when not. *)
Definition flipBinary (width : Z) (v : string) : string :=
  if (Z.of_nat (String.length v) <? width)%Z
  then v +:+ String.string_of_list_ascii (replicate (Z.to_nat width - String.length v) nul)
  else TrimFixedBinaryPad v.

Fixpoint alt_loop (cols pkCols : list ColumnMeta) (pkMap : Row) (alt : option Row) : option Row :=
  match cols with
  | [] => alt
  | c :: rest =>
      let skip := alt_loop rest pkCols pkMap alt in
      if negb (equal_fold (trim_space (DataType c)) "binary") then skip
      else
        let width := FixedBinaryWidth (ColumnType c) in
        if (width =? 0)%Z then skip
        else
          match pkMap !! Name c with
          | Some (VBytes v) =>
              let flipped := flipBinary width v in
              if bool_decide (flipped = v) then skip
              else
                let base := match alt with
                            | Some m => m
                            | None => foldl (λ m p, <[Name p := row_get pkMap (Name p)]> m) ∅ pkCols
                            end in
                alt_loop rest pkCols pkMap (Some (<[Name c := VBytes flipped]> base))
          | _ => skip
          end
  end.

Definition altFixedBinaryPK (pkCols : list ColumnMeta) (pkMap : Row) : option string :=
  match alt_loop pkCols pkCols pkMap None with
  | None => None
  | Some alt => Some (BuildPKValues pkCols alt)
  end.

Definition supportedPKTypes : list string :=
  ["int"; "integer"; "smallint"; "tinyint"; "mediumint"; "bigint";
   "char"; "varchar"; "text"; "tinytext"; "mediumtext"; "longtext"; "enum"; "set";
   "datetime"; "timestamp"; "date"; "year"; "decimal"; "numeric";
   "binary"; "varbinary"; "tinyblob"; "blob"; "mediumblob"; "longblob";
   "uuid"; "inet4"; "inet6"].

Definition supportedPKType (dataType : string) : bool :=
  bool_decide (to_lower (trim_space dataType) ∈ supportedPKTypes).

Fixpoint FirstUnsupportedPKType (pkCols : list ColumnMeta) : option ColumnMeta :=
  match pkCols with
  | [] => None
  | c :: rest =>
      if bool_decide (trim_space (DataType c) = "") then FirstUnsupportedPKType rest
      else if negb (supportedPKType (DataType c)) then Some c
      else FirstUnsupportedPKType rest
  end.

(** ** Claims *)

(** [n] zero bytes. *)
Definition zeros (n : nat) : string := String.string_of_list_ascii (replicate n nul).

Lemma zeros_forall n : str_forall (λ c, bool_decide (c = nul)) (zeros n) = true.
Proof. induction n; [done|]. done. Qed.

Lemma forall_zeros s : str_forall (λ c, bool_decide (c = nul)) s = true → s = zeros (String.length s).
Proof.
  induction s as [|c s IH]; [done|]. simpl. rewrite andb_true_iff, bool_decide_eq_true.
  intros [-> Hs]. unfold zeros in *. simpl. by rewrite <-IH.
Qed.

Lemma zeros_length n : String.length (zeros n) = n.
Proof. unfold zeros. induction n; [done|]. simpl. by rewrite IHn. Qed.

Lemma trim_zeros_pad b n : TrimFixedBinaryPad (b +:+ zeros n) = TrimFixedBinaryPad b.
Proof. apply trim_right_app_all, zeros_forall. Qed.

Lemma trim_pad_split b : ∃ n, b = TrimFixedBinaryPad b +:+ zeros n.
Proof.
  destruct (trim_right_split (λ c, bool_decide (c = nul)) b) as (t & Hb & Ht).
  exists (String.length t). rewrite <-forall_zeros by done. exact Hb.
Qed.

(** A fixed BINARY key column. *)
Definition binary_column (name width : string) : ColumnMeta := {|
  Name := name; OrdinalPosition := 1; IsPK := true; DataType := "binary";
  ColumnType := "binary(" +:+ width +:+ ")"; IsGenerated := false; CharacterSet := "";
  IsNullable := "NO"; IsIdentityAlways := false |}.

Lemma canonicalizePKValue_binary parseFixed b col :
  to_lower (trim_space (DataType col)) = "binary" →
  canonicalizePKValue parseFixed (VBytes b) col = inl (VBytes (TrimFixedBinaryPad b)).
Proof. intros Hdt. unfold canonicalizePKValue. by rewrite Hdt. Qed.

(** For a fixed BINARY key the padded value a baseline stores and the
    stripped value the binary log carries get one canonical key value; and two
    values get the same one only when they differ by trailing zero bytes, so
    no two rows of the table are joined. *)
Theorem binary_key_canonical parseFixed col b c :
  to_lower (trim_space (DataType col)) = "binary" →
  canonicalizePKValue parseFixed (VBytes b) col = canonicalizePKValue parseFixed (VBytes c) col ↔
  ∃ i j, b +:+ zeros i = c +:+ zeros j.
Proof.
  intros Hdt. rewrite !canonicalizePKValue_binary by done. split.
  - intros [= Heq]. destruct (trim_pad_split b) as [n Hb], (trim_pad_split c) as [m Hc].
    exists m, n. rewrite Hb, Hc, Heq, !str_app_assoc. f_equal. unfold zeros.
    clear. revert n. induction m as [|m IH]; intros n; simpl.
    { by rewrite str_app_nil_r. }
    rewrite <-IH. clear. induction n as [|n IH]; [done|]. simpl. by rewrite IH.
  - intros (i & j & Heq). do 2 f_equal. by rewrite <-(trim_zeros_pad b i), Heq, trim_zeros_pad.
Qed.

Lemma binary_key_canonical_witness :
  canonicalizePKValue (λ _ _, inr "no parser") (VBytes ("ab" +:+ zeros 2)) (binary_column "id" "4")
  = canonicalizePKValue (λ _ _, inr "no parser") (VBytes "ab") (binary_column "id" "4").
Proof.
  apply (binary_key_canonical (λ _ _, inr "no parser") (binary_column "id" "4") ("ab" +:+ zeros 2) "ab");
    [vm_compute; reflexivity|].
  exists 0, 2. vm_compute. reflexivity.
Defined.

(** The two spellings of a fixed BINARY key are each other's alternate:
    of a stripped value shorter than the column the padded one, and of the
    padded one the stripped one; a value that fills the column has none. *)
Theorem altFixedBinaryPK_involutive col v (w : nat) :
  equal_fold (trim_space (DataType col)) "binary" = true →
  FixedBinaryWidth (ColumnType col) = Z.of_nat w → TrimFixedBinaryPad v = v → String.length v ≤ w → 0 < w →
  let padded := v +:+ zeros (w - String.length v) in
  let key x := BuildPKValues [col] {[ Name col := VBytes x ]} in
  altFixedBinaryPK [col] {[ Name col := VBytes v ]}
    = (if decide (String.length v = w) then None else Some (key padded)) ∧
  altFixedBinaryPK [col] {[ Name col := VBytes padded ]}
    = (if decide (String.length v = w) then None else Some (key v)).
Proof.
  intros Hdt Hw Htrim Hle H0 padded key. unfold altFixedBinaryPK. simpl. rewrite Hdt, Hw. simpl.
  rewrite (proj2 (Z.eqb_neq _ _)) by lia. rewrite !lookup_singleton_eq.
  assert (flipBinary (Z.of_nat w) padded = v) as Hback.
  { unfold flipBinary, padded. rewrite str_length_app, zeros_length.
    rewrite (proj2 (Z.ltb_ge _ _)) by lia. by rewrite trim_zeros_pad. }
  assert (flipBinary (Z.of_nat w) v = padded) as Hpad.
  { unfold flipBinary. destruct (Z.ltb_spec (Z.of_nat (String.length v)) (Z.of_nat w)) as [Hlt|Hge].
    - rewrite Nat2Z.id. done.
    - rewrite Htrim. unfold padded. replace (w - String.length v) with 0 by lia. simpl.
      by rewrite str_app_nil_r. }
  rewrite Hback, Hpad. destruct (decide (String.length v = w)) as [He|Hne].
  - assert (padded = v) as ->.
    { unfold padded. replace (w - String.length v) with 0 by lia. simpl. by rewrite str_app_nil_r. }
    by rewrite bool_decide_eq_true_2.
  - assert (padded ≠ v) as Hpv.
    { intros Heq. apply (f_equal String.length) in Heq. unfold padded in Heq.
      rewrite str_length_app, zeros_length in Heq. lia. }
    rewrite !bool_decide_eq_false_2 by done. unfold key. simpl.
    unfold BuildPKValues, row_get. simpl. by rewrite !lookup_insert_eq, !lookup_singleton_eq.
Qed.

Lemma altFixedBinaryPK_involutive_witness :
  altFixedBinaryPK [binary_column "id" "4"] {[ "id" := VBytes "ab" ]}
    = Some (BuildPKValues [binary_column "id" "4"] {[ "id" := VBytes ("ab" +:+ zeros 2) ]}) ∧
  altFixedBinaryPK [binary_column "id" "4"] {[ "id" := VBytes ("ab" +:+ zeros 2) ]}
    = Some (BuildPKValues [binary_column "id" "4"] {[ "id" := VBytes "ab" ]}).
Proof.
  apply (altFixedBinaryPK_involutive (binary_column "id" "4") "ab" 4); first [vm_compute; reflexivity|simpl; lia].
Defined.

(** A DATETIME(d) or TIMESTAMP(d) key value read as a time is spelled
    with exactly [d] fractional digits, the fraction rounded down. *)
Theorem datetime_key_precision t col d :
  parseDatetimePrecision (ColumnType col) = Some d → (1 ≤ d ≤ 6)%Z →
  canonicalizeDatetime (VTime t) col
  = inl (VString (format_datetime t +:+ "." +:+
      fixed (Z.to_nat d) (Z.to_N (nanosecond t / 10 ^ (9 - d))))).
Proof.
  intros Hp Hd. simpl. rewrite Hp, (proj2 (Z.eqb_neq d 0)) by lia. do 2 f_equal.
  unfold format_datetime_us, padZ.
  assert (0 ≤ nanosecond t < second)%Z as Hns by (apply Z.mod_pos_bound; unfold second; lia).
  assert (0 ≤ nanosecond t / 1000 < 1000000)%Z as Hus.
  { split; [apply Z.div_pos; lia|]. apply Z.div_lt_upper_bound; unfold second in *; lia. }
  rewrite pad_small by (simpl; lia).
  assert (fixed 6 (Z.to_N (nanosecond t / 1000))
    = fixed (Z.to_nat d) (Z.to_N (nanosecond t / 10 ^ (9 - d)))
      +:+ fixed (Z.to_nat (6 - d)) (Z.to_N (nanosecond t / 1000))) as ->.
  { replace 6 with (Z.to_nat d + Z.to_nat (6 - d)) at 1 by lia. rewrite fixed_split. do 2 f_equal.
    replace (10 ^ N.of_nat (Z.to_nat (6 - d)))%N with (Z.to_N (10 ^ (6 - d))).
    2:{ rewrite <-(N2Z.id (10 ^ _)), N2Z.inj_pow. do 2 f_equal. lia. }
    rewrite <-Z2N.inj_div by lia. f_equal. rewrite Z.div_div by lia. f_equal.
    change 1000%Z with (10 ^ 3)%Z. rewrite <-Z.pow_add_r by lia. f_equal. lia. }
  set (dt := format_datetime t). set (hi := fixed (Z.to_nat d) _). set (lo := fixed (Z.to_nat (6 - d)) _).
  assert (String.length lo = Z.to_nat (6 - d)) as Hlo by apply fixed_length.
  rewrite <-(str_app_assoc "." hi lo), <-(str_app_assoc dt ("." +:+ hi) lo).
  rewrite str_length_app, Hlo, Nat.add_sub. apply str_take_app.
Qed.

Lemma datetime_key_precision_witness :
  canonicalizeDatetime (VTime 63844847999987654000)
    {| Name := "at"; OrdinalPosition := 1; IsPK := true; DataType := "datetime";
       ColumnType := "datetime(3)"; IsGenerated := false; CharacterSet := "";
       IsNullable := "NO"; IsIdentityAlways := false |}
  = inl (VString "2024-02-29 23:59:59.987").
Proof.
  rewrite (datetime_key_precision _ _ 3); [vm_compute; reflexivity|vm_compute; reflexivity|lia].
Defined.

Lemma integerPKDataType_norm dt :
  integerPKDataType (to_lower (trim_space dt)) =
  bool_decide (to_lower (trim_space dt) ∈ ["int"; "integer"; "smallint"; "tinyint"; "mediumint"; "bigint"; "year"]).
Proof. unfold integerPKDataType. by rewrite lower_trim_idem. Qed.

(** The types the canonicalizer has an arm for. *)
Definition arm_types : list string :=
  ["int"; "integer"; "smallint"; "tinyint"; "mediumint"; "bigint"; "year"] ++ text_types ++
  ["decimal"; "numeric"] ++ ["binary"] ++ blob_types ++ ["datetime"; "timestamp"] ++ ["date"] ++
  ["uuid"; "inet4"; "inet6"].

Lemma supported_arms dt : dt ∈ supportedPKTypes ↔ dt ∈ arm_types.
Proof.
  assert (Forall (λ t, t ∈ arm_types) supportedPKTypes) as H1 by dec_compute.
  assert (Forall (λ t, t ∈ supportedPKTypes) arm_types) as H2 by dec_compute.
  rewrite Forall_forall in H1, H2. split; auto.
Qed.

(** The gate and the canonicalizer agree on the key types: a type is
    refused up front exactly when the canonicalizer refuses every value of it. *)
Theorem supportedPKType_exact parseFixed col :
  supportedPKType (DataType col) = false ↔
  ∀ raw, raw ≠ VNil →
    canonicalizePKValue parseFixed raw col = inr (UnsupportedPKType (Name col) (DataType col)).
Proof.
  unfold supportedPKType, canonicalizePKValue. rewrite integerPKDataType_norm, bool_decide_eq_false.
  rewrite supported_arms. unfold arm_types. rewrite !elem_of_app.
  set (dt := to_lower (trim_space (DataType col))). split.
  - intros Hns raw Hraw. rewrite (bool_decide_eq_false_2 (raw = VNil)) by done.
    repeat (case_bool_decide as Hdt; [exfalso; apply Hns; rewrite !list_elem_of_singleton; tauto|clear Hdt]).
    done.
  - intros H. specialize (H (VString "") ltac:(done)). revert H.
    rewrite (bool_decide_eq_false_2 (VString "" = VNil)) by done.
    repeat (case_bool_decide; [done|]). case_bool_decide; [by destruct (parseFixed dt "")|].
    intros _. rewrite !list_elem_of_singleton. tauto.
Qed.
