(* ===== verification/Spill.v ===== *)
(** * The later change of a row, and the on-disk side of the change map:
    [internal/reconstruct/changespill.go] and the size estimate of
    [eventfold.go]

    [keep_later] is the rule the fold and the spill share ("the row keeps the
    change the binary log holds last"). A [changeSpill] holds one list of
    records per group, in write order. The files under it are a
    [gmap nat (list spillRecord)]: a group without an entry was never opened.
    A read returns the records as they were written; [encoding/gob] and
    [restoreEmpty], which undoes gob's one loss (an empty container read back
    as a nil one), are behind that: the values of this model do not tell a nil
    container from an empty one. Disk errors end a run and are not modelled. *)
From S2P Require Import Prelude GoStrings GoVal Event Rows Merge.

(** ** The later of two changes *)

Definition keep_later (cur : option ResultRow) (ev : ResultRow) : option ResultRow :=
  match cur with
  | Some c => if LaterInBinlog c ev then Some c else Some ev
  | None => Some ev
  end.

(** What is left of a sequence of changes of one row. *)
Definition latest (evs : list ResultRow) : option ResultRow := foldl keep_later None evs.

(** ** Size estimates: [eventfold.go] *)

Definition changeRowBytes : Z := 330.
Definition changeMapBytes : Z := 300.
Definition changeFieldBytes : Z := 64.
Definition changeSampleRows : nat := 64.

Definition str_len (s : string) : Z := Z.of_nat (String.length s).

(** [approxImageBytes] of a non-nil map, given the sizes of its values. *)
Definition image_bytes (m : gmap string Z) : Z :=
  map_fold (λ k v n, n + (changeFieldBytes + str_len k + v))%Z changeMapBytes m.

Fixpoint approxValueBytes (v : GoVal) : Z :=
  (match v with
  | VString x => str_len x
  | VNumber x => str_len x
  | VBytes x => 8 + str_len x
  | VTime _ => 24
  | VMap m => image_bytes (approxValueBytes <$> m)
  | VArray x => foldl Z.add (24 + 16 * Z.of_nat (length x)) (approxValueBytes <$> x)
  | _ => 8
  end)%Z.

Definition approxImageBytes (m : option Row) : Z :=
  match m with None => 0 | Some m => image_bytes (approxValueBytes <$> m) end.

Definition approxChangeBytes (ev : ResultRow) : Z :=
  let n := (changeRowBytes + (str_len (PKValues ev) + str_len (BinlogFile ev)
                              + str_len (SchemaName ev) + str_len (TableName ev)))%Z in
  let n := match GTID ev with Some g => (n + str_len g)%Z | None => n end in
  let n := foldl (λ n c, n + (16 + str_len c))%Z n (RowChangedColumns ev) in
  (n + approxImageBytes (RowAfter ev))%Z.

(** ** Groups *)

Definition spillBuckets : nat := 64.

Record spillRecord := {
  sr_PK : string;
  sr_Type : N;
  sr_ID : N;
  sr_After : option Row;
  sr_File : string;
  sr_Pos : N;
}.

Record changeSpill := {
  cs_limit : Z;
  cs_tables : Z;
  cs_maxBytes : Z;
  cs_heldBytes : Z;
  cs_groups : gmap nat (list spillRecord);
  cs_records : Z;
}.

Definition newChangeSpill (limit : Z) : changeSpill := {|
  cs_limit := limit; cs_tables := 0; cs_maxBytes := 0; cs_heldBytes := 0;
  cs_groups := ∅; cs_records := 0 |}.

(** [hash/fnv]'s 32-bit FNV-1a. *)
Fixpoint fnv1a (s : string) (h : N) : N :=
  match s with
  | EmptyString => h
  | String c s' => fnv1a s' ((N.lxor h (byte_val c) * 16777619) mod 2 ^ 32)%N
  end.

Definition spillBucket (pk : string) : nat :=
  N.to_nat (fnv1a pk 2166136261 mod N.of_nat spillBuckets)%N.

Definition spill_record (pk : string) (ev : ResultRow) : spillRecord := {|
  sr_PK := pk; sr_Type := EventType ev; sr_ID := EventID ev; sr_After := RowAfter ev;
  sr_File := BinlogFile ev; sr_Pos := StartPos ev |}.

(** One entry of [drain]: its group gets the record appended. *)
Definition drain_entry (s : changeSpill) (e : string * ResultRow) : changeSpill :=
  let '(pk, ev) := e in
  let b := spillBucket pk in
  {| cs_limit := cs_limit s; cs_tables := cs_tables s; cs_maxBytes := cs_maxBytes s;
     cs_heldBytes := (cs_heldBytes s + approxChangeBytes ev)%Z;
     cs_groups := <[b := default [] (cs_groups s !! b) ++ [spill_record pk ev]]> (cs_groups s);
     cs_records := (cs_records s + 1)%Z |}.

(** [entries] is the change map in the order the range statement visits it. *)
Definition drain (s : changeSpill) (entries : list (string * ResultRow)) : changeSpill :=
  foldl drain_entry s entries.

Definition passRows (s : changeSpill) : Z :=
  if ((cs_maxBytes s <=? 0) || (cs_records s =? 0))%Z then 0
  else (1 `max` (cs_maxBytes s `quot` (1 `max` (cs_heldBytes s `quot` cs_records s))))%Z.

(** The row [load] makes of a record: the fields the merge reads, the rest zero. *)
Definition spill_row (rec : spillRecord) : ResultRow := {|
  EventID := sr_ID rec; BinlogFile := sr_File rec; StartPos := sr_Pos rec; EndPos := 0;
  EventTimestamp := 0; GTID := None; ConnectionID := None; SchemaName := ""; TableName := "";
  EventType := sr_Type rec; PKValues := sr_PK rec; RowChangedColumns := []; RowBefore := None;
  RowAfter := sr_After rec; SchemaVersion := 0; QueryText := None; QueryHash := None;
  CommitTsUS := None; KeySpanFirst := ""; KeySpanLast := "" |}.

(** The changed-rows refusal, [TouchedRowBudgetError]. *)
Inductive BudgetError := TouchedRowBudgetError (limit tables : Z) (spilled : bool).

Fixpoint load_loop (limit tables : Z) (recs : list spillRecord) (m : gmap string ResultRow)
    : gmap string ResultRow + BudgetError :=
  match recs with
  | [] => inl m
  | rec :: rest =>
      let row := spill_row rec in
      if match m !! sr_PK rec with Some cur => LaterInBinlog cur row | None => false end
      then load_loop limit tables rest m
      else
        let m' := <[sr_PK rec := row]> m in
        if (0 <? limit)%Z && (limit <? Z.of_nat (size m'))%Z
        then inr (TouchedRowBudgetError limit tables true)
        else load_loop limit tables rest m'
  end.

Definition load (s : changeSpill) (b : nat) : gmap string ResultRow + BudgetError :=
  match cs_groups s !! b with
  | None => inl ∅
  | Some recs => load_loop (cs_limit s) (cs_tables s) recs ∅
  end.

(** ** Passes

    [run] is the callback of [eachPass], over a state of its own. *)
Section eachPass.
Context {S E : Type} (of_budget : BudgetError → E)
  (run : S → gmap string ResultRow → gset nat → S + E).

Definition passLimit (s : changeSpill) : Z :=
  let pr := passRows s in
  if (0 <? pr)%Z && ((cs_limit s <=? 0)%Z || (pr <? cs_limit s)%Z) then pr else cs_limit s.

(** The loop over the groups [bs]; [pass], [owns], [last] and the number of
    passes are its variables. *)
Fixpoint eachPass_loop (s : changeSpill) (bs : list nat) (st : S)
    (pass : gmap string ResultRow) (owns : gset nat) (last passes : nat) : (S * nat) + E :=
  match bs with
  | [] => match run st pass owns with inl st' => inl (st', passes + 1) | inr e => inr e end
  | b :: bs' =>
      let continue st pass owns passes :=
        match load s b with
        | inr e => inr (of_budget e)
        | inl group =>
            eachPass_loop s bs' st (group ∪ pass) ({[b]} ∪ owns) (size group) passes
        end in
      if (0 <? size pass) && (passLimit s <? Z.of_nat (size pass + last))%Z
      then match run st pass owns with
           | inl st' => continue st' ∅ ∅ (passes + 1)
           | inr e => inr e
           end
      else continue st pass owns passes
  end.

Definition eachPass (s : changeSpill) (st : S) : (S * nat) + E :=
  eachPass_loop s (seq 0 spillBuckets) st ∅ ∅ 0 0.
End eachPass.

(** ** The later change *)

(** Two rows at one place of the binary log. *)
Definition same_coord (a b : ResultRow) : Prop :=
  BinlogFile a = BinlogFile b ∧ StartPos a = StartPos b ∧ EventID a = EventID b.

Definition has_coords (evs : list ResultRow) : Prop := Forall (λ r, hasBinlogCoordinate r = true) evs.

Lemma LaterInBinlog_coord a a' b b' :
  same_coord a a' → same_coord b b' → LaterInBinlog a b = LaterInBinlog a' b'.
Proof.
  intros (H1 & H2 & H3) (H4 & H5 & H6).
  unfold LaterInBinlog, hasBinlogCoordinate, row_pos. by rewrite H1, H2, H3, H4, H5, H6.
Qed.

Lemma hasBinlogCoordinate_coord a b : same_coord a b → hasBinlogCoordinate a = hasBinlogCoordinate b.
Proof. intros (H1 & H2 & _). unfold hasBinlogCoordinate. by rewrite H1, H2. Qed.

(** The two-argument rule, right-biased on ties. *)
Definition later (a b : ResultRow) : ResultRow := if LaterInBinlog a b then a else b.

Lemma keep_later_eq cur ev : keep_later cur ev = Some (match cur with Some c => later c ev | None => ev end).
Proof. destruct cur; [|done]. unfold later. simpl. by destruct (LaterInBinlog _ _). Qed.

Lemma later_assoc a b c :
  hasBinlogCoordinate a = true → hasBinlogCoordinate b = true → hasBinlogCoordinate c = true →
  later (later a b) c = later a (later b c).
Proof.
  intros Ha Hb Hc. unfold later. rewrite (LaterInBinlog_compare a b), (LaterInBinlog_compare b c) by done.
  destruct (compareBinlogCoordinate a b) eqn:Hab, (compareBinlogCoordinate b c) eqn:Hbc;
    rewrite ?LaterInBinlog_compare, ?Hab, ?Hbc by done; try done.
  1-4: destruct (compareBinlogCoordinate a c) eqn:Hac; [done..|];
    exfalso; by apply (cmp_trans compareBinlogCoordinate a b c); congruence.
  assert (compareBinlogCoordinate a c = Gt) as ->; [|done].
  apply cmp_gt_lt in Hab, Hbc; try apply _. apply cmp_gt_lt; [apply _|].
  by eapply (cmp_lt_trans compareBinlogCoordinate).
Qed.

Lemma latest_snoc evs ev : latest (evs ++ [ev]) = keep_later (latest evs) ev.
Proof. unfold latest. by rewrite foldl_app. Qed.

Lemma latest_None evs : latest evs = None ↔ evs = [].
Proof.
  split; [|by intros ->]. destruct evs as [|ev evs _] using rev_ind; [done|].
  by rewrite latest_snoc, keep_later_eq.
Qed.

Lemma latest_elem evs m : latest evs = Some m → m ∈ evs.
Proof.
  revert m. induction evs as [|ev evs IH] using rev_ind; intros m; [done|].
  rewrite latest_snoc, keep_later_eq. intros [= <-].
  destruct (latest evs) as [c|]; [|set_solver]. unfold later. destruct (LaterInBinlog _ _); [|set_solver].
  apply elem_of_app. auto.
Qed.

Lemma has_coords_elem evs ev : has_coords evs → ev ∈ evs → hasBinlogCoordinate ev = true.
Proof. unfold has_coords. rewrite Forall_forall. auto. Qed.

Lemma latest_max evs m x :
  has_coords evs → latest evs = Some m → x ∈ evs → compareBinlogCoordinate x m ≠ Gt.
Proof.
  revert m. induction evs as [|ev evs IH] using rev_ind; intros m Hc; [done|].
  unfold has_coords in Hc. rewrite Forall_app, Forall_singleton in Hc. destruct Hc as [Hc Hev].
  rewrite latest_snoc, keep_later_eq, elem_of_app, list_elem_of_singleton. intros [= <-] Hx.
  destruct (latest evs) as [c|] eqn:Hl.
  2:{ apply latest_None in Hl as ->. destruct Hx as [Hx| ->]; [by apply not_elem_of_nil in Hx|].
      rewrite (cmp_refl compareBinlogCoordinate). done. }
  assert (hasBinlogCoordinate c = true) as Hcc by eauto using has_coords_elem, latest_elem.
  unfold later. rewrite LaterInBinlog_compare by done.
  destruct (compareBinlogCoordinate c ev) eqn:Hce; destruct Hx as [Hx| ->];
    try by rewrite (cmp_refl compareBinlogCoordinate).
  1,2: apply (cmp_trans compareBinlogCoordinate x c ev); [by apply IH|congruence].
  - by apply IH.
  - rewrite (cmp_antisym compareBinlogCoordinate), Hce. done.
Qed.

(** The greatest element is the one kept. *)
Lemma latest_unique evs m :
  has_coords evs → NoDup (EventID <$> evs) → m ∈ evs →
  (∀ x, x ∈ evs → compareBinlogCoordinate x m ≠ Gt) → latest evs = Some m.
Proof.
  intros Hc Hnd Hm Hmax. destruct (latest evs) as [c|] eqn:Hl.
  2:{ apply latest_None in Hl as ->. by apply not_elem_of_nil in Hm. }
  f_equal. pose proof (latest_max evs c m Hc Hl Hm) as H1.
  pose proof (Hmax c (latest_elem _ _ Hl)) as H2.
  eapply NoDup_id_inj; [done|by apply latest_elem|done|].
  apply compareBinlogCoordinate_id. rewrite (cmp_antisym compareBinlogCoordinate) in H1.
  by destruct (compareBinlogCoordinate c m).
Qed.

Lemma latest_perm evs evs' :
  has_coords evs → NoDup (EventID <$> evs) → evs ≡ₚ evs' → latest evs = latest evs'.
Proof.
  intros Hc Hnd Hp. destruct (latest evs) as [m|] eqn:Hl.
  - symmetry. apply latest_unique.
    + unfold has_coords. by rewrite <-Hp.
    + by rewrite <-Hp.
    + rewrite <-Hp. by apply latest_elem.
    + intros x. rewrite <-Hp. by apply latest_max.
  - apply latest_None in Hl as ->. by apply Permutation_nil in Hp as ->.
Qed.

(** A row function that keeps the place keeps the choice. *)
Lemma latest_fmap (f : ResultRow → ResultRow) evs :
  (∀ r, same_coord (f r) r) → latest (f <$> evs) = f <$> latest evs.
Proof.
  intros Hf. induction evs as [|ev evs IH] using rev_ind; [done|].
  rewrite fmap_app. simpl. rewrite !latest_snoc, IH, !keep_later_eq.
  destruct (latest evs) as [c|]; [|done]. simpl. f_equal. unfold later.
  rewrite (LaterInBinlog_coord (f c) c (f ev) ev) by done. by destruct (LaterInBinlog c ev).
Qed.

(** The latest of two sequences is the latest of what each one leaves. *)
Lemma latest_app evs evs' :
  has_coords evs → has_coords evs' →
  latest (evs ++ evs') =
    match latest evs' with Some b => keep_later (latest evs) b | None => latest evs end.
Proof.
  intros Hc. induction evs' as [|ev evs' IH] using rev_ind; intros Hc'.
  { by rewrite app_nil_r. }
  unfold has_coords in Hc'. rewrite Forall_app, Forall_singleton in Hc'. destruct Hc' as [Hc' Hev].
  rewrite app_assoc, latest_snoc, IH, latest_snoc by done. rewrite !keep_later_eq.
  destruct (latest evs') as [b|] eqn:Hb; [|done]. rewrite !keep_later_eq.
  destruct (latest evs) as [a|] eqn:Ha; [|done]. f_equal.
  apply later_assoc; eauto using has_coords_elem, latest_elem.
Qed.

(** The last of a list in binary log order is its latest. *)
Lemma last_sorted_latest evs :
  has_coords evs → NoDup (EventID <$> evs) →
  StronglySorted (cmp_le compareBinlogCoordinate) evs → last evs = latest evs.
Proof.
  intros Hc Hnd Hs. destruct evs as [|ev evs _] using rev_ind; [done|].
  rewrite last_snoc. symmetry. apply latest_unique; [done..|set_solver|].
  intros x [Hx|Hx%list_elem_of_singleton]%elem_of_app.
  - eapply StronglySorted_app_1_elem_of in Hs; [|done|by apply list_elem_of_singleton]. exact Hs.
  - subst x. rewrite (cmp_refl compareBinlogCoordinate). done.
Qed.

(** ** What a group reads back as *)

Definition group_recs (s : changeSpill) (b : nat) : list spillRecord := default [] (cs_groups s !! b).

(** Every record is in its key's group. *)
Definition spill_wf (s : changeSpill) : Prop :=
  ∀ b rec, rec ∈ group_recs s b → spillBucket (sr_PK rec) = b.

(** The change the disk holds for a key. *)
Definition spill_view (s : changeSpill) (pk : string) : option ResultRow :=
  latest (spill_row <$> filter (λ rec, sr_PK rec = pk) (group_recs s (spillBucket pk))).

(** A group without the size check. *)
Definition load_map (recs : list spillRecord) (m : gmap string ResultRow) : gmap string ResultRow :=
  foldl (λ m rec, partial_alter (λ cur, keep_later cur (spill_row rec)) (sr_PK rec) m) m recs.

Lemma load_map_lookup recs m pk :
  load_map recs m !! pk =
    foldl keep_later (m !! pk) (spill_row <$> filter (λ rec, sr_PK rec = pk) recs).
Proof.
  revert m. induction recs as [|rec recs IH]; intros m; [done|].
  rewrite filter_cons. simpl. rewrite IH. case_decide as Hpk.
  - simpl. subst pk. by rewrite lookup_partial_alter_eq.
  - by rewrite lookup_partial_alter_ne.
Qed.

Lemma load_map_step recs rec m :
  load_map (rec :: recs) m =
    load_map recs (match m !! sr_PK rec with
                   | Some cur => if LaterInBinlog cur (spill_row rec) then m else <[sr_PK rec := spill_row rec]> m
                   | None => <[sr_PK rec := spill_row rec]> m
                   end).
Proof.
  simpl. f_equal. apply map_eq. intros pk. destruct (decide (sr_PK rec = pk)) as [<-|Hne].
  - rewrite lookup_partial_alter_eq. unfold keep_later.
    destruct (m !! sr_PK rec) as [cur|] eqn:Hm; [|by rewrite lookup_insert_eq].
    destruct (LaterInBinlog cur _); [done|by rewrite lookup_insert_eq].
  - rewrite lookup_partial_alter_ne by done.
    repeat case_match; by rewrite ?lookup_insert_ne.
Qed.

Lemma load_map_size recs m : size m ≤ size (load_map recs m).
Proof.
  revert m. induction recs as [|rec recs IH]; intros m; [done|]. rewrite load_map_step.
  etransitivity; [|apply IH]. repeat case_match; try done; rewrite map_size_insert; case_match; unfold id; lia.
Qed.

Lemma load_loop_eq limit tables recs m :
  (0 < limit → Z.of_nat (size m) ≤ limit)%Z →
  load_loop limit tables recs m =
    if (0 <? limit)%Z && (limit <? Z.of_nat (size (load_map recs m)))%Z
    then inr (TouchedRowBudgetError limit tables true) else inl (load_map recs m).
Proof.
  revert m. induction recs as [|rec recs IH]; intros m Hm.
  { simpl. destruct (Z.ltb_spec 0 limit); [|done]. simpl.
    rewrite (proj2 (Z.ltb_ge _ _)) by auto. done. }
  rewrite load_map_step. simpl. destruct (m !! sr_PK rec) as [cur|] eqn:Hcur.
  1: destruct (LaterInBinlog cur (spill_row rec)); [by apply IH|].
  all: set (m' := <[sr_PK rec := spill_row rec]> m);
    destruct ((0 <? limit)%Z && (limit <? Z.of_nat (size m'))%Z) eqn:Hl;
    [|apply IH; intros H0; apply andb_false_iff in Hl as [Hl%Z.ltb_ge|Hl%Z.ltb_ge]; lia].
  all: apply andb_true_iff in Hl as [H0 Hl]; rewrite H0; simpl; apply Z.ltb_lt in Hl;
    pose proof (load_map_size recs m'); rewrite (proj2 (Z.ltb_lt _ _)) by lia; done.
Qed.

Lemma load_eq s b :
  load s b =
    if (0 <? cs_limit s)%Z && (cs_limit s <? Z.of_nat (size (load_map (group_recs s b) ∅)))%Z
    then inr (TouchedRowBudgetError (cs_limit s) (cs_tables s) true)
    else inl (load_map (group_recs s b) ∅).
Proof.
  unfold load, group_recs. destruct (cs_groups s !! b) as [recs|]; simpl.
  - apply load_loop_eq. rewrite map_size_empty. lia.
  - destruct (Z.ltb_spec 0 (cs_limit s)); [|done]. simpl.
    rewrite (proj2 (Z.ltb_ge _ _)); [done|]. rewrite map_size_empty. lia.
Qed.

(** A group reads back as the view of its keys. *)
Lemma load_view s b m pk :
  spill_wf s → load s b = inl m →
  m !! pk = if decide (spillBucket pk = b) then spill_view s pk else None.
Proof.
  intros Hwf. rewrite load_eq. case_match; [done|]. intros [= <-].
  rewrite load_map_lookup, lookup_empty. case_decide as Hb; [by subst b|].
  rewrite filter_none; [done|]. intros rec Hrec <-. by apply Hb, Hwf.
Qed.

Lemma drain_group s es b :
  group_recs (drain s es) b
  = group_recs s b ++ ((λ e, spill_record e.1 e.2) <$> filter (λ e, spillBucket e.1 = b) es).
Proof.
  unfold drain. revert s. induction es as [|[pk ev] es IH]; intros s; [by rewrite app_nil_r|].
  simpl. rewrite IH, filter_cons. unfold group_recs at 1. simpl.
  case_decide as Hb; simpl in Hb.
  - subst b. rewrite lookup_insert_eq. simpl. by rewrite <-app_assoc.
  - by rewrite lookup_insert_ne.
Qed.

Lemma drain_wf s es : spill_wf s → spill_wf (drain s es).
Proof.
  intros Hwf b rec. rewrite drain_group. intros [H|H]%elem_of_app; [by apply Hwf|].
  apply list_elem_of_fmap in H as ([pk ev] & -> & H). apply list_elem_of_filter in H as [H _]. done.
Qed.

Lemma newChangeSpill_wf limit : spill_wf (newChangeSpill limit).
Proof. intros b rec H. by apply not_elem_of_nil in H. Qed.

(** The row a change becomes when it goes through the disk. *)
Definition through_disk (ev : ResultRow) : ResultRow := spill_row (spill_record (PKValues ev) ev).

Lemma through_disk_coord ev : same_coord (through_disk ev) ev.
Proof. by repeat split. Qed.

(** Draining a change map: each key's view takes the map's entry. *)
Lemma drain_view s m es pk :
  es ≡ₚ map_to_list m → (∀ k ev, m !! k = Some ev → PKValues ev = k) →
  spill_view (drain s es) pk =
    match m !! pk with
    | Some ev => keep_later (spill_view s pk) (through_disk ev)
    | None => spill_view s pk
    end.
Proof.
  intros Hes Hkey. unfold spill_view. rewrite drain_group, filter_app, fmap_app.
  assert (filter (λ rec, sr_PK rec = pk) ((λ e, spill_record e.1 e.2) <$> filter (λ e, spillBucket e.1 = spillBucket pk) es)
    = match m !! pk with Some ev => [spill_record pk ev] | None => [] end) as ->.
  { assert (NoDup es.*1) as Hnd by (rewrite Hes; apply NoDup_fst_map_to_list).
    rewrite filter_fmap.
    rewrite list_filter_filter.
    destruct (m !! pk) as [ev|] eqn:Hm.
    - assert ((pk, ev) ∈ es) as Hin by (rewrite Hes; by apply elem_of_map_to_list).
      clear Hes Hkey Hm. induction es as [|[k e] es IH]; [by apply not_elem_of_nil in Hin|].
      simpl in Hnd. apply NoDup_cons in Hnd as [Hk Hnd]. rewrite filter_cons.
      apply elem_of_cons in Hin as [[= <- <-]|Hin].
      + rewrite decide_True by done. rewrite filter_none; [done|]. intros [k' e'] Hin' [Heq _].
        simpl in Heq. subst k'. apply Hk. by apply (list_elem_of_fmap_2 fst) in Hin'.
      + rewrite decide_False; [by apply IH|]. intros [Heq _]. simpl in Heq. subst k.
        apply Hk. by apply (list_elem_of_fmap_2 fst) in Hin.
    - rewrite filter_none; [done|]. intros [k e] Hin [Heq _]. simpl in Heq. subst k.
      rewrite Hes in Hin. apply elem_of_map_to_list in Hin. congruence. }
  destruct (m !! pk) as [ev|] eqn:Hm; [|by rewrite app_nil_r].
  simpl. rewrite latest_snoc. unfold through_disk. by rewrite (Hkey pk ev Hm).
Qed.

(** ** The passes of a spill *)

(** A pass holds exactly the view of the groups it owns. *)
Definition pass_ok (s : changeSpill) (p : gmap string ResultRow * gset nat) : Prop :=
  ∀ pk, p.1 !! pk = if decide (spillBucket pk ∈ p.2) then spill_view s pk else None.

Section passes.
Context {S E : Type} (of_budget : BudgetError → E)
  (run : S → gmap string ResultRow → gset nat → S + E).

Fixpoint run_passes (ps : list (gmap string ResultRow * gset nat)) (st : S) : S + E :=
  match ps with
  | [] => inl st
  | (m, owns) :: ps' => match run st m owns with inl st' => run_passes ps' st' | inr e => inr e end
  end.

(** The loop is a series of runs of passes that own each group once. *)
Lemma eachPass_loop_spec s bs st pass owns last passes :
  spill_wf s → (∀ b, b ∈ bs → ∃ m, load s b = inl m) → NoDup bs → (∀ b, b ∈ bs → b ∉ owns) →
  pass_ok s (pass, owns) →
  ∃ ps, Forall (pass_ok s) ps ∧ concat ((λ p, elements p.2) <$> ps) ≡ₚ elements owns ++ bs ∧
    eachPass_loop of_budget run s bs st pass owns last passes =
      match run_passes ps st with inl st' => inl (st', passes + length ps) | inr e => inr e end.
Proof.
  intros Hwf. revert st pass owns last passes.
  induction bs as [|b bs IH]; intros st pass owns last passes Hload Hnd Hdisj Hok.
  { exists [(pass, owns)]. split; [by constructor|]. split; [simpl; by rewrite !app_nil_r|]. simpl.
    by destruct (run st pass owns). }
  apply NoDup_cons in Hnd as [Hb Hnd].
  destruct (Hload b) as [group Hgroup]; [by left|].
  assert (∀ pass' owns', b ∉ owns' → pass_ok s (pass', owns') →
    pass_ok s (group ∪ pass', {[b]} ∪ owns')) as Hadd.
  { intros pass' owns' Hb' Hok' pk. specialize (Hok' pk). simpl in *.
    pose proof (load_view s b group pk Hwf Hgroup) as Hg. rewrite lookup_union, Hok', Hg.
    destruct (decide (spillBucket pk = b)) as [<-|Hne].
    - rewrite (decide_False (P := _ ∈ owns')), (decide_True (P := _ ∈ _ ∪ _)) by set_solver.
      by destruct (spill_view s pk).
    - destruct (decide (spillBucket pk ∈ owns')).
      + rewrite decide_True by set_solver. by destruct (spill_view s pk).
      + rewrite decide_False by set_solver. done. }
  assert (∀ st' pass' owns' last' passes', (∀ b', b' ∈ bs → b' ∉ owns') → b ∉ owns' → pass_ok s (pass', owns') →
    ∃ ps, Forall (pass_ok s) ps ∧ concat ((λ p, elements p.2) <$> ps) ≡ₚ elements owns' ++ b :: bs ∧
      eachPass_loop of_budget run s bs st' (group ∪ pass') ({[b]} ∪ owns') last' passes' =
      match run_passes ps st' with inl st' => inl (st', passes' + length ps) | inr e => inr e end) as Hcont.
  { intros st' pass' owns' last' passes' Hd Hb' Hok'.
    destruct (IH st' (group ∪ pass') ({[b]} ∪ owns') last' passes') as (ps & H1 & H2 & H3); [|done| |auto|].
    - intros. apply Hload. by right.
    - intros b' Hb'' [->%elem_of_singleton|H]%elem_of_union; [done|]. by eapply Hd.
    - exists ps. split; [done|]. split; [|done].
      rewrite H2, elements_union_singleton by done. by rewrite <-Permutation_middle. }
  simpl. rewrite Hgroup. case_match.
  - destruct (Hcont (match run st pass owns with inl st' => st' | inr _ => st end) ∅ ∅ (size group) (passes + 1))
      as (ps & H1 & H2 & H3); [set_solver..|by intros pk|].
    exists ((pass, owns) :: ps). split; [by constructor|]. split.
    + simpl. rewrite H2, elements_empty. done.
    + simpl. destruct (run st pass owns) as [st'|e]; [|done].
      rewrite H3. destruct (run_passes ps st'); [|done]. do 2 f_equal. lia.
  - apply Hcont; [|apply Hdisj; by left|done]. intros b' Hb'. apply Hdisj. by right.
Qed.

Lemma eachPass_spec s st :
  spill_wf s → (∀ b, b < spillBuckets → ∃ m, load s b = inl m) →
  ∃ ps, Forall (pass_ok s) ps ∧ concat ((λ p, elements p.2) <$> ps) ≡ₚ seq 0 spillBuckets ∧
    eachPass of_budget run s st =
      match run_passes ps st with inl st' => inl (st', length ps) | inr e => inr e end.
Proof.
  intros Hwf Hload.
  destruct (eachPass_loop_spec s (seq 0 spillBuckets) st ∅ ∅ 0 0) as (ps & H1 & H2 & H3).
  - done.
  - intros b [_ Hb]%elem_of_seq. by apply Hload.
  - apply NoDup_seq.
  - set_solver.
  - by intros pk.
  - exists ps. rewrite elements_empty in H2. done.
Qed.
End passes.

Lemma spillBucket_lt pk : spillBucket pk < spillBuckets.
Proof.
  unfold spillBucket. pose proof (N.mod_lt (fnv1a pk 2166136261) (N.of_nat spillBuckets)).
  unfold spillBuckets in *. lia.
Qed.
