(* ===== verification/Fold.v ===== *)
(** * Folding an event window: [internal/reconstruct/eventfold.go]

    Pages of events are folded into a change map: per key, the change the
    binary log holds last, trimmed to what the merge reads. The guards that
    read a before-image run on the untrimmed event. Past the in-memory limit
    the map moves to the spill.

    [foldPage] takes the system-versioning rewrite as the function it calls
    ([sysVersioned.normalize], modelled in SysFold.v): the event's meaning for
    the current rows, or [None] when the event is dropped. The pages are the decoded ones: the
    ENUM and base64 decoders run before a page is folded. *)
From S2P Require Import Prelude GoStrings GoVal Event Rows Merge Spill.

(** ** Trimming *)

(** [r] with another type, key and images, the fields [splitPKChange] and
    [retainEvent] set. *)
Definition with_change (r : ResultRow) (type : N) (pk : string) (before after : option Row)
    (changed : list string) : ResultRow := {|
  EventID := EventID r; BinlogFile := BinlogFile r; StartPos := StartPos r; EndPos := EndPos r;
  EventTimestamp := EventTimestamp r; GTID := GTID r; ConnectionID := ConnectionID r;
  SchemaName := SchemaName r; TableName := TableName r; EventType := type;
  PKValues := pk; RowChangedColumns := changed; RowBefore := before;
  RowAfter := after; SchemaVersion := SchemaVersion r; QueryText := QueryText r;
  QueryHash := QueryHash r; CommitTsUS := CommitTsUS r;
  KeySpanFirst := KeySpanFirst r; KeySpanLast := KeySpanLast r |}.

Definition retainEvent (r : ResultRow) : ResultRow := {|
  EventID := EventID r; BinlogFile := BinlogFile r; StartPos := StartPos r; EndPos := EndPos r;
  EventTimestamp := EventTimestamp r; GTID := GTID r; ConnectionID := ConnectionID r;
  SchemaName := SchemaName r; TableName := TableName r; EventType := EventType r;
  PKValues := PKValues r; RowChangedColumns := RowChangedColumns r; RowBefore := None;
  RowAfter := RowAfter r; SchemaVersion := SchemaVersion r; QueryText := None;
  QueryHash := None; CommitTsUS := CommitTsUS r;
  KeySpanFirst := KeySpanFirst r; KeySpanLast := KeySpanLast r |}.

(** ** Errors *)

(** The reasons of [pkSpellingErr]. *)
Inductive SpellingWhy :=
  | StoredSpelling (stored decoded : string)
  | NewKeyColumn (col why : string).

Inductive FoldError :=
  | EToast (e : ToastError)
  | pkChangingUpdateErr (schema table before after : string)
  | pkSpellingErr (schema table before after : string) (why : SpellingWhy)
  | EBudget (e : BudgetError)
  | ENormalize (text : string)
  | EFetch (text : string).

(** ** Primary-key changes *)

Definition checkEventToast (ev : ResultRow) : option ToastError :=
  CheckUnresolvedToast (SchemaName ev) (TableName ev) (PKValues ev) [RowBefore ev; RowAfter ev].

Definition pkChangedInEvent (ev : ResultRow) (pkCols : list ColumnMeta) : option (string * string) :=
  if negb (EventType ev =? EventUpdate)%N then None
  else
    match RowBefore ev, RowAfter ev with
    | Some before, Some after =>
        let b := BuildPKValues pkCols before in
        let a := BuildPKValues pkCols after in
        if bool_decide (b = a) then None else Some (b, a)
    | _, _ => None
    end.

Fixpoint pkChangingUpdateInEvents (events : list ResultRow) (pkCols : list ColumnMeta)
    : option (string * string) :=
  match events with
  | [] => None
  | ev :: rest =>
      match pkChangedInEvent ev pkCols with
      | Some p => Some p
      | None => pkChangingUpdateInEvents rest pkCols
      end
  end.

Definition pkChangingUpdate (changes : gmap string ResultRow) (pkCols : list ColumnMeta)
    : option (string * string) :=
  pkChangingUpdateInEvents (omap (λ k, changes !! k) (sortedKeys changes)) pkCols.

Fixpoint pkKeyUnspellable (pkCols : list ColumnMeta) (row : Row) : option (string * string) :=
  match pkCols with
  | [] => None
  | c :: rest =>
      match row_get row (Name c) with
      | VArray _ | VMap _ => Some (Name c, "a JSON value")
      | VString v =>
          if negb (utf8_valid v) then Some (Name c, "text that is not valid UTF-8")
          else pkKeyUnspellable rest row
      | _ => pkKeyUnspellable rest row
      end
  end.

(** The two halves of a key change, or [[]] for any other event. *)
Definition splitPKChange (ev : ResultRow) (schema table : string) (pkCols : list ColumnMeta) (pg : bool)
    : list ResultRow + FoldError :=
  match pkChangedInEvent ev pkCols with
  | None => inl []
  | Some (before, after) =>
      if pg then inr (pkChangingUpdateErr schema table before after)
      else if negb (bool_decide (before = PKValues ev)) then
        inr (pkSpellingErr schema table (PKValues ev) after (StoredSpelling (PKValues ev) before))
      else
        match pkKeyUnspellable pkCols (default ∅ (RowAfter ev)) with
        | Some (col, why) =>
            inr (pkSpellingErr schema table (PKValues ev) after (NewKeyColumn col why))
        | None =>
            inl [with_change ev EventDelete (PKValues ev) (RowBefore ev) None [];
                 with_change ev EventInsert after None (RowAfter ev) []]
        end
  end.

(** ** The fold *)

Record foldResult := {
  Changes : gmap string ResultRow;
  fr_Total : Z;
  Inserts : Z;
  Updates : Z;
  Deletes : Z;
  First : option ResultRow;
  LastEventID : N;
  ImageColumns : gset string;
  SawImage : bool;
  fr_Spill : option changeSpill;
}.

Definition empty_fold : foldResult := {|
  Changes := ∅; fr_Total := 0; Inserts := 0; Updates := 0; Deletes := 0; First := None;
  LastEventID := 0; ImageColumns := ∅; SawImage := false; fr_Spill := None |}.

Definition with_changes (r : foldResult) (changes : gmap string ResultRow) : foldResult := {|
  Changes := changes; fr_Total := fr_Total r; Inserts := Inserts r; Updates := Updates r;
  Deletes := Deletes r; First := First r; LastEventID := LastEventID r;
  ImageColumns := ImageColumns r; SawImage := SawImage r; fr_Spill := fr_Spill r |}.

Definition with_images (r : foldResult) (cols : gset string) (saw : bool) : foldResult := {|
  Changes := Changes r; fr_Total := fr_Total r; Inserts := Inserts r; Updates := Updates r;
  Deletes := Deletes r; First := First r; LastEventID := LastEventID r;
  ImageColumns := cols; SawImage := saw; fr_Spill := fr_Spill r |}.

Definition with_counts (r : foldResult) (i u d : Z) : foldResult := {|
  Changes := Changes r; fr_Total := fr_Total r; Inserts := i; Updates := u;
  Deletes := d; First := First r; LastEventID := LastEventID r;
  ImageColumns := ImageColumns r; SawImage := SawImage r; fr_Spill := fr_Spill r |}.

Definition observe_image (r : foldResult) (img : option Row) : foldResult :=
  match img with
  | None => r
  | Some img =>
      if negb (SawImage r) then with_images r (dom img) true
      else with_images r (ImageColumns r ∩ dom img) true
  end.

Definition observeImages (r : foldResult) (ev : ResultRow) : foldResult :=
  observe_image (observe_image r (RowAfter ev)) (RowBefore ev).

(** [foldOptions]: the [touched] callback's calls are collected as a list. *)
Definition fold (rt : foldResult * list string) (ev : ResultRow) : foldResult * list string :=
  let '(r, touched) := rt in
  let touched := touched ++ [PKValues ev] in
  if match Changes r !! PKValues ev with Some cur => LaterInBinlog cur ev | None => false end
  then (r, touched)
  else (with_changes r (<[PKValues ev := retainEvent ev]> (Changes r)), touched).

Definition count_event (r : foldResult) (ev : ResultRow) : foldResult :=
  if (EventType ev =? EventInsert)%N then with_counts r (Inserts r + 1) (Updates r) (Deletes r)
  else if (EventType ev =? EventUpdate)%N then with_counts r (Inserts r) (Updates r + 1) (Deletes r)
  else if (EventType ev =? EventDelete)%N then with_counts r (Inserts r) (Updates r) (Deletes r + 1)
  else r.

(** [sysVersioned.normalize] as the fold calls it: an error, a dropped event,
    or the event to fold. *)
Definition Normalizer : Type := ResultRow → option ResultRow + string.

Definition fold_event (schema table : string) (pkCols : list ColumnMeta) (pg : bool)
    (rt : foldResult * list string) (ev : ResultRow) : (foldResult * list string) + FoldError :=
  match checkEventToast ev with
  | Some e => inr (EToast e)
  | None =>
      match splitPKChange ev schema table pkCols pg with
      | inr e => inr e
      | inl halves =>
          let '(r, touched) := rt in
          let r := count_event (observeImages r ev) ev in
          inl (foldl fold (r, touched) (match halves with [] => [ev] | _ => halves end))
      end
  end.

Fixpoint foldPage (page : list ResultRow) (schema table : string) (pkCols : list ColumnMeta)
    (sv : option Normalizer) (pg : bool) (rt : foldResult * list string)
    : (foldResult * list string) + FoldError :=
  match page with
  | [] => inl rt
  | ev :: rest =>
      match (match sv with None => inl (Some ev) | Some normalize => normalize ev end) with
      | inr text => inr (ENormalize text)
      | inl None => foldPage rest schema table pkCols sv pg rt
      | inl (Some ev) =>
          match fold_event schema table pkCols pg rt ev with
          | inr e => inr e
          | inl rt' => foldPage rest schema table pkCols sv pg rt'
          end
      end
  end.

Definition scaledEventThreshold (threshold parallelism : Z) : Z :=
  if ((threshold <=? 0) || (parallelism <=? 1))%Z then threshold
  else
    let scaled := (threshold `quot` parallelism)%Z in
    if (scaled <? 1)%Z then 1%Z else scaled.

(** ** The budget, and the window

    [iter] is the order a range statement visits a map in, which Go leaves
    open. *)
Section window.
Context (iter : gmap string ResultRow → list (string * ResultRow)).

Definition sampledChangeBytes (m : gmap string ResultRow) : Z * Z :=
  if size m =? 0 then (0, 0)%Z
  else
    let sample := take changeSampleRows (iter m) in
    let sum := foldl (λ s e, s + approxChangeBytes e.2)%Z 0%Z sample in
    let perRow := (1 `max` (sum `quot` Z.of_nat (length sample)))%Z in
    ((perRow * Z.of_nat (size m))%Z, perRow).

(** Moving the map to disk. *)
Definition drain_changes (r : foldResult) (s : changeSpill) : foldResult := {|
  Changes := ∅; fr_Total := fr_Total r; Inserts := Inserts r; Updates := Updates r;
  Deletes := Deletes r; First := First r; LastEventID := LastEventID r;
  ImageColumns := ImageColumns r; SawImage := SawImage r;
  fr_Spill := Some (drain s (iter (Changes r))) |}.

Definition admit_page (r : foldResult) (limit maxBytes tables : Z) (spill : bool)
    : foldResult + FoldError :=
  match fr_Spill r with
  | Some s => inl (drain_changes r s)
  | None =>
      let overRows := (0 <? limit)%Z && (limit <? Z.of_nat (size (Changes r)))%Z in
      let total := if spill && (0 <? maxBytes)%Z then (sampledChangeBytes (Changes r)).1 else 0%Z in
      if negb overRows && ((maxBytes <=? 0)%Z || (total <=? maxBytes)%Z) then inl r
      else if negb spill then inr (EBudget (TouchedRowBudgetError limit tables false))
      else
        inl (drain_changes r
          {| cs_limit := limit; cs_tables := tables; cs_maxBytes := maxBytes; cs_heldBytes := 0;
             cs_groups := ∅; cs_records := 0 |})
  end.

(** What a fold runs under. *)
Record foldConfig := {
  fc_Schema : string;
  fc_Table : string;
  fc_PKCols : list ColumnMeta;
  fc_SysVersioned : option Normalizer;
  fc_PG : bool;
  fc_MaxTouchedRows : Z;
  fc_MaxChangeBytes : Z;
  fc_Parallelism : Z;
  fc_SpillOverBudget : bool;
}.

Definition window_marks (r : foldResult) (page : list ResultRow) : foldResult := {|
  Changes := Changes r; fr_Total := fr_Total r; Inserts := Inserts r; Updates := Updates r;
  Deletes := Deletes r;
  First := match First r with Some f => Some f | None => head page end;
  LastEventID := foldl (λ m ev, if (m <? EventID ev)%N then EventID ev else m) (LastEventID r) page;
  ImageColumns := ImageColumns r; SawImage := SawImage r; fr_Spill := fr_Spill r |}.

Definition with_total (r : foldResult) (n : Z) : foldResult := {|
  Changes := Changes r; fr_Total := n; Inserts := Inserts r; Updates := Updates r;
  Deletes := Deletes r; First := First r; LastEventID := LastEventID r;
  ImageColumns := ImageColumns r; SawImage := SawImage r; fr_Spill := fr_Spill r |}.

(** The callback the stream runs per page. *)
Definition fold_page_fn (fc : foldConfig) (r : foldResult) (page : list ResultRow)
    : foldResult + FoldError :=
  if length page =? 0 then inl r
  else
    match foldPage page (fc_Schema fc) (fc_Table fc) (fc_PKCols fc) (fc_SysVersioned fc) (fc_PG fc)
            (window_marks r page, []) with
    | inr e => inr e
    | inl (r, _) =>
        match admit_page r (scaledEventThreshold (fc_MaxTouchedRows fc) (fc_Parallelism fc))
                (scaledEventThreshold (fc_MaxChangeBytes fc) (fc_Parallelism fc))
                (fc_Parallelism fc) (fc_SpillOverBudget fc) with
        | inr e => inr e
        | inl r => inl (with_total r (fr_Total r + Z.of_nat (length page)))
        end
    end.

(** [FetchMergedStream] hands over the pages and may fail after some of
    them: [fetchErr] is its own error. *)
Fixpoint foldEventWindow_loop (fc : foldConfig) (pages : list (list ResultRow))
    (fetchErr : option string) (r : foldResult) : foldResult + FoldError :=
  match pages with
  | [] => match fetchErr with Some e => inr (EFetch e) | None => inl r end
  | page :: rest =>
      match fold_page_fn fc r page with
      | inr e => inr e
      | inl r => foldEventWindow_loop fc rest fetchErr r
      end
  end.

Definition foldEventWindow (fc : foldConfig) (pages : list (list ResultRow))
    (fetchErr : option string) : foldResult + FoldError :=
  foldEventWindow_loop fc pages fetchErr empty_fold.
End window.

Definition changeCount (r : foldResult) : Z :=
  match fr_Spill r with Some s => cs_records s | None => Z.of_nat (size (Changes r)) end.

Definition windowEmptyByPosition (since until : option BinlogPos) : bool :=
  match since, until with Some s, Some u => AtOrBefore u s | _, _ => false end.

(** [fulltable.go]: the baseline columns some image of the window lacks. *)
Definition droppedBaselineColumns (imageCols : gset string) (sawImage : bool) (colNames : list string)
    : list string :=
  if negb sawImage then []
  else sort_by String.compare (filter (λ col, col ∉ imageCols) colNames).

(** ** Lemmas on one event *)

(** The changes an event is folded as: itself, or the halves of a key change. *)
Definition halves_of (pkCols : list ColumnMeta) (ev : ResultRow) : list ResultRow :=
  match pkChangedInEvent ev pkCols with
  | None => [ev]
  | Some (_, after) =>
      [with_change ev EventDelete (PKValues ev) (RowBefore ev) None [];
       with_change ev EventInsert after None (RowAfter ev) []]
  end.

(** The guards accept the event. *)
Definition event_ok (schema table : string) (pkCols : list ColumnMeta) (pg : bool) (ev : ResultRow) : Prop :=
  checkEventToast ev = None ∧ ∃ hs, splitPKChange ev schema table pkCols pg = inl hs.

Lemma splitPKChange_halves ev schema table pkCols pg hs :
  splitPKChange ev schema table pkCols pg = inl hs →
  match hs with [] => [ev] | _ => hs end = halves_of pkCols ev ∧
  (∀ b a, pkChangedInEvent ev pkCols = Some (b, a) → b = PKValues ev ∧ a ≠ PKValues ev).
Proof.
  unfold splitPKChange, halves_of. destruct (pkChangedInEvent ev pkCols) as [[b a]|] eqn:Hc.
  2:{ intros [= <-]. done. }
  destruct pg; [done|]. case_bool_decide as Hb; [|done]. simpl.
  destruct (pkKeyUnspellable _ _) as [[??]|]; [done|]. intros [= <-]. split; [done|].
  intros b' a' [= <- <-]. split; [done|]. revert Hc. unfold pkChangedInEvent.
  repeat case_match; try done. intros [= <- <-]. case_bool_decide; congruence.
Qed.

Lemma halves_of_coord pkCols ev h : h ∈ halves_of pkCols ev → same_coord h ev.
Proof.
  unfold halves_of. destruct (pkChangedInEvent ev pkCols) as [[b a]|].
  - intros [->|[->|[]%not_elem_of_nil]%elem_of_cons]%elem_of_cons; by repeat split.
  - intros ->%list_elem_of_singleton. by repeat split.
Qed.

(** ** Lemmas on the change map *)

Definition fold_changes (m : gmap string ResultRow) (ev : ResultRow) : gmap string ResultRow :=
  if match m !! PKValues ev with Some cur => LaterInBinlog cur ev | None => false end
  then m else <[PKValues ev := retainEvent ev]> m.

Lemma fold_eq r t evs :
  foldl fold (r, t) evs
  = (with_changes r (foldl fold_changes (Changes r) evs), t ++ (PKValues <$> evs)).
Proof.
  revert r t. induction evs as [|ev evs IH]; intros r t; simpl.
  { rewrite app_nil_r. by destruct r. }
  unfold fold_changes at 2. case_match; rewrite IH; by rewrite <-app_assoc.
Qed.

Lemma fold_changes_lookup evs m pk :
  foldl fold_changes m evs !! pk
  = foldl keep_later (m !! pk) (retainEvent <$> filter (λ ev, PKValues ev = pk) evs).
Proof.
  revert m. induction evs as [|ev evs IH]; intros m; [done|]. rewrite filter_cons. simpl. rewrite IH.
  unfold fold_changes. case_decide as Hpk; simpl.
  - subst pk. f_equal. unfold keep_later.
    destruct (m !! PKValues ev) as [cur|] eqn:Hm; [|by rewrite lookup_insert_eq].
    rewrite (LaterInBinlog_coord cur cur (retainEvent ev) ev) by by repeat split.
    destruct (LaterInBinlog cur ev); [done|by rewrite lookup_insert_eq].
  - f_equal. case_match; [done|]. by rewrite lookup_insert_ne.
Qed.

(** A change map is keyed by its entries' own keys. *)
Definition keyed (m : gmap string ResultRow) : Prop := ∀ k ev, m !! k = Some ev → PKValues ev = k.

Lemma fold_changes_keyed m evs : keyed m → keyed (foldl fold_changes m evs).
Proof.
  revert m. induction evs as [|ev evs IH]; intros m Hm; [done|]. simpl. apply IH.
  unfold fold_changes. case_match; [done|]. intros k e.
  destruct (decide (PKValues ev = k)) as [<-|Hne];
    [rewrite lookup_insert_eq; by intros [= <-]|rewrite lookup_insert_ne by done; apply Hm].
Qed.

(** ** Lemmas on images *)

(** The images of an event in the order they are sampled. *)
Definition images_of (ev : ResultRow) : list Row := omap id [RowAfter ev; RowBefore ev].

Definition observe (sc : bool * gset string) (img : Row) : bool * gset string :=
  (true, if sc.1 then sc.2 ∩ dom img else dom img).

Lemma observeImages_eq r ev :
  observeImages r ev =
    let sc := foldl observe (SawImage r, ImageColumns r) (images_of ev) in with_images r sc.2 sc.1.
Proof.
  unfold observeImages, images_of, observe_image. destruct (RowAfter ev), (RowBefore ev), r; simpl;
    try done; by destruct SawImage0.
Qed.

(** The columns kept are those of every image seen. *)
Lemma observe_spec imgs col :
  let sc := foldl observe (false, ∅) imgs in
  sc.1 = negb (length imgs =? 0) ∧
  (sc.1 = true → col ∈ sc.2 ↔ ∀ img, img ∈ imgs → is_Some (img !! col)).
Proof.
  induction imgs as [|img imgs [IH1 IH2]] using rev_ind; [done|].
  rewrite foldl_app. destruct (foldl observe (false, ∅) imgs) as [saw cols]. simpl in *.
  split; [rewrite length_app; simpl; by rewrite Nat.add_1_r|]. intros _. subst saw.
  setoid_rewrite elem_of_app. setoid_rewrite list_elem_of_singleton.
  destruct imgs as [|i imgs]; simpl in *.
  - rewrite elem_of_dom. split; [|by eauto]. intros H img' [Hi| ->]; [by apply not_elem_of_nil in Hi|done].
  - rewrite elem_of_intersection, elem_of_dom, (IH2 eq_refl). split.
    + intros [H1 H2] img' [Hi| ->]; auto.
    + intros H. split; [|by eauto]. intros img' Hi. auto.
Qed.

(** ** A page *)

(** The event the guards and the fold see, [None] when it is dropped. *)
Definition current (sv : option Normalizer) (ev : ResultRow) : option ResultRow :=
  match sv with
  | None => Some ev
  | Some normalize => match normalize ev with inl o => o | inr _ => None end
  end.

(** Nothing refuses the stored event [ev]. *)
Definition accepted (schema table : string) (pkCols : list ColumnMeta) (sv : option Normalizer) (pg : bool)
    (ev : ResultRow) : Prop :=
  (∀ normalize text, sv = Some normalize → normalize ev ≠ inr text) ∧
  (∀ e, current sv ev = Some e → event_ok schema table pkCols pg e).

Definition count_type (type : N) (evs : list ResultRow) : Z :=
  Z.of_nat (length (filter (λ ev, EventType ev = type) evs)).

(** What folding [evs] does to a result and to the touched keys. *)
Definition fold_effect (pkCols : list ColumnMeta) (rt : foldResult * list string) (evs : list ResultRow)
    : foldResult * list string :=
  let '(r, t) := rt in
  let hs := evs ≫= halves_of pkCols in
  let sc := foldl observe (SawImage r, ImageColumns r) (evs ≫= images_of) in
  ({| Changes := foldl fold_changes (Changes r) hs; fr_Total := fr_Total r;
      Inserts := Inserts r + count_type EventInsert evs;
      Updates := Updates r + count_type EventUpdate evs;
      Deletes := Deletes r + count_type EventDelete evs;
      First := First r; LastEventID := LastEventID r; ImageColumns := sc.2; SawImage := sc.1;
      fr_Spill := fr_Spill r |}, t ++ (PKValues <$> hs)).

Lemma fold_effect_nil pkCols rt : fold_effect pkCols rt [] = rt.
Proof.
  destruct rt as [r t]. unfold fold_effect, count_type. simpl. rewrite app_nil_r, !Z.add_0_r.
  by destruct r.
Qed.

Lemma count_type_app type evs evs' : (count_type type (evs ++ evs') = count_type type evs + count_type type evs')%Z.
Proof. unfold count_type. rewrite filter_app, length_app. lia. Qed.

Lemma fold_effect_app pkCols rt evs evs' :
  fold_effect pkCols (fold_effect pkCols rt evs) evs' = fold_effect pkCols rt (evs ++ evs').
Proof.
  destruct rt as [r t]. unfold fold_effect. simpl.
  rewrite !bind_app, fmap_app, !foldl_app, !count_type_app, !Z.add_assoc, app_assoc.
  by rewrite <-!surjective_pairing.
Qed.

Lemma fold_event_eq schema table pkCols pg rt ev rt' :
  fold_event schema table pkCols pg rt ev = inl rt' ↔
  event_ok schema table pkCols pg ev ∧ rt' = fold_effect pkCols rt [ev].
Proof.
  unfold fold_event, event_ok. destruct (checkEventToast ev); [naive_solver|].
  destruct (splitPKChange ev schema table pkCols pg) as [hs|e] eqn:Hs; [|naive_solver].
  apply splitPKChange_halves in Hs as [-> _]. destruct rt as [r t].
  assert (foldl fold (count_event (observeImages r ev) ev, t) (halves_of pkCols ev)
          = fold_effect pkCols (r, t) [ev]) as ->; [|naive_solver].
  rewrite fold_eq, observeImages_eq. unfold fold_effect, with_changes, count_event, count_type, with_counts, with_images.
  simpl. rewrite !app_nil_r, !filter_cons, !filter_nil.
  destruct (N.eqb_spec (EventType ev) EventInsert) as [->|];
    [|destruct (N.eqb_spec (EventType ev) EventUpdate) as [->|];
    [|destruct (N.eqb_spec (EventType ev) EventDelete) as [->|]]];
    rewrite ?decide_True, ?decide_False by done; simpl; by rewrite ?Z.add_0_r.
Qed.

(** A page folds exactly when nothing in it is refused, and then to
    [fold_effect] of its current events. *)
Lemma foldPage_eq page schema table pkCols sv pg rt rt' :
  foldPage page schema table pkCols sv pg rt = inl rt' ↔
  Forall (accepted schema table pkCols sv pg) page ∧ rt' = fold_effect pkCols rt (omap (current sv) page).
Proof.
  revert rt. induction page as [|ev page IH]; intros rt; csimpl.
  { rewrite fold_effect_nil, Forall_nil. naive_solver. }
  rewrite Forall_cons. unfold accepted at 1, current.
  destruct sv as [normalize|].
  - destruct (normalize ev) as [[e|]|text] eqn:Hn.
    + destruct (fold_event schema table pkCols pg rt e) as [rt1|err] eqn:Hf.
      * apply fold_event_eq in Hf as [Hok ->]. rewrite IH, fold_effect_app. simpl.
        split; [intros [H1 H2]|intros [[_ ?] ?]; done]. split; [|done]. split; [|done].
        split; [intros ?? [= <-]; congruence|intros e' [= <-]; done].
      * split; [done|]. intros [[[_ Hok] _] _]. specialize (Hok e eq_refl).
        assert (fold_event schema table pkCols pg rt e = inl (fold_effect pkCols rt [e])) as Hc
          by by apply fold_event_eq. congruence.
    + rewrite IH. split; [intros [H1 H2]|intros [[_ ?] ?]; done]. split; [|done]. split; [|done].
      split; [intros ?? [= <-]; congruence|done].
    + split; [done|]. intros [[[Hne _] _] _]. exfalso. by eapply Hne.
  - destruct (fold_event schema table pkCols pg rt ev) as [rt1|err] eqn:Hf.
    + apply fold_event_eq in Hf as [Hok ->]. rewrite IH, fold_effect_app. simpl.
      split; [intros [H1 H2]|intros [[_ ?] ?]; done]. split; [|done]. split; [|done].
      split; [done|intros e' [= <-]; done].
    + split; [done|]. intros [[[_ Hok] _] _]. specialize (Hok ev eq_refl).
      assert (fold_event schema table pkCols pg rt ev = inl (fold_effect pkCols rt [ev])) as Hc
        by by apply fold_event_eq. congruence.
Qed.

(** ** The window *)

(** The changes of one key among the halves of [evs]. *)
Definition key_changes (pkCols : list ColumnMeta) (pk : string) (evs : list ResultRow) : list ResultRow :=
  filter (λ ev, PKValues ev = pk) (evs ≫= halves_of pkCols).

(** The change a result holds for a key, wherever it is. *)
Definition change_view (r : foldResult) (pk : string) : option ResultRow :=
  match fr_Spill r, Changes r !! pk with
  | None, c => through_disk <$> c
  | Some s, None => spill_view s pk
  | Some s, Some ev => keep_later (spill_view s pk) (through_disk ev)
  end.

Lemma key_changes_app pkCols pk evs evs' :
  key_changes pkCols pk (evs ++ evs') = key_changes pkCols pk evs ++ key_changes pkCols pk evs'.
Proof. unfold key_changes. by rewrite bind_app, filter_app. Qed.

Lemma elem_of_key_changes pkCols pk evs h :
  h ∈ key_changes pkCols pk evs → PKValues h = pk ∧ ∃ ev, ev ∈ evs ∧ h ∈ halves_of pkCols ev.
Proof.
  unfold key_changes. rewrite list_elem_of_filter, list_elem_of_bind. intros (Hpk & ev & Hh & Hev). eauto.
Qed.

Lemma key_changes_coords pkCols pk evs : has_coords evs → has_coords (key_changes pkCols pk evs).
Proof.
  unfold has_coords. rewrite !Forall_forall. intros Hc h Hh.
  apply elem_of_key_changes in Hh as (_ & ev & Hev & Hh).
  rewrite (hasBinlogCoordinate_coord h ev); [by apply Hc|]. by eapply halves_of_coord.
Qed.

Lemma latest_key_PK pkCols pk evs ev : latest (key_changes pkCols pk evs) = Some ev → PKValues ev = pk.
Proof. intros H%latest_elem. by apply elem_of_key_changes in H as [? _]. Qed.

(** What the loop keeps: [evs1] is on disk, [evs2] in the map. *)
Record window_inv (pkCols : list ColumnMeta) (stored evs : list ResultRow) (r : foldResult) : Prop := {
  wi_split : ∃ evs1 evs2, evs = evs1 ++ evs2 ∧
    (∀ pk, Changes r !! pk = retainEvent <$> latest (key_changes pkCols pk evs2)) ∧
    match fr_Spill r with
    | None => evs1 = []
    | Some s => spill_wf s ∧ ∀ pk, spill_view s pk = through_disk <$> latest (key_changes pkCols pk evs1)
    end;
  wi_Inserts : Inserts r = count_type EventInsert evs;
  wi_Updates : Updates r = count_type EventUpdate evs;
  wi_Deletes : Deletes r = count_type EventDelete evs;
  wi_images : (SawImage r, ImageColumns r) = foldl observe (false, ∅) (evs ≫= images_of);
  wi_Total : fr_Total r = Z.of_nat (length stored);
}.

Lemma empty_fold_inv pkCols : window_inv pkCols [] [] empty_fold.
Proof. split; try done. exists [], []. split_and!; try done. Qed.

Lemma window_inv_view pkCols stored evs r pk :
  has_coords evs → window_inv pkCols stored evs r →
  change_view r pk = through_disk <$> latest (key_changes pkCols pk evs).
Proof.
  intros Hc [(evs1 & evs2 & -> & Hm & Hs) _ _ _ _ _]. unfold change_view. rewrite Hm.
  apply Forall_app in Hc as [Hc1 Hc2]. destruct (fr_Spill r) as [s|].
  - destruct Hs as [_ Hs]. rewrite Hs, key_changes_app, latest_app by by apply key_changes_coords.
    destruct (latest (key_changes pkCols pk evs2)) as [b|]; [|done]. simpl. rewrite !keep_later_eq.
    destruct (latest (key_changes pkCols pk evs1)) as [a|]; [|done]. simpl. f_equal. unfold later.
    rewrite (LaterInBinlog_coord (through_disk a) a (through_disk (retainEvent b)) b)
      by by repeat split. by destruct (LaterInBinlog a b).
  - subst evs1. simpl. by destruct (latest _).
Qed.

Section window_lemmas.
Context (iter : gmap string ResultRow → list (string * ResultRow)).
Context (Hiter : ∀ m, iter m ≡ₚ map_to_list m).

(** Moving the map to disk keeps what the result holds. *)
Lemma drain_changes_inv pkCols stored evs r s :
  has_coords evs → window_inv pkCols stored evs r → (fr_Spill r = Some s ∨ fr_Spill r = None ∧ cs_groups s = ∅) →
  window_inv pkCols stored evs (drain_changes iter r s).
Proof.
  intros Hc Hinv Hs. pose proof (λ pk, window_inv_view pkCols stored evs r pk Hc Hinv) as Hview.
  destruct Hinv as [(evs1 & evs2 & Hevs & Hm & Hsp) Hi Hu Hd Himg Ht]. split; try done. simpl.
  exists evs, []. split; [by rewrite app_nil_r|]. split; [done|].
  assert (keyed (Changes r)) as Hkey.
  { intros k ev. rewrite Hm. intros (e & He & ->)%fmap_Some. by apply latest_key_PK in He. }
  assert (spill_wf s) as Hwf.
  { destruct Hs as [Hs|[_ Hs]]; [by rewrite Hs in Hsp; apply Hsp|].
    intros b rec H. unfold group_recs in H. rewrite Hs, lookup_empty in H. by apply not_elem_of_nil in H. }
  split; [by apply drain_wf|]. intros pk. rewrite (drain_view s (Changes r)), <-Hview by done.
  unfold change_view. destruct Hs as [-> | [-> Hs]]; [done|].
  assert (spill_view s pk = None) as ->.
  { unfold spill_view, group_recs. by rewrite Hs, lookup_empty. }
  by destruct (Changes r !! pk).
Qed.

Lemma admit_page_inv pkCols stored evs r limit maxBytes tables spill r' :
  has_coords evs → window_inv pkCols stored evs r →
  admit_page iter r limit maxBytes tables spill = inl r' → window_inv pkCols stored evs r'.
Proof.
  intros Hc Hinv. unfold admit_page. destruct (fr_Spill r) as [s|] eqn:Hs.
  - intros [= <-]. apply drain_changes_inv; auto.
  - destruct (negb _ && _); [by intros [= <-]|]. destruct spill; simpl; [|done].
    intros [= <-]. apply drain_changes_inv; auto.
Qed.

(** A fold may only refuse on the budget when it may not spill. *)
Lemma admit_page_total r limit maxBytes tables spill :
  (spill = true ∨ limit ≤ 0 ∧ maxBytes ≤ 0)%Z → ∃ r', admit_page iter r limit maxBytes tables spill = inl r'.
Proof.
  intros H. unfold admit_page. destruct (fr_Spill r); [eauto|]. destruct H as [-> | [Hl Hb]].
  - destruct (negb _ && _); eauto.
  - rewrite (proj2 (Z.ltb_ge 0 limit)), (proj2 (Z.leb_le maxBytes 0)) by done. simpl. eauto.
Qed.

Lemma fold_effect_inv pkCols stored evs evs' r t :
  window_inv pkCols stored evs r →
  window_inv pkCols stored (evs ++ evs') (fold_effect pkCols (r, t) evs').1.
Proof.
  intros [(evs1 & evs2 & -> & Hm & Hs) Hi Hu Hd Himg Ht]. split; simpl.
  - exists evs1, (evs2 ++ evs'). split; [by rewrite app_assoc|]. split; [|done].
    intros pk. rewrite fold_changes_lookup, Hm, key_changes_app. unfold latest.
    rewrite foldl_app, <-latest_fmap by by repeat split. unfold latest.
    rewrite <-foldl_app, <-fmap_app. change (foldl keep_later None) with latest.
    rewrite latest_fmap by by repeat split. unfold latest. by rewrite foldl_app.
  - rewrite count_type_app. lia.
  - rewrite count_type_app. lia.
  - rewrite count_type_app. lia.
  - by rewrite <-surjective_pairing, (bind_app _ (evs1 ++ evs2)), foldl_app, <-Himg.
  - done.
Qed.

(** The marks of a page do not touch what the invariant speaks of. *)
Lemma window_marks_inv pkCols stored evs r page :
  window_inv pkCols stored evs r → window_inv pkCols stored evs (window_marks r page).
Proof. intros [Hs Hi Hu Hd Himg Ht]. by split. Qed.

Lemma with_total_inv pkCols stored evs r page :
  window_inv pkCols stored evs r →
  window_inv pkCols (stored ++ page) evs (with_total r (fr_Total r + Z.of_nat (length page))).
Proof.
  intros [Hs Hi Hu Hd Himg Ht]. split; try done. simpl. rewrite Ht, length_app. lia.
Qed.

Lemma fold_page_fn_inv fc stored evs r page r' :
  let evs' := omap (current (fc_SysVersioned fc)) page in
  has_coords (evs ++ evs') → window_inv (fc_PKCols fc) stored evs r →
  fold_page_fn iter fc r page = inl r' →
  Forall (accepted (fc_Schema fc) (fc_Table fc) (fc_PKCols fc) (fc_SysVersioned fc) (fc_PG fc)) page ∧
  window_inv (fc_PKCols fc) (stored ++ page) (evs ++ evs') r'.
Proof.
  intros evs' Hc Hinv. unfold fold_page_fn. destruct (Nat.eqb_spec (length page) 0) as [->%nil_length_inv|Hpage].
  { intros [= <-]. unfold evs'. simpl. by rewrite !app_nil_r. }
  destruct (foldPage page _ _ _ _ _ _) as [[r1 t1]|e] eqn:Hf; [|done].
  apply foldPage_eq in Hf as [Hacc Heq].
  apply (window_marks_inv _ _ _ _ page) in Hinv.
  apply (fold_effect_inv _ _ _ evs' _ []) in Hinv. unfold evs' in Hinv. rewrite <-Heq in Hinv.
  simpl in Hinv.
  destruct (admit_page iter r1 _ _ _ _) as [r2|e] eqn:Ha; [|done]. intros [= <-]. split; [done|].
  apply with_total_inv. by eapply admit_page_inv.
Qed.

Lemma foldEventWindow_loop_inv fc pages err stored evs r r' :
  let evs' := omap (current (fc_SysVersioned fc)) (concat pages) in
  has_coords (evs ++ evs') → window_inv (fc_PKCols fc) stored evs r →
  foldEventWindow_loop iter fc pages err r = inl r' →
  err = None ∧
  Forall (accepted (fc_Schema fc) (fc_Table fc) (fc_PKCols fc) (fc_SysVersioned fc) (fc_PG fc)) (concat pages) ∧
  window_inv (fc_PKCols fc) (stored ++ concat pages) (evs ++ evs') r'.
Proof.
  revert stored evs r. induction pages as [|page pages IH]; intros stored evs r; simpl.
  { rewrite !app_nil_r. intros _ Hinv. destruct err; [done|]. by intros [= <-]. }
  rewrite omap_app, !app_assoc. intros Hc Hinv.
  destruct (fold_page_fn iter fc r page) as [r1|e] eqn:Hf; [|done]. intros Hl.
  apply (fold_page_fn_inv fc stored evs) in Hf as [Hacc Hinv1]; [|by apply Forall_app in Hc as [? _]|done].
  destruct (IH _ _ _ Hc Hinv1 Hl) as (-> & Hacc' & Hinv'). split_and!; [done|by apply Forall_app|].
  done.
Qed.

Lemma foldEventWindow_inv fc pages err r :
  has_coords (omap (current (fc_SysVersioned fc)) (concat pages)) →
  foldEventWindow iter fc pages err = inl r →
  err = None ∧
  Forall (accepted (fc_Schema fc) (fc_Table fc) (fc_PKCols fc) (fc_SysVersioned fc) (fc_PG fc)) (concat pages) ∧
  window_inv (fc_PKCols fc) (concat pages) (omap (current (fc_SysVersioned fc)) (concat pages)) r.
Proof.
  intros Hc. apply (foldEventWindow_loop_inv fc pages err [] [] empty_fold r); [done|].
  apply empty_fold_inv.
Qed.

Lemma fold_page_fn_total fc r page :
  Forall (accepted (fc_Schema fc) (fc_Table fc) (fc_PKCols fc) (fc_SysVersioned fc) (fc_PG fc)) page →
  (fc_SpillOverBudget fc = true ∨ fc_MaxTouchedRows fc ≤ 0 ∧ fc_MaxChangeBytes fc ≤ 0)%Z →
  ∃ r', fold_page_fn iter fc r page = inl r'.
Proof.
  intros Hacc Hb. unfold fold_page_fn. case_match; [eauto|].
  destruct (foldPage page _ _ _ _ _ _) as [[r1 t1]|e] eqn:Hf.
  - destruct (admit_page_total r1 (scaledEventThreshold (fc_MaxTouchedRows fc) (fc_Parallelism fc))
      (scaledEventThreshold (fc_MaxChangeBytes fc) (fc_Parallelism fc)) (fc_Parallelism fc)
      (fc_SpillOverBudget fc)) as [r2 ->]; [|eauto].
    destruct Hb as [Hb|[H1 H2]]; [by left|right]. unfold scaledEventThreshold.
    rewrite !(proj2 (Z.leb_le _ 0)) by done. done.
  - assert (foldPage page (fc_Schema fc) (fc_Table fc) (fc_PKCols fc) (fc_SysVersioned fc) (fc_PG fc)
      (window_marks r page, []) = inl (fold_effect (fc_PKCols fc) (window_marks r page, [])
        (omap (current (fc_SysVersioned fc)) page))) as H1 by by apply foldPage_eq.
    congruence.
Qed.

Lemma foldEventWindow_loop_total fc pages r :
  Forall (accepted (fc_Schema fc) (fc_Table fc) (fc_PKCols fc) (fc_SysVersioned fc) (fc_PG fc)) (concat pages) →
  (fc_SpillOverBudget fc = true ∨ fc_MaxTouchedRows fc ≤ 0 ∧ fc_MaxChangeBytes fc ≤ 0)%Z →
  ∃ r', foldEventWindow_loop iter fc pages None r = inl r'.
Proof.
  revert r. induction pages as [|page pages IH]; intros r Hacc Hb; simpl; [eauto|].
  simpl in Hacc. rewrite Forall_app in Hacc. destruct Hacc as [H1 H2].
  destruct (fold_page_fn_total fc r page H1 Hb) as [r1 ->]. by apply IH.
Qed.
End window_lemmas.

(** ** Replaying the log

    The reference the fold is judged by: the table as a map from keys to rows,
    the events applied one by one in binary log order. *)

(** What a row is after a change of it. *)
Definition image (ev : ResultRow) : option Row :=
  if (EventType ev =? EventDelete)%N then None else RowAfter ev.

Definition replay_event (pkCols : list ColumnMeta) (t : gmap string Row) (ev : ResultRow) : gmap string Row :=
  match pkChangedInEvent ev pkCols with
  | Some (_, new) => partial_alter (λ _, RowAfter ev) new (delete (PKValues ev) t)
  | None => partial_alter (λ _, image ev) (PKValues ev) t
  end.

Definition replay (pkCols : list ColumnMeta) (t : gmap string Row) (log : list ResultRow) : gmap string Row :=
  foldl (replay_event pkCols) t log.

Definition apply_change (c : option ResultRow) (row : option Row) : option Row :=
  match c with Some ev => image ev | None => row end.

Lemma replay_event_lookup pkCols t ev pk :
  replay_event pkCols t ev !! pk
  = apply_change (last (filter (λ h, PKValues h = pk) (halves_of pkCols ev))) (t !! pk).
Proof.
  unfold replay_event, halves_of. destruct (pkChangedInEvent ev pkCols) as [[b a]|].
  - rewrite !filter_cons, filter_nil. simpl.
    destruct (decide (a = pk)) as [->|Ha].
    + rewrite lookup_partial_alter_eq. by case_decide.
    + rewrite lookup_partial_alter_ne by done. case_decide as Hpk.
      * subst pk. by rewrite lookup_delete_eq.
      * by rewrite lookup_delete_ne.
  - rewrite filter_cons, filter_nil. case_decide as Hpk.
    + subst pk. by rewrite lookup_partial_alter_eq.
    + by rewrite lookup_partial_alter_ne.
Qed.

Lemma replay_lookup pkCols t log pk :
  replay pkCols t log !! pk = apply_change (last (key_changes pkCols pk log)) (t !! pk).
Proof.
  unfold replay. induction log as [|ev log IH] using rev_ind; [done|].
  rewrite foldl_app, key_changes_app. simpl. rewrite replay_event_lookup, IH, last_app.
  unfold key_changes at 2. simpl. rewrite app_nil_r. by destruct (last (filter _ (halves_of pkCols ev))).
Qed.

(** The halves of an accepted event have different keys. *)
Lemma event_ok_keys schema table pkCols pg ev :
  event_ok schema table pkCols pg ev → NoDup (PKValues <$> halves_of pkCols ev).
Proof.
  intros [_ [hs Hs]]. apply splitPKChange_halves in Hs as [_ Hk]. unfold halves_of.
  destruct (pkChangedInEvent ev pkCols) as [[b a]|]; [|apply NoDup_singleton].
  destruct (Hk b a eq_refl) as [_ Ha]. simpl. apply NoDup_cons. split; [|apply NoDup_singleton].
  by rewrite list_elem_of_singleton.
Qed.

(** Per key, an event contributes at most one change: the ids stay distinct. *)
Lemma key_changes_ids pkCols pk evs :
  Forall (λ ev, NoDup (PKValues <$> halves_of pkCols ev)) evs →
  EventID <$> key_changes pkCols pk evs `sublist_of` EventID <$> evs.
Proof.
  induction 1 as [|ev evs Hev _ IH]; [done|].
  unfold key_changes. rewrite bind_cons, filter_app, fmap_app. change (EventID <$> ev :: evs) with ([EventID ev] ++ (EventID <$> evs)).
  apply sublist_app; [|exact IH].
  assert (∀ h, h ∈ halves_of pkCols ev → EventID h = EventID ev) as Hid.
  { intros h Hh. by apply halves_of_coord in Hh as (_ & _ & ?). }
  revert Hev Hid. generalize (halves_of pkCols ev). intros hs Hnd Hid.
  assert (length (filter (λ h, PKValues h = pk) hs) ≤ 1) as Hlen.
  { clear Hid. induction hs as [|h hs IHhs]; [simpl; lia|]. simpl in Hnd.
    apply NoDup_cons in Hnd as [Hni Hnd]. rewrite filter_cons. case_decide as Hpk; [|auto].
    rewrite filter_none; [simpl; lia|]. intros h' Hh' Hpk'. apply Hni.
    rewrite Hpk, <-Hpk'. by apply list_elem_of_fmap_2. }
  destruct (filter _ hs) as [|h [|]] eqn:Hf; simpl in *; [apply sublist_nil_l| |lia].
  assert (h ∈ hs) as Hh by (apply (list_elem_of_filter (λ h, PKValues h = pk)); rewrite Hf; by left).
  by rewrite (Hid h Hh).
Qed.

Lemma key_changes_NoDup pkCols pk evs :
  Forall (λ ev, NoDup (PKValues <$> halves_of pkCols ev)) evs → NoDup (EventID <$> evs) →
  NoDup (EventID <$> key_changes pkCols pk evs).
Proof. intros H Hnd. eapply sublist_NoDup; [done|by apply key_changes_ids]. Qed.

Lemma key_changes_perm pkCols pk evs evs' :
  evs ≡ₚ evs' → key_changes pkCols pk evs ≡ₚ key_changes pkCols pk evs'.
Proof. intros Hp. unfold key_changes. by rewrite Hp. Qed.

(** In binary log order, a key's last change is its latest one. *)
Lemma last_key_changes_sorted pkCols pk evs :
  has_coords evs → Forall (λ ev, NoDup (PKValues <$> halves_of pkCols ev)) evs → NoDup (EventID <$> evs) →
  last (key_changes pkCols pk (sort_by compareBinlogCoordinate evs)) = latest (key_changes pkCols pk evs).
Proof.
  intros Hc Hh Hnd. set (evs' := sort_by compareBinlogCoordinate evs).
  assert (evs' ≡ₚ evs) as Hp by apply sort_by_perm.
  rewrite last_sorted_latest; cycle 1.
  - apply key_changes_coords. unfold has_coords. by rewrite Hp.
  - apply key_changes_NoDup; by rewrite Hp.
  - pose proof (sort_by_sorted compareBinlogCoordinate evs : StronglySorted _ evs') as Hs.
    assert (Forall (λ ev, NoDup (PKValues <$> halves_of pkCols ev)) evs') as Hh' by by rewrite Hp.
    clear Hp. induction Hs as [|ev evs1 Hs IH Hev]; [constructor|].
    apply Forall_cons in Hh' as [Hh1 Hh2].
    change (ev :: evs1) with ([ev] ++ evs1). rewrite key_changes_app.
    apply StronglySorted_app. split; [|split; [|by apply IH]].
    + intros x y Hx Hy. apply elem_of_key_changes in Hx as (_ & e1 & He1 & Hx), Hy as (_ & e2 & He2 & Hy).
      apply list_elem_of_singleton in He1 as ->. rewrite Forall_forall in Hev. specialize (Hev e2 He2).
      apply halves_of_coord in Hx as (H1 & H2 & H3), Hy as (H4 & H5 & H6).
      revert Hev. unfold cmp_le, compareBinlogCoordinate. by rewrite H1, H2, H3, H4, H5, H6.
    + assert (length (key_changes pkCols pk [ev]) ≤ 1) as Hlen.
      { pose proof (sublist_length _ _ (key_changes_ids pkCols pk [ev] ltac:(by repeat constructor))) as Hl.
        rewrite !length_fmap in Hl. done. }
      destruct (key_changes pkCols pk [ev]) as [|h [|]]; simpl in Hlen; [constructor|by repeat constructor|lia].
  - apply latest_perm; [..|by apply key_changes_perm].
    + apply key_changes_coords. unfold has_coords. by rewrite Hp.
    + apply key_changes_NoDup; by rewrite Hp.
Qed.

Lemma image_through_disk ev : image (through_disk ev) = image ev.
Proof. done. Qed.

Lemma accepted_halves schema table pkCols sv pg evs :
  Forall (accepted schema table pkCols sv pg) evs →
  Forall (λ ev, NoDup (PKValues <$> halves_of pkCols ev)) (omap (current sv) evs).
Proof.
  rewrite !Forall_forall. intros H e (ev & Hev & He)%list_elem_of_omap. destruct (H ev Hev) as [_ Hok].
  eapply event_ok_keys. by apply Hok.
Qed.

(** Applying what a fold holds is replaying its events. *)
Lemma latest_replay pkCols evs t pk :
  has_coords evs → Forall (λ ev, NoDup (PKValues <$> halves_of pkCols ev)) evs → NoDup (EventID <$> evs) →
  apply_change (through_disk <$> latest (key_changes pkCols pk evs)) (t !! pk)
  = replay pkCols t (sort_by compareBinlogCoordinate evs) !! pk.
Proof.
  intros Hc Hh Hnd. rewrite replay_lookup, last_key_changes_sorted by done.
  by destruct (latest (key_changes pkCols pk evs)).
Qed.

(** ** Claims *)

(** A table [shop.orders] keyed by [id], and one of its rows. *)
Definition orders_pk : list ColumnMeta := [key_column "id"].
Definition order_row (id qty : string) : Row := {[ "id" := VNumber id; "qty" := VNumber qty ]}.

Definition orders_fold (maxRows : Z) : foldConfig := {|
  fc_Schema := "shop"; fc_Table := "orders"; fc_PKCols := orders_pk; fc_SysVersioned := None;
  fc_PG := false; fc_MaxTouchedRows := maxRows; fc_MaxChangeBytes := 0; fc_Parallelism := 1;
  fc_SpillOverBudget := true |}.

(** Row 1 moves to key 2 and key 1 is inserted again; the UPDATE that waited
    for a lock (event 2) has the earlier statement time and arrives first. *)
Definition orders_pages : list (list ResultRow) :=
  [[mk_row 2 "binlog.000001" 900 40 EventUpdate "2" (Some (order_row "2" "5")) (Some (order_row "2" "7"))];
   [mk_row 1 "binlog.000001" 500 50 EventUpdate "1" (Some (order_row "1" "5")) (Some (order_row "2" "5"));
    mk_row 3 "binlog.000001" 990 60 EventInsert "1" None (Some (order_row "1" "9"))]].

(** C9: a fold that returns holds, for every key, what replaying the window's
    events one by one in binary log order leaves of it over any starting
    table: key changes, statements that waited for a lock, page boundaries and
    changes moved to disk included. *)
Theorem foldEventWindow_replay iter fc pages err r t pk :
  (∀ m, iter m ≡ₚ map_to_list m) →
  let evs := omap (current (fc_SysVersioned fc)) (concat pages) in
  has_coords evs → NoDup (EventID <$> evs) →
  foldEventWindow iter fc pages err = inl r →
  apply_change (change_view r pk) (t !! pk)
  = replay (fc_PKCols fc) t (sort_by compareBinlogCoordinate evs) !! pk.
Proof.
  intros Hiter evs Hc Hnd Hf.
  destruct (foldEventWindow_inv iter Hiter fc pages err r Hc Hf) as (_ & Hacc & Hinv).
  rewrite (window_inv_view _ _ _ _ _ Hc Hinv). apply latest_replay; [done| |done].
  by eapply accepted_halves.
Qed.

Lemma foldEventWindow_replay_witness :
  ∃ r, foldEventWindow map_to_list (orders_fold 1) orders_pages None = inl r ∧
    apply_change (change_view r "2") None = Some (order_row "2" "7") ∧
    apply_change (change_view r "1") (Some (order_row "1" "5")) = Some (order_row "1" "9").
Proof.
  assert (∀ t pk r, foldEventWindow map_to_list (orders_fold 1) orders_pages None = inl r →
    apply_change (change_view r pk) (t !! pk)
    = replay orders_pk t (sort_by compareBinlogCoordinate (concat orders_pages)) !! pk) as H.
  { intros t pk r. apply (foldEventWindow_replay map_to_list (orders_fold 1) orders_pages None r t pk).
    - done.
    - repeat constructor.
    - dec_compute. }
  destruct (foldEventWindow map_to_list (orders_fold 1) orders_pages None) as [r|e] eqn:Hf.
  2:{ exfalso. vm_compute in Hf. discriminate Hf. }
  exists r. split; [done|]. split.
  - etransitivity; [exact (H ∅ "2" r eq_refl)|]. vm_compute. reflexivity.
  - etransitivity; [exact (H {["1" := order_row "1" "5"]} "1" r eq_refl)|]. vm_compute. reflexivity.
Defined.

(** The fold is all or nothing: with the budget unable to refuse, it
    returns exactly when no event of the window is refused by a guard (an
    unresolved TOAST marker, a key change that cannot be followed, a history
    version that cannot be read) and the fetch did not fail. *)
Theorem foldEventWindow_accepts iter fc pages err :
  (∀ m, iter m ≡ₚ map_to_list m) →
  has_coords (omap (current (fc_SysVersioned fc)) (concat pages)) →
  (fc_SpillOverBudget fc = true ∨ fc_MaxTouchedRows fc ≤ 0 ∧ fc_MaxChangeBytes fc ≤ 0)%Z →
  (∃ r, foldEventWindow iter fc pages err = inl r) ↔
  err = None ∧
  Forall (accepted (fc_Schema fc) (fc_Table fc) (fc_PKCols fc) (fc_SysVersioned fc) (fc_PG fc)) (concat pages).
Proof.
  intros Hiter Hc Hb. split.
  - intros [r Hf]. destruct (foldEventWindow_inv iter Hiter fc pages err r Hc Hf) as (-> & Hacc & _). done.
  - intros [-> Hacc]. by apply foldEventWindow_loop_total.
Qed.

Lemma foldEventWindow_accepts_witness :
  ¬ (∃ r, foldEventWindow map_to_list (orders_fold 1) orders_pages (Some "connection lost") = inl r) ∧
  (0 < 1)%Z.
Proof.
  split; [|lia]. intros H.
  apply (foldEventWindow_accepts map_to_list (orders_fold 1) orders_pages (Some "connection lost")) in H.
  - destruct H as [[=] _].
  - done.
  - repeat constructor.
  - left. reflexivity.
Defined.

(** What a fold holds does not depend on the order the events arrive in,
    on where the pages are cut, on the order a map is visited in, nor on the
    budget: a fold in memory and a spilled one hold the same change of every
    key. *)
Theorem foldEventWindow_independent iter iter' fc fc' pages pages' err err' r r' pk :
  (∀ m, iter m ≡ₚ map_to_list m) → (∀ m, iter' m ≡ₚ map_to_list m) →
  fc_PKCols fc = fc_PKCols fc' → fc_SysVersioned fc = fc_SysVersioned fc' →
  concat pages ≡ₚ concat pages' →
  has_coords (omap (current (fc_SysVersioned fc)) (concat pages)) →
  NoDup (EventID <$> omap (current (fc_SysVersioned fc)) (concat pages)) →
  foldEventWindow iter fc pages err = inl r → foldEventWindow iter' fc' pages' err' = inl r' →
  change_view r pk = change_view r' pk.
Proof.
  intros Hi Hi' Hpk Hsv Hp Hc Hnd Hf Hf'.
  assert (omap (current (fc_SysVersioned fc)) (concat pages)
    ≡ₚ omap (current (fc_SysVersioned fc')) (concat pages')) as Hpe by by rewrite Hp, Hsv.
  assert (has_coords (omap (current (fc_SysVersioned fc')) (concat pages'))) as Hc'.
  { unfold has_coords. by rewrite <-Hpe. }
  destruct (foldEventWindow_inv iter Hi fc pages err r Hc Hf) as (_ & Hacc & Hinv).
  destruct (foldEventWindow_inv iter' Hi' fc' pages' err' r' Hc' Hf') as (_ & _ & Hinv').
  rewrite (window_inv_view _ _ _ _ _ Hc Hinv), (window_inv_view _ _ _ _ _ Hc' Hinv'), <-Hpk.
  f_equal. apply latest_perm; [by apply key_changes_coords| |by apply key_changes_perm].
  apply key_changes_NoDup; [by eapply accepted_halves|done].
Qed.

Lemma foldEventWindow_independent_witness :
  ∃ r r', foldEventWindow map_to_list (orders_fold 1) orders_pages None = inl r ∧
    foldEventWindow map_to_list (orders_fold 0) [reverse (concat orders_pages)] None = inl r' ∧
    (fr_Spill r ≠ None ∧ fr_Spill r' = None) ∧ change_view r "2" = change_view r' "2".
Proof.
  destruct (foldEventWindow map_to_list (orders_fold 1) orders_pages None) as [r|e] eqn:Hf.
  2:{ exfalso. vm_compute in Hf. discriminate Hf. }
  destruct (foldEventWindow map_to_list (orders_fold 0) [reverse (concat orders_pages)] None) as [r'|e] eqn:Hf'.
  2:{ exfalso. vm_compute in Hf'. discriminate Hf'. }
  exists r, r'. split_and!; [done|done| | |].
  - vm_compute in Hf. injection Hf as <-. done.
  - vm_compute in Hf'. injection Hf' as <-. done.
  - apply (foldEventWindow_independent map_to_list map_to_list (orders_fold 1) (orders_fold 0) orders_pages
      [reverse (concat orders_pages)] None None r r' "2"); [..|exact Hf|exact Hf'].
    + intros m. reflexivity.
    + intros m. reflexivity.
    + reflexivity.
    + reflexivity.
    + rewrite List.concat_cons, app_nil_r. symmetry. apply reverse_Permutation.
    + repeat constructor.
    + dec_compute.
Defined.

(** The counts of a fold are those of the window's events (a key change
    counts once, as the UPDATE it is; an event another one overwrote counts
    too), and the dropped-column check over its image columns names exactly
    the baseline columns some row image of the window lacks. *)
Theorem foldEventWindow_counts iter fc pages err r colNames :
  (∀ m, iter m ≡ₚ map_to_list m) →
  let evs := omap (current (fc_SysVersioned fc)) (concat pages) in
  has_coords evs → foldEventWindow iter fc pages err = inl r →
  (Inserts r = count_type EventInsert evs ∧ Updates r = count_type EventUpdate evs ∧
   Deletes r = count_type EventDelete evs ∧ fr_Total r = Z.of_nat (length (concat pages))) ∧
  (∀ col, col ∈ droppedBaselineColumns (ImageColumns r) (SawImage r) colNames ↔
     col ∈ colNames ∧ ∃ img, img ∈ evs ≫= images_of ∧ img !! col = None) ∧
  StronglySorted (cmp_le String.compare) (droppedBaselineColumns (ImageColumns r) (SawImage r) colNames).
Proof.
  intros Hiter evs Hc Hf.
  destruct (foldEventWindow_inv iter Hiter fc pages err r Hc Hf) as (_ & _ & [_ Hi Hu Hd Himg Ht]).
  split; [done|]. fold evs in Himg. unfold droppedBaselineColumns. split.
  - intros col. pose proof (observe_spec (evs ≫= images_of) col) as Hspec. simpl in Hspec.
    rewrite <-Himg in Hspec. simpl in Hspec. destruct Hspec as [Hsaw Hcols].
    destruct (SawImage r); simpl.
    + rewrite sort_by_perm, list_elem_of_filter, (Hcols eq_refl). split.
      * intros [Hn Hcol]. split; [done|].
        destruct (decide (Exists (λ img, img !! col = None) (evs ≫= images_of))) as [He|He].
        -- apply Exists_exists in He as (img & ? & ?). eauto.
        -- exfalso. apply Hn. intros img Hin. apply not_eq_None_Some. intros Hnone. apply He.
           apply Exists_exists. eauto.
      * intros (Hcol & img & Hin & Hnone). split; [|done]. intros H. destruct (H img Hin) as [x Hx]. congruence.
    + split; [by intros H%not_elem_of_nil|]. intros (_ & img & Hin & _). exfalso.
      destruct (evs ≫= images_of); [by apply not_elem_of_nil in Hin|done].
  - destruct (negb (SawImage r)); [constructor|]. apply sort_by_sorted, _.
Qed.

Lemma foldEventWindow_counts_witness :
  ∃ r, foldEventWindow map_to_list (orders_fold 0) orders_pages None = inl r ∧
    (Inserts r = 1 ∧ Updates r = 2)%Z ∧
    droppedBaselineColumns (ImageColumns r) (SawImage r) ["id"; "note"] = ["note"].
Proof.
  destruct (foldEventWindow map_to_list (orders_fold 0) orders_pages None) as [r|e] eqn:Hf.
  2:{ exfalso. vm_compute in Hf. discriminate Hf. }
  exists r. split; [done|].
  destruct (foldEventWindow_counts map_to_list (orders_fold 0) orders_pages None r ["id"; "note"])
    as ((Hi & Hu & _) & _); [done|repeat constructor|exact Hf|].
  split; [split; [rewrite Hi|rewrite Hu]; vm_compute; reflexivity|].
  clear Hi Hu. vm_compute in Hf. injection Hf as <-. vm_compute. reflexivity.
Defined.

(** A window skipped as empty by position could hold no event: no event
    that ends after it starts is at or after the first bound and ends at or
    before the second one. *)
Theorem windowEmptyByPosition_sound since until ev :
  IsLSN since = false → IsLSN until = false → has_byte slash (BinlogFile ev) = false →
  windowEmptyByPosition (Some since) (Some until) = true → (StartPos ev < EndPos ev)%N →
  ¬ (AtOrBefore since (row_pos ev) = true ∧
     AtOrBefore {| File := BinlogFile ev; Pos := EndPos ev |} until = true).
Proof.
  intros Hs Hu Hev Hw Hlt [H1 H2]. simpl in Hw.
  set (e := {| File := BinlogFile ev; Pos := EndPos ev |}) in *.
  assert (IsLSN (row_pos ev) = false ∧ IsLSN e = false) as [He1 He2] by done.
  rewrite AtOrBefore_compare in Hw, H1, H2 by done.
  assert (pos_compare e (row_pos ev) ≠ Gt) as Hle.
  { apply (cmp_trans pos_compare e until); [by destruct (pos_compare e until)|].
    apply (cmp_trans pos_compare until since); [by destruct (pos_compare until since)|].
    by destruct (pos_compare since (row_pos ev)). }
  apply Hle. unfold pos_compare. simpl. rewrite Nat.compare_refl, (cmp_refl String.compare). simpl.
  by apply N.compare_gt_iff.
Qed.

Lemma windowEmptyByPosition_sound_witness :
  let ev := mk_row 1 "binlog.000002" 100 40 EventInsert "1" None None in
  windowEmptyByPosition (Some {| File := "binlog.000002"; Pos := 500 |})
    (Some {| File := "binlog.000002"; Pos := 200 |}) = true ∧
  ¬ (AtOrBefore {| File := "binlog.000002"; Pos := 500 |} (row_pos ev) = true ∧
     AtOrBefore {| File := BinlogFile ev; Pos := EndPos ev |} {| File := "binlog.000002"; Pos := 200 |} = true).
Proof.
  split; [reflexivity|]. apply windowEmptyByPosition_sound; try reflexivity.
Defined.
