(* ===== verification/FullTable.v ===== *)
(** * The full-table merge: [internal/reconstruct/fulltable.go]

    A hash join: the change map is the build side, the baseline file the
    probe side. Every baseline row is read once; a row whose key has a change
    is replaced or dropped by it, and the changes left over are the rows
    inserted since. A spilled fold is merged in passes over the groups.

    The baseline file is what DuckDB answers about it: its rows in file order,
    the row count its footer declares, and whether a column is called
    [file_row_number]. [emit] is the callback of the callers, over a state of
    their own. *)
From S2P Require Import Prelude GoStrings GoTime GoVal Event Rows Merge PkCanon Spill Fold.

Record BaselineFile := {
  bf_rows : list Row;
  bf_footer : Z;
  bf_clash : bool;
}.

Inductive MergeError :=
  | ECanon (e : PKError)
  | pkSpellingJoinErr (schema table canonical alternate : string) (evType : N)
  | EMergeBudget (e : BudgetError)
  | EFold (e : FoldError)
  | ECheckPass (text : string)
  | EEmit (text : string)
  | EReadCount (read total : Z)
  | EBeyond (beyond total : Z)
  | ENoCheckPass
  | EInMemoryBesideDisk (n : nat).

Record mergeStats := {
  BaselineRows : Z;
  UpdatesApplied : Z;
  InsertsEmitted : Z;
  DeletesSkipped : Z;
  Passes : nat;
}.

Definition zero_stats : mergeStats :=
  {| BaselineRows := 0; UpdatesApplied := 0; InsertsEmitted := 0; DeletesSkipped := 0; Passes := 0 |}.

Definition add_stats (s : mergeStats) (b u i d : Z) : mergeStats :=
  {| BaselineRows := BaselineRows s + b; UpdatesApplied := UpdatesApplied s + u;
     InsertsEmitted := InsertsEmitted s + i; DeletesSkipped := DeletesSkipped s + d; Passes := Passes s |}.

Record mergeCore := {
  mc_File : BaselineFile;
  mc_Schema : string;
  mc_Table : string;
  mc_PKCols : list ColumnMeta;
  mc_Changes : gmap string ResultRow;
  mc_Spill : option changeSpill;
  mc_CheckPass : option (gmap string ResultRow → option string);
  mc_PGTextPK : bool;
}.

Section merge.
Context (parseFixed : string → string → string + string).
Context {S : Type} (emit : S → Row → S + MergeError).
(** [scanPageRows], a package variable. *)
Context (scanPageRows : Z).

(** The row's key values as the index spells them. *)
Definition pk_map (c : mergeCore) (rowMap : Row) : Row + MergeError :=
  if mc_PGTextPK c then inl rowMap
  else match canonicalizePKMap parseFixed rowMap (mc_PKCols c) with
       | inl m => inl m
       | inr e => inr (ECanon e)
       end.

Definition owned (owns : option (gset nat)) (pk : string) : bool :=
  match owns with None => true | Some bs => bool_decide (spillBucket pk ∈ bs) end.

(** The variables of the scan: the changes left, the callback's state, the
    counters. *)
Definition scan_state : Type := gmap string ResultRow * S * mergeStats.

Definition emit_or (st : S) (row : Row) (k : S → scan_state) : scan_state + MergeError :=
  match emit st row with inl st' => inl (k st') | inr e => inr e end.

(** The body of the row loop of [scanBaselineQuery]. *)
Definition scan_row (c : mergeCore) (owns : option (gset nat)) (acc : scan_state) (rowMap : Row)
    : scan_state + MergeError :=
  let '(changes, st, stats) := acc in
  match pk_map c rowMap with
  | inr e => inr e
  | inl pkMap =>
      let pk := BuildPKValues (mc_PKCols c) pkMap in
      let clash :=
        match altFixedBinaryPK (mc_PKCols c) pkMap with
        | Some alt =>
            if owned owns alt then
              match changes !! alt with
              | Some ev => Some (pkSpellingJoinErr (mc_Schema c) (mc_Table c) pk alt (EventType ev))
              | None => None
              end
            else None
        | None => None
        end in
      match clash with
      | Some e => inr e
      | None =>
          if negb (owned owns pk) then inl acc
          else
            match changes !! pk with
            | Some ev =>
                let changes := delete pk changes in
                if (EventType ev =? EventDelete)%N then inl (changes, st, add_stats stats 0 0 0 1)
                else if (EventType ev =? EventUpdate)%N || (EventType ev =? EventInsert)%N then
                  match RowAfter ev with
                  | None => inl (changes, st, stats)
                  | Some after => emit_or st after (λ st', (changes, st', add_stats stats 0 1 0 0))
                  end
                else inl (changes, st, stats)
            | None => emit_or st rowMap (λ st', (changes, st', add_stats stats 1 0 0 0))
            end
      end
  end.

(** Returns the state and how many rows were read. *)
Fixpoint scanBaselineQuery (c : mergeCore) (owns : option (gset nat)) (rows : list Row) (acc : scan_state)
    : (scan_state * Z) + MergeError :=
  match rows with
  | [] => inl (acc, 0%Z)
  | row :: rest =>
      match scan_row c owns acc row with
      | inr e => inr e
      | inl acc' =>
          match scanBaselineQuery c owns rest acc' with
          | inl (acc'', n) => inl (acc'', n + 1)%Z
          | inr e => inr e
          end
      end
  end.

(** The page loop; [fuel] bounds the pages by the rows. *)
Fixpoint scan_pages (c : mergeCore) (owns : option (gset nat)) (fuel : nat) (lo total read : Z) (acc : scan_state)
    : (scan_state * Z) + MergeError :=
  match fuel with
  | 0 => inl (acc, read)
  | Datatypes.S fuel' =>
      if (total <=? lo)%Z then inl (acc, read)
      else
        let page := take (Z.to_nat scanPageRows) (drop (Z.to_nat lo) (bf_rows (mc_File c))) in
        match scanBaselineQuery c owns page acc with
        | inr e => inr e
        | inl (acc', n) => scan_pages c owns fuel' (lo + scanPageRows) total (read + n) acc'
        end
  end.

(** [baselineScanPages]: whether the file is read by pages. *)
Definition baselineScanPages (f : BaselineFile) : Z * bool :=
  if (scanPageRows <=? 0)%Z then (0%Z, false) else (bf_footer f, negb (bf_clash f)).

Definition scanBaselinePass (c : mergeCore) (changes : gmap string ResultRow) (owns : option (gset nat))
    (st : S) (stats : mergeStats) : scan_state + MergeError :=
  let '(total, paged) := baselineScanPages (mc_File c) in
  if negb paged then
    match scanBaselineQuery c owns (bf_rows (mc_File c)) (changes, st, stats) with
    | inl (acc, _) => inl acc
    | inr e => inr e
    end
  else
    match scan_pages c owns (Z.to_nat total) 0 total 0 (changes, st, stats) with
    | inr e => inr e
    | inl (acc, read) =>
        if negb (read =? total)%Z then inr (EReadCount read total)
        else
          let beyond := (Z.of_nat (length (bf_rows (mc_File c))) - total)%Z in
          if (0 <? beyond)%Z then inr (EBeyond beyond total) else inl acc
    end.

Fixpoint emit_leftover (pks : list string) (changes : gmap string ResultRow) (st : S) (stats : mergeStats)
    : (S * mergeStats) + MergeError :=
  match pks with
  | [] => inl (st, stats)
  | pk :: rest =>
      match changes !! pk with
      | None => emit_leftover rest changes st stats
      | Some ev =>
          if (EventType ev =? EventDelete)%N then emit_leftover rest changes st stats
          else
            match RowAfter ev with
            | None => emit_leftover rest changes st stats
            | Some after =>
                match emit st after with
                | inr e => inr e
                | inl st' => emit_leftover rest changes st' (add_stats stats 0 0 1 0)
                end
            end
      end
  end.

Definition emitLeftoverChanges (changes : gmap string ResultRow) (st : S) (stats : mergeStats)
    : (S * mergeStats) + MergeError :=
  emit_leftover (sortedKeys changes) changes st stats.

(** One scan with its leftovers. *)
Definition merge_pass (c : mergeCore) (changes : gmap string ResultRow) (owns : option (gset nat))
    (st : S) (stats : mergeStats) : (S * mergeStats) + MergeError :=
  match scanBaselinePass c changes owns st stats with
  | inr e => inr e
  | inl (changes', st', stats') => emitLeftoverChanges changes' st' stats'
  end.

Definition mergeSpilledPasses (c : mergeCore) (s : changeSpill)
    (check : gmap string ResultRow → option string) (st : S) (stats : mergeStats)
    : (S * mergeStats) + MergeError :=
  let run (ss : S * mergeStats) (pass : gmap string ResultRow) (owns : gset nat) :=
    match check pass with
    | Some text => inr (ECheckPass text)
    | None => merge_pass c pass (Some owns) ss.1 ss.2
    end in
  match eachPass EMergeBudget run s (st, stats) with
  | inr e => inr e
  | inl ((st', stats'), passes) =>
      inl (st', {| BaselineRows := BaselineRows stats'; UpdatesApplied := UpdatesApplied stats';
                   InsertsEmitted := InsertsEmitted stats'; DeletesSkipped := DeletesSkipped stats';
                   Passes := Passes stats' + passes |})
  end.

Definition mergeBaselineImages (c : mergeCore) (st : S) : (S * mergeStats) + MergeError :=
  match mc_Spill c with
  | Some s =>
      match mc_CheckPass c with
      | None => inr ENoCheckPass
      | Some check =>
          if 0 <? size (mc_Changes c) then inr (EInMemoryBesideDisk (size (mc_Changes c)))
          else mergeSpilledPasses c s check st zero_stats
      end
  | None => merge_pass c (mc_Changes c) None st zero_stats
  end.

(** The in-memory caller: [SnapshotFullTableImages]. [iter] is the order the
    change map is visited in. *)
Fixpoint checkChangesToast (entries : list (string * ResultRow)) : option ToastError :=
  match entries with
  | [] => None
  | (_, ev) :: rest =>
      match checkEventToast ev with Some e => Some e | None => checkChangesToast rest end
  end.

Definition SnapshotFullTableImages (iter : gmap string ResultRow → list (string * ResultRow))
    (c : mergeCore) (events : list ResultRow) (st : S) : S + MergeError :=
  match checkChangesToast (iter (mc_Changes c)) with
  | Some e => inr (EFold (EToast e))
  | None =>
      match pkChangingUpdateInEvents events (mc_PKCols c) with
      | Some (b, a) => inr (EFold (pkChangingUpdateErr (mc_Schema c) (mc_Table c) b a))
      | None =>
          match pkChangingUpdate (mc_Changes c) (mc_PKCols c) with
          | Some (b, a) => inr (EFold (pkChangingUpdateErr (mc_Schema c) (mc_Table c) b a))
          | None =>
              match mergeBaselineImages
                      {| mc_File := mc_File c; mc_Schema := mc_Schema c; mc_Table := mc_Table c;
                         mc_PKCols := mc_PKCols c; mc_Changes := mc_Changes c; mc_Spill := None;
                         mc_CheckPass := None; mc_PGTextPK := mc_PGTextPK c |} st with
              | inl (st', _) => inl st'
              | inr e => inr e
              end
          end
      end
  end.
End merge.

(** ** Lemmas: one pass over a keyed baseline *)

(** The callback that collects the rows. *)
Definition collect (out : list Row) (row : Row) : list Row + MergeError := inl (out ++ [row]).

Section pass.
Context (parseFixed : string → string → string + string) (scanPageRows : Z) (c : mergeCore).

(** [base] is the file's rows with their keys. *)
Definition keyed_base (base : list (string * Row)) : Prop :=
  NoDup base.*1 ∧
  ∀ k row, (k, row) ∈ base → ∃ m, pk_map parseFixed c row = inl m ∧ BuildPKValues (mc_PKCols c) m = k.

(** No change is filed under the other spelling of a baseline key. *)
Definition no_clash (changes : gmap string ResultRow) (base : list (string * Row)) : Prop :=
  ∀ k row m alt, (k, row) ∈ base → pk_map parseFixed c row = inl m →
    altFixedBinaryPK (mc_PKCols c) m = Some alt → changes !! alt = None.

(** Only row changes are in the map. *)
Definition row_changes (changes : gmap string ResultRow) : Prop :=
  ∀ k ev, changes !! k = Some ev →
    EventType ev = EventInsert ∨ EventType ev = EventUpdate ∨ EventType ev = EventDelete.

(** What a scan emits, with the keys. *)
Definition scan_out (owns : option (gset nat)) (changes : gmap string ResultRow)
    (base : list (string * Row)) : list (string * Row) :=
  omap (λ p, if owned owns p.1 then (p.1,.) <$> apply_change (changes !! p.1) (Some p.2) else None) base.

(** The baseline rows a scan drops for a DELETE. *)
Definition scan_dropped (owns : option (gset nat)) (changes : gmap string ResultRow)
    (base : list (string * Row)) : list (string * Row) :=
  filter (λ p, owned owns p.1 = true ∧
    (λ ev, EventType ev) <$> changes !! p.1 = Some EventDelete) base.

Lemma scan_out_ext owns changes changes' base :
  (∀ k, k ∈ base.*1 → changes !! k = changes' !! k) → scan_out owns changes base = scan_out owns changes' base.
Proof.
  intros H. unfold scan_out. induction base as [|[k row] base IH]; [done|]. csimpl.
  rewrite (H k) by by left. rewrite IH; [done|]. intros k' Hk'. apply H. by right.
Qed.

Lemma scan_dropped_ext owns changes changes' base :
  (∀ k, k ∈ base.*1 → changes !! k = changes' !! k) →
  scan_dropped owns changes base = scan_dropped owns changes' base.
Proof.
  intros H. apply filter_iff_in. intros [k row] Hin. simpl. rewrite (H k); [done|].
  by apply (list_elem_of_fmap_2 fst) in Hin.
Qed.

(** One row of the scan. *)
Lemma scan_row_spec owns changes out stats k row m :
  pk_map parseFixed c row = inl m → BuildPKValues (mc_PKCols c) m = k →
  (∀ alt, altFixedBinaryPK (mc_PKCols c) m = Some alt → changes !! alt = None) → row_changes changes →
  ∃ stats', scan_row parseFixed collect c owns (changes, out, stats) row =
    inl (if owned owns k then delete k changes else changes,
         out ++ (scan_out owns changes [(k, row)]).*2, stats') ∧
    (BaselineRows stats' + UpdatesApplied stats'
      = BaselineRows stats + UpdatesApplied stats + Z.of_nat (length (scan_out owns changes [(k, row)])))%Z ∧
    (DeletesSkipped stats' = DeletesSkipped stats + Z.of_nat (length (scan_dropped owns changes [(k, row)])))%Z ∧
    InsertsEmitted stats' = InsertsEmitted stats.
Proof.
  intros Hm Hk Halt Hrc. unfold scan_row. rewrite Hm, Hk. unfold scan_out, scan_dropped. csimpl.
  rewrite filter_cons, filter_nil. simpl.
  replace (match altFixedBinaryPK (mc_PKCols c) m with
           | Some alt => _ | None => None end) with (@None MergeError).
  2:{ destruct (altFixedBinaryPK (mc_PKCols c) m) as [alt|] eqn:Ha; [|done].
      rewrite (Halt alt eq_refl). by destruct (owned owns alt). }
  destruct (owned owns k) eqn:Ho; simpl.
  2:{ exists stats. rewrite app_nil_r. split_and!; [done|lia..]. }
  destruct (changes !! k) as [ev|] eqn:Hc; simpl.
  - unfold apply_change, image.
    destruct (Hrc k ev Hc) as [Ht|[Ht|Ht]]; rewrite Ht; simpl.
    1,2: destruct (RowAfter ev) as [after|]; simpl; rewrite ?app_nil_r;
      eexists; (split; [reflexivity|]); simpl; lia.
    rewrite app_nil_r. eexists. split; [reflexivity|]. simpl. lia.
  - rewrite delete_id by done.
    eexists. split; [reflexivity|]. simpl. lia.
Qed.

Lemma scan_out_cons owns changes p base :
  scan_out owns changes (p :: base) = scan_out owns changes [p] ++ scan_out owns changes base.
Proof. unfold scan_out. csimpl. by destruct (if owned owns p.1 then _ else _). Qed.

Lemma scan_dropped_cons owns changes p base :
  scan_dropped owns changes (p :: base) = scan_dropped owns changes [p] ++ scan_dropped owns changes base.
Proof. unfold scan_dropped. by rewrite <-filter_app. Qed.

Lemma scan_spec owns base changes out stats :
  keyed_base base → no_clash changes base → row_changes changes →
  ∃ changes' stats',
    scanBaselineQuery parseFixed collect c owns base.*2 (changes, out, stats) =
      inl ((changes', out ++ (scan_out owns changes base).*2, stats'), Z.of_nat (length base)) ∧
    (∀ k, changes' !! k = if decide (k ∈ base.*1 ∧ owned owns k = true) then None else changes !! k) ∧
    (BaselineRows stats' + UpdatesApplied stats'
      = BaselineRows stats + UpdatesApplied stats + Z.of_nat (length (scan_out owns changes base)))%Z ∧
    (DeletesSkipped stats' = DeletesSkipped stats + Z.of_nat (length (scan_dropped owns changes base)))%Z ∧
    InsertsEmitted stats' = InsertsEmitted stats.
Proof.
  revert changes out stats. induction base as [|[k row] base IH]; intros changes out stats [Hnd Hkey] Hclash Hrc.
  { exists changes, stats. simpl. rewrite app_nil_r. by split_and!; try lia. }
  change (((k, row) :: base).*1) with (k :: base.*1) in *. apply NoDup_cons in Hnd as [Hk Hnd].
  destruct (Hkey k row) as (m & Hm & Hb); [by left|].
  destruct (scan_row_spec owns changes out stats k row m Hm Hb) as (stats1 & Hrow & H1 & H2 & H3);
    [intros alt Ha; by apply (Hclash k row m alt); [left|..]|done|].
  change (((k, row) :: base).*2) with (row :: base.*2). cbn [scanBaselineQuery].
  rewrite Hrow. set (changes1 := if owned owns k then delete k changes else changes).
  assert (∀ k', changes1 !! k' = if decide (k' = k ∧ owned owns k = true) then None else changes !! k') as Hc1.
  { intros k'. unfold changes1. destruct (owned owns k).
    - destruct (decide (k' = k)) as [->|Hne].
      + by rewrite lookup_delete_eq, decide_True.
      + rewrite lookup_delete_ne, decide_False by naive_solver. done.
    - rewrite decide_False by naive_solver. done. }
  destruct (IH changes1 (out ++ (scan_out owns changes [(k, row)]).*2) stats1)
    as (changes' & stats' & Hs & Hl & H1' & H2' & H3').
  - split; [done|]. intros k' row' Hin. apply Hkey. by right.
  - intros k' row' m' alt Hin Hm' Ha. rewrite Hc1. destruct (decide (_ ∧ _)); [done|].
    eapply Hclash; [right; exact Hin|done..].
  - intros k' ev. rewrite Hc1. destruct (decide (_ ∧ _)); [done|]. apply Hrc.
  - assert (∀ k', k' ∈ base.*1 → changes1 !! k' = changes !! k') as Hagree.
    { intros k' Hk'. rewrite Hc1, decide_False; [done|]. intros [-> _]. done. }
    rewrite (scan_out_ext owns changes1 changes base Hagree) in Hs, H1'.
    rewrite (scan_dropped_ext owns changes1 changes base Hagree) in H2'.
    rewrite (scan_out_cons _ _ (k, row) base), (scan_dropped_cons _ _ (k, row) base), fmap_app, !length_app.
    exists changes', stats'. rewrite Hs, <-app_assoc. split_and!; [f_equal; f_equal; simpl; lia| |lia..].
    intros k'. rewrite Hl, Hc1.
    destruct (decide (k' ∈ base.*1 ∧ owned owns k' = true)) as [[Ha Hb']|Ha],
      (decide (k' = k ∧ owned owns k = true)) as [[Heq Hb'']|Hb''],
      (decide (k' ∈ k :: base.*1 ∧ owned owns k' = true)) as [[Hc Hd]|Hc]; try done.
    all: exfalso; rewrite elem_of_cons in Hc; naive_solver.
Qed.
End pass.

(** Every change but a DELETE has an after-image. *)
Definition has_images (changes : gmap string ResultRow) : Prop :=
  ∀ k ev, changes !! k = Some ev → EventType ev ≠ EventDelete → RowAfter ev ≠ None.

(** A baseline row a pass owns is put out or dropped. *)
Lemma scan_count owns changes base :
  has_images changes →
  length (scan_out owns changes base) + length (scan_dropped owns changes base)
  = length (filter (λ p, owned owns p.1 = true) base).
Proof.
  intros Himg. induction base as [|[k row] base IH]; [done|].
  unfold scan_out, scan_dropped in *. csimpl. rewrite !filter_cons. simpl.
  destruct (owned owns k) eqn:Ho; simpl; [|done].
  destruct (changes !! k) as [ev|] eqn:Hc; simpl; [|lia].
  unfold image. destruct (N.eqb_spec (EventType ev) EventDelete) as [He|He]; simpl.
  - rewrite decide_True by by rewrite He. simpl. lia.
  - rewrite decide_False by naive_solver. specialize (Himg k ev Hc He).
    destruct (RowAfter ev); [|done]. simpl. lia.
Qed.

(** ** Lemmas: paging *)

Section paging.
Context (parseFixed : string → string → string + string) {S : Type} (emit : S → Row → S + MergeError).
Context (scanPageRows : Z) (c : mergeCore) (owns : option (gset nat)).

Lemma scanBaselineQuery_app rows rows' acc :
  scanBaselineQuery parseFixed emit c owns (rows ++ rows') acc =
    match scanBaselineQuery parseFixed emit c owns rows acc with
    | inr e => inr e
    | inl (acc', n) =>
        match scanBaselineQuery parseFixed emit c owns rows' acc' with
        | inl (acc'', n') => inl (acc'', n + n')%Z
        | inr e => inr e
        end
    end.
Proof.
  revert acc. induction rows as [|row rows IH]; intros acc; simpl.
  { by destruct (scanBaselineQuery _ _ _ _ rows' acc) as [[??]|]. }
  destruct (scan_row _ _ _ _ acc row) as [acc1|e]; [|done]. rewrite IH.
  destruct (scanBaselineQuery _ _ _ _ rows acc1) as [[acc2 n]|e]; [|done].
  destruct (scanBaselineQuery _ _ _ _ rows' acc2) as [[acc3 n']|e]; [|done]. do 2 f_equal. lia.
Qed.

Lemma scanBaselineQuery_read rows acc acc' n :
  scanBaselineQuery parseFixed emit c owns rows acc = inl (acc', n) → n = Z.of_nat (length rows).
Proof.
  revert acc acc' n. induction rows as [|row rows IH]; intros acc acc' n; simpl; [by intros [= _ <-]|].
  destruct (scan_row _ _ _ _ acc row) as [acc1|e]; [|done].
  destruct (scanBaselineQuery _ _ _ _ rows acc1) as [[acc2 n']|e] eqn:H; [|done].
  apply IH in H as ->. intros [= <- <-]. lia.
Qed.

(** Reading by pages is reading in one query, for a footer that declares at
    least the rows the file holds. *)
Lemma scan_pages_eq fuel lo total read acc :
  (0 < scanPageRows)%Z → (0 ≤ lo)%Z → (Z.of_nat (length (bf_rows (mc_File c))) ≤ total)%Z →
  (total - lo ≤ Z.of_nat fuel)%Z →
  scan_pages parseFixed emit scanPageRows c owns fuel lo total read acc =
    match scanBaselineQuery parseFixed emit c owns (drop (Z.to_nat lo) (bf_rows (mc_File c))) acc with
    | inl (acc', n) => inl (acc', read + n)%Z
    | inr e => inr e
    end.
Proof.
  intros Hp. revert lo read acc. induction fuel as [|fuel IH]; intros lo read acc Hlo Hlen Hfuel; simpl.
  { rewrite drop_ge by lia. simpl. by rewrite Z.add_0_r. }
  destruct (Z.leb_spec total lo).
  { rewrite drop_ge by lia. simpl. by rewrite Z.add_0_r. }
  set (rest := drop (Z.to_nat lo) (bf_rows (mc_File c))).
  rewrite <-(take_drop (Z.to_nat scanPageRows) rest) at 2. rewrite scanBaselineQuery_app.
  destruct (scanBaselineQuery _ _ _ _ (take _ rest) acc) as [[acc1 n]|e]; [|done].
  rewrite IH by lia. unfold rest. rewrite drop_drop.
  replace (Z.to_nat lo + Z.to_nat scanPageRows) with (Z.to_nat (lo + scanPageRows)) by lia.
  destruct (scanBaselineQuery _ _ _ _ _ acc1) as [[acc2 n']|e]; [|done]. do 2 f_equal. lia.
Qed.

(** A pass that returns has read every row of the file, once each. *)
Lemma scanBaselinePass_full changes st stats acc :
  scanBaselinePass parseFixed emit scanPageRows c changes owns st stats = inl acc ↔
  scanBaselineQuery parseFixed emit c owns (bf_rows (mc_File c)) (changes, st, stats)
    = inl (acc, Z.of_nat (length (bf_rows (mc_File c)))) ∧
  ((baselineScanPages scanPageRows (mc_File c)).2 = true →
     bf_footer (mc_File c) = Z.of_nat (length (bf_rows (mc_File c)))).
Proof.
  unfold scanBaselinePass, baselineScanPages.
  set (len := Z.of_nat (length (bf_rows (mc_File c)))).
  set (q := scanBaselineQuery parseFixed emit c owns (bf_rows (mc_File c)) (changes, st, stats)).
  assert (∀ a n, q = inl (a, n) → n = len) as Hq by (intros a n H; by eapply scanBaselineQuery_read).
  destruct (Z.leb_spec scanPageRows 0); simpl.
  { destruct q as [[a n]|e]; [|split; [done|by intros [? _]]].
    rewrite (Hq a n eq_refl). split; [intros [= <-]; done|by intros [[= <-] _]]. }
  destruct (bf_clash (mc_File c)); simpl.
  { destruct q as [[a n]|e]; [|split; [done|by intros [? _]]].
    rewrite (Hq a n eq_refl). split; [intros [= <-]; done|by intros [[= <-] _]]. }
  destruct (Z.leb_spec len (bf_footer (mc_File c))) as [Hle|Hgt].
  - rewrite scan_pages_eq by (unfold len in *; lia). change (Z.to_nat 0) with 0. rewrite drop_0. fold q.
    destruct q as [[a n]|e]; [|split; [done|by intros [? _]]]. rewrite (Hq a n eq_refl), Z.add_0_l.
    destruct (Z.eqb_spec len (bf_footer (mc_File c))) as [Heq|Hne]; simpl.
    + rewrite (proj2 (Z.ltb_ge _ _)) by lia. split; [intros [=]; subst; auto|intros [[=] _]; by subst].
    + split; [done|]. intros [_ Hf]. specialize (Hf eq_refl). lia.
  - split; [|intros [_ Hf]; specialize (Hf eq_refl); lia].
    destruct (scan_pages _ _ _ _ _ _ _ _ _ _) as [[a read]|e]; [|done].
    destruct (Z.eqb_spec read (bf_footer (mc_File c))); simpl; [|done].
    rewrite (proj2 (Z.ltb_lt _ _)) by (unfold len in *; lia). done.
Qed.
End paging.

(** ** Lemmas: what a pass puts out *)

(** The merged table: per key, the change if there is one, else the row. *)
Definition merged (changes : string → option ResultRow) (base : gmap string Row) (k : string) : option Row :=
  apply_change (changes k) (base !! k).

Section pass_out.
Context (parseFixed : string → string → string + string) (scanPageRows : Z) (c : mergeCore).
Context (base : list (string * Row)).
Context (Hfile : bf_rows (mc_File c) = base.*2).
Context (Hfooter : bf_footer (mc_File c) = Z.of_nat (length base)).
Context (Hbase : keyed_base parseFixed c base).

Definition leftover_out (changes : gmap string ResultRow) : list (string * Row) :=
  omap (λ k, (k,.) <$> (changes !! k ≫= image)) (sortedKeys changes).

Lemma emit_leftover_spec pks changes out stats :
  ∃ stats', emit_leftover collect pks changes out stats
      = inl (out ++ (omap (λ k, (k,.) <$> (changes !! k ≫= image)) pks).*2, stats') ∧
    (InsertsEmitted stats' = InsertsEmitted stats
       + Z.of_nat (length (omap (λ k, (k,.) <$> (changes !! k ≫= image)) pks)))%Z ∧
    BaselineRows stats' = BaselineRows stats ∧ UpdatesApplied stats' = UpdatesApplied stats ∧
    DeletesSkipped stats' = DeletesSkipped stats.
Proof.
  revert out stats. induction pks as [|pk pks IH]; intros out stats; csimpl.
  { exists stats. rewrite app_nil_r. split_and!; try done. lia. }
  destruct (changes !! pk) as [ev|]; csimpl; [|apply IH].
  destruct (EventType ev =? EventDelete)%N eqn:Ht.
  { assert (image ev = None) as -> by (unfold image; by rewrite Ht). apply IH. }
  assert (image ev = RowAfter ev) as -> by (unfold image; by rewrite Ht).
  destruct (RowAfter ev) as [after|]; csimpl; [|apply IH].
  destruct (IH (out ++ [after]) (add_stats stats 0 0 1 0)) as (stats' & -> & H1 & H2 & H3 & H4).
  exists stats'. rewrite <-app_assoc. split_and!; simpl in *; [done|lia..].
Qed.

Lemma base_lookup k row : (list_to_map base : gmap string Row) !! k = Some row ↔ (k, row) ∈ base.
Proof. symmetry. apply elem_of_list_to_map. apply Hbase. Qed.

Lemma elem_of_scan_out owns changes k row :
  (k, row) ∈ scan_out owns changes base ↔
  owned owns k = true ∧ k ∈ base.*1 ∧
  apply_change (changes !! k) ((list_to_map base : gmap string Row) !! k) = Some row.
Proof.
  unfold scan_out. rewrite list_elem_of_omap. split.
  - intros ([k' r] & Hin & H). simpl in H. destruct (owned owns k') eqn:Ho; [|done].
    apply fmap_Some in H as (row' & Hrow & [= -> ->]). split; [done|].
    split; [by apply (list_elem_of_fmap_2 fst) in Hin|]. by apply base_lookup in Hin as ->.
  - intros (Ho & Hk & Ha). apply list_elem_of_fmap in Hk as ([k' r] & -> & Hin). simpl in *.
    exists (k', r). split; [done|]. simpl. rewrite Ho. apply base_lookup in Hin. rewrite Hin in Ha. by rewrite Ha.
Qed.

Lemma scan_out_keys owns changes : (scan_out owns changes base).*1 `sublist_of` base.*1.
Proof.
  unfold scan_out. clear. induction base as [|[k row] l IH]; [done|]. csimpl.
  destruct (owned owns k); [|by constructor].
  destruct (apply_change _ _); csimpl; by constructor.
Qed.

Lemma leftover_keys (changes : gmap string ResultRow) : (leftover_out changes).*1 `sublist_of` sortedKeys changes.
Proof.
  unfold leftover_out. induction (sortedKeys changes) as [|k l IH]; [done|]. csimpl.
  destruct (changes !! k ≫= image); csimpl; by constructor.
Qed.

Lemma elem_of_leftover (changes : gmap string ResultRow) k row :
  (k, row) ∈ leftover_out changes ↔ changes !! k ≫= image = Some row.
Proof.
  unfold leftover_out. rewrite list_elem_of_omap. split.
  - intros (k' & Hk & (r & Hr & [= -> ->])%fmap_Some). done.
  - intros H. exists k. split; [|by rewrite H]. apply elem_of_sortedKeys.
    destruct (changes !! k); [eauto|done].
Qed.

(** The rows of one pass with their keys: those of the scan, then the
    leftovers. The changes of a pass are of the keys it owns. *)
Lemma merge_pass_spec changes owns out stats :
  no_clash parseFixed c changes base → row_changes changes →
  (∀ k, changes !! k ≠ None → owned owns k = true) →
  ∃ L stats', merge_pass parseFixed collect scanPageRows c changes owns out stats = inl (out ++ L.*2, stats') ∧
    NoDup L.*1 ∧
    (∀ k row, (k, row) ∈ L ↔
      owned owns k = true ∧
      apply_change (changes !! k) ((list_to_map base : gmap string Row) !! k) = Some row) ∧
    (BaselineRows stats' + UpdatesApplied stats' + InsertsEmitted stats'
      = BaselineRows stats + UpdatesApplied stats + InsertsEmitted stats + Z.of_nat (length L))%Z ∧
    (has_images changes →
      BaselineRows stats' + UpdatesApplied stats' + DeletesSkipped stats'
      = BaselineRows stats + UpdatesApplied stats + DeletesSkipped stats
        + Z.of_nat (length (filter (λ p, owned owns p.1 = true) base)))%Z.
Proof.
  intros Hclash Hrc Hown.
  destruct (scan_spec parseFixed c owns base changes out stats Hbase Hclash Hrc)
    as (changes1 & stats1 & Hs & Hc1 & H1 & H2 & H3).
  assert (scanBaselinePass parseFixed collect scanPageRows c changes owns out stats
    = inl (changes1, out ++ (scan_out owns changes base).*2, stats1)) as Hpass.
  { apply scanBaselinePass_full. rewrite Hfile, length_fmap. done. }
  destruct (emit_leftover_spec (sortedKeys changes1) changes1
    (out ++ (scan_out owns changes base).*2) stats1) as (stats2 & He & H4 & H5 & H6 & H7).
  exists (scan_out owns changes base ++ leftover_out changes1), stats2.
  assert (∀ k, changes1 !! k ≠ None → k ∉ base.*1) as Hdisj.
  { intros k Hk Hin. rewrite Hc1 in Hk. destruct (decide (_ ∧ _)) as [|Hn]; [done|]. apply Hn. auto. }
  assert (∀ k row, (k, row) ∈ leftover_out changes1 → changes1 !! k ≠ None) as Hleft.
  { intros k row. rewrite elem_of_leftover. by destruct (changes1 !! k). }
  split_and!.
  - unfold merge_pass. rewrite Hpass. unfold emitLeftoverChanges. rewrite He, <-app_assoc, <-fmap_app. done.
  - rewrite fmap_app. apply NoDup_app. split_and!.
    + eapply sublist_NoDup; [apply Hbase|apply scan_out_keys].
    + intros k Hk1 Hk2. apply list_elem_of_fmap in Hk2 as ([k' row] & -> & Hk2).
      eapply Hdisj; [by eapply Hleft|]. eapply elem_of_sublist; [exact Hk1|]. apply scan_out_keys.
    + eapply sublist_NoDup; [apply (sortedKeys_NoDup changes1)|apply leftover_keys].
  - intros k row. rewrite elem_of_app, elem_of_scan_out. split.
    + intros [(Ho & Hk & Ha)|Hl]; [done|]. pose proof (Hleft _ _ Hl) as Hk1.
      apply elem_of_leftover in Hl. pose proof (Hdisj _ Hk1) as Hni. rewrite Hc1 in Hk1, Hl.
      rewrite decide_False in Hk1, Hl by tauto. split; [by apply Hown|].
      by destruct (changes !! k).
    + intros [Ho Ha]. destruct (decide (k ∈ base.*1)) as [Hin|Hni]; [by left|right].
      apply elem_of_leftover. rewrite Hc1, decide_False by tauto.
      assert ((list_to_map base : gmap string Row) !! k = None) as Hn by by apply not_elem_of_list_to_map.
      rewrite Hn in Ha. by destruct (changes !! k).
  - rewrite length_app. unfold leftover_out. lia.
  - intros Himg. rewrite <-(scan_count owns changes base Himg). lia.
Qed.
End pass_out.

(** ** Lemmas: the merge *)

Lemma keyed_list_perm (L : list (string * Row)) (t : gmap string Row) :
  NoDup L.*1 → (∀ k row, (k, row) ∈ L ↔ t !! k = Some row) → L.*2 ≡ₚ (map_to_list t).*2.
Proof.
  intros Hnd Hin. apply fmap_Permutation, NoDup_Permutation.
  - by eapply NoDup_fmap_1.
  - apply NoDup_map_to_list.
  - intros [k row]. by rewrite Hin, elem_of_map_to_list.
Qed.

(** What the keys of a spill read back as holds only row changes, and none
    under the other spelling of a baseline key. *)
Section spilled.
Context (parseFixed : string → string → string + string) (scanPageRows : Z) (c : mergeCore).
Context (base : list (string * Row)) (s : changeSpill).
Context (Hfile : bf_rows (mc_File c) = base.*2).
Context (Hfooter : bf_footer (mc_File c) = Z.of_nat (length base)).
Context (Hbase : keyed_base parseFixed c base).
Context (Hclash : ∀ k row m alt, (k, row) ∈ base → pk_map parseFixed c row = inl m →
  altFixedBinaryPK (mc_PKCols c) m = Some alt → spill_view s alt = None).
Context (Hrc : ∀ k ev, spill_view s k = Some ev →
  EventType ev = EventInsert ∨ EventType ev = EventUpdate ∨ EventType ev = EventDelete).

Definition view_images : Prop :=
  ∀ k ev, spill_view s k = Some ev → EventType ev ≠ EventDelete → RowAfter ev ≠ None.

Lemma pass_merge_spec p out stats :
  pass_ok s p →
  ∃ L stats', merge_pass parseFixed collect scanPageRows c p.1 (Some p.2) out stats = inl (out ++ L.*2, stats') ∧
    NoDup L.*1 ∧
    (∀ k row, (k, row) ∈ L ↔ spillBucket k ∈ p.2 ∧
      apply_change (spill_view s k) ((list_to_map base : gmap string Row) !! k) = Some row) ∧
    (BaselineRows stats' + UpdatesApplied stats' + InsertsEmitted stats'
      = BaselineRows stats + UpdatesApplied stats + InsertsEmitted stats + Z.of_nat (length L))%Z ∧
    (view_images →
      BaselineRows stats' + UpdatesApplied stats' + DeletesSkipped stats'
      = BaselineRows stats + UpdatesApplied stats + DeletesSkipped stats
        + Z.of_nat (length (filter (λ q, spillBucket q.1 ∈ p.2) base)))%Z.
Proof.
  intros Hok.
  destruct (merge_pass_spec parseFixed scanPageRows c base Hfile Hfooter Hbase p.1 (Some p.2) out stats)
    as (L & stats' & H1 & H2 & H3 & H4 & H5).
  - intros k row m alt Hin Hm Ha. rewrite (Hok alt). case_decide; [by eapply Hclash|done].
  - intros k ev. rewrite (Hok k). case_decide; [apply Hrc|done].
  - intros k. rewrite (Hok k). simpl. intros Hk. apply bool_decide_eq_true_2. by case_decide.
  - exists L, stats'. split_and!; try done.
    + intros k row. rewrite H3. simpl. rewrite bool_decide_eq_true, (Hok k).
      split; intros [Hb Ha]; (split; [done|]); by rewrite decide_True in * by done.
    + intros Himg. rewrite H5.
      * do 3 f_equal. apply filter_iff_in. intros [k row] _. apply bool_decide_eq_true.
      * intros k ev. rewrite (Hok k). case_decide; [apply Himg|done].
Qed.

Lemma run_passes_merge check ps out stats :
  (∀ m, check m = None) → Forall (pass_ok s) ps → NoDup (concat ((λ p, elements p.2) <$> ps)) →
  ∃ L stats', run_passes (λ (ss : list Row * mergeStats) pass owns,
      match check pass with
      | Some text => inr (ECheckPass text)
      | None => merge_pass parseFixed collect scanPageRows c pass (Some owns) ss.1 ss.2
      end) ps (out, stats) = inl (out ++ L.*2, stats') ∧
    NoDup L.*1 ∧
    (∀ k row, (k, row) ∈ L ↔ spillBucket k ∈ concat ((λ p, elements p.2) <$> ps) ∧
      apply_change (spill_view s k) ((list_to_map base : gmap string Row) !! k) = Some row) ∧
    (BaselineRows stats' + UpdatesApplied stats' + InsertsEmitted stats'
      = BaselineRows stats + UpdatesApplied stats + InsertsEmitted stats + Z.of_nat (length L))%Z ∧
    (view_images →
      BaselineRows stats' + UpdatesApplied stats' + DeletesSkipped stats'
      = BaselineRows stats + UpdatesApplied stats + DeletesSkipped stats
        + Z.of_nat (length (filter (λ q, spillBucket q.1 ∈ concat ((λ p, elements p.2) <$> ps)) base)))%Z.
Proof.
  intros Hcheck. revert out stats. induction ps as [|p ps IH]; intros out stats Hok Hnd.
  { exists [], stats. simpl. rewrite app_nil_r. split_and!; [done|constructor| |lia|].
    - intros k row. split; [by intros ?%not_elem_of_nil|by intros [?%not_elem_of_nil _]].
    - intros _. rewrite filter_none; [simpl; lia|]. by intros [k row] _ ?%not_elem_of_nil. }
  apply Forall_cons in Hok as [Hp Hok]. simpl in Hnd. apply NoDup_app in Hnd as (_ & Hdisj & Hnd).
  destruct (pass_merge_spec p out stats Hp) as (L1 & stats1 & H1 & H2 & H3 & H4 & H5).
  destruct (IH (out ++ L1.*2) stats1 Hok Hnd) as (L2 & stats2 & H1' & H2' & H3' & H4' & H5').
  exists (L1 ++ L2), stats2. split_and!.
  - destruct p as [m owns]. simpl in *. rewrite Hcheck. simpl. rewrite H1, H1', fmap_app, app_assoc. done.
  - rewrite fmap_app. apply NoDup_app. split_and!; [done| |done].
    intros k Hk1 Hk2. apply list_elem_of_fmap in Hk1 as ([k1 r1] & -> & Hk1), Hk2 as ([k2 r2] & Heq & Hk2).
    simpl in Heq. subst k2. apply H3 in Hk1 as [Hb1 _]. apply H3' in Hk2 as [Hb2 _].
    apply (Hdisj (spillBucket k1)); [by apply elem_of_elements|done].
  - intros k row. rewrite elem_of_app, H3, H3'. simpl. rewrite elem_of_app, elem_of_elements. tauto.
  - rewrite length_app. lia.
  - intros Himg. rewrite (H5' Himg), (H5 Himg).
    rewrite (filter_length_disjoint (λ q : string * Row, spillBucket q.1 ∈ p.2)
      (λ q, spillBucket q.1 ∈ concat ((λ p, elements p.2) <$> ps))
      (λ q, spillBucket q.1 ∈ concat ((λ p, elements p.2) <$> p :: ps))); [lia| |].
    + intros q Hq1 Hq2. by apply (Hdisj (spillBucket q.1)); [apply elem_of_elements|].
    + intros q. simpl. by rewrite elem_of_app, elem_of_elements.
Qed.

Lemma mergeSpilledPasses_spec check out :
  (∀ m, check m = None) → spill_wf s → (∀ b, b < spillBuckets → ∃ m, load s b = inl m) →
  ∃ L stats', mergeSpilledPasses parseFixed collect scanPageRows c s check out zero_stats
      = inl (out ++ L.*2, stats') ∧
    NoDup L.*1 ∧
    (∀ k row, (k, row) ∈ L ↔
      apply_change (spill_view s k) ((list_to_map base : gmap string Row) !! k) = Some row) ∧
    (BaselineRows stats' + UpdatesApplied stats' + InsertsEmitted stats' = Z.of_nat (length L))%Z ∧
    (view_images →
      BaselineRows stats' + UpdatesApplied stats' + DeletesSkipped stats' = Z.of_nat (length base))%Z.
Proof.
  intros Hcheck Hwf Hload. unfold mergeSpilledPasses.
  set (run := λ (ss : list Row * mergeStats) pass owns, _).
  destruct (eachPass_spec EMergeBudget run s (out, zero_stats) Hwf Hload) as (ps & Hok & Hp & ->).
  destruct (run_passes_merge check ps out zero_stats Hcheck Hok) as (L & stats' & H1 & H2 & H3 & H4 & H5).
  { rewrite Hp. apply NoDup_seq. }
  fold run in H1. rewrite H1. eexists L, _. split; [reflexivity|].
  assert (∀ k, spillBucket k ∈ concat ((λ p, elements p.2) <$> ps)) as Hall.
  { intros k. rewrite Hp, elem_of_seq. pose proof (spillBucket_lt k). lia. }
  split_and!; [done| |simpl in *; lia|].
  - intros k row. rewrite H3. split; [tauto|]. intros H'. by split.
  - intros Himg. specialize (H5 Himg). rewrite filter_all in H5 by (intros; apply Hall). simpl in *. lia.
Qed.
End spilled.

(** ** Fold, then merge *)

(** The merge a fold's result is handed to ([mergeBaselineIntoWriter]). *)
Definition merge_input (fc : foldConfig) (r : foldResult) (file : BaselineFile)
    (check : gmap string ResultRow → option string) : mergeCore := {|
  mc_File := file; mc_Schema := fc_Schema fc; mc_Table := fc_Table fc; mc_PKCols := fc_PKCols fc;
  mc_Changes := Changes r; mc_Spill := fr_Spill r; mc_CheckPass := Some check; mc_PGTextPK := fc_PG fc |}.

Definition row_event (ev : ResultRow) : Prop :=
  EventType ev = EventInsert ∨ EventType ev = EventUpdate ∨ EventType ev = EventDelete.

#[export] Instance row_event_dec ev : Decision (row_event ev).
Proof. unfold row_event. apply _. Defined.

Lemma key_changes_rows pkCols pk evs ev :
  Forall row_event evs → latest (key_changes pkCols pk evs) = Some ev → row_event ev.
Proof.
  intros Hr Hl. apply latest_elem, elem_of_key_changes in Hl as (_ & e & He & Hh).
  rewrite Forall_forall in Hr. specialize (Hr e He). revert Hh. unfold halves_of.
  destruct (pkChangedInEvent e pkCols) as [[b a]|].
  - intros [->|[->|[]%not_elem_of_nil]%elem_of_cons]%elem_of_cons; unfold row_event; simpl; auto.
  - intros ->%list_elem_of_singleton. done.
Qed.

(** A spilled fold ends with an empty map. *)
Lemma foldEventWindow_spilled iter fc pages err r s :
  foldEventWindow iter fc pages err = inl r → fr_Spill r = Some s → Changes r = ∅.
Proof.
  unfold foldEventWindow. assert (fr_Spill empty_fold = None ∨ Changes empty_fold = ∅) as H0 by by left.
  revert H0. generalize empty_fold. induction pages as [|page pages IH]; intros r0 H0; simpl.
  { destruct err; [done|]. intros [= <-] Hs. destruct H0; congruence. }
  destruct (fold_page_fn iter fc r0 page) as [r1|e] eqn:Hf; [|done]. apply IH. revert Hf.
  unfold fold_page_fn. case_match; [by intros [= <-]|].
  destruct (foldPage _ _ _ _ _ _ _) as [[r2 t2]|e]; [|done].
  unfold admit_page. destruct (fr_Spill r2) as [s2|] eqn:Hs2.
  { intros [= <-]. by right. }
  destruct (negb _ && _); [intros [= <-]; by left|]. destruct (fc_SpillOverBudget fc); simpl; [|done].
  intros [= <-]. by right.
Qed.

(** One statement for both ways of the merge: the output is the rows of
    "the changes over the baseline". *)
Lemma merge_input_spec parseFixed scanPageRows fc r file check base (t : gmap string Row) :
  let c := merge_input fc r file check in
  bf_rows file = base.*2 → bf_footer file = Z.of_nat (length base) → keyed_base parseFixed c base →
  (∀ k row m alt, (k, row) ∈ base → pk_map parseFixed c row = inl m →
     altFixedBinaryPK (fc_PKCols fc) m = Some alt → change_view r alt = None) →
  (∀ k ev, change_view r k = Some ev → row_event ev) →
  (∀ m, check m = None) →
  match fr_Spill r with
  | None => True
  | Some s => Changes r = ∅ ∧ spill_wf s ∧ ∀ b, b < spillBuckets → ∃ m, load s b = inl m
  end →
  (∀ k, apply_change (change_view r k) ((list_to_map base : gmap string Row) !! k) = t !! k) →
  ∃ out stats, mergeBaselineImages parseFixed collect scanPageRows c [] = inl (out, stats) ∧
    out ≡ₚ (map_to_list t).*2 ∧
    (BaselineRows stats + UpdatesApplied stats + InsertsEmitted stats = Z.of_nat (length out))%Z ∧
    ((∀ k ev, change_view r k = Some ev → EventType ev ≠ EventDelete → RowAfter ev ≠ None) →
     BaselineRows stats + UpdatesApplied stats + DeletesSkipped stats = Z.of_nat (length base))%Z.
Proof.
  intros c Hfile Hfooter Hbase Hclash Hrc Hcheck Hspill Ht. unfold mergeBaselineImages.
  change (mc_Spill c) with (fr_Spill r). destruct (fr_Spill r) as [s|] eqn:Hs.
  - destruct Hspill as (Hempty & Hwf & Hload).
    assert (∀ k, change_view r k = spill_view s k) as Hview.
    { intros k. unfold change_view. by rewrite Hs, Hempty, lookup_empty. }
    simpl. rewrite Hempty, map_size_empty. simpl.
    destruct (mergeSpilledPasses_spec parseFixed scanPageRows c base s Hfile Hfooter Hbase) with (check := check) (out := [] : list Row)
      as (L & stats & -> & Hnd & Hin & Hcount & Hcount'); [|by intros k ev; rewrite <-Hview; apply Hrc|done..|].
    { intros k row m alt H1 H2 H3. rewrite <-Hview. by eapply Hclash. }
    exists L.*2, stats. split; [done|]. split_and!; [|by rewrite length_fmap|].
    + apply keyed_list_perm; [done|]. intros k row. by rewrite Hin, <-Ht, Hview.
    + intros Himg. apply Hcount'. intros k ev. rewrite <-Hview. apply Himg.
  - assert (∀ k, change_view r k = through_disk <$> Changes r !! k) as Hview.
    { intros k. unfold change_view. by rewrite Hs. }
    destruct (merge_pass_spec parseFixed scanPageRows c base Hfile Hfooter Hbase (Changes r) None [] zero_stats)
      as (L & stats & Hm & Hnd & Hin & Hcount & Hcount').
    + intros k row m alt H1 H2 H3. specialize (Hclash k row m alt H1 H2 H3). rewrite Hview in Hclash.
      by destruct (Changes r !! alt).
    + intros k ev Hk. apply (Hrc k (through_disk ev)). by rewrite Hview, Hk.
    + done.
    + exists L.*2, stats. split; [exact Hm|]. split_and!; [|rewrite length_fmap; simpl in Hcount; lia|].
      * apply keyed_list_perm; [done|]. intros k row. rewrite Hin, <-Ht, Hview.
        destruct (Changes r !! k); simpl; tauto.
      * intros Himg. rewrite filter_all in Hcount' by done. simpl in Hcount'. apply Hcount'.
        intros k ev Hk. apply (Himg k (through_disk ev)). by rewrite Hview, Hk.
Qed.

(** A fold of the window merged over the baseline. *)
Lemma reconstruct_spec parseFixed scanPageRows iter fc pages err r file check base :
  (∀ m, iter m ≡ₚ map_to_list m) →
  let evs := omap (current (fc_SysVersioned fc)) (concat pages) in
  let c := merge_input fc r file check in
  let t := list_to_map base : gmap string Row in
  has_coords evs → NoDup (EventID <$> evs) → Forall row_event evs →
  foldEventWindow iter fc pages err = inl r →
  bf_rows file = base.*2 → bf_footer file = Z.of_nat (length base) → keyed_base parseFixed c base →
  (∀ k row m alt, (k, row) ∈ base → pk_map parseFixed c row = inl m →
     altFixedBinaryPK (fc_PKCols fc) m = Some alt → change_view r alt = None) →
  (∀ m, check m = None) →
  (∀ s, fr_Spill r = Some s → ∀ b, b < spillBuckets → ∃ m, load s b = inl m) →
  ∃ out stats, mergeBaselineImages parseFixed collect scanPageRows c [] = inl (out, stats) ∧
    out ≡ₚ (map_to_list (replay (fc_PKCols fc) t (sort_by compareBinlogCoordinate evs))).*2 ∧
    (BaselineRows stats + UpdatesApplied stats + InsertsEmitted stats = Z.of_nat (length out))%Z ∧
    ((∀ k ev, change_view r k = Some ev → EventType ev ≠ EventDelete → RowAfter ev ≠ None) →
     BaselineRows stats + UpdatesApplied stats + DeletesSkipped stats = Z.of_nat (length base))%Z.
Proof.
  intros Hiter evs c t Hc Hnd Hrows Hf Hfile Hfooter Hbase Hclash Hcheck Hload.
  destruct (foldEventWindow_inv iter Hiter fc pages err r Hc Hf) as (_ & Hacc & Hinv).
  assert (∀ k, change_view r k = through_disk <$> latest (key_changes (fc_PKCols fc) k evs)) as Hview
    by (intros k; by apply (window_inv_view _ _ _ _ _ Hc Hinv)).
  apply merge_input_spec with (base := base); try done.
  - intros k ev. rewrite Hview. intros (e & He & ->)%fmap_Some. by apply (key_changes_rows _ _ _ _ Hrows) in He.
  - destruct (fr_Spill r) as [s|] eqn:Hs; [|done]. split; [by eapply foldEventWindow_spilled|].
    split; [|by apply Hload]. destruct Hinv as [(evs1 & evs2 & _ & _ & Hsp) _ _ _ _ _]. rewrite Hs in Hsp. apply Hsp.
  - intros k. rewrite Hview. apply latest_replay; [done| |done]. by eapply accepted_halves.
Qed.

(** ** Claims *)

(** C1: reconstructing a table is replaying its log: a fold of the window
    merged over the baseline emits, up to order, exactly the rows that the
    baseline table holds after the window's events are applied one by one in
    binary log order. It holds for a merge in memory and for one in passes
    from disk; the baseline file's rows have distinct keys and its footer
    declares them, no change is filed under the other spelling of a baseline
    key (the merge refuses that), and the groups fit the budget. *)
Theorem reconstruct_replays parseFixed scanPageRows iter fc pages err r file check base :
  (∀ m, iter m ≡ₚ map_to_list m) →
  let evs := omap (current (fc_SysVersioned fc)) (concat pages) in
  let c := merge_input fc r file check in
  let t := list_to_map base : gmap string Row in
  has_coords evs → NoDup (EventID <$> evs) → Forall row_event evs →
  foldEventWindow iter fc pages err = inl r →
  bf_rows file = base.*2 → bf_footer file = Z.of_nat (length base) → keyed_base parseFixed c base →
  (∀ k row m alt, (k, row) ∈ base → pk_map parseFixed c row = inl m →
     altFixedBinaryPK (fc_PKCols fc) m = Some alt → change_view r alt = None) →
  (∀ m, check m = None) →
  (∀ s, fr_Spill r = Some s → ∀ b, b < spillBuckets → ∃ m, load s b = inl m) →
  ∃ out stats, mergeBaselineImages parseFixed collect scanPageRows c [] = inl (out, stats) ∧
    out ≡ₚ (map_to_list (replay (fc_PKCols fc) t (sort_by compareBinlogCoordinate evs))).*2 ∧
    (BaselineRows stats + UpdatesApplied stats + InsertsEmitted stats = Z.of_nat (length out))%Z.
Proof.
  intros Hiter evs c t Hc Hnd Hrows Hf Hfile Hfooter Hbase Hclash Hcheck Hload.
  destruct (reconstruct_spec parseFixed scanPageRows iter fc pages err r file check base Hiter Hc Hnd Hrows Hf
    Hfile Hfooter Hbase Hclash Hcheck Hload) as (out & stats & H1 & H2 & H3 & _). eauto.
Qed.

(** A baseline of [shop.orders] with one row. *)
Definition orders_column : ColumnMeta := {|
  Name := "id"; OrdinalPosition := 1; IsPK := true; DataType := "int"; ColumnType := "int";
  IsGenerated := false; CharacterSet := ""; IsNullable := "NO"; IsIdentityAlways := false |}.

Definition orders_config (maxRows : Z) : foldConfig := {|
  fc_Schema := "shop"; fc_Table := "orders"; fc_PKCols := [orders_column]; fc_SysVersioned := None;
  fc_PG := false; fc_MaxTouchedRows := maxRows; fc_MaxChangeBytes := 0; fc_Parallelism := 1;
  fc_SpillOverBudget := true |}.

Definition orders_base : list (string * Row) := [("1", order_row "1" "5"); ("3", order_row "3" "1")].

Definition orders_file : BaselineFile :=
  {| bf_rows := orders_base.*2; bf_footer := 2; bf_clash := false |}.

Definition no_parser : string → string → string + string := λ _ _, inr "no parser".

Lemma orders_keyed r : keyed_base no_parser (merge_input (orders_config 1) r orders_file (λ _, None)) orders_base.
Proof.
  split; [dec_compute|]. intros k row Hin. unfold orders_base in Hin.
  apply elem_of_cons in Hin as [[= -> ->]|Hin]; [|apply list_elem_of_singleton in Hin as [= -> ->]];
    eexists; (split; [vm_compute; reflexivity|vm_compute; reflexivity]).
Qed.

Lemma orders_load r s b :
  foldEventWindow map_to_list (orders_config 1) orders_pages None = inl r → fr_Spill r = Some s →
  b < spillBuckets → ∃ m, load s b = inl m.
Proof.
  intros Hf Hs Hb.
  assert (forallb (λ b, match load s b with inl _ => true | inr _ => false end) (seq 0 spillBuckets) = true) as Hl.
  { vm_compute in Hf. injection Hf as <-. simpl in Hs. injection Hs as <-. vm_compute. reflexivity. }
  rewrite forallb_forall in Hl. specialize (Hl b (proj2 (in_seq _ _ _) (conj (Nat.le_0_l b) Hb))).
  destruct (load s b) as [m|]; [eauto|discriminate Hl].
Qed.

Lemma orders_folds : ∃ r, foldEventWindow map_to_list (orders_config 1) orders_pages None = inl r.
Proof.
  destruct (foldEventWindow map_to_list (orders_config 1) orders_pages None) as [r|e] eqn:Hf; [by exists r|].
  exfalso. vm_compute in Hf. discriminate Hf.
Qed.

Lemma reconstruct_replays_witness :
  ∃ r out stats, foldEventWindow map_to_list (orders_config 1) orders_pages None = inl r ∧
    mergeBaselineImages no_parser collect 1 (merge_input (orders_config 1) r orders_file (λ _, None)) []
      = inl (out, stats) ∧
    out ≡ₚ [order_row "1" "9"; order_row "2" "7"; order_row "3" "1"].
Proof.
  destruct orders_folds as [r Hf].
  destruct (reconstruct_replays no_parser 1 map_to_list (orders_config 1) orders_pages None r
    orders_file (λ _, None) orders_base) as (out & stats & Hm & Hp & _).
  - intros m. reflexivity.
  - repeat constructor.
  - dec_compute.
  - dec_compute.
  - exact Hf.
  - reflexivity.
  - reflexivity.
  - apply orders_keyed.
  - intros k row m alt Hin Hm Ha. exfalso. simpl in Ha. discriminate Ha.
  - intros m. reflexivity.
  - intros s Hs b Hb. by apply (orders_load r).
  - exists r, out, stats. split; [exact Hf|]. split; [exact Hm|]. rewrite Hp. dec_compute.
Defined.

(** The baseline is read whole or not at all: a file whose footer
    declares another number of rows than it holds is refused, and otherwise
    the result does not depend on the page size the file is read with. *)
Theorem scanBaselinePass_whole parseFixed {S} (emit : S → Row → S + MergeError) p1 p2 c owns changes st stats :
  (0 < p1)%Z → (0 < p2)%Z → bf_clash (mc_File c) = false →
  if (bf_footer (mc_File c) =? Z.of_nat (length (bf_rows (mc_File c))))%Z
  then ∀ acc, scanBaselinePass parseFixed emit p1 c changes owns st stats = inl acc ↔
              scanBaselinePass parseFixed emit p2 c changes owns st stats = inl acc
  else ∃ e, scanBaselinePass parseFixed emit p1 c changes owns st stats = inr e.
Proof.
  intros H1 H2 Hclash.
  destruct (Z.eqb_spec (bf_footer (mc_File c)) (Z.of_nat (length (bf_rows (mc_File c))))) as [Heq|Hne].
  - intros acc. rewrite !scanBaselinePass_full. tauto.
  - destruct (scanBaselinePass parseFixed emit p1 c changes owns st stats) as [acc|e] eqn:Hs; [|eauto].
    apply scanBaselinePass_full in Hs as [_ Hf]. exfalso. apply Hne, Hf. unfold baselineScanPages.
    rewrite (proj2 (Z.leb_gt p1 0)) by done. simpl. by rewrite Hclash.
Qed.

Lemma scanBaselinePass_whole_witness :
  let f := {| bf_rows := orders_base.*2; bf_footer := 3; bf_clash := false |} in
  ∃ e, scanBaselinePass no_parser collect 1
    (merge_input (orders_config 0) empty_fold f (λ _, None)) ∅ None [] zero_stats = inr e.
Proof.
  intros f.
  exact (scanBaselinePass_whole no_parser collect 1 2
    (merge_input (orders_config 0) empty_fold f (λ _, None)) None ∅ [] zero_stats eq_refl eq_refl eq_refl).
Defined.

Lemma scan_clash_error parseFixed {S} (emit : S → Row → S + MergeError) c base k row m alt changes st stats :
  keyed_base parseFixed c base → (k, row) ∈ base → pk_map parseFixed c row = inl m →
  altFixedBinaryPK (mc_PKCols c) m = Some alt → changes !! alt ≠ None → alt ∉ base.*1 →
  ∃ e, scanBaselineQuery parseFixed emit c None base.*2 (changes, st, stats) = inr e.
Proof.
  intros [_ Hkey] Hin Hm Halt Hpend Hni. revert changes st stats Hpend.
  induction base as [|[k' row'] base IH]; intros changes st stats Hpend; [by apply not_elem_of_nil in Hin|].
  change (((k', row') :: base).*1) with (k' :: base.*1) in *. change (((k', row') :: base).*2) with (row' :: base.*2).
  cbn [scanBaselineQuery]. destruct (scan_row parseFixed emit c None (changes, st, stats) row') as [[[ch' st'] stats']|e] eqn:Hr;
    [|eauto].
  destruct (Hkey k' row') as (m' & Hm' & Hk'); [by left|].
  assert (ch' !! alt ≠ None) as Hpend'.
  { assert (ch' = changes ∨ ch' = delete k' changes) as [-> | ->]; [|done|].
    2:{ rewrite lookup_delete_ne; [done|]. intros ->. apply Hni. by left. }
    revert Hr. unfold scan_row, emit_or. rewrite Hm', Hk'. repeat case_match; intros [=]; subst; auto. }
  apply elem_of_cons in Hin as [[= -> ->]|Hin].
  - exfalso. revert Hr. unfold scan_row. rewrite Hm, Halt. simpl. by destruct (changes !! alt).
  - destruct (IH ltac:(intros; apply Hkey; by right) Hin ltac:(set_solver) ch' st' stats' Hpend') as [e ->]. eauto.
Qed.

(** The merge never joins two spellings of one key silently: a change
    filed under the other spelling of a baseline row's fixed BINARY key makes
    the scan fail, whatever the rows before it did. *)
Theorem scan_refuses_other_spelling parseFixed {S} (emit : S → Row → S + MergeError) p c base k row m alt changes st stats :
  bf_rows (mc_File c) = base.*2 → keyed_base parseFixed c base → (k, row) ∈ base →
  pk_map parseFixed c row = inl m → altFixedBinaryPK (mc_PKCols c) m = Some alt →
  changes !! alt ≠ None → alt ∉ base.*1 →
  ∃ e, scanBaselinePass parseFixed emit p c changes None st stats = inr e.
Proof.
  intros Hfile Hkey Hin Hm Halt Hpend Hni.
  destruct (scan_clash_error parseFixed emit c base k row m alt changes st stats Hkey Hin Hm Halt Hpend Hni) as [e He].
  destruct (scanBaselinePass parseFixed emit p c changes None st stats) as [acc|e'] eqn:Hs; [|eauto].
  apply scanBaselinePass_full in Hs as [Hs _]. rewrite Hfile in Hs. congruence.
Qed.

Lemma scan_refuses_other_spelling_witness :
  let col := binary_column "id" "4" in
  let c := {| mc_File := {| bf_rows := [{[ "id" := VBytes ("ab" +:+ zeros 2) ]}]; bf_footer := 1; bf_clash := false |};
              mc_Schema := "shop"; mc_Table := "tags"; mc_PKCols := [col]; mc_Changes := ∅; mc_Spill := None;
              mc_CheckPass := None; mc_PGTextPK := false |} in
  let padded := BuildPKValues [col] {[ "id" := VBytes ("ab" +:+ zeros 2) ]} in
  ∃ e, scanBaselinePass no_parser collect 1 c
    {[ padded := mk_row 1 "b.1" 4 40 EventDelete padded None None ]} None [] zero_stats = inr e.
Proof.
  intros col c padded.
  apply (scan_refuses_other_spelling no_parser collect 1 c [("ab", {[ "id" := VBytes ("ab" +:+ zeros 2) ]})]
    "ab" {[ "id" := VBytes ("ab" +:+ zeros 2) ]} {[ "id" := VBytes "ab" ]} padded).
  - reflexivity.
  - split; [dec_compute|]. intros k row Hin%list_elem_of_singleton. injection Hin as -> ->.
    exists {[ "id" := VBytes "ab" ]}. split; vm_compute; reflexivity.
  - by left.
  - vm_compute. reflexivity.
  - vm_compute. reflexivity.
  - rewrite lookup_singleton_eq. discriminate.
  - dec_compute.
Defined.
