(* ===== verification/Arithmetic.v ===== *)
(** * The refresh's arithmetic: [internal/reconstruct/arithmetic.go]

    After every refresh, rows after = rows before + inserts - deletes. The
    check never refuses a table, so what it must not do is cry wolf: the
    theorems show that it reports nothing for a window that is a history of
    the table, for a rewrite and for a pair. The messages are constructors
    holding the numbers they print. *)
From S2P Require Import Prelude GoStrings GoTime GoVal Event Rows Merge PkCanon Spill Fold FullTable.

Record refreshArithmetic := {
  ra_Schema : string;
  ra_Table : string;
  ra_Snapshot : string;
  ra_Inserts : Z;
  ra_Deletes : Z;
  ra_RowsBefore : Z;
  Pair : bool;
  ra_Seq : Z;
  ra_Keys : Z;
  ra_Upserts : Z;
  ra_Dead : Z;
  Unchecked : string;
  Rewrite : bool;
  ra_BaselineRows : Z;
  ra_UpdatesApplied : Z;
  ra_DeletesSkipped : Z;
  ra_InsertsEmitted : Z;
  RowsWritten : Z;
}.

Inductive Problem :=
  | RowsWrittenDiffer (got want : Z)
  | NetDiffers (inserts deletes got want : Z)
  | ChainCountDiffers (read chain : Z)
  | MoreAliveThanKeys (upserts keys : Z)
  | AliveBeforeOutside (aliveBefore keys : Z)
  | BaseLookupDiffers (dead aliveBefore : Z)
  | MoreBaseRowsThanKeys (dead keys : Z)
  | FewerAfterThanAlive (after upserts : Z).

Definition rowsAfter (a : refreshArithmetic) : Z :=
  if Rewrite a then RowsWritten a
  else if (ra_RowsBefore a <? 0)%Z then -1
  else ra_RowsBefore a + ra_Inserts a - ra_Deletes a.

Definition rowsBefore (a : refreshArithmetic) : Z :=
  if Rewrite a then ra_BaselineRows a + ra_UpdatesApplied a + ra_DeletesSkipped a else ra_RowsBefore a.

(** [p] when the test fails. *)
Definition add_if (b : bool) (p : Problem) : list Problem := if b then [p] else [].

Definition problems (a : refreshArithmetic) : list Problem :=
  (if Rewrite a then
    let want := ra_BaselineRows a + ra_UpdatesApplied a + ra_InsertsEmitted a in
    let got_net := ra_InsertsEmitted a - ra_DeletesSkipped a in
    let want_net := ra_Inserts a - ra_Deletes a in
    add_if (negb (RowsWritten a =? want)) (RowsWrittenDiffer (RowsWritten a) want) ++
    add_if (negb (got_net =? want_net)) (NetDiffers (ra_Inserts a) (ra_Deletes a) got_net want_net) ++
    add_if ((0 <=? ra_RowsBefore a) && negb (rowsBefore a =? ra_RowsBefore a))
      (ChainCountDiffers (rowsBefore a) (ra_RowsBefore a))
  else if Pair a then
    let aliveBefore := ra_Upserts a - ra_Inserts a + ra_Deletes a in
    add_if (ra_Keys a <? ra_Upserts a) (MoreAliveThanKeys (ra_Upserts a) (ra_Keys a)) ++
    add_if ((aliveBefore <? 0) || (ra_Keys a <? aliveBefore)) (AliveBeforeOutside aliveBefore (ra_Keys a)) ++
    add_if ((ra_Seq a =? 0) && negb (ra_Dead a =? aliveBefore)) (BaseLookupDiffers (ra_Dead a) aliveBefore) ++
    add_if ((0 <? ra_Seq a) && (ra_Keys a <? ra_Dead a)) (MoreBaseRowsThanKeys (ra_Dead a) (ra_Keys a)) ++
    add_if ((0 <=? ra_RowsBefore a) && (rowsAfter a <? ra_Upserts a)) (FewerAfterThanAlive (rowsAfter a) (ra_Upserts a))
  else [])%Z.

(** The fields [report] fills. *)
Record ArithmeticReport := {
  WindowInserts : Z;
  WindowDeletes : Z;
  RowsBefore : Z;
  RowsAfter : Z;
  ArithmeticProblems : list Problem;
  ArithmeticChecked : bool;
}.

Definition report (a : refreshArithmetic) : ArithmeticReport :=
  let unchecked := negb (bool_decide (Unchecked a = "")) in
  {| WindowInserts := ra_Inserts a; WindowDeletes := ra_Deletes a;
     RowsBefore := rowsBefore a; RowsAfter := rowsAfter a;
     ArithmeticProblems := if unchecked then [] else problems a;
     ArithmeticChecked := negb unchecked |}.

(** ** Histories *)

(** The event can happen to the table: an INSERT of a dead key, an UPDATE or
    DELETE of a live one, a key change to a dead one, after-images present. *)
Definition event_valid (pkCols : list ColumnMeta) (t : gmap string Row) (ev : ResultRow) : Prop :=
  if (EventType ev =? EventInsert)%N then t !! PKValues ev = None ∧ RowAfter ev ≠ None
  else if (EventType ev =? EventUpdate)%N then
    t !! PKValues ev ≠ None ∧ RowAfter ev ≠ None ∧
    match pkChangedInEvent ev pkCols with Some (_, a) => t !! a = None ∧ a ≠ PKValues ev | None => True end
  else EventType ev = EventDelete ∧ t !! PKValues ev ≠ None.

#[export] Instance event_valid_dec pkCols t ev : Decision (event_valid pkCols t ev).
Proof. unfold event_valid. repeat case_match; apply _. Defined.

Fixpoint history (pkCols : list ColumnMeta) (t : gmap string Row) (log : list ResultRow) : Prop :=
  match log with
  | [] => True
  | ev :: log' => event_valid pkCols t ev ∧ history pkCols (replay_event pkCols t ev) log'
  end.

#[export] Instance history_dec pkCols t log : Decision (history pkCols t log).
Proof. revert t. induction log; intros t; simpl; apply _. Defined.

Lemma size_partial_alter_Some (t : gmap string Row) k (row : Row) :
  size (partial_alter (λ _, Some row) k t) = if decide (t !! k = None) then S (size t) else size t.
Proof.
  change (partial_alter (λ _, Some row) k t) with (<[k := row]> t). rewrite map_size_insert.
  destruct (t !! k); [by rewrite decide_False|by rewrite decide_True].
Qed.

Lemma pkChanged_update ev pkCols p : pkChangedInEvent ev pkCols = Some p → EventType ev = EventUpdate.
Proof. unfold pkChangedInEvent. destruct (N.eqb_spec (EventType ev) EventUpdate); [done|done]. Qed.

(** Only INSERTs and DELETEs change the number of rows. *)
Lemma replay_event_size pkCols t ev :
  event_valid pkCols t ev →
  Z.of_nat (size (replay_event pkCols t ev))
  = (Z.of_nat (size t) + count_type EventInsert [ev] - count_type EventDelete [ev])%Z.
Proof.
  unfold event_valid, replay_event, count_type, image. rewrite !filter_cons, !filter_nil.
  destruct (N.eqb_spec (EventType ev) EventInsert) as [Hi|Hi].
  - intros [Hn Ha]. rewrite Hi. destruct (pkChangedInEvent ev pkCols) as [p|] eqn:Hp.
    { apply pkChanged_update in Hp. rewrite Hi in Hp. done. }
    destruct (RowAfter ev) as [row|]; [|done]. simpl. rewrite size_partial_alter_Some, decide_True by done. lia.
  - destruct (N.eqb_spec (EventType ev) EventUpdate) as [Hu|Hu].
    + intros (Hl & Ha & Hp). rewrite Hu. simpl. destruct (RowAfter ev) as [row|]; [|done].
      destruct (t !! PKValues ev) as [old|] eqn:Hold; [|done].
      destruct (pkChangedInEvent ev pkCols) as [[b a]|].
      * destruct Hp as [Hnone Hne]. rewrite size_partial_alter_Some, decide_True.
        2:{ by rewrite lookup_delete_ne. }
        rewrite map_size_delete, Hold. simpl. assert (size t ≠ 0); [|lia].
        eapply map_size_ne_0_lookup_2. eauto.
      * rewrite size_partial_alter_Some, decide_False by (rewrite Hold; done). lia.
    + intros [Hd Hl]. rewrite Hd. simpl. destruct (pkChangedInEvent ev pkCols) as [p|] eqn:Hp.
      { apply pkChanged_update in Hp. congruence. }
      destruct (t !! PKValues ev) as [old|] eqn:Hold; [|done].
      change (partial_alter (λ _, None) (PKValues ev) t) with (delete (PKValues ev) t).
      rewrite map_size_delete, Hold. assert (size t ≠ 0); [|simpl; lia].
      eapply map_size_ne_0_lookup_2. eauto.
Qed.

Lemma replay_size pkCols t log :
  history pkCols t log →
  Z.of_nat (size (replay pkCols t log))
  = (Z.of_nat (size t) + count_type EventInsert log - count_type EventDelete log)%Z.
Proof.
  unfold replay. revert t. induction log as [|ev log IH]; intros t; simpl; [by rewrite Z.add_0_r, Z.sub_0_r|].
  intros [Hv Hh]. rewrite IH, replay_event_size by done.
  change (ev :: log) with ([ev] ++ log). rewrite !count_type_app. lia.
Qed.

Lemma count_type_perm type evs evs' : evs ≡ₚ evs' → count_type type evs = count_type type evs'.
Proof. intros H. unfold count_type. by rewrite H. Qed.

(** The events of a history are row changes with their images. *)
Lemma history_event pkCols t log ev :
  history pkCols t log → ev ∈ log → row_event ev ∧ (EventType ev ≠ EventDelete → RowAfter ev ≠ None).
Proof.
  revert t. induction log as [|e log IH]; intros t Hh Hin; [by apply not_elem_of_nil in Hin|].
  destruct Hh as [Hv Hh]. apply elem_of_cons in Hin as [->|Hin]; [|by eapply IH].
  revert Hv. unfold event_valid, row_event.
  destruct (N.eqb_spec (EventType e) EventInsert); [tauto|].
  destruct (N.eqb_spec (EventType e) EventUpdate); tauto.
Qed.

(** So do the changes a fold keeps of them. *)
Lemma latest_image pkCols pk evs h :
  (∀ ev, ev ∈ evs → EventType ev ≠ EventDelete → RowAfter ev ≠ None) →
  latest (key_changes pkCols pk evs) = Some h → EventType h ≠ EventDelete → RowAfter h ≠ None.
Proof.
  intros Himg Hl. apply latest_elem, elem_of_key_changes in Hl as (_ & ev & Hev & Hh). revert Hh. unfold halves_of.
  destruct (pkChangedInEvent ev pkCols) as [[b a]|] eqn:Hp.
  - apply pkChanged_update in Hp. intros [->|[->|[]%not_elem_of_nil]%elem_of_cons]%elem_of_cons; simpl; [done|].
    intros _. apply Himg; [done|]. by rewrite Hp.
  - intros ->%list_elem_of_singleton. by apply Himg.
Qed.

(** ** Pairs *)

(** What a pair over [changes] and a base with rows [t] counts: its keys, the
    ones it leaves alive, and the base rows under one of its keys. *)
Definition pair_keys (changes : gmap string ResultRow) : Z := Z.of_nat (size changes).
Definition pair_upserts (changes : gmap string ResultRow) : Z := Z.of_nat (size (omap image changes)).
Definition pair_dead (changes : gmap string ResultRow) (t : gmap string Row) : Z :=
  Z.of_nat (size (filter (λ p, is_Some (changes !! p.1)) t)).

Lemma omap_size_le {A B} (f : A → option B) (m : gmap string A) : size (omap f m) ≤ size m.
Proof.
  rewrite <-!size_dom. apply subseteq_size. intros k. rewrite !elem_of_dom, lookup_omap.
  intros [y Hy]. destruct (m !! k); [eauto|done].
Qed.

(** Over the touched keys: alive after less alive before is the growth. *)
Lemma pair_growth (changes : gmap string ResultRow) (t t' : gmap string Row) :
  (∀ k, apply_change (changes !! k) (t !! k) = t' !! k) →
  (Z.of_nat (size t') - Z.of_nat (size t) = pair_upserts changes - pair_dead changes t)%Z.
Proof.
  intros Ht. set (rest := filter (λ p, ¬ is_Some (changes !! p.1)) t).
  assert (size t' = size (omap image changes) + size rest) as H1.
  { assert (t' = omap image changes ∪ rest) as ->.
    - apply map_eq. intros k. rewrite <-Ht, lookup_union, lookup_omap.
      destruct (changes !! k) as [ev|] eqn:Hk.
      + assert (rest !! k = None) as ->.
        { apply map_lookup_filter_None. right. intros row _ Hn. apply Hn. simpl. rewrite Hk. eauto. }
        simpl. by destruct (image ev).
      + assert (rest !! k = t !! k) as ->; [|simpl; by destruct (t !! k)].
        destruct (t !! k) as [row|] eqn:Hrow.
        * apply map_lookup_filter_Some. split; [done|]. simpl. rewrite Hk. by intros [? [=]].
        * apply map_lookup_filter_None. by left.
    - apply map_size_disj_union. apply map_disjoint_spec. intros k x y Hx Hy. unfold rest in Hy.
      rewrite lookup_omap in Hx. apply map_lookup_filter_Some in Hy as [_ Hn]. simpl in Hn. apply Hn.
      destruct (changes !! k); [eauto|done]. }
  assert (size t = size (filter (λ p, is_Some (changes !! p.1)) t) + size rest) as H2.
  { rewrite <-map_size_disj_union by apply map_disjoint_filter_complement.
    unfold rest. by rewrite (map_filter_union_complement (λ p, is_Some (changes !! p.1)) t). }
  unfold pair_upserts, pair_dead. lia.
Qed.

Lemma pair_dead_bounds changes (t : gmap string Row) :
  (0 ≤ pair_dead changes t ≤ pair_keys changes)%Z.
Proof.
  unfold pair_dead, pair_keys. split; [lia|]. apply inj_le. rewrite <-!size_dom. apply subseteq_size.
  intros k. rewrite !elem_of_dom. intros [row Hrow]. by apply map_lookup_filter_Some in Hrow as [_ ?].
Qed.

(** ** Claims *)

(** The numbers of a rewrite: the fold's counts, the merge's counters, the
    rows written, and the count the chain carried ([-1] for none). *)
Definition rewrite_arithmetic (fc : foldConfig) (r : foldResult) (stats : mergeStats) (written chain : Z)
    : refreshArithmetic := {|
  ra_Schema := fc_Schema fc; ra_Table := fc_Table fc; ra_Snapshot := ""; ra_Inserts := Inserts r;
  ra_Deletes := Deletes r; ra_RowsBefore := chain; Pair := false; ra_Seq := 0; ra_Keys := 0;
  ra_Upserts := 0; ra_Dead := 0; Unchecked := ""; Rewrite := true;
  ra_BaselineRows := BaselineRows stats; ra_UpdatesApplied := UpdatesApplied stats;
  ra_DeletesSkipped := DeletesSkipped stats; ra_InsertsEmitted := InsertsEmitted stats;
  RowsWritten := written |}.

(** no false alarm on a rewrite: when the window is a history of the
    table the baseline holds, the fold's counts and the merge's counters close
    in every way the check looks at, in memory and from disk, key changes and
    keys deleted and inserted again included. *)
Theorem rewrite_arithmetic_closes parseFixed scanPageRows iter fc pages err r file check base chain :
  (∀ m, iter m ≡ₚ map_to_list m) →
  let evs := omap (current (fc_SysVersioned fc)) (concat pages) in
  let c := merge_input fc r file check in
  let t := list_to_map base : gmap string Row in
  has_coords evs → NoDup (EventID <$> evs) →
  history (fc_PKCols fc) t (sort_by compareBinlogCoordinate evs) →
  foldEventWindow iter fc pages err = inl r →
  bf_rows file = base.*2 → bf_footer file = Z.of_nat (length base) → keyed_base parseFixed c base →
  (∀ k row m alt, (k, row) ∈ base → pk_map parseFixed c row = inl m →
     altFixedBinaryPK (fc_PKCols fc) m = Some alt → change_view r alt = None) →
  (∀ m, check m = None) →
  (∀ s, fr_Spill r = Some s → ∀ b, b < spillBuckets → ∃ m, load s b = inl m) →
  (chain = -1 ∨ chain = Z.of_nat (length base))%Z →
  ∃ out stats, mergeBaselineImages parseFixed collect scanPageRows c [] = inl (out, stats) ∧
    problems (rewrite_arithmetic fc r stats (Z.of_nat (length out)) chain) = [].
Proof.
  intros Hiter evs c t Hc Hnd Hhist Hf Hfile Hfooter Hbase Hclash Hcheck Hload Hchain.
  assert (∀ ev, ev ∈ evs → row_event ev ∧ (EventType ev ≠ EventDelete → RowAfter ev ≠ None)) as Hev.
  { intros ev Hin. eapply history_event; [exact Hhist|]. by rewrite sort_by_perm. }
  destruct (reconstruct_spec parseFixed scanPageRows iter fc pages err r file check base Hiter Hc Hnd)
    as (out & stats & Hm & Hp & H1 & H2); try done.
  { rewrite Forall_forall. intros ev Hin. by apply Hev. }
  exists out, stats. split; [done|].
  destruct (foldEventWindow_inv iter Hiter fc pages err r Hc Hf) as (_ & _ & Hinv).
  assert (BaselineRows stats + UpdatesApplied stats + DeletesSkipped stats = Z.of_nat (length base))%Z as H3.
  { apply H2. intros k ev. rewrite (window_inv_view _ _ _ _ _ Hc Hinv).
    intros (h & Hh & ->)%fmap_Some. eapply (latest_image _ _ _ h); [|exact Hh].
    intros e He. by apply Hev. }
  assert (Z.of_nat (length out) = Z.of_nat (length base) + Inserts r - Deletes r)%Z as H4.
  { rewrite Hp, length_fmap, length_map_to_list, replay_size by done.
    destruct Hinv as [_ -> _ -> _ _].
    rewrite !(count_type_perm _ (sort_by _ _) evs) by apply sort_by_perm.
    assert (size (list_to_map base : gmap string Row) = length base) as ->; [|unfold evs; lia].
    rewrite <-length_map_to_list. apply Permutation_length, map_to_list_to_map, Hbase. }
  unfold problems, rewrite_arithmetic, rowsBefore. simpl.
  rewrite (proj2 (Z.eqb_eq (Z.of_nat (length out)) _)) by lia.
  rewrite (proj2 (Z.eqb_eq _ (Inserts r - Deletes r))) by lia. simpl.
  destruct (Z.leb_spec 0 chain); [|done]. simpl. rewrite (proj2 (Z.eqb_eq _ chain)) by lia. done.
Qed.

(** No false alarm on a pair: the numbers of a pair over a window that
    is a history of the table close at the start of a chain, and the rows it
    promises after the window are the rows the table then has. *)
Theorem pair_arithmetic_closes pkCols (t : gmap string Row) log (changes : gmap string ResultRow) a :
  history pkCols t log →
  (∀ k, apply_change (changes !! k) (t !! k) = replay pkCols t log !! k) →
  Rewrite a = false → Pair a = true → ra_Seq a = 0%Z →
  ra_Inserts a = count_type EventInsert log → ra_Deletes a = count_type EventDelete log →
  ra_Keys a = pair_keys changes → ra_Upserts a = pair_upserts changes → ra_Dead a = pair_dead changes t →
  ra_RowsBefore a = Z.of_nat (size t) →
  problems a = [] ∧ rowsAfter a = Z.of_nat (size (replay pkCols t log)).
Proof.
  intros Hh Hv Hr Hp Hs Hi Hd Hk Hu Hdead Hb.
  pose proof (replay_size pkCols t log Hh) as Hsize. pose proof (pair_growth changes t _ Hv) as Hg.
  pose proof (pair_dead_bounds changes t) as Hbounds.
  assert (pair_upserts changes ≤ pair_keys changes)%Z as Hle.
  { unfold pair_upserts, pair_keys. pose proof (omap_size_le image changes). lia. }
  assert (pair_upserts changes ≤ Z.of_nat (size (replay pkCols t log)))%Z as Hle'.
  { unfold pair_upserts. apply inj_le. rewrite <-!size_dom. apply subseteq_size. intros k.
    rewrite !elem_of_dom, lookup_omap, <-Hv. destruct (changes !! k); [done|by intros [? [=]]]. }
  assert (rowsAfter a = Z.of_nat (size (replay pkCols t log))) as Hafter.
  { unfold rowsAfter. rewrite Hr, Hb, (proj2 (Z.ltb_ge _ _)) by lia. rewrite Hi, Hd. lia. }
  split; [|done]. unfold problems. rewrite Hr, Hp, Hafter, Hs, Hk, Hu, Hdead, Hi, Hd, Hb. simpl.
  rewrite (proj2 (Z.ltb_ge _ _) Hle), (proj2 (Z.ltb_ge _ _) Hle').
  rewrite (proj2 (Z.eqb_eq (pair_dead changes t) _)) by lia.
  rewrite !(proj2 (Z.ltb_ge _ _)) by lia. simpl. by rewrite andb_false_r.
Qed.

Lemma rewrite_arithmetic_closes_witness :
  ∃ r out stats, foldEventWindow map_to_list (orders_config 1) orders_pages None = inl r ∧
    mergeBaselineImages no_parser collect 1 (merge_input (orders_config 1) r orders_file (λ _, None)) []
      = inl (out, stats) ∧
    problems (rewrite_arithmetic (orders_config 1) r stats (Z.of_nat (length out)) 2) = [].
Proof.
  destruct orders_folds as [r Hf].
  destruct (rewrite_arithmetic_closes no_parser 1 map_to_list (orders_config 1) orders_pages None r
    orders_file (λ _, None) orders_base 2) as (out & stats & Hm & Hp).
  - intros m. reflexivity.
  - repeat constructor.
  - dec_compute.
  - dec_compute.
  - exact Hf.
  - reflexivity.
  - reflexivity.
  - apply orders_keyed.
  - intros k row m alt Hin Hm Ha. exfalso. simpl in Ha. discriminate Ha.
  - intros m. reflexivity.
  - intros s Hs b Hb. by apply (orders_load r).
  - right. reflexivity.
  - exists r, out, stats. split; [exact Hf|]. split; [exact Hm|exact Hp].
Defined.

Lemma pair_arithmetic_closes_witness :
  let t := list_to_map orders_base : gmap string Row in
  let log := sort_by compareBinlogCoordinate (concat orders_pages) in
  let changes := foldl fold_changes ∅ (concat orders_pages ≫= halves_of [orders_column]) in
  let a := {| ra_Schema := "shop"; ra_Table := "orders"; ra_Snapshot := ""; ra_Inserts := 1; ra_Deletes := 0;
              ra_RowsBefore := 2; Pair := true; ra_Seq := 0; ra_Keys := 2; ra_Upserts := 2; ra_Dead := 1;
              Unchecked := ""; Rewrite := false; ra_BaselineRows := 0; ra_UpdatesApplied := 0;
              ra_DeletesSkipped := 0; ra_InsertsEmitted := 0; RowsWritten := 0 |} in
  problems a = [] ∧ rowsAfter a = 3%Z.
Proof.
  intros t log changes a.
  destruct (pair_arithmetic_closes [orders_column] t log changes a) as [H1 H2]; try (vm_compute; reflexivity).
  - dec_compute.
  - intros k. unfold changes, log, t. rewrite replay_lookup, last_key_changes_sorted.
    + rewrite fold_changes_lookup, lookup_empty.
      change (filter (λ ev, PKValues ev = k) (concat orders_pages ≫= halves_of [orders_column]))
        with (key_changes [orders_column] k (concat orders_pages)).
      change (foldl keep_later None) with latest.
      rewrite latest_fmap by by repeat split. by destruct (latest _).
    + repeat constructor.
    + dec_compute.
    + dec_compute.
  - split; [exact H1|]. rewrite H2. vm_compute. reflexivity.
Defined.
