(* ===== verification/Reconstruct.v ===== *)
(** * One row's state and history: [internal/reconstruct/reconstruct.go],
    [boundary.go]

    Applying the changes of one row to its snapshot state, listing the states
    it went through, folding changes from before a snapshot, and keeping a
    transaction that straddles the cut out whole. A state is an
    [option Row]: [None] is a row that does not exist. The copies the code
    makes ([copyMap]) are values here.

    [fetch] stands for [query.FetchMerged] of the rows of one GTID from a time
    on: the index and its archives are not part of this file. *)
From S2P Require Import Prelude GoStrings GoTime GoVal Event Rows Merge PkCanon Spill Fold.

Record StateEntry := {
  se_Time : Z;
  se_Source : string;
  se_EventID : N;
  se_GTID : string;
  se_State : option Row;
}.

Definition applyEvent (state : option Row) (ev : ResultRow) : option Row :=
  if (EventType ev =? EventInsert)%N then RowAfter ev
  else if (EventType ev =? EventUpdate)%N then RowAfter ev
  else if (EventType ev =? EventDelete)%N then None
  else state.

Definition eventTypeName (et : N) : string :=
  if (et =? EventInsert)%N then "INSERT"
  else if (et =? EventUpdate)%N then "UPDATE"
  else if (et =? EventDelete)%N then "DELETE"
  else "UNKNOWN".

(** The loop of [ApplyAt]. *)
Fixpoint ApplyAt (state : option Row) (events : list ResultRow) (at_ : Z) : option Row + ToastError :=
  match events with
  | [] => inl state
  | ev :: rest =>
      if (at_ <? EventTimestamp ev)%Z then inl state
      else
        match checkEventToast ev with
        | Some e => inr e
        | None => ApplyAt (applyEvent state ev) rest at_
        end
  end.

Definition history_entry (state : option Row) (ev : ResultRow) : StateEntry := {|
  se_Time := EventTimestamp ev; se_Source := eventTypeName (EventType ev); se_EventID := EventID ev;
  se_GTID := default "" (GTID ev); se_State := state |}.

(** The loop of [BuildHistory]; [entries] are the ones listed so far. *)
Fixpoint history_loop (current : option Row) (events : list ResultRow) (at_ : Z) (entries : list StateEntry)
    : list StateEntry + ToastError :=
  match events with
  | [] => inl entries
  | ev :: rest =>
      if (at_ <? EventTimestamp ev)%Z then inl entries
      else
        match checkEventToast ev with
        | Some e => inr e
        | None =>
            let current := applyEvent current ev in
            history_loop current rest at_ (entries ++ [history_entry current ev])
        end
  end.

Definition BuildHistory (initialState : option Row) (baselineTime : Z) (events : list ResultRow) (at_ : Z)
    : list StateEntry + ToastError :=
  history_loop initialState events at_
    [{| se_Time := baselineTime; se_Source := "baseline"; se_EventID := 0; se_GTID := ""; se_State := initialState |}].

(** The loop of [FoldBeforeSnapshot]. *)
Fixpoint fold_before_loop (state : option Row) (folded : bool) (rest events : list ResultRow) (snapshotTime : Z)
    (pkCols : list ColumnMeta) : (option Row * bool * list ResultRow) + ToastError :=
  match events with
  | [] => inl (state, folded, rest)
  | ev :: events' =>
      if negb (EventTimestamp ev <? snapshotTime)%Z
      then fold_before_loop state folded (rest ++ [ev]) events' snapshotTime pkCols
      else
        match checkEventToast ev with
        | Some e => inr e
        | None =>
            let state := match pkChangedInEvent ev pkCols with
                         | Some _ => None
                         | None => applyEvent state ev
                         end in
            fold_before_loop state true rest events' snapshotTime pkCols
        end
  end.

Definition FoldBeforeSnapshot (row : option Row) (events : list ResultRow) (snapshotTime : Z)
    (pkCols : list ColumnMeta) : (option Row * list ResultRow) + ToastError :=
  match fold_before_loop row false [] events snapshotTime pkCols with
  | inr e => inr e
  | inl (state, folded, rest) => if negb folded then inl (row, events) else inl (state, rest)
  end.

(** ** Transaction boundaries *)

Definition truncate_second (t : Z) : Z := (t / second * second)%Z.

Section boundary.
Context (fetch : string → Z → list ResultRow + string).

Definition gtidHasEventAfter (gtid : string) (after : Z) : bool + string :=
  match fetch gtid after with
  | inr e => inr e
  | inl rows => inl (0 <? length rows)
  end.

(** [for cut > 0 && events[cut-1].GTID == gtid { cut-- }]: [n] is [cut]. *)
Fixpoint cut_loop (events : list ResultRow) (gtid : string) (n : nat) : nat :=
  match n with
  | 0 => 0
  | S n' =>
      match events !! n' with
      | Some ev => if bool_decide (GTID ev = Some gtid) then cut_loop events gtid n' else n
      | None => n
      end
  end.

Definition TrimPartialTailTransaction (events : list ResultRow) (at_ : Z) : list ResultRow + string :=
  match last events with
  | None => inl events
  | Some lst =>
      match GTID lst with
      | None => inl events
      | Some gtid =>
          if bool_decide (gtid = "") then inl events
          else
            let lookAfter := (truncate_second at_ + second)%Z in
            match gtidHasEventAfter gtid lookAfter with
            | inr e => inr ("check whether transaction " +:+ gtid +:+
                            " continues past the requested cut point: " +:+ e)
            | inl false => inl events
            | inl true => inl (take (cut_loop events gtid (length events)) events)
            end
      end
  end.

(** [FetchEventsAtomic]: [fetched] is the primary fetch. *)
Definition FetchEventsAtomic (fetched : list ResultRow + string) (at_ : Z) : list ResultRow + string :=
  match fetched with
  | inr e => inr e
  | inl events => TrimPartialTailTransaction events at_
  end.
End boundary.

(** ** Lemmas *)

(** The events up to the first one past the cut. *)
Fixpoint upto (at_ : Z) (events : list ResultRow) : list ResultRow :=
  match events with
  | [] => []
  | ev :: rest => if (at_ <? EventTimestamp ev)%Z then [] else ev :: upto at_ rest
  end.

Definition toast_free (events : list ResultRow) : Prop := Forall (λ ev, checkEventToast ev = None) events.

Lemma ApplyAt_eq state events at_ st :
  ApplyAt state events at_ = inl st ↔
  toast_free (upto at_ events) ∧ st = foldl applyEvent state (upto at_ events).
Proof.
  unfold toast_free. revert state. induction events as [|ev events IH]; intros state; simpl.
  { rewrite Forall_nil. naive_solver. }
  destruct (at_ <? EventTimestamp ev)%Z; simpl; [rewrite Forall_nil; naive_solver|].
  rewrite Forall_cons. destruct (checkEventToast ev); [naive_solver|]. rewrite IH. naive_solver.
Qed.

(** The entries the loop appends: one per event, with the state it leaves. *)
Fixpoint entries_of (state : option Row) (events : list ResultRow) : list StateEntry :=
  match events with
  | [] => []
  | ev :: rest => history_entry (applyEvent state ev) ev :: entries_of (applyEvent state ev) rest
  end.

Lemma history_loop_eq state events at_ entries es :
  history_loop state events at_ entries = inl es ↔
  toast_free (upto at_ events) ∧ es = entries ++ entries_of state (upto at_ events).
Proof.
  unfold toast_free. revert state entries. induction events as [|ev events IH]; intros state entries; simpl.
  { rewrite Forall_nil, app_nil_r. naive_solver. }
  destruct (at_ <? EventTimestamp ev)%Z; simpl; [rewrite Forall_nil, app_nil_r; naive_solver|].
  rewrite Forall_cons. destruct (checkEventToast ev); [naive_solver|]. rewrite IH, <-app_assoc. naive_solver.
Qed.

Lemma entries_of_length state events : length (entries_of state events) = length events.
Proof. revert state. induction events; intros; simpl; [done|]. by rewrite IHevents. Qed.

Lemma entries_of_lookup state events i ev :
  events !! i = Some ev →
  entries_of state events !! i = Some (history_entry (foldl applyEvent state (take (S i) events)) ev).
Proof.
  revert state i. induction events as [|e events IH]; intros state i; [done|].
  destruct i as [|i]; simpl; [by intros [= ->]|]. intros H. by rewrite (IH (applyEvent state e) i H).
Qed.

Definition event_before (T : Z) (ev : ResultRow) : Prop := (EventTimestamp ev < T)%Z.

#[export] Instance event_before_dec T ev : Decision (event_before T ev).
Proof. unfold event_before. apply _. Defined.

(** A change of the row, a key change included, applied to its state. *)
Definition step_before (pkCols : list ColumnMeta) (state : option Row) (ev : ResultRow) : option Row :=
  match pkChangedInEvent ev pkCols with Some _ => None | None => applyEvent state ev end.

Lemma fold_before_eq state folded rest events T pkCols res :
  fold_before_loop state folded rest events T pkCols = inl res ↔
  toast_free (filter (event_before T) events) ∧
  res = (foldl (step_before pkCols) state (filter (event_before T) events),
         folded || (0 <? length (filter (event_before T) events)),
         rest ++ filter (λ ev, ¬ event_before T ev) events).
Proof.
  unfold toast_free. revert state folded rest. induction events as [|ev events IH]; intros state folded rest; simpl.
  { rewrite Forall_nil, app_nil_r, orb_false_r. naive_solver. }
  rewrite !filter_cons. unfold event_before in *. destruct (Z.ltb_spec (EventTimestamp ev) T); simpl.
  - rewrite (decide_True (P := (_ < _)%Z)), (decide_False (P := ¬ _)) by lia. simpl. rewrite Forall_cons.
    destruct (checkEventToast ev); [naive_solver|]. rewrite IH. unfold step_before at 3.
    rewrite orb_true_r. naive_solver.
  - rewrite (decide_False (P := (_ < _)%Z)), (decide_True (P := ¬ _)) by lia. rewrite IH, <-app_assoc. done.
Qed.

(** A row change leaves a state that does not depend on the one before. *)
Lemma step_before_reset pkCols s s' ev :
  EventType ev = EventInsert ∨ EventType ev = EventUpdate ∨ EventType ev = EventDelete →
  step_before pkCols s ev = step_before pkCols s' ev.
Proof.
  unfold step_before, applyEvent. intros [-> | [-> | ->]]; simpl; done.
Qed.

Lemma cut_loop_le events gtid n : cut_loop events gtid n ≤ n.
Proof. induction n as [|n IH]; simpl; [lia|]. repeat case_match; lia. Qed.

(** The loop stops at the start of the trailing run of [gtid]. *)
Lemma cut_loop_run pre group gtid :
  Forall (λ ev, GTID ev = Some gtid) group →
  match last pre with Some ev => GTID ev ≠ Some gtid | None => True end →
  cut_loop (pre ++ group) gtid (length (pre ++ group)) = length pre.
Proof.
  intros Hg Hpre. rewrite length_app.
  assert (∀ n, n ≤ length group → cut_loop (pre ++ group) gtid (length pre + n) = length pre) as H; [|by apply H].
  induction n as [|n IH]; intros Hn.
  - rewrite Nat.add_0_r. destruct pre as [|ev pre _] using rev_ind; [done|].
    rewrite last_snoc in Hpre. rewrite length_app, Nat.add_1_r. simpl.
    rewrite <-app_assoc. simpl. rewrite list_lookup_middle by done. by rewrite bool_decide_eq_false_2.
  - rewrite Nat.add_succ_r. simpl. rewrite lookup_app_r by lia. replace (length pre + n - length pre) with n by lia.
    destruct (lookup_lt_is_Some_2 group n) as [ev Hev]; [lia|]. rewrite Hev.
    rewrite bool_decide_eq_true_2; [apply IH; lia|]. rewrite Forall_forall in Hg. apply Hg.
    by eapply list_elem_of_lookup_2.
Qed.

(** A list splits at its trailing run of one GTID. *)
Lemma trailing_run (l : list ResultRow) (g : string) :
  ∃ pre grp, l = pre ++ grp ∧ Forall (λ ev, GTID ev = Some g) grp ∧
    match last pre with Some ev => GTID ev ≠ Some g | None => True end.
Proof.
  induction l as [|x l IH] using rev_ind; [by exists [], []|].
  destruct (decide (GTID x = Some g)) as [Hx|Hx].
  - destruct IH as (pre & grp & -> & Hg & Hp). exists pre, (grp ++ [x]).
    rewrite app_assoc, Forall_app, Forall_singleton. done.
  - exists (l ++ [x]), []. by rewrite app_nil_r, last_snoc.
Qed.

(** The rows of a server in its order: time never goes back, and a
    transaction's rows stand together. *)
Definition in_time_order (rows : list ResultRow) : Prop :=
  StronglySorted (λ a b, (EventTimestamp a ≤ EventTimestamp b)%Z) rows.

Definition transactions_contiguous (rows : list ResultRow) : Prop :=
  ∀ l1 x l2 y l3 g, rows = l1 ++ [x] ++ l2 ++ [y] ++ l3 →
    GTID x = Some g → GTID y = Some g → Forall (λ ev, GTID ev = Some g) l2.

Definition whole_seconds (rows : list ResultRow) : Prop :=
  Forall (λ r, (second | EventTimestamp r)%Z) rows.

(** Transaction [g] has a row past the cut. *)
Definition runs_past (rows : list ResultRow) (at_ : Z) (g : string) : Prop :=
  ∃ r, r ∈ rows ∧ GTID r = Some g ∧ (at_ < EventTimestamp r)%Z.

(** In time order the rows up to the cut are a prefix. *)
Lemma time_split rows at_ :
  in_time_order rows →
  ∃ A B, rows = A ++ B ∧ Forall (λ r, (EventTimestamp r ≤ at_)%Z) A ∧ Forall (λ r, (at_ < EventTimestamp r)%Z) B.
Proof.
  induction 1 as [|r rows Hs IH Hr]; [by exists [], []|].
  destruct (decide (EventTimestamp r ≤ at_)%Z) as [H|H].
  - destruct IH as (A & B & -> & HA & HB). exists (r :: A), B. by rewrite Forall_cons.
  - exists [], (r :: rows). rewrite Forall_cons. split_and!; [done..|lia|].
    eapply Forall_impl; [exact Hr|]. simpl. lia.
Qed.

(** A transaction that runs past the cut holds the end of what the cut keeps. *)
Lemma straddling_suffix A B g :
  transactions_contiguous (A ++ B) → (∃ y, y ∈ B ∧ GTID y = Some g) →
  ∃ pre grp, A = pre ++ grp ∧ Forall (λ ev, GTID ev = Some g) grp ∧ Forall (λ ev, GTID ev ≠ Some g) pre.
Proof.
  intros Hc (y & Hy & Gy). destruct (trailing_run A g) as (pre & grp & -> & Hg & Hp).
  exists pre, grp. split_and!; [done..|]. rewrite Forall_forall. intros x Hx Gx.
  destruct pre as [|z pre _] using rev_ind; [by apply not_elem_of_nil in Hx|]. rewrite last_snoc in Hp.
  apply elem_of_app in Hx as [Hx|Hx]; [|apply list_elem_of_singleton in Hx; by subst].
  apply list_elem_of_split in Hx as (p1 & p2 & ->). apply list_elem_of_split in Hy as (b1 & b2 & ->).
  specialize (Hc p1 x (p2 ++ [z] ++ grp ++ b1) y b2 g). rewrite !Forall_app, Forall_singleton in Hc.
  apply Hp, Hc; [|done..]. by rewrite <-!app_assoc.
Qed.

Lemma truncate_second_after at_ t :
  (second | t)%Z → (truncate_second at_ + second ≤ t)%Z ↔ (at_ < t)%Z.
Proof.
  intros [k ->]. unfold truncate_second. assert (0 < second)%Z as Hs by done.
  pose proof (Z.div_mod at_ second ltac:(lia)). pose proof (Z.mod_pos_bound at_ second Hs).
  generalize dependent second. intros s Hs E Hm. set (q := (at_ / s)%Z) in *. set (m := (at_ mod s)%Z) in *.
  clearbody q m. split; intros; [nia|]. assert (q + 1 ≤ k)%Z by nia. nia.
Qed.

Section fetch.
(** What [query.FetchMerged] promises of [gtidHasEventAfter]'s query over
    the rows of the server: it answers, and with a row when there is one. *)
Definition finds_rows (fetch : string → Z → list ResultRow + string) (rows : list ResultRow) : Prop :=
  ∀ g after, ∃ found, fetch g after = inl found ∧
    (found ≠ [] ↔ ∃ r, r ∈ rows ∧ GTID r = Some g ∧ (after ≤ EventTimestamp r)%Z).

Context (fetch : string → Z → list ResultRow + string) (rows : list ResultRow).
Hypothesis Hfetch : finds_rows fetch rows.
Hypothesis Hsec : whole_seconds rows.

Lemma gtidHasEventAfter_eq at_ g :
  ∃ b, gtidHasEventAfter fetch g (truncate_second at_ + second)%Z = inl b ∧ (b = true ↔ runs_past rows at_ g).
Proof.
  unfold gtidHasEventAfter. destruct (Hfetch g (truncate_second at_ + second)%Z) as (found & -> & Hf).
  exists (0 <? length found). split; [done|]. unfold runs_past.
  transitivity (found ≠ []); [destruct found; simpl; naive_solver|]. rewrite Hf.
  unfold whole_seconds in Hsec. rewrite Forall_forall in Hsec.
  split; intros (r & Hr & Hg & Ht); exists r; split_and!; try done;
    apply (truncate_second_after at_); auto.
Qed.
End fetch.

(** With the rows in time order, [upto] is the rows up to the cut. *)
Lemma upto_filter at_ events :
  in_time_order events → upto at_ events = filter (λ ev, (EventTimestamp ev ≤ at_)%Z) events.
Proof.
  induction 1 as [|ev events Hs IH Hev]; [done|]. simpl. rewrite filter_cons.
  destruct (Z.ltb_spec at_ (EventTimestamp ev)).
  - rewrite decide_False by lia. symmetry. apply filter_none. rewrite Forall_forall in *. intros x Hx.
    specialize (Hev x Hx). simpl in *. lia.
  - rewrite decide_True by lia. by f_equal.
Qed.

Lemma upto_take at_ events i : upto at_ (take i events) = take i (upto at_ events).
Proof.
  revert i. induction events as [|ev events IH]; intros [|i]; simpl; try done.
  destruct (at_ <? EventTimestamp ev)%Z; [done|]. simpl. by f_equal.
Qed.

(** Both loops refuse the same event. *)
Lemma history_error state events at_ entries :
  match history_loop state events at_ entries with
  | inr e => ApplyAt state events at_ = inr e
  | inl _ => ∃ st, ApplyAt state events at_ = inl st
  end.
Proof.
  revert state entries. induction events as [|ev events IH]; intros state entries; simpl; [eauto|].
  destruct (at_ <? EventTimestamp ev)%Z; [eauto|]. destruct (checkEventToast ev); [done|]. apply IH.
Qed.

(** The reported entries: entry [i] is the state after [i] changes. *)
Lemma entries_prefix init bt events at_ es i :
  BuildHistory init bt events at_ = inl es → i ≤ length (upto at_ events) →
  ∃ e, es !! i = Some e ∧ ApplyAt init (take i events) at_ = inl (se_State e).
Proof.
  unfold BuildHistory. intros (Hf & ->)%history_loop_eq Hi.
  assert (toast_free (upto at_ (take i events))) as Hft.
  { rewrite upto_take. by apply Forall_take. }
  destruct i as [|i]; simpl.
  - by eexists.
  - destruct (lookup_lt_is_Some_2 (upto at_ events) i) as [ev Hev]; [lia|].
    rewrite (entries_of_lookup _ _ _ _ Hev). eexists. split; [done|].
    rewrite ApplyAt_eq. split; [done|]. by rewrite upto_take.
Qed.

(** A run of row changes leaves what its last change leaves. *)
Lemma steps_reset pkCols s s' events :
  Forall (λ ev, EventType ev = EventInsert ∨ EventType ev = EventUpdate ∨ EventType ev = EventDelete) events →
  events ≠ [] → foldl (step_before pkCols) s events = foldl (step_before pkCols) s' events.
Proof.
  destruct events as [|ev events]; [done|]. rewrite Forall_cons. intros [Ht _] _. simpl.
  by rewrite (step_before_reset pkCols s s' ev Ht).
Qed.

Lemma last_not_run pre g :
  Forall (λ ev, GTID ev ≠ Some g) pre → match last pre with Some ev => GTID ev ≠ Some g | None => True end.
Proof. rewrite Forall_forall. intros H. case_match eqn:E; [|done]. by apply H, last_Some_elem_of. Qed.

(** A straddling transaction ends the fetched rows, all of its kept rows are
    at their end, and nothing of it comes before. *)
Lemma straddling_rows rows (wanted : ResultRow → bool) at_ :
  in_time_order rows → transactions_contiguous rows →
  let events := filter (λ r, wanted r ∧ (EventTimestamp r ≤ at_)%Z) rows in
  (∀ ev g, ev ∈ events → GTID ev = Some g → runs_past rows at_ g → ∃ l, last events = Some l ∧ GTID l = Some g) ∧
  (∀ g, runs_past rows at_ g → ∃ pre grp, events = pre ++ grp ∧ Forall (λ ev, GTID ev = Some g) grp ∧
     Forall (λ ev, GTID ev ≠ Some g) pre).
Proof.
  intros Hord Hc events. destruct (time_split rows at_ Hord) as (A & B & -> & HA & HB).
  assert (events = filter (λ r, wanted r) A) as Hev.
  { unfold events. rewrite filter_app, (filter_none _ B), app_nil_r.
    - apply filter_iff_in. rewrite Forall_forall in HA. naive_solver.
    - rewrite Forall_forall in HB. intros x Hx [_ ?]. specialize (HB x Hx). simpl in HB. lia. }
  assert (∀ g, runs_past (A ++ B) at_ g → ∃ pre grp, events = pre ++ grp ∧
            Forall (λ ev, GTID ev = Some g) grp ∧ Forall (λ ev, GTID ev ≠ Some g) pre) as Hsplit.
  { intros g (r & Hr & Hg & Ht). destruct (straddling_suffix A B g Hc) as (pre & grp & -> & H1 & H2).
    - exists r. split; [|done]. apply elem_of_app in Hr as [Hr|Hr]; [|done].
      rewrite Forall_forall in HA. specialize (HA r Hr). simpl in HA. lia.
    - exists (filter (λ r, wanted r) pre), (filter (λ r, wanted r) grp). rewrite Hev, filter_app.
      split_and!; [done|by apply Forall_filter_of..]. }
  split; [|exact Hsplit]. intros ev g Hin Hg Hp. destruct (Hsplit g Hp) as (pre & grp & Heq & H1 & H2).
  rewrite Forall_forall in H1, H2. rewrite Heq in Hin |- *. apply elem_of_app in Hin as [Hin|Hin]; [by destruct (H2 ev Hin)|].
  destruct grp as [|l grp _] using rev_ind; [by apply not_elem_of_nil in Hin|].
  exists l. rewrite app_assoc, last_snoc. split; [done|]. apply H1, elem_of_app. right. by apply list_elem_of_singleton.
Qed.

(** ** Properties *)

(** On changes in time order, [BuildHistory] lists the snapshot's state
    and one entry per change stamped at or before [at]; the state of entry [i]
    is what [ApplyAt] answers after the first [i] changes, so the last entry
    is [ApplyAt]'s answer; and when one of the two refuses an unresolved TOAST
    marker the other refuses the same one. *)
Theorem BuildHistory_ApplyAt init baselineTime events at_ :
  in_time_order events →
  match BuildHistory init baselineTime events at_ with
  | inr e => ApplyAt init events at_ = inr e
  | inl es =>
      let n := length (filter (λ ev, (EventTimestamp ev ≤ at_)%Z) events) in
      length es = S n ∧
      (∀ i, i ≤ n → ∃ e, es !! i = Some e ∧ ApplyAt init (take i events) at_ = inl (se_State e)) ∧
      ∃ e, last es = Some e ∧ ApplyAt init events at_ = inl (se_State e)
  end.
Proof.
  intros Hs. rewrite <-upto_filter by done.
  destruct (BuildHistory init baselineTime events at_) as [es|e] eqn:E.
  - cbv zeta. assert (length es = S (length (upto at_ events))) as Hlen.
    { unfold BuildHistory in E. apply history_loop_eq in E as [_ ->]. simpl. by rewrite entries_of_length. }
    split_and!; [done|by eauto using entries_prefix|].
    destruct (entries_prefix _ _ _ _ _ (length (upto at_ events)) E (le_n _)) as (e & He & Ha).
    exists e. split; [by rewrite last_lookup, Hlen|]. apply ApplyAt_eq in Ha as [Hf Hst]. apply ApplyAt_eq.
    rewrite upto_take, take_ge in Hf, Hst by done. done.
  - unfold BuildHistory in E. pose proof (history_error init events at_
      [{| se_Time := baselineTime; se_Source := "baseline"; se_EventID := 0; se_GTID := ""; se_State := init |}]).
    by rewrite E in H.
Qed.

Definition sample_change (id : N) (t : Z) (g : string) (et : N) (after : option Row) : ResultRow := {|
  EventID := id; BinlogFile := "bin.000001"; StartPos := id * 100; EndPos := id * 100 + 50;
  EventTimestamp := t * second; GTID := Some g; ConnectionID := None; SchemaName := "shop"; TableName := "orders";
  EventType := et; PKValues := "1"; RowChangedColumns := []; RowBefore := None; RowAfter := after;
  SchemaVersion := 1; QueryText := None; QueryHash := None; CommitTsUS := None;
  KeySpanFirst := ""; KeySpanLast := "" |}.

Definition sample_row (v : Z) : Row := {[ "id" := VInt 1; "qty" := VInt v ]}.

Lemma BuildHistory_ApplyAt_witness :
  match BuildHistory None 0 [sample_change 1 5 "a:1" 1 (Some (sample_row 3)); sample_change 2 9 "a:2" 3 None]
          (7 * second)%Z with
  | inl es => length es = 2
  | inr _ => False
  end.
Proof.
  assert (in_time_order [sample_change 1 5 "a:1" 1 (Some (sample_row 3)); sample_change 2 9 "a:2" 3 None]) as Hs.
  { repeat constructor; by vm_compute. }
  pose proof (BuildHistory_ApplyAt None 0 _ (7 * second)%Z Hs) as H.
  destruct (BuildHistory _ _ _ _) as [es|e] eqn:E; [destruct H as [H _]; exact H|].
  vm_compute in E. discriminate E.
Defined.

(** [FoldBeforeSnapshot] over changes some of which the snapshot already
    holds ([pre]) and some of which raced its start ([post]) returns the row
    with each change applied once: applying again what the snapshot holds
    changes nothing, a change that moved the row to another key ends it, and
    the changes from the snapshot's time on are returned in their order. *)
Theorem FoldBeforeSnapshot_reapplies row0 pre post events snapshotTime pkCols :
  filter (event_before snapshotTime) events = pre ++ post →
  toast_free (pre ++ post) →
  Forall (λ ev, EventType ev = EventInsert ∨ EventType ev = EventUpdate ∨ EventType ev = EventDelete) (pre ++ post) →
  FoldBeforeSnapshot (foldl (step_before pkCols) row0 pre) events snapshotTime pkCols =
    inl (foldl (step_before pkCols) row0 (pre ++ post), filter (λ ev, ¬ event_before snapshotTime ev) events).
Proof.
  intros Hf Ht Hty. unfold FoldBeforeSnapshot.
  destruct (fold_before_loop (foldl (step_before pkCols) row0 pre) false [] events snapshotTime pkCols)
    as [res|e] eqn:E.
  2: { pose proof (proj2 (fold_before_eq (foldl (step_before pkCols) row0 pre) false [] events snapshotTime pkCols _)
         (conj (eq_ind_r toast_free Ht Hf) eq_refl)) as H. by rewrite E in H. }
  apply fold_before_eq in E as [_ ->]. rewrite Hf. simpl.
  destruct (decide (pre ++ post = [])) as [Hnil|Hne].
  - rewrite Hnil. simpl. apply app_nil in Hnil as [-> ->]. simpl in *. do 2 f_equal. symmetry. apply filter_all.
    intros x Hx Hb.
    apply (not_elem_of_nil x). rewrite <-Hf. by apply list_elem_of_filter.
  - replace (0 <? length (pre ++ post)) with true by (destruct (pre ++ post); done). simpl.
    by rewrite (steps_reset pkCols _ row0 (pre ++ post)).
Qed.

Lemma FoldBeforeSnapshot_reapplies_witness :
  FoldBeforeSnapshot (Some (sample_row 3))
    [sample_change 1 5 "a:1" 1 (Some (sample_row 3)); sample_change 2 6 "a:2" 2 (Some (sample_row 4));
     sample_change 3 9 "a:3" 3 None] (8 * second)%Z [] =
  inl (Some (sample_row 4), [sample_change 3 9 "a:3" 3 None]).
Proof.
  apply (FoldBeforeSnapshot_reapplies None [sample_change 1 5 "a:1" 1 (Some (sample_row 3))]
           [sample_change 2 6 "a:2" 2 (Some (sample_row 4))]).
  - reflexivity.
  - repeat constructor.
  - constructor; [by left|]. constructor; [by right; left|]. constructor.
Defined.

(** C37: Over a server whose rows are in time order with each transaction's
    rows together, [TrimPartialTailTransaction] never keeps a transaction in
    part: of the rows a fetch cut at [at] returned it keeps a prefix, none of
    whose transactions has a row past [at] anywhere on the server, and every
    row it drops belongs to a transaction that has one. [wanted] is the
    fetch's own filter (one table, one key). *)
Theorem TrimPartialTailTransaction_atomic fetch rows (wanted : ResultRow → bool) at_ :
  finds_rows fetch rows → whole_seconds rows → in_time_order rows → transactions_contiguous rows →
  let events := filter (λ r, wanted r ∧ (EventTimestamp r ≤ at_)%Z) rows in
  ∃ kept dropped,
    TrimPartialTailTransaction fetch events at_ = inl kept ∧ events = kept ++ dropped ∧
    (∀ ev g, ev ∈ kept → GTID ev = Some g → g ≠ "" → ¬ runs_past rows at_ g) ∧
    (∀ ev, ev ∈ dropped → ∃ g, GTID ev = Some g ∧ runs_past rows at_ g).
Proof.
  intros Hfetch Hsec Hord Hc events. destruct (straddling_rows rows wanted at_ Hord Hc) as [Hlast Hsplit].
  fold events in Hlast, Hsplit. unfold TrimPartialTailTransaction.
  destruct (last events) as [lst|] eqn:El.
  2: { exists events, []. rewrite app_nil_r. split_and!; [done..| |by intros ? ?%not_elem_of_nil].
       intros ev g Hev. apply last_None in El. rewrite El in Hev. by apply not_elem_of_nil in Hev. }
  assert (∀ ev g, ev ∈ events → GTID ev = Some g → runs_past rows at_ g → GTID lst = Some g) as Hl
    by (intros; naive_solver).
  destruct (GTID lst) as [g0|] eqn:Eg; [case_bool_decide as Hg0|].
  1,3: exists events, []; rewrite app_nil_r; split_and!; [done..|naive_solver|by intros ? ?%not_elem_of_nil].
  destruct (gtidHasEventAfter_eq fetch rows Hfetch Hsec at_ g0) as ([] & -> & Hb).
  2: exists events, []; rewrite app_nil_r; split_and!; [done..|naive_solver|by intros ? ?%not_elem_of_nil].
  destruct (Hsplit g0 (proj1 Hb eq_refl)) as (pre & grp & Heq & Hgrp & Hpre).
  exists pre, grp. rewrite Heq, cut_loop_run, take_app_length by (done || by apply last_not_run).
  rewrite Forall_forall in Hgrp, Hpre. split_and!; [done..| |naive_solver].
  intros ev g Hev Hg Hne Hp. assert (Some g0 = Some g) as [= <-]; [|by apply (Hpre ev)].
  apply (Hl ev g); [|done..]. rewrite Heq. apply elem_of_app. by left.
Qed.

Definition one_server : list ResultRow :=
  [sample_change 1 5 "a:1" 1 (Some (sample_row 3)); sample_change 2 6 "a:2" 2 (Some (sample_row 4));
   sample_change 3 9 "a:2" 3 None].

Definition fetch_of (rows : list ResultRow) (g : string) (after : Z) : list ResultRow + string :=
  inl (filter (λ r, GTID r = Some g ∧ (after ≤ EventTimestamp r)%Z) rows).

Lemma fetch_of_finds rows : finds_rows (fetch_of rows) rows.
Proof.
  intros g after. eexists. split; [done|]. split.
  - intros H. destruct (filter _ rows) as [|r l] eqn:E; [done|]. exists r.
    assert (r ∈ filter (λ r, GTID r = Some g ∧ (after ≤ EventTimestamp r)%Z) rows) as Hr by (rewrite E; by left).
    apply list_elem_of_filter in Hr. naive_solver.
  - intros (r & Hr & Hg & Ht) E. apply (not_elem_of_nil r). rewrite <-E. by apply list_elem_of_filter.
Qed.

(** [transactions_contiguous] of three given rows. *)
Ltac three_contiguous :=
  intros l1 x l2 y l3 g E Hx Hy;
  destruct l1 as [|? [|? [|? l1]]], l2 as [|? [|? l2]]; simplify_list_eq; try discriminate; try (by constructor);
  destruct l1 || destruct l2; simplify_list_eq; discriminate.

(** The window cut at 7 s ends inside transaction [a:2]: its first row goes. *)
Lemma TrimPartialTailTransaction_atomic_witness :
  let events := filter (λ r, true ∧ (EventTimestamp r ≤ 7 * second)%Z) one_server in
  length events = 2 ∧ TrimPartialTailTransaction (fetch_of one_server) events (7 * second) = inl (take 1 events) ∧
  ∃ kept dropped,
    TrimPartialTailTransaction (fetch_of one_server) events (7 * second) = inl kept ∧ events = kept ++ dropped ∧
    (∀ ev g, ev ∈ kept → GTID ev = Some g → g ≠ "" → ¬ runs_past one_server (7 * second) g) ∧
    (∀ ev, ev ∈ dropped → ∃ g, GTID ev = Some g ∧ runs_past one_server (7 * second) g).
Proof.
  split; [reflexivity|]. split; [vm_compute; reflexivity|].
  apply (TrimPartialTailTransaction_atomic (fetch_of one_server) one_server (λ _, true) (7 * second)).
  - apply fetch_of_finds.
  - repeat constructor; [by exists 5%Z|by exists 6%Z|by exists 9%Z].
  - repeat constructor; by vm_compute.
  - unfold one_server. three_contiguous.
Defined.

(** The rows of one transaction stand together in the binary log, not in
    the (event_timestamp, event_id) order of a fetch, so a transaction that
    straddles the cut need not be the last one fetched: here transaction [a:1]
    ran statements at 10 s and 20 s, [a:2] one at 15 s, and the fetch cut at
    17 s ends with [a:2]. [TrimPartialTailTransaction] keeps everything, [a:1]
    in part. The rows are in the fetch's order, its query answers over every
    row of the server, and the binary log ([log], by position) has each
    transaction's rows together. *)
Theorem TrimPartialTailTransaction_keeps_partial :
  ∃ rows log at_,
    log ≡ₚ rows ∧ StronglySorted (λ a b, StartPos a < StartPos b)%N log ∧ transactions_contiguous log ∧
    in_time_order rows ∧ whole_seconds rows ∧ finds_rows (fetch_of rows) rows ∧
    let events := filter (λ r, (EventTimestamp r ≤ at_)%Z) rows in
    TrimPartialTailTransaction (fetch_of rows) events at_ = inl events ∧
    ∃ ev g, ev ∈ events ∧ GTID ev = Some g ∧ g ≠ "" ∧ runs_past rows at_ g.
Proof.
  exists [sample_change 2 10 "a:1" 1 (Some (sample_row 1)); sample_change 1 15 "a:2" 1 (Some (sample_row 2));
          sample_change 3 20 "a:1" 1 (Some (sample_row 3))],
    [sample_change 1 15 "a:2" 1 (Some (sample_row 2)); sample_change 2 10 "a:1" 1 (Some (sample_row 1));
     sample_change 3 20 "a:1" 1 (Some (sample_row 3))], (17 * second)%Z.
  split_and!.
  - apply Permutation_swap.
  - repeat constructor; by vm_compute.
  - three_contiguous.
  - repeat constructor; by vm_compute.
  - repeat constructor; [by exists 10%Z|by exists 15%Z|by exists 20%Z].
  - apply fetch_of_finds.
  - intros events. split; [vm_compute; reflexivity|].
    exists (sample_change 2 10 "a:1" 1 (Some (sample_row 1))), "a:1". split_and!; [|done..|].
    + apply list_elem_of_filter. split; [by vm_compute|by left].
    + eexists. split; [by right; right; left|]. by vm_compute.
Qed.
