(* ===== verification/SysVersion.v ===== *)
(** * MariaDB system versioning: [internal/sysversion/sysversion.go]

    Where a row version stands, read from its ROW END value, and the versioned
    shape of a schema snapshot. Reading a period out of the text of a CREATE
    TABLE statement ([FromCreateTable]) is not modelled. *)
From S2P Require Import Prelude GoStrings GoTime GoVal Event.

(** ** [time.ParseInLocation] with the layout [2006-01-02 15:04:05.999999] *)

Definition days_from_civil (y m d : Z) : Z :=
  let y' := (if m <=? 2 then y - 1 else y)%Z in
  let era := (y' / 400)%Z in
  let yoe := (y' mod 400)%Z in
  let doy := ((153 * ((m + 9) mod 12) + 2) / 5 + d - 1)%Z in
  (era * 146097 + yoe * 365 + yoe / 4 - yoe / 100 + doy - 306)%Z.

Definition is_leap (y : Z) : bool :=
  ((y mod 4 =? 0) && (negb (y mod 100 =? 0) || (y mod 400 =? 0)))%Z.

Definition days_in (m y : Z) : Z :=
  (if m =? 2 then if is_leap y then 29 else 28
   else if (m =? 4) || (m =? 6) || (m =? 9) || (m =? 11) then 30 else 31)%Z.

Definition digit_val (c : ascii) : Z := Z.of_N (byte_val c - 48).

(** [getnum]: two digits, or one when [fixed] is false. *)
Definition getnum (s : string) (fixed : bool) : option (Z * string) :=
  match s with
  | String a s' =>
      if is_digit a then
        match s' with
        | String b s'' =>
            if is_digit b then Some (digit_val a * 10 + digit_val b, s'')%Z
            else if fixed then None else Some (digit_val a, s')
        | "" => if fixed then None else Some (digit_val a, s')
        end
      else None
  | "" => None
  end.

Definition skip_byte (c : ascii) (s : string) : option string :=
  match s with
  | String d s' => if bool_decide (c = d) then Some s' else None
  | "" => None
  end.

(** A blank of the layout stands for any run of blanks. *)
Definition skip_blank (s : string) : option string :=
  match s with
  | String d _ => if bool_decide (d = " "%char) then Some (trim_left (λ c, bool_decide (c = " "%char)) s) else None
  | "" => Some ""
  end.

Fixpoint span_digits (s : string) : string * string :=
  match s with
  | String c s' => if is_digit c then let '(a, b) := span_digits s' in (String c a, b) else ("", s)
  | "" => ("", "")
  end.

(** The optional fraction: any number of digits, the first nine count. *)
Definition parse_fraction (s : string) : option (Z * string) :=
  match s with
  | String c s' =>
      if bool_decide (c = "."%char) || bool_decide (c = ","%char) then
        let '(ds, rest) := span_digits s' in
        if bool_decide (ds = "") then Some (0%Z, s)
        else
          let ds := str_take 9 ds in
          n ← digits_val ds 0;
          Some ((n * 10 ^ (9 - Z.of_nat (String.length ds)))%Z, rest)
      else Some (0%Z, s)
  | "" => Some (0%Z, "")
  end.

Definition parse_timestamp (s : string) : option Z :=
  year ← (if (4 <=? String.length s) && forallb is_digit (String.list_ascii_of_string (str_take 4 s))
          then digits_val (str_take 4 s) 0 else None);
  s ← skip_byte "-" (str_drop 4 s);
  '(month, s) ← getnum s true;
  s ← skip_byte "-" s;
  '(day_, s) ← getnum s true;
  s ← skip_blank s;
  '(hour_, s) ← getnum s false;
  s ← skip_byte ":" s;
  '(min, s) ← getnum s true;
  s ← skip_byte ":" s;
  '(sec, s) ← getnum s true;
  '(nsec, s) ← parse_fraction s;
  if bool_decide (s = "") && (1 <=? month)%Z && (month <=? 12)%Z && (1 <=? day_)%Z && (day_ <=? days_in month year)%Z
     && (hour_ <? 24)%Z && (min <? 60)%Z && (sec <? 60)%Z
  then Some (days_from_civil year month day_ * day + (hour_ * 3600 + min * 60 + sec) * second + nsec)%Z
  else None.

(** ** The state of a row version *)

Inductive State := Current | History.

#[export] Instance State_eq_dec : EqDecision State.
Proof. solve_decision. Defined.

Definition currentMarkers : list string := ["2038-01-19 03:14:07.999999"; "2106-02-07 06:28:15.999999"].

Definition IsCurrentMarker (v : GoVal) : bool :=
  match v with VString s => bool_decide (s ∈ currentMarkers) | _ => false end.

Definition historySlack : Z := 24 * hour.

Inductive RowEndError :=
| RowEndMissing
| RowEndNotTimestamp (v : GoVal)
| RowEndUnreadable (s : string)
| RowEndInFuture (s : string) (eventAt : Z).

Definition RowEnd (v : GoVal) (eventAt : Z) : State + RowEndError :=
  match v with
  | VNil => inr RowEndMissing
  | VString s =>
      if bool_decide (s ∈ currentMarkers) then inl Current
      else
        match parse_timestamp s with
        | None => inr (RowEndUnreadable s)
        | Some ts => if (eventAt + historySlack <? ts)%Z then inr (RowEndInFuture s eventAt) else inl History
        end
  | _ => inr (RowEndNotTimestamp v)
  end.

(** ** The shape of a versioned table in a snapshot *)

Record Period := { Start : string; End_ : string }.

(** The loop of [FromSnapshot] over the columns: the two slots and their types,
    empty while unset. *)
Fixpoint from_snapshot_loop (cols : list ColumnMeta) (p : Period) (startType endType : string)
    : option (Period * string * string) :=
  match cols with
  | [] => Some (p, startType, endType)
  | c :: rest =>
      let typ := to_lower (trim_space (DataType c)) in
      if negb (IsGenerated c) then from_snapshot_loop rest p startType endType
      else if negb (bool_decide (typ = "timestamp")) && negb (bool_decide (typ = "bigint"))
      then from_snapshot_loop rest p startType endType
      else if IsPK c then
        if negb (bool_decide (End_ p = "")) then None
        else from_snapshot_loop rest {| Start := Start p; End_ := Name c |} startType typ
      else
        if negb (bool_decide (Start p = "")) then None
        else from_snapshot_loop rest {| Start := Name c; End_ := End_ p |} typ endType
  end.

Definition FromSnapshot (cols : list ColumnMeta) : option Period :=
  match from_snapshot_loop cols {| Start := ""; End_ := "" |} "" "" with
  | None => None
  | Some (p, startType, endType) =>
      if bool_decide (Start p = "") || bool_decide (End_ p = "") || negb (bool_decide (startType = endType))
      then None else Some p
  end.

Example sysversion_samples :
  parse_timestamp "2024-02-29 23:59:59.999999" = Some 63844847999999999000%Z ∧
  parse_timestamp "2023-02-29 00:00:00" = None ∧
  parse_timestamp "2024-02-15 00:00:00" = Some (63843552000 * second)%Z ∧
  RowEnd (VString "2106-02-07 06:28:15.999999") 0 = inl Current ∧
  RowEnd (VString "2024-02-15 00:00:00.000000") (63843552000 * second) = inl History ∧
  RowEnd (VString "2024-02-17 00:00:00.000000") (63843552000 * second)
    = inr (RowEndInFuture "2024-02-17 00:00:00.000000" (63843552000 * second)).
Proof. repeat split; vm_compute; reflexivity. Qed.
