(* ===== verification/SqlText.v ===== *)
(** * SQL text of a recovery script: the value and name renderers of
    [internal/recovery/recovery.go]

    Literals, identifiers and comments in the two dialects, and the decoding of
    values the index stores in base64. What the servers read back from that
    text is modelled after their documented lexical rules ([read_literal],
    [read_name]); the round trips are proved against those readers. *)
From S2P Require Import Prelude GoStrings GoTime GoVal GoCodec Event.

Inductive Dialect := MySQLDialect | PostgresDialect.

#[export] Instance Dialect_eq_dec : EqDecision Dialect.
Proof. solve_decision. Defined.

Definition DialectForFlavor (flavor : string) : Dialect :=
  if bool_decide (flavor = "postgres") then PostgresDialect else MySQLDialect.

Definition quote1 : ascii := "'".
Definition backtick : ascii := "`".
Definition quote2 : ascii := ascii_of_N 34.
Definition nul_byte : ascii := ascii_of_N 0.

(** ** Names and strings *)

Definition EscapeString (s : string) : string :=
  let s := replace_byte backslash (String backslash (str1 backslash)) s in
  let s := replace_byte quote1 (String backslash (str1 quote1)) s in
  replace_byte nul_byte (String backslash "0") s.

Definition QuoteName (name : string) : string :=
  str1 backtick +:+ replace_byte backtick (String backtick (str1 backtick)) name +:+ str1 backtick.

Definition quoteNamePG (name : string) : string :=
  str1 quote2 +:+ replace_byte quote2 (String quote2 (str1 quote2)) name +:+ str1 quote2.

Definition escapePGString (s : string) : string := replace_byte quote1 (String quote1 (str1 quote1)) s.

Definition SanitizeForComment (isPrint : N → bool) (s : string) : string :=
  if one_line s then s else Quote isPrint s.

(** [b, _ := json.Marshal(val)]: an error leaves no bytes. *)
Definition json_text (v : GoVal) : string := default "" (json_marshal v).

Definition quoted (s : string) : string := str1 quote1 +:+ s +:+ str1 quote1.

(** [VInt] stands for the widths the switch names (int, int32, int64, uint32,
    uint64); the narrower ones, which its default arm would quote, are outside
    the model, as are floats: a decoded row image has [json.Number]s. *)
Definition FormatSQLValue (v : GoVal) : string :=
  match v with
  | VNil => "NULL"
  | VBool b => if b then "1" else "0"
  | VInt z => pretty z
  | VNumber s => s
  | VTime t => quoted (format_datetime_us t)
  | VBytes s => "X" +:+ quoted (hex_encode s)
  | VString s => quoted (EscapeString s)
  | VMap _ | VArray _ => quoted (EscapeString (json_text v))
  end.

Definition formatValuePG (v : GoVal) : string :=
  match v with
  | VNil => "NULL"
  | VString s => quoted (escapePGString s)
  | VNumber s => s
  | VBool b => if b then "true" else "false"
  | VMap _ | VArray _ => quoted (escapePGString (json_text v))
  | VInt _ | VBytes _ | VTime _ => quoted (escapePGString (format_v v))
  end.

Definition quoteName (d : Dialect) (name : string) : string :=
  match d with PostgresDialect => quoteNamePG name | MySQLDialect => QuoteName name end.

Definition formatValue (d : Dialect) (v : GoVal) : string :=
  match d with PostgresDialect => formatValuePG v | MySQLDialect => FormatSQLValue v end.

(** ** Values stored in base64 *)

Definition isSpatialType (dataType : string) : bool :=
  bool_decide (to_lower dataType ∈
    ["geometry"; "point"; "linestring"; "polygon"; "multipoint"; "multilinestring"; "multipolygon";
     "geometrycollection"; "geomcollection"]).

(** [Some binary] when the type is stored in base64. *)
Definition base64StoredKind (dataType : string) : option bool :=
  let t := to_lower dataType in
  if bool_decide (t ∈ ["blob"; "tinyblob"; "mediumblob"; "longblob"; "binary"; "varbinary";
                        "vector"; "uuid"; "inet4"; "inet6"]) then Some true
  else if bool_decide (t ∈ ["text"; "tinytext"; "mediumtext"; "longtext"; "json"]) then Some false
  else None.

Definition decodeStoredBase64 (v : GoVal) (binary : bool) : GoVal :=
  let as_kind (text : string) := if binary then VBytes text else VString text in
  match v with
  | VString val =>
      match b64_decode val with
      | None => v
      | Some b => as_kind b
      end
  | VBool b => as_kind (if b then "true" else "false")
  | VNumber s => as_kind s
  | _ => v
  end.

Definition geometryLiteral (v : GoVal) : option string :=
  match v with
  | VString s =>
      match b64_decode s with
      | None => None
      | Some raw =>
          if String.length raw <? 4 then None
          else
            Some ("ST_GeomFromWKB(X" +:+ quoted (hex_encode (str_drop 4 raw)) +:+ ", " +:+
                  pretty (le_uint32 raw) +:+ ")")
      end
  | _ => None
  end.

(** ** What a server reads

    MySQL string literals (the script pins an [sql_mode] without
    [NO_BACKSLASH_ESCAPES]) and PostgreSQL ones (it pins
    [standard_conforming_strings]), hexadecimal literals, quoted names, and
    unquoted words up to a comma, a blank, a closing parenthesis or the end. *)

Inductive SqlLit :=
| LWord (s : string)
| LString (s : string)
| LBytes (s : string).

(** The character a MySQL escape stands for; [\%] and [\_] keep the backslash. *)
Definition mysql_escape (c : ascii) : string :=
  let b := byte_val c in
  if (b =? 48)%N then chr 0 else if (b =? 98)%N then chr 8 else if (b =? 110)%N then chr 10
  else if (b =? 114)%N then chr 13 else if (b =? 116)%N then chr 9 else if (b =? 90)%N then chr 26
  else if (b =? 37)%N || (b =? 95)%N then String backslash (str1 c) else str1 c.

(** The body of a literal after its opening quote, and the text after its
    closing one. [escapes] turns the backslash on. *)
Fixpoint read_quoted (q : ascii) (escapes : bool) (s : string) : option (string * string) :=
  match s with
  | "" => None
  | String c s' =>
      if bool_decide (c = q) then
        match s' with
        | String d s'' =>
            if bool_decide (d = q)
            then '(body, rest) ← read_quoted q escapes s''; Some (String q body, rest)
            else Some ("", s')
        | "" => Some ("", "")
        end
      else if escapes && bool_decide (c = backslash) then
        match s' with
        | String d s'' => '(body, rest) ← read_quoted q escapes s''; Some (mysql_escape d +:+ body, rest)
        | "" => None
        end
      else '(body, rest) ← read_quoted q escapes s'; Some (String c body, rest)
  end.

Definition unhex (c : ascii) : option N :=
  let b := byte_val c in
  if is_digit c then Some (b - 48)%N
  else if ((97 <=? b) && (b <=? 102))%N then Some (b - 87)%N
  else if ((65 <=? b) && (b <=? 70))%N then Some (b - 55)%N
  else None.

Fixpoint read_hex (s : string) : option (string * string) :=
  match s with
  | String a s' =>
      if bool_decide (a = quote1) then Some ("", s')
      else
        match s' with
        | String b s'' =>
            x ← unhex a; y ← unhex b;
            '(body, rest) ← read_hex s'';
            Some (String (ascii_of_N (16 * x + y)) body, rest)
        | "" => None
        end
  | "" => None
  end.

Definition is_delim (c : ascii) : bool :=
  ((byte_val c =? 32) || (byte_val c =? 41) || (byte_val c =? 44))%N.

Fixpoint read_word (s : string) : string * string :=
  match s with
  | String c s' => if is_delim c then ("", s) else let '(w, rest) := read_word s' in (String c w, rest)
  | "" => ("", "")
  end.

Definition read_literal (d : Dialect) (s : string) : option (SqlLit * string) :=
  match s with
  | String c s' =>
      if bool_decide (c = quote1) then
        '(body, rest) ← read_quoted quote1 (bool_decide (d = MySQLDialect)) s'; Some (LString body, rest)
      else if bool_decide (c = "X"%char) && bool_decide (d = MySQLDialect) then
        s'' ← (match s' with
               | String q s'' => if bool_decide (q = quote1) then Some s'' else None
               | "" => None
               end);
        '(body, rest) ← read_hex s''; Some (LBytes body, rest)
      else let '(w, rest) := read_word s in Some (LWord w, rest)
  | "" => None
  end.

Definition read_name (d : Dialect) (s : string) : option (string * string) :=
  let q := match d with MySQLDialect => backtick | PostgresDialect => quote2 end in
  match s with
  | String c s' => if bool_decide (c = q) then read_quoted q false s' else None
  | "" => None
  end.

(** The literal a value is meant to be. *)
Definition literal_of (d : Dialect) (v : GoVal) : SqlLit :=
  match v, d with
  | VNil, _ => LWord "NULL"
  | VString s, _ => LString s
  | VNumber s, _ => LWord s
  | (VMap _ | VArray _), _ => LString (json_text v)
  | VBool b, MySQLDialect => LWord (if b then "1" else "0")
  | VBool b, PostgresDialect => LWord (if b then "true" else "false")
  | VInt z, MySQLDialect => LWord (pretty z)
  | VTime t, MySQLDialect => LString (format_datetime_us t)
  | VBytes s, MySQLDialect => LBytes s
  | (VInt _ | VTime _ | VBytes _), PostgresDialect => LString (format_v v)
  end.

Example sql_samples :
  FormatSQLValue (VString "it's \ ok") = "'it\'s \\ ok'" ∧
  FormatSQLValue (VBytes ("a" +:+ chr 255)) = "X'61ff'" ∧
  formatValuePG (VString "it's \ ok") = "'it''s \ ok'" ∧
  QuoteName "a`b" = "`a``b`" ∧
  geometryLiteral (VString (b64_encode (chr 230 +:+ chr 16 +:+ chr 0 +:+ chr 0 +:+ chr 1)))
    = Some "ST_GeomFromWKB(X'01', 4326)" ∧
  read_literal MySQLDialect "'it\'s \\ ok', 2" = Some (LString "it's \ ok", ", 2") ∧
  read_literal MySQLDialect "X'61ff')" = Some (LBytes ("a" +:+ chr 255), ")").
Proof. repeat split; vm_compute; reflexivity. Qed.

(** ** Lemmas *)

(** [rest] does not continue a literal or a name quoted with [q]. *)
Definition not_byte (q : ascii) (rest : string) : Prop := match rest with String c _ => c ≠ q | "" => True end.

(** [rest] ends a word. *)
Definition ends_word (rest : string) : Prop := match rest with String c _ => is_delim c = true | "" => True end.

Lemma read_quoted_close q escapes rest :
  not_byte q rest → read_quoted q escapes (str1 q +:+ rest) = Some ("", rest).
Proof.
  intros H. simpl. rewrite bool_decide_eq_true_2 by done. destruct rest as [|c rest]; [done|].
  simpl in *. by rewrite bool_decide_eq_false_2.
Qed.

Lemma read_quoted_doubled q s rest :
  not_byte q rest →
  read_quoted q false (replace_byte q (String q (str1 q)) s +:+ str1 q +:+ rest) = Some (s, rest).
Proof.
  intros H. induction s as [|c s IH]; [by apply read_quoted_close|].
  cbn [replace_byte]. rewrite str_app_assoc. destruct (decide (q = c)) as [<-|Hc].
  - simpl. rewrite !bool_decide_eq_true_2 by done. simpl in IH. by rewrite IH.
  - simpl. rewrite bool_decide_eq_false_2 by done. simpl in IH. by rewrite IH.
Qed.

Definition escaped_byte (c : ascii) : string :=
  if decide (c = backslash) then String backslash (str1 backslash)
  else if decide (c = quote1) then String backslash (str1 quote1)
  else if decide (c = nul_byte) then String backslash "0" else str1 c.

Lemma EscapeString_cons c s : EscapeString (String c s) = escaped_byte c +:+ EscapeString s.
Proof.
  unfold EscapeString. cbn [replace_byte]. rewrite !replace_byte_app. f_equal. unfold escaped_byte.
  destruct (decide (backslash = c)) as [<-|H1]; [done|]. rewrite decide_False by congruence. cbn [replace_byte str1].
  destruct (decide (quote1 = c)) as [<-|H2]; [done|]. rewrite (decide_False (P := c = _)) by congruence.
  simpl. destruct (decide (nul_byte = c)) as [<-|H3]; [done|]. by rewrite decide_False by congruence.
Qed.

Lemma read_quoted_escape s rest :
  not_byte quote1 rest →
  read_quoted quote1 true (EscapeString s +:+ str1 quote1 +:+ rest) = Some (s, rest).
Proof.
  intros H. induction s as [|c s IH]; [by apply read_quoted_close|].
  rewrite EscapeString_cons, str_app_assoc. unfold escaped_byte. simpl in IH.
  destruct (decide (c = backslash)) as [->|H1]; [simpl; by rewrite IH|].
  destruct (decide (c = quote1)) as [->|H2]; [simpl; by rewrite IH|].
  destruct (decide (c = nul_byte)) as [->|H3]; [simpl; by rewrite IH|].
  simpl. rewrite !bool_decide_eq_false_2 by done. simpl. by rewrite IH.
Qed.

(** Text without quotes and backslashes needs no escaping. *)
Lemma read_quoted_plain escapes s rest :
  not_byte quote1 rest → has_byte quote1 s = false → has_byte backslash s = false →
  read_quoted quote1 escapes (s +:+ str1 quote1 +:+ rest) = Some (s, rest).
Proof.
  intros H. induction s as [|c s IH]; [by intros; apply read_quoted_close|].
  simpl. rewrite !orb_false_iff, !bool_decide_eq_false. intros [H1 H2] [H3 H4].
  rewrite !bool_decide_eq_false_2 by congruence. rewrite andb_false_r. simpl in IH. by rewrite IH.
Qed.

Lemma read_hex_encode s rest : read_hex (hex_encode s +:+ str1 quote1 +:+ rest) = Some (s, rest).
Proof.
  induction s as [|c s IH]; [done|]. simpl in *.
  assert (bool_decide (hex_digit (byte_val c / 16) = quote1) = false ∧
    unhex (hex_digit (byte_val c / 16)) = Some (byte_val c / 16)%N ∧
    unhex (hex_digit (byte_val c mod 16)) = Some (byte_val c mod 16)%N ∧
    ascii_of_N (16 * (byte_val c / 16) + byte_val c mod 16) = c) as (-> & -> & -> & E).
  { destruct c as [[] [] [] [] [] [] [] []]; repeat split; reflexivity. }
  simpl. rewrite IH. simpl. by rewrite E.
Qed.

(** A bare word: not empty, no delimiter, and not the start of a literal. *)
Definition word_byte (c : ascii) : bool :=
  negb (is_delim c) && negb (bool_decide (c = quote1)) && negb (bool_decide (c = "X"%char)).

Lemma read_word_app s rest :
  str_forall word_byte s = true → ends_word rest → read_word (s +:+ rest) = (s, rest).
Proof.
  intros Hs Hr. induction s as [|c s IH]; simpl in *.
  - destruct rest as [|c rest]; [done|]. simpl in *. by rewrite Hr.
  - apply andb_true_iff in Hs as [Hc Hs]. unfold word_byte in Hc. rewrite !andb_true_iff, !negb_true_iff in Hc.
    destruct Hc as [[-> _] _]. by rewrite IH.
Qed.

Lemma read_literal_word d s rest :
  s ≠ "" → str_forall word_byte s = true → ends_word rest → read_literal d (s +:+ rest) = Some (LWord s, rest).
Proof.
  intros Hne Hs Hr. pose proof (read_word_app s rest Hs Hr) as E. destruct s as [|c s]; [done|]. simpl in *.
  apply andb_true_iff in Hs as [Hc _]. unfold word_byte in Hc. rewrite !andb_true_iff, !negb_true_iff in Hc.
  destruct Hc as [[_ ->] ->]. simpl. by rewrite E.
Qed.

Lemma read_literal_quoted d body s rest :
  read_quoted quote1 (bool_decide (d = MySQLDialect)) (body +:+ str1 quote1 +:+ rest) = Some (s, rest) →
  read_literal d (quoted body +:+ rest) = Some (LString s, rest).
Proof. intros H. unfold quoted. cbn [str1 String.app read_literal]. rewrite str_app_assoc. simpl in *. by rewrite H. Qed.

Lemma read_literal_hex s rest :
  read_literal MySQLDialect (("X" +:+ quoted (hex_encode s)) +:+ rest) = Some (LBytes s, rest).
Proof.
  unfold quoted. pose proof (read_hex_encode s rest) as H. simpl in *. rewrite str_app_assoc. simpl. by rewrite H.
Qed.

Lemma pretty_N_go_word x s : str_forall word_byte s = true → str_forall word_byte (pretty_N_go x s) = true.
Proof.
  revert s. induction (N.lt_wf_0 x) as [x _ IH]; intros s Hs.
  destruct (decide (0 < x)%N) as [Hx|Hx].
  - rewrite pretty_N_go_step by done. apply IH; [apply N.div_lt; lia|]. simpl. rewrite Hs, andb_true_r.
    unfold pretty_N_char. repeat case_match; reflexivity.
  - by replace x with 0%N by lia.
Qed.

Lemma pretty_N_go_nonempty x s : s ≠ "" → pretty_N_go x s ≠ "".
Proof.
  revert s. induction (N.lt_wf_0 x) as [x _ IH]; intros s Hs.
  destruct (decide (0 < x)%N) as [Hx|Hx].
  - rewrite pretty_N_go_step by done. apply IH; [apply N.div_lt; lia|done].
  - by replace x with 0%N by lia.
Qed.

Lemma pretty_Z_word (z : Z) : pretty z ≠ "" ∧ str_forall word_byte (pretty z) = true.
Proof.
  assert (∀ n : N, pretty n ≠ "" ∧ str_forall word_byte (pretty n) = true) as Hn.
  { intros n. unfold pretty, pretty_N. destruct (decide (n = 0%N)) as [->|Hn]; [done|].
    split; [|by apply pretty_N_go_word]. rewrite pretty_N_go_step by lia. by apply pretty_N_go_nonempty. }
  unfold pretty, pretty_Z. destruct z; [done|apply Hn|]. split; [done|]. simpl. apply Hn.
Qed.

(** The bytes of a JSON number are those of a word. *)
Lemma skip_digits_word s : str_forall word_byte (skip_digits s) = true → str_forall word_byte s = true.
Proof.
  induction s as [|c s IH]; [done|]. simpl. destruct (is_digit c) eqn:Hc; [|done]. intros H. rewrite IH by done.
  rewrite andb_true_r. destruct c as [[] [] [] [] [] [] [] []]; done.
Qed.

(** A word after one of the bytes a number has at its fixed places. *)
Lemma drop_byte_word c s :
  is_byte c s = true → word_byte c = true → str_forall word_byte (str_drop 1 s) = true →
  str_forall word_byte s = true.
Proof.
  destruct s as [|d s]; [done|]. simpl. rewrite bool_decide_eq_true. intros -> Hc. rewrite Hc. by destruct s.
Qed.

Lemma valid_exponent_word s : valid_exponent s = true → str_forall word_byte s = true.
Proof.
  unfold valid_exponent. destruct (is_byte "e" s || is_byte "E" s) eqn:E; [|by rewrite bool_decide_eq_true; intros ->].
  rewrite andb_true_iff, bool_decide_eq_true. intros [_ Hd].
  assert (str_forall word_byte (str_drop 1 s) = true) as H.
  { destruct (is_byte "+" (str_drop 1 s) || is_byte "-" (str_drop 1 s)) eqn:Es.
    - apply orb_true_iff in Es as [Es|Es]; (eapply drop_byte_word; [exact Es|done|]); apply skip_digits_word; by rewrite Hd.
    - apply skip_digits_word. by rewrite Hd. }
  apply orb_true_iff in E as [E|E]; by eapply drop_byte_word.
Qed.

Lemma valid_fraction_word s : valid_fraction s = true → str_forall word_byte s = true.
Proof.
  unfold valid_fraction. destruct (is_byte "." s && starts_digit (str_drop 1 s)) eqn:E; [|by apply valid_exponent_word].
  apply andb_true_iff in E as [E _]. intros H%valid_exponent_word%skip_digits_word. by eapply drop_byte_word.
Qed.

Lemma valid_number_word s : valid_number s = true → s ≠ "" ∧ str_forall word_byte s = true.
Proof.
  intros H. split; [by intros ->|]. unfold valid_number in H.
  apply andb_true_iff in H as [_ H%valid_fraction_word].
  assert (∀ t, str_forall word_byte (if is_byte "0" t then str_drop 1 t else skip_digits t) = true →
            str_forall word_byte t = true) as Hint.
  { intros t Ht. destruct (is_byte "0" t) eqn:E; [by eapply drop_byte_word|by apply skip_digits_word]. }
  apply Hint in H. destruct (is_byte "-" s) eqn:E; [by eapply drop_byte_word|done].
Qed.

Lemma padZ_no_byte c w z : is_digit c = false → has_byte c (padZ w z) = false.
Proof. intros. unfold padZ, pad. by apply fixed_no_byte. Qed.

Lemma format_datetime_us_plain c t :
  is_digit c = false → has_byte c "-: ." = false → has_byte c (format_datetime_us t) = false.
Proof.
  intros Hd Hc. unfold format_datetime_us, format_datetime, format_date, format_clock.
  destruct (civil (t / day)) as [[y m] d]. simpl in Hc.
  rewrite !orb_false_iff, !bool_decide_eq_false in Hc. destruct Hc as (? & ? & ? & ? & _).
  rewrite !has_byte_app, !padZ_no_byte by done. simpl. by rewrite !bool_decide_eq_false_2.
Qed.

(** ** Properties *)

(** C31: a value's literal is read back as the value: the server reads exactly
    the bytes of a string or a binary value, or the digits of a number, and
    goes on after the literal; no byte of a value can end its literal early or
    be taken for SQL. It holds in both dialects, for any value whose numbers
    are JSON numbers, before a delimiter or the end of the statement. *)
Theorem formatValue_roundtrip d v rest :
  (∀ s, v = VNumber s → valid_number s = true) → ends_word rest →
  read_literal d (formatValue d v +:+ rest) = Some (literal_of d v, rest).
Proof.
  intros Hnum Hr.
  assert (not_byte quote1 rest) as Hq.
  { destruct rest as [|c rest]; [done|]. simpl in *. by intros ->. }
  pose proof (λ s, read_quoted_escape s rest Hq) as Hmy. pose proof (λ s, read_quoted_doubled quote1 s rest Hq) as Hpg.
  destruct v as [|b|z|s|s|s|t|l|m], d;
    try (by apply read_literal_word);
    try (by destruct b; apply read_literal_word);
    try (by apply read_literal_word; [apply pretty_Z_word..|]);
    try (by apply read_literal_word; [apply valid_number_word, Hnum..|]);
    try (by apply read_literal_quoted, Hmy); try (by apply read_literal_quoted, Hpg).
  - apply read_literal_hex.
  - apply read_literal_quoted, read_quoted_plain; [done|by apply format_datetime_us_plain..].
Qed.

Lemma formatValue_roundtrip_witness :
  read_literal MySQLDialect "'O\'Brien\\', 7" = Some (LString "O'Brien\", ", 7").
Proof.
  apply (formatValue_roundtrip MySQLDialect (VString "O'Brien\") ", 7"); [done|reflexivity].
Defined.

(** A schema, table or column name is read back as itself, whatever quotes
    it holds, and the text after it is what followed it. *)
Theorem quoteName_roundtrip d name rest :
  not_byte (match d with MySQLDialect => backtick | PostgresDialect => quote2 end) rest →
  read_name d (quoteName d name +:+ rest) = Some (name, rest).
Proof.
  intros H. destruct d; simpl; unfold QuoteName, quoteNamePG; simpl; rewrite str_app_assoc;
    by apply read_quoted_doubled.
Qed.

Lemma quoteName_roundtrip_witness : read_name MySQLDialect "`a``b`.`c`" = Some ("a`b", ".`c`").
Proof. apply (quoteName_roundtrip MySQLDialect "a`b" ".`c`"). vm_compute. discriminate. Defined.

(** What is written into a comment line stays in it: a sanitized value
    holds no line feed, carriage return or NUL byte, and one that held none is
    left as it is. *)
Theorem SanitizeForComment_one_line isPrint s :
  one_line (SanitizeForComment isPrint s) = true ∧
  (one_line s = true → SanitizeForComment isPrint s = s).
Proof.
  unfold SanitizeForComment. destruct (one_line s) eqn:E; split; [done..|apply Quote_one_line|done].
Qed.

(** Decoding what the index stores of a binary or a text value gives the value
    back: the writer encodes its bytes in base64. *)
Lemma decodeStoredBase64_roundtrip s binary :
  decodeStoredBase64 (VString (b64_encode s)) binary = if binary then VBytes s else VString s.
Proof. unfold decodeStoredBase64. by rewrite b64_roundtrip. Qed.
