(* ===== verification/Recovery.v ===== *)
(** * Recovery scripts: [internal/recovery/recovery.go],
    [internal/recovery/sysversion.go]

    The generator that turns indexed changes into a script that undoes them:
    which schema snapshot types a row, the reversal of one change, the guards
    that refuse the whole script, and the text of the script with the offset
    of every statement.

    [resolverForRow] keeps the first answer of [metadata.NewResolver] for a
    version in a cache, so within a generator it is a function of the version:
    [g_load], [None] where loading failed. [g_flavor] is the answer of
    [query.SourceFlavor], read once. Errors are values; the writer is the
    string written. Log lines are left out, and so are the comment lines a
    failed event leaves in the body, which a refusal drops. *)
From S2P Require Import Prelude GoStrings GoTime GoVal GoCodec Event Rows BinlogOrder Spill Fold Reconstruct SysVersion SqlText.

(** ** Schema snapshots: [metadata.Resolver] *)

Record Resolver := { r_SnapshotID : N; r_tables : gmap string TableMeta }.

Definition Resolve (r : Resolver) (schema table : string) : option TableMeta :=
  r_tables r !! (schema +:+ "." +:+ table).

Record Generator := {
  g_load : option (N → option Resolver);   (* nil database: None *)
  g_resolver : option Resolver;
  g_dialect : Dialect;
  g_maxScriptBytes : Z;
  g_suppressTriggers : bool;
  g_restoreAutoIncrement : bool;
  g_flavor : string;
  g_binlogOrder : bool;
  g_orderProof : option (list ResultRow → IDProof);
}.

Definition resolverForRow (g : Generator) (row : ResultRow) : option Resolver :=
  match g_load g with
  | None => g_resolver g
  | Some load =>
      if (SchemaVersion row =? 0)%N then g_resolver g
      else
        let same := match g_resolver g with
                    | Some r => (r_SnapshotID r mod 2 ^ 32 =? SchemaVersion row)%N
                    | None => false
                    end in
        if same then g_resolver g
        else match load (SchemaVersion row) with Some r => Some r | None => g_resolver g end
  end.

Definition resolve_opt (r : option Resolver) (schema table : string) : option TableMeta :=
  r ≫= λ r, Resolve r schema table.

(** ** The script-size budget *)

Fixpoint estimateValueBytes (v : GoVal) : Z :=
  match v with
  | VNil => 0
  | VString s | VBytes s | VNumber s => Z.of_nat (String.length s)
  | VBool _ => 1
  | VMap m =>
      foldr Z.add 0 ((λ kv, Z.of_nat (String.length kv.1) + kv.2) <$> map_to_list (estimateValueBytes <$> m))
  | VArray l => foldr Z.add 0 (estimateValueBytes <$> l)
  | VInt _ | VTime _ => 16
  end%Z.

Definition estimateRowBytes (m : option Row) : Z :=
  match m with Some m => estimateValueBytes (VMap m) | None => 0%Z end.

Definition EstimateScriptBytes (rows : list ResultRow) : Z :=
  foldl (λ total r, total + Z.of_nat (String.length (PKValues r)) + estimateRowBytes (RowBefore r)
                    + estimateRowBytes (RowAfter r))%Z 0%Z rows.

Record ScriptBudgetError := { EstimatedBytes : Z; sb_Budget : Z }.

Definition CheckScriptBudget (g : Generator) (rows : list ResultRow) : option ScriptBudgetError :=
  if (g_maxScriptBytes g <=? 0)%Z then None
  else
    let est := EstimateScriptBytes rows in
    if (g_maxScriptBytes g <? est)%Z then Some {| EstimatedBytes := est; sb_Budget := g_maxScriptBytes g |} else None.

(** ** Column classes *)

Definition base64Cols (g : Generator) (r : option Resolver) (schema table : string) : gmap string bool :=
  match g_dialect g, resolve_opt r schema table with
  | MySQLDialect, Some tm =>
      foldl (λ m c, match base64StoredKind (DataType c) with Some binary => <[Name c := binary]> m | None => m end)
        ∅ (Columns tm)
  | _, _ => ∅
  end.

Definition geometryCols (g : Generator) (r : option Resolver) (schema table : string) : gset string :=
  match g_dialect g, resolve_opt r schema table with
  | MySQLDialect, Some tm => list_to_set (Name <$> filter (λ c, isSpatialType (DataType c) = true) (Columns tm))
  | _, _ => ∅
  end.

Definition formatColumnValue (g : Generator) (col : string) (v : GoVal) (geom : gset string)
    (b64 : gmap string bool) : string :=
  match (if bool_decide (col ∈ geom) then geometryLiteral v else None) with
  | Some lit => lit
  | None =>
      let v := match b64 !! col with Some binary => decodeStoredBase64 v binary | None => v end in
      formatValue (g_dialect g) v
  end.

Definition generatedColsFromResolver (r : option Resolver) (schema table : string) : gset string :=
  match resolve_opt r schema table with
  | Some tm => list_to_set (Name <$> filter (λ c, IsGenerated c = true) (Columns tm))
  | None => ∅
  end.

Definition updateSetSkipCols (r : option Resolver) (schema table : string) : gset string :=
  match resolve_opt r schema table with
  | Some tm => list_to_set (Name <$> filter (λ c, IsGenerated c = true ∨ IsIdentityAlways c = true) (Columns tm))
  | None => ∅
  end.

(** ** System versioning *)

Definition sourceFlavor (g : Generator) : string :=
  match g_load g with Some _ => g_flavor g | None => "" end.

Definition generated_pk (tm : TableMeta) : list ColumnMeta :=
  filter (λ c, IsPK c = true ∧ IsGenerated c = true) (Columns tm).

(** [Some end] is [(end, true)]. *)
Definition sysVersionedEnd (g : Generator) (tm : TableMeta) : option string :=
  match last (generated_pk tm) with
  | None => None
  | Some c =>
      let flavor := sourceFlavor g in
      if bool_decide (flavor = "mysql") || bool_decide (flavor = "postgres") then None
      else if bool_decide (flavor = "mariadb") then
        if length (generated_pk tm) =? 1 then Some (Name c) else None
      else End_ <$> FromSnapshot (Columns tm)
  end.

Definition row_images (row : ResultRow) : list Row := omap id [RowBefore row; RowAfter row].

Definition imageHoldsMarker (row : ResultRow) : bool :=
  existsb (λ img : Row, existsb (λ kv, IsCurrentMarker kv.2) (map_to_list img)) (row_images row).

Definition markerInGeneratedKey (tm : TableMeta) (row : ResultRow) : bool :=
  existsb (λ c, existsb (λ img : Row, IsCurrentMarker (row_get img (Name c))) (row_images row)) (generated_pk tm).

Definition sysVersionedTable (g : Generator) (row : ResultRow) : option TableMeta :=
  resolve_opt (resolverForRow g row) (SchemaName row) (TableName row).

Inductive SvRefusal :=
| SvNoSnapshot        (* cannot tell without a schema snapshot *)
| SvUnknownSource     (* a marker in a generated key of a source not recorded as MariaDB *)
| SvNoImage           (* the event has no image to read ROW END from *)
| SvRowEnd (e : RowEndError)
| SvRevived.          (* makes a history version current again *)

Inductive SvDecision :=
| SvReverse (row : ResultRow)
| SvSkip (why : string)
| SvRefuse (e : SvRefusal).

Definition with_delete (row : ResultRow) : ResultRow := {|
  EventID := EventID row; BinlogFile := BinlogFile row; StartPos := StartPos row; EndPos := EndPos row;
  EventTimestamp := EventTimestamp row; GTID := GTID row; ConnectionID := ConnectionID row;
  SchemaName := SchemaName row; TableName := TableName row; EventType := EventDelete; PKValues := PKValues row;
  RowChangedColumns := RowChangedColumns row; RowBefore := RowBefore row; RowAfter := None;
  SchemaVersion := SchemaVersion row; QueryText := QueryText row; QueryHash := QueryHash row;
  CommitTsUS := CommitTsUS row; KeySpanFirst := KeySpanFirst row; KeySpanLast := KeySpanLast row |}.

(** The closure [state] of [sysVersionedReversal]. *)
Definition sv_state (end_ : string) (at_ : Z) (img : option Row) : State + SvRefusal :=
  match img with
  | None => inr SvNoImage
  | Some img => match RowEnd (row_get img end_) at_ with inl st => inl st | inr e => inr (SvRowEnd e) end
  end.

Definition sysVersionedReversal (g : Generator) (row : ResultRow) : SvDecision :=
  match sysVersionedTable g row with
  | None =>
      if imageHoldsMarker row && negb (bool_decide (sourceFlavor g = "mysql"))
         && negb (bool_decide (sourceFlavor g = "postgres"))
      then SvRefuse SvNoSnapshot else SvReverse row
  | Some tm =>
      match sysVersionedEnd g tm with
      | None => if markerInGeneratedKey tm row then SvRefuse SvUnknownSource else SvReverse row
      | Some end_ =>
          let state := sv_state end_ (EventTimestamp row) in
          if (EventType row =? EventInsert)%N then
            match state (RowAfter row) with
            | inr e => SvRefuse e
            | inl History => SvSkip "this is a history version of the row (an old version kept when the row changed, or one written into history directly), not a change to its current rows"
            | inl Current => SvReverse row
            end
          else if (EventType row =? EventUpdate)%N then
            match state (RowBefore row) with
            | inr e => SvRefuse e
            | inl before =>
                match state (RowAfter row) with
                | inr e => SvRefuse e
                | inl after =>
                    match before, after with
                    | Current, History => SvReverse (with_delete row)
                    | History, History => SvSkip "this edits a history version; history cannot be written back"
                    | History, Current => SvRefuse SvRevived
                    | Current, Current => SvReverse row
                    end
                end
            end
          else if (EventType row =? EventDelete)%N then
            match state (RowBefore row) with
            | inr e => SvRefuse e
            | inl History => SvSkip "this removed a history version (DELETE HISTORY or partition rotation); history cannot be written back"
            | inl Current => SvReverse row
            end
          else SvReverse row
      end
  end.

(** ** One statement *)

Definition where_term (d : Dialect) (col : string) (v : GoVal) : string :=
  quoteName d col +:+ " = " +:+ formatValue d v.

Definition allColsWhere (g : Generator) (row : Row) : list string * list string :=
  let cols := sortedKeys row in
  ((λ col,
      match row_get row col with
      | VNil => quoteName (g_dialect g) col +:+ " IS NULL"
      | v => where_term (g_dialect g) col v
      end) <$> cols, cols).

(** The key columns, less a system-versioned table's ROW END. *)
Definition where_pk (g : Generator) (tm : TableMeta) : list ColumnMeta :=
  match sysVersionedEnd g tm with
  | Some end_ => filter (λ c, Name c ≠ end_) (PKColumnMetas tm)
  | None => PKColumnMetas tm
  end.

(** The terms of a key, [None] when the row lacks one of its columns. *)
Fixpoint pk_terms (g : Generator) (b64 : gmap string bool) (pkCols : list ColumnMeta) (row : Row)
    : option (list string * list string) :=
  match pkCols with
  | [] => Some ([], [])
  | pk :: rest =>
      v ← row !! Name pk;
      let v := match b64 !! Name pk with Some binary => decodeStoredBase64 v binary | None => v end in
      '(parts, names) ← pk_terms g b64 rest row;
      Some (where_term (g_dialect g) (Name pk) v :: parts, Name pk :: names)
  end.

(** The clauses, the columns they name, and whether all columns were used. *)
Definition pkWhereClause (g : Generator) (r : option Resolver) (schema table : string) (row : Row)
    : list string * list string * bool :=
  let keyed :=
    tm ← resolve_opt r schema table;
    let pkCols := where_pk g tm in
    if 0 <? length pkCols then pk_terms g (base64Cols g r schema table) pkCols row else None in
  match keyed with
  | Some (parts, names) => (parts, names, false)
  | None => let '(clauses, cols) := allColsWhere g row in (clauses, cols, true)
  end.

Definition rowLimitSuffix (g : Generator) (allColsFallback : bool) : string :=
  if allColsFallback && bool_decide (g_dialect g = MySQLDialect) then " LIMIT 1" else "".

Definition newline : string := chr 10.

Definition allColsFallbackWarningComment (g : Generator) (allColsFallback : bool) : string :=
  if allColsFallback && bool_decide (g_dialect g = PostgresDialect)
  then "-- WARNING: unbounded all-columns WHERE, no per-statement row cap on this dialect " +:+
       "- may affect every byte-identical duplicate row, not just the one this event touched" +:+ newline
  else "".

Definition table_name (g : Generator) (row : ResultRow) : string :=
  quoteName (g_dialect g) (SchemaName row) +:+ "." +:+ quoteName (g_dialect g) (TableName row).

Inductive StmtError :=
| BeforeNil (event : string)
| AfterNil (event : string)
| SnapshotEvent
| UnknownEvent (t : N).

(** A statement and the columns it names. *)
Definition buildInsert (g : Generator) (row : ResultRow) : (string * list string) + StmtError :=
  match RowBefore row with
  | None => inr (BeforeNil "DELETE")
  | Some before =>
      let r := resolverForRow g row in
      let genCols := generatedColsFromResolver r (SchemaName row) (TableName row) in
      let b64 := base64Cols g r (SchemaName row) (TableName row) in
      let geom := geometryCols g r (SchemaName row) (TableName row) in
      let cols := filter (λ col, col ∉ genCols) (sortedKeys before) in
      let overriding := if bool_decide (g_dialect g = PostgresDialect) then " OVERRIDING SYSTEM VALUE" else "" in
      inl ("INSERT INTO " +:+ table_name g row +:+ " (" +:+
             String.concat ", " (quoteName (g_dialect g) <$> cols) +:+ ")" +:+ overriding +:+ " VALUES (" +:+
             String.concat ", " ((λ col, formatColumnValue g col (row_get before col) geom b64) <$> cols) +:+ ")",
           cols)
  end.

Definition buildUpdate (g : Generator) (row : ResultRow) : (string * list string) + StmtError :=
  match RowBefore row, RowAfter row with
  | None, _ => inr (BeforeNil "UPDATE")
  | Some _, None => inr (AfterNil "UPDATE")
  | Some before, Some after =>
      let r := resolverForRow g row in
      let skipCols := updateSetSkipCols r (SchemaName row) (TableName row) in
      let b64 := base64Cols g r (SchemaName row) (TableName row) in
      let geom := geometryCols g r (SchemaName row) (TableName row) in
      let cols := filter (λ col, col ∉ skipCols) (sortedKeys before) in
      let setParts := (λ col, quoteName (g_dialect g) col +:+ " = " +:+
                              formatColumnValue g col (row_get before col) geom b64) <$> cols in
      let '(whereParts, whereCols, allCols) := pkWhereClause g r (SchemaName row) (TableName row) after in
      inl (allColsFallbackWarningComment g allCols +:+
           "UPDATE " +:+ table_name g row +:+ " SET " +:+ String.concat ", " setParts +:+
           " WHERE " +:+ String.concat " AND " whereParts +:+ rowLimitSuffix g allCols,
           cols ++ whereCols)
  end.

Definition buildDelete (g : Generator) (row : ResultRow) : (string * list string) + StmtError :=
  match RowAfter row with
  | None => inr (AfterNil "INSERT")
  | Some after =>
      let r := resolverForRow g row in
      let '(whereParts, whereCols, allCols) := pkWhereClause g r (SchemaName row) (TableName row) after in
      inl (allColsFallbackWarningComment g allCols +:+
           "DELETE FROM " +:+ table_name g row +:+
           " WHERE " +:+ String.concat " AND " whereParts +:+ rowLimitSuffix g allCols,
           whereCols)
  end.

Definition buildStatement (g : Generator) (row : ResultRow) : (string * list string) + StmtError :=
  if (EventType row =? EventDelete)%N then buildInsert g row
  else if (EventType row =? EventUpdate)%N then buildUpdate g row
  else if (EventType row =? EventInsert)%N then buildDelete g row
  else if (EventType row =? EventSnapshot)%N then inr SnapshotEvent
  else inr (UnknownEvent (EventType row)).

(** ** Schema drift *)

Definition columnNameSet (cols : list ColumnMeta) : gset string := list_to_set (Name <$> cols).

(** The loop over the emitted columns; [seen] are the ones already listed. *)
Fixpoint drifted_loop (evtSet curSet seen : gset string) (emitted : list string) : list string :=
  match emitted with
  | [] => []
  | c :: rest =>
      if bool_decide ((c ∉ seen) ∧ (c ∈ evtSet) ∧ (c ∉ curSet))
      then c :: drifted_loop evtSet curSet ({[c]} ∪ seen) rest
      else drifted_loop evtSet curSet seen rest
  end.

Definition driftedColumns (emitted : list string) (eventTime current : TableMeta) : list string :=
  drifted_loop (columnNameSet (Columns eventTime)) (columnNameSet (Columns current)) ∅ emitted.

Definition driftedEmitted (g : Generator) (row : ResultRow) (emitted : list string) : list string :=
  match g_resolver g with
  | None => []
  | Some cur =>
      if length emitted =? 0 then []
      else
        match resolve_opt (resolverForRow g row) (SchemaName row) (TableName row),
              Resolve cur (SchemaName row) (TableName row) with
        | Some evtTM, Some curTM => driftedColumns emitted evtTM curTM
        | _, _ => []
        end
  end.

(** ** The script *)

Definition println (s : string) : string := s +:+ newline.

Definition commentWidth : nat := 100.

Fixpoint repeat_str (n : nat) (s : string) : string :=
  match n with 0 => "" | S n' => s +:+ repeat_str n' s end.

(** The loop over the words: [first] at the first one, [line] not yet written. *)
Fixpoint paragraph_loop (rest : string) (first : bool) (line : string) (words : list string) : string :=
  match words with
  | [] => println line
  | word :: words' =>
      if negb first && (commentWidth <? String.length line + 1 + String.length word)
      then println line +:+ paragraph_loop rest false (rest +:+ word) words'
      else paragraph_loop rest false (line +:+ (if first then "" else " ") +:+ word) words'
  end.

Record genFailure := {
  gf_eventID : N;
  gf_schemaName : string;
  gf_tableName : string;
  gf_pkValues : string;
}.

Definition failure_of (row : ResultRow) : genFailure := {|
  gf_eventID := EventID row; gf_schemaName := SchemaName row; gf_tableName := TableName row;
  gf_pkValues := PKValues row |}.

Inductive GenError :=
| GenBudget (e : ScriptBudgetError)
| GenToast (e : ToastError)
| GenSystemVersioned (failures : list (genFailure * SvRefusal))
| GenPartial (failures : list (genFailure * StmtError))
| GenDrift (tables : list (string * list string)).

(** The variables of the loop over the rows. *)
Record gen_state := {
  gs_body : string;
  gs_drift : gmap string (gset string);
  gs_driftOrder : list string;
  gs_genFailures : list (genFailure * StmtError);
  gs_svFailures : list (genFailure * SvRefusal);
  gs_written : nat;
  gs_bodyEnds : list nat;
  gs_touched : gset string;
}.

Definition empty_state : gen_state := {|
  gs_body := ""; gs_drift := ∅; gs_driftOrder := []; gs_genFailures := []; gs_svFailures := [];
  gs_written := 0; gs_bodyEnds := []; gs_touched := ∅ |}.

Definition add_body (text : string) (st : gen_state) : gen_state := {|
  gs_body := gs_body st +:+ text; gs_drift := gs_drift st; gs_driftOrder := gs_driftOrder st;
  gs_genFailures := gs_genFailures st; gs_svFailures := gs_svFailures st; gs_written := gs_written st;
  gs_bodyEnds := gs_bodyEnds st; gs_touched := gs_touched st |}.

Definition add_sv_failure (f : genFailure * SvRefusal) (st : gen_state) : gen_state := {|
  gs_body := gs_body st; gs_drift := gs_drift st; gs_driftOrder := gs_driftOrder st;
  gs_genFailures := gs_genFailures st; gs_svFailures := gs_svFailures st ++ [f]; gs_written := gs_written st;
  gs_bodyEnds := gs_bodyEnds st; gs_touched := gs_touched st |}.

Definition add_failure (f : genFailure * StmtError) (st : gen_state) : gen_state := {|
  gs_body := gs_body st; gs_drift := gs_drift st; gs_driftOrder := gs_driftOrder st;
  gs_genFailures := gs_genFailures st ++ [f]; gs_svFailures := gs_svFailures st; gs_written := gs_written st;
  gs_bodyEnds := gs_bodyEnds st; gs_touched := gs_touched st |}.

Definition add_drift (key : string) (cols : list string) (st : gen_state) : gen_state :=
  if length cols =? 0 then st
  else {|
    gs_body := gs_body st;
    gs_drift := <[key := list_to_set cols ∪ default ∅ (gs_drift st !! key)]> (gs_drift st);
    gs_driftOrder := (match gs_drift st !! key with
                      | Some _ => gs_driftOrder st
                      | None => gs_driftOrder st ++ [key]
                      end);
    gs_genFailures := gs_genFailures st; gs_svFailures := gs_svFailures st; gs_written := gs_written st;
    gs_bodyEnds := gs_bodyEnds st; gs_touched := gs_touched st |}.

Definition add_statement (stmt key : string) (st : gen_state) : gen_state :=
  let body := gs_body st +:+ println (stmt +:+ ";") in {|
  gs_body := body; gs_drift := gs_drift st; gs_driftOrder := gs_driftOrder st;
  gs_genFailures := gs_genFailures st; gs_svFailures := gs_svFailures st; gs_written := S (gs_written st);
  gs_bodyEnds := gs_bodyEnds st ++ [String.length body]; gs_touched := {[key]} ∪ gs_touched st |}.

Section script.
(** The printable runes above U+00FF, and the time of the run. *)
Context (isPrint : N → bool) (now : Z).

Definition sanitize (s : string) : string := SanitizeForComment isPrint s.

Definition writeCommentParagraph (lead text : string) : string :=
  let rest := "--" +:+ repeat_str (String.length lead - 2) " " in
  paragraph_loop rest true lead (fields (sanitize text)).

(** The comment over a statement. *)
Definition event_comment (row : ResultRow) : string :=
  let gtidSuffix := match GTID row with Some g => " gtid=" +:+ sanitize g | None => "" end in
  println ("-- [" +:+ pretty (EventID row) +:+ "] reverse " +:+ eventTypeName (EventType row) +:+ " on " +:+
    sanitize (SchemaName row) +:+ "." +:+ sanitize (TableName row) +:+ " pk=" +:+ sanitize (PKValues row) +:+
    " at " +:+ format_datetime (EventTimestamp row) +:+ gtidSuffix).

(** The body of the loop for one row. *)
Definition gen_row (g : Generator) (st : gen_state) (row : ResultRow) : gen_state :=
  let st := add_body newline st in
  match sysVersionedReversal g row with
  | SvRefuse e => add_sv_failure (failure_of row, e) (add_body (event_comment row) st)
  | SvSkip why =>
      add_body (event_comment row +:+ println ("-- skipped, system-versioned table: " +:+ sanitize why)) st
  | SvReverse out =>
      let st := add_body (event_comment out) st in
      let st := if (EventType out =? EventType row)%N then st
                else add_body (println ("-- system-versioned table: MariaDB logged this delete as an " +:+
                       eventTypeName (EventType row) +:+ " that ended the row's current version")) st in
      match buildStatement g out with
      | inr e => add_failure (failure_of out, e) st
      | inl (stmt, cols) =>
          let st := add_drift (SchemaName out +:+ "." +:+ TableName out) (driftedEmitted g out cols) st in
          add_statement stmt (SchemaName out +:+ chr 0 +:+ TableName out) st
      end
  end.

Definition order_comment (o : BinlogOrder) : string :=
  (if Sorted o
   then writeCommentParagraph "-- NOTE: " (pretty (Moved o) +:+
     " of these changes were written to the binary log in a different order than their statements started " +:+
     "(a statement that waited for a row lock, or ran long). They are undone in the reverse of binary log order, which is commit order, " +:+
     "so the `at` times of the statements below are not all in sequence.")
   else "") +:+
  (if bool_decide (Warning o = "") then ""
   else writeCommentParagraph "-- WARNING: " ("order of the changes: " +:+ Warning o)).

Definition println_all (lines : list string) : string := foldr (λ l acc, println l +:+ acc) "" lines.

Definition trigger_comment (g : Generator) : string :=
  if bool_decide (g_dialect g = PostgresDialect) && g_suppressTriggers g
  then println_all [
    "-- NOTE: this script pins session_replication_role = replica for its transaction";
    "--       (--suppress-triggers). Under replica, ordinary (ENABLE) triggers are skipped,";
    "--       but ENABLE ALWAYS triggers still fire, and ENABLE REPLICA triggers fire ONLY in";
    "--       this mode: the flag can cause trigger side effects a normal apply would not.";
    "--       FOREIGN KEY constraint triggers are also skipped, with NO re-validation at COMMIT:";
    "--       rows written in violation stay violating permanently while the constraint remains";
    "--       marked valid. Suppressing only helps when this script's scope also covers the";
    "--       tables the skipped triggers write; a --table/--pk-filtered reversal leaves their";
    "--       derived rows (audit rows, counters) unreverted either way. Sequences are NOT";
    "--       restored by this script. Apply this file as a whole, in one session (e.g. psql -f):";
    "--       outside a transaction block, SET LOCAL warns and does nothing; triggers would";
    "--       fire while appearing suppressed.";
    "--       See docs/query-and-recovery.md -> Restore limitations."]
  else println_all [
    "-- NOTE: applying this script fires the target's own triggers (e.g. AFTER INSERT/UPDATE),";
    "--       which can double-apply side effects the original triggers already logged as their";
    "--       own events (reversed above only if this script's filters cover the tables those";
    "--       triggers write). AUTO_INCREMENT/serial counters are NOT restored by this script.";
    "--       See docs/query-and-recovery.md -> Restore limitations."].

Definition session_settings (g : Generator) : string :=
  match g_dialect g with
  | MySQLDialect => println_all [
      "SET time_zone = '+00:00';";
      "SET sql_mode = 'STRICT_TRANS_TABLES,NO_ENGINE_SUBSTITUTION';"]
  | PostgresDialect =>
      println "SET LOCAL standard_conforming_strings = on;" +:+
      (if g_suppressTriggers g then println_all [
         "-- Suppress the target's ordinary (ENABLE) triggers for this apply (--suppress-triggers);";
         "-- ENABLE ALWAYS triggers still fire, and ENABLE REPLICA triggers fire only in this mode.";
         "-- Requires superuser (PostgreSQL <= 14) or GRANT SET ON PARAMETER session_replication_role";
         "-- TO <role> (15+); without it this statement errors and the transaction applies nothing.";
         "-- It also skips FOREIGN KEY constraint triggers, and skipped checks are never re-run:";
         "-- rows this transaction writes in violation of a foreign key are NOT re-validated at";
         "-- COMMIT; they stay violating permanently while the constraint remains marked valid.";
         "SET LOCAL session_replication_role = replica;"]
       else "")
  end.

Definition preamble (g : Generator) (o : BinlogOrder) (n : nat) : string :=
  println ("-- Generated by bintrail recover at " +:+ format_datetime now +:+ " UTC") +:+
  println ("-- Events to reverse: " +:+ pretty n) +:+
  println "-- IMPORTANT: Review carefully before applying to production." +:+
  order_comment o +:+
  trigger_comment g +:+
  (if bool_decide (g_dialect g = MySQLDialect) && g_restoreAutoIncrement g
   then println "--       An AUTO_INCREMENT restore checklist follows COMMIT (--restore-auto-increment)." else "") +:+
  println "" +:+
  println "BEGIN;" +:+
  session_settings g.

(** [strings.Cut] with a one-byte separator. *)
Fixpoint cut_byte (c : ascii) (s : string) : string * string :=
  match s with
  | "" => ("", "")
  | String d s' => if bool_decide (c = d) then ("", s') else let '(a, b) := cut_byte c s' in (String d a, b)
  end.

Definition writeAutoIncrementSection (touched : gset string) : string :=
  let keys := sort_by String.compare (elements touched) in
  println "" +:+ println_all [
    "-- ─── AUTO_INCREMENT restore (--restore-auto-increment) ─────────────────────";
    "-- Reversing an INSERT deletes the row but does NOT decrement the table's";
    "-- AUTO_INCREMENT counter; reversing a DELETE re-inserts an explicit id, which can";
    "-- bump it further. After the transaction above the rows are back as they were, but";
    "-- the NEXT generated id may not be.";
    "--";
    "-- The statements below are COMMENTED OUT on purpose: N cannot be derived from the";
    "-- index. The schema snapshot does not record which column is AUTO_INCREMENT, and the";
    "-- correct N depends on your intent (reuse the ids this reversal freed, or never reuse";
    "-- them). Substitute the column name, read the value with the SELECT, then apply the";
    "-- ALTER with the N you want.";
    "--";
    "-- They sit AFTER COMMIT because ALTER TABLE is DDL and implicitly commits in MySQL:";
    "-- inside the transaction above it would break that transaction's atomicity.";
    "-- InnoDB ignores a value at or below the id currently in use, so a too-low N is a";
    "-- no-op, never data loss."] +:+
  foldr (λ k acc,
    let '(schema, table) := cut_byte nul_byte k in
    let qualified := sanitize (QuoteName schema +:+ "." +:+ QuoteName table) in
    println "--" +:+
    println ("-- " +:+ qualified +:+ ":") +:+
    println ("--   SELECT IFNULL(MAX(" +:+ QuoteName "<auto_increment_column>" +:+ "), 0) + 1 FROM " +:+ qualified +:+ ";") +:+
    println ("--   ALTER TABLE " +:+ qualified +:+ " AUTO_INCREMENT = <N>;") +:+ acc) "" keys.

Definition zero_order : BinlogOrder := mkBinlogOrder OrderAgrees 0 0 0 "".

Record Script := {
  sc_text : string;
  sc_written : nat;
  sc_ends : list nat;
}.

Fixpoint first_toast (rows : list ResultRow) : option ToastError :=
  match rows with
  | [] => None
  | row :: rest =>
      match CheckUnresolvedToast (SchemaName row) (TableName row) (PKValues row) [RowBefore row; RowAfter row] with
      | Some e => Some e
      | None => first_toast rest
      end
  end.

(** The order the rows are undone from: binary log order where it can be
    established and was asked for. *)
Definition order_rows (g : Generator) (rows : list ResultRow) : list ResultRow * BinlogOrder :=
  if g_binlogOrder g && negb (bool_decide (g_dialect g = PostgresDialect))
  then OrderByBinlog rows (g_orderProof g) else (rows, zero_order).

Definition drift_report (st : gen_state) : list (string * list string) :=
  (λ key, (key, sort_by String.compare (elements (default ∅ (gs_drift st !! key))))) <$> gs_driftOrder st.

(** The script and the order decision ([lastOrder]). *)
Definition generate (g : Generator) (rows : list ResultRow) : (Script + GenError) * BinlogOrder :=
  if length rows =? 0 then
    (inl {| sc_text := println "-- No events matched the specified criteria."; sc_written := 0; sc_ends := [] |},
     zero_order)
  else
    match CheckScriptBudget g rows with
    | Some e => (inr (GenBudget e), zero_order)
    | None =>
        match first_toast rows with
        | Some e => (inr (GenToast e), zero_order)
        | None =>
            let '(rows, lastOrder) := order_rows g rows in
            let rows := reverse rows in
            let st := foldl (gen_row g) empty_state rows in
            if 0 <? length (gs_svFailures st) then (inr (GenSystemVersioned (gs_svFailures st)), lastOrder)
            else if 0 <? length (gs_genFailures st) then (inr (GenPartial (gs_genFailures st)), lastOrder)
            else if 0 <? length (gs_driftOrder st) then (inr (GenDrift (drift_report st)), lastOrder)
            else
              let head := preamble g lastOrder (length rows) in
              let base := String.length head in
              (inl {| sc_text := head +:+ gs_body st +:+ println "" +:+ println "COMMIT;" +:+
                        (if bool_decide (g_dialect g = MySQLDialect) && g_restoreAutoIncrement g
                            && negb (bool_decide (gs_touched st = ∅))
                         then writeAutoIncrementSection (gs_touched st) else "");
                      sc_written := gs_written st;
                      sc_ends := (λ e, base + e) <$> gs_bodyEnds st |}, lastOrder)
        end
    end.
End script.

(** ** Lemmas *)

Lemma str_take_app_le n s t : n ≤ String.length s → str_take n (s +:+ t) = str_take n s.
Proof.
  revert n. induction s as [|c s IH]; intros n Hn; simpl in *.
  - by replace n with 0 by lia; destruct t.
  - destruct n as [|n]; [done|]. simpl. rewrite IH by lia. done.
Qed.

Lemma str_take_length s : str_take (String.length s) s = s.
Proof. rewrite <-(str_app_nil_r s) at 2. apply str_take_app. Qed.

Lemma str_take_app_plus n s t : str_take (String.length s + n) (s +:+ t) = s +:+ str_take n t.
Proof. induction s as [|c s IH]; [done|]. simpl. by rewrite IH. Qed.

(** What a row comes to: the statement's text and columns, and the row it was
    made from. *)
Definition row_plan (g : Generator) (row : ResultRow) : option (string * list string * ResultRow) :=
  match sysVersionedReversal g row with
  | SvReverse out => match buildStatement g out with inl (stmt, cols) => Some (stmt, cols, out) | inr _ => None end
  | _ => None
  end.

(** A row no guard of the loop refuses. *)
Definition row_accepted (g : Generator) (row : ResultRow) : Prop :=
  match sysVersionedReversal g row with
  | SvRefuse _ => False
  | SvSkip _ => True
  | SvReverse out =>
      match buildStatement g out with inl (_, cols) => driftedEmitted g out cols = [] | inr _ => False end
  end.

(** The statements of a state: each ends where [gs_bodyEnds] says. *)
Definition cut_at (text : string) (e : nat) (stmt : string) : Prop :=
  e ≤ String.length text ∧ ∃ pre, str_take e text = pre +:+ stmt +:+ ";" +:+ newline.

Lemma cut_at_app text more e stmt : cut_at text e stmt → cut_at (text +:+ more) e stmt.
Proof.
  intros [He [pre Hp]]. split; [rewrite str_length_app; lia|]. exists pre. by rewrite str_take_app_le.
Qed.

Lemma cut_at_prepend head text e stmt : cut_at text e stmt → cut_at (head +:+ text) (String.length head + e) stmt.
Proof.
  intros [He [pre Hp]]. split; [rewrite str_length_app; lia|]. exists (head +:+ pre).
  rewrite str_take_app_plus, Hp. by rewrite !str_app_assoc.
Qed.

Definition no_failures (st : gen_state) : Prop :=
  gs_svFailures st = [] ∧ gs_genFailures st = [] ∧ gs_driftOrder st = [].

Record gen_inv (g : Generator) (rows : list ResultRow) (st : gen_state) : Prop := {
  inv_ends : Forall2 (cut_at (gs_body st)) (gs_bodyEnds st) ((λ p, p.1.1) <$> omap (row_plan g) rows);
  inv_written : gs_written st = length (omap (row_plan g) rows);
  inv_accepted : no_failures st ↔ Forall (row_accepted g) rows;
  inv_increasing : StronglySorted lt (gs_bodyEnds st);
  inv_drift : ∀ k, is_Some (gs_drift st !! k) → gs_driftOrder st ≠ [];
}.

Section script_lemmas.
Context (isPrint : N → bool) (now : Z).

Lemma gen_inv_empty g : gen_inv g [] empty_state.
Proof.
  split; [constructor|done|unfold no_failures; simpl; by rewrite Forall_nil|constructor|].
  intros k [v Hv]. simpl in Hv. by rewrite lookup_empty in Hv.
Qed.

(** A row that adds text only. *)
Lemma gen_inv_body g rows st text :
  gen_inv g rows st → gen_inv g rows (add_body text st).
Proof.
  intros [He Hw Ha Hi Hd]. split; [|done..]. simpl. eapply Forall2_impl; [exact He|]. intros. by apply cut_at_app.
Qed.

Lemma StronglySorted_snoc (l : list nat) x :
  StronglySorted lt l → Forall (λ y, y < x) l → StronglySorted lt (l ++ [x]).
Proof.
  induction 1 as [|y l Hl IH Hy]; simpl; [by repeat constructor|]. rewrite Forall_cons. intros [Hx Hlx].
  constructor; [auto|]. rewrite Forall_app, Forall_singleton. done.
Qed.

(** A row that adds no statement. *)
Lemma gen_inv_none g rows st row :
  gen_inv g rows st → row_plan g row = None → row_accepted g row → gen_inv g (rows ++ [row]) st.
Proof.
  intros [He Hw Ha Hi Hd] Hp Hr. split; [..|done|done]; rewrite ?omap_app; simpl; rewrite ?Hp, ?app_nil_r; [done..|].
  rewrite Forall_app, Forall_singleton, Ha. naive_solver.
Qed.

Lemma gen_inv_refused g rows st st' row :
  gen_inv g rows st → row_plan g row = None → ¬ row_accepted g row → ¬ no_failures st' →
  gs_body st' = gs_body st → gs_bodyEnds st' = gs_bodyEnds st → gs_written st' = gs_written st →
  gs_drift st' = gs_drift st → gs_driftOrder st' = gs_driftOrder st → gen_inv g (rows ++ [row]) st'.
Proof.
  intros [He Hw Ha Hi Hd] Hp Hr Hf E1 E2 E3 E4 E5. split; rewrite ?omap_app; simpl; rewrite ?Hp, ?app_nil_r, ?E1, ?E2, ?E3.
  - done.
  - done.
  - rewrite Forall_app, Forall_singleton. naive_solver.
  - done.
  - intros k. rewrite E4, E5. apply Hd.
Qed.

Lemma add_drift_order key cols st :
  (∀ k, is_Some (gs_drift st !! k) → gs_driftOrder st ≠ []) →
  (gs_driftOrder (add_drift key cols st) = [] ↔ gs_driftOrder st = [] ∧ cols = []) ∧
  (∀ k, is_Some (gs_drift (add_drift key cols st) !! k) → gs_driftOrder (add_drift key cols st) ≠ []).
Proof.
  intros Hd. unfold add_drift. destruct cols as [|c cols]; simpl; [naive_solver|].
  assert (match gs_drift st !! key with Some _ => gs_driftOrder st | None => gs_driftOrder st ++ [key] end ≠ []) as Hne.
  { destruct (gs_drift st !! key) eqn:E; [by apply (Hd key); rewrite E|]. by destruct (gs_driftOrder st). }
  naive_solver.
Qed.

Lemma gen_inv_statement g rows st row stmt cols out key tkey :
  gen_inv g rows st → row_plan g row = Some (stmt, cols, out) →
  (row_accepted g row ↔ driftedEmitted g out cols = []) →
  gen_inv g (rows ++ [row]) (add_statement stmt tkey (add_drift key (driftedEmitted g out cols) st)).
Proof.
  intros [He Hw Ha Hi Hd] Hp Hr. destruct (add_drift_order key (driftedEmitted g out cols) st Hd) as [Ho Hd'].
  assert (∀ P : gen_state → Prop, (∀ d o, P {| gs_body := gs_body st; gs_drift := d; gs_driftOrder := o;
      gs_genFailures := gs_genFailures st; gs_svFailures := gs_svFailures st; gs_written := gs_written st;
      gs_bodyEnds := gs_bodyEnds st; gs_touched := gs_touched st |}) →
      P (add_drift key (driftedEmitted g out cols) st)) as Hsame.
  { intros P HP. unfold add_drift. case_match; [|apply HP]. destruct st; apply HP. }
  split; rewrite ?omap_app; simpl; rewrite ?Hp.
  - rewrite fmap_app. apply Hsame. intros d o. simpl. apply Forall2_app; [eapply Forall2_impl; [exact He|]|].
    + intros. by apply cut_at_app.
    + constructor; [|constructor]. split; [done|]. exists (gs_body st). rewrite str_take_length.
      unfold println. by rewrite !str_app_assoc.
  - rewrite length_app. simpl. rewrite Nat.add_1_r. f_equal. apply Hsame. done.
  - rewrite Forall_app, Forall_singleton, Hr, <-Ha. unfold no_failures. simpl. rewrite Ho.
    apply (Hsame (λ st', gs_svFailures st' = [] ∧ gs_genFailures st' = [] ∧ _ ↔ _)). intros d o. simpl. naive_solver.
  - apply Hsame. intros d o. simpl. apply StronglySorted_snoc; [done|].
    rewrite Forall_forall. intros e (i & Hei)%list_elem_of_lookup.
    destruct (Forall2_lookup_l _ _ _ _ _ He Hei) as (t & _ & Hle & _). unfold println.
    rewrite !str_length_app. simpl. lia.
  - done.
Qed.

Lemma gen_row_inv g rows st row :
  gen_inv g rows st → gen_inv g (rows ++ [row]) (gen_row isPrint g st row).
Proof.
  intros Hinv. unfold gen_row. apply (gen_inv_body _ _ _ newline) in Hinv.
  set (st0 := add_body newline st) in *. clearbody st0. clear st.
  destruct (sysVersionedReversal g row) as [out|why|e] eqn:Hsv.
  - apply (gen_inv_body _ _ _ (event_comment isPrint out)) in Hinv.
    set (st1 := add_body (event_comment isPrint out) st0) in *. clearbody st1. clear st0.
    assert (∀ text, gen_inv g rows (if (EventType out =? EventType row)%N then st1 else add_body text st1)) as Hinv'.
    { intros. case_match; [done|by apply gen_inv_body]. }
    clear Hinv. match goal with |- context [if ?b then st1 else add_body ?t st1] =>
      specialize (Hinv' t); generalize dependent (if b then st1 else add_body t st1) end. intros st2 Hinv'.
    destruct (buildStatement g out) as [[stmt cols]|e] eqn:Hb.
    + apply gen_inv_statement; [done| |]; unfold row_plan, row_accepted; by rewrite Hsv, Hb.
    + eapply gen_inv_refused; [exact Hinv'|..]; try done; unfold row_plan, row_accepted, no_failures.
      * by rewrite Hsv, Hb.
      * rewrite Hsv, Hb. tauto.
      * simpl. intros (_ & H & _). by destruct (gs_genFailures st2).
  - apply gen_inv_none; [by apply gen_inv_body|..]; unfold row_plan, row_accepted; by rewrite Hsv.
  - apply (gen_inv_body _ _ _ (event_comment isPrint row)) in Hinv.
    eapply gen_inv_refused; [exact Hinv|..]; try done; unfold row_plan, row_accepted, no_failures.
    + by rewrite Hsv.
    + rewrite Hsv. tauto.
    + simpl. intros (H & _). by destruct (gs_svFailures st0).
Qed.

Lemma gen_rows_inv g rows : gen_inv g rows (foldl (gen_row isPrint g) empty_state rows).
Proof.
  induction rows as [|row rows IH] using rev_ind; [apply gen_inv_empty|].
  rewrite foldl_app. simpl. by apply gen_row_inv.
Qed.

Lemma order_rows_perm g rows : (order_rows g rows).1 ≡ₚ rows.
Proof. unfold order_rows. case_match; [apply OrderByBinlog_perm|done]. Qed.

Lemma first_toast_None rows : first_toast rows = None ↔ Forall (λ r, checkEventToast r = None) rows.
Proof.
  induction rows as [|r rows IH]; [by rewrite Forall_nil|]. cbn [first_toast]. rewrite Forall_cons, <-IH.
  unfold checkEventToast. destruct (CheckUnresolvedToast _ _ _ _); naive_solver.
Qed.

(** A branch that refuses. *)
Ltac gen_refused :=
  cbn [length Nat.ltb Nat.leb]; split;
  [ intros ? ? E; discriminate E
  | split; [intros [? E]; discriminate E | intros H; decompose [and] H; discriminate] ].

(** The statements a script is made of, in the order it has them. *)
Definition script_plan (g : Generator) (rows : list ResultRow) : list (string * list string * ResultRow) :=
  omap (row_plan g) (reverse (order_rows g rows).1).

Lemma generate_eq g rows :
  rows ≠ [] →
  let st := foldl (gen_row isPrint g) empty_state (reverse (order_rows g rows).1) in
  (∀ sc o, generate isPrint now g rows = (inl sc, o) → no_failures st ∧
     ∃ tail, sc_text sc = preamble isPrint now g (order_rows g rows).2 (length rows) +:+ gs_body st +:+ tail ∧
     sc_written sc = gs_written st ∧
     sc_ends sc = (λ e, String.length (preamble isPrint now g (order_rows g rows).2 (length rows)) + e)
                    <$> gs_bodyEnds st) ∧
  ((∃ sc, (generate isPrint now g rows).1 = inl sc) ↔
   CheckScriptBudget g rows = None ∧ first_toast rows = None ∧ no_failures st).
Proof.
  intros Hne st. unfold generate, no_failures.
  assert (length (reverse (order_rows g rows).1) = length rows) as Hlen by by rewrite length_reverse, order_rows_perm.
  destruct (length rows =? 0) eqn:E0; [by destruct rows|]. clear E0 Hne.
  destruct (CheckScriptBudget g rows); [gen_refused|].
  destruct (first_toast rows); [gen_refused|].
  subst st. destruct (order_rows g rows) as [ordered o] eqn:Eo. cbn [fst snd] in *.
  set (st := foldl _ _ _). rewrite Hlen.
  destruct (gs_svFailures st); [|gen_refused].
  destruct (gs_genFailures st); [|gen_refused].
  destruct (gs_driftOrder st); [|gen_refused].
  cbn [length Nat.ltb Nat.leb]. split; [|split; [intros _; auto|intros _; eexists; reflexivity]].
  intros sc o' E. injection E as <- <-. cbn [sc_text sc_written sc_ends].
  split; [auto|]. eexists. split; [reflexivity|]. auto.
Qed.
End script_lemmas.

(** ** Properties *)

(** C18: a recovery script is all or nothing: one is written exactly when the
    matched rows fit the budget, none holds an unresolved TOAST marker, and no
    row is refused (a system-versioned change that cannot be reversed, a
    missing image, a column dropped since); any refusal writes nothing. *)
Theorem generate_accepts isPrint now g rows :
  rows ≠ [] →
  (∃ sc, (generate isPrint now g rows).1 = inl sc) ↔
  CheckScriptBudget g rows = None ∧ Forall (λ r, checkEventToast r = None) rows ∧ Forall (row_accepted g) rows.
Proof.
  intros Hne. rewrite (proj2 (generate_eq isPrint now g rows Hne)), first_toast_None.
  rewrite (inv_accepted _ _ _ (gen_rows_inv isPrint g _)), Forall_reverse, order_rows_perm. done.
Qed.

(** The script holds the statement of every change it could not skip, most
    recent change first, and each offset it reports ends exactly at the
    semicolon line of its statement, so cutting there never cuts a statement
    in two; the offsets increase and there is one per statement. *)
Theorem generate_offsets isPrint now g rows sc o :
  rows ≠ [] → generate isPrint now g rows = (inl sc, o) →
  sc_written sc = length (script_plan g rows) ∧
  Forall2 (cut_at (sc_text sc)) (sc_ends sc) ((λ p, p.1.1) <$> script_plan g rows) ∧
  StronglySorted lt (sc_ends sc).
Proof.
  intros Hne Hg. destruct (proj1 (generate_eq isPrint now g rows Hne) sc o Hg) as (_ & tail & -> & -> & ->).
  destruct (gen_rows_inv isPrint g (reverse (order_rows g rows).1)) as [He Hw _ Hi _]. split; [done|]. split.
  - rewrite Forall2_fmap_l. eapply Forall2_impl; [exact He|]. intros e stmt Hc.
    by apply cut_at_prepend, cut_at_app.
  - generalize (String.length (preamble isPrint now g (order_rows g rows).2 (length rows))). intros n.
    clear He. induction Hi as [|e es Hs IH He']; simpl; constructor; [apply IH|rewrite Forall_fmap].
    eapply Forall_impl; [exact He'|]. simpl. lia.
Qed.

(** A generator without a snapshot, and two changes of one row. *)
Definition bare_generator (d : Dialect) : Generator := {|
  g_load := None; g_resolver := None; g_dialect := d; g_maxScriptBytes := 2 ^ 31; g_suppressTriggers := false;
  g_restoreAutoIncrement := false; g_flavor := ""; g_binlogOrder := false; g_orderProof := None |}.

Definition two_changes : list ResultRow :=
  [sample_change 1 5 "a:1" EventInsert (Some (sample_row 3)); sample_change 2 6 "a:2" EventInsert (Some (sample_row 4))].

Lemma generate_accepts_witness :
  ∃ sc, (generate (λ _, true) 0 (bare_generator MySQLDialect) two_changes).1 = inl sc.
Proof.
  apply (generate_accepts (λ _, true) 0 (bare_generator MySQLDialect) two_changes); [done|].
  split; [reflexivity|]. split; repeat (constructor; [vm_compute; reflexivity|]); constructor.
Defined.

Lemma generate_offsets_witness :
  ∃ sc o, generate (λ _, true) 0 (bare_generator MySQLDialect) two_changes = (inl sc, o) ∧ sc_written sc = 2 ∧
    StronglySorted lt (sc_ends sc).
Proof.
  destruct (generate (λ _, true) 0 (bare_generator MySQLDialect) two_changes) as [[sc|e] o] eqn:E;
    [|vm_compute in E; discriminate E].
  exists sc, o. split; [reflexivity|].
  destruct (generate_offsets (λ _, true) 0 (bare_generator MySQLDialect) two_changes sc o) as (-> & _ & Hs);
    [done|exact E|]. split; [vm_compute; reflexivity|exact Hs].
Defined.

(** ** Versioned tables *)

(** The rows a logged change takes from the table and the rows it adds. *)
Definition plain_effect (ev : ResultRow) : list Row * list Row :=
  (if (EventType ev =? EventUpdate)%N || (EventType ev =? EventDelete)%N then option_list (RowBefore ev) else [],
   if (EventType ev =? EventInsert)%N || (EventType ev =? EventUpdate)%N then option_list (RowAfter ev) else []).

Definition is_current (end_ : string) (at_ : Z) (img : Row) : Prop := RowEnd (row_get img end_) at_ = inl Current.

#[export] Instance RowEndError_eq_dec : EqDecision RowEndError.
Proof. solve_decision. Defined.

#[export] Instance is_current_dec end_ at_ img : Decision (is_current end_ at_ img).
Proof. unfold is_current. apply _. Defined.

(** Its effect on the table as a plain SELECT shows it: the current versions. *)
Definition current_effect (end_ : string) (ev : ResultRow) : list Row * list Row :=
  let cur := filter (is_current end_ (EventTimestamp ev)) in
  (cur (plain_effect ev).1, cur (plain_effect ev).2).

(** What a version's ROW END says decides whether its row is shown. *)
Lemma sv_state_current end_ at_ img st :
  sv_state end_ at_ img = inl st →
  ∃ r, img = Some r ∧ filter (is_current end_ at_) (option_list img) = if decide (st = Current) then option_list img else [].
Proof.
  destruct img as [r|]; [|done]. simpl. destruct (RowEnd (row_get r end_) at_) as [s|e] eqn:E; [|done].
  intros [= ->]. exists r. split; [done|]. rewrite filter_cons, filter_nil.
  destruct (decide (is_current end_ at_ r)) as [H|H]; unfold is_current in H; rewrite E in H;
    destruct st; first [reflexivity|discriminate H|by destruct H].
Qed.

Lemma sv_state_refused end_ at_ img e :
  sv_state end_ at_ img = inr e →
  match e with
  | SvNoImage => img = None
  | SvRowEnd e' => ∃ r, img = Some r ∧ RowEnd (row_get r end_) at_ = inr e'
  | _ => False
  end.
Proof. destruct img as [r|]; simpl; [|by intros [= <-]]. case_match; [done|]. intros [= <-]. eauto. Qed.

Lemma row_images_elem row img : img ∈ row_images row ↔ RowBefore row = Some img ∨ RowAfter row = Some img.
Proof.
  unfold row_images. destruct (RowBefore row), (RowAfter row); simpl; set_solver.
Qed.

(** On a system-versioned table the script reverses what the change did to
    the current rows: a change it reverses, as rewritten (an UPDATE that ended
    a version is a DELETE), takes and adds exactly the current rows the logged
    change took and added; a change it skips touched no current row; and it
    refuses only a change with a version it cannot place, or one that made a
    history version current. *)
Theorem sysVersionedReversal_current g row tm end_ :
  sysVersionedTable g row = Some tm → sysVersionedEnd g tm = Some end_ →
  EventType row = EventInsert ∨ EventType row = EventUpdate ∨ EventType row = EventDelete →
  match sysVersionedReversal g row with
  | SvReverse out => plain_effect out = current_effect end_ row
  | SvSkip _ => current_effect end_ row = ([], [])
  | SvRefuse SvNoImage => (RowBefore row = None ∨ RowAfter row = None)
  | SvRefuse (SvRowEnd e) => ∃ img, img ∈ row_images row ∧ RowEnd (row_get img end_) (EventTimestamp row) = inr e
  | SvRefuse SvRevived => (current_effect end_ row).1 = [] ∧ (current_effect end_ row).2 ≠ []
  | SvRefuse _ => False
  end.
Proof.
  intros Htm Hend Hty. unfold sysVersionedReversal. rewrite Htm, Hend. unfold current_effect, plain_effect.
  pose proof (λ img, proj2 (row_images_elem row img)) as Himg.
  destruct Hty as [Hty|[Hty|Hty]]; rewrite Hty; cbn [N.eqb Pos.eqb orb EventInsert EventUpdate EventDelete fst snd].
  - destruct (sv_state _ _ (RowAfter row)) as [sa|ea] eqn:Ea.
    + destruct (sv_state_current _ _ _ _ Ea) as (r & Hr & Hc). rewrite Hc.
      destruct sa; simpl; [|done]. unfold plain_effect. by rewrite Hty.
    + pose proof (sv_state_refused _ _ _ _ Ea). destruct ea; naive_solver.
  - destruct (sv_state _ _ (RowBefore row)) as [sb|eb] eqn:Eb.
    2: { pose proof (sv_state_refused _ _ _ _ Eb). destruct eb; naive_solver. }
    destruct (sv_state _ _ (RowAfter row)) as [sa|ea] eqn:Ea.
    2: { pose proof (sv_state_refused _ _ _ _ Ea). destruct ea; naive_solver. }
    destruct (sv_state_current _ _ _ _ Eb) as (b & Hb & Hcb). destruct (sv_state_current _ _ _ _ Ea) as (a & Ha & Hca).
    rewrite Hcb, Hca. destruct sb, sa; simpl; try done; unfold plain_effect; simpl; rewrite ?Hty; simpl; try done.
    by rewrite Ha.
  - destruct (sv_state _ _ (RowBefore row)) as [sb|eb] eqn:Eb.
    + destruct (sv_state_current _ _ _ _ Eb) as (r & Hr & Hc). rewrite Hc.
      destruct sb; simpl; [|done]. unfold plain_effect. by rewrite Hty.
    + pose proof (sv_state_refused _ _ _ _ Eb). destruct eb; naive_solver.
Qed.

(** A versioned table, and the UPDATE MariaDB logs for a delete. *)
Definition versioned_table : TableMeta :=
  let col name typ pk gen := {|
    Name := name; OrdinalPosition := 1; IsPK := pk; DataType := typ; ColumnType := typ; IsGenerated := gen;
    CharacterSet := ""; IsNullable := "NO"; IsIdentityAlways := false |} in
  {| tm_Schema := "shop"; tm_Table := "orders";
     Columns := [col "id" "int" true false; col "row_start" "timestamp" false true; col "row_end" "timestamp" true true];
     PKColumns := ["id"; "row_end"] |}.

Definition versioned_generator : Generator := {|
  g_load := Some (λ _, None); g_resolver := Some {| r_SnapshotID := 1; r_tables := {[ "shop.orders" := versioned_table ]} |};
  g_dialect := MySQLDialect; g_maxScriptBytes := 0; g_suppressTriggers := false; g_restoreAutoIncrement := false;
  g_flavor := "mariadb"; g_binlogOrder := false; g_orderProof := None |}.

Definition version_of (row_end : string) : Row := {[ "id" := VNumber "1"; "row_end" := VString row_end ]}.

Definition versioned_delete : ResultRow := {|
  EventID := 7; BinlogFile := "bin.000001"; StartPos := 100; EndPos := 200;
  EventTimestamp := 63843552000 * second; GTID := None; ConnectionID := None; SchemaName := "shop";
  TableName := "orders"; EventType := EventUpdate; PKValues := "1|2106-02-07 06:28:15.999999"; RowChangedColumns := [];
  RowBefore := Some (version_of "2106-02-07 06:28:15.999999");
  RowAfter := Some (version_of "2024-02-15 00:00:00.000000");
  SchemaVersion := 0; QueryText := None; QueryHash := None; CommitTsUS := None; KeySpanFirst := ""; KeySpanLast := "" |}.

Lemma sysVersionedReversal_current_witness :
  ∃ out, sysVersionedReversal versioned_generator versioned_delete = SvReverse out ∧
    plain_effect out = ([version_of "2106-02-07 06:28:15.999999"], []).
Proof.
  pose proof (sysVersionedReversal_current versioned_generator versioned_delete versioned_table "row_end") as H.
  destruct (sysVersionedReversal versioned_generator versioned_delete) as [out|why|e] eqn:E;
    [|vm_compute in E; discriminate E|vm_compute in E; discriminate E].
  exists out. split; [reflexivity|]. rewrite H; [vm_compute; reflexivity|reflexivity|reflexivity|by right; left].
Defined.
