(* ===== verification/Undo.v ===== *)
(** * What a recovery script does: the statements of
    [internal/recovery/recovery.go] as operations on a table

    A statement is given an abstract form, its text is shown to be the text
    the generator writes, and running it is given a meaning on a table: a list
    of rows up to order, so that duplicates count. The theorems say that the
    script undoes the changes it was made from.

    A row of the table holds its columns' values as the server stores them
    (base64 taken off) without the generated columns, which the server fills. *)
From S2P Require Import Prelude GoStrings GoTime GoVal GoCodec Event Rows BinlogOrder Spill Fold Reconstruct SysVersion SqlText Recovery.

(** ** Statements *)

(** A value in a statement: a plain one, or a geometry given by its stored
    bytes (four of SRID, then the WKB). *)
Inductive Val :=
| VPlain (v : GoVal)
| VGeom (raw : string).

Definition val_text (d : Dialect) (v : Val) : string :=
  match v with
  | VPlain v => formatValue d v
  | VGeom raw =>
      "ST_GeomFromWKB(X" +:+ quoted (hex_encode (str_drop 4 raw)) +:+ ", " +:+ pretty (le_uint32 raw) +:+ ")"
  end.

Definition val_meaning (v : Val) : GoVal := match v with VPlain v => v | VGeom raw => VBytes raw end.

Inductive Cond :=
| CEq (v : GoVal)
| CIsNull.

(** The flag of an UPDATE or DELETE: its WHERE names every column. *)
Inductive Stmt :=
| SInsert (values : list (string * Val))
| SUpdate (sets : list (string * Val)) (wh : list (string * Cond)) (allCols : bool)
| SDelete (wh : list (string * Cond)) (allCols : bool).

Definition cond_text (d : Dialect) (c : string * Cond) : string :=
  match c.2 with
  | CEq v => where_term d c.1 v
  | CIsNull => quoteName d c.1 +:+ " IS NULL"
  end.

Definition stmt_text (g : Generator) (ev : ResultRow) (s : Stmt) : string :=
  let d := g_dialect g in
  match s with
  | SInsert values =>
      "INSERT INTO " +:+ table_name g ev +:+ " (" +:+
      String.concat ", " ((λ cv, quoteName d cv.1) <$> values) +:+ ")" +:+
      (if bool_decide (d = PostgresDialect) then " OVERRIDING SYSTEM VALUE" else "") +:+ " VALUES (" +:+
      String.concat ", " ((λ cv, val_text d cv.2) <$> values) +:+ ")"
  | SUpdate sets wh allCols =>
      allColsFallbackWarningComment g allCols +:+ "UPDATE " +:+ table_name g ev +:+ " SET " +:+
      String.concat ", " ((λ cv, quoteName d cv.1 +:+ " = " +:+ val_text d cv.2) <$> sets) +:+
      " WHERE " +:+ String.concat " AND " (cond_text d <$> wh) +:+ rowLimitSuffix g allCols
  | SDelete wh allCols =>
      allColsFallbackWarningComment g allCols +:+ "DELETE FROM " +:+ table_name g ev +:+
      " WHERE " +:+ String.concat " AND " (cond_text d <$> wh) +:+ rowLimitSuffix g allCols
  end.

(** ** The statement of an event whose table's snapshot is [otm] *)

Section statement.
Context (g : Generator) (otm : option TableMeta).

Definition gen_cols : gset string :=
  match otm with
  | Some tm => list_to_set (Name <$> filter (λ c, IsGenerated c = true) (Columns tm))
  | None => ∅
  end.

Definition skip_cols : gset string :=
  match otm with
  | Some tm => list_to_set (Name <$> filter (λ c, IsGenerated c = true ∨ IsIdentityAlways c = true) (Columns tm))
  | None => ∅
  end.

Definition b64_cols : gmap string bool :=
  match g_dialect g, otm with
  | MySQLDialect, Some tm =>
      foldl (λ m c, match base64StoredKind (DataType c) with Some binary => <[Name c := binary]> m | None => m end)
        ∅ (Columns tm)
  | _, _ => ∅
  end.

Definition geom_cols : gset string :=
  match g_dialect g, otm with
  | MySQLDialect, Some tm => list_to_set (Name <$> filter (λ c, isSpatialType (DataType c) = true) (Columns tm))
  | _, _ => ∅
  end.

Definition decoded (col : string) (v : GoVal) : GoVal :=
  match b64_cols !! col with Some binary => decodeStoredBase64 v binary | None => v end.

Definition geometry_bytes (v : GoVal) : option string :=
  match v with
  | VString s => raw ← b64_decode s; if String.length raw <? 4 then None else Some raw
  | _ => None
  end.

Definition column_val (col : string) (v : GoVal) : Val :=
  match (if bool_decide (col ∈ geom_cols) then geometry_bytes v else None) with
  | Some raw => VGeom raw
  | None => VPlain (decoded col v)
  end.

Fixpoint pk_conds (pkCols : list ColumnMeta) (row : Row) : option (list (string * Cond)) :=
  match pkCols with
  | [] => Some []
  | pk :: rest =>
      v ← row !! Name pk;
      conds ← pk_conds rest row;
      Some ((Name pk, CEq (decoded (Name pk) v)) :: conds)
  end.

Definition all_conds (row : Row) : list (string * Cond) :=
  (λ col, (col, match row_get row col with VNil => CIsNull | v => CEq v end)) <$> sortedKeys row.

Definition undo_where (row : Row) : list (string * Cond) * bool :=
  match (tm ← otm; if 0 <? length (where_pk g tm) then pk_conds (where_pk g tm) row else None) with
  | Some conds => (conds, false)
  | None => (all_conds row, true)
  end.

Definition undo_stmt (ev : ResultRow) : option Stmt :=
  if (EventType ev =? EventDelete)%N then
    before ← RowBefore ev;
    Some (SInsert ((λ col, (col, column_val col (row_get before col))) <$>
                   filter (λ col, col ∉ gen_cols) (sortedKeys before)))
  else if (EventType ev =? EventUpdate)%N then
    before ← RowBefore ev; after ← RowAfter ev;
    Some (SUpdate ((λ col, (col, column_val col (row_get before col))) <$>
                   filter (λ col, col ∉ skip_cols) (sortedKeys before))
            (undo_where after).1 (undo_where after).2)
  else if (EventType ev =? EventInsert)%N then
    after ← RowAfter ev;
    Some (SDelete (undo_where after).1 (undo_where after).2)
  else None.

(** The row of the table an image describes. *)
Definition db_row (img : Row) : Row :=
  map_imap (λ col v, if bool_decide (col ∈ gen_cols) then None else Some (val_meaning (column_val col v))) img.
End statement.

(** ** Running a statement *)

Definition cond_holds (r : Row) (c : string * Cond) : Prop :=
  match c.2 with
  | CEq v => v ≠ VNil ∧ r !! c.1 = Some v
  | CIsNull => r !! c.1 = Some VNil
  end.

#[export] Instance cond_holds_dec r c : Decision (cond_holds r c).
Proof. destruct c as [? []]; unfold cond_holds; apply _. Defined.

Definition matches (wh : list (string * Cond)) (r : Row) : Prop := Forall (cond_holds r) wh.

#[export] Instance matches_dec wh r : Decision (matches wh r).
Proof. unfold matches. apply _. Defined.

Fixpoint change_first {A} (P : A → Prop) `{!∀ x, Decision (P x)} (f : A → list A) (l : list A) : list A :=
  match l with
  | [] => []
  | x :: l' => if decide (P x) then f x ++ l' else x :: change_first P f l'
  end.

Definition set_row (sets : list (string * Val)) (r : Row) : Row :=
  foldl (λ r cv, <[cv.1 := val_meaning cv.2]> r) r sets.

Definition key_of (key : list string) (r : Row) : list (option GoVal) := (λ c, r !! c) <$> key.

(** The table's key holds; a table without one takes any rows. *)
Definition unique_key (key : list string) (db : list Row) : Prop := key = [] ∨ NoDup (key_of key <$> db).

#[export] Instance unique_key_dec key db : Decision (unique_key key db).
Proof. unfold unique_key. apply _. Defined.

(** The table after a statement; [None] when it would break the key and fails.
    The server's [=] is taken for identity of the values: no collation and no
    comparison of floats by tolerance enters a WHERE clause. *)
Definition exec (d : Dialect) (key : list string) (db : list Row) (s : Stmt) : option (list Row) :=
  let one_row (allCols : bool) := allCols && bool_decide (d = MySQLDialect) in
  let db' :=
    match s with
    | SInsert values => list_to_map (prod_map id val_meaning <$> values) :: db
    | SUpdate sets wh allCols =>
        if one_row allCols then change_first (matches wh) (λ r, [set_row sets r]) db
        else (λ r, if decide (matches wh r) then set_row sets r else r) <$> db
    | SDelete wh allCols =>
        if one_row allCols then change_first (matches wh) (λ _, []) db
        else filter (λ r, ¬ matches wh r) db
    end in
  if decide (unique_key key db') then Some db' else None.

Fixpoint exec_all (d : Dialect) (key : list string) (db : list Row) (stmts : list Stmt) : option (list Row) :=
  match stmts with
  | [] => Some db
  | s :: rest => db' ← exec d key db s; exec_all d key db' rest
  end.

(** ** The statement's text is the generator's *)

Section text.
Context (g : Generator) (otm : option TableMeta).

Lemma geometryLiteral_bytes v :
  geometryLiteral v = val_text (g_dialect g) <$> (VGeom <$> geometry_bytes v).
Proof.
  destruct v; try done. simpl. destruct (b64_decode s) as [raw|]; [|done]. simpl. by case_match.
Qed.

Lemma formatColumnValue_text col v :
  formatColumnValue g col v (geom_cols g otm) (b64_cols g otm) = val_text (g_dialect g) (column_val g otm col v).
Proof.
  unfold formatColumnValue, column_val. case_bool_decide; [|done]. rewrite geometryLiteral_bytes.
  by destruct (geometry_bytes v).
Qed.

Lemma pk_terms_conds pkCols row :
  pk_terms g (b64_cols g otm) pkCols row =
    (λ conds, (cond_text (g_dialect g) <$> conds, conds.*1)) <$> pk_conds g otm pkCols row.
Proof.
  induction pkCols as [|pk pkCols IH]; [done|]. simpl. destruct (row !! Name pk) as [v|]; [|done]. simpl.
  rewrite IH. by destruct (pk_conds g otm pkCols row).
Qed.

Lemma allColsWhere_conds row :
  allColsWhere g row = (cond_text (g_dialect g) <$> all_conds row, (all_conds row).*1).
Proof.
  unfold allColsWhere, all_conds. rewrite <-!list_fmap_compose. f_equal.
  - apply list_fmap_ext. intros i col _. unfold cond_text. simpl. by destruct (row_get row col).
  - symmetry. rewrite <-(list_fmap_id (sortedKeys row)) at 2. by apply list_fmap_ext.
Qed.

Lemma pkWhereClause_text r schema table row :
  resolve_opt r schema table = otm →
  pkWhereClause g r schema table row =
    (cond_text (g_dialect g) <$> (undo_where g otm row).1, (undo_where g otm row).1.*1, (undo_where g otm row).2).
Proof.
  intros Hr. unfold pkWhereClause, undo_where.
  assert (base64Cols g r schema table = b64_cols g otm) as -> by (unfold base64Cols; by rewrite Hr).
  rewrite Hr, allColsWhere_conds. destruct otm as [tm|] eqn:E; [|done]. simpl.
  destruct (0 <? length (where_pk g tm)); [|done]. rewrite <-E, pk_terms_conds.
  by destruct (pk_conds g otm (where_pk g tm) row).
Qed.

Lemma value_texts before (cols : list string) i col :
  cols !! i = Some col →
  formatColumnValue g col (row_get before col) (geom_cols g otm) (b64_cols g otm)
    = ((λ cv, val_text (g_dialect g) cv.2) ∘ (λ col, (col, column_val g otm col (row_get before col)))) col.
Proof. intros _. apply formatColumnValue_text. Qed.

Lemma set_texts before (cols : list string) i col :
  cols !! i = Some col →
  quoteName (g_dialect g) col +:+ " = " +:+
    formatColumnValue g col (row_get before col) (geom_cols g otm) (b64_cols g otm)
    = ((λ cv, quoteName (g_dialect g) cv.1 +:+ " = " +:+ val_text (g_dialect g) cv.2)
         ∘ (λ col, (col, column_val g otm col (row_get before col)))) col.
Proof. intros _. simpl. by rewrite formatColumnValue_text. Qed.

Lemma buildStatement_text ev s :
  resolve_opt (resolverForRow g ev) (SchemaName ev) (TableName ev) = otm →
  undo_stmt g otm ev = Some s → ∃ cols, buildStatement g ev = inl (stmt_text g ev s, cols).
Proof.
  intros Hr. unfold buildStatement, buildInsert, buildUpdate, buildDelete, undo_stmt.
  set (r := resolverForRow g ev) in *.
  assert (generatedColsFromResolver r (SchemaName ev) (TableName ev) = gen_cols otm) as ->
    by (unfold generatedColsFromResolver; by rewrite Hr).
  assert (updateSetSkipCols r (SchemaName ev) (TableName ev) = skip_cols otm) as ->
    by (unfold updateSetSkipCols; by rewrite Hr).
  assert (base64Cols g r (SchemaName ev) (TableName ev) = b64_cols g otm) as -> by (unfold base64Cols; by rewrite Hr).
  assert (geometryCols g r (SchemaName ev) (TableName ev) = geom_cols g otm) as -> by (unfold geometryCols; by rewrite Hr).
  destruct (EventType ev =? EventDelete)%N; [|destruct (EventType ev =? EventUpdate)%N;
    [|destruct (EventType ev =? EventInsert)%N; [|done]]].
  - destruct (RowBefore ev) as [before|]; [|done]. intros [= <-]. eexists. do 2 f_equal.
    unfold stmt_text. rewrite <-!list_fmap_compose. simpl. by rewrite (list_fmap_ext _ _ _ (value_texts before _)).
  - destruct (RowBefore ev) as [before|]; [|done]. destruct (RowAfter ev) as [after|]; [|done].
    intros [= <-]. rewrite (pkWhereClause_text r _ _ after Hr). eexists. do 2 f_equal.
    unfold stmt_text. rewrite <-!list_fmap_compose. simpl. by rewrite (list_fmap_ext _ _ _ (set_texts before _)).
  - destruct (RowAfter ev) as [after|]; [|done].
    intros [= <-]. rewrite (pkWhereClause_text r _ _ after Hr). by eexists.
Qed.
End text.

(** ** Rows and statements *)

Lemma set_row_lookup (F : string → Val) cols r k :
  set_row ((λ col, (col, F col)) <$> cols) r !! k =
    if decide (k ∈ cols) then Some (val_meaning (F k)) else r !! k.
Proof.
  unfold set_row. revert r. induction cols as [|c cols IH]; intros r.
  { by rewrite decide_False by apply not_elem_of_nil. }
  rewrite fmap_cons. cbn [foldl fst snd]. rewrite IH. destruct (decide (k ∈ cols)) as [Hk|Hk].
  - by rewrite decide_True by (by right).
  - destruct (decide (k = c)) as [->|Hc]; [by rewrite decide_True, lookup_insert_eq by (by left)|].
    rewrite decide_False by (intros [?|?]%elem_of_cons; done). by rewrite lookup_insert_ne by congruence.
Qed.

Lemma values_lookup (F : string → Val) cols k :
  (list_to_map (prod_map id val_meaning <$> ((λ col, (col, F col)) <$> cols)) : Row) !! k =
    if decide (k ∈ cols) then Some (val_meaning (F k)) else None.
Proof.
  induction cols as [|c cols IH].
  { rewrite decide_False by apply not_elem_of_nil. apply lookup_empty. }
  rewrite !fmap_cons. cbn [prod_map id fst snd]. rewrite list_to_map_cons. cbn [fst snd].
  destruct (decide (k = c)) as [->|Hc]; [by rewrite decide_True, lookup_insert_eq by (by left)|].
  rewrite lookup_insert_ne, IH by congruence. destruct (decide (k ∈ cols)).
  - by rewrite decide_True by (by right).
  - by rewrite decide_False by (intros [?|?]%elem_of_cons; done).
Qed.

Lemma change_first_perm {A} (P : A → Prop) `{!∀ x, Decision (P x)} f l x s :
  l ≡ₚ x :: s → P x → (∀ y, y ∈ l → P y → y = x) → change_first P f l ≡ₚ f x ++ s.
Proof.
  revert s. induction l as [|y l IH]; intros s Hl Hx Hy; [by apply Permutation_nil_cons in Hl|]. simpl.
  destruct (decide (P y)) as [Hp|Hp].
  - rewrite (Hy y) in Hl |- * by (done || by left). by apply Permutation_cons_inv in Hl as ->.
  - assert (y ∈ s) as Hys.
    { assert (y ∈ x :: s) as Hin by (rewrite <-Hl; by left). apply elem_of_cons in Hin as [->|Hin]; done. }
    apply elem_of_Permutation in Hys as [s' Hs']. rewrite Hs' in Hl |- *.
    rewrite Permutation_swap in Hl. apply Permutation_cons_inv in Hl.
    rewrite (IH s' Hl Hx); [|intros z Hz; apply Hy; by right]. by rewrite Permutation_middle.
Qed.

Section meaning.
Context (g : Generator) (otm : option TableMeta) (key : list string).
Abbreviation view := (db_row g otm).

Lemma gen_skip : gen_cols otm ⊆ skip_cols otm.
Proof.
  unfold gen_cols, skip_cols. destruct otm as [tm|]; [|done]. intros c. rewrite !elem_of_list_to_set, !list_elem_of_fmap.
  intros (m & -> & [Hm Hin]%list_elem_of_filter). exists m. split; [done|]. apply list_elem_of_filter. auto.
Qed.

Lemma view_lookup img k :
  view img !! k = img !! k ≫= λ v,
    if decide (k ∈ gen_cols otm) then None else Some (val_meaning (column_val g otm k v)).
Proof.
  unfold db_row. rewrite map_lookup_imap. destruct (img !! k) as [v|]; [|done]. simpl. by case_bool_decide; case_decide.
Qed.

(** The INSERT of a deleted row's image is the row. *)
Lemma insert_row before :
  list_to_map (prod_map id val_meaning <$> ((λ col, (col, column_val g otm col (row_get before col))) <$>
    filter (λ col, col ∉ gen_cols otm) (sortedKeys before))) = view before.
Proof.
  apply map_eq. intros k. rewrite values_lookup, view_lookup. unfold row_get.
  destruct (before !! k) as [v|] eqn:E.
  - assert (k ∈ sortedKeys before) as Hk by (apply elem_of_sortedKeys; eauto). simpl.
    destruct (decide (k ∈ gen_cols otm)).
    + rewrite decide_False; [done|]. intros [? _]%list_elem_of_filter. done.
    + rewrite decide_True; [done|]. by apply list_elem_of_filter.
  - rewrite decide_False; [done|]. intros [_ [v Hv]%elem_of_sortedKeys]%list_elem_of_filter. congruence.
Qed.

(** Full images of an UPDATE: the same columns, and a column the reversal may
    not set has not changed. *)
Definition images_ok (before after : Row) : Prop :=
  dom before = dom after ∧
  ∀ c, c ∈ skip_cols otm → c ∉ gen_cols otm → before !! c = after !! c.

(** The SET of an UPDATE's reversal turns the row after it into the row before. *)
Lemma set_row_before before after :
  images_ok before after →
  set_row ((λ col, (col, column_val g otm col (row_get before col))) <$>
    filter (λ col, col ∉ skip_cols otm) (sortedKeys before)) (view after) = view before.
Proof.
  intros [Hdom Hskip]. apply map_eq. intros k. rewrite set_row_lookup, !view_lookup. unfold row_get.
  destruct (before !! k) as [v|] eqn:E.
  - assert (k ∈ sortedKeys before) as Hk by (apply elem_of_sortedKeys; eauto). simpl.
    destruct (decide (k ∈ skip_cols otm)) as [Hs|Hs].
    + rewrite decide_False by (intros [? _]%list_elem_of_filter; done).
      destruct (decide (k ∈ gen_cols otm)) as [Hg|Hg]; [by destruct (after !! k)|].
      rewrite <-(Hskip k Hs Hg), E. simpl. done.
    + rewrite decide_True by (by apply list_elem_of_filter). rewrite decide_False; [done|].
      intros Hg. by apply Hs, gen_skip.
  - rewrite decide_False.
    + assert (after !! k = None) as ->; [|done]. apply not_elem_of_dom. rewrite <-Hdom. by apply not_elem_of_dom.
    + intros [_ [v Hv]%elem_of_sortedKeys]%list_elem_of_filter. congruence.
Qed.

(** ** The rows a WHERE selects *)

(** The WHERE of the key: its columns are plain columns of the image. *)
Definition keyed_where (after : Row) : Prop :=
  ∃ tm, otm = Some tm ∧ key = Name <$> where_pk g tm ∧ key ≠ [] ∧
    ∀ c, c ∈ key → (c ∉ gen_cols otm) ∧ (c ∉ geom_cols g otm) ∧
      ∃ v, after !! c = Some v ∧ decoded g otm c v ≠ VNil.

(** The WHERE of all columns: one row at a time, of a table whose columns are
    those of the image, none of them stored in another form. *)
Definition whole_where (after : Row) (db : list Row) : Prop :=
  (undo_where g otm after).2 = true ∧ g_dialect g = MySQLDialect ∧ view after = after ∧
  Forall (λ r : Row, dom r = dom after) db.

Lemma pk_conds_holds pkCols after :
  (∀ c, c ∈ Name <$> pkCols → (c ∉ gen_cols otm) ∧ (c ∉ geom_cols g otm) ∧
     ∃ v, after !! c = Some v ∧ decoded g otm c v ≠ VNil) →
  ∃ conds, pk_conds g otm pkCols after = Some conds ∧
    ∀ r, matches conds r ↔ key_of (Name <$> pkCols) r = key_of (Name <$> pkCols) (view after).
Proof.
  induction pkCols as [|pk pkCols IH]; intros Hc; cbn [pk_conds].
  { exists []. split; [done|]. intros r. unfold matches. by rewrite Forall_nil. }
  destruct (Hc (Name pk)) as (Hgen & Hgeom & v & Hv & Hnil); [by left|].
  destruct IH as (conds & Hconds & Hm); [intros c Hin; apply Hc; by right|].
  rewrite Hv. simpl. rewrite Hconds. simpl. eexists. split; [done|]. intros r. unfold matches in *.
  rewrite Forall_cons, Hm. unfold key_of. simpl. rewrite view_lookup, Hv. simpl.
  rewrite decide_False by done. unfold column_val. rewrite bool_decide_eq_false_2 by done. simpl.
  unfold cond_holds. split.
  - intros [[_ E1] E2]. f_equal; [exact E1|exact E2].
  - intros [= E1 E2]. split; [done|exact E2].
Qed.

Lemma keyed_where_holds after :
  keyed_where after → ∃ conds, undo_where g otm after = (conds, false) ∧
    ∀ r, matches conds r ↔ key_of key r = key_of key (view after).
Proof.
  intros (tm & Htm & Hkey & Hne & Hc). rewrite Hkey in Hc, Hne |- *.
  destruct (pk_conds_holds (where_pk g tm) after Hc) as (conds & Hconds & Hm).
  exists conds. split; [|done]. unfold undo_where. rewrite Htm in *. simpl.
  destruct (where_pk g tm); [done|]. simpl in *. by rewrite Hconds.
Qed.

Lemma whole_where_holds after db :
  whole_where after db → undo_where g otm after = (all_conds after, true) ∧ matches (all_conds after) after ∧
    ∀ r, r ∈ db → matches (all_conds after) r → r = after.
Proof.
  intros (Hall & _ & _ & Hdom). unfold undo_where in *. destruct (_ ≫= _); [done|]. split; [done|].
  assert (∀ r, matches (all_conds after) r ↔ ∀ c v, after !! c = Some v → r !! c = Some v) as Hm.
  { intros r. unfold matches, all_conds. rewrite Forall_fmap, Forall_forall. split.
    - intros H c v Hv. specialize (H c). unfold cond_holds, row_get in H. simpl in H. rewrite Hv in H. simpl in H.
      assert (c ∈ sortedKeys after) as Hc by (apply elem_of_sortedKeys; eauto). destruct v; naive_solver.
    - intros H c [v Hv]%elem_of_sortedKeys. unfold cond_holds, row_get. simpl. rewrite Hv. simpl.
      pose proof (H c v Hv). by destruct v. }
  split; [by apply Hm|]. intros r Hr Hmr. rewrite Hm in Hmr. rewrite Forall_forall in Hdom. apply map_eq. intros c.
  destruct (after !! c) as [v|] eqn:E; [auto|]. apply not_elem_of_dom. rewrite (Hdom r Hr). by apply not_elem_of_dom.
Qed.

(** ** Logged changes *)

(** A table before and after a logged change. *)
Inductive row_step : list Row → ResultRow → list Row → Prop :=
| step_insert t ev t' after :
    EventType ev = EventInsert → RowAfter ev = Some after → t' ≡ₚ view after :: t → row_step t ev t'
| step_update t ev t' before after s :
    EventType ev = EventUpdate → RowBefore ev = Some before → RowAfter ev = Some after →
    t ≡ₚ view before :: s → t' ≡ₚ view after :: s → row_step t ev t'
| step_delete t ev t' before :
    EventType ev = EventDelete → RowBefore ev = Some before → t ≡ₚ view before :: t' → row_step t ev t'.

(** The images of a change suffice to find its row in the table [t'] it left. *)
Definition undoable (t' : list Row) (ev : ResultRow) : Prop :=
  (∀ after, RowAfter ev = Some after → EventType ev ≠ EventDelete → keyed_where after ∨ whole_where after t') ∧
  (∀ before after, RowBefore ev = Some before → RowAfter ev = Some after → EventType ev = EventUpdate →
     images_ok before after).

Lemma unique_key_perm db db' : db ≡ₚ db' → unique_key key db → unique_key key db'.
Proof. intros Hp [H|H]; [by left|right]. by rewrite <-Hp. Qed.

(** Whatever the WHERE, it changes the one row the change left. *)
Lemma selected_row after t' s sets :
  keyed_where after ∨ whole_where after t' → t' ≡ₚ view after :: s → unique_key key t' →
  let '(wh, all) := undo_where g otm after in
  let one_row := all && bool_decide (g_dialect g = MySQLDialect) in
  (if one_row then change_first (matches wh) (λ r, [set_row sets r]) t'
   else (λ r, if decide (matches wh r) then set_row sets r else r) <$> t') ≡ₚ set_row sets (view after) :: s ∧
  (if one_row then change_first (matches wh) (λ _, []) t' else filter (λ r, ¬ matches wh r) t') ≡ₚ s.
Proof.
  intros [Hk|Hw] Ht Hu.
  - destruct (keyed_where_holds after Hk) as (conds & -> & Hm). simpl.
    assert (∀ r, r ∈ s → ¬ matches conds r) as Hs.
    { destruct Hk as (_ & _ & _ & Hne & _). destruct Hu as [Hu|Hu]; [done|]. intros r Hr Hmr. rewrite Hm in Hmr.
      rewrite Ht, fmap_cons, NoDup_cons in Hu. destruct Hu as [Hni _]. apply Hni. rewrite <-Hmr.
      by apply list_elem_of_fmap_2. }
    assert (matches conds (view after)) as Ha by by apply Hm.
    rewrite Ht. split.
    + rewrite fmap_cons, decide_True by done. f_equiv. rewrite <-(list_fmap_id s) at 2. apply reflexive_eq.
      apply list_fmap_ext. intros i r Hr%list_elem_of_lookup_2. by rewrite decide_False by auto.
    + rewrite filter_cons, decide_False by auto. by rewrite filter_all by auto.
  - destruct (whole_where_holds after t' Hw) as (-> & Ha & Hr). destruct Hw as (_ & -> & Hv & _). rewrite Hv in *.
    simpl. split; rewrite (change_first_perm _ _ _ _ _ Ht Ha) by auto; done.
Qed.

(** The statement of a change undoes it. *)
Lemma exec_undoes t ev t' :
  row_step t ev t' → undoable t' ev → unique_key key t → unique_key key t' →
  ∃ s t'', undo_stmt g otm ev = Some s ∧ exec (g_dialect g) key t' s = Some t'' ∧ t'' ≡ₚ t.
Proof.
  intros Hstep [Hwh Him] Hu Hu'. unfold undo_stmt, exec. destruct Hstep as
    [t ev t' after Hty Ha Ht|t ev t' before after s Hty Hb Ha Ht Ht'|t ev t' before Hty Hb Ht]; rewrite Hty in *.
  - rewrite Ha. simpl. pose proof (selected_row after t' t [] (Hwh after Ha ltac:(done)) Ht Hu') as Hsel.
    destruct (undo_where g otm after) as [wh all]. destruct Hsel as [_ Hdel]. simpl.
    eexists _, _. split; [reflexivity|]. cbv beta iota zeta. split; [|exact Hdel].
    rewrite decide_True; [reflexivity|]. eapply unique_key_perm; [symmetry; exact Hdel|done].
  - rewrite Hb, Ha. simpl.
    match goal with |- context [SUpdate ?sets _ _] =>
      pose proof (selected_row after t' s sets (Hwh after Ha ltac:(done)) Ht' Hu') as Hsel end.
    destruct (undo_where g otm after) as [wh all]. destruct Hsel as [Hupd _].
    rewrite set_row_before in Hupd by auto. rewrite <-Ht in Hupd. simpl.
    eexists _, _. split; [reflexivity|]. cbv beta iota zeta. split; [|exact Hupd].
    rewrite decide_True; [reflexivity|]. eapply unique_key_perm; [symmetry; exact Hupd|done].
  - rewrite Hb. simpl. eexists _, _. split; [reflexivity|]. cbv beta iota zeta. rewrite insert_row.
    split; [|symmetry; exact Ht]. rewrite decide_True; [reflexivity|]. by eapply unique_key_perm.
Qed.

(** A series of changes, each undoable from the state it left. *)
Inductive logged : list Row → list ResultRow → list Row → Prop :=
| logged_nil t t' : unique_key key t → t ≡ₚ t' → logged t [] t'
| logged_cons t ev t' evs t'' :
    unique_key key t → unique_key key t' → row_step t ev t' → undoable t' ev → logged t' evs t'' →
    logged t (ev :: evs) t''.

Lemma row_step_perm t ev t' u : t' ≡ₚ u → row_step t ev t' → row_step t ev u.
Proof.
  intros Hp Hstep. destruct Hstep as [????? Ht|??????? Hb Ha Ht Ht'|????? Hb Ht].
  - eapply step_insert; [done..|]. by rewrite <-Hp.
  - eapply step_update; [done..|]. by rewrite <-Hp.
  - eapply step_delete; [done..|]. by rewrite Ht, Hp.
Qed.

Lemma undoable_perm t' u ev : t' ≡ₚ u → undoable t' ev → undoable u ev.
Proof.
  intros Hp [Hw Hi]. split; [|done]. intros after Ha Hty. destruct (Hw after Ha Hty) as [H|(?&?&?&H)]; [by left|right].
  split_and!; [done..|]. by rewrite <-Hp.
Qed.

Lemma exec_all_snoc d db stmts s db' :
  exec_all d key db stmts = Some db' → exec_all d key db (stmts ++ [s]) = exec d key db' s.
Proof.
  revert db. induction stmts as [|s' stmts IH]; intros db; simpl.
  - intros [= ->]. by destruct (exec d key db' s).
  - destruct (exec d key db s'); [|done]. simpl. apply IH.
Qed.

(** Running the statements of a series of changes, last change first, takes the
    table back. *)
Lemma exec_all_undoes t evs t' :
  logged t evs t' →
  ∃ stmts u, Forall2 (λ ev s, undo_stmt g otm ev = Some s) evs stmts ∧
    exec_all (g_dialect g) key t' (reverse stmts) = Some u ∧ u ≡ₚ t.
Proof.
  induction 1 as [t t' Hu Hp|t ev t' evs t'' Hu Hu' Hstep Hun Hl (stmts & u & Hs & Hex & Hp)].
  - exists [], t'. split_and!; [constructor|done|by symmetry].
  - symmetry in Hp. destruct (exec_undoes t ev u) as (s & v & Hst & Hv & Hvp).
    + by eapply row_step_perm.
    + by eapply undoable_perm.
    + done.
    + by eapply unique_key_perm.
    + exists (s :: stmts), v. split_and!; [by constructor| |done].
      rewrite reverse_cons. by erewrite exec_all_snoc.
Qed.
End meaning.

(** ** Properties *)

(** The events of one table with one shape, read as plain changes. *)
Definition plain_event (g : Generator) (otm : option TableMeta) (ev : ResultRow) : Prop :=
  resolve_opt (resolverForRow g ev) (SchemaName ev) (TableName ev) = otm ∧ sysVersionedReversal g ev = SvReverse ev.

Lemma plan_statements g otm evs stmts :
  Forall (plain_event g otm) evs → Forall2 (λ ev s, undo_stmt g otm ev = Some s) evs stmts →
  (λ p, p.1.1) <$> omap (row_plan g) evs = zip_with (stmt_text g) evs stmts.
Proof.
  intros Hp Hs. induction Hs as [|ev s evs stmts Hst Hs IH]; [done|].
  apply Forall_cons in Hp as [[Hr Hsv] Hp]. simpl.
  destruct (buildStatement_text g otm ev s Hr Hst) as [cols Hb].
  assert (row_plan g ev = Some (stmt_text g ev s, cols, ev)) as -> by (unfold row_plan; by rewrite Hsv, Hb).
  simpl. f_equal. exact (IH Hp).
Qed.

(** C2: a recovery script undoes what it was made from: over changes of one
    table whose effects took it from [before] to [after] in the order the
    script reverses, running the script's statements in the order it has them
    on [after] fails on none and gives the rows of [before] back, duplicates
    included. Each statement is the one whose text ends at its offset. The rows
    are found by the primary key of the table's snapshot, or, on MySQL without
    one, by all columns one row at a time. *)
Theorem recovery_undoes isPrint now g otm key rows before after sc o :
  rows ≠ [] → generate isPrint now g rows = (inl sc, o) →
  Forall (plain_event g otm) rows →
  logged g otm key before (order_rows g rows).1 after →
  ∃ stmts db,
    Forall2 (cut_at (sc_text sc)) (sc_ends sc) (zip_with (stmt_text g) (reverse (order_rows g rows).1) stmts) ∧
    length stmts = length rows ∧ sc_written sc = length rows ∧
    exec_all (g_dialect g) key after stmts = Some db ∧ db ≡ₚ before.
Proof.
  intros Hne Hgen Hplain Hlog. destruct (exec_all_undoes g otm key _ _ _ Hlog) as (stmts & db & Hs & Hex & Hp).
  exists (reverse stmts), db. pose proof (order_rows_perm g rows) as Hperm.
  pose proof (Forall2_length _ _ _ Hs) as Hlen. rewrite Hperm in Hlen.
  assert (Forall2 (λ ev s, undo_stmt g otm ev = Some s) (reverse (order_rows g rows).1) (reverse stmts)) as Hs'
    by by apply Forall2_reverse.
  assert (Forall (plain_event g otm) (reverse (order_rows g rows).1)) as Hplain'
    by (by rewrite Forall_reverse, Hperm).
  pose proof (plan_statements g otm _ _ Hplain' Hs') as Hplan.
  destruct (proj1 (generate_eq isPrint now g rows Hne) sc o Hgen) as (_ & tail & -> & -> & ->).
  destruct (gen_rows_inv isPrint g (reverse (order_rows g rows).1)) as [He Hw _ _ _]. split_and!; [|..|done|done].
  - rewrite <-Hplan, Forall2_fmap_l. eapply Forall2_impl; [exact He|]. intros e stmt Hc. by apply cut_at_prepend, cut_at_app.
  - by rewrite length_reverse.
  - rewrite Hw. pose proof (f_equal length Hplan) as Hl. rewrite length_fmap, length_zip_with, !length_reverse in Hl.
    rewrite (Permutation_length Hperm) in Hl. lia.
Qed.

(** A table with a key and a text column, and a generator that knows it. *)
Definition plain_column (name typ : string) (pk : bool) : ColumnMeta := {|
  Name := name; OrdinalPosition := 1; IsPK := pk; DataType := typ; ColumnType := typ; IsGenerated := false;
  CharacterSet := ""; IsNullable := "NO"; IsIdentityAlways := false |}.

Definition notes_table (pk : bool) : TableMeta := {|
  tm_Schema := "shop"; tm_Table := "notes";
  Columns := [plain_column "id" "int" pk; plain_column "body" "text" false];
  PKColumns := if pk then ["id"] else [] |}.

Definition notes_generator (pk : bool) : Generator := {|
  g_load := None; g_resolver := Some {| r_SnapshotID := 1; r_tables := {[ "shop.notes" := notes_table pk ]} |};
  g_dialect := MySQLDialect; g_maxScriptBytes := 0; g_suppressTriggers := false; g_restoreAutoIncrement := false;
  g_flavor := ""; g_binlogOrder := false; g_orderProof := None |}.

(** The image the index stores: the text in base64. *)
Definition note_image (body : string) : Row := {[ "id" := VNumber "1"; "body" := VString (b64_encode body) ]}.

Definition note_row (body : string) : Row := {[ "id" := VNumber "1"; "body" := VString body ]}.

Definition note_update (id : N) (b a : string) : ResultRow := {|
  EventID := id; BinlogFile := "bin.000001"; StartPos := id * 100; EndPos := id * 100 + 50;
  EventTimestamp := Z.of_N id * second; GTID := None; ConnectionID := None; SchemaName := "shop"; TableName := "notes";
  EventType := EventUpdate; PKValues := "1"; RowChangedColumns := ["body"]; RowBefore := Some (note_image b);
  RowAfter := Some (note_image a); SchemaVersion := 0; QueryText := None; QueryHash := None; CommitTsUS := None;
  KeySpanFirst := ""; KeySpanLast := "" |}.

Lemma note_view pk body : db_row (notes_generator pk) (Some (notes_table pk)) (note_image body) = note_row body.
Proof.
  unfold note_image, note_row. apply map_eq. intros k. rewrite view_lookup.
  destruct (decide (k = "id")) as [->|H1].
  { rewrite !lookup_insert_eq. simpl. rewrite decide_False; [by destruct pk|]. by destruct pk; vm_compute. }
  rewrite !lookup_insert_ne by done. destruct (decide (k = "body")) as [->|H2].
  - rewrite !lookup_singleton_eq. cbn [mbind option_bind]. rewrite decide_False.
    2: { apply (bool_decide_unpack _). by destruct pk; vm_compute. }
    f_equal. unfold column_val, decoded.
    replace (bool_decide ("body" ∈ geom_cols (notes_generator pk) (Some (notes_table pk)))) with false
      by (destruct pk; vm_compute; reflexivity).
    replace (b64_cols (notes_generator pk) (Some (notes_table pk)) !! "body") with (Some false)
      by (destruct pk; vm_compute; reflexivity).
    simpl. by rewrite b64_roundtrip.
  - by rewrite !lookup_singleton_ne.
Qed.

Lemma recovery_undoes_witness :
  ∃ sc o stmts db,
    generate (λ _, true) 0 (notes_generator true) [note_update 1 "draft" "final"] = (inl sc, o) ∧
    exec_all MySQLDialect ["id"] [note_row "final"] stmts = Some db ∧ db ≡ₚ [note_row "draft"].
Proof.
  destruct (generate (λ _, true) 0 (notes_generator true) [note_update 1 "draft" "final"]) as [[sc|e] o] eqn:E;
    [|vm_compute in E; discriminate E].
  exists sc, o.
  destruct (recovery_undoes (λ _, true) 0 (notes_generator true) (Some (notes_table true)) ["id"]
    [note_update 1 "draft" "final"] [note_row "draft"] [note_row "final"] sc o) as (stmts & db & _ & _ & _ & H1 & H2).
  - discriminate.
  - exact E.
  - repeat constructor.
  - eapply logged_cons with (t' := [note_row "final"]).
    + right. repeat constructor. apply not_elem_of_nil.
    + right. repeat constructor. apply not_elem_of_nil.
    + eapply step_update with (s := []); [reflexivity..| |]; by rewrite note_view.
    + split.
      * intros after [= <-] _. left. exists (notes_table true). split_and!; [done..|].
        intros c Hc. apply list_elem_of_singleton in Hc as ->. split_and!.
        -- apply (bool_decide_unpack _). by vm_compute.
        -- apply (bool_decide_unpack _). by vm_compute.
        -- exists (VNumber "1"). split; [done|]. by vm_compute.
      * intros before after [= <-] [= <-] _. split; [reflexivity|].
        intros c Hc. exfalso. revert Hc. apply (bool_decide_unpack _). by vm_compute.
    + apply logged_nil; [|done]. right. repeat constructor. apply not_elem_of_nil.
  - exists stmts, db. split; [reflexivity|]. split; [exact H1|exact H2].
Defined.


(** C39: on a table whose snapshot has no primary key, the WHERE over all
    columns compares a TEXT or BLOB column with the base64 text the index
    stores and not with the value: here the snapshot types the column, the SET
    decodes it, the WHERE does not, so the statement matches no row. The script
    is written without a warning, runs without an error and leaves the change
    in place. *)
Theorem unkeyed_text_not_undone :
  ∃ g otm ev before after s cols,
    plain_event g otm ev ∧ row_step g otm before ev after ∧
    undo_stmt g otm ev = Some s ∧ buildStatement g ev = inl (stmt_text g ev s, cols) ∧
    (∃ sc o, generate (λ _, true) 0 g [ev] = (inl sc, o)) ∧
    exec (g_dialect g) [] after s = Some after ∧ ¬ after ≡ₚ before.
Proof.
  set (g := notes_generator false). set (ev := note_update 1 "draft" "final").
  destruct (undo_stmt g (Some (notes_table false)) ev) as [s|] eqn:Es; [|vm_compute in Es; discriminate Es].
  destruct (buildStatement_text g (Some (notes_table false)) ev s) as [cols Hb]; [reflexivity|exact Es|].
  exists g, (Some (notes_table false)), ev, [note_row "draft"], [note_row "final"], s, cols.
  split; [split; reflexivity|]. split.
  { eapply step_update with (s := []); [reflexivity..| |]; unfold g; by rewrite note_view. }
  split; [exact Es|]. split; [exact Hb|]. split.
  { destruct (generate (λ _, true) 0 g [ev]) as [[sc|e] o] eqn:E; [eauto|vm_compute in E; discriminate E]. }
  split.
  - vm_compute in Es. injection Es as <-. vm_compute. reflexivity.
  - intros Hp%Permutation_length_1. apply (f_equal (λ r : Row, r !! "body")) in Hp. by vm_compute in Hp.
Qed.
