(* ===== verification/SysFold.v ===== *)
(** * Folding a system-versioned table: [internal/reconstruct/sysversion.go]

    The rewrite of a captured event into its meaning for the current rows,
    which the fold of a versioned table runs on every event before it folds it
    (the [Normalizer] argument of [foldPage]). Deciding from the text of a
    CREATE TABLE statement that a table is versioned ([sysVersioningFor]) is
    not modelled: a [sysVersioned] record is its answer. Refusals are values;
    [refuse] is the rendering of one as the error text. *)
From S2P Require Import Prelude GoStrings GoTime GoVal Event Rows Merge Spill Fold SysVersion SqlText Recovery.

Record sysVersioned := {
  sv_schema : string;
  sv_table : string;
  period : Period;
  endIdx : Z;
  keyN : Z;
}.

Inductive NormalizeRefusal :=
| NrState (e : SvRefusal)
| NrRevived
| NrNotRowChange (t : N)
| NrKeyWidth (pkValues : string).

Definition strip_row (sv : sysVersioned) (img : Row) : Row :=
  filter (λ kv, equal_fold kv.1 (Start (period sv)) = false ∧ equal_fold kv.1 (End_ (period sv)) = false) img.

Definition strip (sv : sysVersioned) (img : option Row) : option Row := strip_row sv <$> img.

(** The first half of [normalize]: the type the event has for the current
    rows, [None] when it has none. *)
Definition current_type (sv : sysVersioned) (ev : ResultRow) : option N + NormalizeRefusal :=
  let state img := sv_state (End_ (period sv)) (EventTimestamp ev) img in
  if (EventType ev =? EventInsert)%N then
    match state (RowAfter ev) with
    | inr e => inr (NrState e)
    | inl History => inl None
    | inl Current => inl (Some EventInsert)
    end
  else if (EventType ev =? EventUpdate)%N then
    match state (RowBefore ev) with
    | inr e => inr (NrState e)
    | inl before =>
        match state (RowAfter ev) with
        | inr e => inr (NrState e)
        | inl after =>
            match before, after with
            | Current, Current => inl (Some EventUpdate)
            | Current, History => inl (Some EventDelete)
            | History, History => inl None
            | History, Current => inr NrRevived
            end
        end
    end
  else if (EventType ev =? EventDelete)%N then
    match state (RowBefore ev) with
    | inr e => inr (NrState e)
    | inl History => inl None
    | inl Current => inl (Some EventDelete)
    end
  else inr (NrNotRowChange (EventType ev)).

(** [ev] with the type, key and images of the current rows. *)
Definition with_current (sv : sysVersioned) (ev : ResultRow) (typ : N) (key : string) : ResultRow :=
  with_change ev typ key (strip sv (RowBefore ev))
    (if (typ =? EventDelete)%N then None else strip sv (RowAfter ev)) (RowChangedColumns ev).

Definition normalize (sv : sysVersioned) (ev : ResultRow) : option ResultRow + NormalizeRefusal :=
  match current_type sv ev with
  | inr e => inr e
  | inl None => inl None
  | inl (Some typ) =>
      match DropPKComponent (PKValues ev) (endIdx sv) (keyN sv) with
      | None => inr (NrKeyWidth (PKValues ev))
      | Some key => inl (Some (with_current sv ev typ key))
      end
  end.

(** As the fold takes it. *)
Definition normalizer_of (refuse : sysVersioned → ResultRow → NormalizeRefusal → string) (sv : sysVersioned)
    : Normalizer :=
  λ ev, match normalize sv ev with inl o => inl o | inr e => inr (refuse sv ev e) end.

(** ** Lemmas *)

(** The images of the event [with_current] makes, as rows taken and added. *)
Definition strip_effect (sv : sysVersioned) (e : list Row * list Row) : list Row * list Row :=
  (strip_row sv <$> e.1, strip_row sv <$> e.2).

Lemma current_type_effect sv ev :
  match current_type sv ev with
  | inl (Some typ) =>
      (∀ key, plain_effect (with_current sv ev typ key) = strip_effect sv (current_effect (End_ (period sv)) ev)) ∧
      (typ = EventType ev ∨ EventType ev = EventUpdate ∧ typ = EventDelete)
  | inl None => current_effect (End_ (period sv)) ev = ([], [])
  | inr NrRevived => (current_effect (End_ (period sv)) ev).1 = [] ∧ (current_effect (End_ (period sv)) ev).2 ≠ []
  | inr _ => True
  end.
Proof.
  unfold current_type, current_effect, plain_effect. set (end_ := End_ (period sv)).
  destruct (EventType ev =? EventInsert)%N eqn:HI; [apply N.eqb_eq in HI; rewrite HI|
    destruct (EventType ev =? EventUpdate)%N eqn:HU; [apply N.eqb_eq in HU; rewrite HU|
      destruct (EventType ev =? EventDelete)%N eqn:HD; [apply N.eqb_eq in HD; rewrite HD|done]]];
    cbn [N.eqb Pos.eqb orb EventInsert EventUpdate EventDelete fst snd].
  - destruct (sv_state end_ (EventTimestamp ev) (RowAfter ev)) as [sa|ea] eqn:Ea; [|done].
    destruct (sv_state_current _ _ _ _ Ea) as (a & Ha & Hc). rewrite Hc.
    destruct sa; simpl; [|done]. split; [|by left]. intros key. unfold strip_effect. simpl. by rewrite Ha.
  - destruct (sv_state end_ (EventTimestamp ev) (RowBefore ev)) as [sb|eb] eqn:Eb; [|done].
    destruct (sv_state end_ (EventTimestamp ev) (RowAfter ev)) as [sa|ea] eqn:Ea; [|done].
    destruct (sv_state_current _ _ _ _ Eb) as (b & Hb & Hcb). destruct (sv_state_current _ _ _ _ Ea) as (a & Ha & Hca).
    rewrite Hcb, Hca. destruct sb, sa; simpl; [..|by rewrite Ha|done].
    + split; [|by left]. intros key. unfold strip_effect. simpl. by rewrite Ha, Hb.
    + split; [|by right]. intros key. unfold strip_effect. simpl. by rewrite Hb.
  - destruct (sv_state end_ (EventTimestamp ev) (RowBefore ev)) as [sb|eb] eqn:Eb; [|done].
    destruct (sv_state_current _ _ _ _ Eb) as (b & Hb & Hc). rewrite Hc.
    destruct sb; simpl; [|done]. split; [|by left]. intros key. unfold strip_effect. simpl. by rewrite Hb.
Qed.

(** ** Properties *)

(** The fold of a system-versioned table sees the table a plain SELECT
    shows: an event it keeps takes and adds exactly the current rows, less the
    period columns, that the logged change took and added, under the declared
    key (the stored key with its ROW END component removed); an event it drops
    touched no current row; and a change that makes a history version current
    is refused. *)
Theorem normalize_current sv ev parts (i : nat) :
  PKValues ev = pk_text parts → keyN sv = Z.of_nat (length parts) → endIdx sv = Z.of_nat i → i < length parts →
  match normalize sv ev with
  | inl (Some out) =>
      plain_effect out = strip_effect sv (current_effect (End_ (period sv)) ev) ∧
      PKValues out = pk_text (delete i parts) ∧
      row_pos out = row_pos ev ∧ EventID out = EventID ev
  | inl None => current_effect (End_ (period sv)) ev = ([], [])
  | inr NrRevived => (current_effect (End_ (period sv)) ev).1 = [] ∧ (current_effect (End_ (period sv)) ev).2 ≠ []
  | inr (NrKeyWidth _) => False
  | inr _ => True
  end.
Proof.
  intros Hpk Hn Hi Hlt. pose proof (current_type_effect sv ev) as He. unfold normalize.
  destruct (current_type sv ev) as [[typ|]|e] eqn:Et; [|done|].
  - destruct He as [He _]. rewrite Hpk, Hn, Hi, DropPKComponent_text; [|by destruct parts; simpl in *; [lia|]|done].
    split; [apply He|]. done.
  - destruct e; try done. exfalso. clear He. unfold current_type in Et. repeat case_match; discriminate.
Qed.

Lemma normalize_current_witness :
  let sv := {| sv_schema := "shop"; sv_table := "orders"; period := {| Start := "row_start"; End_ := "row_end" |};
               endIdx := 1; keyN := 2 |} in
  ∃ out, normalize sv versioned_delete = inl (Some out) ∧ PKValues out = "1" ∧
    plain_effect out = ([{[ "id" := VNumber "1" ]}], []).
Proof.
  intros sv.
  pose proof (normalize_current sv versioned_delete ["1"; "2106-02-07 06:28:15.999999"] 1) as H.
  destruct (normalize sv versioned_delete) as [[out|]|e] eqn:E;
    [|vm_compute in E; discriminate E|vm_compute in E; discriminate E].
  exists out. destruct H as (H1 & H2 & _); [reflexivity|reflexivity|reflexivity|simpl; lia|].
  split; [reflexivity|]. split; [rewrite H2; reflexivity|]. rewrite H1. vm_compute. reflexivity.
Defined.
