(* ===== verification/Planner.v ===== *)
(** * The query planner ([internal/query/planner.go])

    Which hours of a read live in MySQL partitions, which in archives, and which
    in neither. The index is data: the names of its live partitions and the rows
    of [archive_state], each of which may fail to read. A [time.Time] is a [Z]
    ([GoTime]); the zero time stands for an open bound, as in the code. *)
From S2P Require Import Prelude GoStrings GoTime SysVersion.

Open Scope Z_scope.

Record TimeRange := { Start : Z; End_ : Z }.

Record QueryPlan := {
  MySQLRanges : list TimeRange;
  GapHours : list Z;
  OldestKnownHour : Z;
  ArchivesBelowLive : bool;
  MisfiledArchiveHours : list Z;
  ArchiveCoverageUnavailable : bool;
}.

(** [archiveCoverage]: the label's hour and the content range, zero when not
    known. *)
Record archiveCoverage := { Label : Z; cov_Min : Z; cov_Max : Z }.

Definition maxCoverageSpan : Z := 20 * 366 * 24 * hour.

(** ** Partition names *)

(** [time.ParseInLocation("p_2006010215", name, time.UTC)] on 12 bytes. *)
Definition ParsePartitionName (name : string) : option Z :=
  if negb (String.length name =? 12)%nat || negb (has_prefix name "p_") then None
  else
    let s := str_drop 2 name in
    year ← (if forallb is_digit (String.list_ascii_of_string (str_take 4 s))
            then digits_val (str_take 4 s) 0 else None);
    '(month, s) ← getnum (str_drop 4 s) true;
    '(day_, s) ← getnum s true;
    '(hour_, s) ← getnum s false;
    if bool_decide (s = "") && (1 <=? month) && (month <=? 12) && (1 <=? day_)
       && (day_ <=? days_in month year) && (hour_ <? 24)
    then Some (days_from_civil year month day_ * day + hour_ * hour)
    else None.

(** ** Hours *)

(** The hours [h], [h + 1], ... of a loop [for h := from; h < to; h += hour]. *)
Definition hours_until (from to : Z) : list Z :=
  (λ i, from + Z.of_nat i * hour) <$> seq 0 (Z.to_nat ((to - from + hour - 1) / hour)).

(** The content hours of one archive: [for h := Min.Truncate(hour);
    !h.After(Max); h += hour]. *)
Definition content_hours (c : archiveCoverage) : list Z :=
  if (cov_Min c =? 0) || (cov_Max c =? 0) || (cov_Max c <? cov_Min c) then []
  else if maxCoverageSpan <? cov_Max c - cov_Min c then []
  else hours_until (truncate_hour (cov_Min c)) (cov_Max c + 1).

(** [add]: a new hour at the end. *)
Definition add_hour (hours : list Z) (h : Z) : list Z :=
  if bool_decide (h ∈ hours) then hours else hours ++ [h].

Definition expandArchiveHours (cov : list archiveCoverage) : list Z :=
  sort_by Z.compare (foldl (λ hours c, foldl add_hour (add_hour hours (Label c)) (content_hours c)) [] cov).

(** One row of [misfiledHours]: its content leaves its label's hour and meets
    the range. *)
Definition misfiled (rangeStart rangeEnd : Z) (c : archiveCoverage) : bool :=
  if (cov_Min c =? 0) || (cov_Max c =? 0) || (cov_Max c <? cov_Min c) then false
  else if negb (cov_Min c <? Label c) && (cov_Max c <? Label c + hour) then false
  else if negb (rangeEnd =? 0) && negb (cov_Min c <? rangeEnd) then false
  else if negb (rangeStart =? 0) && (cov_Max c <? rangeStart) then false
  else true.

Definition misfiledHours (cov : list archiveCoverage) (rangeStart rangeEnd : Z) : list Z :=
  sort_by Z.compare (foldl (λ hours c, if misfiled rangeStart rangeEnd c then add_hour hours (Label c) else hours) [] cov).

(** [buildContiguousRanges]; [cur] is the open range. *)
Fixpoint ranges_loop (hours : list Z) (rangeStart rangeEnd : Z) (cur : option TimeRange) (out : list TimeRange)
    : list TimeRange :=
  match hours with
  | [] => match cur with Some r => out ++ [r] | None => out end
  | h :: rest =>
      if (h <? rangeStart) || negb (h <? rangeEnd) then ranges_loop rest rangeStart rangeEnd cur out
      else
        match cur with
        | None => ranges_loop rest rangeStart rangeEnd (Some {| Start := h; End_ := h + hour |}) out
        | Some r =>
            if h =? End_ r then ranges_loop rest rangeStart rangeEnd (Some {| Start := Start r; End_ := h + hour |}) out
            else ranges_loop rest rangeStart rangeEnd (Some {| Start := h; End_ := h + hour |}) (out ++ [r])
        end
  end.

Definition buildContiguousRanges (hours : list Z) (rangeStart rangeEnd : Z) : list TimeRange :=
  ranges_loop hours rangeStart rangeEnd None [].

Definition min_hours (h : Z) (hours : list Z) : Z := foldl (λ m x, if x <? m then x else m) h hours.
Definition max_hours (h : Z) (hours : list Z) : Z := foldl (λ m x, if m <? x then x else m) h hours.

Definition archivesBelowLive (liveHours archivedHours : list Z) : bool :=
  match liveHours, archivedHours with
  | [], _ | _, [] => true
  | h :: rest, _ => let oldestLive := min_hours h rest in forallb (λ a, a <? oldestLive) archivedHours
  end.

(** [OldestKnownHour]: the zero time is replaced by any hour. *)
Definition oldest_known (hours : list Z) : Z :=
  foldl (λ m h, if (m =? 0) || (h <? m) then h else m) 0 hours.

(** [buildPlan]; [now] is the clock. *)
Definition buildPlan (now : Z) (liveHours archivedHours : list Z) (rangeStart rangeEnd : Z) (noArchive : bool)
    : option QueryPlan :=
  let archivedHours := if noArchive then [] else archivedHours in
  if (rangeStart =? 0) && (rangeEnd =? 0) then None
  else
    rangeStart ← (if rangeStart =? 0 then
                    match liveHours with
                    | h :: _ => Some h
                    | [] => head archivedHours
                    end
                     else Some rangeStart);
    let rangeEnd := if rangeEnd =? 0 then
                      match last liveHours with
                      | Some h => h + hour
                      | None => truncate_hour now + hour
                      end
                    else rangeEnd in
    let range := hours_until rangeStart rangeEnd in
    let needMySQL := existsb (λ h, bool_decide (h ∈ liveHours)) range in
    Some {| MySQLRanges := if needMySQL then buildContiguousRanges liveHours rangeStart rangeEnd else [];
            GapHours := filter (λ h, (h ∉ liveHours) ∧ (h ∉ archivedHours)) range;
            OldestKnownHour := oldest_known (liveHours ++ archivedHours);
            ArchivesBelowLive := archivesBelowLive liveHours archivedHours;
            MisfiledArchiveHours := [];
            ArchiveCoverageUnavailable := false |}.

Definition browsePlanFromHours (liveHours archivedHours : list Z) : option QueryPlan :=
  match liveHours with
  | [] => None
  | h :: rest =>
      let oldestLive := min_hours h rest in
      let newestLive := max_hours h rest in
      if forallb (λ a, a <? oldestLive) archivedHours then
        Some {| MySQLRanges := [{| Start := oldestLive; End_ := newestLive + hour |}];
                GapHours := [];
                OldestKnownHour := min_hours oldestLive archivedHours;
                ArchivesBelowLive := true;
                MisfiledArchiveHours := [];
                ArchiveCoverageUnavailable := false |}
      else None
  end.

Definition SkipMySQL (p : option QueryPlan) : bool :=
  match p with
  | None => false
  | Some p => (length (MySQLRanges p) =? 0)%nat && (length (GapHours p) =? 0)%nat
  end.

(** ** The index *)

(** What reading [archive_state] gives: its rows (name, first and last event
    time), no such table, another failure. *)
Inductive archiveRead :=
| ArchiveRows (rows : list (string * option Z * option Z))
| ArchiveMissing
| ArchiveFails.

(** The live partitions' names in order, [None] when they do not read. *)
Record planIndex := { pi_partitions : option (list string); pi_archives : archiveRead }.

Definition loadLivePartitionHours (names : list string) : list Z :=
  omap ParsePartitionName (filter (λ n, n ≠ "p_future") names).

Definition loadArchiveCoverage (rows : list (string * option Z * option Z)) : list archiveCoverage :=
  omap (λ '(name, minTS, maxTS),
    t ← ParsePartitionName name;
    match minTS, maxTS with
    | Some a, Some b => Some {| Label := t; cov_Min := a; cov_Max := b |}
    | _, _ => Some {| Label := t; cov_Min := 0; cov_Max := 0 |}
    end) rows.

(** [Plan]: [None] is the planner's error, [Some None] no plan. *)
Definition Plan (now : Z) (db : planIndex) (since until : option Z) (noArchive : bool) : option (option QueryPlan) :=
  match since, until with
  | None, None => Some None
  | _, _ =>
      let rangeStart := match since with Some s => truncate_hour s | None => 0 end in
      let rangeEnd := match until with Some u => truncate_hour u + hour | None => 0 end in
      names ← pi_partitions db;
      let '(cov, unavailable) :=
        if noArchive then ([], false)
        else match pi_archives db with
             | ArchiveRows rows => (loadArchiveCoverage rows, false)
             | ArchiveMissing => ([], false)
             | ArchiveFails => ([], true)
             end in
      Some (plan ← buildPlan now (loadLivePartitionHours names) (expandArchiveHours cov) rangeStart rangeEnd noArchive;
            Some {| MySQLRanges := MySQLRanges plan; GapHours := GapHours plan;
                    OldestKnownHour := OldestKnownHour plan; ArchivesBelowLive := ArchivesBelowLive plan;
                    MisfiledArchiveHours := if noArchive then [] else misfiledHours cov rangeStart rangeEnd;
                    ArchiveCoverageUnavailable := unavailable |})
  end.

Definition PlanBrowse (db : planIndex) : option (option QueryPlan) :=
  names ← pi_partitions db;
  match pi_archives db with
  | ArchiveFails => None
  | r =>
      let cov := match r with ArchiveRows rows => loadArchiveCoverage rows | _ => [] end in
      Some (browsePlanFromHours (loadLivePartitionHours names) (expandArchiveHours cov))
  end.

(** [MisfiledArchiveHours]. *)
Definition MisfiledArchiveHoursOf (db : planIndex) (since until : option Z) : option (list Z) :=
  match since, until with
  | None, None => Some []
  | _, _ =>
      match pi_archives db with
      | ArchiveRows rows =>
          Some (misfiledHours (loadArchiveCoverage rows)
                  (match since with Some s => truncate_hour s | None => 0 end)
                  (match until with Some u => truncate_hour u + hour | None => 0 end))
      | _ => None
      end
  end.

Definition gap_layout (t : Z) : string :=
  format_date t +:+ " " +:+ padZ 2 ((t mod day) / hour) +:+ ":00".

Definition GapRange (gaps : list Z) : string * string :=
  match gaps with
  | [] => ("", "")
  | g :: _ => (gap_layout g, gap_layout (default g (last gaps)))
  end.

Definition FormatGapWarning (gaps : list Z) : string :=
  match gaps with
  | [] => ""
  | _ => let '(first, last) := GapRange gaps in
         "query covers hours with no data (rotated and not archived): " +:+ first +:+ " – " +:+ last
  end.

Example planner_samples :
  ParsePartitionName "p_2024022923" = Some (63844844400 * second) ∧
  ParsePartitionName "p_2023022900" = None ∧ ParsePartitionName "p_future" = None ∧
  hours_until 0 (2 * hour) = [0; hour] ∧
  GapRange [63844844400 * second; 63844848000 * second] = ("2024-02-29 23:00", "2024-03-01 00:00").
Proof. repeat split; vm_compute; reflexivity. Qed.

(** ** Hours of a loop *)

Definition aligned (h : Z) : Prop := h mod hour = 0.

Lemma hour_pos : 0 < hour.
Proof. done. Qed.

Lemma truncate_aligned t : aligned (truncate_hour t).
Proof. unfold aligned, truncate_hour. apply Z.mod_mul. done. Qed.

Lemma truncate_bound t : truncate_hour t ≤ t < truncate_hour t + hour.
Proof.
  unfold truncate_hour. pose proof (Z.div_mod t hour ltac:(done)). pose proof (Z.mod_pos_bound t hour hour_pos). lia.
Qed.

Lemma aligned_add h k : aligned h → aligned (h + k * hour).
Proof. unfold aligned. intros. rewrite Z.mod_add by done. done. Qed.

(** Two aligned hours less than an hour apart are one. *)
Lemma aligned_eq a b : aligned a → aligned b → a ≤ b < a + hour → a = b.
Proof.
  unfold aligned. intros Ha Hb H. pose proof (Z.div_mod a hour ltac:(done)). pose proof (Z.div_mod b hour ltac:(done)).
  assert (a / hour = b / hour); [|lia]. pose proof hour_pos. nia.
Qed.

Lemma elem_of_hours_until from to h : aligned from → aligned h →
  h ∈ hours_until from to ↔ from ≤ h < to.
Proof.
  intros Hf Hh. unfold hours_until. rewrite list_elem_of_fmap. pose proof hour_pos as Hp. split.
  - intros (i & -> & Hi%elem_of_seq). split; [nia|].
    assert (Z.of_nat i < (to - from + hour - 1) / hour) as H by lia.
    pose proof (Z.mul_div_le (to - from + hour - 1) hour Hp).
    assert ((Z.of_nat i + 1) * hour ≤ to - from + hour - 1) by nia. lia.
  - intros H. unfold aligned in *. exists (Z.to_nat ((h - from) / hour)).
    assert (Hd : h - from = (h - from) / hour * hour).
    { pose proof (Z.div_mod (h - from) hour ltac:(done)). rewrite Zminus_mod, Hf, Hh in H0. change ((0 - 0) mod hour) with 0 in H0. lia. }
    assert (0 ≤ (h - from) / hour) by (apply Z.div_pos; lia).
    split; [lia|]. apply elem_of_seq. split; [lia|].
    assert ((h - from) / hour + 1 ≤ (to - from + hour - 1) / hour); [|lia].
    apply Z.div_le_lower_bound; lia.
Qed.

Lemma hours_until_aligned from to h : aligned from → h ∈ hours_until from to → aligned h.
Proof. unfold hours_until. intros Hf (i & -> & _)%list_elem_of_fmap. by apply aligned_add. Qed.

Lemma length_hours_until from to : Z.of_nat (length (hours_until from to)) = Z.max 0 ((to - from + hour - 1) / hour).
Proof. unfold hours_until. rewrite length_fmap, length_seq. lia. Qed.

(** ** Ranges *)

Definition covers (rs : list TimeRange) (h : Z) : Prop := Exists (λ r, Start r ≤ h < End_ r) rs.

Lemma ranges_loop_covers hours s e cur out h :
  aligned h → Forall aligned hours → (∀ r, cur = Some r → aligned (End_ r) ∧ Start r < End_ r) →
  covers (ranges_loop hours s e cur out) h ↔
  covers out h ∨ (∃ r, cur = Some r ∧ Start r ≤ h < End_ r) ∨ (h ∈ hours ∧ s ≤ h < e).
Proof.
  intros Hh. pose proof hour_pos as Hp. revert cur out. induction hours as [|x hours IH]; intros cur out Hf Hc.
  { simpl. rewrite elem_of_nil. destruct cur as [r|]; [|naive_solver]. unfold covers. rewrite Exists_app, Exists_cons, Exists_nil. naive_solver. }
  apply Forall_cons in Hf as [Hx Hf]. cbn [ranges_loop]. rewrite elem_of_cons.
  assert (Hnew : Start {| Start := x; End_ := x + hour |} ≤ h < End_ {| Start := x; End_ := x + hour |} ↔ h = x).
  { simpl. split; [intros; symmetry; by apply aligned_eq|lia]. }
  assert (Hal : aligned (x + hour)) by (rewrite <- (Z.mul_1_l hour); by apply aligned_add).
  destruct (Z.ltb_spec x s) as [|Hs]; simpl; [rewrite IH by done; naive_solver lia|].
  destruct (Z.ltb_spec x e) as [He|]; simpl; [|rewrite IH by done; naive_solver lia].
  destruct cur as [r|].
  - destruct (Hc r eq_refl) as [Hr1 Hr2]. destruct (Z.eqb_spec x (End_ r)) as [->|Hne].
    + rewrite IH; [|done|intros ? [= <-]; simpl; split; [done|lia]]. split.
      * intros [?|[(r' & [= <-] & H)|?]]; [by left| |naive_solver]. simpl in H.
        destruct (decide (h < End_ r)); [right; left; exists r; naive_solver lia|].
        right; right. split; [left; symmetry; apply aligned_eq; [done|done|lia]|]. 
        assert (End_ r = h) as <- by (apply aligned_eq; [done|done|lia]). lia.
      * intros [?|[(r' & [= <-] & H)|[[->|?] ?]]]; [by left| | |naive_solver].
        -- right; left. eexists; split; [done|]. simpl. lia.
        -- right; left. eexists; split; [done|]. simpl. lia.
    + rewrite IH; [|done|intros ? [= <-]; simpl; split; [done|lia]].
      unfold covers at 1. rewrite Exists_app, Exists_cons, Exists_nil. fold (covers out h).
      split; [intros [[?|[?|[]]]|[(r' & [= <-] & H%Hnew)|?]]|intros [?|[(r' & [= <-] & ?)|[[->|?] ?]]]]; naive_solver.
  - rewrite IH; [|done|intros ? [= <-]; simpl; split; [done|lia]].
    split; [intros [?|[(r' & [= <-] & H%Hnew)|?]]|intros [?|[(r' & ? & ?)|[[->|?] ?]]]]; naive_solver.
Qed.

(** In order and apart: a range ends before the next starts. *)
Definition apart (a b : TimeRange) : Prop := End_ a < Start b.

(** The hours left of a sorted list lie past the range that is open, and the
    next one is an hour or more after the hour before it. *)
Definition open_before (hours : list Z) (r : TimeRange) (out : list TimeRange) : Prop :=
  Start r < End_ r ∧ Forall (λ a, apart a r) out ∧ ∀ x, x ∈ hours → End_ r ≤ x.

Lemma ranges_loop_sorted hours s e cur out :
  StronglySorted (λ a b, a + hour ≤ b) hours → StronglySorted apart out →
  (∀ r, cur = Some r → open_before hours r out) → (cur = None → out = []) →
  StronglySorted apart (ranges_loop hours s e cur out).
Proof.
  pose proof hour_pos as Hp.
  assert (Hsnoc : ∀ r out, StronglySorted apart out → Forall (λ a, apart a r) out → StronglySorted apart (out ++ [r])).
  { clear. intros r out. induction 1 as [|x l Hs IH Hx]; intros Hf; [by repeat constructor|].
    apply Forall_cons in Hf as [? ?]. simpl. constructor; [auto|]. apply Forall_app. by repeat constructor. }
  revert cur out. induction hours as [|x hours IH]; intros cur out Hs Ho Hcur Hnone.
  { simpl. destruct cur as [r|]; [|done]. destruct (Hcur r eq_refl) as (_ & ? & _). by apply Hsnoc. }
  apply StronglySorted_inv in Hs as [Hs Hx]. rewrite Forall_forall in Hx. cbn [ranges_loop].
  destruct (_ || _).
  { apply IH; [done..| |done]. intros r Hr. destruct (Hcur r Hr) as (? & ? & Hle). split_and!; [done..|].
    intros y Hy. apply Hle. by right. }
  destruct cur as [r|].
  - destruct (Hcur r eq_refl) as (H1 & H2 & H3). pose proof (H3 x (list_elem_of_here _ _)) as Hle.
    destruct (Z.eqb_spec x (End_ r)) as [->|Hne].
    + apply IH; [done..| |done]. intros ? [= <-]. split_and!; simpl; [lia| |by apply Hx].
      eapply Forall_impl; [exact H2|]. done.
    + apply IH; [done|by apply Hsnoc| |done]. intros ? [= <-]. split_and!; simpl; [lia| |by apply Hx].
      apply Forall_app. split; [|repeat constructor; unfold apart; simpl; lia].
      eapply Forall_impl; [exact H2|]. unfold apart. simpl. lia.
  - rewrite (Hnone eq_refl). apply IH; [done|constructor| |done].
    intros ? [= <-]. split_and!; simpl; [lia|constructor|by apply Hx].
Qed.

(** The live hours as an index has them: whole hours, ascending. *)
Definition hours_ok (hours : list Z) : Prop := Forall aligned hours ∧ StronglySorted Z.lt hours.

Lemma hours_ok_step hours : hours_ok hours → StronglySorted (λ a b, a + hour ≤ b) hours.
Proof.
  intros [Ha Hs]. induction Hs as [|x l Hs IH Hx]; [constructor|]. apply Forall_cons in Ha as [Hax Ha].
  constructor; [auto|]. rewrite Forall_forall in *. intros y Hy. specialize (Hx y Hy). specialize (Ha y Hy).
  destruct (decide (x + hour ≤ y)); [done|]. assert (x = y); [|lia]. apply aligned_eq; [done..|lia].
Qed.

(** C29: A plan over a range of whole hours leaves no hour out: an hour is
    reported as a gap exactly when no live partition and no archive that will
    be read holds it, the ranges sent to MySQL cover exactly the live hours of
    the range and are in order and apart, and MySQL is skipped only when every
    hour of the range is in an archive. *)
Theorem buildPlan_classifies now live archived s e noArchive p :
  hours_ok live → aligned s → aligned e → s ≠ 0 → e ≠ 0 →
  buildPlan now live archived s e noArchive = Some p →
  (∀ h, aligned h → s ≤ h < e →
     (h ∈ GapHours p ↔ (h ∉ live) ∧ (noArchive = true ∨ h ∉ archived)) ∧
     (covers (MySQLRanges p) h ↔ h ∈ live)) ∧
  StronglySorted apart (MySQLRanges p) ∧
  (∀ h, covers (MySQLRanges p) h → aligned h → s ≤ h < e) ∧
  (SkipMySQL (Some p) = true → ∀ h, aligned h → s ≤ h < e → noArchive = false ∧ h ∈ archived).
Proof.
  intros Hlive Hs He Hs0 He0 Hp. unfold buildPlan in Hp.
  rewrite !(proj2 (Z.eqb_neq _ _)) in Hp by done. cbn [andb mbind option_bind] in Hp.
  set (arch := if noArchive then [] else archived) in *.
  assert (Harch : ∀ h, h ∉ arch ↔ noArchive = true ∨ h ∉ archived).
  { intros h. unfold arch. destruct noArchive; set_solver. }
  set (need := existsb _ _) in Hp.
  assert (Hcov : ∀ h, aligned h → covers (MySQLRanges p) h ↔ h ∈ live ∧ s ≤ h < e).
  { intros h Hh. injection Hp as <-. cbn [MySQLRanges]. destruct need eqn:En.
    - unfold buildContiguousRanges. rewrite ranges_loop_covers by (try done; apply Hlive).
      unfold covers. rewrite Exists_nil. naive_solver.
    - unfold covers. rewrite Exists_nil. split; [done|]. intros [Hin Hr].
      assert (need = true); [|congruence]. apply existsb_exists. exists h.
      rewrite <- list_elem_of_In, elem_of_hours_until by done. split; [done|]. by apply bool_decide_true. }
  assert (Hgap : ∀ h, aligned h → s ≤ h < e → h ∈ GapHours p ↔ (h ∉ live) ∧ (noArchive = true ∨ h ∉ archived)).
  { intros h Hh Hr. injection Hp as <-. cbn [GapHours].
    rewrite list_elem_of_filter, elem_of_hours_until, Harch by done. tauto. }
  split_and!.
  - intros h Hh Hr. split; [by apply Hgap|]. rewrite Hcov by done. tauto.
  - injection Hp as <-. cbn [MySQLRanges]. destruct need; [|constructor].
    apply ranges_loop_sorted; [by apply hours_ok_step|constructor|done|done].
  - intros h Hc Hh. by apply Hcov in Hc as [_ ?].
  - intros Hskip h Hh Hr. unfold SkipMySQL in Hskip. apply andb_true_iff in Hskip as [H1%Nat.eqb_eq H2%Nat.eqb_eq].
    apply nil_length_inv in H1, H2. pose proof (Hgap h Hh Hr) as Hg. pose proof (Hcov h Hh) as Hc.
    rewrite H2, elem_of_nil in Hg. rewrite H1 in Hc. unfold covers in Hc. rewrite Exists_nil in Hc.
    destruct (decide (h ∈ live)); [tauto|]. destruct noArchive; [tauto|]. split; [done|].
    destruct (decide (h ∈ archived)); tauto.
Qed.

(** ** Sets of hours built with [add] *)

Lemma elem_of_add_hour hours h x : x ∈ add_hour hours h ↔ x ∈ hours ∨ x = h.
Proof. unfold add_hour. case_bool_decide; set_solver. Qed.

Lemma add_hour_NoDup hours h : NoDup hours → NoDup (add_hour hours h).
Proof. unfold add_hour. case_bool_decide; [done|]. intros Hd. apply NoDup_app. split_and!; [done|set_solver|apply NoDup_singleton]. Qed.

Lemma length_add_hour hours h : (length (add_hour hours h) ≤ S (length hours))%nat.
Proof. unfold add_hour. case_bool_decide; rewrite ?length_app; simpl; lia. Qed.

Lemma foldl_add_hour hs hours : let r := foldl add_hour hours hs in
  (∀ x, x ∈ r ↔ x ∈ hours ∨ x ∈ hs) ∧ (NoDup hours → NoDup r) ∧ (length r ≤ length hours + length hs)%nat.
Proof.
  revert hours. induction hs as [|h hs IH]; intros hours; simpl.
  { split_and!; [set_solver|done|lia]. }
  destruct (IH (add_hour hours h)) as (H1 & H2 & H3). split_and!.
  - intros x. rewrite H1, elem_of_add_hour. set_solver.
  - intros Hd. by apply H2, add_hour_NoDup.
  - pose proof (length_add_hour hours h). lia.
Qed.

(** The hours an archive's record claims: its label's, and those of its content
    when the range is known and at most 20 years. *)
Definition claims (c : archiveCoverage) (h : Z) : Prop := h = Label c ∨ h ∈ content_hours c.

Lemma foldl_expand cov hours :
  let r := foldl (λ hours c, foldl add_hour (add_hour hours (Label c)) (content_hours c)) hours cov in
  (∀ x, x ∈ r ↔ x ∈ hours ∨ Exists (λ c, claims c x) cov) ∧ (NoDup hours → NoDup r) ∧
  (length r ≤ length hours + sum_list_with (λ c, S (length (content_hours c))) cov)%nat.
Proof.
  revert hours. induction cov as [|c cov IH]; intros hours; simpl.
  { split_and!; [intros x; rewrite Exists_nil; tauto|done|lia]. }
  destruct (IH (foldl add_hour (add_hour hours (Label c)) (content_hours c))) as (H1 & H2 & H3).
  destruct (foldl_add_hour (content_hours c) (add_hour hours (Label c))) as (G1 & G2 & G3). split_and!.
  - intros x. rewrite H1, G1, elem_of_add_hour, Exists_cons. unfold claims. tauto.
  - intros Hd. by apply H2, G2, add_hour_NoDup.
  - pose proof (length_add_hour hours (Label c)). lia.
Qed.

Lemma length_content_hours c : (length (content_hours c) ≤ Z.to_nat (20 * 366 * 24 + 2))%nat.
Proof.
  unfold content_hours. destruct (_ || _); [simpl; lia|].
  destruct (Z.ltb_spec maxCoverageSpan (cov_Max c - cov_Min c)) as [|Hs]; [simpl; lia|].
  assert (Z.of_nat (length (hours_until (truncate_hour (cov_Min c)) (cov_Max c + 1))) ≤ 20 * 366 * 24 + 2); [|lia].
  rewrite length_hours_until. apply Z.max_lub; [done|]. apply Z.div_le_upper_bound; [done|].
  pose proof (truncate_bound (cov_Min c)). unfold maxCoverageSpan in Hs. lia.
Qed.

Lemma elem_of_content_hours c h : aligned h →
  h ∈ content_hours c ↔ cov_Min c ≠ 0 ∧ cov_Max c ≠ 0 ∧ cov_Min c ≤ cov_Max c ∧
    cov_Max c - cov_Min c ≤ maxCoverageSpan ∧ truncate_hour (cov_Min c) ≤ h ≤ cov_Max c.
Proof.
  intros Hh. unfold content_hours.
  destruct (Z.eqb_spec (cov_Min c) 0); simpl; [set_solver|]. destruct (Z.eqb_spec (cov_Max c) 0); simpl; [set_solver|].
  destruct (Z.ltb_spec (cov_Max c) (cov_Min c)); simpl; [rewrite elem_of_nil; lia|].
  destruct (Z.ltb_spec maxCoverageSpan (cov_Max c - cov_Min c)); [rewrite elem_of_nil; lia|].
  rewrite elem_of_hours_until by (done || apply truncate_aligned). lia.
Qed.

Lemma cmp_le_sorted l : StronglySorted (cmp_le Z.compare) l → StronglySorted Z.le l.
Proof.
  induction 1 as [|x l Hs IH Hx]; constructor; [done|]. eapply Forall_impl; [exact Hx|].
  intros y Hy. by apply Z.compare_le_iff.
Qed.

(** The hours archives are counted for are, once each and in order, every
    label and every hour of a content range that is known and plausible; a
    record with a wrong date adds no more than 20 years of hours. *)
Theorem expandArchiveHours_spec cov :
  (∀ h, aligned h → h ∈ expandArchiveHours cov ↔
     ∃ c, c ∈ cov ∧ (h = Label c ∨
       (cov_Min c ≠ 0 ∧ cov_Max c ≠ 0 ∧ cov_Min c ≤ cov_Max c ∧ cov_Max c - cov_Min c ≤ maxCoverageSpan ∧
        truncate_hour (cov_Min c) ≤ h ≤ cov_Max c))) ∧
  NoDup (expandArchiveHours cov) ∧ StronglySorted Z.le (expandArchiveHours cov) ∧
  (length (expandArchiveHours cov) ≤ length cov * Z.to_nat (20 * 366 * 24 + 3))%nat.
Proof.
  destruct (foldl_expand cov []) as (H1 & H2 & H3). unfold expandArchiveHours. split_and!.
  - intros h Hh. rewrite elem_of_sort_by, H1, elem_of_nil, Exists_exists. unfold claims.
    setoid_rewrite elem_of_content_hours; [|done]. naive_solver.
  - rewrite sort_by_perm. apply H2. constructor.
  - apply cmp_le_sorted, (sort_by_sorted Z.compare).
  - rewrite sort_by_length. etrans; [exact H3|]. simpl. clear.
    induction cov as [|c cov IH]; [done|]. simpl sum_list_with. simpl length.
    pose proof (length_content_hours c). lia.
Qed.

(** An archived event of the read range is always in a file the read
    opens: the hour of the event is the file's label, or the label is among the
    misfiled hours the plan adds; and only files whose content leaves their
    label's hour are added. *)
Theorem misfiledHours_complete cov s e c t :
  c ∈ cov → cov_Min c ≠ 0 → cov_Max c ≠ 0 → cov_Min c ≤ t ≤ cov_Max c →
  (s = 0 ∨ s ≤ t) → (e = 0 ∨ t < e) →
  (Label c ≤ t < Label c + hour ∨ Label c ∈ misfiledHours cov s e) ∧
  (∀ l, l ∈ misfiledHours cov s e → ∃ c', c' ∈ cov ∧ Label c' = l ∧
     ¬ (Label c' ≤ cov_Min c' ∧ cov_Max c' < Label c' + hour)).
Proof.
  intros Hc H1 H2 Ht Hs He.
  assert (Hel : ∀ l, l ∈ misfiledHours cov s e ↔ ∃ c', c' ∈ cov ∧ Label c' = l ∧ misfiled s e c' = true).
  { intros l. unfold misfiledHours. rewrite elem_of_sort_by.
    assert (Hg : ∀ hours, l ∈ foldl (λ hours c, if misfiled s e c then add_hour hours (Label c) else hours) hours cov ↔
      l ∈ hours ∨ ∃ c', c' ∈ cov ∧ Label c' = l ∧ misfiled s e c' = true).
    { clear. induction cov as [|c cov IH]; intros hours; simpl; [setoid_rewrite elem_of_nil; naive_solver|].
      rewrite IH. destruct (misfiled s e c) eqn:E; [rewrite elem_of_add_hour|]; setoid_rewrite elem_of_cons; split.
      - intros [[?| ->]|(c' & ? & ? & ?)]; [by left|right; exists c; by auto|right; exists c'; by auto].
      - intros [?|(c' & [->|?] & <- & ?)]; [by left; left|by left; right|right; exists c'; by auto].
      - intros [?|(c' & ? & ? & ?)]; [by left|right; exists c'; by auto].
      - intros [?|(c' & [->|?] & <- & ?)]; [by left|congruence|right; exists c'; by auto]. }
    rewrite Hg, elem_of_nil. tauto. }
  split.
  - destruct (decide (Label c ≤ t < Label c + hour)) as [|Hout]; [by left|right]. apply Hel. exists c. split_and!; [done..|].
    unfold misfiled. rewrite !(proj2 (Z.eqb_neq (cov_Min c) 0)), !(proj2 (Z.eqb_neq (cov_Max c) 0)), (proj2 (Z.ltb_ge _ _)) by lia. simpl.
    destruct (Z.ltb_spec (cov_Min c) (Label c)), (Z.ltb_spec (cov_Max c) (Label c + hour)); simpl; try lia;
    destruct (Z.eqb_spec e 0), (Z.eqb_spec s 0); simpl; rewrite ?(proj2 (Z.ltb_lt _ _)), ?(proj2 (Z.ltb_ge (cov_Max c) s)) by lia; done.
  - intros l (c' & Hc' & Hl & Hm)%Hel. exists c'. split_and!; [done..|]. intros [Ha Hb]. unfold misfiled in Hm.
    destruct (_ || _ || _); [done|]. rewrite (proj2 (Z.ltb_ge _ _)), (proj2 (Z.ltb_lt _ _)) in Hm by lia. done.
Qed.

(** A sample: live hours 10, 11 and 13, hour 9 archived, hours 12 and 14 lost. *)
Definition s_live : list Z := [10 * hour; 11 * hour; 13 * hour].
Definition s_plan : option QueryPlan := buildPlan 0 s_live [9 * hour] (9 * hour) (15 * hour) false.

Lemma buildPlan_classifies_witness : ∃ p, s_plan = Some p ∧ 12 * hour ∈ GapHours p ∧ covers (MySQLRanges p) (13 * hour) ∧
  MySQLRanges p = [{| Start := 10 * hour; End_ := 12 * hour |}; {| Start := 13 * hour; End_ := 14 * hour |}].
Proof.
  assert (Hok : hours_ok s_live) by (split; repeat constructor).
  eexists. split; [vm_compute; reflexivity|].
  match goal with |- 12 * hour ∈ GapHours ?p ∧ _ =>
    destruct (buildPlan_classifies 0 s_live [9 * hour] (9 * hour) (15 * hour) false p Hok) as (H & _);
      [reflexivity|reflexivity|intros [=]|intros [=]|vm_compute; reflexivity|] end.
  split; [|split; [|vm_compute; reflexivity]].
  - apply (H (12 * hour)); [reflexivity|split; [intros [=]|reflexivity]|].
    split; [dec_compute|]. right. dec_compute.
  - apply (H (13 * hour)); [reflexivity|split; [intros [=]|reflexivity]|]. dec_compute.
Defined.

Lemma misfiledHours_complete_witness :
  misfiledHours [{| Label := 9 * hour; cov_Min := 3 * hour; cov_Max := 9 * hour + 5 |}] (3 * hour) (4 * hour) = [9 * hour].
Proof.
  destruct (misfiledHours_complete [{| Label := 9 * hour; cov_Min := 3 * hour; cov_Max := 9 * hour + 5 |}] (3 * hour) (4 * hour)
    {| Label := 9 * hour; cov_Min := 3 * hour; cov_Max := 9 * hour + 5 |} (3 * hour)) as [[[H _]|H] _];
    [left|intros [=]|intros [=]|split; intros [=]|right; intros [=]|right; reflexivity| |].
  - vm_compute in H. destruct H. reflexivity.
  - vm_compute. reflexivity.
Defined.
