(* ===== verification/PositionFloor.v ===== *)
(** * How far back in time an anchored fetch must reach
    ([internal/query/positionfloor.go])

    A fetch that continues a snapshot is exact by binary log position, and also
    carries a time that prunes partitions and archives. The code looks at the
    newest row of every partition and at the record of every archive to move
    that time back where a later event may have an earlier time.

    The index is data ([indexDB]): its partitions with their rows, the rows of
    [archive_state] each with the rows of its file, and what [stream_state] and
    [index_state] say. One picture is read from one state of it; the re-read
    after a partition was dropped takes the next state of a list. Log lines and
    the per-statement batches of the heads query are left out. *)
From S2P Require Import Prelude GoStrings GoTime GoVal Event Rows BinlogOrder Planner.

Open Scope Z_scope.

Definition CoarseSinceFloor (since : Z) : Z := truncate_hour since - hour.

Definition archiveWrittenMargin : Z := hour.
Definition archiveWrittenSlack : Z := 5.
Definition partitionReadAttempts : nat := 3.

(** [TO_SECONDS] of the Unix epoch, and the Unix epoch in seconds since Go's
    zero time. *)
Definition mysqlToSecondsConst : Z := 62167219200.
Definition unixEpoch : Z := 62135596800.

Record partitionHead := {
  ph_name : string;
  ph_lower : Z;
  ph_open : bool;
  ph_empty : bool;
  ph_pos : BinlogPos;
  ph_unknown : bool;
}.

Record archiveHead := {
  ah_name : string;
  ah_lower : Z;
  ah_recorded : bool;
  ah_hasPos : bool;
  ah_pos : BinlogPos;
  ah_archivedAt : Z;
}.

Record PartitionHeads := {
  ph_parts : list partitionHead;
  ph_streamCaptured : bool;
  ph_lastFileIndexed : Z;
  ph_fileIndexingUnfinished : bool;
  ph_archives : list archiveHead;
}.

(** ** The index *)

(** A partition: its name ([None] for a table without partitions), its
    [PARTITION_DESCRIPTION] and its rows. *)
Record dbPartition := { dp_name : option string; dp_desc : string; dp_rows : list ResultRow }.

(** A row of [archive_state], with the rows of the file it registers. *)
Record archiveRow := {
  ar_name : string;
  ar_minTS : option Z;
  ar_maxID : option N;
  ar_maxFile : option string;
  ar_maxPos : N;
  ar_archivedAt : Z;
  ar_content : list ResultRow;
}.

Record indexDB := {
  db_parts : list dbPartition;
  db_archives : option (list archiveRow);    (* [None]: no such table *)
  db_stream : bool;
  db_lastFile : option Z;                    (* MAX(completed_at) *)
  db_unfinished : Z;                         (* runs without completed_at *)
}.

Inductive floorErr :=
| EBound (name : string)
| ENoTable
| EUnknownPartition (name : string).

(** ** The picture *)

(** The row with the highest [event_id]. *)
Definition newest (rows : list ResultRow) : option ResultRow :=
  foldl (λ best r, match best with
                   | Some b => if (EventID b <? EventID r)%N then Some r else best
                   | None => Some r
                   end) None rows.

Definition zero_pos : BinlogPos := {| File := ""; Pos := 0 |}.

(** The head of one partition. *)
Definition head_of (p : dbPartition) (lower : Z) (open : bool) : partitionHead :=
  match newest (dp_rows p) with
  | None => {| ph_name := default "" (dp_name p); ph_lower := lower; ph_open := open; ph_empty := true;
               ph_pos := zero_pos; ph_unknown := false |}
  | Some r =>
      let unknown := bool_decide (BinlogFile r = "") in
      {| ph_name := default "" (dp_name p); ph_lower := lower; ph_open := open; ph_empty := false;
         ph_pos := if unknown then zero_pos else row_pos r; ph_unknown := unknown |}
  end.

(** The partitions in order; each starts where the one before it ends. *)
Fixpoint heads_loop (parts : list dbPartition) (prev : Z) (first : bool) : list partitionHead + floorErr :=
  match parts with
  | [] => inl []
  | p :: rest =>
      prev' ←? match dp_name p with
               | Some name =>
                   if bool_decide (dp_desc p = "MAXVALUE") then inl prev
                   else secs ←? or_err (atoi (dp_desc p)) (EBound name);
                        inl ((secs - mysqlToSecondsConst + unixEpoch) * second)
               | None => inl prev
               end;
      heads ←? heads_loop rest prev' false;
      inl (head_of p prev first :: heads)
  end.

(** [loadArchiveHeads] over the rows it reads; one whose name is no hour is
    skipped. *)
Definition archive_head (a : archiveRow) : option archiveHead :=
  label ← ParsePartitionName (ar_name a);
  let recorded := bool_decide (is_Some (ar_maxID a)) in
  let file := default "" (ar_maxFile a) in
  let hasPos := recorded && negb (bool_decide (file = "")) in
  Some {| ah_name := ar_name a;
          ah_lower := match ar_minTS a with Some m => if m <? label then m else label | None => label end;
          ah_recorded := recorded;
          ah_hasPos := hasPos;
          ah_pos := if hasPos then {| File := file; Pos := ar_maxPos a |} else zero_pos;
          ah_archivedAt := ar_archivedAt a |}.

(** The server-side filter on [archived_at], in whole seconds. *)
Definition written_since (writtenSince : Z) (a : archiveRow) : bool :=
  if writtenSince =? 0 then true
  else (writtenSince - archiveWrittenMargin) / second - archiveWrittenSlack <=? ar_archivedAt a / second.

Definition loadArchiveHeads (db : indexDB) (writtenSince : Z) : list archiveHead * bool :=
  match db_archives db with
  | None => ([], false)
  | Some rows => (omap archive_head (filter (λ a, written_since writtenSince a = true) rows), true)
  end.

Definition loadPartitionHeadsOnce (db : indexDB) : PartitionHeads + floorErr :=
  heads ←? heads_loop (db_parts db) 0 true;
  ensure negb (length heads =? 0)%nat or ENoTable;
  inl {| ph_parts := heads;
         ph_streamCaptured := db_stream db;
         ph_lastFileIndexed := default 0 (db_lastFile db);
         ph_fileIndexingUnfinished := 0 <? db_unfinished db;
         ph_archives := (loadArchiveHeads db 0).1 |}.

(** ** The answer *)

Definition firstPartitionEnd (h : PartitionHeads) : option Z :=
  match ph_parts h with _ :: p :: _ => Some (ph_lower p) | _ => None end.

Definition orderProven (h : PartitionHeads) (since : Z) : bool :=
  writersKeepBinlogOrder (ph_streamCaptured h) (ph_fileIndexingUnfinished h) (ph_lastFileIndexed h) since.

Definition below (h : PartitionHeads) (since : Z) (anchor : BinlogPos) : list string :=
  let floor := CoarseSinceFloor since in
  let proven := orderProven h since in
  omap (λ p, if ph_empty p || negb (ph_open p || (ph_lower p <? floor)) then None
             else if negb proven || ph_unknown p || AtOrBefore anchor (ph_pos p) then Some (ph_name p)
             else None) (ph_parts h).

Definition usableCheckedThrough (anchor : BinlogPos) (checked until : option BinlogPos) : option BinlogPos :=
  c ← checked;
  if negb (bool_decide (binlogBaseName (File c) = binlogBaseName (File anchor))) then None
  else match until with
       | Some u => if AtOrBefore c u then Some c else None
       | None => Some c
       end.

(** Whether an archive below the floor may hold an event the snapshot has not
    seen. *)
Definition archive_may (since : Z) (anchor : BinlogPos) (checked : option BinlogPos) (a : archiveHead) : bool :=
  let seen := match checked with
              | Some c => if AtOrBefore anchor c then c else anchor
              | None => anchor
              end in
  let written := negb (ah_archivedAt a <? since - archiveWrittenMargin) in
  if negb (ah_recorded a) then written
  else if ah_hasPos a && IsLSN (ah_pos a) then true
  else match checked with
       | None =>
           if ah_hasPos a && negb (bool_decide (binlogBaseName (File (ah_pos a)) = binlogBaseName (File anchor)))
           then written
           else written && ah_hasPos a && AtOrBefore anchor (ah_pos a)
       | Some _ => ah_hasPos a && AtOrBefore seen (ah_pos a)
       end.

Definition archivesMayHold (archives : list archiveHead) (since : Z) (anchor : BinlogPos)
    (checked : option BinlogPos) : Z * nat :=
  let floor := CoarseSinceFloor since in
  foldl (λ '(from, n) a,
    if negb (ah_lower a <? floor) then (from, n)
    else if archive_may since anchor checked a
         then (if (from =? 0) || (ah_lower a <? from) then ah_lower a else from, S n)
         else (from, n)) (0, 0%nat) archives.

Definition archivesBelow (h : PartitionHeads) (since : Z) (anchor : BinlogPos) (checked until : option BinlogPos)
    : Z * nat :=
  archivesMayHold (ph_archives h) since anchor (usableCheckedThrough anchor checked until).

(** [LoadArchivesWrittenSince] and [MayHoldAfter]. *)
Definition LoadArchivesWrittenSince (db : indexDB) (writtenSince : Z) : list archiveHead * bool :=
  loadArchiveHeads db writtenSince.

Definition MayHoldAfter (rows : list archiveHead) (since : Z) (anchor : BinlogPos) : nat :=
  (archivesMayHold rows since anchor None).2.

(** The options a floor depends on. *)
Record fetchOpts := {
  fo_Since : option Z;
  fo_SincePos : option BinlogPos;
  fo_UntilPos : option BinlogPos;
  fo_ArchivesCheckedThrough : option BinlogPos;
  fo_Schema : string;
  fo_Table : string;
  fo_sinceSettled : bool;
}.

(** The rows of [binlog_events PARTITION (names)]. *)
Definition named_rows (db : indexDB) (names : list string) : list ResultRow + floorErr :=
  match names with
  | [] | "" :: _ => inl (mjoin (dp_rows <$> db_parts db))
  | _ =>
      match filter (λ n, Forall (λ p, dp_name p ≠ Some n) (db_parts db)) names with
      | n :: _ => inr (EUnknownPartition n)
      | [] => inl (mjoin (dp_rows <$> filter (λ p, default "" (dp_name p) ∈ names) (db_parts db)))
      end
  end.

(** Whether a row is of the fetch's table; an empty name does not narrow. *)
Definition of_table (opts : fetchOpts) (r : ResultRow) : bool :=
  (bool_decide (fo_Schema opts = "") || bool_decide (SchemaName r = fo_Schema opts)) &&
  (bool_decide (fo_Table opts = "") || bool_decide (TableName r = fo_Table opts)).

(** [SELECT event_timestamp ... ORDER BY event_timestamp LIMIT 1]. *)
Definition oldest_of (rows : list ResultRow) : option Z :=
  foldl (λ m r, match m with
                | Some t => Some (Z.min t (EventTimestamp r))
                | None => Some (EventTimestamp r)
                end) None rows.

Definition sinceFor (h : PartitionHeads) (db : indexDB) (opts : fetchOpts) : option Z + floorErr :=
  match fo_Since opts, fo_SincePos opts with
  | Some since, Some anchor =>
      let names := below h since anchor in
      let '(archFrom, archN) := archivesBelow h since anchor (fo_ArchivesCheckedThrough opts) (fo_UntilPos opts) in
      match names with
      | [] => inl (Some (if (archN =? 0)%nat then since else archFrom))
      | _ =>
          rows ←? named_rows db names;
          match oldest_of (filter (λ r, of_table opts r = true ∧ EventTimestamp r < CoarseSinceFloor since) rows) with
          | None => inl (Some (if (archN =? 0)%nat then since else archFrom))
          | Some oldest =>
              inl (Some (if negb (archN =? 0)%nat && (archFrom <? oldest) then archFrom else oldest))
          end
      end
  | s, _ => inl s
  end.

(** [sinceForWith]: [fresh] are the states the re-reads find. *)
Fixpoint sinceForWith (h : PartitionHeads) (db : indexDB) (fresh : list indexDB) (opts : fetchOpts)
    : option Z * PartitionHeads + floorErr :=
  match sinceFor h db opts, fresh with
  | inl since, _ => inl (since, h)
  | inr (EUnknownPartition _), db' :: fresh' =>
      h' ←? loadPartitionHeadsOnce db'; sinceForWith h' db' fresh' opts
  | inr e, _ => inr e
  end.

(** [settleSince]: whether the time moved, the end of the first partition, and
    the options. [heads] is a picture taken earlier, or none. *)
Definition settleSince (db : indexDB) (fresh : list indexDB) (opts : fetchOpts) (heads : option PartitionHeads)
    : bool * Z * fetchOpts + floorErr :=
  if fo_sinceSettled opts || bool_decide (fo_Since opts = None) || bool_decide (fo_SincePos opts = None)
  then inl (false, 0, opts)
  else
    h ←? match heads with Some h => inl h | None => loadPartitionHeadsOnce db end;
    '(since, used) ←? sinceForWith h db (take (partitionReadAttempts - 1) fresh) opts;
    inl (negb (bool_decide (since = fo_Since opts)), default 0 (firstPartitionEnd used),
         {| fo_Since := since; fo_SincePos := fo_SincePos opts; fo_UntilPos := fo_UntilPos opts;
            fo_ArchivesCheckedThrough := fo_ArchivesCheckedThrough opts; fo_Schema := fo_Schema opts;
            fo_Table := fo_Table opts; fo_sinceSettled := true |}).

Definition PositionReadFloor (db : indexDB) (fresh : list indexDB) (opts : fetchOpts) : Z + floorErr :=
  match fo_Since opts, fo_SincePos opts with
  | None, _ => inl 0
  | Some since, None => inl since
  | Some since, Some _ =>
      '(_, _, opts') ←? settleSince db fresh opts None;
      inl (CoarseSinceFloor (default 0 (fo_Since opts')))
  end.

Definition needsPicture (opts : fetchOpts) : bool :=
  negb (fo_sinceSettled opts) && negb (bool_decide (fo_Since opts = None)) &&
  negb (bool_decide (fo_SincePos opts = None)).

(** ** Lemmas *)

Lemma AtOrBefore_trans a b c : AtOrBefore a b = true → AtOrBefore b c = true → IsLSN b = IsLSN c →
  AtOrBefore a c = true.
Proof.
  intros H1 H2 Hk. destruct (IsLSN a) eqn:Ha, (IsLSN c) eqn:Hc; unfold AtOrBefore at 1; rewrite ?Ha, ?Hc; try done.
  - simpl. unfold AtOrBefore in H1, H2. rewrite Ha, Hk in H1. rewrite Hk, Hc in H2. simpl in *.
    apply N.leb_le in H1, H2. apply N.leb_le. lia.
  - assert (AtOrBefore a c = true) as Hac.
    { rewrite AtOrBefore_compare in * by done. pose proof (cmp_trans pos_compare a b c) as Ht.
      destruct (pos_compare a b), (pos_compare b c), (pos_compare a c); try done; exfalso; by apply Ht. }
    unfold AtOrBefore in Hac. by rewrite Ha, Hc in Hac.
Qed.

Lemma CoarseSinceFloor_mono s t : s ≤ t → CoarseSinceFloor s ≤ CoarseSinceFloor t.
Proof. intros. unfold CoarseSinceFloor, truncate_hour. pose proof (Z.div_le_mono s t hour hour_pos H). pose proof hour_pos. nia. Qed.

Lemma CoarseSinceFloor_lt s : CoarseSinceFloor s < s.
Proof. unfold CoarseSinceFloor. pose proof (truncate_bound s). pose proof hour_pos. lia. Qed.

Lemma newest_elem rows n : newest rows = Some n → n ∈ rows.
Proof.
  unfold newest.
  assert (Hg : ∀ best, foldl (λ best r, match best with Some b => if (EventID b <? EventID r)%N then Some r else best
    | None => Some r end) best rows = Some n → best = Some n ∨ n ∈ rows).
  { induction rows as [|r rows IH]; intros best H; simpl in H; [by left|].
    apply IH in H as [H|H]; [|right; by right].
    destruct best as [b|]; [|right; injection H as ->; left].
    destruct (_ <? _)%N; [right; injection H as ->; left|by left]. }
  intros H. by destruct (Hg None H).
Qed.

Lemma newest_none rows : newest rows = None → rows = [].
Proof.
  unfold newest. destruct rows as [|r rows]; [done|]. simpl. intros H. exfalso.
  assert (Hg : ∀ b, foldl (λ best r, match best with Some b => if (EventID b <? EventID r)%N then Some r else best
    | None => Some r end) (Some b) rows ≠ None).
  { clear. induction rows as [|r rows IH]; intros b; simpl; [done|]. destruct (_ <? _)%N; apply IH. }
  by apply Hg in H.
Qed.

(** Each head is its partition's. *)
Lemma heads_loop_inl parts prev first heads : heads_loop parts prev first = inl heads →
  Forall2 (λ p h, ∃ lower open, h = head_of p lower open) parts heads.
Proof.
  revert prev first heads. induction parts as [|p parts IH]; intros prev first heads H; simpl in H.
  { injection H as <-. constructor. }
  apply try_bind_inl in H as (prev' & _ & H). apply try_bind_inl in H as (hs & H1 & [= <-]).
  constructor; [by eauto|]. by eapply IH.
Qed.

(** What the index guarantees: a row is not below its partition's lower bound,
    and, when the writers keep binary log order, no row of a partition is after
    the newest one (positions of one kind in one partition). *)
Record index_ok (db : indexDB) (since : Z) : Prop := {
  io_lower heads : heads_loop (db_parts db) 0 true = inl heads →
    Forall2 (λ p h, ∀ r, r ∈ dp_rows p → ph_open h = true ∨ ph_lower h ≤ EventTimestamp r) (db_parts db) heads;
  io_order p r n :
    writersKeepBinlogOrder (db_stream db) (0 <? db_unfinished db) (default 0 (db_lastFile db)) since = true →
    p ∈ db_parts db → r ∈ dp_rows p → newest (dp_rows p) = Some n → BinlogFile n ≠ "" →
    IsLSN (row_pos r) = IsLSN (row_pos n) ∧ AtOrBefore (row_pos r) (row_pos n) = true;
}.

(** What [archive_state] guarantees: the name is an hour, no row of the file is
    older than the oldest time its record gives, and a recorded newest position
    is the file's newest. [unseen] are the rows the snapshot has not seen: an
    archive that holds one was written after the snapshot (the clocks an hour
    apart at most), and such a row is not before the cut the snapshot's refresh
    searched through. *)
Record archives_ok (db : indexDB) (since : Z) (checked : option BinlogPos) (unseen : ResultRow → Prop) : Prop := {
  ao_head rows a : db_archives db = Some rows → a ∈ rows → ∃ h, archive_head a = Some h ∧ ah_lower h ≠ 0 ∧
    ∀ r, r ∈ ar_content a → ah_lower h ≤ EventTimestamp r ∧
      (ah_recorded h = true → ah_hasPos h = true ∧ IsLSN (row_pos r) = IsLSN (ah_pos h) ∧
         AtOrBefore (row_pos r) (ah_pos h) = true);
  ao_written rows a r : db_archives db = Some rows → a ∈ rows → r ∈ ar_content a → unseen r →
    since - archiveWrittenMargin ≤ ar_archivedAt a;
  ao_cut c r : checked = Some c → unseen r → AtOrBefore c (row_pos r) = true;
}.

Lemma archive_head_written a h : archive_head a = Some h → ah_archivedAt h = ar_archivedAt a.
Proof. unfold archive_head. intros (label & _ & [= <-])%bind_Some. done. Qed.

(** The fold over the archives: a count, and a time at or below every archive
    counted. *)
Definition counted (since : Z) (anchor : BinlogPos) (checked : option BinlogPos) (a : archiveHead) : Prop :=
  ah_lower a < CoarseSinceFloor since ∧ archive_may since anchor checked a = true.

Lemma archivesMayHold_spec archives since anchor checked from n :
  Forall (λ a, ah_lower a ≠ 0) archives →
  archivesMayHold archives since anchor checked = (from, n) →
  (n = 0%nat → ∀ a, a ∈ archives → ¬ counted since anchor checked a) ∧
  (n ≠ 0%nat → from < CoarseSinceFloor since ∧ ∀ a, a ∈ archives → counted since anchor checked a → from ≤ ah_lower a).
Proof.
  intros Hnz. unfold archivesMayHold.
  set (step := λ '(from, n) a, _).
  assert (Hg : ∀ f k, foldl step (f, k) archives = (from, n) → (k = 0%nat ↔ f = 0) →
    (k ≠ 0%nat → f < CoarseSinceFloor since) →
    (n = 0%nat ↔ from = 0) ∧ (k ≤ n)%nat ∧ (k ≠ 0%nat → from ≤ f) ∧ (n ≠ 0%nat → from < CoarseSinceFloor since) ∧
    ∀ a, a ∈ archives → counted since anchor checked a → n ≠ 0%nat ∧ from ≤ ah_lower a).
  { induction Hnz as [|a archives Ha Hnz IH]; intros f k H Hz Hlt; simpl in H.
    { injection H as -> ->. split_and!; [done|lia|lia|done|]. intros a Ha. by apply not_elem_of_nil in Ha. }
    unfold counted. revert H. destruct (Z.ltb_spec (ah_lower a) (CoarseSinceFloor since)) as [Hl|Hl]; simpl; intros H.
    - destruct (archive_may since anchor checked a) eqn:Hm.
      + apply IH in H as (H1 & H2 & H3 & H4 & H5).
        * assert (n ≠ 0%nat) by lia. specialize (H3 ltac:(lia)). split_and!; [done|lia| |done|].
          -- intros Hk. destruct (Z.eqb_spec f 0), (Z.ltb_spec (ah_lower a) f); simpl in H3; lia.
          -- intros b [->|Hb]%elem_of_cons; [|by auto]. intros _. split; [done|].
             destruct (Z.eqb_spec f 0), (Z.ltb_spec (ah_lower a) f); simpl in H3; lia.
        * split; [lia|]. destruct (Z.eqb_spec f 0), (Z.ltb_spec (ah_lower a) f); simpl; lia.
        * intros _. destruct (Z.eqb_spec f 0), (Z.ltb_spec (ah_lower a) f); simpl; lia.
      + apply IH in H as (H1 & H2 & H3 & H4 & H5); [|done..]. split_and!; [done..|].
        intros b [->|Hb]%elem_of_cons; [|by auto]. intros [_ ?]. congruence.
    - apply IH in H as (H1 & H2 & H3 & H4 & H5); [|done..]. split_and!; [done..|].
      intros b [->|Hb]%elem_of_cons; [|by auto]. intros [? _]. lia. }
  intros H. destruct (Hg 0 0%nat H) as (H1 & _ & _ & H4 & H5); [done|done|]. split.
  - intros Hn a Ha Hc. by destruct (H5 a Ha Hc).
  - intros Hn. split; [auto|]. intros a Ha Hc. by destruct (H5 a Ha Hc).
Qed.

Lemma oldest_of_spec rows : match oldest_of rows with
  | None => rows = []
  | Some t => (∃ r, r ∈ rows ∧ EventTimestamp r = t) ∧ ∀ r, r ∈ rows → t ≤ EventTimestamp r
  end.
Proof.
  unfold oldest_of.
  assert (Hg : ∀ m, match foldl (λ m r, match m with Some t => Some (Z.min t (EventTimestamp r))
      | None => Some (EventTimestamp r) end) m rows with
    | None => m = None ∧ rows = []
    | Some t => (m = Some t ∨ ∃ r, r ∈ rows ∧ EventTimestamp r = t) ∧
                (∀ t', m = Some t' → t ≤ t') ∧ ∀ r, r ∈ rows → t ≤ EventTimestamp r
    end).
  { induction rows as [|r rows IH]; intros m; simpl.
    { destruct m; [|done]. split_and!; [by left|intros ? [= <-]; lia|]. intros r Hr. by apply not_elem_of_nil in Hr. }
    match goal with |- match foldl _ ?m' _ with _ => _ end => specialize (IH m') end.
    destruct (foldl _ _ rows) as [t|] eqn:E; [|destruct m; naive_solver]. destruct IH as (H1 & H2 & H3).
    destruct m as [t0|].
    - specialize (H2 _ eq_refl). split_and!.
      + destruct H1 as [[= <-]|(r' & ? & ?)]; [|right; exists r'; split; [by right|done]].
        destruct (decide (t0 ≤ EventTimestamp r)); [left; f_equal; lia|right; exists r; split; [left|lia]].
      + intros ? [= <-]. lia.
      + intros r' [->|?]%elem_of_cons; [lia|auto].
    - specialize (H2 _ eq_refl). split_and!; [|done|].
      + destruct H1 as [[= <-]|(r' & ? & ?)]; [right; exists r; split; [left|done]|right; exists r'; split; [by right|done]].
      + intros r' [->|?]%elem_of_cons; [lia|auto]. }
  specialize (Hg None). destruct (foldl _ _ rows); naive_solver.
Qed.

(** A partition with an event at or after the anchor and below the floor is
    named. *)
Lemma below_names db h since anchor p r :
  loadPartitionHeadsOnce db = inl h → index_ok db since →
  p ∈ db_parts db → r ∈ dp_rows p → AtOrBefore anchor (row_pos r) = true →
  EventTimestamp r < CoarseSinceFloor since → default "" (dp_name p) ∈ below h since anchor.
Proof.
  intros Hh [Hlow Hord] Hp Hr Ha Ht. unfold loadPartitionHeadsOnce in Hh. apply try_bind_inl in Hh as (heads & Hl & Hh).
  destruct (negb _); [|done]. injection Hh as <-. specialize (Hlow _ Hl). apply heads_loop_inl in Hl.
  apply list_elem_of_lookup_1 in Hp as [i Hi].
  destruct (Forall2_lookup_l _ _ _ _ _ Hl Hi) as (ph & Hph & lower & open & ->).
  pose proof (Forall2_lookup_lr _ _ _ _ _ _ Hlow Hi Hph r Hr) as Hb.
  unfold below. apply list_elem_of_omap. simpl. eexists. split; [by eapply list_elem_of_lookup_2|].
  unfold orderProven. cbn [ph_streamCaptured ph_fileIndexingUnfinished ph_lastFileIndexed].
  destruct (newest (dp_rows p)) as [n|] eqn:Hn.
  2:{ apply newest_none in Hn. rewrite Hn in Hr. by apply not_elem_of_nil in Hr. }
  unfold head_of in Hb |- *. rewrite Hn in Hb |- *.
  cbn [ph_empty ph_open ph_lower ph_unknown ph_pos ph_name orb] in Hb |- *.
  assert (open || (lower <? CoarseSinceFloor since) = true) as ->.
  { destruct Hb as [->|Hb]; [done|]. rewrite (proj2 (Z.ltb_lt _ _)) by lia. by rewrite orb_true_r. }
  simpl. destruct (writersKeepBinlogOrder _ _ _ since) eqn:Hw; [|done]. simpl.
  case_bool_decide as Hf; [done|]. simpl.
  destruct (Hord p r n eq_refl) as [Hk Hle]; [by eapply list_elem_of_lookup_2|done..|].
  by rewrite (AtOrBefore_trans anchor (row_pos r) (row_pos n)).
Qed.

Lemma named_rows_has db names rows p r : named_rows db names = inl rows → names ≠ [] →
  p ∈ db_parts db → r ∈ dp_rows p → default "" (dp_name p) ∈ names → r ∈ rows.
Proof.
  intros H Hne Hp Hr Hn.
  assert (Hall : r ∈ mjoin (dp_rows <$> db_parts db)).
  { apply list_elem_of_join. exists (dp_rows p). split; [done|]. by apply list_elem_of_fmap_2. }
  assert (Hsome : r ∈ mjoin (dp_rows <$> filter (λ p, default "" (dp_name p) ∈ names) (db_parts db))).
  { apply list_elem_of_join. exists (dp_rows p). split; [done|]. apply list_elem_of_fmap_2. by apply list_elem_of_filter. }
  unfold named_rows in H. destruct names as [|n names]; [done|].
  destruct n as [|c n]; [by injection H as <-|]. destruct (filter _ (String c n :: names)); [|done]. by injection H as <-.
Qed.

(** An archive with a row the snapshot has not seen, at or after the anchor,
    may hold it. *)
Lemma archive_counted since anchor checked a h r :
  archive_head a = Some h → AtOrBefore anchor (row_pos r) = true →
  (ah_recorded h = true → ah_hasPos h = true ∧ IsLSN (row_pos r) = IsLSN (ah_pos h) ∧ AtOrBefore (row_pos r) (ah_pos h) = true) →
  since - archiveWrittenMargin ≤ ar_archivedAt a →
  (∀ c, checked = Some c → AtOrBefore c (row_pos r) = true) →
  archive_may since anchor checked h = true.
Proof.
  intros Hh Ha Hrec Hw Hc. unfold archive_may. rewrite (archive_head_written _ _ Hh).
  rewrite (proj2 (Z.ltb_ge _ _)) by lia. simpl.
  destruct (ah_recorded h); [|done]. destruct (Hrec eq_refl) as (-> & Hk & Hle). simpl.
  destruct (IsLSN (ah_pos h)) eqn:El; [done|]. destruct checked as [c|].
  - destruct (AtOrBefore anchor c) eqn:Hac.
    + eapply AtOrBefore_trans; [by apply Hc|done|congruence].
    + eapply AtOrBefore_trans; [exact Ha|done|congruence].
  - case_bool_decide; simpl; [|done]. eapply AtOrBefore_trans; [exact Ha|done|congruence].
Qed.

(** The rows an anchored fetch must not lose: those of its table in the index,
    and those of any archive that the snapshot has not seen. *)
Definition must_reach (db : indexDB) (opts : fetchOpts) (unseen : ResultRow → Prop) (r : ResultRow) : Prop :=
  (∃ p, p ∈ db_parts db ∧ r ∈ dp_rows p ∧ of_table opts r = true) ∨
  (∃ rows a, db_archives db = Some rows ∧ a ∈ rows ∧ r ∈ ar_content a ∧ unseen r).

Section reach.
Context (db : indexDB) (h : PartitionHeads) (opts : fetchOpts) (since : Z) (anchor : BinlogPos)
  (unseen : ResultRow → Prop) (archFrom : Z) (archN : nat).
Abbreviation checked := (usableCheckedThrough anchor (fo_ArchivesCheckedThrough opts) (fo_UntilPos opts)).
Abbreviation floor := (CoarseSinceFloor since).
Hypothesis picture : loadPartitionHeadsOnce db = inl h.
Hypothesis idx : index_ok db since.
Hypothesis arch : archives_ok db since checked unseen.
Hypothesis answer : archivesBelow h since anchor (fo_ArchivesCheckedThrough opts) (fo_UntilPos opts) = (archFrom, archN).

Lemma picture_archives : ph_archives h = (loadArchiveHeads db 0).1.
Proof.
  pose proof picture as Hh. unfold loadPartitionHeadsOnce in Hh. apply try_bind_inl in Hh as (heads & _ & Hh).
  destruct (negb _); [|done]. by injection Hh as <-.
Qed.

Lemma picture_has rows a hd : db_archives db = Some rows → a ∈ rows → archive_head a = Some hd → hd ∈ ph_archives h.
Proof.
  intros Hrows Ha Hhd. rewrite picture_archives. unfold loadArchiveHeads. rewrite Hrows. simpl.
  apply list_elem_of_omap. exists a. split; [|done]. by apply list_elem_of_filter.
Qed.

Lemma picture_lower : Forall (λ a, ah_lower a ≠ 0) (ph_archives h).
Proof.
  rewrite picture_archives. unfold loadArchiveHeads. destruct (db_archives db) as [rows|] eqn:Hrows; [|constructor].
  simpl. apply Forall_forall. intros hd (a & Ha & Hhd)%list_elem_of_omap. apply list_elem_of_filter in Ha as [_ Ha].
  destruct (ao_head _ _ _ _ arch rows a Hrows Ha) as (hd' & Hhd' & Hz & _). congruence.
Qed.

(** A live event of the table at or after the anchor and below the floor. *)
Definition late (r : ResultRow) : Prop :=
  (∃ p, p ∈ db_parts db ∧ r ∈ dp_rows p ∧ of_table opts r = true) ∧
  AtOrBefore anchor (row_pos r) = true ∧ EventTimestamp r < floor.

(** A time is early enough when it is not after the archives counted and not
    after any late live event. *)
Lemma early_enough s : s ≤ since → (archN ≠ 0%nat → s ≤ archFrom) → (∀ r, late r → s ≤ EventTimestamp r) →
  ∀ r, must_reach db opts unseen r → AtOrBefore anchor (row_pos r) = true → CoarseSinceFloor s ≤ EventTimestamp r.
Proof.
  intros Hle Hleft Hlive r Hr Ha. pose proof (CoarseSinceFloor_mono s since Hle). pose proof (CoarseSinceFloor_lt s).
  destruct (decide (floor ≤ EventTimestamp r)); [lia|].
  destruct Hr as [Hp|(rows & a & Hrows & Harows & Hra & Hun)].
  { assert (late r) as Hl by (split; [done|split; [done|lia]]). specialize (Hlive r Hl). lia. }
  destruct (ao_head _ _ _ _ arch rows a Hrows Harows) as (hd & Hhd & _ & Hc). destruct (Hc r Hra) as [Hlow Hrec].
  assert (Hcount : counted since anchor checked hd).
  { split; [lia|]. eapply (archive_counted since anchor checked a hd r); [done..| |].
    - by eapply ao_written.
    - intros c Hcc. by eapply ao_cut. }
  destruct (archivesMayHold_spec _ _ _ _ _ _ picture_lower answer) as [Hzero Hpos].
  pose proof (picture_has _ _ _ Hrows Harows Hhd) as Hin.
  destruct (decide (archN = 0%nat)) as [Hz|Hz]; [by destruct (Hzero Hz hd Hin)|].
  destruct (Hpos Hz) as [_ Hf]. specialize (Hf hd Hin Hcount). specialize (Hleft Hz). lia.
Qed.

Lemma archFrom_below : archN ≠ 0%nat → archFrom < since.
Proof.
  intros Hz. destruct (archivesMayHold_spec _ _ _ _ _ _ picture_lower answer) as [_ Hpos].
  destruct (Hpos Hz). pose proof (CoarseSinceFloor_lt since). lia.
Qed.

(** With no late live event the archives alone decide. *)
Lemma reach_default : (∀ r, ¬ late r) →
  let s := if (archN =? 0)%nat then since else archFrom in s ≤ since ∧
  ∀ r, must_reach db opts unseen r → AtOrBefore anchor (row_pos r) = true → CoarseSinceFloor s ≤ EventTimestamp r.
Proof.
  intros Hno s. assert (s ≤ since ∧ (archN ≠ 0%nat → s ≤ archFrom)) as [Hs1 Hs2].
  { unfold s. pose proof archFrom_below. destruct (Nat.eqb_spec archN 0); lia. }
  split; [done|]. apply early_enough; [done..|]. intros r Hr. by destruct (Hno r).
Qed.

Lemma late_named r : late r → ∃ p, p ∈ db_parts db ∧ r ∈ dp_rows p ∧ default "" (dp_name p) ∈ below h since anchor.
Proof. intros ((p & Hp & Hr & _) & Ha & Ht). exists p. split_and!; [done..|]. by eapply below_names. Qed.
End reach.

Lemma sinceFor_reaches db h opts since anchor unseen s' :
  loadPartitionHeadsOnce db = inl h → index_ok db since →
  archives_ok db since (usableCheckedThrough anchor (fo_ArchivesCheckedThrough opts) (fo_UntilPos opts)) unseen →
  fo_Since opts = Some since → fo_SincePos opts = Some anchor → sinceFor h db opts = inl s' →
  ∃ s, s' = Some s ∧ s ≤ since ∧
    ∀ r, must_reach db opts unseen r → AtOrBefore anchor (row_pos r) = true → CoarseSinceFloor s ≤ EventTimestamp r.
Proof.
  intros Hh Hidx Har Hs Hp H. unfold sinceFor in H. rewrite Hs, Hp in H.
  destruct (archivesBelow h since anchor _ _) as [archFrom archN] eqn:Hans.
  pose proof (reach_default _ _ _ _ _ _ _ _ Hh Har Hans) as Hdef.
  pose proof (late_named db h opts since anchor Hh Hidx) as Hlate.
  destruct (below h since anchor) as [|n names] eqn:Hb.
  { injection H as <-. eexists. split; [done|]. apply Hdef. intros r (p & _ & _ & Hn)%Hlate. by apply not_elem_of_nil in Hn. }
  apply try_bind_inl in H as (rows & Hrows & H).
  set (found := filter _ rows) in H.
  assert (Hfound : ∀ r, late db opts since anchor r → r ∈ found).
  { intros r Hr. destruct (Hlate r Hr) as (p & Hpp & Hrp & Hn). destruct Hr as ((_ & _ & _ & Ht) & _ & Hlt).
    apply list_elem_of_filter. split; [done|]. by eapply named_rows_has. }
  pose proof (oldest_of_spec found) as Hold. destruct (oldest_of found) as [oldest|].
  - injection H as <-. destruct Hold as [(r0 & [[_ Hr0] _]%list_elem_of_filter & Hr0t) Hmin].
    eexists. split; [done|]. set (s := if _ && _ then _ else _).
    assert (s ≤ oldest ∧ (archN ≠ 0%nat → s ≤ archFrom)) as [Hc1 Hc2].
    { unfold s. destruct (Nat.eqb_spec archN 0), (Z.ltb_spec archFrom oldest); simpl; lia. }
    pose proof (CoarseSinceFloor_lt since). split; [lia|].
    eapply early_enough; [done..|lia|done|]. intros r Hr. specialize (Hmin r (Hfound r Hr)). lia.
  - injection H as <-. eexists. split; [done|]. apply Hdef. intros r Hr. specialize (Hfound r Hr).
    rewrite Hold in Hfound. by apply not_elem_of_nil in Hfound.
Qed.

Lemma below_of_part db h since anchor n : loadPartitionHeadsOnce db = inl h → n ∈ below h since anchor →
  ∃ p, p ∈ db_parts db ∧ n = default "" (dp_name p).
Proof.
  intros Hh Hn. unfold loadPartitionHeadsOnce in Hh. apply try_bind_inl in Hh as (heads & Hl & Hh).
  destruct (negb _); [|done]. injection Hh as <-. unfold below in Hn. simpl in Hn.
  apply list_elem_of_omap in Hn as (ph & Hph & Hn). apply heads_loop_inl in Hl.
  apply list_elem_of_lookup_1 in Hph as [i Hi]. destruct (Forall2_lookup_r _ _ _ _ _ Hl Hi) as (p & Hp & lower & open & ->).
  assert (Hname : ph_name (head_of p lower open) = default "" (dp_name p)) by (unfold head_of; by destruct (newest _)).
  exists p. split; [by eapply list_elem_of_lookup_2|]. rewrite <- Hname.
  destruct (ph_empty _ || _); [done|]. destruct (_ || _); [|done]. by injection Hn as <-.
Qed.

(** A table with partitions names every one. *)
Definition parts_named (db : indexDB) : Prop := ∀ p, p ∈ db_parts db → ∃ n, dp_name p = Some n ∧ n ≠ "".

(** A picture of the state that is asked needs no re-read. *)
Lemma sinceFor_total db h opts : loadPartitionHeadsOnce db = inl h → parts_named db → ∃ s, sinceFor h db opts = inl s.
Proof.
  intros Hh Hnamed. unfold sinceFor. destruct (fo_Since opts) as [since|]; [|by eauto].
  destruct (fo_SincePos opts) as [anchor|]; [|by eauto].
  destruct (archivesBelow _ _ _ _ _) as [archFrom archN].
  assert (∃ rows, named_rows db (below h since anchor) = inl rows) as [rows Hr].
  { unfold named_rows. destruct (below h since anchor) as [|n names] eqn:Hb; [by eauto|].
    destruct n as [|c n]; [by eauto|].
    rewrite filter_none; [by eauto|]. intros m Hm Hall. rewrite <- Hb in Hm.
    destruct (below_of_part _ _ _ _ _ Hh Hm) as (p & Hp & ->). destruct (Hnamed p Hp) as (m & Hpm & _).
    rewrite Forall_forall in Hall. specialize (Hall p Hp). by rewrite Hpm in Hall. }
  destruct (below h since anchor) as [|n names]; [by eauto|]. rewrite Hr. simpl. destruct (oldest_of _); eauto.
Qed.

(** C19: A fetch anchored on a binary log position loses no event: the lowest
    time it looks at, however its own time was set, is at or below the time of
    every event at or after the position that is of its table in the index or
    in an archive the snapshot has not seen; the time only ever moves back, and
    the floor is always found. *)
Theorem PositionReadFloor_reaches db fresh opts h since anchor unseen :
  loadPartitionHeadsOnce db = inl h → parts_named db → index_ok db since →
  archives_ok db since (usableCheckedThrough anchor (fo_ArchivesCheckedThrough opts) (fo_UntilPos opts)) unseen →
  fo_Since opts = Some since → fo_SincePos opts = Some anchor → fo_sinceSettled opts = false →
  ∃ floor, PositionReadFloor db fresh opts = inl floor ∧ floor ≤ CoarseSinceFloor since ∧
    ∀ r, must_reach db opts unseen r → AtOrBefore anchor (row_pos r) = true → floor ≤ EventTimestamp r.
Proof.
  intros Hh Hn Hidx Har Hs Hp Hset. destruct (sinceFor_total db h opts Hh Hn) as [s' Hf].
  destruct (sinceFor_reaches db h opts since anchor unseen s' Hh Hidx Har Hs Hp Hf) as (s & -> & Hle & Hr).
  exists (CoarseSinceFloor s). split; [|split; [by apply CoarseSinceFloor_mono|done]].
  unfold PositionReadFloor. rewrite Hs, Hp. unfold settleSince. rewrite Hset, Hs, Hp, Hh.
  rewrite !bool_decide_false by done. simpl.
  destruct fresh as [|d fresh]; simpl; rewrite Hf; done.
Qed.

(** ** Reading only the archives written lately *)

Lemma archivesMayHold_count archives since anchor checked :
  (archivesMayHold archives since anchor checked).2 =
  length (filter (λ a, ah_lower a < CoarseSinceFloor since ∧ archive_may since anchor checked a = true) archives).
Proof.
  unfold archivesMayHold. set (step := λ '(from, n) a, _).
  assert (Hg : ∀ f k, (foldl step (f, k) archives).2 =
    (k + length (filter (λ a, (ah_lower a < CoarseSinceFloor since)%Z ∧ archive_may since anchor checked a = true) archives))%nat).
  { induction archives as [|a archives IH]; intros f k; simpl; [lia|]. rewrite filter_cons.
    destruct (Z.ltb_spec (ah_lower a) (CoarseSinceFloor since)); simpl.
    - destruct (archive_may since anchor checked a) eqn:E.
      + rewrite decide_True by done. rewrite IH. simpl. lia.
      + rewrite decide_False by naive_solver. apply IH.
    - rewrite decide_False by lia. apply IH. }
  apply Hg.
Qed.

Lemma omap_filter_length (P : archiveHead → Prop) `{!∀ x, Decision (P x)} (Q : archiveRow → Prop) `{!∀ x, Decision (Q x)} rows :
  (∀ a h, a ∈ rows → archive_head a = Some h → P h → Q a) →
  length (filter P (omap archive_head (filter Q rows))) = length (filter P (omap archive_head rows)).
Proof.
  induction rows as [|a rows IH]; intros HPQ; [done|]. rewrite (filter_cons Q).
  assert (Hrest : ∀ b h, b ∈ rows → archive_head b = Some h → P h → Q b) by (intros b h Hb; apply HPQ; by right).
  specialize (IH Hrest). case_decide as Hq; csimpl; destruct (archive_head a) as [h|] eqn:E; csimpl; try done.
  - rewrite !filter_cons. case_decide; simpl; by rewrite ?IH.
  - rewrite filter_cons, decide_False; [done|]. intros Hp. apply Hq, (HPQ a h); [left|done..].
Qed.

(** Asking only the archives written lately counts the same archives as
    asking all of them, for every snapshot at or after that time, as long as no
    archive's record is a PostgreSQL position; the whole seconds of the
    server-side filter lose none. *)
Theorem MayHoldAfter_loaded db writtenSince since anchor : writtenSince ≤ since →
  (∀ rows a h, db_archives db = Some rows → a ∈ rows → archive_head a = Some h → IsLSN (ah_pos h) = false) →
  MayHoldAfter (LoadArchivesWrittenSince db writtenSince).1 since anchor = MayHoldAfter (loadArchiveHeads db 0).1 since anchor.
Proof.
  intros Hle Hlsn. unfold MayHoldAfter. rewrite !archivesMayHold_count.
  unfold LoadArchivesWrittenSince, loadArchiveHeads. destruct (db_archives db) as [rows|] eqn:Hrows; [|done]. simpl.
  rewrite (filter_all (λ a, written_since 0 a = true)) by done.
  apply omap_filter_length. intros a h Ha Hh [_ Hmay]. unfold written_since.
  destruct (writtenSince =? 0); [done|]. apply Z.leb_le.
  assert (since - archiveWrittenMargin ≤ ar_archivedAt a) as Hw.
  { rewrite <- (archive_head_written _ _ Hh). unfold archive_may in Hmay.
    rewrite (Hlsn rows a h eq_refl Ha Hh), andb_false_r in Hmay.
    destruct (Z.ltb_spec (ah_archivedAt h) (since - archiveWrittenMargin)); [|lia].
    exfalso. simpl in Hmay. destruct (ah_recorded h); simpl in Hmay; [|done]. by destruct (_ && _) in Hmay. }
  unfold archiveWrittenSlack.
  pose proof (Z.div_le_mono (writtenSince - archiveWrittenMargin) (ar_archivedAt a) second ltac:(done) ltac:(lia)). lia.
Qed.

(** An archive of PostgreSQL changes is counted whenever it was written, so the
    load that reads only the lately written ones can count fewer. *)
Definition lsn_db : indexDB := {|
  db_parts := []; db_stream := false; db_lastFile := None; db_unfinished := 0;
  db_archives := Some [{| ar_name := "p_2024010100"; ar_minTS := None; ar_maxID := Some 5%N; ar_maxFile := Some "0/1A2B";
                          ar_maxPos := 100; ar_archivedAt := 63840000000 * second; ar_content := [] |}] |}.

Lemma MayHoldAfter_lsn_differs :
  let since := 63850000000 * second in
  let anchor := {| File := "0/9"; Pos := 9 |} in
  MayHoldAfter (LoadArchivesWrittenSince lsn_db since).1 since anchor = 0%nat ∧
  MayHoldAfter (loadArchiveHeads lsn_db 0).1 since anchor = 1%nat.
Proof. split; vm_compute; reflexivity. Qed.

(** A sample: an event that ran five hours before the snapshot's time and was
    indexed after it. *)
Definition s_t0 : Z := 63844844400 * second.
Definition s_event (id pos : N) (t : Z) : ResultRow := {|
  EventID := id; BinlogFile := "mysql-bin.000001"; StartPos := pos; EndPos := pos; EventTimestamp := t;
  GTID := None; ConnectionID := None; SchemaName := "shop"; TableName := "orders"; EventType := 1;
  PKValues := "1"; RowChangedColumns := []; RowBefore := None; RowAfter := None; SchemaVersion := 0;
  QueryText := None; QueryHash := None; CommitTsUS := None; KeySpanFirst := ""; KeySpanLast := "" |}.
Definition s_late : ResultRow := s_event 7 900 (s_t0 - 5 * hour).
Definition s_db : indexDB := {|
  db_parts := [{| dp_name := Some "p_2024022922"; dp_desc := "63876466800"; dp_rows := [s_event 1 100 (s_t0 - 9 * hour); s_late] |};
               {| dp_name := Some "p_future"; dp_desc := "MAXVALUE"; dp_rows := [s_event 6 700 (s_t0 + hour)] |}];
  db_archives := None; db_stream := true; db_lastFile := None; db_unfinished := 0 |}.
Definition s_opts : fetchOpts := {|
  fo_Since := Some (s_t0 + hour); fo_SincePos := Some {| File := "mysql-bin.000001"; Pos := 800 |}; fo_UntilPos := None;
  fo_ArchivesCheckedThrough := None; fo_Schema := "shop"; fo_Table := "orders"; fo_sinceSettled := false |}.
Definition s_heads : PartitionHeads :=
  match loadPartitionHeadsOnce s_db with inl h => h | inr _ => Build_PartitionHeads [] false 0 false [] end.

Lemma s_db_ok : index_ok s_db (s_t0 + hour).
Proof.
  split.
  - intros heads H. vm_compute in H. injection H as <-.
    apply Forall2_cons_2; [|apply Forall2_cons_2; [|apply Forall2_nil_2]].
    + intros r _. by left.
    + intros r Hr. right. vm_compute in Hr |- *. apply list_elem_of_singleton in Hr as ->. done.
  - intros p r n _ Hp Hr Hn _. simpl in Hp.
    apply elem_of_cons in Hp as [->|Hp]; [|apply list_elem_of_singleton in Hp as ->]; simpl in Hr, Hn; injection Hn as <-.
    + apply elem_of_cons in Hr as [->|Hr]; [split; vm_compute; reflexivity|].
      apply list_elem_of_singleton in Hr as ->. split; vm_compute; reflexivity.
    + apply list_elem_of_singleton in Hr as ->. split; vm_compute; reflexivity.
Qed.

Lemma PositionReadFloor_reaches_witness : ∃ floor, PositionReadFloor s_db [] s_opts = inl floor ∧
  floor ≤ EventTimestamp s_late ∧ EventTimestamp s_late < CoarseSinceFloor (s_t0 + hour).
Proof.
  destruct (PositionReadFloor_reaches s_db [] s_opts s_heads (s_t0 + hour) {| File := "mysql-bin.000001"; Pos := 800 |}
    (λ _, False)) as (floor & Hf & _ & Hr).
  - vm_compute. reflexivity.
  - intros p [->|[->|Hp%not_elem_of_nil]%elem_of_cons]%elem_of_cons; [eexists; split; [reflexivity|intros [=]]..|destruct Hp].
  - exact s_db_ok.
  - split; [intros rows a [=]|intros rows a r [=]|intros c r _ []].
  - reflexivity.
  - reflexivity.
  - reflexivity.
  - exists floor. split; [exact Hf|]. split; [|vm_compute; reflexivity].
    apply Hr; [|vm_compute; reflexivity]. left. eexists. split; [left|]. split; [right; left|vm_compute; reflexivity].
Defined.

Lemma MayHoldAfter_loaded_witness :
  MayHoldAfter (LoadArchivesWrittenSince s_db s_t0).1 (s_t0 + hour) {| File := "mysql-bin.000001"; Pos := 800 |} = 0%nat.
Proof.
  rewrite (MayHoldAfter_loaded s_db s_t0 (s_t0 + hour) {| File := "mysql-bin.000001"; Pos := 800 |});
    [vm_compute; reflexivity|vm_compute; intros [=]|intros rows a h [=]].
Defined.
