(* ===== verification/StmtClock.v ===== *)
(** * A statement's time cap that can be held ([internal/stmtclock])

    The clocks of a connection as a transition system. Every critical section
    of the code (what runs between [g.mu.Lock] and [g.mu.Unlock]) is one step,
    and so are the passing of time, a timer that fires, and the two halves of
    [expire], which releases the lock between its check and [end]; any
    interleaving of the steps is a run. [w_ran] is a ghost: how long each clock
    has run. The unregistering of a parent's callback ([stopParent]) is left
    out: a callback that runs late finds the clock ended. *)
From S2P Require Import Prelude GoTime.

Open Scope Z_scope.

(** The errors a clock ends with. *)
Inductive ctxErr := DeadlineExceeded | Canceled | ParentErr (p : nat).

#[export] Instance ctxErr_eq_dec : EqDecision ctxErr.
Proof. solve_decision. Defined.

(** [clock]; [c_timer] says whether [timer] is set, [c_cap] is the [d] it was
    made with, [c_parent] the parent context. *)
Record clock := {
  c_parent : nat;
  c_cap : Z;
  c_err : option ctxErr;
  c_left : Z;
  c_deadline : Z;
  c_timer : bool;
  c_run : nat;
}.

(** The process: the clock's time, the group ([holds], the clocks in its map),
    the clocks made so far, the runtime's armed timers (clock, run, due time),
    the callbacks that fired and wait for the lock, those that passed
    [expire]'s check, the parents that ended, the releases not yet called. *)
Record world := {
  w_now : Z;
  w_holds : Z;
  w_live : gset nat;
  w_clocks : gmap nat clock;
  w_armed : list (nat * nat * Z);
  w_fired : list (nat * nat);
  w_ending : list nat;
  w_ended : gset nat;
  w_releases : gset nat;
  w_ran : gmap nat Z;
}.

Definition init : world := {|
  w_now := 0; w_holds := 0; w_live := ∅; w_clocks := ∅; w_armed := []; w_fired := [];
  w_ending := []; w_ended := ∅; w_releases := ∅; w_ran := ∅ |}.

(** ** The clock's own operations *)

(** [startLocked]: the clock and the timer it arms. *)
Definition startLocked (now : Z) (id : nat) (c : clock) : clock * list (nat * nat * Z) :=
  if bool_decide (c_err c ≠ None) || c_timer c then (c, [])
  else
    let run := S (c_run c) in
    ({| c_parent := c_parent c; c_cap := c_cap c; c_err := c_err c; c_left := c_left c;
        c_deadline := now + c_left c; c_timer := true; c_run := run |},
     [(id, run, now + c_left c)]).

(** [stopLocked]; [Timer.Stop] takes the timer off the armed ones. *)
Definition stopLocked (now : Z) (c : clock) : clock :=
  if negb (c_timer c) then c
  else {| c_parent := c_parent c; c_cap := c_cap c; c_err := c_err c;
          c_left := Z.max (c_deadline c - now) 0; c_deadline := c_deadline c;
          c_timer := false; c_run := S (c_run c) |}.

Definition disarm (id : nat) (armed : list (nat * nat * Z)) : list (nat * nat * Z) :=
  filter (λ t, t.1.1 ≠ id) armed.

(** ** The steps *)

Inductive label :=
| Tick (dt : Z)
| WithTimeout (id parent : nat) (d : Z)
| Hold (rel : nat)
| Release (rel : nat)
| Fire (id run : nat)
| ExpireCheck (id run : nat)
| ExpireEnd (id : nat)
| Cancel (id : nat)
| ParentEnds (p : nat)
| ParentSeen (id : nat).

(** Every clock of the map that [f] runs, and the timers it arms. *)
Definition start_all (now : Z) (live : gset nat) (clocks : gmap nat clock)
    : gmap nat clock * list (nat * nat * Z) :=
  (map_imap (λ id c, Some (if bool_decide (id ∈ live) then (startLocked now id c).1 else c)) clocks,
   mjoin ((λ '(id, c), if bool_decide (id ∈ live) then (startLocked now id c).2 else []) <$> map_to_list clocks)).

Definition stop_all (now : Z) (live : gset nat) (clocks : gmap nat clock) : gmap nat clock :=
  map_imap (λ id c, Some (if bool_decide (id ∈ live) then stopLocked now c else c)) clocks.

(** [end]. *)
Definition end_ (w : world) (id : nat) (err : ctxErr) : world :=
  match w_clocks w !! id with
  | None => w
  | Some c =>
      if bool_decide (c_err c ≠ None) then w
      else
        {| w_now := w_now w; w_holds := w_holds w; w_live := w_live w ∖ {[id]};
           w_clocks := <[id := {| c_parent := c_parent c; c_cap := c_cap c; c_err := Some err;
                                  c_left := c_left c; c_deadline := c_deadline c; c_timer := false;
                                  c_run := c_run c |}]> (w_clocks w);
           w_armed := disarm id (w_armed w); w_fired := w_fired w; w_ending := w_ending w;
           w_ended := w_ended w; w_releases := w_releases w; w_ran := w_ran w |}
  end.

(** A step, when it can be taken. *)
Definition exec (l : label) (w : world) : option world :=
  match l with
  | Tick dt =>
      if 0 <=? dt then
        Some {| w_now := w_now w + dt; w_holds := w_holds w; w_live := w_live w; w_clocks := w_clocks w;
                w_armed := w_armed w; w_fired := w_fired w; w_ending := w_ending w; w_ended := w_ended w;
                w_releases := w_releases w;
                w_ran := map_imap (λ id r, Some (match w_clocks w !! id with
                                                 | Some c => if c_timer c then r + dt else r
                                                 | None => r
                                                 end)) (w_ran w) |}
      else None
  | WithTimeout id parent d =>
      match w_clocks w !! id with
      | Some _ => None
      | None =>
          let c := {| c_parent := parent; c_cap := d; c_err := None; c_left := d; c_deadline := 0;
                      c_timer := false; c_run := 0 |} in
          let '(c, armed) := if w_holds w =? 0 then startLocked (w_now w) id c else (c, []) in
          Some {| w_now := w_now w; w_holds := w_holds w; w_live := {[id]} ∪ w_live w;
                  w_clocks := <[id := c]> (w_clocks w); w_armed := armed ++ w_armed w;
                  w_fired := w_fired w; w_ending := w_ending w; w_ended := w_ended w;
                  w_releases := w_releases w; w_ran := <[id := 0]> (w_ran w) |}
      end
  | Hold rel =>
      if bool_decide (rel ∈ w_releases w) then None
      else
        let holds := w_holds w + 1 in
        Some {| w_now := w_now w; w_holds := holds; w_live := w_live w;
                w_clocks := if holds =? 1 then stop_all (w_now w) (w_live w) (w_clocks w) else w_clocks w;
                w_armed := if holds =? 1 then filter (λ t, t.1.1 ∉ w_live w) (w_armed w) else w_armed w;
                w_fired := w_fired w; w_ending := w_ending w; w_ended := w_ended w;
                w_releases := {[rel]} ∪ w_releases w; w_ran := w_ran w |}
  | Release rel =>
      if bool_decide (rel ∈ w_releases w) then
        let holds := w_holds w - 1 in
        let '(clocks, armed) :=
          if holds =? 0 then start_all (w_now w) (w_live w) (w_clocks w) else (w_clocks w, []) in
        Some {| w_now := w_now w; w_holds := holds; w_live := w_live w; w_clocks := clocks;
                w_armed := armed ++ w_armed w; w_fired := w_fired w; w_ending := w_ending w;
                w_ended := w_ended w; w_releases := w_releases w ∖ {[rel]}; w_ran := w_ran w |}
      else Some w (* the second call of one release does nothing *)
  | Fire id run =>
      match list_find (λ t, t.1 = (id, run) ∧ t.2 ≤ w_now w) (w_armed w) with
      | Some (i, _) =>
          Some {| w_now := w_now w; w_holds := w_holds w; w_live := w_live w; w_clocks := w_clocks w;
                  w_armed := delete i (w_armed w); w_fired := (id, run) :: w_fired w;
                  w_ending := w_ending w; w_ended := w_ended w; w_releases := w_releases w;
                  w_ran := w_ran w |}
      | None => None
      end
  | ExpireCheck id run =>
      if bool_decide ((id, run) ∈ w_fired w) then
        let current := match w_clocks w !! id with
                       | Some c => (c_run c =? run)%nat && c_timer c
                       | None => false
                       end in
        Some {| w_now := w_now w; w_holds := w_holds w; w_live := w_live w; w_clocks := w_clocks w;
                w_armed := w_armed w;
                w_fired := match list_find (λ t, t = (id, run)) (w_fired w) with
                           | Some (i, _) => delete i (w_fired w) | None => w_fired w end;
                w_ending := if current then id :: w_ending w else w_ending w;
                w_ended := w_ended w; w_releases := w_releases w; w_ran := w_ran w |}
      else None
  | ExpireEnd id =>
      if bool_decide (id ∈ w_ending w) then
        let w := {| w_now := w_now w; w_holds := w_holds w; w_live := w_live w; w_clocks := w_clocks w;
                    w_armed := w_armed w; w_fired := w_fired w;
                    w_ending := match list_find (λ t, t = id) (w_ending w) with
                                | Some (i, _) => delete i (w_ending w) | None => w_ending w end;
                    w_ended := w_ended w; w_releases := w_releases w; w_ran := w_ran w |} in
        Some (end_ w id DeadlineExceeded)
      else None
  | Cancel id => Some (end_ w id Canceled)
  | ParentEnds p =>
      Some {| w_now := w_now w; w_holds := w_holds w; w_live := w_live w; w_clocks := w_clocks w;
              w_armed := w_armed w; w_fired := w_fired w; w_ending := w_ending w;
              w_ended := {[p]} ∪ w_ended w; w_releases := w_releases w; w_ran := w_ran w |}
  | ParentSeen id =>
      match w_clocks w !! id with
      | Some c => if bool_decide (c_parent c ∈ w_ended w) then Some (end_ w id (ParentErr (c_parent c))) else None
      | None => None
      end
  end.

(** [Deadline]: none while the clock is held or over. *)
Definition Deadline (w : world) (id : nat) : option Z :=
  c ← w_clocks w !! id; if c_timer c then Some (c_deadline c) else None.

(** Reachable states: any steps, in any order. *)
Inductive reachable : world → Prop :=
| reach_init : reachable init
| reach_step l w w' : reachable w → exec l w = Some w' → reachable w'.

(** ** The invariant *)

(** What a clock still has: until its deadline while it runs, [left] while it
    is held. *)
Definition remaining (now : Z) (c : clock) : Z := if c_timer c then c_deadline c - now else c_left c.

Record clock_inv (w : world) (id : nat) (c : clock) : Prop := {
  ci_live : id ∈ w_live w ↔ c_err c = None;
  ci_runs : c_err c = None → c_timer c = true ↔ w_holds w = 0;
  ci_over : c_err c ≠ None → c_timer c = false;
  ci_ran : ∃ r, w_ran w !! id = Some r ∧
    (c_err c = None → Z.max (remaining (w_now w) c) 0 = Z.max (c_cap c - r) 0) ∧
    (c_err c = Some DeadlineExceeded → c_cap c ≤ r) ∧
    (id ∈ w_ending w → c_cap c ≤ r);
  ci_armed run due : (id, run, due) ∈ w_armed w → c_timer c = true ∧ run = c_run c ∧ due = c_deadline c;
  ci_fired run : (id, run) ∈ w_fired w →
    (run ≤ c_run c)%nat ∧ (run = c_run c → c_timer c = true → c_deadline c ≤ w_now w);
  ci_pending : c_timer c = true →
    (id, c_run c, c_deadline c) ∈ w_armed w ∨ (id, c_run c) ∈ w_fired w ∨ id ∈ w_ending w;
}.

Record world_inv (w : world) : Prop := {
  wi_holds : w_holds w = Z.of_nat (size (w_releases w));
  wi_clock id c : w_clocks w !! id = Some c → clock_inv w id c;
  wi_known id : id ∈ w_live w ∨ (∃ run due, (id, run, due) ∈ w_armed w) ∨ (∃ run, (id, run) ∈ w_fired w) ∨
    id ∈ w_ending w → is_Some (w_clocks w !! id);
}.

Lemma init_inv : world_inv init.
Proof. split; [done|done|]. simpl. set_solver. Qed.

Lemma tick_inv dt w : 0 ≤ dt → world_inv w → ∀ w', exec (Tick dt) w = Some w' → world_inv w'.
Proof.
  intros Hdt [Hh Hc Hk] w' H. unfold exec in H. rewrite (proj2 (Z.leb_le _ _)) in H by done.
  injection H as <-. split; [done| |done]. simpl. intros id c Hid.
  destruct (Hc id c Hid) as [H1 H2 H3 (r & Hr & Hrem & He & Hend) H5 H6 H7]. split; simpl; try done.
  - exists (if c_timer c then r + dt else r).
    rewrite map_lookup_imap, Hr. simpl. rewrite Hid. split; [done|]. unfold remaining in *.
    destruct (c_timer c); split_and!; intros; try specialize (Hrem ltac:(done)); try specialize (He ltac:(done));
      try specialize (Hend ltac:(done)); lia.
  - intros run Hf. destruct (H6 run Hf) as [Hle Hd]. split; [done|]. intros. specialize (Hd ltac:(done) ltac:(done)). lia.
Qed.

(** [end] keeps the invariant; ending for time needs the cap used up. *)
Lemma end_inv w id err : world_inv w →
  (err = DeadlineExceeded → ∀ c r, w_clocks w !! id = Some c → w_ran w !! id = Some r → c_cap c ≤ r) →
  world_inv (end_ w id err).
Proof.
  intros [Hh Hc Hk] Herr. unfold end_. destruct (w_clocks w !! id) as [c|] eqn:Hid; [|done].
  case_bool_decide as Hn; [done|]. split; simpl; [done| |].
  - intros id' c' [[<- <-]|[Hne Hid']]%lookup_insert_Some.
    + destruct (Hc id c Hid) as [H1 H2 H3 (r & Hr & Hrem & He & Hend) H5 H6 H7]. split; simpl; try done.
      * set_solver.
      * exists r. split; [done|]. split_and!; [done| |done]. intros [= ->]. eauto.
      * intros run due Ha. unfold disarm in Ha. apply list_elem_of_filter in Ha as [Ha _]. done.
      * intros run Hf. destruct (H6 run Hf). by split.
    + destruct (Hc id' c' Hid') as [H1 H2 H3 H4 H5 H6 H7]. split; simpl; try done.
      * rewrite <- H1. set_solver.
      * intros run due Ha. unfold disarm in Ha. apply list_elem_of_filter in Ha as [_ Ha]. eauto.
      * intros Ht. destruct (H7 Ht) as [Ha|Ha]; [left|by right]. unfold disarm. apply list_elem_of_filter. simpl. done.
  - intros id' H. destruct (decide (id = id')) as [->|Hne]; [by rewrite lookup_insert_eq|].
    rewrite lookup_insert_ne by done. apply Hk.
    destruct H as [H|[(run & due & H)|H]]; [set_solver| |tauto].
    apply list_elem_of_filter in H as [_ H]. eauto 10.
Qed.

Lemma start_all_lookup now live clocks id c :
  (start_all now live clocks).1 !! id = Some c ↔
  ∃ c0, clocks !! id = Some c0 ∧ c = (if bool_decide (id ∈ live) then (startLocked now id c0).1 else c0).
Proof.
  unfold start_all. simpl. rewrite map_lookup_imap. destruct (clocks !! id); simpl; naive_solver.
Qed.

Lemma start_all_armed now live clocks id run due :
  (id, run, due) ∈ (start_all now live clocks).2 ↔
  ∃ c0, clocks !! id = Some c0 ∧ id ∈ live ∧ (id, run, due) ∈ (startLocked now id c0).2.
Proof.
  unfold start_all. simpl. rewrite list_elem_of_join. split.
  - intros (l & Hl & ([id' c0] & -> & Hm%elem_of_map_to_list)%list_elem_of_fmap).
    case_bool_decide as Hlive; [|by apply not_elem_of_nil in Hl].
    assert (id' = id) as ->; [|eauto].
    unfold startLocked in Hl. destruct (_ || _); simpl in Hl; [by apply not_elem_of_nil in Hl|set_solver].
  - intros (c0 & Hc & Hlive & Ha). exists (startLocked now id c0).2. split; [done|].
    apply list_elem_of_fmap. exists (id, c0). rewrite bool_decide_true by done.
    split; [done|]. by apply elem_of_map_to_list.
Qed.

(** Starting a live clock that is stopped. *)
Lemma startLocked_spec now id c : c_err c = None → c_timer c = false →
  startLocked now id c =
  ({| c_parent := c_parent c; c_cap := c_cap c; c_err := None; c_left := c_left c;
      c_deadline := now + c_left c; c_timer := true; c_run := S (c_run c) |},
   [(id, S (c_run c), now + c_left c)]).
Proof. intros He Ht. unfold startLocked. rewrite He, Ht. by rewrite bool_decide_false by (by intros ?). Qed.

Lemma new_clock_inv id parent d w w' : world_inv w → exec (WithTimeout id parent d) w = Some w' → world_inv w'.
Proof.
  intros [Hh Hc Hk] H. unfold exec in H. destruct (w_clocks w !! id) eqn:Hid; [done|].
  assert (Hnew : (id ∉ w_live w) ∧ (∀ run due, (id, run, due) ∉ w_armed w) ∧ (∀ run, (id, run) ∉ w_fired w) ∧ (id ∉ w_ending w)).
  { split_and!; repeat intros ?; destruct (Hk id) as [? Hs]; try congruence; eauto 10. }
  destruct Hnew as (Hn1 & Hn2 & Hn3 & Hn4).
  set (c0 := {| c_parent := parent; c_run := 0 |}) in H.
  destruct (if w_holds w =? 0 then startLocked (w_now w) id c0 else (c0, [])) as [c armed] eqn:Hs.
  injection H as <-. split; simpl; [done| |].
  - intros id' c' [[<- <-]|[Hne Hid']]%lookup_insert_Some.
    + destruct (Z.eqb_spec (w_holds w) 0) as [Hz|Hz].
      * rewrite startLocked_spec in Hs by done. injection Hs as <- <-. split; simpl; try done.
        -- set_solver.
        -- exists 0. rewrite lookup_insert_eq. unfold remaining. simpl. split_and!; [done| |done|done]. intros. lia.
        -- intros run due Ha. rewrite elem_of_cons in Ha. destruct Ha as [[= -> ->]|Ha]; [done|]. by destruct (Hn2 run due).
        -- intros run Hf. by destruct (Hn3 run).
        -- left. apply list_elem_of_here.
      * injection Hs as <- <-. split; simpl; try done.
        -- set_solver.
        -- exists 0. rewrite lookup_insert_eq. unfold remaining. simpl. split_and!; [done| |done|done]. intros. lia.
        -- intros run due Ha. by destruct (Hn2 run due).
        -- intros run Hf. by destruct (Hn3 run).
    + destruct (Hc id' c' Hid') as [H1 H2 H3 H4 H5 H6 H7].
      assert (Harm : ∀ run due, (id', run, due) ∈ armed ++ w_armed w ↔ (id', run, due) ∈ w_armed w).
      { intros run due. rewrite elem_of_app. split; [|by right]. intros [Ha|]; [|done].
        destruct (w_holds w =? 0); [rewrite startLocked_spec in Hs by done|];
          injection Hs as <- <-; set_solver. }
      split; simpl; try done.
      * rewrite <- H1. set_solver.
      * by rewrite lookup_insert_ne.
      * intros run due Ha%Harm. eauto.
      * intros Ht. rewrite Harm. auto.
  - intros id' Hin. destruct (decide (id = id')) as [->|Hne]; [by rewrite lookup_insert_eq|].
    rewrite lookup_insert_ne by done. apply Hk.
    destruct Hin as [Hin|[(run & due & Ha)|Hin]]; [set_solver| |tauto].
    right; left. exists run, due. apply elem_of_app in Ha as [Ha|]; [|done].
    destruct (w_holds w =? 0); [rewrite startLocked_spec in Hs by done|]; injection Hs as <- <-; set_solver.
Qed.

Lemma stop_all_lookup now live clocks id c :
  stop_all now live clocks !! id = Some c ↔
  ∃ c0, clocks !! id = Some c0 ∧ c = (if bool_decide (id ∈ live) then stopLocked now c0 else c0).
Proof. unfold stop_all. rewrite map_lookup_imap. destruct (clocks !! id); simpl; naive_solver. Qed.

Lemma hold_inv rel w w' : world_inv w → exec (Hold rel) w = Some w' → world_inv w'.
Proof.
  intros [Hh Hc Hk] H. unfold exec in H. case_bool_decide as Hrel; [done|]. injection H as <-.
  assert (Hsz : w_holds w + 1 = Z.of_nat (size ({[rel]} ∪ w_releases w))).
  { rewrite size_union, size_singleton by set_solver. lia. }
  destruct (Z.eqb_spec (w_holds w + 1) 1) as [H1|H1].
  - split; simpl; [done| |].
    + intros id c (c0 & Hid & ->)%stop_all_lookup.
      destruct (Hc id c0 Hid) as [I1 I2 I3 (r & Hr & Hrem & He & Hend) I5 I6 I7].
      case_bool_decide as Hlive.
      * pose proof (proj1 I1 Hlive) as Hnone. pose proof (proj2 (I2 Hnone) ltac:(lia)) as Ht.
        unfold stopLocked. rewrite Ht. split; simpl; try done; try lia.
        -- exists r. unfold remaining in *. rewrite Ht in Hrem. simpl. split_and!; try done.
           intros _. rewrite <- Hrem by done. lia.
        -- intros run due [Hn _]%list_elem_of_filter. done.
        -- intros run Hf. destruct (I6 run Hf). split; [lia|done].
      * assert (Ht : c_timer c0 = false).
        { apply I3. intros Hn. by apply Hlive, I1. }
        split; simpl; try done; try lia.
        -- intros Hn. by destruct (Hlive (proj2 I1 Hn)).
        -- eauto 10.
        -- intros run due [_ Ha]%list_elem_of_filter. eauto.
        -- intros Ht'. congruence.
    + intros id Hin. unfold stop_all. rewrite map_lookup_imap.
      destruct (Hk id) as [c ->]; [|done].
      destruct Hin as [Hin|[(run & due & [_ Ha]%list_elem_of_filter)|Hin]]; eauto 10.
  - split; simpl; [done| |done]. intros id c Hid.
    destruct (Hc id c Hid) as [I1 I2 I3 I4 I5 I6 I7]. split; simpl; try done.
    intros Hn. rewrite (I2 Hn). lia.
Qed.

Lemma release_inv rel w w' : world_inv w → exec (Release rel) w = Some w' → world_inv w'.
Proof.
  intros [Hh Hc Hk] H. unfold exec in H. case_bool_decide as Hrel; [|by injection H as <-].
  assert (Hsz : w_holds w - 1 = Z.of_nat (size (w_releases w ∖ {[rel]}))).
  { rewrite size_difference, size_singleton by set_solver.
    assert (0 < size (w_releases w))%nat; [|lia]. 
    apply Nat.neq_0_lt_0. intros H0. apply size_empty_inv in H0. set_solver. }
  destruct (Z.eqb_spec (w_holds w - 1) 0) as [H1|H1].
  - destruct (start_all (w_now w) (w_live w) (w_clocks w)) as [clocks armed] eqn:Hs. injection H as <-.
    assert (Hcl : clocks = (start_all (w_now w) (w_live w) (w_clocks w)).1) by (by rewrite Hs).
    assert (Har : armed = (start_all (w_now w) (w_live w) (w_clocks w)).2) by (by rewrite Hs).
    clear Hs. subst clocks armed. split; [done| |].
    + intros id c (c0 & Hid & ->)%start_all_lookup.
      destruct (Hc id c0 Hid) as [I1 I2 I3 (r & Hr & Hrem & He & Hend) I5 I6 I7].
      case_bool_decide as Hlive.
      * pose proof (proj1 I1 Hlive) as Hnone.
        assert (Ht : c_timer c0 = false) by (destruct (c_timer c0); [|done]; pose proof (proj1 (I2 Hnone) eq_refl); lia).
        rewrite startLocked_spec by done. split; cbn [w_live w_holds w_ran w_now w_ending w_armed w_fired fst c_err c_timer c_run c_deadline c_cap]; try done.
        -- exists r. unfold remaining in *. rewrite Ht in Hrem. cbn. split_and!; try done.
           intros _. rewrite <- Hrem by done. lia.
        -- intros run due [Ha|Ha]%elem_of_app.
           ++ apply start_all_armed in Ha as (c1 & Hid1 & _ & Ha). simplify_eq.
              rewrite startLocked_spec in Ha by done. by apply list_elem_of_singleton in Ha as [= -> ->].
           ++ destruct (I5 _ _ Ha). congruence.
        -- intros run Hf. destruct (I6 run Hf). split; [lia|]. intros ->. lia.
        -- intros _. left. apply elem_of_app. left. apply start_all_armed. exists c0. split; [done|]. split; [done|].
           rewrite startLocked_spec by done. apply list_elem_of_here.
      * split; cbn [w_live w_holds w_ran w_now w_ending w_armed w_fired]; try done.
        -- intros Hn. by destruct (Hlive (proj2 I1 Hn)).
        -- eauto 10.
        -- intros run due [Ha|Ha]%elem_of_app; [|eauto]. by apply start_all_armed in Ha as (_ & _ & ? & _).
        -- intros Ht. rewrite I3 in Ht; [done|]. intros Hn. by apply Hlive, I1.
    + intros id Hin. cbn [w_clocks w_live w_armed w_fired w_ending] in *.
      assert (is_Some (w_clocks w !! id)) as [c Hid].
      { apply Hk. destruct Hin as [Hin|[(run & due & [Ha|Ha]%elem_of_app)|Hin]]; eauto 10.
        apply start_all_armed in Ha as (_ & _ & ? & _). by left. }
      eexists. apply start_all_lookup. eauto.
  - injection H as <-. split; simpl; [done| |done]. intros id c Hid.
    destruct (Hc id c Hid) as [I1 I2 I3 I4 I5 I6 I7]. split; simpl; try done.
    intros Hn. rewrite (I2 Hn). lia.
Qed.

Lemma delete_found {A} (P : A → Prop) `{!∀ x, Decision (P x)} (l : list A) i x :
  list_find P l = Some (i, x) → x ∈ l ∧ P x ∧ (∀ y, y ∈ delete i l → y ∈ l) ∧ (∀ y, y ∈ l → y = x ∨ y ∈ delete i l).
Proof.
  intros (Hi & HP & _)%list_find_Some. split; [by eapply list_elem_of_lookup_2|]. split; [done|].
  rewrite (delete_take_drop l i). split; intros y Hy.
  - rewrite <- (take_drop_middle l i x Hi). set_solver.
  - rewrite <- (take_drop_middle l i x Hi) in Hy. set_solver.
Qed.

Lemma fire_inv id run w w' : world_inv w → exec (Fire id run) w = Some w' → world_inv w'.
Proof.
  intros [Hh Hc Hk] H. unfold exec in H.
  destruct (list_find _ (w_armed w)) as [[i t]|] eqn:Hf; [|done]. injection H as <-.
  apply delete_found in Hf as (Hin & [Ht Hdue] & Hsub & Hrest). destruct t as [[id' run'] due]. simpl in *.
  injection Ht as -> ->. split; simpl; [done| |].
  - intros id' c Hid. destruct (Hc id' c Hid) as [I1 I2 I3 I4 I5 I6 I7]. split; simpl; try done.
    + eauto.
    + intros run' [[= -> ->]|Hr]%elem_of_cons; [|by apply I6].
      destruct (I5 _ _ Hin) as (_ & -> & ->). done.
    + intros Hti. destruct (I7 Hti) as [Ha|[Ha|Ha]]; [|right; left; by right|by right; right].
      destruct (Hrest _ Ha) as [E|?]; [|by left]. right; left. simplify_eq. left.
  - intros id' Hk'. apply Hk. destruct Hk' as [?|[(r & d & ?)|[(r & [[= -> ->]|?]%elem_of_cons)|?]]]; eauto 10.
Qed.

(** A callback whose run is current finds its clock out of time. *)
Lemma fired_ran w id run c : world_inv w → w_clocks w !! id = Some c → (id, run) ∈ w_fired w →
  c_run c = run → c_timer c = true → ∃ r, w_ran w !! id = Some r ∧ c_cap c ≤ r.
Proof.
  intros Hw Hid Hf Hr Ht. destruct (wi_clock _ Hw id c Hid) as [I1 I2 I3 (r & Hran & Hrem & _) _ I6 _].
  exists r. split; [done|]. destruct (I6 run Hf) as [_ Hd]. specialize (Hd (eq_sym Hr) Ht).
  assert (c_err c = None) as Hn.
  { destruct (c_err c) eqn:E; [|done]. rewrite I3 in Ht; [done|congruence]. }
  specialize (Hrem Hn). unfold remaining in Hrem. rewrite Ht in Hrem. lia.
Qed.

Lemma check_inv id run w w' : world_inv w → exec (ExpireCheck id run) w = Some w' → world_inv w'.
Proof.
  intros Hw H. unfold exec in H. case_bool_decide as Hin; [|done]. injection H as <-.
  destruct (list_find (λ t, t = (id, run)) (w_fired w)) as [[i t]|] eqn:Hf.
  2:{ apply list_find_None in Hf. rewrite Forall_forall in Hf. by destruct (Hf _ Hin). }
  apply delete_found in Hf as (_ & -> & Hsub & Hrest).
  set (current := match w_clocks w !! id with Some c => _ | None => false end).
  assert (Hend : ∀ id', id' ∈ (if current then id :: w_ending w else w_ending w) →
    id' ∈ w_ending w ∨ (id' = id ∧ ∃ c, w_clocks w !! id = Some c ∧ c_run c = run ∧ c_timer c = true)).
  { intros id'. destruct current eqn:E; [|by left]. rewrite elem_of_cons. intros [->|]; [right|by left].
    split; [done|]. unfold current in E. destruct (w_clocks w !! id) as [c|]; [|done].
    apply andb_true_iff in E as [E%Nat.eqb_eq ?]. eauto. }
  split; simpl; [apply Hw| |].
  - intros id' c Hid. pose proof (wi_clock _ Hw id' c Hid) as [I1 I2 I3 (r & Hran & Hrem & He & Hen) I5 I6 I7].
    split; simpl; try done.
    + exists r. split_and!; [done..|]. intros [Hi|[-> (c' & Hc' & Hr & Ht)]]%Hend; [auto|].
      simplify_eq. destruct (fired_ran w id (c_run c) c Hw Hid Hin eq_refl Ht) as (r' & Hr' & Hle). congruence.
    + intros run' Hr'. apply I6, Hsub, Hr'.
    + intros Ht. destruct (I7 Ht) as [?|[Ha|Ha]]; [by left| |].
      * destruct (Hrest _ Ha) as [E|?]; [|by right; left]. injection E as -> E. right; right.
        assert (current = true) as ->; [|left]. unfold current. rewrite Hid, E, Nat.eqb_refl, Ht. done.
      * right; right. destruct current; [by right|done].
  - intros id' Hk. apply (wi_known _ Hw). destruct Hk as [?|[?|[(r & Hr)|[Hi|[-> (c & Hc & _)]]%Hend]]]; eauto 10.
Qed.

Definition set_ending (w : world) (e : list nat) : world := {|
  w_now := w_now w; w_holds := w_holds w; w_live := w_live w; w_clocks := w_clocks w; w_armed := w_armed w;
  w_fired := w_fired w; w_ending := e; w_ended := w_ended w; w_releases := w_releases w; w_ran := w_ran w |}.

Lemma end_set_ending w id err e : end_ (set_ending w e) id err = set_ending (end_ w id err) e.
Proof. unfold end_. simpl. destruct (w_clocks w !! id); [|done]. by case_bool_decide. Qed.

Lemma set_ending_inv w id e : world_inv w →
  (∀ x, x ∈ e → x ∈ w_ending w) → (∀ x, x ∈ w_ending w → x = id ∨ x ∈ e) →
  (∀ c, w_clocks w !! id = Some c → c_timer c = false) → world_inv (set_ending w e).
Proof.
  intros [Hh Hc Hk] Hsub Hrest Hoff. split; simpl; [done| |].
  - intros id' c Hid. destruct (Hc id' c Hid) as [I1 I2 I3 (r & Hran & Hrem & He & Hen) I5 I6 I7].
    split; simpl; try done; [eauto 10|]. intros Ht. destruct (I7 Ht) as [?|[?|Ha]]; [by left|by right; left|].
    destruct (Hrest _ Ha) as [->|?]; [|by right; right]. by rewrite (Hoff c Hid) in Ht.
  - intros id' Hin. apply Hk. naive_solver.
Qed.

(** After [end], the clock has an error and does not run. *)
Lemma end_over w id err c : world_inv w → w_clocks (end_ w id err) !! id = Some c → c_err c ≠ None ∧ c_timer c = false.
Proof.
  intros Hw. unfold end_. destruct (w_clocks w !! id) as [c0|] eqn:Hid; [|by rewrite Hid].
  case_bool_decide as Hn.
  - rewrite Hid. intros [= <-]. split; [done|]. by apply (wi_clock _ Hw id c0 Hid).
  - simpl. rewrite lookup_insert_eq. intros [= <-]. done.
Qed.

Lemma expire_end_inv id w w' : world_inv w → exec (ExpireEnd id) w = Some w' → world_inv w'.
Proof.
  intros Hw H. unfold exec in H. case_bool_decide as Hin; [|done]. injection H as <-.
  destruct (list_find (λ t, t = id) (w_ending w)) as [[i t]|] eqn:Hf.
  2:{ apply list_find_None in Hf. rewrite Forall_forall in Hf. by destruct (Hf _ Hin). }
  apply delete_found in Hf as (_ & -> & Hsub & Hrest).
  fold (set_ending w (delete i (w_ending w))). rewrite end_set_ending.
  assert (Hw' : world_inv (end_ w id DeadlineExceeded)).
  { apply end_inv; [done|]. intros _ c r Hid Hr.
    destruct (wi_clock _ Hw id c Hid) as [_ _ _ (r' & Hr' & _ & _ & Hen) _ _ _].
    specialize (Hen Hin). congruence. }
  assert (He : w_ending (end_ w id DeadlineExceeded) = w_ending w).
  { unfold end_. destruct (w_clocks w !! id); [|done]. by case_bool_decide. }
  apply (set_ending_inv _ id); [done|by rewrite He..|]. intros c Hc. by apply (end_over w id DeadlineExceeded c Hw).
Qed.

Lemma step_inv l w w' : world_inv w → exec l w = Some w' → world_inv w'.
Proof.
  intros Hw H. destruct l.
  - assert (0 ≤ dt) by (unfold exec in H; destruct (Z.leb_spec 0 dt); done). by eapply tick_inv.
  - by eapply new_clock_inv.
  - by eapply hold_inv.
  - by eapply release_inv.
  - by eapply fire_inv.
  - by eapply check_inv.
  - by eapply expire_end_inv.
  - injection H as <-. by apply end_inv.
  - injection H as <-. destruct Hw as [Hh Hc Hk]. split; [done| |done]. intros i c Hi. by destruct (Hc i c Hi).
  - unfold exec in H. destruct (w_clocks w !! id); [|done]. case_bool_decide; [|done]. injection H as <-.
    by apply end_inv.
Qed.

Lemma reachable_inv w : reachable w → world_inv w.
Proof. induction 1; [apply init_inv|by eapply step_inv]. Qed.

(** In every interleaving, a clock that has not ended runs, and reports a
    deadline, exactly when no hold of its connection is outstanding; a clock
    that has ended never runs again; and the number of holds is the number of
    release functions still to be called. *)
Theorem clock_runs_unless_held w id c : reachable w → w_clocks w !! id = Some c →
  w_holds w = Z.of_nat (size (w_releases w)) ∧
  (c_err c = None → is_Some (Deadline w id) ↔ w_holds w = 0) ∧
  (c_err c ≠ None → Deadline w id = None ∧ id ∉ w_live w).
Proof.
  intros Hw%reachable_inv Hid. destruct (wi_clock _ Hw id c Hid) as [I1 I2 I3 _ _ _ _].
  unfold Deadline. rewrite Hid. simpl. split_and!; [apply Hw| |].
  - intros Hn. rewrite <- (I2 Hn). destruct (c_timer c); split; [done..| |done]. by intros [? ?].
  - intros Hn. rewrite (I3 Hn). split; [done|]. by rewrite I1.
Qed.

(** In every interleaving, a statement is stopped for running too long only
    when its clock has run for at least its cap, the time it was held not
    counted; and a clock still going has left exactly what it has not run. *)
Theorem deadline_only_after_cap w id c : reachable w → w_clocks w !! id = Some c →
  ∃ r, w_ran w !! id = Some r ∧
    (c_err c = Some DeadlineExceeded → c_cap c ≤ r) ∧
    (c_err c = None → Z.max (remaining (w_now w) c) 0 = Z.max (c_cap c - r) 0).
Proof.
  intros Hw%reachable_inv Hid. destruct (wi_clock _ Hw id c Hid) as [_ _ _ (r & Hr & Hrem & He & _) _ _ _]. eauto.
Qed.

(** ** Progress *)

Fixpoint exec_all (ls : list label) (w : world) : option world :=
  match ls with
  | [] => Some w
  | l :: ls' => exec l w ≫= exec_all ls'
  end.

(** What the runtime does for clock [id] without anyone's call. *)
Definition runtime_step (id : nat) (l : label) : Prop :=
  match l with Fire i _ | ExpireCheck i _ | ExpireEnd i => i = id | _ => False end.

Definition err_of (w : world) (id : nat) : option ctxErr := w_clocks w !! id ≫= c_err.

Lemma end_err w id c err : w_clocks w !! id = Some c → c_err c = None → err_of (end_ w id err) id = Some err.
Proof.
  intros Hid Hn. unfold end_. rewrite Hid, bool_decide_false by (by intros ?).
  unfold err_of. simpl. by rewrite lookup_insert_eq.
Qed.

Lemma ending_ends w id c : w_clocks w !! id = Some c → c_err c = None → id ∈ w_ending w →
  ∃ w', exec (ExpireEnd id) w = Some w' ∧ err_of w' id = Some DeadlineExceeded.
Proof.
  intros Hid Hn Hin. unfold exec. rewrite bool_decide_true by done. eexists. split; [done|].
  eapply end_err; [exact Hid|done].
Qed.

Lemma check_enabled w id c : w_clocks w !! id = Some c → c_timer c = true → (id, c_run c) ∈ w_fired w →
  ∃ w1, exec (ExpireCheck id (c_run c)) w = Some w1 ∧ w_clocks w1 = w_clocks w ∧ id ∈ w_ending w1.
Proof.
  intros Hid Ht Hin. unfold exec. rewrite bool_decide_true, Hid, Nat.eqb_refl, Ht by done.
  eexists. split; [done|]. split; [done|]. apply list_elem_of_here.
Qed.

Lemma fire_enabled w id run due : (id, run, due) ∈ w_armed w → due ≤ w_now w →
  ∃ w1, exec (Fire id run) w = Some w1 ∧ w_clocks w1 = w_clocks w ∧ (id, run) ∈ w_fired w1.
Proof.
  intros Ha Hd. unfold exec.
  destruct (list_find_elem_of (λ t, t.1 = (id, run) ∧ t.2 ≤ w_now w) _ _ Ha) as [[i t] ->]; [done|].
  eexists. split; [done|]. split; [done|]. apply list_elem_of_here.
Qed.

Lemma fired_ends w id c : w_clocks w !! id = Some c → c_err c = None → c_timer c = true →
  (id, c_run c) ∈ w_fired w →
  ∃ w', exec_all [ExpireCheck id (c_run c); ExpireEnd id] w = Some w' ∧ err_of w' id = Some DeadlineExceeded.
Proof.
  intros Hid Hn Ht Hin. destruct (check_enabled w id c Hid Ht Hin) as (w1 & Hx & Hc & He).
  rewrite <- Hc in Hid. destruct (ending_ends w1 id c Hid Hn He) as (w' & Hx' & He').
  exists w'. cbn [exec_all]. rewrite Hx. cbn [mbind option_bind]. rewrite Hx'. done.
Qed.

(** C30: A clock that is not held and has run for its cap is ended by the
    runtime alone: in every reachable state at most three steps of its timer
    (firing, the check, the end) lead to [DeadlineExceeded]; no interleaving of
    holds and releases loses the timer. *)
Theorem expired_clock_ends w id c r : reachable w → w_clocks w !! id = Some c → c_err c = None →
  w_holds w = 0 → w_ran w !! id = Some r → c_cap c ≤ r →
  ∃ ls w', (length ls ≤ 3)%nat ∧ Forall (runtime_step id) ls ∧ exec_all ls w = Some w' ∧
    err_of w' id = Some DeadlineExceeded.
Proof.
  intros Hw%reachable_inv Hid Hn Hh Hr Hcap.
  destruct (wi_clock _ Hw id c Hid) as [I1 I2 I3 (r' & Hr' & Hrem & _) I5 I6 I7].
  pose proof (proj2 (I2 Hn) Hh) as Ht. assert (r' = r) as -> by congruence.
  assert (Hd : c_deadline c ≤ w_now w).
  { specialize (Hrem Hn). unfold remaining in Hrem. rewrite Ht in Hrem. lia. }
  destruct (I7 Ht) as [Ha|[Hf|He]].
  - destruct (fire_enabled w id _ _ Ha Hd) as (w1 & Hx & Hc & Hf). rewrite <- Hc in Hid.
    destruct (fired_ends w1 id c Hid Hn Ht Hf) as (w' & Hx' & He).
    exists [Fire id (c_run c); ExpireCheck id (c_run c); ExpireEnd id], w'.
    split; [simpl; lia|]. split; [by repeat constructor|].
    split; [|done]. change (exec (Fire id (c_run c)) w ≫= exec_all [ExpireCheck id (c_run c); ExpireEnd id] = Some w').
    by rewrite Hx.
  - destruct (fired_ends w id c Hid Hn Ht Hf) as (w' & Hx & He).
    exists [ExpireCheck id (c_run c); ExpireEnd id], w'. split; [simpl; lia|]. split; [by repeat constructor|]. done.
  - destruct (ending_ends w id c Hid Hn He) as (w' & Hx & He').
    exists [ExpireEnd id], w'. split; [simpl; lia|]. split; [by repeat constructor|]. cbn [exec_all]. rewrite Hx. done.
Qed.

(** A run: a cap of 10 started while held, held again for 100 in the middle. *)
Definition sample_run : list label :=
  [Hold 0; WithTimeout 1 9 10; Tick 50; Release 0; Tick 4; Hold 1; Tick 100; Release 1; Tick 6;
   Fire 1 3; ExpireCheck 1 3; ExpireEnd 1].

Definition sample_at (n : nat) : world := default init (exec_all (take n sample_run) init).

Lemma exec_all_reachable ls w w' : reachable w → exec_all ls w = Some w' → reachable w'.
Proof.
  revert w. induction ls as [|l ls IH]; intros w Hw H; [by injection H as <-|].
  simpl in H. apply bind_Some in H as (w1 & H1 & H). eapply IH; [|exact H]. by eapply reach_step.
Qed.

Lemma sample_reachable n : (n ≤ 12)%nat → reachable (sample_at n).
Proof.
  intros Hn. apply (exec_all_reachable (take n sample_run) init); [constructor|].
  do 13 (destruct n as [|n]; [vm_compute; reflexivity|]). lia.
Qed.

Lemma clock_runs_unless_held_witness :
  w_holds (sample_at 7) = 1 ∧ Deadline (sample_at 7) 1 = None ∧ is_Some (Deadline (sample_at 8) 1).
Proof.
  destruct (clock_runs_unless_held (sample_at 7) 1 (default (Build_clock 0 0 None 0 0 false 0) (w_clocks (sample_at 7) !! 1%nat))
    (sample_reachable 7 ltac:(lia)) ltac:(vm_compute; reflexivity)) as (H & _ & _).
  destruct (clock_runs_unless_held (sample_at 8) 1 (default (Build_clock 0 0 None 0 0 false 0) (w_clocks (sample_at 8) !! 1%nat))
    (sample_reachable 8 ltac:(lia)) ltac:(vm_compute; reflexivity)) as (_ & H8 & _).
  split; [exact H|]. split; [vm_compute; reflexivity|]. apply H8; vm_compute; reflexivity.
Defined.

Lemma deadline_only_after_cap_witness : err_of (sample_at 12) 1 = Some DeadlineExceeded ∧
  ∃ r, w_ran (sample_at 12) !! 1%nat = Some r ∧ 10 ≤ r.
Proof.
  split; [vm_compute; reflexivity|].
  destruct (deadline_only_after_cap (sample_at 12) 1 (default (Build_clock 0 0 None 0 0 false 0) (w_clocks (sample_at 12) !! 1%nat))
    (sample_reachable 12 ltac:(lia)) ltac:(vm_compute; reflexivity)) as (r & Hr & H & _).
  exists r. split; [exact Hr|]. apply H. vm_compute. reflexivity.
Defined.

Lemma expired_clock_ends_witness : ∃ ls w', (length ls ≤ 3)%nat ∧ exec_all ls (sample_at 9) = Some w' ∧
  err_of w' 1 = Some DeadlineExceeded.
Proof.
  destruct (expired_clock_ends (sample_at 9) 1 (default (Build_clock 0 0 None 0 0 false 0) (w_clocks (sample_at 9) !! 1%nat)) 10
    (sample_reachable 9 ltac:(lia))) as (ls & w' & Hl & _ & Hx & He);
    [vm_compute; reflexivity|vm_compute; reflexivity|vm_compute; reflexivity|vm_compute; reflexivity|vm_compute; intros [=]|].
  exists ls, w'. split; [exact Hl|]. split; [exact Hx|exact He].
Defined.
