(* ===== verification/TxnBatch.v ===== *)
(** * Writing captured rows to the index

    Models [internal/indexer]: the batch INSERT ([Indexer]), one transaction on
    a pinned connection ([Txn]) and the writer that never shows a reader half a
    source transaction ([TxnBatcher]). The index is the table [binlog_events]
    as its readers see it, the transactions open on pinned connections, and the
    AUTO_INCREMENT counter. What the index server answers to each statement,
    the clock and the capture lock are arguments ([Env]), one answer per call,
    so a theorem holds whatever fails and whenever. *)
From S2P Require Import Prelude GoStrings GoTime GoVal GoCodec GoIO Event.
#[local] Open Scope Z_scope.

(** ** Events *)

(** [event.Event], without the fields that only a DDL or a PostgreSQL relation
    carries. A zero [time.Time] is 0. *)
Record Event := {
  ev_BinlogFile : string;
  ev_StartPos : N;
  ev_EndPos : N;
  ev_Timestamp : Z;
  ev_GTID : string;
  ev_ConnectionID : N;
  ev_QueryText : string;
  ev_CommitTsUS : N;
  ev_Schema : string;
  ev_Table : string;
  ev_EventType : N;
  ev_PKValues : string;
  ev_RowBefore : option Row;
  ev_RowAfter : option Row;
  ev_SchemaVersion : N;
  ev_ReadAt : Z;
}.

#[export] Instance Event_eq_dec : EqDecision Event.
Proof. solve_decision. Defined.

(** ** Statement text *)

Definition MaxQueryTextBytes : nat := 16 * 1024.
Definition QueryTextTruncationMarker : string := " /* bintrail:truncated */".

(** [strings.ToValidUTF8(s, "\uFFFD")]: a run of invalid bytes is one U+FFFD;
    [bad] says the byte before was invalid. *)
Fixpoint to_valid_loop (fuel : nat) (s : string) (bad : bool) : string :=
  match fuel, s with
  | S fuel', String c s' =>
      match decode_rune c s' with
      | Some (_, raw, rest) => raw +:+ to_valid_loop fuel' rest false
      | None => (if bad then "" else chr 239 +:+ chr 191 +:+ chr 189) +:+ to_valid_loop fuel' s' true
      end
  | _, _ => ""
  end.

Definition ToValidUTF8 (s : string) : string := to_valid_loop (String.length s) s false.

(** [utf8.RuneStart]. *)
Definition RuneStart (c : ascii) : bool := negb (byte_val c / 64 =? 2)%N.

(** The greatest rune boundary at or below [cut]. *)
Fixpoint rune_cut (s : string) (cut : nat) : nat :=
  match cut with
  | 0%nat => 0%nat
  | S cut' => match String.get cut s with
              | Some c => if RuneStart c then cut else rune_cut s cut'
              | None => cut
              end
  end.

Definition SanitizeQueryText (s : string) : string :=
  if bool_decide (s = "") then ""
  else
    let s := ToValidUTF8 s in
    if (String.length s <=? MaxQueryTextBytes)%nat then s
    else str_take (rune_cut s MaxQueryTextBytes) s +:+ QueryTextTruncationMarker.

(** [utf8.RuneCountInString]: an invalid byte counts as one. *)
Fixpoint rune_count_loop (fuel : nat) (s : string) : Z :=
  match fuel, s with
  | S fuel', String c s' =>
      match decode_rune c s' with
      | Some (_, _, rest) => 1 + rune_count_loop fuel' rest
      | None => 1 + rune_count_loop fuel' s'
      end
  | _, _ => 0
  end.

Definition RuneCountInString (s : string) : Z := rune_count_loop (String.length s) s.

(** ** The INSERT *)

Definition nullOrString (s : string) : option string := if bool_decide (s = "") then None else Some s.
Definition nullOrUint32 (v : N) : option N := if (v =? 0)%N then None else Some v.
Definition nullOrUint64 (v : N) : option N := if (v =? 0)%N then None else Some v.

(** The columns one event is written to, [query_hash] apart (an enrichment the
    index server computes, NULL when it cannot). Row images are kept as the
    maps their JSON text encodes. *)
Record storedRow := {
  sr_binlog_file : string;
  sr_start_pos : N;
  sr_end_pos : N;
  sr_event_timestamp : Z;
  sr_gtid : option string;
  sr_connection_id : option N;
  sr_schema_name : string;
  sr_table_name : string;
  sr_event_type : N;
  sr_pk_values : string;
  sr_changed_columns : list string;
  sr_row_before : option Row;
  sr_row_after : option Row;
  sr_schema_version : N;
  sr_query_text : option string;
  sr_commit_ts_us : option N;
}.

#[export] Instance storedRow_eq_dec : EqDecision storedRow.
Proof. solve_decision. Defined.

Definition stored (ev : Event) : storedRow := {|
  sr_binlog_file := ev_BinlogFile ev;
  sr_start_pos := ev_StartPos ev;
  sr_end_pos := ev_EndPos ev;
  sr_event_timestamp := ev_Timestamp ev / second * second;
  sr_gtid := nullOrString (ev_GTID ev);
  sr_connection_id := nullOrUint32 (ev_ConnectionID ev);
  sr_schema_name := ev_Schema ev;
  sr_table_name := ev_Table ev;
  sr_event_type := ev_EventType ev;
  sr_pk_values := ev_PKValues ev;
  sr_changed_columns := ChangedColumns (ev_RowBefore ev) (ev_RowAfter ev);
  sr_row_before := ev_RowBefore ev;
  sr_row_after := ev_RowAfter ev;
  sr_schema_version := ev_SchemaVersion ev;
  sr_query_text := nullOrString (SanitizeQueryText (ev_QueryText ev));
  sr_commit_ts_us := nullOrUint64 (ev_CommitTsUS ev) |}.

Inductive WErr :=
| EPKTooLong          (* pkTooLongError *)
| ERowEncode          (* rowEncodeError *)
| EInsert             (* the batch INSERT failed or ran out of time *)
| EBegin
| ECommit
| ETxnSpent           (* errTxnSpent *)
| EStopped.           (* what the Stopped hook returned *)

Definition checkPKValuesLength (pkValues : string) : unit + WErr :=
  ensure RuneCountInString pkValues <=? MaxPKValuesLen or EPKTooLong;
  inl tt.

(** ** The index and its answers *)

(** What a write statement came to: done; refused, nothing written; or done on
    the server although the client saw an error (a timeout). *)
Inductive answer := Done | Refused | DoneUnseen.

(** What a writer is given: the batch size it was asked for, the caps, which
    row images [json.Marshal] takes, and one answer per call for the server,
    the ids it skips before a statement's first row, the capture lock and the
    clock. *)
Record Env := {
  e_batchSize : Z;
  e_maxRows : Z;
  e_maxOpen : Z;
  e_encodable : Row → bool;
  e_answer : nat → answer;
  e_skip : nat → N;
  e_stop : nat → bool;
  e_now : nat → Z;
}.

(** [CommitStamp]: when a row was read and its event time. *)
Abbreviation CommitStamp := (Z * Z)%type.

(** Calls of the caller's hooks, in order. *)
Inductive hook :=
| HStatement (rows : nat)
| HWriteError
| HPublished (n : Z) (stamps : list CommitStamp)
| HSplit (why : string) (rows open : Z) (first : bool).

Abbreviation idRow := (Z * storedRow)%type.

Record TxnBatcher := {
  b_batch : list Event;
  b_done : nat;
  b_inTxn : bool;
  b_tx : option nat;                 (* the pinned connection of an open index transaction *)
  b_txBegan : Z;
  b_txRows : Z;
  b_txStamps : list CommitStamp;
  b_capTimer : option Z;
  b_splits : nat;
}.

Record St := {
  st_rows : list idRow;              (* binlog_events, committed *)
  st_open : gmap nat (list idRow);   (* uncommitted rows by pinned connection *)
  st_next : Z;                       (* AUTO_INCREMENT *)
  st_first : Z;                      (* Indexer.firstIDOfLastBatch *)
  st_calls : nat;
  st_hooks : list hook;
  st_b : TxnBatcher;
}.

Definition set_b (f : TxnBatcher → TxnBatcher) (s : St) : St := {|
  st_rows := st_rows s; st_open := st_open s; st_next := st_next s; st_first := st_first s;
  st_calls := st_calls s; st_hooks := st_hooks s; st_b := f (st_b s) |}.
Definition set_rows (rows : list idRow) (s : St) : St := {|
  st_rows := rows; st_open := st_open s; st_next := st_next s; st_first := st_first s;
  st_calls := st_calls s; st_hooks := st_hooks s; st_b := st_b s |}.
Definition set_open (open : gmap nat (list idRow)) (s : St) : St := {|
  st_rows := st_rows s; st_open := open; st_next := st_next s; st_first := st_first s;
  st_calls := st_calls s; st_hooks := st_hooks s; st_b := st_b s |}.
Definition set_ids (next first : Z) (s : St) : St := {|
  st_rows := st_rows s; st_open := st_open s; st_next := next; st_first := first;
  st_calls := st_calls s; st_hooks := st_hooks s; st_b := st_b s |}.
Definition bump (s : St) : St := {|
  st_rows := st_rows s; st_open := st_open s; st_next := st_next s; st_first := st_first s;
  st_calls := S (st_calls s); st_hooks := st_hooks s; st_b := st_b s |}.
Definition add_hook (h : hook) (s : St) : St := {|
  st_rows := st_rows s; st_open := st_open s; st_next := st_next s; st_first := st_first s;
  st_calls := st_calls s; st_hooks := st_hooks s ++ [h]; st_b := st_b s |}.

Abbreviation W := (io St WErr).

Definition insertColumnCount : Z := 17.
Definition maxPreparedStmtParams : Z := 65535.
Definition MaxBatchSize : Z := maxPreparedStmtParams / insertColumnCount.

(** [New]'s clamp of the batch size. *)
Definition New (batchSize : Z) : Z :=
  let batchSize := if batchSize <=? 0 then 1000 else batchSize in
  if MaxBatchSize <? batchSize then MaxBatchSize else batchSize.

(** The rows of one statement with the ids the server gives them. *)
Definition with_ids (first : Z) (rows : list storedRow) : list idRow :=
  imap (λ i r, (first + Z.of_nat i, r)) rows.

(** A slice in pieces of at most [k]. *)
Fixpoint chunks {A} (fuel k : nat) (l : list A) : list (list A) :=
  match fuel, l with
  | S fuel', _ :: _ => take k l :: chunks fuel' k (drop k l)
  | _, _ => []
  end.

Section writer.
Context (e : Env).

Definition BatchSize : nat := Z.to_nat (New (e_batchSize e)).

(** The arguments of one row of the INSERT. *)
Definition insertArgs (ev : Event) : storedRow + WErr :=
  _ ←? checkPKValuesLength (ev_PKValues ev);
  ensure match ev_RowBefore ev with Some r => e_encodable e r | None => true end or ERowEncode;
  ensure match ev_RowAfter ev with Some r => e_encodable e r | None => true end or ERowEncode;
  inl (stored ev).

Fixpoint batchArgs (batch : list Event) : list storedRow + WErr :=
  match batch with
  | [] => inl []
  | ev :: batch' =>
      r ←? insertArgs ev;
      rs ←? batchArgs batch';
      inl (r :: rs)
  end.

(** The answer to the next statement. *)
Definition call : W (answer * Z) := λ s,
  (inl (e_answer e (st_calls s), st_next s + Z.of_N (e_skip e (st_calls s))), bump s).

Definition now : W Z := λ s, (inl (e_now e (st_calls s)), bump s).

(** [insertBatchOn] over the pool: the statement commits on its own. *)
Definition InsertBatch (batch : list Event) : W Z :=
  rows ←! io_of (batchArgs batch);
  '(o, first) ←! call;
  s ←! io_get;
  let n := Z.of_nat (length rows) in
  match o with
  | Done =>
      do! io_mod (set_rows (st_rows s ++ with_ids first rows));
      do! io_mod (set_ids (first + n) first);
      io_ret n
  | Refused =>
      do! io_mod (set_ids first (st_first s));
      io_fail EInsert
  | DoneUnseen =>
      do! io_mod (set_rows (st_rows s ++ with_ids first rows));
      do! io_mod (set_ids (first + n) (st_first s));
      io_fail EInsert
  end.

(** ** [Txn] *)

(** A transaction on a connection of its own. *)
Definition Begin : W nat :=
  '(o, _) ←! call;
  s ←! io_get;
  match o with
  | Done => do! io_mod (set_open (<[st_calls s := []]> (st_open s))); io_ret (st_calls s)
  | _ => io_fail EBegin
  end.

(** [insertBatchOn] inside a transaction. A statement that failed has written
    nothing that can still be committed: the client drops the connection. *)
Definition TxnInsertBatch (c : nat) (batch : list Event) : W Z :=
  s ←! io_get;
  match st_open s !! c with
  | None => io_fail ETxnSpent
  | Some pending =>
      rows ←! io_of (batchArgs batch);
      '(o, first) ←! call;
      let n := Z.of_nat (length rows) in
      match o with
      | Done =>
          do! io_mod (set_open (<[c := pending ++ with_ids first rows]> (st_open s)));
          do! io_mod (set_ids (first + n) first);
          io_ret n
      | _ => do! io_mod (set_ids (first + n) (st_first s)); io_fail EInsert
      end
  end.

Definition Commit (c : nat) : W unit :=
  s ←! io_get;
  match st_open s !! c with
  | None => io_fail ETxnSpent
  | Some pending =>
      '(o, _) ←! call;
      do! io_mod (set_open (delete c (st_open s)));
      match o with
      | Done => io_mod (set_rows (st_rows s ++ pending))
      | Refused => io_fail ECommit
      | DoneUnseen => do! io_mod (set_rows (st_rows s ++ pending)); io_fail ECommit
      end
  end.

(** [Rollback] drops the connection whether or not the statement succeeded; on
    a spent transaction it does nothing. *)
Definition Rollback (c : nat) : W unit :=
  s ←! io_get;
  match st_open s !! c with
  | None => io_ret tt
  | Some _ => do! call; io_mod (set_open (delete c (st_open s)))
  end.

(** ** [TxnBatcher] *)

Definition NewTxnBatcher : TxnBatcher := {|
  b_batch := []; b_done := 0; b_inTxn := false; b_tx := None; b_txBegan := 0; b_txRows := 0;
  b_txStamps := []; b_capTimer := None; b_splits := 0 |}.

Definition InTxn (b : TxnBatcher) : bool := b_inTxn b.
Definition CapC (b : TxnBatcher) : option Z := b_capTimer b.

Definition stopped : W unit := λ s,
  (if e_stop e (st_calls s) then inr EStopped else inl tt, bump s).

Definition emit (h : hook) : W unit := io_mod (add_hook h).

Definition appendStamps (dst : list CommitStamp) (rows : list Event) : list CommitStamp :=
  dst ++ ((λ ev, (ev_ReadAt ev, ev_Timestamp ev)) <$> rows).

Fixpoint write_loop (pieces : list (list Event)) (ins : list Event → W Z) (total : Z) : W Z :=
  match pieces with
  | [] => io_ret total
  | rows :: pieces' =>
      r ←! io_try (ins rows);
      do! emit (HStatement (length rows));
      match r with
      | inl n => write_loop pieces' ins (total + n)
      | inr err => do! emit HWriteError; io_fail err
      end
  end.

Definition writeChunks (rows : list Event) (ins : list Event → W Z) : W Z :=
  write_loop (chunks (length rows) BatchSize rows) ins 0.

(** The branch of [CommitComplete] for more rows than one statement takes. *)
Definition write_together (rows : list Event) : W Z :=
  t ←! io_try Begin;
  match t with
  | inr err => do! emit HWriteError; io_fail err
  | inl c =>
      r ←! io_try (writeChunks rows (TxnInsertBatch c));
      r ←! match r with
           | inl n =>
               ce ←! io_try (Commit c);
               match ce with
               | inl _ => io_ret (inl n)
               | inr err => do! emit HWriteError; io_ret (inr err)
               end
           | inr err => io_ret (inr err)
           end;
      do! Rollback c;
      io_of r
  end.

Definition CommitComplete : W unit :=
  do! stopped;
  s ←! io_get;
  let rows := take (b_done (st_b s)) (b_batch (st_b s)) in
  if (length rows =? 0)%nat then io_ret tt
  else
    n ←! (if (length rows <=? BatchSize)%nat then writeChunks rows InsertBatch else write_together rows);
    do! emit (HPublished n (appendStamps [] rows));
    io_mod (set_b (λ b, {|
      b_batch := drop (b_done b) (b_batch b); b_done := 0; b_inTxn := b_inTxn b; b_tx := b_tx b;
      b_txBegan := b_txBegan b; b_txRows := b_txRows b; b_txStamps := b_txStamps b;
      b_capTimer := b_capTimer b; b_splits := b_splits b |})).

(** The branch of [spill] that opens the index transaction. *)
Definition open_tx : W nat :=
  t ←! io_try Begin;
  match t with
  | inr err => do! emit HWriteError; io_fail err
  | inl c =>
      t ←! now;
      do! io_mod (set_b (λ b, {|
        b_batch := b_batch b; b_done := b_done b; b_inTxn := b_inTxn b; b_tx := Some c; b_txBegan := t;
        b_txRows := b_txRows b; b_txStamps := b_txStamps b; b_capTimer := Some (t + e_maxOpen e);
        b_splits := b_splits b |}));
      io_ret c
  end.

Definition spill : W unit :=
  do! stopped;
  s ←! io_get;
  if (length (b_batch (st_b s)) =? 0)%nat then io_ret tt
  else
    c ←! match b_tx (st_b s) with Some c => io_ret c | None => open_tx end;
    n ←! writeChunks (b_batch (st_b s)) (TxnInsertBatch c);
    io_mod (set_b (λ b, {|
      b_batch := []; b_done := b_done b; b_inTxn := b_inTxn b; b_tx := b_tx b; b_txBegan := b_txBegan b;
      b_txRows := b_txRows b + n; b_txStamps := appendStamps (b_txStamps b) (b_batch b);
      b_capTimer := b_capTimer b; b_splits := b_splits b |})).

Definition clearTx (b : TxnBatcher) : TxnBatcher := {|
  b_batch := b_batch b; b_done := b_done b; b_inTxn := b_inTxn b; b_tx := None; b_txBegan := b_txBegan b;
  b_txRows := 0; b_txStamps := []; b_capTimer := None; b_splits := b_splits b |}.

Definition commitTx : W unit :=
  do! spill;
  s ←! io_get;
  match b_tx (st_b s) with
  | None => io_ret tt
  | Some c =>
      do! stopped;
      let n := b_txRows (st_b s) in
      let stamps := b_txStamps (st_b s) in
      r ←! io_try (Commit c);
      do! io_mod (set_b clearTx);
      match r with
      | inr err => do! emit HWriteError; io_fail err
      | inl _ => emit (HPublished n stamps)
      end
  end.

(** Why the open transaction is past a cap, if it is. *)
Definition cap_reached (b : TxnBatcher) : W (option string) :=
  match b_tx b with
  | None => io_ret None
  | Some _ =>
      if e_maxRows e <=? b_txRows b then io_ret (Some "row cap")
      else
        t ←! now;
        io_ret (if e_maxOpen e <=? t - b_txBegan b then Some "time cap" else None)
  end.

Definition OnCap : W unit :=
  s ←! io_get;
  why ←! cap_reached (st_b s);
  match why with
  | None => io_ret tt
  | Some why =>
      t ←! now;
      do! commitTx;
      do! io_mod (set_b (λ b, {|
        b_batch := b_batch b; b_done := b_done b; b_inTxn := b_inTxn b; b_tx := b_tx b;
        b_txBegan := b_txBegan b; b_txRows := b_txRows b; b_txStamps := b_txStamps b;
        b_capTimer := b_capTimer b; b_splits := S (b_splits b) |}));
      s' ←! io_get;
      emit (HSplit why (b_txRows (st_b s)) (t - b_txBegan (st_b s)) (b_splits (st_b s') =? 1)%nat)
  end.

Definition Add (ev : Event) : W unit :=
  do! io_mod (set_b (λ b, {|
    b_batch := b_batch b ++ [ev]; b_done := b_done b; b_inTxn := true; b_tx := b_tx b;
    b_txBegan := b_txBegan b; b_txRows := b_txRows b; b_txStamps := b_txStamps b;
    b_capTimer := b_capTimer b; b_splits := b_splits b |}));
  s ←! io_get;
  do! (if (BatchSize <=? length (b_batch (st_b s)) - b_done (st_b s))%nat
       then do! CommitComplete; spill else io_ret tt);
  OnCap.

Definition End_ : W unit :=
  do! io_mod (set_b (λ b, {|
    b_batch := b_batch b; b_done := b_done b; b_inTxn := false; b_tx := b_tx b;
    b_txBegan := b_txBegan b; b_txRows := b_txRows b; b_txStamps := b_txStamps b;
    b_capTimer := b_capTimer b; b_splits := 0 |}));
  s ←! io_get;
  match b_tx (st_b s) with
  | Some _ => commitTx
  | None =>
      do! io_mod (set_b (λ b, {|
        b_batch := b_batch b; b_done := length (b_batch b); b_inTxn := b_inTxn b; b_tx := b_tx b;
        b_txBegan := b_txBegan b; b_txRows := b_txRows b; b_txStamps := b_txStamps b;
        b_capTimer := b_capTimer b; b_splits := b_splits b |}));
      if (BatchSize <=? length (b_batch (st_b s)))%nat then CommitComplete else io_ret tt
  end.

Definition Close : W unit :=
  s ←! io_get;
  match b_tx (st_b s) with
  | None => io_ret tt
  | Some c => do! Rollback c; io_mod (set_b clearTx)
  end.

Definition Discard : W Z :=
  s ←! io_get;
  let b := st_b s in
  let n := Z.of_nat (length (b_batch b) - b_done b) + b_txRows b in
  do! io_mod (set_b (λ b, {|
    b_batch := take (b_done b) (b_batch b); b_done := b_done b; b_inTxn := false; b_tx := b_tx b;
    b_txBegan := b_txBegan b; b_txRows := b_txRows b; b_txStamps := b_txStamps b;
    b_capTimer := b_capTimer b; b_splits := 0 |}));
  do! Close;
  io_ret n.
End writer.

(** ** Writing batches *)

Lemma New_pos n : 1 ≤ New n ≤ MaxBatchSize.
Proof.
  unfold New, MaxBatchSize, maxPreparedStmtParams, insertColumnCount.
  destruct (n <=? 0) eqn:H1; [done|]. destruct (_ <? n) eqn:H2; [done|]. lia.
Qed.

Lemma BatchSize_pos e : (0 < BatchSize e)%nat.
Proof. unfold BatchSize. pose proof (New_pos (e_batchSize e)). lia. Qed.

Lemma chunks_concat {A} fuel k (l : list A) : (0 < k)%nat → (length l ≤ fuel)%nat → concat (chunks fuel k l) = l.
Proof.
  revert l. induction fuel as [|fuel IH]; intros [|x l] Hk Hl; simpl in *; try done; [lia|].
  rewrite IH by (rewrite ?length_drop; simpl; lia). apply (take_drop k (x :: l)).
Qed.

Lemma chunks_one {A} k (l : list A) : (0 < length l ≤ k)%nat → chunks (length l) k l = [l].
Proof.
  destruct l as [|x l]; simpl; [lia|]. intros Hl.
  rewrite (take_ge (x :: l)), (drop_ge (x :: l)) by (simpl; lia). by destruct (length l).
Qed.

Lemma chunks_nonempty {A} fuel k (l : list A) : (0 < k)%nat → Forall (λ c, c ≠ []) (chunks fuel k l).
Proof.
  revert l. induction fuel as [|fuel IH]; intros [|x l] Hk; simpl; try constructor; [|by apply IH].
  by destruct k; [lia|].
Qed.

Lemma batchArgs_stored e batch rows : batchArgs e batch = inl rows → rows = stored <$> batch.
Proof.
  revert rows. induction batch as [|ev batch IH]; simpl; intros rows H; inv_try; [done|].
  match goal with H : batchArgs _ _ = inl _ |- _ => apply IH in H end.
  unfold insertArgs in *. inv_try. by subst.
Qed.

Lemma with_ids_stored first rows : (with_ids first rows).*2 = rows.
Proof.
  unfold with_ids. apply list_eq. intros i.
  rewrite list_lookup_fmap, list_lookup_imap. by destruct (rows !! i).
Qed.

Lemma with_ids_range first rows :
  Forall (λ r, first ≤ r.1 < first + Z.of_nat (length rows)) (with_ids first rows).
Proof.
  apply Forall_lookup. intros i r. unfold with_ids. rewrite list_lookup_imap.
  destruct (rows !! i) as [x|] eqn:Hi; simpl; intros [= <-]. simpl.
  apply lookup_lt_Some in Hi. lia.
Qed.

(** What a writer's statement leaves: the rows it made visible, the pinned
    connections, and ids that only grow. *)
Record moved (s s' : St) (new : list idRow) (open : gmap nat (list idRow)) : Prop := {
  mv_rows : st_rows s' = st_rows s ++ new;
  mv_open : st_open s' = open;
  mv_b : st_b s' = st_b s;
  mv_next : st_next s ≤ st_next s';
  mv_first : st_first s ≤ st_next s → st_first s' ≤ st_next s';
  mv_new : Forall (λ r, st_next s ≤ r.1 < st_next s') new;
}.

Lemma moved_refl s : moved s s [] (st_open s).
Proof. split; rewrite ?app_nil_r; auto; lia. Qed.

Lemma Forall_range_weaken (a b c d : Z) (l : list idRow) : a ≤ b → c ≤ d →
  Forall (λ r, b ≤ r.1 < c) l → Forall (λ r, a ≤ r.1 < d) l.
Proof. intros ?? Hl. eapply Forall_impl; [exact Hl|]. simpl. lia. Qed.

Lemma moved_trans s1 s2 s3 n1 n2 o2 o3 :
  moved s1 s2 n1 o2 → moved s2 s3 n2 o3 → moved s1 s3 (n1 ++ n2) o3.
Proof.
  intros [R1 ?????] [R2 ?????]. split; [by rewrite R2, R1, app_assoc|done|congruence|lia|auto|].
  apply Forall_app; split; eapply Forall_range_weaken; [| |eassumption| | |eassumption]; lia.
Qed.

Lemma moved_quiet s1 s2 s3 o2 o3 : moved s1 s2 [] o2 → moved s2 s3 [] o3 → moved s1 s3 [] o3.
Proof. apply (moved_trans _ _ _ [] []). Qed.

(** Hooks and calls alone move nothing. *)
Lemma moved_hook s h : moved s (add_hook h s) [] (st_open s).
Proof. split; rewrite ?app_nil_r; simpl; auto; lia. Qed.
Lemma moved_bump s : moved s (bump s) [] (st_open s).
Proof. split; rewrite ?app_nil_r; simpl; auto; lia. Qed.

Section writes.
Context (e : Env).

Lemma wp_InsertBatch batch s :
  wp (InsertBatch e batch)
     (λ n s', n = Z.of_nat (length batch) ∧ ∃ new, new.*2 = stored <$> batch ∧ moved s s' new (st_open s))
     (λ s', ∃ new, (new = [] ∨ new.*2 = stored <$> batch) ∧ moved s s' new (st_open s)) s.
Proof.
  unfold InsertBatch. wp_step. apply wp_of; [|eauto using moved_refl].
  intros rows Hrows%batchArgs_stored. subst rows.
  set (rows := stored <$> batch). assert (length rows = length batch) as Hlen by apply length_fmap.
  wp_step. unfold wp at 1, call. simpl.
  set (first := st_next s + _). assert (st_next s ≤ first) by (subst first; lia).
  pose proof (with_ids_range first rows) as Hids. pose proof (with_ids_stored first rows) as Hst.
  wp_steps. destruct (e_answer e (st_calls s)); wp_steps.
  - split; [by rewrite Hlen|]. exists (with_ids first rows). split; [done|].
    split; simpl; try done; [lia..|]. eapply Forall_range_weaken, Hids; lia.
  - exists []. split; [auto|]. split; rewrite ?app_nil_r; simpl; try done; lia.
  - exists (with_ids first rows). split; [auto|].
    split; simpl; try done; [lia..|]. eapply Forall_range_weaken, Hids; lia.
Qed.

Lemma wp_Begin s :
  wp (Begin e) (λ c s', moved s s' [] (<[c := []]> (st_open s))) (λ s', moved s s' [] (st_open s)) s.
Proof.
  unfold Begin. wp_step. unfold wp at 1, call. simpl. wp_steps.
  destruct (e_answer e (st_calls s)); wp_steps; split; rewrite ?app_nil_r; simpl; auto; lia.
Qed.

(** A failed statement in a transaction leaves the rows pending before it. *)
Lemma wp_TxnInsertBatch c pending batch s : st_open s !! c = Some pending →
  wp (TxnInsertBatch e c batch)
     (λ n s', n = Z.of_nat (length batch) ∧ ∃ new, new.*2 = stored <$> batch ∧
        Forall (λ r, st_next s ≤ r.1 < st_next s') new ∧
        moved s s' [] (<[c := pending ++ new]> (st_open s)))
     (λ s', moved s s' [] (st_open s)) s.
Proof.
  intros Hc. unfold TxnInsertBatch. wp_steps. rewrite Hc. wp_step. apply wp_of; [|eauto using moved_refl].
  intros rows Hrows%batchArgs_stored. subst rows.
  set (rows := stored <$> batch). assert (length rows = length batch) as Hlen by apply length_fmap.
  wp_step. unfold wp at 1, call. simpl.
  set (first := st_next s + _). assert (st_next s ≤ first) by (subst first; lia).
  pose proof (with_ids_range first rows) as Hids. pose proof (with_ids_stored first rows) as Hst.
  destruct (e_answer e (st_calls s)); wp_steps; [|split; rewrite ?app_nil_r; simpl; auto; lia..].
  split; [by rewrite Hlen|]. exists (with_ids first rows). split; [done|]. split.
  - eapply Forall_range_weaken, Hids; lia.
  - split; rewrite ?app_nil_r; simpl; auto; lia.
Qed.

Lemma wp_Commit c pending s : st_open s !! c = Some pending →
  wp (Commit e c)
     (λ _ s', st_rows s' = st_rows s ++ pending ∧ st_open s' = delete c (st_open s) ∧
        st_b s' = st_b s ∧ st_next s' = st_next s ∧ st_first s' = st_first s)
     (λ s', (st_rows s' = st_rows s ∨ st_rows s' = st_rows s ++ pending) ∧ st_open s' = delete c (st_open s) ∧
        st_b s' = st_b s ∧ st_next s' = st_next s ∧ st_first s' = st_first s) s.
Proof.
  intros Hc. unfold Commit. wp_steps. rewrite Hc. wp_step. unfold wp at 1, call. simpl. wp_steps.
  destruct (e_answer e (st_calls s)); wp_steps; auto 10.
Qed.

Lemma wp_Rollback c (Q : unit → St → Prop) (F : St → Prop) s :
  (∀ s', moved s s' [] (delete c (st_open s)) → Q tt s') → wp (Rollback e c) Q F s.
Proof.
  intros HQ. unfold Rollback. wp_steps. destruct (st_open s !! c) eqn:Hc; wp_steps.
  - unfold wp at 1, call. simpl. wp_steps. apply HQ. split; rewrite ?app_nil_r; simpl; auto; lia.
  - apply HQ. rewrite delete_id by done. apply moved_refl.
Qed.

Lemma wp_stopped (Q : unit → St → Prop) (F : St → Prop) s :
  Q tt (bump s) → F (bump s) → wp (stopped e) Q F s.
Proof. unfold wp, stopped. simpl. by destruct (e_stop e (st_calls s)). Qed.

Lemma wp_now (Q : Z → St → Prop) F s :
  Q (e_now e (st_calls s)) (bump s) → wp (now e) Q F s.
Proof. done. Qed.

(** Pieces written one after the other inside a transaction. *)
Lemma wp_write_loop_tx c pending pieces total s : st_open s !! c = Some pending →
  wp (write_loop pieces (TxnInsertBatch e c) total)
     (λ n s', n = total + Z.of_nat (length (concat pieces)) ∧ ∃ new, new.*2 = stored <$> concat pieces ∧
        Forall (λ r, st_next s ≤ r.1 < st_next s') new ∧
        moved s s' [] (<[c := pending ++ new]> (st_open s)))
     (λ s', ∃ new, moved s s' [] (<[c := pending ++ new]> (st_open s))) s.
Proof.
  revert total pending s. induction pieces as [|rows pieces IH]; intros total pending s Hc; simpl.
  { apply wp_ret. split; [lia|]. exists []. rewrite app_nil_r, insert_id by done. eauto using moved_refl. }
  wp_step. apply wp_try. eapply wp_mono; [apply (wp_TxnInsertBatch c pending rows s Hc)|..].
  - intros n s1 (-> & new & Hnew & Hids & Hm). unfold emit. wp_steps.
    eapply wp_mono; [apply (IH _ (pending ++ new))|..].
    + simpl. rewrite (mv_open _ _ _ _ Hm). apply lookup_insert_eq.
    + intros n s2 (-> & new2 & Hnew2 & Hids2 & Hm2). rewrite length_app. split; [lia|].
      exists (new ++ new2). rewrite fmap_app, Hnew, Hnew2, <-fmap_app. split; [done|].
      pose proof (mv_next _ _ _ _ Hm). pose proof (mv_next _ _ _ _ Hm2). simpl in *. split.
      * apply Forall_app; split; eapply Forall_range_weaken; [| |eassumption| | |eassumption]; lia.
      * destruct Hm as [R1 O1 B1 N1 F1 _], Hm2 as [R2 O2 B2 N2 F2 _]. simpl in *. rewrite app_nil_r in *.
        split; rewrite ?app_nil_r; try congruence; [|lia|auto|constructor].
        rewrite O2, O1, insert_insert_eq, app_assoc. done.
    + intros s2 (new2 & Hm2). exists (new ++ new2).
      destruct Hm as [R1 O1 B1 N1 F1 _], Hm2 as [R2 O2 B2 N2 F2 _]. simpl in *. rewrite app_nil_r in *.
      split; rewrite ?app_nil_r; try congruence; [|lia|auto|constructor].
      rewrite O2, O1, insert_insert_eq, app_assoc. done.
  - intros s1 Hm err. unfold emit. wp_steps. exists []. rewrite app_nil_r, insert_id by done.
    destruct Hm. split; simpl; auto.
Qed.

Lemma wp_writeChunks_tx c pending rows s : st_open s !! c = Some pending →
  wp (writeChunks e rows (TxnInsertBatch e c))
     (λ n s', n = Z.of_nat (length rows) ∧ ∃ new, new.*2 = stored <$> rows ∧
        Forall (λ r, st_next s ≤ r.1 < st_next s') new ∧
        moved s s' [] (<[c := pending ++ new]> (st_open s)))
     (λ s', ∃ new, moved s s' [] (<[c := pending ++ new]> (st_open s))) s.
Proof.
  intros Hc. unfold writeChunks. eapply wp_mono; [by apply wp_write_loop_tx|..]; simpl; [|done].
  rewrite chunks_concat by (auto using BatchSize_pos). auto.
Qed.

(** At most one batch is one statement, which commits on its own. *)
Lemma wp_writeChunks_pool rows s : (0 < length rows ≤ BatchSize e)%nat →
  wp (writeChunks e rows (InsertBatch e))
     (λ n s', n = Z.of_nat (length rows) ∧ ∃ new, new.*2 = stored <$> rows ∧ moved s s' new (st_open s))
     (λ s', ∃ new, (new = [] ∨ new.*2 = stored <$> rows) ∧ moved s s' new (st_open s)) s.
Proof.
  intros Hlen. unfold writeChunks. rewrite chunks_one by done. simpl. wp_step. apply wp_try.
  eapply wp_mono; [apply wp_InsertBatch|..]; simpl.
  - intros n s1 (-> & new & Hnew & Hm). unfold emit. wp_steps. split; [done|].
    exists new. split; [done|]. destruct Hm. by split.
  - intros s1 (new & Hnew & Hm) err. unfold emit. wp_steps. exists new. split; [done|]. destruct Hm. by split.
Qed.
End writes.

(** ** What a reader of the index sees *)

Section invariant.
Context (e : Env).
(** The rows the index held before, how many of the new ones must stay, and
    pairs of a count and an id: the new rows after that many have larger ids. *)
Context (base : list idRow) (lo : nat) (floors : list (nat * Z)).
(** That no source transaction reaches a cap. *)
Context (nocap : Prop) (Hclock : nocap → ∀ i j, e_now e j - e_now e i < e_maxOpen e).

Definition floors_ok (rows : list idRow) : Prop :=
  Forall (λ f, ∀ i r, rows !! i = Some r → (f.1 ≤ i)%nat → f.2 ≤ r.1) floors.

(** Whole transactions only: [C] is the rows of the first ones of [H]. *)
Definition whole (H : list (list Event)) (C : list Event) : Prop := nocap → ∃ j, C = concat (take j H).

(** The visible rows are the events [C]. *)
Record visible (s : St) (C : list Event) (rows : list idRow) : Prop := {
  vs_rows : st_rows s = base ++ rows;
  vs_C : rows.*2 = stored <$> C;
  vs_lo : (lo ≤ length C)%nat;
  vs_floor : floors_ok rows;
  vs_next : Forall (λ f, f.2 ≤ st_next s) floors;
  vs_first : st_first s ≤ st_next s;
}.

(** Visible are the first of the rows read, in order: those of complete
    transactions [H] and of the one being read, [cur]. *)
Definition durable (H : list (list Event)) (cur : list Event) (s : St) : Prop :=
  ∃ C rows, visible s C rows ∧ C `prefix_of` concat H ++ cur ∧ whole H C.

(** The batcher between two calls: every row read is visible ([C]), in the open
    index transaction ([T]) or in the batch, in this order; the batch starts
    with the rows of complete transactions. *)
Record core (H : list (list Event)) (cur C T : list Event) (rows open : list idRow) (s : St) : Prop := {
  co_vis : visible s C rows;
  co_whole : whole H C;
  co_all : C ++ T ++ b_batch (st_b s) = concat H ++ cur;
  co_T : open.*2 = stored <$> T;
  co_conn : st_open s = match b_tx (st_b s) with None => ∅ | Some c => {[c := open]} end;
  co_tx : match b_tx (st_b s) with
          | None => T = [] ∧ b_txRows (st_b s) = 0
          | Some _ => b_txRows (st_b s) = Z.of_nat (length T) ∧ (length (concat H) ≤ length C)%nat ∧
                      ∃ i, b_txBegan (st_b s) = e_now e i
          end;
  co_done : b_done (st_b s) = (length (concat H) - length C)%nat;
  co_floor : floors_ok (rows ++ open);
}.

Lemma floors_ok_app_l rows open : floors_ok (rows ++ open) → floors_ok rows.
Proof.
  intros H. eapply Forall_impl; [exact H|]. intros f Hf i r Hi. apply Hf, lookup_app_l_Some, Hi.
Qed.

Lemma core_prefix H cur C T rows open s : core H cur C T rows open s → C `prefix_of` concat H ++ cur.
Proof. intros Hc. rewrite <-(co_all _ _ _ _ _ _ _ Hc). apply prefix_app_r. done. Qed.

Lemma core_durable H cur C T rows open s : core H cur C T rows open s → durable H cur s.
Proof. intros Hc. exists C, rows. split_and!; eauto using core_prefix, co_vis, co_whole. Qed.

(** Statements that show nothing more leave what is shown. *)
Lemma visible_moved s s' C rows open : moved s s' [] open → visible s C rows → visible s' C rows.
Proof.
  intros [R O B N F _] [V1 V2 V3 V4 V5 V6]. rewrite app_nil_r in R. split; auto; [congruence|].
  eapply Forall_impl; [exact V5|]. simpl. lia.
Qed.

Lemma core_moved H cur C T rows open s s' :
  moved s s' [] (st_open s) → core H cur C T rows open s → core H cur C T rows open s'.
Proof.
  intros Hm [V W A HT K X D Fl]. pose proof (mv_b _ _ _ _ Hm) as B. pose proof (mv_open _ _ _ _ Hm) as O.
  split; rewrite ?B, ?O; try done. by eapply visible_moved.
Qed.

Lemma durable_moved H cur s s' open : moved s s' [] open → durable H cur s → durable H cur s'.
Proof. intros Hm (C & rows & HV & ?). exists C, rows. split; [by eapply visible_moved|done]. Qed.

(** The batcher's fields that [core] reads. *)
Definition same_fields (b b' : TxnBatcher) : Prop :=
  b_batch b' = b_batch b ∧ b_done b' = b_done b ∧ b_tx b' = b_tx b ∧
  b_txBegan b' = b_txBegan b ∧ b_txRows b' = b_txRows b.

Lemma core_fields H cur C T rows open s f : same_fields (st_b s) (f (st_b s)) →
  core H cur C T rows open s → core H cur C T rows open (set_b f s).
Proof.
  intros (E1 & E2 & E3 & E4 & E5) [[] W A HT K X D Fl].
  split; simpl; rewrite ?E1, ?E2, ?E3, ?E4, ?E5; done.
Qed.

(** The new rows of a statement lie above every floor. *)
Lemma floors_ok_app rows open new next : floors_ok (rows ++ open) → Forall (λ f, f.2 ≤ next) floors →
  Forall (λ r, next ≤ r.1) new → floors_ok (rows ++ open ++ new).
Proof.
  intros Hf Hn Hnew. apply Forall_forall. intros f Hin i r Hi Hk.
  rewrite app_assoc, lookup_app_Some in Hi. destruct Hi as [Hi|[_ Hi]].
  - eapply (proj1 (Forall_forall _ _) Hf f Hin); eauto.
  - apply (proj1 (Forall_forall _ _) Hn) in Hin.
    eapply Forall_lookup_1 in Hnew; [|exact Hi]. simpl in *. lia.
Qed.

Lemma core_done_le H cur C T rows open s : core H cur C T rows open s →
  (b_done (st_b s) ≤ length (b_batch (st_b s)))%nat ∧ (b_done (st_b s) ≠ 0%nat → b_tx (st_b s) = None).
Proof.
  intros [V W A HT K X D Fl]. apply (f_equal length) in A. rewrite !length_app in A.
  destruct (b_tx (st_b s)); [lia|]. destruct X as [-> _]. simpl in A. split; [lia|done].
Qed.

(** The complete rows of the batch finish the complete transactions. *)
Lemma core_complete H cur C T rows open s : core H cur C T rows open s → b_done (st_b s) ≠ 0%nat →
  C ++ take (b_done (st_b s)) (b_batch (st_b s)) = concat H ∧ T = [] ∧ open = [] ∧ st_open s = ∅ ∧
  drop (b_done (st_b s)) (b_batch (st_b s)) = cur.
Proof.
  intros Hc Hd. destruct (core_done_le _ _ _ _ _ _ _ Hc) as [Hle Htx]. specialize (Htx Hd).
  destruct Hc as [V W A HT K X D Fl]. rewrite Htx in X, K. destruct X as [-> _].
  apply fmap_nil_inv in HT as ->.
  simpl in A. set (n := b_done (st_b s)) in *.
  rewrite <-(take_drop n (b_batch (st_b s))), app_assoc in A.
  apply app_inj_1 in A as [A1 A2]; [done|]. rewrite length_app, length_take_le by done. lia.
Qed.

Definition binv (H : list (list Event)) (cur : list Event) (s : St) : Prop :=
  ∃ C T rows open, core H cur C T rows open s.

Lemma binv_durable H cur s : binv H cur s → durable H cur s.
Proof. intros (C & T & rows & open & Hc). eauto using core_durable. Qed.

Lemma binv_moved H cur s s' : moved s s' [] (st_open s) → binv H cur s → binv H cur s'.
Proof. intros Hm (C & T & rows & open & Hc). exists C, T, rows, open. by eapply core_moved. Qed.

Lemma binv_fields H cur s f : same_fields (st_b s) (f (st_b s)) → binv H cur s → binv H cur (set_b f s).
Proof. intros Hf (C & T & rows & open & Hc). exists C, T, rows, open. by apply core_fields. Qed.

Lemma visible_more s s' C rows X new open : visible s C rows → moved s s' new open →
  new.*2 = stored <$> X → visible s' (C ++ X) (rows ++ new).
Proof.
  intros [V1 V2 V3 V4 V5 V6] [R O B N F Nw] Hx. split.
  - by rewrite R, V1, app_assoc.
  - by rewrite !fmap_app, V2, Hx.
  - rewrite length_app. lia.
  - rewrite <-(app_nil_l new). eapply floors_ok_app; [by rewrite app_nil_r|exact V5|].
    eapply Forall_impl; [exact Nw|]. simpl. lia.
  - eapply Forall_impl; [exact V5|]. simpl. lia.
  - auto.
Qed.

Lemma whole_concat H : whole H (concat H).
Proof. intros _. exists (length H). by rewrite firstn_all. Qed.

(** Rows of complete transactions, written and committed together. *)
Lemma wp_write_complete H cur C T rows open s : core H cur C T rows open s → b_done (st_b s) ≠ 0%nat →
  let X := take (b_done (st_b s)) (b_batch (st_b s)) in
  wp (if (length X <=? BatchSize e)%nat then writeChunks e X (InsertBatch e) else write_together e X)
     (λ n s', n = Z.of_nat (length X) ∧ ∃ new, new.*2 = stored <$> X ∧ moved s s' new ∅)
     (durable H cur) s.
Proof.
  intros Hc Hd X. pose proof (core_complete _ _ _ _ _ _ _ Hc Hd) as (HC & -> & -> & Hopen & _).
  fold X in HC. pose proof (core_done_le _ _ _ _ _ _ _ Hc) as [Hle _].
  assert (durable H cur s) as Hdur by eauto using core_durable.
  assert (∀ s' new open, new.*2 = stored <$> X → moved s s' new open → durable H cur s') as Hland.
  { intros s' new o Hnew Hm. exists (C ++ X), (rows ++ new). split_and!.
    - eauto using visible_more, co_vis.
    - rewrite HC. by apply prefix_app_r.
    - rewrite HC. apply whole_concat. }
  destruct (length X <=? BatchSize e)%nat eqn:Hlen.
  - eapply wp_mono; [apply wp_writeChunks_pool|..]; simpl.
    + split; [|by apply Nat.leb_le]. subst X. rewrite length_take_le by done. lia.
    + intros n s' (-> & new & Hnew & Hm). rewrite Hopen in Hm. eauto.
    + intros s' (new & [->|Hnew] & Hm); [by eapply durable_moved|eauto].
  - unfold write_together. wp_step. apply wp_try. eapply wp_mono; [apply wp_Begin|..]; simpl.
    2:{ intros s1 Hm err. unfold emit. wp_steps. eapply durable_moved, Hdur.
        eapply moved_quiet, moved_hook. exact Hm. }
    intros c s1 Hm1. rewrite Hopen in Hm1.
    assert (st_open s1 !! c = Some []) as Hc1 by (rewrite (mv_open _ _ _ _ Hm1); apply lookup_insert_eq).
    wp_step. apply wp_try. eapply wp_mono; [by apply wp_writeChunks_tx|..]; simpl.
    + intros n s2 (-> & new & Hnew & Hids & Hm2). rewrite (mv_open _ _ _ _ Hm1) in Hm2. simpl in Hm2.
      rewrite insert_insert_eq in Hm2.
      assert (st_open s2 !! c = Some new) as Hc2 by (rewrite (mv_open _ _ _ _ Hm2); apply lookup_insert_eq).
      pose proof (moved_trans _ _ _ _ _ _ _ Hm1 Hm2) as Hm. simpl in Hm.
      pose proof (mv_next _ _ _ _ Hm1). 
      wp_step. wp_step. apply wp_try. eapply wp_mono; [by apply wp_Commit|..]; simpl.
      * intros _ s3 (R3 & O3 & B3 & N3 & F3). wp_steps. apply wp_Rollback. intros s4 Hm4.
        apply wp_of; [|by intros ? [=]]. intros ? [= <-]. split; [done|]. exists new. split; [done|].
        destruct Hm as [R O B N F _], Hm4 as [R4 O4 B4 N4 F4 _]. rewrite app_nil_r in *.
        split; [congruence| |congruence|lia|intros; apply F4; rewrite F3, N3; auto|].
        -- rewrite O4, O3, O, delete_insert_eq, !delete_empty. done.
        -- eapply Forall_range_weaken, Hids; lia.
      * intros s3 (R3 & O3 & B3 & N3 & F3) err. unfold emit. wp_steps. apply wp_Rollback. intros s4 Hm4.
        apply wp_of; [by intros ? [=]|]. intros _ _.
        destruct Hm as [R O B N F _], Hm4 as [R4 O4 B4 N4 F4 _]. simpl in *. rewrite app_nil_r in *.
        destruct R3 as [R3|R3].
        -- eapply durable_moved, Hdur. instantiate (1 := st_open s4).
           split; rewrite ?app_nil_r; [congruence|done|congruence|lia|intros; apply F4; rewrite F3, N3; auto|constructor].
        -- eapply (Hland s4 new (st_open s4) Hnew).
           split; [congruence|done|congruence|lia|intros; apply F4; rewrite F3, N3; auto|].
           eapply Forall_range_weaken, Hids; lia.
    + intros s2 (new & Hm2) err. wp_steps. apply wp_Rollback. intros s4 Hm4. apply wp_of; [by intros ? [=]|].
      intros _ _. eapply durable_moved, Hdur.
      exact (moved_quiet _ _ _ _ _ Hm1 (moved_quiet _ _ _ _ _ Hm2 Hm4)).
Qed.

(** [CommitComplete] shows the rows of every complete transaction. *)
Lemma wp_CommitComplete H cur s : binv H cur s →
  wp (CommitComplete e)
     (λ _ s', binv H cur s' ∧ b_done (st_b s') = 0%nat ∧ b_inTxn (st_b s') = b_inTxn (st_b s) ∧
        b_tx (st_b s') = b_tx (st_b s))
     (durable H cur) s.
Proof.
  intros Hb. pose proof (binv_moved H cur s (bump s) (moved_bump s) Hb) as (C & T & rows & open & Hc).
  unfold CommitComplete. wp_step. apply wp_stopped; [|by eauto using core_durable].
  pose proof (core_done_le _ _ _ _ _ _ _ Hc) as [Hle _]. set (s0 := bump s) in *.
  wp_steps. destruct (_ =? 0)%nat eqn:Hz; wp_steps.
  { apply Nat.eqb_eq in Hz. rewrite length_take_le in Hz by done. split; [by eexists _, _, _, _|]. auto. }
  apply Nat.eqb_neq in Hz. rewrite length_take_le in Hz by done.
  eapply wp_mono; [apply (wp_write_complete H cur C T rows open s0 Hc Hz)|..]; [|done].
  intros n s1 (-> & new & Hnew & Hm). unfold emit. wp_steps.
  pose proof (core_complete _ _ _ _ _ _ _ Hc Hz) as (HC & -> & -> & Hopen & Hcur).
  rewrite (mv_b _ _ _ _ Hm). split; [|done].
  exists (concat H), [], (rows ++ new), [].
  assert (visible s1 (C ++ take (b_done (st_b s0)) (b_batch (st_b s0))) (rows ++ new)) as HV
    by eauto using visible_more, co_vis.
  rewrite HC in HV. destruct (core_done_le _ _ _ _ _ _ _ Hc) as [_ Htx]. specialize (Htx Hz).
  pose proof (co_tx _ _ _ _ _ _ _ Hc) as Hx. rewrite Htx in Hx.
  split; simpl; rewrite ?(mv_b _ _ _ _ Hm), ?Htx, ?app_nil_r.
  - destruct HV. by split.
  - apply whole_concat.
  - by rewrite Hcur.
  - done.
  - apply (mv_open _ _ _ _ Hm).
  - by split; [|apply Hx].
  - lia.
  - apply HV.
Qed.

Lemma core_done0 H cur C T rows open s : core H cur C T rows open s → b_done (st_b s) = 0%nat →
  (length (concat H) ≤ length C)%nat.
Proof. intros Hc Hd. pose proof (co_done _ _ _ _ _ _ _ Hc). lia. Qed.

Lemma wp_open_tx H cur C T rows open s : core H cur C T rows open s → b_done (st_b s) = 0%nat →
  b_tx (st_b s) = None →
  wp (open_tx e)
     (λ c s', core H cur C T rows open s' ∧ b_tx (st_b s') = Some c ∧ b_batch (st_b s') = b_batch (st_b s) ∧
        b_done (st_b s') = 0%nat ∧ b_inTxn (st_b s') = b_inTxn (st_b s) ∧ st_next s ≤ st_next s')
     (λ s', visible s' C rows) s.
Proof.
  intros Hc Hd Htx. pose proof (core_done0 _ _ _ _ _ _ _ Hc Hd) as Hlen.
  pose proof Hc as [V W A HT K X D Fl]. rewrite Htx in K, X. destruct X as [-> Hr].
  apply fmap_nil_inv in HT as ->.
  unfold open_tx. wp_step. apply wp_try. eapply wp_mono; [apply wp_Begin|..]; simpl.
  - intros c s1 Hm. pose proof (visible_moved _ _ _ _ _ Hm V) as V1. destruct Hm as [R O B N F _].
    wp_step. apply wp_now. unfold emit. wp_steps. rewrite B. split_and!; try done.
    split; simpl; rewrite ?B; try done.
    + destruct V1. by split.
    + by rewrite O, K, insert_empty.
    + rewrite Hr. eauto.
  - intros s1 Hm err. unfold emit. wp_steps. eapply visible_moved, V.
    eapply moved_quiet, moved_hook. exact Hm.
Qed.

(** [spill] moves the batch into the open index transaction. *)
Lemma wp_spill H cur C T rows open s : core H cur C T rows open s → b_done (st_b s) = 0%nat →
  wp (spill e)
     (λ _ s', ∃ new, core H cur C (T ++ b_batch (st_b s)) rows (open ++ new) s' ∧ b_batch (st_b s') = [] ∧
        b_done (st_b s') = 0%nat ∧ b_inTxn (st_b s') = b_inTxn (st_b s) ∧
        (b_tx (st_b s) ≠ None → b_tx (st_b s') ≠ None))
     (λ s', visible s' C rows) s.
Proof.
  intros Hc Hd. unfold spill. wp_step.
  apply wp_stopped; [|eapply visible_moved; [apply moved_bump|by eapply co_vis]].
  apply (core_moved _ _ _ _ _ _ _ (bump s) (moved_bump s)) in Hc. set (s0 := bump s) in *.
  wp_steps. change (st_b s) with (st_b s0) in *. destruct (_ =? 0)%nat eqn:Hz; wp_steps.
  { apply Nat.eqb_eq, nil_length_inv in Hz. exists []. change (st_b s) with (st_b s0). rewrite Hz, !app_nil_r. auto. }
  assert (wp (match b_tx (st_b s0) with Some c => io_ret c | None => open_tx e end)
    (λ c s', core H cur C T rows open s' ∧ b_tx (st_b s') = Some c ∧ b_batch (st_b s') = b_batch (st_b s0) ∧
        b_done (st_b s') = 0%nat ∧ b_inTxn (st_b s') = b_inTxn (st_b s0) ∧ st_next s0 ≤ st_next s')
    (λ s', visible s' C rows) s0) as Hopen.
  { destruct (b_tx (st_b s0)) as [c|] eqn:Htx; [|by apply wp_open_tx].
    wp_steps. split_and!; auto; lia. }
  eapply wp_mono; [exact Hopen|..]; [|done]. simpl.
  intros c s1 (Hc1 & Htx & Hb & Hd1 & Hin & _). pose proof Hc1 as [V W A HT K X D Fl].
  rewrite Htx in K, X. destruct X as (Hr & Hlen & Hbegan).
  wp_step. rewrite <-Hb. eapply wp_mono; [apply (wp_writeChunks_tx _ c open)|..]; simpl.
  - rewrite K. apply lookup_singleton_eq.
  - intros n s2 (-> & new & Hnew & Hids & Hm). wp_steps. exists new.
    pose proof (visible_moved _ _ _ _ _ Hm V) as V2. destruct Hm as [R O B N F _].
    rewrite B. split_and!; try done; [|by rewrite Htx].
    split; simpl; rewrite ?B, ?Htx.
    + destruct V2. by split.
    + done.
    + by rewrite app_nil_r.
    + by rewrite !fmap_app, HT, Hnew.
    + rewrite O, K. by rewrite insert_singleton_eq.
    + rewrite Hr, length_app. split; [lia|done].
    + done.
    + eapply floors_ok_app; [done|by eapply (vs_next _ _ _ V)|].
      eapply Forall_impl; [exact Hids|]. simpl. lia.
  - intros s2 (new & Hm). eapply visible_moved; [exact Hm|done].
Qed.

(** [commitTx] shows every row read. *)
Lemma wp_commitTx H cur C T rows open s : core H cur C T rows open s → b_tx (st_b s) ≠ None →
  wp (commitTx e)
     (λ _ s', ∃ rows', visible s' (concat H ++ cur) rows' ∧ st_open s' = ∅ ∧ b_batch (st_b s') = [] ∧
        b_done (st_b s') = 0%nat ∧ b_tx (st_b s') = None ∧ b_txRows (st_b s') = 0 ∧
        b_inTxn (st_b s') = b_inTxn (st_b s))
     (λ s', visible s' C rows ∨ ∃ rows', visible s' (concat H ++ cur) rows') s.
Proof.
  intros Hc Htx. assert (b_done (st_b s) = 0%nat) as Hd.
  { pose proof (core_done_le _ _ _ _ _ _ _ Hc) as [_ Hn].
    destruct (b_done (st_b s)); [done|]. by specialize (Hn ltac:(done)). }
  unfold commitTx. wp_step. eapply wp_mono; [by apply (wp_spill _ _ _ _ _ _ _ Hc)|..]; simpl; [|auto].
  intros _ s1 (new & Hc1 & Hb1 & Hd1 & Hin1 & Htx1). specialize (Htx1 Htx). wp_steps.
  destruct (b_tx (st_b s1)) as [c|] eqn:Etx; [|done].
  wp_step. apply wp_stopped.
  2:{ left. eapply visible_moved; [apply moved_bump|]. by eapply co_vis. }
  apply (core_moved _ _ _ _ _ _ _ (bump s1) (moved_bump s1)) in Hc1. set (s2 := bump s1) in *.
  pose proof Hc1 as [V W A HT K X D Fl]. change (st_b s2) with (st_b s1) in *.
  rewrite Etx in K, X. rewrite Hb1, app_nil_r in A.
  assert (∀ s', st_rows s' = st_rows s2 ++ open ++ new → st_next s' = st_next s2 → st_first s' = st_first s2 →
    visible s' (concat H ++ cur) (rows ++ open ++ new)) as Hvis.
  { intros s' R N F. rewrite <-A. destruct V as [V1 V2 V3 V4 V5 V6]. split.
    - by rewrite R, V1, <-app_assoc.
    - by rewrite fmap_app, V2, HT, <-fmap_app.
    - rewrite length_app. lia.
    - done.
    - by rewrite N.
    - by rewrite N, F. }
  wp_step. apply wp_try. eapply wp_mono; [apply (wp_Commit _ c (open ++ new))|..]; simpl.
  - change (st_open s2 !! c = Some (open ++ new)). rewrite K. apply lookup_singleton_eq.
  - intros _ s3 (R3 & O3 & B3 & N3 & F3). unfold emit. wp_steps.
    exists (rows ++ open ++ new). rewrite B3. simpl. split_and!; try done.
    + apply Hvis; done.
    + rewrite O3. change (delete c (st_open s2) = ∅). by rewrite K, delete_singleton_eq.
  - intros s3 (R3 & O3 & B3 & N3 & F3) err. unfold emit. wp_steps.
    destruct R3 as [R3|R3].
    + left. destruct V as [V1 V2 V3 V4 V5 V6]. split; simpl; rewrite ?R3, ?N3, ?F3; done.
    + right. exists (rows ++ open ++ new). apply Hvis; done.
Qed.

Lemma binv_all H cur s rows : visible s (concat H ++ cur) rows → whole H (concat H ++ cur) →
  st_open s = ∅ → b_batch (st_b s) = [] → b_done (st_b s) = 0%nat → b_tx (st_b s) = None →
  b_txRows (st_b s) = 0 → binv H cur s.
Proof.
  intros V W O B D X R. exists (concat H ++ cur), [], rows, []. split; rewrite ?B, ?X, ?D; simpl; try done.
  - by rewrite app_nil_r.
  - rewrite length_app. lia.
  - rewrite app_nil_r. by eapply vs_floor.
Qed.

(** [OnCap] splits the transaction being read, or does nothing. *)
Lemma wp_OnCap H cur s : binv H cur s → (nocap → Z.of_nat (length cur) < e_maxRows e) →
  wp (OnCap e) (λ _ s', binv H cur s' ∧ b_inTxn (st_b s') = b_inTxn (st_b s)) (durable H cur) s.
Proof.
  intros (C & T & rows & open & Hc) Hmax. unfold OnCap. wp_steps.
  assert (∃ s', moved s s' [] (st_open s) ∧ ∃ o, cap_reached e (st_b s) s = (inl o, s') ∧
    (o ≠ None → b_tx (st_b s) ≠ None ∧ ¬ nocap)) as (s1 & Hm & o & Ho & Hcap).
  { unfold cap_reached. pose proof (co_tx _ _ _ _ _ _ _ Hc) as Hx.
    destruct (b_tx (st_b s)) as [c|] eqn:Htx.
    2:{ exists s. split; [apply moved_refl|]. exists None. split; [reflexivity|]. intros Hf. by destruct Hf. }
    destruct Hx as (Hr & Hlen & i & Hb). destruct (e_maxRows e <=? b_txRows (st_b s)) eqn:Hrows.
    - exists s. split; [apply moved_refl|]. eexists. split; [reflexivity|]. intros _. split; [done|].
      intros Hn. specialize (Hmax Hn). 
      pose proof (f_equal length (co_all _ _ _ _ _ _ _ Hc)) as HA'. rewrite !length_app in HA'. lia.
    - exists (bump s). split; [apply moved_bump|]. eexists. split; [reflexivity|].
      destruct (e_maxOpen e <=? _) eqn:Ht; [|intros Hf; by destruct Hf]. intros _. split; [done|]. intros Hn.
      pose proof (Hclock Hn i (st_calls s)). lia. }
  unfold wp at 1. rewrite Ho. apply (core_moved _ _ _ _ _ _ _ _ Hm) in Hc. rewrite <-(mv_b _ _ _ _ Hm) in *.
  destruct o as [why|]; wp_steps; [|by split; [eexists _, _, _, _|]].
  destruct (Hcap ltac:(done)) as [Htx Hn]. apply wp_now. wp_step.
  apply (core_moved _ _ _ _ _ _ _ _ (moved_bump s1)) in Hc.
  eapply wp_mono; [by apply (wp_commitTx _ _ _ _ _ _ _ Hc)|..]; simpl.
  - intros _ s2 (rows' & V & O & B & D & X & R & I). unfold emit. wp_steps. split; [|done].
    apply (binv_all H cur _ rows'); simpl; try done; [|by intros ?].
    destruct V. by split.
  - intros s2 [V|[rows' V]]; [exists C, rows|exists (concat H ++ cur), rows']; (split; [done|]); split;
      [by eapply core_prefix|by eapply co_whole|done|by intros ?].
Qed.

Lemma visible_durable H cur C rows s : visible s C rows → C `prefix_of` concat H ++ cur → whole H C →
  durable H cur s.
Proof. intros. by exists C, rows. Qed.

Lemma wp_Add H cur ev s : binv H cur s → (nocap → Z.of_nat (length (cur ++ [ev])) < e_maxRows e) →
  wp (Add e ev) (λ _ s', binv H (cur ++ [ev]) s' ∧ b_inTxn (st_b s') = true) (durable H (cur ++ [ev])) s.
Proof.
  intros (C & T & rows & open & [V W A HT K X D Fl]) Hmax. unfold Add. wp_step. wp_step.
  set (s0 := set_b _ s). assert (binv H (cur ++ [ev]) s0 ∧ b_inTxn (st_b s0) = true) as [Hb Hin].
  { split; [|done]. exists C, T, rows, open. split; simpl; try done; [by destruct V; split|].
    by rewrite !app_assoc, <-A, <-!app_assoc. }
  clearbody s0. clear - Hb Hin Hmax Hclock.
  wp_steps. eapply (wp_mono _ (λ _ s', binv H (cur ++ [ev]) s' ∧ b_inTxn (st_b s') = true));
    [|intros _ s1 [Hb1 Hin1]; eapply wp_mono; [by apply wp_OnCap|..]|done]; simpl.
  - destruct (_ <=? _)%nat; [|by wp_steps]. wp_step.
    eapply wp_mono; [by apply wp_CommitComplete|..]; simpl; [|done].
    intros _ s1 ((C1 & T1 & rows1 & open1 & Hc1) & Hd & Hin1 & _).
    eapply wp_mono; [by apply (wp_spill _ _ _ _ _ _ _ Hc1)|..]; simpl.
    + intros _ s2 (new & Hc2 & _ & _ & Hin2 & _). split; [by eexists _, _, _, _|congruence].
    + eauto using visible_durable, core_prefix, co_whole.
  - intros _ s2 [? ->]. done.
  - done.
Qed.

Lemma whole_snoc H cur C : whole H C → whole (H ++ [cur]) C.
Proof.
  intros W Hn. destruct (W Hn) as [j ->]. exists (j `min` length H)%nat.
  by rewrite take_app_le, <-take_take, firstn_all by lia.
Qed.

Lemma wp_End H cur s : binv H cur s →
  wp (End_ e) (λ _ s', binv (H ++ [cur]) [] s' ∧ b_inTxn (st_b s') = false) (durable (H ++ [cur]) []) s.
Proof.
  intros (C & T & rows & open & Hc). unfold End_. wp_step. wp_step.
  set (s0 := set_b _ s). assert (core H cur C T rows open s0) as Hc0 by (by apply core_fields).
  assert (b_inTxn (st_b s0) = false) as Hin by done. clearbody s0. clear s Hc. wp_steps.
  assert (concat (H ++ [cur]) ++ [] = concat H ++ cur) as Hcat by (by rewrite app_nil_r, concat_snoc).
  destruct (b_tx (st_b s0)) as [c|] eqn:Htx.
  - eapply wp_mono; [apply (wp_commitTx _ _ _ _ _ _ _ Hc0); by rewrite Htx|..]; simpl.
    + intros _ s1 (rows' & V & O & B & D & X & R & I). split; [|congruence].
      apply (binv_all _ _ _ rows'); try done; [by rewrite Hcat|]. rewrite app_nil_r. apply whole_concat.
    + intros s1 [V|[rows' V]]; eapply visible_durable; try exact V; rewrite ?Hcat.
      * by eapply core_prefix.
      * by eapply whole_snoc, co_whole.
      * done.
      * rewrite <-concat_snoc. apply whole_concat.
  - wp_step. wp_step. set (s1 := set_b _ s0).
    assert (binv (H ++ [cur]) [] s1 ∧ b_inTxn (st_b s1) = false) as [Hb Hin1].
    { split; [|done]. destruct Hc0 as [V W A HT K X D Fl]. rewrite Htx in X, K. destruct X as [-> R].
      exists C, [], rows, open. split; simpl; rewrite ?Hcat, ?Htx; try done.
      - by destruct V; split.
      - by apply whole_snoc.
      - rewrite concat_snoc, <-A. simpl. rewrite length_app. lia. }
    destruct (_ <=? _)%nat; wp_steps; [|done].
    eapply wp_mono; [by apply wp_CommitComplete|..]; [|done]. intros _ s2 (? & _ & I & _). split; congruence.
Qed.

Lemma wp_Close H cur s : durable H cur s → wp (Close e) (λ _ s', durable H cur s') (λ _, False) s.
Proof.
  intros Hd. unfold Close. wp_steps. destruct (b_tx (st_b s)); wp_steps; [|done].
  apply wp_Rollback. intros s1 Hm. wp_steps. eapply durable_moved in Hd; [|exact Hm].
  destruct Hd as (C & rows & [] & ?). exists C, rows. by split.
Qed.

(** [Discard] forgets the rows of the transaction being read, parts of it
    already split off apart. *)
Lemma wp_Discard H cur s : binv H cur s →
  wp (Discard e) (λ _ s', (∃ cur', cur' `prefix_of` cur ∧ binv H cur' s') ∧ b_inTxn (st_b s') = false)
     (λ _, False) s.
Proof.
  intros (C & T & rows & open & Hc). unfold Discard. wp_steps. unfold Close. wp_steps.
  pose proof (core_done_le _ _ _ _ _ _ _ Hc) as [Hle Hn].
  assert (∃ cur', cur' `prefix_of` cur ∧ C ++ take (b_done (st_b s)) (b_batch (st_b s)) = concat H ++ cur')
    as (cur' & Hpre & Hall).
  { destruct (decide (b_done (st_b s) = 0%nat)) as [E|E].
    - pose proof (core_done0 _ _ _ _ _ _ _ Hc E) as Hlen. pose proof (core_prefix _ _ _ _ _ _ _ Hc) as Hp.
      rewrite E, take_0, app_nil_r. destruct Hp as [k Hk].
      destruct (prefix_weak_total (concat H) C (concat H ++ cur)) as [[k' ->]|Hp].
      + by apply prefix_app_r.
      + by exists k.
      + exists k'. split; [|done]. rewrite <-app_assoc in Hk. apply app_inv_head in Hk as ->. by apply prefix_app_r.
      + apply prefix_length in Hp as Hl. exists []. split; [apply prefix_nil|]. rewrite app_nil_r.
        apply prefix_length_eq; [done|lia].
    - exists []. split; [apply prefix_nil|]. rewrite app_nil_r. by apply (core_complete _ _ _ _ _ _ _ Hc). }
  destruct Hc as [V W A HT K X D Fl].
  assert (∀ s', visible s' C rows → st_open s' = ∅ → b_tx (st_b s') = None → b_txRows (st_b s') = 0 →
    b_batch (st_b s') = take (b_done (st_b s)) (b_batch (st_b s)) → b_done (st_b s') = b_done (st_b s) →
    binv H cur' s') as Hb.
  { intros s' V' O' X' R' B' D'. exists C, [], rows, []. split; rewrite ?X', ?B', ?D'; simpl; try done.
    rewrite app_nil_r. by eapply vs_floor. }
  destruct (b_tx (st_b s)) as [c|] eqn:Htx; wp_steps.
  - apply wp_Rollback. intros s1 Hm. wp_steps. pose proof (mv_b _ _ _ _ Hm) as B1. simpl in B1.
    rewrite B1. simpl. split; [|done]. exists cur'. split; [done|]. apply Hb; simpl; rewrite ?B1; try done.
    + assert (visible s1 C rows) as V1.
      { eapply visible_moved; [exact Hm|]. by destruct V; split. }
      by destruct V1; split.
    + rewrite (mv_open _ _ _ _ Hm). simpl. by rewrite K, delete_singleton_eq.
  - split; [|done]. exists cur'. split; [done|]. apply Hb; simpl; try done; [by destruct V; split|]. by destruct X.
Qed.
End invariant.

(** The bounds of [core] may be changed between two calls. *)
Lemma core_refloor e base lo lo' fl fl' nocap H cur C T rows open s :
  core e base lo fl nocap H cur C T rows open s → (lo' ≤ length C)%nat → floors_ok fl' (rows ++ open) →
  Forall (λ f, f.2 ≤ st_next s) fl' → core e base lo' fl' nocap H cur C T rows open s.
Proof.
  intros [[V1 V2 V3 V4 V5 V6] W A HT K X D Fl] Hlo Hfl Hn. split; try done. split; try done.
  by eapply floors_ok_app_l.
Qed.

Lemma durable_refloor base lo lo' fl fl' nocap H cur H' cur' s :
  durable base lo fl nocap H cur s → (lo' ≤ lo)%nat → fl' ⊆ fl →
  concat H ++ cur `prefix_of` concat H' ++ cur' → (∀ C, whole nocap H C → whole nocap H' C) →
  durable base lo' fl' nocap H' cur' s.
Proof.
  intros (C & rows & [V1 V2 V3 V4 V5 V6] & Hp & W) Hlo Hfl Hpre Hw. exists C, rows.
  split; [|split; [by etrans|auto]]. split; auto; [lia|..].
  - apply Forall_forall. intros f Hf. eapply (proj1 (Forall_forall _ _) V4), Hfl, Hf.
  - apply Forall_forall. intros f Hf. eapply (proj1 (Forall_forall _ _) V5), Hfl, Hf.
Qed.
