(* ===== verification/StreamRun.v ===== *)
(** * The capture loop of a MySQL or MariaDB source

    Models [internal/streamrun]: [streamLoop], which feeds the events the parser
    sends to the writer of [TxnBatch] and saves checkpoints, the resume-time
    cleanup that removes what a dead run wrote beyond its checkpoint, and the
    restart of a run from its checkpoint. A system is a run and the durable
    state it leaves (the table [binlog_events] and the row of [stream_state]);
    it may crash between any two steps, lose any statement's answer, and be
    resumed any number of times. The source's log, a GTID set of go-mysql and
    what a resumed replication stream delivers are arguments. *)
From S2P Require Import Prelude GoStrings GoTime GoVal GoIO Event Rows TxnBatch.
#[local] Open Scope Z_scope.

(** A GTID set: [empty], [Update], which fails on a malformed GTID, and
    [Contain] of the set a single GTID text parses to (a text that does not
    parse is in no set). *)
Class GTIDSet (G : Type) := {
  gs_empty : G;
  gs_update : string → G → option G;
  gs_contain : G → string → bool;
}.

Section stream.
Context {G : Type} `{GTIDSet G} (e : Env).

(** ** State *)

Record streamState := {
  ss_mode : string;
  ss_binlogFile : string;
  ss_binlogPos : N;
  ss_safeFile : string;
  ss_safePos : N;
  ss_dedupFloorID : Z;
  ss_gtidSet : option G;          (* the set as last serialized; [None] is "" *)
  ss_eventsIndexed : Z;
  ss_lastEventTime : option Z;
  ss_lastSaveErr : bool;
  ss_caughtUpReadAt : Z;
  ss_accGTID : option G;          (* nil in position mode *)
}.

(** The row of [stream_state]. *)
Record checkpointRow := {
  ck_mode : string;
  ck_file : string;
  ck_pos : N;
  ck_gtidSet : option G;
  ck_eventsIndexed : Z;
  ck_lastEventTime : option Z;
  ck_caughtUpAt : option Z;
  ck_dedupFloor : option Z;
}.

Record run := {
  rn_st : St;
  rn_ss : streamState;
  rn_ddlClaimed : bool;
  rn_ck : option checkpointRow;
}.

Abbreviation R := (io run WErr).

(** Rows the [Published] hook reported between two states of its log. *)
Definition published_since (old new : list hook) : Z :=
  foldr (λ h n, match h with HPublished k _ => k + n | _ => n end) 0 (drop (length old) new).

Definition after (r : run) (s : St) : run := {|
  rn_st := s;
  rn_ss := {|
    ss_mode := ss_mode (rn_ss r); ss_binlogFile := ss_binlogFile (rn_ss r); ss_binlogPos := ss_binlogPos (rn_ss r);
    ss_safeFile := ss_safeFile (rn_ss r); ss_safePos := ss_safePos (rn_ss r);
    ss_dedupFloorID := ss_dedupFloorID (rn_ss r); ss_gtidSet := ss_gtidSet (rn_ss r);
    ss_eventsIndexed := ss_eventsIndexed (rn_ss r) + published_since (st_hooks (rn_st r)) (st_hooks s);
    ss_lastEventTime := ss_lastEventTime (rn_ss r); ss_lastSaveErr := ss_lastSaveErr (rn_ss r);
    ss_caughtUpReadAt := ss_caughtUpReadAt (rn_ss r); ss_accGTID := ss_accGTID (rn_ss r) |};
  rn_ddlClaimed := rn_ddlClaimed r;
  rn_ck := rn_ck r |}.

(** A call of the writer. *)
Definition lift {A} (m : W A) : R A := λ r, let '(x, s) := m (rn_st r) in (x, after r s).

Definition set_ss (f : streamState → streamState) (r : run) : run := {|
  rn_st := rn_st r; rn_ss := f (rn_ss r); rn_ddlClaimed := rn_ddlClaimed r; rn_ck := rn_ck r |}.
Definition set_claimed (b : bool) (r : run) : run := {|
  rn_st := rn_st r; rn_ss := rn_ss r; rn_ddlClaimed := b; rn_ck := rn_ck r |}.
Definition set_ck (ck : checkpointRow) (r : run) : run := {|
  rn_st := rn_st r; rn_ss := rn_ss r; rn_ddlClaimed := rn_ddlClaimed r; rn_ck := Some ck |}.

(** ** Checkpoints *)

Definition noteDedupFloor (id : Z) (s : streamState) : streamState := {|
  ss_mode := ss_mode s; ss_binlogFile := ss_binlogFile s; ss_binlogPos := ss_binlogPos s;
  ss_safeFile := ss_safeFile s; ss_safePos := ss_safePos s;
  ss_dedupFloorID := if ss_dedupFloorID s <? id then id else ss_dedupFloorID s;
  ss_gtidSet := ss_gtidSet s; ss_eventsIndexed := ss_eventsIndexed s; ss_lastEventTime := ss_lastEventTime s;
  ss_lastSaveErr := ss_lastSaveErr s; ss_caughtUpReadAt := ss_caughtUpReadAt s; ss_accGTID := ss_accGTID s |}.

Definition checkpointPosition (s : streamState) : string * N :=
  if bool_decide (ss_mode s = "position") && negb (bool_decide (ss_safeFile s = ""))
  then (ss_safeFile s, ss_safePos s) else (ss_binlogFile s, ss_binlogPos s).

Definition isPositionCheckpointBoundary (ev : Event) : bool :=
  ((ev_EventType ev =? EventCommit) || (ev_EventType ev =? EventDDL))%N.

(** The row [saveCheckpoint] leaves over the one before it. The caught-up time
    is kept when there is no new one. *)
Definition checkpoint_row (s : streamState) (before : option checkpointRow) : checkpointRow := {|
  ck_mode := ss_mode s;
  ck_file := (checkpointPosition s).1;
  ck_pos := (checkpointPosition s).2;
  ck_gtidSet := ss_gtidSet s;
  ck_eventsIndexed := ss_eventsIndexed s;
  ck_lastEventTime := ss_lastEventTime s;
  ck_caughtUpAt := if ss_caughtUpReadAt s =? 0 then before ≫= ck_caughtUpAt else Some (ss_caughtUpReadAt s);
  ck_dedupFloor := if 0 <? ss_dedupFloorID s then Some (ss_dedupFloorID s) else None |}.

Definition saveCheckpoint : R unit :=
  '(o, _) ←! lift (call e);
  r ←! io_get;
  let ck := checkpoint_row (rn_ss r) (rn_ck r) in
  match o with
  | Done => io_mod (set_ck ck)
  | Refused => io_fail EInsert
  | DoneUnseen => do! io_mod (set_ck ck); io_fail EInsert
  end.

(** What [checkpoint] does with the save's result. *)
Definition saved_or_not (failed : bool) (s : streamState) : streamState := {|
  ss_mode := ss_mode s; ss_binlogFile := ss_binlogFile s; ss_binlogPos := ss_binlogPos s;
  ss_safeFile := ss_safeFile s; ss_safePos := ss_safePos s; ss_dedupFloorID := ss_dedupFloorID s;
  ss_gtidSet := ss_gtidSet s; ss_eventsIndexed := ss_eventsIndexed s; ss_lastEventTime := ss_lastEventTime s;
  ss_lastSaveErr := failed; ss_caughtUpReadAt := if failed then ss_caughtUpReadAt s else 0;
  ss_accGTID := ss_accGTID s |}.

Definition checkpoint : R unit :=
  do! lift (CommitComplete e);
  res ←! io_try saveCheckpoint;
  io_mod (set_ss (saved_or_not match res with inl _ => false | inr _ => true end)).

(** ** The loop *)

Definition stop : R unit :=
  do! lift (stopped e);
  r ←! io_get;
  do! (if InTxn (st_b (rn_st r)) then
         if rn_ddlClaimed r then lift (End_ e) else do! lift (Discard e); io_ret tt
       else io_ret tt);
  checkpoint.

Definition advanceGTID (gtid : string) : R unit :=
  r ←! io_get;
  match ss_accGTID (rn_ss r) with
  | None => io_ret tt
  | Some acc =>
      if bool_decide (gtid = "") then io_ret tt
      else match gs_update gtid acc with
           | None => io_ret tt
           | Some acc' =>
               io_mod (set_ss (λ s, noteDedupFloor (st_first (rn_st r)) {|
                 ss_mode := ss_mode s; ss_binlogFile := ss_binlogFile s; ss_binlogPos := ss_binlogPos s;
                 ss_safeFile := ss_safeFile s; ss_safePos := ss_safePos s; ss_dedupFloorID := ss_dedupFloorID s;
                 ss_gtidSet := Some acc'; ss_eventsIndexed := ss_eventsIndexed s;
                 ss_lastEventTime := ss_lastEventTime s; ss_lastSaveErr := ss_lastSaveErr s;
                 ss_caughtUpReadAt := ss_caughtUpReadAt s; ss_accGTID := Some acc' |}))
           end
  end.

(** The position tracking at the top of the loop's event case; [first] is
    [FirstIDOfLastBatch]. *)
Definition track (ev : Event) (first : Z) (s : streamState) : streamState :=
  let file := if bool_decide (ev_BinlogFile ev = "") then ss_binlogFile s else ev_BinlogFile ev in
  let boundary := isPositionCheckpointBoundary ev in
  let s' := {|
    ss_mode := ss_mode s; ss_binlogFile := file; ss_binlogPos := ev_EndPos ev;
    ss_safeFile := if boundary then file else ss_safeFile s;
    ss_safePos := if boundary then ev_EndPos ev else ss_safePos s;
    ss_dedupFloorID := ss_dedupFloorID s; ss_gtidSet := ss_gtidSet s; ss_eventsIndexed := ss_eventsIndexed s;
    ss_lastEventTime := if ev_Timestamp ev =? 0 then ss_lastEventTime s else Some (ev_Timestamp ev);
    ss_lastSaveErr := ss_lastSaveErr s; ss_caughtUpReadAt := ss_caughtUpReadAt s; ss_accGTID := ss_accGTID s |} in
  if boundary && bool_decide (ss_mode s = "position") then noteDedupFloor first s' else s'.

(** The marker of an idle source, which carries no position. *)
Definition on_caught_up (ev : Event) : R unit :=
  r ←! io_get;
  if negb (InTxn (st_b (rn_st r))) && negb (ev_ReadAt ev =? 0)
  then io_mod (set_ss (λ s, {|
    ss_mode := ss_mode s; ss_binlogFile := ss_binlogFile s; ss_binlogPos := ss_binlogPos s;
    ss_safeFile := ss_safeFile s; ss_safePos := ss_safePos s; ss_dedupFloorID := ss_dedupFloorID s;
    ss_gtidSet := ss_gtidSet s; ss_eventsIndexed := ss_eventsIndexed s; ss_lastEventTime := ss_lastEventTime s;
    ss_lastSaveErr := ss_lastSaveErr s; ss_caughtUpReadAt := ev_ReadAt ev; ss_accGTID := ss_accGTID s |}))
  else io_ret tt.

Definition on_event (ev : Event) : R unit :=
  if (ev_EventType ev =? EventCaughtUp)%N then on_caught_up ev
  else
    r ←! io_get;
    do! io_mod (set_ss (track ev (st_first (rn_st r))));
    if (ev_EventType ev =? EventGTID)%N then io_mod (set_claimed false)
    else if (ev_EventType ev =? EventCommit)%N then
      do! advanceGTID (ev_GTID ev);
      do! io_mod (set_claimed false);
      lift (End_ e)
    else if (ev_EventType ev =? EventDDL)%N then
      do! lift (End_ e);
      do! lift (CommitComplete e);
      do! advanceGTID (ev_GTID ev);
      r ←! io_get;
      io_mod (set_claimed (match ss_accGTID (rn_ss r) with
                           | Some _ => negb (bool_decide (ev_GTID ev = "")) | None => false end))
    else lift (Add e ev).

(** ** Cleanup on resume *)

(** The position predicate of the DELETE. *)
Definition beyond (file : string) (pos : N) (r : storedRow) : bool :=
  (String.length file <? String.length (sr_binlog_file r))%nat
  || (String.length file =? String.length (sr_binlog_file r))%nat && String.ltb file (sr_binlog_file r)
  || bool_decide (sr_binlog_file r = file) && (pos <=? sr_start_pos r)%N.

Definition above_floor (floor : Z) (id : Z) : bool := if 0 <? floor then floor <=? id else true.

(** The rows the position DELETE leaves. *)
Definition kept_before (rows : list idRow) (file : string) (pos : N) (floor : Z) : list idRow :=
  filter (λ r, above_floor floor r.1 && beyond file pos r.2 = false) rows.

(** The GTIDs below the position in its file that the saved set lacks. *)
Definition stragglers (rows : list idRow) (file : string) (pos : N) (savedSet : G) (floor : Z) : list string :=
  filter (λ g, gs_contain savedSet g = false)
    (omap (λ r, if above_floor floor r.1 && bool_decide (sr_binlog_file r.2 = file) && (sr_start_pos r.2 <? pos)%N
                then sr_gtid r.2 else None) rows).

(** The rows the straggler DELETE leaves. *)
Definition kept_known (rows : list idRow) (file : string) (gtids : list string) (floor : Z) : list idRow :=
  filter (λ r, above_floor floor r.1 && bool_decide (sr_binlog_file r.2 = file) &&
               match sr_gtid r.2 with Some g => bool_decide (g ∈ gtids) | None => false end = false) rows.

Definition set_table (rows : list idRow) (r : run) : run := {|
  rn_st := set_rows rows (rn_st r); rn_ss := rn_ss r; rn_ddlClaimed := rn_ddlClaimed r; rn_ck := rn_ck r |}.

(** A DELETE that leaves [f] of the table. *)
Definition delete_rows (f : list idRow → list idRow) : R unit :=
  '(o, _) ←! lift (call e);
  r ←! io_get;
  match o with
  | Done => io_mod (set_table (f (st_rows (rn_st r))))
  | Refused => io_fail EInsert
  | DoneUnseen => do! io_mod (set_table (f (st_rows (rn_st r)))); io_fail EInsert
  end.

Definition deleteEventsSinceCheckpoint (file : string) (pos : N) (floor : Z) : R unit :=
  if bool_decide (file = "") then io_ret tt
  else delete_rows (λ rows, kept_before rows file pos floor).

(** The scan and the DELETE of the second pass are one step: nobody else
    writes the table. *)
Definition deleteEventsSinceCheckpointGTID (file : string) (pos : N) (savedSet : G) (floor : Z) : R unit :=
  do! deleteEventsSinceCheckpoint file pos floor;
  if bool_decide (file = "") then io_ret tt
  else delete_rows (λ rows, kept_known rows file (stragglers rows file pos savedSet floor) floor).

(** ** Starting *)

Definition freshDedupFloor (rows : list idRow) : Z := foldr (λ r m, Z.max r.1 m) 0 rows + 1.

(** The state a run starts with; [floor] is the carried or the fresh floor. *)
Definition start_state (mode file : string) (pos : N) (gtid : option G) (events floor : Z) : streamState := {|
  ss_mode := mode; ss_binlogFile := file; ss_binlogPos := pos; ss_safeFile := file; ss_safePos := pos;
  ss_dedupFloorID := floor; ss_gtidSet := gtid; ss_eventsIndexed := events; ss_lastEventTime := None;
  ss_lastSaveErr := false; ss_caughtUpReadAt := 0; ss_accGTID := gtid |}.

(** A process starts with an empty writer; its connections are new. *)
Definition fresh_writer (s : St) : St := {|
  st_rows := st_rows s; st_open := ∅; st_next := st_next s; st_first := 0; st_calls := st_calls s;
  st_hooks := []; st_b := NewTxnBatcher |}.

Definition begin_run (ss : streamState) (r : run) : run := {|
  rn_st := fresh_writer (rn_st r); rn_ss := ss; rn_ddlClaimed := false; rn_ck := rn_ck r |}.

Definition MaxUint32 : N := 4294967295.

(** A restart from a saved checkpoint of the same mode, with no gap in the
    source's log: the cleanup, then the state the loop starts with. A GTID
    checkpoint resolves to no file. *)
Definition resume (ck : checkpointRow) : R unit :=
  let floor := default 0 (ck_dedupFloor ck) in
  if bool_decide (ck_mode ck = "position") then
    if (MaxUint32 <? ck_pos ck)%N then io_fail EInsert
    else
      do! deleteEventsSinceCheckpoint (ck_file ck) (ck_pos ck) floor;
      io_mod (begin_run (start_state "position" (ck_file ck) (ck_pos ck) None (ck_eventsIndexed ck) floor))
  else
    let set := default gs_empty (ck_gtidSet ck) in
    do! deleteEventsSinceCheckpointGTID (ck_file ck) (ck_pos ck) set floor;
    io_mod (begin_run (start_state "gtid" "" 0 (Some set) (ck_eventsIndexed ck) floor)).

(** ** The system *)

Definition end_pos (ev : Event) : BinlogPos := {| File := ev_BinlogFile ev; Pos := ev_EndPos ev |}.
Definition start_pos (ev : Event) : BinlogPos := {| File := ev_BinlogFile ev; Pos := ev_StartPos ev |}.

(** What a source sends to a stream that starts at a checkpoint: [log] is its
    log, one entry per transaction with its GTID and the parser's events. *)
Definition replay (log : list (string * list Event)) (ck : checkpointRow) : list Event :=
  if bool_decide (ck_mode ck = "position")
  then filter (λ ev, pos_compare (end_pos ev) {| File := ck_file ck; Pos := ck_pos ck |} = Gt) (concat log.*2)
  else concat (filter (λ t, gs_contain (default gs_empty (ck_gtidSet ck)) t.1 = false) log).*2.

Inductive phase := Up (feed : list Event) | Down.
Record sys := { sy_run : run; sy_phase : phase }.

Inductive label := Tick | Cap | Deliver | CaughtUp (readAt : Z) | Stop | Crash | Resume.

(** The writer's deferred [Close], and the connections' end with the process. *)
Definition bury (r : run) : sys := {|
  sy_run := {| rn_st := set_open ∅ (rn_st r); rn_ss := rn_ss r; rn_ddlClaimed := rn_ddlClaimed r; rn_ck := rn_ck r |};
  sy_phase := Down |}.

Definition went (x : (unit + WErr) * run) (feed : list Event) : sys :=
  match x with
  | (inl _, r) => {| sy_run := r; sy_phase := Up feed |}
  | (inr _, r) => bury r
  end.

Definition marker (readAt : Z) : Event := {|
  ev_BinlogFile := ""; ev_StartPos := 0; ev_EndPos := 0; ev_Timestamp := 0; ev_GTID := ""; ev_ConnectionID := 0;
  ev_QueryText := ""; ev_CommitTsUS := 0; ev_Schema := ""; ev_Table := ""; ev_EventType := EventCaughtUp;
  ev_PKValues := ""; ev_RowBefore := None; ev_RowAfter := None; ev_SchemaVersion := 0; ev_ReadAt := readAt |}.

Definition exec (log : list (string * list Event)) (l : label) (y : sys) : option sys :=
  let r := sy_run y in
  match l, sy_phase y with
  | Tick, Up feed => Some (went (checkpoint r) feed)
  | Cap, Up feed =>
      match CapC (st_b (rn_st r)) with
      | Some _ => Some (went (lift (OnCap e) r) feed)
      | None => None
      end
  | Deliver, Up (ev :: feed) => Some (went (on_event ev r) feed)
  | CaughtUp readAt, Up feed => Some (went (on_event (marker readAt) r) feed)
  | Stop, Up _ => Some (bury (stop r).2)
  | Crash, Up _ => Some (bury r)
  | Resume, Down =>
      match rn_ck r with
      | None => None
      | Some ck => Some (went (resume ck r) (replay log ck))
      end
  | _, _ => None
  end.
End stream.
