(* ===== verification/Capture.v ===== *)
(** * Capture indexes every change once

    The theorems on [StreamRun]: whatever statements fail, whenever the process
    dies and however often it is resumed, the index holds the changes of the
    source's log in order, none lost and none twice, and a reader sees whole
    transactions. *)
From S2P Require Import Prelude GoStrings GoTime GoVal GoIO Event Rows TxnBatch StreamRun.
#[local] Open Scope Z_scope.

(** ** The transactions of a log *)

(** Events that the loop hands to the writer. *)
Definition is_row (ev : Event) : bool :=
  negb ((ev_EventType ev =? EventGTID) || (ev_EventType ev =? EventCommit) || (ev_EventType ev =? EventDDL)
        || (ev_EventType ev =? EventCaughtUp))%N.

Definition rows_of (evs : list Event) : list Event := filter (λ ev, is_row ev = true) evs.

(** The rows of the complete transactions, and of the one after them. *)
Definition note (p : list (list Event) * list Event) (ev : Event) : list (list Event) * list Event :=
  if isPositionCheckpointBoundary ev then (p.1 ++ [p.2], [])
  else if is_row ev then (p.1, p.2 ++ [ev]) else p.

Definition txns (evs : list Event) : list (list Event) * list Event := foldl note ([], []) evs.

Lemma is_row_boundary ev : isPositionCheckpointBoundary ev = true → is_row ev = false.
Proof.
  unfold isPositionCheckpointBoundary, is_row. intros [->| ->]%orb_prop; simpl; rewrite ?orb_true_r; done.
Qed.

Lemma txns_snoc evs ev : txns (evs ++ [ev]) = note (txns evs) ev.
Proof. unfold txns. by rewrite foldl_app. Qed.

Lemma rows_of_app a b : rows_of (a ++ b) = rows_of a ++ rows_of b.
Proof. apply filter_app. Qed.

Lemma rows_of_one ev : rows_of [ev] = if is_row ev then [ev] else [].
Proof.
  unfold rows_of. destruct (is_row ev) eqn:Hr.
  - by rewrite filter_cons_True, filter_nil.
  - rewrite filter_cons_False, filter_nil by (by rewrite Hr). done.
Qed.

Lemma txns_rows evs : concat (txns evs).1 ++ (txns evs).2 = rows_of evs.
Proof.
  induction evs as [|ev evs IH] using rev_ind; [done|]. rewrite txns_snoc, rows_of_app, <-IH.
  rewrite rows_of_one. unfold note. destruct (isPositionCheckpointBoundary ev) eqn:Hb; simpl.
  - by rewrite concat_snoc, (is_row_boundary _ Hb), !app_nil_r.
  - destruct (is_row ev); simpl; by rewrite <-?app_assoc, ?app_nil_r.
Qed.

Lemma txns_app_quiet a b : Forall (λ ev, isPositionCheckpointBoundary ev = false) b →
  txns (a ++ b) = ((txns a).1, (txns a).2 ++ rows_of b).
Proof.
  induction b as [|ev b IH] using rev_ind; intros Hb.
  { rewrite !app_nil_r. by destruct (txns a). }
  apply Forall_app in Hb as [Hb Hev]. apply Forall_cons_1 in Hev as [Hev _].
  rewrite app_assoc, txns_snoc, IH, rows_of_app, app_assoc by done. unfold note. rewrite Hev.
  rewrite rows_of_one. destruct (is_row ev); simpl; by rewrite ?app_nil_r.
Qed.

Lemma txns_prefix_1 evs n : (txns (take n evs)).1 `prefix_of` (txns evs).1.
Proof.
  rewrite <-(take_drop n evs) at 2. generalize (take n evs) (drop n evs). intros a b.
  induction b as [|ev b IH] using rev_ind; [by rewrite app_nil_r|].
  rewrite app_assoc, txns_snoc. etrans; [exact IH|]. unfold note. repeat case_match; simpl; try done.
  by apply prefix_app_r.
Qed.

Lemma rows_prefix evs n : rows_of (take n evs) `prefix_of` rows_of evs.
Proof. rewrite <-(take_drop n evs) at 2. rewrite rows_of_app. by apply prefix_app_r. Qed.

(** ** One step of the loop *)

Section step.
Context {G : Type} `{GTIDSet G} (e : Env) (base : list idRow) (nocap : Prop).
Context (Hclock : nocap → ∀ i j, e_now e j - e_now e i < e_maxOpen e).

(** The writer's invariant with the floor of the checkpoint, [fd] for the rows
    after the first [lo], and the one in memory. *)
Definition invar (lo : nat) (fd : Z) (k : nat) (fl : Z) : list (list Event) → list Event → St → Prop :=
  binv e base lo [(lo, fd); (k, fl)] nocap.
(** What a run leaves when it ends. *)
Definition stays (lo : nat) (fd : Z) : list (list Event) → list Event → St → Prop :=
  durable base lo [(lo, fd)] nocap.

Lemma wp_lift {A} (m : W A) (Q : A → run (G := G) → Prop) F r :
  wp m (λ a s, Q a (after r s)) (λ s, F (after r s)) (rn_st r) → wp (lift m) Q F r.
Proof. unfold wp, lift. by destruct (m (rn_st r)) as [[a|err] s]. Qed.

Lemma invar_stays lo fd k fl H0 cur s : durable base lo [(lo, fd); (k, fl)] nocap H0 cur s → stays lo fd H0 cur s.
Proof. clear Hclock. intros Hd. eapply durable_refloor; [exact Hd|..]; auto. set_solver. Qed.

(** Raising the floor of the rows not read yet. *)
Lemma invar_note lo fd k fl H0 cur s fl' : invar lo fd k fl H0 cur s → fl' ≤ st_next s →
  invar lo fd (length (concat H0 ++ cur)) fl' H0 cur s.
Proof.
  intros (C & T & rows & open & Hc) Hn. exists C, T, rows, open.
  pose proof Hc as [[V1 V2 V3 V4 V5 V6] W A HT K X D Fl].
  eapply core_refloor; [exact Hc|done|..].
  - apply Forall_cons in Fl as [Fl1 _]. constructor; [done|]. constructor; [|done]. simpl.
    intros i r Hi Hk. apply lookup_lt_Some in Hi. exfalso. apply (f_equal length) in V2, HT.
    rewrite length_app in Hi. rewrite !length_fmap in *. rewrite <-A, !length_app in Hk. lia.
  - apply Forall_cons in V5 as [V5 _]. auto.
Qed.

Lemma invar_next lo fd k fl H0 cur s : invar lo fd k fl H0 cur s → fl ≤ st_next s ∧ st_first s ≤ st_next s.
Proof.
  intros (C & T & rows & open & Hc). destruct (co_vis _ _ _ _ _ _ _ _ _ _ _ _ Hc) as [_ _ _ _ V5 V6].
  by inversion_clear V5 as [|? ? _ V]; inversion_clear V.
Qed.

(** What an event does to the stream state, floors and counters apart. *)
Definition adv (gtid : string) (acc : option G) : option G :=
  a ← acc; Some (if bool_decide (gtid = "") then a else default a (gs_update gtid a)).

Record follows (ev : Event) (ss ss' : streamState (G := G)) : Prop := {
  fo_mode : ss_mode ss' = ss_mode ss;
  fo_file : ss_binlogFile ss' = if bool_decide (ev_BinlogFile ev = "") then ss_binlogFile ss else ev_BinlogFile ev;
  fo_pos : ss_binlogPos ss' = ev_EndPos ev;
  fo_safe : (ss_safeFile ss', ss_safePos ss') =
    if isPositionCheckpointBoundary ev then (ss_binlogFile ss', ev_EndPos ev) else (ss_safeFile ss, ss_safePos ss);
  fo_acc : ss_accGTID ss' =
    if isPositionCheckpointBoundary ev then adv (ev_GTID ev) (ss_accGTID ss) else ss_accGTID ss;
  fo_set : ss_gtidSet ss = ss_accGTID ss → ss_gtidSet ss' = ss_accGTID ss';
  fo_floor : ss_dedupFloorID ss ≤ ss_dedupFloorID ss';
}.

(** The fields of the state that matter to a restart. *)
Record same_link (ss ss' : streamState (G := G)) : Prop := {
  sl_mode : ss_mode ss' = ss_mode ss;
  sl_file : ss_binlogFile ss' = ss_binlogFile ss;
  sl_pos : ss_binlogPos ss' = ss_binlogPos ss;
  sl_safeFile : ss_safeFile ss' = ss_safeFile ss;
  sl_safePos : ss_safePos ss' = ss_safePos ss;
  sl_floor : ss_dedupFloorID ss' = ss_dedupFloorID ss;
  sl_set : ss_gtidSet ss' = ss_gtidSet ss;
  sl_acc : ss_accGTID ss' = ss_accGTID ss;
}.

Lemma same_link_refl ss : same_link ss ss.
Proof. done. Qed.

Lemma same_link_trans a b c : same_link a b → same_link b c → same_link a c.
Proof. intros [] []. split; congruence. Qed.

Lemma track_spec ev first (ss : streamState (G := G)) bound : ss_dedupFloorID ss ≤ bound → first ≤ bound →
  let ss' := track ev first ss in
  ss_mode ss' = ss_mode ss ∧
  ss_binlogFile ss' = (if bool_decide (ev_BinlogFile ev = "") then ss_binlogFile ss else ev_BinlogFile ev) ∧
  ss_binlogPos ss' = ev_EndPos ev ∧
  (ss_safeFile ss', ss_safePos ss') =
    (if isPositionCheckpointBoundary ev then (ss_binlogFile ss', ev_EndPos ev) else (ss_safeFile ss, ss_safePos ss)) ∧
  ss_accGTID ss' = ss_accGTID ss ∧ ss_gtidSet ss' = ss_gtidSet ss ∧
  ss_dedupFloorID ss ≤ ss_dedupFloorID ss' ≤ bound ∧
  (isPositionCheckpointBoundary ev = false → ss_dedupFloorID ss' = ss_dedupFloorID ss).
Proof.
  intros Hb1 Hb2. unfold track. destruct (isPositionCheckpointBoundary ev); simpl.
  - destruct (bool_decide (ss_mode ss = "position")); simpl; [|by split_and!; auto; lia].
    split_and!; auto; [| |done]; case_match; lia.
  - split_and!; auto; lia.
Qed.

(** [advanceGTID] as a function of the state. *)
Lemma wp_advanceGTID gtid (Q : unit → run (G := G) → Prop) F r bound :
  ss_dedupFloorID (rn_ss r) ≤ bound → st_first (rn_st r) ≤ bound →
  (∀ ss', ss_mode ss' = ss_mode (rn_ss r) → ss_binlogFile ss' = ss_binlogFile (rn_ss r) →
    ss_binlogPos ss' = ss_binlogPos (rn_ss r) → ss_safeFile ss' = ss_safeFile (rn_ss r) →
    ss_safePos ss' = ss_safePos (rn_ss r) → ss_accGTID ss' = adv gtid (ss_accGTID (rn_ss r)) →
    (ss_gtidSet (rn_ss r) = ss_accGTID (rn_ss r) → ss_gtidSet ss' = ss_accGTID ss') →
    ss_dedupFloorID (rn_ss r) ≤ ss_dedupFloorID ss' ≤ bound →
    Q tt {| rn_st := rn_st r; rn_ss := ss'; rn_ddlClaimed := rn_ddlClaimed r; rn_ck := rn_ck r |}) →
  wp (advanceGTID gtid) Q F r.
Proof.
  intros Hb1 Hb2 HQ. unfold advanceGTID. wp_steps.
  assert (Q tt {| rn_st := rn_st r; rn_ss := rn_ss r; rn_ddlClaimed := rn_ddlClaimed r; rn_ck := rn_ck r |} → Q tt r)
    as Hid by (by destruct r).
  destruct (ss_accGTID (rn_ss r)) as [acc|] eqn:Hacc; wp_steps.
  2:{ apply Hid, HQ; auto; [|lia]. by rewrite Hacc. }
  destruct (bool_decide (gtid = "")) eqn:Hg; wp_steps.
  { apply Hid, HQ; auto; [|by rewrite Hacc|lia]. rewrite Hacc. simpl. by rewrite Hg. }
  destruct (gs_update gtid acc) as [acc'|] eqn:Hu; wp_steps.
  2:{ apply Hid, HQ; auto; [|by rewrite Hacc|lia]. rewrite Hacc. simpl. by rewrite Hg, Hu. }
  apply HQ; simpl; auto; [by rewrite Hg, Hu|]. case_match; lia.
Qed.

Lemma after_same_link r s : same_link (rn_ss r) (rn_ss (after r s)).
Proof. done. Qed.

(** The claim of a DDL's GTID is dropped at the next event that is no row. *)
Definition claim_step (ev : Event) (r r' : run (G := G)) : Prop :=
  (is_row ev = true → rn_ddlClaimed r' = rn_ddlClaimed r) ∧
  (is_row ev = false → rn_ddlClaimed r' = true →
     ev_EventType ev = EventDDL ∧ ss_accGTID (rn_ss r') ≠ None ∧ b_inTxn (st_b (rn_st r')) = false).

Lemma event_cases ev : ev_EventType ev ≠ EventCaughtUp →
  (ev_EventType ev = EventGTID ∧ is_row ev = false ∧ isPositionCheckpointBoundary ev = false) ∨
  (ev_EventType ev = EventCommit ∧ is_row ev = false ∧ isPositionCheckpointBoundary ev = true) ∨
  (ev_EventType ev = EventDDL ∧ is_row ev = false ∧ isPositionCheckpointBoundary ev = true) ∨
  ((ev_EventType ev =? EventGTID)%N = false ∧ (ev_EventType ev =? EventCommit)%N = false ∧
   (ev_EventType ev =? EventDDL)%N = false ∧ is_row ev = true ∧ isPositionCheckpointBoundary ev = false).
Proof.
  intros Hc%N.eqb_neq. unfold is_row, isPositionCheckpointBoundary. rewrite Hc.
  destruct (ev_EventType ev =? EventGTID)%N eqn:H1; [left; apply N.eqb_eq in H1; by rewrite H1|right].
  destruct (ev_EventType ev =? EventCommit)%N eqn:H2; [left; by apply N.eqb_eq in H2|right].
  destruct (ev_EventType ev =? EventDDL)%N eqn:H3; [left; by apply N.eqb_eq in H3|right]. done.
Qed.

Lemma wp_on_event lo fd H0 cur ev r :
  ev_EventType ev ≠ EventCaughtUp →
  invar lo fd (length (concat H0)) (ss_dedupFloorID (rn_ss r)) H0 cur (rn_st r) →
  (nocap → Z.of_nat (length (note (H0, cur) ev).2) < e_maxRows e) →
  let p := note (H0, cur) ev in
  wp (on_event e ev)
     (λ _ r', invar lo fd (length (concat p.1)) (ss_dedupFloorID (rn_ss r')) p.1 p.2 (rn_st r') ∧
        follows ev (rn_ss r) (rn_ss r') ∧ rn_ck r' = rn_ck r ∧ claim_step ev r r')
     (λ r', stays lo fd p.1 p.2 (rn_st r') ∧ rn_ck r' = rn_ck r) r.
Proof.
  intros Hty Hinv Hmax p. destruct (invar_next _ _ _ _ _ _ _ Hinv) as [Hb1 Hb2].
  unfold on_event. rewrite (proj2 (N.eqb_neq _ _) Hty). wp_steps.
  set (first := st_first (rn_st r)) in *.
  destruct (track_spec ev first (rn_ss r) (st_next (rn_st r)) Hb1 Hb2) as (T1 & T2 & T3 & T4 & T5 & T6 & T7 & T8).
  assert (∀ H1 cur1 fl', H1 = H0 → cur1 = cur → fl' ≤ st_next (rn_st r) →
    invar lo fd (length (concat H0 ++ cur)) fl' H0 cur (rn_st r)) as Hnote.
  { intros ?? fl' -> -> Hfl. by eapply invar_note. }
  destruct (event_cases ev Hty) as [(Et & Hr & Hbd)|[(Et & Hr & Hbd)|[(Et & Hr & Hbd)|(E1 & E2 & E3 & Hr & Hbd)]]].
  - (* a transaction start *)
    rewrite Et. simpl. wp_steps. subst p. unfold note. rewrite Hbd, Hr. simpl. split_and!; try done.
    + by rewrite T8.
    + rewrite Hbd in *. split; simpl; rewrite ?Hbd; first [done|lia|congruence|intros; congruence].
    + split; [by rewrite Hr|done].
  - (* a commit *)
    rewrite Et. simpl. wp_steps. subst p. unfold note. rewrite Hbd. simpl.
    apply (wp_advanceGTID _ _ _ _ (st_next (rn_st r))); simpl; [lia|done|].
    intros ss2 A1 A2 A3 A4 A5 A6 A7 A8. wp_steps. apply wp_lift. simpl.
    assert (invar lo fd (length (concat H0 ++ cur)) (ss_dedupFloorID ss2) H0 cur (rn_st r)) as Hinv2
      by (apply (Hnote H0 cur); auto; lia).
    eapply wp_mono; [by apply (wp_End _ _ _ _ _ _ _ _ Hinv2)|..]; simpl.
    + intros _ s1 [Hb Hin]. rewrite concat_snoc. split_and!; try done.
      * rewrite Hbd in *. split; simpl; rewrite ?A1, ?A2, ?A3, ?A4, ?A5, ?Hbd; first [done|lia|congruence|idtac].
        intros Hset. apply A7. congruence.
      * split; [by rewrite Hr|done].
    + intros s1 Hd. split; [|done]. by eapply invar_stays.
  - (* a DDL *)
    rewrite Et. simpl. wp_steps. subst p. unfold note. rewrite Hbd. simpl. apply wp_lift. simpl.
    assert (invar lo fd (length (concat H0 ++ cur)) (ss_dedupFloorID (track ev first (rn_ss r))) H0 cur (rn_st r)) as Hinv1
      by (apply (Hnote H0 cur); auto; lia).
    eapply wp_mono; [by apply (wp_End _ _ _ _ _ _ _ _ Hinv1)|..]; simpl.
    2:{ intros s1 Hd. split; [|done]. by eapply invar_stays. }
    intros _ s1 [Hb Hin]. wp_step. apply wp_lift. simpl.
    eapply wp_mono; [by apply (wp_CommitComplete _ _ _ _ _ _ _ _ Hb)|..]; simpl.
    2:{ intros s2 Hd. split; [|done]. by eapply invar_stays. }
    intros _ s2 (Hb2' & _ & Hin2 & _). wp_step.
    destruct (invar_next _ _ _ _ _ _ _ Hb2') as [Hn1 Hn2].
    apply (wp_advanceGTID _ _ _ _ (st_next s2)); simpl; [done..|].
    intros ss2 A1 A2 A3 A4 A5 A6 A7 A8. wp_steps. split_and!; try done.
    + rewrite <-(app_nil_r (concat _)). eapply invar_note; [exact Hb2'|lia].
    + rewrite Hbd in *. split; simpl; rewrite ?A1, ?A2, ?A3, ?A4, ?A5, ?Hbd; first [done|lia|congruence|idtac].
      intros Hset. apply A7. simpl. congruence.
    + split; [by rewrite Hr|]. simpl. intros _ Hcl. split; [done|]. rewrite Hin2, Hin. split; [|done].
      by destruct (ss_accGTID ss2).
  - (* a row *)
    rewrite E1, E2, E3. subst p. unfold note in *. rewrite Hbd, Hr in *. simpl. apply wp_lift. simpl.
    eapply wp_mono; [apply (wp_Add e base lo [(lo, fd); (length (concat H0), ss_dedupFloorID (rn_ss r))] nocap Hclock H0 cur ev);
      [exact Hinv|exact Hmax]|..]; simpl.
    + intros _ s1 [Hb Hin]. split_and!; try done.
      * by rewrite T8.
      * split; simpl; rewrite ?Hbd; first [done|lia|congruence|intros; congruence].
      * split; [done|by rewrite Hr].
    + intros s1 Hd. split; [|done]. by eapply invar_stays.
Qed.

Lemma wp_saveCheckpoint (Q : unit → run (G := G) → Prop) (F : run → Prop) r :
  (∀ s ck', moved (rn_st r) s [] (st_open (rn_st r)) →
     (ck' = rn_ck r ∨ ck' = Some (checkpoint_row (rn_ss (after r s)) (rn_ck r))) →
     let r' := {| rn_st := s; rn_ss := rn_ss (after r s); rn_ddlClaimed := rn_ddlClaimed r; rn_ck := ck' |} in
     (ck' = Some (checkpoint_row (rn_ss (after r s)) (rn_ck r)) → Q tt r') ∧ F r') →
  wp (saveCheckpoint e) Q F r.
Proof.
  intros HQ. unfold saveCheckpoint. wp_step. apply wp_lift. unfold wp at 1, call. simpl.
  pose proof (HQ (bump (rn_st r)) _ (moved_bump _) (or_introl eq_refl)) as [_ HF].
  pose proof (HQ (bump (rn_st r)) _ (moved_bump _) (or_intror eq_refl)) as [HQ1 HF1].
  wp_steps. destruct (e_answer e _); wp_steps; [by apply HQ1|exact HF|exact HF1].
Qed.

(** A checkpoint: every complete transaction is visible, then its row says so. *)
Lemma wp_checkpoint lo fd H0 cur (r : run (G := G)) :
  let k := length (concat H0) in let fl := ss_dedupFloorID (rn_ss r) in
  (lo ≤ k)%nat → invar lo fd k fl H0 cur (rn_st r) →
  wp (checkpoint e)
     (λ _ r', same_link (rn_ss r) (rn_ss r') ∧ rn_ddlClaimed r' = rn_ddlClaimed r ∧
        b_inTxn (st_b (rn_st r')) = b_inTxn (st_b (rn_st r)) ∧
        invar lo fd k fl H0 cur (rn_st r') ∧ invar k fl k fl H0 cur (rn_st r') ∧
        (rn_ck r' = rn_ck r ∨ ∃ ss, same_link (rn_ss r) ss ∧ rn_ck r' = Some (checkpoint_row ss (rn_ck r))))
     (λ r', stays lo fd H0 cur (rn_st r') ∧ rn_ck r' = rn_ck r) r.
Proof.
  intros k fl Hlo Hinv. unfold checkpoint. wp_step. apply wp_lift.
  eapply wp_mono; [by apply (wp_CommitComplete _ _ _ _ _ _ _ _ Hinv)|..]; simpl.
  2:{ intros s1 Hd. split; [|done]. by eapply invar_stays. }
  intros _ s1 (Hb & Hd0 & Hin & _).
  assert (∀ s2, moved s1 s2 [] (st_open s1) → invar lo fd k fl H0 cur s2 ∧ invar k fl k fl H0 cur s2) as Hboth.
  { intros s2 Hm. assert (invar lo fd k fl H0 cur s2) as Hb2 by (by eapply binv_moved). split; [done|].
    destruct Hb2 as (C & T & rows & open & Hc). exists C, T, rows, open.
    pose proof (co_floor _ _ _ _ _ _ _ _ _ _ _ _ Hc) as Fl.
    pose proof (vs_next _ _ _ _ _ _ (co_vis _ _ _ _ _ _ _ _ _ _ _ _ Hc)) as Hn.
    inversion_clear Fl as [|? ? _ F2]. inversion_clear F2 as [|? ? F3 _].
    inversion_clear Hn as [|? ? _ N2]. inversion_clear N2 as [|? ? N3 _].
    eapply core_refloor; [exact Hc| |by repeat constructor|by repeat constructor].
    eapply core_done0; [exact Hc|]. by rewrite (mv_b _ _ _ _ Hm). }
  wp_step. apply wp_try, wp_saveCheckpoint. simpl. intros s2 ck' Hm Hck.
  destruct (Hboth s2 Hm) as [H1 H2]. pose proof (mv_b _ _ _ _ Hm) as HB. split.
  - intros ->. wp_steps. split_and!; try done; [by rewrite HB|]. right. eexists. split; [|reflexivity]. done.
  - intros err. wp_steps. split_and!; try done; [by rewrite HB|].
    destruct Hck as [-> | ->]; [by left|right]. eexists. split; [|reflexivity]. done.
Qed.

Lemma stays_weaken lo fd H0 cur cur' s : cur' `prefix_of` cur → stays lo fd H0 cur' s → stays lo fd H0 cur s.
Proof. clear Hclock. intros Hp Hd. eapply durable_refloor; [exact Hd|..]; auto. by apply prefix_app. Qed.

(** A stop keeps the complete transactions and drops the one being read. *)
Lemma stop_leaves lo fd H0 cur (r : run (G := G)) :
  let k := length (concat H0) in let fl := ss_dedupFloorID (rn_ss r) in
  (lo ≤ k)%nat → invar lo fd k fl H0 cur (rn_st r) →
  (rn_ddlClaimed r = true → b_inTxn (st_b (rn_st r)) = false) →
  let r' := (stop e r).2 in
  stays lo fd H0 cur (rn_st r') ∧ rn_ck r' = rn_ck r ∨
  stays k fl H0 cur (rn_st r') ∧ ∃ ss, same_link (rn_ss r) ss ∧ rn_ck r' = Some (checkpoint_row ss (rn_ck r)).
Proof.
  intros k fl Hlo Hinv Hcl.
  set (P := λ r' : run, stays lo fd H0 cur (rn_st r') ∧ rn_ck r' = rn_ck r ∨
    stays k fl H0 cur (rn_st r') ∧ ∃ ss, same_link (rn_ss r) ss ∧ rn_ck r' = Some (checkpoint_row ss (rn_ck r))).
  cut (wp (stop e) (λ _, P) P r). { unfold wp. by destruct (stop e r) as [[a|err] r']. }
  assert (∀ cur' r1, cur' `prefix_of` cur → invar lo fd k fl H0 cur' (rn_st r1) → same_link (rn_ss r) (rn_ss r1) →
    rn_ck r1 = rn_ck r → wp (checkpoint e) (λ _, P) P r1) as Hck.
  { intros cur' r1 Hp Hb HL HE. subst fl. rewrite <-(sl_floor _ _ HL) in Hb.
    eapply wp_mono; [apply (wp_checkpoint lo fd H0 cur' r1); [done|exact Hb]|..]; simpl;
      rewrite ?(sl_floor _ _ HL), HE.
    - intros _ r' (_ & _ & _ & Hb1 & Hb' & [E|(ss & Hss & E)]); [left; clear Hb'; rename Hb1 into Hb'|right].
      + split; [|done]. eapply stays_weaken, invar_stays, binv_durable, Hb'. done.
      + split; [|by exists ss; split; [eapply same_link_trans|]].
        eapply stays_weaken, invar_stays, binv_durable, Hb'. done.
    - intros r' [Hd E]. left. split; [|done]. by eapply stays_weaken. }
  unfold stop. wp_step. apply wp_lift. apply wp_stopped.
  2:{ left. split; [|done]. eapply invar_stays, binv_durable, binv_moved, Hinv. apply moved_bump. }
  assert (invar lo fd k fl H0 cur (bump (rn_st r))) as Hinv1 by (eapply binv_moved, Hinv; apply moved_bump).
  wp_steps. unfold InTxn. destruct (b_inTxn _) eqn:Hin; [|wp_steps; by apply (Hck cur)].
  destruct (rn_ddlClaimed r); [by specialize (Hcl eq_refl)|].
  wp_step. apply wp_lift. simpl. eapply wp_mono; [apply (wp_Discard _ _ _ _ _ _ _ _ Hinv1)|..]; simpl; [|done].
  intros _ s1 [(cur' & Hp & Hb) _]. wp_steps. by apply (Hck cur').
Qed.

Lemma wp_on_marker (Q : unit → run (G := G) → Prop) F t r :
  (∀ ss, same_link (rn_ss r) ss →
     Q tt {| rn_st := rn_st r; rn_ss := ss; rn_ddlClaimed := rn_ddlClaimed r; rn_ck := rn_ck r |}) →
  wp (on_event e (marker t)) Q F r.
Proof.
  intros HQ. unfold on_event. simpl. unfold on_caught_up. wp_steps. destruct (_ && _); wp_steps.
  - by apply HQ.
  - destruct r. by apply HQ.
Qed.
End step.

(** ** The system *)

Section system.
Context {G : Type} `{GTIDSet G} (e : Env) (log : list (string * list Event)).
Context (base : list idRow) (nocap : Prop).
Context (Hclock : nocap → ∀ i j, e_now e j - e_now e i < e_maxOpen e).

Definition events : list Event := concat log.*2.

(** The rows of the transactions complete after [n] events. *)
Definition done_rows (n : nat) : nat := length (concat (txns (take n events)).1).

Context (Hmax : nocap → ∀ n, Z.of_nat (length (txns (take n events)).2) < e_maxRows e).
Context (Hmarks : Forall (λ ev, ev_EventType ev ≠ EventCaughtUp) events).

(** How the stream's coordinates follow the log, in one mode: [link] while it
    runs, [cklink] in a saved row, when it may be saved. *)
Context (link : nat → streamState (G := G) → Prop) (cklink : nat → checkpointRow (G := G) → Prop).
Context (savable : streamState (G := G) → Prop).
Context (Hlink : ∀ n ev ss ss', events !! n = Some ev → link n ss → follows ev ss ss' → link (S n) ss').
Context (Hsame : ∀ n ss ss', link n ss → same_link ss ss' → link n ss').
Context (Hsavable : ∀ ss ss', savable ss → same_link ss ss' → savable ss').
Context (Hsave : ∀ n ss before, (n ≤ length events)%nat → link n ss → savable ss →
  cklink n (checkpoint_row ss before)).
Context (Hclaim : ∀ n ev ev' ss, events !! n = Some ev → ev_EventType ev = EventDDL →
  events !! S n = Some ev' → is_row ev' = true → link (S n) ss → ss_accGTID ss = None).

Definition before (fd : Z) : Prop := 0 < fd ∧ Forall (λ r, r.1 < fd) base.

Definition down_inv (r : run (G := G)) : Prop := ∃ n d fd ck,
  stays base nocap (done_rows d) fd (txns (take n events)).1 (txns (take n events)).2 (rn_st r) ∧
  rn_ck r = Some ck ∧ cklink d ck ∧ ck_dedupFloor ck = Some fd ∧ before fd.

Record up_inv (n : nat) (r : run (G := G)) : Prop := {
  ui_n : (n ≤ length events)%nat;
  ui_link : link n (rn_ss r);
  ui_claim : rn_ddlClaimed r = true → b_inTxn (st_b (rn_st r)) = false ∧ ss_accGTID (rn_ss r) ≠ None ∧
    ∃ i ev, n = S i ∧ events !! i = Some ev ∧ ev_EventType ev = EventDDL;
  ui_inv : ∃ d fd ck, (done_rows d ≤ done_rows n)%nat ∧ fd ≤ ss_dedupFloorID (rn_ss r) ∧
    invar e base nocap (done_rows d) fd (done_rows n) (ss_dedupFloorID (rn_ss r))
      (txns (take n events)).1 (txns (take n events)).2 (rn_st r) ∧
    rn_ck r = Some ck ∧ cklink d ck ∧ ck_dedupFloor ck = Some fd ∧ before fd;
}.

(** What a restart must do: remove exactly the rows beyond the checkpoint and
    start where the log goes on after them. *)
Context (Hresume : ∀ r n d fd ck,
  stays base nocap (done_rows d) fd (txns (take n events)).1 (txns (take n events)).2 (rn_st r) →
  rn_ck r = Some ck → cklink d ck → ck_dedupFloor ck = Some fd → before fd →
  wp (resume e ck) (λ _ r', ∃ m, replay log ck = drop m events ∧ up_inv m r') down_inv r).

Definition sys_inv (y : sys (G := G)) : Prop :=
  match sy_phase y with
  | Up feed => ∃ n, feed = drop n events ∧ up_inv n (sy_run y)
  | Down => down_inv (sy_run y)
  end.

Lemma done_rows_le d n : (d ≤ n)%nat → (done_rows d ≤ done_rows n)%nat.
Proof.
  intros Hd. unfold done_rows. rewrite <-(Nat.min_l d n), <-take_take by done.
  destruct (txns_prefix_1 (take n events) d) as [k ->]. rewrite concat_app, length_app. lia.
Qed.

Lemma up_down n r : up_inv n r → down_inv r.
Proof.
  intros [_ _ _ (d & fd & ck & _ & _ & Hb & ?)]. exists n, d, fd, ck. split; [|done].
  eapply invar_stays, binv_durable, Hb.
Qed.

Lemma down_bury r : down_inv r → sys_inv (bury r).
Proof.
  intros (n & d & fd & ck & (C & rows & V & Hp & W) & ?). exists n, d, fd, ck. split; [|done].
  exists C, rows. split; [|done]. destruct V. by split.
Qed.

Lemma wp_went (m : io (run (G := G)) WErr unit) (feed : list Event) (r : run) n : feed = drop n events →
  wp m (λ _ r', up_inv n r') down_inv r → sys_inv (went (m r) feed).
Proof.
  intros -> Hw. unfold wp in Hw. destruct (m r) as [[a|err] r']; simpl.
  - by exists n.
  - by apply down_bury.
Qed.

Lemma up_tick n r : up_inv n r → savable (rn_ss r) → wp (checkpoint e) (λ _ r', up_inv n r') down_inv r.
Proof.
  intros [Hn Hl Hcl (d & fd & ck & Hd & Hf & Hb & Hck & Hckl & Hfl & Hbe)] Hs.
  eapply wp_mono; [apply wp_checkpoint; [exact Hd|exact Hb]|..]; simpl.
  - intros _ r' (HL & HC & HI & Hb1 & Hb' & Hcase). split; [done|by eapply Hsame|..].
    { rewrite HC, HI, (sl_acc _ _ HL). done. }
    rewrite (sl_floor _ _ HL). destruct Hcase as [E|(ss & Hss & E)].
    + exists d, fd, ck. rewrite E. done.
    + exists n, (ss_dedupFloorID (rn_ss r)), (checkpoint_row ss (rn_ck r)). rewrite E.
      split_and!; [done|done|exact Hb'|done|by apply Hsave; eauto|..].
      * simpl. rewrite (sl_floor _ _ Hss). destruct Hbe. rewrite (proj2 (Z.ltb_lt _ _)) by lia. done.
      * destruct Hbe as [Hbe1 Hbe2]. split; [lia|]. eapply Forall_impl; [exact Hbe2|]. simpl. lia.
  - intros r' [Hd' E]. exists n, d, fd, ck. rewrite E. done.
Qed.

Lemma up_event n ev r : up_inv n r → events !! n = Some ev →
  wp (on_event e ev) (λ _ r', up_inv (S n) r') down_inv r.
Proof.
  intros [Hn Hl Hcl (d & fd & ck & Hd & Hf & Hb & Hck & Hckl & Hfl & Hbe)] Hev.
  assert (txns (take (S n) events) = note (txns (take n events)) ev) as Ht
    by (by rewrite (take_S_r _ _ _ Hev), txns_snoc).
  destruct (txns (take n events)) as [H0 cur] eqn:Htx. simpl in Hb.
  assert (done_rows n = length (concat H0)) as Hdn by (unfold done_rows; by rewrite Htx).
  rewrite Hdn in Hb. pose proof (proj1 (Forall_lookup _ _) Hmarks _ _ Hev) as Hm.
  eapply wp_mono; [apply (wp_on_event e base nocap Hclock (done_rows d) fd H0 cur ev r Hm Hb)|..].
  - intros Hnc. specialize (Hmax Hnc (S n)). by rewrite Ht in Hmax.
  - simpl. intros _ r' (Hb' & Hfo & Hck' & Hc1 & Hc2). split.
    + apply lookup_lt_Some in Hev. lia.
    + by eapply Hlink.
    + intros Hc. destruct (is_row ev) eqn:Hr; [|by destruct (Hc2 eq_refl Hc) as (? & ? & ?); eauto 10].
      rewrite Hc1 in Hc by done. destruct (Hcl Hc) as (_ & Hacc & i & ev0 & -> & Hi & Hddl).
      by destruct (Hacc (Hclaim _ _ _ _ Hi Hddl Hev Hr Hl)).
    + assert (done_rows (S n) = length (concat (note (H0, cur) ev).1)) as Hdn' by (unfold done_rows; by rewrite Ht).
      exists d, fd, ck. rewrite Ht, Hck', Hdn'. split_and!; try done.
      * rewrite <-Hdn'. pose proof (done_rows_le n (S n) ltac:(lia)). lia.
      * pose proof (fo_floor _ _ _ Hfo). lia.
  - simpl. intros r' [Hs E]. exists (S n), d, fd, ck. rewrite Ht, E. done.
Qed.

Lemma up_cap n r : up_inv n r → wp (lift (OnCap e)) (λ _ r', up_inv n r') down_inv r.
Proof.
  intros [Hn Hl Hcl (d & fd & ck & Hd & Hf & Hb & Hck & Hckl & Hfl & Hbe)].
  apply wp_lift. eapply wp_mono; [apply (wp_OnCap _ _ _ _ _ Hclock _ _ _ Hb); auto|..]; simpl.
  - intros _ s [Hb' Hin]. split; simpl; [done|by eapply Hsame, after_same_link|by rewrite Hin|].
    by exists d, fd, ck.
  - intros s Hd'. exists n, d, fd, ck. split; [|done]. by eapply invar_stays.
Qed.

(** Checkpoints that a mode forbids: a row that could not be resumed from. *)
Definition allowed (l : label) (y : sys (G := G)) : Prop :=
  l = Tick ∨ l = Stop → savable (rn_ss (sy_run y)).

Lemma sys_step l y y' : sys_inv y → allowed l y → exec e log l y = Some y' → sys_inv y'.
Proof.
  intros Hy Ha Hex. unfold exec in Hex. destruct y as [r [feed|]]; unfold sys_inv in Hy; simpl in *.
  2:{ destruct l; try discriminate Hex. destruct Hy as (n & d & fd & ck & Hs & Hck & Hckl & Hfl & Hbe).
      rewrite Hck in Hex. injection Hex as <-.
      pose proof (Hresume r n d fd ck Hs Hck Hckl Hfl Hbe) as Hw. unfold wp in Hw.
      destruct (resume e ck r) as [[a|err] r']; simpl; [exact Hw|by apply down_bury]. }
  destruct Hy as (n & -> & Hup). destruct l.
  - injection Hex as <-. eapply wp_went; [done|]. apply up_tick; [done|]. apply Ha. auto.
  - destruct (CapC _); [|discriminate]. injection Hex as <-. eapply wp_went; [done|]. by apply up_cap.
  - destruct (drop n events) as [|ev feed] eqn:Hdr; [discriminate|]. injection Hex as <-.
    assert (events !! n = Some ev) as Hev.
    { rewrite <-(Nat.add_0_r n), <-lookup_drop, Hdr. done. }
    apply (wp_went _ _ _ (S n)); [|by apply up_event].
    rewrite (drop_S _ _ _ Hev) in Hdr. by injection Hdr.
  - injection Hex as <-. eapply wp_went; [done|]. apply wp_on_marker. intros ss Hss.
    destruct Hup as [Hn Hl Hcl (d & fd & ck & Hi)]. split; simpl; [done|by eapply Hsame| |].
    + by rewrite (sl_acc _ _ Hss).
    + exists d, fd, ck. by rewrite (sl_floor _ _ Hss).
  - injection Hex as <-. apply down_bury.
    pose proof Hup as [Hn Hl Hcl (d & fd & ck & Hd & Hf & Hb & Hck & Hckl & Hfl & Hbe)].
    destruct (stop_leaves e base nocap (done_rows d) fd _ _ r Hd Hb) as [[Hs E]|[Hs (ss & Hss & E)]].
    + intros Hc. by destruct (Hcl Hc).
    + exists n, d, fd, ck. by rewrite E.
    + exists n, n, (ss_dedupFloorID (rn_ss r)), (checkpoint_row ss (rn_ck r)). split_and!; [exact Hs|exact E|..].
      * apply Hsave; [done|by eapply Hsame|]. eapply Hsavable, Hss. apply Ha. auto.
      * simpl. rewrite (sl_floor _ _ Hss). destruct Hbe. rewrite (proj2 (Z.ltb_lt _ _)) by lia. done.
      * destruct Hbe as [Hbe1 Hbe2]. split; [lia|]. eapply Forall_impl; [exact Hbe2|]. simpl. lia.
  - injection Hex as <-. by apply down_bury, (up_down n).
  - discriminate.
Qed.

(** Every state a system gets to from a good one, by allowed steps. *)
Inductive reaches (y0 : sys (G := G)) : sys → Prop :=
| reaches_refl : reaches y0 y0
| reaches_step l y y' : reaches y0 y → allowed l y → exec e log l y = Some y' → reaches y0 y'.

Lemma reaches_inv y0 y : sys_inv y0 → reaches y0 y → sys_inv y.
Proof. intros H0. induction 1; eauto using sys_step. Qed.

(** What a reader sees in any such state. *)
Lemma sys_inv_visible y : sys_inv y → ∃ C rows,
  st_rows (rn_st (sy_run y)) = base ++ rows ∧ rows.*2 = stored <$> C ∧ C `prefix_of` rows_of events ∧
  (nocap → ∃ j, C = concat (take j (txns events).1)).
Proof.
  intros Hy. assert (down_inv (sy_run y)) as (n & d & fd & ck & (C & rows & V & Hp & W) & _).
  { destruct y as [r [feed|]]; [|done]. destruct Hy as (n & _ & Hup). by apply (up_down n). }
  exists C, rows. destruct V as [V1 V2 _ _ _ _]. split_and!; try done.
  - etrans; [exact Hp|]. rewrite txns_rows. apply rows_prefix.
  - intros Hn. destruct (W Hn) as [j ->]. destruct (txns_prefix_1 events n) as [k ->].
    exists (j `min` length (txns (take n events)).1)%nat.
    by rewrite take_app_le, <-take_take, firstn_all by lia.
Qed.

(** A checkpoint that returns has shown every complete transaction it read. *)
Lemma sys_tick_shows y y' feed feed' : sys_inv y → sy_phase y = Up feed → savable (rn_ss (sy_run y)) →
  exec e log Tick y = Some y' → sy_phase y' = Up feed' → ∃ n C rows,
  feed' = drop n events ∧ st_rows (rn_st (sy_run y')) = base ++ rows ∧ rows.*2 = stored <$> C ∧
  concat (txns (take n events)).1 `prefix_of` C ∧ C `prefix_of` rows_of (take n events).
Proof.
  intros Hy Hph Hs Hex Hph'. unfold sys_inv in Hy. rewrite Hph in Hy. destruct Hy as (n & -> & Hup).
  unfold exec in Hex. rewrite Hph in Hex. injection Hex as <-. exists n.
  destruct Hup as [Hn Hl Hcl (d & fd & ck & Hd & Hf & Hb & Hck & Hckl & Hfl & Hbe)].
  pose proof (wp_checkpoint e base nocap (done_rows d) fd _ _ (sy_run y) Hd Hb) as Hw. unfold wp in Hw.
  destruct (checkpoint e (sy_run y)) as [[a|err] r']; simpl in *; [|discriminate].
  injection Hph' as <-. destruct Hw as (_ & _ & _ & _ & (C & T & rows & open & Hc) & _).
  pose proof (co_vis _ _ _ _ _ _ _ _ _ _ _ _ Hc) as [V1 V2 V3 _ _ _].
  pose proof (core_prefix _ _ _ _ _ _ _ _ _ _ _ _ Hc) as Hp. rewrite txns_rows in Hp.
  exists C, rows. split_and!; try done.
  destruct (prefix_weak_total (concat (txns (take n events)).1) C (rows_of (take n events))) as [?|[k Hk]]; auto.
  - rewrite <-txns_rows. by apply prefix_app_r.
  - assert (k = []) as ->; [|by rewrite app_nil_r in Hk; rewrite Hk].
    apply nil_length_inv. apply (f_equal length) in Hk. rewrite length_app in Hk. lia.
Qed.
End system.

(** ** Restarts *)

(** A list of events ends with the quiet ones after its last transaction end. *)
Lemma last_end evs : ∃ B T, evs = B ++ T ∧ Forall (λ ev, isPositionCheckpointBoundary ev = false) T ∧
  (B = [] ∨ ∃ B' b, B = B' ++ [b] ∧ isPositionCheckpointBoundary b = true).
Proof.
  induction evs as [|ev evs (B & T & -> & HT & HB)] using rev_ind; [by exists [], []; auto|].
  destruct (isPositionCheckpointBoundary ev) eqn:Hev.
  - exists ((B ++ T) ++ [ev]), []. rewrite app_nil_r. split_and!; eauto.
  - exists B, (T ++ [ev]). rewrite app_assoc. split_and!; [done| |done]. apply Forall_app; auto.
Qed.

Lemma txns_at_end B : (B = [] ∨ ∃ B' b, B = B' ++ [b] ∧ isPositionCheckpointBoundary b = true) → (txns B).2 = [].
Proof.
  intros [->|(B' & b & -> & Hb)]; [done|]. rewrite txns_snoc. unfold note. by rewrite Hb.
Qed.

Section restart.
Context {G : Type} `{GTIDSet G} (e : Env) (log : list (string * list Event)).
Context (base : list idRow) (nocap : Prop).
Context (link : nat → streamState (G := G) → Prop) (cklink : nat → checkpointRow (G := G) → Prop).

(** A writer that starts over the rows of complete transactions. *)
Lemma fresh_binv H0 rows fd s : st_rows s = base ++ rows → rows.*2 = stored <$> concat H0 →
  before base fd → fd ≤ st_next s →
  invar e base nocap (length (concat H0)) fd (length (concat H0)) fd H0 [] (fresh_writer s).
Proof.
  intros Hr Hst [Hfd _] Hn. exists (concat H0), [], rows, [].
  assert (length rows = length (concat H0)) as Hlen by (apply (f_equal length) in Hst; by rewrite !length_fmap in Hst).
  assert (∀ i r, rows !! i = Some r → (length (concat H0) ≤ i)%nat → fd ≤ r.1) as Hidx.
  { intros i r Hi%lookup_lt_Some ?. lia. }
  split; simpl; rewrite ?app_nil_r; try done.
  - split; simpl; try done; [|by repeat constructor|lia]. by repeat constructor.
  - apply whole_concat.
  - lia.
  - by repeat constructor.
Qed.

(** The events up to a checkpoint, cut at the last transaction end. *)
Lemma cut_at d : (d ≤ length (events log))%nat → ∃ m T, (m ≤ d)%nat ∧
  take d (events log) = take m (events log) ++ T ∧ Forall (λ ev, isPositionCheckpointBoundary ev = false) T ∧
  (take m (events log) = [] ∨
   ∃ B' b, take m (events log) = B' ++ [b] ∧ isPositionCheckpointBoundary b = true) ∧
  txns (take m (events log)) = ((txns (take d (events log))).1, []) ∧ done_rows log m = done_rows log d ∧
  rows_of (take m (events log)) = concat (txns (take d (events log))).1.
Proof.
  intros Hd. destruct (last_end (take d (events log))) as (B & T & HB & HT & Hend).
  assert (length B ≤ d)%nat as Hm.
  { apply (f_equal length) in HB. rewrite length_app, length_take_le in HB by done. lia. }
  assert (take (length B) (events log) = B) as HtB.
  { rewrite <-(Nat.min_l (length B) d), <-take_take, HB by done. by rewrite take_app_length. }
  exists (length B), T. rewrite HtB. pose proof (txns_at_end B Hend) as H2.
  assert (txns (take d (events log)) = ((txns B).1, rows_of T)) as Hd1.
  { rewrite HB, txns_app_quiet, H2 by done. done. }
  split_and!; try done; rewrite ?Hd1; simpl.
  - by rewrite <-H2; destruct (txns B).
  - unfold done_rows. by rewrite HtB, Hd1.
  - by rewrite <-txns_rows, H2, app_nil_r.
Qed.

(** The rows a run left are those of the complete transactions and more. *)
Lemma stays_split n d fd s :
  stays base nocap (done_rows log d) fd (txns (take n (events log))).1 (txns (take n (events log))).2 s →
  ∃ rows new C, st_rows s = base ++ rows ++ new ∧ rows.*2 = stored <$> concat (txns (take d (events log))).1 ∧
    new.*2 = stored <$> C ∧ concat (txns (take d (events log))).1 ++ C `prefix_of` rows_of (events log) ∧
    Forall (λ r, fd ≤ r.1) new ∧ fd ≤ st_next s ∧ st_first s ≤ st_next s.
Proof.
  intros (C & rows & [V1 V2 V3 V4 V5 V6] & Hp & _). rewrite txns_rows in Hp.
  assert (C `prefix_of` rows_of (events log)) as HpE by (etrans; [exact Hp|apply rows_prefix]).
  assert (concat (txns (take d (events log))).1 `prefix_of` rows_of (events log)) as HpD.
  { etrans; [|apply (rows_prefix _ d)]. rewrite <-txns_rows. by apply prefix_app_r. }
  destruct (prefix_weak_total (concat (txns (take d (events log))).1) C _ HpD HpE) as [[C' ->]|[k Hk]].
  2:{ assert (k = []) as ->.
      { apply nil_length_inv. apply (f_equal length) in Hk. rewrite length_app in Hk.
        unfold done_rows in V3. lia. }
      rewrite app_nil_r in Hk. rewrite Hk in *. exists rows, [], []. rewrite !app_nil_r.
      inversion_clear V5. split_and!; try done. }
  set (D := concat (txns (take d (events log))).1) in *.
  exists (take (length D) rows), (drop (length D) rows), C'. rewrite take_drop.
  inversion_clear V4 as [|? ? Hf _]. inversion_clear V5 as [|? ? Hn _]. split_and!; try done.
  - rewrite fmap_take, V2, fmap_app, take_app_le, firstn_all2; rewrite ?length_fmap; auto.
  - rewrite fmap_drop, V2, fmap_app. apply drop_app_length'. by rewrite length_fmap.
  - apply Forall_lookup. intros i r Hi. rewrite lookup_drop in Hi. apply (Hf _ _ Hi). simpl. unfold done_rows. subst D. lia.
Qed.

(** The index once the rows beyond a checkpoint are gone. *)
Record cleaned (d : nat) (fd : Z) (ck : checkpointRow (G := G)) (r : run (G := G)) : Prop := {
  cl_rows : ∃ rows, st_rows (rn_st r) = base ++ rows ∧
    rows.*2 = stored <$> concat (txns (take d (events log))).1;
  cl_next : fd ≤ st_next (rn_st r) ∧ st_first (rn_st r) ≤ st_next (rn_st r);
  cl_ck : rn_ck r = Some ck ∧ cklink d ck ∧ ck_dedupFloor ck = Some fd ∧ before base fd;
}.

Lemma cleaned_down d fd ck r : cleaned d fd ck r → down_inv log base nocap cklink r.
Proof.
  intros [(rows & Hr & Hst) [Hn Hf] Hck]. exists d, d, fd, ck. split; [|done].
  assert (length rows = done_rows log d) as Hlen by (apply (f_equal length) in Hst; by rewrite !length_fmap in Hst).
  eexists _, rows. split; [|split; [by apply prefix_app_r|apply whole_concat]].
  split; try done; [|by repeat constructor]. repeat constructor. simpl. intros i x Hi%lookup_lt_Some ?. lia.
Qed.

Lemma cleaned_up d m fd ck r ss : cleaned d fd ck r → (m ≤ length (events log))%nat →
  txns (take m (events log)) = ((txns (take d (events log))).1, []) → link m ss → ss_dedupFloorID ss = fd →
  up_inv e log base nocap link cklink m (begin_run ss r).
Proof.
  intros [(rows & Hr & Hst) [Hn Hf] Hck] Hm Htx Hl Hfl. split; simpl; [done|done|done|].
  exists d, fd, ck. unfold done_rows. rewrite Htx, Hfl. simpl. do 2 (split; [done|]). split; [|done].
  apply (fresh_binv _ rows); tauto.
Qed.
End restart.

(** A first run: the start checkpoint was saved over the rows [base] an index
    already held, with the floor above them. *)
Definition first_run {G} `{GTIDSet G} (mode file : string) (pos : N) (gtid : option G) (base : list idRow)
    (next : Z) (feed : list Event) : sys (G := G) :=
  let ss := start_state mode file pos gtid 0 (freshDedupFloor base) in {|
  sy_run := {|
    rn_st := {| st_rows := base; st_open := ∅; st_next := next; st_first := 0; st_calls := 0; st_hooks := [];
                st_b := NewTxnBatcher |};
    rn_ss := ss; rn_ddlClaimed := false; rn_ck := Some (checkpoint_row ss None) |};
  sy_phase := Up feed |}.

(** No source transaction reaches a cap. *)
Definition no_caps (e : Env) (evs : list Event) : Prop :=
  (∀ i j, e_now e j - e_now e i < e_maxOpen e) ∧ (∀ n, Z.of_nat (length (txns (take n evs)).2) < e_maxRows e).

Lemma freshDedupFloor_before base : before base (freshDedupFloor base).
Proof.
  unfold before, freshDedupFloor. induction base as [|r base [IH1 IH2]]; simpl; [split; [lia|done]|]. split; [lia|].
  constructor; [lia|]. eapply Forall_impl; [exact IH2|]. simpl. lia.
Qed.

Lemma freshDedupFloor_next base next : 1 ≤ next → Forall (λ r, r.1 < next) base → freshDedupFloor base ≤ next.
Proof. unfold freshDedupFloor. induction 2; simpl in *; lia. Qed.

Lemma first_run_inv {G} `{GTIDSet G} e log base nocap link cklink mode file pos (gtid : option G) next :
  1 ≤ next → Forall (λ r, r.1 < next) base →
  let ss := start_state mode file pos gtid 0 (freshDedupFloor base) in
  link 0%nat ss → cklink 0%nat (checkpoint_row ss None) →
  sys_inv e log base nocap link cklink (first_run mode file pos gtid base next (events log)).
Proof.
  intros Hn Hids ss Hl Hck. exists 0%nat. split; [done|]. pose proof (freshDedupFloor_before base) as Hbe.
  split; simpl; [lia|done|done|]. exists 0%nat, (freshDedupFloor base), (checkpoint_row ss None).
  assert (ck_dedupFloor (checkpoint_row ss None) = Some (freshDedupFloor base)) as Hfl.
  { unfold checkpoint_row, ss. simpl. by rewrite (proj2 (Z.ltb_lt _ _)) by apply Hbe. }
  do 2 (split; [done|]). split; [|done].
  apply (fresh_binv e base nocap [] [] _ {| st_rows := base; st_open := ∅; st_next := next; st_first := 0;
      st_calls := 0; st_hooks := []; st_b := NewTxnBatcher |}); simpl; auto using app_nil_r.
  by apply freshDedupFloor_next.
Qed.

(** ** Position mode *)

(** [a] is before [b] in the log: ends of events do not go down, the rows of a
    transaction lie between the end of the one before and its own. *)
Definition pair_ok (a b : Event) : Prop :=
  (isPositionCheckpointBoundary b = true → pos_compare (end_pos a) (end_pos b) ≠ Gt ∧
     (is_row a = true → pos_compare (start_pos a) (end_pos b) = Lt)) ∧
  (isPositionCheckpointBoundary a = true → pos_compare (end_pos a) (end_pos b) = Lt ∧
     (is_row b = true → pos_compare (start_pos b) (end_pos a) ≠ Lt)).

Fixpoint pairs_ok (evs : list Event) : Prop :=
  match evs with [] => True | a :: evs' => Forall (pair_ok a) evs' ∧ pairs_ok evs' end.

(** A log read from [p0] on, with positions a dump can be asked for. *)
Record position_log (p0 : BinlogPos) (evs : list Event) : Prop := {
  pl_pairs : pairs_ok evs;
  pl_start : Forall (λ ev, pos_compare (end_pos ev) p0 = Gt ∧ (is_row ev = true → pos_compare (start_pos ev) p0 ≠ Lt)) evs;
  pl_events : Forall (λ ev, ev_BinlogFile ev ≠ "" ∧ (ev_EndPos ev ≤ MaxUint32)%N ∧ ev_EventType ev ≠ EventCaughtUp) evs;
  pl_p0 : File p0 ≠ "" ∧ (Pos p0 ≤ MaxUint32)%N;
}.

Lemma pairs_ok_app a b : pairs_ok (a ++ b) → Forall (λ x, Forall (pair_ok x) b) a.
Proof.
  induction a as [|x a IH]; simpl; [done|]. intros [Hx Ha]. apply Forall_app in Hx as [_ Hx]. auto.
Qed.

Lemma beyond_compare file pos r :
  beyond file pos r = true ↔ pos_compare {| File := sr_binlog_file r; Pos := sr_start_pos r |} {| File := file; Pos := pos |} ≠ Lt.
Proof.
  unfold beyond, pos_compare, cmp_or, String.ltb. simpl.
  destruct (Nat.compare_spec (String.length (sr_binlog_file r)) (String.length file)) as [E|E|E].
  - rewrite E, Nat.ltb_irrefl, Nat.eqb_refl. simpl. rewrite (String.compare_antisym file).
    destruct (String.compare (sr_binlog_file r) file) eqn:Hs; simpl.
    + apply String.compare_eq_iff in Hs as ->. rewrite bool_decide_eq_true_2 by done. simpl.
      rewrite N.leb_le. unfold N.le. rewrite (N.compare_antisym pos). by destruct (pos ?= sr_start_pos r)%N.
    + rewrite bool_decide_eq_false_2. 2:{ intros Hf. rewrite Hf, (cmp_refl String.compare) in Hs. done. } done.
    + done.
  - rewrite (proj2 (Nat.ltb_ge _ _)), (proj2 (Nat.eqb_neq _ _)), bool_decide_eq_false_2; [done| |lia|lia].
    intros Hf. rewrite Hf in E. lia.
  - rewrite (proj2 (Nat.ltb_lt _ _)) by lia. done.
Qed.

Section position.
Context {G : Type} `{GTIDSet G} (e : Env) (log : list (string * list Event)) (base : list idRow) (p0 : BinlogPos).
Context (Hlog : position_log p0 (events log)).

(** Where the last transaction end of the first [n] events is. *)
Definition last_pos (evs : list Event) : BinlogPos :=
  foldl (λ p ev, if isPositionCheckpointBoundary ev then end_pos ev else p) p0 evs.

Definition pos_link (n : nat) (ss : streamState (G := G)) : Prop :=
  ss_mode ss = "position" ∧ {| File := ss_safeFile ss; Pos := ss_safePos ss |} = last_pos (take n (events log)) ∧
  ss_accGTID ss = None.

Definition pos_cklink (d : nat) (ck : checkpointRow (G := G)) : Prop :=
  (d ≤ length (events log))%nat ∧ ck_mode ck = "position" ∧
  {| File := ck_file ck; Pos := ck_pos ck |} = last_pos (take d (events log)).

Lemma last_pos_quiet a b : Forall (λ ev, isPositionCheckpointBoundary ev = false) b → last_pos (a ++ b) = last_pos a.
Proof.
  induction b as [|ev b IH] using rev_ind; intros Hb; [by rewrite app_nil_r|].
  apply Forall_app in Hb as [Hb Hev]. apply Forall_cons_1 in Hev as [Hev _].
  unfold last_pos in *. rewrite app_assoc, foldl_app. simpl. by rewrite Hev, IH.
Qed.

Lemma last_pos_snoc a ev : last_pos (a ++ [ev]) = if isPositionCheckpointBoundary ev then end_pos ev else last_pos a.
Proof. unfold last_pos. by rewrite foldl_app. Qed.

(** A checkpoint position splits the log. *)
Lemma last_pos_splits m : (take m (events log) = [] ∨
    ∃ B' b, take m (events log) = B' ++ [b] ∧ isPositionCheckpointBoundary b = true) →
  let p := last_pos (take m (events log)) in
  File p ≠ "" ∧ (Pos p ≤ MaxUint32)%N ∧
  Forall (λ ev, pos_compare (end_pos ev) p ≠ Gt ∧ (is_row ev = true → pos_compare (start_pos ev) p = Lt))
    (take m (events log)) ∧
  Forall (λ ev, pos_compare (end_pos ev) p = Gt ∧ (is_row ev = true → pos_compare (start_pos ev) p ≠ Lt))
    (drop m (events log)).
Proof.
  intros Hm p. destruct Hlog as [Hp Hs He H0]. rewrite <-(take_drop m (events log)) in Hp, Hs, He. subst p.
  destruct Hm as [Hm|(B & b & Hm & Hb)]; rewrite Hm in *.
  - simpl in *. split_and!; [apply H0..|done|done].
  - rewrite last_pos_snoc, Hb. rewrite <-app_assoc in Hp. apply pairs_ok_app in Hp as HpB.
    rewrite (app_assoc B [b]) in Hp. apply pairs_ok_app in Hp as HpR.
    rewrite !Forall_app, !Forall_singleton in *. destruct He as [[_ (Hf & Hw & _)] _], HpR as [_ HpR].
    split_and!; try done.
    + eapply Forall_impl; [exact HpB|]. simpl. intros x Hx. apply Forall_cons in Hx as [[Hx _] _]. auto.
    + rewrite (cmp_refl pos_compare). done.
    + by rewrite is_row_boundary.
    + eapply Forall_impl; [exact HpR|]. simpl. intros x [_ Hx]. destruct (Hx Hb) as [Hx1 Hx2]. split; [|done].
      rewrite (cmp_antisym pos_compare). by rewrite Hx1.
Qed.

Lemma elem_of_stored (rows : list idRow) C r : rows.*2 = stored <$> C → r ∈ rows → ∃ ev, ev ∈ C ∧ r.2 = stored ev.
Proof.
  intros Hst Hr. assert (r.2 ∈ stored <$> C) as Hs by (rewrite <-Hst; by apply list_elem_of_fmap_2).
  apply list_elem_of_fmap in Hs as (ev & -> & ?). eauto.
Qed.

Lemma elem_of_rows_of ev evs : ev ∈ rows_of evs → ev ∈ evs ∧ is_row ev = true.
Proof. unfold rows_of. rewrite list_elem_of_filter. tauto. Qed.

(** The cleanup of a position-mode restart. *)
Lemma kept_before_checkpoint n d fd s : (d ≤ length (events log))%nat → before base fd →
  stays base (no_caps e (events log)) (done_rows log d) fd (txns (take n (events log))).1
    (txns (take n (events log))).2 s →
  ∃ rows, kept_before (st_rows s) (File (last_pos (take d (events log)))) (Pos (last_pos (take d (events log)))) fd
            = base ++ rows ∧
    rows.*2 = stored <$> concat (txns (take d (events log))).1.
Proof.
  intros Hd [Hfd Hbase] Hs. destruct (stays_split _ _ _ _ _ _ _ Hs) as (rows & new & C & Hr & Hst & Hnew & Hp & Hids & _).
  exists rows. split; [|done]. destruct (cut_at log d Hd) as (m & T & Hm & HT & HqT & Hend & _ & _ & HD).
  assert (last_pos (take d (events log)) = last_pos (take m (events log))) as Hlp by (by rewrite HT, last_pos_quiet).
  destruct (last_pos_splits m Hend) as (_ & _ & Hbefore & Hafter). rewrite <-Hlp in Hbefore, Hafter.
  set (p := last_pos (take d (events log))) in *. destruct p as [f q] eqn:Hpq. simpl.
  rewrite <-HD in Hst, Hp.
  assert (rows_of (events log) = rows_of (take m (events log)) ++ rows_of (drop m (events log))) as Hsplit
    by (by rewrite <-rows_of_app, take_drop).
  rewrite Hsplit in Hp. apply prefix_app_inv in Hp. unfold kept_before. rewrite Hr, !filter_app.
  rewrite (filter_all _ base), (filter_all _ rows), (filter_none _ new); [by rewrite app_nil_r|..].
  - intros x Hx. apply (proj1 (Forall_forall _ _) Hids) in Hx as Hid.
    destruct (elem_of_stored _ _ _ Hnew Hx) as (ev & Hev & Hx2).
    assert (ev ∈ rows_of (drop m (events log))) as Hin by (destruct Hp as [k ->]; apply elem_of_app; auto).
    apply elem_of_rows_of in Hin as [Hin Hrow]. apply (proj1 (Forall_forall _ _) Hafter) in Hin as [_ Hin].
    unfold above_floor. rewrite (proj2 (Z.ltb_lt _ _) Hfd), (proj2 (Z.leb_le _ _) Hid), Hx2. simpl.
    rewrite (proj2 (beyond_compare f q (stored ev))); [done|]. exact (Hin Hrow).
  - intros x Hx. destruct (elem_of_stored _ _ _ Hst Hx) as (ev & Hev & Hx2).
    apply elem_of_rows_of in Hev as [Hin Hrow]. apply (proj1 (Forall_forall _ _) Hbefore) in Hin as [_ Hin].
    rewrite Hx2. destruct (beyond f q (stored ev)) eqn:Hby; [|by rewrite andb_false_r].
    apply beyond_compare in Hby. by destruct (Hby (Hin Hrow)).
  - intros x Hx. apply (proj1 (Forall_forall _ _) Hbase) in Hx. unfold above_floor.
    rewrite (proj2 (Z.ltb_lt _ _) Hfd), (proj2 (Z.leb_gt _ _) Hx). done.
Qed.

(** A DELETE runs, is refused, or runs without an answer. *)
Lemma wp_delete_rows f (Q : unit → run (G := G) → Prop) (F : run → Prop) r :
  (∀ r', moved (rn_st r) (rn_st r') [] (st_open (rn_st r)) → rn_ck r' = rn_ck r → F r') →
  (∀ r', st_rows (rn_st r') = f (st_rows (rn_st r)) → st_next (rn_st r') = st_next (rn_st r) →
     st_first (rn_st r') = st_first (rn_st r) → rn_ck r' = rn_ck r → Q tt r' ∧ F r') →
  wp (delete_rows e f) Q F r.
Proof.
  intros HF HQ. unfold delete_rows. wp_step. apply wp_lift. unfold wp at 1, call. simpl. wp_steps.
  destruct (e_answer e _); wp_steps; [by apply HQ|by apply HF; [apply moved_bump|]|by apply HQ].
Qed.

Lemma replay_position d ck : pos_cklink d ck → (d ≤ length (events log))%nat → ∀ m T,
  take d (events log) = take m (events log) ++ T → Forall (λ ev, isPositionCheckpointBoundary ev = false) T →
  (take m (events log) = [] ∨ ∃ B' b, take m (events log) = B' ++ [b] ∧ isPositionCheckpointBoundary b = true) →
  replay log ck = drop m (events log).
Proof.
  intros (_ & Hmode & Hpos) Hd m T HT HqT Hend. unfold replay. rewrite bool_decide_eq_true_2, Hpos by done.
  rewrite HT, last_pos_quiet by done. destruct (last_pos_splits m Hend) as (_ & _ & Hb & Ha).
  change (concat log.*2) with (events log). set (p := last_pos (take m (events log))) in *.
  trans (filter (λ ev, pos_compare (end_pos ev) p = Gt) (take m (events log) ++ drop m (events log)));
    [by rewrite take_drop|].
  rewrite filter_app, filter_none, filter_all; [done|..]; intros x Hx.
  - by apply (proj1 (Forall_forall _ _) Ha) in Hx as [? _].
  - by apply (proj1 (Forall_forall _ _) Hb) in Hx as [? _].
Qed.

Lemma resume_position r n d fd ck :
  stays base (no_caps e (events log)) (done_rows log d) fd (txns (take n (events log))).1
    (txns (take n (events log))).2 (rn_st r) →
  rn_ck r = Some ck → pos_cklink d ck → ck_dedupFloor ck = Some fd → before base fd →
  wp (resume e ck)
    (λ _ r', ∃ m, replay log ck = drop m (events log) ∧
       up_inv e log base (no_caps e (events log)) pos_link pos_cklink m r')
    (down_inv log base (no_caps e (events log)) pos_cklink) r.
Proof.
  intros Hs Hck Hckl Hfl Hbe. pose proof Hckl as (Hd & Hmode & Hpos).
  destruct (cut_at log d Hd) as (m & T & Hm & HT & HqT & Hend & Htx & Hdn & HD).
  assert (last_pos (take d (events log)) = last_pos (take m (events log))) as Hlp by (by rewrite HT, last_pos_quiet).
  destruct (last_pos_splits m Hend) as (Hf & Hw & _). rewrite <-Hlp, <-Hpos in Hf, Hw. simpl in Hf, Hw.
  destruct (kept_before_checkpoint n d fd _ Hd Hbe Hs) as (rows & Hkept & Hst). rewrite <-Hpos in Hkept. simpl in Hkept.
  destruct (stays_split _ _ _ _ _ _ _ Hs) as (_ & _ & _ & _ & _ & _ & _ & _ & Hnx & Hfx).
  unfold resume. rewrite bool_decide_eq_true_2, Hfl by done. simpl.
  rewrite (proj2 (N.ltb_ge _ _) Hw). wp_step. unfold deleteEventsSinceCheckpoint.
  rewrite bool_decide_eq_false_2 by done. apply wp_delete_rows.
  - intros r' Hmv E. exists n, d, fd, ck. rewrite E. split; [|done]. by eapply durable_moved.
  - intros r' R N F E.
    assert (cleaned log base pos_cklink d fd ck r') as Hcl.
    { split; [by exists rows; rewrite R, Hkept|by rewrite N, F|by rewrite E]. }
    split; [|by eapply cleaned_down]. wp_steps. exists m. split; [by eapply replay_position|].
    eapply cleaned_up; [exact Hcl|lia|done| |done]. split; [done|]. split; [|done]. simpl. by rewrite Hpos, Hlp.
Qed.

(** Every state of a position-mode system is good. *)
Lemma position_inv next y : 1 ≤ next → Forall (λ r, r.1 < next) base →
  reaches e log (λ _, True) (first_run (G := G) "position" (File p0) (Pos p0) None base next (events log)) y →
  sys_inv e log base (no_caps e (events log)) pos_link pos_cklink y.
Proof.
  intros Hn Hids. apply reaches_inv.
  - by intros [? _].
  - by intros [_ ?].
  - eapply Forall_impl; [exact (pl_events _ _ Hlog)|]. simpl. by intros x (_ & _ & ?).
  - intros n ev ss ss' Hev (L1 & L2 & L3) [F1 F2 F3 F4 F5 _ _]. split; [congruence|].
    rewrite (take_S_r _ _ _ Hev), last_pos_snoc.
    apply (proj1 (Forall_lookup _ _) (pl_events _ _ Hlog)) in Hev as (Hfile & _).
    rewrite bool_decide_eq_false_2 in F2 by done. rewrite F2 in F4.
    destruct (isPositionCheckpointBoundary ev); injection F4 as -> ->; [|by rewrite F5].
    split; [done|]. by rewrite F5, L3.
  - intros n ss ss' (L1 & L2 & L3) [S1 _ _ S4 S5 _ _ S8]. unfold pos_link. by rewrite S1, S4, S5, S8.
  - done.
  - intros n ss before Hle (L1 & L2 & L3) _. split; [done|]. split; [done|].
    destruct (cut_at log n Hle) as (m & T & Hm & HT & HqT & Hend & _).
    destruct (last_pos_splits m Hend) as (Hf & _).
    assert (last_pos (take n (events log)) = last_pos (take m (events log))) as Hlp by (by rewrite HT, last_pos_quiet).
    rewrite <-Hlp, <-L2 in Hf. simpl in Hf. unfold checkpoint_row, checkpointPosition. simpl.
    rewrite bool_decide_eq_true_2, bool_decide_eq_false_2 by done. done.
  - intros n ev ev' ss _ _ _ _ (_ & _ & L3). done.
  - intros. by eapply resume_position.
  - assert (∀ p : BinlogPos, {| File := File p; Pos := Pos p |} = p) as Heta by (by intros []).
    apply first_run_inv; [done..| |].
    + split; [done|]. split; [|done]. apply Heta.
    + split; [lia|]. split; [done|]. destruct (pl_p0 _ _ Hlog) as [Hf _]. unfold checkpoint_row, checkpointPosition.
      simpl. rewrite bool_decide_eq_false_2 by done. apply Heta.
Qed.
End position.

(** C3: exactly-once capture in position mode. Whatever statements fail or
    lose their answer, whenever the process crashes, stops or is resumed, and
    wherever checkpoints fall, the index holds the rows it had before the first
    run untouched, then the rows of the source's log in order from its start:
    none twice and none skipped. If no transaction reaches a cap, they are whole
    transactions. *)
Theorem capture_position_once {G} `{GTIDSet G} e log base p0 next y :
  position_log p0 (events log) → 1 ≤ next → Forall (λ r, r.1 < next) base →
  reaches e log (λ _, True) (first_run (G := G) "position" (File p0) (Pos p0) None base next (events log)) y →
  ∃ C rows, st_rows (rn_st (sy_run y)) = base ++ rows ∧ rows.*2 = stored <$> C ∧
    C `prefix_of` rows_of (events log) ∧
    (no_caps e (events log) → ∃ j, C = concat (take j (txns (events log)).1)).
Proof. intros. eapply sys_inv_visible, position_inv; eauto. Qed.

(** C25: nothing is lost. A checkpoint of a position-mode run that returns
    without an error once the whole log was delivered has made the rows of
    every complete transaction visible; with the last transaction complete,
    those are all rows of the log, once each. *)
Theorem capture_position_complete {G} `{GTIDSet G} e log base p0 next y y' :
  position_log p0 (events log) → 1 ≤ next → Forall (λ r, r.1 < next) base →
  reaches e log (λ _, True) (first_run (G := G) "position" (File p0) (Pos p0) None base next (events log)) y →
  sy_phase y = Up [] → exec e log Tick y = Some y' → sy_phase y' = Up [] →
  ∃ C rows, st_rows (rn_st (sy_run y')) = base ++ rows ∧ rows.*2 = stored <$> C ∧
    concat (txns (events log)).1 `prefix_of` C ∧ C `prefix_of` rows_of (events log) ∧
    ((txns (events log)).2 = [] → C = rows_of (events log)).
Proof.
  intros Hlog Hn Hids Hr Hph Hex Hph'. pose proof (position_inv _ _ _ _ Hlog next y Hn Hids Hr) as Hy.
  destruct (sys_tick_shows e log base _ _ _ (λ _, True) y y' _ _ Hy Hph I Hex Hph') as (n & C & rows & Hdr & Hrows & Hst & H1 & H2).
  assert (take n (events log) = events log) as Hn'.
  { rewrite <-(take_drop n (events log)) at 2. by rewrite <-Hdr, app_nil_r. }
  rewrite Hn' in H1, H2. exists C, rows. split_and!; try done. intros Hend.
  apply prefix_length_eq; [done|]. rewrite <-txns_rows, Hend, app_nil_r. by apply prefix_length.
Qed.

(** ** Runs *)

(** A sequence of steps, each allowed. *)
Fixpoint drive {G} `{GTIDSet G} (e : Env) (log : list (string * list Event)) (ok : streamState (G := G) → bool)
    (ls : list label) (y : sys (G := G)) : option sys :=
  match ls with
  | [] => Some y
  | l :: ls' =>
      if match l with Tick | Stop => ok (rn_ss (sy_run y)) | _ => true end
      then y' ← exec e log l y; drive e log ok ls' y' else None
  end.

(** Where the steps lead; the start, if one of them is not possible. *)
Definition driven {G} `{GTIDSet G} e log (ok : streamState (G := G) → bool) ls y : sys (G := G) :=
  default y (drive e log ok ls y).

Lemma drive_reaches {G} `{GTIDSet G} e log (ok : streamState (G := G) → bool) (savable : streamState (G := G) → Prop) ls y0 :
  (∀ ss, ok ss = true → savable ss) → reaches e log savable y0 (driven e log ok ls y0).
Proof.
  intros Hok. unfold driven. destruct (drive e log ok ls y0) as [y'|] eqn:Hd; [|constructor]. simpl.
  assert (∀ y, reaches e log savable y0 y → drive e log ok ls y = Some y' → reaches e log savable y0 y') as Hall;
    [|eapply Hall; [constructor|done]].
  clear Hd. induction ls as [|l ls IH]; intros y Hy Hd; simpl in Hd; [by injection Hd as <-|].
  destruct (match l with Tick | Stop => ok (rn_ss (sy_run y)) | _ => true end) eqn:Hg; [|done].
  destruct (exec e log l y) as [y1|] eqn:Hex; [|done]. simpl in Hd. eapply IH; [|exact Hd].
  eapply reaches_step; [exact Hy| |exact Hex]. intros [-> | ->]; auto.
Qed.

Definition sample_event (ty start stop : N) (gtid pk : string) : Event := {|
  ev_BinlogFile := "b.01"; ev_StartPos := start; ev_EndPos := stop; ev_Timestamp := 1; ev_GTID := gtid;
  ev_ConnectionID := 0; ev_QueryText := ""; ev_CommitTsUS := 0; ev_Schema := "s"; ev_Table := "t"; ev_EventType := ty;
  ev_PKValues := pk; ev_RowBefore := None; ev_RowAfter := None; ev_SchemaVersion := 0; ev_ReadAt := 0 |}.

(** Two transactions; the rows of the first are of one rows event, those of the
    second of two. *)
Definition sample_log : list (string * list Event) := [
  ("u:1", [sample_event EventGTID 100 150 "u:1" ""; sample_event EventInsert 150 200 "u:1" "1";
           sample_event EventInsert 150 200 "u:1" "2"; sample_event EventCommit 200 250 "u:1" ""]);
  ("u:2", [sample_event EventGTID 250 300 "u:2" ""; sample_event EventInsert 300 350 "u:2" "3";
           sample_event EventInsert 350 380 "u:2" "4"; sample_event EventCommit 380 400 "u:2" ""])].

(** A server that does not take some calls. *)
Definition sample_env (refused : list nat) (batch : Z) : Env := {|
  e_batchSize := batch; e_maxRows := 100; e_maxOpen := 100; e_encodable := λ _, true;
  e_answer := λ i, if bool_decide (i ∈ refused) then Refused else Done;
  e_skip := λ _, 0%N; e_stop := λ _, false; e_now := λ _, 0 |}.

#[export] Instance sample_sets : GTIDSet (list string) := {|
  gs_empty := []; gs_update := λ g s, Some (s ++ [g]); gs_contain := λ s g, bool_decide (g ∈ s) |}.

Definition sample_base : list idRow := [(1, stored (sample_event EventInsert 10 20 "u:0" "0"))].

Definition sample_start (mode : string) (log : list (string * list Event)) : sys (G := list string) :=
  first_run mode "b.01" 100 (if bool_decide (mode = "gtid") then Some [] else None) sample_base 2 (events log).

(** The primary keys a reader sees. *)
Definition keys (y : sys (G := list string)) : list string := (λ r, sr_pk_values r.2) <$> st_rows (rn_st (sy_run y)).

(** The save of the second checkpoint is refused after its rows were written;
    then the process dies and is resumed. *)
Definition sample_run : list label :=
  replicate 4 Deliver ++ [Tick] ++ replicate 4 Deliver ++ [Tick; Crash; Resume] ++ replicate 4 Deliver.

#[local] Instance pair_ok_dec a b : Decision (pair_ok a b).
Proof. unfold pair_ok. apply _. Defined.

#[local] Instance pairs_ok_dec evs : Decision (pairs_ok evs).
Proof. induction evs as [|a evs IH]; simpl; apply _. Defined.

Lemma sample_position_log : position_log {| File := "b.01"; Pos := 100 |} (events sample_log).
Proof. split; apply (bool_decide_unpack _); vm_compute; exact I. Qed.

(** The checkpoint after the second transaction is not saved; its rows are
    removed and read again. *)
Definition sample_position : sys := driven (sample_env [5%nat] 10) sample_log (λ _, true) sample_run (sample_start "position" sample_log).
Definition sample_shown : sys := driven (sample_env [5%nat] 10) sample_log (λ _, true) [Tick] sample_position.

Lemma sample_position_reaches :
  reaches (sample_env [5%nat] 10) sample_log (λ _, True) (sample_start "position" sample_log) sample_position.
Proof. by apply drive_reaches. Qed.

Lemma capture_position_once_witness : keys sample_position = ["0"; "1"; "2"] ∧
  ∃ C rows, st_rows (rn_st (sy_run sample_position)) = sample_base ++ rows ∧ rows.*2 = stored <$> C ∧
    C `prefix_of` rows_of (events sample_log).
Proof.
  split; [vm_compute; reflexivity|].
  destruct (capture_position_once (sample_env [5%nat] 10) sample_log sample_base {| File := "b.01"; Pos := 100 |} 2 sample_position
    sample_position_log ltac:(lia) ltac:(repeat constructor) sample_position_reaches) as (C & rows & H1 & H2 & H3 & _).
  exists C, rows. split; [exact H1|]. split; [exact H2|exact H3].
Defined.

Lemma capture_position_complete_witness : keys sample_shown = ["0"; "1"; "2"; "3"; "4"] ∧
  ∃ C rows, st_rows (rn_st (sy_run sample_shown)) = sample_base ++ rows ∧ rows.*2 = stored <$> C ∧
    C = rows_of (events sample_log).
Proof.
  split; [vm_compute; reflexivity|].
  destruct (capture_position_complete (sample_env [5%nat] 10) sample_log sample_base {| File := "b.01"; Pos := 100 |} 2
    sample_position sample_shown sample_position_log ltac:(lia) ltac:(repeat constructor) sample_position_reaches
    ltac:(vm_compute; reflexivity) ltac:(vm_compute; reflexivity) ltac:(vm_compute; reflexivity))
    as (C & rows & H1 & H2 & _ & _ & H5).
  exists C, rows. split; [exact H1|]. split; [exact H2|]. apply H5. vm_compute. reflexivity.
Defined.
