(* ===== verification/CaptureGtid.v ===== *)
(** * Capture indexes every change once, by GTID

    The GTID-mode counterpart of [Capture]: a run whose checkpoint is a GTID
    set, the two passes of its resume-time cleanup, and the restarts for which
    the index still holds every change of the log once. Two concrete runs then
    show the restarts for which it does not. *)
From S2P Require Import Prelude GoStrings GoTime GoVal GoIO Event Rows TxnBatch StreamRun Capture.
#[local] Open Scope Z_scope.

(** ** The log *)

(** One transaction of the log: a start that is no row, rows that carry its
    GTID, and its end; all in one file of the binary log. *)
Record txn_ok (t : string * list Event) : Prop := {
  tx_gtid : t.1 ≠ "";
  tx_shape : ∃ body last, t.2 = body ++ [last] ∧ isPositionCheckpointBoundary last = true ∧ ev_GTID last = t.1 ∧
    ev_BinlogFile last ≠ "" ∧
    Forall (λ ev, isPositionCheckpointBoundary ev = false ∧ ev_BinlogFile ev = ev_BinlogFile last ∧
                  ev_EventType ev ≠ EventCaughtUp ∧ (is_row ev = true → ev_GTID ev = t.1)) body;
  tx_start : ∃ ev evs, t.2 = ev :: evs ∧ is_row ev = false;
}.

(** [a] is before [b] in the log, in the same transaction or not. *)
Definition ordered (later : bool) (a b : Event) : Prop :=
  pos_compare (end_pos a) (end_pos b) ≠ Gt ∧
  (is_row a = true → is_row b = true → pos_compare (start_pos a) (start_pos b) ≠ Gt) ∧
  (later = true → is_row b = true → pos_compare (start_pos b) (end_pos a) ≠ Lt).

Fixpoint ordered_in (evs : list Event) : Prop :=
  match evs with [] => True | a :: evs' => Forall (ordered false a) evs' ∧ ordered_in evs' end.

Fixpoint ordered_log (log : list (string * list Event)) : Prop :=
  match log with
  | [] => True
  | t :: log' => ordered_in t.2 ∧ Forall (λ t', Forall (λ a, Forall (ordered true a) t'.2) t.2) log' ∧ ordered_log log'
  end.

(** A log read from [p0] on, its transactions of a given shape, and the sets of
    its first transactions. *)
Record log_of {G} `{GTIDSet G} (shape : string * list Event → Prop) (p0 : BinlogPos) (log : list (string * list Event))
    (sets : nat → G) : Prop := {
  gl_txns : Forall shape log;
  gl_order : ordered_log log;
  gl_rows : Forall (λ t, Forall (λ ev, is_row ev = true →
    pos_compare (start_pos ev) (end_pos ev) = Lt ∧ pos_compare (start_pos ev) p0 ≠ Lt) t.2) log;
  gl_p0 : File p0 ≠ "";
  gl_update : ∀ i t, log !! i = Some t → gs_update t.1 (sets i) = Some (sets (S i));
  gl_contain : ∀ k i t, log !! i = Some t → gs_contain (sets k) t.1 = (i <? k)%nat;
}.
Arguments gl_txns {G _ shape} p0 log sets _.
Arguments gl_order {G _ shape} p0 log sets _.
Arguments gl_rows {G _ shape} p0 log sets _.
Arguments gl_p0 {G _ shape} p0 log sets _.
Arguments gl_update {G _ shape} p0 log sets _.
Arguments gl_contain {G _ shape} p0 log sets _.

(** A log whose transactions end with their only commit or DDL. *)
Abbreviation gtid_log := (log_of txn_ok).

Lemma events_cons t (log : list (string * list Event)) : events (t :: log) = t.2 ++ events log.
Proof. done. Qed.

(** The first [n] events: whole transactions and the start of the next. *)
Lemma events_split (log : list (string * list Event)) n : (n ≤ length (events log))%nat →
  Forall (λ t, t.2 ≠ []) log →
  ∃ L1 L2 part, log = L1 ++ L2 ∧ take n (events log) = events L1 ++ part ∧
    drop (length (events L1)) (events log) = events L2 ∧
    ((L2 = [] ∧ part = [] ∧ events log !! n = None) ∨
     ∃ t L2' ev rest, L2 = t :: L2' ∧ t.2 = part ++ ev :: rest ∧ events log !! n = Some ev).
Proof.
  revert n. induction log as [|t log IH]; intros n Hn Hne.
  { exists [], [], []. unfold events. simpl. rewrite take_nil. auto 10. }
  apply Forall_cons in Hne as [Ht Hne]. rewrite events_cons in *. rewrite length_app in Hn.
  destruct (decide (n < length t.2)%nat) as [Hlt|Hge].
  - destruct (lookup_lt_is_Some_2 t.2 n Hlt) as [ev Hev].
    exists [], (t :: log), (take n t.2). simpl. split_and!; try done; [by rewrite take_app_le by lia|].
    right. exists t, log, ev, (drop (S n) t.2). split_and!; try done; [by rewrite take_drop_middle|].
    by apply lookup_app_l_Some.
  - destruct (IH (n - length t.2)%nat ltac:(lia) Hne) as (L1 & L2 & part & -> & Htake & Hdrop & Hcase).
    exists (t :: L1), L2, part. rewrite events_cons. split_and!; try done.
    + rewrite take_app_ge, Htake, app_assoc by lia. done.
    + by rewrite length_app, drop_app_add.
    + rewrite lookup_app_r by lia. done.
Qed.

Lemma events_app a b : events (a ++ b) = events a ++ events b.
Proof. unfold events. by rewrite fmap_app, concat_app. Qed.

Lemma txns_whole log : Forall txn_ok log → txns (events log) = ((λ t, rows_of t.2) <$> log, []).
Proof.
  induction log as [|t log IH] using rev_ind; intros Hl; [done|].
  apply Forall_app in Hl as [Hl Ht]. apply Forall_cons_1 in Ht as [Ht _]. rewrite events_app, fmap_app.
  destruct (tx_shape _ Ht) as (body & last & Hs & Hb & _ & _ & Hbody).
  unfold events at 2. simpl. rewrite app_nil_r, Hs, app_assoc, txns_snoc, txns_app_quiet, IH; [|done|].
  - unfold note. rewrite Hb. simpl. by rewrite rows_of_app, rows_of_one, is_row_boundary, app_nil_r.
  - eapply Forall_impl; [exact Hbody|]. simpl. tauto.
Qed.

Lemma txn_nonempty t : txn_ok t → t.2 ≠ [].
Proof. intros [_ _ (ev & evs & -> & _)]. done. Qed.

(** A proper beginning of a transaction holds no end. *)
Lemma part_quiet t part ev rest : txn_ok t → t.2 = part ++ ev :: rest →
  Forall (λ x, isPositionCheckpointBoundary x = false) part ∧
  (isPositionCheckpointBoundary ev = true → rest = [] ∧ ev_GTID ev = t.1).
Proof.
  intros [_ (body & last & Hs & Hb & Hg & _ & Hbody) _] Ht. rewrite Hs in Ht.
  destruct rest as [|x rest] using rev_ind.
  - apply app_inj_tail in Ht as [-> ->]. split; [|done]. eapply Forall_impl; [exact Hbody|]. simpl. tauto.
  - rewrite app_comm_cons, app_assoc in Ht. apply app_inj_tail in Ht as [-> _].
    apply Forall_app in Hbody as [H1 H2]. apply Forall_cons in H2 as [[H2 _] _].
    split; [eapply Forall_impl; [exact H1|]; simpl; tauto|congruence].
Qed.

(** *** Order of the events *)

Lemma ordered_weak b a c : ordered b a c → ordered false a c.
Proof. intros (H1 & H2 & _). done. Qed.

Lemma ordered_in_sorted evs : ordered_in evs → StronglySorted (ordered false) evs.
Proof. induction evs as [|a evs IH]; simpl; [constructor|]. intros [H1 H2]. constructor; auto. Qed.

(** What a sorted list has before a bound is a prefix of it. *)
Lemma filter_prefix {A} (R : A → A → Prop) (P : A → Prop) `{!∀ x, Decision (P x)} (l : list A) :
  StronglySorted R l → (∀ x y, x ∈ l → y ∈ l → R x y → P y → P x) → filter P l `prefix_of` l.
Proof.
  induction 1 as [|x l Hl IH Hx]; intros HP; [done|]. rewrite filter_cons. case_decide as Hd.
  - apply prefix_cons, IH. intros y z Hy Hz. apply HP; by right.
  - rewrite filter_none; [apply prefix_nil|]. intros y Hy Hpy. apply Hd. eapply HP; [by left|by right| |done].
    by apply (proj1 (Forall_forall _ _) Hx).
Qed.

Lemma elem_of_events ev (log : list (string * list Event)) : ev ∈ events log ↔ ∃ i t, log !! i = Some t ∧ ev ∈ t.2.
Proof.
  induction log as [|u log IH]; [split; [by intros ?%not_elem_of_nil|by intros (i & t & Hi & _)]|].
  rewrite events_cons, elem_of_app, IH. split.
  - intros [Hev|(i & t & Hi & Hev)]; [by exists 0%nat, u|by exists (S i), t].
  - intros ([|i] & t & Hi & Hev); simpl in *; [injection Hi as ->; auto|eauto].
Qed.

Lemma ordered_log_sorted log : ordered_log log → StronglySorted (ordered false) (events log).
Proof.
  induction log as [|t log IH]; simpl; [constructor|]. intros (H1 & H2 & H3). rewrite events_cons.
  apply StronglySorted_app_2; auto using ordered_in_sorted. intros a b Ha Hb. apply elem_of_events in Hb as (i & t' & Ht'%list_elem_of_lookup_2 & Hb).
  apply (proj1 (Forall_forall _ _) H2) in Ht'. apply (proj1 (Forall_forall _ _) Ht') in Ha.
  apply (proj1 (Forall_forall _ _) Ha) in Hb. by eapply ordered_weak.
Qed.

(** Every event of a transaction is before every event of a later one. *)
Lemma ordered_log_later log i j t t' a b : ordered_log log → (i < j)%nat → log !! i = Some t → log !! j = Some t' →
  a ∈ t.2 → b ∈ t'.2 → ordered true a b.
Proof.
  revert i j. induction log as [|u log IH]; intros i j Ho Hij Hi Hj Ha Hb; [done|].
  destruct Ho as (_ & H2 & H3), j as [|j]; [lia|]. destruct i as [|i]; simpl in *; [|by apply (IH i j); auto; lia].
  injection Hi as ->. apply list_elem_of_lookup_2 in Hj. apply (proj1 (Forall_forall _ _) H2) in Hj.
  apply (proj1 (Forall_forall _ _) Hj) in Ha. by apply (proj1 (Forall_forall _ _) Ha) in Hb.
Qed.

(** The rows of a transaction carry its GTID, its events its file. *)
Lemma txn_events t ev : txn_ok t → ev ∈ t.2 →
  ev_BinlogFile ev ≠ "" ∧ ev_EventType ev ≠ EventCaughtUp ∧ (is_row ev = true → ev_GTID ev = t.1) ∧
  ∀ ev', ev' ∈ t.2 → ev_BinlogFile ev' = ev_BinlogFile ev.
Proof.
  intros [_ (body & last & Hs & Hb & Hg & Hf & Hbody) _]. rewrite Hs.
  assert (∀ x, x ∈ body ++ [last] → ev_BinlogFile x = ev_BinlogFile last ∧ ev_EventType x ≠ EventCaughtUp ∧
    (is_row x = true → ev_GTID x = t.1)) as Hall.
  { intros x Hx. apply elem_of_app in Hx as [Hx|Hx%list_elem_of_singleton].
    - apply (proj1 (Forall_forall _ _) Hbody) in Hx. tauto.
    - subst x. split_and!; [done| |done]. intros Hc. unfold isPositionCheckpointBoundary in Hb. by rewrite Hc in Hb. }
  intros Hev. destruct (Hall ev Hev) as (H1 & H2 & H3). split_and!; [congruence|done|done|].
  intros ev' Hev'. destruct (Hall ev' Hev') as (-> & _). done.
Qed.

Section gtid.
Context {G : Type} `{GTIDSet G} (e : Env) (log : list (string * list Event)) (base : list idRow).
Context (p0 : BinlogPos) (sets : nat → G) (Hlog : gtid_log p0 log sets).

Definition pos_at (evs : list Event) : BinlogPos := match last evs with Some ev => end_pos ev | None => p0 end.

Definition complete (n : nat) : nat := length (txns (take n (events log))).1.

Definition gtid_link (n : nat) (ss : streamState (G := G)) : Prop :=
  ss_mode ss = "gtid" ∧ ss_accGTID ss = Some (sets (complete n)) ∧ ss_gtidSet ss = ss_accGTID ss ∧
  (ss_binlogFile ss = "" ∨ {| File := ss_binlogFile ss; Pos := ss_binlogPos ss |} = pos_at (take n (events log))).

Definition gtid_cklink (d : nat) (ck : checkpointRow (G := G)) : Prop :=
  (d ≤ length (events log))%nat ∧ ck_mode ck = "gtid" ∧ ck_gtidSet ck = Some (sets (complete d)) ∧
  {| File := ck_file ck; Pos := ck_pos ck |} = pos_at (take d (events log)) ∧ ck_file ck ≠ "".

(** The events before a point, as transactions. *)
Lemma split_at n : (n ≤ length (events log))%nat → ∃ L1 L2 part, log = L1 ++ L2 ∧
  take n (events log) = events L1 ++ part ∧ drop (length (events L1)) (events log) = events L2 ∧
  Forall (λ x, isPositionCheckpointBoundary x = false) part ∧
  txns (take n (events log)) = ((λ t, rows_of t.2) <$> L1, rows_of part) ∧ complete n = length L1 ∧
  ((L2 = [] ∧ part = [] ∧ events log !! n = None) ∨
   ∃ t L2' ev rest, L2 = t :: L2' ∧ t.2 = part ++ ev :: rest ∧ events log !! n = Some ev ∧ txn_ok t ∧
     (isPositionCheckpointBoundary ev = true → rest = [] ∧ ev_GTID ev = t.1)).
Proof.
  intros Hn. destruct (events_split log n Hn) as (L1 & L2 & part & HL & Htake & Hdrop & Hcase).
  { eapply Forall_impl; [exact (gl_txns _ _ _ Hlog)|]. apply txn_nonempty. }
  pose proof (gl_txns _ _ _ Hlog) as Hok. rewrite HL in Hok. apply Forall_app in Hok as [Hok1 Hok2].
  assert (Forall (λ x, isPositionCheckpointBoundary x = false) part ∧
    ((L2 = [] ∧ part = [] ∧ events log !! n = None) ∨
     ∃ t L2' ev rest, L2 = t :: L2' ∧ t.2 = part ++ ev :: rest ∧ events log !! n = Some ev ∧ txn_ok t ∧
       (isPositionCheckpointBoundary ev = true → rest = [] ∧ ev_GTID ev = t.1))) as [Hq Hc].
  { destruct Hcase as [(-> & -> & ?)|(t & L2' & ev & rest & -> & Ht & Hev)]; [by auto|].
    apply Forall_cons in Hok2 as [Htok _]. destruct (part_quiet _ _ _ _ Htok Ht). split; [done|]. right. eauto 10. }
  assert (txns (take n (events log)) = ((λ t, rows_of t.2) <$> L1, rows_of part)) as Htx.
  { by rewrite Htake, txns_app_quiet, txns_whole by done. }
  exists L1, L2, part. split_and!; try done. unfold complete. rewrite Htx. simpl. by rewrite length_fmap.
Qed.
Lemma gtid_sorted : StronglySorted (ordered false) (events log).
Proof. apply ordered_log_sorted, (gl_order _ _ _ Hlog). Qed.

(** No event read ends after the position. *)
Lemma pos_at_last n ev : ev ∈ take n (events log) → pos_compare (end_pos ev) (pos_at (take n (events log))) ≠ Gt.
Proof.
  intros Hev. unfold pos_at. pose proof gtid_sorted as Hs. rewrite <-(take_drop n (events log)) in Hs.
  apply StronglySorted_app in Hs as (_ & Hs & _). induction (take n (events log)) as [|l evs _] using rev_ind.
  { by apply not_elem_of_nil in Hev. }
  rewrite last_snoc. apply StronglySorted_app in Hs as (Hs & _).
  apply elem_of_app in Hev as [Hev| ->%list_elem_of_singleton]; [|by rewrite (cmp_refl pos_compare)].
  by destruct (Hs ev l Hev (list_elem_of_here _ _)).
Qed.

(** The rows of complete transactions: before the position, their GTID in the set. *)
Lemma complete_rows n L1 L2 part : log = L1 ++ L2 → take n (events log) = events L1 ++ part → ∀ ev,
  ev ∈ rows_of (events L1) →
  pos_compare (start_pos ev) (pos_at (take n (events log))) = Lt ∧ gs_contain (sets (length L1)) (ev_GTID ev) = true.
Proof.
  intros HL Htake ev Hev. apply elem_of_rows_of in Hev as [Hev Hrow].
  assert (ev ∈ take n (events log)) as Hin by (rewrite Htake; apply elem_of_app; auto).
  apply pos_at_last in Hin. apply elem_of_events in Hev as (i & t & Hi & Ht).
  assert (log !! i = Some t) as Hi' by (rewrite HL; by apply lookup_app_l_Some).
  pose proof (proj1 (Forall_lookup _ _) (gl_rows _ _ _ Hlog) _ _ Hi') as Hr.
  destruct (proj1 (Forall_forall _ _) Hr _ Ht Hrow) as [Hlt _].
  pose proof (proj1 (Forall_lookup _ _) (gl_txns _ _ _ Hlog) _ _ Hi') as Hok.
  destruct (txn_events t ev Hok Ht) as (_ & _ & -> & _); [|done]. split.
  - by eapply (cmp_lt_le_trans pos_compare).
  - rewrite (gl_contain _ _ _ Hlog _ _ _ Hi'). apply lookup_lt_Some in Hi. by apply Nat.ltb_lt.
Qed.

(** The rows after them that start before the position: of the transaction
    being read, in its file, their GTID not in the set. *)
Lemma open_rows n L1 L2 part : log = L1 ++ L2 → take n (events log) = events L1 ++ part →
  ((L2 = [] ∧ part = []) ∨ ∃ t L2' ev rest, L2 = t :: L2' ∧ t.2 = part ++ ev :: rest) → ∀ ev,
  ev ∈ rows_of (events L2) → pos_compare (start_pos ev) (pos_at (take n (events log))) = Lt →
  ev_BinlogFile ev = File (pos_at (take n (events log))) ∧ ev_GTID ev ≠ "" ∧
  gs_contain (sets (length L1)) (ev_GTID ev) = false.
Proof.
  intros HL Htake Hcase ev Hev Hlt. apply elem_of_rows_of in Hev as [Hev Hrow].
  apply elem_of_events in Hev as (j & t & Hj & Ht).
  assert (log !! (length L1 + j)%nat = Some t) as Hj' by (by rewrite HL, lookup_app_r, Nat.add_sub' by lia).
  pose proof (proj1 (Forall_lookup _ _) (gl_txns _ _ _ Hlog) _ _ Hj') as Hok.
  assert (∀ i u x, log !! i = Some u → x ∈ u.2 → (i < length L1 + j)%nat → pos_compare (start_pos ev) (end_pos x) ≠ Lt) as Hlater.
  { intros i u x Hi Hx Hij. apply (ordered_log_later log i (length L1 + j) u t x ev (gl_order _ _ _ Hlog)); auto. }
  destruct Hcase as [[-> ->]|(u & L2' & y & rest & HL2 & Hu)]; [done|].
  rewrite Htake in *. destruct part as [|x part _] using rev_ind.
  { exfalso. rewrite app_nil_r in Hlt. unfold pos_at in Hlt. destruct (last (events L1)) as [x|] eqn:Hlast.
    - apply last_Some_elem_of, elem_of_events in Hlast as (i & v & Hi & Hx). apply (Hlater i v x); auto.
      + rewrite HL. by apply lookup_app_l_Some.
      + apply lookup_lt_Some in Hi. lia.
    - pose proof (proj1 (Forall_lookup _ _) (gl_rows _ _ _ Hlog) _ _ Hj') as Hr.
      by destruct (proj1 (Forall_forall _ _) Hr _ Ht Hrow). }
  assert (x ∈ u.2) as Hx by (rewrite Hu; set_solver).
  unfold pos_at in *. rewrite app_assoc, last_snoc in *. simpl.
  assert (j = 0)%nat as ->.
  { destruct j as [|j]; [done|]. exfalso. apply (Hlater (length L1) u x); auto; [|lia].
    by rewrite HL, HL2, list_lookup_middle. }
  rewrite HL2 in Hj. injection Hj as ->. destruct (txn_events _ _ Hok Ht) as (_ & _ & -> & Hf); [|done].
  split_and!; [by rewrite (Hf x)|apply tx_gtid, Hok|]. rewrite (gl_contain _ _ _ Hlog _ _ _ Hj').
  apply Nat.ltb_ge. lia.
Qed.

(** *** The cleanup of a restart *)

Lemma not_beyond p ev : beyond (File p) (Pos p) (stored ev) = false ↔ pos_compare (start_pos ev) p = Lt.
Proof.
  rewrite <-not_true_iff_false, beyond_compare. destruct p. simpl. unfold start_pos.
  split; [|by intros -> Hn]. destruct (pos_compare _ _); intros Hn; [by destruct Hn|done|by destruct Hn].
Qed.

Lemma above_floor_low fd id : 0 < fd → id < fd → above_floor fd id = false.
Proof. intros Hf Hi. unfold above_floor. rewrite (proj2 (Z.ltb_lt _ _) Hf). by apply Z.leb_gt. Qed.

Lemma above_floor_high fd id : fd ≤ id → above_floor fd id = true.
Proof. intros Hi. unfold above_floor. destruct (0 <? fd); [by apply Z.leb_le|done]. Qed.

(** Rows and their events, filtered alike. *)
Lemma filter_stored (f : storedRow → bool) (rows : list idRow) C : rows.*2 = stored <$> C →
  (filter (λ r, f r.2 = false) rows).*2 = stored <$> filter (λ ev, f (stored ev) = false) C.
Proof.
  revert C. induction rows as [|r rows IH]; intros [|ev C] E; csimpl in *; try discriminate E; [done|].
  injection E as E1 E2. rewrite !filter_cons, E1. case_decide; csimpl; rewrite ?E1; [f_equal|]; by apply IH.
Qed.

(** What is left of a dead run's rows before the second pass. *)
Record half_clean (d : nat) (fd : Z) (rows left : list idRow) (C : list Event) : Prop := {
  hc_base : Forall (λ r, r.1 < fd) base;
  hc_rows : rows.*2 = stored <$> concat (txns (take d (events log))).1;
  hc_left : left.*2 = stored <$> C;
  hc_ids : Forall (λ r, fd ≤ r.1) left;
  hc_open : Forall (λ ev, pos_compare (start_pos ev) (pos_at (take d (events log))) = Lt ∧
    ev_BinlogFile ev = File (pos_at (take d (events log))) ∧ ev_GTID ev ≠ "" ∧
    gs_contain (sets (complete d)) (ev_GTID ev) = false) C;
  hc_prefix : concat (txns (take d (events log))).1 ++ C `prefix_of` rows_of (events log);
}.

(** The first pass leaves the rows of complete transactions and, of the one
    that was being read, those that start before the checkpoint. *)
Lemma first_pass n d fd s : (d ≤ length (events log))%nat → before base fd →
  stays base False (done_rows log d) fd (txns (take n (events log))).1 (txns (take n (events log))).2 s →
  let p := pos_at (take d (events log)) in
  ∃ rows left C, kept_before (st_rows s) (File p) (Pos p) fd = base ++ rows ++ left ∧ half_clean d fd rows left C.
Proof.
  intros Hd [Hfd Hbase] Hs p. destruct (stays_split _ _ _ _ _ _ _ Hs) as (rows & new & C & Hr & Hst & Hnew & Hp & Hids & _).
  destruct (split_at d Hd) as (L1 & L2 & part & HL & Htake & Hdrop & Hq & Htx & Hc & Hcase).
  assert (concat (txns (take d (events log))).1 = rows_of (events L1)) as HD.
  { pose proof (gl_txns _ _ _ Hlog) as Hok. rewrite HL in Hok. apply Forall_app in Hok as [Hok _].
    rewrite <-txns_rows, (txns_whole L1 Hok), Htx. simpl. by rewrite app_nil_r. }
  assert (rows_of (events log) = rows_of (events L1) ++ rows_of (events L2)) as Hsplit
    by (by rewrite HL, events_app, rows_of_app).
  rewrite HD, Hsplit in Hp. rewrite HD in Hst. apply prefix_app_inv in Hp.
  exists rows, (filter (λ r, beyond (File p) (Pos p) r.2 = false) new),
    (filter (λ ev, beyond (File p) (Pos p) (stored ev) = false) C). split.
  - unfold kept_before. rewrite Hr, !filter_app. f_equal; [|f_equal].
    + apply filter_all. intros x Hx. apply (proj1 (Forall_forall _ _) Hbase) in Hx.
      by rewrite above_floor_low.
    + apply filter_all. intros x Hx. destruct (elem_of_stored _ _ _ Hst Hx) as (ev & Hev & ->).
      destruct (complete_rows d L1 L2 part HL Htake ev Hev) as [Hlt _]. apply not_beyond in Hlt.
      subst p. by rewrite Hlt, andb_false_r.
    + apply filter_iff_in. intros x Hx. apply (proj1 (Forall_forall _ _) Hids) in Hx. by rewrite above_floor_high.
  - split; [done|by rewrite HD|by apply (filter_stored (beyond (File p) (Pos p)))|..].
    + apply Forall_forall. intros x [_ Hx]%list_elem_of_filter. by apply (proj1 (Forall_forall _ _) Hids).
    + apply Forall_forall. intros ev [HPe Hev]%list_elem_of_filter. apply not_beyond in HPe.
      split; [done|]. rewrite Hc. apply (open_rows d L1 L2 part); auto.
      * destruct Hcase as [(? & ? & _)|(t & L2' & ev' & rest & ? & ? & _)]; [by left|right; eauto 10].
      * destruct Hp as [k ->]. apply elem_of_app. auto.
    + rewrite HD, Hsplit. apply prefix_app. etrans; [|exact Hp].
      pose proof (StronglySorted_filter _ (λ ev, is_row ev = true) _ gtid_sorted) as Hsort.
      change (StronglySorted (ordered false) (rows_of (events log))) in Hsort.
      rewrite Hsplit in Hsort. apply StronglySorted_app in Hsort as (_ & _ & Hsort).
      assert (∀ x, x ∈ C → is_row x = true) as Hrow.
      { destruct Hp as [k Hk]. intros x Hx. apply (elem_of_rows_of x (events L2)). rewrite Hk. apply elem_of_app. auto. }
      destruct Hp as [k Hk]. rewrite Hk in Hsort. apply StronglySorted_app in Hsort as (_ & Hsort & _).
      apply (filter_prefix _ _ _ Hsort). intros x y Hx Hy (_ & Hxy & _) HPy. rewrite not_beyond in *.
      eapply (cmp_le_lt_trans pos_compare); [|exact HPy]. auto.
Qed.

(** The second pass removes the rest of that transaction, and nothing else. *)
Lemma second_pass d fd rows left C : (d ≤ length (events log))%nat → 0 < fd → half_clean d fd rows left C →
  let p := pos_at (take d (events log)) in let all := base ++ rows ++ left in
  kept_known all (File p) (stragglers all (File p) (Pos p) (sets (complete d)) fd) fd = base ++ rows.
Proof.
  intros Hd Hfd [Hb Hr Hl Hid Ho _] p all.
  destruct (split_at d Hd) as (L1 & L2 & part & HL & Htake & _ & _ & Htx & Hc & _).
  assert (concat (txns (take d (events log))).1 = rows_of (events L1)) as HD.
  { pose proof (gl_txns _ _ _ Hlog) as Hok. rewrite HL in Hok. apply Forall_app in Hok as [Hok _].
    rewrite <-txns_rows, (txns_whole L1 Hok), Htx. simpl. by rewrite app_nil_r. }
  rewrite HD in Hr. unfold kept_known. set (gs := stragglers _ _ _ _ _).
  subst all. rewrite !filter_app, (filter_all _ base), (filter_all _ rows), (filter_none _ left); [by rewrite app_nil_r|..].
  - intros x Hx. apply (proj1 (Forall_forall _ _) Hid) in Hx as Hxi.
    destruct (elem_of_stored _ _ _ Hl Hx) as (ev & Hev & Ex).
    apply (proj1 (Forall_forall _ _) Ho) in Hev as (Hlt & Hf & Hg & Hcon).
    rewrite above_floor_high by done. rewrite Ex. simpl. rewrite Hf, bool_decide_eq_true_2 by done.
    unfold nullOrString. rewrite bool_decide_eq_false_2 by done. simpl.
    rewrite bool_decide_eq_true_2; [done|]. subst gs. unfold stragglers. apply list_elem_of_filter. split; [done|].
    apply list_elem_of_omap. exists x. split; [set_solver|]. rewrite above_floor_high by done. rewrite Ex. simpl.
    rewrite Hf, bool_decide_eq_true_2 by done. unfold nullOrString. rewrite bool_decide_eq_false_2 by done.
    rewrite (proj2 (N.ltb_lt _ _)); [done|]. fold p in Hlt, Hf. unfold start_pos, pos_compare, cmp_or in Hlt. simpl in Hlt.
    rewrite Hf, Nat.compare_refl, (cmp_refl String.compare) in Hlt. by apply N.compare_lt_iff.
  - intros x Hx. destruct (elem_of_stored _ _ _ Hr Hx) as (ev & Hev & ->).
    destruct (complete_rows d L1 L2 part HL Htake ev Hev) as [_ Hcon].
    destruct (above_floor fd x.1 && _); [|done]. simpl. unfold nullOrString. case_bool_decide; [done|].
    apply bool_decide_eq_false_2. subst gs. unfold stragglers. intros [Hn _]%list_elem_of_filter.
    rewrite Hc in Hn. congruence.
  - intros x Hx. apply (proj1 (Forall_forall _ _) Hb) in Hx. by rewrite above_floor_low.
Qed.

Lemma half_clean_down d fd rows left C ck r : half_clean d fd rows left C → st_rows (rn_st r) = base ++ rows ++ left →
  fd ≤ st_next (rn_st r) → st_first (rn_st r) ≤ st_next (rn_st r) →
  rn_ck r = Some ck → gtid_cklink d ck → ck_dedupFloor ck = Some fd → before base fd →
  down_inv log base False gtid_cklink r.
Proof.
  intros [Hb Hr Hl Hid Ho Hp] Hst Hn Hf Hck Hckl Hfl Hbe. exists (length (events log)), d, fd, ck. split; [|done].
  assert (length rows = done_rows log d) as Hlen by (apply (f_equal length) in Hr; by rewrite !length_fmap in Hr).
  exists (concat (txns (take d (events log))).1 ++ C), (rows ++ left). rewrite firstn_all, txns_rows. split_and!; [|done|by intros []].
  split; try done.
  - by rewrite fmap_app, Hr, Hl, fmap_app.
  - rewrite length_app. unfold done_rows. lia.
  - repeat constructor. simpl. intros i x Hi Hle. rewrite lookup_app_r in Hi by lia.
    by apply (proj1 (Forall_lookup _ _) Hid) in Hi.
  - by repeat constructor.
Qed.

(** The source sends again what the saved set lacks. *)
Lemma replay_gtid d ck L1 L2 : gtid_cklink d ck → log = L1 ++ L2 → complete d = length L1 → replay log ck = events L2.
Proof.
  intros (_ & Hmode & Hset & _) HL Hc. unfold replay. rewrite bool_decide_eq_false_2 by (by rewrite Hmode).
  rewrite Hset, Hc. simpl. unfold events. do 2 f_equal.
  trans (filter (λ t, gs_contain (sets (length L1)) t.1 = false) (L1 ++ L2)); [by rewrite HL|].
  rewrite filter_app, filter_none, filter_all; [done|..]; intros t Ht; apply list_elem_of_lookup_1 in Ht as [i Hi].
  - rewrite (gl_contain _ _ _ Hlog _ (length L1 + i) t); [apply Nat.ltb_ge; lia|].
    by rewrite HL, lookup_app_r, Nat.add_sub' by lia.
  - rewrite (gl_contain _ _ _ Hlog _ i t); [|by rewrite HL; apply lookup_app_l_Some].
    apply lookup_lt_Some in Hi. by rewrite (proj2 (Nat.ltb_lt _ _) Hi).
Qed.

(** The start of a transaction, as a number of events. *)
Lemma events_before L1 L2 : log = L1 ++ L2 → let m := length (events L1) in
  (m ≤ length (events log))%nat ∧ take m (events log) = events L1 ∧ drop m (events log) = events L2 ∧
  txns (take m (events log)) = ((λ t, rows_of t.2) <$> L1, []) ∧ complete m = length L1.
Proof.
  intros HL m. pose proof (gl_txns _ _ _ Hlog) as Hok. rewrite HL in Hok. apply Forall_app in Hok as [Hok _].
  assert (take m (events log) = events L1) as Ht by (by subst m; rewrite HL, events_app, take_app_length).
  assert (txns (take m (events log)) = ((λ t, rows_of t.2) <$> L1, [])) as Htx by (by rewrite Ht, txns_whole).
  split_and!; try done.
  - subst m. rewrite HL, events_app, length_app. lia.
  - subst m. by rewrite HL, events_app, drop_app_length.
  - unfold complete. rewrite Htx. simpl. by rewrite length_fmap.
Qed.

Lemma resume_gtid r n d fd ck :
  stays base False (done_rows log d) fd (txns (take n (events log))).1 (txns (take n (events log))).2 (rn_st r) →
  rn_ck r = Some ck → gtid_cklink d ck → ck_dedupFloor ck = Some fd → before base fd →
  wp (resume e ck)
    (λ _ r', ∃ m, replay log ck = drop m (events log) ∧ up_inv e log base False gtid_link gtid_cklink m r')
    (down_inv log base False gtid_cklink) r.
Proof.
  intros Hs Hck Hckl Hfl Hbe. pose proof Hckl as (Hd & Hmode & Hset & Hpos & Hf).
  destruct (first_pass n d fd _ Hd Hbe Hs) as (rows & left & C & Hkept & Hhc).
  pose proof (second_pass d fd rows left C Hd (proj1 Hbe) Hhc) as Hkept2. cbv zeta in Hkept2.
  rewrite <-Hpos in Hkept, Hkept2. simpl in Hkept, Hkept2.
  destruct (stays_split _ _ _ _ _ _ _ Hs) as (_ & _ & _ & _ & _ & _ & _ & _ & Hnx & Hfx).
  destruct (split_at d Hd) as (L1 & L2 & part & HL & _ & _ & _ & Htx & Hc & _).
  destruct (events_before L1 L2 HL) as (Hm & _ & Hdr & Htm & Hcm).
  unfold resume. rewrite bool_decide_eq_false_2, Hfl, Hset by (by rewrite Hmode). simpl. wp_step.
  unfold deleteEventsSinceCheckpointGTID, deleteEventsSinceCheckpoint. rewrite bool_decide_eq_false_2 by done.
  wp_step. apply wp_delete_rows.
  { intros r' Hmv E. exists n, d, fd, ck. rewrite E. split; [|done]. by eapply durable_moved. }
  intros r1 R1 N1 F1 E1. rewrite Hkept in R1.
  assert (down_inv log base False gtid_cklink r1) as Hdown1.
  { eapply half_clean_down; eauto; rewrite ?N1, ?F1, ?E1; done. }
  split; [|done]. apply wp_delete_rows.
  { intros r2 Hmv E2. eapply half_clean_down; eauto.
    - rewrite (mv_rows _ _ _ _ Hmv), app_nil_r. done.
    - pose proof (mv_next _ _ _ _ Hmv). lia.
    - apply (mv_first _ _ _ _ Hmv). by rewrite N1, F1.
    - congruence. }
  intros r2 R2 N2 F2 E2. rewrite R1, Hkept2 in R2.
  assert (cleaned log base gtid_cklink d fd ck r2) as Hcl.
  { split; [exists rows; split; [done|apply (hc_rows _ _ _ _ _ Hhc)]|by rewrite N2, F2, N1, F1|].
    rewrite E2, E1. done. }
  split; [|by eapply cleaned_down]. wp_steps. exists (length (events L1)). split.
  { by rewrite Hdr, (replay_gtid d ck L1 L2). }
  eapply cleaned_up; [exact Hcl|done|by rewrite Htm, Htx| |done].
  split; [done|]. split; [by rewrite Hcm, <-Hc|]. split; [done|by left].
Qed.

(** A checkpoint that can be cleaned up after: one that names a file. *)
Definition has_file (ss : streamState (G := G)) : Prop := ss_binlogFile ss ≠ "".

Lemma gtid_link_event n ev ss ss' : events log !! n = Some ev → gtid_link n ss → follows ev ss ss' → gtid_link (S n) ss'.
Proof.
  intros Hev (L1 & L2 & L3 & _) [F1 F2 F3 F4 F5 F6 _].
  assert (n ≤ length (events log))%nat as Hn by (apply lookup_lt_Some in Hev; lia).
  destruct (split_at n Hn) as (P & Q & part & HL & _ & _ & _ & Htx & Hc & [(_ & _ & Hno)|Hcase]); [congruence|].
  destruct Hcase as (t & Q' & ev0 & rest & -> & Ht & Hev0 & Hok & Hend).
  assert (ev0 = ev) as -> by congruence.
  assert (log !! length P = Some t) as Hlt by (by rewrite HL, list_lookup_middle).
  assert (ev ∈ t.2) as Hin by (rewrite Ht; set_solver).
  destruct (txn_events _ _ Hok Hin) as (Hfile & _). rewrite bool_decide_eq_false_2 in F2 by done.
  split_and!; [congruence| |by apply F6|].
  - rewrite F5, L2, Hc. unfold complete. rewrite (take_S_r _ _ _ Hev), txns_snoc. unfold note.
    destruct (isPositionCheckpointBoundary ev) eqn:Hb.
    + destruct (Hend eq_refl) as [_ Hg]. simpl. rewrite Hg, bool_decide_eq_false_2 by apply tx_gtid, Hok.
      rewrite (gl_update _ _ _ Hlog _ _ Hlt), length_app, Htx. simpl. rewrite length_fmap. do 2 f_equal. lia.
    + rewrite Htx. destruct (is_row ev); simpl; by rewrite length_fmap.
  - right. unfold pos_at. rewrite (take_S_r _ _ _ Hev), last_snoc, F2, F3. done.
Qed.

(** A row never follows the end of a transaction. *)
Lemma gtid_no_claim n ev ev' : events log !! n = Some ev → ev_EventType ev = EventDDL →
  events log !! S n = Some ev' → is_row ev' = false.
Proof.
  intros Hev Hddl Hev'. assert (n ≤ length (events log))%nat as Hn by (apply lookup_lt_Some in Hev; lia).
  destruct (split_at n Hn) as (P & Q & part & HL & Htake & _ & _ & _ & _ & [(_ & _ & Hno)|Hcase]); [congruence|].
  destruct Hcase as (t & Q' & ev0 & rest & -> & Ht & Hev0 & Hok & Hend).
  assert (ev0 = ev) as -> by congruence.
  destruct Hend as [-> _]; [by unfold isPositionCheckpointBoundary; rewrite Hddl|].
  assert (events log = (events P ++ part) ++ ev :: events Q') as Hall.
  { by rewrite HL, events_app, events_cons, Ht, <-!app_assoc. }
  assert (length (events P ++ part) = n) as Hlen by (rewrite <-Htake; by apply length_take_le).
  rewrite Hall, lookup_app_r, Hlen, Nat.sub_succ_l, Nat.sub_diag in Hev' by lia. simpl in Hev'.
  pose proof (gl_txns _ _ _ Hlog) as Hoks. rewrite HL in Hoks. apply Forall_app in Hoks as [_ Hoks].
  apply Forall_cons in Hoks as [_ Hoks]. destruct Q' as [|t' Q']; [done|]. apply Forall_cons in Hoks as [[_ _ (x & xs & Ht' & Hx)] _].
  rewrite events_cons, Ht' in Hev'. simpl in Hev'. congruence.
Qed.

(** Every state of a GTID-mode system whose checkpoints name a file is good. *)
Lemma gtid_inv next y : 1 ≤ next → Forall (λ r, r.1 < next) base →
  reaches e log has_file (first_run (G := G) "gtid" (File p0) (Pos p0) (Some (sets 0%nat)) base next (events log)) y →
  sys_inv e log base False gtid_link gtid_cklink y.
Proof.
  intros Hn Hids. apply reaches_inv.
  - by intros [].
  - by intros [].
  - apply Forall_forall. intros ev (i & t & Hi & Ht)%elem_of_events.
    pose proof (proj1 (Forall_lookup _ _) (gl_txns _ _ _ Hlog) _ _ Hi) as Hok. by apply (txn_events t).
  - exact gtid_link_event.
  - intros n ss ss' (L1 & L2 & L3 & L4) [S1 S2 S3 _ _ _ S7 S8]. unfold gtid_link. by rewrite S1, S2, S3, S7, S8.
  - intros ss ss' Hs [_ S2 _]. unfold has_file. by rewrite S2.
  - intros n ss bef Hle (L1 & L2 & L3 & [L4|L4]) Hs; [done|]. unfold gtid_cklink, checkpoint_row, checkpointPosition. simpl.
    rewrite L1, L3, L2. simpl. done.
  - intros n ev ev' ss Hev Hddl Hev' Hrow _. by rewrite (gtid_no_claim _ _ _ Hev Hddl Hev') in Hrow.
  - intros. by eapply resume_gtid.
  - assert (∀ p : BinlogPos, {| File := File p; Pos := Pos p |} = p) as Heta by (by intros []).
    apply first_run_inv; [done..| |].
    + split_and!; try done. right. apply Heta.
    + split_and!; try done; [lia|apply Heta|exact (gl_p0 _ _ _ Hlog)].
Qed.
End gtid.

(** C10: exactly-once capture in GTID mode, for logs whose DDLs end their
    transaction. If no checkpoint of a resumed run is saved before its first
    event, then whatever statements fail, whenever the process crashes, stops
    or is resumed, in the middle of a cleanup too, the index holds the rows it
    had before the first run untouched, then the rows of the source's log in
    order from its start: none twice and none skipped. *)
Theorem capture_gtid_once {G} `{GTIDSet G} e log base p0 (sets : nat → G) next y :
  gtid_log p0 log sets → 1 ≤ next → Forall (λ r, r.1 < next) base →
  reaches e log has_file (first_run "gtid" (File p0) (Pos p0) (Some (sets 0%nat)) base next (events log)) y →
  ∃ C rows, st_rows (rn_st (sy_run y)) = base ++ rows ∧ rows.*2 = stored <$> C ∧ C `prefix_of` rows_of (events log).
Proof.
  intros Hlog Hn Hids Hr.
  destruct (sys_inv_visible e log base _ _ _ y (gtid_inv _ _ _ _ _ Hlog _ _ Hn Hids Hr)) as (C & rows & ? & ? & ? & _).
  eauto.
Qed.

(** ** Runs *)

Definition sample_p0 : BinlogPos := {| File := "b.01"; Pos := 100 |}.
Definition sample_set (k : nat) : list string := take k sample_log.*1.

#[local] Instance ordered_dec later a b : Decision (ordered later a b).
Proof. unfold ordered. apply _. Defined.

#[local] Instance ordered_in_dec evs : Decision (ordered_in evs).
Proof. induction evs as [|a evs IH]; simpl; apply _. Defined.

#[local] Instance ordered_log_dec log : Decision (ordered_log log).
Proof. induction log as [|t log IH]; simpl; apply _. Defined.

Lemma sample_gtid_log : gtid_log sample_p0 sample_log sample_set.
Proof.
  split.
  - repeat constructor; simpl; try discriminate.
    + eexists [_; _; _], _. split; [reflexivity|]. split_and!; try done; by repeat constructor.
    + eexists _, _. done.
    + eexists [_; _; _], _. split; [reflexivity|]. split_and!; try done; by repeat constructor.
    + eexists _, _. done.
  - apply (bool_decide_unpack _). vm_compute. exact I.
  - apply (bool_decide_unpack _). vm_compute. exact I.
  - done.
  - intros [|[|i]] t Hi; simpl in Hi; simplify_eq; done.
  - intros k [|[|i]] t Hi; simpl in Hi; simplify_eq; destruct k as [|[|k]]; try done; destruct k; done.
Qed.

Definition has_file_b (ss : streamState (G := list string)) : bool := negb (bool_decide (ss_binlogFile ss = "")).

Lemma has_file_b_spec ss : has_file_b ss = true → has_file ss.
Proof. unfold has_file_b, has_file. by case_bool_decide. Qed.

(** A checkpoint inside the second transaction; its rows are written, the next
    save is refused and the process dies; so does the resume after it, between
    the two passes of its cleanup. *)
Definition cut_env : Env := sample_env [7; 9]%nat 10.
Definition cut_run : list label :=
  replicate 4 Deliver ++ [Tick; Deliver; Deliver; Tick; Deliver; Deliver; Tick; Crash; Resume].
Definition cut_state : sys := driven cut_env sample_log has_file_b cut_run (sample_start "gtid" sample_log).

Lemma capture_gtid_once_witness : keys cut_state = ["0"; "1"; "2"; "3"] ∧
  ∃ C rows, st_rows (rn_st (sy_run cut_state)) = sample_base ++ rows ∧ rows.*2 = stored <$> C ∧
    C `prefix_of` rows_of (events sample_log).
Proof.
  split; [vm_compute; reflexivity|].
  exact (capture_gtid_once cut_env sample_log sample_base sample_p0 sample_set 2 cut_state sample_gtid_log
    ltac:(lia) ltac:(repeat constructor)
    (drive_reaches cut_env sample_log has_file_b has_file cut_run (sample_start "gtid" sample_log) has_file_b_spec)).
Defined.

Lemma txns_open_length evs : (length (txns evs).2 ≤ length evs)%nat.
Proof.
  trans (length (rows_of evs)); [rewrite <-txns_rows, length_app; lia|]. unfold rows_of. apply length_filter.
Qed.

(** A GTID-mode cleanup can show part of a transaction. Its two DELETEs
    are two statements: between them, or for as long as a process that died
    between them stays down, a reader sees the rows of an uncaptured
    transaction up to the checkpoint's position, though no transaction ever
    reached a cap. *)
Theorem gtid_cleanup_shows_part : ∃ e log sets y,
  gtid_log sample_p0 log sets ∧ no_caps e (events log) ∧
  reaches e log has_file (sample_start "gtid" log) y ∧ sy_phase y = Down ∧
  ∀ j, keys y ≠ (λ r, sr_pk_values r.2) <$> sample_base ++ ((λ ev, (0, stored ev)) <$> concat (take j (txns (events log)).1)).
Proof.
  exists cut_env, sample_log, sample_set, cut_state. split_and!.
  - exact sample_gtid_log.
  - split; [done|]. intros n. pose proof (txns_open_length (take n (events sample_log))) as Hl.
    rewrite length_take in Hl. change (length (events sample_log)) with 8%nat in Hl. simpl. lia.
  - apply drive_reaches, has_file_b_spec.
  - vm_compute. reflexivity.
  - intros [|[|[|j]]] Hk; vm_compute in Hk; discriminate Hk.
Qed.

(** C36: without the restriction on checkpoints, GTID-mode capture indexes
    changes twice. A resumed GTID run starts with an empty file name; a
    checkpoint before its first event saves it, and the cleanup of the resume
    after that is skipped, though the rows written in between are read again. *)
Theorem gtid_quiet_resume_twice : ∃ e log sets ls y,
  gtid_log sample_p0 log sets ∧ NoDup (rows_of (events log)) ∧
  drive e log (λ _, true) ls (sample_start "gtid" log) = Some y ∧ ¬ NoDup (keys y) ∧
  (st_rows (rn_st (sy_run y))).*2 = sample_base.*2 ++ (stored <$> rows_of (events log) ++ rows_of (events (drop 1 log))).
Proof.
  exists (sample_env [9%nat] 10), sample_log, sample_set,
    (replicate 4 Deliver ++ [Tick; Crash; Resume; Tick] ++ replicate 4 Deliver ++ [Tick; Crash; Resume] ++
     replicate 4 Deliver ++ [Tick]),
    (driven (sample_env [9%nat] 10) sample_log (λ _, true)
      (replicate 4 Deliver ++ [Tick; Crash; Resume; Tick] ++ replicate 4 Deliver ++ [Tick; Crash; Resume] ++
       replicate 4 Deliver ++ [Tick]) (sample_start "gtid" sample_log)).
  split_and!.
  - exact sample_gtid_log.
  - apply (NoDup_fmap_1 ev_PKValues), (bool_decide_unpack _). vm_compute. exact I.
  - vm_compute. reflexivity.
  - intros Hn. apply (bool_decide_pack _) in Hn. vm_compute in Hn. exact Hn.
  - vm_compute. reflexivity.
Qed.

(** CREATE TABLE ... SELECT as the parser sends it: the DDL with the
    transaction's GTID, then the rows and the end, which carry none. *)
Record ctas_txn (t : string * list Event) : Prop := {
  ct_gtid : t.1 ≠ "";
  ct_shape : ∃ start ddl rows last, t.2 = start :: ddl :: rows ++ [last] ∧
    ev_EventType start = EventGTID ∧ ev_GTID start = t.1 ∧ ev_EventType ddl = EventDDL ∧ ev_GTID ddl = t.1 ∧
    rows ≠ [] ∧ Forall (λ ev, ev_EventType ev = EventInsert ∧ ev_GTID ev = "") rows ∧
    ev_EventType last = EventCommit ∧ ev_GTID last = "" ∧
    ev_BinlogFile last ≠ "" ∧ Forall (λ ev, ev_BinlogFile ev = ev_BinlogFile last) t.2;
}.

Definition ctas_log : list (string * list Event) := [
  ("u:1", [sample_event EventGTID 100 150 "u:1" ""; sample_event EventDDL 150 200 "u:1" "";
           sample_event EventInsert 200 250 "" "1"; sample_event EventCommit 250 300 "" ""]);
  ("u:2", [sample_event EventGTID 300 350 "u:2" ""; sample_event EventInsert 350 380 "u:2" "2";
           sample_event EventCommit 380 400 "u:2" ""])].

(** A checkpoint after the DDL; the row is read, the process dies and is
    resumed, reads the second transaction and saves. *)
Definition ctas_run : list label :=
  [Deliver; Deliver; Tick; Deliver; Crash; Resume; Deliver; Deliver; Deliver; Tick].
Definition ctas_state : sys := driven (sample_env [] 10) ctas_log has_file_b ctas_run (sample_start "gtid" ctas_log).

Lemma ctas_log_of : log_of (λ t, txn_ok t ∨ ctas_txn t) sample_p0 ctas_log sample_set.
Proof.
  split.
  - apply Forall_cons. split; [right|apply Forall_cons; split; [left|constructor]]; split; simpl; try done.
    + eexists _, _, [_], _. split; [reflexivity|]. split_and!; try done; by repeat constructor.
    + eexists [_; _], _. split; [reflexivity|]. split_and!; try done; by repeat constructor.
    + eexists _, _. done.
  - apply (bool_decide_unpack _). vm_compute. exact I.
  - apply (bool_decide_unpack _). vm_compute. exact I.
  - done.
  - intros [|[|i]] t Hi; simpl in Hi; simplify_eq; done.
  - intros k [|[|i]] t Hi; simpl in Hi; simplify_eq; destruct k as [|[|k]]; try done; destruct k; done.
Qed.

(** C35: without the restriction to DDLs that end their transaction, GTID-mode
    capture skips changes: the statement of [capture_gtid_once] fails when a
    CREATE TABLE ... SELECT is a shape of transaction, all its other conditions
    kept. The DDL puts the transaction's GTID into the set; a checkpoint before
    the transaction's end saves it; after a crash the source does not send the
    transaction again and the cleanup removes what was written of it. No
    statement failed, and the index goes on with the rows of the next
    transaction. *)
Theorem gtid_ctas_lost : ∃ e log sets y,
  log_of (λ t, txn_ok t ∨ ctas_txn t) sample_p0 log sets ∧ (∀ i, e_answer e i = Done) ∧
  reaches e log has_file (sample_start "gtid" log) y ∧
  ¬ ∃ C rows, st_rows (rn_st (sy_run y)) = sample_base ++ rows ∧ rows.*2 = stored <$> C ∧ C `prefix_of` rows_of (events log).
Proof.
  exists (sample_env [] 10), ctas_log, sample_set, ctas_state. split_and!.
  - exact ctas_log_of.
  - done.
  - apply drive_reaches, has_file_b_spec.
  - intros (C & rows & Hr & HC & Hpre).
    assert (stored <$> C = [stored (sample_event EventInsert 350 380 "u:2" "2")]) as HC'.
    { rewrite <- HC. assert (st_rows (rn_st (sy_run ctas_state)) = sample_base ++ drop 1 (st_rows (rn_st (sy_run ctas_state)))) as E
        by (vm_compute; reflexivity).
      rewrite E in Hr. apply app_inv_head in Hr. rewrite <- Hr. vm_compute. reflexivity. }
    destruct C as [|ev [|]]; [done| |done]. apply (f_equal (fmap sr_pk_values)) in HC'. destruct Hpre as [k Hk].
    apply (f_equal head) in Hk. vm_compute in Hk. injection Hk as <-. discriminate HC'.
Qed.
