(* ===== verification/KeyIdx.v ===== *)
(** * The key index beside a snapshot table ([internal/keyidx])

    [keyidx.go] writes, beside a table's Parquet file (the base), a sorted file
    of the rows' integer keys with the rows' numbers; [reader.go] and
    [lookup.go] check it against the base and resolve keys to row numbers by
    binary search, reading only the blocks the keys can fall in.

    A file is its bytes. The Parquet library and DuckDB are outside the
    repository: what they say of a base ([ParquetFile], [DuckScan]) is an
    argument of the functions that ask them. Disk space, cancellation and the
    outcome of each write are arguments too ([BuildEnv]). *)
From S2P Require Import Prelude GoStrings GoBytes.

Open Scope Z_scope.

(** ** Layout constants and types *)

Definition Magic : string := "BTKEYIDX".
Definition Version : N := 1.
Definition BlockRecords : Z := 4096.
Definition rowWidth : Z := 8.
Definition fixedHeader : Z := 56.
Definition maxNameLen : Z := 2 ^ 16.
Definition FreeMargin : N := 2 ^ 30.

(** Go's runtime allocates at most 2^48 bytes; [make] of more, or of a negative
    length, panics. *)
Definition maxAlloc : Z := 2 ^ 48.

Definition str_bytes (s : string) : Bytes := String.list_ascii_of_string s.
Definition bytes_str (b : Bytes) : string := String.string_of_list_ascii b.

(** [IntegerWidths] has the type. *)
Definition isIntegerType (typ : string) : bool :=
  bool_decide (typ = "INTEGER") || bool_decide (typ = "BIGINT") || bool_decide (typ = "UBIGINT").

Definition typeCodes (typ : string) : N :=
  if decide (typ = "INTEGER") then 1 else if decide (typ = "BIGINT") then 2
  else if decide (typ = "UBIGINT") then 3 else 0.

Definition codeTypes (c : N) : option string :=
  if (c =? 1)%N then Some "INTEGER" else if (c =? 2)%N then Some "BIGINT"
  else if (c =? 3)%N then Some "UBIGINT" else None.

Definition keyBytes (typ : string) : nat := if decide (typ = "INTEGER") then 4 else 8.

Definition keyWidthOf (types : list string) : nat := sum_list_with keyBytes types.

Definition PathFor (basePath : string) : string :=
  (if has_suffix basePath ".parquet"
   then str_take (String.length basePath - 8) basePath else basePath) +:+ ".keyidx".

(** ** Errors *)

Inductive KeyErr :=
| ErrCorrupt (what : string)
| ErrUnbound
| ErrMismatch
| ErrNoBase
| ErrNotExist
| ErrFooter           (* the base's Parquet footer does not read *)
| ErrKeyWidth (n : nat)
| EBlock (i : nat)    (* a block number out of range *)
| EValue (i : nat)    (* a driver value of another Go type *)
| ENullKey (i : nat)
| EScan
| ERowType
| ERowNumber (row : Z)
| EOrder (n : nat)
| ECount (n : nat)
| ENotColumn (name : string)
| ENamedTwice (name : string)
| ENameLength (n : nat)
| EWrite
| ECancelled
| EPanic.             (* a run-time panic *)

(** ** Sizes *)

Definition headerSize (names : list string) : Z :=
  fixedHeader + Z.of_nat (length names) + Z.of_nat (sum_list_with (λ name, 2 + String.length name)%nat names).

(** [(n + BlockRecords - 1) / BlockRecords] on [int64]; Go rounds towards 0. *)
Definition blocksFor (n : Z) : Z := Z.quot (wrap64 (n + BlockRecords - 1)) BlockRecords.

Definition ExpectedSize (n : Z) (names : list string) (keyWidth : nat) : Z :=
  wrap64 (headerSize names + n * (Z.of_nat keyWidth + rowWidth) + blocksFor n * (Z.of_nat keyWidth + 4) + 4).

(** ** Key values *)

(** A value as DuckDB's driver returns it. *)
Inductive DuckVal :=
| DNull
| DInt32 (z : Z)
| DInt64 (z : Z)
| DUint64 (n : N)
| DOther.

#[export] Instance DuckVal_eq_dec : EqDecision DuckVal.
Proof. solve_decision. Defined.

Definition encodeKey (typ : string) (v : DuckVal) : option Bytes :=
  if decide (typ = "INTEGER") then
    match v with DInt32 x => Some (be_put 4 (N.lxor (Z.to_N (x mod 2 ^ 32)) (2 ^ 31))) | _ => None end
  else if decide (typ = "BIGINT") then
    match v with DInt64 x => Some (be_put 8 (N.lxor (u64_of x) (2 ^ 63))) | _ => None end
  else if decide (typ = "UBIGINT") then
    match v with DUint64 x => Some (be_put 8 x) | _ => None end
  else None.

(** ** The base *)

(** What [os.Stat] says of a file besides its size. *)
Record FileStat := { st_Mtime : Z; st_Ino : N }.

Record FileIdentity := { Size : Z; Mtime : Z; Ino : N }.

Record baseIdentity := { id_file : FileIdentity; id_FooterCRC : N; id_Rows : Z }.

#[export] Instance FileIdentity_eq_dec : EqDecision FileIdentity.
Proof. solve_decision. Defined.

#[export] Instance baseIdentity_eq_dec : EqDecision baseIdentity.
Proof. solve_decision. Defined.

Definition fileIdentityOf (size : Z) (st : FileStat) : FileIdentity :=
  {| Size := size; Mtime := st_Mtime st; Ino := st_Ino st |}.

(** A column's Parquet type: its physical kind and its logical annotation,
    [None] for none, [Some None] for one that is not an integer's. *)
Inductive PqKind := PqInt32 | PqInt64 | PqOther.

Record PqType := { pq_Kind : PqKind; pq_Logical : option (option (Z * bool)) }.

(** What [parquet.OpenFile] reads from a file: the row count and, by name, the
    columns; a column that is not a leaf has no type. *)
Record ParquetFile := { pq_NumRows : Z; pq_Lookup : string → option PqType }.

(** [footerCRCOf]. *)
Definition footerCRCOf (file : Bytes) : option N :=
  let size := Z.of_nat (length file) in
  if size <? 12 then None
  else
    tail ← ReadAt file (size - 8) 8;
    if decide (drop 4 tail = str_bytes "PAR1") then
      let n := Z.of_N (le_get (take 4 tail)) + 8 in
      if size - 4 <? n then None
      else buf ← ReadAt file (size - n) (Z.to_nat n); Some (crc_checksum buf)
    else None.

Definition identityOf (size : Z) (st : FileStat) (footerCRC : N) (rows : Z) : baseIdentity :=
  {| id_file := fileIdentityOf size st; id_FooterCRC := footerCRC; id_Rows := rows |}.

(** One column of [baseKeyTypes]. *)
Definition baseKeyType (t : PqType) : option string :=
  match pq_Logical t with
  | Some None => None
  | Some (Some (iw, signed)) =>
      match pq_Kind t with
      | PqInt32 => if (iw =? 32) && signed then Some "INTEGER" else None
      | PqInt64 => if (iw =? 64) && signed then Some "BIGINT"
                   else if (iw =? 64) && negb signed then Some "UBIGINT" else None
      | PqOther => None
      end
  | None =>
      match pq_Kind t with PqInt32 => Some "INTEGER" | PqInt64 => Some "BIGINT" | PqOther => None end
  end.

Definition baseKeyTypes (pf : ParquetFile) (names : list string) : option (list string) :=
  mapM (λ name, pq_Lookup pf name ≫= baseKeyType) names.

(** ** Writing *)

Definition encodeHeader (types names : list string) (id : baseIdentity) : Bytes :=
  str_bytes Magic ++ be_put 2 Version ++
  [ascii_of_N (N.of_nat (length types) mod 256); ascii_of_N (Z.to_N rowWidth)] ++
  be_put 8 (u64_of (id_Rows id)) ++ be_put 8 (u64_of (Size (id_file id))) ++
  be_put 4 (id_FooterCRC id) ++ be_put 8 (u64_of (id_Rows id)) ++
  be_put 8 (Ino (id_file id)) ++ be_put 8 (u64_of (Mtime (id_file id))) ++
  ((λ t, ascii_of_N (typeCodes t)) <$> types) ++
  concat ((λ name, be_put 2 (N.of_nat (String.length name) mod 2 ^ 16) ++ str_bytes name) <$> names).

Fixpoint index_of (x : string) (l : list string) : option nat :=
  match l with
  | [] => None
  | y :: l' => match index_of x l' with
               | Some i => Some (S i)
               | None => if decide (x = y) then Some 0%nat else None
               end
  end.

(** The checks of [orderKeys]'s loop. [pos] holds, for a name the file has
    twice, its last place, as [index_of] does. *)
Fixpoint order_loop (keys fileCols : list string) (seen : gset string) (out : list string)
    : list string + KeyErr :=
  match keys with
  | [] => inl out
  | k :: keys' =>
      _ ←? or_err (index_of k fileCols) (ENotColumn k);
      ensure negb (bool_decide (k ∈ seen)) or ENamedTwice k;
      ensure Z.of_nat (String.length k) <? maxNameLen or ENameLength (String.length k);
      order_loop keys' fileCols ({[k]} ∪ seen) (out ++ [k])
  end.

Definition orderKeys (keys fileCols : list string) : list string + KeyErr :=
  out ←? order_loop keys fileCols ∅ [];
  inl (sort_by (λ a b, Nat.compare (default 0%nat (index_of a fileCols)) (default 0%nat (index_of b fileCols))) out).

(** What DuckDB reads from the base: its columns in the file's order, the type
    of each ([DESCRIBE]) and the answer of [SELECT <names>, file_row_number ...
    ORDER BY <names>, file_row_number]. *)
Record DuckScan := {
  dk_columns : list string;
  dk_type : string → string;
  dk_query : list string → list (list DuckVal);
  dk_fails : bool;                            (* an error after the rows *)
}.

(** [IntegerKeyTypes]: the types of the key columns, or the column that has
    another type. *)
Definition IntegerKeyTypes (ddb : DuckScan) (names : list string) : list string + string :=
  match filter (λ name, isIntegerType (dk_type ddb name) = false) names with
  | name :: _ => inr name
  | [] => inl (dk_type ddb <$> names)
  end.

(** The disk and what happens during a build. *)
Record BuildEnv := {
  diskSpace : string → option (N * N);        (* free and total bytes *)
  sameFilesystem : string → string → bool;
  spillDir : string;
  slot_free : bool;                           (* a build slot before the context ended *)
  ctx_live : bool;                            (* the context once the slot is held *)
  file_opens : bool;
  write_ok : nat → bool;                      (* the n-th write *)
  ctx_ok : nat → bool;                        (* the context after block n *)
  rename_ok : bool;                           (* flush, sync, close and rename *)
  remove_ok : bool;                           (* removing a stale index *)
}.

Definition short (env : BuildEnv) (dir : string) (need : Z) : bool :=
  match diskSpace env dir with
  | None => false
  | Some (free, total) =>
      if (total =? 0)%N then false
      else negb ((u64_of need + FreeMargin) mod 2 ^ 64 <=? free)%N
  end.

(** [freeSpaceShort] is not empty. *)
Definition freeSpaceShort (env : BuildEnv) (baseDir spill : string) (indexBytes spillBytes : Z) : bool :=
  if sameFilesystem env baseDir spill then short env baseDir (wrap64 (indexBytes + spillBytes))
  else short env baseDir indexBytes || short env spill spillBytes.

(** The variables of [Build]'s loop: the bytes written and how many writes
    that took, the open block, the skip table, the record before, the count. *)
Record buildState := {
  bs_out : Bytes;
  bs_writes : nat;
  bs_block : Bytes;
  bs_skip : Bytes;
  bs_prev : option Bytes;
  bs_n : nat;
}.

Definition flushBlock (env : BuildEnv) (keyWidth : nat) (st : buildState) : buildState + KeyErr :=
  match bs_block st with
  | [] => inl st
  | block =>
      ensure write_ok env (bs_writes st) or EWrite;
      ensure ctx_ok env (bs_writes st) or ECancelled;
      inl {| bs_out := bs_out st ++ block;
             bs_writes := S (bs_writes st);
             bs_block := [];
             bs_skip := bs_skip st ++ take keyWidth block ++ be_put 4 (crc_checksum block);
             bs_prev := bs_prev st;
             bs_n := bs_n st |}
  end.

(** The key columns of one row, [i] the number of the first. *)
Fixpoint encodeKeys (types : list string) (vals : list DuckVal) (i : nat) : Bytes + KeyErr :=
  match types, vals with
  | typ :: types', v :: vals' =>
      ensure negb (bool_decide (v = DNull)) or ENullKey i;
      b ←? or_err (encodeKey typ v) (EValue i);
      rest ←? encodeKeys types' vals' (S i);
      inl (b ++ rest)
  | _, _ => inl []
  end.

(** One row of the scan: its record, checked against the one before. *)
Definition build_row (env : BuildEnv) (types : list string) (keyWidth : nat) (numRows : Z)
    (st : buildState) (scan : list DuckVal) : buildState + KeyErr :=
  ensure (length scan =? S (length types))%nat or EScan;
  key ←? encodeKeys types scan 0;
  row ←? match scan !! length types with
         | Some (DInt64 row) => inl row
         | _ => inr ERowType
         end;
  ensure (0 <=? row) && (row <? numRows) or ERowNumber row;
  let rec := key ++ be_put 8 (u64_of row) in
  ensure match bs_prev st with
         | Some prev => match bytes_compare rec prev with Gt => true | _ => false end
         | None => true
         end or EOrder (bs_n st);
  let st := {| bs_out := bs_out st; bs_writes := bs_writes st; bs_block := bs_block st ++ rec;
               bs_skip := bs_skip st; bs_prev := Some rec; bs_n := S (bs_n st) |} in
  if Z.of_nat (length (bs_block st)) =? BlockRecords * (Z.of_nat keyWidth + rowWidth)
  then flushBlock env keyWidth st else inl st.

Fixpoint build_rows (env : BuildEnv) (types : list string) (keyWidth : nat) (numRows : Z)
    (st : buildState) (rows : list (list DuckVal)) : buildState + KeyErr :=
  match rows with
  | [] => inl st
  | scan :: rows' =>
      st ←? build_row env types keyWidth numRows st scan;
      build_rows env types keyWidth numRows st rows'
  end.

(** The file [Build] writes over the rows of the scan. *)
Definition buildFile (env : BuildEnv) (types names : list string) (id : baseIdentity)
    (rows : list (list DuckVal)) (fails : bool) : Bytes + KeyErr :=
  let keyWidth := keyWidthOf types in
  let hdr := encodeHeader types names id in
  ensure file_opens env or EWrite;
  ensure write_ok env 0 or EWrite;
  st ←? build_rows env types keyWidth (id_Rows id)
          {| bs_out := hdr; bs_writes := 1; bs_block := []; bs_skip := []; bs_prev := None; bs_n := 0 |} rows;
  ensure negb fails or EScan;
  ensure Z.of_nat (bs_n st) =? id_Rows id or ECount (bs_n st);
  st ←? flushBlock env keyWidth st;
  let trailer := crc_update (crc_checksum hdr) (bs_skip st) in
  ensure write_ok env (bs_writes st) && write_ok env (S (bs_writes st)) && rename_ok env or EWrite;
  inl (bs_out st ++ bs_skip st ++ be_put 4 trailer).

(** Why [Build] wrote nothing, when that is no failure. *)
Inductive skipReason := SkipS3 | SkipNoKey | SkipNotInteger (col : string) | SkipDisk.

(** [Result]: what [Build] did, or why it did nothing. *)
Inductive buildResult :=
| Written (file : Bytes) (records bytes : Z)
| Skipped (why : skipReason).

Section base.
(** [parquet.OpenFile]. *)
Variable openParquet : Bytes → option ParquetFile.

(** [readBaseIdentity] of a file that opened. *)
Definition readBaseIdentity (base : Bytes) (st : FileStat) : baseIdentity + KeyErr :=
  crc ←? or_err (footerCRCOf base) ErrFooter;
  pf ←? or_err (openParquet base) ErrFooter;
  inl (identityOf (Z.of_nat (length base)) st crc (pq_NumRows pf)).

(** [Build], up to what it leaves on disk. Its [make] of the skip slice is taken
    to succeed: that it panics on an absurd size is modelled where a size is
    read from a file, in [readIndex]; [dir] is the base's directory,
    [base] the file and its stat when it opens. *)
Definition Build (env : BuildEnv) (ddb : DuckScan) (basePath dir : string)
    (base : option (Bytes * FileStat)) (keyCols : list string) : buildResult + KeyErr :=
  if has_prefix basePath "s3://" then inl (Skipped SkipS3)
  else if (length keyCols =? 0)%nat then inl (Skipped SkipNoKey)
  else
    '(file, st) ←? or_err base ErrNoBase;
    ident ←? readBaseIdentity file st;
    ensure slot_free env && ctx_live env or ECancelled;
    names ←? orderKeys keyCols (dk_columns ddb);
    match IntegerKeyTypes ddb names with
    | inr col => inl (Skipped (SkipNotInteger col))
    | inl types =>
        let keyWidth := keyWidthOf types in
        let numRows := id_Rows ident in
        let expected := ExpectedSize numRows names keyWidth in
        if freeSpaceShort env dir (spillDir env) expected (wrap64 (numRows * (Z.of_nat keyWidth + rowWidth)))
        then inl (Skipped SkipDisk)
        else
          file ←? buildFile env types names ident (dk_query ddb names) (dk_fails ddb);
          inl (Written file numRows expected)
    end.

(** The index file after a build: [before] is one an earlier build left. Only
    a base on S3 leaves it alone. *)
Definition index_after (env : BuildEnv) (basePath : string) (before : option Bytes)
    (r : buildResult + KeyErr) : option Bytes :=
  match r with
  | inl (Written file _ _) => Some file
  | _ => if has_prefix basePath "s3://" then before else if remove_ok env then None else before
  end.
End base.

(** ** Reading *)

Record header := {
  h_Types : list string;
  h_Names : list string;
  h_Records : Z;
  h_BaseSize : Z;
  h_FooterCRC : N;
  h_BaseRows : Z;
  h_BaseIno : N;
  h_BaseMtime : Z;
}.

Record blockEntry := { FirstKey : Bytes; be_CRC : N }.

Record index := {
  ix_header : header;
  ix_file : Bytes;
  ix_headerLen : Z;
  ix_keyWidth : nat;
  ix_recordWidth : nat;
  ix_blocks : list blockEntry;
}.

(** The names of the header: each a 2-byte length and its bytes. *)
Fixpoint read_names (file : Bytes) (n : nat) (off : Z) : list string + KeyErr :=
  match n with
  | O => inl []
  | S n' =>
      l ←? or_err (ReadAt file off 2) (ErrCorrupt "key column names");
      let len := Z.of_N (be_get l) in
      ensure negb ((len =? 0) || (Z.of_nat (length file) <? off + 2 + len)) or ErrCorrupt "key column name length";
      name ←? or_err (ReadAt file (off + 2) (Z.to_nat len)) (ErrCorrupt "key column names");
      names ←? read_names file n' (off + 2 + len);
      inl (bytes_str name :: names)
  end.

(** The entries of the skip table, each [keyWidth + 4] bytes, checked to
    ascend; [i] counts them. *)
Fixpoint read_skip (skip : Bytes) (keyWidth n i : nat) (prev : option Bytes) : list blockEntry + KeyErr :=
  match n with
  | O => inl []
  | S n' =>
      let e := drop (i * (keyWidth + 4)) skip in
      let entry := {| FirstKey := take keyWidth e; be_CRC := be_get (slice keyWidth 4 e) |} in
      ensure match prev with
             | Some p => match bytes_compare p (FirstKey entry) with Gt => false | _ => true end
             | None => true
             end or ErrCorrupt "skip table out of order";
      rest ←? read_skip skip keyWidth n' (S i) (Some (FirstKey entry));
      inl (entry :: rest)
  end.

(** [make([]byte, n)]. *)
Definition make_ok (n : Z) : bool := (0 <=? n) && (n <=? maxAlloc).

Definition readIndex (file : Bytes) : index + KeyErr :=
  let size := Z.of_nat (length file) in
  fixed ←? or_err (ReadAt file 0 (Z.to_nat fixedHeader)) (ErrCorrupt "header");
  ensure bool_decide (take 8 fixed = str_bytes Magic) or ErrCorrupt "magic";
  ensure (be_get (slice 8 2 fixed) =? Version)%N or ErrCorrupt "version";
  let ncols := N.to_nat (be_get (slice 10 1 fixed)) in
  let rw := Z.of_N (be_get (slice 11 1 fixed)) in
  ensure negb ((ncols =? 0)%nat || negb (rw =? rowWidth)) or ErrCorrupt "key columns";
  let records := i64_of (be_get (slice 12 8 fixed)) in
  let baseRows := i64_of (be_get (slice 32 8 fixed)) in
  codes ←? or_err (ReadAt file fixedHeader ncols) (ErrCorrupt "type codes");
  types ←? or_err (mapM (λ c, codeTypes (byte_val c)) codes) (ErrCorrupt "type code");
  let keyWidth := keyWidthOf types in
  ensure negb ((records <? 0) || negb (records =? baseRows)) or ErrCorrupt "records";
  names ←? read_names file ncols (fixedHeader + Z.of_nat ncols);
  ensure size =? ExpectedSize records names keyWidth or ErrCorrupt "size";
  let headerLen := headerSize names in
  let recordWidth := (keyWidth + 8)%nat in
  let nblocks := blocksFor records in
  let skipLen := wrap64 (nblocks * (Z.of_nat keyWidth + 4)) in
  ensure make_ok (wrap64 (headerLen + skipLen + 4)) or EPanic;
  hdr ←? or_err (ReadAt file 0 (Z.to_nat headerLen)) (ErrCorrupt "header");
  tail ←? or_err (ReadAt file (wrap64 (headerLen + records * Z.of_nat recordWidth)) (Z.to_nat (skipLen + 4)))
            (ErrCorrupt "skip table");
  let skip := take (Z.to_nat skipLen) tail in
  ensure (be_get (drop (Z.to_nat skipLen) tail) =? crc_checksum (hdr ++ skip))%N or ErrCorrupt "trailing CRC";
  blocks ←? read_skip skip keyWidth (Z.to_nat nblocks) 0 None;
  inl {| ix_header := {| h_Types := types; h_Names := names; h_Records := records;
                         h_BaseSize := i64_of (be_get (slice 20 8 fixed));
                         h_FooterCRC := be_get (slice 28 4 fixed); h_BaseRows := baseRows;
                         h_BaseIno := be_get (slice 40 8 fixed);
                         h_BaseMtime := i64_of (be_get (slice 48 8 fixed)) |};
         ix_file := file; ix_headerLen := headerLen; ix_keyWidth := keyWidth;
         ix_recordWidth := recordWidth; ix_blocks := blocks |}.

Definition bound (ix : index) (id : baseIdentity) : bool :=
  let h := ix_header ix in
  (h_BaseSize h =? Size (id_file id)) && (h_FooterCRC h =? id_FooterCRC id)%N &&
  (h_BaseRows h =? id_Rows id) && (h_BaseIno h =? Ino (id_file id))%N &&
  (h_BaseMtime h =? Mtime (id_file id)).

Definition blockRecords (ix : index) (i : nat) : Z :=
  let n := h_Records (ix_header ix) - Z.of_nat i * BlockRecords in
  if BlockRecords <? n then BlockRecords else n.

(** Record [j] of a block's bytes: [buf[j*w : (j+1)*w]]. *)
Definition rec_at (w : nat) (buf : Bytes) (j : nat) : Bytes := slice (j * w) w buf.

(** No record of the block is above the next. *)
Fixpoint ascends (w : nat) (buf : Bytes) (j : nat) (k : nat) : bool :=
  match k with
  | O => true
  | S k' =>
      match bytes_compare (rec_at w buf j) (rec_at w buf (S j)) with
      | Gt => false
      | _ => ascends w buf (S j) k'
      end
  end.

Definition blockBytes (ix : index) (i : nat) : Bytes + KeyErr :=
  e ←? or_err (ix_blocks ix !! i) (EBlock i);
  let n := Z.to_nat (blockRecords ix i) in
  let w := ix_recordWidth ix in
  buf ←? or_err (ReadAt (ix_file ix) (ix_headerLen ix + Z.of_nat i * BlockRecords * Z.of_nat w) (n * w))
           (ErrCorrupt "block");
  ensure (crc_checksum buf =? be_CRC e)%N or ErrCorrupt "block CRC";
  ensure bool_decide (take (ix_keyWidth ix) buf = FirstKey e) or ErrCorrupt "first key";
  ensure ascends w buf 0 (n - 1) or ErrCorrupt "record order";
  inl buf.

Record record := { rec_Key : Bytes; rec_Row : Z }.

(** Record [j] of a block's bytes, decoded. *)
Definition record_at (kw w : nat) (buf : Bytes) (j : nat) : record :=
  {| rec_Key := slice (j * w) kw buf; rec_Row := i64_of (be_get (slice (j * w + kw) (w - kw) buf)) |}.

Definition block (ix : index) (i : nat) : list record + KeyErr :=
  buf ←? blockBytes ix i;
  inl (record_at (ix_keyWidth ix) (ix_recordWidth ix) buf <$> seq 0 (length buf `div` ix_recordWidth ix)).

Fixpoint blocks_from (ix : index) (i k : nat) : list record + KeyErr :=
  match k with
  | O => inl []
  | S k' =>
      recs ←? block ix i;
      rest ←? blocks_from ix (S i) k';
      inl (recs ++ rest)
  end.

(** [all]. *)
Definition all (ix : index) : list record + KeyErr := blocks_from ix 0 (length (ix_blocks ix)).

(** [Open]: the index file beside the base, when there is one, and the base. *)
Definition Open (openParquet : Bytes → option ParquetFile) (index_file : option Bytes)
    (base : option (Bytes * FileStat)) : index + KeyErr :=
  file ←? or_err index_file ErrNotExist;
  ix ←? readIndex file;
  '(b, st) ←? or_err base ErrNoBase;
  crc ←? or_err (footerCRCOf b) ErrFooter;
  pf ←? or_err (openParquet b) ErrFooter;
  ensure bound ix (identityOf (Z.of_nat (length b)) st crc (pq_NumRows pf)) or ErrUnbound;
  types ←? or_err (baseKeyTypes pf (h_Names (ix_header ix))) ErrMismatch;
  ensure bool_decide (types = h_Types (ix_header ix)) or ErrMismatch;
  inl ix.

(** [Bound]: [false] when there is no index. *)
Definition Bound (openParquet : Bytes → option ParquetFile) (index_file : option Bytes)
    (base : option (Bytes * FileStat)) : bool + KeyErr :=
  match index_file with
  | None => inl false
  | Some file =>
      ix ←? readIndex file;
      '(b, st) ←? or_err base ErrNoBase;
      ident ←? readBaseIdentity openParquet b st;
      inl (bound ix ident)
  end.

(** ** Lookup *)

Record Stats := { st_Blocks : nat; st_Matches : nat }.

(** The loop's variables: the cached blocks, the rows found, the counts. *)
Record findState := { fs_cache : gmap nat Bytes; fs_rows : list Z; fs_stats : Stats }.

(** The records equal to [k] from record [j] on, at most [n]. *)
Fixpoint run_equal (kw w : nat) (buf k : Bytes) (j n : nat) : list Z :=
  match n with
  | O => []
  | S n' =>
      let r := record_at kw w buf j in
      if bool_decide (rec_Key r = k) then rec_Row r :: run_equal kw w buf k (S j) n' else []
  end.

Definition gt_or_eq (c : comparison) : bool := match c with Lt => false | _ => true end.
Definition is_gt (c : comparison) : bool := match c with Gt => true | _ => false end.

(** The rows of key [k] in a block's bytes. *)
Definition search_block (kw w : nat) (buf k : Bytes) : list Z :=
  let n := (length buf `div` w)%nat in
  let lo := Search n (λ j, gt_or_eq (bytes_compare (slice (j * w) kw buf) k)) in
  run_equal kw w buf k lo (n - lo).

(** The blocks [b], [b + 1], ... of one key, [m] of them. *)
Fixpoint find_blocks (ix : index) (k : Bytes) (b m : nat) (st : findState) : findState + KeyErr :=
  match m with
  | O => inl st
  | S m' =>
      '(buf, st) ←? match fs_cache st !! b with
                    | Some buf => inl (buf, st)
                    | None =>
                        buf ←? blockBytes ix b;
                        inl (buf, {| fs_cache := <[b := buf]> (fs_cache st); fs_rows := fs_rows st;
                                     fs_stats := {| st_Blocks := S (st_Blocks (fs_stats st));
                                                    st_Matches := st_Matches (fs_stats st) |} |})
                    end;
      let found := search_block (ix_keyWidth ix) (ix_recordWidth ix) buf k in
      find_blocks ix k (S b) m'
        {| fs_cache := fs_cache st; fs_rows := fs_rows st ++ found;
           fs_stats := {| st_Blocks := st_Blocks (fs_stats st);
                          st_Matches := st_Matches (fs_stats st) + length found |} |}
  end.

(** One key: the blocks from the last whose first key is below it to the last
    whose first key is at or below it. *)
Definition find_key (ix : index) (st : findState) (k : Bytes) : findState + KeyErr :=
  let nb := length (ix_blocks ix) in
  let first i := default [] (FirstKey <$> ix_blocks ix !! i) in
  match Search nb (λ i, is_gt (bytes_compare (first i) k)) with
  | O => inl st
  | S end_ =>
      let start := pred (Search nb (λ i, gt_or_eq (bytes_compare (first i) k))) in
      let st := {| fs_cache := filter (λ e, (start ≤ e.1)%nat) (fs_cache st);
                   fs_rows := fs_rows st; fs_stats := fs_stats st |} in
      find_blocks ix k start (S end_ - start) st
  end.

Fixpoint find_keys (ix : index) (st : findState) (ks : list Bytes) : findState + KeyErr :=
  match ks with
  | [] => inl st
  | k :: ks' => st ←? find_key ix st k; find_keys ix st ks'
  end.

(** [slices.CompactFunc]: one of each run of equal keys. *)
Fixpoint compact (l : list Bytes) : list Bytes :=
  match l with
  | [] => []
  | k :: l' => match compact l' with
               | k' :: r => if decide (k = k') then k' :: r else k :: k' :: r
               | [] => [k]
               end
  end.

Definition empty_find : findState :=
  {| fs_cache := ∅; fs_rows := []; fs_stats := {| st_Blocks := 0; st_Matches := 0 |} |}.

Definition Find (ix : index) (keys : list Bytes) : (list Z * Stats) + KeyErr :=
  match filter (λ k, length k ≠ ix_keyWidth ix) keys with
  | k :: _ => inr (ErrKeyWidth (length k))
  | [] =>
      st ←? find_keys ix empty_find (compact (sort_by bytes_compare keys));
      inl (sort_by Z.compare (fs_rows st), fs_stats st)
  end.

(** ** Key encoding *)

(** The range of the driver's Go types. *)
Definition dv_ok (v : DuckVal) : Prop :=
  match v with
  | DInt32 z => - 2 ^ 31 ≤ z < 2 ^ 31
  | DInt64 z => is_i64 z
  | DUint64 n => is_u64 n
  | _ => True
  end.

(** The number a key value is. *)
Definition dv_num (v : DuckVal) : Z :=
  match v with DInt32 z | DInt64 z => z | DUint64 n => Z.of_N n | _ => 0 end.

(** Flipping the top bit of a two's complement number adds half the range. *)
Lemma flip_sign (k : N) (z : Z) : (- 2 ^ Z.of_N k ≤ z < 2 ^ Z.of_N k) →
  N.lxor (Z.to_N (z mod 2 ^ Z.of_N (N.succ k))) (2 ^ k) = Z.to_N (z + 2 ^ Z.of_N k).
Proof.
  intros Hz. rewrite N2Z.inj_succ, Z.pow_succ_r by lia.
  assert (Hk : (0 < 2 ^ Z.of_N k)) by (apply Z.pow_pos_nonneg; lia).
  assert (HkN : Z.to_N (2 ^ Z.of_N k) = (2 ^ k)%N) by (rewrite Z2N.inj_pow by lia; by rewrite N2Z.id).
  assert (Hlow : ∀ n, (n < 2 ^ k)%N → N.lxor n (2 ^ k) = (n + 2 ^ k)%N).
  { intros n Hn. symmetry. apply N.add_nocarry_lxor. apply N.bits_inj. intros i.
    rewrite N.land_spec, N.pow2_bits_eqb, N.bits_0.
    destruct (N.eqb_spec k i) as [<-|]; [|by rewrite andb_false_r].
    rewrite andb_true_r. destruct (decide (n = 0)%N) as [->|]; [apply N.bits_0|].
    apply N.bits_above_log2, N.log2_lt_pow2; lia. }
  destruct (decide (0 ≤ z)).
  - rewrite Z.mod_small by lia. rewrite Hlow by lia. lia.
  - rewrite <- (Z.mod_unique z (2 * 2 ^ Z.of_N k) (-1) (z + 2 * 2 ^ Z.of_N k)) by lia.
    replace (Z.to_N (z + 2 * 2 ^ Z.of_N k)) with (Z.to_N (z + 2 ^ Z.of_N k) + 2 ^ k)%N by lia.
    rewrite <- Hlow by lia. by rewrite N.lxor_assoc, N.lxor_nilpotent, N.lxor_0_r.
Qed.

(** A value's bytes: the number moved to start at 0, big-endian. *)
Lemma encodeKey_number typ v b : encodeKey typ v = Some b → dv_ok v →
  ∃ n, b = be_put (keyBytes typ) n ∧ (n < 256 ^ N.of_nat (keyBytes typ))%N ∧
       Z.of_N n = dv_num v + (if decide (typ = "INTEGER") then 2 ^ 31
                              else if decide (typ = "BIGINT") then 2 ^ 63 else 0).
Proof.
  unfold encodeKey, keyBytes. intros H Hv.
  destruct (decide (typ = "INTEGER")) as [->|].
  { destruct v; simplify_eq/=. rewrite (flip_sign 31) by (simpl; lia).
    eexists; split; [done|]. simpl. lia. }
  destruct (decide (typ = "BIGINT")) as [->|].
  { destruct v; simplify_eq/=. unfold u64_of, two64, is_i64 in *.
    rewrite (flip_sign 63) by (simpl; lia). eexists; split; [done|]. simpl. lia. }
  destruct (decide (typ = "UBIGINT")) as [->|]; [|done].
  destruct v; simplify_eq/=. unfold is_u64 in *. eexists; split; [done|]. lia.
Qed.

Lemma encodeKey_compare typ v w a b : encodeKey typ v = Some a → encodeKey typ w = Some b →
  dv_ok v → dv_ok w → bytes_compare a b = Z.compare (dv_num v) (dv_num w).
Proof.
  intros Ha Hb Hv Hw.
  destruct (encodeKey_number _ _ _ Ha Hv) as (n & -> & Hn & En).
  destruct (encodeKey_number _ _ _ Hb Hw) as (m & -> & Hm & Em).
  rewrite be_put_compare, <- N2Z.inj_compare, En, Em by done.
  rewrite !(Z.add_comm (dv_num _)). apply Zcompare_plus_compat.
Qed.

Lemma encodeKey_length typ v b : encodeKey typ v = Some b → length b = keyBytes typ.
Proof.
  unfold encodeKey, keyBytes. intros H.
  repeat case_decide; destruct v; simplify_eq/=; by rewrite ?be_put_length.
Qed.

Lemma encodeKey_kind typ v w a b : encodeKey typ v = Some a → encodeKey typ w = Some b →
  dv_num v = dv_num w → v = w.
Proof.
  unfold encodeKey. intros Ha Hb Hn.
  repeat case_decide; destruct v, w; try discriminate; simpl in Hn; f_equal; lia.
Qed.

Lemma encodeKeys_length types vals i b : (length types ≤ length vals)%nat →
  encodeKeys types vals i = inl b → length b = keyWidthOf types.
Proof.
  revert vals i b. induction types as [|typ types IH]; intros vals i b Hl H.
  { by simplify_eq/=. }
  destruct vals as [|v vals]; [simpl in Hl; lia|]. simpl in H, Hl. inv_try. subst b.
  rewrite length_app. unfold keyWidthOf. simpl. f_equal; [by eapply encodeKey_length|].
  eapply IH; [|done]. lia.
Qed.

(** Numeric order of two key tuples. *)
Fixpoint tuple_compare (a b : list DuckVal) : comparison :=
  match a, b with
  | v :: a', w :: b' => Z.compare (dv_num v) (dv_num w) ⊕ tuple_compare a' b'
  | _, _ => Eq
  end.

Lemma encodeKeys_compare types a b i j x y :
  Forall dv_ok a → Forall dv_ok b → length a = length types → length b = length types →
  encodeKeys types a i = inl x → encodeKeys types b j = inl y →
  bytes_compare x y = tuple_compare a b.
Proof.
  revert a b i j x y. induction types as [|typ types IH]; intros a b i j x y Ha Hb La Lb Hx Hy.
  { destruct a, b; simplify_eq/=. done. }
  destruct a as [|v a], b as [|w b]; try done. simpl in *.
  inv_try. simplify_eq. inv Ha. inv Hb.
  rewrite bytes_compare_app by (transitivity (keyBytes typ); [|symmetry]; by eapply encodeKey_length).
  f_equal; [by eapply encodeKey_compare|by eapply IH].
Qed.

Lemma tuple_compare_eq types a b i j x y :
  length a = length types → length b = length types →
  encodeKeys types a i = inl x → encodeKeys types b j = inl y →
  tuple_compare a b = Eq → a = b.
Proof.
  revert a b i j x y. induction types as [|typ types IH]; intros a b i j x y La Lb Hx Hy Hc.
  { by destruct a, b. }
  destruct a as [|v a], b as [|w b]; try done. simpl in *. inv_try. injection La as La. injection Lb as Lb.
  revert Hc. destruct (Z.compare_spec (dv_num v) (dv_num w)); simpl; [intros Hc|done..].
  f_equal; [by eapply encodeKey_kind|by eapply IH].
Qed.

(** Two key tuples have the same bytes only when they are one. *)
Lemma encodeKeys_inj types a b i j x :
  Forall dv_ok a → Forall dv_ok b → length a = length types → length b = length types →
  encodeKeys types a i = inl x → encodeKeys types b j = inl x → a = b.
Proof.
  intros Ha Hb La Lb Hx Hy. eapply tuple_compare_eq; [exact La|exact Lb|exact Hx|exact Hy|].
  erewrite <- encodeKeys_compare by done. apply cmp_refl, _.
Qed.
