(* ===== verification/KeyFind.v ===== *)
(** * Looking keys up in a key index

    [Find] against its specification: the row numbers of all records whose key
    is asked for, and what it costs. The records are those [all] decodes from
    the file, so the theorems hold for every file the reader accepts, whoever
    wrote it. *)
From S2P Require Import Prelude GoStrings GoBytes KeyIdx.

Open Scope nat_scope.

(** ** One block *)

(** The records of a block's bytes. *)
Definition records_of (kw w : nat) (buf : Bytes) : list record :=
  record_at kw w buf <$> seq 0 (length buf `div` w).

(** Keys in order. *)
Definition key_le (a b : record) : Prop := cmp_le bytes_compare (rec_Key a) (rec_Key b).

#[export] Instance key_le_trans : Transitive key_le.
Proof. intros x y z. unfold key_le, cmp_le. apply (cmp_trans bytes_compare). Qed.

(** The rows of the records with key [k]. *)
Definition rows_of (k : Bytes) (recs : list record) : list Z :=
  rec_Row <$> filter (λ r, rec_Key r = k) recs.

Lemma key_rows_app k l l' : rows_of k (l ++ l') = rows_of k l ++ rows_of k l'.
Proof. unfold rows_of. by rewrite filter_app, fmap_app. Qed.

Lemma rows_of_none k l : (∀ r, r ∈ l → rec_Key r ≠ k) → rows_of k l = [].
Proof. intros. unfold rows_of. by rewrite filter_none. Qed.

Lemma seq_sorted (f : nat → record) j n :
  StronglySorted key_le (f <$> seq j n) → ∀ a b, j ≤ a → a ≤ b → b < j + n → key_le (f a) (f b).
Proof.
  revert j. induction n as [|n IH]; intros j Hs a b Hj Hab Hb; [lia|].
  cbn [seq fmap list_fmap] in Hs. apply StronglySorted_inv in Hs as [Hs Hf].
  destruct (decide (a = j)) as [->|]; [|apply (IH (S j)); [done|lia..]].
  destruct (decide (b = j)) as [->|].
  - unfold key_le, cmp_le. by rewrite (cmp_refl bytes_compare).
  - rewrite Forall_fmap, Forall_forall in Hf. apply Hf. apply elem_of_seq. lia.
Qed.

Lemma cmp_le_lt_of {a b c : Bytes} :
  bytes_compare a b = Lt → cmp_le bytes_compare b c → bytes_compare a c = Lt.
Proof. apply (cmp_lt_le_trans bytes_compare). Qed.

Lemma cmp_le_lt_of' {a b c : Bytes} :
  cmp_le bytes_compare a b → bytes_compare b c = Lt → bytes_compare a c = Lt.
Proof. apply (cmp_le_lt_trans bytes_compare). Qed.

Lemma bytes_lt_neq a b : bytes_compare a b = Lt → a ≠ b.
Proof. intros H ->. by rewrite (cmp_refl bytes_compare) in H. Qed.

(** From records at or above [k] on, the run of equal keys is all of them. *)
Lemma run_equal_spec kw w buf k j n :
  StronglySorted key_le (record_at kw w buf <$> seq j n) →
  (∀ a, j ≤ a < j + n → bytes_compare (rec_Key (record_at kw w buf a)) k ≠ Lt) →
  run_equal kw w buf k j n = rows_of k (record_at kw w buf <$> seq j n).
Proof.
  revert j. induction n as [|n IH]; intros j Hs Hge; [done|].
  cbn [seq fmap list_fmap run_equal] in *. apply StronglySorted_inv in Hs as [Hs Hf].
  unfold rows_of. rewrite filter_cons. case_bool_decide as Hk; case_decide; try done.
  - cbn [fmap list_fmap]. f_equal. apply IH; [done|]. intros. apply Hge. lia.
  - symmetry. apply rows_of_none. intros r Hr. rewrite Forall_forall in Hf. apply Hf in Hr.
    apply not_eq_sym, bytes_lt_neq. eapply cmp_le_lt_of; [|exact Hr].
    apply (cmp_gt_lt bytes_compare).
    destruct (bytes_compare (rec_Key (record_at kw w buf j)) k) eqn:E; [|by destruct (Hge j); [lia|]|done].
    by apply (cmp_eq bytes_compare) in E.
Qed.

Lemma gt_or_eq_spec c : gt_or_eq c = false ↔ c = Lt.
Proof. by destruct c. Qed.

Lemma is_gt_spec c : is_gt c = true ↔ c = Gt.
Proof. by destruct c. Qed.

(** Binary search in a block in order finds every record of the key. *)
Lemma search_block_spec kw w buf k : StronglySorted key_le (records_of kw w buf) →
  search_block kw w buf k = rows_of k (records_of kw w buf).
Proof.
  intros Hs. unfold search_block, records_of in *.
  change (λ j, gt_or_eq (bytes_compare (slice (j * w) kw buf) k)) with
    (λ j, gt_or_eq (bytes_compare (rec_Key (record_at kw w buf j)) k)).
  set (n := length buf `div` w) in *. set (f := λ j, gt_or_eq _).
  destruct (Search_spec n f) as (Hr & Hlo & Hhi).
  { intros a b Hab. unfold f. destruct (gt_or_eq (bytes_compare (rec_Key (record_at kw w buf b)) k)) eqn:E; [done|].
    apply gt_or_eq_spec in E. intros Ha.
    rewrite <- Ha. symmetry. apply gt_or_eq_spec. eapply cmp_le_lt_of'; [|exact E].
    apply (seq_sorted (record_at kw w buf) 0 n); [done|lia..]. }
  replace (seq 0 n) with (seq 0 (Search n f) ++ seq (Search n f) (n - Search n f)) in *
    by (rewrite <- (seq_app (Search n f)); f_equal; lia).
  rewrite fmap_app in Hs. rewrite fmap_app, key_rows_app, rows_of_none.
  - simpl. apply run_equal_spec.
    + eapply StronglySorted_sublist; [|exact Hs]. by apply sublist_inserts_l.
    + intros a Ha E. specialize (Hhi a ltac:(lia)). unfold f in Hhi. by rewrite E in Hhi.
  - intros r (a & -> & Ha)%list_elem_of_fmap. apply elem_of_seq in Ha.
    specialize (Hlo a ltac:(lia)). unfold f in Hlo. apply gt_or_eq_spec in Hlo. by apply bytes_lt_neq.
Qed.

(** ** All blocks *)

Section lookup.
Context (ix : index) (bufs : nat → Bytes).
Abbreviation nb := (length (ix_blocks ix)).
Abbreviation kw := (ix_keyWidth ix).
Abbreviation w := (ix_recordWidth ix).

Definition blk (i : nat) : list record := records_of kw w (bufs i).
Definition all_recs : list record := mjoin (blk <$> seq 0 nb).
Definition first_key (i : nat) : Bytes := default [] (FirstKey <$> ix_blocks ix !! i).

(** Every block reads, is not empty and starts with its skip entry's key, and
    the records are in key order. *)
Hypothesis bufs_read : ∀ i, i < nb → blockBytes ix i = inl (bufs i).
Hypothesis bufs_first : ∀ i, i < nb → ∃ r l, blk i = r :: l ∧ rec_Key r = first_key i.
Hypothesis recs_sorted : StronglySorted key_le all_recs.

Lemma blk_split i : i < nb →
  all_recs = mjoin (blk <$> seq 0 i) ++ blk i ++ mjoin (blk <$> seq (S i) (nb - S i)).
Proof.
  intros Hi. unfold all_recs. replace nb with (i + S (nb - S i)) at 1 by lia.
  rewrite seq_app, fmap_app, join_app. done.
Qed.

Lemma blk_sorted i : i < nb → StronglySorted key_le (blk i).
Proof.
  intros Hi. eapply StronglySorted_sublist; [|exact recs_sorted]. rewrite (blk_split i) by done.
  apply sublist_inserts_l. by apply sublist_inserts_r.
Qed.

Lemma elem_of_blks r j n : r ∈ mjoin (blk <$> seq j n) → ∃ i, j ≤ i < j + n ∧ r ∈ blk i.
Proof.
  intros (l & Hr & (i & -> & Hi%elem_of_seq)%list_elem_of_fmap)%list_elem_of_join. eauto.
Qed.

Lemma StronglySorted_app_le (l l' : list record) : StronglySorted key_le (l ++ l') →
  ∀ a b, a ∈ l → b ∈ l' → key_le a b.
Proof.
  induction l as [|x l IH]; intros Hs a b Ha Hb; [by apply not_elem_of_nil in Ha|].
  apply StronglySorted_inv in Hs as [Hs Hf]. rewrite Forall_forall in Hf.
  apply elem_of_cons in Ha as [->|Ha]; [apply Hf, elem_of_app; by right|eauto].
Qed.

(** A record of an earlier block is not above one of a later block. *)
Lemma blk_le i j a b : i < j → j < nb → a ∈ blk i → b ∈ blk j → key_le a b.
Proof.
  intros Hij Hj Ha Hb. apply (StronglySorted_app_le (mjoin (blk <$> seq 0 j)) (blk j)); [| |done].
  - eapply StronglySorted_sublist; [|exact recs_sorted]. rewrite (blk_split j) by done.
    rewrite app_assoc. by apply sublist_inserts_r.
  - apply list_elem_of_join. exists (blk i). split; [done|]. apply list_elem_of_fmap_2, elem_of_seq. lia.
Qed.

Lemma first_le i a : i < nb → a ∈ blk i → cmp_le bytes_compare (first_key i) (rec_Key a).
Proof.
  intros Hi Ha. destruct (bufs_first i Hi) as (r & l & Hb & <-).
  pose proof (blk_sorted i Hi) as Hs. rewrite Hb in Hs, Ha.
  apply StronglySorted_inv in Hs as [_ Hf]. rewrite Forall_forall in Hf.
  apply elem_of_cons in Ha as [->|Ha]; [|by apply Hf].
  unfold cmp_le. by rewrite (cmp_refl bytes_compare).
Qed.

Lemma le_first i j a : i < j → j < nb → a ∈ blk i → cmp_le bytes_compare (rec_Key a) (first_key j).
Proof.
  intros Hij Hj Ha. destruct (bufs_first j Hj) as (r & l & Hb & <-).
  apply (blk_le i j); [done..|]. rewrite Hb. apply list_elem_of_here.
Qed.

Lemma first_mono i j : i ≤ j → j < nb → cmp_le bytes_compare (first_key i) (first_key j).
Proof.
  intros Hij Hj. destruct (decide (i = j)) as [->|]; [unfold cmp_le; by rewrite (cmp_refl bytes_compare)|].
  destruct (bufs_first i ltac:(lia)) as (r & l & Hb & <-).
  apply (le_first i j); [lia|done|]. rewrite Hb. apply list_elem_of_here.
Qed.

(** The two searches in the skip table. *)
Definition above (k : Bytes) : nat := Search nb (λ i, is_gt (bytes_compare (first_key i) k)).
Definition from (k : Bytes) : nat := Search nb (λ i, gt_or_eq (bytes_compare (first_key i) k)).

Lemma above_spec k : above k ≤ nb ∧
  (∀ i, i < above k → cmp_le bytes_compare (first_key i) k) ∧
  (∀ i, above k ≤ i < nb → bytes_compare k (first_key i) = Lt).
Proof.
  destruct (Search_spec nb (λ i, is_gt (bytes_compare (first_key i) k))) as (H & Hlo & Hhi).
  { intros a b Hab Ha%is_gt_spec. apply is_gt_spec. apply (cmp_gt_lt bytes_compare) in Ha.
    apply (cmp_gt_lt bytes_compare). eapply cmp_le_lt_of; [exact Ha|]. apply first_mono; lia. }
  split_and!; [done|..].
  - intros i Hi. specialize (Hlo i Hi). unfold cmp_le. intros E. by rewrite E in Hlo.
  - intros i Hi. specialize (Hhi i Hi). apply is_gt_spec in Hhi. by apply (cmp_gt_lt bytes_compare).
Qed.

Lemma from_spec k : from k ≤ nb ∧
  (∀ i, i < from k → bytes_compare (first_key i) k = Lt) ∧
  (∀ i, from k ≤ i < nb → cmp_le bytes_compare k (first_key i)).
Proof.
  destruct (Search_spec nb (λ i, gt_or_eq (bytes_compare (first_key i) k))) as (H & Hlo & Hhi).
  { intros a b Hab. destruct (gt_or_eq (bytes_compare (first_key b) k)) eqn:E; [done|].
    intros Ha. rewrite <- Ha. symmetry. apply gt_or_eq_spec in E. apply gt_or_eq_spec.
    eapply cmp_le_lt_of'; [apply (first_mono a b); lia|done]. }
  split_and!; [done|..].
  - intros i Hi. by apply gt_or_eq_spec, Hlo.
  - intros i Hi. specialize (Hhi i Hi). unfold cmp_le. rewrite (cmp_antisym bytes_compare).
    by destruct (bytes_compare (first_key i) k).
Qed.

Lemma from_le_above k : from k ≤ above k.
Proof.
  destruct (decide (from k ≤ above k)) as [|Hn]; [done|].
  destruct (from_spec k) as (Hf & Hlo & _). destruct (above_spec k) as (_ & _ & Hhi).
  specialize (Hlo (above k) ltac:(lia)). specialize (Hhi (above k) ltac:(lia)).
  apply (cmp_gt_lt bytes_compare) in Hhi. congruence.
Qed.

(** Outside the blocks from [pred (from k)] to below [above k] there is no
    record with the key. *)
Lemma outside_none k i : i < nb → i < pred (from k) ∨ above k ≤ i → rows_of k (blk i) = [].
Proof.
  intros Hi Ho. apply rows_of_none. intros r Hr. destruct Ho as [Ho|Ho].
  - apply bytes_lt_neq. eapply cmp_le_lt_of'.
    + apply (le_first i (pred (from k))); [lia| |done]. pose proof (from_spec k). lia.
    + apply from_spec. lia.
  - apply not_eq_sym, bytes_lt_neq. eapply cmp_le_lt_of; [by apply above_spec|]. by apply first_le.
Qed.

Lemma rows_of_blks_none k j n : (∀ i, j ≤ i < j + n → rows_of k (blk i) = []) →
  rows_of k (mjoin (blk <$> seq j n)) = [].
Proof.
  revert j. induction n as [|n IH]; intros j H; [done|]. cbn [seq fmap list_fmap mjoin list_join].
  rewrite key_rows_app, H, IH by lia || (intros; apply H; lia). done.
Qed.

Lemma rows_of_all k : rows_of k all_recs =
  rows_of k (mjoin (blk <$> seq (pred (from k)) (above k - pred (from k)))).
Proof.
  pose proof (from_le_above k). destruct (above_spec k) as (Hn & _).
  unfold all_recs.
  replace nb with (pred (from k) + ((above k - pred (from k)) + (nb - above k))) at 1 by lia.
  rewrite !seq_app, !fmap_app, !join_app, !key_rows_app. simpl.
  rewrite (rows_of_blks_none k 0), (rows_of_blks_none k (_ + _)), app_nil_r; [done|..];
    intros i Hi; apply outside_none; lia.
Qed.

(** The state between two keys: the cache holds blocks of the file, and of the
    blocks read so far ([R], one count each) those from [s] on are cached. *)
Record find_inv (st : findState) (s : nat) (R : gset nat) : Prop := {
  fi_cache b buf : fs_cache st !! b = Some buf → buf = bufs b;
  fi_count : size R = st_Blocks (fs_stats st);
  fi_range b : b ∈ R → b < nb;
  fi_read b : is_Some (fs_cache st !! b) → b ∈ R;
  fi_held b : b ∈ R → s ≤ b → is_Some (fs_cache st !! b);
  fi_matches : st_Matches (fs_stats st) = length (fs_rows st);
}.

(** One block: cached or read now, and its rows of the key added. *)
Lemma find_block_step k b m st s R : b < nb → s ≤ b → find_inv st s R →
  ∃ st' R', find_blocks ix k b (S m) st = find_blocks ix k (S b) m st' ∧
    fs_rows st' = fs_rows st ++ rows_of k (blk b) ∧ find_inv st' s R'.
Proof.
  intros Hb Hs Hi. cbn [find_blocks]. destruct (fs_cache st !! b) as [buf|] eqn:Hc.
  - rewrite (fi_cache _ _ _ Hi _ _ Hc). simpl. rewrite search_block_spec by (by apply blk_sorted).
    eexists _, R. split; [done|]. split; [done|]. destruct Hi. split; simpl; try done.
    rewrite length_app. unfold blk. lia.
  - rewrite bufs_read by done. simpl. rewrite search_block_spec by (by apply blk_sorted).
    eexists _, ({[b]} ∪ R). split; [done|]. split; [done|]. destruct Hi. split; simpl.
    + intros b' buf' [[<- <-]|[_ H]]%lookup_insert_Some; eauto.
    + rewrite size_union by (intros x ->%elem_of_singleton Hx;
        destruct (fi_held0 b Hx Hs) as [? He]; congruence).
      rewrite size_singleton. lia.
    + set_solver.
    + intros b' [buf' [[<- <-]|[_ H]]%lookup_insert_Some]; set_solver.
    + intros b' [->%elem_of_singleton|Hb']%elem_of_union Hle; [by rewrite lookup_insert_eq|].
      destruct (decide (b' = b)) as [->|]; [by rewrite lookup_insert_eq|].
      rewrite lookup_insert_ne by done. auto.
    + rewrite length_app. unfold blk. lia.
Qed.

Lemma find_blocks_spec k m b st s R : b + m ≤ nb → s ≤ b → find_inv st s R →
  ∃ st' R', find_blocks ix k b m st = inl st' ∧
    fs_rows st' = fs_rows st ++ rows_of k (mjoin (blk <$> seq b m)) ∧ find_inv st' s R'.
Proof.
  revert b st R. induction m as [|m IH]; intros b st R Hb Hs Hi.
  { exists st, R. simpl. by rewrite app_nil_r. }
  destruct (find_block_step k b m st s R) as (st1 & R1 & -> & Hr & Hi1); [lia|done..|].
  destruct (IH (S b) st1 R1) as (st2 & R2 & -> & Hr2 & Hi2); [lia..|done|].
  exists st2, R2. split; [done|]. split; [|done].
  cbn [seq fmap list_fmap mjoin list_join]. by rewrite key_rows_app, Hr2, Hr, <- app_assoc.
Qed.

Lemma find_inv_drop st s s' R : s ≤ s' → find_inv st s R →
  find_inv {| fs_cache := filter (λ e, s' ≤ e.1) (fs_cache st); fs_rows := fs_rows st;
              fs_stats := fs_stats st |} s' R.
Proof.
  intros Hs []. split; simpl; try done.
  - intros b buf [H _]%map_lookup_filter_Some. eauto.
  - intros b [buf [H _]%map_lookup_filter_Some]. eauto.
  - intros b Hb Hle. destruct (fi_held0 b Hb ltac:(lia)) as [buf Hbuf].
    exists buf. by apply map_lookup_filter_Some.
Qed.

Lemma find_inv_weaken st s s' R : s ≤ s' → find_inv st s R → find_inv st s' R.
Proof. intros Hs []. split; try done. intros b Hb Hle. apply fi_held0; [done|lia]. Qed.

Lemma find_key_spec k st s R : s ≤ pred (from k) → find_inv st s R →
  ∃ st' R', find_key ix st k = inl st' ∧
    fs_rows st' = fs_rows st ++ rows_of k all_recs ∧ find_inv st' (pred (from k)) R'.
Proof.
  intros Hs Hi. rewrite rows_of_all.
  change (find_key ix st k) with
    (match above k with
     | O => inl st
     | S e => find_blocks ix k (pred (from k)) (S e - pred (from k))
         {| fs_cache := filter (λ e, pred (from k) ≤ e.1) (fs_cache st); fs_rows := fs_rows st;
            fs_stats := fs_stats st |}
     end).
  pose proof (from_le_above k). destruct (above_spec k) as (Hn & _).
  destruct (above k) as [|e] eqn:He.
  { exists st, R. split; [done|]. split; [|by eapply find_inv_weaken]. simpl. by rewrite app_nil_r. }
  pose proof (find_inv_drop st s (pred (from k)) R Hs Hi) as Hd.
  eapply (find_blocks_spec k (S e - pred (from k))) in Hd; [|shelve|exact (le_n _)]. exact Hd.
  Unshelve. lia.
Qed.

Lemma from_mono k k' : cmp_le bytes_compare k k' → from k ≤ from k'.
Proof.
  intros Hk. destruct (decide (from k ≤ from k')) as [|Hn]; [done|].
  destruct (from_spec k) as (Hf & Hlo & _). destruct (from_spec k') as (_ & _ & Hhi).
  specialize (Hlo (from k') ltac:(lia)). specialize (Hhi (from k') ltac:(lia)).
  pose proof (cmp_le_lt_of' Hhi Hlo) as H. apply (cmp_gt_lt bytes_compare) in H. by destruct (Hk H).
Qed.

Lemma find_keys_spec ks st s R :
  StronglySorted (cmp_le bytes_compare) ks → (∀ k, k ∈ ks → s ≤ pred (from k)) → find_inv st s R →
  ∃ st' s' R', find_keys ix st ks = inl st' ∧
    fs_rows st' = fs_rows st ++ mjoin ((λ k, rows_of k all_recs) <$> ks) ∧ find_inv st' s' R'.
Proof.
  revert st s R. induction ks as [|k ks IH]; intros st s R Hs Hle Hi.
  { exists st, s, R. simpl. by rewrite app_nil_r. }
  apply StronglySorted_inv in Hs as [Hs Hf].
  destruct (find_key_spec k st s R) as (st1 & R1 & Hk & Hr & Hi1); [apply Hle, list_elem_of_here|done|].
  destruct (IH st1 (pred (from k)) R1) as (st2 & s2 & R2 & Hks & Hr2 & Hi2); [done| |done|].
  { intros k' Hk'. rewrite Forall_forall in Hf. pose proof (from_mono k k' (Hf _ Hk')). lia. }
  exists st2, s2, R2. cbn [find_keys]. rewrite Hk. simpl. split; [done|]. split; [|done].
  by rewrite Hr2, Hr, <- app_assoc.
Qed.
End lookup.

(** ** Sorted keys without duplicates *)

Lemma compact_spec l : StronglySorted (cmp_le bytes_compare) l →
  StronglySorted (cmp_le bytes_compare) (compact l) ∧ NoDup (compact l) ∧ (∀ k, k ∈ compact l ↔ k ∈ l).
Proof.
  induction l as [|x l IH]; intros Hs; [split_and!; [done|constructor|done]|].
  apply StronglySorted_inv in Hs as [Hs Hf]. destruct (IH Hs) as (Hs' & Hd & He).
  cbn [compact]. rewrite Forall_forall in Hf.
  assert (Hall : ∀ k, k ∈ compact l → cmp_le bytes_compare x k) by (intros k Hk; by apply Hf, He).
  destruct (compact l) as [|y r] eqn:E.
  { split_and!; [by repeat constructor|apply NoDup_singleton|]. intros k. rewrite !elem_of_cons, <- He. done. }
  case_decide as Hxy; [subst|].
  { split_and!; [done..|]. intros k. rewrite He, elem_of_cons. split; [tauto|]. intros [->|]; [|done].
    apply He, list_elem_of_here. }
  split_and!.
  - constructor; [done|]. by apply Forall_forall.
  - constructor; [|done]. intros Hx. apply elem_of_cons in Hx as [->|Hx]; [done|].
    apply StronglySorted_inv in Hs' as [_ Hf']. rewrite Forall_forall in Hf'. specialize (Hf' x Hx).
    specialize (Hall y (list_elem_of_here _ _)). apply Hxy. apply (cmp_eq bytes_compare).
    unfold cmp_le in *. rewrite (cmp_antisym bytes_compare) in Hf'. by destruct (bytes_compare x y).
  - intros k. rewrite (elem_of_cons _ k x), He, elem_of_cons. done.
Qed.

(** The rows of each key of a list, together, are the rows of its keys. *)
Lemma rows_of_keys ks recs : NoDup ks →
  mjoin ((λ k, rows_of k recs) <$> ks) ≡ₚ rec_Row <$> filter (λ r, rec_Key r ∈ ks) recs.
Proof.
  induction 1 as [|k ks Hk Hd IH]; [rewrite filter_none; [done|set_solver]|].
  cbn [fmap list_fmap mjoin list_join]. rewrite IH. unfold rows_of. rewrite <- fmap_app. apply fmap_Permutation.
  clear IH. induction recs as [|r recs IH]; [done|]. rewrite !filter_cons.
  destruct (decide (rec_Key r = k)) as [H1|H1], (decide (rec_Key r ∈ ks)) as [H2|H2],
    (decide (rec_Key r ∈ k :: ks)) as [H3|H3]; try (rewrite elem_of_cons in H3; naive_solver).
  by rewrite <- Permutation_middle, IH.
Qed.

(** ** The reader's own checks *)

Lemma read_skip_length skip kw n i prev blocks : read_skip skip kw n i prev = inl blocks → length blocks = n.
Proof.
  revert i prev blocks. induction n as [|n IH]; intros i prev blocks H; simpl in H; inv_try; subst; [done|].
  simpl. f_equal. by eapply IH.
Qed.

(** What an index that opened satisfies. *)
Lemma readIndex_inv file ix : readIndex file = inl ix →
  length (ix_blocks ix) = Z.to_nat (blocksFor (h_Records (ix_header ix))) ∧
  (0 ≤ h_Records (ix_header ix))%Z ∧ is_i64 (h_Records (ix_header ix)) ∧
  ix_recordWidth ix = ix_keyWidth ix + 8 ∧ ix_file ix = file.
Proof.
  unfold readIndex. intros H. inv_try. subst ix. simpl.
  match goal with H : read_skip _ _ _ _ _ = inl _ |- _ => apply read_skip_length in H as -> end.
  split; [done|]. split_and!; [|apply wrap64_range|done..].
  match goal with H : negb ((?r <? 0)%Z || _) = true |- _ => destruct (Z.ltb_spec r 0); [done|lia] end.
Qed.

(** A block of the skip table holds at least one record. *)
Lemma blockRecords_pos file ix i : readIndex file = inl ix → i < length (ix_blocks ix) →
  (0 < blockRecords ix i)%Z.
Proof.
  intros (Hl & H0 & Hr & _)%readIndex_inv Hi. rewrite Hl in Hi. unfold blockRecords, blocksFor in *.
  set (n := h_Records (ix_header ix)) in *.
  destruct (Z.ltb_spec BlockRecords (n - Z.of_nat i * BlockRecords)) as [|_]; [done|].
  unfold BlockRecords in *. destruct (decide (n + 4096 - 1 < 2 ^ 63)%Z).
  - rewrite wrap64_small in Hi by (unfold is_i64; lia).
    rewrite Z.quot_div_nonneg in Hi by lia.
    assert (Z.of_nat i < (n + 4096 - 1) / 4096)%Z as Hq by lia.
    pose proof (Z.mul_div_le (n + 4096 - 1) 4096). lia.
  - exfalso. unfold is_i64 in Hr.
    assert (wrap64 (n + 4096 - 1) < 0)%Z as Hneg.
    { unfold wrap64, two64.
      rewrite <- (Z.mod_unique (n + 4096 - 1 + 2 ^ 63) (2 ^ 64) 1 (n + 4096 - 1 - 2 ^ 63)); lia. }
    assert (Z.quot (wrap64 (n + 4096 - 1)) 4096 ≤ 0)%Z; [|lia].
    apply Z.quot_le_upper_bound; lia.
Qed.

Lemma blockBytes_inv ix i buf : blockBytes ix i = inl buf →
  ∃ e, ix_blocks ix !! i = Some e ∧ take (ix_keyWidth ix) buf = FirstKey e ∧
    length buf = Z.to_nat (blockRecords ix i) * ix_recordWidth ix.
Proof.
  unfold blockBytes. intros H. inv_try. subst. eexists. split; [done|].
  split; [by eapply bool_decide_eq_true_1|]. by eapply ReadAt_length.
Qed.

Definition buf_of (ix : index) (i : nat) : Bytes :=
  match blockBytes ix i with inl buf => buf | inr _ => [] end.

Lemma blocks_from_inv ix i k recs : blocks_from ix i k = inl recs →
  (∀ j, i ≤ j < i + k → blockBytes ix j = inl (buf_of ix j)) ∧
  recs = mjoin (blk ix (buf_of ix) <$> seq i k).
Proof.
  revert i recs. induction k as [|k IH]; intros i recs H; simpl in H; inv_try; subst.
  { split; [lia|done]. }
  destruct (IH _ _ H1) as [Hr ->]. unfold block in H0. apply try_bind_inl in H0 as (buf & Hb & H0).
  injection H0 as <-. assert (buf_of ix i = buf) as <- by (unfold buf_of; by rewrite Hb).
  split; [|done]. intros j Hj. destruct (decide (j = i)) as [->|]; [done|]. apply Hr. lia.
Qed.

(** An index file that opened and whose blocks all read has its first keys in
    the skip table. *)
Lemma all_first file ix recs i : readIndex file = inl ix → all ix = inl recs → i < length (ix_blocks ix) →
  ∃ r l, blk ix (buf_of ix) i = r :: l ∧ rec_Key r = first_key ix i.
Proof.
  intros Hix [Hr _]%blocks_from_inv Hi. pose proof (blockRecords_pos _ _ _ Hix Hi) as Hp.
  destruct (readIndex_inv _ _ Hix) as (_ & _ & _ & Hw & _).
  destruct (blockBytes_inv _ _ _ (Hr i ltac:(lia))) as (e & He & Hk & Hlen).
  unfold blk, records_of. rewrite Hlen, Nat.div_mul by lia.
  destruct (Z.to_nat (blockRecords ix i)) as [|n] eqn:E; [lia|].
  eexists _, _. split; [done|]. unfold first_key. rewrite He. simpl.
  unfold slice. by rewrite drop_0.
Qed.

Definition keys_fit (ix : index) (keys : list Bytes) : Prop := Forall (λ k, length k = ix_keyWidth ix) keys.

(** On a key index that opened and whose records are in key order, looking
    up any set of keys returns without an error exactly the row numbers of the
    records whose key is one of them, in ascending order; every match is
    counted once, and no block of the file is read twice. *)
Theorem Find_spec file ix recs keys :
  readIndex file = inl ix → all ix = inl recs → StronglySorted key_le recs → keys_fit ix keys →
  ∃ st, Find ix keys = inl (sort_by Z.compare (rec_Row <$> filter (λ r, rec_Key r ∈ keys) recs), st) ∧
    st_Matches st = length (filter (λ r, rec_Key r ∈ keys) recs) ∧ st_Blocks st ≤ length (ix_blocks ix).
Proof.
  intros Hix Hall Hs Hk. pose proof (blocks_from_inv _ _ _ _ Hall) as [Hr Hrecs].
  pose proof (compact_spec _ (sort_by_sorted bytes_compare keys)) as (Hcs & Hcd & Hce).
  assert (Hi0 : find_inv ix (buf_of ix) empty_find 0 ∅) 
    by (split; simpl; intros *; rewrite ?lookup_empty; first [done|by intros []|set_solver]).
  destruct (find_keys_spec ix (buf_of ix)) with (4 := Hcs) (6 := Hi0)
    as (st & s & R & Hf & Hrows & [_ Hc Hrange _ _ Hm]); [intros i Hi; apply Hr; lia|
       intros i Hi; by eapply all_first|by rewrite Hrecs in Hs|lia|].
  assert (Hp : fs_rows st ≡ₚ rec_Row <$> filter (λ r, rec_Key r ∈ keys) recs).
  { rewrite Hrows. simpl. rewrite rows_of_keys by done. rewrite Hrecs. apply fmap_Permutation.
    erewrite filter_iff_in; [done|]. intros r _. simpl. by rewrite Hce, elem_of_sort_by. }
  unfold Find. rewrite filter_none by (intros k Hin Hne; by apply Hne, (proj1 (Forall_forall _ _) Hk)).
  rewrite Hf. simpl. exists (fs_stats st). split_and!.
  - do 2 f_equal. apply sort_by_proper; [apply _| |done]. intros x y _ _. apply Z.compare_eq.
  - by rewrite Hm, Hp, length_fmap.
  - rewrite <- Hc. etrans; [apply (subseteq_size R (set_seq 0 (length (ix_blocks ix))))|].
    + intros b Hb. apply elem_of_set_seq. specialize (Hrange b Hb). lia.
    + by rewrite size_set_seq.
Qed.
