(* ===== verification/KeyBuild.v ===== *)
(** * Writing a key index, and reading back what was written

    [Build]'s file, block by block, against the layout its reader expects; the
    round trip through [readIndex] and [all]; and the composition: an index
    built over a table resolves the table's keys to the table's row numbers. *)
From S2P Require Import Prelude GoStrings GoBytes KeyIdx KeyFind.

Open Scope nat_scope.

(** ** Slices of concatenated pieces *)

Lemma slice_skip a l n m : length a ≤ n → slice n m (a ++ l) = slice (n - length a) m l.
Proof. intros. unfold slice. by rewrite drop_app_ge. Qed.

Lemma slice_head b l m : length b = m → slice 0 m (b ++ l) = b.
Proof. intros <-. unfold slice. by rewrite drop_0, take_app_length. Qed.

Lemma slice_whole b m : length b = m → slice 0 m b = b.
Proof. intros <-. unfold slice. by rewrite drop_0, firstn_all. Qed.

Lemma concat_fixed_length {A} w (l : list (list A)) : Forall (λ r, length r = w) l → length (concat l) = length l * w.
Proof. induction 1 as [|x l Hx Hl IH]; [done|]. simpl. rewrite length_app, IH, Hx. lia. Qed.

(** A piece of record [j] of records of one width. *)
Lemma slice_concat w recs j r o m : Forall (λ r, length r = w) recs → recs !! j = Some r → o + m ≤ w →
  slice (j * w + o) m (concat recs) = slice o m r.
Proof.
  intros Hf. revert j. induction Hf as [|x l Hx Hl IH]; intros j Hj Ho; [done|].
  cbn [concat]. destruct j as [|j]; simplify_eq/=.
  - unfold slice. rewrite drop_app_le, take_app_le by (rewrite ?length_drop; lia). done.
  - rewrite slice_skip by lia. rewrite <- (IH j) by done. f_equal. lia.
Qed.

Lemma length_concat_le {A} (l : list (list A)) x : x ∈ l → length x ≤ length (concat l).
Proof.
  induction 1 as [|y l Hy IH]; simpl; rewrite length_app; lia.
Qed.

(** ** The loop of [Build] *)

Abbreviation BR := (Z.to_nat BlockRecords).

(** The skip table's entry of a block. *)
Definition skip_entry (kw : nat) (blk : list Bytes) : Bytes :=
  take kw (concat blk) ++ be_put 4 (crc_checksum (concat blk)).

(** The record of a row of the scan. *)
Definition row_record (types : list string) (numRows : Z) (scan : list DuckVal) (rec : Bytes) : Prop :=
  ∃ key row, length scan = S (length types) ∧ encodeKeys types scan 0 = inl key ∧
    scan !! length types = Some (DInt64 row) ∧ (0 ≤ row < numRows)%Z ∧ rec = key ++ be_put 8 (u64_of row).

Definition bytes_lt (a b : Bytes) : Prop := bytes_compare a b = Lt.

#[export] Instance bytes_lt_trans : Transitive bytes_lt.
Proof. intros x y z. unfold bytes_lt. apply (cmp_lt_trans bytes_compare). Qed.

(** What the loop's variables hold after the records [recs]. *)
Record build_inv (hdr : Bytes) (kw : nat) (recs : list Bytes) (st : buildState)
    (blks : list (list Bytes)) (rest : list Bytes) : Prop := {
  bi_recs : recs = concat blks ++ rest;
  bi_full : Forall (λ b, length b = BR) blks;
  bi_rest : length rest < BR;
  bi_out : bs_out st = hdr ++ concat (concat blks);
  bi_block : bs_block st = concat rest;
  bi_skip : bs_skip st = concat (skip_entry kw <$> blks);
  bi_prev : bs_prev st = last recs;
  bi_n : bs_n st = length recs;
  bi_sorted : StronglySorted bytes_lt recs;
  bi_width : Forall (λ r, length r = kw + 8) recs;
}.

Lemma StronglySorted_last {A} (R : relation A) `{!Transitive R} (l : list A) x :
  StronglySorted R l → (∀ y, last l = Some y → R y x) → StronglySorted R (l ++ [x]).
Proof.
  intros Hs Hl. induction Hs as [|z l Hs IH Hz]; [by repeat constructor|]. simpl. constructor.
  - apply IH. intros y Hy. apply Hl. rewrite last_cons, Hy. done.
  - apply Forall_app. split; [done|]. constructor; [|done].
    destruct (last l) as [y|] eqn:E.
    + transitivity y; [|apply Hl; by rewrite last_cons, E].
      rewrite Forall_forall in Hz. apply Hz. by apply last_Some_elem_of.
    + apply Hl. by rewrite last_cons, E.
Qed.

Lemma flushBlock_ok env kw st st' blk : bs_block st = concat blk → concat blk ≠ [] →
  flushBlock env kw st = inl st' →
  bs_out st' = bs_out st ++ concat blk ∧ bs_block st' = [] ∧
  bs_skip st' = bs_skip st ++ skip_entry kw blk ∧ bs_prev st' = bs_prev st ∧ bs_n st' = bs_n st.
Proof.
  unfold flushBlock, skip_entry. intros Hb Hne H. rewrite <- Hb in *.
  destruct (bs_block st) eqn:E; [done|]. inv_try. subst st'. simpl. done.
Qed.

Lemma concat_nonempty w (l : list Bytes) : 0 < w → Forall (λ r, length r = w) l → l ≠ [] → concat l ≠ [].
Proof. intros Hw Hf Hl Hc. apply (f_equal length) in Hc. rewrite (concat_fixed_length w) in Hc by done. destruct l; [done|]. simpl in Hc. lia. Qed.

Lemma build_row_ok env types numRows hdr recs st blks rest scan st' :
  build_inv hdr (keyWidthOf types) recs st blks rest →
  build_row env types (keyWidthOf types) numRows st scan = inl st' →
  ∃ rec blks' rest', row_record types numRows scan rec ∧
    build_inv hdr (keyWidthOf types) (recs ++ [rec]) st' blks' rest'.
Proof.
  intros Hi H. unfold build_row in H. inv_try. subst.
  destruct (scan !! length types) as [[| |row| |]|] eqn:Hrow; simplify_eq/=.
  apply Nat.eqb_eq in Hb. apply andb_true_iff in Hb0 as [?%Z.leb_le ?%Z.ltb_lt].
  set (rec := x ++ be_put 8 (u64_of x0)) in *.
  assert (Hlen : length rec = keyWidthOf types + 8).
  { unfold rec. rewrite length_app, be_put_length. f_equal. eapply encodeKeys_length; [|done]. lia. }
  exists rec.
  assert (Hw : Forall (λ r, length r = keyWidthOf types + 8) (recs ++ [rec])).
  { apply Forall_app. split; [by destruct Hi|by constructor]. }
  assert (Hs : StronglySorted bytes_lt (recs ++ [rec])).
  { apply StronglySorted_last; [apply _|by destruct Hi|]. intros y Hy.
    rewrite (bi_prev _ _ _ _ _ _ Hi), Hy in Hb1. unfold bytes_lt.
    apply (cmp_gt_lt bytes_compare). by destruct (bytes_compare rec y). }
  assert (Hrr : row_record types numRows scan rec) by (by exists x, x0).
  destruct Hi as [-> Hfull Hrest Hout Hblock Hskip Hprev Hn _ _].
  assert (Hrw : Forall (λ r, length r = keyWidthOf types + 8) (rest ++ [rec])).
  { rewrite <- app_assoc in Hw. by apply Forall_app in Hw as [_ ?]. }
  assert (Hblen : length (bs_block st ++ rec) = length (rest ++ [rec]) * (keyWidthOf types + 8)).
  { rewrite Hblock, <- concat_snoc. by apply concat_fixed_length. }
  destruct (Z.eqb_spec (Z.of_nat (length (bs_block st ++ rec))) (BlockRecords * (Z.of_nat (keyWidthOf types) + rowWidth))) as [E|E].
  - (* the block is full *)
    assert (Hfl : length (rest ++ [rec]) = BR).
    { rewrite Hblen in E. unfold rowWidth in E. nia. }
    apply (flushBlock_ok _ _ _ _ (rest ++ [rec])) in H as (Ho & Hb' & Hsk & Hp & Hn');
      [|simpl; by rewrite Hblock, concat_snoc|eapply concat_nonempty; [|done|by destruct rest]; lia].
    simpl in *. exists (blks ++ [rest ++ [rec]]), []. split; [done|].
    split; rewrite ?app_nil_r, ?fmap_app, ?concat_app; simpl; rewrite ?app_nil_r; try done.
    + by rewrite app_assoc.
    + apply Forall_app. split; [done|]. by constructor.
    + rewrite length_app in Hfl. simpl in Hfl. lia.
    + by rewrite Ho, Hout, concat_app, <- app_assoc.
    + by rewrite Hsk, Hskip.
    + by rewrite Hp, last_snoc.
    + rewrite Hn', Hn, !length_app. simpl. lia.
  - injection H as <-. exists blks, (rest ++ [rec]). split; [done|].
    split; simpl; try done.
    + by rewrite app_assoc.
    + rewrite Hblen in E. unfold rowWidth, BlockRecords in *. rewrite length_app in *. simpl in *. nia.
    + by rewrite Hblock, concat_snoc.
    + by rewrite last_snoc.
    + rewrite Hn, !length_app. simpl. lia.
Qed.

Lemma build_inv_start hdr kw :
  build_inv hdr kw [] {| bs_out := hdr; bs_writes := 1; bs_block := []; bs_skip := []; bs_prev := None;
                         bs_n := 0 |} [] [].
Proof. split; simpl; rewrite ?app_nil_r; first [done|by constructor|unfold BlockRecords; lia]. Qed.

Lemma build_rows_ok env types numRows hdr rows recs st blks rest st' :
  build_inv hdr (keyWidthOf types) recs st blks rest →
  build_rows env types (keyWidthOf types) numRows st rows = inl st' →
  ∃ recs' blks' rest', Forall2 (row_record types numRows) rows recs' ∧
    build_inv hdr (keyWidthOf types) (recs ++ recs') st' blks' rest'.
Proof.
  revert recs st blks rest. induction rows as [|scan rows IH]; intros recs st blks rest Hi H.
  { injection H as <-. exists [], blks, rest. by rewrite app_nil_r. }
  cbn [build_rows] in H. apply try_bind_inl in H as (st1 & H1 & H).
  destruct (build_row_ok _ _ _ _ _ _ _ _ _ _ Hi H1) as (rec & blks1 & rest1 & Hr & Hi1).
  destruct (IH _ _ _ _ Hi1 H) as (recs' & blks2 & rest2 & Hrs & Hi2).
  exists (rec :: recs'), blks2, rest2. split; [by constructor|]. by rewrite <- app_assoc in Hi2.
Qed.

(** The bytes of an index file over the blocks [blks]. *)
Definition layout (hdr : Bytes) (kw : nat) (blks : list (list Bytes)) : Bytes :=
  let skip := concat (skip_entry kw <$> blks) in
  hdr ++ concat (concat blks) ++ skip ++ be_put 4 (crc_checksum (hdr ++ skip)).

(** Records cut into blocks of [BlockRecords], the last one short. *)
Record blocked (recs : list Bytes) (blks : list (list Bytes)) : Prop := {
  bl_concat : concat blks = recs;
  bl_count : Z.of_nat (length blks) = ((Z.of_nat (length recs) + BlockRecords - 1) / BlockRecords)%Z;
  bl_block i b : blks !! i = Some b → b = take BR (drop (i * BR) recs);
}.

Lemma concat_full_length (blks : list (list Bytes)) : Forall (λ b, length b = BR) blks → length (concat blks) = length blks * BR.
Proof. apply concat_fixed_length. Qed.

Lemma full_block (blks : list (list Bytes)) rest i b : Forall (λ b, length b = BR) blks →
  blks !! i = Some b → b = take BR (drop (i * BR) (concat blks ++ rest)).
Proof.
  intros Hf Hi. pose proof (take_drop_middle _ _ _ Hi) as Hsplit. rewrite <- Hsplit, concat_app. cbn [concat].
  assert (Hli : length (concat (take i blks)) = i * BR).
  { rewrite concat_full_length by (by apply Forall_take). rewrite length_take, Nat.min_l; [done|].
    apply lookup_lt_Some in Hi. lia. }
  rewrite <- !app_assoc, <- Hli, drop_app_length.
  assert (Hb : length b = BR) by (by apply (Forall_lookup_1 _ _ _ _ Hf Hi)).
  by rewrite <- Hb, take_app_length.
Qed.

Lemma blocked_full blks rest : Forall (λ b, length b = BR) blks → length rest < BR →
  blocked (concat blks ++ rest) (blks ++ match rest with [] => [] | _ => [rest] end).
Proof.
  intros Hf Hr. pose proof (concat_full_length _ Hf) as Hl.
  assert (HBR : Z.of_nat BR = BlockRecords) by done. split.
  - rewrite concat_app. destruct rest; simpl; by rewrite ?app_nil_r.
  - rewrite !length_app, Hl. symmetry; destruct rest as [|r rest]; symmetry.
    + apply (Z.div_unique _ _ _ 4095); rewrite ?Nat2Z.inj_add, ?Nat2Z.inj_mul, ?HBR; unfold BlockRecords; simpl; lia.
    + apply (Z.div_unique _ _ _ (Z.of_nat (length (r :: rest)) - 1));
        rewrite ?Nat2Z.inj_add, ?Nat2Z.inj_mul, ?HBR; unfold BlockRecords in *; simpl length in *; lia.
  - intros i b Hi. apply lookup_app_Some in Hi as [Hi|[Hge Hi]]; [by apply full_block|].
    destruct rest as [|r rest]; [done|]. apply list_lookup_singleton_Some in Hi as [Hz <-].
    assert (i = length blks) as -> by lia.
    rewrite <- Hl, drop_app_length. rewrite take_ge; [done|lia].
Qed.

#[local] Opaque encodeHeader.

(** The file [Build] writes is the layout over the scan's records, which are
    strictly ascending and as many as the base has rows. *)
Lemma buildFile_layout env types names id rows fails file :
  buildFile env types names id rows fails = inl file →
  ∃ recs blks, Forall2 (row_record types (id_Rows id)) rows recs ∧ blocked recs blks ∧
    StronglySorted bytes_lt recs ∧ Forall (λ r, length r = keyWidthOf types + 8) recs ∧
    Z.of_nat (length recs) = id_Rows id ∧
    file = layout (encodeHeader types names id) (keyWidthOf types) blks.
Proof.
  unfold buildFile. intros H. inv_try. subst file.
  destruct (build_rows_ok _ _ _ _ _ _ _ _ _ _ (build_inv_start _ _) H0) as (recs & blks & rest & Hr & Hi).
  destruct Hi as [Hrecs Hfull Hrest Hout Hblock Hskip _ Hn Hs Hw]. simpl in *.
  exists recs. assert (Hw' : Forall (λ r, length r = keyWidthOf types + 8) rest)
    by (rewrite Hrecs in Hw; by apply Forall_app in Hw as [_ ?]).
  apply Z.eqb_eq in Hb2. rewrite Hn in Hb2.
  exists (blks ++ match rest with [] => [] | _ => [rest] end).
  split; [done|]. split; [rewrite Hrecs; by apply blocked_full|]. split_and!; try done.
  unfold layout. rewrite <- crc_update_app. destruct rest as [|r rest].
  - unfold flushBlock in H1. rewrite Hblock in H1. simpl in H1. injection H1 as <-.
    rewrite app_nil_r, Hout, Hskip. by rewrite <- !app_assoc.
  - apply (flushBlock_ok _ _ _ _ (r :: rest)) in H1 as (Ho & _ & Hsk & _); [|done|].
    + rewrite Ho, Hsk, Hout, Hskip, fmap_app, !concat_app. cbn [fmap list_fmap concat].
      rewrite !app_nil_r. cbn [concat]. by rewrite <- !app_assoc.
    + eapply concat_nonempty; [|done|done]. lia.
Qed.

#[local] Transparent encodeHeader.

(** ** Reading the layout back *)

(** What makes a header readable: integer key columns with names that fit, and
    an identity within its machine types. *)
Record head_ok (types names : list string) (id : baseIdentity) : Prop := {
  ho_types : Forall (λ t, isIntegerType t = true) types;
  ho_count : 0 < length types ≤ 255;
  ho_len : length names = length types;
  ho_names : Forall (λ n, 0 < String.length n ∧ (Z.of_nat (String.length n) < maxNameLen)%Z) names;
  ho_rows : (0 ≤ id_Rows id)%Z ∧ is_i64 (id_Rows id);
  ho_size : is_i64 (Size (id_file id));
  ho_mtime : is_i64 (Mtime (id_file id));
  ho_ino : is_u64 (Ino (id_file id));
  ho_crc : (id_FooterCRC id < 2 ^ 32)%N;
}.

(** The three parts of the header. *)
Definition fixed_part (types : list string) (id : baseIdentity) : Bytes :=
  str_bytes Magic ++ be_put 2 Version ++
  [ascii_of_N (N.of_nat (length types) mod 256); ascii_of_N (Z.to_N rowWidth)] ++
  be_put 8 (u64_of (id_Rows id)) ++ be_put 8 (u64_of (Size (id_file id))) ++
  be_put 4 (id_FooterCRC id) ++ be_put 8 (u64_of (id_Rows id)) ++
  be_put 8 (Ino (id_file id)) ++ be_put 8 (u64_of (Mtime (id_file id))).

Definition codes_part (types : list string) : Bytes := (λ t, ascii_of_N (typeCodes t)) <$> types.

Definition names_part (names : list string) : Bytes :=
  concat ((λ name, be_put 2 (N.of_nat (String.length name) mod 2 ^ 16) ++ str_bytes name) <$> names).

Lemma encodeHeader_parts types names id :
  encodeHeader types names id = fixed_part types id ++ codes_part types ++ names_part names.
Proof. unfold encodeHeader, fixed_part. by rewrite <- !app_assoc. Qed.

Lemma fixed_part_length types id : length (fixed_part types id) = 56.
Proof. unfold fixed_part. by rewrite !length_app, !be_put_length. Qed.

Lemma str_bytes_length s : length (str_bytes s) = String.length s.
Proof. unfold str_bytes. induction s; simpl; congruence. Qed.

Lemma names_part_length names :
  length (names_part names) = sum_list_with (λ name, 2 + String.length name) names.
Proof.
  unfold names_part. induction names as [|n names IH]; [done|]. cbn [fmap list_fmap concat sum_list_with].
  by rewrite !length_app, be_put_length, str_bytes_length, IH.
Qed.

Lemma encodeHeader_length types names id : length types = length names →
  Z.of_nat (length (encodeHeader types names id)) = headerSize names.
Proof.
  intros Hl. rewrite encodeHeader_parts, !length_app, fixed_part_length, names_part_length.
  unfold codes_part, headerSize, fixedHeader. rewrite length_fmap. lia.
Qed.

Lemma codes_part_types types : Forall (λ t, isIntegerType t = true) types →
  mapM (λ c, codeTypes (byte_val c)) (codes_part types) = Some types.
Proof.
  intros Hf. apply mapM_Some. unfold codes_part. rewrite Forall2_fmap_l.
  apply Forall2_same_length_lookup_2; [done|]. intros i a b Ha Hb. simplify_eq.
  pose proof (Forall_lookup_1 _ _ _ _ Hf Ha) as Ht. unfold isIntegerType in Ht. simpl.
  rewrite !orb_true_iff, !bool_decide_eq_true in Ht. by destruct Ht as [[->| ->]| ->].
Qed.

(** Reads a field of the fixed part. *)
Ltac field :=
  unfold fixed_part;
  repeat (rewrite slice_skip by (rewrite ?be_put_length; simpl; lia));
  rewrite ?be_put_length; simpl (length _); simpl (_ - _);
  first [rewrite slice_head by (by rewrite ?be_put_length)|rewrite slice_whole by (by rewrite ?be_put_length)].

Lemma fixed_fields types names id : head_ok types names id →
  let f := fixed_part types id in
  take 8 f = str_bytes Magic ∧ be_get (slice 8 2 f) = Version ∧
  N.to_nat (be_get (slice 10 1 f)) = length types ∧ be_get (slice 11 1 f) = 8%N ∧
  i64_of (be_get (slice 12 8 f)) = id_Rows id ∧ i64_of (be_get (slice 20 8 f)) = Size (id_file id) ∧
  be_get (slice 28 4 f) = id_FooterCRC id ∧ i64_of (be_get (slice 32 8 f)) = id_Rows id ∧
  be_get (slice 40 8 f) = Ino (id_file id) ∧ i64_of (be_get (slice 48 8 f)) = Mtime (id_file id).
Proof.
  intros []. cbv zeta.
  assert (H8 : ∀ z, is_i64 z → i64_of (be_get (be_put 8 (u64_of z))) = z).
  { intros z Hz. rewrite be_get_put by (apply u64_of_range). by apply i64_of_u64. }
  split_and!.
  - done.
  - field. by apply be_get_put.
  - unfold fixed_part. rewrite slice_skip by (simpl; lia). rewrite slice_skip by (rewrite be_put_length; simpl; lia).
    rewrite be_put_length. change (slice (10 - length (str_bytes Magic) - 2) 1) with (slice 0 1).
    unfold slice. simpl. unfold be_get. simpl.
    rewrite byte_val_ascii by (apply N.mod_lt; lia). rewrite N.mod_small by lia. lia.
  - unfold fixed_part. rewrite slice_skip by (simpl; lia). rewrite slice_skip by (rewrite be_put_length; simpl; lia).
    by rewrite be_put_length.
  - field. apply H8. tauto.
  - field. by apply H8.
  - field. by apply be_get_put.
  - field. apply H8. tauto.
  - field. by apply be_get_put.
  - field. by apply H8.
Qed.

Lemma bytes_str_bytes s : bytes_str (str_bytes s) = s.
Proof. apply String.string_of_list_ascii_of_string. Qed.

Lemma read_names_part pre names post :
  Forall (λ n, 0 < String.length n ∧ (Z.of_nat (String.length n) < maxNameLen)%Z) names →
  read_names (pre ++ names_part names ++ post) (length names) (Z.of_nat (length pre)) = inl names.
Proof.
  intros Hf. revert pre. induction Hf as [|n names [Hn Hl] Hf IH]; intros pre; [done|].
  unfold maxNameLen in Hl. cbn [length read_names]. unfold names_part. cbn [fmap list_fmap concat].
  fold (names_part names). set (len := be_put 2 _). rewrite <- !app_assoc.
  assert (Hl2 : length len = 2) by apply be_put_length.
  assert (Hlen : Z.of_N (be_get len) = Z.of_nat (String.length n)).
  { unfold len. rewrite be_get_put by (apply N.mod_lt; lia). rewrite N.mod_small by lia. lia. }
  clearbody len. rewrite ReadAt_app by lia. simpl.
  rewrite Hlen, !length_app, Hl2, str_bytes_length.
  rewrite (proj2 (Z.eqb_neq _ _)), (proj2 (Z.ltb_ge _ _)) by lia. simpl.
  rewrite (app_assoc pre len). rewrite ReadAt_app by
    (rewrite ?length_app, ?str_bytes_length; lia).
  simpl. rewrite (app_assoc (pre ++ len)).
  replace (Z.of_nat (length pre) + 2 + Z.of_nat (String.length n))%Z
    with (Z.of_nat (length ((pre ++ len) ++ str_bytes n)))
    by (rewrite !length_app, str_bytes_length; lia).
  rewrite IH. simpl. by rewrite bytes_str_bytes.
Qed.

(** The skip table over blocks whose first keys ascend. *)
Definition entry_of (kw : nat) (b : list Bytes) : blockEntry :=
  {| FirstKey := take kw (concat b); be_CRC := crc_checksum (concat b) |}.

Definition entries_ascend (kw : nat) (blks : list (list Bytes)) : Prop :=
  StronglySorted (cmp_le bytes_compare) ((λ b, take kw (concat b)) <$> blks).

Lemma skip_entry_length kw b : length (take kw (concat b)) = kw → length (skip_entry kw b) = kw + 4.
Proof. intros H. unfold skip_entry. by rewrite length_app, H, be_put_length. Qed.

Lemma skip_length kw blks : Forall (λ b, length (take kw (concat b)) = kw) blks →
  length (concat (skip_entry kw <$> blks)) = length blks * (kw + 4).
Proof.
  intros Hf. rewrite (concat_fixed_length (kw + 4)), length_fmap; [done|].
  apply Forall_fmap. eapply Forall_impl; [exact Hf|]. intros b Hb. by apply skip_entry_length.
Qed.

Lemma read_skip_entries kw done_ blks prev :
  Forall (λ b, length (take kw (concat b)) = kw) (done_ ++ blks) → entries_ascend kw blks →
  (∀ p b, prev = Some p → b ∈ blks → cmp_le bytes_compare p (take kw (concat b))) →
  read_skip (concat (skip_entry kw <$> done_ ++ blks)) kw (length blks) (length done_) prev = inl (entry_of kw <$> blks).
Proof.
  revert done_ prev. induction blks as [|b blks IH]; intros done_ prev Hf Hs Hp; [done|].
  cbn [length read_skip].
  assert (Hd : drop (length done_ * (kw + 4)) (concat (skip_entry kw <$> done_ ++ b :: blks)) =
               skip_entry kw b ++ concat (skip_entry kw <$> blks)).
  { rewrite fmap_app, concat_app, <- skip_length by (by apply Forall_app in Hf as [? _]). by rewrite drop_app_length. }
  assert (Hb : length (take kw (concat b)) = kw).
  { apply Forall_app in Hf as [_ Hf]. by inv Hf. }
  assert (He : {| FirstKey := take kw (skip_entry kw b ++ concat (skip_entry kw <$> blks));
                  be_CRC := be_get (slice kw 4 (skip_entry kw b ++ concat (skip_entry kw <$> blks))) |} = entry_of kw b).
  { unfold skip_entry at 1 3, entry_of. rewrite <- !app_assoc. f_equal.
    - rewrite take_app_le, take_take by lia. by rewrite Nat.min_id.
    - rewrite slice_app by (rewrite ?be_put_length; done). apply be_get_put, crc_checksum_bound. }
  rewrite Hd, He. simpl.
  assert (match prev with Some p => match bytes_compare p (take kw (concat b)) with Gt => false | _ => true end
          | None => true end = true) as ->.
  { destruct prev as [p|]; [|done]. specialize (Hp p b eq_refl (list_elem_of_here _ _)).
    unfold cmp_le in Hp. by destruct (bytes_compare p _). }
  unfold entries_ascend in Hs. rewrite fmap_cons in Hs. apply StronglySorted_inv in Hs as [Hs Hh].
  replace (S (length done_)) with (length (done_ ++ [b])) by (rewrite length_app; simpl; lia).
  replace (done_ ++ b :: blks) with ((done_ ++ [b]) ++ blks) by (by rewrite <- app_assoc).
  rewrite IH; [done|by rewrite <- app_assoc|done|].
  intros p b' [= <-] Hb'. rewrite Forall_fmap, Forall_forall in Hh. by apply Hh.
Qed.

Lemma keyWidth_pos types : 0 < length types → 0 < keyWidthOf types.
Proof.
  destruct types as [|t types]; simpl; [lia|]. intros _. unfold keyWidthOf. simpl.
  unfold keyBytes. case_decide; lia.
Qed.

Lemma blocked_nonempty recs blks : blocked recs blks → Forall (λ b, b ≠ []) blks.
Proof.
  intros [_ Hc Hb]. apply Forall_lookup. intros i b Hi. pose proof (lookup_lt_Some _ _ _ Hi) as Hlt.
  rewrite (Hb _ _ Hi). intros He%(f_equal length).
  assert (Hn : i * BR < length recs).
  { unfold BlockRecords in *. pose proof (Z.mul_div_le (Z.of_nat (length recs) + 4096 - 1) 4096). lia. }
  rewrite length_take, length_drop in He. unfold BlockRecords in *. simpl length in He. lia.
Qed.

Lemma concat_take_head kw (b : list Bytes) r l : b = r :: l → kw ≤ length r → take kw (concat b) = take kw r.
Proof. intros -> H. simpl. by rewrite take_app_le. Qed.

Lemma bytes_lt_take kw a b : length a = length b → bytes_lt a b → cmp_le bytes_compare (take kw a) (take kw b).
Proof.
  unfold bytes_lt, cmp_le. intros Hl. rewrite <- (take_drop kw a), <- (take_drop kw b) at 1.
  rewrite bytes_compare_app by (rewrite !length_take; lia).
  by destruct (bytes_compare (take kw a) (take kw b)).
Qed.

Lemma elem_of_concat_in {A} (x : A) b l : x ∈ b → b ∈ l → x ∈ concat l.
Proof. intros Hx. induction 1; simpl; apply elem_of_app; auto. Qed.

(** Blocks of ascending records have ascending first keys. *)
Lemma blocks_ascend kw blks : Forall (λ b, b ≠ []) blks → Forall (λ r, length r = kw + 8) (concat blks) →
  StronglySorted bytes_lt (concat blks) → entries_ascend kw blks.
Proof.
  induction 1 as [|b blks Hb Hne IH]; intros Hw Hs; [constructor|].
  cbn [concat] in *. apply Forall_app in Hw as [Hwb Hw].
  unfold entries_ascend. rewrite fmap_cons. constructor.
  { apply IH; [done|]. eapply StronglySorted_sublist; [|exact Hs]. by apply sublist_inserts_l. }
  apply Forall_fmap, Forall_forall. intros b' Hb'.
  destruct b as [|r l]; [done|]. rewrite Forall_forall in Hne. destruct b' as [|r' l']; [by destruct (Hne _ Hb')|].
  assert (Hr' : r' ∈ concat blks) by (eapply elem_of_concat_in; [apply list_elem_of_here|done]).
  inv Hwb. rewrite Forall_forall in Hw. pose proof (Hw _ Hr'). simpl.
  rewrite !take_app_le by lia. apply bytes_lt_take; [lia|].
  cbn [app] in Hs. apply StronglySorted_inv in Hs as [_ Hf]. rewrite Forall_forall in Hf.
  apply Hf, elem_of_app. by right.
Qed.

(** The index a written file opens as. *)
Definition built_index (types names : list string) (id : baseIdentity) (blks : list (list Bytes)) : index :=
  {| ix_header := {| h_Types := types; h_Names := names; h_Records := id_Rows id;
                     h_BaseSize := Size (id_file id); h_FooterCRC := id_FooterCRC id;
                     h_BaseRows := id_Rows id; h_BaseIno := Ino (id_file id);
                     h_BaseMtime := Mtime (id_file id) |};
     ix_file := layout (encodeHeader types names id) (keyWidthOf types) blks;
     ix_headerLen := headerSize names; ix_keyWidth := keyWidthOf types;
     ix_recordWidth := keyWidthOf types + 8; ix_blocks := entry_of (keyWidthOf types) <$> blks |}.

(** A file of at most 2^47 bytes: within what one allocation can hold. *)
Definition fits (file : Bytes) : Prop := (Z.of_nat (length file) ≤ 2 ^ 47)%Z.

Section layout.
Context (types names : list string) (id : baseIdentity) (recs : list Bytes) (blks : list (list Bytes)).
Abbreviation kw := (keyWidthOf types).
Abbreviation hdr := (encodeHeader types names id).
Hypothesis head : head_ok types names id.
Hypothesis blocks : blocked recs blks.
Hypothesis width : Forall (λ r, length r = kw + 8) recs.
Hypothesis sorted : StronglySorted bytes_lt recs.
Hypothesis count : Z.of_nat (length recs) = id_Rows id.

Lemma layout_heads : Forall (λ b, length (take kw (concat b)) = kw) blks.
Proof.
  pose proof (blocked_nonempty _ _ blocks) as Hne. destruct blocks as [Hc _ _]. rewrite <- Hc in width.
  rewrite Forall_forall in Hne |- *. intros b Hb. specialize (Hne b Hb). destruct b as [|r l]; [done|].
  assert (length r = kw + 8) as Hr.
  { apply (proj1 (Forall_forall _ _) width). eapply elem_of_concat_in; [apply list_elem_of_here|done]. }
  simpl. rewrite take_app_le, length_take by lia. lia.
Qed.

Lemma layout_body : length (concat recs) = length recs * (kw + 8).
Proof. by apply concat_fixed_length. Qed.

Lemma layout_length : Z.of_nat (length (layout hdr kw blks)) =
  (headerSize names + id_Rows id * (Z.of_nat kw + 8) + Z.of_nat (length blks) * (Z.of_nat kw + 4) + 4)%Z.
Proof.
  unfold layout. rewrite !length_app, (bl_concat _ _ blocks), layout_body, skip_length, be_put_length by apply layout_heads.
  pose proof (encodeHeader_length types names id (eq_sym (ho_len _ _ _ head))). lia.
Qed.

Hypothesis small : fits (layout hdr kw blks).

Lemma layout_nonneg : (0 ≤ headerSize names)%Z ∧ (0 ≤ id_Rows id)%Z.
Proof. split; [unfold headerSize, fixedHeader; lia|lia]. Qed.

Lemma layout_rows_small : (id_Rows id ≤ 2 ^ 47)%Z.
Proof. pose proof layout_length. pose proof layout_nonneg. unfold fits in small. nia. Qed.

Lemma layout_blocks : blocksFor (id_Rows id) = Z.of_nat (length blks).
Proof.
  unfold blocksFor. pose proof layout_rows_small. pose proof layout_nonneg. unfold BlockRecords.
  rewrite wrap64_small by (unfold is_i64; lia). rewrite Z.quot_div_nonneg by lia.
  rewrite (bl_count _ _ blocks), count. done.
Qed.

Lemma layout_size : ExpectedSize (id_Rows id) names kw = Z.of_nat (length (layout hdr kw blks)).
Proof.
  unfold ExpectedSize. rewrite layout_blocks. unfold rowWidth. rewrite <- layout_length.
  apply wrap64_small. unfold is_i64. unfold fits in small. lia.
Qed.

Lemma layout_reads :
  ReadAt (layout hdr kw blks) 0 56 = Some (fixed_part types id) ∧
  ReadAt (layout hdr kw blks) 56 (length types) = Some (codes_part types) ∧
  read_names (layout hdr kw blks) (length types) (56 + Z.of_nat (length types)) = inl names.
Proof.
  unfold layout. rewrite encodeHeader_parts. rewrite <- !app_assoc.
  assert (Hc : length (codes_part types) = length types) by apply length_fmap.
  split_and!.
  - apply (ReadAt_app []); [done|lia|apply fixed_part_length].
  - apply ReadAt_app; [by rewrite fixed_part_length|lia|done].
  - rewrite app_assoc, <- (ho_len _ _ _ head).
    replace (56 + Z.of_nat (length names))%Z with (Z.of_nat (length (fixed_part types id ++ codes_part types)))
      by (rewrite length_app, fixed_part_length, Hc, (ho_len _ _ _ head); lia).
    apply read_names_part. apply head.
Qed.

Lemma layout_tail :
  ReadAt (layout hdr kw blks) 0 (Z.to_nat (headerSize names)) = Some hdr ∧
  ReadAt (layout hdr kw blks) (headerSize names + id_Rows id * Z.of_nat (kw + 8))
    (length blks * (kw + 4) + 4) =
    Some (concat (skip_entry kw <$> blks) ++ be_put 4 (crc_checksum (hdr ++ concat (skip_entry kw <$> blks)))).
Proof.
  pose proof (encodeHeader_length types names id (eq_sym (ho_len _ _ _ head))) as Hh. unfold layout. split.
  - apply (ReadAt_app []); [done|lia|lia].
  - rewrite app_assoc. apply ReadAt_end.
    + rewrite length_app, (bl_concat _ _ blocks), layout_body. lia.
    + pose proof layout_nonneg. lia.
    + rewrite length_app, skip_length, be_put_length by apply layout_heads. done.
Qed.

Lemma readIndex_layout : readIndex (layout hdr kw blks) = inl (built_index types names id blks).
Proof.
  pose proof (fixed_fields _ _ _ head) as (F0 & F1 & F2 & F3 & F4 & F5 & F6 & F7 & F8 & F9).
  pose proof layout_reads as (R1 & R2 & R3). pose proof layout_tail as (R4 & R5).
  pose proof layout_size as HS. pose proof layout_blocks as HB. pose proof layout_length as HL.
  pose proof layout_nonneg as [HN0 HN1]. unfold fits in small.
  assert (Hskip : wrap64 (Z.of_nat (length blks) * (Z.of_nat kw + 4)) = Z.of_nat (length blks * (kw + 4))).
  { rewrite wrap64_small; [lia|unfold is_i64; nia]. }
  unfold readIndex. change (Z.to_nat fixedHeader) with 56. rewrite R1. cbn [or_err try_bind].
  rewrite F0, F1, F2, F3, F4, F5, F6, F7, F8, F9.
  rewrite bool_decide_true by done. change (Version =? Version)%N with true.
  pose proof (ho_count _ _ _ head). rewrite (proj2 (Nat.eqb_neq _ _)) by lia.
  change (negb (false || negb (Z.of_N 8 =? rowWidth)%Z)) with true.
  unfold fixedHeader. rewrite R2. cbn [or_err try_bind].
  rewrite codes_part_types by apply head. cbn [or_err try_bind].
  rewrite (proj2 (Z.ltb_ge _ _)), Z.eqb_refl by lia. cbn [negb orb].
  rewrite R3. cbn [try_bind]. rewrite HS, Z.eqb_refl, HB, Hskip.
  assert (make_ok (wrap64 (headerSize names + Z.of_nat (length blks * (kw + 4)) + 4)) = true) as ->.
  { unfold make_ok, maxAlloc. rewrite wrap64_small by (unfold is_i64; nia).
    apply andb_true_iff. rewrite !Z.leb_le. nia. }
  rewrite R4. cbn [or_err try_bind]. rewrite wrap64_small by (unfold is_i64; nia).
  replace (Z.to_nat (Z.of_nat (length blks * (kw + 4)) + 4)) with (length blks * (kw + 4) + 4) by lia.
  rewrite R5, Nat2Z.id. cbn [or_err try_bind].
  rewrite <- (skip_length kw blks) by apply layout_heads. rewrite take_app_length, drop_app_length.
  rewrite be_get_put by apply crc_checksum_bound. rewrite N.eqb_refl, Nat2Z.id.
  pose proof (read_skip_entries kw [] blks None) as Hsk. cbn [app length] in Hsk.
  rewrite Hsk; [done|apply layout_heads| |done].
  apply blocks_ascend; [by eapply blocked_nonempty|by rewrite (bl_concat _ _ blocks)..].
Qed.

Lemma blocks_width i b : blks !! i = Some b → Forall (λ r, length r = kw + 8) b ∧ StronglySorted bytes_lt b ∧
  Z.of_nat (length b) = blockRecords (built_index types names id blks) i.
Proof.
  intros Hi. pose proof (bl_block _ _ blocks _ _ Hi) as Hb.
  assert (Hsub : b `sublist_of` recs).
  { rewrite Hb. etrans; [apply sublist_take|apply sublist_drop]. }
  split_and!.
  - rewrite Hb. by apply Forall_take, Forall_drop.
  - by eapply StronglySorted_sublist.
  - rewrite Hb, length_take, length_drop. unfold blockRecords. cbn [ix_header built_index h_Records]. rewrite <- count.
    pose proof (blocked_nonempty _ _ blocks) as Hne.
    pose proof (Forall_lookup_1 _ _ _ _ Hne Hi) as Hn. rewrite Hb in Hn.
    assert (i * BR < length recs).
    { destruct (decide (i * BR < length recs)); [done|]. destruct Hn. rewrite drop_ge, take_nil by lia. done. }
    destruct (Z.ltb_spec BlockRecords (Z.of_nat (length recs) - Z.of_nat i * BlockRecords)); unfold BlockRecords in *; lia.
Qed.

Lemma rec_at_concat w (b : list Bytes) j r : Forall (λ r, length r = w) b → b !! j = Some r → rec_at w (concat b) j = r.
Proof.
  intros Hf Hj. unfold rec_at. rewrite <- (Nat.add_0_r (j * w)). rewrite (slice_concat w _ _ r) by done.
  apply slice_whole. by apply (Forall_lookup_1 _ _ _ _ Hf Hj).
Qed.

Lemma ascends_sorted w (b : list Bytes) k j : Forall (λ r, length r = w) b → StronglySorted bytes_lt b →
  j + k < length b → ascends w (concat b) j k = true.
Proof.
  intros Hf Hs. revert j. induction k as [|k IH]; intros j Hj; [done|]. cbn [ascends].
  destruct (lookup_lt_is_Some_2 b j) as [r Hr]; [lia|]. destruct (lookup_lt_is_Some_2 b (S j)) as [r' Hr']; [lia|].
  rewrite (rec_at_concat w b j r), (rec_at_concat w b (S j) r') by done.
  assert (bytes_lt r r') as ->; [|by apply IH; lia].
  clear -Hs Hr Hr'. revert j Hr Hr'. induction Hs as [|x l Hs IHs Hx]; intros [|j] Hr Hr'; simplify_eq/=.
  - rewrite Forall_lookup in Hx. by eapply Hx.
  - by eapply IHs.
Qed.

Lemma layout_block i b : blks !! i = Some b → blockBytes (built_index types names id blks) i = inl (concat b).
Proof.
  intros Hi. destruct (blocks_width i b Hi) as (Hw & Hs & Hn). unfold blockBytes. rewrite <- Hn.
  cbn [ix_blocks built_index ix_recordWidth ix_file ix_headerLen ix_keyWidth].
  rewrite list_lookup_fmap, Hi. cbn [fmap option_fmap option_map or_err try_bind].
  assert (Hr : ReadAt (layout hdr kw blks) (headerSize names + Z.of_nat i * BlockRecords * Z.of_nat (kw + 8))
    (Z.to_nat (Z.of_nat (length b)) * (kw + 8)) = Some (concat b)).
  { unfold layout. rewrite (bl_concat _ _ blocks).
    replace recs with (take (i * BR) recs ++ b ++ drop BR (drop (i * BR) recs)).
    2:{ rewrite (bl_block _ _ blocks _ _ Hi), take_drop, take_drop. done. }
    rewrite !concat_app, <- !app_assoc, app_assoc. apply ReadAt_app.
    - pose proof (encodeHeader_length types names id (eq_sym (ho_len _ _ _ head))).
      rewrite length_app, (concat_fixed_length (kw + 8)) by (by apply Forall_take).
      assert (i * BR ≤ length recs).
      { destruct (decide (i * BR ≤ length recs)); [done|].
        pose proof (bl_block _ _ blocks _ _ Hi) as Hb. rewrite drop_ge, take_nil in Hb by lia.
        destruct (Forall_lookup_1 _ _ _ _ (blocked_nonempty _ _ blocks) Hi). done. }
      rewrite length_take, Nat.min_l by done. unfold BlockRecords. lia.
    - pose proof layout_nonneg. unfold BlockRecords. lia.
    - rewrite (concat_fixed_length (kw + 8)) by done. lia. }
  rewrite Hr. cbn [or_err try_bind entry_of be_CRC FirstKey]. rewrite N.eqb_refl, bool_decide_true by done.
  assert (0 < length b).
  { pose proof (Forall_lookup_1 _ _ _ _ (blocked_nonempty _ _ blocks) Hi). destruct b; [done|simpl; lia]. }
  rewrite ascends_sorted by (done || lia). done.
Qed.

(** A record's bytes, decoded. *)
Definition decode_rec (r : Bytes) : record :=
  {| rec_Key := take kw r; rec_Row := i64_of (be_get (drop kw r)) |}.

Lemma records_of_concat b : Forall (λ r, length r = kw + 8) b →
  records_of kw (kw + 8) (concat b) = decode_rec <$> b.
Proof.
  intros Hf. unfold records_of. rewrite (concat_fixed_length (kw + 8)), Nat.div_mul by (done || lia).
  apply list_eq. intros j. rewrite !list_lookup_fmap.
  destruct (b !! j) as [r|] eqn:Hj.
  - rewrite lookup_seq_lt by (by eapply lookup_lt_Some). simpl. f_equal.
    pose proof (Forall_lookup_1 _ _ _ _ Hf Hj) as Hl. simpl in Hl. unfold record_at, decode_rec. f_equal.
    + rewrite <- (Nat.add_0_r (j * (kw + 8))). rewrite (slice_concat (kw + 8) _ _ r) by (done || lia).
      unfold slice. by rewrite drop_0.
    + rewrite (slice_concat (kw + 8) _ _ r) by (done || lia). unfold slice. do 2 f_equal.
      apply take_ge. rewrite length_drop. lia.
  - rewrite lookup_seq_ge by (by apply lookup_ge_None). done.
Qed.

Lemma layout_blocks_from i k : i + k ≤ length blks →
  blocks_from (built_index types names id blks) i k = inl (decode_rec <$> concat (take k (drop i blks))).
Proof.
  revert i. induction k as [|k IH]; intros i Hi; [done|]. cbn [blocks_from].
  destruct (lookup_lt_is_Some_2 blks i) as [b Hb]; [lia|]. destruct (blocks_width i b Hb) as (Hw & _ & _).
  unfold block. rewrite (layout_block i b Hb). cbn [try_bind ix_keyWidth ix_recordWidth built_index].
  fold (records_of kw (kw + 8) (concat b)). rewrite records_of_concat by done.
  rewrite IH by lia. cbn [try_bind]. rewrite (drop_S _ _ _ Hb). cbn [take concat]. by rewrite fmap_app.
Qed.

Lemma layout_all : all (built_index types names id blks) = inl (decode_rec <$> recs).
Proof.
  unfold all. cbn [ix_blocks built_index]. rewrite length_fmap, layout_blocks_from by lia.
  by rewrite drop_0, firstn_all, (bl_concat _ _ blocks).
Qed.

Lemma decode_key_order l : Forall (λ r, length r = kw + 8) l → StronglySorted bytes_lt l →
  StronglySorted key_le (decode_rec <$> l).
Proof.
  intros Hw. induction 1 as [|x l Hs IH Hx]; [constructor|]. inv Hw. rewrite fmap_cons. constructor; [auto|].
  rewrite Forall_fmap. rewrite Forall_forall in Hx, H2 |- *. intros y Hy. unfold key_le. simpl.
  apply bytes_lt_take; [|by apply Hx]. rewrite H1. symmetry. by apply H2.
Qed.
End layout.

(** ** From the columns named to the header *)

Lemma order_loop_inl keys cols seen out names : order_loop keys cols seen out = inl names →
  names = out ++ keys ∧ Forall (λ k, (Z.of_nat (String.length k) < maxNameLen)%Z) keys.
Proof.
  revert seen out. induction keys as [|k keys IH]; intros seen out H; simpl in H.
  { injection H as <-. by rewrite app_nil_r. }
  inv_try. apply IH in H as [-> Hf]. split; [by rewrite <- app_assoc|]. constructor; [by apply Z.ltb_lt|done].
Qed.

Lemma orderKeys_inl keys cols names : orderKeys keys cols = inl names →
  names ≡ₚ keys ∧ Forall (λ k, (Z.of_nat (String.length k) < maxNameLen)%Z) names.
Proof.
  unfold orderKeys. intros H. inv_try. apply order_loop_inl in H0 as [-> Hf]. subst.
  rewrite !sort_by_perm. done.
Qed.

Lemma IntegerKeyTypes_inl ddb names types : IntegerKeyTypes ddb names = inl types →
  types = dk_type ddb <$> names ∧ Forall (λ t, isIntegerType t = true) types.
Proof.
  unfold IntegerKeyTypes. destruct (filter _ names) eqn:E; [|done]. intros [= <-]. split; [done|].
  apply Forall_fmap, Forall_forall. intros n Hn. simpl. destruct (isIntegerType (dk_type ddb n)) eqn:Et; [done|].
  assert (n ∈ filter (λ name, isIntegerType (dk_type ddb name) = false) names) as He
    by (by apply list_elem_of_filter).
  rewrite E in He. by apply not_elem_of_nil in He.
Qed.

(** ** A built index resolves the table's keys *)

(** The base as the outside sees it: its stat and row count fit their types,
    its columns have names of at least a byte and the number of them fits the
    header, the Parquet schema and DuckDB name the same types, and the scan
    returns, in some order, every row of the table [tbl] (the key values of
    each row, in the file's column order) with its number. *)
Record base_ok (ddb : DuckScan) (pf : ParquetFile) (base : Bytes) (st : FileStat)
    (keyCols names : list string) (tbl : list (list DuckVal)) : Prop := {
  bo_size : is_i64 (Z.of_nat (length base));
  bo_mtime : is_i64 (st_Mtime st);
  bo_ino : is_u64 (st_Ino st);
  bo_rows : is_i64 (pq_NumRows pf);
  bo_cols : length keyCols ≤ 255 ∧ Forall (λ k, 0 < String.length k) keyCols;
  bo_names : orderKeys keyCols (dk_columns ddb) = inl names;
  bo_types : baseKeyTypes pf names = Some (dk_type ddb <$> names);
  bo_tbl : Forall (λ r, length r = length names ∧ Forall dv_ok r) tbl;
  bo_scan : dk_query ddb names ≡ₚ
              (λ i, (tbl !!! i) ++ [DInt64 (Z.of_nat i)]) <$> seq 0 (length tbl);
}.

Lemma footerCRCOf_bound base crc : footerCRCOf base = Some crc → (crc < 2 ^ 32)%N.
Proof.
  unfold footerCRCOf. destruct (_ <? _)%Z; [done|]. intros (tail & _ & H)%bind_Some.
  case_decide; [|done]. destruct (_ <? _)%Z; [done|]. apply bind_Some in H as (buf & _ & [= <-]).
  apply crc_checksum_bound.
Qed.

Lemma Forall_perm_names keys names (P : string → Prop) : names ≡ₚ keys → Forall P keys → Forall P names.
Proof. intros ->. done. Qed.

(** What a successful build wrote. *)
Lemma Build_written openParquet env ddb basePath dir base st keyCols names tbl pf file n bytes :
  base_ok ddb pf base st keyCols names tbl → openParquet base = Some pf →
  Build openParquet env ddb basePath dir (Some (base, st)) keyCols = inl (Written file n bytes) →
  let types := dk_type ddb <$> names in
  ∃ crc, footerCRCOf base = Some crc ∧
    let id := identityOf (Z.of_nat (length base)) st crc (pq_NumRows pf) in
    head_ok types names id ∧ buildFile env types names id (dk_query ddb names) (dk_fails ddb) = inl file ∧
    n = id_Rows id ∧ bytes = ExpectedSize (id_Rows id) names (keyWidthOf types).
Proof.
  intros [] Hpf. unfold Build. destruct (has_prefix basePath "s3://"); [done|].
  destruct (Nat.eqb_spec (length keyCols) 0) as [|Hne]; [done|]. intros H.
  inv_try. injection H0 as <- <-. unfold readBaseIdentity in H1. inv_try. subst.
  rewrite bo_names0 in H2. injection H2 as <-. rewrite Hpf in H3. injection H3 as <-.
  destruct (IntegerKeyTypes ddb names) as [types|] eqn:Ht; [|done].
  destruct (freeSpaceShort _ _ _ _ _); [done|]. apply try_bind_inl in H as (file' & Hbuild & H).
  injection H as -> <- <-.
  apply IntegerKeyTypes_inl in Ht as [-> Hint]. apply orderKeys_inl in bo_names0 as [Hp Hlen].
  exists x1. split; [done|]. split; [|by split_and!].
  assert (Hle : length names = length keyCols) by (by rewrite Hp).
  split; simpl; try done.
  - rewrite length_fmap. lia.
  - by rewrite length_fmap.
  - destruct bo_cols0 as [_ Hpos]. rewrite <- Hp in Hpos. apply Forall_forall. intros k Hk. split.
    + by eapply Forall_forall in Hpos.
    + by eapply Forall_forall in Hlen.
  - split; [|done]. apply buildFile_layout in Hbuild as (recs & _ & _ & _ & _ & _ & Hc & _). simpl in Hc. lia.
  - by eapply footerCRCOf_bound.
Qed.

Lemma encodeKeys_app types vals l i : length types = length vals →
  encodeKeys types (vals ++ l) i = encodeKeys types vals i.
Proof.
  revert vals i. induction types as [|t types IH]; intros [|v vals] i H; simplify_eq/=; [by destruct l|].
  by rewrite IH.
Qed.

(** The number of a row of the scan. *)
Definition scan_row_no (n : nat) (scan : list DuckVal) : Z :=
  match scan !! n with Some (DInt64 z) => z | _ => 0 end.

(** A row of the scan: [n] key values and a number. *)
Definition scan_shape (n : nat) (scan : list DuckVal) : Prop :=
  ∃ vals z, scan = vals ++ [DInt64 z] ∧ length vals = n ∧ Forall dv_ok vals.

(** Query tuples and their encodings. *)
Definition encoded (types : list string) (qs : list (list DuckVal)) (keys : list Bytes) : Prop :=
  Forall2 (λ q k, length q = length types ∧ Forall dv_ok q ∧ encodeKeys types q 0 = inl k) qs keys.

(** A record's key is among the encoded ones exactly when its row's values are
    among the tuples. *)
Lemma encoded_elem types qs keys vals k : encoded types qs keys →
  length vals = length types → Forall dv_ok vals → encodeKeys types vals 0 = inl k →
  k ∈ keys ↔ vals ∈ qs.
Proof.
  intros He Hl Hv Hk. induction He as [|q k' qs keys (Hql & Hq & Hqk) He IH]; [by rewrite !elem_of_nil|].
  rewrite !elem_of_cons, IH. split; (intros [->|]; [left|by right]).
  - by eapply (encodeKeys_inj types).
  - congruence.
Qed.

Lemma scan_rows_found types numRows qs keys rows recs :
  encoded types qs keys → (numRows ≤ 2 ^ 63)%Z →
  Forall (scan_shape (length types)) rows → Forall2 (row_record types numRows) rows recs →
  rec_Row <$> filter (λ r, rec_Key r ∈ keys) (decode_rec types <$> recs) =
  scan_row_no (length types) <$> filter (λ s, take (length types) s ∈ qs) rows.
Proof.
  intros He Hmax Hs Hr. revert Hs.
  induction Hr as [|s r rows recs (key & row & Hl & Hk & Hrow & Hz & ->) Hr IH]; intros Hs; [done|].
  apply Forall_cons in Hs as [(vals & z & -> & Hvl & Hv) Hs]. specialize (IH Hs).
  rewrite lookup_app_r, Hvl, Nat.sub_diag in Hrow by lia. injection Hrow as ->.
  rewrite encodeKeys_app in Hk by lia.
  pose proof (encodeKeys_length types vals 0 key ltac:(lia) Hk) as Hkl.
  assert (Hd : decode_rec types (key ++ be_put 8 (u64_of row)) = {| rec_Key := key; rec_Row := row |}).
  { unfold decode_rec. rewrite <- Hkl, take_app_length, drop_app_length. f_equal.
    rewrite be_get_put by (apply u64_of_range). apply i64_of_u64. unfold is_i64. lia. }
  rewrite fmap_cons, Hd, !filter_cons, <- Hvl, take_app_length. cbn [rec_Key].
  pose proof (encoded_elem types qs keys vals key He Hvl Hv Hk) as Hiff.
  rewrite Hvl. destruct (decide (key ∈ keys)), (decide (vals ∈ qs)); try tauto.
  rewrite !fmap_cons, IH. f_equal. unfold scan_row_no. by rewrite lookup_app_r, Hvl, Nat.sub_diag by lia.
Qed.

(** The row numbers of a table whose key is asked for. *)
Definition matching_rows (tbl qs : list (list DuckVal)) : list Z :=
  Z.of_nat <$> filter (λ i, tbl !!! i ∈ qs) (seq 0 (length tbl)).

Lemma matching_rows_sorted tbl qs : StronglySorted (cmp_le Z.compare) (matching_rows tbl qs).
Proof.
  unfold matching_rows. assert (Hs : StronglySorted lt (filter (λ i, tbl !!! i ∈ qs) (seq 0 (length tbl)))).
  { apply StronglySorted_filter. generalize 0 (length tbl). intros a n. revert a.
    induction n as [|n IH]; intros a; simpl; constructor; [done|].
    apply Forall_forall. intros x Hx%elem_of_seq. lia. }
  induction Hs as [|x l Hs IH Hx]; [constructor|]. rewrite fmap_cons. constructor; [done|].
  rewrite Forall_fmap. eapply Forall_impl; [exact Hx|]. intros y Hy. unfold cmp_le. simpl.
  apply Z.compare_le_iff. lia.
Qed.

Lemma scan_rows_matching n tbl qs rows : Forall (λ r, length r = n ∧ Forall dv_ok r) tbl →
  rows ≡ₚ (λ i, (tbl !!! i) ++ [DInt64 (Z.of_nat i)]) <$> seq 0 (length tbl) →
  scan_row_no n <$> filter (λ s, take n s ∈ qs) rows ≡ₚ matching_rows tbl qs.
Proof.
  intros Ht Hp. unfold matching_rows. rewrite Hp, filter_fmap, <- list_fmap_compose.
  assert (Hl : ∀ i, i ∈ seq 0 (length tbl) → length (tbl !!! i) = n).
  { intros i Hi%elem_of_seq. destruct (lookup_lt_is_Some_2 tbl i) as [r Hr]; [lia|].
    rewrite (list_lookup_total_correct _ _ _ Hr). by destruct (Forall_lookup_1 _ _ _ _ Ht Hr). }
  rewrite (filter_iff_in _ (λ i, tbl !!! i ∈ qs)).
  - erewrite list_fmap_ext; [done|]. intros j i Hi. simpl. unfold scan_row_no.
    apply list_elem_of_lookup_2, list_elem_of_filter in Hi as [_ Hi].
    by rewrite lookup_app_r, (Hl i Hi), Nat.sub_diag by (rewrite Hl by done; lia).
  - intros i Hi. by rewrite <- (Hl i Hi), take_app_length.
Qed.

Lemma bound_built types names id blks : bound (built_index types names id blks) id = true.
Proof. unfold bound. simpl. by rewrite !Z.eqb_refl, !N.eqb_refl. Qed.

Lemma encoded_fit types names id blks qs keys : encoded types qs keys →
  keys_fit (built_index types names id blks) keys.
Proof.
  unfold keys_fit. simpl. induction 1 as [|q k qs keys (Hl & _ & Hk) He IH]; constructor; [|done].
  eapply encodeKeys_length; [|exact Hk]. lia.
Qed.

Lemma scan_shapes n (tbl : list (list DuckVal)) : Forall (λ r, length r = n ∧ Forall dv_ok r) tbl →
  Forall (scan_shape n) ((λ i, (tbl !!! i) ++ [DInt64 (Z.of_nat i)]) <$> seq 0 (length tbl)).
Proof.
  intros Ht. apply Forall_fmap, Forall_forall. intros i Hi%elem_of_seq.
  destruct (lookup_lt_is_Some_2 tbl i) as [r Hr]; [lia|].
  destruct (Forall_lookup_1 _ _ _ _ Ht Hr) as [Hl Hv]. rewrite <- (list_lookup_total_correct _ _ _ Hr) in *.
  eexists _, _. eauto.
Qed.

(** C4: An index built over a table opens against that table's file and, for
    any key tuples of the table's types, returns exactly the numbers of the
    rows that have one of them, in ascending order. *)
Theorem Build_Find openParquet env ddb basePath dir base st keyCols names tbl pf file n bytes :
  base_ok ddb pf base st keyCols names tbl → openParquet base = Some pf → fits file →
  Build openParquet env ddb basePath dir (Some (base, st)) keyCols = inl (Written file n bytes) →
  n = Z.of_nat (length tbl) ∧ bytes = Z.of_nat (length file) ∧
  ∃ ix, Open openParquet (Some file) (Some (base, st)) = inl ix ∧
    ∀ qs keys, encoded (dk_type ddb <$> names) qs keys →
      ∃ stats, Find ix keys = inl (matching_rows tbl qs, stats) ∧
               st_Matches stats = length (matching_rows tbl qs).
Proof.
  intros Hok Hpf Hfits HB.
  destruct (Build_written _ _ _ _ _ _ _ _ _ _ _ _ _ _ Hok Hpf HB) as (crc & Hcrc & Hhead & Hfile & -> & ->).
  set (types := dk_type ddb <$> names) in *. set (id := identityOf _ _ _ _) in *.
  destruct (buildFile_layout _ _ _ _ _ _ _ Hfile) as (recs & blks & Hrr & Hblk & Hs & Hw & Hc & ->).
  pose proof (Forall2_length _ _ _ Hrr) as Hlen.
  pose proof (bo_scan _ _ _ _ _ _ _ Hok) as Hscan.
  assert (Hrows : Z.of_nat (length tbl) = id_Rows id).
  { rewrite <- Hc, <- Hlen. by rewrite Hscan, length_fmap, length_seq. }
  pose proof (readIndex_layout types names id recs blks Hhead Hblk Hw Hs Hc Hfits) as Hread.
  pose proof (layout_all types names id recs blks Hhead Hblk Hw Hs Hc) as Hall.
  rewrite (layout_size types names id recs blks Hhead Hblk Hw Hc Hfits). split; [done|]. split; [done|].
  exists (built_index types names id blks). split.
  - unfold Open. cbn [or_err try_bind]. rewrite Hread. cbn [or_err try_bind]. rewrite Hcrc, Hpf. cbn [or_err try_bind].
    fold id. rewrite bound_built. cbn [ix_header built_index h_Names h_Types].
    rewrite (bo_types _ _ _ _ _ _ _ Hok). cbn [or_err try_bind]. by rewrite bool_decide_true.
  - intros qs keys He.
    destruct (Find_spec _ _ _ keys Hread Hall) as (stats & Hf & Hm & _).
    { by apply (decode_key_order types). }
    { exact (encoded_fit types names id blks qs keys He). }
    exists stats. rewrite Hf, Hm, <- (length_fmap rec_Row).
    rewrite (scan_rows_found types (id_Rows id) qs keys _ _ He) with (3 := Hrr).
    + pose proof (scan_rows_matching (length types) tbl qs (dk_query ddb names)) as Hp.
      unfold types in Hp. rewrite length_fmap in Hp. specialize (Hp (bo_tbl _ _ _ _ _ _ _ Hok) Hscan).
      unfold types. rewrite length_fmap.
      split; [|by rewrite (Permutation_length Hp)]. do 2 f_equal. symmetry.
      apply sort_by_unique; [apply _| |by rewrite Hp|apply matching_rows_sorted].
      intros x y _ _. apply Z.compare_eq.
    + destruct (ho_rows _ _ _ Hhead) as [_ Hi]. unfold is_i64 in Hi. lia.
    + rewrite Hscan. unfold types. rewrite length_fmap. eapply scan_shapes, Hok.
Qed.

(** ** A build that nothing hinders succeeds *)

(** Disk space, a slot, a live context, and writes that succeed. *)
Record env_ok (env : BuildEnv) : Prop := {
  eo_space dir need : short env dir need = false;
  eo_slot : slot_free env = true ∧ ctx_live env = true ∧ file_opens env = true;
  eo_write n : write_ok env n = true ∧ ctx_ok env n = true;
  eo_rename : rename_ok env = true;
}.

Lemma flushBlock_total env kw st : env_ok env → ∃ st', flushBlock env kw st = inl st' ∧
  bs_prev st' = bs_prev st ∧ bs_n st' = bs_n st.
Proof.
  intros [_ _ Hw _]. unfold flushBlock. destruct (bs_block st) eqn:E; [by eauto|].
  destruct (Hw (bs_writes st)) as [-> ->]. by eauto.
Qed.

Lemma tuple_compare_app a b c d : length a = length b →
  tuple_compare (a ++ c) (b ++ d) = tuple_compare a b ⊕ tuple_compare c d.
Proof.
  revert b. induction a as [|v a IH]; intros [|w b] H; simplify_eq/=; [done|].
  rewrite IH by done. by destruct (Z.compare _ _).
Qed.

(** A scanned row with its record: typed values and a row number in range. *)
Definition typed_row (types : list string) (numRows : Z) (scan : list DuckVal) (rec : Bytes) : Prop :=
  scan_shape (length types) scan ∧ row_record types numRows scan rec.

Lemma typed_row_compare types numRows s s' r r' : (numRows < 2 ^ 63)%Z →
  typed_row types numRows s r → typed_row types numRows s' r' →
  bytes_compare r r' = tuple_compare s s'.
Proof.
  intros Hn [(v & z & -> & Hl & Hv) (k & row & _ & Hk & Hrow & Hr & ->)]
    [(v' & z' & -> & Hl' & Hv') (k' & row' & _ & Hk' & Hrow' & Hr' & ->)].
  rewrite lookup_app_r, Hl, Nat.sub_diag in Hrow by lia. injection Hrow as ->.
  rewrite lookup_app_r, Hl', Nat.sub_diag in Hrow' by lia. injection Hrow' as ->.
  rewrite encodeKeys_app in Hk, Hk' by lia.
  rewrite tuple_compare_app by congruence.
  rewrite bytes_compare_app by (transitivity (keyWidthOf types);
    [|symmetry]; (eapply encodeKeys_length; [|done]); lia).
  rewrite (encodeKeys_compare types v v' 0 0 k k') by done. cbn [tuple_compare dv_num].
  rewrite be_put_compare by apply u64_of_range. rewrite !u64_of_pos by (unfold two64; lia).
  rewrite Z2N.inj_compare by lia. f_equal. by destruct (Z.compare row row').
Qed.

Lemma Forall2_exists_l {A B} (P : A → B → Prop) l : Forall (λ x, ∃ y, P x y) l → ∃ k, Forall2 P l k.
Proof. induction 1 as [|x l [y Hy] Hl [k IH]]; [by exists []|]. exists (y :: k). by constructor. Qed.

Lemma typed_rows_sorted types numRows rows recs : (numRows < 2 ^ 63)%Z →
  Forall2 (typed_row types numRows) rows recs →
  StronglySorted (λ a b, tuple_compare a b = Lt) rows → StronglySorted bytes_lt recs.
Proof.
  intros Hn. induction 1 as [|s r rows recs Hs Hr IH]; intros Hsort; [constructor|].
  apply StronglySorted_inv in Hsort as [Hsort Hf]. constructor; [auto|].
  clear IH Hsort. induction Hr as [|s' r' rows recs Hs' Hr IH]; constructor; inv Hf; [|auto].
  unfold bytes_lt. by erewrite typed_row_compare by done.
Qed.

Lemma build_rows_total env types numRows rows recs st prev :
  env_ok env → (numRows < 2 ^ 63)%Z → Forall2 (typed_row types numRows) rows recs →
  StronglySorted bytes_lt recs → bs_prev st = prev → (∀ p r, prev = Some p → r ∈ recs → bytes_lt p r) →
  ∃ st', build_rows env types (keyWidthOf types) numRows st rows = inl st' ∧
    bs_n st' = bs_n st + length rows.
Proof.
  intros Henv Hn Hr. revert st prev. induction Hr as [|s r rows recs Hsr Hr IH]; intros st prev Hs Hp Hlt.
  { exists st. split; [done|]. simpl. lia. }
  apply StronglySorted_inv in Hs as [Hs Hf]. cbn [build_rows].
  destruct Hsr as [_ (key & row & Hl & Hk & Hrow & Hz & ->)]. unfold build_row.
  rewrite Hl, Nat.eqb_refl, Hk, Hrow. cbn [try_bind].
  rewrite (proj2 (Z.leb_le _ _)), (proj2 (Z.ltb_lt _ _)), Hp by lia. cbn [andb].
  set (rec := key ++ be_put 8 (u64_of row)) in *.
  assert (match prev with Some p => match bytes_compare rec p with Gt => true | _ => false end | None => true end = true) as ->.
  { destruct prev as [p|]; [|done]. specialize (Hlt p rec eq_refl (list_elem_of_here _ _)).
    apply (cmp_gt_lt bytes_compare) in Hlt. by rewrite Hlt. }
  set (st1 := {| bs_out := _; bs_prev := Some rec |}).
  assert (∃ st2, (if (Z.of_nat (length (bs_block st1)) =? BlockRecords * (Z.of_nat (keyWidthOf types) + rowWidth))%Z
      then flushBlock env (keyWidthOf types) st1 else inl st1) = inl st2 ∧
      bs_prev st2 = Some rec ∧ bs_n st2 = S (bs_n st)) as (st2 & -> & Hp2 & Hn2).
  { destruct (_ =? _)%Z; [|by eauto]. destruct (flushBlock_total env (keyWidthOf types) st1 Henv) as (st2 & H & Hp2 & Hn2). eauto. }
  cbn [try_bind]. destruct (IH st2 (Some rec)) as (st3 & -> & Hn3); [done|done| |].
  { intros p r [= <-] Hin. rewrite Forall_forall in Hf. by apply Hf. }
  exists st3. split; [done|]. simpl. lia.
Qed.

(** When the disk has room, the context lives and the writes succeed, a
    build over a table with integer keys, no NULL among them, whose scan comes
    in numeric order does write an index: no check of the writer refuses it. *)
Theorem Build_writes openParquet env ddb basePath dir base st keyCols names tbl pf crc :
  base_ok ddb pf base st keyCols names tbl → openParquet base = Some pf → footerCRCOf base = Some crc →
  env_ok env → has_prefix basePath "s3://" = false → 0 < length keyCols →
  Forall (λ n, isIntegerType (dk_type ddb n) = true) names →
  pq_NumRows pf = Z.of_nat (length tbl) →
  Forall (λ r, ∃ k, encodeKeys (dk_type ddb <$> names) r 0 = inl k) tbl →
  StronglySorted (λ a b, tuple_compare a b = Lt) (dk_query ddb names) → dk_fails ddb = false →
  ∃ file n bytes, Build openParquet env ddb basePath dir (Some (base, st)) keyCols = inl (Written file n bytes).
Proof.
  intros Hok Hpf Hcrc Henv Hs3 Hk Hint Hrows Henc Hsort Hfails.
  unfold Build. rewrite Hs3, (proj2 (Nat.eqb_neq _ _)) by lia. cbn [or_err try_bind].
  unfold readBaseIdentity. rewrite Hcrc, Hpf. cbn [or_err try_bind].
  set (id := identityOf _ _ _ _). destruct (eo_slot _ Henv) as (-> & -> & Hopen). cbn [andb].
  rewrite (bo_names _ _ _ _ _ _ _ Hok). cbn [try_bind].
  assert (IntegerKeyTypes ddb names = inl (dk_type ddb <$> names)) as ->.
  { unfold IntegerKeyTypes. rewrite filter_none; [done|]. intros n Hn. rewrite Forall_forall in Hint. by rewrite Hint. }
  set (types := dk_type ddb <$> names) in *.
  assert (freeSpaceShort env dir (spillDir env) (ExpectedSize (id_Rows id) names (keyWidthOf types))
    (wrap64 (id_Rows id * (Z.of_nat (keyWidthOf types) + rowWidth))) = false) as ->.
  { unfold freeSpaceShort. destruct (sameFilesystem _ _ _); by rewrite ?(eo_space _ Henv). }
  unfold buildFile. rewrite Hopen, (proj1 (eo_write _ Henv 0)).
  assert (∃ recs, Forall2 (typed_row types (id_Rows id)) (dk_query ddb names) recs) as [recs Hrecs].
  { apply Forall2_exists_l. rewrite (bo_scan _ _ _ _ _ _ _ Hok).
    apply Forall_fmap, Forall_forall. intros i Hi%elem_of_seq. simpl.
    destruct (lookup_lt_is_Some_2 tbl i) as [r Hr]; [lia|]. rewrite (list_lookup_total_correct _ _ _ Hr).
    destruct (Forall_lookup_1 _ _ _ _ (bo_tbl _ _ _ _ _ _ _ Hok) Hr) as [Hl Hv].
    destruct (Forall_lookup_1 _ _ _ _ Henc Hr) as [k Hek].
    assert (length types = length names) by (unfold types; by rewrite length_fmap).
    exists (k ++ be_put 8 (u64_of (Z.of_nat i))). split; [by exists r, (Z.of_nat i); rewrite H, Hl|].
    exists k, (Z.of_nat i). split_and!.
    - rewrite length_app. simpl. lia.
    - rewrite encodeKeys_app by lia. done.
    - by rewrite lookup_app_r, Hl, H, Nat.sub_diag by lia.
    - lia.
    - simpl. lia.
    - done. }
  destruct (bo_rows _ _ _ _ _ _ _ Hok) as [_ Hmax].
  destruct (build_rows_total env types (id_Rows id) (dk_query ddb names) recs
    {| bs_out := encodeHeader types names id; bs_writes := 1; bs_block := []; bs_skip := []; bs_prev := None; bs_n := 0 |}
    None Henv Hmax Hrecs) as (st1 & -> & Hn1); [|done..|].
  { by eapply typed_rows_sorted. }
  cbn [try_bind]. rewrite Hfails, Hn1. simpl bs_n. cbn [negb Nat.add].
  rewrite (Permutation_length (bo_scan _ _ _ _ _ _ _ Hok)), length_fmap, length_seq. change (id_Rows id) with (pq_NumRows pf).
  rewrite Hrows, Z.eqb_refl.
  destruct (flushBlock_total env (keyWidthOf types) st1 Henv) as (st2 & -> & _). cbn [try_bind].
  rewrite (proj1 (eo_write _ Henv (bs_writes st2))), (proj1 (eo_write _ Henv (S (bs_writes st2)))), (eo_rename _ Henv).
  by eauto.
Qed.

(** ** A sample: three rows, a key of two columns *)

Definition s_base : Bytes := str_bytes "PAR1meta" ++ (ascii_of_N <$> [4; 0; 0; 0]%N) ++ str_bytes "PAR1".
Definition s_stat : FileStat := {| st_Mtime := 1700000000000000000; st_Ino := 77 |}.
Definition s_pf : ParquetFile := {|
  pq_NumRows := 3;
  pq_Lookup := λ n, if decide (n = "id") then Some {| pq_Kind := PqInt32; pq_Logical := None |}
                    else if decide (n = "seq") then Some {| pq_Kind := PqInt64; pq_Logical := Some (Some (64%Z, false)) |}
                    else None |}.
Definition s_tbl : list (list DuckVal) :=
  [[DInt32 5; DUint64 1]; [DInt32 (-3); DUint64 7]; [DInt32 5; DUint64 0]].
Definition s_duck : DuckScan := {|
  dk_columns := ["id"; "name"; "seq"];
  dk_type := λ n, if decide (n = "id") then "INTEGER" else if decide (n = "seq") then "UBIGINT" else "VARCHAR";
  dk_query := λ _, [[DInt32 (-3); DUint64 7; DInt64 1]; [DInt32 5; DUint64 0; DInt64 2]; [DInt32 5; DUint64 1; DInt64 0]];
  dk_fails := false |}.
Definition s_env : BuildEnv := {|
  diskSpace := λ _, None; sameFilesystem := λ _ _, true;
  spillDir := "/tmp"; slot_free := true; ctx_live := true; file_opens := true; write_ok := λ _, true;
  ctx_ok := λ _, true; rename_ok := true; remove_ok := true |}.
Definition s_open (b : Bytes) : option ParquetFile := Some s_pf.
Definition s_build : buildResult + KeyErr :=
  Build s_open s_env s_duck "/d/t.parquet" "/d" (Some (s_base, s_stat)) ["seq"; "id"].
Definition s_file : Bytes := match s_build with inl (Written f _ _) => f | _ => [] end.
Definition s_key (i : Z) (n : N) : Bytes := be_put 4 (Z.to_N (i + 2 ^ 31)) ++ be_put 8 n.

Lemma s_base_ok : base_ok s_duck s_pf s_base s_stat ["seq"; "id"] ["id"; "seq"] s_tbl.
Proof.
  assert (Hr : ∀ z, (0 ≤ z < 2 ^ 62)%Z → is_i64 z) by (unfold is_i64; lia).
  split.
  - apply Hr. vm_compute. split; [intros [=]|reflexivity].
  - apply Hr. vm_compute. split; [intros [=]|reflexivity].
  - vm_compute. reflexivity.
  - apply Hr. vm_compute. split; [intros [=]|reflexivity].
  - split; [simpl; lia|]. repeat constructor.
  - vm_compute. reflexivity.
  - vm_compute. reflexivity.
  - unfold s_tbl, is_u64. repeat constructor; simpl; lia.
  - change (seq 0 (length s_tbl)) with [0; 1; 2]. simpl.
    eapply perm_trans; [|apply perm_swap]. constructor. apply (Permutation_cons_append [_]).
Qed.

Lemma Build_Find_witness : ∃ ix stats, Open s_open (Some s_file) (Some (s_base, s_stat)) = inl ix ∧
  Find ix [s_key 5 1; s_key (-3) 7; s_key 5 9] = inl ([0; 1]%Z, stats) ∧ st_Matches stats = 2.
Proof.
  destruct (Build_Find s_open s_env s_duck "/d/t.parquet" "/d" s_base s_stat ["seq"; "id"] ["id"; "seq"] s_tbl
    s_pf s_file 3 147 s_base_ok eq_refl) as (_ & _ & ix & Ho & Hf).
  - vm_compute. intros [=].
  - vm_compute. reflexivity.
  - destruct (Hf [[DInt32 5; DUint64 1]; [DInt32 (-3); DUint64 7]; [DInt32 5; DUint64 9]]
      [s_key 5 1; s_key (-3) 7; s_key 5 9]) as (stats & Hr & Hm).
    { repeat constructor; vm_compute; done. }
    exists ix, stats. split; [exact Ho|]. split; [exact Hr|exact Hm].
Defined.

Lemma Build_writes_witness : ∃ file n bytes, s_build = inl (Written file n bytes).
Proof.
  apply (Build_writes s_open s_env s_duck "/d/t.parquet" "/d" s_base s_stat ["seq"; "id"] ["id"; "seq"] s_tbl s_pf
    (match footerCRCOf s_base with Some c => c | None => 0%N end)).
  - exact s_base_ok.
  - reflexivity.
  - vm_compute. reflexivity.
  - split; [reflexivity|repeat split|repeat split|reflexivity].
  - reflexivity.
  - simpl. lia.
  - repeat constructor.
  - reflexivity.
  - repeat constructor; eexists; vm_compute; reflexivity.
  - simpl. repeat constructor.
  - reflexivity.
Defined.

Definition s_index : index := match readIndex s_file with inl ix => ix | inr _ => built_index [] [] {| id_file := {| Size := 0; Mtime := 0; Ino := 0 |}; id_FooterCRC := 0; id_Rows := 0 |} [] end.
Definition s_records : list record := match all s_index with inl l => l | inr _ => [] end.

Lemma Find_spec_witness : ∃ stats, Find s_index [s_key 5 0; s_key (-3) 7] = inl ([1; 2]%Z, stats) ∧
  st_Matches stats = 2 ∧ st_Blocks stats ≤ 1.
Proof.
  destruct (Find_spec s_file s_index s_records [s_key 5 0; s_key (-3) 7]) as (stats & Hf & Hm & Hb).
  - vm_compute. reflexivity.
  - vm_compute. reflexivity.
  - vm_compute. repeat constructor; intros [=].
  - vm_compute. repeat constructor.
  - exists stats. split; [exact Hf|]. split; [exact Hm|exact Hb].
Defined.

(** ** Opening a damaged file *)

(** The record count a header declares. *)
Definition declared_records (file : Bytes) : Z := i64_of (be_get (slice 12 8 file)).

Lemma read_names_no_panic file n off : read_names file n off ≠ inr EPanic.
Proof.
  revert off. induction n as [|n IH]; intros off; simpl; [done|].
  destruct (ReadAt file off 2); simpl; [|done]. destruct (negb _); [|done].
  destruct (ReadAt file _ _); simpl; [|done].
  match goal with |- context [read_names file n ?o] => specialize (IH o); destruct (read_names file n o) end; simpl; congruence.
Qed.

Lemma read_skip_no_panic skip kw n i prev : read_skip skip kw n i prev ≠ inr EPanic.
Proof.
  revert i prev. induction n as [|n IH]; intros i prev; simpl; [done|].
  destruct (match prev with Some _ => _ | None => _ end); [|done].
  match goal with |- context [read_skip skip kw n ?a ?b] => specialize (IH a b); destruct (read_skip skip kw n a b) end; simpl; congruence.
Qed.

Lemma read_names_size file n off names : read_names file n off = inl names →
  length names = n ∧ (Z.of_nat (sum_list_with (λ name, 2 + String.length name)%nat names) ≤ Z.of_nat n * 65538)%Z.
Proof.
  revert off names. induction n as [|n IH]; intros off names H; cbn [read_names] in H.
  { by injection H as <-. }
  inv_try. subst names.
  match goal with H : read_names _ _ _ = inl _ |- _ => apply IH in H as [Hl Hs] end.
  split; [simpl; congruence|]. cbn [sum_list_with].
  repeat match goal with H : ReadAt _ _ _ = Some _ |- _ => apply ReadAt_length in H end.
  pose proof (be_get_bound x) as Hx. rewrite H0 in Hx.
  assert (String.length (bytes_str x0) = length x0) as ->.
  { rewrite <- str_bytes_length. unfold str_bytes, bytes_str. by rewrite String.list_ascii_of_string_of_list_ascii. }
  change (256 ^ N.of_nat 2)%N with 65536%N in Hx. lia.
Qed.

Lemma keyWidthOf_le types : (Z.of_nat (keyWidthOf types) ≤ 8 * Z.of_nat (length types))%Z.
Proof.
  unfold keyWidthOf. induction types as [|t types IH]; [done|]. simpl. unfold keyBytes at 1. case_decide; lia.
Qed.

(** The allocation of the header and the skip table succeeds for up to 2^47
    records. *)
Lemma make_skip_ok n names types : (0 ≤ n ≤ 2 ^ 47)%Z → length names = length types →
  length types ≤ 255 →
  (Z.of_nat (sum_list_with (λ name, 2 + String.length name)%nat names) ≤ Z.of_nat (length names) * 65538)%Z →
  make_ok (wrap64 (headerSize names + wrap64 (blocksFor n * (Z.of_nat (keyWidthOf types) + 4)) + 4)) = true.
Proof.
  intros Hn Hl H255 Hs. pose proof (keyWidthOf_le types).
  assert (0 ≤ blocksFor n ≤ 2 ^ 35 + 1)%Z.
  { unfold blocksFor, BlockRecords. rewrite wrap64_small by (unfold is_i64; lia).
    rewrite Z.quot_div_nonneg by lia. split; [apply Z.div_pos; lia|].
    apply Z.div_le_upper_bound; lia. }
  assert (0 ≤ blocksFor n * (Z.of_nat (keyWidthOf types) + 4) ≤ (2 ^ 35 + 1) * 2044)%Z by nia.
  rewrite (wrap64_small (blocksFor n * _)) by (unfold is_i64; lia).
  unfold headerSize, fixedHeader. rewrite wrap64_small by (unfold is_i64; lia).
  unfold make_ok, maxAlloc. apply andb_true_iff. rewrite !Z.leb_le. lia.
Qed.

Lemma mapM_length_eq {A B} (f : A → option B) l k : mapM f l = Some k → length k = length l.
Proof. intros H%mapM_Some. by apply Forall2_length in H. Qed.

(** A file of 64 bytes that declares about 7.7 * 10^18 records: the size its
    header implies is 64 modulo 2^64. *)
Definition overflow_file : Bytes :=
  str_bytes Magic ++ be_put 2 Version ++ (ascii_of_N <$> [1; 8]%N) ++ be_put 8 7684892567729284318 ++
  be_put 8 0 ++ be_put 4 0 ++ be_put 8 7684892567729284318 ++ be_put 8 0 ++ be_put 8 0 ++
  [ascii_of_N 1] ++ be_put 2 1 ++ str_bytes "k" ++ be_put 4 0.

(** C38: Opening an index panics only on a header that declares more than 2^47
    records; and it does panic on one, although the file is 64 bytes long: the
    size check is made on a size that wrapped around. *)
Theorem readIndex_panic :
  (∀ file, readIndex file = inr EPanic → (2 ^ 47 < declared_records file)%Z) ∧
  length overflow_file = 64 ∧ readIndex overflow_file = inr EPanic.
Proof.
  split; [|split; vm_compute; reflexivity].
  intros file H. destruct (decide (2 ^ 47 < declared_records file)%Z) as [|Hle]; [done|exfalso].
  unfold readIndex in H. change (Z.to_nat fixedHeader) with 56 in H.
  destruct (ReadAt file 0 56) as [fixed|] eqn:Hfix; [|done]. cbn [or_err try_bind] in H.
  destruct (bool_decide _); [|done]. destruct (_ =? _)%N; [|done].
  destruct (negb _); [|done].
  destruct (ReadAt file fixedHeader _) as [codes|] eqn:Hc; [|done]. cbn [or_err try_bind] in H.
  destruct (mapM _ codes) as [types|] eqn:Ht; [|done]. cbn [or_err try_bind] in H.
  destruct (negb (_ || _)) eqn:Hr; [|done].
  destruct (read_names file _ _) as [names|e] eqn:Hn;
    [|cbn [try_bind] in H; injection H as ->; by apply read_names_no_panic in Hn].
  cbn [try_bind] in H. destruct (Z.of_nat (length file) =? _)%Z; [|done].
  apply read_names_size in Hn as [Hnl Hns]. apply ReadAt_length in Hc. apply mapM_length_eq in Ht.
  pose proof (be_get_bound (slice 10 1 fixed)) as H255.
  assert (length (slice 10 1 fixed) ≤ 1) as H1 by (unfold slice; rewrite length_take; lia).
  assert (be_get (slice 10 1 fixed) < 256)%N.
  { eapply N.lt_le_trans; [exact H255|]. change 256%N with (256 ^ 1)%N at 2. apply N.pow_le_mono_r; lia. }
  rewrite make_skip_ok in H; [|split|lia|lia|lia].
  - repeat (match type of H with
      | try_bind (or_err ?m _) _ = _ => destruct m; [|done]; cbn [or_err try_bind] in H
      | (if ?b then _ else _) = _ => destruct b; [|done]
      end).
    match type of H with try_bind ?m _ = _ => destruct m eqn:E; [done|] end.
    cbn [try_bind] in H. injection H as ->. by apply read_skip_no_panic in E.
  - destruct (Z.ltb_spec (i64_of (be_get (slice 12 8 fixed))) 0); [done|lia].
  - assert (slice 12 8 fixed = slice 12 8 file) as ->; [|unfold declared_records in Hle; lia].
    unfold ReadAt in Hfix. destruct (_ && _); [|done]. injection Hfix as <-.
    unfold slice. change (Z.to_nat 0) with 0. rewrite drop_0, skipn_firstn_comm, take_take. done.
Qed.
