(* ===== verification/GoText.v ===== *)
(** * More of Go's [strings] and [strconv]

    Substrings, [strings.Cut], [strings.LastIndex], and signed decimal text with
    its round trip through [strconv.ParseInt] and [strconv.ParseUint]. *)
From S2P Require Import Prelude GoStrings.

(** [strings.Contains]. *)
Fixpoint str_contains (s sub : string) : bool :=
  has_prefix s sub || match s with "" => false | String _ s' => str_contains s' sub end.

(** [strings.Cut] at the first [sep]: before, after, found. *)
Fixpoint str_cut (s : string) (sep : ascii) : string * string * bool :=
  match s with
  | "" => ("", "", false)
  | String c s' =>
      if bool_decide (c = sep) then ("", s', true)
      else let '(before, after, found) := str_cut s' sep in (String c before, after, found)
  end.

(** What follows the last [marker] ([strings.LastIndex]). *)
Fixpoint after_last (s marker : string) : option string :=
  match s with
  | "" => if bool_decide (marker = "") then Some "" else None
  | String _ s' =>
      match after_last s' marker with
      | Some r => Some r
      | None => if has_prefix s marker then Some (str_drop (String.length marker) s) else None
      end
  end.

(** [strings.TrimSuffix]. *)
Definition trim_suffix (s suffix : string) : string :=
  if has_suffix s suffix then str_take (String.length s - String.length suffix) s else s.

(** [strconv.FormatInt], [FormatUint], [big.Int.String] in base 10. *)
Definition decimal (z : Z) : string :=
  if (z <? 0)%Z then "-" +:+ pad 0 (Z.to_N (- z)) else pad 0 (Z.to_N z).

(** [strconv.ParseUint(s, 10, 64)]: digits only. *)
Definition parse_uint (s : string) : option Z :=
  if bool_decide (s = "") then None
  else
    match digits_val s 0 with
    | Some n => if (n <? 2 ^ 64)%Z then Some n else None
    | None => None
    end.

Example text_samples :
  str_contains "bigint unsigned" "unsigned" = true ∧ str_cut "a=b=c" "=" = ("a", "b=c", true) ∧
  after_last "s3://b/bintrail_id=x" "bintrail_id=" = Some "x" ∧ trim_suffix "ab/" "/" = "ab" ∧
  decimal (-120) = "-120" ∧ parse_uint "+5" = None ∧ parse_uint "18446744073709551615" = Some (2 ^ 64 - 1)%Z.
Proof. repeat split; vm_compute; reflexivity. Qed.

(** ** Lemmas *)

Lemma digits_val_app s t acc : digits_val (s +:+ t) acc = digits_val s acc ≫= digits_val t.
Proof.
  revert acc; induction s as [|c s IH]; intros acc; [done|]. simpl.
  destruct (is_digit c); [apply IH|done].
Qed.

Lemma byte_val_digit n : (n < 10)%N → byte_val (digit n) = (48 + n)%N.
Proof. intros Hn. unfold byte_val, digit. rewrite N_ascii_embedding; lia. Qed.

Lemma is_digit_digit n : (n < 10)%N → is_digit (digit n) = true.
Proof. intros Hn. unfold is_digit. rewrite byte_val_digit by done. apply andb_true_iff; split; apply N.leb_le; lia. Qed.

Lemma digits_val_fixed w n acc : (n < 10 ^ N.of_nat w)%N →
  digits_val (fixed w n) acc = Some (acc * 10 ^ Z.of_nat w + Z.of_N n)%Z.
Proof.
  revert n acc; induction w as [|w IH]; intros n acc Hn.
  - simpl in *. f_equal. lia.
  - assert (Hq : (n / 10 < 10 ^ N.of_nat w)%N).
    { apply N.Div0.div_lt_upper_bound. replace (N.of_nat (S w)) with (N.succ (N.of_nat w)) in Hn by lia.
      by rewrite N.pow_succ_r' in Hn. }
    simpl fixed. rewrite digits_val_app, IH by done. simpl.
    rewrite is_digit_digit, byte_val_digit by apply mod10_lt. f_equal.
    replace (Z.of_nat (S w)) with (Z.succ (Z.of_nat w)) by lia. rewrite Z.pow_succ_r by lia.
    pose proof (N.div_mod n 10 ltac:(done)) as Hdm. pose proof (mod10_lt n).
    rewrite (N.add_comm 48), N.add_sub.
    generalize dependent (n / 10)%N. generalize dependent (n `mod` 10)%N. intros r Hr q Hq Hdm. nia.
Qed.

Lemma digits_val_pad n : digits_val (pad 0 n) 0 = Some (Z.of_N n).
Proof. unfold pad. by rewrite digits_val_fixed by apply (pad_bound 0). Qed.

Lemma pad_head w n : ∃ c s, pad w n = String c s ∧ is_digit c = true.
Proof.
  pose proof (pad_length w n) as Hl. pose proof (ndigits_pos n).
  destruct (pad w n) as [|c s] eqn:E; simpl in Hl; [lia|]. exists c, s. split; [done|].
  destruct (is_digit c) eqn:Hd; [done|].
  pose proof (fixed_no_byte c (w `max` ndigits n) n Hd) as H'. unfold pad in E. rewrite E in H'. simpl in H'.
  by rewrite bool_decide_true in H' by done.
Qed.

(** A number printed is parsed back. *)
Lemma atoi_decimal z : (- 2 ^ 63 ≤ z < 2 ^ 63)%Z → atoi (decimal z) = Some z.
Proof.
  intros Hz. unfold decimal. destruct (z <? 0)%Z eqn:Hneg.
  - apply Z.ltb_lt in Hneg. unfold atoi. destruct (pad_head 0 (Z.to_N (- z))) as (c & s & E & _). simpl.
    rewrite bool_decide_false by (rewrite E; done).
    rewrite digits_val_pad. replace (-1 * Z.of_N (Z.to_N (- z)))%Z with z by lia.
    by rewrite (proj2 (Z.leb_le _ _)), (proj2 (Z.ltb_lt _ _)) by lia.
  - apply Z.ltb_ge in Hneg. unfold atoi. destruct (pad_head 0 (Z.to_N z)) as (c & s & E & Hd). rewrite E.
    assert (c ≠ "-"%char ∧ c ≠ "+"%char) as [??] by (split; intros ->; discriminate Hd).
    rewrite (bool_decide_false (c = "-"%char)), (bool_decide_false (c = "+"%char)) by done.
    rewrite bool_decide_false by done. rewrite <- E, digits_val_pad.
    replace (1 * Z.of_N (Z.to_N z))%Z with z by lia.
    by rewrite (proj2 (Z.leb_le _ _)), (proj2 (Z.ltb_lt _ _)) by lia.
Qed.

Lemma parse_uint_decimal z : (0 ≤ z < 2 ^ 64)%Z → parse_uint (decimal z) = Some z.
Proof.
  intros Hz. unfold decimal, parse_uint. rewrite (proj2 (Z.ltb_ge z 0)) by lia.
  destruct (pad_head 0 (Z.to_N z)) as (c & s & E & _).
  rewrite bool_decide_false by (rewrite E; done). rewrite digits_val_pad.
  rewrite Z2N.id by lia. by rewrite (proj2 (Z.ltb_lt _ _)) by lia.
Qed.

Lemma atoi_range s z : atoi s = Some z → (- 2 ^ 63 ≤ z < 2 ^ 63)%Z.
Proof. unfold atoi. repeat case_match; intros ?; simplify_eq; repeat case_bool_decide; simplify_eq; lia. Qed.

Lemma digits_val_nonneg s acc n : (0 ≤ acc)%Z → digits_val s acc = Some n → (0 ≤ n)%Z.
Proof.
  revert acc; induction s as [|c s IH]; simpl; intros acc Ha; [by intros [= <-]|].
  destruct (is_digit c); [|done]. apply IH. lia.
Qed.

Lemma parse_uint_range s z : parse_uint s = Some z → (0 ≤ z < 2 ^ 64)%Z.
Proof.
  unfold parse_uint. case_bool_decide; [done|]. destruct (digits_val s 0) eqn:E; [|done].
  apply digits_val_nonneg in E; [|done]. case_match; intros ?; simplify_eq; lia.
Qed.

(** A text cut at the first byte [c], and at the last. *)
Lemma cut_first_inj c a b x y : has_byte c a = false → has_byte c b = false →
  a +:+ String c x = b +:+ String c y → a = b ∧ x = y.
Proof.
  revert b. induction a as [|d a IH]; intros [|e b]; simpl; intros Ha Hb E.
  - naive_solver.
  - injection E as <- _. by rewrite bool_decide_true in Hb.
  - injection E as -> _. by rewrite bool_decide_true in Ha.
  - injection E as <- E. apply orb_false_iff in Ha as [_ Ha], Hb as [_ Hb]. destruct (IH b Ha Hb E). naive_solver.
Qed.

Lemma cut_last_inj c a b x y : has_byte c x = false → has_byte c y = false →
  a +:+ String c x = b +:+ String c y → a = b ∧ x = y.
Proof.
  revert b. induction a as [|d a IH]; intros [|e b]; simpl; intros Hx Hy E.
  - naive_solver.
  - injection E as _ ->. rewrite has_byte_app in Hx. simpl in Hx. rewrite bool_decide_true, orb_true_r in Hx by done. done.
  - injection E as _ <-. rewrite has_byte_app in Hy. simpl in Hy. rewrite bool_decide_true, orb_true_r in Hy by done. done.
  - injection E as <- E. destruct (IH b Hx Hy E). naive_solver.
Qed.

Lemma decimal_no_byte c z : is_digit c = false → c ≠ "-"%char → has_byte c (decimal z) = false.
Proof.
  intros Hd Hm. unfold decimal, pad. destruct (z <? 0)%Z; simpl; rewrite fixed_no_byte by done; [|done].
  by rewrite bool_decide_false by done.
Qed.

Lemma pad_inj n m : pad 0 n = pad 0 m → n = m.
Proof. intros E. pose proof (digits_val_pad n) as H. rewrite E, digits_val_pad in H. injection H as H. lia. Qed.
