(* ===== verification/PkRange.v ===== *)
(** * Ranges over an integer primary key: [internal/query/pkrange.go]

    A range is checked against the table's key, turned into SQL for the live
    index and for the archives, and evaluated in memory by the buffer. The two
    engines' casts are arguments with the laws their manuals give. *)
From S2P Require Import Prelude GoStrings GoText GoVal Event.

Open Scope Z_scope.

Inductive PKCast := PKCastUnset | PKCastSigned | PKCastUnsigned.

#[export] Instance PKCast_eq_dec : EqDecision PKCast.
Proof. solve_decision. Defined.

Record PKRange := { Cast : PKCast; Min : option Z; Max : option Z }.

Definition bigMaxInt64 : Z := 2 ^ 63 - 1.
Definition bigMinInt64 : Z := - 2 ^ 63.
Definition bigMaxUint : Z := 2 ^ 64 - 1.

(** The refusals, with the values their text carries. *)
Inductive pkErr :=
| ENotAnInteger (s : string)
| EInverted (lo hi : Z)
| ENotInSnapshot
| ENoKey
| EComposite (cols : list string)
| ETypeUnknown (col : string)
| ENotInteger (col type : string)
| ESignUnknown (col type : string)
| ENegative (label : string) (v : Z)
| EAboveUnsigned (label : string) (v : Z)
| EAboveSigned (label : string) (v : Z)
| EBelowSigned (label : string) (v : Z)
| EUnresolved
| ENoBounds
| ENeedsTable
| EExactLookup.

#[export] Instance pkErr_eq_dec : EqDecision pkErr.
Proof. solve_decision. Defined.

(** ** Building a range *)

(** [pkBoundRE], [^-?[0-9]+$], then [big.Int.SetString]. *)
Definition ParsePKBound (s : string) : Z + pkErr :=
  let s := trim_space s in
  let '(sign, body) :=
    match s with
    | String c s' => if bool_decide (c = "-"%char) then (-1, s') else (1, s)
    | "" => (1, s)
    end in
  if bool_decide (body = "") then inr (ENotAnInteger s)
  else match digits_val body 0 with
       | Some n => inl (sign * n)
       | None => inr (ENotAnInteger s)
       end.

Definition NewPKRange (lo hi : option Z) : option PKRange + pkErr :=
  match lo, hi with
  | None, None => inl None
  | Some l, Some h => if h <? l then inr (EInverted l h) else inl (Some {| Cast := PKCastUnset; Min := lo; Max := hi |})
  | _, _ => inl (Some {| Cast := PKCastUnset; Min := lo; Max := hi |})
  end.

Definition integerDataTypes : list string := ["tinyint"; "smallint"; "mediumint"; "int"; "bigint"].

Definition describeColumnType (col : ColumnMeta) : string :=
  if negb (bool_decide (ColumnType col = "")) then to_lower (ColumnType col) else to_lower (DataType col).

(** One bound against the width of the cast. *)
Definition check_bound (cast : PKCast) (label : string) (v : option Z) : () + pkErr :=
  match v with
  | None => inl ()
  | Some v =>
      match cast with
      | PKCastUnsigned =>
          if v <? 0 then inr (ENegative label v)
          else if bigMaxUint <? v then inr (EAboveUnsigned label v) else inl ()
      | PKCastSigned =>
          if bigMaxInt64 <? v then inr (EAboveSigned label v)
          else if v <? bigMinInt64 then inr (EBelowSigned label v) else inl ()
      | PKCastUnset => inr EUnresolved
      end
  end.

Definition checkPKBoundsFit (cast : PKCast) (lo hi : option Z) : () + pkErr :=
  _ ←? check_bound cast "lower bound" lo;
  check_bound cast "upper bound" hi.

Definition ResolveCast (r : PKRange) (tm : option TableMeta) : PKRange + pkErr :=
  tm ←? or_err tm ENotInSnapshot;
  match PKColumnMetas tm with
  | [] => inr ENoKey
  | [col] =>
      let dataType := to_lower (DataType col) in
      ensure negb (bool_decide (dataType = "")) or ETypeUnknown (Name col);
      ensure bool_decide (dataType ∈ integerDataTypes) or ENotInteger (Name col) (describeColumnType col);
      ensure negb (bool_decide (ColumnType col = "")) or ESignUnknown (Name col) dataType;
      let cast := if str_contains (to_lower (ColumnType col)) "unsigned" then PKCastUnsigned else PKCastSigned in
      _ ←? checkPKBoundsFit cast (Min r) (Max r);
      inl {| Cast := cast; Min := Min r; Max := Max r |}
  | _ => inr (EComposite (PKColumns tm))
  end.

Definition Validate (r : option PKRange) : () + pkErr :=
  match r with
  | None => inl ()
  | Some r =>
      ensure negb (bool_decide (Cast r = PKCastUnset)) or EUnresolved;
      ensure negb (bool_decide (Min r = None) && bool_decide (Max r = None)) or ENoBounds;
      match Min r, Max r with
      | Some l, Some h => if h <? l then inr (EInverted l h) else checkPKBoundsFit (Cast r) (Min r) (Max r)
      | _, _ => checkPKBoundsFit (Cast r) (Min r) (Max r)
      end
  end.

(** ** Evaluating a range *)

(** The bounds on a value. *)
Definition within (r : PKRange) (v : Z) : bool :=
  match Min r with Some l => l <=? v | None => true end &&
  match Max r with Some h => v <=? h | None => true end.

(** In memory: the text must be the decimal rendering of an integer of the
    cast's width. *)
Definition Contains (r : option PKRange) (pkValues : string) : bool :=
  match r with
  | None => true
  | Some r =>
      let parsed := match Cast r with
                    | PKCastUnsigned => parse_uint pkValues
                    | PKCastSigned => atoi pkValues
                    | PKCastUnset => None
                    end in
      match parsed with
      | Some v => if negb (bool_decide (decimal v = pkValues)) then false else within r v
      | None => false
      end
  end.

(** A conjunct of the SQL predicate. *)
Inductive rangePred :=
| RNone
| RRoundTrip (c : PKCast)
| RGe (c : PKCast) (n : Z)
| RLe (c : PKCast) (n : Z).

(** The conjuncts, the same on both engines. *)
Definition range_preds (r : PKRange) : list rangePred :=
  match Cast r with
  | PKCastUnset => [RNone]
  | c => RRoundTrip c :: (match Min r with Some n => [RGe c n] | None => [] end)
                      ++ (match Max r with Some n => [RLe c n] | None => [] end)
  end.

Definition mysql_type (c : PKCast) : string :=
  match c with PKCastSigned => "SIGNED" | PKCastUnsigned => "UNSIGNED" | PKCastUnset => "" end.
Definition duckdb_type (c : PKCast) : string :=
  match c with PKCastSigned => "BIGINT" | PKCastUnsigned => "UBIGINT" | PKCastUnset => "" end.

(** The text of a conjunct for the live index. *)
Definition mysql_pred_sql (p : rangePred) : string :=
  match p with
  | RNone => "1=0"
  | RRoundTrip c => "CAST(CAST(pk_values AS " +:+ mysql_type c +:+ ") AS CHAR) = CAST(pk_values AS BINARY)"
  | RGe c n => "CAST(pk_values AS " +:+ mysql_type c +:+ ") >= " +:+ decimal n
  | RLe c n => "CAST(pk_values AS " +:+ mysql_type c +:+ ") <= " +:+ decimal n
  end.

Definition mysqlPredicates (r : PKRange) : list string := mysql_pred_sql <$> range_preds r.

(** The text of a conjunct for the archives. *)
Definition duckdb_pred_sql (p : rangePred) : string :=
  match p with
  | RNone => "FALSE"
  | RRoundTrip c => "CAST(TRY_CAST(pk_values AS " +:+ duckdb_type c +:+ ") AS VARCHAR) = pk_values"
  | RGe c n => "TRY_CAST(pk_values AS " +:+ duckdb_type c +:+ ") >= " +:+ decimal n
  | RLe c n => "TRY_CAST(pk_values AS " +:+ duckdb_type c +:+ ") <= " +:+ decimal n
  end.

Definition DuckDBPredicates (r : PKRange) : list string := duckdb_pred_sql <$> range_preds r.

(** [Options.ValidatePKRange] on the options it reads. *)
Definition validate_pk_range (schema table pkValues : string) (pkValuesIn : list string) (r : option PKRange)
    : () + pkErr :=
  match r with
  | None => inl ()
  | Some _ =>
      ensure negb (bool_decide (schema = "") || bool_decide (table = "")) or ENeedsTable;
      ensure negb (negb (bool_decide (pkValues = "")) || (0 <? length pkValuesIn)%nat) or EExactLookup;
      Validate r
  end.

(** ** The casts of the two engines *)

Definition in_width (c : PKCast) (z : Z) : Prop :=
  match c with
  | PKCastSigned => bigMinInt64 ≤ z ≤ bigMaxInt64
  | PKCastUnsigned => 0 ≤ z ≤ bigMaxUint
  | PKCastUnset => False
  end.

Class IntCasts := {
  (** [CAST(s AS SIGNED|UNSIGNED)] of MySQL, which coerces any text. *)
  mysql_cast : PKCast → string → Z;
  (** [TRY_CAST(s AS BIGINT|UBIGINT)] of DuckDB. *)
  duckdb_try_cast : PKCast → string → option Z;
}.

(** What both manuals say: a result fits the type, and the decimal text of a
    number that fits is read as that number. *)
Class IntCastLaws `(I : IntCasts) : Prop := {
  mysql_cast_width c s : c ≠ PKCastUnset → in_width c (mysql_cast c s);
  mysql_cast_decimal c z : in_width c z → mysql_cast c (decimal z) = z;
  duckdb_cast_width c s z : duckdb_try_cast c s = Some z → in_width c z;
  duckdb_cast_decimal c z : in_width c z → duckdb_try_cast c (decimal z) = Some z;
}.

Definition mysql_pred_holds `{IntCasts} (p : rangePred) (s : string) : bool :=
  match p with
  | RNone => false
  | RRoundTrip c => bool_decide (decimal (mysql_cast c s) = s)
  | RGe c n => n <=? mysql_cast c s
  | RLe c n => mysql_cast c s <=? n
  end.

(** A comparison with NULL is not true. *)
Definition duckdb_pred_holds `{IntCasts} (p : rangePred) (s : string) : bool :=
  match p with
  | RNone => false
  | RRoundTrip c => match duckdb_try_cast c s with Some z => bool_decide (decimal z = s) | None => false end
  | RGe c n => match duckdb_try_cast c s with Some z => n <=? z | None => false end
  | RLe c n => match duckdb_try_cast c s with Some z => z <=? n | None => false end
  end.

(** ** The three evaluations agree *)

Lemma parse_of_cast c s v : match c with PKCastUnsigned => parse_uint s | PKCastSigned => atoi s | PKCastUnset => None end = Some v →
  in_width c v.
Proof.
  destruct c; simpl; [done| |]; intros H; [apply atoi_range in H|apply parse_uint_range in H];
    unfold bigMinInt64, bigMaxInt64, bigMaxUint; lia.
Qed.

Lemma parse_decimal c z : in_width c z →
  match c with PKCastUnsigned => parse_uint (decimal z) | PKCastSigned => atoi (decimal z) | PKCastUnset => None end = Some z.
Proof.
  destruct c; simpl; [done| |]; unfold bigMinInt64, bigMaxInt64, bigMaxUint; intros H;
    [apply atoi_decimal|apply parse_uint_decimal]; lia.
Qed.

(** A text is in the range exactly when it is the decimal text of a number of
    the width inside the bounds. *)
Lemma Contains_spec r s : Contains (Some r) s = true ↔ ∃ z, in_width (Cast r) z ∧ s = decimal z ∧ within r z = true.
Proof.
  simpl. split.
  - destruct (match Cast r with PKCastUnsigned => _ | _ => _ end) as [v|] eqn:E; [|done].
    case_bool_decide; simpl; [|done]. intros Hw. exists v. split_and!; [by eapply parse_of_cast|done|done].
  - intros (z & Hz & -> & Hw). rewrite (parse_decimal _ _ Hz). by rewrite bool_decide_true.
Qed.

(** The conjuncts of a resolved range, evaluated one by one. *)
Lemma range_preds_forall (holds : rangePred → bool) r : Cast r ≠ PKCastUnset →
  forallb holds (range_preds r) = holds (RRoundTrip (Cast r)) &&
    (match Min r with Some n => holds (RGe (Cast r) n) | None => true end &&
     match Max r with Some n => holds (RLe (Cast r) n) | None => true end).
Proof.
  intros Hc. unfold range_preds. destruct (Cast r); [done| |];
    destruct (Min r), (Max r); simpl; by rewrite ?andb_true_r.
Qed.

Section engines.
Context `{I : IntCasts, L : !IntCastLaws I}.

Lemma mysql_preds_spec r s : Cast r ≠ PKCastUnset →
  forallb (λ p, mysql_pred_holds p s) (range_preds r) = true ↔
  ∃ z, in_width (Cast r) z ∧ s = decimal z ∧ within r z = true.
Proof.
  intros Hc. rewrite range_preds_forall by done. rewrite !andb_true_iff. simpl. rewrite bool_decide_eq_true.
  split.
  - intros (Hs & Hlo & Hhi). exists (mysql_cast (Cast r) s).
    split_and!; [by apply mysql_cast_width|done|]. unfold within. by rewrite Hlo, Hhi.
  - intros (z & Hz & -> & Hw). rewrite mysql_cast_decimal by done. apply andb_true_iff in Hw. naive_solver.
Qed.

Lemma duckdb_preds_spec r s : Cast r ≠ PKCastUnset →
  forallb (λ p, duckdb_pred_holds p s) (range_preds r) = true ↔
  ∃ z, in_width (Cast r) z ∧ s = decimal z ∧ within r z = true.
Proof.
  intros Hc. rewrite range_preds_forall by done. rewrite !andb_true_iff. simpl.
  split.
  - destruct (duckdb_try_cast (Cast r) s) as [z|] eqn:E; [|naive_solver].
    rewrite bool_decide_eq_true. intros (Hs & Hlo & Hhi). exists z.
    split_and!; [by eapply duckdb_cast_width|done|]. unfold within. by rewrite Hlo, Hhi.
  - intros (z & Hz & -> & Hw). rewrite duckdb_cast_decimal by done. rewrite bool_decide_true by done.
    apply andb_true_iff in Hw. naive_solver.
Qed.

(** C20: The live index, the archives and the in-memory buffer admit the same
    keys for every range and every key text, whatever MySQL's CAST and DuckDB's
    TRY_CAST make of text that is not a number: exactly the decimal texts of the
    numbers of the key's width within the bounds, and none when the cast was
    not resolved. *)
Theorem pk_range_engines_agree r s :
  forallb (λ p, mysql_pred_holds p s) (range_preds r) = Contains (Some r) s ∧
  forallb (λ p, duckdb_pred_holds p s) (range_preds r) = Contains (Some r) s ∧
  (Contains (Some r) s = true ↔ ∃ z, in_width (Cast r) z ∧ s = decimal z ∧ within r z = true).
Proof.
  destruct (decide (Cast r = PKCastUnset)) as [Hc|Hc].
  { split_and!; [unfold range_preds; simpl; by rewrite Hc..|apply Contains_spec]. }
  split_and!; [apply eq_true_iff_eq..|apply Contains_spec];
    rewrite Contains_spec; [by apply mysql_preds_spec|by apply duckdb_preds_spec].
Qed.
End engines.

(** A resolved range has bounds its cast can represent, so no engine sees a
    literal outside its type. *)
Lemma ResolveCast_fits r tm r' : ResolveCast r tm = inl r' →
  Cast r' ≠ PKCastUnset ∧ Min r' = Min r ∧ Max r' = Max r ∧
  (∀ l, Min r = Some l → in_width (Cast r') l) ∧ (∀ h, Max r = Some h → in_width (Cast r') h).
Proof.
  unfold ResolveCast. intros H. inv_try. destruct (PKColumnMetas _) as [|col []]; [done| |done].
  inv_try. simplify_eq/=. unfold checkPKBoundsFit in *. inv_try.
  destruct (str_contains _ _); (split_and!; [done..| |]); intros v Hv; simpl in *;
    repeat match goal with
    | H : check_bound _ _ ?m = inl _, H' : ?m = Some _ |- _ => rewrite H' in H; simpl in H
    | H : (if ?b then inr _ else _) = inl _ |- _ => destruct b eqn:?; [discriminate H|]
    end; unfold bigMinInt64, bigMaxInt64, bigMaxUint in *; lia.
Qed.

(** Casts that satisfy the laws: text that is not the decimal text of a number
    of the width is read as 0 by MySQL, as NULL by DuckDB. *)
Definition sample_parse (c : PKCast) (s : string) : option Z :=
  match c with PKCastUnsigned => parse_uint s | PKCastSigned => atoi s | PKCastUnset => None end.
#[export] Instance sample_casts : IntCasts := {|
  mysql_cast c s := default 0 (sample_parse c s);
  duckdb_try_cast := sample_parse |}.

#[export] Instance sample_cast_laws : IntCastLaws sample_casts.
Proof.
  split; simpl.
  - intros c s Hc. destruct (sample_parse c s) eqn:E; simpl; [by eapply parse_of_cast|].
    destruct c; [done| |]; simpl; unfold bigMinInt64, bigMaxInt64, bigMaxUint; lia.
  - intros c z Hz. unfold sample_parse. by rewrite (parse_decimal _ _ Hz).
  - intros c s z. apply parse_of_cast.
  - intros c z Hz. by apply parse_decimal.
Qed.

(** The range 9..11 admits "10", not "007" or "1e1". *)
Lemma pk_range_engines_agree_witness :
  let r := {| Cast := PKCastSigned; Min := Some 9; Max := Some 11 |} in
  forallb (λ p, mysql_pred_holds p "10") (range_preds r) = true ∧
  forallb (λ p, duckdb_pred_holds p "010") (range_preds r) = false ∧
  Contains (Some r) "10" = true.
Proof.
  intros r. destruct (pk_range_engines_agree r "10") as (E1 & _ & _).
  destruct (pk_range_engines_agree r "010") as (_ & E2 & _).
  rewrite E1, E2. repeat split; vm_compute; reflexivity.
Defined.
