(* ===== verification/TopN.v ===== *)
(** * The first n of a sorted list

    What reads with a limit rely on: the first [n] of a union are among the first
    [n] of its parts, so merging pages that were cut loses nothing. *)
From S2P Require Import Prelude.

Section top.
Context {A : Type} `{EqDecision A} (cmp : A → A → comparison) `{!CmpOrder cmp}.

(** The first [n] of [l] in the order. *)
Definition top (n : nat) (l : list A) : list A := take n (sort_by cmp l).

(** The order tells the elements of [l] apart. *)
Definition told_apart (l : list A) : Prop := ∀ x y, x ∈ l → y ∈ l → cmp x y = Eq → x = y.

Lemma told_apart_sub l k : told_apart l → k ⊆ l → told_apart k.
Proof. intros H Hs x y Hx Hy. apply H; auto. Qed.

Lemma sort_by_NoDup l : NoDup l → NoDup (sort_by cmp l).
Proof. by rewrite sort_by_perm. Qed.

(** A part of a list is sorted as it is in the list. *)
Lemma sort_by_part l k : told_apart l → NoDup l → NoDup k → k ⊆ l →
  sort_by cmp k = filter (λ x, x ∈ k) (sort_by cmp l).
Proof.
  intros Ht Hl Hk Hs. symmetry. apply sort_by_unique; [done|by eapply told_apart_sub| |].
  - apply NoDup_Permutation; [by apply NoDup_filter, sort_by_NoDup|done|]. intros x.
    rewrite list_elem_of_filter, elem_of_sort_by. split; [tauto|]. intros Hx. split; [done|]. by apply Hs.
  - apply StronglySorted_filter, sort_by_sorted, _.
Qed.

(** Two parts one of which is before the other. *)
Lemma sort_by_app l k : told_apart (l ++ k) → (∀ x y, x ∈ l → y ∈ k → cmp x y ≠ Gt) →
  sort_by cmp (l ++ k) = sort_by cmp l ++ sort_by cmp k.
Proof.
  intros Ht Hlt. symmetry. apply sort_by_unique; [done|done|by rewrite !sort_by_perm|].
  apply StronglySorted_app_2; [|apply sort_by_sorted, _..].
  intros x y. rewrite !elem_of_sort_by. apply Hlt.
Qed.

Lemma sublist_take_elem (l k : list A) n x : k `sublist_of` l → NoDup l → x ∈ take n l → x ∈ k → x ∈ take n k.
Proof.
  intros Hs. revert n. induction Hs as [|y k l Hs IH|y k l Hs IH]; intros n Hnd Hx Hk; [done| |].
  - destruct n as [|n]; simpl in *; [done|]. apply NoDup_cons in Hnd as [Hy Hnd].
    apply elem_of_cons in Hx as [->|Hx]; [by left|]. apply elem_of_cons in Hk as [->|Hk]; [by left|].
    right. by apply IH.
  - destruct n as [|n]; simpl in *; [done|]. apply NoDup_cons in Hnd as [Hy Hnd].
    apply elem_of_cons in Hx as [->|Hx]; [destruct Hy; by eapply elem_of_sublist|].
    assert (x ∈ take n k) as H' by auto. apply elem_of_take in H' as (i & Hi & Hlt).
    apply elem_of_take. exists i. split; [done|lia].
Qed.

(** An element among the first [n] of a list is among the first [n] of every
    part that has it. *)
Lemma top_part l k n x : told_apart l → NoDup l → NoDup k → k ⊆ l → x ∈ top n l → x ∈ k → x ∈ top n k.
Proof.
  intros Ht Hl Hk Hs Hx Hxk. unfold top in *.
  apply (sublist_take_elem (sort_by cmp l)); [|by apply sort_by_NoDup|done|by rewrite elem_of_sort_by].
  rewrite (sort_by_part l k) by done. apply sublist_filter.
Qed.

(** Whatever lies between a list and its first [n] has the same first [n]. *)
Lemma top_squeeze l k n : told_apart l → NoDup l → NoDup k → k ⊆ l → top n l ⊆ k → top n k = top n l.
Proof.
  intros Ht Hl Hk Hs Htop. unfold top. rewrite (sort_by_part l k) by done.
  rewrite <- (take_drop n (sort_by cmp l)) at 1. rewrite filter_app, filter_all by (intros x Hx; by apply Htop).
  destruct (Nat.le_gt_cases (length (sort_by cmp l)) n) as [Hle|Hgt].
  - rewrite (drop_ge (sort_by cmp l)) by done. rewrite filter_nil, app_nil_r. by rewrite take_idemp.
  - by rewrite take_app_length' by (rewrite length_take; lia).
Qed.

Lemma top_sub n l : top n l ⊆ l.
Proof. intros x Hx. unfold top in Hx. apply elem_of_take in Hx as (i & Hi & _).
  apply list_elem_of_lookup_2 in Hi. by rewrite elem_of_sort_by in Hi. Qed.

Lemma top_NoDup n l : NoDup l → NoDup (top n l).
Proof. intros H. eapply sublist_NoDup; [by apply sort_by_NoDup|apply sublist_take]. Qed.

(** The first [n] of a union from the first [n] of each part. *)
Lemma top_union l (ks : list (list A)) k n : told_apart l → NoDup l → Forall (λ p, NoDup p ∧ p ⊆ l) ks →
  (∀ x, x ∈ l → ∃ p, p ∈ ks ∧ x ∈ p) → NoDup k → (∀ x, x ∈ k ↔ ∃ p, p ∈ ks ∧ x ∈ top n p) → top n k = top n l.
Proof.
  intros Ht Hl Hks Hcov Hk Hspec. rewrite Forall_forall in Hks. apply top_squeeze; [done..| |].
  - intros x (p & Hp & Hx)%Hspec. destruct (Hks p Hp) as [_ Hsub]. by apply Hsub, (top_sub n).
  - intros x Hx. destruct (Hcov x) as (p & Hp & Hxp); [by apply (top_sub n)|]. apply Hspec. exists p.
    split; [done|]. destruct (Hks p Hp). by eapply top_part.
Qed.

Lemma top_perm n l k : told_apart l → l ≡ₚ k → top n l = top n k.
Proof. intros Ht Hp. unfold top. by rewrite (sort_by_proper cmp l k). Qed.

(** The first [n], then the next [m], when one part is before the other. *)
Lemma top_app n l k : told_apart (l ++ k) → (∀ x y, x ∈ l → y ∈ k → cmp x y ≠ Gt) →
  top n (l ++ k) = top n l ++ top (n - length (top n l)) k.
Proof.
  intros Ht Hlt. unfold top. rewrite sort_by_app by done. rewrite take_app, length_take. f_equal. f_equal. lia.
Qed.

Lemma top_idem n l : top n (top n l) = top n l.
Proof.
  unfold top. rewrite (sort_by_id cmp (take n _)), take_idemp; [done|].
  eapply StronglySorted_sublist; [apply sublist_take|apply sort_by_sorted, _].
Qed.

(** An element is among the first [n] when fewer than [n] are before it. *)
Lemma top_count n l x : told_apart l → NoDup l → x ∈ l →
  x ∈ top n l ↔ length (filter (λ y, cmp y x = Lt) l) < n.
Proof.
  intros Ht Hn Hx.
  assert (∀ s, StronglySorted (cmp_le cmp) s → NoDup s → (∀ a b, a ∈ s → b ∈ s → cmp a b = Eq → a = b) → x ∈ s →
    ∀ n, x ∈ take n s ↔ length (filter (λ y, cmp y x = Lt) s) < n) as H.
  { clear Ht Hn Hx l n. intros s Hs. induction Hs as [|y s Hs IH Hy]; intros Hn Ht Hx n; [by apply elem_of_nil in Hx|].
    apply NoDup_cons in Hn as [Hny Hn]. rewrite Forall_forall in Hy.
    destruct (decide (x = y)) as [->|Hne].
    - rewrite filter_cons_False by (by rewrite (cmp_refl cmp)).
      rewrite filter_none; [|intros z Hz E; specialize (Hy z Hz); unfold cmp_le in Hy; rewrite (cmp_antisym cmp), E in Hy; done].
      destruct n as [|n]; simpl; [split; [by intros ?%elem_of_nil|lia]|]. split; [lia|]. by left.
    - apply elem_of_cons in Hx as [?|Hx]; [done|].
      assert (cmp y x = Lt) as Hyx.
      { specialize (Hy x Hx). unfold cmp_le in Hy. destruct (cmp y x) eqn:E; [|done|done]. destruct Hne. symmetry.
        apply Ht; [by left|by right|done]. }
      rewrite filter_cons_True by done. simpl. destruct n as [|n]; simpl; [split; [by intros ?%elem_of_nil|lia]|].
      rewrite elem_of_cons, IH; [naive_solver lia|done| |done]. intros a b Ha Hb. apply Ht; by right. }
  unfold top. rewrite H; [by rewrite sort_by_perm|apply sort_by_sorted, _|by apply sort_by_NoDup| |by rewrite elem_of_sort_by].
  intros a b. rewrite !elem_of_sort_by. apply Ht.
Qed.

(** A list is the first [n] of what it starts. *)
Lemma top_prefix n l k : told_apart k → NoDup k → top n l ⊆ k → NoDup l →
  (∀ y, y ∈ k → y ∉ top n l → length (top n l) = n ∧ ∀ t, t ∈ top n l → cmp t y ≠ Gt) → top n k = top n l.
Proof.
  intros Ht Hk Hs Hl Hrest. set (p := top n l) in *. set (rest := filter (λ x, x ∉ p) k).
  assert (k ≡ₚ p ++ rest) as Hp.
  { apply NoDup_Permutation; [done| |].
    - apply NoDup_app. split_and!; [by apply top_NoDup| |by apply NoDup_filter].
      intros x Hx Hr. apply list_elem_of_filter in Hr as [? _]. done.
    - intros x. unfold rest. rewrite elem_of_app, list_elem_of_filter. destruct (decide (x ∈ p)); naive_solver. }
  unfold top. rewrite (sort_by_proper cmp k (p ++ rest)) by done.
  rewrite sort_by_app; [|intros x y; rewrite <- Hp; apply Ht|].
  - rewrite (sort_by_id cmp p).
    2:{ eapply StronglySorted_sublist; [apply sublist_take|apply sort_by_sorted, _]. }
    destruct rest as [|y rest'] eqn:E.
    + simpl. rewrite app_nil_r. apply take_ge. unfold p, top. rewrite length_take. lia.
    + rewrite take_app_length'; [done|]. symmetry. apply (Hrest y).
      * rewrite Hp, elem_of_app. right. by left.
      * intros Hy. assert (y ∈ rest) as Hr by (rewrite E; by left). apply list_elem_of_filter in Hr as [? _]. done.
  - intros x y Hx Hy. apply list_elem_of_filter in Hy as [Hny Hy]. by apply (Hrest y Hy Hny).
Qed.
End top.

(** A sorted list is in order at any two places. *)
Lemma StronglySorted_lookup_lt {A} (R : relation A) (l : list A) i j x y :
  StronglySorted R l → l !! i = Some x → l !! j = Some y → i < j → R x y.
Proof.
  intros Hs. revert i j. induction Hs as [|z l Hs IH Hz]; intros i j Hi Hj Hij; [done|].
  destruct j as [|j]; [lia|]. destruct i as [|i]; simpl in *.
  - injection Hi as ->. rewrite Forall_forall in Hz. by eapply Hz, list_elem_of_lookup_2.
  - eapply (IH i j); [done..|lia].
Qed.
