(* ===== verification/QueryWhere.v ===== *)
(** * The filters of a read: [internal/query/query.go], [columneq.go]

    [Options], the WHERE conjuncts [buildWhere] makes of them, their text and
    bound values, and their meaning on a row of [binlog_events]. What the index
    server decides (collation, JSON functions, casts, SHA2) is an interface with
    its laws. A [time.Time] is a [Z] ([GoTime]). *)
From S2P Require Import Prelude GoStrings GoText GoTime GoVal Event Rows PkRange PositionFloor.

Open Scope Z_scope.

(** ** Options *)

Record EventCursor := { cur_Timestamp : Z; cur_EventID : N }.

Definition After (c other : EventCursor) : bool :=
  if negb (cur_Timestamp c =? cur_Timestamp other) then cur_Timestamp other <? cur_Timestamp c
  else (cur_EventID other <? cur_EventID c)%N.

Record SchemaTable := { st_Schema : string; st_Table : string }.
Record SchemaTableColumn := { stc_Schema : string; stc_Table : string; stc_Column : string }.

#[export] Instance EventCursor_eq_dec : EqDecision EventCursor.
Proof. solve_decision. Defined.
#[export] Instance SchemaTable_eq_dec : EqDecision SchemaTable.
Proof. solve_decision. Defined.
#[export] Instance SchemaTableColumn_eq_dec : EqDecision SchemaTableColumn.
Proof. solve_decision. Defined.

Record ColumnEq := { ce_Column : string; ce_Value : string; ce_IsNull : bool }.

Record Options := {
  o_Schema : string;
  o_Table : string;
  o_PKValues : string;
  o_PKValuesAlt : string;
  o_PKValuesIn : list string;
  o_PKAliases : list (string * string);
  o_PKRange : option PKRange;
  o_EventType : option N;
  o_GTID : string;
  o_Since : option Z;
  o_Until : option Z;
  o_UntilPos : option BinlogPos;
  o_SincePos : option BinlogPos;
  o_SinceEventID : N;
  o_ArchivesCheckedThrough : option BinlogPos;
  o_sinceSettled : bool;
  o_AfterEvent : option EventCursor;
  o_EventAnchor : option EventCursor;
  o_BeforeEvent : option EventCursor;
  o_ExtraArchiveHours : list Z;
  o_ChangedColumn : string;
  o_QueryHash : string;
  o_ColumnEq : list ColumnEq;
  o_Flag : string;
  o_Limit : Z;
  o_LimitPerPK : Z;
  o_LatestPerPKCandidates : bool;
  o_Order : string;
  o_DenyTables : list SchemaTable;
  o_RedactColumns : list SchemaTableColumn;
  o_AllowTables : list SchemaTable;
  o_AllowColumns : list SchemaTableColumn;
  o_ProfileActive : bool;
}.

(** The fields a fetch assigns, all at once; the setters below change one. *)
Definition assign (o : Options) (pk : string) (pkIn : list string) (since : option Z) (settled : bool)
    (after : option EventCursor) (extra : list Z) (limit perPK : Z) (cands : bool) : Options := {|
  o_Schema := o_Schema o; o_Table := o_Table o; o_PKValues := pk; o_PKValuesAlt := o_PKValuesAlt o;
  o_PKValuesIn := pkIn; o_PKAliases := o_PKAliases o; o_PKRange := o_PKRange o; o_EventType := o_EventType o;
  o_GTID := o_GTID o; o_Since := since; o_Until := o_Until o; o_UntilPos := o_UntilPos o;
  o_SincePos := o_SincePos o; o_SinceEventID := o_SinceEventID o;
  o_ArchivesCheckedThrough := o_ArchivesCheckedThrough o; o_sinceSettled := settled; o_AfterEvent := after;
  o_EventAnchor := o_EventAnchor o; o_BeforeEvent := o_BeforeEvent o; o_ExtraArchiveHours := extra;
  o_ChangedColumn := o_ChangedColumn o; o_QueryHash := o_QueryHash o; o_ColumnEq := o_ColumnEq o;
  o_Flag := o_Flag o; o_Limit := limit; o_LimitPerPK := perPK; o_LatestPerPKCandidates := cands;
  o_Order := o_Order o; o_DenyTables := o_DenyTables o; o_RedactColumns := o_RedactColumns o;
  o_AllowTables := o_AllowTables o; o_AllowColumns := o_AllowColumns o; o_ProfileActive := o_ProfileActive o |}.

Definition set_keys (o : Options) (pk : string) (pkIn : list string) : Options :=
  assign o pk pkIn (o_Since o) (o_sinceSettled o) (o_AfterEvent o) (o_ExtraArchiveHours o)
         (o_Limit o) (o_LimitPerPK o) (o_LatestPerPKCandidates o).
Definition set_since (o : Options) (since : option Z) (settled : bool) : Options :=
  assign o (o_PKValues o) (o_PKValuesIn o) since settled (o_AfterEvent o) (o_ExtraArchiveHours o)
         (o_Limit o) (o_LimitPerPK o) (o_LatestPerPKCandidates o).
Definition set_after (o : Options) (c : option EventCursor) : Options :=
  assign o (o_PKValues o) (o_PKValuesIn o) (o_Since o) (o_sinceSettled o) c (o_ExtraArchiveHours o)
         (o_Limit o) (o_LimitPerPK o) (o_LatestPerPKCandidates o).
Definition set_extra (o : Options) (hours : list Z) : Options :=
  assign o (o_PKValues o) (o_PKValuesIn o) (o_Since o) (o_sinceSettled o) (o_AfterEvent o) hours
         (o_Limit o) (o_LimitPerPK o) (o_LatestPerPKCandidates o).
Definition set_limit (o : Options) (n : Z) : Options :=
  assign o (o_PKValues o) (o_PKValuesIn o) (o_Since o) (o_sinceSettled o) (o_AfterEvent o) (o_ExtraArchiveHours o)
         n (o_LimitPerPK o) (o_LatestPerPKCandidates o).
Definition set_per_pk (o : Options) (n : Z) (cands : bool) : Options :=
  assign o (o_PKValues o) (o_PKValuesIn o) (o_Since o) (o_sinceSettled o) (o_AfterEvent o) (o_ExtraArchiveHours o)
         (o_Limit o) n cands.

(** The zero value of the struct. *)
Definition zero_options : Options := {|
  o_Schema := ""; o_Table := ""; o_PKValues := ""; o_PKValuesAlt := ""; o_PKValuesIn := []; o_PKAliases := [];
  o_PKRange := None; o_EventType := None; o_GTID := ""; o_Since := None; o_Until := None; o_UntilPos := None;
  o_SincePos := None; o_SinceEventID := 0; o_ArchivesCheckedThrough := None; o_sinceSettled := false;
  o_AfterEvent := None; o_EventAnchor := None; o_BeforeEvent := None; o_ExtraArchiveHours := [];
  o_ChangedColumn := ""; o_QueryHash := ""; o_ColumnEq := []; o_Flag := ""; o_Limit := 0; o_LimitPerPK := 0;
  o_LatestPerPKCandidates := false; o_Order := ""; o_DenyTables := []; o_RedactColumns := []; o_AllowTables := [];
  o_AllowColumns := []; o_ProfileActive := false |}.

(** ** Refusals before a read *)

Inductive fetchErr :=
| EForwardDesc
| EBackwardAsc
| EQueryHashUnderProfile
| EChangedColumnUnderRedaction
| EPKRange (e : pkErr)
| EFloor (e : floorErr)
| EServer.

#[export] Instance floorErr_eq_dec : EqDecision floorErr.
Proof. solve_decision. Defined.
#[export] Instance fetchErr_eq_dec : EqDecision fetchErr.
Proof. solve_decision. Defined.

Definition validateCursor (o : Options) : () + fetchErr :=
  if negb (bool_decide (o_AfterEvent o = None)) && bool_decide (OrderDirection (o_Order o) = "DESC")
  then inr EForwardDesc
  else if negb (bool_decide (o_BeforeEvent o = None)) && bool_decide (OrderDirection (o_Order o) = "ASC")
  then inr EBackwardAsc
  else inl ().

Definition RedactionActive (o : Options) : bool :=
  o_ProfileActive o || (0 <? length (o_RedactColumns o))%nat || (0 <? length (o_DenyTables o))%nat
  || (0 <? length (o_AllowTables o))%nat || (0 <? length (o_AllowColumns o))%nat.

Definition ValidateStatementFilter (o : Options) : () + fetchErr :=
  if negb (bool_decide (o_QueryHash o = "")) && RedactionActive o then inr EQueryHashUnderProfile
  else if negb (bool_decide (o_ChangedColumn o = "")) &&
          ((0 <? length (o_RedactColumns o))%nat || (0 <? length (o_AllowColumns o))%nat)
  then inr EChangedColumnUnderRedaction
  else inl ().

Definition ValidatePKRange (o : Options) : () + fetchErr :=
  match validate_pk_range (o_Schema o) (o_Table o) (o_PKValues o) (o_PKValuesIn o) (o_PKRange o) with
  | inl _ => inl ()
  | inr e => inr (EPKRange e)
  end.

(** [NormalizeQueryHash]; the error carries the offending length or byte. *)
Definition is_lower_hex (c : ascii) : bool :=
  is_digit c || ((97 <=? byte_val c) && (byte_val c <=? 102))%N.

Definition NormalizeQueryHash (s : string) : string + nat :=
  let s := to_lower (trim_space s) in
  if bool_decide (s = "") then inl ""
  else if negb (String.length s =? 64)%nat then inr (String.length s)
  else if str_forall is_lower_hex s then inl s else inr 64%nat.

(** ** [columneq.go] *)

(** Every rune is an ASCII letter, a digit or [_]; a byte of 128 and up is part
    of, or decodes to, another rune. *)
Definition safe_byte (c : ascii) : bool :=
  let n := byte_val c in
  ((n =? 95) || ((97 <=? n) && (n <=? 122)) || ((65 <=? n) && (n <=? 90)) || ((48 <=? n) && (n <=? 57)))%N.

Definition IsSafeColumnName (col : string) : bool :=
  if bool_decide (col = "") then false else str_forall safe_byte col.

Inductive columnEqErr := ENoEquals (entry : string) | EEmptyColumn (entry : string) | EUnsafeColumn (col : string).

Definition ParseColumnEq (entry : string) : ColumnEq + columnEqErr :=
  let '(col, val, ok) := str_cut entry "=" in
  ensure ok or ENoEquals entry;
  let col := trim_space col in
  ensure negb (bool_decide (col = "")) or EEmptyColumn entry;
  ensure IsSafeColumnName col or EUnsafeColumn col;
  inl (if bool_decide (val = "NULL") then {| ce_Column := col; ce_Value := ""; ce_IsNull := true |}
       else {| ce_Column := col; ce_Value := val; ce_IsNull := false |}).

Fixpoint ParseColumnEqs (entries : list string) : list ColumnEq + columnEqErr :=
  match entries with
  | [] => inl []
  | e :: rest => eq ←? ParseColumnEq e; out ←? ParseColumnEqs rest; inl (eq :: out)
  end.

(** [columnEqSafe] ([newest.go]). *)
Definition columnEqSafe (eqs : list ColumnEq) : bool := forallb (λ ce, IsSafeColumnName (ce_Column ce)) eqs.

(** ** The conjuncts of [buildWhere] *)

(** A conjunct with the values it binds or inlines. *)
Inductive cond :=
| CSchema (s : string)
| CTable (t : string)
| CPk (v : string)
| CPkAlt (v alt : string)
| CPkIn (vs : list string)
| CRange (p : rangePred)
| CType (t : N)
| CGtid (g : string)
| CSecondsGe (n : Z)
| CSecondsLt (n : Z)
| CTimeGe (t : Z)
| CTimeLe (t : Z)
| CStartGe (n : N)
| CPosFrom (p : BinlogPos)
| CIdGt (n : N)
| CEndLe (n : N)
| CPosTo (p : BinlogPos)
| CAnchor (c : EventCursor)
| CAfter (c : EventCursor)
| CBefore (c : EventCursor)
| CChanged (col : string)
| CHash (h : string)
| CNothing
| CColNull (col : string)
| CColEq (col v : string)
| CFlag (f : string)
| CAllow (ts : list SchemaTable)
| CDeny (t : SchemaTable).

(** [TO_SECONDS] of a time. *)
Definition mysqlToSeconds (t : Z) : Z := t / second - unixEpoch + mysqlToSecondsConst.

(** One conjunct when the string is set. *)
Definition on_set (s : string) (c : list cond) : list cond := if negb (bool_decide (s = "")) then c else [].
(** The conjuncts of an optional field. *)
Definition on_some {A} (m : option A) (k : A → list cond) : list cond := match m with Some a => k a | None => [] end.

Definition column_cond (ce : ColumnEq) : cond :=
  if negb (IsSafeColumnName (ce_Column ce)) then CNothing
  else if ce_IsNull ce then CColNull (ce_Column ce)
  else CColEq (ce_Column ce) (ce_Value ce).

Definition where_conds (o : Options) : list cond :=
  on_set (o_Schema o) [CSchema (o_Schema o)] ++
  on_set (o_Table o) [CTable (o_Table o)] ++
  (if negb (bool_decide (o_PKValues o = "")) then
     if negb (bool_decide (o_PKValuesAlt o = "")) then [CPkAlt (o_PKValues o) (o_PKValuesAlt o)]
     else [CPk (o_PKValues o)]
   else if (0 <? length (o_PKValuesIn o))%nat then [CPkIn (o_PKValuesIn o)] else []) ++
  on_some (o_PKRange o) (λ r, CRange <$> range_preds r) ++
  on_some (o_EventType o) (λ t, [CType (t mod 256)]) ++
  on_set (o_GTID o) [CGtid (o_GTID o)] ++
  on_some (o_Since o) (λ since,
    if negb (bool_decide (o_SincePos o = None)) then [CTimeGe (CoarseSinceFloor since)]
    else [CSecondsGe (mysqlToSeconds (truncate_hour since)); CTimeGe since]) ++
  on_some (o_SincePos o) (λ p, if IsLSN p then [CStartGe (Pos p)] else [CPosFrom p]) ++
  (if (0 <? o_SinceEventID o)%N then [CIdGt (o_SinceEventID o)] else []) ++
  on_some (o_Until o) (λ until,
    [CSecondsLt (mysqlToSeconds (truncate_hour until + hour)); CTimeLe until]) ++
  on_some (o_UntilPos o) (λ p, if IsLSN p then [CEndLe (Pos p)] else [CPosTo p]) ++
  on_some (o_EventAnchor o) (λ a,
    [CSecondsGe (mysqlToSeconds (truncate_hour (cur_Timestamp a)));
     CSecondsLt (mysqlToSeconds (truncate_hour (cur_Timestamp a) + hour)); CAnchor a]) ++
  on_some (o_AfterEvent o) (λ c,
    [CSecondsGe (mysqlToSeconds (truncate_hour (cur_Timestamp c))); CAfter c]) ++
  on_some (o_BeforeEvent o) (λ c,
    [CSecondsLt (mysqlToSeconds (truncate_hour (cur_Timestamp c) + hour)); CBefore c]) ++
  on_set (o_ChangedColumn o) [CChanged (o_ChangedColumn o)] ++
  on_set (o_QueryHash o) [CHash (to_lower (o_QueryHash o))] ++
  (column_cond <$> o_ColumnEq o) ++
  on_set (o_Flag o) [CFlag (o_Flag o)] ++
  (if (0 <? length (o_AllowTables o))%nat then [CAllow (o_AllowTables o)] else []) ++
  (CDeny <$> o_DenyTables o).

(** ** The text of a conjunct, and the values it binds *)

Inductive arg := AStr (s : string) | ATime (t : Z) | AUint (n : N) | AInt (n : Z).

(** The texts of the source with runs of white space as one space. [needle] is
    [json.Marshal] of a column name. *)
Definition json_path (col : string) : string := "$." +:+ col.

Definition cond_sql (needle : string → string) (c : cond) : string * list arg :=
  match c with
  | CSchema s => ("schema_name = ?", [AStr s])
  | CTable t => ("table_name = ?", [AStr t])
  | CPk v => ("pk_hash = SHA2(?, 256) AND pk_values = ?", [AStr v; AStr v])
  | CPkAlt v alt =>
      ("((pk_hash = SHA2(?, 256) AND pk_values = ?) OR (pk_hash = SHA2(?, 256) AND pk_values = ?))",
       [AStr v; AStr v; AStr alt; AStr alt])
  | CPkIn vs =>
      ("pk_hash IN (" +:+ String.concat "," ((λ _, "SHA2(?, 256)") <$> vs) +:+ ") AND pk_values IN ("
         +:+ String.concat "," ((λ _, "?") <$> vs) +:+ ")", (AStr <$> vs) ++ (AStr <$> vs))
  | CRange p => (mysql_pred_sql p, [])
  | CType t => ("event_type = ?", [AUint t])
  | CGtid g => ("gtid = ?", [AStr g])
  | CSecondsGe n => ("TO_SECONDS(event_timestamp) >= " +:+ decimal n, [])
  | CSecondsLt n => ("TO_SECONDS(event_timestamp) < " +:+ decimal n, [])
  | CTimeGe t => ("event_timestamp >= ?", [ATime t])
  | CTimeLe t => ("event_timestamp <= ?", [ATime t])
  | CStartGe n => ("start_pos >= ?", [AUint n])
  | CPosFrom p =>
      ("(CHAR_LENGTH(binlog_file) > CHAR_LENGTH(?)"
         +:+ " OR (CHAR_LENGTH(binlog_file) = CHAR_LENGTH(?) AND binlog_file > ?)"
         +:+ " OR (binlog_file = ? AND start_pos >= ?))",
       [AStr (File p); AStr (File p); AStr (File p); AStr (File p); AUint (Pos p)])
  | CIdGt n => ("event_id > ?", [AUint n])
  | CEndLe n => ("end_pos <= ?", [AUint n])
  | CPosTo p =>
      ("(CHAR_LENGTH(binlog_file) < CHAR_LENGTH(?)"
         +:+ " OR (CHAR_LENGTH(binlog_file) = CHAR_LENGTH(?) AND binlog_file < ?)"
         +:+ " OR (binlog_file = ? AND end_pos <= ?))",
       [AStr (File p); AStr (File p); AStr (File p); AStr (File p); AUint (Pos p)])
  | CAnchor a => ("event_timestamp = ? AND event_id = ?", [ATime (cur_Timestamp a); AUint (cur_EventID a)])
  | CAfter c =>
      ("(event_timestamp > ? OR (event_timestamp = ? AND event_id > ?))",
       [ATime (cur_Timestamp c); ATime (cur_Timestamp c); AUint (cur_EventID c)])
  | CBefore c =>
      ("(event_timestamp < ? OR (event_timestamp = ? AND event_id < ?))",
       [ATime (cur_Timestamp c); ATime (cur_Timestamp c); AUint (cur_EventID c)])
  | CChanged col => ("JSON_CONTAINS(changed_columns, ?)", [AStr (needle col)])
  | CHash h => ("query_hash = ?", [AStr h])
  | CNothing => ("1=0", [])
  | CColNull col =>
      ("(JSON_TYPE(JSON_EXTRACT(row_after, '" +:+ json_path col +:+ "')) = 'NULL' "
         +:+ "OR JSON_TYPE(JSON_EXTRACT(row_before, '" +:+ json_path col +:+ "')) = 'NULL')", [])
  | CColEq col v =>
      ("(JSON_UNQUOTE(JSON_EXTRACT(row_after, '" +:+ json_path col +:+ "')) = ? "
         +:+ "OR JSON_UNQUOTE(JSON_EXTRACT(row_before, '" +:+ json_path col +:+ "')) = ?)", [AStr v; AStr v])
  | CFlag f =>
      ("EXISTS (SELECT 1 FROM table_flags WHERE table_flags.schema_name = binlog_events.schema_name AND "
         +:+ "table_flags.table_name = binlog_events.table_name AND table_flags.flag = ?)", [AStr f])
  | CAllow ts =>
      ("(" +:+ String.concat " OR " ((λ _, "(BINARY schema_name = ? AND BINARY table_name = ?)") <$> ts) +:+ ")",
       mjoin ((λ t, [AStr (st_Schema t); AStr (st_Table t)]) <$> ts))
  | CDeny t => ("NOT (schema_name = ? AND table_name = ?)", [AStr (st_Schema t); AStr (st_Table t)])
  end.

(** The conjuncts as text and the values in order. *)
Definition buildWhere (needle : string → string) (o : Options) : list string * list arg :=
  let cs := cond_sql needle <$> where_conds o in (cs.*1, mjoin (cs.*2)).

(** ** The meaning of a conjunct *)

(** What the index server decides. *)
Class MySQL := {
  my_casts :: IntCasts;
  (** [=] and [<] of the text columns, under their collation *)
  coll_eq : string → string → bool;
  coll_lt : string → string → bool;
  char_length : string → nat;
  sha2_256 : string → string;
  (** [JSON_UNQUOTE] of a value of a row image *)
  json_unquote : GoVal → string;
  (** the order a statement without ORDER BY gives its rows in *)
  scan_order : list ResultRow → list ResultRow;
}.

(** What the MySQL manual says of them; [sha2_distinct] is that no two keys of
    the index have one digest. *)
Class MySQLLaws (M : MySQL) : Prop := {
  my_cast_laws :: IntCastLaws my_casts;
  coll_eq_refl s : coll_eq s s = true;
  coll_eq_sym s t : coll_eq s t = true → coll_eq t s = true;
  coll_eq_trans s t u : coll_eq s t = true → coll_eq t u = true → coll_eq s u = true;
  sha2_distinct s t : coll_eq (sha2_256 s) (sha2_256 t) = true → s = t;
  scan_order_perm l : scan_order l ≡ₚ l;
}.

(** The table [table_flags]: schema, table, flag. *)
Definition flagRow : Type := string * string * string.

Section meaning.
Context `{M : MySQL}.

(** [JSON_EXTRACT(image, '$.col')]; [None] is SQL's NULL. *)
Definition json_extract (image : option Row) (col : string) : option GoVal := image ≫= λ m, m !! col.

Definition json_null (image : option Row) (col : string) : bool :=
  match json_extract image col with Some VNil => true | _ => false end.

Definition json_is (image : option Row) (col v : string) : bool :=
  match json_extract image col with Some x => coll_eq (json_unquote x) v | None => false end.

Definition pk_is (v : string) (r : ResultRow) : bool :=
  coll_eq (sha2_256 (PKValues r)) (sha2_256 v) && coll_eq (PKValues r) v.

(** [(file, pos)] of a row at or after, and at or before, a coordinate. *)
Definition pos_from (p : BinlogPos) (r : ResultRow) : bool :=
  (char_length (File p) <? char_length (BinlogFile r))%nat
  || ((char_length (BinlogFile r) =? char_length (File p))%nat && coll_lt (File p) (BinlogFile r))
  || (coll_eq (BinlogFile r) (File p) && (Pos p <=? StartPos r)%N).

Definition pos_to (p : BinlogPos) (r : ResultRow) : bool :=
  (char_length (BinlogFile r) <? char_length (File p))%nat
  || ((char_length (BinlogFile r) =? char_length (File p))%nat && coll_lt (BinlogFile r) (File p))
  || (coll_eq (BinlogFile r) (File p) && (EndPos r <=? Pos p)%N).

(** The sort key of a row, as a cursor. *)
Definition cursor_of (r : ResultRow) : EventCursor :=
  {| cur_Timestamp := EventTimestamp r; cur_EventID := EventID r |}.

Definition holds (flags : list flagRow) (c : cond) (r : ResultRow) : bool :=
  match c with
  | CSchema s => coll_eq (SchemaName r) s
  | CTable t => coll_eq (TableName r) t
  | CPk v => pk_is v r
  | CPkAlt v alt => pk_is v r || pk_is alt r
  | CPkIn vs => existsb (λ v, coll_eq (sha2_256 (PKValues r)) (sha2_256 v)) vs &&
                existsb (λ v, coll_eq (PKValues r) v) vs
  | CRange p => mysql_pred_holds p (PKValues r)
  | CType t => (EventType r =? t)%N
  | CGtid g => match GTID r with Some x => coll_eq x g | None => false end
  | CSecondsGe n => n <=? mysqlToSeconds (EventTimestamp r)
  | CSecondsLt n => mysqlToSeconds (EventTimestamp r) <? n
  | CTimeGe t => t <=? EventTimestamp r
  | CTimeLe t => EventTimestamp r <=? t
  | CStartGe n => (n <=? StartPos r)%N
  | CPosFrom p => pos_from p r
  | CIdGt n => (n <? EventID r)%N
  | CEndLe n => (EndPos r <=? n)%N
  | CPosTo p => pos_to p r
  | CAnchor a => (EventTimestamp r =? cur_Timestamp a) && (EventID r =? cur_EventID a)%N
  | CAfter c => (cur_Timestamp c <? EventTimestamp r)
                || ((EventTimestamp r =? cur_Timestamp c) && (cur_EventID c <? EventID r)%N)
  | CBefore c => (EventTimestamp r <? cur_Timestamp c)
                 || ((EventTimestamp r =? cur_Timestamp c) && (EventID r <? cur_EventID c)%N)
  | CChanged col => bool_decide (col ∈ RowChangedColumns r)
  | CHash h => match QueryHash r with Some x => coll_eq x h | None => false end
  | CNothing => false
  | CColNull col => json_null (RowAfter r) col || json_null (RowBefore r) col
  | CColEq col v => json_is (RowAfter r) col v || json_is (RowBefore r) col v
  | CFlag f => existsb (λ '(s, t, g), coll_eq s (SchemaName r) && coll_eq t (TableName r) && coll_eq g f) flags
  | CAllow ts => existsb (λ t, bool_decide (SchemaName r = st_Schema t) && bool_decide (TableName r = st_Table t)) ts
  | CDeny t => negb (coll_eq (SchemaName r) (st_Schema t) && coll_eq (TableName r) (st_Table t))
  end.

(** The WHERE clause of a read. *)
Definition matches (flags : list flagRow) (o : Options) (r : ResultRow) : bool :=
  forallb (λ c, holds flags c r) (where_conds o).
End meaning.

(** ** What a read admits

    The options as a specification: no pruning hints, no hashes, positions by
    [pos_compare]. *)

Definition end_pos (r : ResultRow) : BinlogPos := {| File := BinlogFile r; Pos := EndPos r |}.

Section spec.
Context `{M : MySQL}.

(** The columns an equality filter names hold the value, in either image. *)
Definition column_matches (r : ResultRow) (ce : ColumnEq) : Prop :=
  IsSafeColumnName (ce_Column ce) = true ∧
  if ce_IsNull ce then json_null (RowAfter r) (ce_Column ce) || json_null (RowBefore r) (ce_Column ce) = true
  else json_is (RowAfter r) (ce_Column ce) (ce_Value ce) || json_is (RowBefore r) (ce_Column ce) (ce_Value ce) = true.

Definition key_matches (o : Options) (r : ResultRow) : Prop :=
  if bool_decide (o_PKValues o = "") then o_PKValuesIn o = [] ∨ PKValues r ∈ o_PKValuesIn o
  else PKValues r = o_PKValues o ∨ (o_PKValuesAlt o ≠ "" ∧ PKValues r = o_PKValuesAlt o).

Definition admits (flags : list flagRow) (o : Options) (r : ResultRow) : Prop :=
  (o_Schema o = "" ∨ coll_eq (SchemaName r) (o_Schema o) = true) ∧
  (o_Table o = "" ∨ coll_eq (TableName r) (o_Table o) = true) ∧
  key_matches o r ∧
  Contains (o_PKRange o) (PKValues r) = true ∧
  (∀ t, o_EventType o = Some t → EventType r = (t mod 256)%N) ∧
  (o_GTID o = "" ∨ ∃ g, GTID r = Some g ∧ coll_eq g (o_GTID o) = true) ∧
  (∀ s, o_Since o = Some s →
     (if bool_decide (o_SincePos o = None) then s else CoarseSinceFloor s) ≤ EventTimestamp r) ∧
  (∀ p, o_SincePos o = Some p → if IsLSN p then (Pos p ≤ StartPos r)%N else pos_compare p (row_pos r) ≠ Gt) ∧
  (o_SinceEventID o = 0%N ∨ (o_SinceEventID o < EventID r)%N) ∧
  (∀ u, o_Until o = Some u → EventTimestamp r ≤ u) ∧
  (∀ p, o_UntilPos o = Some p → if IsLSN p then (EndPos r ≤ Pos p)%N else pos_compare (end_pos r) p ≠ Gt) ∧
  (∀ a, o_EventAnchor o = Some a → cursor_of r = a) ∧
  (∀ c, o_AfterEvent o = Some c → After (cursor_of r) c = true) ∧
  (∀ c, o_BeforeEvent o = Some c → After c (cursor_of r) = true) ∧
  (o_ChangedColumn o = "" ∨ o_ChangedColumn o ∈ RowChangedColumns r) ∧
  (o_QueryHash o = "" ∨ ∃ h, QueryHash r = Some h ∧ coll_eq h (to_lower (o_QueryHash o)) = true) ∧
  Forall (column_matches r) (o_ColumnEq o) ∧
  (o_Flag o = "" ∨ ∃ s t g, (s, t, g) ∈ flags ∧ coll_eq s (SchemaName r) = true ∧ coll_eq t (TableName r) = true
                            ∧ coll_eq g (o_Flag o) = true) ∧
  (o_AllowTables o = [] ∨ {| st_Schema := SchemaName r; st_Table := TableName r |} ∈ o_AllowTables o) ∧
  Forall (λ t, ¬ (coll_eq (SchemaName r) (st_Schema t) = true ∧ coll_eq (TableName r) (st_Table t) = true))
         (o_DenyTables o).

(** The collation agrees with the bytes on the file names compared, as it does
    on one server's sequence of ASCII names. *)
Definition plain_names (f g : string) : Prop :=
  char_length f = String.length f ∧ char_length g = String.length g ∧
  coll_eq f g = bool_decide (f = g) ∧ coll_lt f g = String.ltb f g ∧ coll_lt g f = String.ltb g f.

Definition plain_files (o : Options) (r : ResultRow) : Prop :=
  (∀ p, o_SincePos o = Some p → plain_names (BinlogFile r) (File p)) ∧
  (∀ p, o_UntilPos o = Some p → plain_names (BinlogFile r) (File p)).

Context {L : MySQLLaws M}.

Lemma on_set_holds (h : cond → bool) s cs :
  forallb h (on_set s cs) = true ↔ s = "" ∨ forallb h cs = true.
Proof. unfold on_set. case_bool_decide; simpl; naive_solver. Qed.

Lemma on_some_holds {A} (h : cond → bool) (m : option A) k :
  forallb h (on_some m k) = true ↔ ∀ a, m = Some a → forallb h (k a) = true.
Proof. destruct m; simpl; naive_solver. Qed.

Lemma pk_is_spec v r : pk_is v r = true ↔ PKValues r = v.
Proof.
  unfold pk_is. rewrite andb_true_iff. split; [intros [H _]; by apply sha2_distinct in H|].
  intros ->. split; apply coll_eq_refl.
Qed.

Lemma existsb_elem {A} (f : A → bool) l : existsb f l = true ↔ ∃ x, x ∈ l ∧ f x = true.
Proof. rewrite existsb_exists. setoid_rewrite list_elem_of_In. done. Qed.

Lemma key_conds_spec flags o r :
  forallb (λ c, holds flags c r)
    (if negb (bool_decide (o_PKValues o = "")) then
       if negb (bool_decide (o_PKValuesAlt o = "")) then [CPkAlt (o_PKValues o) (o_PKValuesAlt o)]
       else [CPk (o_PKValues o)]
     else if (0 <? length (o_PKValuesIn o))%nat then [CPkIn (o_PKValuesIn o)] else []) = true ↔ key_matches o r.
Proof.
  unfold key_matches. case_bool_decide; simpl.
  - destruct (decide (o_PKValuesIn o = [])) as [E|E]; [rewrite E; naive_solver|].
    rewrite (proj2 (Nat.ltb_lt 0 _)) by (destruct (o_PKValuesIn o); simpl; [done|lia]). simpl.
    rewrite andb_true_r, andb_true_iff, !existsb_elem. split.
    + intros [(x & Hx & H1) _]. apply sha2_distinct in H1. right. by subst.
    + intros [H1|H1]; [done|]. split; eexists; split; [done|apply coll_eq_refl|done|apply coll_eq_refl].
  - case_bool_decide; simpl; rewrite andb_true_r, ?orb_true_iff, !pk_is_spec; naive_solver.
Qed.

Lemma range_conds_spec flags o r :
  forallb (λ c, holds flags c r) (on_some (o_PKRange o) (λ r, CRange <$> range_preds r)) = true ↔
  Contains (o_PKRange o) (PKValues r) = true.
Proof.
  destruct (o_PKRange o) as [rg|]; [|done]. simpl on_some.
  destruct (pk_range_engines_agree rg (PKValues r)) as (E & _ & _). rewrite <- E.
  rewrite !forallb_forall. setoid_rewrite <- list_elem_of_In. split; intros H x Hx.
  - apply (H (CRange x)). by apply list_elem_of_fmap_2.
  - apply list_elem_of_fmap in Hx as (y & -> & Hy). by apply H.
Qed.

(** The hints: a time at or after another is not in an earlier second or hour. *)
Lemma seconds_mono s t : s ≤ t → mysqlToSeconds s ≤ mysqlToSeconds t.
Proof. intros H. unfold mysqlToSeconds. pose proof (Z.div_le_mono s t second ltac:(done) H). lia. Qed.

Lemma truncate_hour_bound t : truncate_hour t ≤ t < truncate_hour t + hour.
Proof.
  unfold truncate_hour. pose proof (Z.div_mod t hour ltac:(done)). pose proof (Z.mod_pos_bound t hour ltac:(done)). lia.
Qed.

Lemma seconds_hint_ge s t : s ≤ t → (mysqlToSeconds (truncate_hour s) <=? mysqlToSeconds t) = true.
Proof. intros H. apply Z.leb_le, seconds_mono. pose proof (truncate_hour_bound s). lia. Qed.

Lemma seconds_hint_lt s t : t ≤ s → (mysqlToSeconds t <? mysqlToSeconds (truncate_hour s + hour)) = true.
Proof.
  intros H. apply Z.ltb_lt. unfold mysqlToSeconds. pose proof (truncate_hour_bound s).
  enough (t / second < (truncate_hour s + hour) / second) by lia.
  replace (truncate_hour s + hour) with ((s / hour + 1) * 3600 * second) in * by (unfold truncate_hour, hour; lia).
  rewrite Z.div_mul by done. apply Z.div_lt_upper_bound; [done|]. lia.
Qed.

Lemma after_sql c r : holds [] (CAfter c) r = After (cursor_of r) c.
Proof. simpl. unfold After. simpl. destruct (Z.eqb_spec (EventTimestamp r) (cur_Timestamp c)) as [->|]; simpl;
  [by rewrite Z.ltb_irrefl|by rewrite orb_false_r]. Qed.

Lemma before_sql c r : holds [] (CBefore c) r = After c (cursor_of r).
Proof. simpl. unfold After. simpl. rewrite (Z.eqb_sym (cur_Timestamp c)).
  destruct (Z.eqb_spec (EventTimestamp r) (cur_Timestamp c)) as [->|]; simpl;
  [by rewrite Z.ltb_irrefl|by rewrite orb_false_r]. Qed.

Lemma After_time c d : After c d = true → cur_Timestamp d ≤ cur_Timestamp c.
Proof. unfold After. destruct (Z.eqb_spec (cur_Timestamp c) (cur_Timestamp d)); simpl; [lia|]. rewrite Z.ltb_lt. lia. Qed.

(** The three cases of a position test are the comparison. *)
Lemma pos_cases (f g : string) (a b : N) :
  (String.length f <? String.length g)%nat
  || ((String.length f =? String.length g)%nat && String.ltb f g)
  || (bool_decide (f = g) && (a <=? b)%N) = true ↔
  pos_compare {| File := f; Pos := a |} {| File := g; Pos := b |} ≠ Gt.
Proof.
  unfold pos_compare, cmp_or. simpl.
  destruct (Nat.compare_spec (String.length f) (String.length g)) as [He|Hl|Hg].
  - rewrite (proj2 (Nat.ltb_ge _ _)), (proj2 (Nat.eqb_eq _ _)) by lia. simpl. unfold String.ltb.
    destruct (String.compare f g) eqn:Hc; simpl.
    + apply String.compare_eq_iff in Hc as ->. rewrite bool_decide_true by done. simpl. unfold N.leb.
      by destruct (N.compare a b).
    + done.
    + rewrite bool_decide_false; [naive_solver|]. intros ->. by rewrite (cmp_refl String.compare) in Hc.
  - by rewrite (proj2 (Nat.ltb_lt _ _)) by lia.
  - rewrite (proj2 (Nat.ltb_ge _ _)), (proj2 (Nat.eqb_neq _ _)) by lia. simpl.
    rewrite bool_decide_false by (intros ->; lia). naive_solver.
Qed.

Lemma pos_from_spec p r : plain_names (BinlogFile r) (File p) →
  pos_from p r = true ↔ pos_compare p (row_pos r) ≠ Gt.
Proof.
  intros (E1 & E2 & E3 & E4 & E5). unfold pos_from. rewrite E1, E2, E3, E5. destruct p as [f a]. unfold row_pos. simpl.
  rewrite <- pos_cases, (Nat.eqb_sym (String.length f)). by rewrite (bool_decide_ext (f = BinlogFile r) (BinlogFile r = f)).
Qed.

Lemma pos_to_spec p r : plain_names (BinlogFile r) (File p) →
  pos_to p r = true ↔ pos_compare (end_pos r) p ≠ Gt.
Proof.
  intros (E1 & E2 & E3 & E4 & E5). unfold pos_to. rewrite E1, E2, E3, E4. destruct p as [f a]. unfold end_pos. simpl.
  by rewrite <- pos_cases.
Qed.

Lemma since_conds_spec flags o r s :
  forallb (λ c, holds flags c r)
    (if negb (bool_decide (o_SincePos o = None)) then [CTimeGe (CoarseSinceFloor s)]
     else [CSecondsGe (mysqlToSeconds (truncate_hour s)); CTimeGe s]) = true ↔
  (if bool_decide (o_SincePos o = None) then s else CoarseSinceFloor s) ≤ EventTimestamp r.
Proof.
  case_bool_decide; simpl; rewrite ?andb_true_r, ?andb_true_iff, ?Z.leb_le; [|done].
  split; [tauto|]. intros H'. split; [|done]. by apply Z.leb_le, seconds_hint_ge.
Qed.

Lemma cursor_of_eq r a : cursor_of r = a ↔
  (EventTimestamp r =? cur_Timestamp a) && (EventID r =? cur_EventID a)%N = true.
Proof.
  destruct a as [t i]. unfold cursor_of. simpl. rewrite andb_true_iff, Z.eqb_eq, N.eqb_eq. naive_solver.
Qed.

Lemma anchor_conds_spec flags r a :
  forallb (λ c, holds flags c r)
    [CSecondsGe (mysqlToSeconds (truncate_hour (cur_Timestamp a)));
     CSecondsLt (mysqlToSeconds (truncate_hour (cur_Timestamp a) + hour)); CAnchor a] = true ↔ cursor_of r = a.
Proof.
  rewrite cursor_of_eq. cbn [forallb holds]. rewrite andb_true_r, !andb_true_iff. split; [tauto|].
  intros [Ht Hi]. apply Z.eqb_eq in Ht as Ht'. rewrite Ht'.
  split_and!; [by apply seconds_hint_ge|by apply seconds_hint_lt|by apply Z.eqb_eq|done].
Qed.

Lemma after_conds_spec flags r c :
  forallb (λ c, holds flags c r) [CSecondsGe (mysqlToSeconds (truncate_hour (cur_Timestamp c))); CAfter c] = true ↔
  After (cursor_of r) c = true.
Proof.
  change (holds flags (CAfter c) r) with (holds [] (CAfter c) r). cbn [forallb].
  change (holds flags (CAfter c) r) with (holds [] (CAfter c) r). rewrite after_sql, andb_true_r, andb_true_iff.
  split; [tauto|]. intros H. split; [|done]. apply After_time in H. by apply seconds_hint_ge.
Qed.

Lemma before_conds_spec flags r c :
  forallb (λ c, holds flags c r) [CSecondsLt (mysqlToSeconds (truncate_hour (cur_Timestamp c) + hour)); CBefore c] = true ↔
  After c (cursor_of r) = true.
Proof.
  cbn [forallb].
  change (holds flags (CBefore c) r) with (holds [] (CBefore c) r). rewrite before_sql, andb_true_r, andb_true_iff.
  split; [tauto|]. intros H. split; [|done]. apply After_time in H. by apply seconds_hint_lt.
Qed.

Lemma column_conds_spec flags r eqs :
  forallb (λ c, holds flags c r) (column_cond <$> eqs) = true ↔ Forall (column_matches r) eqs.
Proof.
  induction eqs as [|ce eqs IH]; [done|]. rewrite fmap_cons, Forall_cons. cbn [forallb]. rewrite andb_true_iff, IH.
  f_equiv. unfold column_cond, column_matches.
  destruct (IsSafeColumnName (ce_Column ce)); simpl; [|naive_solver]. destruct (ce_IsNull ce); naive_solver.
Qed.

Lemma deny_conds_spec flags r ts :
  forallb (λ c, holds flags c r) (CDeny <$> ts) = true ↔
  Forall (λ t, ¬ (coll_eq (SchemaName r) (st_Schema t) = true ∧ coll_eq (TableName r) (st_Table t) = true)) ts.
Proof.
  induction ts as [|t ts IH]; [done|]. rewrite fmap_cons, Forall_cons. cbn [forallb]. rewrite andb_true_iff, IH.
  f_equiv. simpl. rewrite negb_true_iff, <- not_true_iff_false, andb_true_iff. done.
Qed.

Lemma allow_conds_spec flags r ts :
  forallb (λ c, holds flags c r) (if (0 <? length ts)%nat then [CAllow ts] else []) = true ↔
  ts = [] ∨ {| st_Schema := SchemaName r; st_Table := TableName r |} ∈ ts.
Proof.
  destruct (decide (ts = [])) as [->|Hn]; [naive_solver|].
  rewrite (proj2 (Nat.ltb_lt 0 _)) by (destruct ts; simpl; [done|lia]). simpl. rewrite andb_true_r, existsb_elem.
  setoid_rewrite andb_true_iff. setoid_rewrite bool_decide_eq_true. split.
  - intros ([s t] & Hin & Es & Et). right. simpl in *. by rewrite Es, Et.
  - intros [?|Hin]; [done|]. by eexists.
Qed.

Lemma flag_conds_spec flags o r :
  forallb (λ c, holds flags c r) (on_set (o_Flag o) [CFlag (o_Flag o)]) = true ↔
  (o_Flag o = "" ∨ ∃ s t g, (s, t, g) ∈ flags ∧ coll_eq s (SchemaName r) = true ∧ coll_eq t (TableName r) = true
                            ∧ coll_eq g (o_Flag o) = true).
Proof.
  rewrite on_set_holds. f_equiv. simpl. rewrite andb_true_r, existsb_elem. split.
  - intros ([[s t] g] & Hin & H). rewrite !andb_true_iff in H. naive_solver.
  - intros (s & t & g & Hin & H1 & H2 & H3). exists (s, t, g). by rewrite H1, H2, H3.
Qed.

Lemma optional_text_spec (m : option string) g :
  match m with Some x => coll_eq x g | None => false end = true ↔ ∃ x, m = Some x ∧ coll_eq x g = true.
Proof. destruct m; naive_solver. Qed.

(** The conjuncts of an optional field hold when its meaning does. *)
Lemma on_some_iff {A} (h : cond → bool) (m : option A) k (Q : A → Prop) :
  (∀ a, m = Some a → (forallb h (k a) = true ↔ Q a)) →
  forallb h (on_some m k) = true ↔ ∀ a, m = Some a → Q a.
Proof. intros H. rewrite on_some_holds. split; intros H' a Ha; apply (H a Ha); auto. Qed.

(** C13: The WHERE clause keeps exactly the rows the options name. Its
    hour-aligned TO_SECONDS hints, the digest beside a key and the three cases of
    a position test drop and add nothing: a row passes every conjunct when its
    schema, table and key are the ones asked for, its time, position and id are
    inside the bounds and the cursors, and its columns, digest, flag and access
    rules match; an unsafe column name matches no row. *)
Theorem buildWhere_admits flags o r : plain_files o r → matches flags o r = true ↔ admits flags o r.
Proof.
  intros [Hs Hu]. unfold matches, where_conds, admits.
  repeat (rewrite forallb_app, andb_true_iff).
  assert (∀ P P' Q Q' : Prop, (P ↔ P') → (Q ↔ Q') → (P ∧ Q ↔ P' ∧ Q')) as Hand by tauto.
  repeat apply Hand; clear Hand.
  all: rewrite ?column_conds_spec, ?deny_conds_spec, ?allow_conds_spec, ?flag_conds_spec, ?key_conds_spec,
    ?range_conds_spec, ?on_set_holds; try done.
  all: try (apply on_some_iff; intros a Ha).
  all: try (by first [apply since_conds_spec|apply anchor_conds_spec|apply after_conds_spec|apply before_conds_spec]).
  all: simpl; rewrite ?andb_true_r, ?optional_text_spec, ?bool_decide_eq_true, ?N.eqb_eq; try done.
  - destruct (IsLSN a); simpl; rewrite andb_true_r; [by rewrite N.leb_le|by apply pos_from_spec, Hs].
  - destruct (N.ltb_spec 0 (o_SinceEventID o)); simpl; [rewrite andb_true_r, N.ltb_lt|]; [naive_solver lia|].
    split; [|done]. intros _. left. lia.
  - rewrite andb_true_iff, Z.leb_le. split; [tauto|]. intros H. split; [|done]. by apply seconds_hint_lt.
  - destruct (IsLSN a); simpl; rewrite andb_true_r; [by rewrite N.leb_le|by apply pos_to_spec, Hu].
Qed.
End spec.

(** ** Placeholders and values *)

(** The number of placeholders of a text. *)
Definition placeholders (s : string) : nat := count_byte "?" s.

Lemma count_byte_app c s t : count_byte c (s +:+ t) = (count_byte c s + count_byte c t)%nat.
Proof. induction s as [|d s IH]; simpl; [done|]. rewrite IH. lia. Qed.

Lemma placeholders_app s t : placeholders (s +:+ t) = (placeholders s + placeholders t)%nat.
Proof. apply count_byte_app. Qed.

(** A text without the byte's class has none of it. *)
Lemma placeholders_none p s : p "?"%char = false → str_forall p s = true → placeholders s = 0%nat.
Proof.
  intros Hp. unfold placeholders. induction s as [|c s IH]; [done|]. simpl. rewrite andb_true_iff. intros [Hc Hs].
  rewrite IH by done. destruct (decide ("?"%char = c)) as [<-|]; [|done]. by rewrite Hp in Hc.
Qed.

Lemma placeholders_fixed w n : placeholders (fixed w n) = 0%nat.
Proof.
  revert n; induction w as [|w IH]; intros n; [done|]. simpl fixed. rewrite placeholders_app, IH.
  apply (placeholders_none is_digit); [done|]. simpl. by rewrite is_digit_digit by apply mod10_lt.
Qed.

Lemma placeholders_decimal z : placeholders (decimal z) = 0%nat.
Proof.
  unfold decimal, pad. destruct (z <? 0); [rewrite placeholders_app|]; rewrite placeholders_fixed; reflexivity.
Qed.

Lemma placeholders_safe col : IsSafeColumnName col = true → placeholders col = 0%nat.
Proof. unfold IsSafeColumnName. case_bool_decide; [done|]. by apply placeholders_none. Qed.

Lemma placeholders_concat (sep : string) {A} (x : string) (l : list A) : placeholders sep = 0%nat →
  placeholders (String.concat sep ((λ _, x) <$> l)) = (placeholders x * length l)%nat.
Proof.
  intros Hs. induction l as [|a l IH]; [simpl; by rewrite Nat.mul_0_r|]. rewrite fmap_cons, concat_cons.
  destruct l as [|b l]; [simpl; lia|]. rewrite fmap_cons in *. rewrite !placeholders_app, Hs, IH.
  rewrite !length_cons. lia.
Qed.

Lemma placeholders_range p : placeholders (mysql_pred_sql p) = 0%nat.
Proof.
  destruct p as [|[]|[] n|[] n]; try reflexivity; unfold mysql_pred_sql; rewrite !placeholders_app, placeholders_decimal;
    reflexivity.
Qed.

(** A conjunct of [where_conds] only inlines safe column names. *)
Definition inlines_safe (c : cond) : Prop :=
  match c with CColNull col | CColEq col _ => IsSafeColumnName col = true | _ => True end.

(** Counts the placeholders of literal text. *)
Ltac count_literals :=
  repeat match goal with
  | |- context [placeholders (String ?c ?s)] =>
      let n := eval vm_compute in (placeholders (String c s)) in change (placeholders (String c s)) with n
  end.

Lemma cond_sql_placeholders needle c : inlines_safe c →
  placeholders (cond_sql needle c).1 = length (cond_sql needle c).2.
Proof.
  destruct c; cbn [cond_sql fst snd inlines_safe]; intros Hc; try reflexivity.
  all: rewrite ?placeholders_app, ?placeholders_range, ?placeholders_decimal, ?(placeholders_safe _ Hc),
    ?placeholders_concat by reflexivity; try reflexivity.
  - rewrite length_app, !length_fmap. count_literals. lia.
  - unfold json_path. rewrite !placeholders_app, (placeholders_safe _ Hc). reflexivity.
  - unfold json_path. rewrite !placeholders_app, (placeholders_safe _ Hc). reflexivity.
  - count_literals. rewrite Nat.add_0_r, Nat.add_0_l.
    rewrite length_join. induction ts as [|t ts IH]; [done|]. rewrite length_cons, !fmap_cons.
    change (2 * S (length ts) = 2 + sum_list (length <$> ((λ t : SchemaTable, [AStr (st_Schema t); AStr (st_Table t)]) <$> ts)))%nat.
    rewrite <- IH. lia.
Qed.

Lemma where_conds_safe o : Forall inlines_safe (where_conds o).
Proof.
  unfold where_conds, on_set. repeat (apply Forall_app; split).
  all: try (by unfold on_some; repeat case_match; repeat constructor).
  - destruct (o_PKRange o); simpl; [|constructor]. by apply Forall_fmap, Forall_true.
  - apply Forall_fmap, Forall_true. intros ce. simpl. unfold column_cond.
    destruct (IsSafeColumnName (ce_Column ce)) eqn:E; simpl; [|done]. by destruct (ce_IsNull ce).
  - by apply Forall_fmap, Forall_true.
Qed.

Definition sum_placeholders (ws : list string) : nat := sum_list (placeholders <$> ws).

(** The WHERE text never lets a value into it: whatever the options hold,
    each conjunct has exactly as many placeholders as it binds values, so the
    value of every filter is bound where it belongs, and the only text of the
    caller that is inlined, a column name, is made of letters, digits and
    underscores. *)
Theorem buildWhere_binds needle o :
  let '(ws, args) := buildWhere needle o in
  sum_placeholders ws = length args ∧
  Forall2 (λ w c, placeholders w = length (cond_sql needle c).2 ∧ inlines_safe c) ws (where_conds o).
Proof.
  unfold buildWhere. pose proof (where_conds_safe o) as H. induction H as [|c cs Hc Hcs [IH1 IH2]]; [by split|].
  simpl. split.
  - rewrite length_app. unfold sum_placeholders in *. simpl. rewrite (cond_sql_placeholders _ _ Hc). simpl in IH1.
    by f_equal.
  - constructor; [|done]. split; [by apply cond_sql_placeholders|done].
Qed.

(** ** A server for the examples

    Text compared without case; digests in hexadecimal, which are not. *)
#[export] Instance ci_mysql : MySQL := {|
  my_casts := sample_casts;
  coll_eq := equal_fold;
  coll_lt s t := String.ltb (to_lower s) (to_lower t);
  char_length := String.length;
  sha2_256 s := to_upper (hex_encode s);
  json_unquote := format_v;
  scan_order l := reverse l |}.

Lemma upper_lower s : to_upper (to_lower s) = to_upper s.
Proof.
  unfold to_upper, to_lower. induction s as [|c s IH]; simpl; [done|]. rewrite IH. f_equal.
  apply (Ascii.eqb_eq _ _), (forall_bytes (λ c, Ascii.eqb (upper_byte (lower_byte c)) (upper_byte c))).
  vm_compute. reflexivity.
Qed.

Lemma upper_byte_idem c : upper_byte (upper_byte c) = upper_byte c.
Proof.
  apply (Ascii.eqb_eq _ _), (forall_bytes (λ c, Ascii.eqb (upper_byte (upper_byte c)) (upper_byte c))).
  vm_compute. reflexivity.
Qed.

Lemma upper_idem s : to_upper (to_upper s) = to_upper s.
Proof. unfold to_upper. induction s as [|c s IH]; simpl; [done|]. by rewrite IH, upper_byte_idem. Qed.

#[export] Instance ci_mysql_laws : MySQLLaws ci_mysql.
Proof.
  split; simpl; unfold equal_fold; [apply _| | | | |].
  - intros s. by apply bool_decide_eq_true.
  - intros s t. rewrite !bool_decide_eq_true. congruence.
  - intros s t u. rewrite !bool_decide_eq_true. congruence.
  - intros s t. rewrite bool_decide_eq_true. intros H. apply upper_hex_inj.
    rewrite <- (upper_idem (hex_encode s)), <- (upper_idem (hex_encode t)).
    rewrite <- (upper_lower (to_upper (hex_encode s))), <- (upper_lower (to_upper (hex_encode t))). by rewrite H.
  - apply reverse_Permutation.
Qed.

(** The row 7 of table [T] is asked for by its key and table, in another case. *)
Definition where_row : ResultRow := {|
  EventID := 4; BinlogFile := "bin.000002"; StartPos := 90; EndPos := 120; EventTimestamp := 63844844400 * second;
  GTID := None; ConnectionID := None; SchemaName := "shop"; TableName := "T"; EventType := EventUpdate;
  PKValues := "7"; RowChangedColumns := ["a"]; RowBefore := None; RowAfter := Some {["a" := VString "x"]};
  SchemaVersion := 0; QueryText := None; QueryHash := None; CommitTsUS := None; KeySpanFirst := ""; KeySpanLast := "" |}.
Definition where_opts : Options := {|
  o_Schema := "shop"; o_Table := "t"; o_PKValues := "7"; o_PKValuesAlt := ""; o_PKValuesIn := []; o_PKAliases := [];
  o_PKRange := None; o_EventType := None; o_GTID := ""; o_Since := Some (63844844400 * second); o_Until := None;
  o_UntilPos := None; o_SincePos := Some {| File := "bin.000002"; Pos := 90 |}; o_SinceEventID := 0;
  o_ArchivesCheckedThrough := None; o_sinceSettled := false; o_AfterEvent := None; o_EventAnchor := None;
  o_BeforeEvent := None; o_ExtraArchiveHours := []; o_ChangedColumn := "a"; o_QueryHash := "";
  o_ColumnEq := [{| ce_Column := "a"; ce_Value := "x"; ce_IsNull := false |}]; o_Flag := ""; o_Limit := 0;
  o_LimitPerPK := 0; o_LatestPerPKCandidates := false; o_Order := ""; o_DenyTables := []; o_RedactColumns := [];
  o_AllowTables := []; o_AllowColumns := []; o_ProfileActive := false |}.

Lemma buildWhere_admits_witness : plain_files where_opts where_row ∧ admits [] where_opts where_row.
Proof.
  assert (plain_files where_opts where_row) as Hp.
  { split; intros p [= <-]. repeat split; vm_compute; reflexivity. }
  split; [exact Hp|]. apply (buildWhere_admits [] where_opts where_row Hp). vm_compute. reflexivity.
Defined.
