(* ===== verification/QueryFetch.v ===== *)
(** * One read of the live index: [internal/query/query.go], [newest.go]

    The statement of a read as text and as a function of the table, the
    newest-first walk over the partitions, redaction and [Engine.Fetch]. The
    table is data; a walk sees the listings and the snapshot it is given. *)
From S2P Require Import Prelude GoStrings GoText GoTime GoVal Event Rows Merge TopN PkRange PositionFloor QueryWhere.

Open Scope Z_scope.

(** ** The statement *)

(** [partitionClause] ([positionfloor.go]). *)
Definition backtick : ascii := "`".
Definition partitionClause (names : list string) : string :=
  match names with
  | [] | "" :: _ => ""
  | _ => " PARTITION (" +:+ String.concat ", " ((λ n, "`" +:+ replace_byte backtick "``" n +:+ "`") <$> names) +:+ ")"
  end.

Definition isStreamShape (o : Options) : bool :=
  negb (bool_decide (o_Schema o = "")) && negb (bool_decide (o_Table o = "")) &&
  negb (bool_decide (o_Since o = None)) && negb (bool_decide (o_SincePos o = None)) &&
  (0 <? o_Limit o) && (o_LimitPerPK o =? 0) &&
  bool_decide (o_PKValues o = "") && (length (o_PKValuesIn o) =? 0)%nat &&
  match o_PKRange o with None => true | Some _ => false end &&
  bool_decide (o_EventAnchor o = None) && bool_decide (o_BeforeEvent o = None) &&
  bool_decide (OrderDirection (o_Order o) = "ASC").

Definition resultColumns : list string :=
  ["event_id"; "binlog_file"; "start_pos"; "end_pos"; "event_timestamp"; "gtid"; "connection_id"; "schema_name";
   "table_name"; "event_type"; "pk_values"; "changed_columns"; "row_before"; "row_after"; "schema_version";
   "query_text"; "query_hash"; "commit_ts_us"].
Definition columns_of (prefix : string) : string := String.concat ", " ((λ c, prefix +:+ c) <$> resultColumns).

Definition mysqlKeySpanFile : string :=
  "CAST(CONCAT(LPAD(LENGTH(COALESCE(binlog_file, '')), 4, '0'), COALESCE(binlog_file, '')) AS BINARY)".
Definition mysqlKeySpanCoord : string :=
  "CAST(CONCAT(LPAD(LENGTH(COALESCE(binlog_file, '')), 4, '0'), COALESCE(binlog_file, ''), LPAD(COALESCE(start_pos, 0), 20, '0')) AS BINARY)".

Definition order_by (dir : string) : string := " ORDER BY event_timestamp " +:+ dir +:+ ", event_id " +:+ dir +:+ " LIMIT ?".
Definition where_text (ws : list string) : string :=
  if (0 <? length ws)%nat then " WHERE " +:+ String.concat " AND " ws else "".
Definition join_keys (cols keys : string) : string :=
  "SELECT " +:+ cols +:+ " FROM binlog_events AS be JOIN (" +:+ keys +:+
  ") AS k ON be.event_id = k.event_id AND be.event_timestamp = k.event_timestamp".

(** The text and values of the statement. *)
Definition assembleQuery (o : Options) (partitions : list string) (ws : list string) (args : list arg) : string * list arg :=
  let dir := OrderDirection (o_Order o) in
  let whereSQL := where_text ws in
  if isStreamShape o then
    ("SELECT " +:+ columns_of "" +:+ " FROM binlog_events FORCE INDEX (idx_row_lookup)" +:+ whereSQL +:+ order_by dir,
     args ++ [AInt (o_Limit o)])
  else
    let '(keys, args) :=
      if 0 <? o_LimitPerPK o then
        let args := args ++ [AInt (o_LimitPerPK o)] in
        let '(rank, span, filter, args) :=
          if o_LatestPerPKCandidates o then
            (", ROW_NUMBER() OVER (PARTITION BY pk_values ORDER BY event_id DESC) AS bt_rn_id"
               +:+ ", MIN(" +:+ mysqlKeySpanFile +:+ ") OVER (PARTITION BY pk_values) AS bt_kf"
               +:+ ", MAX(" +:+ mysqlKeySpanCoord +:+ ") OVER (PARTITION BY pk_values) AS bt_kc",
             ", bt_kf, bt_kc", "bt_rn <= ? OR bt_rn_id <= ?", args ++ [AInt (o_LimitPerPK o)])
          else ("", "", "bt_rn <= ?", args) in
        ("SELECT event_id, event_timestamp" +:+ span +:+ " FROM ("
           +:+ "SELECT event_id, event_timestamp, ROW_NUMBER() OVER (PARTITION BY pk_values"
           +:+ " ORDER BY event_timestamp DESC, event_id DESC) AS bt_rn" +:+ rank +:+ " FROM binlog_events" +:+ whereSQL
           +:+ ") AS w WHERE " +:+ filter, args)
      else ("SELECT event_id, event_timestamp FROM binlog_events" +:+ partitionClause partitions +:+ whereSQL, args) in
    let '(keys, args) :=
      if 0 <? o_Limit o then (keys +:+ order_by dir, args ++ [AInt (o_Limit o)]) else (keys, args) in
    let cols := if (0 <? o_LimitPerPK o) && o_LatestPerPKCandidates o
                then columns_of "be." +:+ ", k.bt_kf, k.bt_kc" else columns_of "be." in
    (join_keys cols keys, args).

Definition buildQueryIn (needle : string → string) (o : Options) (partitions : list string) : string * list arg :=
  let '(ws, args) := buildWhere needle o in assembleQuery o partitions ws args.

(** ** What the statement returns *)

(** [LPAD(s, n, '0')] cuts a longer text. *)
Definition lpad (n : nat) (s : string) : string := str_take n (String.concat "" (replicate (n - String.length s) "0") +:+ s).
Definition sql_span_file (r : ResultRow) : string :=
  lpad 4 (pad 0 (N.of_nat (String.length (BinlogFile r)))) +:+ BinlogFile r.
Definition sql_span_coord (r : ResultRow) : string := sql_span_file r +:+ lpad 20 (pad 0 (StartPos r)).

(** [MIN] and [MAX] of bytes. *)
Definition min_text (l : list string) : string :=
  match l with [] => "" | x :: l => foldl (λ m y, if String.ltb y m then y else m) x l end.
Definition max_text (l : list string) : string := foldl (λ m y, if String.ltb m y then y else m) "" l.

Section statement.
Context `{M : MySQL}.

(** The rows of [rows] whose key the collation equates with [r]'s. *)
Definition same_key (rows : list ResultRow) (r : ResultRow) : list ResultRow :=
  filter (λ r', coll_eq (PKValues r') (PKValues r) = true) rows.

(** [ROW_NUMBER() OVER (PARTITION BY pk_values ORDER BY ... DESC)], from 0. *)
Definition rank_in (cmp : ResultRow → ResultRow → comparison) (rows : list ResultRow) (r : ResultRow) : nat :=
  length (filter (λ r', cmp r r' = Lt) (same_key rows r)).

Definition per_key (o : Options) (rows : list ResultRow) : list ResultRow :=
  let n := Z.to_nat (o_LimitPerPK o) in
  let kept := filter (λ r, (rank_in compareStatementTime rows r < n)%nat
                           ∨ (o_LatestPerPKCandidates o = true ∧ (rank_in compareEventID rows r < n)%nat)) rows in
  if o_LatestPerPKCandidates o then
    (λ r, with_span r (min_text (sql_span_file <$> same_key rows r)) (max_text (sql_span_coord <$> same_key rows r)))
      <$> kept
  else kept.

(** The rows the key query names: the WHERE clause, the cap of each key, the
    order and the limit. *)
Definition key_rows (flags : list flagRow) (o : Options) (rows : list ResultRow) : list ResultRow :=
  let kept := filter (λ r, matches flags o r = true) rows in
  let kept := if 0 <? o_LimitPerPK o then per_key o kept else kept in
  if 0 <? o_Limit o then top (merge_compare (o_Order o)) (Z.to_nat (o_Limit o)) kept else kept.

(** The statement over the table's rows; only the stream shape is ordered. *)
Definition run_query (flags : list flagRow) (o : Options) (rows : list ResultRow) : list ResultRow :=
  if isStreamShape o then key_rows flags o rows else scan_order (key_rows flags o rows).

Definition sortResults (rows : list ResultRow) (dir : string) : list ResultRow := sort_by (merge_compare dir) rows.

(** ** Redaction *)

(** The row's table is in the allow list. *)
Definition allow_listed (allow : list SchemaTableColumn) (r : ResultRow) : bool :=
  existsb (λ a, bool_decide (stc_Schema a = SchemaName r) && bool_decide (stc_Table a = TableName r)) allow.

Definition hidden (redact allow : list SchemaTableColumn) (r : ResultRow) (col : string) : bool :=
  if bool_decide ({| stc_Schema := SchemaName r; stc_Table := TableName r; stc_Column := col |} ∈ redact) then true
  else if allow_listed allow r
  then negb (bool_decide ({| stc_Schema := SchemaName r; stc_Table := TableName r; stc_Column := col |} ∈ allow))
  else false.

Definition redact_image (hide : string → bool) (image : option Row) : option Row :=
  match image with
  | Some m => Some (map_imap (λ col v, Some (if hide col then VNil else v)) m)
  | None => None
  end.

(** The names that stay in [ChangedColumns]; nil and the empty list are one. *)
Definition redact_names (redact allow : list SchemaTableColumn) (r : ResultRow) : list string :=
  if allow_listed allow r || (0 <? length redact)%nat
  then filter (λ col, hidden redact allow r col = false) (RowChangedColumns r) else RowChangedColumns r.

Definition redact_row (redact allow : list SchemaTableColumn) (r : ResultRow) : ResultRow := {|
  EventID := EventID r; BinlogFile := BinlogFile r; StartPos := StartPos r; EndPos := EndPos r;
  EventTimestamp := EventTimestamp r; GTID := GTID r; ConnectionID := ConnectionID r;
  SchemaName := SchemaName r; TableName := TableName r; EventType := EventType r;
  PKValues := PKValues r; RowChangedColumns := redact_names redact allow r;
  RowBefore := redact_image (hidden redact allow r) (RowBefore r);
  RowAfter := redact_image (hidden redact allow r) (RowAfter r);
  SchemaVersion := SchemaVersion r; QueryText := None; QueryHash := None; CommitTsUS := CommitTsUS r;
  KeySpanFirst := KeySpanFirst r; KeySpanLast := KeySpanLast r |}.

Definition applyRedaction (rows : list ResultRow) (redact allow : list SchemaTableColumn) : list ResultRow :=
  redact_row redact allow <$> rows.

(** A redacted row shows a hidden column neither by value nor by name. *)
Lemma applyRedaction_hides rows redact allow r col : r ∈ applyRedaction rows redact allow → hidden redact allow r col = true →
  QueryText r = None ∧ (col ∉ RowChangedColumns r) ∧
  ∀ m v, RowBefore r = Some m ∨ RowAfter r = Some m → m !! col = Some v → v = VNil.
Proof.
  intros (r0 & -> & _)%list_elem_of_fmap Hh. change (hidden redact allow r0 col = true) in Hh. split; [done|]. split.
  - simpl. unfold redact_names. destruct (_ || _) eqn:E; [intros [H _]%list_elem_of_filter; by rewrite Hh in H|].
    apply orb_false_iff in E as [Ea Er]. unfold hidden in Hh. rewrite Ea in Hh. destruct redact as [|c redact]; [|done].
    rewrite bool_decide_false in Hh by apply not_elem_of_nil. done.
  - intros m v Hm Hv. assert (∀ image, redact_image (hidden redact allow r0) image = Some m → v = VNil) as H; [|destruct Hm as [Hm|Hm]; exact (H _ Hm)].
    intros [i|] [= <-]. rewrite map_lookup_imap in Hv. destruct (i !! col); [|done]. simpl in Hv. rewrite Hh in Hv. by injection Hv.
Qed.

(** ** The newest-first walk *)

Definition newestWalkAttempts : nat := 3.
Definition newestBranchTables : nat := 64.
Definition newestMaxPlaceholders : nat := Z.to_nat 60000.

Definition newestWalkEligible (o : Options) : bool :=
  (0 <? o_Limit o) && bool_decide (OrderDirection (o_Order o) = "DESC") &&
  (o_LimitPerPK o =? 0) && negb (o_LatestPerPKCandidates o) &&
  (bool_decide (o_Schema o = "") || bool_decide (o_Table o = "")) &&
  bool_decide (o_PKValues o = "") && (length (o_PKValuesIn o) =? 0)%nat &&
  match o_PKRange o with None => true | Some _ => false end &&
  bool_decide (o_GTID o = "") && bool_decide (o_EventAnchor o = None) && columnEqSafe (o_ColumnEq o).

(** A row of [information_schema.PARTITIONS] for [binlog_events]. *)
Record partitionInfo := { pi_name : string; pi_method : string; pi_expr : string; pi_sub : bool; pi_desc : string }.

Record eventPartitions := { names : list string; uppers : option (list Z) }.

Definition maxInt64 : Z := 2 ^ 63 - 1.
Definition minInt64 : Z := - 2 ^ 63.

(** The loop of [listEventPartitions]: names, bounds, byTime, boundsKnown. *)
Definition list_step (st : list string * list Z * bool * bool) (p : partitionInfo) : list string * list Z * bool * bool :=
  let '(ns, us, byTime, known) := st in
  let byTime := if pi_sub p || negb (has_prefix (to_upper (pi_method p)) "RANGE")
                   || negb (str_contains (to_lower (pi_expr p)) "event_timestamp") then false else byTime in
  if bool_decide (last ns = Some (pi_name p)) then (ns, us, byTime, known)
  else if bool_decide (pi_desc p = "MAXVALUE") then (ns ++ [pi_name p], us ++ [maxInt64], byTime, known)
  else
    let known := match atoi (pi_desc p) with
                 | Some _ => if str_contains (to_lower (pi_expr p)) "to_seconds" then known else false
                 | None => false
                 end in
    (ns ++ [pi_name p], us ++ [default 0 (atoi (pi_desc p))], byTime, known).

Definition listEventPartitions (rows : list partitionInfo) : eventPartitions * bool :=
  let '(ns, us, byTime, known) := foldl list_step ([], [], true, true) rows in
  ({| names := ns; uppers := if known then Some us else None |}, byTime).

Definition newestWindow (o : Options) : Z * Z :=
  let ceil := match o_Until o with Some u => Z.min maxInt64 (mysqlToSeconds u + 1) | None => maxInt64 end in
  let ceil := match o_BeforeEvent o with Some c => Z.min ceil (mysqlToSeconds (cur_Timestamp c) + 1) | None => ceil end in
  let floor := match o_Since o with
               | Some s => mysqlToSeconds (if negb (bool_decide (o_SincePos o = None)) then CoarseSinceFloor s else s)
               | None => minInt64
               end in
  (floor, ceil).

(** [hasTypeIndex] over the visible columns of [idx_type_lookup]. *)
Definition typeIndexKey : list string := ["event_type"; "schema_name"; "table_name"; "event_timestamp"].
Definition hasTypeIndex (key : list string) : bool := bool_decide (take (length typeIndexKey) (to_lower <$> key) = typeIndexKey).

(** What a transaction of the walk reads: the partitions with their rows, and
    which indexes a FORCE INDEX can name. [sn_changed] is the server's refusal
    of a table altered since the transaction began. *)
Record snapshot := {
  sn_parts : list (string * list ResultRow);
  sn_row_index : bool;
  sn_type_index : bool;
  sn_changed : bool;
  sn_fails : bool;
}.

Definition part_rows (sn : snapshot) (name : string) : option (list ResultRow) :=
  snd <$> find (λ p, bool_decide (p.1 = name)) (sn_parts sn).

(** [SELECT DISTINCT schema_name, table_name]: one table of each group the
    collation makes. *)
Definition same_table (a b : SchemaTable) : bool := coll_eq (st_Schema a) (st_Schema b) && coll_eq (st_Table a) (st_Table b).
Definition table_of (r : ResultRow) : SchemaTable := {| st_Schema := SchemaName r; st_Table := TableName r |}.
Definition distinct_tables (rows : list ResultRow) : list SchemaTable :=
  foldl (λ ts r, if existsb (λ t, same_table t (table_of r)) ts then ts else ts ++ [table_of r]) [] rows.

(** The conditions of the listing on a row. *)
Definition listed (o : Options) (typeIdx : bool) (r : ResultRow) : bool :=
  (if typeIdx then match o_EventType o with Some t => (EventType r =? t mod 256)%N | None => true end else true) &&
  (if negb (bool_decide (o_Schema o = "")) then coll_eq (SchemaName r) (o_Schema o)
   else if negb (bool_decide (o_Table o = "")) then coll_eq (TableName r) (o_Table o) else true).

Definition partitionTables (rows : list ResultRow) (o : Options) (typeIdx : bool) : list SchemaTable :=
  distinct_tables (scan_order (filter (λ r, listed o typeIdx r = true) rows)).

Definition branchPlaceholders (tables filterArgs : nat) : nat := (tables * (3 + filterArgs) + 1)%nat.

(** The text of the branches and its values. *)
Definition buildNewestBranches (o : Options) (part : string) (tables : list SchemaTable) (ws : list string)
    (whereArgs : list arg) (typeIdx : bool) : string * list arg :=
  let filter := if (0 <? length ws)%nat then " AND " +:+ String.concat " AND " ws else "" in
  let index := if typeIdx && negb (bool_decide (o_EventType o = None)) then "idx_type_lookup" else "idx_row_lookup" in
  let from := "binlog_events" +:+ partitionClause [part] +:+ " FORCE INDEX (" +:+ index +:+ ")" in
  let branch := "(SELECT event_id, event_timestamp FROM " +:+ from +:+ " WHERE schema_name = ? AND table_name = ?"
                  +:+ filter +:+ order_by "DESC" +:+ ")" in
  let keys := "SELECT event_id, event_timestamp FROM (" +:+ String.concat " UNION ALL " ((λ _, branch) <$> tables)
                +:+ ") AS u" +:+ order_by "DESC" in
  (join_keys (columns_of "be.") keys,
   mjoin ((λ t, [AStr (st_Schema t); AStr (st_Table t)] ++ whereArgs ++ [AInt (o_Limit o)]) <$> tables) ++ [AInt (o_Limit o)]).

(** What the branches return: of each table its newest rows, of those the
    newest. *)
Definition branch_rows (flags : list flagRow) (o : Options) (rows : list ResultRow) (t : SchemaTable) : list ResultRow :=
  top (merge_compare "DESC") (Z.to_nat (o_Limit o))
    (filter (λ r, same_table (table_of r) t = true ∧ matches flags o r = true) rows).
Definition run_branches (flags : list flagRow) (o : Options) (rows : list ResultRow) (tables : list SchemaTable)
    : list ResultRow :=
  scan_order (top (merge_compare "DESC") (Z.to_nat (o_Limit o)) (mjoin (branch_rows flags o rows <$> tables))).

Inductive walkOutcome := walkDone | walkRelist | walkFallBack | walkWithoutTypeIndex.

#[export] Instance walkOutcome_eq_dec : EqDecision walkOutcome.
Proof. solve_decision. Defined.

(** A prepared statement takes at most 65,535 placeholders. *)
Definition maxPlaceholders : nat := Z.to_nat 65535.

(** The answer of one step's statement: rows, or the outcome its error is. *)
Definition step_answer (flags : list flagRow) (needle : string → string) (sn : snapshot) (o : Options) (rows : list ResultRow)
    (tables : list SchemaTable) (typeIdx : bool) : list ResultRow + walkOutcome :=
  let nargs := length (buildWhere needle o).2 in
  let byType := typeIdx && negb (bool_decide (o_EventType o = None)) in
  if (length tables <=? newestBranchTables)%nat && (branchPlaceholders (length tables) nargs <=? newestMaxPlaceholders)%nat
  then
    if negb (if byType then sn_type_index sn else sn_row_index sn)
    then inr (if byType then walkWithoutTypeIndex else walkFallBack)
    else inl (run_branches flags o rows tables)
  else if (maxPlaceholders <? nargs + 1)%nat then inr walkFallBack
  else inl (run_query flags o rows).

(** The loop over the partitions from the last back; [i] of them are left. *)
Fixpoint walk_loop (flags : list flagRow) (needle : string → string) (sn : snapshot) (o : Options) (parts : eventPartitions)
    (typeIdx : bool) (i : nat) (out : list ResultRow) (read : bool) : (list ResultRow * bool) + walkOutcome :=
  match i with
  | O => inl (out, read)
  | S i =>
      if o_Limit o <=? Z.of_nat (length out) then inl (out, read)
      else
        let '(floor, ceil) := newestWindow o in
        let part := default "" (names parts !! i) in
        let upper j := match uppers parts with Some us => us !! j | None => None end in
        if match upper i with Some u => u <=? floor | None => false end then inl (out, read)
        else if match i with O => false | S j => match upper j with Some u => ceil <=? u | None => false end end
        then walk_loop flags needle sn o parts typeIdx i out read
        else
          match (if sn_changed sn then None else part_rows sn part) with
          | None => inr walkRelist
          | Some rows =>
              match partitionTables rows o typeIdx with
              | [] => walk_loop flags needle sn o parts typeIdx i out read
              | tables =>
                  let o' := set_limit o (o_Limit o - Z.of_nat (length out)) in
                  match step_answer flags needle sn o' rows tables typeIdx with
                  | inr e => inr e
                  | inl got => walk_loop flags needle sn o parts typeIdx i (out ++ got) true
                  end
              end
          end
  end.

Definition walkNewest (flags : list flagRow) (needle : string → string) (sn : snapshot) (o : Options)
    (parts : eventPartitions) (typeIdx : bool) : list ResultRow * walkOutcome :=
  match walk_loop flags needle sn o parts typeIdx (length (names parts)) [] false with
  | inr e => ([], e)
  | inl (out, read) =>
      if negb read && negb (typeIdx && negb (bool_decide (o_EventType o = None))) then ([], walkFallBack)
      else (out, walkDone)
  end.

(** What one attempt meets: the list before, the snapshot, the list after. *)
Record attempt := { at_before : list partitionInfo; at_snap : snapshot; at_after : list partitionInfo }.

Fixpoint walk_attempts (flags : list flagRow) (needle : string → string) (o : Options) (tries : list attempt)
    (typeIdx : bool) : option (list ResultRow) + fetchErr :=
  match tries with
  | [] => inl None
  | a :: rest =>
      let '(parts, byTime) := listEventPartitions (at_before a) in
      if (length (names parts) =? 0)%nat || negb byTime then inl None
      else if sn_fails (at_snap a) then inr EServer
      else
        let '(rows, outcome) := walkNewest flags needle (at_snap a) o parts typeIdx in
        match outcome with
        | walkRelist => walk_attempts flags needle o rest typeIdx
        | walkWithoutTypeIndex => walk_attempts flags needle o rest false
        | walkFallBack => inl None
        | walkDone =>
            let again := (listEventPartitions (at_after a)).1 in
            if bool_decide (names parts = names again) && bool_decide (uppers parts = uppers again)
            then inl (Some rows) else walk_attempts flags needle o rest typeIdx
        end
  end.

(** [fetchNewestByPartition]: [None] is "run the single statement". *)
Definition fetchNewestByPartition (flags : list flagRow) (needle : string → string) (o : Options) (typeKey : list string)
    (tries : list attempt) : option (list ResultRow) + fetchErr :=
  if negb (newestWalkEligible o) then inl None
  else walk_attempts flags needle o (take newestWalkAttempts tries)
         (if bool_decide (o_EventType o = None) then false else hasTypeIndex typeKey).

(** ** [Engine.Fetch] *)

Definition floor_opts (o : Options) : fetchOpts := {|
  fo_Since := o_Since o; fo_SincePos := o_SincePos o; fo_UntilPos := o_UntilPos o;
  fo_ArchivesCheckedThrough := o_ArchivesCheckedThrough o; fo_Schema := o_Schema o; fo_Table := o_Table o;
  fo_sinceSettled := o_sinceSettled o |}.

(** The answers of the server to one fetch: the tables at the time of the
    statement, the states the floor is settled from, what a walk meets. *)
Record answers := {
  an_flags : list flagRow;
  an_rows : list ResultRow;
  an_index : indexDB;
  an_fresh : list indexDB;
  an_heads : option PartitionHeads;
  an_type_key : list string;
  an_tries : list attempt;
  an_fails : bool;
}.

Definition fetchOnce (an : answers) (o : Options) : list ResultRow + fetchErr :=
  if an_fails an then inr EServer else inl (run_query (an_flags an) o (an_rows an)).

Definition settle (an : answers) (o : Options) : Options + fetchErr :=
  match settleSince (an_index an) (an_fresh an) (floor_opts o) (an_heads an) with
  | inl (_, _, fo) => inl (set_since o (fo_Since fo) (fo_sinceSettled fo))
  | inr e => inr (EFloor e)
  end.

Definition Fetch (needle : string → string) (an : answers) (o : Options) : list ResultRow + fetchErr :=
  _ ←? validateCursor o;
  _ ←? ValidateStatementFilter o;
  _ ←? ValidatePKRange o;
  o ←? settle an o;
  walked ←? fetchNewestByPartition (an_flags an) needle o (an_type_key an) (an_tries an);
  results ←? match walked with Some rows => inl rows | None => fetchOnce an o end;
  let results := sortResults results (OrderDirection (o_Order o)) in
  inl (if RedactionActive o then applyRedaction results (o_RedactColumns o) (o_AllowColumns o) else results).
End statement.

(** ** Placeholders and values of the statements *)

Lemma placeholders_join sep ws : placeholders sep = 0%nat → placeholders (String.concat sep ws) = sum_placeholders ws.
Proof.
  intros Hs. induction ws as [|w ws IH]; [done|]. rewrite concat_cons. unfold sum_placeholders in *. simpl.
  destruct ws as [|v ws]; [simpl; lia|]. rewrite !placeholders_app, Hs, IH. done.
Qed.

Lemma placeholders_where ws : placeholders (where_text ws) = sum_placeholders ws.
Proof.
  unfold where_text. destruct ws as [|w ws]; [done|]. cbn [length Nat.ltb Nat.leb].
  rewrite placeholders_app, placeholders_join by done. count_literals. lia.
Qed.

Lemma placeholders_columns p : placeholders p = 0%nat → placeholders (columns_of p) = 0%nat.
Proof.
  intros Hp. unfold columns_of. rewrite placeholders_join by done. unfold sum_placeholders, resultColumns. simpl.
  rewrite !placeholders_app, Hp. reflexivity.
Qed.

Lemma placeholders_order dir : placeholders dir = 0%nat → placeholders (order_by dir) = 1%nat.
Proof. intros H. unfold order_by. rewrite !placeholders_app, H. reflexivity. Qed.

Lemma placeholders_dir order : placeholders (OrderDirection order) = 0%nat.
Proof. unfold OrderDirection. by case_bool_decide. Qed.

Lemma placeholders_keys cols keys : placeholders cols = 0%nat → placeholders (join_keys cols keys) = placeholders keys.
Proof. intros H. unfold join_keys. rewrite !placeholders_app, H. count_literals. lia. Qed.

Lemma assemble_binds o parts ws args q qargs : placeholders (partitionClause parts) = 0%nat →
  sum_placeholders ws = length args → assembleQuery o parts ws args = (q, qargs) → placeholders q = length qargs.
Proof.
  intros Hp H. unfold assembleQuery. pose proof (placeholders_where ws) as Hw.
  pose proof (placeholders_order _ (placeholders_dir (o_Order o))) as Ho.
  pose proof (placeholders_columns "be." eq_refl) as Hbe. pose proof (placeholders_columns "" eq_refl) as Hno.
  destruct (isStreamShape o).
  { intros [<- <-]%pair_eq. rewrite !placeholders_app, Hw, Ho, Hno, length_app, H. count_literals. simpl. lia. }
  destruct (0 <? o_LimitPerPK o), (o_LatestPerPKCandidates o), (0 <? o_Limit o); simpl andb; cbv iota zeta;
    intros [<- <-]%pair_eq;
    rewrite ?placeholders_keys by (rewrite ?placeholders_app, ?Hbe; count_literals; reflexivity);
    rewrite ?placeholders_app, ?Hw, ?Ho, ?Hp, ?length_app; count_literals;
    repeat change (placeholders "") with 0%nat; repeat change (placeholders mysqlKeySpanFile) with 0%nat;
    repeat change (placeholders mysqlKeySpanCoord) with 0%nat; simpl; lia.
Qed.

Lemma branches_bind o part tables ws args typeIdx b bargs : placeholders (partitionClause [part]) = 0%nat →
  sum_placeholders ws = length args → buildNewestBranches o part tables ws args typeIdx = (b, bargs) →
  placeholders b = length bargs ∧ length bargs = branchPlaceholders (length tables) (length args).
Proof.
  intros Hp H. unfold buildNewestBranches. intros [<- <-]%pair_eq.
  rewrite placeholders_keys by (by apply placeholders_columns). rewrite !placeholders_app, placeholders_concat by done.
  rewrite !placeholders_app. rewrite !(placeholders_order "DESC") by done. rewrite Hp.
  assert (placeholders (if (0 <? length ws)%nat then " AND " +:+ String.concat " AND " ws else "") = length args) as Hf.
  { rewrite <- H. destruct ws as [|w ws]; [done|]. cbn [length Nat.ltb Nat.leb].
    rewrite placeholders_app, placeholders_join by done. count_literals. lia. }
  rewrite Hf. assert (placeholders (if typeIdx && negb (bool_decide (o_EventType o = None)) then "idx_type_lookup" else "idx_row_lookup") = 0%nat) as ->
    by by destruct (_ && _).
  count_literals. rewrite length_app, length_join.
  assert (sum_list (length <$> ((λ t, [AStr (st_Schema t); AStr (st_Table t)] ++ args ++ [AInt (o_Limit o)]) <$> tables))
          = (length tables * (3 + length args))%nat) as ->.
  { induction tables as [|t ts IH]; [done|]. rewrite !fmap_cons.
    change (sum_list (?x :: ?l)) with (x + sum_list l)%nat. rewrite IH, !length_app, length_cons. simpl. lia. }
  unfold branchPlaceholders. simpl. lia.
Qed.

(** C21: Every statement of a read binds exactly the values it has placeholders
    for, in every shape: the stream shape, a cap per key with or without its
    candidates, a page, and the branches of the newest-first walk, whose count
    [branchPlaceholders] is the number the statement carries. *)
Theorem statements_bind needle o parts part tables typeIdx :
  placeholders (partitionClause parts) = 0%nat → placeholders (partitionClause [part]) = 0%nat →
  let '(ws, args) := buildWhere needle o in
  let '(q, qargs) := assembleQuery o parts ws args in
  let '(b, bargs) := buildNewestBranches o part tables ws args typeIdx in
  placeholders q = length qargs ∧
  placeholders b = length bargs ∧
  length bargs = branchPlaceholders (length tables) (length args).
Proof.
  intros Hp Hp'. pose proof (buildWhere_binds needle o) as H. destruct (buildWhere needle o) as [ws args].
  destruct H as [H _]. destruct (assembleQuery o parts ws args) as [q qargs] eqn:E.
  destruct (buildNewestBranches _ _ _ _ _ _) as [b bargs] eqn:Eb. split_and!.
  - by apply (assemble_binds o parts ws args q qargs).
  - by apply (branches_bind o part tables ws args typeIdx b bargs) in Eb as [??].
  - by apply (branches_bind o part tables ws args typeIdx b bargs) in Eb as [??].
Qed.

Lemma statements_bind_witness :
  placeholders (partitionClause ["p1"; "p2"]) = 0%nat ∧
  let '(ws, args) := buildWhere (λ c, c) where_opts in
  let '(q, qargs) := assembleQuery where_opts ["p1"; "p2"] ws args in
  let '(b, bargs) := buildNewestBranches where_opts "p1" [{| st_Schema := "shop"; st_Table := "T" |}] ws args false in
  placeholders q = length qargs ∧ placeholders b = length bargs ∧ length bargs = branchPlaceholders 1 (length args).
Proof.
  split; [vm_compute; reflexivity|].
  exact (statements_bind (λ c, c) where_opts ["p1"; "p2"] "p1" [{| st_Schema := "shop"; st_Table := "T" |}] false
           eq_refl eq_refl).
Defined.
