(* ===== verification/NewestWalk.v ===== *)
(** * The newest-first walk answers as the single statement does

    The theorems of [QueryFetch]: a walk over the partitions from the newest
    back, one index scan per table, gives the page the one statement over the
    whole table gives. *)
From S2P Require Import Prelude GoStrings GoText GoTime GoVal Event Rows Merge TopN PkRange PositionFloor QueryWhere QueryFetch.

Open Scope Z_scope.

Abbreviation newest_first := (merge_compare "DESC").

(** Finds a conjunct in the list. *)
Ltac in_list :=
  match goal with
  | |- _ ∈ _ ++ _ => rewrite elem_of_app; first [left; in_list|right; in_list]
  | |- _ ∈ _ :: _ => first [by left|right; in_list]
  end.
Ltac in_where :=
  unfold where_conds, on_set, on_some;
  repeat match goal with H : _ = Some _ |- _ => rewrite H end;
  repeat match goal with H : _ = None |- _ => rewrite H end;
  repeat match goal with H : _ ≠ _ |- _ => rewrite (bool_decide_false _ H) end;
  rewrite ?(bool_decide_true (None = None)) by done; cbn [negb]; in_list.

Section walk.
Context `{M : MySQL, L : !MySQLLaws M} (flags : list flagRow).

(** The rows a read keeps of a list. *)
Definition kept (o : Options) (rows : list ResultRow) : list ResultRow := filter (λ r, matches flags o r = true) rows.

Lemma matches_cond o r c : c ∈ where_conds o → matches flags o r = true → holds flags c r = true.
Proof. unfold matches. rewrite forallb_forall. setoid_rewrite <- list_elem_of_In. auto. Qed.

Lemma matches_schema o r : o_Schema o ≠ "" → matches flags o r = true → coll_eq (SchemaName r) (o_Schema o) = true.
Proof. intros Hs. apply (matches_cond o r (CSchema (o_Schema o))). in_where. Qed.

Lemma matches_table o r : o_Table o ≠ "" → matches flags o r = true → coll_eq (TableName r) (o_Table o) = true.
Proof. intros Hs. apply (matches_cond o r (CTable (o_Table o))). in_where. Qed.

Lemma matches_type o r t : o_EventType o = Some t → matches flags o r = true → (EventType r =? t mod 256)%N = true.
Proof. intros Ht. apply (matches_cond o r (CType (t mod 256))). in_where. Qed.

Lemma matches_listed o typeIdx r : matches flags o r = true → listed o typeIdx r = true.
Proof.
  intros Hm. unfold listed. apply andb_true_iff. split.
  - destruct typeIdx; [|done]. destruct (o_EventType o) eqn:E; [|done]. by eapply matches_type.
  - case_bool_decide; simpl; [|by apply matches_schema]. case_bool_decide; simpl; [done|by apply matches_table].
Qed.

(** A row outside the window of the walk does not match. *)
Lemma matches_floor o r : matches flags o r = true → (newestWindow o).1 ≤ mysqlToSeconds (EventTimestamp r) ∨ o_Since o = None.
Proof.
  intros Hm. unfold newestWindow. simpl. destruct (o_Since o) as [s|] eqn:Es; [left|by right].
  case_bool_decide as Ep; simpl.
  - pose proof (matches_cond o r (CTimeGe s)) as H. apply seconds_mono, Z.leb_le, H; [|done].
    in_where.
  - pose proof (matches_cond o r (CTimeGe (CoarseSinceFloor s))) as H. apply seconds_mono, Z.leb_le, H; [|done].
    in_where.
Qed.

Lemma matches_ceil o r : matches flags o r = true →
  mysqlToSeconds (EventTimestamp r) < (newestWindow o).2 ∨ (newestWindow o).2 = maxInt64.
Proof.
  intros Hm. unfold newestWindow. simpl.
  assert (∀ u, o_Until o = Some u → mysqlToSeconds (EventTimestamp r) < mysqlToSeconds u + 1) as Hu.
  { intros u Eu. pose proof (matches_cond o r (CTimeLe u)) as H. specialize (H ltac:(in_where) Hm). simpl in H.
    apply Z.leb_le, seconds_mono in H. lia. }
  assert (∀ c, o_BeforeEvent o = Some c → mysqlToSeconds (EventTimestamp r) < mysqlToSeconds (cur_Timestamp c) + 1) as Hb.
  { intros c Ec. pose proof (matches_cond o r (CBefore c)) as H. specialize (H ltac:(in_where) Hm).
    change (holds flags (CBefore c) r) with (holds [] (CBefore c) r) in H. rewrite before_sql in H.
    apply After_time, seconds_mono in H. simpl in H. lia. }
  destruct (o_Until o) as [u|], (o_BeforeEvent o) as [c|];
    try specialize (Hu _ eq_refl); try specialize (Hb _ eq_refl); lia.
Qed.

(** ** The branches *)

Lemma same_table_sym a b : same_table a b = true → same_table b a = true.
Proof. unfold same_table. rewrite !andb_true_iff. intros [??]. split; by apply coll_eq_sym. Qed.

Lemma same_table_trans a b c : same_table a b = true → same_table b c = true → same_table a c = true.
Proof. unfold same_table. rewrite !andb_true_iff. intros [??] [??]. split; by eapply coll_eq_trans. Qed.

Lemma same_table_refl a : same_table a a = true.
Proof. unfold same_table. by rewrite !coll_eq_refl. Qed.

(** No two of the tables are one group. *)
Definition apart_tables : list SchemaTable → Prop := ForallOrdPairs (λ a b, same_table a b = false).

Lemma distinct_tables_spec rows : apart_tables (distinct_tables rows) ∧
  (∀ r, r ∈ rows → ∃ t, t ∈ distinct_tables rows ∧ same_table t (table_of r) = true).
Proof.
  unfold distinct_tables. induction rows as [|r rows [IH1 IH2]] using rev_ind; [split; [constructor|set_solver]|].
  rewrite foldl_app. simpl. set (ts := foldl _ [] rows) in *.
  destruct (existsb (λ t, same_table t (table_of r)) ts) eqn:E.
  - split; [done|]. intros r'. rewrite elem_of_app, list_elem_of_singleton. intros [?| ->]; [auto|].
    apply existsb_elem in E as (t & ? & ?). eauto.
  - split.
    + clear IH2. induction IH1 as [|t ts Ht Hts IH]; [repeat constructor|]. simpl in E. apply orb_false_iff in E as [E1 E2].
      simpl. constructor; [|by apply IH]. apply Forall_app. split; [done|]. by repeat constructor.
    + intros r'. rewrite elem_of_app, list_elem_of_singleton. intros [Hr| ->].
      * destruct (IH2 r' Hr) as (t & ? & ?). exists t. split; [|done]. apply elem_of_app. by left.
      * exists (table_of r). split; [|apply same_table_refl]. apply elem_of_app. right. by left.
Qed.

Lemma told_apart_rows order (rows : list ResultRow) : NoDup (EventID <$> rows) → told_apart (merge_compare order) rows.
Proof. intros Hnd x y Hx Hy H%merge_compare_id. by eapply NoDup_id_inj. Qed.

Lemma NoDup_ids (rows : list ResultRow) : NoDup (EventID <$> rows) → NoDup rows.
Proof. apply NoDup_fmap_1. Qed.

Lemma kept_ids o rows : NoDup (EventID <$> rows) → NoDup (EventID <$> kept o rows).
Proof. intros H. eapply sublist_NoDup; [exact H|]. apply fmap_sublist, sublist_filter. Qed.

(** The union of one index scan per table is the newest of the partition. *)
Lemma run_branches_top o rows tables : NoDup (EventID <$> rows) → apart_tables tables →
  (∀ r, r ∈ kept o rows → ∃ t, t ∈ tables ∧ same_table (table_of r) t = true) →
  run_branches flags o rows tables ≡ₚ top newest_first (Z.to_nat (o_Limit o)) (kept o rows).
Proof.
  intros Hnd Hap Hcov. unfold run_branches. rewrite scan_order_perm. set (n := Z.to_nat (o_Limit o)).
  set (group t := filter (λ r, same_table (table_of r) t = true ∧ matches flags o r = true) rows).
  assert (∀ t, NoDup (group t)) as Hg by (intros t; apply NoDup_filter, NoDup_ids, Hnd).
  erewrite (top_union newest_first (kept o rows) (group <$> tables)); [done|..].
  - by apply told_apart_rows, kept_ids.
  - by apply NoDup_ids, kept_ids.
  - apply Forall_fmap, Forall_true. intros t. split; [apply Hg|]. intros r. unfold group, kept. simpl.
    rewrite !list_elem_of_filter. tauto.
  - intros r Hr. destruct (Hcov r Hr) as (t & Ht & Es). exists (group t). split; [by apply list_elem_of_fmap_2|].
    unfold group, kept in *. rewrite list_elem_of_filter in Hr |- *. tauto.
  - clear Hcov. induction Hap as [|t ts Ht Hts IH]; [constructor|]. simpl. apply NoDup_app. split_and!.
    + apply top_NoDup, Hg.
    + intros r Hr%top_sub Hin. apply list_elem_of_join in Hin as (l & Hl & Hlin).
      apply list_elem_of_fmap in Hlin as (t' & -> & Ht'). apply top_sub in Hl.
      rewrite list_elem_of_filter in Hr, Hl. rewrite Forall_forall in Ht. specialize (Ht t' Ht').
      destruct Hr as [[Hr _] _], Hl as [[Hl _] _]. apply same_table_sym in Hr.
      by rewrite (same_table_trans _ _ _ Hr Hl) in Ht.
    + apply IH.
  - intros r. rewrite list_elem_of_join. split.
    + intros (l & Hl & (t & -> & Ht)%list_elem_of_fmap). exists (group t). split; [by apply list_elem_of_fmap_2|done].
    + intros (p & (t & -> & Ht)%list_elem_of_fmap & Hp). exists (branch_rows flags o rows t).
      split; [done|by apply list_elem_of_fmap_2].
Qed.

(** The single statement of a fetch that can walk. *)
Lemma eligible_query o rows : newestWalkEligible o = true →
  run_query flags o rows ≡ₚ top newest_first (Z.to_nat (o_Limit o)) (kept o rows).
Proof.
  intros El. unfold newestWalkEligible in El. rewrite !andb_true_iff in El.
  destruct El as [[[[[[[[[[Hl Hd%bool_decide_eq_true] Hp%Z.eqb_eq] _] _] _] _] _] _] _] _].
  unfold run_query, isStreamShape. rewrite Hd. rewrite (bool_decide_false ("DESC" = "ASC")), andb_false_r by done.
  rewrite scan_order_perm. unfold key_rows. rewrite Hp, Hl. simpl.
  assert (merge_compare (o_Order o) = newest_first) as -> by (unfold merge_compare; by rewrite Hd). done.
Qed.
(** One step reads the newest rows of its partition. *)
Lemma step_answer_top needle sn o rows typeIdx got : NoDup (EventID <$> rows) → newestWalkEligible o = true →
  step_answer flags needle sn o rows (partitionTables rows o typeIdx) typeIdx = inl got →
  got ≡ₚ top newest_first (Z.to_nat (o_Limit o)) (kept o rows).
Proof.
  intros Hnd Hel. unfold step_answer.
  destruct (_ && _).
  - destruct (negb _); [done|]. intros [= <-]. apply run_branches_top; [done|apply distinct_tables_spec|].
    intros r Hr. unfold kept in Hr. apply list_elem_of_filter in Hr as [Hm Hr].
    destruct (distinct_tables_spec (scan_order (filter (λ r, listed o typeIdx r = true) rows))) as [_ H].
    destruct (H r) as (t & Ht & Es); [|exists t; split; [done|by apply same_table_sym]].
    rewrite scan_order_perm. apply list_elem_of_filter. split; [by apply matches_listed|done].
  - destruct (_ <? _)%nat; [done|]. intros [= <-]. by apply eligible_query.
Qed.

(** ** The walk *)

(** RANGE partitions of event_timestamp, as listed: each row is in the partition
    of its time. *)
Record walk_table (sn : snapshot) (parts : eventPartitions) : Prop := {
  wt_names : (sn_parts sn).*1 = names parts;
  wt_distinct : NoDup (names parts);
  wt_ids : NoDup (EventID <$> mjoin (sn_parts sn).*2);
  wt_order i j p q r r' : (i < j)%nat → sn_parts sn !! i = Some p → sn_parts sn !! j = Some q →
    r ∈ p.2 → r' ∈ q.2 → EventTimestamp r < EventTimestamp r';
  wt_sorted us : uppers parts = Some us → StronglySorted Z.lt us ∧ length us = length (names parts);
  wt_below us i p r u : uppers parts = Some us → sn_parts sn !! i = Some p → r ∈ p.2 → us !! i = Some u →
    mysqlToSeconds (EventTimestamp r) < u;
  wt_above us i p r u : uppers parts = Some us → sn_parts sn !! S i = Some p → r ∈ p.2 → us !! i = Some u →
    u ≤ mysqlToSeconds (EventTimestamp r);
  wt_times r : r ∈ mjoin (sn_parts sn).*2 → minInt64 ≤ mysqlToSeconds (EventTimestamp r) < maxInt64;
}.

Definition all_rows (sn : snapshot) : list ResultRow := mjoin (sn_parts sn).*2.
Definition older (sn : snapshot) (i : nat) : list ResultRow := mjoin (take i (sn_parts sn)).*2.
Definition newer (sn : snapshot) (i : nat) : list ResultRow := mjoin (drop i (sn_parts sn)).*2.

Lemma join_fmap_app {A B} (f : A → list B) (l k : list A) : mjoin (f <$> l ++ k) = mjoin (f <$> l) ++ mjoin (f <$> k).
Proof. rewrite fmap_app. apply join_app. Qed.

Lemma all_split sn i : all_rows sn = older sn i ++ newer sn i.
Proof. unfold all_rows, older, newer. rewrite <- (take_drop i (sn_parts sn)) at 1. apply join_fmap_app. Qed.

Lemma newer_step sn i p : sn_parts sn !! i = Some p → newer sn i = p.2 ++ newer sn (S i).
Proof. intros H. unfold newer. by rewrite (drop_S _ _ _ H). Qed.

Lemma elem_of_newer sn i r : r ∈ newer sn i ↔ ∃ j p, (i ≤ j)%nat ∧ sn_parts sn !! j = Some p ∧ r ∈ p.2.
Proof.
  unfold newer. rewrite list_elem_of_join. split.
  - intros (l & Hr & (p & -> & Hp)%list_elem_of_fmap). apply list_elem_of_lookup in Hp as (j & Hj).
    rewrite lookup_drop in Hj. exists (i + j)%nat, p. split_and!; [lia|done..].
  - intros (j & p & Hij & Hp & Hr). exists p.2. split; [done|]. apply list_elem_of_fmap_2.
    apply list_elem_of_lookup. exists (j - i)%nat. rewrite lookup_drop. by replace (i + (j - i))%nat with j by lia.
Qed.

Lemma elem_of_older sn i r : r ∈ older sn i ↔ ∃ j p, (j < i)%nat ∧ sn_parts sn !! j = Some p ∧ r ∈ p.2.
Proof.
  unfold older. rewrite list_elem_of_join. split.
  - intros (l & Hr & (p & -> & Hp)%list_elem_of_fmap). apply elem_of_take in Hp as (j & Hj & Hlt). eauto 10.
  - intros (j & p & Hij & Hp & Hr). exists p.2. split; [done|]. apply list_elem_of_fmap_2.
    apply elem_of_take. eauto.
Qed.

Lemma kept_app o l k : kept o (l ++ k) = kept o l ++ kept o k.
Proof. apply filter_app. Qed.

Lemma kept_none o l : (∀ r, r ∈ l → matches flags o r = false) → kept o l = [].
Proof. intros H. apply filter_none. intros r Hr. by rewrite H. Qed.

(** The page of older rows and newer ones: the newer first. *)
Lemma top_kept o n a b : NoDup (EventID <$> a ++ b) →
  (∀ r r', r ∈ a → r' ∈ b → EventTimestamp r < EventTimestamp r') →
  top newest_first n (kept o (a ++ b)) =
  top newest_first n (kept o b) ++ top newest_first (n - length (top newest_first n (kept o b))) (kept o a).
Proof.
  intros Hnd Hlt. pose proof (kept_ids o _ Hnd) as Hk. rewrite kept_app in *.
  assert (told_apart newest_first (kept o b ++ kept o a)) as Ht.
  { apply told_apart_rows. by rewrite (comm (++)). }
  rewrite (top_perm newest_first n _ (kept o b ++ kept o a)); [|by apply told_apart_rows|apply Permutation_app_comm].
  apply top_app; [apply _|done|]. intros x y Hx Hy. unfold kept in Hx, Hy.
  apply list_elem_of_filter in Hx as [_ Hx], Hy as [_ Hy]. specialize (Hlt y x Hy Hx).
  unfold merge_compare, compareStatementTime, cmp_or. simpl.
  rewrite (proj2 (Z.compare_gt_iff _ _)) by lia. done.
Qed.

Section loop.
Context (needle : string → string) (sn : snapshot) (o : Options) (parts : eventPartitions) (typeIdx : bool).
Context (T : walk_table sn parts) (El : newestWalkEligible o = true).

Abbreviation page l := (top newest_first (Z.to_nat (o_Limit o)) (kept o l)).

Lemma part_lookup i p : sn_parts sn !! i = Some p → part_rows sn (default "" (names parts !! i)) = Some p.2.
Proof.
  intros Hp. rewrite <- (wt_names _ _ T). rewrite list_lookup_fmap, Hp. simpl. unfold part_rows.
  pose proof (wt_distinct _ _ T) as Hd. rewrite <- (wt_names _ _ T) in Hd. clear T El.
  revert i Hp. induction (sn_parts sn) as [|q l IH]; intros i Hp; [done|]. simpl in *.
  apply NoDup_cons in Hd as [Hq Hd]. destruct i as [|i]; simpl in Hp.
  - injection Hp as ->. by rewrite bool_decide_true.
  - rewrite bool_decide_false; [by eapply IH|]. intros E. apply Hq. rewrite E. apply list_elem_of_fmap_2.
    by eapply list_elem_of_lookup_2.
Qed.

Lemma older_newer i r r' : r ∈ older sn i → r' ∈ newer sn i → EventTimestamp r < EventTimestamp r'.
Proof.
  intros (j & p & Hj & Hp & Hr)%elem_of_older (k & q & Hk & Hq & Hr')%elem_of_newer.
  eapply (wt_order _ _ T j k); [lia|done..].
Qed.

Lemma all_ids i : NoDup (EventID <$> older sn i ++ newer sn i).
Proof. rewrite <- all_split. apply (wt_ids _ _ T). Qed.

Lemma newer_ids i : NoDup (EventID <$> newer sn i).
Proof. pose proof (all_ids i) as H. rewrite fmap_app in H. apply NoDup_app in H. tauto. Qed.

(** Where no row of the older partitions matches, the page is complete. *)
Lemma page_complete i : (∀ r, r ∈ older sn i → matches flags o r = false) → page (all_rows sn) = page (newer sn i).
Proof. intros H. by rewrite (all_split sn i), kept_app, (kept_none o (older sn i)) by done. Qed.

Lemma page_full i : (Z.to_nat (o_Limit o) ≤ length (page (newer sn i)))%nat → page (all_rows sn) = page (newer sn i).
Proof.
  intros H. rewrite (all_split sn i), top_kept; [|apply all_ids|apply older_newer].
  replace (Z.to_nat (o_Limit o) - _)%nat with 0%nat by lia. unfold top at 2. by rewrite app_nil_r.
Qed.

(** The page after one more partition. *)
Lemma page_step i p out got : sn_parts sn !! i = Some p → out ≡ₚ page (newer sn (S i)) →
  got ≡ₚ top newest_first (Z.to_nat (o_Limit o) - length out) (kept o p.2) → out ++ got ≡ₚ page (newer sn i).
Proof.
  intros Hp Hout Hgot. rewrite (newer_step sn i p Hp).
  rewrite top_kept.
  - rewrite Hout at 1. apply Permutation_app_head. rewrite Hgot. by rewrite <- Hout.
  - rewrite <- (newer_step sn i p Hp). apply newer_ids.
  - intros r r' Hr (k & q & Hk & Hq & Hr')%elem_of_newer. eapply (wt_order _ _ T i k); [lia|done..].
Qed.

(** A partition the walk passes or stops at has no row of the window. *)
Lemma skip_floor i us u : uppers parts = Some us → us !! i = Some u → u ≤ (newestWindow o).1 →
  ∀ r, r ∈ older sn (S i) → matches flags o r = false.
Proof.
  intros Hu Hi Hle r (j & p & Hj & Hp & Hr)%elem_of_older. destruct (matches flags o r) eqn:Hm; [|done]. exfalso.
  destruct (wt_sorted _ _ T us Hu) as [Hs Hlen].
  assert (∃ v, us !! j = Some v ∧ v ≤ u) as (v & Hv & Hvu).
  { destruct (decide (j = i)) as [->|]; [by exists u|]. destruct (lookup_lt_is_Some_2 us j) as [v Hv].
    { apply lookup_lt_Some in Hi. lia. }
    exists v. split; [done|]. pose proof (StronglySorted_lookup_lt _ _ _ _ _ _ Hs Hv Hi). lia. }
  pose proof (wt_below _ _ T us j p r v Hu Hp Hr Hv).
  assert (r ∈ mjoin (sn_parts sn).*2) as Hall.
  { apply list_elem_of_join. exists p.2. split; [done|]. apply list_elem_of_fmap_2. by eapply list_elem_of_lookup_2. }
  pose proof (wt_times _ _ T r Hall). destruct (matches_floor o r Hm) as [?|E]; [lia|].
  unfold newestWindow in Hle. rewrite E in Hle. simpl in Hle. lia.
Qed.

Lemma skip_ceil i us u p : uppers parts = Some us → us !! i = Some u → (newestWindow o).2 ≤ u →
  sn_parts sn !! S i = Some p → kept o p.2 = [].
Proof.
  intros Hu Hi Hle Hp. apply kept_none. intros r Hr. destruct (matches flags o r) eqn:Hm; [|done]. exfalso.
  pose proof (wt_above _ _ T us i p r u Hu Hp Hr Hi).
  assert (r ∈ mjoin (sn_parts sn).*2) as Hall.
  { apply list_elem_of_join. exists p.2. split; [done|]. apply list_elem_of_fmap_2. by eapply list_elem_of_lookup_2. }
  pose proof (wt_times _ _ T r Hall). destruct (matches_ceil o r Hm) as [?|E]; lia.
Qed.

Lemma skip_empty i p out : sn_parts sn !! i = Some p → kept o p.2 = [] → out ≡ₚ page (newer sn (S i)) →
  out ≡ₚ page (newer sn i).
Proof. intros Hp Hk Ho. by rewrite (newer_step sn i p Hp), kept_app, Hk. Qed.

Lemma no_tables_none p : partitionTables p o typeIdx = [] → kept o p = [].
Proof.
  intros E. apply kept_none. intros r Hr. destruct (matches flags o r) eqn:Hm; [|done].
  destruct (distinct_tables_spec (scan_order (filter (λ r, listed o typeIdx r = true) p))) as [_ H].
  destruct (H r) as (t & Ht & _); [|unfold partitionTables in E; rewrite E in Ht; by apply elem_of_nil in Ht].
  rewrite scan_order_perm. apply list_elem_of_filter. split; [by apply matches_listed|done].
Qed.

(** The loop keeps the page of the partitions it has read. *)
Lemma walk_loop_page i out read out' read' : (i ≤ length (names parts))%nat → out ≡ₚ page (newer sn i) →
  walk_loop flags needle sn o parts typeIdx i out read = inl (out', read') → out' ≡ₚ page (all_rows sn).
Proof.
  assert (0 < o_Limit o) as Hlim.
  { unfold newestWalkEligible in El. rewrite !andb_true_iff in El. apply Z.ltb_lt. tauto. }
  revert out read. induction i as [|i IH]; intros out read Hi Hout; cbn [walk_loop].
  { intros [= <- <-]. by rewrite Hout, (page_complete 0) by (intros r (?&?&?&_)%elem_of_older; lia). }
  destruct (Z.leb_spec (o_Limit o) (Z.of_nat (length out))) as [Hfull|Hmore].
  { intros [= <- <-]. rewrite Hout, (page_full (S i)); [done|]. rewrite <- Hout. lia. }
  destruct (newestWindow o) as [floor ceil] eqn:Ew.
  destruct (lookup_lt_is_Some_2 (sn_parts sn) i) as [p Hp].
  { rewrite <- (length_fmap fst), (wt_names _ _ T). lia. }
  destruct (match uppers parts with Some us => us !! i | None => None end) as [u|] eqn:Eu.
  1: destruct (Z.leb_spec u floor) as [Hfl|_].
  { destruct (uppers parts) as [us|] eqn:Eus; [|done]. intros [= <- <-].
    rewrite Hout, (page_complete (S i)); [done|]. eapply (skip_floor i us u); [done..|by rewrite Ew]. }
  all: destruct (match i with O => false | S j => _ end) eqn:Ec.
  1,3: destruct i as [|j]; [done|]; destruct (uppers parts) as [us|] eqn:Eus; [|done];
    destruct (us !! j) as [v|] eqn:Ev; [|done]; apply Z.leb_le in Ec; apply IH; [lia|];
    eapply skip_empty; [done|eapply (skip_ceil j us v); [done..|by rewrite Ew|done]|done].
  all: destruct (sn_changed sn); [done|]; rewrite (part_lookup i p Hp).
  all: destruct (partitionTables p.2 o typeIdx) as [|t ts] eqn:Et;
    [apply IH; [lia|]; eapply skip_empty; [done|by apply no_tables_none|done]|rewrite <- Et].
  all: destruct (step_answer _ _ _ _ _ _ _) as [got|] eqn:Ea; [|done].
  all: apply IH; [lia|]; apply (page_step i p); [done..|].
  all: change (kept o p.2) with (kept (set_limit o (o_Limit o - Z.of_nat (length out))) p.2).
  all: replace (Z.to_nat (o_Limit o) - length out)%nat with (Z.to_nat (o_Limit (set_limit o (o_Limit o - Z.of_nat (length out)))))
         by (simpl; lia).
  all: eapply step_answer_top; [| |exact Ea].
  1,3: pose proof (newer_ids i) as Hn; rewrite (newer_step sn i p Hp), fmap_app in Hn; apply NoDup_app in Hn; tauto.
  all: revert El; unfold newestWalkEligible; simpl; rewrite (proj2 (Z.ltb_lt 0 (o_Limit o - _))) by lia;
    by rewrite (proj2 (Z.ltb_lt 0 (o_Limit o))) by lia.
Qed.

Lemma step_answer_not_done o' rows tables e : step_answer flags needle sn o' rows tables typeIdx = inr e → e ≠ walkDone.
Proof. unfold step_answer. repeat case_match; intros [= <-]; done. Qed.

Lemma walk_loop_not_done i out read e : walk_loop flags needle sn o parts typeIdx i out read = inr e → e ≠ walkDone.
Proof.
  clear T El. revert out read. induction i as [|i IH]; intros out read; cbn [walk_loop]; [done|].
  destruct (_ <=? _); [done|]. destruct (newestWindow o).
  destruct (match match uppers parts with Some us => us !! i | None => None end with Some _ => _ | None => _ end); [done|].
  destruct (match i with O => _ | S j => _ end); [apply IH|].
  destruct (if sn_changed sn then None else _); [|by intros [= <-]].
  destruct (partitionTables _ _ _); [apply IH|].
  destruct (step_answer _ _ _ _ _ _ _) eqn:E; [apply IH|]. intros [= <-]. by eapply step_answer_not_done.
Qed.

(** A walk that is done has the page. *)
Lemma walkNewest_page out : walkNewest flags needle sn o parts typeIdx = (out, walkDone) → out ≡ₚ page (all_rows sn).
Proof.
  unfold walkNewest. destruct (walk_loop _ _ _ _ _ _ _ _ _) as [[out' read']|e] eqn:E; [|intros [= _ He]].
  - destruct (negb read' && _); [intros [= _]|intros [= <-]].
    apply (walk_loop_page (length (names parts)) [] false out' read'); [done| |done].
    unfold newer. rewrite drop_ge; [unfold top; simpl; by rewrite take_nil|]. by rewrite <- (wt_names _ _ T), length_fmap.
  - by apply walk_loop_not_done in E.
Qed.
End loop.

End walk.

(** ** Fetch *)

(** The server answered every statement, from one state of the table: a list of
    partitions that is the same after a walk as before is the list the walk's
    transaction saw. *)
Record steady (an : answers) : Prop := {
  sd_up : an_fails an = false;
  sd_ids : NoDup (EventID <$> an_rows an);
  sd_tries a : a ∈ an_tries an → sn_fails (at_snap a) = false;
  sd_table a : a ∈ an_tries an → (listEventPartitions (at_before a)).1 = (listEventPartitions (at_after a)).1 →
    walk_table (at_snap a) (listEventPartitions (at_before a)).1 ∧ all_rows (at_snap a) ≡ₚ an_rows an;
}.

(** The same answers to a server that does not walk. *)
Definition single (an : answers) : answers := {|
  an_flags := an_flags an; an_rows := an_rows an; an_index := an_index an; an_fresh := an_fresh an;
  an_heads := an_heads an; an_type_key := an_type_key an; an_tries := []; an_fails := an_fails an |}.

Section fetch.
Context `{M : MySQL, L : !MySQLLaws M}.

Lemma walk_attempts_page an needle o typeIdx tries : steady an → newestWalkEligible o = true → tries ⊆ an_tries an →
  match walk_attempts (an_flags an) needle o tries typeIdx with
  | inl None => True
  | inl (Some rows) => rows ≡ₚ run_query (an_flags an) o (an_rows an)
  | inr _ => False
  end.
Proof.
  intros S El. revert typeIdx. induction tries as [|a tries IH]; intros typeIdx Hin; simpl; [done|].
  assert (a ∈ an_tries an) as Ha by (apply Hin; by left).
  assert (tries ⊆ an_tries an) as Hin' by (intros x Hx; apply Hin; by right).
  destruct (listEventPartitions (at_before a)) as [parts byTime] eqn:Eb.
  destruct (_ || _); [done|]. rewrite (sd_tries _ S a Ha).
  destruct (walkNewest _ _ _ _ _ _) as [rows []] eqn:Ew; [|by apply IH|done|by apply IH].
  case_bool_decide as En; [|by apply IH]. case_bool_decide as Eu; simpl; [|by apply IH].
  destruct (sd_table _ S a Ha) as [T Hrows].
  { rewrite Eb. simpl. destruct parts, (listEventPartitions (at_after a)).1. simpl in *. by subst. }
  rewrite Eb in T. simpl in T. rewrite (walkNewest_page _ _ _ _ _ _ T El _ Ew), eligible_query by done.
  rewrite (top_perm newest_first _ _ (kept (an_flags an) o (an_rows an))); [done| |].
  - apply told_apart_rows, kept_ids, (wt_ids _ _ T).
  - unfold kept. by rewrite Hrows.
Qed.

(** C14: A newest-first page read partition by partition, one short index scan per
    table, is the page one statement over the whole table gives: whatever the
    filters, the time bounds that pass partitions over, the tables a partition
    holds, the listings that changed and were read again, and the order the
    server returns rows in, the fetch answers the same with the walk and
    without. *)
Theorem Fetch_newest_walk needle an o : steady an → Fetch needle an o = Fetch needle (single an) o.
Proof.
  intros S. unfold Fetch.
  destruct (validateCursor o) as [[]|]; [|done]. simpl. destruct (ValidateStatementFilter o) as [[]|]; [|done]. simpl.
  destruct (ValidatePKRange o) as [[]|]; [|done]. simpl. unfold settle. simpl.
  destruct (settleSince _ _ _ _) as [[[mv fe] fo]|e]; [|done]. simpl.
  set (o' := set_since o (fo_Since fo) (fo_sinceSettled fo)). unfold fetchNewestByPartition. simpl.
  destruct (newestWalkEligible o') eqn:El; simpl; [|done].
  pose proof (walk_attempts_page an needle o' (if bool_decide (o_EventType o' = None) then false else hasTypeIndex (an_type_key an))
    (take newestWalkAttempts (an_tries an)) S El ltac:(by apply sublist_subseteq, sublist_take)) as H.
  destruct (walk_attempts _ _ _ _ _) as [[rows|]|e]; [|done|done]. simpl.
  unfold fetchOnce. simpl. rewrite (sd_up _ S). simpl.
  enough (∀ dir, sortResults rows dir = sortResults (run_query (an_flags an) o' (an_rows an)) dir) as E by by rewrite E.
  intros dir. apply merge_sort_perm; [|done]. rewrite H, eligible_query by done.
  eapply sublist_NoDup; [|apply fmap_sublist, sublist_take]. rewrite sort_by_perm. apply kept_ids, (sd_ids _ S).
Qed.
End fetch.

(** Two hours with a row each of two tables; the page asked for is two rows. *)
Definition w_row (id : N) (t : Z) (table : string) : ResultRow := {|
  EventID := id; BinlogFile := "b.000001"; StartPos := id * 10; EndPos := id * 10 + 9; EventTimestamp := t;
  GTID := None; ConnectionID := None; SchemaName := "s"; TableName := table; EventType := EventInsert;
  PKValues := "1"; RowChangedColumns := []; RowBefore := None; RowAfter := None; SchemaVersion := 0;
  QueryText := None; QueryHash := None; CommitTsUS := None; KeySpanFirst := ""; KeySpanLast := "" |}.
Definition w_t0 : Z := 63844844400 * second.
Definition w_old : list ResultRow := [w_row 1 w_t0 "a"; w_row 2 (w_t0 + second) "b"].
Definition w_new : list ResultRow := [w_row 3 (w_t0 + hour) "B"].
Definition w_info (name desc : string) : partitionInfo :=
  {| pi_name := name; pi_method := "RANGE"; pi_expr := "to_seconds(`event_timestamp`)"; pi_sub := false; pi_desc := desc |}.
Definition w_upper : Z := mysqlToSeconds w_t0 + 3600.
Definition w_list : list partitionInfo := [w_info "p1" (decimal w_upper); w_info "p_future" "MAXVALUE"].
Definition w_attempt : attempt := {|
  at_before := w_list;
  at_snap := {| sn_parts := [("p1", w_old); ("p_future", w_new)]; sn_row_index := true; sn_type_index := true;
                sn_changed := false; sn_fails := false |};
  at_after := w_list |}.
Definition w_answers : answers := {|
  an_flags := []; an_rows := w_old ++ w_new; an_index := s_db;
  an_fresh := []; an_heads := None; an_type_key := []; an_tries := [w_attempt]; an_fails := false |}.
Definition w_opts : Options := {|
  o_Schema := "s"; o_Table := ""; o_PKValues := ""; o_PKValuesAlt := ""; o_PKValuesIn := []; o_PKAliases := [];
  o_PKRange := None; o_EventType := None; o_GTID := ""; o_Since := None; o_Until := None; o_UntilPos := None;
  o_SincePos := None; o_SinceEventID := 0; o_ArchivesCheckedThrough := None; o_sinceSettled := false;
  o_AfterEvent := None; o_EventAnchor := None; o_BeforeEvent := None; o_ExtraArchiveHours := [];
  o_ChangedColumn := ""; o_QueryHash := ""; o_ColumnEq := []; o_Flag := ""; o_Limit := 2; o_LimitPerPK := 0;
  o_LatestPerPKCandidates := false; o_Order := "desc"; o_DenyTables := []; o_RedactColumns := []; o_AllowTables := [];
  o_AllowColumns := []; o_ProfileActive := false |}.

Lemma w_parts : (listEventPartitions w_list).1 = {| names := ["p1"; "p_future"]; uppers := Some [w_upper; maxInt64] |}.
Proof. vm_compute. reflexivity. Qed.

Lemma w_steady : steady w_answers.
Proof.
  split; [done|dec_compute|by intros a ->%list_elem_of_singleton|].
  intros a ->%list_elem_of_singleton _. split; [|done]. change (at_before w_attempt) with w_list. rewrite w_parts.
  split; simpl.
  - done.
  - dec_compute.
  - dec_compute.
  - intros [|[|]] [|[|]] p q r r' Hij [= <-] [= <-]; try lia. simpl. intros Hr Hr'.
    apply elem_of_cons in Hr' as [->|Hr']; [|by apply elem_of_nil in Hr'].
    repeat (apply elem_of_cons in Hr as [->|Hr]; [vm_compute; reflexivity|]). by apply elem_of_nil in Hr.
  - intros us [= <-]. split; [|done]. repeat constructor.
  - intros us [|[|]] p r u [= <-] [= <-] Hr [= <-]; simpl in Hr;
      repeat (apply elem_of_cons in Hr as [->|Hr]; [vm_compute; reflexivity|]); by apply elem_of_nil in Hr.
  - intros us [|] p r u [= <-] [= <-] Hr [= <-]; simpl in Hr;
      repeat (apply elem_of_cons in Hr as [->|Hr]; [vm_compute; done|]); by apply elem_of_nil in Hr.
  - intros r Hr. repeat (apply elem_of_cons in Hr as [->|Hr]; [vm_compute; done|]). by apply elem_of_nil in Hr.
Qed.

Lemma Fetch_newest_walk_witness : steady w_answers ∧
  Fetch (λ c, c) w_answers w_opts = inl [w_row 3 (w_t0 + hour) "B"; w_row 2 (w_t0 + second) "b"].
Proof.
  split; [exact w_steady|]. rewrite (Fetch_newest_walk (λ c, c) w_answers w_opts w_steady). vm_compute. reflexivity.
Defined.
