(* ===== verification/LatestPK.v ===== *)
(** * The latest changes of each key in binary log order:
    [internal/query/latestperpk.go], [repick.go]

    A read that keeps the latest n changes of each key fetches two candidate
    sets, by statement time and by event id; where they differ it reads the whole
    history of the key and orders that. *)
From S2P Require Import Prelude GoStrings GoText GoTime GoVal Event Rows Merge BinlogOrder TopN PkRange PositionFloor QueryWhere.

Open Scope nat_scope.

(** ** What was decided *)

Record LatestPerPKOrder := {
  Disagreed : nat;
  lp_Sorted : nat;
  Refused : nat;
  warning : string;
  refused : option (gset string);
}.

#[export] Instance LatestPerPKOrder_eq_dec : EqDecision LatestPerPKOrder.
Proof. solve_decision. Defined.

Definition zero_order : LatestPerPKOrder :=
  {| Disagreed := 0; lp_Sorted := 0; Refused := 0; warning := ""; refused := None |}.

Definition refuse (o : LatestPerPKOrder) (pk why : string) : LatestPerPKOrder :=
  let m := default ∅ (refused o) in
  if bool_decide (pk ∈ m) then
    {| Disagreed := Disagreed o; lp_Sorted := lp_Sorted o; Refused := Refused o; warning := warning o; refused := Some m |}
  else
    {| Disagreed := Disagreed o; lp_Sorted := lp_Sorted o; Refused := S (Refused o);
       warning := if bool_decide (warning o = "") then why +:+ ". " +:+ statementTimeTail else warning o;
       refused := Some ({[pk]} ∪ m) |}.

Definition RefusedRow (pk why : string) : LatestPerPKOrder := refuse zero_order pk why.

(** [strings.ToUpper] of the first byte; the rest as it is. *)
Definition upperFirst (s : string) : string :=
  match s with "" => "" | String c s' => String (upper_byte c) s' end.

Definition LatestNote (o : LatestPerPKOrder) : string :=
  if (Refused o =? 0) then ""
  else "order of changes unproven: for " +:+ pretty (Refused o) +:+
    " row(s) the order of the changes in the binary log could not be established, so each of those rows was taken at its change with the latest statement time. A mismatch on a row that two sessions changed at once may be a false alarm. The first such row: "
    +:+ upperFirst (warning o).

Definition ReadNote (o : LatestPerPKOrder) : string :=
  if (Refused o =? 0) then ""
  else "order of changes unproven: for " +:+ pretty (Refused o) +:+
    " row(s) the order of the changes in the binary log could not be established, so each of those rows was taken at its change with the latest statement time, which may be wrong for a row two sessions changed at once. The first such row: "
    +:+ upperFirst (warning o).

(** The keys of [p] in any order of its map: the count and the set do not
    depend on it. *)
Definition Add (o p : LatestPerPKOrder) : LatestPerPKOrder :=
  let '(n, m) :=
    match refused p with
    | None => (Refused o + Refused p, refused o)
    | Some ps =>
        let m := default ∅ (refused o) in
        (Refused o + size (ps ∖ m), if bool_decide (ps = ∅) then refused o else Some (m ∪ ps))
    end in
  {| Disagreed := Disagreed o + Disagreed p; lp_Sorted := lp_Sorted o + lp_Sorted p; Refused := n;
     warning := if bool_decide (warning o = "") then warning p else warning o; refused := m |}.

(** ** Key spans *)

Definition keySpanFile (r : ResultRow) : string :=
  pad 4 (N.of_nat (String.length (BinlogFile r))) +:+ BinlogFile r.

Definition keySpanCoord (r : ResultRow) : string :=
  pad 4 (N.of_nat (String.length (BinlogFile r))) +:+ BinlogFile r +:+ pad 20 (StartPos r).

(** [None] is the panic of [s[4:4+n]] with a negative [n]. *)
Definition decodeKeySpanFile (s : string) : option string :=
  if (String.length s <? 4) then Some s
  else
    match atoi (str_take 4 s) with
    | None => Some s
    | Some n =>
        if (Z.of_nat (String.length s) <? 4 + n)%Z then Some s
        else if (n <? 0)%Z then None
        else Some (str_take (Z.to_nat n) (str_drop 4 s))
    end.

(** The rows at the indexes. *)
Definition pick (rows : list ResultRow) (idx : list nat) : list ResultRow := (rows !!!.) <$> idx.

(** The smallest first file and the largest last coordinate of the rows. *)
Definition span_of (r : ResultRow) : string * string :=
  let f := keySpanFile r in
  let c := keySpanCoord r in
  (if negb (bool_decide (KeySpanFirst r = "")) && String.ltb (KeySpanFirst r) f then KeySpanFirst r else f,
   if String.ltb c (KeySpanLast r) then KeySpanLast r else c).

Definition keySpan (rows : list ResultRow) (idx : list nat) : string * string :=
  match pick rows idx with
  | [] => ("", "")
  | r :: rest =>
      foldl (λ '(first, last) r, let '(f, c) := span_of r in
               (if String.ltb f first then f else first, if String.ltb last c then c else last)) (span_of r) rest
  end.

Definition hasCoord (rows : list ResultRow) (coord : string) : bool :=
  existsb (λ r, bool_decide (keySpanCoord r = coord)) rows.

Definition allLSN (rows : list ResultRow) : bool := forallb (λ r, has_byte slash (BinlogFile r)) rows.

(** ** Candidates *)

(** Later ids first. *)
Definition by_id_desc (rows : list ResultRow) (a b : nat) : comparison :=
  N.compare (EventID (rows !!! b)) (EventID (rows !!! a)).

Definition latestPerPKCandidates (rows : list ResultRow) (idx : list nat) (n : nat) : list ResultRow * bool :=
  if (length idx <=? n) then (pick rows idx, false)
  else
    let byTime := drop (length idx - n) idx in
    let byID := take n (sort_by (by_id_desc rows) idx) in
    let extra := filter (λ i, i ∉ byTime) byID in
    match extra with
    | [] => (pick rows byTime, false)
    | _ => (pick rows (sort_by Nat.compare (byTime ++ extra)), true)
    end.

(** [slices.MaxFunc]: the first of the rows with the largest id; it panics on
    an empty slice, which no caller passes. *)
Definition maxEventID (rows : list ResultRow) : ResultRow :=
  match rows with
  | [] => zero_row
  | r :: rest => foldl (λ m x, if (EventID m <? EventID x)%N then x else m) r rest
  end.

Definition rowRefusal (d : BinlogOrder) : string :=
  match Reason d with
  | OrderNoCoordinate =>
      "a change of this row carries no binary log position (indexed by an older build, or mixed with changes of another kind of source), so the order of its changes cannot be taken from the binary log"
  | OrderSeveralBaseNames =>
      "this row's changes come from binary logs with different names (" +:+ detail d +:+
      "): the source's binary log was renamed or the source was replaced inside this time range, and positions of different logs cannot be compared"
  | OrderIDsUnproven =>
      "this index cannot show which change of this row is the latest: " +:+ detail d +:+
      ". A restart of the source's binary log numbering (a failover, RESET MASTER) inside this time range cannot be ruled out"
  | OrderRenumbered =>
      "the binary log position of this row's changes goes down while the index's ids go up (" +:+ detail d +:+
      "): the source's binary log numbering restarted (a failover, RESET MASTER), or binary log files were indexed out of order"
  | _ => "the order of its changes could not be established"
  end.

Definition RowReason (d : BinlogOrder) : string :=
  if bool_decide (Warning d = "") then "" else rowRefusal d.

Fixpoint id_descends (rows : list ResultRow) : bool :=
  match rows with
  | a :: (b :: _) as rest => (EventID b <? EventID a)%N || id_descends rest
  | _ => false
  end.

Definition MayDiffer (d : BinlogOrder) (rows : list ResultRow) : bool :=
  if bool_decide (Warning d = "") then false
  else if negb (match Reason d with OrderNoCoordinate => true | _ => false end) then true
  else id_descends rows.

(** ** The pick *)

Inductive latestErr (E : Type) := EHistory (n : nat) (e : E) | EPanic.
Arguments EHistory {E} n e.
Arguments EPanic {E}.

(** [keys] in the order they appear, and the indexes of each. *)
Definition key_rows_of (rows : list ResultRow) (pk : string) : list nat :=
  filter (λ i, PKValues (rows !!! i) = pk) (seq 0 (length rows)).
Definition keys_of (rows : list ResultRow) : list string :=
  foldl (λ ks r, if bool_decide (PKValues r = "") || bool_decide (PKValues r ∈ ks) then ks else ks ++ [PKValues r]) [] rows.

(** A refusal's text for a key whose candidates agree. *)
Definition span_refusal (ff lf : string) : string :=
  if negb (bool_decide (ff = lf)) then
    "this index was built with `bintrail index` only and this row's changes are in more than one binary log file (" +:+ ff
    +:+ " to " +:+ lf +:+ "), so its ids follow the order the files were indexed in, which is not shown to be the order the source wrote them in"
  else
    "the change at this row's last binary log position (in " +:+ lf +:+
    ") was received by an index built with `bintrail index` only before the change kept: the file may have been indexed out of order or twice".

Definition agrees_refusal (byTime byID : ResultRow) : string :=
  if (EventID byID =? EventID byTime)%N then
    "the index received this row's changes in a different order than their binary log positions and statement times: the source's binary log numbering may have restarted between them (a failover, RESET MASTER), or binary log files were indexed out of order"
  else
    "the index received event " +:+ pad 0 (EventID byID) +:+ " (at " +:+ BinlogFile byID +:+ ":" +:+ pad 0 (StartPos byID)
    +:+ ") after event " +:+ pad 0 (EventID byTime) +:+ " (at " +:+ BinlogFile byTime +:+ ":" +:+ pad 0 (StartPos byTime)
    +:+ "), while the binary log position and the statement time both put event " +:+ pad 0 (EventID byTime)
    +:+ " last: the source's binary log numbering may have restarted between them (a failover, RESET MASTER), or binary log files were indexed out of order".

Section pick.
Context (idsFollowBinlog : option (list ResultRow → IDProof)).

Definition ask (rs : list ResultRow) : IDProof :=
  match idsFollowBinlog with Some f => f rs | None => IDsUnproven end.

(** One key whose candidates agree. *)
Definition pick_agreed (rows : list ResultRow) (idx : list nat) (pk : string) (cand byTime : list ResultRow)
    (o : LatestPerPKOrder) : option (list ResultRow * LatestPerPKOrder) :=
  let '(first, last) := keySpan rows idx in
  if negb (hasCoord byTime last) && (match ask cand with IDsFollowFileIndexing => true | _ => false end) then
    ff ← decodeKeySpanFile first; lf ← decodeKeySpanFile last;
    Some (byTime, refuse o pk (span_refusal ff lf))
  else Some (byTime, o).

(** One key whose candidates differ; [all] is its whole history. *)
Definition pick_disagreed (all : list ResultRow) (pk : string) (n : nat) (o : LatestPerPKOrder)
    : list ResultRow * LatestPerPKOrder :=
  let o := {| Disagreed := S (Disagreed o); lp_Sorted := lp_Sorted o; Refused := Refused o; warning := warning o;
              refused := refused o |} in
  let all := sort_by compareStatementTime all in
  let latestByTime := default zero_row (last all) in
  let latestByID := maxEventID all in
  let '(ordered, d) := OrderByBinlog all (Some ask) in
  match Reason d with
  | OrderSorted =>
      (lastn n ordered, {| Disagreed := Disagreed o; lp_Sorted := S (lp_Sorted o); Refused := Refused o;
                           warning := warning o; refused := refused o |})
  | OrderPostgres => (lastn n all, o)
  | OrderAgrees => (lastn n all, refuse o pk (agrees_refusal latestByTime latestByID))
  | _ => (lastn n all, refuse o pk (rowRefusal d))
  end.

Definition pick_key (rows : list ResultRow) (n : nat) (full : string → list ResultRow)
    (st : list ResultRow * LatestPerPKOrder) (pk : string) : option (list ResultRow * LatestPerPKOrder) :=
  let '(out, o) := st in
  let idx := key_rows_of rows pk in
  let '(cand, disagree) := latestPerPKCandidates rows idx n in
  let byTime := lastn n cand in
  if allLSN cand then Some (out ++ byTime, o)
  else if negb disagree then
    '(kept, o) ← pick_agreed rows idx pk cand byTime o; Some (out ++ kept, o)
  else let '(kept, o) := pick_disagreed (full pk) pk n o in Some (out ++ kept, o).

Fixpoint pick_keys (rows : list ResultRow) (n : nat) (full : string → list ResultRow) (keys : list string)
    (st : list ResultRow * LatestPerPKOrder) : option (list ResultRow * LatestPerPKOrder) :=
  match keys with
  | [] => Some st
  | pk :: rest => st ← pick_key rows n full st pk; pick_keys rows n full rest st
  end.

(** The rows are sorted in place first; [history] is [None] for a nil function. *)
Definition LatestPerPKInBinlog {E} (rows : list ResultRow) (n : Z) (history : option (list string → list ResultRow + E))
    : list ResultRow * LatestPerPKOrder + latestErr E :=
  if (n <=? 0)%Z || (length rows =? 0) then inl (rows, zero_order)
  else
    let n := Z.to_nat n in
    let rows := sort_by compareStatementTime rows in
    let keys := keys_of rows in
    let disagreeing := filter (λ pk, (latestPerPKCandidates rows (key_rows_of rows pk) n).2 = true) keys in
    hist ←? match history, disagreeing with
            | Some h, _ :: _ => match h disagreeing with inl hist => inl (Some hist) | inr e => inr (EHistory (length disagreeing) e) end
            | _, _ => inl None
            end;
    let full pk :=
      let own := pick rows (key_rows_of rows pk) in
      match hist with
      | Some hist => (MergeResultsReport (own ++ filter (λ r, PKValues r = pk) hist) 0 "ASC").1
      | None => own
      end in
    match pick_keys rows n full keys (filter (λ r, PKValues r = "") rows, zero_order) with
    | Some (out, o) => inl (sort_by compareStatementTime out, o)
    | None => inr EPanic
    end.
End pick.

(** ** [repickLatestInBinlog] *)

Definition repickBatch : nat := 500.

Inductive repickErr (E : Type) := ENotOnePerKey | ERead (e : E).
Arguments ENotOnePerKey {E}.
Arguments ERead {E} e.

(** Cut in groups of [k]; [fuel] is the length of the list, which is enough. *)
Fixpoint batches {A} (fuel k : nat) (l : list A) : list (list A) :=
  match fuel, l with
  | S fuel, _ :: _ => take k l :: batches fuel k (drop k l)
  | _, _ => []
  end.

(** [h.Limit, h.Order = 0, ""]. *)
Definition repick_opts (o : Options) : Options := {|
  o_Schema := o_Schema o; o_Table := o_Table o; o_PKValues := o_PKValues o; o_PKValuesAlt := o_PKValuesAlt o;
  o_PKValuesIn := o_PKValuesIn o; o_PKAliases := o_PKAliases o; o_PKRange := o_PKRange o; o_EventType := o_EventType o;
  o_GTID := o_GTID o; o_Since := o_Since o; o_Until := o_Until o; o_UntilPos := o_UntilPos o;
  o_SincePos := o_SincePos o; o_SinceEventID := o_SinceEventID o;
  o_ArchivesCheckedThrough := o_ArchivesCheckedThrough o; o_sinceSettled := o_sinceSettled o; o_AfterEvent := o_AfterEvent o;
  o_EventAnchor := o_EventAnchor o; o_BeforeEvent := o_BeforeEvent o; o_ExtraArchiveHours := o_ExtraArchiveHours o;
  o_ChangedColumn := o_ChangedColumn o; o_QueryHash := o_QueryHash o; o_ColumnEq := o_ColumnEq o;
  o_Flag := o_Flag o; o_Limit := 0; o_LimitPerPK := o_LimitPerPK o; o_LatestPerPKCandidates := o_LatestPerPKCandidates o;
  o_Order := ""; o_DenyTables := o_DenyTables o; o_RedactColumns := o_RedactColumns o;
  o_AllowTables := o_AllowTables o; o_AllowColumns := o_AllowColumns o; o_ProfileActive := o_ProfileActive o |}.

Definition not_found_refusal : string :=
  "this row's changes were not found by the second read, which asks for its latest change in binary log order (they left the index or its archives between the two reads)".

Section repick.
Context {E : Type} (fetch : Options → list ResultRow * LatestPerPKOrder + E).

(** One read: its decision is added, its rows of the keys asked for kept. *)
Definition repick_read (keys : list string) (st : gmap string ResultRow * LatestPerPKOrder) (h : Options)
    : gmap string ResultRow * LatestPerPKOrder + E :=
  match fetch (repick_opts h) with
  | inr e => inr e
  | inl (got, order) =>
      inl (foldl (λ m r, if bool_decide (PKValues r ∈ keys) then <[PKValues r := r]> m else m) st.1 got, Add st.2 order)
  end.

Fixpoint repick_reads (keys : list string) (st : gmap string ResultRow * LatestPerPKOrder) (hs : list Options)
    : gmap string ResultRow * LatestPerPKOrder + E :=
  match hs with
  | [] => inl st
  | h :: hs => match repick_read keys st h with inl st => repick_reads keys st hs | inr e => inr e end
  end.

Definition repick_row (latest : gmap string ResultRow) (st : list ResultRow * LatestPerPKOrder) (r : ResultRow)
    : list ResultRow * LatestPerPKOrder :=
  let '(out, total) := st in
  if bool_decide (PKValues r = "") then (out ++ [r], total)
  else match latest !! PKValues r with
       | Some l => (out ++ [l], total)
       | None => (out ++ [r], Add total (RefusedRow (PKValues r) not_found_refusal))
       end.

Definition repickLatestInBinlog (o : Options) (rows : list ResultRow) : list ResultRow * LatestPerPKOrder + repickErr E :=
  if negb (o_LimitPerPK o =? 1)%Z then inr ENotOnePerKey
  else
    let keys := keys_of rows in
    match keys with
    | [] => inl (rows, zero_order)
    | _ =>
        let hs := if (o_Limit o =? 0)%Z || (Z.of_nat (length rows) <? o_Limit o)%Z then [o]
                  else (λ b, set_keys o "" b) <$> batches (length keys) repickBatch keys in
        match repick_reads keys (∅, zero_order) hs with
        | inr e => inr (ERead e)
        | inl (latest, total) => inl (foldl (repick_row latest) ([], total) rows)
        end
    end.
End repick.
