(* ===== verification/MergeLatest.v ===== *)
(** * Latest changes per key as a set

    [rank] counts the later changes of a row's key; the per-key trim keeps the
    rows of small rank. Trimming the parts of a union first, as every source of a
    merged read does, changes nothing. *)
From S2P Require Import Prelude GoStrings GoVal Event Rows Merge TopN.

Open Scope nat_scope.

(** ** Rows of several sources *)

Definition no_span (r : ResultRow) : Prop := KeySpanFirst r = "" ∧ KeySpanLast r = "".

(** Copies of one event are one row. *)
Definition one_copy (rows : list ResultRow) : Prop :=
  ∀ r r', r ∈ rows → r' ∈ rows → EventID r = EventID r' → r = r'.

Lemma WidenKeySpan_no_span u r : no_span r → WidenKeySpan u r = u.
Proof.
  intros [H1 H2]. unfold WidenKeySpan. rewrite H1, H2. rewrite bool_decide_true by done. simpl.
  destruct u as []; unfold with_span; simpl. f_equal. by destruct KeySpanLast.
Qed.

(** Merging plain copies keeps the distinct rows. *)
Lemma merge_loop_plain rows : Forall no_span rows → one_copy rows →
  NoDup (EventID <$> (merge_loop rows).1.2) ∧ (∀ r, r ∈ (merge_loop rows).1.2 ↔ r ∈ rows).
Proof.
  intros Hn Hc. split; [eapply merge_inv_NoDup, merge_loop_inv|].
  assert (∀ r, r ∈ (merge_loop rows).1.2 → r ∈ rows) as Hsub.
  { clear Hc. unfold merge_loop. induction rows as [|r rows IH] using rev_ind; [done|].
    apply Forall_app in Hn as [Hn Hr]. rewrite Forall_singleton in Hr. specialize (IH Hn).
    rewrite foldl_app. simpl. destruct (foldl merge_step _ rows) as [[seen unique] d]. simpl in *.
    intros x. destruct (seen !! EventID r) as [i|]; simpl; rewrite !elem_of_app.
    - intros Hx. left. apply IH. rewrite list_alter_id in Hx; [done|].
      intros u. apply WidenKeySpan_no_span. exact Hr.
    - intros [Hx|Hx]; [left; auto|right; done]. }
  intros r. split; [apply Hsub|]. intros Hr.
  pose proof (MergeResults_ids rows "ASC" (EventID r)) as Hid. rewrite MergeResults_eq, !list_elem_of_fmap in Hid.
  destruct (proj2 Hid) as (u & E & Hu); [by exists r|]. rewrite elem_of_sort_by in Hu.
  rewrite (Hc r u); [done|done|by apply Hsub|done].
Qed.

(** ** Ranks *)

Abbreviation asc := (merge_compare "ASC").

(** The rows of a key. *)
Definition of_key (k : string) (rows : list ResultRow) : list ResultRow := filter (λ r, PKValues r = k) rows.

(** How many rows of the list are of [r]'s key and after it. *)
Definition rank (rows : list ResultRow) (r : ResultRow) : nat :=
  length (filter (λ r', compareStatementTime r r' = Lt) (of_key (PKValues r) rows)).

(** The last [n] of each key. *)
Definition latest (n : nat) (rows : list ResultRow) : list ResultRow := filter (λ r, rank rows r < n) rows.

Lemma asc_compare a b : asc a b = compareStatementTime a b.
Proof. done. Qed.

Lemma elem_of_latest n rows r : r ∈ latest n rows ↔ rank rows r < n ∧ r ∈ rows.
Proof. unfold latest. by rewrite list_elem_of_filter. Qed.

Lemma elem_of_key k rows r : r ∈ of_key k rows ↔ PKValues r = k ∧ r ∈ rows.
Proof. unfold of_key. by rewrite list_elem_of_filter. Qed.

Lemma rank_mono a b r : NoDup a → a ⊆ b → rank a r ≤ rank b r.
Proof.
  intros Hn Hs. apply submseteq_length, NoDup_submseteq; [by repeat apply NoDup_filter|].
  intros x. unfold of_key. rewrite !list_elem_of_filter. naive_solver.
Qed.

Lemma rank_antitone rows r r' : NoDup rows → r' ∈ rows → PKValues r = PKValues r' → compareStatementTime r r' = Lt →
  rank rows r' < rank rows r.
Proof.
  intros Hn Hr Hk Hlt. unfold rank. rewrite Hk.
  assert (r' :: filter (λ x, compareStatementTime r' x = Lt) (of_key (PKValues r') rows)
          ⊆+ filter (λ x, compareStatementTime r x = Lt) (of_key (PKValues r') rows)) as H%submseteq_length; [|done].
  apply NoDup_submseteq.
  - constructor; [|by repeat apply NoDup_filter]. rewrite list_elem_of_filter. intros [H _].
    by rewrite (cmp_refl compareStatementTime) in H.
  - intros x [->|Hx]%elem_of_cons; rewrite list_elem_of_filter; [by rewrite elem_of_key|].
    apply list_elem_of_filter in Hx as [H Hx]. split; [|done]. by eapply (cmp_lt_trans compareStatementTime).
Qed.

Lemma lastn_cons_lt {A} n (x : A) l : length l < n → lastn n (x :: l) = x :: lastn n l.
Proof. intros H. rewrite !lastn_all; simpl; [done|lia..]. Qed.

(** In a sorted list of distinct rows the last [n] are those with fewer than [n]
    after them. *)
Lemma lastn_after l n r : StronglySorted (cmp_le compareStatementTime) l → NoDup (EventID <$> l) → r ∈ l →
  r ∈ lastn n l ↔ length (filter (λ x, compareStatementTime r x = Lt) l) < n.
Proof.
  intros Hs. induction Hs as [|y l Hs IH Hy]; intros Hn Hr; [by apply elem_of_nil in Hr|].
  apply NoDup_cons in Hn as [Hny Hn]. rewrite Forall_forall in Hy.
  assert (∀ x, x ∈ l → compareStatementTime y x = Lt) as Hlt.
  { intros x Hx. specialize (Hy x Hx). unfold cmp_le in Hy. destruct (compareStatementTime y x) eqn:E; [|done|done].
    apply compareStatementTime_id in E. destruct Hny. rewrite E. by apply list_elem_of_fmap_2. }
  destruct (Nat.le_gt_cases n (length l)) as [Hle|Hgt].
  - rewrite lastn_cons_ge by done. apply elem_of_cons in Hr as [->|Hr].
    + rewrite filter_cons_False by (by rewrite (cmp_refl compareStatementTime)).
      rewrite filter_all by done. split; [|lia]. intros Hin. destruct Hny. apply list_elem_of_fmap_2.
      unfold lastn in Hin. by eapply elem_of_sublist, sublist_drop.
    + rewrite filter_cons_False; [by apply IH|]. rewrite (cmp_antisym compareStatementTime), (Hlt r Hr). done.
  - rewrite lastn_all by (simpl; lia). split; [intros _|done].
    assert (length (filter (λ x, compareStatementTime r x = Lt) (y :: l)) < length (y :: l)); [|simpl in *; lia].
    apply (length_filter_lt _ _ r Hr). by rewrite (cmp_refl compareStatementTime).
Qed.

(** ** The trim *)

Section trim.
Context (rows : list ResultRow) (Hid : NoDup (EventID <$> rows)).

Lemma rows_NoDup : NoDup rows.
Proof. by eapply NoDup_fmap_1. Qed.

Lemma rows_apart order : told_apart (merge_compare order) rows.
Proof. intros x y Hx Hy H%merge_compare_id. by eapply NoDup_id_inj. Qed.

Lemma key_ids k : NoDup (EventID <$> of_key k rows).
Proof. eapply sublist_NoDup; [exact Hid|]. apply fmap_sublist, sublist_filter. Qed.

(** A key's rows in order. *)
Lemma sort_of_key k : filter (λ r, PKValues r = k) (sort_by asc rows) = sort_by asc (of_key k rows).
Proof.
  apply sort_by_unique; [apply _| | |].
  - intros x y Hx Hy H%merge_compare_id. eapply NoDup_id_inj; [apply key_ids|done..].
  - unfold of_key. by rewrite sort_by_perm.
  - apply StronglySorted_filter, sort_by_sorted, _.
Qed.

Lemma rank_lastn n r : r ∈ rows → r ∈ lastn n (sort_by asc (of_key (PKValues r) rows)) ↔ rank rows r < n.
Proof.
  intros Hr. rewrite lastn_after.
  - unfold rank. by rewrite sort_by_perm.
  - apply (sort_by_sorted asc).
  - rewrite sort_by_perm. apply key_ids.
  - rewrite elem_of_sort_by. by apply elem_of_key.
Qed.

Lemma lastn_sub {A} n (l : list A) x : x ∈ lastn n l → x ∈ l.
Proof. intros H. unfold lastn in H. eapply elem_of_sublist; [exact H|apply sublist_drop]. Qed.

(** A key has [n] latest rows, or all it has. *)
Lemma latest_count n k : length (of_key k (latest n rows)) = n `min` length (of_key k rows).
Proof.
  rewrite <- (sort_by_length asc (of_key k rows)), <- lastn_length.
  apply Permutation_length, NoDup_Permutation.
  - by repeat apply NoDup_filter; apply rows_NoDup.
  - eapply sublist_NoDup; [|apply sublist_drop]. rewrite sort_by_perm. apply NoDup_filter, rows_NoDup.
  - intros r. rewrite elem_of_key, elem_of_latest. split.
    + intros (<- & Hlt & Hr). by apply rank_lastn.
    + intros H. pose proof (lastn_sub _ _ _ H) as Hin. rewrite elem_of_sort_by, elem_of_key in Hin.
      destruct Hin as [<- Hr]. by rewrite rank_lastn in H.
Qed.

(** A row that is not among the latest has [n] latest rows of its key after it. *)
Lemma rank_beyond n r : r ∈ rows → n ≤ rank rows r →
  n ≤ length (filter (λ x, compareStatementTime r x = Lt) (of_key (PKValues r) (latest n rows))).
Proof.
  intros Hr Hge. pose proof (latest_count n (PKValues r)) as Hc.
  assert (n ≤ length (of_key (PKValues r) rows)).
  { etrans; [exact Hge|]. apply length_filter. }
  rewrite filter_all; [lia|]. intros x [Hk [Hlt Hx]%elem_of_latest]%elem_of_key.
  destruct (compareStatementTime r x) eqn:E; [|done|].
  - apply compareStatementTime_id in E. rewrite (NoDup_id_inj rows r x) in Hge; [lia|done..].
  - apply (cmp_gt_lt compareStatementTime) in E. pose proof (rank_antitone rows x r rows_NoDup Hr Hk E). lia.
Qed.

(** The trim of the merge, as a set. *)
Lemma LimitPerPK_is_latest n : Forall (λ r, PKValues r ≠ "") rows → 0 < n →
  LimitPerPK (sort_by asc rows) (Z.of_nat n) = sort_by asc (latest n rows).
Proof.
  intros Hk Hn. rewrite Forall_forall in Hk.
  assert (NoDup (EventID <$> latest n rows)) as Hl.
  { eapply sublist_NoDup; [exact Hid|]. apply fmap_sublist, sublist_filter. }
  apply sort_by_unique; [apply _| | |].
  - intros x y Hx Hy H%merge_compare_id. by eapply NoDup_id_inj.
  - apply NoDup_Permutation.
    + eapply sublist_NoDup; [|apply LimitPerPK_sublist]. rewrite sort_by_perm. apply rows_NoDup.
    + by eapply NoDup_fmap_1.
    + intros r. destruct (decide (r ∈ rows)) as [Hr|Hr].
      * rewrite elem_of_latest, <- rank_lastn by done.
        destruct (LimitPerPK_latest (sort_by asc rows) (Z.of_nat n) (PKValues r)) as (H & _ & _); [lia|].
        rewrite Nat2Z.id in H.
        assert (∀ l, l ⊆ rows → filter (λ x, pk_bucket x = PKValues r) l = filter (λ x, PKValues x = PKValues r) l) as Hb.
        { intros l Hl'. apply filter_iff_in. intros x Hx. unfold pk_bucket. rewrite bool_decide_false by (apply Hk; auto). done. }
        rewrite !Hb in H.
        -- rewrite sort_of_key in H. rewrite <- H, list_elem_of_filter. naive_solver.
        -- intros x. by rewrite elem_of_sort_by.
        -- intros x Hx. eapply elem_of_sublist in Hx; [|apply LimitPerPK_sublist]. by rewrite elem_of_sort_by in Hx.
      * split; [|rewrite elem_of_latest; tauto]. intros Hx. eapply elem_of_sublist in Hx; [|apply LimitPerPK_sublist].
        by rewrite elem_of_sort_by in Hx.
  - eapply StronglySorted_sublist; [apply LimitPerPK_sublist|apply sort_by_sorted, _].
Qed.
End trim.

(** ** Trimmed parts of a union *)

Abbreviation desc := (merge_compare "DESC").

Lemma latest_ids n rows : NoDup (EventID <$> rows) → NoDup (EventID <$> latest n rows).
Proof. intros H. eapply sublist_NoDup; [exact H|]. apply fmap_sublist, sublist_filter. Qed.

Lemma in_top m n rows r : NoDup (EventID <$> rows) → r ∈ latest n rows →
  r ∈ top desc m (latest n rows) ↔ length (filter (λ x, desc x r = Lt) (latest n rows)) < m.
Proof.
  intros Hid Hr. apply top_count; [apply _|by apply rows_apart, latest_ids|by apply rows_NoDup, latest_ids|done].
Qed.

Section union.
Context (all part : list ResultRow) (Ha : NoDup (EventID <$> all)) (Hp : NoDup (EventID <$> part)) (Hs : part ⊆ all).

(** What is among the latest of the whole is among the latest of a part. *)
Lemma latest_part n r : r ∈ latest n all → r ∈ part → r ∈ latest n part.
Proof.
  rewrite !elem_of_latest. intros [Hr _] Hin. split; [|done].
  pose proof (rank_mono part all r (rows_NoDup _ Hp) Hs). lia.
Qed.

(** A part that has the latest rows has the same latest rows. *)
Lemma latest_squeeze n : latest n all ⊆ part → ∀ r, r ∈ latest n part ↔ r ∈ latest n all.
Proof.
  intros Hl r. split; [|intros Hr; apply latest_part; auto].
  rewrite !elem_of_latest. intros [Hr Hin]. split; [|auto].
  destruct (decide (rank all r < n)) as [|Hge]; [done|exfalso].
  pose proof (rank_beyond all Ha n r (Hs _ Hin) ltac:(lia)) as Hb.
  assert (length (filter (λ x, compareStatementTime r x = Lt) (of_key (PKValues r) (latest n all))) ≤ rank part r); [|lia].
  apply submseteq_length, NoDup_submseteq; [by repeat apply NoDup_filter; apply rows_NoDup|].
  intros x. unfold of_key. rewrite !list_elem_of_filter. naive_solver.
Qed.

Lemma rank_exists k j : j < length (of_key k all) → ∃ z, z ∈ all ∧ PKValues z = k ∧ rank all z = j.
Proof.
  intros Hj. pose proof (latest_count all Ha (S j) k) as H1. pose proof (latest_count all Ha j k) as H2.
  destruct (decide (Exists (λ z, rank all z = j) (of_key k all))) as [(z & Hz & E)%Exists_exists|Hno].
  { apply elem_of_key in Hz as [??]. eauto. }
  exfalso. assert (length (of_key k (latest (S j) all)) ≤ length (of_key k (latest j all))); [|lia].
  apply submseteq_length, NoDup_submseteq; [by repeat apply NoDup_filter; apply rows_NoDup|].
  intros z. rewrite !elem_of_key, !elem_of_latest. intros (Hk & Hr & Hz). split_and!; [done| |done].
  destruct (decide (rank all z = j)) as [E|]; [|lia]. destruct Hno. apply Exists_exists. exists z.
  by rewrite elem_of_key.
Qed.

(** The rows after [r], told by key and rank. *)
Lemma newer_count n r : length (filter (λ x, desc x r = Lt) (latest n part)) ≤ length (filter (λ x, desc x r = Lt) (latest n all)).
Proof.
  set (tag rows x := (PKValues x, rank rows x)).
  rewrite <- (length_fmap (tag part) (filter _ (latest n part))), <- (length_fmap (tag all) (filter _ (latest n all))).
  apply submseteq_length, NoDup_submseteq.
  - apply NoDup_fmap_2_strong; [|by repeat apply NoDup_filter; apply rows_NoDup].
    intros x y [_ [_ Hx]%elem_of_latest]%list_elem_of_filter [_ [_ Hy]%elem_of_latest]%list_elem_of_filter [= Hk Hr].
    destruct (compareStatementTime x y) eqn:E.
    + apply compareStatementTime_id in E. by eapply NoDup_id_inj.
    + pose proof (rank_antitone part x y (rows_NoDup _ Hp) Hy Hk E). lia.
    + apply (cmp_gt_lt compareStatementTime) in E.
      pose proof (rank_antitone part y x (rows_NoDup _ Hp) Hx (eq_sym Hk) E). lia.
  - intros t (x & -> & [Hd [Hr Hx]%elem_of_latest]%list_elem_of_filter)%list_elem_of_fmap.
    pose proof (rank_mono part all x (rows_NoDup _ Hp) Hs) as Hm.
    assert (rank all x < length (of_key (PKValues x) all)) as Hlt.
    { apply (length_filter_lt _ _ x); [rewrite elem_of_key; auto|by rewrite (cmp_refl compareStatementTime)]. }
    destruct (rank_exists (PKValues x) (rank part x)) as (z & Hz & Hkz & Hrz); [lia|].
    apply list_elem_of_fmap. exists z. split; [unfold tag; by rewrite Hkz, Hrz|].
    apply list_elem_of_filter. split; [|apply elem_of_latest; split; [lia|done]].
    destruct (compareStatementTime x z) eqn:E.
    + apply compareStatementTime_id in E. by rewrite <- (NoDup_id_inj all x z Ha (Hs _ Hx) Hz E).
    + eapply (cmp_lt_trans desc); [|exact Hd]. unfold merge_compare. simpl. by rewrite (cmp_antisym compareStatementTime), E.
    + apply (cmp_gt_lt compareStatementTime) in E.
      pose proof (rank_antitone all z x (rows_NoDup _ Ha) (Hs _ Hx) Hkz E). lia.
Qed.

(** The newest of the latest are among the newest of a part's latest. *)
Lemma top_latest_part m n r : r ∈ top desc m (latest n all) → r ∈ part → r ∈ top desc m (latest n part).
Proof.
  intros Hr Hin. pose proof (top_sub desc m _ _ Hr) as Hl. pose proof (latest_part n r Hl Hin) as Hlp.
  rewrite in_top in * by done. pose proof (newer_count n r). lia.
Qed.

(** A latest row that is not among the newest comes after all of them. *)
Lemma outside_top m n z : z ∈ latest n all → z ∉ top desc m (latest n all) →
  length (top desc m (latest n all)) = m ∧ ∀ t, t ∈ top desc m (latest n all) → desc t z ≠ Gt.
Proof.
  intros Hz Hnz. rewrite in_top in Hnz by done. split.
  - unfold top. rewrite length_take, sort_by_length.
    pose proof (length_filter (λ x, desc x z = Lt) (latest n all)). lia.
  - intros t Ht. destruct (desc t z) eqn:E; [done..|exfalso]. apply (cmp_gt_lt desc) in E. destruct Hnz.
    pose proof (proj1 (in_top m n all t Ha (top_sub desc m _ _ Ht)) Ht) as Hc.
    eapply Nat.le_lt_trans; [|exact Hc].
    apply submseteq_length, NoDup_submseteq; [by repeat apply NoDup_filter; apply rows_NoDup|].
    intros x. rewrite !list_elem_of_filter. intros [? ?]. split; [|done]. by eapply (cmp_lt_trans desc).
Qed.

(** A part that has the newest of the latest has the same. *)
Lemma top_latest_squeeze m n : top desc m (latest n all) ⊆ part → top desc m (latest n part) = top desc m (latest n all).
Proof.
  intros Ht. apply top_prefix.
  - apply _.
  - by apply rows_apart, latest_ids.
  - by apply rows_NoDup, latest_ids.
  - intros r Hr. apply latest_part; [by apply (top_sub desc m)|by apply Ht].
  - by apply rows_NoDup, latest_ids.
  - intros y [Hy Hin]%elem_of_latest Hny. destruct (decide (y ∈ latest n all)) as [Hya|Hya]; [by apply outside_top|].
    (* [n] later rows of its key are among the latest of the whole *)
    assert (n ≤ rank all y) as Hge. { rewrite elem_of_latest in Hya. destruct (decide (rank all y < n)); [naive_solver|lia]. }
    pose proof (rank_beyond all Ha n y (Hs _ Hin) Hge) as Hb.
    destruct (decide (Forall (λ z, z ∈ part) (filter (λ x, compareStatementTime y x = Lt) (of_key (PKValues y) (latest n all)))))
      as [Hall|Hnot].
    { exfalso. rewrite Forall_forall in Hall.
      assert (length (filter (λ x, compareStatementTime y x = Lt) (of_key (PKValues y) (latest n all))) ≤ rank part y); [|lia].
      apply submseteq_length, NoDup_submseteq; [by repeat apply NoDup_filter; apply rows_NoDup|].
      intros x Hx. pose proof (Hall x Hx) as Hxp. unfold of_key in *. rewrite !list_elem_of_filter in *. naive_solver. }
    apply not_Forall_Exists in Hnot; [|apply _]. apply Exists_exists in Hnot as (z & Hz & Hzp).
    apply list_elem_of_filter in Hz as [Hyz [_ Hzl]%elem_of_key].
    assert (z ∉ top desc m (latest n all)) as Hzt by (intros Hzt; by apply Hzp, Ht).
    destruct (outside_top m n z Hzl Hzt) as [Hm Hbefore]. split; [done|]. intros t Ht'.
    eapply (cmp_trans desc); [by apply Hbefore|]. unfold merge_compare. simpl.
    by rewrite (cmp_antisym compareStatementTime), Hyz.
Qed.
End union.
