(* ===== verification/LatestKept.v ===== *)
(** * What [LatestPerPKInBinlog] keeps ([internal/query/latestperpk.go])

    From candidates that hold each key's latest changes by statement time and
    by event id, and the whole history of a key only where the two disagree,
    each key is left with its latest changes in the order the index received
    them, or is named as refused and left with the latest by statement time. *)
From S2P Require Import Prelude GoStrings GoText GoTime GoVal Event Rows Merge BinlogOrder TopN MergeLatest PkRange PositionFloor QueryWhere LatestPK.

Open Scope nat_scope.

(** ** The newest of a list *)

Definition later {A} (cmp : A → A → comparison) (a b : A) : comparison := cmp b a.

#[export] Instance later_order {A} (cmp : A → A → comparison) `{!CmpOrder cmp} : CmpOrder (later cmp).
Proof. split; unfold later; [intros x y; apply (cmp_antisym cmp)|]. intros x y z H1 H2. by eapply (cmp_trans cmp). Qed.

Section newest.
Context {A : Type} `{!EqDecision A} (cmp : A → A → comparison) `{!CmpOrder cmp}.

Definition newest (n : nat) (l : list A) : list A := lastn n (sort_by cmp l).

Lemma sort_by_later l : told_apart cmp l → sort_by (later cmp) l = reverse (sort_by cmp l).
Proof.
  intros Ht. symmetry. apply sort_by_unique; [apply _|..].
  - intros x y Hx Hy E. symmetry. by apply Ht.
  - by rewrite reverse_Permutation, sort_by_perm.
  - pose proof (sort_by_sorted cmp l) as Hs. induction Hs as [|x k Hs IH Hx]; [constructor|]. rewrite reverse_cons.
    apply StronglySorted_app_2; [|done|repeat constructor]. intros a b Ha ->%list_elem_of_singleton.
    rewrite elem_of_reverse in Ha. rewrite Forall_forall in Hx. by apply Hx.
Qed.

Lemma lastn_reverse n (l : list A) : lastn n l = reverse (take n (reverse l)).
Proof. unfold lastn. by rewrite take_reverse, reverse_involutive. Qed.

Lemma newest_top n l : told_apart cmp l → newest n l = reverse (top (later cmp) n l).
Proof. intros Ht. unfold newest, top. by rewrite lastn_reverse, sort_by_later. Qed.

Lemma told_apart_later l : told_apart cmp l → told_apart (later cmp) l.
Proof. intros H x y Hx Hy E. symmetry. by apply H. Qed.

Lemma newest_squeeze n l k : told_apart cmp l → NoDup l → NoDup k → k ⊆ l → newest n l ⊆ k → newest n k = newest n l.
Proof.
  intros Ht Hl Hk Hs Hn. rewrite !newest_top in * by (try done; by eapply told_apart_sub). f_equal.
  apply top_squeeze; [apply _|by apply told_apart_later|done..|]. intros x Hx. apply Hn. by rewrite elem_of_reverse.
Qed.

Lemma newest_sub n l : newest n l ⊆ l.
Proof. intros x Hx%lastn_sub. by rewrite elem_of_sort_by in Hx. Qed.

Lemma newest_NoDup n l : NoDup l → NoDup (newest n l).
Proof. intros H. eapply sublist_NoDup; [|apply sublist_drop]. by rewrite sort_by_perm. Qed.

Lemma newest_length n l : length (newest n l) = n `min` length l.
Proof. unfold newest. by rewrite lastn_length, sort_by_length. Qed.

Lemma newest_perm n l k : told_apart cmp l → l ≡ₚ k → newest n l = newest n k.
Proof. intros Ht Hp. unfold newest. by rewrite (sort_by_proper cmp l k). Qed.

Lemma newest_sorted n l : StronglySorted (cmp_le cmp) l → newest n l = lastn n l.
Proof. intros Hs. unfold newest. by rewrite sort_by_id. Qed.
End newest.

(** A span does not change the order. *)
Lemma newest_strip cmp n l : cmp = compareStatementTime ∨ cmp = compareEventID →
  newest cmp n (strip_span <$> l) = strip_span <$> newest cmp n l.
Proof.
  intros Hc. unfold newest. rewrite sort_by_fmap. unfold lastn. rewrite length_fmap, <- fmap_drop.
  by destruct Hc as [->| ->].
Qed.

Lemma ids_apart cmp (l : list ResultRow) : cmp = compareStatementTime ∨ cmp = compareEventID →
  NoDup (EventID <$> l) → told_apart cmp l.
Proof.
  intros Hc Hid x y Hx Hy E. eapply NoDup_id_inj; [done..|].
  destruct Hc as [->| ->]; [by apply compareStatementTime_id|]. by apply N.compare_eq.
Qed.

(** ** The candidates of one key *)

(** The rows of a key, in the order of the list. *)
Lemma pick_key_rows rows pk : pick rows (key_rows_of rows pk) = of_key pk rows.
Proof.
  unfold pick, key_rows_of, of_key. 
  transitivity (filter (λ r, PKValues r = pk) ((rows !!!.) <$> seq 0 (length rows))); [by rewrite filter_fmap|by rewrite lookup_total_seq].
Qed.

Lemma key_rows_sorted rows pk : StronglySorted lt (key_rows_of rows pk).
Proof.
  unfold key_rows_of. apply StronglySorted_filter. generalize 0. induction (length rows) as [|k IH]; intros i; simpl; [constructor|].
  constructor; [done|]. apply Forall_forall. intros j Hj%elem_of_seq. lia.
Qed.

Lemma lt_sorted_NoDup (l : list nat) : StronglySorted lt l → NoDup l.
Proof.
  induction 1 as [|x l Hs IH Hx]; constructor; [|done]. intros Hin. rewrite Forall_forall in Hx. specialize (Hx x Hin). lia.
Qed.

Lemma lt_sorted_le (l : list nat) : StronglySorted lt l → StronglySorted (cmp_le Nat.compare) l.
Proof.
  induction 1 as [|x l Hs IH Hx]; constructor; [done|]. eapply Forall_impl; [exact Hx|]. intros y Hy.
  unfold cmp_le. rewrite (proj2 (Nat.compare_lt_iff _ _)); done.
Qed.

#[export] Instance nat_compare_order : CmpOrder Nat.compare.
Proof. split; intros *; [apply Nat.compare_antisym|]. rewrite !Nat.compare_le_iff. lia. Qed.

Lemma lastn_app_exact {A} n (l k : list A) : length k = n → lastn n (l ++ k) = k.
Proof. intros <-. unfold lastn. rewrite length_app. replace (length l + length k - length k) with (length l) by lia. by rewrite drop_app_length. Qed.

(** The candidates end with the latest by time; where they do not differ, the
    latest by id are among those. *)
Lemma candidates_spec rows idx n cand differ : StronglySorted lt idx → latestPerPKCandidates rows idx n = (cand, differ) →
  lastn n cand = lastn n (pick rows idx) ∧ cand ⊆ pick rows idx ∧
  (differ = false → top (later compareEventID) n (pick rows idx) ⊆ lastn n (pick rows idx)).
Proof.
  intros Hs. unfold latestPerPKCandidates. destruct (Nat.leb_spec (length idx) n) as [Hle|Hgt].
  { intros [= <- <-]. split_and!; [done..|]. intros _. rewrite lastn_all by (unfold pick; by rewrite length_fmap). apply top_sub. }
  set (byTime := drop (length idx - n) idx). set (byID := take n _). set (extra := filter _ byID).
  assert (pick rows byTime = lastn n (pick rows idx)) as Ht.
  { unfold pick, lastn, byTime. by rewrite length_fmap, fmap_drop. }
  assert (length byTime = n) as Hlen by (unfold byTime; rewrite length_drop; lia).
  assert (∀ k, k ⊆ idx → pick rows k ⊆ pick rows idx) as Hmono.
  { intros k Hk r (i & -> & Hi)%list_elem_of_fmap. apply (list_elem_of_fmap_2 (rows !!!.)). auto. }
  assert (byTime ⊆ idx) as HbT by (intros i Hi; by eapply elem_of_sublist, sublist_drop).
  assert (byID ⊆ idx) as HbI.
  { intros i Hi. apply subseteq_take in Hi. by rewrite elem_of_sort_by in Hi. }
  assert (pick rows byID = top (later compareEventID) n (pick rows idx)) as Hid.
  { unfold pick, byID, top. rewrite fmap_take, sort_by_fmap. done. }
  destruct extra as [|e ex] eqn:Eex.
  - intros [= <- <-]. rewrite Ht. split_and!.
    + rewrite lastn_all; [done|]. rewrite lastn_length. lia.
    + rewrite <- Ht. by apply Hmono.
    + intros _. rewrite <- Hid, <- Ht. intros r (i & -> & Hi)%list_elem_of_fmap. apply (list_elem_of_fmap_2 (rows !!!.)).
      destruct (decide (i ∈ byTime)) as [|Hni]; [done|]. exfalso. apply (elem_of_nil i). rewrite <- Eex.
      by apply list_elem_of_filter.
  - rewrite <- Eex. intros [= <- <-]. assert (extra ⊆ idx) as Hex by (intros i [_ Hi]%list_elem_of_filter; auto).
    split_and!; [|apply Hmono; intros i; rewrite elem_of_sort_by, elem_of_app; intros [?|?]; auto|done].
    assert (sort_by Nat.compare (byTime ++ extra) = sort_by Nat.compare extra ++ byTime) as ->.
    { rewrite (sort_by_proper _ (byTime ++ extra) (extra ++ byTime)); [|intros x y _ _; apply Nat.compare_eq|by rewrite (comm (++))].
      rewrite sort_by_app; [|apply _|intros x y _ _; apply Nat.compare_eq|].
      - f_equal. apply sort_by_id, lt_sorted_le. eapply StronglySorted_sublist; [apply sublist_drop|done].
      - intros x y [Hx Hxi]%list_elem_of_filter Hy. apply HbI in Hxi. rewrite Nat.compare_le_iff.
        rewrite <- (take_drop (length idx - n) idx) in Hs, Hxi. apply StronglySorted_app in Hs as (Hc & _ & _).
        apply elem_of_app in Hxi as [Hxi|?]; [|done]. specialize (Hc x y Hxi Hy). lia. }
    unfold pick at 1. rewrite fmap_app. rewrite lastn_app_exact by by rewrite length_fmap. exact Ht.
Qed.

(** ** One key *)

Definition refused_keys (o : LatestPerPKOrder) : gset string := default ∅ (refused o).

Lemma refuse_keys o pk why : refused_keys (refuse o pk why) = {[pk]} ∪ refused_keys o.
Proof. unfold refuse, refused_keys. case_bool_decide; simpl; set_solver. Qed.

Abbreviation time := compareStatementTime.
Abbreviation byid := compareEventID.

(** What a key is left with: [own] are its rows, [full] its whole history,
    [differ] whether its candidates differ, [R] whether it is refused. *)
Inductive outcome (n : nat) (own full kept : list ResultRow) (differ : bool) (R : Prop) : Prop :=
| o_lsn : ¬ R → kept = newest time n own → Forall (λ r, has_byte slash (BinlogFile r) = true) kept → outcome n own full kept differ R
| o_agreed : kept = newest time n own → newest byid n own ≡ₚ kept → outcome n own full kept differ R
| o_refused : R → differ = true → kept = newest time n full → outcome n own full kept differ R
| o_sorted : ¬ R → differ = true → kept = newest byid n full → outcome n own full kept differ R.

Section one_key.
Context (ids : option (list ResultRow → IDProof)) (rows : list ResultRow) (n : nat) (full : string → list ResultRow).
Hypothesis Hsorted : StronglySorted (cmp_le time) rows.
Hypothesis Hids : NoDup (EventID <$> rows).

Lemma own_ids pk : NoDup (EventID <$> of_key pk rows).
Proof. eapply sublist_NoDup; [exact Hids|]. apply fmap_sublist, sublist_filter. Qed.

Lemma own_newest pk : newest time n (of_key pk rows) = lastn n (of_key pk rows).
Proof. apply newest_sorted. apply StronglySorted_filter, Hsorted. Qed.

(** Ids that rise with the positions sort as the positions do. *)
Lemma ordered_by_id (all : list ResultRow) : NoDup (EventID <$> all) → StronglySorted pos_le (sort_by byid all) →
  sort_by compareBinlogCoordinate all = sort_by byid all.
Proof.
  intros Hid Hp. apply sort_by_unique; [apply _|..].
  - apply (ids_apart byid); [by right|done].
  - by rewrite sort_by_perm.
  - eapply coordinate_sorted_ids; [exact Hp|by rewrite sort_by_perm|apply sort_by_sorted, _].
Qed.

Lemma pick_disagreed_spec all pk o kept o' : NoDup (EventID <$> all) → ¬ Forall (λ r, has_byte slash (BinlogFile r) = true) all →
  pick_disagreed ids all pk n o = (kept, o') →
  kept = newest time n all ∧ refused_keys o' = {[pk]} ∪ refused_keys o ∨
  kept = newest byid n all ∧ refused_keys o' = refused_keys o.
Proof.
  intros Hid Hlsn. unfold pick_disagreed. set (o1 := Build_LatestPerPKOrder _ _ _ _ _). set (sorted := sort_by time all).
  assert (refused_keys o1 = refused_keys o) as Ho by done.
  assert (∀ why, refused_keys (refuse o1 pk why) = {[pk]} ∪ refused_keys o) as Hr by (intros; by rewrite refuse_keys, Ho).
  apply OrderByBinlog_cases; cbn [Reason].
  - intros _ [= <- <-]. left. by split.
  - intros _ Hl. exfalso. apply Hlsn. unfold sorted in Hl. by rewrite sort_by_perm in Hl.
  - intros k _ _ [= <- <-]. left. by split.
  - intros _ _ [= <- <-]. left. by split.
  - intros m d _ _ [= <- <-]. left. by split.
  - intros m d _ _ [= <- <-]. left. by split.
  - intros m d _ _ [= <- <-]. left. by split.
  - intros m _ _ _ _ Hp [= <- <-]. right. split; [|done]. unfold newest. f_equal.
    assert (NoDup (EventID <$> sorted)) as Hsid by (unfold sorted; by rewrite sort_by_perm).
    rewrite ordered_by_id by done. apply sort_by_proper; [apply _|apply (ids_apart byid); [by right|done]|].
    unfold sorted. by rewrite sort_by_perm.
Qed.

Lemma pick_agreed_spec idx pk cand byTime o kept o' : pick_agreed ids rows idx pk cand byTime o = Some (kept, o') →
  kept = byTime ∧ (refused_keys o' = refused_keys o ∨ refused_keys o' = {[pk]} ∪ refused_keys o).
Proof.
  unfold pick_agreed. destruct (keySpan rows idx) as [first last]. destruct (_ && _).
  - destruct (decodeKeySpanFile first), (decodeKeySpanFile last); simpl; try done. intros [= <- <-].
    split; [done|right]. apply refuse_keys.
  - intros [= <- <-]. auto.
Qed.

Lemma agreed_perm pk : top (later byid) n (of_key pk rows) ⊆ lastn n (of_key pk rows) →
  newest byid n (of_key pk rows) ≡ₚ newest time n (of_key pk rows).
Proof.
  intros Hs. pose proof (rows_NoDup _ (own_ids pk)) as Hnd.
  apply submseteq_length_Permutation; [|rewrite !newest_length; done].
  apply NoDup_submseteq; [by apply newest_NoDup|]. intros r Hr. rewrite own_newest. apply Hs.
  rewrite (newest_top byid), elem_of_reverse in Hr; [done|]. apply ids_apart; [by right|apply own_ids].
Qed.

Lemma pick_key_spec out o pk out' o' : pk ∉ refused_keys o → NoDup (EventID <$> full pk) →
  ((latestPerPKCandidates rows (key_rows_of rows pk) n).2 = true → strip_span <$> of_key pk rows ⊆ strip_span <$> full pk) →
  pick_key ids rows n full (out, o) pk = Some (out', o') →
  ∃ kept, out' = out ++ kept ∧ (refused_keys o' = refused_keys o ∨ refused_keys o' = {[pk]} ∪ refused_keys o) ∧
    outcome n (of_key pk rows) (full pk) kept (latestPerPKCandidates rows (key_rows_of rows pk) n).2 (pk ∈ refused_keys o').
Proof.
  intros Hnr Hfid Hfull. unfold pick_key. destruct (latestPerPKCandidates _ _ _) as [cand differ] eqn:Ec. cbn [snd] in *.
  destruct (candidates_spec rows _ n cand differ (key_rows_sorted rows pk) Ec) as (Hlast & Hcand & Hagree).
  rewrite pick_key_rows in *. destruct (allLSN cand) eqn:El.
  { intros [= <- <-]. exists (lastn n cand). split; [done|]. split; [by left|]. apply o_lsn; [done|by rewrite own_newest|].
    apply Forall_forall. intros r Hr%lastn_sub. unfold allLSN in El. rewrite forallb_forall in El. apply El. by apply list_elem_of_In. }
  destruct differ; cbn [negb].
  - destruct (pick_disagreed _ _ _ _ _) as [kept o1] eqn:Ed. intros [= <- <-]. exists kept. split; [done|].
    apply pick_disagreed_spec in Ed as [[-> Hr]|[-> Hr]]; [| |done|].
    + split; [by right|]. apply o_refused; [rewrite Hr; set_solver|done..].
    + split; [by left|]. apply o_sorted; [by rewrite Hr|done..].
    + intros Hall. apply not_true_iff_false in El. apply El. unfold allLSN. apply forallb_forall. intros r Hr%list_elem_of_In.
      apply Hcand in Hr. apply (list_elem_of_fmap_2 strip_span), (Hfull eq_refl), list_elem_of_fmap in Hr as (f & E & Hf).
      rewrite Forall_forall in Hall. specialize (Hall f Hf). by apply (f_equal BinlogFile) in E; simpl in E; rewrite E.
  - destruct (pick_agreed _ _ _ _ _ _ _) as [[kept o1]|] eqn:Ea; [|done]. intros [= <- <-]. exists kept. split; [done|].
    apply pick_agreed_spec in Ea as [-> Hr]. split; [done|]. apply o_agreed; [by rewrite own_newest|].
    rewrite Hlast, <- own_newest. apply agreed_perm. by apply Hagree.
Qed.

(** The loop over the keys. *)
Lemma pick_keys_spec ks : NoDup ks → (∀ pk, NoDup (EventID <$> full pk)) →
  (∀ pk, pk ∈ ks → (latestPerPKCandidates rows (key_rows_of rows pk) n).2 = true → strip_span <$> of_key pk rows ⊆ strip_span <$> full pk) →
  ∀ out o out' o', (∀ pk, pk ∈ ks → pk ∉ refused_keys o) → pick_keys ids rows n full ks (out, o) = Some (out', o') →
  ∃ kept : list (string * list ResultRow), kept.*1 = ks ∧ out' = out ++ mjoin kept.*2 ∧
    (∀ pk, pk ∈ refused_keys o' → pk ∈ refused_keys o ∨ pk ∈ ks) ∧ refused_keys o ⊆ refused_keys o' ∧
    ∀ pk k, (pk, k) ∈ kept → outcome n (of_key pk rows) (full pk) k (latestPerPKCandidates rows (key_rows_of rows pk) n).2 (pk ∈ refused_keys o').
Proof.
  intros Hnd Hfid. induction Hnd as [|pk ks Hpk Hnd IH]; intros Hfull out o out' o' Hnr; cbn [pick_keys].
  { intros [= <- <-]. exists []. simpl. rewrite app_nil_r. split_and!; [done..|auto|done|by intros ?? ?%elem_of_nil]. }
  destruct (pick_key ids rows n full (out, o) pk) as [[out1 o1]|] eqn:E1; simpl; [|done]. intros E2.
  apply pick_key_spec in E1 as (k & -> & Hr & Hout); [|apply Hnr; by left|done|apply Hfull; by left].
  assert (∀ x, x ∈ refused_keys o1 → x ∈ refused_keys o ∨ x = pk) as Hr1 by (destruct Hr as [->| ->]; set_solver).
  apply IH in E2 as (kept & <- & -> & Hin & Hsub & Hk).
  - exists ((pk, k) :: kept). simpl. rewrite <- (assoc_L (++)). split_and!; [done..| | |].
    + intros x [[?| ->]%Hr1|?]%Hin; [by left|right; by left|right; by right].
    + destruct Hr as [Hr|Hr]; rewrite Hr in Hsub; set_solver.
    + intros x kx [[= -> ->]|Hx]%elem_of_cons; [|by apply Hk].
      assert (pk ∈ refused_keys o' ↔ pk ∈ refused_keys o1) as Hiff.
      { split; [intros [?|?]%Hin; [done|by destruct Hpk]|set_solver]. }
      destruct Hout as [H1 H2 H3|H1 H2|H1 H2 H3|H1 H2 H3]; [apply o_lsn|apply o_agreed|apply o_refused|apply o_sorted]; rewrite ?Hiff; done.
  - intros x Hx. apply Hfull. by right.
  - intros x Hx [?| ->]%Hr1; [|done]. apply (Hnr x); [by right|done].
Qed.
End one_key.

(** ** Every key *)

(** The rows hold the latest changes of a key of the history [H]. *)
Record supplied (rows : list ResultRow) (n : nat) (H : string → list ResultRow) (pk : string) : Prop := {
  su_ids : NoDup (EventID <$> H pk);
  su_plain r : r ∈ H pk → strip_span r = r ∧ PKValues r = pk;
  su_rows r : r ∈ rows → PKValues r = pk → strip_span r ∈ H pk;
  su_time : newest time n (H pk) ⊆ strip_span <$> rows;
  su_id : newest byid n (H pk) ⊆ strip_span <$> rows;
}.

(** A history read answers with the changes of the keys it was asked for. *)
Definition tells {E} (h : list string → list ResultRow + E) (H : string → list ResultRow) : Prop :=
  ∀ pks l pk, h pks = inl l → pk ∈ pks →
    (∀ r, r ∈ l → PKValues r = pk → strip_span r ∈ H pk) ∧ (∀ r, r ∈ H pk → r ∈ strip_span <$> l).

Lemma keys_of_spec rows : NoDup (keys_of rows) ∧ ∀ pk, pk ∈ keys_of rows ↔ pk ≠ "" ∧ pk ∈ PKValues <$> rows.
Proof.
  unfold keys_of. assert (∀ ks, NoDup ks → (∀ pk, pk ∈ ks → pk ≠ "") →
    let r := foldl (λ ks r, if bool_decide (PKValues r = "") || bool_decide (PKValues r ∈ ks) then ks else ks ++ [PKValues r]) ks rows in
    NoDup r ∧ ∀ pk, pk ∈ r ↔ pk ∈ ks ∨ pk ≠ "" ∧ pk ∈ PKValues <$> rows) as H.
  { induction rows as [|x rows IH]; intros ks Hnd Hks; simpl; [split; [done|]; intros pk; rewrite elem_of_nil; tauto|].
    destruct (bool_decide (PKValues x = "")) eqn:E1; [|destruct (bool_decide (PKValues x ∈ ks)) eqn:E2]; simpl.
    - apply bool_decide_eq_true in E1. destruct (IH ks Hnd Hks) as [H1 H2]. split; [done|]. intros pk. rewrite H2, elem_of_cons. naive_solver.
    - apply bool_decide_eq_true in E2. destruct (IH ks Hnd Hks) as [H1 H2]. split; [done|]. intros pk. rewrite H2, elem_of_cons. naive_solver.
    - apply bool_decide_eq_false in E1, E2. destruct (IH (ks ++ [PKValues x])) as [H1 H2].
      + apply NoDup_app. split_and!; [done|set_solver|apply NoDup_singleton].
      + intros pk [?| ->%list_elem_of_singleton]%elem_of_app; auto.
      + split; [done|]. intros pk. rewrite H2, elem_of_cons, elem_of_app, list_elem_of_singleton. naive_solver. }
  destruct (H [] ltac:(constructor) ltac:(by intros ? ?%elem_of_nil)) as [H1 H2]. split; [done|]. intros pk. rewrite H2, elem_of_nil. tauto.
Qed.

Section every_key.
Context (rows : list ResultRow) (n : nat) (H : string → list ResultRow).
Hypothesis Hids : NoDup (EventID <$> rows).

Lemma strip_ids (l : list ResultRow) : EventID <$> (strip_span <$> l) = EventID <$> l.
Proof. rewrite <- list_fmap_compose. by apply list_fmap_ext. Qed.

(** The rows of a key give the latest of its history. *)
Lemma own_latest cmp pk : cmp = time ∨ cmp = byid → supplied rows n H pk →
  strip_span <$> newest cmp n (of_key pk rows) = newest cmp n (H pk).
Proof.
  intros Hc [S1 S2 S3 S4 S5]. rewrite <- newest_strip by done.
  assert (CmpOrder cmp) by (destruct Hc as [->| ->]; apply _).
  apply newest_squeeze; [done|by apply ids_apart|by apply rows_NoDup| | |].
  - apply rows_NoDup. rewrite strip_ids. eapply sublist_NoDup; [exact Hids|]. apply fmap_sublist, sublist_filter.
  - intros r (x & -> & Hx)%list_elem_of_fmap. apply elem_of_key in Hx as [Hk Hx]. by apply S3.
  - intros r Hr. assert (r ∈ H pk) as Hin by by eapply newest_sub. assert (r ∈ strip_span <$> rows) as Hs.
    { destruct Hc as [->| ->]; auto. }
    apply list_elem_of_fmap in Hs as (x & -> & Hx). apply list_elem_of_fmap_2, elem_of_key. split; [|done].
    by destruct (S2 _ Hin).
Qed.

(** The rows of a key and its history read, merged, are the history. *)
Lemma merged_history pk l : supplied rows n H pk → (∀ r, r ∈ l → PKValues r = pk → strip_span r ∈ H pk) →
  (∀ r, r ∈ H pk → r ∈ strip_span <$> l) →
  let m := (MergeResultsReport (of_key pk rows ++ of_key pk l) 0 "ASC").1 in
  NoDup (EventID <$> m) ∧ strip_span <$> m ≡ₚ H pk ∧ strip_span <$> of_key pk rows ⊆ strip_span <$> m.
Proof.
  intros [S1 S2 S3 S4 S5] Hl1 Hl2. cbv zeta. set (u := of_key pk rows ++ of_key pk l). fold (MergeResults u 0 "ASC").
  assert (∀ r, r ∈ u → strip_span r ∈ H pk) as Hu.
  { intros r [Hr|Hr]%elem_of_app; apply elem_of_key in Hr as [??]; auto. }
  assert (∀ r, r ∈ u → strip_span r ∈ strip_span <$> MergeResults u 0 "ASC") as Hback.
  { intros r Hr. assert (EventID r ∈ EventID <$> MergeResults u 0 "ASC") as Hid by (apply MergeResults_ids, list_elem_of_fmap_2, Hr).
    apply list_elem_of_fmap in Hid as (v & Hv & Hin). pose proof Hin as (f & Hf & Es)%MergeResults_first.
    apply first_copy_Some in Hf as [Hf _]. assert (strip_span v = strip_span r) as <-; [|by apply list_elem_of_fmap_2].
    rewrite Es. eapply NoDup_id_inj; [exact S1|by apply Hu..|]. apply strip_EventID in Es. simpl. congruence. }
  split_and!; [apply MergeResults_NoDup| |].
  - apply NoDup_Permutation; [apply rows_NoDup; rewrite strip_ids; apply MergeResults_NoDup|by apply rows_NoDup|].
    intros r. split.
    + intros (v & -> & (f & Hf & ->)%MergeResults_first)%list_elem_of_fmap. apply first_copy_Some in Hf as [Hf _]. by apply Hu.
    + intros Hr. pose proof (Hl2 r Hr) as (x & -> & Hx)%list_elem_of_fmap. apply Hback, elem_of_app. right. apply elem_of_key.
      split; [|done]. by destruct (S2 _ Hr).
  - intros r (x & -> & Hx)%list_elem_of_fmap. apply Hback, elem_of_app. by left.
Qed.
End every_key.

(** The rows of one key among those of all. *)
Lemma of_key_join (kept : list (string * list ResultRow)) pk k : NoDup kept.*1 → (pk, k) ∈ kept →
  (∀ x kx, (x, kx) ∈ kept → Forall (λ r, PKValues r = x) kx) → of_key pk (mjoin kept.*2) = k.
Proof.
  induction kept as [|[x kx] kept IH]; intros Hnd Hin Hk; [by apply elem_of_nil in Hin|]. simpl in *.
  apply NoDup_cons in Hnd as [Hx Hnd]. unfold of_key in *. rewrite filter_app.
  pose proof (Hk x kx ltac:(by left)) as Hkx. rewrite Forall_forall in Hkx. apply elem_of_cons in Hin as [[= -> ->]|Hin].
  - rewrite filter_all by done. rewrite filter_none; [by rewrite app_nil_r|]. intros r Hr E.
    apply list_elem_of_join in Hr as (l & Hr & Hl). apply list_elem_of_fmap in Hl as ([y ky] & -> & Hy). simpl in Hr.
    pose proof (Hk y ky ltac:(by right)) as Hky. rewrite Forall_forall in Hky. apply Hx. rewrite <- E, (Hky r Hr).
    by apply (list_elem_of_fmap_2 fst _ (y, ky)).
  - rewrite filter_none; [|intros r Hr E; apply Hx; rewrite <- (Hkx r Hr), E; by apply (list_elem_of_fmap_2 fst _ (pk, k))].
    apply IH; [done..|]. intros y ky Hy. apply Hk. by right.
Qed.

(** What the answer keeps of a key. *)
Definition keeps (n : nat) (H kept : list ResultRow) (R : Prop) : Prop :=
  (R → strip_span <$> kept ≡ₚ newest time n H) ∧
  (¬ R → strip_span <$> kept ≡ₚ newest byid n H ∨
         strip_span <$> kept ≡ₚ newest time n H ∧ Forall (λ r, has_byte slash (BinlogFile r) = true) kept).

Lemma outcome_keeps rows n H pk full k differ R : NoDup (EventID <$> rows) → supplied rows n H pk →
  (differ = true → strip_span <$> full ≡ₚ H pk) → outcome n (of_key pk rows) full k differ R →
  keeps n (H pk) k R ∧ Forall (λ r, PKValues r = pk) k.
Proof.
  intros Hids Hs Hfull Ho. assert (∀ cmp, cmp = time ∨ cmp = byid → differ = true → strip_span <$> newest cmp n full = newest cmp n (H pk)) as Hf.
  { intros cmp Hc Hd. rewrite <- newest_strip by done. assert (CmpOrder cmp) by (destruct Hc as [->| ->]; apply _).
    symmetry. apply newest_perm; [done|apply ids_apart; [done|apply Hs]|]. by rewrite Hfull. }
  assert (∀ cmp, Forall (λ r, PKValues r = pk) (newest cmp n (of_key pk rows))) as Ho1.
  { intros cmp. apply Forall_forall. intros r Hr%newest_sub. by apply elem_of_key in Hr as [? _]. }
  assert (∀ cmp, differ = true → Forall (λ r, PKValues r = pk) (newest cmp n full)) as Hf1.
  { intros cmp Hd. apply Forall_forall. intros r Hr%newest_sub. apply (list_elem_of_fmap_2 strip_span) in Hr.
    rewrite (Hfull Hd) in Hr. by destruct (su_plain _ _ _ _ Hs _ Hr). }
  assert (strip_span <$> newest time n (of_key pk rows) = newest time n (H pk)) as Ht by (apply own_latest; [done|by left|done]).
  destruct Ho as [H1 -> H3| -> H2|H1 H2 ->|H1 H2 ->]; (split; [split; intros HR|by auto]); try done.
  - right. by rewrite Ht.
  - by rewrite Ht.
  - left. rewrite <- H2. rewrite (own_latest rows n H Hids byid pk); [done|by right|done].
  - by rewrite Hf by auto.
  - left. by rewrite Hf by auto.
Qed.

(** C15: Each key is left with its latest changes. From rows that hold, for every
    key, the latest n changes by statement time and by event id, and a history
    read asked only for the keys where the two differ, the answer holds for each
    key its latest n changes in the order the index received them - by statement
    time for a PostgreSQL key - or the key is named as refused and the answer
    holds its latest n by statement time. Rows without a key pass through, and
    the rows come in statement time order. *)
Theorem LatestPerPKInBinlog_keeps {E} ids rows n (h : list string → list ResultRow + E) H out order :
  (0 < n)%Z → NoDup (EventID <$> rows) → tells h H →
  (∀ pk, pk ≠ "" → pk ∈ PKValues <$> rows → supplied rows (Z.to_nat n) H pk) →
  LatestPerPKInBinlog ids rows n (Some h) = inl (out, order) →
  StronglySorted (cmp_le time) out ∧ of_key "" out ≡ₚ of_key "" rows ∧
  ∀ pk, pk ≠ "" → pk ∈ PKValues <$> rows → keeps (Z.to_nat n) (H pk) (of_key pk out) (pk ∈ refused_keys order).
Proof.
  intros Hn Hids Ht Hsup. unfold LatestPerPKInBinlog. rewrite (proj2 (Z.leb_gt n 0)) by done. simpl.
  destruct (Nat.eqb_spec (length rows) 0) as [Hz|_].
  { apply nil_length_inv in Hz as ->. intros [= <- <-]. split_and!; [constructor|done|]. intros pk _ ?%elem_of_nil. done. }
  set (m := Z.to_nat n) in *. set (S := sort_by time rows). set (keys := keys_of S). set (dis := filter _ keys).
  assert (NoDup (EventID <$> S)) as Sids by (unfold S; by rewrite sort_by_perm).
  assert (StronglySorted (cmp_le time) S) as Ssort by apply sort_by_sorted, _.
  destruct (keys_of_spec S) as [Hknd Hkin]. fold keys in Hknd, Hkin.
  assert (∀ pk, pk ∈ keys ↔ pk ≠ "" ∧ pk ∈ PKValues <$> rows) as Hkeys.
  { intros pk. rewrite Hkin. unfold S. by rewrite sort_by_perm. }
  assert (∀ pk, pk ∈ keys → supplied S m H pk) as HS.
  { intros pk [Hne Hpk]%Hkeys. destruct (Hsup pk Hne Hpk) as [S1 S2 S3 S4 S5]. unfold S. split; [done..| | |].
    - intros r. rewrite elem_of_sort_by. apply S3.
    - by rewrite sort_by_perm.
    - by rewrite sort_by_perm. }
  intros Hrun. apply try_bind_inl in Hrun as (hist & Hhist & Hrun). set (full := λ pk, _) in Hrun.
  assert (∀ pk, NoDup (EventID <$> full pk) ∧ (pk ∈ keys → (latestPerPKCandidates S (key_rows_of S pk) m).2 = true →
    strip_span <$> full pk ≡ₚ H pk ∧ strip_span <$> of_key pk S ⊆ strip_span <$> full pk)) as Hfull.
  { intros pk. unfold full. rewrite pick_key_rows. destruct hist as [l|].
    - split; [apply MergeResults_NoDup|]. intros Hk Hd. assert (pk ∈ dis) as Hpd by by apply list_elem_of_filter.
      destruct dis as [|d0 dis'] eqn:Ed; [done|]. destruct (h (d0 :: dis')) as [l'|] eqn:Eh; [|done]. injection Hhist as ->.
      destruct (Ht _ _ _ Eh Hpd) as [H1 H2]. by destruct (merged_history S m H pk l (HS pk Hk) H1 H2) as (_ & ? & ?).
    - split; [eapply sublist_NoDup; [exact Sids|apply fmap_sublist, sublist_filter]|]. intros Hk Hd.
      assert (pk ∈ dis) as Hpd by by apply list_elem_of_filter. destruct dis as [|d0 dis']; [by apply elem_of_nil in Hpd|].
      by destruct (h _). }
  destruct (pick_keys _ _ _ _ _ _) as [[out0 o]|] eqn:Ep; [|done]. injection Hrun as <- <-.
  apply (pick_keys_spec ids S m full Ssort Sids keys Hknd) in Ep as (kept & Hk1 & -> & _ & _ & Hk);
    [|apply Hfull|intros pk Hpk Hd; by apply Hfull|by intros ???%elem_of_empty].
  assert (∀ pk k, (pk, k) ∈ kept → keeps m (H pk) k (pk ∈ refused_keys o) ∧ Forall (λ r, PKValues r = pk) k) as Hkeep.
  { intros pk k Hin. assert (pk ∈ keys) as Hpk by (rewrite <- Hk1; by apply (list_elem_of_fmap_2 fst _ (pk, k))).
    eapply outcome_keeps; [exact Sids|by apply HS|intros Hd; by apply (Hfull pk)|by apply Hk]. }
  assert (∀ pk, of_key pk (sort_by time (filter (λ r, PKValues r = "") S ++ mjoin kept.*2)) ≡ₚ
    of_key pk (of_key "" S) ++ of_key pk (mjoin kept.*2)) as Hof.
  { intros pk. unfold of_key. by rewrite sort_by_perm, filter_app. }
  split_and!; [apply sort_by_sorted, _| |].
  - rewrite Hof. unfold of_key at 3. rewrite (filter_none _ (mjoin kept.*2)).
    + rewrite app_nil_r. unfold of_key. rewrite list_filter_filter. unfold S. rewrite sort_by_perm.
      rewrite (filter_iff_in _ (λ r, PKValues r = "")); [done|]. naive_solver.
    + intros r (l & Hr & Hl)%list_elem_of_join E0. apply list_elem_of_fmap in Hl as ([x kx] & -> & Hin). simpl in Hr.
      destruct (Hkeep x kx Hin) as [_ HF]. rewrite Forall_forall in HF. specialize (HF r Hr).
      assert (x ∈ keys) as Hx by (rewrite <- Hk1; by apply (list_elem_of_fmap_2 fst _ (x, kx))). apply Hkeys in Hx as [Hx _]. congruence.
  - intros pk Hne Hpk. assert (pk ∈ keys) as Hin by by apply Hkeys. rewrite <- Hk1 in Hin.
    apply list_elem_of_fmap in Hin as ([x k] & -> & Hin). simpl in *. pose proof (Hof x) as Hp.
    assert (of_key x (of_key "" S) = []) as E0 by (apply filter_none; intros r [E1 _]%elem_of_key E2; congruence).
    rewrite E0 in Hp. simpl in Hp.
    rewrite (of_key_join kept x k) in Hp; [|by rewrite Hk1|done|intros y ky Hy; by apply Hkeep].
    destruct (Hkeep x k Hin) as [[K1 K2] _]. unfold keeps. by rewrite Hp.
Qed.

(** ** The second read *)

(** A map of rows by their key. *)
Definition by_key (m : gmap string ResultRow) : Prop := ∀ k r, m !! k = Some r → PKValues r = k.

Lemma repick_reads_by_key {E} (fetch : Options → list ResultRow * LatestPerPKOrder + E) keys hs : ∀ st st',
  by_key st.1 → repick_reads fetch keys st hs = inl st' → by_key st'.1.
Proof.
  induction hs as [|h hs IH]; intros st st' Hb; simpl; [by intros [= <-]|]. unfold repick_read.
  destruct (fetch (repick_opts h)) as [[got order]|]; [|done]. apply IH. simpl.
  revert Hb. generalize st.1. induction got as [|r got IHg]; intros m Hm; [done|]. simpl. apply IHg. case_bool_decide; [|done].
  intros k x. rewrite lookup_insert_Some. intros [[<- <-]|[_ ?]]; [done|by apply Hm].
Qed.

(** The second read changes rows in place: every row of the first stays at
    its place or is replaced by another change of the same key, and a row
    without a key stays as it is. *)
Theorem repickLatestInBinlog_places {E} (fetch : Options → list ResultRow * LatestPerPKOrder + E) o rows out order :
  repickLatestInBinlog fetch o rows = inl (out, order) →
  PKValues <$> out = PKValues <$> rows ∧ ∀ i r, rows !! i = Some r → PKValues r = "" → out !! i = Some r.
Proof.
  unfold repickLatestInBinlog. destruct (negb _); [done|]. destruct (keys_of rows) as [|k0 ks]; [by intros [= <- <-]|].
  set (hs := if _ : bool then _ else _). destruct (repick_reads _ _ _ _) as [[latest total]|] eqn:Er; [|done].
  apply repick_reads_by_key in Er; [|intros k r; simpl; by rewrite lookup_empty]. simpl in Er. intros H. injection H as H.
  assert (∀ out0 o0 out1 o1, foldl (repick_row latest) (out0, o0) rows = (out1, o1) →
    ∃ ext, out1 = out0 ++ ext ∧ PKValues <$> ext = PKValues <$> rows ∧
      ∀ i r, rows !! i = Some r → PKValues r = "" → ext !! i = Some r) as Hf.
  { clear -Er. induction rows as [|r rows IH]; intros out0 o0 out1 o1; simpl.
    { intros [= <- _]. exists []. by rewrite app_nil_r. }
    case_bool_decide as E; [|destruct (latest !! PKValues r) as [l|] eqn:El];
      intros (ext & -> & H1 & H2)%IH; (eexists (_ :: ext); rewrite <- (assoc_L (++)); split; [done|]; rewrite fmap_cons, H1);
      (split; [f_equal|intros [|i] x; simpl; [|apply H2]; intros [= <-]; try done]).
    by apply Er. }
  by apply Hf in H as (ext & -> & H1 & H2).
Qed.

(** Two sessions: the change written last has the earlier statement time. *)
Definition lk_rows : list ResultRow :=
  [mk_row 1 "b.000001" 100 50 EventUpdate "1" None None; mk_row 2 "b.000001" 200 40 EventUpdate "1" None None].
Definition lk_ids : option (list ResultRow → IDProof) := Some (λ _, IDsFollowStream).
Definition lk_history (_ : list string) : list ResultRow + () := inl lk_rows.
Definition lk_H (pk : string) : list ResultRow := if bool_decide (pk = "1") then lk_rows else [].

Lemma LatestPerPKInBinlog_keeps_witness : ∃ out order,
  LatestPerPKInBinlog lk_ids lk_rows 1 (Some lk_history) = inl (out, order) ∧
  keeps 1 lk_rows (of_key "1" out) ("1" ∈ refused_keys order) ∧ out = drop 1 lk_rows.
Proof.
  eexists _, _. split; [vm_compute; reflexivity|]. split; [|reflexivity].
  refine (proj2 (proj2 (LatestPerPKInBinlog_keeps lk_ids lk_rows 1 lk_history lk_H _ _ _ _ _ _ _)) "1" _ _).
  - done.
  - dec_compute.
  - intros pks l pk [= <-] _. unfold lk_H. split.
    + intros r Hr <-. repeat (apply elem_of_cons in Hr as [->|Hr]; [dec_compute|]). by apply elem_of_nil in Hr.
    + intros r Hr. case_bool_decide; [|by apply elem_of_nil in Hr]. exact Hr.
  - intros pk _ Hpk. assert (pk = "1") as -> by (vm_compute in Hpk; set_solver). split.
    + dec_compute.
    + intros r Hr. repeat (apply elem_of_cons in Hr as [->|Hr]; [done|]). by apply elem_of_nil in Hr.
    + intros r Hr _. repeat (apply elem_of_cons in Hr as [->|Hr]; [dec_compute|]). by apply elem_of_nil in Hr.
    + intros r Hr. by apply newest_sub in Hr.
    + intros r Hr. by apply newest_sub in Hr.
  - vm_compute. reflexivity.
  - done.
  - dec_compute.
Defined.

Lemma repickLatestInBinlog_places_witness :
  let fetch (o : Options) : list ResultRow * LatestPerPKOrder + () := inl (drop 1 lk_rows, zero_order) in
  ∃ out order, repickLatestInBinlog fetch (set_per_pk zero_options 1 false) (take 1 lk_rows) = inl (out, order) ∧
    out = drop 1 lk_rows ∧ PKValues <$> out = PKValues <$> take 1 lk_rows.
Proof.
  intros fetch. eexists _, _. split; [vm_compute; reflexivity|]. split; [reflexivity|].
  refine (proj1 (repickLatestInBinlog_places fetch (set_per_pk zero_options 1 false) (take 1 lk_rows) _ zero_order _)).
  vm_compute. reflexivity.
Defined.
