(* ===== verification/FetchMerged.v ===== *)
(** * Reading the index and its archives together:
    [internal/query/fetchmerged.go], [archivescope.go], [windowcovered.go]

    One merged read and its paged form. The live index, the archive reader,
    source discovery and the planner's tables are the world of a read; the paged
    read meets a new world on every page. *)
From S2P Require Import Prelude GoStrings GoText GoTime GoVal Event Rows Merge BinlogOrder TopN PkRange Planner PositionFloor QueryWhere LatestPK.

Open Scope Z_scope.

(** ** Scopes *)

Record ArchiveScope := { sc_all : bool; sc_ids : list string }.

Definition AllArchives : ArchiveScope := {| sc_all := true; sc_ids := [] |}.
Definition OnlyArchives (ids : list string) : ArchiveScope := {| sc_all := false; sc_ids := ids |}.
Definition opensNone (s : ArchiveScope) : bool := negb (sc_all s) && (length (sc_ids s) =? 0)%nat.

Definition sourceIDFromBase (base : string) : string :=
  match after_last base "bintrail_id=" with
  | None => ""
  | Some rest => let id := trim_suffix rest "/" in if has_byte slash id then "" else id
  end.

Definition ScopeFromPaths (paths : list string) : ArchiveScope :=
  {| sc_all := false;
     sc_ids := foldl (λ ids p, let id := sourceIDFromBase p in
                        if bool_decide (id = "") || bool_decide (id ∈ ids) then ids else ids ++ [id]) [] paths |}.

(** A row of [archive_state]: its bintrail_id, partition and content range. *)
Definition stateRow : Type := option string * (string * option Z * option Z).

(** The rows a scope reads. *)
Definition in_scope (s : ArchiveScope) (r : stateRow) : bool :=
  sc_all s || match r.1 with Some id => bool_decide (id ∈ sc_ids s) | None => false end.

(** ** The world of a read *)

Record world := {
  w_engine : Options → list ResultRow + fetchErr;
  w_archive : Options → string → option (list ResultRow);  (* [None]: the source failed *)
  w_index : indexDB;
  w_fresh : list indexDB;
  w_proof : list ResultRow → IDProof;
  w_sources : option (list string);                        (* [None]: discovery failed *)
  w_partitions : option (list string);
  w_state : option (option (list stateRow));               (* [None]: fails; [Some None]: no such table *)
  w_now : Z;
}.

(** The planner's tables under a scope. *)
Definition plan_index (w : world) (s : ArchiveScope) : planIndex := {|
  pi_partitions := w_partitions w;
  pi_archives := if opensNone s then ArchiveRows []
                 else match w_state w with
                      | None => ArchiveFails
                      | Some None => ArchiveMissing
                      | Some (Some rows) => ArchiveRows (snd <$> filter (λ r, in_scope s r = true) rows)
                      end |}.

(** [WindowCovered]; [None] is its error. *)
Definition WindowCovered (w : world) (noDB : bool) (dbName : string) (since until : Z) (scope : ArchiveScope) : option bool :=
  if noDB || bool_decide (dbName = "") then Some false
  else
    names ← w_partitions w;
    match loadLivePartitionHours names with
    | [] => Some false
    | h :: rest as liveHours =>
        let newest := max_hours h rest in
        archived ← (if opensNone scope then Some []
                    else match pi_archives (plan_index w scope) with
                         | ArchiveFails => None
                         | ArchiveMissing => Some []
                         | ArchiveRows rows => Some (expandArchiveHours (loadArchiveCoverage rows))
                         end);
        Some (forallb (λ h, (newest <? h) || bool_decide (h ∈ liveHours) || bool_decide (h ∈ archived))
                (hours_until (truncate_hour since) (truncate_hour until + 1)))
    end.

(** ** Options *)

Record FetchMergedOptions := {
  fm_Opts : Options;
  fm_DBName : string;
  fm_NoArchive : bool;
  fm_AllowGaps : bool;
  fm_HasFetcher : bool;                  (* ArchiveFetcher != nil *)
  fm_PartitionHeads : option PartitionHeads;
  fm_LatestInBinlog : bool;
  fm_HistoryRowCap : Z;
}.

Definition with_opts (o : FetchMergedOptions) (q : Options) : FetchMergedOptions := {|
  fm_Opts := q; fm_DBName := fm_DBName o; fm_NoArchive := fm_NoArchive o; fm_AllowGaps := fm_AllowGaps o;
  fm_HasFetcher := fm_HasFetcher o; fm_PartitionHeads := fm_PartitionHeads o;
  fm_LatestInBinlog := fm_LatestInBinlog o; fm_HistoryRowCap := fm_HistoryRowCap o |}.

Inductive mergeErr :=
| ENoFetcher
| ENoDBName
| EFilter (e : fetchErr)
| ELatestNeedsPerPK
| ELatestAliases
| ESettle (e : floorErr)
| EResolve
| EPlanner
| EGap (gaps : list Z) (oldest : Z)
| EEngine (e : fetchErr)
| EArchive (source : string)
| EHistoryCap (n : Z)
| ELatestHistory (n : nat) (e : mergeErr)
| ELatestPanic
| EStreamDesc
| EStreamLimit
| EStreamAfter
| EStreamBefore
| EStuck (c : EventCursor).

Definition DiscoveryFailedSource : string := "(archive source discovery failed)".

Definition fm_validate (o : FetchMergedOptions) : () + mergeErr :=
  let q := fm_Opts o in
  if negb (fm_NoArchive o) && negb (fm_HasFetcher o) then inr ENoFetcher
  else if negb (fm_AllowGaps o) && bool_decide (fm_DBName o = "") &&
          (negb (bool_decide (o_Since q = None)) || negb (bool_decide (o_Until q = None))) then inr ENoDBName
  else match ValidateStatementFilter q with
       | inr e => inr (EFilter e)
       | inl _ =>
           if fm_LatestInBinlog o && ((o_LimitPerPK q <=? 0) || (0 <? o_Limit q)) then inr ELatestNeedsPerPK
           else if fm_LatestInBinlog o && (negb (bool_decide (o_PKValuesAlt q = "")) || (0 <? length (o_PKAliases q))%nat)
           then inr ELatestAliases else inl ()
       end.

(** ** The archives can be left unread *)

Definition anchorSatisfiedLive (o : Options) (rows : list ResultRow) : bool :=
  match o_EventAnchor o with
  | None => false
  | Some a => existsb (λ r, (EventID r =? cur_EventID a)%N && (EventTimestamp r =? cur_Timestamp a)) rows
  end.

(** The plan the three proofs share: one range, archives below it, coverage
    read. *)
Definition sound_plan (plan : option QueryPlan) : option TimeRange :=
  match plan with
  | Some p =>
      match MySQLRanges p with
      | [range] => if ArchivesBelowLive p && negb (ArchiveCoverageUnavailable p) then Some range else None
      | _ => None
      end
  | None => None
  end.

Definition windowSatisfiedLive (o : Options) (plan : option QueryPlan) : bool :=
  match o_Since o with
  | None => false
  | Some since =>
      if negb (bool_decide (o_SincePos o = None)) then false
      else match sound_plan plan with
           | None => false
           | Some range =>
               if (0 <? length (match plan with Some p => MisfiledArchiveHours p | None => [] end))%nat then false
               else negb (since <? Start range)
           end
  end.

Definition topNSatisfiedLive (o : Options) (rows : list ResultRow) (plan : option QueryPlan) : bool :=
  if (o_Limit o <=? 0) || (Z.of_nat (length rows) <? o_Limit o) || negb (bool_decide (OrderDirection (o_Order o) = "DESC"))
  then false
  else match sound_plan plan with
       | None => false
       | Some range => negb (EventTimestamp (rows !!! Z.to_nat (o_Limit o - 1)) <? Start range)
       end.

(** [oldest] of the rows; the zero time of none. *)
Definition oldest_row (rows : list ResultRow) : Z :=
  foldl (λ t r, if (t =? 0) || (EventTimestamp r <? t) then EventTimestamp r else t) 0 rows.

Definition perPKSatisfiedLive (o : Options) (rows : list ResultRow) (plan : option QueryPlan) : bool :=
  if o_LimitPerPK o <=? 0 then false
  else if o_LatestPerPKCandidates o then false
  else if negb (bool_decide (o_PKValuesAlt o = "")) then false
  else if (0 <? length (o_PKAliases o))%nat then false
  else
    let names := if negb (bool_decide (o_PKValues o = "")) then [o_PKValues o] else o_PKValuesIn o in
    if (length names =? 0)%nat then false
    else match sound_plan plan with
         | None => false
         | Some range =>
             if forallb (λ pk, negb (bool_decide (pk = "") ||
                   (Z.of_nat (length (filter (λ r, PKValues r = pk) rows)) <? o_LimitPerPK o))) names
             then negb (oldest_row rows <? Start range) else false
         end.

Definition ArchivesNotNeeded (o : Options) (rows : list ResultRow) (plan : option QueryPlan) : list ResultRow * bool :=
  if anchorSatisfiedLive o rows then (rows, true)
  else if windowSatisfiedLive o plan then (rows, true)
  else if topNSatisfiedLive o rows plan then (take (Z.to_nat (o_Limit o)) rows, true)
  else if perPKSatisfiedLive o rows plan then (rows, true)
  else (rows, false).

Definition ArchiveSkipNeedsPlan (o : Options) (rows : list ResultRow) : bool :=
  if negb (bool_decide (o_Since o = None)) && bool_decide (o_SincePos o = None) then true
  else if (0 <? o_Limit o) && (o_Limit o <=? Z.of_nat (length rows)) && bool_decide (OrderDirection (o_Order o) = "DESC") then true
  else (0 <? o_LimitPerPK o) && bool_decide (o_PKValuesAlt o = "") && (length (o_PKAliases o) =? 0)%nat &&
       (negb (bool_decide (o_PKValues o = "")) || (0 <? length (o_PKValuesIn o))%nat).

Definition PlanArchiveSkip (w : world) (o : Options) (archSources : list string) : option (option QueryPlan) :=
  let idx := plan_index w (ScopeFromPaths archSources) in
  if negb (bool_decide (o_Since o = None)) || negb (bool_decide (o_Until o = None))
  then Plan (w_now w) idx (o_Since o) (o_Until o) false
  else PlanBrowse idx.

(** ** Resolving the sources and the plan *)

Record mergeSources := {
  archSources : list string;
  ms_plan : option QueryPlan;
  discoveryFailed : bool;
  misfiledHoursOf : list Z;
}.

Definition no_sources : mergeSources :=
  {| archSources := []; ms_plan := None; discoveryFailed := false; misfiledHoursOf := [] |}.

Definition withoutFirstPartitionHours (gaps : list Z) (firstEnd origSince : Z) : list Z * list Z :=
  if firstEnd =? 0 then (gaps, [])
  else
    let asked := truncate_hour origSince in
    (filter (λ h, ¬ (h < firstEnd ∧ h < asked)) gaps, filter (λ h, h < firstEnd ∧ h < asked) gaps).

Definition set_gaps (p : QueryPlan) (gaps : list Z) : QueryPlan := {|
  MySQLRanges := MySQLRanges p; GapHours := gaps; OldestKnownHour := OldestKnownHour p;
  ArchivesBelowLive := ArchivesBelowLive p; MisfiledArchiveHours := MisfiledArchiveHours p;
  ArchiveCoverageUnavailable := ArchiveCoverageUnavailable p |}.

(** The plan of the read, after discovery: [None] is a refusal. *)
Definition resolve_plan (w : world) (o : FetchMergedOptions) (srcs : list string) (failed moved : bool) (firstEnd origSince : Z)
    : option QueryPlan * list Z + mergeErr :=
  let q := fm_Opts o in
  if negb (bool_decide (fm_DBName o = "")) &&
     ((0 <? length srcs)%nat || negb (bool_decide (o_Since q = None)) || negb (bool_decide (o_Until q = None)))
  then
    let scope := if failed then AllArchives else ScopeFromPaths srcs in
    match Plan (w_now w) (plan_index w scope) (o_Since q) (o_Until q) (fm_NoArchive o) with
    | None => if negb (fm_AllowGaps o) then inr EPlanner else inl (None, [])
    | Some None => inl (None, [])
    | Some (Some p) =>
        let p := if moved then set_gaps p (withoutFirstPartitionHours (GapHours p) firstEnd origSince).1 else p in
        inl (Some p, MisfiledArchiveHours p)
    end
  else inl (None, []).

(** [resolveMergeSources]: the sources it got to, and the options with the
    settled floor or the error. *)
Definition resolveMergeSources (w : world) (o : FetchMergedOptions) : mergeSources * (FetchMergedOptions + mergeErr) :=
  let q := fm_Opts o in
  match settleSince (w_index w) (w_fresh w) {| fo_Since := o_Since q; fo_SincePos := o_SincePos q; fo_UntilPos := o_UntilPos q;
          fo_ArchivesCheckedThrough := o_ArchivesCheckedThrough q; fo_Schema := o_Schema q; fo_Table := o_Table q;
          fo_sinceSettled := o_sinceSettled q |} (fm_PartitionHeads o) with
  | inr e => (no_sources, inr (ESettle e))
  | inl (moved, firstEnd, fo) =>
      let o := with_opts o (set_since q (fo_Since fo) (fo_sinceSettled fo)) in
      let resolved := if fm_NoArchive o then Some [] else w_sources w in
      if bool_decide (resolved = None) && negb (fm_AllowGaps o) then (no_sources, inr EResolve)
      else
        let failed := bool_decide (resolved = None) in
        let srcs := default [] resolved in
        let src0 := {| archSources := srcs; ms_plan := None; discoveryFailed := failed; misfiledHoursOf := [] |} in
        match resolve_plan w o srcs failed moved firstEnd (default 0 (o_Since q)) with
        | inr e => (src0, inr e)
        | inl (plan, misfiled) =>
            let plan :=
              if bool_decide (plan = None) && (0 <? length srcs)%nat && negb (bool_decide (fm_DBName o = "")) &&
                 bool_decide (o_Since (fm_Opts o) = None) && bool_decide (o_Until (fm_Opts o) = None)
              then match PlanBrowse (plan_index w (ScopeFromPaths srcs)) with Some p => p | None => None end
              else plan in
            let src := {| archSources := srcs; ms_plan := plan; discoveryFailed := failed; misfiledHoursOf := misfiled |} in
            match plan with
            | Some p =>
                if (0 <? length (GapHours p))%nat && negb (fm_AllowGaps o)
                then (src, inr (EGap (GapHours p) (OldestKnownHour p))) else (src, inl o)
            | None => (src, inl o)
            end
        end
  end.

(** ** One page *)

(** The rows, the sources that failed, the sources with nothing, the duplicates
    that disagree, whether the archives were left unread. *)
Record page := {
  pg_rows : list ResultRow;
  skipped : list string;
  exhausted : list string;
  diverged : Z;
  archivesElided : bool;
}.

(** The loop over the archive sources. *)
Fixpoint read_archives (w : world) (allowGaps : bool) (q : Options) (srcs : list string)
    (st : list ResultRow * list string * list string) : list ResultRow * list string * list string + mergeErr :=
  match srcs with
  | [] => inl st
  | s :: rest =>
      let '(rows, sk, ex) := st in
      match w_archive w q s with
      | None => if negb allowGaps then inr (EArchive s) else read_archives w allowGaps q rest (rows, sk ++ [s], ex)
      | Some ar =>
          let ex := if (length ar =? 0)%nat then ex ++ [s] else ex in
          read_archives w allowGaps q rest (rows ++ ar, sk, ex)
      end
  end.

Definition live_rows (w : world) (q : Options) : list ResultRow + mergeErr :=
  match w_engine w q with inl rows => inl rows | inr e => inr (EEngine e) end.

Definition fetchPageRows (w : world) (o : FetchMergedOptions) (src : mergeSources) : page + mergeErr :=
  let q := fm_Opts o in
  match archSources src with
  | [] =>
      rows ←? live_rows w q;
      inl {| pg_rows := rows; skipped := []; exhausted := []; diverged := 0; archivesElided := false |}
  | srcs =>
      rows ←? (if SkipMySQL (ms_plan src) then inl [] else live_rows w q);
      let '(kept, ok) := ArchivesNotNeeded q rows (ms_plan src) in
      if ok then inl {| pg_rows := kept; skipped := []; exhausted := []; diverged := 0; archivesElided := true |}
      else
        '(rows, sk, ex) ←? read_archives w (fm_AllowGaps o) (set_extra q (misfiledHoursOf src)) srcs (rows, [], []);
        let limitPerPK := if o_LatestPerPKCandidates q then 0 else o_LimitPerPK q in
        let '(rows, dv) := MergeAndTrimReport rows (o_Limit q) limitPerPK (o_Order q) in
        inl {| pg_rows := rows; skipped := sk; exhausted := ex; diverged := dv; archivesElided := false |}
  end.

Definition historyBatch : nat := 500.

(** [fetchKeyHistory] over its batches. *)
Fixpoint history_loop (w : world) (o : FetchMergedOptions) (src : mergeSources) (ks : list (list string)) (out : list ResultRow)
    : list ResultRow + mergeErr :=
  match ks with
  | [] => inl out
  | k :: rest =>
      let q := fm_Opts o in
      let q := set_keys (set_per_pk q 0 false) "" k in
      let q := if 0 <? fm_HistoryRowCap o then set_limit q (fm_HistoryRowCap o - Z.of_nat (length out) + 1) else q in
      let h := {| fm_Opts := q; fm_DBName := fm_DBName o; fm_NoArchive := fm_NoArchive o; fm_AllowGaps := fm_AllowGaps o;
                  fm_HasFetcher := fm_HasFetcher o; fm_PartitionHeads := fm_PartitionHeads o;
                  fm_LatestInBinlog := false; fm_HistoryRowCap := fm_HistoryRowCap o |} in
      p ←? fetchPageRows w h src;
      let out := out ++ pg_rows p in
      if (0 <? fm_HistoryRowCap o) && (fm_HistoryRowCap o <? Z.of_nat (length out))
      then inr (EHistoryCap (fm_HistoryRowCap o)) else history_loop w o src rest out
  end.

Definition fetchKeyHistory (w : world) (o : FetchMergedOptions) (src : mergeSources) (pks : list string)
    : list ResultRow + mergeErr :=
  history_loop w o src (batches (length pks) historyBatch pks) [].

(** [fetchPage], and what [LatestOrder] receives. *)
Definition fetchPage (w : world) (o : FetchMergedOptions) (src : mergeSources) : page * LatestPerPKOrder + mergeErr :=
  if negb (fm_LatestInBinlog o) then p ←? fetchPageRows w o src; inl (p, zero_order)
  else
    let o := with_opts o (set_per_pk (fm_Opts o) (o_LimitPerPK (fm_Opts o)) true) in
    p ←? fetchPageRows w o src;
    match LatestPerPKInBinlog (Some (w_proof w)) (pg_rows p) (o_LimitPerPK (fm_Opts o)) (Some (fetchKeyHistory w o src)) with
    | inr (EHistory n e) => inr (ELatestHistory n e)
    | inr EPanic => inr ELatestPanic
    | inl (rows, order) =>
        let rows := if bool_decide (OrderDirection (o_Order (fm_Opts o)) = "DESC") then reverse rows else rows in
        inl ({| pg_rows := rows; skipped := skipped p; exhausted := exhausted p; diverged := diverged p;
                archivesElided := archivesElided p |}, order)
    end.

Definition FetchMergedFull (w : world) (o : FetchMergedOptions) : option QueryPlan * (page * LatestPerPKOrder + mergeErr) :=
  match fm_validate o with
  | inr e => (None, inr e)
  | inl _ =>
      let '(src, settled) := resolveMergeSources w o in
      (ms_plan src,
       match settled with
       | inr e => inr e
       | inl o =>
           '(p, order) ←? fetchPage w o src;
           inl ({| pg_rows := pg_rows p;
                   skipped := if discoveryFailed src then skipped p ++ [DiscoveryFailedSource] else skipped p;
                   exhausted := exhausted p; diverged := diverged p; archivesElided := archivesElided p |}, order)
       end)
  end.

Definition FetchMerged (w : world) (o : FetchMergedOptions) : option QueryPlan * (list ResultRow + mergeErr) :=
  let '(plan, r) := FetchMergedFull w o in
  (plan, match r with inl (p, _) => inl (pg_rows p) | inr e => inr e end).

Definition VerifyMergedCoverage (w : world) (o : FetchMergedOptions) : () + mergeErr :=
  _ ←? fm_validate o;
  match (resolveMergeSources w o).2 with inl _ => inl () | inr e => inr e end.

(** ** The paged read *)

Definition DefaultStreamBatchSize : Z := 100000.

Definition withoutSources (srcs drop : list string) : list string := filter (λ s, s ∉ drop) srcs.

Section stream.
(** The caller's state and the callback on a page; an error stops the walk. *)
Context {S E : Type} (fn : S → list ResultRow → S + E).

Inductive streamEnd := SDone | SFailed (e : mergeErr) | SStopped (e : E).

(** The variables of the loop. *)
Record streamState := {
  sr_cursor : option EventCursor;
  sr_sources : list string;
  sr_skipped : list string;
  sr_caller : S;
}.

Definition with_sources (src : mergeSources) (srcs : list string) : mergeSources := {|
  archSources := srcs; ms_plan := ms_plan src; discoveryFailed := discoveryFailed src;
  misfiledHoursOf := misfiledHoursOf src |}.

(** One pass: the next state, or the end of the walk with the last one. *)
Definition stream_pass (w : world) (o : FetchMergedOptions) (src : mergeSources) (batchSize : Z) (st : streamState)
    : streamState + (streamEnd * streamState) :=
  let o := with_opts o (set_after (set_limit (fm_Opts o) batchSize) (sr_cursor st)) in
  match fetchPage w o (with_sources src (sr_sources st)) with
  | inr e => inr (SFailed e, st)
  | inl (p, _) =>
      let srcs := withoutSources (withoutSources (sr_sources st) (exhausted p)) (skipped p) in
      let st := {| sr_cursor := sr_cursor st; sr_sources := srcs; sr_skipped := sr_skipped st ++ skipped p;
                   sr_caller := sr_caller st |} in
      match last (pg_rows p) with
      | None => if (0 <? length (skipped p))%nat then inl st else inr (SDone, st)
      | Some r =>
          let next := cursor_of r in
          if match sr_cursor st with Some c => negb (After next c) | None => false end
          then inr (SFailed (EStuck (default next (sr_cursor st))), st)
          else match fn (sr_caller st) (pg_rows p) with
               | inr e => inr (SStopped e, st)
               | inl caller =>
                   let st := {| sr_cursor := sr_cursor st; sr_sources := sr_sources st; sr_skipped := sr_skipped st;
                                sr_caller := caller |} in
                   if (Z.of_nat (length (pg_rows p)) <? batchSize) && (length (skipped p) =? 0)%nat then inr (SDone, st)
                   else inl {| sr_cursor := Some next; sr_sources := sr_sources st; sr_skipped := sr_skipped st;
                               sr_caller := sr_caller st |}
               end
      end
  end.

(** The loop; [ws] gives the world each pass meets. [None]: out of fuel. *)
Fixpoint stream_loop (fuel : nat) (ws : nat → world) (o : FetchMergedOptions) (src : mergeSources) (batchSize : Z)
    (st : streamState) : option (streamEnd * streamState) :=
  match fuel with
  | O => None
  | Datatypes.S fuel =>
      match stream_pass (ws O) o src batchSize st with
      | inr r => Some r
      | inl st => stream_loop fuel (λ k, ws (Datatypes.S k)) o src batchSize st
      end
  end.

Definition stream_guard (o : FetchMergedOptions) : () + mergeErr :=
  _ ←? fm_validate o;
  if bool_decide (OrderDirection (o_Order (fm_Opts o)) = "DESC") then inr EStreamDesc
  else if negb (o_Limit (fm_Opts o) =? 0) || negb (o_LimitPerPK (fm_Opts o) =? 0) then inr EStreamLimit
  else if negb (bool_decide (o_AfterEvent (fm_Opts o) = None)) then inr EStreamAfter
  else if negb (bool_decide (o_BeforeEvent (fm_Opts o) = None)) then inr EStreamBefore
  else inl ().

(** [w] is the world of the prologue, [ws] those of the passes. *)
Definition FetchMergedStream (fuel : nat) (w : world) (ws : nat → world) (o : FetchMergedOptions) (batchSize : Z) (caller : S)
    : option QueryPlan * option (streamEnd * S) :=
  match stream_guard o with
  | inr e => (None, Some (SFailed e, caller))
  | inl _ =>
      let batchSize := if batchSize <=? 0 then DefaultStreamBatchSize else batchSize in
      let '(src, settled) := resolveMergeSources w o in
      (ms_plan src,
       match settled with
       | inr e => Some (SFailed e, caller)
       | inl o =>
           match stream_loop fuel ws o src batchSize
                   {| sr_cursor := None; sr_sources := archSources src; sr_skipped := []; sr_caller := caller |} with
           | Some (e, st) => Some (e, sr_caller st)
           | None => None
           end
       end)
  end.
End stream.
