(* ===== verification/MergedRead.v ===== *)
(** * A merged read answers as one table would

    The reference of a read is what one table holding every event would answer.
    Reading the live index and the archives separately, each with the read's own
    limits, and merging gives that answer, and so does leaving the archives
    unread when a short-circuit says so. *)
From S2P Require Import Prelude GoStrings GoText GoTime GoVal Event Rows Merge BinlogOrder TopN MergeLatest PkRange Planner PositionFloor QueryWhere QueryFetch NewestWalk LatestPK FetchMerged.

Open Scope Z_scope.

Section merged.
Context `{M : MySQL, L : !MySQLLaws M} (flags : list flagRow).

(** What an honest source answers. *)
Definition answer (q : Options) (rows : list ResultRow) : list ResultRow :=
  sort_by (merge_compare (o_Order q)) (key_rows flags q rows).

(** What one table of the rows would answer. *)
Definition reference (q : Options) (rows : list ResultRow) : list ResultRow :=
  (MergeAndTrimReport (kept flags q rows) (o_Limit q) (o_LimitPerPK q) (o_Order q)).1.

(** The rows a read chooses its page from: all it keeps, or the latest of each
    key. *)
Definition pool (q : Options) (rows : list ResultRow) : list ResultRow :=
  if 0 <? o_LimitPerPK q then latest (Z.to_nat (o_LimitPerPK q)) (kept flags q rows) else kept flags q rows.

(** A cap per key needs keys, and a collation that tells them apart. *)
Definition keyed (q : Options) (rows : list ResultRow) : Prop :=
  0 < o_LimitPerPK q →
  ∀ r r', r ∈ kept flags q rows → r' ∈ kept flags q rows →
    PKValues r ≠ "" ∧ (coll_eq (PKValues r) (PKValues r') = true → PKValues r = PKValues r').

Lemma keyed_sub q a b : a ⊆ b → keyed q b → keyed q a.
Proof.
  intros Hs H Hn r r' Hr Hr'. apply H; [done|..]; unfold kept in *; apply list_elem_of_filter in Hr as [??], Hr' as [??];
    apply list_elem_of_filter; auto.
Qed.

Lemma cap_top order limit l : 0 ≤ limit →
  cap limit (sort_by (merge_compare order) l) = if 0 <? limit then top (merge_compare order) (Z.to_nat limit) l else sort_by (merge_compare order) l.
Proof.
  intros H. destruct (Z.ltb_spec 0 limit) as [Hl|Hl]; [by apply cap_take|]. by replace limit with 0 by lia.
Qed.

Lemma asc_order q : bool_decide (OrderDirection (o_Order q) = "DESC") = false → merge_compare (o_Order q) = asc.
Proof. intros E. unfold merge_compare. by rewrite E. Qed.

Lemma desc_order q : bool_decide (OrderDirection (o_Order q) = "DESC") = true → merge_compare (o_Order q) = desc.
Proof. intros E. unfold merge_compare. by rewrite E. Qed.

Lemma pool_ids q rows : NoDup (EventID <$> rows) → NoDup (EventID <$> pool q rows).
Proof.
  intros H. unfold pool. destruct (0 <? _); [apply latest_ids|]; by apply kept_ids.
Qed.

(** A merge with the read's limits: the page of its pool. *)
Lemma trim_pool u limit n order : NoDup (EventID <$> (merge_loop u).1.2) → 0 ≤ limit → 0 ≤ n →
  (0 < n → Forall (λ r, PKValues r ≠ "") (merge_loop u).1.2) →
  (MergeAndTrimReport u limit n order).1 =
  cap limit (sort_by (merge_compare order)
    (if 0 <? n then latest (Z.to_nat n) (merge_loop u).1.2 else (merge_loop u).1.2)).
Proof.
  intros Hid Hl Hn Hk. set (d := (merge_loop u).1.2) in *. unfold MergeAndTrimReport.
  destruct (Z.ltb_spec 0 n) as [Hpos|Hzero].
  - rewrite MergeResultsReport_eq, cap_0. cbn [fst snd]. fold d.
    assert (LimitPerPK (sort_by asc d) n = sort_by asc (latest (Z.to_nat n) d)) as ->.
    { rewrite <- (Z2Nat.id n) at 1 by lia. apply LimitPerPK_is_latest; [done|by apply Hk|lia]. }
    assert (NoDup (EventID <$> latest (Z.to_nat n) d)) as Hld by by apply latest_ids.
    destruct (bool_decide (OrderDirection order = "DESC")) eqn:Ed; cbn [fst].
    + rewrite MergeResults_eq. rewrite (proj1 (merge_loop_NoDup (sort_by asc (latest (Z.to_nat n) d)) ltac:(by rewrite sort_by_perm))).
      assert (merge_compare order = desc) as -> by (unfold merge_compare; by rewrite Ed).
      f_equal. apply merge_sort_perm; [|apply sort_by_perm]. by rewrite sort_by_perm.
    + assert (merge_compare order = asc) as -> by (unfold merge_compare; by rewrite Ed). done.
  - rewrite MergeResultsReport_eq. cbn [fst snd]. fold d. by rewrite cap_0.
Qed.

Section reads.
Context (q : Options) (Hlim : 0 ≤ o_Limit q) (Hper : 0 ≤ o_LimitPerPK q) (Hcand : o_LatestPerPKCandidates q = false).

Lemma reference_pool rows : NoDup (EventID <$> rows) → keyed q rows →
  reference q rows = cap (o_Limit q) (sort_by (merge_compare (o_Order q)) (pool q rows)).
Proof.
  intros Hid Hk. unfold reference. pose proof (kept_ids flags q rows Hid) as Hkid.
  rewrite trim_pool; [| |done|done|]; rewrite (proj1 (merge_loop_NoDup _ Hkid)); [done|done|].
  intros Hn. apply Forall_forall. intros r Hr. by apply (Hk Hn r r).
Qed.

(** The statement's cap per key is the merge's. *)
Lemma answer_pool rows : NoDup (EventID <$> rows) → keyed q rows →
  answer q rows = cap (o_Limit q) (sort_by (merge_compare (o_Order q)) (pool q rows)).
Proof.
  intros Hid Hk. unfold answer, key_rows, pool, kept. rewrite cap_top by done.
  set (k := filter (λ r, matches flags q r = true) rows).
  assert ((if 0 <? o_LimitPerPK q then per_key q k else k) =
          (if 0 <? o_LimitPerPK q then latest (Z.to_nat (o_LimitPerPK q)) k else k)) as ->.
  { destruct (Z.ltb_spec 0 (o_LimitPerPK q)) as [Hn|]; [|done]. unfold per_key, latest. rewrite Hcand.
    apply filter_iff_in. intros r Hr. enough (rank_in compareStatementTime k r = rank k r) as -> by naive_solver.
    unfold rank_in, rank, same_key, of_key. do 2 f_equal. apply filter_iff_in. intros r' Hr'.
    destruct (Hk Hn r' r Hr' Hr) as [_ Hc]. split; [done|]. intros ->. apply coll_eq_refl. }
  destruct (0 <? o_Limit q); [|done].
  apply sort_by_id. eapply StronglySorted_sublist; [apply sublist_take|apply sort_by_sorted, _].
Qed.

Lemma answer_reference rows : NoDup (EventID <$> rows) → keyed q rows → answer q rows = reference q rows.
Proof. intros. by rewrite answer_pool, reference_pool. Qed.

Lemma kept_elem rows r : r ∈ kept flags q rows ↔ matches flags q r = true ∧ r ∈ rows.
Proof. unfold kept. by rewrite list_elem_of_filter. Qed.

Lemma pool_sub rows : pool q rows ⊆ kept flags q rows.
Proof. unfold pool. destruct (0 <? _); [|done]. intros r [_ ?]%elem_of_latest. done. Qed.

Lemma answer_sub rows r : NoDup (EventID <$> rows) → keyed q rows → r ∈ answer q rows → r ∈ pool q rows.
Proof.
  intros Hid Hk. rewrite answer_pool by done. intros H. unfold cap in H. destruct (_ && _).
  - by apply (top_sub (merge_compare (o_Order q)) (Z.to_nat (o_Limit q))).
  - by rewrite elem_of_sort_by in H.
Qed.

(** A reference only depends on the rows kept. *)
Lemma reference_perm a b : NoDup (EventID <$> a) → keyed q a → kept flags q a ≡ₚ kept flags q b →
  NoDup (EventID <$> b) → keyed q b → reference q a = reference q b.
Proof.
  intros Ha Ka Hp Hb Kb. rewrite !reference_pool by done. f_equal.
  apply merge_sort_perm; [by apply pool_ids|]. unfold pool. destruct (0 <? _); [|done].
  unfold latest. rewrite Hp. apply NoDup_Permutation.
  - apply NoDup_filter, rows_NoDup, kept_ids, Hb.
  - apply NoDup_filter, rows_NoDup, kept_ids, Hb.
  - intros r. rewrite !list_elem_of_filter. unfold rank, of_key. by rewrite Hp.
Qed.

(** The parts of a table as sources hold them: distinct rows each, copies of one
    event the same, no spans. *)
Record parted (all : list ResultRow) (parts : list (list ResultRow)) : Prop := {
  pt_ids : NoDup (EventID <$> all);
  pt_plain : Forall no_span all;
  pt_parts p : p ∈ parts → NoDup (EventID <$> p) ∧ p ⊆ all;
  pt_cover r : r ∈ all → ∃ p, p ∈ parts ∧ r ∈ p;
}.

(** The limits under which cut pages merge: not an ascending page of the latest
    of each key. *)
Definition limits_merge : Prop :=
  o_LimitPerPK q = 0 ∨ o_Limit q = 0 ∨ bool_decide (OrderDirection (o_Order q) = "DESC") = true.

Section parts.
Context (all : list ResultRow) (parts : list (list ResultRow)) (P : parted all parts) (K : keyed q all) (H : limits_merge).

Lemma part_keyed p : p ∈ parts → keyed q p.
Proof. intros Hp. eapply keyed_sub; [|exact K]. by apply (pt_parts _ _ P). Qed.

Lemma part_answer p r : p ∈ parts → r ∈ answer q p → r ∈ pool q p ∧ r ∈ kept flags q all.
Proof.
  intros Hp Hr. destruct (pt_parts _ _ P p Hp) as [Hid Hs]. apply answer_sub in Hr; [|done|by apply part_keyed].
  split; [done|]. apply pool_sub, kept_elem in Hr as [??]. apply kept_elem. auto.
Qed.

(** The distinct rows of the answers. *)
Lemma answers_distinct : let u := (merge_loop (mjoin (answer q <$> parts))).1.2 in
  NoDup (EventID <$> u) ∧ (∀ r, r ∈ u ↔ ∃ p, p ∈ parts ∧ r ∈ answer q p) ∧ u ⊆ kept flags q all.
Proof.
  assert (∀ r, r ∈ mjoin (answer q <$> parts) ↔ ∃ p, p ∈ parts ∧ r ∈ answer q p) as Hm.
  { intros r. rewrite list_elem_of_join. setoid_rewrite list_elem_of_fmap. naive_solver. }
  assert (mjoin (answer q <$> parts) ⊆ kept flags q all) as Hsub.
  { intros r (p & Hp & Hr)%Hm. by apply (part_answer p). }
  destruct (merge_loop_plain (mjoin (answer q <$> parts))) as [Hn He].
  - apply Forall_forall. intros r Hr%Hsub. apply kept_elem in Hr as [_ Hr]. pose proof (pt_plain _ _ P) as Hpl.
    rewrite Forall_forall in Hpl. auto.
  - intros r r' Hr%Hsub Hr'%Hsub. apply kept_elem in Hr as [_ ?], Hr' as [_ ?]. eapply NoDup_id_inj; [apply P|done..].
  - split_and!; [done| |].
    + intros r. by rewrite He.
    + intros r. rewrite He. apply Hsub.
Qed.

(** Everything a read chooses of a part with no limit is in the part's answer. *)
Lemma answer_all p r : o_Limit q = 0 → p ∈ parts → r ∈ pool q p → r ∈ answer q p.
Proof.
  intros Hl Hp Hr. destruct (pt_parts _ _ P p Hp). rewrite answer_pool, Hl, cap_0 by (try apply part_keyed; done).
  by rewrite elem_of_sort_by.
Qed.

Lemma kept_parts r : r ∈ kept flags q all → ∃ p, p ∈ parts ∧ r ∈ kept flags q p.
Proof.
  intros [Hm Hr]%kept_elem. destruct (pt_cover _ _ P r Hr) as (p & Hp & Hrp). exists p. rewrite kept_elem. auto.
Qed.

Lemma part_kept p : p ∈ parts → NoDup (EventID <$> kept flags q p) ∧ kept flags q p ⊆ kept flags q all.
Proof.
  intros Hp. destruct (pt_parts _ _ P p Hp) as [Hid Hs]. split; [by apply kept_ids|].
  intros r. rewrite !kept_elem. naive_solver.
Qed.

Abbreviation u := ((merge_loop (mjoin (answer q <$> parts))).1.2).

Lemma all_kept_ids : NoDup (EventID <$> kept flags q all).
Proof. apply kept_ids, P. Qed.

(** The merge of pages without a cap per key. *)
Lemma merged_plain : o_LimitPerPK q = 0 →
  cap (o_Limit q) (sort_by (merge_compare (o_Order q)) u) = cap (o_Limit q) (sort_by (merge_compare (o_Order q)) (kept flags q all)).
Proof.
  intros Hn. destruct answers_distinct as (Hu & Hin & Hsub).
  assert (∀ p, pool q p = kept flags q p) as Hpool by (intros p; unfold pool; by rewrite Hn).
  destruct (decide (o_Limit q = 0)) as [Hl|Hl].
  - f_equal. apply merge_sort_perm; [done|]. apply NoDup_Permutation; [by apply rows_NoDup|by apply rows_NoDup, all_kept_ids|].
    intros r. split; [apply Hsub|]. intros (p & Hp & Hr)%kept_parts. apply Hin. exists p. split; [done|].
    apply answer_all; [done..|by rewrite Hpool].
  - rewrite !cap_top, (proj2 (Z.ltb_lt 0 _)) by lia.
    apply (top_union _ (kept flags q all) (kept flags q <$> parts)).
    + apply rows_apart, all_kept_ids.
    + apply rows_NoDup, all_kept_ids.
    + apply Forall_fmap, Forall_forall. intros p Hp. destruct (part_kept p Hp). split; [by apply rows_NoDup|done].
    + intros r (p & Hp & Hr)%kept_parts. exists (kept flags q p). split; [by apply list_elem_of_fmap_2|done].
    + by apply rows_NoDup.
    + intros r. rewrite Hin. setoid_rewrite list_elem_of_fmap. split.
      * intros (p & Hp & Hr). destruct (pt_parts _ _ P p Hp). rewrite answer_pool in Hr by (try apply part_keyed; done).
        rewrite cap_top, (proj2 (Z.ltb_lt 0 _)), Hpool in Hr by lia. eauto.
      * intros (l & (p & -> & Hp) & Hr). exists p. split; [done|]. destruct (pt_parts _ _ P p Hp).
        rewrite answer_pool by (try apply part_keyed; done). by rewrite cap_top, (proj2 (Z.ltb_lt 0 _)), Hpool by lia.
Qed.

(** ... and with one. *)
Lemma merged_per_key (n := Z.to_nat (o_LimitPerPK q)) : 0 < o_LimitPerPK q →
  cap (o_Limit q) (sort_by (merge_compare (o_Order q)) (latest n u)) =
  cap (o_Limit q) (sort_by (merge_compare (o_Order q)) (latest n (kept flags q all))).
Proof.
  intros Hn. destruct answers_distinct as (Hu & Hin & Hsub). pose proof all_kept_ids as Ha.
  assert (∀ p, pool q p = latest n (kept flags q p)) as Hpool.
  { intros p. unfold pool. by rewrite (proj2 (Z.ltb_lt 0 _)) by lia. }
  destruct (decide (o_Limit q = 0)) as [Hl|Hl].
  - f_equal. apply merge_sort_perm; [by apply latest_ids|]. apply NoDup_Permutation.
    + by apply rows_NoDup, latest_ids.
    + by apply rows_NoDup, latest_ids.
    + apply latest_squeeze; [done..|]. intros r Hr. destruct (kept_parts r) as (p & Hp & Hrp).
      { by apply elem_of_latest in Hr as [_ ?]. }
      apply Hin. exists p. split; [done|]. apply answer_all; [done..|]. rewrite Hpool.
      destruct (part_kept p Hp). by apply (latest_part (kept flags q all)).
  - destruct H as [?|[?|Hd]]; [lia|done|]. rewrite (desc_order q Hd). rewrite !cap_top, (proj2 (Z.ltb_lt 0 _)) by lia.
    apply top_latest_squeeze; [done..|]. intros r Hr. destruct (kept_parts r) as (p & Hp & Hrp).
    { apply top_sub, elem_of_latest in Hr as [_ ?]. done. }
    apply Hin. exists p. split; [done|]. destruct (part_kept p Hp), (pt_parts _ _ P p Hp).
    rewrite answer_pool by (try apply part_keyed; done). rewrite cap_top, (proj2 (Z.ltb_lt 0 _)), Hpool by lia.
    rewrite (desc_order q Hd). by apply (top_latest_part (kept flags q all)).
Qed.

(** Merging the answers of the parts is the answer of the whole. *)
Lemma merged_reference :
  (MergeAndTrimReport (mjoin (answer q <$> parts)) (o_Limit q) (o_LimitPerPK q) (o_Order q)).1 = reference q all.
Proof.
  destruct answers_distinct as (Hu & Hin & Hsub). rewrite reference_pool by (try apply P; done).
  rewrite trim_pool; [|done..|].
  - unfold pool. destruct (Z.ltb_spec 0 (o_LimitPerPK q)); [by apply merged_per_key|by apply merged_plain; lia].
  - intros Hn. apply Forall_forall. intros r Hr%Hsub. by apply (K Hn r r).
Qed.
End parts.

(** ** The short-circuits *)

Lemma earlier_lt a b : EventTimestamp a < EventTimestamp b → compareStatementTime a b = Lt.
Proof. intros Hlt. unfold compareStatementTime, cmp_or. by rewrite (proj2 (Z.compare_lt_iff _ _)). Qed.

Lemma after_ge a b : compareStatementTime a b = Lt → EventTimestamp a ≤ EventTimestamp b.
Proof.
  unfold compareStatementTime, cmp_or. destruct (Z.compare_spec (EventTimestamp a) (EventTimestamp b)); intros; [lia|lia|done].
Qed.

Section skip.
Context (all live : list ResultRow) (Ha : NoDup (EventID <$> all)) (Hl : NoDup (EventID <$> live)) (Hs : live ⊆ all).
Context (K : keyed q all).

Lemma live_keyed : keyed q live.
Proof. by eapply keyed_sub. Qed.

(** Where every row the read keeps is live, the live answer is the answer. *)
Lemma skip_same : (∀ r, r ∈ all → matches flags q r = true → r ∈ live) → answer q live = reference q all.
Proof.
  intros H. rewrite answer_reference by (try apply live_keyed; done).
  apply reference_perm; [done|apply live_keyed| |done|done].
  apply NoDup_Permutation; [by apply rows_NoDup, kept_ids..|]. intros r. rewrite !kept_elem. naive_solver.
Qed.

Lemma skip_anchor : anchorSatisfiedLive q (answer q live) = true → answer q live = reference q all.
Proof.
  unfold anchorSatisfiedLive. destruct (o_EventAnchor q) as [a|] eqn:Ea; [|done].
  intros (r & Hr & Hra)%existsb_elem. apply skip_same. intros r' Hr' Hm.
  apply answer_sub in Hr; [|done|apply live_keyed]. apply pool_sub, kept_elem in Hr as [Hmr Hr].
  assert (holds flags (CAnchor a) r' = true) as Hh.
  { eapply matches_cond; [|exact Hm]. in_where. }
  simpl in Hh. rewrite andb_true_iff in Hh, Hra. rewrite !N.eqb_eq in *.
  rewrite (NoDup_id_inj all r' r); [done..|by apply Hs|]. destruct Hh, Hra. congruence.
Qed.

(** The archived rows are below a time. *)
Context (start : Z) (Hbelow : ∀ r, r ∈ all → r ∉ live → EventTimestamp r < start).

Lemma skip_window since : o_Since q = Some since → o_SincePos q = None → start ≤ since → answer q live = reference q all.
Proof.
  intros Es Ep Hge. apply skip_same. intros r Hr Hm. destruct (decide (r ∈ live)) as [|Hn]; [done|exfalso].
  pose proof (Hbelow r Hr Hn). destruct (matches_floor flags q r Hm) as [_|?]; [|congruence].
  assert (holds flags (CTimeGe since) r = true) as Hh.
  { eapply matches_cond; [|exact Hm]. in_where. }
  simpl in Hh. lia.
Qed.

(** A live row at or above that time has its rank among the live rows. *)
Lemma live_rank r : start ≤ EventTimestamp r → (rank (kept flags q all) r ≤ rank (kept flags q live) r)%nat.
Proof.
  intros Hge. apply submseteq_length, NoDup_submseteq; [by repeat apply NoDup_filter; apply rows_NoDup|].
  intros x. unfold of_key, kept. rewrite !list_elem_of_filter. intros (Hlt & Hk & Hm & Hx). split_and!; [done..|].
  destruct (decide (x ∈ live)) as [|Hn]; [done|]. pose proof (Hbelow x Hx Hn). apply after_ge in Hlt. lia.
Qed.

Lemma live_pool r : start ≤ EventTimestamp r → r ∈ pool q live → r ∈ pool q all.
Proof.
  intros Hge Hr. pose proof (pool_sub live r Hr) as [Hm Hin]%kept_elem. unfold pool in *.
  destruct (0 <? _); [|apply kept_elem; auto].
  apply elem_of_latest in Hr as [Hlt _]. apply elem_of_latest. pose proof (live_rank r Hge).
  rewrite kept_elem. split; [lia|auto].
Qed.

(** The newest of the whole are live once [m] live rows are above the archives. *)
Lemma skip_newest m page : top desc m (pool q live) = page → length page = m →
  Forall (λ r, start ≤ EventTimestamp r) page → top desc m (pool q all) = page.
Proof.
  intros Hpage Hlen Hge. rewrite Forall_forall in Hge.
  assert (top desc m (pool q all) ⊆ kept flags q live) as Hsub.
  { intros r Hr. pose proof (top_sub desc m _ _ Hr) as Hrp. pose proof (pool_sub all r Hrp) as [Hm Hra]%kept_elem.
    apply kept_elem. split; [done|]. destruct (decide (r ∈ live)) as [|Hn]; [done|exfalso].
    pose proof (Hbelow r Hra Hn).
    apply top_count in Hr; [|apply _|apply rows_apart, pool_ids, Ha|apply rows_NoDup, pool_ids, Ha|done].
    assert (length page ≤ length (filter (λ y, desc y r = Lt) (pool q all)))%nat; [|lia].
    apply submseteq_length, NoDup_submseteq.
    - rewrite <- Hpage. apply top_NoDup, rows_NoDup, pool_ids, Hl.
    - intros x Hx. pose proof (Hge x Hx). rewrite <- Hpage in Hx. apply top_sub in Hx. apply list_elem_of_filter.
      split; [|by apply live_pool]. unfold merge_compare. simpl.
      rewrite (cmp_antisym compareStatementTime), earlier_lt by lia. done. }
  rewrite <- Hpage. symmetry. unfold pool in *. destruct (0 <? o_LimitPerPK q).
  - apply top_latest_squeeze; [by apply kept_ids..| |done]. intros r. rewrite !kept_elem. naive_solver.
  - apply top_squeeze; [apply _|by apply rows_apart, kept_ids|by apply rows_NoDup, kept_ids..| |done].
    intros r. rewrite !kept_elem. naive_solver.
Qed.

Lemma desc_time a b : desc a b ≠ Gt → EventTimestamp b ≤ EventTimestamp a.
Proof.
  intros Hd. destruct (Z.lt_ge_cases (EventTimestamp a) (EventTimestamp b)) as [Hlt|]; [|lia].
  destruct Hd. unfold merge_compare. simpl. by rewrite earlier_lt.
Qed.

Lemma skip_topN : 0 < o_Limit q → o_Limit q ≤ Z.of_nat (length (answer q live)) →
  bool_decide (OrderDirection (o_Order q) = "DESC") = true →
  start ≤ EventTimestamp (answer q live !!! Z.to_nat (o_Limit q - 1)) →
  take (Z.to_nat (o_Limit q)) (answer q live) = reference q all.
Proof.
  intros Hpos Hfull Hd Hcut. rewrite reference_pool by done. rewrite cap_top, (proj2 (Z.ltb_lt 0 _)), (desc_order q Hd) by lia.
  rewrite answer_pool in * by (try apply live_keyed; done). rewrite cap_top, (proj2 (Z.ltb_lt 0 _)), (desc_order q Hd) in * by lia.
  set (m := Z.to_nat (o_Limit q)) in *. set (page := top desc m (pool q live)) in *.
  assert (length page = m) as Hlen. { unfold page, top in *. rewrite length_take in *. lia. }
  rewrite take_ge by lia. symmetry. apply skip_newest; [done..|]. apply Forall_forall.
  intros x [i Hi]%list_elem_of_lookup. pose proof (lookup_lt_Some _ _ _ Hi).
  destruct (lookup_lt_is_Some_2 page (m - 1)) as [c Hc]; [lia|].
  replace (Z.to_nat (o_Limit q - 1)) with (m - 1)%nat in Hcut by lia.
  rewrite (list_lookup_total_correct _ _ _ Hc) in Hcut.
  destruct (decide (i = m - 1)%nat) as [->|]; [rewrite Hc in Hi; by injection Hi as ->|].
  etrans; [exact Hcut|]. apply desc_time.
  assert (StronglySorted (cmp_le desc) page) as Hsort.
  { eapply StronglySorted_sublist; [apply sublist_take|apply sort_by_sorted, _]. }
  apply (StronglySorted_lookup_lt _ _ _ _ _ _ Hsort Hi Hc). lia.
Qed.

Lemma oldest_row_le rows : Forall (λ r, 0 < EventTimestamp r) rows → ∀ r, r ∈ rows → oldest_row rows ≤ EventTimestamp r.
Proof.
  unfold oldest_row. assert (∀ acc, 0 ≤ acc → Forall (λ r, 0 < EventTimestamp r) rows →
    let t := foldl (λ t r, if (t =? 0) || (EventTimestamp r <? t) then EventTimestamp r else t) acc rows in
    (0 < acc → t ≤ acc) ∧ (∀ r, r ∈ rows → t ≤ EventTimestamp r)) as H.
  { induction rows as [|x rows IH]; intros acc Hacc Hpos; simpl; [split; [lia|by intros r ?%elem_of_nil]|].
    apply Forall_cons in Hpos as [Hx Hpos].
    set (acc' := if (acc =? 0) || (EventTimestamp x <? acc) then EventTimestamp x else acc).
    assert (0 < acc' ∧ acc' ≤ EventTimestamp x ∧ (0 < acc → acc' ≤ acc)) as (H1 & H2 & H3).
    { unfold acc'. destruct (Z.eqb_spec acc 0); simpl; [lia|]. destruct (Z.ltb_spec (EventTimestamp x) acc); lia. }
    destruct (IH acc' ltac:(lia) Hpos) as [IH1 IH2]. split; [lia|].
    intros r [->|Hr]%elem_of_cons; [lia|]. by apply IH2. }
  intros Hpos. by apply (H 0).
Qed.

(** Each key the read names has its latest rows live. *)
Lemma skip_per_key keys : 0 < o_LimitPerPK q → Forall (λ r, 0 < EventTimestamp r) live →
  (∀ r, r ∈ all → matches flags q r = true → PKValues r ∈ keys) →
  Forall (λ pk, o_LimitPerPK q ≤ Z.of_nat (length (filter (λ r, PKValues r = pk) (answer q live)))) keys →
  start ≤ oldest_row (answer q live) → answer q live = reference q all.
Proof.
  intros Hn Hpos Hkeys Hfull Hold. rewrite Forall_forall in Hfull. set (n := Z.to_nat (o_LimitPerPK q)).
  assert (∀ rows, pool q rows = latest n (kept flags q rows)) as Hpool.
  { intros rows. unfold pool. by rewrite (proj2 (Z.ltb_lt 0 _)) by lia. }
  assert (∀ r, r ∈ answer q live → r ∈ latest n (kept flags q live)) as Hin.
  { intros r Hr. rewrite <- Hpool. apply answer_sub; [done|apply live_keyed|done]. }
  assert (∀ r, r ∈ answer q live → start ≤ EventTimestamp r) as Hge.
  { intros r Hr. etrans; [exact Hold|]. apply oldest_row_le; [|done]. apply Forall_forall. intros x Hx.
    apply Hin, elem_of_latest in Hx as [_ Hx]. apply kept_elem in Hx as [_ Hx]. rewrite Forall_forall in Hpos. auto. }
  assert (NoDup (answer q live)) as Hnd.
  { rewrite answer_pool by (try apply live_keyed; done). unfold cap. destruct (_ && _).
    - apply top_NoDup, rows_NoDup, pool_ids, Hl.
    - rewrite sort_by_perm. apply rows_NoDup, pool_ids, Hl. }
  assert (latest n (kept flags q all) ⊆ kept flags q live) as Hsub.
  { intros r [Hr Hk]%elem_of_latest. apply kept_elem in Hk as [Hm Hra]. apply kept_elem. split; [done|].
    destruct (decide (r ∈ live)) as [|Hnl]; [done|exfalso]. pose proof (Hbelow r Hra Hnl) as Hb.
    specialize (Hfull _ (Hkeys r Hra Hm)).
    assert (length (filter (λ x, PKValues x = PKValues r) (answer q live)) ≤ rank (kept flags q all) r)%nat; [|lia].
    apply submseteq_length, NoDup_submseteq; [by apply NoDup_filter|]. intros x [Hxk Hx]%list_elem_of_filter.
    pose proof (Hge x Hx). apply list_elem_of_filter. split; [apply earlier_lt; lia|]. apply elem_of_key. split; [done|].
    apply Hin, elem_of_latest in Hx as [_ Hx]. apply kept_elem in Hx as [??]. apply kept_elem. auto. }
  rewrite answer_reference, !reference_pool, !Hpool by (try apply live_keyed; done). f_equal.
  apply merge_sort_perm; [by apply latest_ids, kept_ids|]. apply NoDup_Permutation.
  - by apply rows_NoDup, latest_ids, kept_ids.
  - by apply rows_NoDup, latest_ids, kept_ids.
  - apply latest_squeeze; [by apply kept_ids..| |done]. intros r. rewrite !kept_elem. naive_solver.
Qed.
End skip.
End reads.

(** ** One page *)

(** The sources answer from their rows; [arch s] is [None] for a source that
    fails. *)
Record honest (w : world) (q : Options) (src : mergeSources) (live : list ResultRow)
    (arch : string → option (list ResultRow)) : Prop := {
  hn_live : w_engine w q = inl (answer q live);
  hn_arch s : s ∈ archSources src → w_archive w (set_extra q (misfiledHoursOf src)) s = answer q <$> arch s;
}.

(** The rows of the sources that answer. *)
Definition archived (src : mergeSources) (arch : string → option (list ResultRow)) : list (list ResultRow) :=
  omap arch (archSources src).

(** What the plan says of them: the live index has no row of a window it is
    skipped for, and the archives are below the range the proofs use. For the
    plans [resolveMergeSources] makes, [FetchFull] derives it from the tables of
    the index; it is no assumption of a property. *)
Record plan_true (q : Options) (src : mergeSources) (all live : list ResultRow) : Prop := {
  pl_skip r : archSources src ≠ [] → SkipMySQL (ms_plan src) = true → r ∈ live → matches flags q r = false;
  pl_below range r : sound_plan (ms_plan src) = Some range → r ∈ all → r ∉ live → EventTimestamp r < Start range;
}.

Lemma read_archives_answers w q src live arch ag : honest w q src live arch →
  ag = true ∨ Forall (λ s, is_Some (arch s)) (archSources src) →
  ∀ rows sk ex, ∃ ex', read_archives w ag (set_extra q (misfiledHoursOf src)) (archSources src) (rows, sk, ex) =
    inl (rows ++ mjoin (answer q <$> archived src arch), sk ++ filter (λ s, arch s = None) (archSources src), ex').
Proof.
  intros [_ Ha] Hag. unfold archived.
  assert (∀ srcs, srcs ⊆ archSources src → ∀ rows sk ex, ∃ ex',
    read_archives w ag (set_extra q (misfiledHoursOf src)) srcs (rows, sk, ex) =
    inl (rows ++ mjoin (answer q <$> omap arch srcs), sk ++ filter (λ s, arch s = None) srcs, ex')) as H; [|by apply H].
  induction srcs as [|s srcs IH]; intros Hs rows sk ex; simpl; [exists ex; by rewrite !app_nil_r|].
  assert (s ∈ archSources src) as Hin by (apply Hs; by left).
  assert (srcs ⊆ archSources src) as Hs' by (intros x Hx; apply Hs; by right).
  rewrite (Ha s Hin). destruct (arch s) as [l|] eqn:E; simpl.
  - destruct (IH Hs' (rows ++ answer q l) sk (if (length (answer q l) =? 0)%nat then ex ++ [s] else ex)) as [ex' ->].
    exists ex'. rewrite filter_cons_False by (by rewrite E). by rewrite (assoc_L (++)).
  - assert (ag = true) as ->.
    { destruct Hag as [?|Hall]; [done|]. rewrite Forall_forall in Hall. specialize (Hall s Hin). rewrite E in Hall. by destruct Hall. }
    simpl. destruct (IH Hs' rows (sk ++ [s]) ex) as [ex' ->]. exists ex'. rewrite filter_cons_True by done.
    by rewrite <- (assoc_L (++)).
Qed.

(** What [ArchivesNotNeeded] keeps is the answer of the whole. *)
Lemma ArchivesNotNeeded_sound q plan all live kept : 0 ≤ o_Limit q → 0 ≤ o_LimitPerPK q → o_LatestPerPKCandidates q = false →
  NoDup (EventID <$> all) → NoDup (EventID <$> live) → live ⊆ all → keyed q all → Forall (λ r, 0 < EventTimestamp r) live →
  (∀ range r, sound_plan plan = Some range → r ∈ all → r ∉ live → EventTimestamp r < Start range) →
  ArchivesNotNeeded q (answer q live) plan = (kept, true) → kept = reference q all.
Proof.
  intros Hlim Hper Hcand Ha Hl Hs K Hpos Hbelow. unfold ArchivesNotNeeded.
  destruct (anchorSatisfiedLive _ _) eqn:E1; [intros [= <-]; by apply skip_anchor|].
  destruct (windowSatisfiedLive _ _) eqn:E2.
  { intros [= <-]. unfold windowSatisfiedLive in E2. destruct (o_Since q) as [since|] eqn:Es; [|done].
    case_bool_decide as Ep; simpl in E2; [|done]. destruct (sound_plan plan) as [range|] eqn:Epl; [|done].
    destruct (0 <? _)%nat; [done|]. apply negb_true_iff, Z.ltb_ge in E2.
    eapply (skip_window q Hlim Hper Hcand all live Ha Hl Hs K (Start range)); [|done..]. intros r. by apply Hbelow. }
  destruct (topNSatisfiedLive _ _ _) eqn:E3.
  { intros [= <-]. unfold topNSatisfiedLive in E3. destruct (_ || _) eqn:Eo; [done|].
    rewrite !orb_false_iff in Eo. destruct Eo as [[E4 E5] E6].
    destruct (sound_plan plan) as [range|] eqn:Epl; [|done]. apply negb_true_iff, Z.ltb_ge in E3.
    apply (skip_topN q Hlim Hper Hcand all live Ha Hl Hs K (Start range)); [intros r; by apply Hbelow|lia|lia| |done].
    by apply negb_false_iff. }
  destruct (perPKSatisfiedLive _ _ _) eqn:E4; [|done]. intros [= <-]. unfold perPKSatisfiedLive in E4.
  destruct (Z.leb_spec (o_LimitPerPK q) 0); [done|]. rewrite Hcand in E4.
  case_bool_decide as Ealt; simpl in E4; [|done]. destruct (0 <? length (o_PKAliases q))%nat; [done|].
  set (keys := if negb (bool_decide (o_PKValues q = "")) then [o_PKValues q] else o_PKValuesIn q) in *.
  destruct (length keys =? 0)%nat eqn:Ek; [done|]. destruct (sound_plan plan) as [range|] eqn:Epl; [|done].
  destruct (forallb _ keys) eqn:Ef; [|done]. apply negb_true_iff, Z.ltb_ge in E4.
  apply (skip_per_key q Hlim Hper Hcand all live Ha Hl Hs K (Start range) ltac:(intros r; by apply Hbelow) keys); [lia|done| | |done].
  - intros r Hr Hm. assert (key_matches q r) as Hkm.
    { apply (key_conds_spec flags). apply forallb_forall. intros c Hc. apply list_elem_of_In in Hc.
      eapply matches_cond; [|exact Hm]. unfold where_conds. rewrite !elem_of_app. do 2 right. by left. }
    unfold key_matches in Hkm. unfold keys in *. case_bool_decide; simpl in *.
    + destruct Hkm as [E|?]; [|done]. by rewrite E in Ek.
    + destruct Hkm as [->|[? _]]; [by left|done].
  - apply Forall_forall. intros pk Hpk. rewrite forallb_forall in Ef. specialize (Ef pk (proj1 (list_elem_of_In _ _) Hpk)).
    apply negb_true_iff, orb_false_iff in Ef as [_ Ef]. lia.
Qed.

(** One page holds what the reference gives over all the rows. *)
Lemma fetchPageRows_reference w o src live arch all (q := fm_Opts o) :
  0 ≤ o_Limit q → 0 ≤ o_LimitPerPK q → o_LatestPerPKCandidates q = false → limits_merge q →
  parted all (live :: archived src arch) → keyed q all → Forall (λ r, 0 < EventTimestamp r) all →
  honest w q src live arch → plan_true q src all live →
  fm_AllowGaps o = true ∨ Forall (λ s, is_Some (arch s)) (archSources src) →
  ∃ p, fetchPageRows w o src = inl p ∧ pg_rows p = reference q all ∧
    (archivesElided p = true ∧ skipped p = [] ∨ skipped p = filter (λ s, arch s = None) (archSources src)).
Proof.
  intros Hlim Hper Hcand Hm P K Hpos Hh T Hgaps. unfold fetchPageRows. fold q.
  destruct (pt_parts _ _ P live) as [Hl Hs]; [by left|]. assert (NoDup (EventID <$> all)) as Ha by apply P.
  assert (Forall (λ r, 0 < EventTimestamp r) live) as Hlp.
  { apply Forall_forall. intros r Hr. rewrite Forall_forall in Hpos. auto. }
  destruct (archSources src) as [|s0 srcs] eqn:Esrc.
  { unfold live_rows. rewrite (hn_live _ _ _ _ _ Hh). eexists. split; [done|]. split; [|by right].
    cbn [pg_rows]. apply (skip_same q Hlim Hper Hcand all live); [done..|]. intros r Hr _.
    destruct (pt_cover _ _ P r Hr) as (p & Hp & Hrp). unfold archived in Hp. rewrite Esrc in Hp.
    apply list_elem_of_singleton in Hp. by subst. }
  rewrite <- Esrc.
  assert ((if SkipMySQL (ms_plan src) then inl [] else live_rows w q) = inl (answer q live)) as ->.
  { destruct (SkipMySQL (ms_plan src)) eqn:Esk; [|unfold live_rows; by rewrite (hn_live _ _ _ _ _ Hh)].
    assert (kept flags q live = []) as E. { apply kept_none. intros r. apply (pl_skip _ _ _ _ T); [by rewrite Esrc|done]. }
    unfold answer, key_rows. unfold kept in E. rewrite E. unfold per_key. rewrite Hcand. unfold top. simpl.
    rewrite filter_nil. destruct (0 <? o_Limit q), (0 <? o_LimitPerPK q); simpl; by rewrite ?take_nil. }
  cbn [try_bind]. destruct (ArchivesNotNeeded q (answer q live) (ms_plan src)) as [kept' ok] eqn:En. destruct ok.
  { eexists. split; [done|]. cbn. split; [|by left].
    apply (ArchivesNotNeeded_sound q (ms_plan src) all live); [done..| |done]. intros range r. apply (pl_below _ _ _ _ T). }
  assert (kept' = answer q live) as -> by (unfold ArchivesNotNeeded in En; repeat case_match; congruence).
  destruct (read_archives_answers w q src live arch (fm_AllowGaps o) Hh) with (rows := answer q live) (sk := @nil string) (ex := @nil string)
    as [ex' ->]; [by rewrite Esrc|]. cbn [try_bind]. rewrite Hcand.
  pose proof (merged_reference q Hlim Hper Hcand all (live :: archived src arch) P K Hm) as Href.
  rewrite fmap_cons in Href. change (mjoin (answer q live :: ?l)) with (answer q live ++ mjoin l) in Href.
  destruct (MergeAndTrimReport _ _ _ _) as [rows dv]. eexists. split; [done|]. cbn in Href |- *. split; [done|by right].
Qed.
End merged.

(** A live row, an archive with two rows and one that fails. *)
Definition mr_arch (s : string) : option (list ResultRow) := if bool_decide (s = "a") then Some w_old else None.
Definition mr_world : world := {|
  w_engine q := inl (answer [] q w_new);
  w_archive q s := answer [] q <$> mr_arch s;
  w_index := s_db; w_fresh := []; w_proof := λ _, IDsUnproven; w_sources := Some ["a"; "b"]; w_partitions := Some [];
  w_state := None; w_now := w_t0 + 2 * hour |}.
Definition mr_opts : FetchMergedOptions := {|
  fm_Opts := w_opts; fm_DBName := "idx"; fm_NoArchive := false; fm_AllowGaps := true; fm_HasFetcher := true;
  fm_PartitionHeads := None; fm_LatestInBinlog := false; fm_HistoryRowCap := 0 |}.
