(* ===== verification/StreamRead.v ===== *)
(** * The paged read ends, and delivers every event once

    [FetchMergedStream] ([internal/query/fetchmerged.go]) walks the merged read in
    pages. It ends whatever its sources answer, as long as the events they hold
    are finitely many; over sources that do not change it hands the callback
    every matching event, in order and once. *)
From S2P Require Import Prelude GoStrings GoText GoTime GoVal Event Rows Merge BinlogOrder TopN MergeLatest PkRange Planner PositionFloor QueryWhere QueryFetch NewestWalk LatestPK FetchMerged MergedRead.

Open Scope Z_scope.

(** ** What one page holds *)

Lemma merged_source u limit order r : r ∈ (MergeAndTrimReport u limit 0 order).1 →
  ∃ f, f ∈ u ∧ cursor_of r = cursor_of f.
Proof.
  unfold MergeAndTrimReport. rewrite Z.ltb_irrefl, MergeResultsReport_eq, cap_0. cbn [fst].
  intros Hr. assert (r ∈ MergeResults u 0 order) as Hu.
  { rewrite MergeResults_eq. unfold cap in Hr. destruct (_ && _); [by eapply subseteq_take|done]. }
  apply MergeResults_first in Hu as (f & Hf & Hs). apply first_copy_Some in Hf as [Hf _].
  exists f. split; [done|]. unfold cursor_of. by injection Hs; intros; f_equal.
Qed.

Lemma ArchivesNotNeeded_sub q rows plan kept ok : ArchivesNotNeeded q rows plan = (kept, ok) → kept ⊆ rows.
Proof. unfold ArchivesNotNeeded. intros H r. repeat case_match; simplify_eq; try done. apply subseteq_take. Qed.

(** A row one of the sources answered with. *)
Inductive source_row (w : world) (q : Options) (src : mergeSources) (f : ResultRow) : Prop :=
| from_live l : w_engine w q = inl l → f ∈ l → source_row w q src f
| from_archive s l : s ∈ archSources src → w_archive w (set_extra q (misfiledHoursOf src)) s = Some l → f ∈ l →
    source_row w q src f.

Lemma read_archives_facts w ag q srcs rows sk ex rows' sk' ex' :
  read_archives w ag q srcs (rows, sk, ex) = inl (rows', sk', ex') →
  (∀ f, f ∈ rows' → f ∈ rows ∨ ∃ s l, s ∈ srcs ∧ w_archive w q s = Some l ∧ f ∈ l) ∧
  (∀ s, s ∈ sk' → s ∈ sk ∨ s ∈ srcs ∧ w_archive w q s = None) ∧
  (∀ s, s ∈ ex' → s ∈ ex ∨ s ∈ srcs ∧ w_archive w q s = Some []).
Proof.
  revert rows sk ex. induction srcs as [|s srcs IH]; intros rows sk ex; simpl; [intros [= <- <- <-]; auto|].
  destruct (w_archive w q s) as [l|] eqn:E.
  - intros (H1 & H2 & H3)%IH. repeat split.
    + intros f [[|]%elem_of_app|(s' & l' & ? & ? & ?)]%H1; [by left|right; exists s, l|right; exists s', l'];
        (split; [by constructor|done]).
    + intros x [|[? ?]]%H2; [by left|right]. split; [by right|done].
    + intros x [Hx|[? ?]]%H3; [|right; split; [by right|done]].
      destruct l as [|y l]; simpl in Hx; [|by left]. apply elem_of_app in Hx as [|[=->]%list_elem_of_singleton]; [by left|].
      right. split; [by left|done].
  - destruct ag; simpl; [|done]. intros (H1 & H2 & H3)%IH. repeat split.
    + intros f [|(s' & l' & ? & ? & ?)]%H1; [by left|right; exists s', l'; split; [by right|done]].
    + intros x [[|[=->]%list_elem_of_singleton]%elem_of_app|[? ?]]%H2; [by left|..]; right; (split; [by constructor|done]).
    + intros x [|[? ?]]%H3; [by left|right]. split; [by right|done].
Qed.

Lemma page_facts w o src p : o_LimitPerPK (fm_Opts o) = 0 → fetchPageRows w o src = inl p →
  (∀ r, r ∈ pg_rows p → ∃ f, source_row w (fm_Opts o) src f ∧ cursor_of r = cursor_of f) ∧
  (∀ s, s ∈ skipped p → s ∈ archSources src ∧ w_archive w (set_extra (fm_Opts o) (misfiledHoursOf src)) s = None) ∧
  (∀ s, s ∈ exhausted p → s ∈ archSources src ∧ w_archive w (set_extra (fm_Opts o) (misfiledHoursOf src)) s = Some []).
Proof.
  intros Hper. unfold fetchPageRows. set (q := fm_Opts o) in *.
  assert (∀ l, live_rows w q = inl l → w_engine w q = inl l) as Hlive.
  { unfold live_rows. intros l. by destruct (w_engine w q); intros [= <-]. }
  destruct (archSources src) as [|s0 srcs] eqn:Esrc; intros H; apply try_bind_inl in H as (rows0 & H0 & H).
  - injection H as <-. simpl. split; [|by split; intros ? ?%elem_of_nil]. intros r Hr. exists r. split; [|done].
    eapply from_live; eauto.
  - destruct (ArchivesNotNeeded _ _ _) as [kept ok] eqn:En. destruct ok.
    + injection H as <-. simpl. split; [|by split; intros ? ?%elem_of_nil]. intros r Hr. exists r. split; [|done].
      apply (ArchivesNotNeeded_sub _ _ _ _ _ En) in Hr. destruct (SkipMySQL _); simplify_eq; [by apply elem_of_nil in Hr|].
      eapply from_live; eauto.
    + apply try_bind_inl in H as ([[rows sk] ex] & Hr & Hend). apply read_archives_facts in Hr as (H1 & H2 & H3).
      pose proof (ArchivesNotNeeded_sub _ _ _ _ _ En) as Hsub.
      rewrite Hper in Hend. assert ((if o_LatestPerPKCandidates q then 0 else 0) = 0) as E0 by by destruct (o_LatestPerPKCandidates q).
      rewrite E0 in Hend. destruct (MergeAndTrimReport _ _ _ _) as [out dv] eqn:Em. injection Hend as <-. simpl. repeat split.
      * intros r Hr. change out with (out, dv).1 in Hr. rewrite <- Em in Hr. apply merged_source in Hr as (f & Hf & Hc).
        exists f. split; [|done]. apply H1 in Hf as [Hf|(s & l & Hs & Hl & Hf)].
        -- destruct (SkipMySQL _); simplify_eq; [by apply elem_of_nil in Hf|]. eapply from_live; eauto.
        -- apply (from_archive _ _ _ _ s l); [by rewrite Esrc|done..].
      * apply H2 in H as [?%elem_of_nil|[? ?]]; done.
      * apply H2 in H as [?%elem_of_nil|[? ?]]; done.
      * apply H3 in H as [?%elem_of_nil|[? ?]]; done.
      * apply H3 in H as [?%elem_of_nil|[? ?]]; done.
Qed.

(** ** The walk ends *)

(** Every event a source answers with, on any page, has its cursor in [U]. *)
Definition bounded (ws : nat → world) (U : list EventCursor) : Prop :=
  ∀ k q src f, source_row (ws k) q src f → cursor_of f ∈ U.

(** The events of [U] a page can still end at. *)
Definition left_of (U : list EventCursor) (c : option EventCursor) : nat :=
  match c with None => S (length U) | Some c => length (filter (λ d, After d c = true) U) end.

Lemma After_irrefl c : After c c = false.
Proof. unfold After. by rewrite Z.eqb_refl, N.ltb_irrefl. Qed.

Lemma After_trans a b c : After a b = true → After b c = true → After a c = true.
Proof.
  unfold After. destruct (Z.eqb_spec (cur_Timestamp a) (cur_Timestamp b)), (Z.eqb_spec (cur_Timestamp b) (cur_Timestamp c)),
    (Z.eqb_spec (cur_Timestamp a) (cur_Timestamp c)); simpl; rewrite ?Z.ltb_lt, ?N.ltb_lt; lia.
Qed.

Lemma left_of_lt U c next : next ∈ U → (∀ d, c = Some d → After next d = true) → (left_of U (Some next) < left_of U c)%nat.
Proof.
  intros Hin Hc. destruct c as [d|]; simpl; [|pose proof (length_filter (λ d, After d next = true) U); lia].
  specialize (Hc d eq_refl).
  assert (filter (λ x, After x next = true) U = filter (λ x, After x next = true) (filter (λ x, After x d = true) U)) as ->.
  { rewrite list_filter_filter. apply filter_iff_in. intros x _. split; [|tauto]. intros H. split; [done|].
    by eapply After_trans. }
  apply (length_filter_lt _ _ next); [by apply list_elem_of_filter|]. by rewrite After_irrefl.
Qed.

Lemma withoutSources_length srcs drop : (length (withoutSources srcs drop) ≤ length srcs)%nat.
Proof. apply length_filter. Qed.

Lemma withoutSources_lt srcs drop s : s ∈ srcs → s ∈ drop → (length (withoutSources srcs drop) < length srcs)%nat.
Proof. intros H1 H2. apply (length_filter_lt _ _ s); [done|]. tauto. Qed.

(** The sources a pass retires. *)
Lemma retire_le srcs ex sk : (length (withoutSources (withoutSources srcs ex) sk) ≤ length srcs)%nat.
Proof. etrans; apply withoutSources_length. Qed.

Lemma retire_lt srcs ex sk s : s ∈ srcs → s ∈ sk → (length (withoutSources (withoutSources srcs ex) sk) < length srcs)%nat.
Proof.
  intros Hs Hsk. destruct (decide (s ∈ ex)) as [He|He].
  - eapply Nat.le_lt_trans; [apply withoutSources_length|]. by eapply withoutSources_lt.
  - eapply Nat.lt_le_trans; [apply (withoutSources_lt _ _ s)|apply withoutSources_length]; [|done].
    apply list_elem_of_filter. by split.
Qed.

Section ends.
Context {S E : Type} (fn : S → list ResultRow → S + E) (o : FetchMergedOptions) (src : mergeSources) (b : Z) (U : list EventCursor).
Hypothesis Hper : o_LimitPerPK (fm_Opts o) = 0.
Hypothesis Hplain : fm_LatestInBinlog o = false.

Definition measure (st : streamState (S := S)) : nat := left_of U (sr_cursor st) + length (sr_sources st).

(** Every pass that goes on delivers rows past the cursor or drops a source. *)
Lemma stream_pass_progress w st st' :
  (∀ q src f, source_row w q src f → cursor_of f ∈ U) → stream_pass fn w o src b st = inl st' → (measure st' < measure st)%nat.
Proof.
  intros HU. unfold stream_pass, fetchPage. set (o' := with_opts _ _). set (src' := with_sources _ _).
  change (fm_LatestInBinlog o') with (fm_LatestInBinlog o). rewrite Hplain. simpl.
  destruct (fetchPageRows w o' src') as [p|] eqn:Ep; simpl; [|done].
  apply page_facts in Ep as (Hrows & Hsk & _); [|done]. set (srcs := withoutSources (withoutSources _ _) _).
  assert (length srcs ≤ length (sr_sources st))%nat as Hle by apply retire_le.
  destruct (last (pg_rows p)) as [r|] eqn:El.
  - destruct (sr_cursor st) as [c|] eqn:Ec; cbn -[left_of];
      [destruct (After (cursor_of r) c) eqn:Ea; cbn -[left_of]; [|done]|];
      (destruct (fn _ _) as [s'|]; [|done]; destruct (_ && _); [done|]; intros [= <-]; unfold measure; cbn -[left_of]; rewrite Ec;
       apply Nat.add_lt_le_mono; [|done]; apply left_of_lt;
       [apply last_Some_elem_of in El; destruct (Hrows r El) as (f & Hf & ->); by eapply HU|naive_solver]).
  - destruct (skipped p) as [|s sk] eqn:Esk; simpl; [done|]. intros [= <-]. unfold measure. simpl.
    apply Nat.add_lt_mono_l. assert (s ∈ s :: sk) as Hin by by left. destruct (Hsk s Hin) as [Hs Hn].
    by eapply retire_lt.
Qed.

Lemma stream_loop_ends fuel ws st : bounded ws U → (measure st < fuel)%nat → is_Some (stream_loop fn fuel ws o src b st).
Proof.
  revert ws st. induction fuel as [|fuel IH]; intros ws st HU Hm; [lia|]. simpl.
  destruct (stream_pass fn (ws O) o src b st) as [st'|r] eqn:Eq; [|by eexists].
  apply stream_pass_progress in Eq; [|intros q s f; apply (HU O)]. apply IH; [intros k; apply (HU (Datatypes.S k))|lia].
Qed.
End ends.

(** More fuel changes nothing. *)
Lemma stream_loop_fuel {S E} (fn : S → list ResultRow → S + E) o src b fuel fuel' ws st r :
  stream_loop fn fuel ws o src b st = Some r → (fuel ≤ fuel')%nat → stream_loop fn fuel' ws o src b st = Some r.
Proof.
  revert fuel' ws st. induction fuel as [|fuel IH]; intros [|fuel'] ws st; simpl; [done|done|lia|].
  destruct (stream_pass _ _ _ _ _ _) as [st'|]; [|done]. intros H Hle. apply IH; [done|lia].
Qed.

Lemma stream_guard_facts o : stream_guard o = inl () →
  o_LimitPerPK (fm_Opts o) = 0 ∧ o_Limit (fm_Opts o) = 0 ∧ fm_LatestInBinlog o = false ∧
  bool_decide (OrderDirection (o_Order (fm_Opts o)) = "DESC") = false ∧ o_AfterEvent (fm_Opts o) = None ∧
  o_BeforeEvent (fm_Opts o) = None.
Proof.
  unfold stream_guard. intros (u & Hv & H)%try_bind_inl. destruct (bool_decide (OrderDirection _ = _)) eqn:Ed; [done|].
  destruct (Z.eqb_spec (o_Limit (fm_Opts o)) 0) as [El|]; [|done]. destruct (Z.eqb_spec (o_LimitPerPK (fm_Opts o)) 0) as [Ep|]; [|done].
  simpl in H. do 2 (case_bool_decide; simpl in H; [|done]). repeat split; try done.
  unfold fm_validate in Hv. repeat case_match; simplify_eq; rewrite Ep in *; by destruct (fm_LatestInBinlog o).
Qed.

Lemma resolve_keeps w o src o' : resolveMergeSources w o = (src, inl o') →
  ∃ since settled, o' = with_opts o (set_since (fm_Opts o) since settled).
Proof.
  unfold resolveMergeSources. intros H. repeat case_match; simplify_eq; by eexists _, _.
Qed.

(** C12: The paged read ends. Whatever the live index and the archives answer from
    one page to the next - also a source that ignores the cursor, repeats
    itself, fails or changes between pages - when the events they can hold have
    finitely many cursors the walk returns after at most one page for each of
    them and one for each archive source, plus two; more fuel does not change
    what it returns. *)
Theorem FetchMergedStream_terminates {S E} (fn : S → list ResultRow → S + E) w ws o batchSize caller U fuel :
  bounded ws U → (length U + length (archSources (resolveMergeSources w o).1) + 2 ≤ fuel)%nat →
  is_Some (FetchMergedStream fn fuel w ws o batchSize caller).2 ∧
  ∀ fuel', (fuel ≤ fuel')%nat →
    FetchMergedStream fn fuel' w ws o batchSize caller = FetchMergedStream fn fuel w ws o batchSize caller.
Proof.
  intros HU Hf. unfold FetchMergedStream. destruct (stream_guard o) as [[]|e] eqn:Eg; [|split; [by eexists|done]].
  apply stream_guard_facts in Eg as (Hper & _ & Hplain & _).
  destruct (resolveMergeSources w o) as [src [o'|e]] eqn:Er; [|split; [by eexists|done]].
  apply resolve_keeps in Er as (since & settled & ->). set (b := if batchSize <=? 0 then _ else _). set (o' := with_opts _ _).
  set (st := Build_streamState _ _ _ _).
  destruct (stream_loop_ends fn o' src b U Hper Hplain fuel ws st HU) as [[e st'] Hend].
  { unfold measure. simpl in *. lia. }
  rewrite Hend. split; [by eexists|]. intros fuel' Hle. by rewrite (stream_loop_fuel _ _ _ _ _ _ _ _ _ Hend Hle).
Qed.

(** ** Over sources that do not change it delivers each event once *)

Lemma After_asc x y : After (cursor_of x) (cursor_of y) = true ↔ asc x y = Gt.
Proof.
  rewrite asc_compare. unfold After, compareStatementTime. simpl.
  destruct (Z.eqb_spec (EventTimestamp x) (EventTimestamp y)) as [->|Hne]; simpl.
  - rewrite Z.compare_refl. simpl. by rewrite N.ltb_lt, <- N.compare_gt_iff.
  - rewrite Z.ltb_lt. destruct (Z.compare_spec (EventTimestamp x) (EventTimestamp y)); simpl; split; try done; lia.
Qed.

(** The rows after the last of a page are the rest. *)
Lemma rest_after rest b r : StronglySorted (cmp_le asc) rest → NoDup (EventID <$> rest) → last (take b rest) = Some r →
  filter (λ x, After (cursor_of x) (cursor_of r) = true) rest = drop b rest.
Proof.
  intros Hs Hid Hl. pose proof (take_drop b rest) as Hsplit. set (t := take b rest) in *. set (d := drop b rest) in *.
  apply last_Some in Hl as [t' Ht]. rewrite <- Hsplit, Ht in Hs, Hid |- *. rewrite !filter_app.
  rewrite (filter_none _ t'), (filter_none _ [r]), (filter_all _ d); [done|..].
  - intros y Hy. apply After_asc. apply StronglySorted_app in Hs as (Hc & _ & _).
    assert (cmp_le asc r y) as Hle by (apply Hc; [apply elem_of_app; right; by left|done]).
    rewrite (cmp_antisym asc). unfold cmp_le in Hle. destruct (asc r y) eqn:E; try done.
    apply merge_compare_id in E. rewrite fmap_app in Hid. apply NoDup_app in Hid as (_ & Hd & _). destruct (Hd (EventID r)).
    + rewrite fmap_app. apply elem_of_app. right. by left.
    + rewrite E. by apply list_elem_of_fmap_2.
  - intros y ->%list_elem_of_singleton. by rewrite After_irrefl.
  - intros y Hy Ha%After_asc. apply StronglySorted_app in Hs as (_ & Hs & _). apply StronglySorted_app in Hs as (Hc & _ & _).
    by apply (Hc y r Hy ltac:(by left)).
Qed.

Section delivers.
Context `{M : MySQL, L : !MySQLLaws M} (flags : list flagRow).

(** The row is past the cursor of the page. *)
Definition past (c : option EventCursor) (r : ResultRow) : Prop := ∀ d, c = Some d → After (cursor_of r) d = true.

#[export] Instance past_dec c r : Decision (past c r).
Proof.
  destruct c as [d|]; [|left; by intros ? [=]].
  destruct (After (cursor_of r) d) eqn:E; [left; by intros ? [= <-]|right]. intros H. by rewrite (H d eq_refl) in E.
Defined.

(** The options of a page. *)
Definition page_opts (q : Options) (b : Z) (c : option EventCursor) : Options := set_after (set_limit q b) c.

Lemma page_matches q b c r : o_AfterEvent q = None →
  matches flags (page_opts q b c) r = true ↔ matches flags q r = true ∧ past c r.
Proof.
  intros E. unfold matches, where_conds. rewrite !forallb_app, !andb_true_iff.
  cbn [o_AfterEvent page_opts set_after set_limit assign]. rewrite E. cbn [on_some].
  assert (forallb (λ x, holds flags x r)
    (on_some c (λ c, [CSecondsGe (mysqlToSeconds (truncate_hour (cur_Timestamp c))); CAfter c])) = true ↔ past c r) as ->.
  { destruct c as [d|]; cbn [on_some].
    - rewrite after_conds_spec. unfold past. naive_solver.
    - split; [by intros _ ? [=]|done]. }
  cbn -[forallb holds]. simpl forallb at 1. tauto.
Qed.

Lemma answer_nonempty q rows r : 0 ≤ o_Limit q → o_LimitPerPK q = 0 → r ∈ kept flags q rows → answer flags q rows ≠ [].
Proof.
  intros Hlim Hper Hr. unfold answer, key_rows. rewrite Hper. change (0 <? 0) with false. cbv iota. fold (kept flags q rows).
  intros E. apply (f_equal length) in E. rewrite sort_by_length in E. simpl in E.
  assert (0 < length (kept flags q rows))%nat by (destruct (kept flags q rows); [by apply elem_of_nil in Hr|simpl; lia]).
  destruct (Z.ltb_spec 0 (o_Limit q)); [|lia]. unfold top in E. rewrite length_take, sort_by_length in E. lia.
Qed.

(** The walk over the live rows and the archives [arch], none of which changes;
    [W] holds of the worlds the pages meet. *)
Section walk.
Context (W : world → Prop) (o : FetchMergedOptions) (src : mergeSources) (b : Z) (live : list ResultRow)
  (arch : string → option (list ResultRow)) (all : list ResultRow).
Local Abbreviation q := (fm_Opts o).
Hypothesis Hb : 0 < b.
Hypothesis Hper : o_LimitPerPK q = 0.
Hypothesis Hcand : o_LatestPerPKCandidates q = false.
Hypothesis Hplain : fm_LatestInBinlog o = false.
Hypothesis Hasc : bool_decide (OrderDirection (o_Order q) = "DESC") = false.
Hypothesis Hafter : o_AfterEvent q = None.
Hypothesis P : parted all (live :: archived src arch).
Hypothesis Hpos : Forall (λ r, 0 < EventTimestamp r) all.
Hypothesis Hstill : ∀ w c, W w → honest flags w (page_opts q b c) src live arch.
Hypothesis T : plan_true flags q src all live.
Hypothesis Hgaps : fm_AllowGaps o = true ∨ Forall (λ s, is_Some (arch s)) (archSources src).

(** What the walk has to deliver, and what is left of it behind a cursor. *)
Definition todo : list ResultRow := sort_by asc (kept flags q all).
Definition rest (c : option EventCursor) : list ResultRow := filter (past c) todo.

(** The sources still asked hold every row that is left. *)
Definition covered (c : option EventCursor) (srcs : list string) : Prop :=
  srcs ⊆ archSources src ∧ ∀ r, r ∈ rest c → r ∈ live ∨ ∃ s l, s ∈ srcs ∧ arch s = Some l ∧ r ∈ l.

Lemma elem_of_rest c r : r ∈ rest c ↔ past c r ∧ matches flags q r = true ∧ r ∈ all.
Proof. unfold rest, todo. by rewrite list_elem_of_filter, elem_of_sort_by, kept_elem. Qed.

Lemma rest_ids c : NoDup (EventID <$> rest c).
Proof.
  eapply sublist_NoDup; [|apply fmap_sublist, sublist_filter]. unfold todo. rewrite sort_by_perm. apply kept_ids, P.
Qed.

Lemma rest_sorted c : StronglySorted (cmp_le asc) (rest c).
Proof. apply StronglySorted_filter, sort_by_sorted, _. Qed.

(** The rows of the sources still asked. *)
Definition asked (srcs : list string) : list ResultRow :=
  filter (λ r, r ∈ mjoin (live :: archived (with_sources src srcs) arch)) all.

Lemma Forall_asked (Q : ResultRow → Prop) srcs : Forall Q all → Forall Q (asked srcs).
Proof. rewrite !Forall_forall. intros H r [_ Hr]%list_elem_of_filter. auto. Qed.

Lemma archived_with srcs p : p ∈ archived (with_sources src srcs) arch ↔ ∃ s, s ∈ srcs ∧ arch s = Some p.
Proof. unfold archived. simpl. rewrite list_elem_of_omap. naive_solver. Qed.

Lemma asked_parted srcs : srcs ⊆ archSources src → parted (asked srcs) (live :: archived (with_sources src srcs) arch).
Proof.
  intros Hs. split.
  - eapply sublist_NoDup; [apply P|]. apply fmap_sublist, sublist_filter.
  - by apply Forall_asked, P.
  - intros p Hp. assert (p ∈ live :: archived src arch) as Hp'.
    { apply elem_of_cons in Hp as [->|Hp]; [by left|right]. apply archived_with in Hp as (s & Hin & Ha).
      apply list_elem_of_omap. eauto. }
    destruct (pt_parts _ _ P p Hp') as [Hid Hsub]. split; [done|]. intros r Hr. apply list_elem_of_filter.
    split; [|by apply Hsub]. apply list_elem_of_join. eauto.
  - intros r [Hr _]%list_elem_of_filter. apply list_elem_of_join in Hr as (p & ? & ?). eauto.
Qed.

Lemma asked_kept c srcs : covered c srcs → kept flags (page_opts q b c) (asked srcs) = kept flags (page_opts q b c) all.
Proof.
  intros [_ Hcov]. unfold kept, asked. rewrite list_filter_filter. apply filter_iff_in. intros r Hr.
  split; [tauto|]. intros Hm. split; [done|]. apply page_matches in Hm as [Hm Hp]; [|done].
  apply list_elem_of_join. destruct (Hcov r) as [Hl|(s & l & Hs & Ha & Hin)].
  - by apply elem_of_rest.
  - exists live. split; [done|by left].
  - exists l. split; [done|]. right. apply archived_with. eauto.
Qed.

Lemma page_reference c : reference flags (page_opts q b c) all = take (Z.to_nat b) (rest c).
Proof.
  rewrite reference_pool; [|simpl; lia|simpl; lia|apply P|intros Hn; simpl in Hn; lia].
  unfold pool. simpl. rewrite Hper. simpl. rewrite asc_order by done. rewrite cap_take by done. f_equal.
  unfold rest, todo. symmetry. apply sort_by_unique; [apply _|..].
  - intros x y Hx Hy H%merge_compare_id. eapply NoDup_id_inj; [apply kept_ids, P|done..].
  - unfold kept. rewrite sort_by_perm, list_filter_filter.
    rewrite (filter_iff_in _ (λ r, matches flags (page_opts q b c) r = true)); [done|]. intros r _.
    rewrite page_matches by done. tauto.
  - apply StronglySorted_filter, sort_by_sorted, _.
Qed.

Lemma page_plan c srcs : srcs ⊆ archSources src → plan_true flags (page_opts q b c) (with_sources src srcs) (asked srcs) live.
Proof.
  intros Hs. split; simpl.
  - intros r Hne Hsk Hr. apply not_true_is_false. intros [Hm _]%page_matches; [|done].
    rewrite (pl_skip _ _ _ _ _ T r) in Hm; [done| |done..]. intros E. rewrite E in Hs. by apply Hne, list_nil_subseteq.
  - intros range r Hsp [_ Hr]%list_elem_of_filter. by apply (pl_below _ _ _ _ _ T).
Qed.

(** One page: the next rows, and the sources still to ask cover the others. *)
Lemma page_delivers w c srcs : W w → covered c srcs → ∃ p,
  fetchPage w (with_opts o (page_opts q b c)) (with_sources src srcs) = inl (p, zero_order) ∧
  pg_rows p = take (Z.to_nat b) (rest c) ∧ skipped p ⊆ srcs ∧
  ∀ c', (∀ r, past c' r → past c r) → covered c' (withoutSources (withoutSources srcs (exhausted p)) (skipped p)).
Proof.
  intros Hw Hcov. pose proof Hcov as [Hs Hin]. set (o' := with_opts o (page_opts q b c)). set (src' := with_sources src srcs).
  assert (honest flags w (page_opts q b c) src' live arch) as Hh.
  { destruct (Hstill w c Hw) as [H1 H2]. split; [done|]. intros s Hx. by apply H2, Hs. }
  destruct (fetchPageRows_reference flags w o' src' live arch (asked srcs)) as (p & Hp & Hr & _); simpl.
  - lia.
  - lia.
  - done.
  - by left.
  - by apply asked_parted.
  - intros Hn. simpl in Hn. lia.
  - by apply Forall_asked.
  - done.
  - by apply page_plan.
  - destruct Hgaps as [?|Hg]; [by left|right]. rewrite Forall_forall in Hg |- *. intros s Hx. by apply Hg, Hs.
  - exists p. pose proof (page_facts w o' src' p Hper Hp) as (_ & Hsk & Hex). split.
    { unfold fetchPage. change (fm_LatestInBinlog o') with (fm_LatestInBinlog o). rewrite Hplain. simpl. by rewrite Hp. }
    split; [rewrite Hr; unfold reference; simpl; rewrite <- page_reference; unfold reference; by rewrite asked_kept|].
    split; [intros s Hx; by apply Hsk|]. intros c' Hc'. split.
    { intros s [_ [_ Hx]%list_elem_of_filter]%list_elem_of_filter. by apply Hs. }
    intros r Hr'. apply elem_of_rest in Hr' as (Hpast & Hm & Ha). assert (r ∈ rest c) as Hrc by (apply elem_of_rest; auto).
    destruct (Hin r Hrc) as [Hl|(s & l & Hss & Has & Hrl)]; [by left|]. right. exists s, l. split; [|done].
    apply list_elem_of_filter. split; [|apply list_elem_of_filter; split; [|done]].
    + intros Hx. destruct (Hsk s Hx) as [_ Hn]. pose proof (eq_trans (eq_sym Hn) (hn_arch _ _ _ _ _ _ Hh s Hss)) as E.
      by rewrite Has in E.
    + intros Hx. destruct (Hex s Hx) as [_ Hn0]. pose proof (eq_trans (eq_sym Hn0) (hn_arch _ _ _ _ _ _ Hh s Hss)) as Hn.
      rewrite Has in Hn. symmetry in Hn. injection Hn as Hn. revert Hn. apply (answer_nonempty _ _ r); [simpl; lia|done|]. apply kept_elem. split; [|done].
      apply page_matches; auto.
Qed.

Lemma rest_next c r : last (take (Z.to_nat b) (rest c)) = Some r →
  rest (Some (cursor_of r)) = drop (Z.to_nat b) (rest c) ∧ ∀ x, past (Some (cursor_of r)) x → past c x.
Proof.
  intros Hl. assert (r ∈ rest c) as Hr by (apply last_Some_elem_of in Hl; by eapply subseteq_take).
  apply elem_of_rest in Hr as [Hr _].
  assert (∀ x, past (Some (cursor_of r)) x → past c x) as Himp.
  { intros x Hx d ->. eapply After_trans; [by apply Hx|by apply Hr]. }
  split; [|done]. rewrite <- (rest_after _ _ _ (rest_sorted c) (rest_ids c) Hl). unfold rest. rewrite list_filter_filter.
  apply filter_iff_in. intros x _. split; [|intros [Hx _]; by intros d [= <-]].
  intros Hx. split; [by apply Hx|by apply Himp].
Qed.

(** The loop hands the callback the rows that are left, in pages. *)
Lemma stream_loop_delivers {S E} (g : S → list ResultRow → S) fuel : ∀ ws st, (∀ k, W (ws k)) →
  covered (sr_cursor st) (sr_sources st) → (length (rest (sr_cursor st)) + length (sr_sources st) < fuel)%nat →
  ∃ pages st', stream_loop (λ s rows, inl (g s rows) : S + E) fuel ws o src b st = Some (SDone, st') ∧
    sr_caller st' = foldl g (sr_caller st) pages ∧ mjoin pages = rest (sr_cursor st) ∧
    Forall (λ p, 0 < Z.of_nat (length p) ≤ b) pages.
Proof.
  induction fuel as [|fuel IH]; intros ws st Hws Hcov Hf; [lia|]. simpl. unfold stream_pass.
  destruct (page_delivers (ws O) _ _ (Hws O) Hcov) as (p & Hp & Hrows & Hsk & Hnext). unfold page_opts in Hp. rewrite Hp.
  set (c := sr_cursor st) in *. set (srcs := withoutSources (withoutSources _ _) _).
  assert (length srcs ≤ length (sr_sources st))%nat as Hle by apply retire_le.
  destruct (last (pg_rows p)) as [r|] eqn:El.
  - rewrite Hrows in El. destruct (rest_next c r El) as [Hrest Hpast].
    assert (r ∈ rest c) as Hr by (apply last_Some_elem_of in El; by eapply subseteq_take).
    assert (0 < length (take (Z.to_nat b) (rest c)) ≤ Z.to_nat b)%nat as Hlen.
    { rewrite length_take. destruct (rest c); [by apply elem_of_nil in Hr|]. simpl. lia. }
    apply elem_of_rest in Hr as [Hr _]. cbn [sr_cursor sr_sources sr_skipped sr_caller].
    replace (match c with Some d => negb (After (cursor_of r) d) | None => false end) with false
      by (destruct c as [d|]; [by rewrite (Hr d eq_refl)|done]).
    destruct (_ && _) eqn:Eend.
    + apply andb_true_iff in Eend as [Hshort _]. eexists [take (Z.to_nat b) (rest c)], _. split; [done|]. simpl.
      rewrite Hrows in *. apply Z.ltb_lt in Hshort. rewrite length_take in Hshort. rewrite app_nil_r. split; [done|].
      split; [apply take_ge; lia|]. repeat constructor; lia.
    + destruct (IH (λ k, ws (Datatypes.S k)) {| sr_cursor := Some (cursor_of r); sr_sources := srcs;
        sr_skipped := sr_skipped st ++ skipped p; sr_caller := g (sr_caller st) (pg_rows p) |}) as (pages & st' & H1 & H2 & H3 & H4).
      * intros k. apply Hws.
      * by apply Hnext.
      * cbn [sr_cursor sr_sources]. rewrite Hrest, length_drop. rewrite length_take in Hlen. lia.
      * exists (take (Z.to_nat b) (rest c) :: pages), st'. cbn [sr_cursor] in H3. split; [exact H1|]. cbn [sr_caller] in H2.
        split; [rewrite H2; simpl; by rewrite Hrows|]. simpl. rewrite H3, Hrest, take_drop. split; [done|]. constructor; [lia|done].
  - assert (rest c = []) as Hnil.
    { rewrite Hrows in El. apply last_None in El. destruct (rest c); [done|]. by destruct (Z.to_nat b) eqn:Eb; [lia|]. }
    destruct (skipped p) as [|s sk] eqn:Esk; simpl.
    + eexists [], _. split; [done|]. simpl. by rewrite Hnil.
    + apply (IH (λ k, ws (Datatypes.S k)) {| sr_cursor := c; sr_sources := srcs; sr_skipped := _; sr_caller := _ |});
        cbn [sr_cursor sr_sources]; [intros k; apply Hws|by apply Hnext|].
      enough (length srcs < length (sr_sources st))%nat by lia. apply (retire_lt _ _ _ s); [apply Hsk|]; by left.
Qed.
End walk.

(** The pages of the walk under a plan that tells the truth; [FetchFull] derives
    [plan_true] from what the tables of the index say. *)
Lemma FetchMergedStream_pages {S E} (g : S → list ResultRow → S) w ws o src o' batchSize caller live arch all fuel
    (q := fm_Opts o') (b := if batchSize <=? 0 then DefaultStreamBatchSize else batchSize) :
  stream_guard o = inl () → resolveMergeSources w o = (src, inl o') → o_LatestPerPKCandidates q = false →
  parted all (live :: archived src arch) → Forall (λ r, 0 < EventTimestamp r) all →
  (∀ k c, honest flags (ws k) (page_opts q b c) src live arch) → plan_true flags q src all live →
  fm_AllowGaps o = true ∨ Forall (λ s, is_Some (arch s)) (archSources src) →
  (length all + length (archSources src) < fuel)%nat →
  ∃ pages, FetchMergedStream (λ s rows, inl (g s rows) : S + E) fuel w ws o batchSize caller =
      (ms_plan src, Some (SDone, foldl g caller pages)) ∧
    mjoin pages = sort_by asc (kept flags q all) ∧ Forall (λ p, 0 < Z.of_nat (length p) ≤ b) pages.
Proof.
  intros Hg Hr Hcand P Hpos Hstill T Hgaps Hf. unfold FetchMergedStream. rewrite Hg, Hr. fold b.
  apply stream_guard_facts in Hg as (Hper & _ & Hplain & Hasc & Hafter & _).
  apply resolve_keeps in Hr as (since & settled & ->).
  set (o' := with_opts o (set_since (fm_Opts o) since settled)) in *.
  assert (rest o' all None = todo o' all) as Hrest by (apply filter_all; by intros r _ d [=]).
  destruct (stream_loop_delivers (λ w, ∃ k, w = ws k) o' src b live arch all)
    with (S := S) (E := E) (g := g) (fuel := fuel) (ws := ws)
      (st := {| sr_cursor := None; sr_sources := archSources src; sr_skipped := []; sr_caller := caller |})
    as (pages & st' & -> & H2 & H3 & H4); try done.
  - unfold b, DefaultStreamBatchSize. destruct (Z.leb_spec batchSize 0); lia.
  - intros w' c [k ->]. apply Hstill.
  - eauto.
  - cbn [sr_cursor sr_sources]. split; [done|]. intros r (_ & _ & Ha)%elem_of_rest.
    destruct (pt_cover _ _ P r Ha) as (p & [->|Hp]%elem_of_cons & Hrp); [by left|right].
    apply list_elem_of_omap in Hp as (s & Hs & Hsp). eauto.
  - cbn [sr_cursor sr_sources]. rewrite Hrest. unfold todo. rewrite sort_by_length.
    eapply Nat.le_lt_trans; [|exact Hf]. apply Nat.add_le_mono_r, length_filter.
  - exists pages. split; [by rewrite H2|]. split; [|done]. rewrite H3. exact Hrest.
Qed.
End delivers.

(** Sources that ignore the cursor; the sources of [mr_world]. *)
Definition st_opts : FetchMergedOptions := with_opts mr_opts zero_options.
Definition st_rude : world := {|
  w_engine q := inl w_new; w_archive q s := mr_arch s;
  w_index := s_db; w_fresh := []; w_proof := λ _, IDsUnproven; w_sources := Some ["a"; "b"]; w_partitions := Some [];
  w_state := None; w_now := w_t0 + 2 * hour |}.
Definition st_note (pages : list (list N)) (rows : list ResultRow) : list (list N) := pages ++ [EventID <$> rows].
Definition st_src : mergeSources :=
  {| archSources := ["a"; "b"]; ms_plan := None; discoveryFailed := false; misfiledHoursOf := [] |}.

Lemma st_bounded : bounded (λ _, st_rude) (cursor_of <$> w_old ++ w_new).
Proof.
  intros k q src f [l [= <-] Hf|s l _ Hl Hf]; apply list_elem_of_fmap_2, elem_of_app; [by right|left].
  simpl in Hl. unfold mr_arch in Hl. by case_bool_decide; simplify_eq.
Qed.

Lemma FetchMergedStream_terminates_witness : bounded (λ _, st_rude) (cursor_of <$> w_old ++ w_new) ∧
  is_Some (FetchMergedStream (λ s rows, inl (st_note s rows) : _ + ()) 7 st_rude (λ _, st_rude) st_opts 1 []).2.
Proof.
  split; [exact st_bounded|].
  apply (FetchMergedStream_terminates _ st_rude (λ _, st_rude) st_opts 1 [] (cursor_of <$> w_old ++ w_new) 7 st_bounded).
  vm_compute. lia.
Defined.
