(* ===== verification/FetchFull.v ===== *)
(** * A whole merged read: discovery, plan, short-circuits, merge

    [FetchMerged] ([internal/query/fetchmerged.go]) composed: on an index whose
    [archive_state] records what the archives hold it answers as one table of
    every event would, and in strict mode it refuses rather than leave a source
    out. The plans under which it does leave live rows out are at the end. *)
From S2P Require Import Prelude GoStrings GoText GoTime GoVal Event SysVersion Rows Merge BinlogOrder TopN MergeLatest PkRange Planner PositionFloor QueryWhere QueryFetch NewestWalk LatestPK FetchMerged MergedRead StreamRead.

Open Scope Z_scope.

(** ** What a plan says *)

Definition coverage_of (db : planIndex) : list archiveCoverage :=
  match pi_archives db with ArchiveRows rows => loadArchiveCoverage rows | _ => [] end.

Lemma elem_of_expand cov h : h ∈ expandArchiveHours cov ↔ ∃ c, c ∈ cov ∧ claims c h.
Proof.
  unfold expandArchiveHours. rewrite elem_of_sort_by, (proj1 (foldl_expand cov [])), elem_of_nil, Exists_exists. naive_solver.
Qed.

Lemma ParsePartitionName_aligned name t : ParsePartitionName name = Some t → aligned t.
Proof.
  unfold ParsePartitionName. destruct (_ || _); [done|].
  destruct (if forallb _ _ then _ else _) as [year|]; simpl; [|done].
  destruct (getnum _ true) as [[month s1]|]; simpl; [|done]. destruct (getnum s1 true) as [[dd s2]|]; simpl; [|done].
  destruct (getnum s2 false) as [[hh s3]|]; simpl; [|done]. destruct (_ && _); [|done]. intros [= <-].
  unfold aligned. change day with (24 * hour). rewrite Z.mul_assoc, <- Z.mul_add_distr_r. by apply Z.mod_mul.
Qed.

Lemma coverage_aligned db c : c ∈ coverage_of db → aligned (Label c).
Proof.
  unfold coverage_of, loadArchiveCoverage. destruct (pi_archives db) as [rows| |]; [|by intros ?%elem_of_nil..].
  intros ([[name a] b] & _ & H)%list_elem_of_omap. destruct (ParsePartitionName name) as [t|] eqn:E; [|done]. simpl in H.
  apply ParsePartitionName_aligned in E. by destruct a, b; simplify_eq.
Qed.

(** Every range starts at one of the hours. *)
Lemma ranges_loop_start hours s e cur out r : r ∈ ranges_loop hours s e cur out →
  r ∈ out ∨ (∃ c, cur = Some c ∧ Start r = Start c) ∨ Start r ∈ hours.
Proof.
  revert cur out. induction hours as [|h hours IH]; intros cur out; simpl.
  - destruct cur as [c|]; [rewrite elem_of_app, list_elem_of_singleton; naive_solver|auto].
  - destruct (_ || _); [intros [?|[?|?]]%IH; [by left|right; by left|right; right; by right]|].
    destruct cur as [c|]; [destruct (h =? End_ c)|]; intros [H|[(c' & [= <-] & Hs)|H]]%IH; simpl in *.
    all: try (by left). all: try (right; right; by right).
    + right; left. by exists c.
    + apply elem_of_app in H as [?| ->%list_elem_of_singleton]; [by left|right; left; by exists c].
    + right; right. rewrite Hs. by left.
    + right; right. rewrite Hs. by left.
Qed.

Lemma min_hours_le h rest x : x ∈ h :: rest → min_hours h rest ≤ x.
Proof.
  unfold min_hours. assert (∀ m, let t := foldl (λ m x, if x <? m then x else m) m rest in t ≤ m ∧ ∀ x, x ∈ rest → t ≤ x) as H.
  { induction rest as [|y rest IH]; intros m; simpl; [split; [lia|by intros ? ?%elem_of_nil]|].
    destruct (IH (if y <? m then y else m)) as [H1 H2].
    assert ((if y <? m then y else m) ≤ m ∧ (if y <? m then y else m) ≤ y) by (destruct (Z.ltb_spec y m); lia).
    split; [lia|]. intros z [->|Hz]%elem_of_cons; [lia|auto]. }
  destruct (H h) as [H1 H2]. intros [->|Hx]%elem_of_cons; auto.
Qed.

Lemma min_hours_in h rest : min_hours h rest ∈ h :: rest.
Proof.
  unfold min_hours. revert h. induction rest as [|y rest IH]; intros h; simpl; [by left|].
  specialize (IH (if y <? h then y else h)). destruct (y <? h); set_solver.
Qed.

Lemma live_hours_aligned names : Forall aligned (loadLivePartitionHours names).
Proof. apply Forall_forall. intros h (n & _ & Hn)%list_elem_of_omap. by eapply ParsePartitionName_aligned. Qed.

Lemma archivesBelowLive_lt live arch x a : archivesBelowLive live arch = true → x ∈ live → a ∈ arch → a < x.
Proof.
  unfold archivesBelowLive. destruct live as [|h rest]; [by intros _ ?%elem_of_nil|].
  destruct arch as [|a0 arch]; [by intros _ _ ?%elem_of_nil|]. intros Hf Hx%min_hours_le Ha.
  rewrite forallb_forall in Hf. apply list_elem_of_In, Hf, Z.ltb_lt in Ha. lia.
Qed.

(** The plan of a window, from the parts of the index. *)
Definition window_start (since : option Z) : Z := match since with Some s => truncate_hour s | None => 0 end.
Definition window_end (until : option Z) : Z := match until with Some u => truncate_hour u + hour | None => 0 end.

Lemma Plan_inv now db since until p : Plan now db since until false = Some (Some p) → ∃ names bp,
  pi_partitions db = Some names ∧
  buildPlan now (loadLivePartitionHours names) (expandArchiveHours (coverage_of db)) (window_start since) (window_end until) false = Some bp ∧
  MySQLRanges p = MySQLRanges bp ∧ GapHours p = GapHours bp ∧ ArchivesBelowLive p = ArchivesBelowLive bp.
Proof.
  unfold Plan. intros H. assert (∃ names, pi_partitions db = Some names ∧
    (plan ← buildPlan now (loadLivePartitionHours names) (expandArchiveHours (coverage_of db)) (window_start since) (window_end until) false;
     Some {| MySQLRanges := MySQLRanges plan; GapHours := GapHours plan; OldestKnownHour := OldestKnownHour plan;
             ArchivesBelowLive := ArchivesBelowLive plan;
             MisfiledArchiveHours := misfiledHours (coverage_of db) (window_start since) (window_end until);
             ArchiveCoverageUnavailable := match pi_archives db with ArchiveFails => true | _ => false end |}) = Some p)
    as (names & Hn & Hp).
  { unfold coverage_of, window_start, window_end. destruct since, until; try done;
      (destruct (pi_partitions db) as [names|]; [|done]; simpl in H; exists names; split; [done|]);
      destruct (pi_archives db); by injection H as H. }
  exists names. destruct (buildPlan _ _ _ _ _ _) as [bp|]; [|done]. injection Hp as <-. by exists bp.
Qed.

Lemma Plan_below now db since until p range a : Plan now db since until false = Some (Some p) →
  MySQLRanges p = [range] → ArchivesBelowLive p = true → a ∈ expandArchiveHours (coverage_of db) → a < Start range ∧ aligned (Start range).
Proof.
  intros (names & bp & Hn & Hb & -> & _ & ->)%Plan_inv Hr Hbelow Ha. unfold buildPlan in Hb.
  destruct (_ && _); [done|]. destruct (if window_start since =? 0 then _ else _) as [rs|]; [|done]. simpl in Hb.
  injection Hb as <-. cbn [MySQLRanges ArchivesBelowLive] in *.
  destruct (existsb _ _); [|done]. assert (range ∈ [range]) as Hin by by left. rewrite <- Hr in Hin.
  apply ranges_loop_start in Hin as [?%elem_of_nil|[(c & [=] & _)|Hin]]; [done|].
  split; [by eapply archivesBelowLive_lt|]. by apply (proj1 (Forall_forall _ _) (live_hours_aligned names)).
Qed.

Lemma PlanBrowse_below db p range a : PlanBrowse db = Some (Some p) →
  MySQLRanges p = [range] → a ∈ expandArchiveHours (coverage_of db) → a < Start range ∧ aligned (Start range).
Proof.
  unfold PlanBrowse, coverage_of. destruct (pi_partitions db) as [names|]; [|done]. simpl.
  assert (∀ arch, browsePlanFromHours (loadLivePartitionHours names) arch = Some p → MySQLRanges p = [range] → a ∈ arch → a < Start range ∧ aligned (Start range)) as H.
  { intros arch. unfold browsePlanFromHours. pose proof (live_hours_aligned names) as Hal. destruct (loadLivePartitionHours names) as [|h rest]; [done|].
    destruct (forallb _ _) eqn:Ef; [|done]. intros [= <-] [= <-] Ha. simpl. rewrite forallb_forall in Ef.
    apply list_elem_of_In, Ef, Z.ltb_lt in Ha. split; [done|]. apply (proj1 (Forall_forall _ _) Hal), min_hours_in. }
  destruct (pi_archives db); [| |done]; intros [= Hb]; by apply H.
Qed.

(** A live hour of the window puts a range in the plan. *)
Lemma live_hour_ranges live rs re h : hours_ok live → aligned rs → aligned h → rs ≤ h < re → h ∈ live →
  (if existsb (λ h, bool_decide (h ∈ live)) (hours_until rs re) then buildContiguousRanges live rs re else []) ≠ [].
Proof.
  intros Hok Hrs Hh Hr Hin. assert (existsb (λ h, bool_decide (h ∈ live)) (hours_until rs re) = true) as ->.
  { apply existsb_exists. exists h. rewrite <- list_elem_of_In, elem_of_hours_until by done. split; [lia|].
    by apply bool_decide_true. }
  intros E. pose proof (ranges_loop_covers live rs re None [] h Hh (proj1 Hok) ltac:(done)) as Hc.
  unfold buildContiguousRanges in E. rewrite E in Hc. unfold covers in Hc. rewrite Exists_nil in Hc. naive_solver.
Qed.

Lemma first_live_le live x rest h : hours_ok live → live = x :: rest → h ∈ live → aligned x ∧ x ≤ h.
Proof.
  intros [Ha Hs] -> Hin. apply Forall_cons in Ha as [Ha _]. split; [done|]. apply StronglySorted_inv in Hs as [_ Hx].
  rewrite Forall_forall in Hx. apply elem_of_cons in Hin as [->|Hin]; [lia|]. specialize (Hx h Hin). lia.
Qed.

Lemma last_live_ge live x h : hours_ok live → last live = Some x → h ∈ live → h ≤ x.
Proof.
  intros [_ Hs] [l ->]%last_Some Hin. apply StronglySorted_app in Hs as (Hc & _ & _).
  apply elem_of_app in Hin as [Hin| ->%list_elem_of_singleton]; [|lia]. pose proof (Hc h x Hin ltac:(by left)). lia.
Qed.

(** MySQL is skipped only for windows no live hour and no unclaimed hour is in. *)
Lemma Plan_skip now db since until p names h : Plan now db since until false = Some (Some p) → SkipMySQL (Some p) = true →
  pi_partitions db = Some names → hours_ok (loadLivePartitionHours names) → aligned h →
  window_start since ≤ h → (until = None ∨ h < window_end until) →
  (h ∉ loadLivePartitionHours names) ∧
  (window_start since ≠ 0 → until ≠ None → window_end until ≠ 0 → h ∈ expandArchiveHours (coverage_of db)).
Proof.
  intros Hp Hskip Hn Hok Hh Hs He. apply Plan_inv in Hp as (names' & bp & Hn' & Hb & Hr & Hg & _).
  rewrite Hn in Hn'. injection Hn' as <-. unfold SkipMySQL in Hskip. rewrite Hr, Hg in Hskip.
  apply andb_true_iff in Hskip as [H1%Nat.eqb_eq%nil_length_inv H2%Nat.eqb_eq%nil_length_inv]. clear Hr Hg.
  set (live := loadLivePartitionHours names) in *. set (arch := expandArchiveHours _) in *.
  unfold buildPlan in Hb. destruct (_ && _); [done|].
  destruct (if window_start since =? 0 then _ else _) as [rs|] eqn:Ers; [|done]. simpl in Hb.
  set (re := if window_end until =? 0 then _ else _) in Hb. injection Hb as <-. cbn [MySQLRanges GapHours] in *.
  split.
  - intros Hin. revert H1. apply (live_hour_ranges _ _ _ h); [done| |done| |done].
    + destruct (Z.eqb_spec (window_start since) 0) as [E|E].
      * destruct live as [|x live'] eqn:El; [by apply elem_of_nil in Hin|]. injection Ers as <-. by eapply first_live_le.
      * injection Ers as <-. unfold window_start in *. destruct since; [apply truncate_aligned|done].
    + split.
      * destruct (Z.eqb_spec (window_start since) 0) as [E|E]; [|by injection Ers as <-].
        destruct live as [|x live'] eqn:El; [by apply elem_of_nil in Hin|]. injection Ers as <-. by eapply first_live_le.
      * unfold re. destruct (Z.eqb_spec (window_end until) 0) as [E|E]; [|destruct He as [->|He]; [done|lia]].
        pose proof hour_pos. destruct (last live) as [x|] eqn:El; [pose proof (last_live_ge _ _ _ Hok El Hin); lia|].
        apply last_None in El. rewrite El in Hin. by apply elem_of_nil in Hin.
  - intros Hs0 Hu0 He0. assert (rs = window_start since) as -> by (destruct (Z.eqb_spec (window_start since) 0); [done|by injection Ers as <-]).
    assert (re = window_end until) as E by (unfold re; by destruct (Z.eqb_spec (window_end until) 0)).
    assert (aligned (window_start since)) as Hal by (unfold window_start; destruct since; [apply truncate_aligned|done]).
    destruct (decide (h ∈ live)) as [Hl|Hl]; [destruct (live_hour_ranges live (window_start since) re h); naive_solver lia|].
    destruct (decide (h ∈ arch)) as [|Hna]; [done|exfalso]. apply (elem_of_nil h). rewrite <- H2.
    apply list_elem_of_filter. split; [done|]. apply elem_of_hours_until; naive_solver lia.
Qed.

(** ** The sources and the plan of a read *)

(** What [resolveMergeSources] settled, when there are archives to read. *)
Inductive planned (w : world) (o o' : FetchMergedOptions) (srcs : list string) : option QueryPlan → Prop :=
| no_plan : planned w o o' srcs None
| window_plan p :
    Plan (w_now w) (plan_index w (ScopeFromPaths srcs)) (o_Since (fm_Opts o')) (o_Until (fm_Opts o')) false = Some (Some p) →
    planned w o o' srcs (Some p)
| moved_plan p gaps : o_SincePos (fm_Opts o') ≠ None →
    Plan (w_now w) (plan_index w (ScopeFromPaths srcs)) (o_Since (fm_Opts o')) (o_Until (fm_Opts o')) false = Some (Some p) →
    planned w o o' srcs (Some (set_gaps p gaps))
| browse_plan p : PlanBrowse (plan_index w (ScopeFromPaths srcs)) = Some (Some p) → planned w o o' srcs (Some p).

Lemma settle_keeps db fresh opts heads moved firstEnd opts' :
  settleSince db fresh opts heads = inl (moved, firstEnd, opts') → moved = true → fo_SincePos opts ≠ None.
Proof.
  unfold settleSince. destruct (fo_sinceSettled opts || bool_decide (fo_Since opts = None) || bool_decide (fo_SincePos opts = None)) eqn:E.
  - by intros [= <- _ _].
  - intros _ _. rewrite !orb_false_iff in E. destruct E as [_ E]. by apply bool_decide_eq_false in E.
Qed.

Lemma resolve_inv w o src o' : resolveMergeSources w o = (src, inl o') →
  (∃ since settled, o' = with_opts o (set_since (fm_Opts o) since settled)) ∧
  (fm_AllowGaps o = false → ∀ p, ms_plan src = Some p → GapHours p = []) ∧
  (if fm_NoArchive o then archSources src = [] ∧ discoveryFailed src = false
   else archSources src = default [] (w_sources w) ∧ discoveryFailed src = bool_decide (w_sources w = None) ∧
        (fm_AllowGaps o = false → w_sources w ≠ None)) ∧
  (archSources src ≠ [] → planned w o o' (archSources src) (ms_plan src)).
Proof.
  unfold resolveMergeSources. destruct (settleSince _ _ _ _) as [[[moved firstEnd] fo]|e] eqn:Es; [|done]. cbv zeta.
  set (o1 := with_opts o _). set (resolved := if fm_NoArchive o1 then Some [] else w_sources w).
  destruct (bool_decide (resolved = None) && negb (fm_AllowGaps o1)) eqn:Er; [done|].
  set (srcs := default [] resolved). intros H.
  assert (∀ plan misfiled, resolve_plan w o1 srcs (bool_decide (resolved = None)) moved firstEnd (default 0 (o_Since (fm_Opts o))) = inl (plan, misfiled) →
    srcs ≠ [] → planned w o o1 srcs plan) as Hplan.
  { intros plan misfiled Hp Hne. unfold resolve_plan in Hp. destruct (_ && _) eqn:Ec in Hp; [|injection Hp as <- <-; constructor].
    assert (fm_NoArchive o1 = false) as Hna.
    { destruct (fm_NoArchive o1) eqn:E; [|done]. done. }
    assert (bool_decide (resolved = None) = false) as Hres.
    { apply bool_decide_eq_false. intros E. unfold srcs in Hne. by rewrite E in Hne. }
    rewrite Hna, Hres in Hp. destruct (Plan _ _ _ _ _) as [[p|]|] eqn:Ep in Hp.
    - injection Hp as <- _. destruct moved; [|by apply window_plan]. apply moved_plan; [|done].
      apply (settle_keeps _ _ _ _ _ _ _ Es eq_refl).
    - injection Hp as <- _. constructor.
    - destruct (negb _); [done|]. injection Hp as <- _. constructor. }
  destruct (resolve_plan _ _ _ _ _ _ _) as [[plan misfiled]|e]; [|done].
  specialize (Hplan plan misfiled eq_refl).
  set (plan' := if _ : bool then match PlanBrowse _ with Some p => p | None => None end else plan) in H.
  assert (srcs ≠ [] → planned w o o1 srcs plan') as Hplan'.
  { intros Hne. unfold plan'. match goal with |- planned _ _ _ _ (if ?b then _ else _) => destruct b end; [|by apply Hplan]. destruct (PlanBrowse _) as [[p|]|] eqn:Ep; [|constructor..].
    by apply browse_plan. }
  assert (o' = o1 ∧ src = {| archSources := srcs; ms_plan := plan'; discoveryFailed := bool_decide (resolved = None); misfiledHoursOf := misfiled |} ∧
    (fm_AllowGaps o = false → ∀ p, plan' = Some p → GapHours p = [])) as (-> & -> & Hg).
  { clearbody plan'. clear Er Hplan Hplan'. destruct plan' as [p|]; [|by simplify_eq].
    destruct ((0 <? length (GapHours p))%nat && negb (fm_AllowGaps o1)) eqn:Eg; [done|]. injection H as <- <-.
    split_and!; [done..|]. intros Hag ? [= <-]. change (fm_AllowGaps o1) with (fm_AllowGaps o) in Eg. rewrite Hag, andb_true_r in Eg.
    apply Nat.ltb_ge in Eg. destruct (GapHours p); [done|simpl in Eg; lia]. }
  cbn [archSources ms_plan discoveryFailed]. split_and!; [by eexists _, _|done| |done].
  unfold srcs, resolved in *. change (fm_NoArchive o1) with (fm_NoArchive o) in *. destruct (fm_NoArchive o); [done|].
  split_and!; [done..|]. intros Hag E. rewrite E in Er. change (fm_AllowGaps o1) with (fm_AllowGaps o) in Er. by rewrite Hag in Er.
Qed.

Lemma read_archives_strict w q srcs rows sk ex rows' sk' ex' :
  read_archives w false q srcs (rows, sk, ex) = inl (rows', sk', ex') → sk' = sk ∧ ∀ s, s ∈ srcs → is_Some (w_archive w q s).
Proof.
  revert rows ex. induction srcs as [|s srcs IH]; intros rows ex; simpl; [intros [= <- <- <-]; by split; [|intros ? ?%elem_of_nil]|].
  destruct (w_archive w q s) as [l|] eqn:E; [|done]. intros [-> H]%IH. split; [done|].
  intros x [->|Hx]%elem_of_cons; [by rewrite E; eexists|auto].
Qed.

Lemma page_strict w o src p : fm_AllowGaps o = false → fetchPageRows w o src = inl p →
  skipped p = [] ∧ (archivesElided p = true ∨
    ∀ s, s ∈ archSources src → is_Some (w_archive w (set_extra (fm_Opts o) (misfiledHoursOf src)) s)).
Proof.
  intros Hag. unfold fetchPageRows. rewrite Hag. destruct (archSources src) as [|s0 srcs]; intros H; inv_try.
  - subst p. simpl. split; [done|right]. by intros s ?%elem_of_nil.
  - destruct b; inv_try; [subst p; simpl; by split; [|left]|].
    match goal with Hr : read_archives _ _ _ _ _ = _ |- _ => apply read_archives_strict in Hr as [-> Hs] end.
    subst p. simpl. by split; [|right].
Qed.

(** C23: A strict read leaves nothing out. With gaps not allowed, a read that
    returns rows has found its archives, has no gap hour in its plan, names no
    source as skipped, and read every archive, unless it proved that they could
    not change the answer. *)
Theorem FetchMergedFull_strict w o plan p order : fm_AllowGaps o = false → FetchMergedFull w o = (plan, inl (p, order)) →
  skipped p = [] ∧ (∀ pl, plan = Some pl → GapHours pl = []) ∧
  (fm_NoArchive o = true ∨ ∃ srcs, w_sources w = Some srcs ∧
     (archivesElided p = true ∨ ∃ q, ∀ s, s ∈ srcs → is_Some (w_archive w q s))).
Proof.
  intros Hag. unfold FetchMergedFull. destruct (fm_validate o); [|done].
  destruct (resolveMergeSources w o) as [src [o'|e]] eqn:Er; [|done]. apply resolve_inv in Er as ((since & settled & ->) & Hg & Hsrc & _).
  set (o' := with_opts _ _). intros H. injection H as <- H. apply try_bind_inl in H as ([p1 ord1] & Hp & H). injection H as <- _.
  assert (skipped p1 = [] ∧ (archivesElided p1 = true ∨ ∃ q, ∀ s, s ∈ archSources src → is_Some (w_archive w q s))) as [Hsk He].
  { unfold fetchPage in Hp. destruct (fm_LatestInBinlog o'); simpl in Hp; apply try_bind_inl in Hp as (p2 & Hp & H);
      apply page_strict in Hp as [H1 H2]; try done.
    - destruct (LatestPerPKInBinlog _ _ _ _) as [[rows order']|[]]; [|done..]. injection H as <- _. simpl. naive_solver.
    - injection H as <- _. naive_solver. }
  destruct (fm_NoArchive o) eqn:En; simpl.
  - destruct Hsrc as [_ ->]. split_and!; [done|by apply Hg|by left].
  - destruct Hsrc as (Hs & Hd & Hne). specialize (Hne Hag). destruct (w_sources w) as [srcs|]; [|done]. simpl in Hs, Hd.
    rewrite Hd. split_and!; [done|by apply Hg|right]. exists srcs. split; [done|]. by rewrite Hs in He.
Qed.

(** ** The whole read *)

Section whole.
Context `{M : MySQL, L : !MySQLLaws M} (flags : list flagRow).

(** The record of an archive covers a row: in its content range, or in its
    label's hour where the range is not known. *)
Definition record_covers (c : archiveCoverage) (r : ResultRow) : Prop :=
  (cov_Min c = 0 ∨ cov_Max c = 0) ∧ Label c ≤ EventTimestamp r < Label c + hour ∨
  cov_Min c ≠ 0 ∧ cov_Max c ≠ 0 ∧ cov_Min c ≤ EventTimestamp r ≤ cov_Max c ∧ cov_Max c - cov_Min c ≤ maxCoverageSpan.

(** The tables of the index say where the rows are: the partitions are in
    order; a live row the read wants is in the hour of a partition, or the
    window is closed and no archive claims its hour; a row that is not live is
    covered by the record of an archive the read opens. *)
Record accurate (w : world) (q : Options) (srcs : list string) (all live : list ResultRow) : Prop := {
  ac_order names : w_partitions w = Some names → hours_ok (loadLivePartitionHours names);
  ac_live names r : w_partitions w = Some names → r ∈ live → matches flags q r = true →
    truncate_hour (EventTimestamp r) ∈ loadLivePartitionHours names ∨
    (∃ s u, o_Since q = Some s ∧ hour ≤ s ∧ o_Until q = Some u) ∧
      (truncate_hour (EventTimestamp r) ∉ expandArchiveHours (coverage_of (plan_index w (ScopeFromPaths srcs))));
  ac_archived r : r ∈ all → r ∉ live → ∃ c, c ∈ coverage_of (plan_index w (ScopeFromPaths srcs)) ∧ record_covers c r;
}.

Lemma truncate_mono a b : a ≤ b → truncate_hour a ≤ truncate_hour b.
Proof. intros H. unfold truncate_hour. apply Z.mul_le_mono_nonneg_r; [done|]. by apply Z.div_le_mono. Qed.

Lemma record_claims db c r : c ∈ coverage_of db → record_covers c r → truncate_hour (EventTimestamp r) ∈ expandArchiveHours (coverage_of db).
Proof.
  intros Hc Hr. apply elem_of_expand. exists c. split; [done|]. pose proof (truncate_bound (EventTimestamp r)).
  destruct Hr as [[_ Hl]|(H1 & H2 & H3 & H4)]; [left|right].
  - symmetry. apply aligned_eq; [by eapply coverage_aligned|apply truncate_aligned|].
    assert (truncate_hour (Label c) ≤ truncate_hour (EventTimestamp r)) by (apply truncate_mono; lia).
    assert (truncate_hour (Label c) = Label c); [|lia]. pose proof (truncate_bound (Label c)). apply aligned_eq; [apply truncate_aligned| |done].
    by eapply coverage_aligned.
  - apply elem_of_content_hours; [apply truncate_aligned|]. split_and!; [done..|lia|done| |lia]. apply truncate_mono. lia.
Qed.

(** The hour of a row the read wants is in its window. *)
Lemma matches_window q r : o_SincePos q = None → matches flags q r = true → 0 < EventTimestamp r →
  window_start (o_Since q) ≤ truncate_hour (EventTimestamp r) ∧
  (o_Until q = None ∨ truncate_hour (EventTimestamp r) < window_end (o_Until q)).
Proof.
  intros Hsp Hm Hpos. split.
  - unfold window_start. destruct (o_Since q) as [s|] eqn:Es; [|unfold truncate_hour; apply Z.mul_nonneg_nonneg; [|done]; apply Z.div_pos; lia || done].
    apply truncate_mono. assert (holds flags (CTimeGe s) r = true) as H.
    { eapply matches_cond; [|exact Hm]. unfold where_conds. rewrite Es, Hsp. rewrite !elem_of_app. do 6 right. left. right. by left. }
    simpl in H. lia.
  - destruct (o_Until q) as [u|] eqn:Eu; [right|by left]. simpl.
    assert (holds flags (CTimeLe u) r = true) as H.
    { eapply matches_cond; [|exact Hm]. unfold where_conds. rewrite Eu. rewrite !elem_of_app. do 9 right. left. right. by left. }
    simpl in H. assert (truncate_hour (EventTimestamp r) ≤ truncate_hour u) by (apply truncate_mono; lia). pose proof hour_pos. lia.
Qed.

(** Where the tables are accurate, the plan tells the truth. *)
Lemma resolve_plan_true w o src o' all live arch : resolveMergeSources w o = (src, inl o') → o_SincePos (fm_Opts o) = None →
  parted all (live :: archived src arch) → Forall (λ r, 0 < EventTimestamp r) all →
  accurate w (fm_Opts o') (archSources src) all live → plan_true flags (fm_Opts o') src all live.
Proof.
  intros Hres Hsp P Hpos A. apply resolve_inv in Hres as ((since & settled & ->) & _ & _ & Hplan).
  set (o' := with_opts o _) in *. assert (o_SincePos (fm_Opts o') = None) as Hsp' by done. split.
  - intros r Hne Hskip Hr. apply not_true_is_false. intros Hm. specialize (Hplan Hne). set (srcs := archSources src) in *.
    assert (0 < EventTimestamp r) as Ht.
    { rewrite Forall_forall in Hpos. apply Hpos. by apply (proj2 (pt_parts _ _ P live ltac:(by left))). }
    destruct (matches_window _ _ Hsp' Hm Ht) as [Hw1 Hw2]. destruct Hplan as [|p Hp|p gaps Hmv Hp|p Hp].
    + done.
    + destruct (Plan_inv _ _ _ _ _ Hp) as (names & _ & Hn & _).
      destruct (Plan_skip _ _ _ _ _ _ _ Hp Hskip Hn (ac_order _ _ _ _ _ A _ Hn) (truncate_aligned _) Hw1 Hw2) as [Hnl Hcl].
      destruct (ac_live _ _ _ _ _ A names r Hn Hr Hm) as [Hl|[(s & u & Es & Hs & Eu) Hna]]; [done|]. apply Hna, Hcl.
      * rewrite Es. simpl. assert (truncate_hour hour ≤ truncate_hour s) by by apply truncate_mono.
        assert (0 < truncate_hour hour) by done. lia.
      * by rewrite Eu.
      * rewrite Eu in Hw2 |- *. destruct Hw2 as [|Hw2]; [done|]. assert (truncate_hour 0 ≤ truncate_hour (EventTimestamp r)) by (apply truncate_mono; lia).
        change (truncate_hour 0) with 0 in *. lia.
    + done.
    + unfold PlanBrowse, browsePlanFromHours in Hp. destruct (pi_partitions _); [|done]. simpl in Hp.
      by repeat case_match; simplify_eq.
  - intros range r Hsound Ha Hnl. destruct (ac_archived _ _ _ _ _ A r Ha Hnl) as (c & Hc & Hcov).
    assert (archSources src ≠ []) as Hne.
    { intros E. destruct (pt_cover _ _ P r Ha) as (p & [->|Hp]%elem_of_cons & Hrp); [done|]. unfold archived in Hp. rewrite E in Hp.
      by apply elem_of_nil in Hp. }
    pose proof (record_claims _ _ _ Hc Hcov) as Hh. unfold sound_plan in Hsound. specialize (Hplan Hne).
    destruct (ms_plan src) as [p|] eqn:Epl; [|done].
    destruct (MySQLRanges p) as [|range' [|]] eqn:Er; [done| |done]. destruct (_ && _) eqn:Eb in Hsound; [|done].
    injection Hsound as ->. apply andb_true_iff in Eb as [Eb _].
    assert (truncate_hour (EventTimestamp r) < Start range ∧ aligned (Start range)) as [Hlt Hal].
    { inversion Hplan as [|p' Hp|p' gaps Hmv Hp|p' Hp]; subst; [by eapply Plan_below|done|by eapply PlanBrowse_below]. }
    pose proof (truncate_bound (EventTimestamp r)). destruct (Z.lt_ge_cases (EventTimestamp r) (Start range)) as [|Hge]; [done|].
    assert (truncate_hour (EventTimestamp r) = Start range); [|lia]. apply aligned_eq; [apply truncate_aligned|done|lia].
Qed.

(** C5: A merged read answers as one table holding every event would. The read
    finds its archives, plans its window, reads the live index or skips it,
    reads each archive or proves it need not, each with the read's own filters,
    limits and order, merges, trims to the latest of each key and cuts: where
    the partitions and [archive_state] say truthfully where the rows are, the
    result is what the reference gives over the rows of all the sources that
    answer, and a source may fail only where gaps are allowed. The shape left
    out, an ascending page of the latest of each key, and keys that a collation
    identifies are in [merged_read_conditions]; the windows left out are those of
    [skipped_live_rows]. *)
Theorem FetchMerged_reference w o src o' live arch all (q := fm_Opts o') :
  fm_validate o = inl () → resolveMergeSources w o = (src, inl o') → fm_LatestInBinlog o = false → o_SincePos (fm_Opts o) = None →
  0 ≤ o_Limit q → 0 ≤ o_LimitPerPK q → o_LatestPerPKCandidates q = false → limits_merge q →
  parted all (live :: archived src arch) → keyed flags q all → Forall (λ r, 0 < EventTimestamp r) all →
  honest flags w q src live arch → accurate w q (archSources src) all live →
  fm_AllowGaps o = true ∨ Forall (λ s, is_Some (arch s)) (archSources src) →
  FetchMerged w o = (ms_plan src, inl (reference flags q all)).
Proof.
  intros Hv Hr Hplain Hsp Hlim Hper Hcand Hm P K Hpos Hh A Hg. unfold FetchMerged, FetchMergedFull. rewrite Hv, Hr.
  pose proof (resolve_plan_true w o src o' all live arch Hr Hsp P Hpos A) as T.
  apply resolve_inv in Hr as ((since & settled & ->) & _). set (o' := with_opts o _) in *.
  destruct (fetchPageRows_reference flags w o' src live arch all) as (p & Hp & Hrows & _); try done.
  unfold fetchPage. change (fm_LatestInBinlog o') with (fm_LatestInBinlog o). rewrite Hplain. simpl. rewrite Hp. simpl. by rewrite Hrows.
Qed.

(** C6: The paged read delivers every event once. Over a live index and archives
    that do not change while it walks, and whose tables are [accurate] (the
    partitions and [archive_state] say truthfully where the rows are, as for the
    single read), the pages the callback receives are, one after the other, the
    events the read matches in the order of their time and id, and no other:
    none twice where a source repeats another's, none lost at the border of a
    page, when a source runs dry or when one fails that gaps allow to fail. No
    page is empty or longer than the batch. The windows [accurate] leaves out
    are those of [skipped_live_rows]; a read from a binlog position
    ([SincePos]) is left out too. *)
Theorem FetchMergedStream_delivers {S E} (g : S → list ResultRow → S) w ws o src o' batchSize caller live arch all fuel
    (q := fm_Opts o') (b := if batchSize <=? 0 then DefaultStreamBatchSize else batchSize) :
  stream_guard o = inl () → resolveMergeSources w o = (src, inl o') → o_SincePos (fm_Opts o) = None →
  o_LatestPerPKCandidates q = false →
  parted all (live :: archived src arch) → Forall (λ r, 0 < EventTimestamp r) all →
  (∀ k c, honest flags (ws k) (page_opts q b c) src live arch) → accurate w q (archSources src) all live →
  fm_AllowGaps o = true ∨ Forall (λ s, is_Some (arch s)) (archSources src) →
  (length all + length (archSources src) < fuel)%nat →
  ∃ pages, FetchMergedStream (λ s rows, inl (g s rows) : S + E) fuel w ws o batchSize caller =
      (ms_plan src, Some (SDone, foldl g caller pages)) ∧
    mjoin pages = sort_by asc (kept flags q all) ∧ Forall (λ p, 0 < Z.of_nat (length p) ≤ b) pages.
Proof.
  intros Hg Hr Hsp Hcand P Hpos Hstill A Hgaps Hf.
  eapply FetchMergedStream_pages; try done. by eapply resolve_plan_true.
Qed.
End whole.

(** ** Samples *)

(** One archive, recorded for its hour; one live partition after it. *)
Definition ff_source : string := "/a/bintrail_id=x".
Definition ff_src : list string := [ff_source].
Definition ff_world (live old : list ResultRow) : world := {|
  w_engine q := inl (answer [] q live);
  w_archive q s := if bool_decide (s = ff_source) then Some (answer [] q old) else None;
  w_index := s_db; w_fresh := []; w_proof := λ _, IDsUnproven; w_sources := Some ff_src;
  w_partitions := Some ["p_2024030100"; "p_future"];
  w_state := Some (Some [(Some "x", ("p_2024022923", Some w_t0, Some (w_t0 + 59 * second)))]); w_now := w_t0 + 9 * hour |}.
Definition ff_read (q : Options) : FetchMergedOptions := {|
  fm_Opts := q; fm_DBName := "idx"; fm_NoArchive := false; fm_AllowGaps := false; fm_HasFetcher := true;
  fm_PartitionHeads := None; fm_LatestInBinlog := false; fm_HistoryRowCap := 0 |}.
Definition ff_window (since : Z) (until : option Z) (limit perPK : Z) (order : string) : Options := {|
  o_Schema := "s"; o_Table := ""; o_PKValues := ""; o_PKValuesAlt := ""; o_PKValuesIn := []; o_PKAliases := [];
  o_PKRange := None; o_EventType := None; o_GTID := ""; o_Since := Some since; o_Until := until; o_UntilPos := None;
  o_SincePos := None; o_SinceEventID := 0; o_ArchivesCheckedThrough := None; o_sinceSettled := false;
  o_AfterEvent := None; o_EventAnchor := None; o_BeforeEvent := None; o_ExtraArchiveHours := [];
  o_ChangedColumn := ""; o_QueryHash := ""; o_ColumnEq := []; o_Flag := ""; o_Limit := limit; o_LimitPerPK := perPK;
  o_LatestPerPKCandidates := false; o_Order := order; o_DenyTables := []; o_RedactColumns := []; o_AllowTables := [];
  o_AllowColumns := []; o_ProfileActive := false |}.

(** The facts of the samples: their rows are in one of the sources, and the
    tables say in which. *)
Definition ff_arch (old : list ResultRow) (s : string) : option (list ResultRow) := if bool_decide (s = ff_source) then Some old else None.

Lemma ff_parted live old : NoDup (EventID <$> old ++ live) → Forall no_span (old ++ live) → parted (old ++ live) [live; old].
Proof.
  intros Hid Hns. pose proof Hid as Hid'. rewrite fmap_app in Hid. apply NoDup_app in Hid as (H1 & Hd & H2). split; [done..| |].
  - intros p [->| ->%list_elem_of_singleton]%elem_of_cons; (split; [done|set_solver]).
  - intros r [Hin|Hin]%elem_of_app; [exists old|exists live]; (split; [set_solver|done]).
Qed.

Lemma ff_accurate live old q :
  Forall (λ r, truncate_hour (EventTimestamp r) = truncate_hour w_t0 + hour) live →
  Forall (λ r, w_t0 ≤ EventTimestamp r ≤ w_t0 + 59 * second) old →
  accurate [] (ff_world live old) q ff_src (old ++ live) live.
Proof.
  intros Hlive Hold. change (plan_index (ff_world live old)) with (plan_index (ff_world [] [])). split.
  - intros names [= <-]. split; repeat constructor.
  - intros names r [= <-] Hin _. left. rewrite Forall_forall in Hlive. rewrite (Hlive r Hin). dec_compute.
  - intros r [Hin|Hin]%elem_of_app Hn; [|done]. change (plan_index (ff_world live old)) with (plan_index (ff_world [] [])).
    eexists. split; [vm_compute; left|]. right.
    rewrite Forall_forall in Hold. specialize (Hold r Hin). split_and!; done || apply Hold.
Qed.

Lemma ff_honest live old q src : archSources src = ff_src → honest [] (ff_world live old) q src live (ff_arch old).
Proof. intros Hs. split; [done|]. intros s _. simpl. unfold ff_arch. by case_bool_decide. Qed.

(** The page of both sources. *)
Definition ff_opts : FetchMergedOptions := ff_read (ff_window w_t0 None 2 0 "desc").
Definition ff_sources : mergeSources := (resolveMergeSources (ff_world w_new w_old) ff_opts).1.

Lemma FetchMerged_reference_witness :
  FetchMerged (ff_world w_new w_old) ff_opts = (ms_plan ff_sources, inl [w_row 3 (w_t0 + hour) "B"; w_row 2 (w_t0 + second) "b"]).
Proof.
  rewrite (FetchMerged_reference [] (ff_world w_new w_old) ff_opts ff_sources ff_opts w_new (ff_arch w_old) (w_old ++ w_new)).
  - vm_compute. reflexivity.
  - vm_compute. reflexivity.
  - vm_compute. reflexivity.
  - reflexivity.
  - reflexivity.
  - done.
  - done.
  - reflexivity.
  - by left.
  - apply ff_parted; [dec_compute|repeat constructor].
  - done.
  - repeat constructor; vm_compute; reflexivity.
  - by apply ff_honest.
  - apply ff_accurate; repeat constructor; dec_compute.
  - right. repeat constructor. by eexists.
Defined.

(** The walk over both sources, one event a page. *)
Definition fs_opts : FetchMergedOptions := ff_read (ff_window w_t0 None 0 0 "").

Lemma FetchMergedStream_delivers_witness : ∃ pages,
  FetchMergedStream (λ s rows, inl (st_note s rows) : _ + ()) 5 (ff_world w_new w_old) (λ _, ff_world w_new w_old) fs_opts 1 [] =
    (ms_plan ff_sources, Some (SDone, foldl st_note [] pages)) ∧ mjoin pages = w_old ++ w_new.
Proof.
  destruct (FetchMergedStream_delivers [] (E := ()) st_note (ff_world w_new w_old) (λ _, ff_world w_new w_old) fs_opts ff_sources fs_opts
    1 [] w_new (ff_arch w_old) (w_old ++ w_new) 5) as (pages & H1 & H2 & _).
  - vm_compute. reflexivity.
  - vm_compute. reflexivity.
  - reflexivity.
  - reflexivity.
  - apply ff_parted; [dec_compute|repeat constructor].
  - repeat constructor; vm_compute; reflexivity.
  - intros k c. by apply ff_honest.
  - apply ff_accurate; repeat constructor; dec_compute.
  - right. repeat constructor. by eexists.
  - vm_compute. lia.
  - exists pages. split; [exact H1|]. rewrite H2. vm_compute. reflexivity.
Defined.

Lemma FetchMergedFull_strict_witness : ∃ p, (FetchMergedFull (ff_world w_new w_old) ff_opts).2 = inl (p, zero_order) ∧ skipped p = [].
Proof.
  eexists. split; [vm_compute; reflexivity|].
  refine (proj1 (FetchMergedFull_strict (ff_world w_new w_old) ff_opts (ms_plan ff_sources) _ zero_order eq_refl _)).
  vm_compute. reflexivity.
Defined.

(** ** Where a read leaves rows out *)

(** A window in which a plan sees no reason to read the live index: open, from
    after the newest hourly partition, or closed and with every hour archived
    and none live. *)
Definition unseen_window (live arch : list Z) (since : Z) (until : option Z) : Prop :=
  truncate_hour since ≠ 0 ∧
  match until with
  | None => ∃ h, last live = Some h ∧ h < truncate_hour since
  | Some u => truncate_hour u + hour ≠ 0 ∧
      ∀ h, aligned h → truncate_hour since ≤ h ≤ truncate_hour u → (h ∉ live) ∧ h ∈ arch
  end.

Lemma aligned_next a b : aligned a → aligned b → a < b → a + hour ≤ b.
Proof.
  unfold aligned. intros Ha Hb. pose proof hour_pos. apply Z.mod_divide in Ha as [x ->], Hb as [y ->]; [|lia..].
  intros Hlt%Z.mul_lt_mono_pos_r; [|done]. rewrite <- Z.mul_succ_l. apply Z.mul_le_mono_nonneg_r; lia.
Qed.

Lemma aligned_hours from to : aligned from → Forall aligned (hours_until from to).
Proof.
  intros Ha. apply Forall_forall. unfold hours_until. intros h (k & -> & _)%list_elem_of_fmap. revert Ha. unfold aligned.
  pose proof hour_pos. intros [x ->]%Z.mod_divide; [|lia]. rewrite <- Z.mul_add_distr_r. by apply Z.mod_mul.
Qed.

(** The hours the plan of such a window counts. *)
Lemma unseen_hours now live arch since until : Forall aligned live → unseen_window live arch since until →
  ∃ p, buildPlan now live arch (truncate_hour since) (window_end until) false = Some p ∧ MySQLRanges p = [] ∧ GapHours p = [].
Proof.
  intros Hal [Hs Hw]. unfold buildPlan. apply Z.eqb_neq in Hs as ->. simpl.
  set (re := if window_end until =? 0 then _ else _).
  assert (∀ h, h ∈ hours_until (truncate_hour since) re → (h ∉ live) ∧ h ∈ arch) as Hh.
  { intros h Hin. pose proof (proj1 (Forall_forall _ _) (aligned_hours _ re (truncate_aligned since)) h Hin) as Ha.
    apply elem_of_hours_until in Hin; [|apply truncate_aligned|done]. unfold re in Hin. destruct until as [u|]; simpl in *.
    - destruct Hw as [E%Z.eqb_neq Hw]. rewrite E in Hin. apply Hw; [done|]. split; [lia|].
      destruct (Z.lt_ge_cases (truncate_hour u) h) as [Hlt|]; [|lia].
      pose proof (aligned_next _ _ (truncate_aligned u) Ha Hlt). lia.
    - destruct Hw as (x & Hx & Hlt). rewrite Hx in Hin. apply last_Some_elem_of in Hx.
      pose proof (proj1 (Forall_forall _ _) Hal x Hx). pose proof (aligned_next x h ltac:(done) Ha ltac:(lia)). lia. }
  eexists. split; [done|]. cbn [MySQLRanges GapHours]. split.
  - replace (existsb _ _) with false; [done|]. symmetry. apply not_true_is_false. intros (h & Hin & Hl)%existsb_exists.
    apply list_elem_of_In in Hin. apply bool_decide_eq_true in Hl. by destruct (Hh h Hin).
  - apply list_nil_subseteq. intros h [[_ Hna] Hin]%list_elem_of_filter. by destruct (Hh h Hin).
Qed.

Definition with_engine (w : world) (engine : Options → list ResultRow + fetchErr) : world := {|
  w_engine := engine; w_archive := w_archive w; w_index := w_index w; w_fresh := w_fresh w; w_proof := w_proof w;
  w_sources := w_sources w; w_partitions := w_partitions w; w_state := w_state w; w_now := w_now w |}.

Lemma settle_none db fresh opts heads : fo_SincePos opts = None → settleSince db fresh opts heads = inl (false, 0, opts).
Proof. intros H. unfold settleSince. by rewrite H, (bool_decide_true (None = None)), orb_true_r. Qed.

(** The plan of such a window, and the sources a read of it resolves. *)
Lemma resolve_unseen w o srcs names since :
  fm_NoArchive o = false → fm_DBName o ≠ "" → o_SincePos (fm_Opts o) = None → o_Since (fm_Opts o) = Some since →
  w_sources w = Some srcs → srcs ≠ [] → w_partitions w = Some names →
  unseen_window (loadLivePartitionHours names) (expandArchiveHours (coverage_of (plan_index w (ScopeFromPaths srcs))))
    since (o_Until (fm_Opts o)) →
  ∃ src o' p, resolveMergeSources w o = (src, inl o') ∧ fm_LatestInBinlog o' = fm_LatestInBinlog o ∧
    archSources src ≠ [] ∧ ms_plan src = Some p ∧ MySQLRanges p = [] ∧ GapHours p = [].
Proof.
  intros Hna Hdb Hsp Hs Hsrc Hne Hn Hu. destruct (unseen_hours (w_now w) _ _ _ _ (live_hours_aligned names) Hu) as (bp & Hb & Hr & Hg).
  unfold resolveMergeSources. rewrite settle_none by done.
  cbn [fm_NoArchive with_opts fo_Since fo_sinceSettled]. rewrite Hna, Hsrc. simpl.
  unfold resolve_plan. cbn [fm_NoArchive with_opts fm_DBName fm_Opts set_since assign o_Since o_Until fm_AllowGaps].
  rewrite (bool_decide_false (fm_DBName o = "")) by done. rewrite Hna, Hs. destruct srcs as [|s0 srcs]; [done|]. set (srcs' := s0 :: srcs) in *.
  assert (∃ p, Plan (w_now w) (plan_index w (ScopeFromPaths srcs')) (Some since) (o_Until (fm_Opts o)) false = Some (Some p) ∧
    MySQLRanges p = [] ∧ GapHours p = []) as (p & Hp & Hpr & Hpg).
  { unfold Plan. cbv zeta. change (pi_partitions _) with (w_partitions w). rewrite Hn. cbn [mbind option_bind]. unfold coverage_of, window_end in Hb.
    destruct (pi_archives (plan_index w (ScopeFromPaths srcs'))); rewrite Hb; simpl; by eexists. }
  change (0 <? length srcs')%nat with true. cbn [negb orb andb]. rewrite Hp. simpl. rewrite Hpg. simpl. by eexists _, _, p.
Qed.

(** A page under a plan that skips the live index does not ask it. *)
Lemma page_without_engine w o src engine : archSources src ≠ [] → SkipMySQL (ms_plan src) = true →
  fetchPageRows (with_engine w engine) o src = fetchPageRows w o src.
Proof.
  assert (∀ ag q l st, read_archives (with_engine w engine) ag q l st = read_archives w ag q l st) as E.
  { intros ag q l. induction l as [|s l IH]; intros [[rows sk] ex]; cbn [read_archives]; [done|].
    change (w_archive (with_engine w engine) q s) with (w_archive w q s).
    destruct (w_archive w q s); [|destruct (negb ag)]; simpl; auto. }
  intros Hne Hs. unfold fetchPageRows. destruct (archSources src) as [|s0 ss]; [done|]. rewrite Hs. cbn [try_bind].
  destruct (ArchivesNotNeeded _ _ _) as [kept []]; [done|]. by rewrite E.
Qed.

(** C24: A read of such a window does not depend on the live index, in strict
    mode too: whatever the index holds or answers, the result is the same, and
    the plan returned with it names no gap. The two windows hold rows in
    practice: (1) the newest rows are in the catch-all partition until the next
    hour's is added, and a plan of an open window ends with the newest hourly
    partition; (2) the first live partition has no lower bound and takes late
    rows of hours already archived. *)
Theorem skipped_live_rows w o srcs names since engine :
  fm_validate o = inl () → fm_NoArchive o = false → fm_DBName o ≠ "" → fm_LatestInBinlog o = false →
  o_SincePos (fm_Opts o) = None → o_Since (fm_Opts o) = Some since →
  w_sources w = Some srcs → srcs ≠ [] → w_partitions w = Some names →
  unseen_window (loadLivePartitionHours names) (expandArchiveHours (coverage_of (plan_index w (ScopeFromPaths srcs))))
    since (o_Until (fm_Opts o)) →
  FetchMerged (with_engine w engine) o = FetchMerged w o ∧
  ∃ p, (FetchMerged w o).1 = Some p ∧ MySQLRanges p = [] ∧ GapHours p = [].
Proof.
  intros Hv Hna Hdb Hl Hsp Hs Hsrc Hne Hn Hu. destruct (resolve_unseen w o srcs names since) as (src & o' & p & Hr & Hl' & Ha & Hp & Hpr & Hpg); [done..|].
  unfold FetchMerged, FetchMergedFull. change (resolveMergeSources (with_engine w engine) o) with (resolveMergeSources w o).
  rewrite Hv, Hr. unfold fetchPage. rewrite Hl', Hl. simpl. split; [|by exists p].
  rewrite page_without_engine; [done..|]. unfold SkipMySQL. by rewrite Hp, Hpr, Hpg.
Qed.

(** The newest row, in the catch-all partition; a late row of an archived hour. *)
Definition ff_event (id : N) (t : Z) (pk : string) : ResultRow := {|
  EventID := id; BinlogFile := "b.000001"; StartPos := id * 10; EndPos := id * 10 + 9; EventTimestamp := t;
  GTID := None; ConnectionID := None; SchemaName := "s"; TableName := "t"; EventType := EventInsert;
  PKValues := pk; RowChangedColumns := []; RowBefore := None; RowAfter := None; SchemaVersion := 0;
  QueryText := None; QueryHash := None; CommitTsUS := None; KeySpanFirst := ""; KeySpanLast := "" |}.
Definition ff_newest : ResultRow := ff_event 9 (w_t0 + 5 * hour) "1".
Definition ff_late : ResultRow := ff_event 9 (w_t0 + 2 * second) "1".

Lemma skipped_live_rows_witness :
  (let o := ff_read (ff_window (w_t0 + 5 * hour) None 0 0 "") in
   w_engine (ff_world [ff_newest] w_old) (fm_Opts o) = inl [ff_newest] ∧
   FetchMerged (ff_world [ff_newest] w_old) o = FetchMerged (ff_world [] w_old) o) ∧
  (let o := ff_read (ff_window w_t0 (Some (w_t0 + 9 * second)) 0 0 "") in
   w_engine (ff_world [ff_late] w_old) (fm_Opts o) = inl [ff_late] ∧
   FetchMerged (ff_world [ff_late] w_old) o = FetchMerged (ff_world [] w_old) o).
Proof.
  split; (split; [vm_compute; reflexivity|]).
  - refine (proj1 (skipped_live_rows (ff_world [] w_old) (ff_read (ff_window (w_t0 + 5 * hour) None 0 0 "")) ff_src
      ["p_2024030100"; "p_future"] (w_t0 + 5 * hour) (w_engine (ff_world [ff_newest] w_old)) _ _ _ _ _ _ _ _ _ _)); try done.
    split; [done|]. by eexists.
  - refine (proj1 (skipped_live_rows (ff_world [] w_old) (ff_read (ff_window w_t0 (Some (w_t0 + 9 * second)) 0 0 "")) ff_src
      ["p_2024030100"; "p_future"] w_t0 (w_engine (ff_world [ff_late] w_old)) _ _ _ _ _ _ _ _ _ _)); try done.
    split; [done|]. split; [done|]. intros h Ha Hh. assert (h = truncate_hour w_t0) as ->; [|split; dec_compute].
    change (truncate_hour (w_t0 + 9 * second)) with (truncate_hour w_t0) in Hh. lia.
Defined.

(** ** The conditions on limits and keys *)

(** The statement of [FetchMerged_reference] with [side] for its two conditions
    on the read's limits and on the keys. *)
Definition merged_read (side : Options → list ResultRow → Prop) : Prop := ∀ w o src o' live arch all, let q := fm_Opts o' in
  fm_validate o = inl () → resolveMergeSources w o = (src, inl o') → fm_LatestInBinlog o = false → o_SincePos (fm_Opts o) = None →
  0 ≤ o_Limit q → 0 ≤ o_LimitPerPK q → o_LatestPerPKCandidates q = false → side q all →
  parted all (live :: archived src arch) → Forall (λ r, 0 < EventTimestamp r) all →
  honest [] w q src live arch → accurate [] w q (archSources src) all live →
  fm_AllowGaps o = true ∨ Forall (λ s, is_Some (arch s)) (archSources src) →
  FetchMerged w o = (ms_plan src, inl (reference [] q all)).

(** A sample that has everything but the condition refutes the statement. *)
Lemma merged_read_refuted side live old q (o := ff_read q) (src := (resolveMergeSources (ff_world live old) o).1) :
  fm_validate o = inl () → resolveMergeSources (ff_world live old) o = (src, inl o) → archSources src = ff_src →
  o_SincePos q = None → 0 ≤ o_Limit q → 0 ≤ o_LimitPerPK q → o_LatestPerPKCandidates q = false →
  side q (old ++ live) → NoDup (EventID <$> old ++ live) → Forall no_span (old ++ live) →
  Forall (λ r, truncate_hour (EventTimestamp r) = truncate_hour w_t0 + hour) live →
  Forall (λ r, w_t0 ≤ EventTimestamp r ≤ w_t0 + 59 * second) old →
  (FetchMerged (ff_world live old) o).2 ≠ inl (reference [] q (old ++ live)) → ¬ merged_read side.
Proof.
  intros Hv Hr Hs Hsp Hlim Hper Hc Hside Hid Hns Hlive Hold Hne H. apply Hne. clear Hne.
  rewrite (H (ff_world live old) o src o live (ff_arch old) (old ++ live)); [done|..]; try done; clear H.
  - unfold archived. rewrite Hs. by apply ff_parted.
  - apply Forall_app. split; (eapply Forall_impl; [eassumption|]); simpl; intros r Hh.
    + assert (0 < w_t0) by done. lia.
    + pose proof (truncate_bound (EventTimestamp r)). assert (0 < truncate_hour w_t0 + hour) by done. lia.
  - by apply ff_honest.
  - rewrite Hs. by apply ff_accurate.
  - right. rewrite Hs. repeat constructor. by eexists.
Qed.

(** The newer event of key [1] is cut from the live page of one row; two keys
    that differ in case. *)
Definition page_old : list ResultRow := [ff_event 1 w_t0 "1"].
Definition page_live : list ResultRow := [ff_event 2 (w_t0 + hour) "2"; ff_event 3 (w_t0 + hour + second) "1"].
Definition case_live : list ResultRow := [ff_event 2 (w_t0 + hour) "a"; ff_event 3 (w_t0 + hour + second) "A"].

(** C40: Both conditions of [FetchMerged_reference] on limits and keys are
    needed, each with all the others in force. (1) Without [limits_merge] an
    ascending page of the latest event of each key can hold an event that is not
    the latest of its key: each source cuts its own page before the merge caps
    the keys, the newer event of the key is cut from the live page, and the
    archived one passes for the latest. (2) Without [keyed] the latest event of
    a key is lost when another key equals it in the column's collation: the live
    statement caps keys by the collation, the merge by their bytes. *)
Theorem merged_read_conditions :
  (¬ merged_read (λ q all, keyed [] q all)) ∧ (¬ merged_read (λ q _, limits_merge q)).
Proof.
  split.
  - apply (merged_read_refuted _ page_live page_old (ff_window w_t0 (Some (w_t0 + hour + 9 * second)) 1 1 "")).
    1-3: vm_compute; reflexivity. 1-4: done.
    + intros _ r r' [_ Hr]%kept_elem [_ Hr']%kept_elem. assert (Forall (λ r, Forall (λ r', PKValues r ≠ "" ∧
        (coll_eq (PKValues r) (PKValues r') = true → PKValues r = PKValues r')) (page_old ++ page_live)) (page_old ++ page_live)) as H by dec_compute.
      rewrite Forall_forall in H. specialize (H r Hr). rewrite Forall_forall in H. by apply H.
    + dec_compute.
    + repeat constructor.
    + repeat constructor.
    + repeat constructor; dec_compute.
    + vm_compute. done.
  - apply (merged_read_refuted _ case_live page_old (ff_window w_t0 (Some (w_t0 + hour + 9 * second)) 0 1 "")).
    1-3: vm_compute; reflexivity. 1-4: done.
    + right. by left.
    + dec_compute.
    + repeat constructor.
    + repeat constructor.
    + repeat constructor; dec_compute.
    + vm_compute. done.
Qed.
