(* ===== verification/Cascade.v ===== *)
(** * The invisible side of a foreign-key cascade: [internal/cascade/cascade.go]

    InnoDB applies a cascade below the binary log. [SynthesizeVictims] finds the
    child rows a parent DELETE or key UPDATE touched from their last indexed
    images and from baseline snapshots, layer by layer. The closures of the
    function share its local variables, which are the record [cs] here; a caveat
    is represented by the key it is reported under, an error by its text. *)
From S2P Require Import Prelude GoStrings GoText GoTime GoBytes GoVal Event Rows Merge BinlogOrder TopN PkRange PositionFloor QueryWhere LatestPK.

Open Scope Z_scope.

(** ** Data *)

Record CascadeFK := {
  fk_Schema : string;
  fk_Table : string;
  ConstraintName : string;
  fk_Column : string;
  ReferencedSchema : string;
  ReferencedTable : string;
  ReferencedColumn : string;
  DeleteRule : string;
  UpdateRule : string;
  ChildExcludedFromSnapshot : bool;
}.

Record BaselineRow := { br_PKValues : string; br_Row : option Row }.

Record BaselineLookup := {
  SnapshotTime : Z;
  bl_Rows : list BaselineRow;
  Truncated : bool;
  bl_SincePos : option BinlogPos;
  StaleMessage : string;
  UncheckedMessage : string;
}.

(** [BaselineChildren]'s errors as the caller tells them apart. *)
Inductive baselineErr := ErrGeneratedPK | ErrUnsupportedPKType | ErrBinlogRenumbered | ErrBaseline (text : string).

(** schema, table, column, parent key, root time, limit. *)
Definition BaselineProvider : Type := string → string → string → string → Z → Z → BaselineLookup * bool + baselineErr.

Record CascadeOptions := {
  Lookback : Z;
  MaxDepth : Z;
  CandidateLimit : Z;
  Baseline : option BaselineProvider;
  ArchivesPresent : bool;
  co_WindowCovered : option (Z → Z → bool + string);
  PKMetas : option (string → string → list ColumnMeta);
}.

Record SetNullRestore := {
  sn_Schema : string; sn_Table : string; sn_Column : string;
  sn_Value : GoVal; sn_PKValues : string; sn_Row : option Row;
}.

Record FKKeyRestore := {
  kr_Schema : string; kr_Table : string; kr_Column : string;
  kr_OldValue : GoVal; kr_NewValue : GoVal; kr_PKValues : string; kr_Row : option Row;
}.

Record Result := {
  Victims : list ResultRow;
  SetNullRows : list SetNullRestore;
  KeyUpdates : list FKKeyRestore;
  KeyUpdateParents : list ResultRow;
  Incomplete : list string;
  Warnings : list string;
}.

Definition Complete (r : Result) : bool := (length (Incomplete r) =? 0)%nat.

(** ** Helpers *)

Definition valToString (v : GoVal) : string :=
  match v with
  | VNil => ""
  | VString s | VNumber s | VBytes s => s
  | VBool b => if b then "true" else "false"
  | _ => format_v v
  end.

Definition skewSampleLimit : Z := 8.
Definition keyChainProbeLimit : Z := 8.

Definition has_column (img : option Row) (col : string) : bool :=
  match img with Some row => bool_decide (is_Some (row !! col)) | None => false end.

Definition fkColumnAbsentFromAll (col : string) (sample : list ResultRow) : bool :=
  if existsb (λ r, has_column (RowAfter r) col || has_column (RowBefore r) col) sample then false
  else existsb (λ r, bool_decide (is_Some (RowAfter r)) || bool_decide (is_Some (RowBefore r))) sample.

Definition withDefaults (o : CascadeOptions) : CascadeOptions := {|
  Lookback := if Lookback o =? 0 then 30 * 24 * hour else Lookback o;
  MaxDepth := if MaxDepth o =? 0 then 5 else MaxDepth o;
  CandidateLimit := if CandidateLimit o =? 0 then 1000 else CandidateLimit o;
  Baseline := Baseline o; ArchivesPresent := ArchivesPresent o; co_WindowCovered := co_WindowCovered o; PKMetas := PKMetas o |}.

Definition is_nil (v : GoVal) : bool := match v with VNil => true | _ => false end.

Definition refKeyChanged (oldVal newVal : GoVal) : bool :=
  if negb (Bool.eqb (is_nil oldVal) (is_nil newVal)) then true
  else if is_nil oldVal then false
  else negb (bool_decide (valToString oldVal = valToString newVal)).

Definition GeneratedPKColumn (pkCols : list ColumnMeta) : option ColumnMeta := find IsGenerated pkCols.

Definition afterSnapshot (ev : ResultRow) (snap : Z) (pos : option BinlogPos) : bool :=
  match pos with
  | Some pos =>
      if negb (bool_decide (BinlogFile ev = "")) then
        if negb (bool_decide (BinlogFile ev = File pos)) then
          if negb (String.length (BinlogFile ev) =? String.length (File pos))%nat
          then (String.length (File pos) <? String.length (BinlogFile ev))%nat
          else String.ltb (File pos) (BinlogFile ev)
        else (Pos pos <=? StartPos ev)%N
      else negb (EventTimestamp ev <? snap)
  | None => negb (EventTimestamp ev <? snap)
  end.

Definition tkey (schema table : string) : string := schema +:+ "." +:+ table.
Definition fk_child (fk : CascadeFK) : string := tkey (fk_Schema fk) (fk_Table fk).
Definition fk_parent (fk : CascadeFK) : string := tkey (ReferencedSchema fk) (ReferencedTable fk).
Definition constraint_key (fk : CascadeFK) : string := fk_child fk +:+ "." +:+ ConstraintName fk.

(** The newest image of each (schema, table, key), in first-seen order: the map
    of positions and the list that is rewritten in place. *)
Definition victim_key (v : ResultRow) : string := tkey (SchemaName v) (TableName v) +:+ "|" +:+ PKValues v.

Definition dedup_step (st : gmap string nat * list ResultRow) (v : ResultRow) : gmap string nat * list ResultRow :=
  let '(idx, out) := st in
  match idx !! victim_key v with
  | Some j =>
      match out !! j with
      | Some x => (idx, if EventTimestamp x <? EventTimestamp v then <[j := v]> out else out)
      | None => (idx, out)
      end
  | None => (<[victim_key v := length out]> idx, out ++ [v])
  end.

Definition dedupVictimsNewest (victims : list ResultRow) : list ResultRow :=
  if (length victims <? 2)%nat then victims else (foldl dedup_step (∅, []) victims).2.

(** ** The variables of a run *)

Record cs := {
  c_victims : list ResultRow;
  c_setNull : list SetNullRestore;
  c_keyUpdates : list FKKeyRestore;
  c_parents : list ResultRow;
  c_incomplete : list string;
  c_warnings : list string;
  c_errs : list string;
  c_setNullSeen : gmap string (nat * Z);
  c_keyUpdateSeen : gmap string (nat * Z);
  c_reported : gset string;
  c_warned : gset string;
  c_orders : gmap string LatestPerPKOrder;
  c_orderTables : list string;
  c_pkTypeGated : gset string;
  c_genPKGated : gmap string bool;
  c_visited : gset string;
  c_emitted : gset string;
  c_skewChecked : gset string;
  c_keyChainChecked : gset string;
  c_gapMemo : gmap (Z * Z) (bool * option string);
}.

Definition cs0 : cs := {|
  c_victims := []; c_setNull := []; c_keyUpdates := []; c_parents := []; c_incomplete := []; c_warnings := []; c_errs := [];
  c_setNullSeen := ∅; c_keyUpdateSeen := ∅; c_reported := ∅; c_warned := ∅; c_orders := ∅; c_orderTables := [];
  c_pkTypeGated := ∅; c_genPKGated := ∅; c_visited := ∅; c_emitted := ∅; c_skewChecked := ∅; c_keyChainChecked := ∅;
  c_gapMemo := ∅ |}.

(** What a run delivers, and its bookkeeping: each changed as one. *)
Definition with_out (s : cs) (v : list ResultRow) (sn : list SetNullRestore) (ku : list FKKeyRestore) (p : list ResultRow)
    (sns kus : gmap string (nat * Z)) (em : gset string) : cs := {|
  c_victims := v; c_setNull := sn; c_keyUpdates := ku; c_parents := p; c_incomplete := c_incomplete s;
  c_warnings := c_warnings s; c_errs := c_errs s; c_setNullSeen := sns; c_keyUpdateSeen := kus; c_reported := c_reported s;
  c_warned := c_warned s; c_orders := c_orders s; c_orderTables := c_orderTables s; c_pkTypeGated := c_pkTypeGated s;
  c_genPKGated := c_genPKGated s; c_visited := c_visited s; c_emitted := em; c_skewChecked := c_skewChecked s;
  c_keyChainChecked := c_keyChainChecked s; c_gapMemo := c_gapMemo s |}.

Definition with_notes (s : cs) (inc warn errs : list string) (rep wrd : gset string) (ords : gmap string LatestPerPKOrder)
    (ot : list string) : cs := {|
  c_victims := c_victims s; c_setNull := c_setNull s; c_keyUpdates := c_keyUpdates s; c_parents := c_parents s;
  c_incomplete := inc; c_warnings := warn; c_errs := errs; c_setNullSeen := c_setNullSeen s;
  c_keyUpdateSeen := c_keyUpdateSeen s; c_reported := rep; c_warned := wrd; c_orders := ords; c_orderTables := ot;
  c_pkTypeGated := c_pkTypeGated s; c_genPKGated := c_genPKGated s; c_visited := c_visited s; c_emitted := c_emitted s;
  c_skewChecked := c_skewChecked s; c_keyChainChecked := c_keyChainChecked s; c_gapMemo := c_gapMemo s |}.

Definition with_memos (s : cs) (pkt : gset string) (gen : gmap string bool) (vis skew chain : gset string)
    (gap : gmap (Z * Z) (bool * option string)) : cs := {|
  c_victims := c_victims s; c_setNull := c_setNull s; c_keyUpdates := c_keyUpdates s; c_parents := c_parents s;
  c_incomplete := c_incomplete s; c_warnings := c_warnings s; c_errs := c_errs s; c_setNullSeen := c_setNullSeen s;
  c_keyUpdateSeen := c_keyUpdateSeen s; c_reported := c_reported s; c_warned := c_warned s; c_orders := c_orders s;
  c_orderTables := c_orderTables s; c_pkTypeGated := pkt; c_genPKGated := gen; c_visited := vis; c_emitted := c_emitted s;
  c_skewChecked := skew; c_keyChainChecked := chain; c_gapMemo := gap |}.

Definition addIncomplete (key : string) (s : cs) : cs :=
  if bool_decide (key ∈ c_reported s) then s
  else with_notes s (c_incomplete s ++ [key]) (c_warnings s) (c_errs s) ({[key]} ∪ c_reported s) (c_warned s) (c_orders s) (c_orderTables s).

Definition addWarning (key : string) (s : cs) : cs :=
  if bool_decide (key ∈ c_warned s) then s
  else with_notes s (c_incomplete s) (c_warnings s ++ [key]) (c_errs s) (c_reported s) ({[key]} ∪ c_warned s) (c_orders s) (c_orderTables s).

Definition addErr (e : string) (s : cs) : cs :=
  with_notes s (c_incomplete s) (c_warnings s) (c_errs s ++ [e]) (c_reported s) (c_warned s) (c_orders s) (c_orderTables s).

Definition addOrder (table : string) (o : LatestPerPKOrder) (s : cs) : cs :=
  let known := bool_decide (is_Some (c_orders s !! table)) in
  with_notes s (c_incomplete s) (c_warnings s) (c_errs s) (c_reported s) (c_warned s)
    (<[table := Add (default zero_order (c_orders s !! table)) o]> (c_orders s))
    (if known then c_orderTables s else c_orderTables s ++ [table]).

Definition addSetNull (key : string) (ts : Z) (sr : SetNullRestore) (s : cs) : cs :=
  match c_setNullSeen s !! key with
  | Some (i, t) =>
      if t <? ts then
        with_out s (c_victims s) (<[i := sr]> (c_setNull s)) (c_keyUpdates s) (c_parents s)
          (<[key := (i, ts)]> (c_setNullSeen s)) (c_keyUpdateSeen s) (c_emitted s)
      else s
  | None =>
      with_out s (c_victims s) (c_setNull s ++ [sr]) (c_keyUpdates s) (c_parents s)
        (<[key := (length (c_setNull s), ts)]> (c_setNullSeen s)) (c_keyUpdateSeen s) (c_emitted s)
  end.

Definition addKeyUpdate (key : string) (ts : Z) (kr : FKKeyRestore) (s : cs) : cs :=
  match c_keyUpdateSeen s !! key with
  | Some (i, t) =>
      if t <? ts then
        with_out s (c_victims s) (c_setNull s) (<[i := kr]> (c_keyUpdates s)) (c_parents s)
          (c_setNullSeen s) (<[key := (i, ts)]> (c_keyUpdateSeen s)) (c_emitted s)
      else s
  | None =>
      with_out s (c_victims s) (c_setNull s) (c_keyUpdates s ++ [kr]) (c_parents s)
        (c_setNullSeen s) (<[key := (length (c_keyUpdates s), ts)]> (c_keyUpdateSeen s)) (c_emitted s)
  end.

Definition addVictim (key : string) (v : ResultRow) (s : cs) : cs :=
  with_out s (c_victims s ++ [v]) (c_setNull s) (c_keyUpdates s) (c_parents s) (c_setNullSeen s) (c_keyUpdateSeen s)
    ({[key]} ∪ c_emitted s).

Definition addParent (p : ResultRow) (s : cs) : cs :=
  with_out s (c_victims s) (c_setNull s) (c_keyUpdates s) (c_parents s ++ [p]) (c_setNullSeen s) (c_keyUpdateSeen s) (c_emitted s).

Definition set_pkTypeGated (k : string) (s : cs) : cs :=
  with_memos s ({[k]} ∪ c_pkTypeGated s) (c_genPKGated s) (c_visited s) (c_skewChecked s) (c_keyChainChecked s) (c_gapMemo s).
Definition set_genPKGated (k : string) (b : bool) (s : cs) : cs :=
  with_memos s (c_pkTypeGated s) (<[k := b]> (c_genPKGated s)) (c_visited s) (c_skewChecked s) (c_keyChainChecked s) (c_gapMemo s).
Definition set_visited (k : string) (s : cs) : cs :=
  with_memos s (c_pkTypeGated s) (c_genPKGated s) ({[k]} ∪ c_visited s) (c_skewChecked s) (c_keyChainChecked s) (c_gapMemo s).
Definition set_skewChecked (k : string) (s : cs) : cs :=
  with_memos s (c_pkTypeGated s) (c_genPKGated s) (c_visited s) ({[k]} ∪ c_skewChecked s) (c_keyChainChecked s) (c_gapMemo s).
Definition set_keyChainChecked (k : string) (s : cs) : cs :=
  with_memos s (c_pkTypeGated s) (c_genPKGated s) (c_visited s) (c_skewChecked s) ({[k]} ∪ c_keyChainChecked s) (c_gapMemo s).
Definition set_gapMemo (k : Z * Z) (v : bool * option string) (s : cs) : cs :=
  with_memos s (c_pkTypeGated s) (c_genPKGated s) (c_visited s) (c_skewChecked s) (c_keyChainChecked s) (<[k := v]> (c_gapMemo s)).

(** ** The graph *)

Definition is_cascade (rule : string) : bool := bool_decide (rule = "CASCADE") || bool_decide (rule = "SET NULL").

Definition composite (fks : list CascadeFK) (fk : CascadeFK) : bool :=
  (1 <? length (filter (λ f, constraint_key f = constraint_key fk) fks))%nat.

(** [byParentDelete], [byParentUpdate] of one parent, and the caveats of the
    constraints with several columns. *)
Definition by_parent_delete (fks : list CascadeFK) (parent : string) : list CascadeFK :=
  filter (λ fk, is_cascade (DeleteRule fk) = true ∧ composite fks fk = false ∧ fk_parent fk = parent) fks.
Definition by_parent_update (fks : list CascadeFK) (parent : string) : list CascadeFK :=
  filter (λ fk, is_cascade (UpdateRule fk) = true ∧ composite fks fk = false ∧ fk_parent fk = parent) fks.
Definition composite_caveats (fks : list CascadeFK) (s : cs) : cs :=
  foldl (λ s fk, if (is_cascade (DeleteRule fk) || is_cascade (UpdateRule fk)) && composite fks fk
                 then addIncomplete ("composite:" +:+ constraint_key fk) s else s) s fks.

(** ** Scans *)

(** The options of a probe: the fields the code sets. *)
Definition probe_opts (schema table : string) (eqs : list ColumnEq) (type : option N) (since until : Z) (pos : option BinlogPos)
    (order : string) (perPK limit : Z) : Options := {|
  o_Schema := schema; o_Table := table; o_PKValues := ""; o_PKValuesAlt := ""; o_PKValuesIn := []; o_PKAliases := [];
  o_PKRange := None; o_EventType := type; o_GTID := ""; o_Since := Some since; o_Until := Some until; o_UntilPos := None;
  o_SincePos := pos; o_SinceEventID := 0; o_ArchivesCheckedThrough := None; o_sinceSettled := false;
  o_AfterEvent := None; o_EventAnchor := None; o_BeforeEvent := None; o_ExtraArchiveHours := [];
  o_ChangedColumn := ""; o_QueryHash := ""; o_ColumnEq := eqs; o_Flag := ""; o_Limit := limit; o_LimitPerPK := perPK;
  o_LatestPerPKCandidates := false; o_Order := order; o_DenyTables := []; o_RedactColumns := []; o_AllowTables := [];
  o_AllowColumns := []; o_ProfileActive := false |}.

Record childScan := {
  sc_cands : list ResultRow;
  sc_baseRows : list BaselineRow;
  sc_baseSnap : Z;
  sc_augment : bool;
}.

(** What the baseline gives a scan. *)
Record baseInfo := {
  bi_rows : list BaselineRow;
  bi_snap : Z;
  bi_trunc : bool;
  bi_covered : bool;
  bi_since : Z;                       (* the start of the scan *)
  bi_sincePos : option BinlogPos;
  bi_stale : string;
  bi_unchecked : string;
  bi_gap : bool;
  bi_gapErr : option string;
  bi_recorded : option BinlogPos;
}.

Definition no_base (since : Z) : baseInfo := {|
  bi_rows := []; bi_snap := 0; bi_trunc := false; bi_covered := false; bi_since := since; bi_sincePos := None;
  bi_stale := ""; bi_unchecked := ""; bi_gap := false; bi_gapErr := None; bi_recorded := None |}.

Section run.
Context (fetch : Options → list ResultRow + string)
        (repick : option (Options → list ResultRow → list ResultRow * LatestPerPKOrder * option string))
        (opts : CascadeOptions).

Definition generatedPKGated (fk : CascadeFK) (s : cs) : bool * cs :=
  match c_genPKGated s !! fk_child fk with
  | Some g => (g, s)
  | None =>
      let gated := match PKMetas opts with
                   | Some metas => bool_decide (is_Some (GeneratedPKColumn (metas (fk_Schema fk) (fk_Table fk))))
                   | None => false
                   end in
      let s := if gated then addIncomplete ("generatedpk:" +:+ fk_child fk) s else s in
      (gated, set_genPKGated (fk_child fk) gated s)
  end.

Definition windowMayGap (snapshot until : Z) (s : cs) : bool * option string * cs :=
  match co_WindowCovered opts with
  | None => (ArchivesPresent opts, None, s)
  | Some covered =>
      match c_gapMemo s !! (snapshot, until) with
      | Some (g, e) => (g, e, s)
      | None =>
          let '(g, e) := match covered snapshot until with inl c => (negb c, None) | inr e => (true, Some e) end in
          (g, e, set_gapMemo (snapshot, until) (g, e) s)
      end
  end.

(** The baseline of a scan; [None]: the scan fails. *)
Definition base_lookup (fk : CascadeFK) (parentKey : string) (rootTS since : Z) (s : cs) : option baseInfo * cs :=
  match Baseline opts with
  | None => (Some (no_base since), s)
  | Some provider =>
      if bool_decide (fk_child fk ∈ c_pkTypeGated s) then (Some (no_base since), s)
      else
        match provider (fk_Schema fk) (fk_Table fk) (fk_Column fk) parentKey rootTS (CandidateLimit opts) with
        | inr ErrGeneratedPK => (None, addIncomplete ("generatedpk:" +:+ fk_child fk) (set_genPKGated (fk_child fk) true s))
        | inr ErrUnsupportedPKType => (Some (no_base since), addIncomplete ("pktype:" +:+ fk_child fk) (set_pkTypeGated (fk_child fk) s))
        | inr ErrBinlogRenumbered => (Some (no_base since), addIncomplete ("renumbered:" +:+ fk_child fk) s)
        | inr (ErrBaseline _) => (Some (no_base since), addIncomplete ("baselinefail:" +:+ fk_child fk) s)
        | inl (bl, true) =>
            let '(gap, gapErr, s) := windowMayGap (SnapshotTime bl) rootTS s in
            let from_snapshot := negb gap || (SnapshotTime bl <? since) in
            (Some {| bi_rows := bl_Rows bl; bi_snap := SnapshotTime bl; bi_trunc := Truncated bl; bi_covered := true;
                     bi_since := if from_snapshot then SnapshotTime bl else since;
                     bi_sincePos := if from_snapshot then bl_SincePos bl else None;
                     bi_stale := StaleMessage bl; bi_unchecked := UncheckedMessage bl; bi_gap := gap; bi_gapErr := gapErr;
                     bi_recorded := bl_SincePos bl |}, s)
        | inl (_, false) => (Some (no_base since), addIncomplete ("nobaseline:" +:+ fk_child fk) s)
        end
  end.

Definition repickChildren (o : Options) (cands : list ResultRow) : list ResultRow * LatestPerPKOrder * option string :=
  match repick with None => (cands, zero_order, None) | Some r => r o cands end.

(** The candidates; [None]: the query failed. *)
Definition cand_opts (fk : CascadeFK) (parentKey : string) (since until : Z) (pos : option BinlogPos) : Options :=
  probe_opts (fk_Schema fk) (fk_Table fk)
    [{| ce_Column := fk_Column fk; ce_Value := parentKey; ce_IsNull := false |}] None since until pos "DESC" 1 (CandidateLimit opts + 1).

Definition read_cands (fk : CascadeFK) (parentKey : string) (since until : Z) (pos : option BinlogPos) (s : cs)
    : option (list ResultRow) * cs :=
  let candOpts := cand_opts fk parentKey since until pos in
  let fail e s := (None, addIncomplete ("queryfail:" +:+ fk_child fk +:+ "." +:+ fk_Column fk) (addErr e s)) in
  match fetch candOpts with
  | inr e => fail e s
  | inl [] => (Some [], s)
  | inl cands =>
      let '(cands, order, err) := repickChildren candOpts cands in
      let s := addOrder (fk_child fk) order s in
      match err with Some e => fail e s | None => (Some cands, s) end
  end.

Definition truncate_cands (fk : CascadeFK) (cands : list ResultRow) (s : cs) : list ResultRow * bool * cs :=
  if CandidateLimit opts <? Z.of_nat (length cands)
  then (take (Z.to_nat (CandidateLimit opts)) cands, true, addIncomplete ("truncate:" +:+ fk_child fk) s)
  else (cands, false, s).

Definition skew_probe (fk : CascadeFK) (cands : list ResultRow) (since until : Z) (s : cs) : cs :=
  let skewKey := fk_child fk +:+ "." +:+ fk_Column fk in
  match cands with
  | _ :: _ => s
  | [] =>
      if bool_decide (skewKey ∈ c_skewChecked s) then s
      else
        match fetch (probe_opts (fk_Schema fk) (fk_Table fk) [] None since until None "DESC" 0 skewSampleLimit) with
        | inr _ => addIncomplete ("skewprobe:" +:+ skewKey) (set_skewChecked skewKey s)
        | inl [] => s
        | inl sample =>
            if fkColumnAbsentFromAll (fk_Column fk) sample
            then addIncomplete ("childskew:" +:+ skewKey) (set_skewChecked skewKey s)
            else set_skewChecked skewKey s
        end
  end.

(** A widened scan keeps a candidate the snapshot lists or that is later. *)
Definition gap_filter (b : baseInfo) (cands : list ResultRow) : list ResultRow :=
  if bi_covered b && bi_gap b && negb (bi_trunc b)
  then filter (λ c, PKValues c ∈ (br_PKValues <$> bi_rows b) ∨ afterSnapshot c (bi_snap b) (bi_recorded b) = true) cands
  else cands.

Definition addUnchecked (fk : CascadeFK) (b : baseInfo) (s : cs) : cs :=
  if bool_decide (bi_unchecked b = "") then s else addIncomplete ("unchecked:" +:+ fk_child fk) s.

(** Whether the baseline rows may be used. *)
Definition augment_gate (fk : CascadeFK) (b : baseInfo) (binlogTrunc : bool) (s : cs) : bool * cs :=
  let s := if bi_covered b && bool_decide (is_Some (bi_sincePos b)) then addUnchecked fk b s else s in
  if bi_covered b && (0 <? length (bi_rows b))%nat then
    if binlogTrunc then (false, addIncomplete ("baseline-skip:" +:+ fk_child fk) s)
    else if bi_gap b then (false, addIncomplete ("baseline-skip-archived:" +:+ fk_child fk) s)
    else
      let s := if bool_decide (bi_stale b = "") then s else addWarning ("baseline-stale:" +:+ fk_child fk) s in
      let s := addUnchecked fk b s in
      (true, if bi_trunc b then addIncomplete ("baseline-truncate:" +:+ fk_child fk) s else s)
  else (false, s).

(** [None] is a scan with [failed] set. *)
Definition scanChildren (fk : CascadeFK) (parentKey : string) (rootTS : Z) (s : cs) : option childScan * cs :=
  let '(gated, s) := generatedPKGated fk s in
  if gated then (None, s)
  else
    let '(base, s) := base_lookup fk parentKey rootTS (rootTS - Lookback opts) s in
    match base with
    | None => (None, s)
    | Some b =>
        let '(cands, s) := read_cands fk parentKey (bi_since b) rootTS (bi_sincePos b) s in
        match cands with
        | None => (None, s)
        | Some cands =>
            let '(cands, binlogTrunc, s) := truncate_cands fk cands s in
            let s := skew_probe fk cands (bi_since b) rootTS s in
            let cands := gap_filter b cands in
            let '(augment, s) := augment_gate fk b binlogTrunc s in
            (Some {| sc_cands := cands; sc_baseRows := bi_rows b; sc_baseSnap := bi_snap b; sc_augment := augment |}, s)
        end
    end.

(** An earlier update of the parent into this key. *)
Definition chain_hit (fk : CascadeFK) (pev : ResultRow) (parentOldKey : string) (r : ResultRow) : bool :=
  match RowBefore r, RowAfter r with
  | Some b, Some a =>
      negb (EventID r =? EventID pev)%N && bool_decide (valToString (row_get a (ReferencedColumn fk)) = parentOldKey) &&
      refKeyChanged (row_get b (ReferencedColumn fk)) (row_get a (ReferencedColumn fk))
  | _, _ => false
  end.

Definition checkKeyChain (fk : CascadeFK) (pev : ResultRow) (parentOldKey : string) (rootTS : Z) (rootKey : string) (s : cs) : cs :=
  let table := tkey (SchemaName pev) (TableName pev) in
  let memo := table +:+ "|" +:+ ReferencedColumn fk +:+ "|" +:+ parentOldKey +:+ "|" +:+ rootKey in
  if bool_decide (memo ∈ c_keyChainChecked s) then s
  else
    let s := set_keyChainChecked memo s in
    if negb (IsSafeColumnName (ReferencedColumn fk))
    then addIncomplete ("keychainprobe:" +:+ fk_parent fk +:+ "." +:+ ReferencedColumn fk) s
    else
      match fetch (probe_opts (SchemaName pev) (TableName pev)
                     [{| ce_Column := ReferencedColumn fk; ce_Value := parentOldKey; ce_IsNull := false |}] (Some EventUpdate)
                     (rootTS - Lookback opts) rootTS None "ASC" 0 keyChainProbeLimit) with
      | inr _ => addIncomplete ("keychainprobe:" +:+ table +:+ "." +:+ ReferencedColumn fk) s
      | inl prior =>
          if existsb (chain_hit fk pev parentOldKey) prior
          then addIncomplete ("keychain:" +:+ table +:+ "." +:+ ReferencedColumn fk) s
          else if Z.of_nat (length prior) =? keyChainProbeLimit
          then addIncomplete ("keychaintrunc:" +:+ table +:+ "." +:+ ReferencedColumn fk) s
          else s
      end.

(** ** The layers *)

Record layerItem := { li_ev : ResultRow; li_rootTS : Z; li_rootID : N }.

Definition rootKey (item : layerItem) : string :=
  pad 0 (li_rootID item) +:+ "@" +:+ decimal (wrap64 (li_rootTS item - unixEpoch * second)).

Definition item_key (schema table pk : string) (item : layerItem) : string :=
  tkey schema table +:+ "|" +:+ pk +:+ "|" +:+ rootKey item.

(** A synthetic event: the fields the code sets. *)
Definition synthetic (schema table : string) (ts : Z) (type : N) (pk : string) (before after : option Row) : ResultRow := {|
  EventID := 0; BinlogFile := ""; StartPos := 0; EndPos := 0; EventTimestamp := ts; GTID := None; ConnectionID := None;
  SchemaName := schema; TableName := table; EventType := type; PKValues := pk; RowChangedColumns := []; RowBefore := before;
  RowAfter := after; SchemaVersion := 0; QueryText := None; QueryHash := None; CommitTsUS := None; KeySpanFirst := "";
  KeySpanLast := "" |}.

(** A child a scan found: its key, the time of its image, its image. *)
Definition child : Type := string * Z * option Row.

(** The candidates that still pointed at the parent. *)
Definition live_child (fk : CascadeFK) (parentKey : string) (c : ResultRow) : bool :=
  negb (EventType c =? EventDelete)%N &&
  match RowAfter c with Some a => bool_decide (valToString (row_get a (fk_Column fk)) = parentKey) | None => false end.

Definition no_post_image (c : ResultRow) : bool := negb (EventType c =? EventDelete)%N && bool_decide (RowAfter c = None).

Definition baseline_children (scan : childScan) : list child :=
  if sc_augment scan then
    (λ br, (br_PKValues br, sc_baseSnap scan, br_Row br)) <$>
      filter (λ br, br_PKValues br ∉ (PKValues <$> sc_cands scan)) (sc_baseRows scan)
  else [].

(** The children of one edge, candidates first, with the caveat of an image
    that is missing. *)
Definition edge_children (fk : CascadeFK) (parentKey : string) (scan : childScan) (s : cs) : list child * cs :=
  (((λ c, (PKValues c, EventTimestamp c, RowAfter c)) <$> filter (λ c, live_child fk parentKey c = true) (sc_cands scan))
     ++ baseline_children scan,
   if existsb no_post_image (sc_cands scan) then addIncomplete ("noafter:" +:+ fk_child fk) s else s).

Definition slot_key (fk : CascadeFK) (pk : string) : string := fk_child fk +:+ "." +:+ fk_Column fk +:+ "|" +:+ pk.

(** One child of a deleted parent. *)
Definition delete_child (fk : CascadeFK) (refVal : GoVal) (item : layerItem) (st : cs * list layerItem) (c : child)
    : cs * list layerItem :=
  let '(s, next) := st in
  let '(pk, ts, row) := c in
  if bool_decide (DeleteRule fk = "SET NULL") then
    (addSetNull (slot_key fk pk) ts {| sn_Schema := fk_Schema fk; sn_Table := fk_Table fk; sn_Column := fk_Column fk;
       sn_Value := refVal; sn_PKValues := pk; sn_Row := row |} s, next)
  else
    let vkey := item_key (fk_Schema fk) (fk_Table fk) pk item in
    if bool_decide (vkey ∈ c_emitted s) then (s, next)
    else
      let victim := synthetic (fk_Schema fk) (fk_Table fk) ts EventDelete pk row None in
      (addVictim vkey victim s, next ++ [{| li_ev := victim; li_rootTS := li_rootTS item; li_rootID := li_rootID item |}]).

(** One edge of a deleted parent. *)
Definition delete_edge (depth0 : bool) (pev : ResultRow) (parentRow : Row) (item : layerItem) (st : cs * list layerItem) (fk : CascadeFK)
    : cs * list layerItem :=
  let '(s, next) := st in
  if ChildExcludedFromSnapshot fk then (addIncomplete ("childexcluded:" +:+ fk_child fk) s, next)
  else
    match parentRow !! ReferencedColumn fk with
    | None => (addIncomplete ("noref:" +:+ constraint_key fk) s, next)
    | Some refVal =>
        let parentPK := valToString refVal in
        let '(gated, s) := generatedPKGated fk s in
        if gated then (s, next)
        else
          let s := if depth0 && bool_decide (UpdateRule fk = "CASCADE")
                   then checkKeyChain fk pev parentPK (li_rootTS item) (rootKey item) s else s in
          let '(scan, s) := scanChildren fk parentPK (li_rootTS item) s in
          match scan with
          | None => (s, next)
          | Some scan =>
              let '(children, s) := edge_children fk parentPK scan s in
              foldl (delete_child fk refVal item) (s, next) children
          end
    end.

(** One child of a parent whose key changed. *)
Definition update_child (fk : CascadeFK) (oldVal cascadedVal : GoVal) (item : layerItem) (st : cs * list layerItem) (c : child)
    : cs * list layerItem :=
  let '(s, next) := st in
  let '(pk, ts, row) := c in
  let s := addKeyUpdate (slot_key fk pk) ts {| kr_Schema := fk_Schema fk; kr_Table := fk_Table fk; kr_Column := fk_Column fk;
             kr_OldValue := oldVal; kr_NewValue := cascadedVal; kr_PKValues := pk; kr_Row := row |} s in
  match is_nil cascadedVal, row with
  | false, Some r =>
      (s, next ++ [{| li_ev := synthetic (fk_Schema fk) (fk_Table fk) ts EventUpdate pk row (Some (<[fk_Column fk := cascadedVal]> r));
                      li_rootTS := li_rootTS item; li_rootID := li_rootID item |}])
  | _, _ => (s, next)
  end.

(** One edge of a parent whose key may have changed; the flag is
    [cascadedHere]. *)
Definition update_edge (depth0 : bool) (pev : ResultRow) (before after : Row) (item : layerItem)
    (st : cs * list layerItem * bool) (fk : CascadeFK) : cs * list layerItem * bool :=
  let '(s, next, here) := st in
  match before !! ReferencedColumn fk, after !! ReferencedColumn fk with
  | Some oldVal, Some newVal =>
      if negb (refKeyChanged oldVal newVal) then st
      else if is_nil oldVal then st
      else
        let parentOldKey := valToString oldVal in
        if ChildExcludedFromSnapshot fk then (addIncomplete ("childexcludedupd:" +:+ fk_child fk) s, next, true)
        else
          let '(gated, s) := generatedPKGated fk s in
          if gated then (s, next, true)
          else
            let s := if depth0 then checkKeyChain fk pev parentOldKey (li_rootTS item) (rootKey item) s else s in
            let '(scan, s) := scanChildren fk parentOldKey (li_rootTS item) s in
            match scan with
            | None => (s, next, true)
            | Some scan =>
                let cascadedVal := if bool_decide (UpdateRule fk = "SET NULL") then VNil else newVal in
                let '(children, s) := edge_children fk parentOldKey scan s in
                let '(s, next) := foldl (update_child fk oldVal cascadedVal item) (s, next) children in
                (s, next, true)
            end
  | _, _ => (addIncomplete ("norefupd:" +:+ constraint_key fk) s, next, here)
  end.

Definition layer_item (fks : list CascadeFK) (depth0 : bool) (st : cs * list layerItem) (item : layerItem) : cs * list layerItem :=
  let '(s, next) := st in
  let pev := li_ev item in
  if negb (EventType pev =? EventDelete)%N && negb (EventType pev =? EventUpdate)%N then st
  else
    let pkey := item_key (SchemaName pev) (TableName pev) (PKValues pev) item in
    if bool_decide (pkey ∈ c_visited s) then st
    else
      let s := set_visited pkey s in
      let table := tkey (SchemaName pev) (TableName pev) in
      if (EventType pev =? EventUpdate)%N then
        match RowBefore pev, RowAfter pev with
        | Some before, Some after =>
            let '(s, next, here) := foldl (update_edge depth0 pev before after item) (s, next, false) (by_parent_update fks table) in
            (if here && depth0 then addParent pev s else s, next)
        | _, _ => (addIncomplete ("noupdateimage:" +:+ table) s, next)
        end
      else
        match RowBefore pev with
        | None => (addIncomplete ("noparent:" +:+ table) s, next)
        | Some parentRow => foldl (delete_edge depth0 pev parentRow item) (s, next) (by_parent_delete fks table)
        end.

(** The layers left; [depth0] holds of the first. *)
Fixpoint layers (fks : list CascadeFK) (n : nat) (depth0 : bool) (layer : list layerItem) (s : cs) : cs :=
  match n, layer with
  | S n, _ :: _ =>
      let '(s, next) := foldl (layer_item fks depth0) (s, []) layer in
      let s := if (n =? 0)%nat && (0 <? length next)%nat then addIncomplete "depth" s else s in
      layers fks n false next s
  | _, _ => s
  end.

Definition order_warnings (s : cs) : cs :=
  foldl (λ s table, if bool_decide (ReadNote (default zero_order (c_orders s !! table)) = "") then s
                    else addWarning ("binlog-order:" +:+ table) s) s (c_orderTables s).

Definition root_items (parentEvents : list ResultRow) : list layerItem :=
  (λ pd, {| li_ev := pd; li_rootTS := EventTimestamp pd; li_rootID := EventID pd |}) <$> parentEvents.

Definition run_layers (fks : list CascadeFK) (parentEvents : list ResultRow) : cs :=
  order_warnings (layers fks (Z.to_nat (MaxDepth opts)) true (root_items parentEvents) (composite_caveats fks cs0)).
End run.

(** The result and the joined errors. *)
Definition SynthesizeVictims (fetch : Options → list ResultRow + string)
    (repick : option (Options → list ResultRow → list ResultRow * LatestPerPKOrder * option string))
    (fks : list CascadeFK) (parentEvents : list ResultRow) (opts : CascadeOptions) : Result * list string :=
  let s := run_layers fetch repick (withDefaults opts) fks parentEvents in
  ({| Victims := dedupVictimsNewest (c_victims s); SetNullRows := c_setNull s; KeyUpdates := c_keyUpdates s;
      KeyUpdateParents := c_parents s; Incomplete := c_incomplete s; Warnings := c_warnings s |}, c_errs s).
