(* ===== verification/CascadeScan.v ===== *)
(** * What a scan for the children of a key finds: [scanChildren]

    A log of row events, each with the image its row had before it, says which
    rows point at a key at a moment. A scan that raises no caveat finds these
    rows and no others, from the latest change of each key that touches the
    foreign key and from the baseline rows nothing touched since. *)
From S2P Require Import Prelude GoStrings GoText GoTime GoBytes GoVal Event Rows Merge BinlogOrder TopN PkRange PositionFloor QueryWhere LatestPK Cascade.

Open Scope Z_scope.

(** ** A log and the rows it leaves *)

Definition replay_row (evs : list ResultRow) (pk : string) : option Row :=
  foldl (λ cur e, if bool_decide (PKValues e = pk) then RowAfter e else cur) None evs.

(** Each event carries the image its key had, and only a DELETE leaves none. *)
Definition chained (evs : list ResultRow) : Prop :=
  ∀ pre e post, evs = pre ++ e :: post →
    RowBefore e = replay_row pre (PKValues e) ∧ (EventType e = EventDelete ↔ RowAfter e = None).

(** The image's column holds a value, with this text. *)
Definition points (col k : string) (img : option Row) : Prop :=
  match img with
  | Some row => match row !! col with Some v => is_nil v = false ∧ valToString v = k | None => False end
  | None => False
  end.

Definition touches (col k : string) (e : ResultRow) : Prop := points col k (RowBefore e) ∨ points col k (RowAfter e).

#[export] Instance points_dec col k img : Decision (points col k img).
Proof. destruct img as [row|]; simpl; [destruct (row !! col)|]; apply _. Defined.
#[export] Instance touches_dec col k e : Decision (touches col k e).
Proof. unfold touches. apply _. Defined.

(** The latest event of its key that touches [col = k]. *)
Definition latest (col k : string) (evs : list ResultRow) (c : ResultRow) : Prop :=
  ∃ pre post, evs = pre ++ c :: post ∧ touches col k c ∧ ∀ e, e ∈ post → PKValues e = PKValues c → ¬ touches col k e.

Lemma points_text col k row : k ≠ "" → points col k (Some row) ↔ valToString (row_get row col) = k.
Proof.
  intros Hk. unfold points, row_get. destruct (row !! col) as [v|]; simpl; [|split; [done|congruence]].
  split; [naive_solver|]. intros <-. split; [by destruct v|done].
Qed.

Lemma first_split {A} (P : A → Prop) `{!∀ x, Decision (P x)} (l : list A) :
  (∀ x, x ∈ l → ¬ P x) ∨ ∃ pre x post, l = pre ++ x :: post ∧ P x ∧ ∀ y, y ∈ pre → ¬ P y.
Proof.
  induction l as [|a l [IH|(pre & x & post & -> & Hx & Hpre)]]; [left; by intros ? ?%not_elem_of_nil| |].
  - destruct (decide (P a)) as [Ha|Ha].
    + right. exists [], a, l. repeat split; [done|]. by intros ? ?%not_elem_of_nil.
    + left. intros x [->|?]%elem_of_cons; [done|auto].
  - right. destruct (decide (P a)) as [Ha|Ha].
    + exists [], a, (pre ++ x :: post). repeat split; [done|]. by intros ? ?%not_elem_of_nil.
    + exists (a :: pre), x, post. repeat split; [done|]. intros y [->|?]%elem_of_cons; auto.
Qed.

Lemma last_split {A} (P : A → Prop) `{!∀ x, Decision (P x)} (l : list A) :
  (∀ x, x ∈ l → ¬ P x) ∨ ∃ pre x post, l = pre ++ x :: post ∧ P x ∧ ∀ y, y ∈ post → ¬ P y.
Proof.
  destruct (first_split P (reverse l)) as [Hno|(pre & x & post & E & Hx & Hpre)].
  - left. intros x Hx. apply Hno. by rewrite elem_of_reverse.
  - right. exists (reverse post), x, (reverse pre). repeat split; [|done|].
    + rewrite <- (reverse_involutive l), E, reverse_app, reverse_cons, <- app_assoc. done.
    + intros y. rewrite elem_of_reverse. auto.
Qed.

Lemma replay_row_app a b pk :
  replay_row (a ++ b) pk = foldl (λ cur e, if bool_decide (PKValues e = pk) then RowAfter e else cur) (replay_row a pk) b.
Proof. apply foldl_app. Qed.

Lemma replay_row_other a b pk : (∀ e, e ∈ b → PKValues e ≠ pk) → replay_row (a ++ b) pk = replay_row a pk.
Proof.
  rewrite replay_row_app. induction b as [|e b IH] using rev_ind; intros H; [done|].
  rewrite foldl_app. simpl. rewrite bool_decide_false by (apply H; set_solver). apply IH. set_solver.
Qed.

Lemma replay_row_last a e b : (∀ x, x ∈ b → PKValues x ≠ PKValues e) →
  replay_row (a ++ e :: b) (PKValues e) = RowAfter e.
Proof.
  intros H. change (e :: b) with ([e] ++ b). rewrite app_assoc, replay_row_other by done.
  rewrite replay_row_app. simpl. by rewrite bool_decide_true.
Qed.

(** A row that points at the key and is not touched has no events. *)
Lemma untouched_still col k a b pk : chained (a ++ b) → points col k (replay_row a pk) →
  (∀ e, e ∈ b → PKValues e = pk → ¬ touches col k e) → ∀ e, e ∈ b → PKValues e ≠ pk.
Proof.
  intros Hc Hp Hn. destruct (first_split (λ e, PKValues e = pk) b) as [H|(p1 & e & p2 & -> & He & Hp1)]; [done|].
  exfalso. apply (Hn e); [set_solver|done|]. left.
  destruct (Hc (a ++ p1) e p2) as [-> _]; [by rewrite <- app_assoc|].
  rewrite He, replay_row_other; done.
Qed.

Lemma latest_live col k old new c : chained (old ++ new) → latest col k new c → points col k (RowAfter c) →
  replay_row (old ++ new) (PKValues c) = RowAfter c.
Proof.
  intros Hc (pre & post & -> & _ & Hpost) Hp. rewrite app_assoc. apply replay_row_last.
  apply (untouched_still col k (old ++ pre ++ [c])); [by rewrite <- !app_assoc| |done].
  rewrite app_assoc, (replay_row_last _ c []); [done|]. by intros ? ?%not_elem_of_nil.
Qed.

Lemma alive_found col k old new pk : points col k (replay_row (old ++ new) pk) →
  (∃ c, latest col k new c ∧ PKValues c = pk ∧ RowAfter c = replay_row (old ++ new) pk) ∨
  (replay_row (old ++ new) pk = replay_row old pk ∧ ∀ e, e ∈ new → PKValues e ≠ pk).
Proof.
  destruct (last_split (λ e, PKValues e = pk) new) as [H|(pre & c & post & -> & Hc & Hpost)]; intros Hp.
  - right. split; [by apply replay_row_other|done].
  - left. exists c. rewrite app_assoc in *. subst pk.
    rewrite replay_row_last in * by done. repeat split; [|done..].
    exists pre, post. split; [done|]. split; [by right|]. intros e He E. by destruct (Hpost e).
Qed.

Lemma untouched_alive col k old new pk : chained (old ++ new) → points col k (replay_row old pk) →
  (∀ c, latest col k new c → PKValues c ≠ pk) → replay_row (old ++ new) pk = replay_row old pk.
Proof.
  intros Hc Hp Hn. apply replay_row_other, (untouched_still col k old); [done..|].
  intros e He E Ht.
  destruct (last_split (λ e, PKValues e = pk ∧ touches col k e) new) as [H|(pre & c & post & -> & [Hc1 Hc2] & Hpost)].
  - by apply (H e).
  - apply (Hn c); [|done]. exists pre, post. repeat split; [done|]. intros e' ?? Ht'. eapply Hpost; [done|]. split; [congruence|done].
Qed.

(** ** The notes of a run *)

Definition clean (s : cs) : Prop := c_incomplete s = [].

(** What a run delivers, apart from notes and memos. *)
Definition outs (s : cs) := (c_victims s, c_setNull s, c_setNullSeen s, c_visited s, c_emitted s).

Section scan.
Context (fetch : Options → list ResultRow + string)
        (repick : option (Options → list ResultRow → list ResultRow * LatestPerPKOrder * option string))
        (opts : CascadeOptions).

Definition gap_verdict (snapshot until : Z) : bool * option string :=
  match co_WindowCovered opts with
  | None => (ArchivesPresent opts, None)
  | Some covered => match covered snapshot until with inl c => (negb c, None) | inr e => (true, Some e) end
  end.

(** With no caveat raised, no memo stands for one; the verdicts on windows are
    the probe's. *)
Record wf (s : cs) : Prop := {
  wf_clean : clean s → c_reported s = ∅ ∧ c_pkTypeGated s = ∅ ∧ (∀ k b, c_genPKGated s !! k = Some b → b = false) ∧ c_errs s = [];
  wf_gap : ∀ a b v, c_gapMemo s !! (a, b) = Some v → v = gap_verdict a b;
}.

Record quiet (s s' : cs) : Prop := {
  quiet_wf : wf s';
  quiet_outs : outs s' = outs s;
  quiet_clean : clean s' → clean s;
}.

Lemma quiet_refl s : wf s → quiet s s.
Proof. by split. Qed.

Lemma quiet_trans s s1 s2 : quiet s s1 → quiet s1 s2 → quiet s s2.
Proof. intros [] []. split; [done|congruence|auto]. Qed.

Lemma addIncomplete_from s s1 key : wf s → c_reported s1 = c_reported s → c_incomplete s1 = c_incomplete s →
  c_gapMemo s1 = c_gapMemo s → outs s1 = outs s → quiet s (addIncomplete key s1) ∧ ¬ clean (addIncomplete key s1).
Proof.
  intros [Hc Hg] Er Ei Eg Eo.
  assert (¬ clean (addIncomplete key s1)) as Hd.
  { unfold addIncomplete, clean. case_bool_decide as Hin.
    - rewrite Ei. intros Hcl. destruct (Hc Hcl) as [E _]. rewrite Er, E in Hin. set_solver.
    - simpl. by destruct (c_incomplete s1). }
  split; [|done]. split; [split; [done|]| |done].
  - unfold addIncomplete. case_bool_decide; simpl; rewrite Eg; done.
  - rewrite <- Eo. unfold addIncomplete. by case_bool_decide.
Qed.

Lemma addIncomplete_quiet s key : wf s → quiet s (addIncomplete key s).
Proof. intros H. by apply addIncomplete_from. Qed.

Lemma addIncomplete_dirty s key : wf s → ¬ clean (addIncomplete key s).
Proof. intros H. by eapply (proj2 (addIncomplete_from s s key H eq_refl eq_refl eq_refl eq_refl)). Qed.

Lemma quiet_same s s' : wf s → c_incomplete s' = c_incomplete s → c_reported s' = c_reported s →
  c_pkTypeGated s' = c_pkTypeGated s → c_genPKGated s' = c_genPKGated s → c_gapMemo s' = c_gapMemo s →
  c_errs s' = c_errs s → outs s' = outs s → quiet s s'.
Proof.
  intros [Hc Hg] E1 E2 E3 E4 E5 E6 E7. unfold clean in *.
  split; [split|done|unfold clean]; unfold clean; [rewrite E1, E2, E3, E4, E6; done|rewrite E5; done|by rewrite E1].
Qed.

Lemma addWarning_quiet s key : wf s → quiet s (addWarning key s).
Proof. intros H. unfold addWarning. case_bool_decide; [by apply quiet_refl|by apply quiet_same]. Qed.

Lemma generatedPKGated_quiet fk s : wf s →
  quiet s (generatedPKGated opts fk s).2 ∧ (clean (generatedPKGated opts fk s).2 → (generatedPKGated opts fk s).1 = false).
Proof.
  intros Hw. unfold generatedPKGated. destruct (c_genPKGated s !! fk_child fk) as [g|] eqn:Eg.
  { split; [by apply quiet_refl|]. intros Hc. destruct (wf_clean s Hw Hc) as (_ & _ & H & _). by eapply H. }
  destruct (match PKMetas opts with Some _ => _ | None => _ end) eqn:E; cbn [fst snd].
  - destruct (addIncomplete_from s s ("generatedpk:" +:+ fk_child fk) Hw) as [[[? ?] ? ?] Hd]; [done..|].
    split; [|done]. split; [split|..]; try done.
  - split; [|done]. destruct Hw as [Hc Hg]. split; [split|..]; try done.
    intros Hcl. destruct (Hc Hcl) as (? & ? & H & ?). repeat split; [done..| |done]. intros k b.
    simpl. rewrite lookup_insert_Some. naive_solver.
Qed.

Lemma windowMayGap_quiet a b s : wf s →
  quiet s (windowMayGap opts a b s).2 ∧ (windowMayGap opts a b s).1 = gap_verdict a b.
Proof.
  intros Hw. pose proof (wf_gap s Hw) as Hg. unfold windowMayGap, gap_verdict in *. destruct (co_WindowCovered opts) as [covered|] eqn:Ecov; [|by split; [apply quiet_refl|]].
  destruct (c_gapMemo s !! (a, b)) as [[g e]|] eqn:E.
  { split; [by apply quiet_refl|]. by apply Hg in E. }
  split; [|by destruct (covered a b)].
  assert (∀ v, v = match covered a b with inl c => (negb c, None) | inr e => (true, Some e) end →
    quiet s (set_gapMemo (a, b) v s)) as H.
  { intros v ->. destruct Hw as [Hc _]. split; [split|..]; try done.
    intros a' b' v. simpl. rewrite lookup_insert_Some. intros [[[= <- <-] <-]|[_ ?]]; unfold gap_verdict; rewrite Ecov; [done|by apply Hg]. }
  destruct (covered a b); by apply H.
Qed.

(** ** The contract of a scan *)

Context (log : list ResultRow).

(** The events of a table up to a moment, and the rows they leave. *)
Definition hist (schema table : string) (T : Z) : list ResultRow :=
  filter (λ e, SchemaName e = schema ∧ TableName e = table ∧ EventTimestamp e ≤ T) log.
Definition alive (T : Z) (schema table pk : string) (row : Row) : Prop := replay_row (hist schema table T) pk = Some row.

(** The rows a candidate read answers with. *)
Definition read_rows (fk : CascadeFK) (k : string) (since until : Z) (pos : option BinlogPos) : option (list ResultRow) :=
  let o := cand_opts opts fk k since until pos in
  match fetch o with
  | inr _ => None
  | inl [] => Some []
  | inl cands => match repickChildren repick o cands with (c, _, None) => Some c | _ => None end
  end.

(** The read answers for the events after [old]: with one more row than the
    limit when there are too many. *)
Definition window_truth (fk : CascadeFK) (k : string) (T since : Z) (pos : option BinlogPos) (old : list ResultRow) : Prop :=
  ∃ new, hist (fk_Schema fk) (fk_Table fk) T = old ++ new ∧
    ∀ c, read_rows fk k since T pos = Some c →
      (∀ r, r ∈ c → latest (fk_Column fk) k new r) ∧
      (Z.of_nat (length c) ≤ CandidateLimit opts → ∀ r, latest (fk_Column fk) k new r → r ∈ c).

(** The baseline rows are the ones [old] leaves that point at the key. *)
Record baseline_truth (fk : CascadeFK) (k : string) (T : Z) (bl : BaselineLookup) (old : list ResultRow) : Prop := {
  bt_window : window_truth fk k T (SnapshotTime bl) (bl_SincePos bl) old;
  bt_sound : ∀ br, br ∈ bl_Rows bl → points (fk_Column fk) k (br_Row br) ∧ replay_row old (br_PKValues br) = br_Row br;
  bt_full : Truncated bl = false → ∀ pk, points (fk_Column fk) k (replay_row old pk) → pk ∈ (br_PKValues <$> bl_Rows bl);
  bt_cut : Truncated bl = true → bl_Rows bl ≠ [];
}.

(** Where a baseline is wired and covers the table, its rows and the events
    since it; without one, no row older than the lookback points at the key. A
    window with unreadable hours has rows in its snapshot. *)
Definition serves (fk : CascadeFK) (k : string) (T : Z) : Prop :=
  match Baseline opts with
  | None => ∃ old, window_truth fk k T (T - Lookback opts) None old ∧ ∀ pk, ¬ points (fk_Column fk) k (replay_row old pk)
  | Some provider => ∀ bl,
      provider (fk_Schema fk) (fk_Table fk) (fk_Column fk) k T (CandidateLimit opts) = inl (bl, true) →
      if (gap_verdict (SnapshotTime bl) T).1 then bl_Rows bl ≠ [] else ∃ old, baseline_truth fk k T bl old
  end.

(** ** The steps of a scan *)

Lemma base_lookup_quiet fk k T since s : wf s → quiet s (base_lookup opts fk k T since s).2 ∧
  (clean (base_lookup opts fk k T since s).2 →
     match Baseline opts with
     | None => (base_lookup opts fk k T since s).1 = Some (no_base since)
     | Some provider => ∃ bl b, provider (fk_Schema fk) (fk_Table fk) (fk_Column fk) k T (CandidateLimit opts) = inl (bl, true) ∧
         (base_lookup opts fk k T since s).1 = Some b ∧ bi_rows b = bl_Rows bl ∧ bi_trunc b = Truncated bl ∧
         bi_covered b = true ∧ bi_gap b = (gap_verdict (SnapshotTime bl) T).1 ∧
         (bi_gap b = false → bi_since b = SnapshotTime bl ∧ bi_sincePos b = bl_SincePos bl)
     end).
Proof.
  intros Hw. unfold base_lookup. destruct (Baseline opts) as [provider|]; [|by split; [apply quiet_refl|]].
  case_bool_decide as Hg.
  { split; [by apply quiet_refl|]. simpl. intros Hc. destruct (wf_clean s Hw Hc) as (_ & E & _). rewrite E in Hg. set_solver. }
  destruct (provider _ _ _ _ _ _) as [[bl [|]]|[]]; cbn [fst snd].
  - destruct (windowMayGap_quiet (SnapshotTime bl) T s Hw) as [Hq E].
    destruct (windowMayGap opts (SnapshotTime bl) T s) as [[g e] s']. cbn [fst snd] in *.
    split; [done|]. intros _. eexists bl, _. split; [done|]. split; [done|]. rewrite <- E. repeat split; [|]; simpl in *; by subst.
  - destruct (addIncomplete_from s s ("nobaseline:" +:+ fk_child fk) Hw) as [? ?]; done.
  - destruct (addIncomplete_from s (set_genPKGated (fk_child fk) true s) ("generatedpk:" +:+ fk_child fk) Hw) as [? ?]; done.
  - destruct (addIncomplete_from s (set_pkTypeGated (fk_child fk) s) ("pktype:" +:+ fk_child fk) Hw) as [? ?]; done.
  - destruct (addIncomplete_from s s ("renumbered:" +:+ fk_child fk) Hw) as [? ?]; done.
  - destruct (addIncomplete_from s s ("baselinefail:" +:+ fk_child fk) Hw) as [? ?]; done.
Qed.

Lemma read_cands_quiet fk k since T pos s : wf s →
  quiet s (read_cands fetch repick opts fk k since T pos s).2 ∧
  (clean (read_cands fetch repick opts fk k since T pos s).2 →
     is_Some (read_cands fetch repick opts fk k since T pos s).1) ∧
  (∀ c, (read_cands fetch repick opts fk k since T pos s).1 = Some c → read_rows fk k since T pos = Some c).
Proof.
  intros Hw. unfold read_cands, read_rows.
  destruct (fetch (cand_opts opts fk k since T pos)) as [[|c0 cs]|e]; cbn [fst snd].
  - split; [by apply quiet_refl|]. split; [by eexists|done].
  - destruct (repickChildren repick _ _) as [[c o] [e|]]; cbn [fst snd].
    + destruct (addIncomplete_from s (addErr e (addOrder (fk_child fk) o s))
        ("queryfail:" +:+ fk_child fk +:+ "." +:+ fk_Column fk) Hw) as [? ?]; done.
    + split; [by apply quiet_same|]. split; [by eexists|done].
  - destruct (addIncomplete_from s (addErr e s)
        ("queryfail:" +:+ fk_child fk +:+ "." +:+ fk_Column fk) Hw) as [? ?]; done.
Qed.

Lemma truncate_cands_quiet fk c s : wf s → quiet s (truncate_cands opts fk c s).2 ∧
  (clean (truncate_cands opts fk c s).2 → (truncate_cands opts fk c s).1 = (c, false) ∧ Z.of_nat (length c) ≤ CandidateLimit opts).
Proof.
  intros Hw. unfold truncate_cands. case_match eqn:E; cbn [fst snd].
  - destruct (addIncomplete_from s s ("truncate:" +:+ fk_child fk) Hw) as [? ?]; done.
  - split; [by apply quiet_refl|]. split; [done|lia].
Qed.

Lemma skew_probe_quiet fk c since T s : wf s → quiet s (skew_probe fetch fk c since T s).
Proof.
  intros Hw. unfold skew_probe. destruct c; [|by apply quiet_refl].
  case_bool_decide; [by apply quiet_refl|].
  destruct (fetch _) as [[|]|]; [by apply quiet_refl| |by apply addIncomplete_from].
  case_match; [by apply addIncomplete_from|by apply quiet_same].
Qed.

Lemma augment_gate_quiet fk b trunc s : wf s → quiet s (augment_gate fk b trunc s).2 ∧
  (clean (augment_gate fk b trunc s).2 → bi_covered b = true → bi_rows b ≠ [] →
     (augment_gate fk b trunc s).1 = true ∧ bi_gap b = false ∧ bi_trunc b = false) ∧
  ((augment_gate fk b trunc s).1 = true → bi_covered b = true).
Proof.
  intros Hw. unfold augment_gate, addUnchecked.
  set (s1 := if bi_covered b && _ then _ else s).
  assert (quiet s s1) as Hq.
  { unfold s1. destruct (bi_covered b && bool_decide (is_Some (bi_sincePos b))); [|by apply quiet_refl].
    case_bool_decide; [by apply quiet_refl|by apply addIncomplete_quiet]. }
  clearbody s1. pose proof (quiet_wf _ _ Hq) as Hw1.
  destruct (bi_covered b && (0 <? length (bi_rows b))%nat) eqn:Ecov; cbn [fst snd]; last first.
  { split; [done|]. split; [|done]. intros _ Hcov Hr. rewrite Hcov in Ecov. by destruct (bi_rows b). }
  apply andb_true_iff in Ecov as [Hcov _].
  destruct trunc; cbn [fst snd].
  { destruct (addIncomplete_from s1 s1 ("baseline-skip:" +:+ fk_child fk) Hw1) as [Hq' ?]; try done.
    split; [by eapply quiet_trans|done]. }
  destruct (bi_gap b); cbn [fst snd].
  { destruct (addIncomplete_from s1 s1 ("baseline-skip-archived:" +:+ fk_child fk) Hw1) as [Hq' ?]; try done.
    split; [by eapply quiet_trans|done]. }
  set (s2 := if bool_decide (bi_stale b = "") then _ else _).
  assert (quiet s1 s2) as Hq2. { unfold s2. case_bool_decide; [by apply quiet_refl|by apply addWarning_quiet]. }
  clearbody s2. pose proof (quiet_wf _ _ Hq2) as Hw2.
  set (s3 := if bool_decide (bi_unchecked b = "") then _ else _).
  assert (quiet s2 s3) as Hq3. { unfold s3. case_bool_decide; [by apply quiet_refl|by apply addIncomplete_quiet]. }
  clearbody s3. pose proof (quiet_wf _ _ Hq3) as Hw3.
  assert (quiet s s3) as Hqs by eauto using quiet_trans.
  destruct (bi_trunc b); cbn [fst snd]; [|done].
  destruct (addIncomplete_from s3 s3 ("baseline-truncate:" +:+ fk_child fk) Hw3) as [Hq' ?]; try done.
  split; [by eapply quiet_trans|done].
Qed.

(** The baseline of a scan with no caveat: either its rows cannot be used, and
    the scan will say so, or they and the window are as the contract has them. *)
Lemma base_lookup_truth fk k T s : wf s → serves fk k T →
  clean (base_lookup opts fk k T (T - Lookback opts) s).2 →
  ∃ b, (base_lookup opts fk k T (T - Lookback opts) s).1 = Some b ∧ (bi_rows b ≠ [] → bi_covered b = true) ∧
    if bi_gap b then bi_rows b ≠ []
    else ∃ old, window_truth fk k T (bi_since b) (bi_sincePos b) old ∧
      (∀ br, br ∈ bi_rows b → points (fk_Column fk) k (br_Row br) ∧ replay_row old (br_PKValues br) = br_Row br) ∧
      (bi_trunc b = false → ∀ pk, points (fk_Column fk) k (replay_row old pk) → pk ∈ (br_PKValues <$> bi_rows b)) ∧
      (bi_trunc b = true → bi_rows b ≠ []).
Proof.
  intros Hw Hs Hc. destruct (base_lookup_quiet fk k T (T - Lookback opts) s Hw) as [_ H]. specialize (H Hc).
  unfold serves in Hs. destruct (Baseline opts) as [provider|].
  - destruct H as (bl & b & Hp & -> & Er & Et & Ecov & Eg & Ew). specialize (Hs _ Hp). exists b. split; [done|]. split; [done|].
    rewrite <- Eg, <- Er in Hs. destruct (bi_gap b); [done|]. destruct (Ew eq_refl) as [-> ->].
    destruct Hs as (old & [Hwin Hsnd Hful Hcut]). exists old. by rewrite Er, Et in *.
  - rewrite H. eexists. split; [done|]. split; [done|]. destruct Hs as (old & Hwin & Hno). exists old.
    split; [done|]. split; [by intros ? ?%not_elem_of_nil|]. split; [|done]. intros _ pk Hp. by destruct (Hno pk).
Qed.

(** The children of an edge, from the candidates and the baseline rows. *)
Lemma children_exact fk k old new scan s :
  k ≠ "" → chained (old ++ new) →
  (∀ r, r ∈ sc_cands scan ↔ latest (fk_Column fk) k new r) →
  (∀ br, br ∈ sc_baseRows scan → points (fk_Column fk) k (br_Row br) ∧ replay_row old (br_PKValues br) = br_Row br) →
  (∀ pk, points (fk_Column fk) k (replay_row old pk) → pk ∈ (br_PKValues <$> sc_baseRows scan)) →
  (sc_baseRows scan ≠ [] → sc_augment scan = true) →
  ∀ pk img, (∃ ts, (pk, ts, img) ∈ (edge_children fk k scan s).1) ↔
    replay_row (old ++ new) pk = img ∧ points (fk_Column fk) k img.
Proof.
  intros Hk Hc Hcand Hsnd Hful Haug pk img. unfold edge_children, baseline_children. cbn [fst]. split.
  - intros [ts [Hin|Hin]%elem_of_app].
    + apply list_elem_of_fmap in Hin as (c & [= -> -> ->] & [Hl Hin]%list_elem_of_filter).
      unfold live_child in Hl. destruct (RowAfter c) as [a|] eqn:Ea; [|by destruct (negb _)].
      apply andb_true_iff in Hl as [_ Hl%bool_decide_eq_true]. apply points_text in Hl; [|done]. split; [|done].
      rewrite <- Ea. apply (latest_live (fk_Column fk) k); [done|by apply Hcand|by rewrite Ea].
    + destruct (sc_augment scan); [|by apply not_elem_of_nil in Hin].
      apply list_elem_of_fmap in Hin as (br & [= -> -> ->] & [Hn Hin]%list_elem_of_filter).
      destruct (Hsnd br Hin) as [Hp Hr]. split; [|done]. rewrite <- Hr in Hp |- *.
      apply (untouched_alive (fk_Column fk) k); [done..|]. intros c Hl E. apply Hn. rewrite <- E.
      apply list_elem_of_fmap_2, Hcand, Hl.
  - intros [<- Hp]. destruct (alive_found (fk_Column fk) k old new pk Hp) as [(c & Hl & <- & Ha)|[E Hno]].
    + exists (EventTimestamp c). apply elem_of_app. left. rewrite <- Ha in Hp |- *.
      apply list_elem_of_fmap. exists c. split; [done|]. apply list_elem_of_filter. split; [|by apply Hcand].
      destruct Hl as (pre & post & -> & _). destruct (Hc (old ++ pre) c post) as [_ Hd]; [by rewrite <- app_assoc|].
      unfold live_child. destruct (RowAfter c) as [a|]; [|done]. apply andb_true_iff. split; [|by apply bool_decide_eq_true, points_text].
      apply negb_true_iff, N.eqb_neq. intros Ed. by apply Hd in Ed.
    + rewrite E in Hp |- *. exists (sc_baseSnap scan). apply elem_of_app. right.
      pose proof (Hful pk Hp) as Hin. apply list_elem_of_fmap in Hin as (br & -> & Hin).
      rewrite Haug by (intros E'; rewrite E' in Hin; set_solver).
      apply list_elem_of_fmap. exists br. split; [by rewrite (proj2 (Hsnd br Hin))|]. apply list_elem_of_filter. split; [|done].
      intros (c & Ec & Hcin)%list_elem_of_fmap. apply Hcand in Hcin as (pre & post & -> & _). apply (Hno c); [set_solver|done].
Qed.

Lemma scanChildren_quiet fk k T s : wf s → quiet s (scanChildren fetch repick opts fk k T s).2.
Proof.
  intros Hw. unfold scanChildren.
  destruct (generatedPKGated_quiet fk s Hw) as [Hq0 _].
  destruct (generatedPKGated opts fk s) as [gated s0]. cbn [fst snd] in *. destruct gated; [done|].
  destruct (base_lookup_quiet fk k T (T - Lookback opts) s0 (quiet_wf _ _ Hq0)) as [Hq1 _].
  destruct (base_lookup opts fk k T (T - Lookback opts) s0) as [[b|] s1]; cbn [fst snd] in *; [|by eapply quiet_trans].
  destruct (read_cands_quiet fk k (bi_since b) T (bi_sincePos b) s1 (quiet_wf _ _ Hq1)) as [Hq2 _].
  destruct (read_cands fetch repick opts fk k (bi_since b) T (bi_sincePos b) s1) as [[c|] s2]; cbn [fst snd] in *;
    [|by eauto using quiet_trans].
  destruct (truncate_cands_quiet fk c s2 (quiet_wf _ _ Hq2)) as [Hq3 _].
  destruct (truncate_cands opts fk c s2) as [[c' trunc] s3]. cbn [fst snd] in *.
  pose proof (skew_probe_quiet fk c' (bi_since b) T s3 (quiet_wf _ _ Hq3)) as Hq4.
  destruct (augment_gate_quiet fk b trunc _ (quiet_wf _ _ Hq4)) as [Hq5 _].
  destruct (augment_gate fk b trunc _) as [aug s5]. cbn [fst snd] in *. eauto 6 using quiet_trans.
Qed.

(** A scan that leaves no caveat finds the rows that point at the key. *)
Lemma scanChildren_finds fk k T s : wf s → k ≠ "" → serves fk k T → chained (hist (fk_Schema fk) (fk_Table fk) T) →
  clean (scanChildren fetch repick opts fk k T s).2 → ∃ scan,
    (scanChildren fetch repick opts fk k T s).1 = Some scan ∧
    ∀ s' pk img, (∃ ts, (pk, ts, img) ∈ (edge_children fk k scan s').1) ↔
      replay_row (hist (fk_Schema fk) (fk_Table fk) T) pk = img ∧ points (fk_Column fk) k img.
Proof.
  intros Hw Hk Hs Hc. unfold scanChildren.
  destruct (generatedPKGated_quiet fk s Hw) as [Hq0 Hg0].
  destruct (generatedPKGated opts fk s) as [gated s0]. cbn [fst snd] in *.
  destruct gated; [intros Hcl; by apply Hg0 in Hcl|]. pose proof (quiet_wf _ _ Hq0) as Hw0.
  destruct (base_lookup_quiet fk k T (T - Lookback opts) s0 Hw0) as [Hq1 _].
  pose proof (base_lookup_truth fk k T s0 Hw0 Hs) as Hb.
  destruct (base_lookup opts fk k T (T - Lookback opts) s0) as [[b|] s1]; cbn [fst snd] in *;
    [|intros Hcl; by destruct (Hb Hcl) as (? & ? & _)].
  destruct (read_cands_quiet fk k (bi_since b) T (bi_sincePos b) s1 (quiet_wf _ _ Hq1)) as (Hq2 & Hr & Hrr).
  destruct (read_cands fetch repick opts fk k (bi_since b) T (bi_sincePos b) s1) as [[c|] s2]; cbn [fst snd] in *;
    [|intros Hcl; by destruct (Hr Hcl)].
  destruct (truncate_cands_quiet fk c s2 (quiet_wf _ _ Hq2)) as [Hq3 Ht].
  destruct (truncate_cands opts fk c s2) as [[c' trunc] s3]. cbn [fst snd] in *.
  pose proof (skew_probe_quiet fk c' (bi_since b) T s3 (quiet_wf _ _ Hq3)) as Hq4.
  destruct (augment_gate_quiet fk b trunc _ (quiet_wf _ _ Hq4)) as (Hq5 & Ha & _).
  destruct (augment_gate fk b trunc _) as [aug s5]. cbn [fst snd] in *. intros Hcl.
  pose proof (quiet_clean _ _ Hq5 Hcl) as Hcl4. pose proof (quiet_clean _ _ Hq4 Hcl4) as Hcl3.
  destruct (Ht Hcl3) as [[= -> ->] Hlen].
  destruct (Hb (quiet_clean _ _ Hq2 (quiet_clean _ _ Hq3 Hcl3))) as (b' & [= <-] & Hcov & Hold).
  eexists. split; [done|]. intros s'.
  destruct (bi_gap b) eqn:Eg; [by destruct (Ha Hcl (Hcov Hold) Hold) as (_ & ? & _)|].
  destruct Hold as (old & (new & Eh & Hread) & Hsnd & Hful & Hcut).
  destruct (Hread c (Hrr c eq_refl)) as [Hc1 Hc2]. rewrite Eh in Hc |- *.
  apply children_exact; cbn [sc_cands sc_baseRows sc_augment]; [done..| |done| |].
  - intros r. unfold gap_filter. rewrite Eg, andb_false_r. simpl. split; [apply Hc1|by apply Hc2].
  - apply Hful. destruct (bi_trunc b) eqn:Et; [|done]. specialize (Hcut eq_refl).
    by destruct (Ha Hcl (Hcov Hcut) Hcut) as (_ & _ & ?).
  - intros Hne. by destruct (Ha Hcl (Hcov Hne) Hne).
Qed.
End scan.
