(* ===== verification/CascadeRef.v ===== *)
(** * A reference index for the search of a cascade

    The latest change of each key that touches a foreign key, read from a log,
    and the rows a log leaves at a moment as a baseline: both meet the contract
    the scan is proved against. *)
From S2P Require Import Prelude GoStrings GoText GoTime GoBytes GoVal Event Rows Merge BinlogOrder TopN PkRange PositionFloor QueryWhere LatestPK Cascade CascadeScan.

Open Scope Z_scope.

Fixpoint latest_list (col k : string) (evs : list ResultRow) : list ResultRow :=
  match evs with
  | [] => []
  | e :: rest =>
      if bool_decide (touches col k e) && negb (existsb (λ x, bool_decide (PKValues x = PKValues e ∧ touches col k x)) rest)
      then e :: latest_list col k rest else latest_list col k rest
  end.

Lemma latest_list_spec col k evs r : r ∈ latest_list col k evs ↔ latest col k evs r.
Proof.
  induction evs as [|e rest IH]; simpl.
  { split; [by intros ?%not_elem_of_nil|]. intros (pre & post & E & _). by destruct pre. }
  assert (latest col k rest r → latest col k (e :: rest) r) as Hcons.
  { intros (pre & post & -> & H). by exists (e :: pre), post. }
  assert (latest col k (e :: rest) r → latest col k rest r ∨
    (r = e ∧ touches col k e ∧ ∀ x, x ∈ rest → PKValues x = PKValues e → ¬ touches col k x)) as Hinv.
  { intros (pre & post & E & H). destruct pre as [|e' pre]; simplify_eq/=; [by right|]. left. by exists pre, post. }
  destruct (bool_decide (touches col k e) && _) eqn:Eb.
  - apply andb_true_iff in Eb as [Ht%bool_decide_eq_true Hn%negb_true_iff].
    rewrite elem_of_cons, IH. split; [|by intros [?|(-> & _)]%Hinv; auto]. intros [->|?]; [|auto].
    exists [], rest. split; [done|]. split; [done|]. intros x Hx E Htx.
    apply not_true_iff_false in Hn. apply Hn, existsb_exists. exists x. split; [by apply list_elem_of_In|]. by apply bool_decide_eq_true.
  - rewrite IH. split; [done|]. intros [?|(-> & Ht & Hn)]%Hinv; [done|]. exfalso.
    rewrite bool_decide_true in Eb by done. simpl in Eb.
    apply negb_false_iff, existsb_exists in Eb as (x & Hx%list_elem_of_In & [E Htx]%bool_decide_eq_true). by apply (Hn x).
Qed.

(** [Fetch] with one column and the latest change of each key; the newest
    changes of a table with none. *)
Definition ref_fetch (log : list ResultRow) (o : Options) : list ResultRow + string :=
  let evs := filter (λ e, default 0 (o_Since o) ≤ EventTimestamp e) (hist log (o_Schema o) (o_Table o) (default 0 (o_Until o))) in
  inl (take (Z.to_nat (o_Limit o))
    match o_ColumnEq o with
    | [ce] => latest_list (ce_Column ce) (ce_Value ce) evs
    | _ => reverse evs
    end).

(** A snapshot of the tables the log leaves at [S]. *)
Definition ref_rows (col k : string) (old : list ResultRow) : list BaselineRow :=
  (λ pk, {| br_PKValues := pk; br_Row := replay_row old pk |}) <$>
    filter (λ pk, points col k (replay_row old pk)) (remove_dups (PKValues <$> old)).

Definition ref_baseline (log : list ResultRow) (S : Z) : BaselineProvider := λ schema table col k T limit,
  inl ({| SnapshotTime := S;
          bl_Rows := ref_rows col k (filter (λ e, EventTimestamp e < S) (hist log schema table T));
          Truncated := false; bl_SincePos := None; StaleMessage := ""; UncheckedMessage := "" |}, true).

Lemma replay_row_event evs pk row : replay_row evs pk = Some row → ∃ e, e ∈ evs ∧ PKValues e = pk ∧ RowAfter e = Some row.
Proof.
  destruct (last_split (λ e, PKValues e = pk) evs) as [H|(pre & e & post & -> & <- & Hp)].
  - intros E. pose proof (replay_row_other [] evs pk H) as E'. simpl in E'. rewrite E' in E. done.
  - rewrite replay_row_last by done. intros E. exists e. split; [set_solver|done].
Qed.

Lemma ref_rows_sound col k old br : br ∈ ref_rows col k old →
  points col k (br_Row br) ∧ replay_row old (br_PKValues br) = br_Row br.
Proof. intros (pk & -> & [? _]%list_elem_of_filter)%list_elem_of_fmap. done. Qed.

Lemma ref_rows_full col k old pk : points col k (replay_row old pk) → pk ∈ (br_PKValues <$> ref_rows col k old).
Proof.
  intros Hp. unfold ref_rows. rewrite <- list_fmap_compose. apply list_elem_of_fmap. exists pk. split; [done|].
  apply list_elem_of_filter. split; [done|]. apply elem_of_remove_dups.
  destruct (replay_row old pk) as [row|] eqn:E; [|done]. apply replay_row_event in E as (e & He & <- & _). by apply list_elem_of_fmap_2.
Qed.

(** The reference read and the reference snapshot keep the contract, where the
    snapshot cuts the log in two. *)
Lemma ref_serves opts log S fk k T :
  Baseline opts = Some (ref_baseline log S) → co_WindowCovered opts = None → ArchivesPresent opts = false → 0 ≤ CandidateLimit opts →
  hist log (fk_Schema fk) (fk_Table fk) T =
    filter (λ e, EventTimestamp e < S) (hist log (fk_Schema fk) (fk_Table fk) T) ++
    filter (λ e, S ≤ EventTimestamp e) (hist log (fk_Schema fk) (fk_Table fk) T) →
  serves (ref_fetch log) None opts log fk k T.
Proof.
  intros Hb Hc Ha Hl Hsplit. unfold serves. rewrite Hb. intros bl. unfold ref_baseline. intros [= <-].
  unfold gap_verdict. rewrite Hc, Ha. cbn [fst SnapshotTime].
  set (old := filter (λ e, EventTimestamp e < S) _) in *. set (new := filter (λ e, S ≤ EventTimestamp e) _) in *.
  exists old. split; cbn [SnapshotTime bl_Rows Truncated bl_SincePos]; [|apply ref_rows_sound|intros _; apply ref_rows_full|done].
  exists new. split; [done|]. intros c Hread.
  assert (c = take (Z.to_nat (CandidateLimit opts + 1)) (latest_list (fk_Column fk) k new)) as ->.
  { unfold read_rows, ref_fetch in Hread. cbn -[take latest_list] in Hread. fold new in Hread.
    destruct (take _ _) as [|x l] eqn:E in Hread; rewrite ?E; simpl in Hread; congruence. }
  split.
  - intros r Hr. apply latest_list_spec. by eapply (subseteq_take _ _), Hr.
  - intros Hlen r Hr%latest_list_spec. rewrite length_take in Hlen. rewrite take_ge; [done|lia].
Qed.

(** A check of [chained]. *)
Fixpoint chainedb (pre evs : list ResultRow) : bool :=
  match evs with
  | [] => true
  | e :: rest =>
      bool_decide (RowBefore e = replay_row pre (PKValues e)) &&
      Bool.eqb (EventType e =? EventDelete)%N (bool_decide (RowAfter e = None)) && chainedb (pre ++ [e]) rest
  end.

Lemma chainedb_sound evs : chainedb [] evs = true → chained evs.
Proof.
  assert (∀ pre, chainedb pre evs = true → ∀ p e q, evs = p ++ e :: q →
    RowBefore e = replay_row (pre ++ p) (PKValues e) ∧ (EventType e = EventDelete ↔ RowAfter e = None)) as H.
  { induction evs as [|a evs IH]; intros pre Hc p e q E; [by destruct p|]. simpl in Hc.
    apply andb_true_iff in Hc as [[H1%bool_decide_eq_true H2%eqb_prop]%andb_true_iff H3].
    destruct p as [|b p]; simplify_eq/=.
    - rewrite app_nil_r. split; [done|]. rewrite <- N.eqb_eq, H2, bool_decide_eq_true. done.
    - replace (pre ++ b :: p) with ((pre ++ [b]) ++ p) by by rewrite <- app_assoc. by eapply IH. }
  intros Hc p e q E. apply (H [] Hc p e q E).
Qed.
