(* ===== verification/CascadeClosure.v ===== *)
(** * What a run delivers: the closure of a cascade

    The rows InnoDB removes below a deleted parent are the least set that holds
    the children of the root and of its own members ([doomed]). A run of
    [SynthesizeVictims] over DELETE roots that reports no caveat delivers these
    rows and the rows whose foreign key was set to NULL, and nothing else. *)
From S2P Require Import Prelude GoStrings GoText GoTime GoBytes GoVal Event Rows Merge BinlogOrder TopN PkRange PositionFloor QueryWhere LatestPK Cascade CascadeScan CascadeRef.

Open Scope Z_scope.

(** ** Keys *)

Definition plain (name : string) : bool := negb (has_byte "." name) && negb (has_byte "|" name).

Lemma plain_bytes name : plain name = true → has_byte "." name = false ∧ has_byte "|" name = false.
Proof. unfold plain. intros [?%negb_true_iff ?%negb_true_iff]%andb_true_iff. done. Qed.

Lemma tkey_inj s t s' t' : plain s = true → plain s' = true → tkey s t = tkey s' t' → s = s' ∧ t = t'.
Proof. intros [? _]%plain_bytes [? _]%plain_bytes. by apply cut_first_inj. Qed.

Lemma tkey_pipe s t : plain s = true → plain t = true → has_byte "|" (tkey s t) = false.
Proof. intros [_ Hs]%plain_bytes [_ Ht]%plain_bytes. unfold tkey. rewrite !has_byte_app, Hs, Ht. done. Qed.

(** A row of a table, as the text of its key names it. *)
Lemma row_key_inj s t pk s' t' pk' : plain s = true → plain t = true → plain s' = true → plain t' = true →
  tkey s t +:+ "|" +:+ pk = tkey s' t' +:+ "|" +:+ pk' → s = s' ∧ t = t' ∧ pk = pk'.
Proof.
  intros Hs Ht Hs' Ht' E. apply cut_first_inj in E as [E ->]; [|by apply tkey_pipe..].
  apply tkey_inj in E; naive_solver.
Qed.

Lemma rootKey_pipe item : has_byte "|" (rootKey item) = false.
Proof. unfold rootKey. rewrite !has_byte_app, decimal_no_byte by done. unfold pad. by rewrite fixed_no_byte. Qed.

Lemma rootKey_inj i j : rootKey i = rootKey j → li_rootID i = li_rootID j.
Proof.
  intros E. apply cut_first_inj in E as [E _]; [by apply pad_inj|unfold pad; by apply fixed_no_byte..].
Qed.

Lemma item_key_inj s t pk i s' t' pk' i' : plain s = true → plain t = true → plain s' = true → plain t' = true →
  item_key s t pk i = item_key s' t' pk' i' → s = s' ∧ t = t' ∧ pk = pk' ∧ li_rootID i = li_rootID i'.
Proof.
  intros Hs Ht Hs' Ht' E. unfold item_key in E.
  apply row_key_inj in E as (-> & -> & E); [|done..].
  apply cut_last_inj in E as [-> E]; [|apply rootKey_pipe..]. by apply rootKey_inj in E.
Qed.

Definition null_key (s t col pk : string) : string := tkey s t +:+ "." +:+ col +:+ "|" +:+ pk.

Lemma null_key_inj s t col pk s' t' col' pk' : plain s = true → plain t = true → plain col = true →
  plain s' = true → plain t' = true → plain col' = true →
  null_key s t col pk = null_key s' t' col' pk' → s = s' ∧ t = t' ∧ col = col' ∧ pk = pk'.
Proof.
  intros Hs Ht Hc Hs' Ht' Hc' E. unfold null_key, tkey in E. rewrite !str_app_assoc in E.
  apply plain_bytes in Hs as [Hs _], Ht as [Ht _], Hc as [_ Hc], Hs' as [Hs' _], Ht' as [Ht' _], Hc' as [_ Hc'].
  apply cut_first_inj in E as [-> E]; [|done..]. apply cut_first_inj in E as [-> E]; [|done..].
  by apply cut_first_inj in E as [-> ->].
Qed.

(** ** The newest image of each key *)

Record dedup_inv (seen : list ResultRow) (st : gmap string nat * list ResultRow) : Prop := {
  di_sub : ∀ v, v ∈ st.2 → v ∈ seen;
  di_all : ∀ v, v ∈ seen → victim_key v ∈ (victim_key <$> st.2);
  di_idx : ∀ k j, st.1 !! k = Some j ↔ (victim_key <$> st.2) !! j = Some k;
  di_newest : ∀ v w, v ∈ seen → w ∈ st.2 → victim_key v = victim_key w → EventTimestamp v ≤ EventTimestamp w;
}.

Lemma dedup_step_inv seen st v : dedup_inv seen st → dedup_inv (seen ++ [v]) (dedup_step st v).
Proof.
  destruct st as [idx out]. intros [Hs Ha Hi Hn]. unfold dedup_step. cbn [fst snd] in *.
  destruct (idx !! victim_key v) as [j|] eqn:Ej.
  - pose proof (proj1 (Hi _ _) Ej) as Hj. rewrite list_lookup_fmap in Hj. destruct (out !! j) as [x|] eqn:Ex; [|done].
    injection Hj as Hj. pose proof (list_elem_of_lookup_2 _ _ _ Ex) as Hxin.
    assert (∀ w, w ∈ out → victim_key w = victim_key v → w = x) as Hux.
    { intros w [i Hw]%list_elem_of_lookup Ew. assert (idx !! victim_key v = Some i) as Hi'.
      { apply Hi. rewrite list_lookup_fmap, Hw, <- Ew. done. } congruence. }
    assert (∀ out', victim_key <$> out' = victim_key <$> out → (∀ w, w ∈ out' → w ∈ out ∨ w = v) →
      (∀ w, w ∈ out' → victim_key w = victim_key v → EventTimestamp x ≤ EventTimestamp w ∧ EventTimestamp v ≤ EventTimestamp w) →
      dedup_inv (seen ++ [v]) (idx, out')) as H.
    { intros out' Ek Hsub Hnew. split; cbn [fst snd].
      - intros w [?| ->]%Hsub; apply elem_of_app; [left; auto|right; set_solver].
      - intros w [?| ->%list_elem_of_singleton]%elem_of_app; rewrite Ek; [auto|].
        rewrite <- Hj. by apply list_elem_of_fmap_2.
      - intros k i. by rewrite Ek.
      - intros a w Haw Hw E. destruct (decide (victim_key w = victim_key v)) as [Ew|Ew].
        + destruct (Hnew w Hw Ew) as [H1 H2]. apply elem_of_app in Haw as [Haw| ->%list_elem_of_singleton]; [|done].
          etrans; [apply (Hn a x); [done..|congruence]|done].
        + destruct (Hsub w Hw) as [?| ->]; [|done]. apply elem_of_app in Haw as [Haw| ->%list_elem_of_singleton]; [by apply Hn|done]. }
    destruct (EventTimestamp x <? EventTimestamp v) eqn:Elt; apply H.
    + rewrite list_fmap_insert, list_insert_id; [done|]. by rewrite list_lookup_fmap, Ex, <- Hj.
    + intros w [i [(_ & -> & _)|[_ Hw]]%list_lookup_insert_Some]%list_elem_of_lookup; [by right|left]. by eapply list_elem_of_lookup_2.
    + intros w [i [(_ & <- & _)|[Hne Hw]]%list_lookup_insert_Some]%list_elem_of_lookup Ew; [lia|]. destruct Hne.
      assert (idx !! victim_key v = Some i) as Hi' by (apply Hi; by rewrite list_lookup_fmap, Hw, <- Ew). congruence.
    + done.
    + auto.
    + intros w Hw Ew. rewrite (Hux w Hw Ew). lia.
  - assert (∀ w, w ∈ out → victim_key w ≠ victim_key v) as Hfresh.
    { intros w [i Hw]%list_elem_of_lookup Ew. assert (idx !! victim_key v = Some i) by (apply Hi; by rewrite list_lookup_fmap, Hw, <- Ew).
      congruence. }
    assert (∀ w, w ∈ seen → victim_key w ≠ victim_key v) as Hfresh'.
    { intros w Hw E. apply Ha, list_elem_of_fmap in Hw as (w' & Ew & Hw'). apply (Hfresh w' Hw'). congruence. }
    split; cbn [fst snd].
    + intros w. rewrite !elem_of_app. intros [?|?]; [left; auto|by right].
    + intros w. rewrite fmap_app, !elem_of_app. intros [?| ->%list_elem_of_singleton]; [left; auto|right]. by apply list_elem_of_singleton.
    + intros k i. rewrite fmap_app, lookup_app, lookup_insert_Some, length_fmap.
      destruct ((victim_key <$> out) !! i) as [k'|] eqn:Ei.
      * pose proof (lookup_lt_Some _ _ _ Ei) as Hlt. rewrite length_fmap in Hlt.
        rewrite list_lookup_fmap in Ei. destruct (out !! i) as [w|] eqn:Ew; [|done]. injection Ei as <-.
        pose proof (list_elem_of_lookup_2 _ _ _ Ew) as Hw.
        rewrite Hi, list_lookup_fmap, Ew. simpl. split; [naive_solver lia|]. intros [= <-]. right. split; [|done]. intros E. by apply (Hfresh w Hw).
      * rewrite Hi, Ei. destruct (i - length out)%nat as [|n] eqn:En.
        -- apply lookup_ge_None in Ei. rewrite length_fmap in Ei. simpl. split; [naive_solver|]. intros [= <-]. left. split; [done|lia].
        -- simpl. rewrite lookup_nil. split; [|done]. intros [[_ <-]|[_ ?]]; [lia|done].
    + intros a w. rewrite !elem_of_app, !list_elem_of_singleton. intros [Ha'| ->] [Hw| ->] E; [by apply Hn| | |done].
      * by destruct (Hfresh' a Ha').
      * by destruct (Hfresh w Hw).
Qed.

Lemma dedup_fold_inv l seen st : dedup_inv seen st → dedup_inv (seen ++ l) (foldl dedup_step st l).
Proof.
  revert seen st. induction l as [|v l IH]; intros seen st H; simpl; [by rewrite app_nil_r|].
  replace (seen ++ v :: l) with ((seen ++ [v]) ++ l) by by rewrite <- app_assoc. by apply IH, dedup_step_inv.
Qed.

(** What the duplicates of several roots collapse to. *)
Lemma dedupVictimsNewest_spec l :
  NoDup (victim_key <$> dedupVictimsNewest l) ∧ (∀ v, v ∈ dedupVictimsNewest l → v ∈ l) ∧
  (∀ v, v ∈ l → ∃ w, w ∈ dedupVictimsNewest l ∧ victim_key w = victim_key v) ∧
  (∀ v w, v ∈ l → w ∈ dedupVictimsNewest l → victim_key v = victim_key w → EventTimestamp v ≤ EventTimestamp w).
Proof.
  unfold dedupVictimsNewest. destruct (length l <? 2)%nat eqn:E.
  - destruct l as [|a [|b l]]; [| |done].
    + split; [constructor|]. split; [done|]. split; [by intros v ?%not_elem_of_nil|by intros v w ?%not_elem_of_nil].
    + split; [apply NoDup_singleton|]. split; [done|]. split; [eauto|].
      by intros v w ->%list_elem_of_singleton ->%list_elem_of_singleton.
  - assert (dedup_inv [] (∅, [])) as H0.
    { split; cbn; [done|by intros ? ?%not_elem_of_nil| |by intros ? ? ?%not_elem_of_nil]. intros k j. by rewrite lookup_empty, lookup_nil. }
    apply (dedup_fold_inv l) in H0. simpl in H0. destruct H0 as [Hs Ha Hi Hn].
    split; [|split; [done|split; [|done]]].
    + apply NoDup_alt. intros i j k Hk%Hi Hk'%Hi. congruence.
    + intros v (w & Ew & Hw)%Ha%list_elem_of_fmap. eauto.
Qed.

Section closure.
Context (fetch : Options → list ResultRow + string)
        (repick : option (Options → list ResultRow → list ResultRow * LatestPerPKOrder * option string))
        (opts : CascadeOptions) (log : list ResultRow) (fks : list CascadeFK) (roots : list ResultRow).

(** ** What the cascade does *)

(** A child of a parent image under one foreign key, at a moment. *)
Definition child_of (fk : CascadeFK) (parent : Row) (T : Z) (pk : string) (row : Row) : Prop :=
  ∃ v, parent !! ReferencedColumn fk = Some v ∧ is_nil v = false ∧
    alive log T (fk_Schema fk) (fk_Table fk) pk row ∧ points (fk_Column fk) (valToString v) (Some row).

(** The rows a deleted root takes with it, itself included. *)
Inductive doomed (root : ResultRow) : string → string → string → Row → Prop :=
| doomed_root row : RowBefore root = Some row → doomed root (SchemaName root) (TableName root) (PKValues root) row
| doomed_child fk ppk prow pk row :
    doomed root (ReferencedSchema fk) (ReferencedTable fk) ppk prow → fk ∈ fks → DeleteRule fk = "CASCADE" →
    child_of fk prow (EventTimestamp root) pk row → doomed root (fk_Schema fk) (fk_Table fk) pk row.

(** A child the cascade of a root reaches through a foreign key of this rule. *)
Definition reached (rule : string) (root : ResultRow) (fk : CascadeFK) (pk : string) (row : Row) : Prop :=
  fk ∈ fks ∧ DeleteRule fk = rule ∧
  ∃ ppk prow, doomed root (ReferencedSchema fk) (ReferencedTable fk) ppk prow ∧ child_of fk prow (EventTimestamp root) pk row.

(** ** What is assumed of the index *)

Record truthful : Prop := {
  tr_delete : ∀ r, r ∈ roots → EventType r = EventDelete;
  tr_ids : ∀ r r', r ∈ roots → r' ∈ roots → EventID r = EventID r' → r = r';
  tr_gone : ∀ r row, r ∈ roots → ¬ alive log (EventTimestamp r) (SchemaName r) (TableName r) (PKValues r) row;
  tr_names : ∀ fk, fk ∈ fks → plain (fk_Schema fk) = true ∧ plain (fk_Table fk) = true ∧ plain (fk_Column fk) = true ∧
    plain (ReferencedSchema fk) = true ∧ plain (ReferencedTable fk) = true;
  tr_root_names : ∀ r, r ∈ roots → plain (SchemaName r) = true ∧ plain (TableName r) = true;
  tr_keys : ∀ r fk pk row v, r ∈ roots → fk ∈ fks → doomed r (ReferencedSchema fk) (ReferencedTable fk) pk row →
    row !! ReferencedColumn fk = Some v → valToString v ≠ "";
  tr_serves : ∀ r fk k, r ∈ roots → fk ∈ fks → k ≠ "" → serves fetch repick opts log fk k (EventTimestamp r);
  tr_chained : ∀ r fk, r ∈ roots → fk ∈ fks → chained (hist log (fk_Schema fk) (fk_Table fk) (EventTimestamp r));
}.

Context (Htr : truthful).

Definition root_item (root : ResultRow) : layerItem :=
  {| li_ev := root; li_rootTS := EventTimestamp root; li_rootID := EventID root |}.
Definition node_key (root : ResultRow) (s t pk : string) : string := item_key s t pk (root_item root).
Definition ikey (it : layerItem) : string := item_key (SchemaName (li_ev it)) (TableName (li_ev it)) (PKValues (li_ev it)) it.

Definition item_of (root : ResultRow) (it : layerItem) : Prop :=
  root ∈ roots ∧ li_rootTS it = EventTimestamp root ∧ li_rootID it = EventID root ∧
  ∀ row, RowBefore (li_ev it) = Some row →
    doomed root (SchemaName (li_ev it)) (TableName (li_ev it)) (PKValues (li_ev it)) row.
Definition item_ok (it : layerItem) : Prop := ∃ root, item_of root it.

Lemma item_key_of root it s t pk : item_of root it → item_key s t pk it = node_key root s t pk.
Proof. intros (_ & E1 & E2 & _). unfold item_key, node_key, rootKey. by rewrite E1, E2. Qed.

(** ** The state of a run *)

Record good (s : cs) : Prop := {
  g_victims : ∀ v, v ∈ c_victims s → ∃ root fk row, root ∈ roots ∧ reached "CASCADE" root fk (PKValues v) row ∧
    v = synthetic (fk_Schema fk) (fk_Table fk) (EventTimestamp v) EventDelete (PKValues v) (Some row) None;
  g_emitted : ∀ key, key ∈ c_emitted s → ∃ root v, root ∈ roots ∧ v ∈ c_victims s ∧
    key = node_key root (SchemaName v) (TableName v) (PKValues v);
  g_nulls : ∀ sn, sn ∈ c_setNull s → ∃ root fk row, root ∈ roots ∧ reached "SET NULL" root fk (sn_PKValues sn) row ∧
    sn_Schema sn = fk_Schema fk ∧ sn_Table sn = fk_Table fk ∧ sn_Column sn = fk_Column fk ∧ sn_Row sn = Some row;
  g_seen : ∀ key i ts, c_setNullSeen s !! key = Some (i, ts) → ∃ sn, c_setNull s !! i = Some sn ∧
    key = null_key (sn_Schema sn) (sn_Table sn) (sn_Column sn) (sn_PKValues sn);
}.

(** The children of a node are delivered. *)
Definition child_done (root : ResultRow) (fk : CascadeFK) (pk : string) (s : cs) : Prop :=
  (DeleteRule fk = "CASCADE" → node_key root (fk_Schema fk) (fk_Table fk) pk ∈ c_emitted s) ∧
  (DeleteRule fk = "SET NULL" → is_Some (c_setNullSeen s !! slot_key fk pk)).
Definition edge_done (root : ResultRow) (prow : Row) (fk : CascadeFK) (s : cs) : Prop :=
  ∀ pk row, child_of fk prow (EventTimestamp root) pk row → child_done root fk pk s.

(** One state and the items found after it: what only grows. *)
Record mono (st st' : cs * list layerItem) : Prop := {
  m_visited : c_visited st'.1 = c_visited st.1;
  m_emitted : c_emitted st.1 ⊆ c_emitted st'.1;
  m_seen : ∀ key, is_Some (c_setNullSeen st.1 !! key) → is_Some (c_setNullSeen st'.1 !! key);
  m_next : st.2 ⊆ st'.2;
  m_new : ∀ key, key ∈ c_emitted st'.1 → key ∈ c_emitted st.1 ∨ key ∈ (ikey <$> st'.2);
}.

Lemma mono_refl st : mono st st.
Proof. split; auto. Qed.

Lemma mono_trans a b c : mono a b → mono b c → mono a c.
Proof.
  intros [v1 e1 s1 n1 w1] [v2 e2 s2 n2 w2]. split; [congruence|set_solver|auto|set_solver|].
  intros key [[?|Hk]%w1|?]%w2; [by left| |by right]. right.
  apply list_elem_of_fmap in Hk as (it & -> & Hit). apply list_elem_of_fmap_2. auto.
Qed.

Definition deletes (next : list layerItem) : Prop := Forall (λ it, EventType (li_ev it) = EventDelete) next.
Definition wfst (st : cs * list layerItem) : Prop := wf opts st.1 ∧ deletes st.2.
Definition inv (st : cs * list layerItem) : Prop := good st.1 ∧ Forall item_ok st.2.

(** A step and what it has done: with no caveat after it, there was none before
    it, and the invariant is kept. *)
Definition stepQ (Q : cs → Prop) (st st' : cs * list layerItem) : Prop :=
  wfst st → wfst st' ∧ (clean st'.1 → clean st.1 ∧ (inv st → inv st' ∧ mono st st' ∧ Q st'.1)).

Definition upward (Q : cs → Prop) : Prop := ∀ st st', mono st st' → Q st.1 → Q st'.1.

Lemma stepQ_fold {A} (f : cs * list layerItem → A → cs * list layerItem) (Q : A → cs → Prop) l :
  (∀ a, upward (Q a)) → (∀ a st, a ∈ l → stepQ (Q a) st (f st a)) →
  ∀ st, stepQ (λ s, ∀ a, a ∈ l → Q a s) st (foldl f st l).
Proof.
  intros Hup. induction l as [|a l IH]; intros Hf st Hw; simpl.
  - split; [done|]. intros Hc. split; [done|]. intros Hi. split; [done|]. split; [apply mono_refl|]. by intros a ?%not_elem_of_nil.
  - destruct (Hf a st ltac:(set_solver) Hw) as [Hw1 H1].
    destruct (IH ltac:(set_solver) _ Hw1) as [Hw2 H2]. split; [done|].
    intros Hc. destruct (H2 Hc) as [Hc1 H2']. destruct (H1 Hc1) as [Hc0 H1']. split; [done|].
    intros Hi. destruct (H1' Hi) as (Hi1 & Hm1 & Hq1). destruct (H2' Hi1) as (Hi2 & Hm2 & Hq2).
    split; [done|]. split; [by eapply mono_trans|]. intros b [->|Hb]%elem_of_cons; [|auto]. by eapply Hup.
Qed.

Lemma child_done_up root fk pk : upward (child_done root fk pk).
Proof. intros st st' [? He Hs ? ?] [H1 H2]. split; [set_solver|auto]. Qed.

Lemma edge_done_up root prow fk : upward (edge_done root prow fk).
Proof. intros st st' Hm H pk row Hc. eapply child_done_up; [done|]. by eapply H. Qed.

(** ** One child *)

Lemma wf_with_out s v sn ku p sns kus em : wf opts s → wf opts (with_out s v sn ku p sns kus em).
Proof. intros [H1 H2]. by split. Qed.

Lemma delete_child_notes fk refVal item st c : wfst st →
  wfst (delete_child fk refVal item st c) ∧ (clean (delete_child fk refVal item st c).1 ↔ clean st.1).
Proof.
  destruct st as [s next], c as [[pk ts] row]. intros [Hw Hn]. unfold delete_child, addSetNull, addVictim.
  case_bool_decide; [|case_bool_decide].
  - destruct (c_setNullSeen s !! _) as [[i t]|]; [destruct (t <? ts)|]; (split; [split; [try by apply wf_with_out|done]|done]); done.
  - by split.
  - split; [|done]. split; [by apply wf_with_out|]. apply Forall_app. split; [done|]. by apply Forall_singleton.
Qed.

Lemma addSetNull_good s fk pk ts v root row : good s → root ∈ roots → reached "SET NULL" root fk pk row →
  let s' := addSetNull (slot_key fk pk) ts {| sn_Schema := fk_Schema fk; sn_Table := fk_Table fk; sn_Column := fk_Column fk;
       sn_Value := v; sn_PKValues := pk; sn_Row := Some row |} s in
  good s' ∧ is_Some (c_setNullSeen s' !! slot_key fk pk) ∧
  (∀ key, is_Some (c_setNullSeen s !! key) → is_Some (c_setNullSeen s' !! key)).
Proof.
  intros [Hv He Hn Hs] Hr Hre s'. subst s'. unfold addSetNull.
  set (sr := Build_SetNullRestore _ _ _ _ _ _).
  assert (∃ root fk row, root ∈ roots ∧ reached "SET NULL" root fk (sn_PKValues sr) row ∧
    sn_Schema sr = fk_Schema fk ∧ sn_Table sr = fk_Table fk ∧ sn_Column sr = fk_Column fk ∧ sn_Row sr = Some row) as Hsr
    by (exists root, fk, row; done).
  destruct (c_setNullSeen s !! slot_key fk pk) as [[i t]|] eqn:E.
  - destruct (t <? ts); [|by split]. split; [split; simpl; [done..| |]|split].
    + intros sn [j [(_ & <- & _)|[_ Hj]]%list_lookup_insert_Some]%list_elem_of_lookup; [done|]. by eapply Hn, list_elem_of_lookup_2.
    + intros key j t'. destruct (Hs _ _ _ E) as (sn0 & Hsn0 & Ek).
      rewrite lookup_insert_Some. intros [[<- [= -> <-]]|[Hne Hj]].
      * exists sr. split; [|done]. apply list_lookup_insert_eq. by eapply lookup_lt_Some.
      * destruct (Hs _ _ _ Hj) as (sn & Hsn & ->). exists sn. split; [|done].
        rewrite list_lookup_insert_ne; [done|]. intros ->. congruence.
    + simpl. rewrite lookup_insert_eq. by eexists.
    + intros key Hk. simpl. destruct (decide (slot_key fk pk = key)) as [->|?]; [rewrite lookup_insert_eq; by eexists|by rewrite lookup_insert_ne].
  - split; [split; simpl; [done..| |]|split].
    + intros sn [?| ->%list_elem_of_singleton]%elem_of_app; [auto|done].
    + intros key j t'. rewrite lookup_insert_Some. intros [[<- [= <- <-]]|[_ Hj]].
      * exists sr. split; [|done]. by rewrite lookup_app_r, Nat.sub_diag.
      * destruct (Hs _ _ _ Hj) as (sn & Hsn & ->). exists sn. split; [|done]. by apply lookup_app_l_Some.
    + simpl. rewrite lookup_insert_eq. by eexists.
    + intros key Hk. simpl. destruct (decide (slot_key fk pk = key)) as [->|?]; [rewrite lookup_insert_eq; by eexists|by rewrite lookup_insert_ne].
Qed.

Lemma addVictim_good s root fk pk ts row : good s → root ∈ roots → reached "CASCADE" root fk pk row →
  good (addVictim (node_key root (fk_Schema fk) (fk_Table fk) pk) (synthetic (fk_Schema fk) (fk_Table fk) ts EventDelete pk (Some row) None) s).
Proof.
  intros [Hv He Hn Hs] Hr Hre. split; simpl; [| |done..].
  - intros v [?| ->%list_elem_of_singleton]%elem_of_app; [auto|]. by exists root, fk, row.
  - intros key [->%elem_of_singleton|Hk]%elem_of_union.
    + eexists root, _. split; [done|]. split; [apply elem_of_app; right; by apply list_elem_of_singleton|done].
    + destruct (He key Hk) as (r & v & ? & ? & ?). exists r, v. split; [done|]. split; [apply elem_of_app; by left|done].
Qed.

Lemma delete_child_step root item fk refVal pk ts row st :
  item_of root item → (DeleteRule fk = "CASCADE" ∨ DeleteRule fk = "SET NULL") → reached (DeleteRule fk) root fk pk row →
  stepQ (child_done root fk pk) st (delete_child fk refVal item st (pk, ts, Some row)).
Proof.
  intros Hit Hrule Hre Hw. destruct (delete_child_notes fk refVal item st (pk, ts, Some row) Hw) as [Hw' Hc'].
  split; [done|]. intros Hc. split; [by apply Hc'|]. clear Hw' Hc' Hc. destruct st as [s next]. intros [Hg Hok].
  pose proof Hit as (Hr & ET & EI & _). unfold delete_child. case_bool_decide as Esn.
  - rewrite Esn in Hre. destruct (addSetNull_good s fk pk ts refVal root row Hg Hr Hre) as (Hg' & Hin & Hup).
    split; [by split|]. split; [|split; [congruence|done]].
    unfold addSetNull in *. cbn zeta in *.
    destruct (c_setNullSeen s !! slot_key fk pk) as [[i t]|]; [destruct (t <? ts)|]; split; simpl; auto.
  - destruct Hrule as [Hrule|?]; [|done]. rewrite Hrule in Hre. rewrite (item_key_of root) by done.
    case_bool_decide as Hem.
    { split; [done|]. split; [apply mono_refl|]. by split. }
    split; [|split].
    + split; [by apply addVictim_good|]. apply Forall_app. split; [done|]. apply Forall_singleton. exists root.
      repeat split; [done..|]. intros r [= <-]. destruct Hre as (Hfk & _ & ppk & prow & Hd & Hch). by eapply doomed_child.
    + split; simpl; [done|set_solver|auto|set_solver|].
      intros key [->%elem_of_singleton|?]%elem_of_union; [right|by left].
      rewrite fmap_app. apply elem_of_app. right. apply list_elem_of_singleton. unfold ikey, node_key, item_key, rootKey. simpl.
      by rewrite ET, EI.
    + split; [|congruence]. intros _. simpl. set_solver.
Qed.

(** ** One edge *)

Lemma good_outs s s' : outs s' = outs s → good s → good s'.
Proof. intros [= E1 E2 E3 _ E5] [Hv He Hn Hs]. split; rewrite ?E1, ?E2, ?E3, ?E5; done. Qed.

Lemma mono_outs s s' next : outs s' = outs s → mono (s, next) (s', next).
Proof. intros [= E1 E2 E3 E4 E5]. split; simpl; rewrite ?E3, ?E4, ?E5; auto. Qed.

Lemma stepQ_weaken (Q Q' : cs → Prop) st st' : (Q st'.1 → Q' st'.1) → stepQ Q st st' → stepQ Q' st st'.
Proof. intros HQ H Hw. destruct (H Hw) as [? H']. split; [done|]. intros Hc. destruct (H' Hc) as [? H'']. split; [done|]. intros Hi. destruct (H'' Hi) as (? & ? & ?). auto. Qed.

Lemma stepQ_dirty Q s s' next : quiet opts s s' → ¬ clean s' → stepQ Q (s, next) (s', next).
Proof. intros [Hw' _ _] Hd [Hw Hn]. split; [by split|]. intros Hc. by destruct Hd. Qed.

Lemma stepQ_quiet Q s s' next st' : (wf opts s → quiet opts s s') → stepQ Q (s', next) st' → stepQ Q (s, next) st'.
Proof.
  intros Hq H [Hw Hn]. destruct (Hq Hw) as [Hw' Ho Hc]. destruct (H (conj Hw' Hn)) as [? H']. split; [done|].
  intros Hc'. destruct (H' Hc') as [Hc1 H'']. split; [by apply Hc|]. intros [Hg Hi].
  destruct (H'' (conj (good_outs _ _ Ho Hg) Hi)) as (? & ? & ?). split; [done|]. split; [|done].
  eapply mono_trans; [by apply mono_outs|done].
Qed.

Lemma checkKeyChain_quiet fk pev k T rk s : wf opts s → quiet opts s (checkKeyChain fetch opts fk pev k T rk s).
Proof.
  intros Hw. unfold checkKeyChain. case_bool_decide; [by apply quiet_refl|].
  case_match; [by apply addIncomplete_from|]. destruct (fetch _); [|by apply addIncomplete_from].
  case_match; [by apply addIncomplete_from|]. case_match; [by apply addIncomplete_from|by apply quiet_same].
Qed.

Lemma edge_children_quiet fk k scan s : wf opts s → quiet opts s (edge_children fk k scan s).2.
Proof. intros Hw. unfold edge_children. cbn [snd]. case_match; [by apply addIncomplete_quiet|by apply quiet_refl]. Qed.

Lemma delete_children_notes fk refVal item l : ∀ st, wfst st →
  wfst (foldl (delete_child fk refVal item) st l) ∧ (clean (foldl (delete_child fk refVal item) st l).1 ↔ clean st.1).
Proof.
  induction l as [|c l IH]; intros st Hw; simpl; [done|].
  destruct (delete_child_notes fk refVal item st c Hw) as [Hw' E]. destruct (IH _ Hw') as [? E']. split; [done|]. by rewrite E'.
Qed.

Lemma delete_edge_notes fk pev prow item depth0 st : wfst st →
  wfst (delete_edge fetch repick opts depth0 pev prow item st fk) ∧
  (clean (delete_edge fetch repick opts depth0 pev prow item st fk).1 → clean st.1).
Proof.
  destruct st as [s next]. intros [Hw Hn]. unfold delete_edge.
  assert (∀ s', quiet opts s s' → wfst (s', next) ∧ (clean s' → clean s)) as Hq by (intros s' []; by split).
  destruct (ChildExcludedFromSnapshot fk); [by apply Hq, addIncomplete_quiet|].
  destruct (prow !! ReferencedColumn fk) as [v|]; [|by apply Hq, addIncomplete_quiet].
  destruct (generatedPKGated_quiet opts fk s Hw) as [Hq0 _].
  destruct (generatedPKGated opts fk s) as [[|] s0]; cbn [fst snd] in *; [by apply Hq|].
  set (s1 := if depth0 && bool_decide (UpdateRule fk = "CASCADE") then _ else _).
  assert (quiet opts s s1) as Hq1.
  { eapply quiet_trans; [done|]. unfold s1. destruct (depth0 && _); [apply checkKeyChain_quiet|apply quiet_refl]; apply Hq0. }
  clearbody s1. pose proof (scanChildren_quiet fetch repick opts fk (valToString v) (li_rootTS item) s1 (quiet_wf _ _ _ Hq1)) as Hq2.
  destruct (scanChildren _ _ _ _ _ _ s1) as [[scan|] s2]; cbn [fst snd] in *; [|by eapply Hq, quiet_trans].
  pose proof (edge_children_quiet fk (valToString v) scan s2 (quiet_wf _ _ _ Hq2)) as Hq3.
  destruct (edge_children fk (valToString v) scan s2) as [l s3]. cbn [fst snd] in *.
  destruct (Hq s3) as [Hw3 Hc3]; [by eauto using quiet_trans|].
  destruct (delete_children_notes fk v item l (s3, next) Hw3) as [? E]. split; [done|]. intros Hc%E. auto.
Qed.

(** The children found are the children. *)
Lemma delete_children_step root item fk v pev prow l s next :
  item_of root item → fk ∈ fks → (DeleteRule fk = "CASCADE" ∨ DeleteRule fk = "SET NULL") →
  doomed root (ReferencedSchema fk) (ReferencedTable fk) pev prow → prow !! ReferencedColumn fk = Some v → valToString v ≠ "" →
  (∀ pk img, (∃ ts, (pk, ts, img) ∈ l) ↔
     replay_row (hist log (fk_Schema fk) (fk_Table fk) (EventTimestamp root)) pk = img ∧ points (fk_Column fk) (valToString v) img) →
  stepQ (edge_done root prow fk) (s, next) (foldl (delete_child fk v item) (s, next) l).
Proof.
  intros Hit Hfk Hrule Hd Hv Hne Hex.
  eapply stepQ_weaken; last apply (stepQ_fold _ (λ c : child, child_done root fk c.1.1)).
  - intros HQ pk row (v' & Hv' & _ & Hal & Hp). simplify_eq.
    destruct (proj2 (Hex pk (Some row)) (conj Hal Hp)) as [ts Hin]. by apply (HQ _ Hin).
  - intros c. apply child_done_up.
  - intros [[pk ts] img] st Hin.
    destruct (proj1 (Hex pk img) (ex_intro _ ts Hin)) as [Hal Hp]. destruct img as [row|]; [|done].
    apply delete_child_step; [done..|]. split; [done|]. split; [done|]. exists pev, prow. split; [done|].
    exists v. repeat split; [done| |done..]. by destruct v.
Qed.

Lemma delete_edge_step root item fk pev prow ppk depth0 s next :
  item_of root item → fk ∈ fks → (DeleteRule fk = "CASCADE" ∨ DeleteRule fk = "SET NULL") →
  doomed root (ReferencedSchema fk) (ReferencedTable fk) ppk prow →
  stepQ (edge_done root prow fk) (s, next) (delete_edge fetch repick opts depth0 pev prow item (s, next) fk).
Proof.
  intros Hit Hfk Hrule Hd [Hw Hn]. pose proof Hit as (Hr & ET & _). unfold delete_edge.
  destruct (ChildExcludedFromSnapshot fk).
  { by apply stepQ_dirty; [apply addIncomplete_quiet|eapply addIncomplete_dirty|]. }
  destruct (prow !! ReferencedColumn fk) as [v|] eqn:Ev; last first.
  { by apply stepQ_dirty; [apply addIncomplete_quiet|eapply addIncomplete_dirty|]. }
  assert (valToString v ≠ "") as Hne by (by eapply (tr_keys Htr)).
  destruct (generatedPKGated_quiet opts fk s Hw) as [Hq0 Hg0].
  destruct (generatedPKGated opts fk s) as [[|] s0]; cbn [fst snd] in *.
  { apply stepQ_dirty; [done| |done]. intros Hc. by apply Hg0 in Hc. }
  rewrite ET. set (s1 := if depth0 && bool_decide (UpdateRule fk = "CASCADE") then _ else _).
  assert (quiet opts s s1) as Hq1.
  { eapply quiet_trans; [done|]. unfold s1. destruct (depth0 && _); [apply checkKeyChain_quiet|apply quiet_refl]; apply Hq0. }
  clearbody s1. pose proof (quiet_wf _ _ _ Hq1) as Hw1.
  pose proof (scanChildren_quiet fetch repick opts fk (valToString v) (EventTimestamp root) s1 Hw1) as Hq2.
  pose proof (scanChildren_finds fetch repick opts log fk (valToString v) (EventTimestamp root) s1 Hw1 Hne
    ltac:(by apply (tr_serves Htr)) ltac:(by apply (tr_chained Htr))) as Hscan.
  destruct (scanChildren fetch repick opts fk (valToString v) (EventTimestamp root) s1) as [[scan|] s2]; cbn [fst snd] in *; last first.
  { apply stepQ_dirty; [by eapply quiet_trans| |done]. intros Hc. by destruct (Hscan Hc) as (? & ? & _). }
  pose proof (edge_children_quiet fk (valToString v) scan s2 (quiet_wf _ _ _ Hq2)) as Hq3.
  assert (∀ s', clean (edge_children fk (valToString v) scan s2).2 → ∀ pk img,
    (∃ ts, (pk, ts, img) ∈ (edge_children fk (valToString v) scan s').1) ↔
    replay_row (hist log (fk_Schema fk) (fk_Table fk) (EventTimestamp root)) pk = img ∧ points (fk_Column fk) (valToString v) img) as Hex.
  { intros s' Hc. destruct (Hscan (quiet_clean _ _ _ Hq3 Hc)) as (? & [= <-] & H). apply H. }
  specialize (Hex s2). destruct (edge_children fk (valToString v) scan s2) as [l s3]. cbn [fst snd] in *.
  assert (quiet opts s s3) as Hqs by (eauto using quiet_trans).
  destruct (decide (c_incomplete s3 = [])) as [Hc|Hc].
  - eapply stepQ_quiet; [by intros _|eapply delete_children_step; eauto|done].
  - destruct (delete_children_notes fk v item l (s3, next) (conj (quiet_wf _ _ _ Hqs) Hn)) as [Hw' E].
    split; [done|]. intros Hc'%E. by destruct Hc.
Qed.

(** ** The layers *)

Definition composites_absent : Prop := ∀ fk, fk ∈ fks → is_cascade (DeleteRule fk) = true → composite fks fk = false.

(** Between two items: what is visited is done, what is delivered is visited or
    pending. *)
Record walk (s : cs) (pend : list layerItem) : Prop := {
  w_good : good s;
  w_items : Forall item_ok pend;
  w_roots : ∀ r, r ∈ roots → node_key r (SchemaName r) (TableName r) (PKValues r) ∈ c_visited s ∨
    node_key r (SchemaName r) (TableName r) (PKValues r) ∈ (ikey <$> pend);
  w_emitted : ∀ key, key ∈ c_emitted s → key ∈ c_visited s ∨ key ∈ (ikey <$> pend);
  w_closed : ∀ r schema table pk prow, r ∈ roots → doomed r schema table pk prow →
    node_key r schema table pk ∈ c_visited s →
    ∀ fk, fk ∈ fks → ReferencedSchema fk = schema → ReferencedTable fk = table → edge_done r prow fk s;
}.

Lemma delete_edges_notes pev prow item depth0 l : ∀ st, wfst st →
  wfst (foldl (delete_edge fetch repick opts depth0 pev prow item) st l) ∧
  (clean (foldl (delete_edge fetch repick opts depth0 pev prow item) st l).1 → clean st.1).
Proof.
  induction l as [|fk l IH]; intros st Hw; simpl; [done|].
  destruct (delete_edge_notes fk pev prow item depth0 st Hw) as [Hw' Hc]. destruct (IH _ Hw') as [? Hc']. split; auto.
Qed.

Lemma wf_visited key s : wf opts s → wf opts (set_visited key s).
Proof. intros [H1 H2]. by split. Qed.

Lemma layer_item_notes depth0 st item : EventType (li_ev item) = EventDelete → wfst st →
  wfst (layer_item fetch repick opts fks depth0 st item) ∧ (clean (layer_item fetch repick opts fks depth0 st item).1 → clean st.1).
Proof.
  intros Ed. destruct st as [s next]. intros [Hw Hn]. unfold layer_item. rewrite Ed. cbn -[item_key].
  case_bool_decide; [done|]. pose proof (wf_visited (item_key (SchemaName (li_ev item)) (TableName (li_ev item)) (PKValues (li_ev item)) item) s Hw) as Hw1.
  destruct (RowBefore (li_ev item)) as [prow|].
  - apply (delete_edges_notes _ _ _ _ _ (set_visited _ s, next)). by split.
  - destruct (addIncomplete_quiet opts _ ("noparent:" +:+ tkey (SchemaName (li_ev item)) (TableName (li_ev item))) Hw1) as [? _ ?].
    by split.
Qed.

Lemma layer_notes depth0 layer : ∀ st, deletes layer → wfst st →
  wfst (foldl (layer_item fetch repick opts fks depth0) st layer) ∧
  (clean (foldl (layer_item fetch repick opts fks depth0) st layer).1 → clean st.1).
Proof.
  induction layer as [|it layer IH]; intros st Hd Hw; simpl; [done|]. apply Forall_cons in Hd as [Hit Hd].
  destruct (layer_item_notes depth0 st it Hit Hw) as [Hw' Hc]. destruct (IH _ Hd Hw') as [? Hc']. split; auto.
Qed.

Lemma doomed_cases root s t pk row : doomed root s t pk row →
  (s = SchemaName root ∧ t = TableName root ∧ pk = PKValues root ∧ RowBefore root = Some row) ∨
  alive log (EventTimestamp root) s t pk row.
Proof. intros [row' E|fk ppk prow pk' row' _ _ _ (v & _ & _ & Hal & _)]; [by left|by right]. Qed.

Lemma doomed_row root s t pk row row' : root ∈ roots → doomed root s t pk row → doomed root s t pk row' → row = row'.
Proof.
  intros Hr [(-> & -> & -> & E)|Hal]%doomed_cases [(E1 & E2 & E3 & E')|Hal']%doomed_cases.
  - congruence.
  - by destruct (tr_gone Htr root row' Hr).
  - subst. by destruct (tr_gone Htr root row Hr).
  - unfold alive in *. congruence.
Qed.

Lemma doomed_plain root s t pk row : root ∈ roots → doomed root s t pk row → plain s = true ∧ plain t = true.
Proof.
  intros Hr [row' E|fk ppk prow pk' row' _ Hfk _ _]; [by apply (tr_root_names Htr)|].
  by destruct (tr_names Htr fk Hfk) as (? & ? & _).
Qed.

Lemma node_key_inj r s t pk row r' s' t' pk' row' : r ∈ roots → r' ∈ roots → doomed r s t pk row → doomed r' s' t' pk' row' →
  node_key r s t pk = node_key r' s' t' pk' → r = r' ∧ s = s' ∧ t = t' ∧ pk = pk' ∧ row = row'.
Proof.
  intros Hr Hr' Hd Hd' E. destruct (doomed_plain _ _ _ _ _ Hr Hd), (doomed_plain _ _ _ _ _ Hr' Hd').
  apply item_key_inj in E as (-> & -> & -> & E); [|done..]. apply (tr_ids Htr) in E; [|done..]. subst r'.
  repeat split; [done..|]. by eapply doomed_row.
Qed.

Lemma by_parent_delete_spec schema table fk : plain schema = true → plain table = true → composites_absent →
  fk ∈ by_parent_delete fks (tkey schema table) ↔
  fk ∈ fks ∧ is_cascade (DeleteRule fk) = true ∧ ReferencedSchema fk = schema ∧ ReferencedTable fk = table.
Proof.
  intros Hs Ht Hcomp. unfold by_parent_delete. rewrite list_elem_of_filter. split.
  - intros [(Hr & _ & E) Hfk]. destruct (tr_names Htr fk Hfk) as (_ & _ & _ & Hs' & _).
    apply tkey_inj in E as [-> ->]; done.
  - intros (Hfk & Hr & <- & <-). split; [|done]. split; [done|]. split; [by apply Hcomp|done].
Qed.

Lemma is_cascade_rule rule : is_cascade rule = true → rule = "CASCADE" ∨ rule = "SET NULL".
Proof. intros [?%bool_decide_eq_true|?%bool_decide_eq_true]%orb_true_iff; auto. Qed.

Lemma fmap_elem_mono {A B} (f : A → B) (l l' : list A) x : l ⊆ l' → x ∈ (f <$> l) → x ∈ (f <$> l').
Proof. intros H (a & -> & Ha)%list_elem_of_fmap. apply list_elem_of_fmap_2. auto. Qed.

(** The item's own edges are done, the rest is as it was. *)
Lemma walk_item root item prow rest s next st' :
  item_of root item → RowBefore (li_ev item) = Some prow → composites_absent →
  walk s (item :: rest ++ next) → inv st' → mono (set_visited (ikey item) s, next) st' →
  (∀ fk, fk ∈ by_parent_delete fks (tkey (SchemaName (li_ev item)) (TableName (li_ev item))) → edge_done root prow fk st'.1) →
  walk st'.1 (rest ++ st'.2).
Proof.
  intros Hit Hrow Hcomp [Hg Hok Hroots Hem Hcl] [Hg' Hok'] Hm Hdone.
  pose proof Hm as [Hv _ _ Hnext Hnew]. simpl in *. apply Forall_cons in Hok as [_ [Hok _]%Forall_app].
  pose proof Hit as (Hr & _ & _ & Hd). specialize (Hd _ Hrow).
  assert (∀ key, key ∈ (ikey <$> item :: rest ++ next) → key ∈ c_visited st'.1 ∨ key ∈ (ikey <$> rest ++ st'.2)) as Hkey.
  { intros key [->|Hk]%elem_of_cons; [left; rewrite Hv; set_solver|right].
    eapply fmap_elem_mono; [|done]. set_solver. }
  assert (∀ key, key ∈ c_visited s → key ∈ c_visited st'.1) as Hvis by (rewrite Hv; set_solver).
  split; [done|by apply Forall_app| | |].
  - intros r [?|?]%Hroots; [left; auto|auto].
  - intros key [[?|?]%Hem|Hk]%Hnew; [left; auto|auto|]. right. eapply fmap_elem_mono; [|done]. set_solver.
  - intros r schema table pk prow' Hr' Hd' Hk fk Hfk Es Et. rewrite Hv in Hk. apply elem_of_union in Hk as [Hk|Hk].
    + apply elem_of_singleton in Hk. unfold ikey in Hk. rewrite (item_key_of root) in Hk by done.
      apply (node_key_inj _ _ _ _ prow' _ _ _ _ prow) in Hk as (-> & -> & -> & -> & ->); [|done..].
      destruct (doomed_plain _ _ _ _ _ Hr Hd).
      destruct (is_cascade (DeleteRule fk)) eqn:Erule.
      * apply Hdone. by apply by_parent_delete_spec.
      * intros pk' row' _. split; intros Er; by rewrite Er in Erule.
    + eapply (edge_done_up r prow' fk (set_visited (ikey item) s, next)); [done|]. by eapply Hcl.
Qed.

Lemma layer_item_walk depth0 s next item rest : EventType (li_ev item) = EventDelete → composites_absent → wfst (s, next) →
  clean (layer_item fetch repick opts fks depth0 (s, next) item).1 → walk s (item :: rest ++ next) →
  walk (layer_item fetch repick opts fks depth0 (s, next) item).1 (rest ++ (layer_item fetch repick opts fks depth0 (s, next) item).2).
Proof.
  intros Ed Hcomp [Hw Hn] Hc Hwalk. pose proof Hwalk as [Hg Hok Hroots Hem Hcl].
  unfold layer_item in *. rewrite Ed in *. cbn -[item_key] in *. fold (ikey item) in *.
  case_bool_decide as Hvis; simpl in *.
  { apply Forall_cons in Hok as [_ Hok]. split; [done..| | |done].
    - intros r [?|[->|?]%elem_of_cons]%Hroots; auto.
    - intros key [?|[->|?]%elem_of_cons]%Hem; auto. }
  pose proof (wf_visited (ikey item) s Hw) as Hw1.
  destruct (RowBefore (li_ev item)) as [prow|] eqn:Erow; [|by eapply addIncomplete_dirty in Hc].
  pose proof Hok as [[root Hit] Hok']%Forall_cons. pose proof Hit as (Hr & _ & _ & Hd). specialize (Hd _ Erow).
  destruct (doomed_plain _ _ _ _ _ Hr Hd) as [Hs Ht].
  assert (∀ fk st, fk ∈ by_parent_delete fks (tkey (SchemaName (li_ev item)) (TableName (li_ev item))) →
    stepQ (edge_done root prow fk) st (delete_edge fetch repick opts depth0 (li_ev item) prow item st fk)) as Hstep.
  { intros fk [s0 n0] Hfk. apply by_parent_delete_spec in Hfk as (? & ?%is_cascade_rule & E1 & E2); [|done..].
    eapply delete_edge_step; [done..|]. rewrite E1, E2. exact Hd. }
  destruct (stepQ_fold _ _ _ (edge_done_up root prow) Hstep (set_visited (ikey item) s, next) (conj Hw1 Hn)) as [_ H].
  destruct (H Hc) as [_ H']. destruct H' as (Hi & Hm & Hdone).
  { split; [destruct Hg; by split|]. by apply Forall_app in Hok' as [_ ?]. }
  by eapply walk_item.
Qed.

Lemma layer_walk depth0 layer : composites_absent → ∀ st, deletes layer → wfst st →
  clean (foldl (layer_item fetch repick opts fks depth0) st layer).1 → walk st.1 (layer ++ st.2) →
  walk (foldl (layer_item fetch repick opts fks depth0) st layer).1 (foldl (layer_item fetch repick opts fks depth0) st layer).2.
Proof.
  intros Hcomp. induction layer as [|it layer IH]; intros st Hd Hw; simpl; [done|]. apply Forall_cons in Hd as [Hit Hd]. intros Hc Hwalk.
  destruct (layer_item_notes depth0 st it Hit Hw) as [Hw' _]. destruct (layer_notes depth0 layer _ Hd Hw') as [_ Hc'].
  apply IH; [done..|]. destruct st as [s next]. apply layer_item_walk; auto.
Qed.

Lemma layers_walk n : ∀ depth0 layer s, (n = 0%nat → layer = []) → wf opts s → deletes layer →
  wf opts (layers fetch repick opts fks n depth0 layer s) ∧
  (clean (layers fetch repick opts fks n depth0 layer s) →
     clean s ∧ (composites_absent → walk s layer → walk (layers fetch repick opts fks n depth0 layer s) [])).
Proof.
  induction n as [|n IH]; intros depth0 layer s Hlast Hw Hd; [rewrite (Hlast eq_refl); by destruct layer|].
  simpl. destruct layer as [|it layer]; [done|].
  pose proof (layer_notes depth0 (it :: layer) (s, []) Hd (conj Hw (Forall_nil_2 _))) as [[Hw1 Hd1] Hc1].
  pose proof (λ Hcomp, layer_walk depth0 (it :: layer) Hcomp (s, []) Hd (conj Hw (Forall_nil_2 _))) as Hstep.
  rewrite app_nil_r in Hstep.
  destruct (foldl (layer_item fetch repick opts fks depth0) (s, []) (it :: layer)) as [s1 next]. cbn [fst snd] in *.
  destruct ((n =? 0)%nat && (0 <? length next)%nat) eqn:Edepth.
  - apply andb_true_iff in Edepth as [->%Nat.eqb_eq _].
    replace (layers _ _ _ _ _ _ _ _) with (addIncomplete "depth" s1) by by destruct next.
    destruct (addIncomplete_from opts s1 s1 "depth" Hw1) as [[? _ _] Hdirty]; try done.
  - destruct (IH false next s1) as [Hw2 Hc2]; [|done..|].
    { intros ->. by destruct next. }
    split; [done|]. intros Hc. destruct (Hc2 Hc) as [Hcl1 Hwalk]. split; [by apply Hc1|]. intros Hcomp H. by apply Hwalk, Hstep.
Qed.

Lemma composite_caveats_quiet l s :
  let f := λ s fk, if (is_cascade (DeleteRule fk) || is_cascade (UpdateRule fk)) && composite fks fk
                   then addIncomplete ("composite:" +:+ constraint_key fk) s else s in
  wf opts s → quiet opts s (foldl f s l) ∧ (clean (foldl f s l) → ∀ fk, fk ∈ l → is_cascade (DeleteRule fk) = true → composite fks fk = false).
Proof.
  intros f. revert s. induction l as [|fk l IH]; intros s Hw; simpl; [split; [by apply quiet_refl|by intros _ ? ?%not_elem_of_nil]|].
  assert (quiet opts s (f s fk) ∧ (clean (f s fk) → is_cascade (DeleteRule fk) = true → composite fks fk = false)) as [Hq Hc].
  { unfold f. destruct (is_cascade (DeleteRule fk)), (composite fks fk); cbn -[addIncomplete]; rewrite ?andb_true_r, ?andb_false_r;
      try (by split; [apply quiet_refl|]).
    - destruct (addIncomplete_from opts s s ("composite:" +:+ constraint_key fk) Hw) as [? ?]; done.
    - split; [|done]. destruct (is_cascade (UpdateRule fk)); [by apply addIncomplete_quiet|by apply quiet_refl]. }
  destruct (IH (f s fk) (quiet_wf _ _ _ Hq)) as [Hq' Hc']. split; [by eapply quiet_trans|].
  intros Hcl fk' [->|Hin]%elem_of_cons; [apply Hc; by apply (quiet_clean _ _ _ Hq')|by apply Hc'].
Qed.

Lemma order_warnings_quiet s : wf opts s → quiet opts s (order_warnings s).
Proof.
  intros Hw. unfold order_warnings. generalize (c_orderTables s). intros l. revert s Hw.
  induction l as [|t l IH]; intros s Hw; simpl; [by apply quiet_refl|].
  case_bool_decide; [by apply IH|]. eapply quiet_trans; [by apply addWarning_quiet|].
  apply IH, addWarning_quiet, Hw.
Qed.

Lemma walk_start s : outs s = outs cs0 → walk s (root_items roots).
Proof.
  intros [= E1 E2 E3 E4 E5]. split; rewrite ?E4, ?E5.
  - split; rewrite ?E1, ?E2, ?E3, ?E5; set_solver.
  - apply Forall_fmap, Forall_forall. intros r Hr. exists r. repeat split; [done|]. by apply doomed_root.
  - intros r Hr. right. apply (list_elem_of_fmap_2 ikey (root_items roots) (root_item r)). by apply (list_elem_of_fmap_2 root_item roots r).
  - set_solver.
  - set_solver.
Qed.

Lemma wf_start : wf opts cs0.
Proof. split; [|intros a b v; cbn; by rewrite lookup_empty]. intros _. repeat split. intros k b. cbn. by rewrite lookup_empty. Qed.

(** With nothing pending, every row the cascade reaches is delivered. *)
Lemma walk_doomed s root schema table pk row : walk s [] → root ∈ roots → doomed root schema table pk row →
  node_key root schema table pk ∈ c_visited s.
Proof.
  intros [Hg _ Hroots Hem Hcl] Hr. induction 1 as [row E|fk ppk prow pk row Hd IH Hfk Hrule Hch].
  - destruct (Hroots root Hr) as [?|?%not_elem_of_nil]; done.
  - destruct (Hcl root _ _ _ _ Hr Hd IH fk Hfk eq_refl eq_refl pk row Hch) as [H _].
    destruct (Hem _ (H Hrule)) as [?|?%not_elem_of_nil]; done.
Qed.

Lemma walk_reached s root fk pk row rule : walk s [] → root ∈ roots → reached rule root fk pk row → child_done root fk pk s.
Proof.
  intros Hw Hr (Hfk & _ & ppk & prow & Hd & Hch). pose proof (walk_doomed s root _ _ _ _ Hw Hr Hd) as Hv.
  by eapply (w_closed _ _ Hw).
Qed.

Lemma run_layers_walk : 0 < MaxDepth opts → clean (run_layers fetch repick opts fks roots) →
  walk (run_layers fetch repick opts fks roots) [] ∧ c_errs (run_layers fetch repick opts fks roots) = [].
Proof.
  intros Hmax. unfold run_layers. set (s0 := composite_caveats fks cs0).
  destruct (composite_caveats_quiet fks cs0 wf_start) as [Hq0 Hcomp]. fold s0 in Hq0, Hcomp.
  assert (deletes (root_items roots)) as Hd.
  { apply Forall_fmap, Forall_forall. intros r Hr. by apply (tr_delete Htr). }
  destruct (layers_walk (Z.to_nat (MaxDepth opts)) true (root_items roots) s0) as [Hw1 Hc1];
    [lia|apply Hq0|done|].
  set (s1 := layers _ _ _ _ _ _ _ _) in *. destruct (order_warnings_quiet s1 Hw1) as [Hw2 Ho2 Hc2]. intros Hc.
  destruct (Hc1 (Hc2 Hc)) as [Hcl0 Hwalk]. split; [|by destruct (wf_clean _ _ Hw2 Hc) as (_ & _ & _ & ?)].
  specialize (Hwalk (Hcomp Hcl0) (walk_start s0 (quiet_outs _ _ _ Hq0))). destruct Hwalk as [Hg Hi Hr He Hcl].
  pose proof (mono_outs _ _ [] Ho2) as Hm. pose proof (m_visited _ _ Hm) as Ev. pose proof Ho2 as [= _ _ _ _ Ee]. simpl in Ev.
  split; [by eapply good_outs|done|by rewrite Ev|by rewrite Ev, Ee|].
  rewrite Ev. intros r schema table pk prow Hr' Hd' Hk fk Hfk Es Et. apply (edge_done_up r prow fk (s1, []) (order_warnings s1, []) Hm). by eapply Hcl.
Qed.
End closure.

(** Over DELETE roots, where the index and the baselines say truthfully what the
    children held, a run with no caveat delivers what the cascade did. *)
Lemma SynthesizeVictims_closure fetch repick opts log fks roots res errs :
  truthful fetch repick (withDefaults opts) log fks roots → 0 ≤ MaxDepth opts →
  SynthesizeVictims fetch repick fks roots opts = (res, errs) → Complete res = true →
  (∀ schema table pk,
     (∃ v, v ∈ Victims res ∧ SchemaName v = schema ∧ TableName v = table ∧ PKValues v = pk) ↔
     ∃ root fk row, root ∈ roots ∧ reached log fks "CASCADE" root fk pk row ∧ fk_Schema fk = schema ∧ fk_Table fk = table) ∧
  (∀ v, v ∈ Victims res → EventType v = EventDelete ∧ ∃ root fk row, root ∈ roots ∧
     reached log fks "CASCADE" root fk (PKValues v) row ∧
     SchemaName v = fk_Schema fk ∧ TableName v = fk_Table fk ∧ RowBefore v = Some row) ∧
  NoDup (victim_key <$> Victims res) ∧
  (∀ schema table column pk,
     (∃ sn, sn ∈ SetNullRows res ∧ sn_Schema sn = schema ∧ sn_Table sn = table ∧ sn_Column sn = column ∧ sn_PKValues sn = pk) ↔
     ∃ root fk row, root ∈ roots ∧ reached log fks "SET NULL" root fk pk row ∧
       fk_Schema fk = schema ∧ fk_Table fk = table ∧ fk_Column fk = column) ∧
  errs = [].
Proof.
  intros Htr Hmax. unfold SynthesizeVictims. intros [= <- <-] Hc. unfold Complete in Hc. cbn in Hc.
  assert (0 < MaxDepth (withDefaults opts)) as Hm by (simpl; case_match; lia).
  destruct (run_layers_walk fetch repick (withDefaults opts) log fks roots Htr Hm) as [Hw He].
  { by destruct (c_incomplete _) eqn:E. }
  set (s := run_layers _ _ _ _ _) in *. clearbody s. pose proof Hw as [[Hv Hem Hn Hs] _ _ _ _].
  destruct (dedupVictimsNewest_spec (c_victims s)) as (Hnd & Hsub & Hall & _). cbn.
  split; [|split; [|split; [done|split; [|done]]]].
  - intros schema table pk. split.
    + intros (v & Hin & <- & <- & <-). destruct (Hv v (Hsub v Hin)) as (root & fk & row & Hr & Hre & E).
      exists root, fk, row. split; [done|]. split; [done|]. by rewrite E.
    + intros (root & fk & row & Hr & Hre & <- & <-). pose proof Hre as (Hfk & Hrule & _).
      destruct (walk_reached _ _ _ _ _ _ _ _ _ Hw Hr Hre) as [Hcd _]. specialize (Hcd Hrule).
      destruct (Hem _ Hcd) as (r' & v & Hr' & Hin & E).
      destruct (Hv v Hin) as (r'' & fk' & row' & Hr'' & (Hfk' & _) & Ev).
      destruct (Hall v Hin) as (w & Hw' & Ek). destruct (Hv w (Hsub w Hw')) as (r3 & fk3 & row3 & Hr3 & (Hfk3 & _) & Ew).
      destruct (tr_names _ _ _ _ _ _ Htr fk Hfk) as (? & ? & _), (tr_names _ _ _ _ _ _ Htr fk' Hfk') as (? & ? & _),
        (tr_names _ _ _ _ _ _ Htr fk3 Hfk3) as (? & ? & _).
      apply (f_equal SchemaName) in Ev as Ev1. apply (f_equal TableName) in Ev as Ev2. cbn in Ev1, Ev2.
      apply (f_equal SchemaName) in Ew as Ew1. apply (f_equal TableName) in Ew as Ew2. cbn in Ew1, Ew2. clear Ev Ew.
      apply item_key_inj in E as (E1 & E2 & E3 & _); [|assumption|assumption|by rewrite Ev1|by rewrite Ev2].
      apply row_key_inj in Ek as (K1 & K2 & K3); [|by rewrite Ew1|by rewrite Ew2|by rewrite Ev1|by rewrite Ev2].
      exists w. split; [done|]. split; [|split]; congruence.
  - intros v Hin%Hsub. destruct (Hv v Hin) as (root & fk & row & Hr & Hre & E). rewrite E. split; [done|]. by exists root, fk, row.
  - intros schema table column pk. split.
    + intros (sn & Hin & <- & <- & <- & <-). destruct (Hn sn Hin) as (root & fk & row & Hr & Hre & E1 & E2 & E3 & _).
      by exists root, fk, row.
    + intros (root & fk & row & Hr & Hre & <- & <- & <-). pose proof Hre as (Hfk & Hrule & _).
      destruct (walk_reached _ _ _ _ _ _ _ _ _ Hw Hr Hre) as [_ Hcd]. destruct (Hcd Hrule) as [[i ts] Hi].
      destruct (Hs _ _ _ Hi) as (sn & Hsn & E). apply list_elem_of_lookup_2 in Hsn.
      destruct (Hn sn Hsn) as (r' & fk' & row' & _ & (Hfk' & _) & E1 & E2 & E3 & _).
      destruct (tr_names _ _ _ _ _ _ Htr fk Hfk) as (? & ? & ? & _), (tr_names _ _ _ _ _ _ Htr fk' Hfk') as (? & ? & ? & _).
      apply null_key_inj in E as (? & ? & ? & ?); [|try done; by rewrite ?E1, ?E2, ?E3..].
      exists sn. repeat split; congruence.
Qed.

(** ** A shop *)

Module Shop.

Definition fk (table column parent rule : string) : CascadeFK := {|
  fk_Schema := "shop"; fk_Table := table; ConstraintName := "fk_" +:+ table; fk_Column := column;
  ReferencedSchema := "shop"; ReferencedTable := parent; ReferencedColumn := "id"; DeleteRule := rule; UpdateRule := "RESTRICT";
  ChildExcludedFromSnapshot := false |}.

Definition t0 : Z := unixEpoch * second.
Definition img (l : list (string * string)) : Row := list_to_map ((λ p, (p.1, VNumber p.2)) <$> l).
Definition ins (ts : Z) (table pk : string) (l : list (string * string)) : ResultRow :=
  synthetic "shop" table (t0 + ts) EventInsert pk None (Some (img l)).

Definition fks : list CascadeFK :=
  [fk "orders" "customer" "customers" "CASCADE"; fk "items" "ord" "orders" "CASCADE"; fk "notes" "customer" "customers" "SET NULL"].

Definition root : ResultRow := synthetic "shop" "customers" (t0 + 40) EventDelete "5" (Some (img [("id", "5")])) None.

(** Order 1 and its item are older than the snapshot at 20, order 2 is newer,
    order 3 went to another customer. *)
Definition log : list ResultRow :=
  [ins 5 "customers" "5" [("id", "5")]; ins 10 "orders" "1" [("id", "1"); ("customer", "5")];
   ins 11 "items" "100" [("id", "100"); ("ord", "1")]; ins 12 "orders" "3" [("id", "3"); ("customer", "5")];
   ins 13 "notes" "7" [("id", "7"); ("customer", "5")]; ins 30 "orders" "2" [("id", "2"); ("customer", "5")];
   synthetic "shop" "orders" (t0 + 31) EventUpdate "3" (Some (img [("id", "3"); ("customer", "5")])) (Some (img [("id", "3"); ("customer", "6")]));
   root].

Definition options (b : option BaselineProvider) : CascadeOptions := {|
  Lookback := 0; MaxDepth := 0; CandidateLimit := 0; Baseline := b; ArchivesPresent := false; co_WindowCovered := None; PKMetas := None |}.

Definition result : Result * list string := SynthesizeVictims (ref_fetch log) None fks [root] (options (Some (ref_baseline log (t0 + 20)))).

Example result_keys : (victim_key <$> Victims result.1, sn_PKValues <$> SetNullRows result.1, Incomplete result.1) =
  (["shop.orders|2"; "shop.orders|1"; "shop.items|100"], ["7"], []).
Proof. vm_compute. reflexivity. Qed.

Definition has_key (e : ResultRow) : bool :=
  match RowAfter e with Some row => negb (bool_decide (valToString (row_get row "id") = "")) | None => true end.

Lemma truth : truthful (ref_fetch log) None (withDefaults (options (Some (ref_baseline log (t0 + 20))))) log fks [root].
Proof.
  assert (∀ f, f ∈ fks → ReferencedColumn f = "id") as Hid.
  { apply Forall_forall. repeat constructor. }
  split.
  - by intros r ->%list_elem_of_singleton.
  - intros r r' ->%list_elem_of_singleton ->%list_elem_of_singleton. done.
  - intros r row ->%list_elem_of_singleton. unfold alive. vm_compute. done.
  - apply Forall_forall. repeat constructor.
  - intros r ->%list_elem_of_singleton. by vm_compute.
  - intros r f pk row v ->%list_elem_of_singleton Hf Hd. rewrite (Hid f Hf). intros Hv.
    assert (row_get row "id" = v) as <- by (unfold row_get; by rewrite Hv).
    apply doomed_cases in Hd as [(_ & _ & _ & [= <-])|(e & He & _ & Ea)%replay_row_event]; [by vm_compute|].
    unfold hist in He. apply list_elem_of_filter in He as [_ He].
    assert (Forall (λ e, has_key e = true) log) as Hall by (repeat constructor).
    rewrite Forall_forall in Hall. specialize (Hall e He). unfold has_key in Hall. rewrite Ea in Hall.
    by apply negb_true_iff, bool_decide_eq_false in Hall.
  - intros r f k ->%list_elem_of_singleton Hf _. apply (ref_serves _ log (t0 + 20)); [done..|]. revert f Hf.
    apply Forall_forall. repeat constructor; vm_compute; reflexivity.
  - intros r f ->%list_elem_of_singleton Hf. apply chainedb_sound. revert f Hf. apply Forall_forall. repeat constructor; vm_compute; reflexivity.
Qed.
End Shop.
