(* ===== verification/CascadeGraph.v ===== *)
(** * The foreign keys of a recovery: [internal/cascade/cascade.go]

    [fkSnapshotIDAt], [LoadCascadeFKsForParent] and [loadCascadeClosure] choose
    the foreign-key snapshot of a moment and read its edges schema by schema. *)
From S2P Require Import Prelude GoStrings GoText GoTime GoBytes GoVal Event Rows Merge BinlogOrder TopN PkRange PositionFloor QueryWhere LatestPK Cascade CascadeScan CascadeClosure.

Open Scope Z_scope.

(** ** The snapshot in effect *)

Definition fkSnapshotSlack : Z := 2 * second.

Definition uint32 (z : Z) : Z := z mod 2 ^ 32.

Definition list_max (l : list Z) : option Z := match l with [] => None | x :: l => Some (foldl Z.max x l) end.
Definition list_min (l : list Z) : option Z := match l with [] => None | x :: l => Some (foldl Z.min x l) end.

(** The identifiers of [fk_constraints], and the identifiers and times of
    [schema_snapshots]; the identifier and whether it is an approximation. *)
Definition fkSnapshotIDAt (fkIDs : list Z) (snapshots : list (Z * Z)) (at_ : Z) : Z * bool :=
  let atID := list_max (filter (λ id, Exists (λ s, s.1 = id ∧ s.2 ≤ at_ + fkSnapshotSlack) snapshots) fkIDs) in
  let minID := list_min fkIDs in
  match atID, minID with
  | Some id, _ => (uint32 id, false)
  | None, Some id => (uint32 id, true)
  | None, None => (0, false)
  end.

(** ** The edges *)

Definition nul : ascii := ascii_of_N 0.
Definition edge_key (fk : CascadeFK) : string :=
  fk_Schema fk +:+ str1 nul +:+ fk_Table fk +:+ str1 nul +:+ ConstraintName fk +:+ str1 nul +:+ fk_Column fk.

Definition widens (fk : CascadeFK) : bool := is_cascade (DeleteRule fk) || is_cascade (UpdateRule fk).

Record closure_state := {
  k_next : list string;
  k_scoped : gset string;
  k_seen : gset string;
  k_out : list CascadeFK;
}.

Definition closure_edge (st : closure_state) (fk : CascadeFK) : closure_state :=
  let ek := edge_key fk in
  let known := bool_decide (ek ∈ k_seen st) in
  let widen := widens fk && negb (bool_decide (fk_Schema fk ∈ k_scoped st)) in
  {| k_next := if widen then k_next st ++ [fk_Schema fk] else k_next st;
     k_scoped := if widen then {[fk_Schema fk]} ∪ k_scoped st else k_scoped st;
     k_seen := if known then k_seen st else {[ek]} ∪ k_seen st;
     k_out := if known then k_out st else k_out st ++ [fk] |}.

(** The rounds of the loop; [None]: out of fuel. *)
Fixpoint closure_loop (load : list string → list CascadeFK + string) (fuel : nat) (frontier : list string)
    (scoped seen : gset string) (out : list CascadeFK) : option (list CascadeFK + string) :=
  match frontier with
  | [] => Some (inl out)
  | _ :: _ =>
      match fuel with
      | O => None
      | S fuel =>
          match load frontier with
          | inr e => Some (inr e)
          | inl batch =>
              let st := foldl closure_edge {| k_next := []; k_scoped := scoped; k_seen := seen; k_out := out |} batch in
              closure_loop load fuel (k_next st) (k_scoped st) (k_seen st) (k_out st)
          end
      end
  end.

Definition loadCascadeClosure (load : list string → list CascadeFK + string) (fuel : nat) (parentSchema : string)
    : option (list CascadeFK + string) :=
  closure_loop load fuel [parentSchema] {[parentSchema]} ∅ [].

(** The index: the identifiers of its foreign keys, its snapshots, the edges of
    a snapshot by referenced schema. *)
Record fkIndex := {
  x_fkIDs : list Z;
  x_snapshots : list (Z * Z);
  x_load : Z → list string → list CascadeFK + string;   (* loadCascadeFKsByReferencedSchema *)
}.

(** [at.UTC().Format(time.RFC3339)]. *)
Definition format_rfc3339 (t : Z) : string := format_date t +:+ "T" +:+ format_clock t +:+ "Z".

Definition fk_caveat (at_ : Z) : string :=
  "no FK snapshot predates the root delete (" +:+ format_rfc3339 at_ +:+
  "); used the earliest recorded FK graph, which may not reflect the FK topology in effect at delete time".

(** The edges, the snapshot and the caveat. *)
Definition LoadCascadeFKsForParent (x : fkIndex) (fuel : nat) (parentSchema : string) (at_ : Z)
    : option (list CascadeFK * Z * string + string) :=
  let '(snapID, approximated) := fkSnapshotIDAt (x_fkIDs x) (x_snapshots x) at_ in
  if snapID =? 0 then Some (inl ([], 0, ""))
  else
    match loadCascadeClosure (x_load x snapID) fuel parentSchema with
    | None => None
    | Some (inr e) => Some (inr e)
    | Some (inl fks) => Some (inl (fks, snapID, if approximated then fk_caveat at_ else ""))
    end.

(** ** Every edge a cascade can follow *)

Section closure.
Context (load : list string → list CascadeFK + string) (graph : list CascadeFK)
        (Hload : ∀ refs, ∃ batch, load refs = inl batch ∧ ∀ fk, fk ∈ batch ↔ fk ∈ graph ∧ ReferencedSchema fk ∈ refs)
        (Hkeys : ∀ fk fk', fk ∈ graph → fk' ∈ graph → edge_key fk = edge_key fk' → fk = fk').

Definition child_schemas : gset string := list_to_set (fk_Schema <$> graph).

(** What the loop keeps: the edges of the schemas read are out, one each, and
    the schemas they lead to are scoped. *)
Record edges_inv (scoped seen : gset string) (out : list CascadeFK) : Prop := {
  ei_graph : ∀ fk, fk ∈ out → fk ∈ graph ∧ ReferencedSchema fk ∈ scoped;
  ei_seen : ∀ fk, fk ∈ graph → edge_key fk ∈ seen ↔ fk ∈ out;
  ei_nodup : NoDup out;
  ei_widen : ∀ fk, fk ∈ out → widens fk = true → fk_Schema fk ∈ scoped;
}.

(** One batch, read for schemas that are scoped. *)
Record batch_post (st st' : closure_state) (batch : list CascadeFK) : Prop := {
  bp_scoped : k_scoped st ⊆ k_scoped st';
  bp_next : ∀ s, s ∈ k_next st' ↔ s ∈ k_next st ∨ (s ∈ k_scoped st' ∧ s ∉ k_scoped st);
  bp_child : ∀ s, s ∈ k_scoped st' → s ∈ k_scoped st ∨ s ∈ child_schemas;
  bp_out : ∀ fk, fk ∈ k_out st' ↔ fk ∈ k_out st ∨ fk ∈ batch;
}.

Lemma closure_edge_step st fk : fk ∈ graph → ReferencedSchema fk ∈ k_scoped st →
  edges_inv (k_scoped st) (k_seen st) (k_out st) →
  edges_inv (k_scoped (closure_edge st fk)) (k_seen (closure_edge st fk)) (k_out (closure_edge st fk)) ∧
  batch_post st (closure_edge st fk) [fk].
Proof.
  intros Hg Href [H1 H2 H3 H4]. unfold closure_edge. simpl.
  set (widen := widens fk && _).
  set (scoped' := if widen then _ else k_scoped st).
  assert (k_scoped st ⊆ scoped') as Hsub by (unfold scoped'; case_match; set_solver).
  assert (widens fk = true → fk_Schema fk ∈ scoped') as Hwid.
  { intros E. unfold scoped', widen. rewrite E. simpl. case_bool_decide; simpl; set_solver. }
  assert (fk_Schema fk ∈ child_schemas) as Hch by (unfold child_schemas; set_solver).
  split.
  - case_bool_decide as Hs.
    + pose proof (proj1 (H2 fk Hg) Hs) as Hin. split; [naive_solver|done|done|]. intros f Hf E. auto.
    + assert (fk ∉ k_out st) as Hout by (by rewrite <- H2). split.
      * intros f [Hf| ->%list_elem_of_singleton]%elem_of_app; [naive_solver|auto].
      * intros f Hf. rewrite elem_of_union, elem_of_app, list_elem_of_singleton, elem_of_singleton, (H2 f Hf).
        split; [|naive_solver]. intros [E|?]; [right; auto|by left].
      * apply NoDup_app. split; [done|]. split; [set_solver|apply NoDup_singleton].
      * intros f [Hf| ->%list_elem_of_singleton]%elem_of_app E; auto.
  - split; simpl; fold scoped'; [done| | |].
    + intros s. unfold scoped', widen. destruct (widens fk); simpl; [|set_solver].
      case_bool_decide; simpl; set_solver.
    + intros s. unfold scoped'. case_match; set_solver.
    + intros f. case_bool_decide as Hs; [|set_solver]. rewrite list_elem_of_singleton. split; [by left|].
      intros [?| ->]; [done|]. by apply H2.
Qed.

Lemma batch_post_trans a b c l l' : batch_post a b l → batch_post b c l' → batch_post a c (l ++ l').
Proof.
  intros [A1 A2 A3 A4] [B1 B2 B3 B4]. split.
  - by trans (k_scoped b).
  - intros s. rewrite B2, A2. destruct (decide (s ∈ k_scoped b)) as [Hb|Hb]; [|naive_solver]. specialize (B1 s Hb). naive_solver.
  - intros s [?%A3|?]%B3; auto.
  - intros fk. rewrite B4, A4, elem_of_app. naive_solver.
Qed.

Lemma closure_batch st batch : (∀ fk, fk ∈ batch → fk ∈ graph ∧ ReferencedSchema fk ∈ k_scoped st) →
  edges_inv (k_scoped st) (k_seen st) (k_out st) →
  let st' := foldl closure_edge st batch in
  edges_inv (k_scoped st') (k_seen st') (k_out st') ∧ batch_post st st' batch.
Proof.
  revert st. induction batch as [|fk batch IH]; intros st Hb Hi; simpl.
  { split; [done|]. split; [done|set_solver|auto|set_solver]. }
  destruct (Hb fk ltac:(set_solver)) as [Hg Href]. destruct (closure_edge_step st fk Hg Href Hi) as [Hi1 Hp1].
  destruct (IH (closure_edge st fk)) as [Hi2 Hp2]; [|done|].
  { intros f Hf. destruct (Hb f ltac:(set_solver)). split; [done|]. by apply (bp_scoped _ _ _ Hp1). }
  split; [done|]. apply (batch_post_trans _ _ _ [fk] batch Hp1 Hp2).
Qed.

Lemma closure_loop_spec fuel : ∀ frontier scoped seen out,
  (frontier = [] ∨ (size (child_schemas ∖ scoped) < fuel)%nat) → (∀ s, s ∈ frontier → s ∈ scoped) →
  edges_inv scoped seen out → (∀ fk, fk ∈ graph → ReferencedSchema fk ∈ scoped → ReferencedSchema fk ∈ frontier ∨ fk ∈ out) →
  ∃ scoped' seen' out', closure_loop load fuel frontier scoped seen out = Some (inl out') ∧ scoped ⊆ scoped' ∧
    edges_inv scoped' seen' out' ∧ ∀ fk, fk ∈ graph → ReferencedSchema fk ∈ scoped' → fk ∈ out'.
Proof.
  induction fuel as [|fuel IH]; intros frontier scoped seen out Hf Hfs Hi Hall.
  { destruct Hf as [->|]; [|lia]. exists scoped, seen, out. split; [done|]. split; [done|]. split; [done|].
    intros fk Hg Hs. destruct (Hall fk Hg Hs) as [?%not_elem_of_nil|]; done. }
  destruct frontier as [|s0 frontier].
  { exists scoped, seen, out. split; [done|]. split; [done|]. split; [done|].
    intros fk Hg Hs. destruct (Hall fk Hg Hs) as [?%not_elem_of_nil|]; done. }
  destruct Hf as [|Hf]; [done|]. simpl. destruct (Hload (s0 :: frontier)) as (batch & -> & Hb).
  set (st0 := {| k_next := []; k_scoped := scoped; k_seen := seen; k_out := out |}).
  destruct (closure_batch st0 batch) as [Hi' [P1 P2 P3 P4]]; [|done|].
  { intros fk [? ?]%Hb. split; [done|]. by apply Hfs. }
  set (st := foldl closure_edge st0 batch) in *. simpl in *.
  destruct (IH (k_next st) (k_scoped st) (k_seen st) (k_out st)) as (scoped' & seen' & out' & E & Hs' & Hi2 & Hfull); [| |done| |].
  - destruct (k_next st) as [|s next] eqn:En; [by left|right].
    assert (s ∈ k_scoped st ∧ s ∉ scoped) as [Hsn1 Hsn2] by (destruct (proj1 (P2 s) ltac:(set_solver)) as [?%not_elem_of_nil|]; done).
    assert (s ∈ child_schemas) as Hc by (destruct (P3 s Hsn1); done).
    assert (child_schemas ∖ k_scoped st ⊂ child_schemas ∖ scoped) as Hlt.
    { split; [set_solver|]. intros Hsub. specialize (Hsub s). set_solver. }
    apply subset_size in Hlt. lia.
  - intros s [?%not_elem_of_nil|[? ?]]%P2; done.
  - intros fk Hg Hs. destruct (decide (ReferencedSchema fk ∈ scoped)) as [Hin|Hn].
    + right. apply P4. destruct (Hall fk Hg Hin) as [?|?]; [right; by apply Hb|by left].
    + left. apply P2. by right.
  - exists scoped', seen', out'. split; [done|]. split; [set_solver|done].
Qed.

(** The cascade over the edges read is the cascade over all of them. *)
Lemma doomed_edges log out (scoped : gset string) root s t pk row : SchemaName root ∈ scoped →
  (∀ fk, fk ∈ out → fk ∈ graph ∧ ReferencedSchema fk ∈ scoped) →
  (∀ fk, fk ∈ out → widens fk = true → fk_Schema fk ∈ scoped) →
  (∀ fk, fk ∈ graph → ReferencedSchema fk ∈ scoped → fk ∈ out) →
  doomed log graph root s t pk row → doomed log out root s t pk row ∧ s ∈ scoped.
Proof.
  intros Hr Hsub Hwid Hfull. induction 1 as [row E|fk ppk prow pk row Hd [IH Hs] Hfk Hrule Hch]; [split; [by apply doomed_root|done]|].
  pose proof (Hfull fk Hfk Hs) as Hin. split; [by eapply doomed_child|]. apply Hwid; [done|]. unfold widens. by rewrite Hrule.
Qed.

Lemma doomed_mono log out root s t pk row : (∀ fk, fk ∈ out → fk ∈ graph) →
  doomed log out root s t pk row → doomed log graph root s t pk row.
Proof. intros Hsub. induction 1; [by apply doomed_root|]. eapply doomed_child; eauto. Qed.
End closure.

(** The edges read are enough, in as many rounds as there are child schemas,
    plus one. *)
Lemma closure_enough load graph parentSchema fuel :
  (∀ refs, ∃ batch, load refs = inl batch ∧ ∀ fk, fk ∈ batch ↔ fk ∈ graph ∧ ReferencedSchema fk ∈ refs) →
  (∀ fk fk', fk ∈ graph → fk' ∈ graph → edge_key fk = edge_key fk' → fk = fk') →
  (size (child_schemas graph) < fuel)%nat →
  ∃ fks, loadCascadeClosure load fuel parentSchema = Some (inl fks) ∧ NoDup fks ∧ (∀ fk, fk ∈ fks → fk ∈ graph) ∧
    ∀ log root rule fk pk row, SchemaName root = parentSchema →
      reached log fks rule root fk pk row ↔ reached log graph rule root fk pk row.
Proof.
  intros Hload Hkeys Hfuel.
  destruct (closure_loop_spec load graph Hload Hkeys fuel [parentSchema] {[parentSchema]} ∅ []) as (scoped & seen & fks & E & Hs & [H1 _ H3 H4] & Hfull).
  - right. eapply Nat.le_lt_trans; [apply subseteq_size|exact Hfuel]. set_solver.
  - set_solver.
  - split; [set_solver|set_solver|constructor|set_solver].
  - set_solver.
  - exists fks. split; [done|]. split; [done|]. split; [naive_solver|]. intros log root rule fk pk row <-.
    unfold reached. split; intros (Hfk & Hr & ppk & prow & Hd & Hch).
    + split; [naive_solver|]. split; [done|]. exists ppk, prow. split; [|done]. eapply doomed_mono; [|done]. naive_solver.
    + eapply (doomed_edges graph log fks scoped) in Hd as [Hd Hsc]; [|set_solver|done..].
      split; [by apply Hfull|]. split; [done|]. by exists ppk, prow.
Qed.

Definition on_edges (refs : list string) (graph : list CascadeFK) : list CascadeFK :=
  filter (λ fk, ReferencedSchema fk ∈ refs) graph.

(** C22: The edges loaded for a parent's schema are found in as many rounds as there are child schemas, plus one, each once; and over them the cascade of a root in that schema reaches what it reaches over the whole foreign-key snapshot, through children in other schemas too. *)
Theorem loadCascadeClosure_enough load graph parentSchema fuel :
  (∀ refs, ∃ batch, load refs = inl batch ∧ ∀ fk, fk ∈ batch ↔ fk ∈ graph ∧ ReferencedSchema fk ∈ refs) →
  (∀ fk fk', fk ∈ graph → fk' ∈ graph → edge_key fk = edge_key fk' → fk = fk') →
  (size (child_schemas graph) < fuel)%nat →
  ∃ fks, loadCascadeClosure load fuel parentSchema = Some (inl fks) ∧ NoDup fks ∧ (∀ fk, fk ∈ fks → fk ∈ graph) ∧
    ∀ log root rule fk pk row, SchemaName root = parentSchema →
      reached log fks rule root fk pk row ↔ reached log graph rule root fk pk row.
Proof. apply closure_enough. Qed.

(** A customer in one schema, its orders in another, their items in a third. *)
Definition tenants : list CascadeFK :=
  let fk s t c rs rt := {| fk_Schema := s; fk_Table := t; ConstraintName := "fk"; fk_Column := c; ReferencedSchema := rs;
    ReferencedTable := rt; ReferencedColumn := "id"; DeleteRule := "CASCADE"; UpdateRule := "RESTRICT"; ChildExcludedFromSnapshot := false |} in
  [fk "b" "orders" "customer" "a" "customers"; fk "c" "items" "ord" "b" "orders"; fk "e" "logs" "host" "d" "hosts"].

Lemma loadCascadeClosure_enough_witness :
  (∃ fks, loadCascadeClosure (λ refs, inl (on_edges refs tenants)) 4 "a" = Some (inl fks) ∧ NoDup fks ∧
    (∀ fk, fk ∈ fks → fk ∈ tenants) ∧ ∀ log root rule fk pk row, SchemaName root = "a" →
      reached log fks rule root fk pk row ↔ reached log tenants rule root fk pk row) ∧
  loadCascadeClosure (λ refs, inl (on_edges refs tenants)) 4 "a" = Some (inl (take 2 tenants)).
Proof.
  split; [|vm_compute; reflexivity]. apply loadCascadeClosure_enough.
  - intros refs. eexists. split; [done|]. intros fk. unfold on_edges. rewrite list_elem_of_filter. naive_solver.
  - assert (Forall (λ fk, Forall (λ fk', edge_key fk = edge_key fk' → fk = fk') tenants) tenants) as H
      by (repeat constructor; vm_compute; congruence).
    intros fk fk' Hfk Hfk'. rewrite Forall_forall in H. specialize (H fk Hfk). rewrite Forall_forall in H. by apply H.
  - vm_compute. lia.
Defined.
