(* ===== verification/CascadeRecover.v ===== *)
(** * Recovering a batch of roots: [internal/cascade/cascade.go], [internal/cli/recover_cascade.go]

    [GroupParentDeletesByFKGraph] puts the roots in time order and groups those
    that share a foreign-key snapshot; each group is one run of
    [SynthesizeVictims]; [MergeResults] puts the results together. A recovery
    with no caveat delivers the cascade of each root under the foreign keys in
    effect at its own time. A caveat of a run is the key it is reported under. *)
From S2P Require Import Prelude GoStrings GoText GoTime GoBytes GoVal Event Rows Merge BinlogOrder TopN PkRange PositionFloor QueryWhere LatestPK Cascade CascadeScan CascadeRef CascadeClosure CascadeGraph.

Open Scope Z_scope.

(** ** Groups *)

Record FKGraphGroup := { FKs : list CascadeFK; Roots : list ResultRow }.

Record cacheEntry := { e_fks : list CascadeFK; e_snapshotID : Z; e_caveat : string }.

Record group_state := {
  gs_cache : gmap Z cacheEntry;
  gs_seenCaveat : gset string;
  gs_groups : list FKGraphGroup;
  gs_caveats : list string;
  gs_lastSnap : option Z;                 (* None: haveLast is false *)
}.

Definition group_state0 : group_state :=
  {| gs_cache := ∅; gs_seenCaveat := ∅; gs_groups := []; gs_caveats := []; gs_lastSnap := None |}.

Definition unixNano (t : Z) : Z := wrap64 (t - unixEpoch * second).

Definition add_root (pd : ResultRow) (groups : list FKGraphGroup) : list FKGraphGroup :=
  alter (λ g, {| FKs := FKs g; Roots := Roots g ++ [pd] |}) (pred (length groups)) groups.

(** The entry of a root; a new one is cached and its caveat noted once. *)
Definition group_entry (x : fkIndex) (fuel : nat) (parentSchema : string) (pd : ResultRow) (st : group_state)
    : option (cacheEntry * group_state + string) :=
  let tsKey := unixNano (EventTimestamp pd) in
  match gs_cache st !! tsKey with
  | Some e => Some (inl (e, st))
  | None =>
      match LoadCascadeFKsForParent x fuel parentSchema (EventTimestamp pd) with
      | None => None
      | Some (inr e) => Some (inr e)
      | Some (inl (fks, snapID, caveat)) =>
          let e := {| e_fks := fks; e_snapshotID := snapID; e_caveat := caveat |} in
          let fresh := negb (bool_decide (caveat = "")) && negb (bool_decide (caveat ∈ gs_seenCaveat st)) in
          Some (inl (e, {| gs_cache := <[tsKey := e]> (gs_cache st);
            gs_seenCaveat := if fresh then {[caveat]} ∪ gs_seenCaveat st else gs_seenCaveat st;
            gs_groups := gs_groups st; gs_caveats := if fresh then gs_caveats st ++ [caveat] else gs_caveats st;
            gs_lastSnap := gs_lastSnap st |}))
      end
  end.

Definition group_root (e : cacheEntry) (pd : ResultRow) (st : group_state) : group_state :=
  let same := bool_decide (gs_lastSnap st = Some (e_snapshotID e)) in
  let groups := if same then gs_groups st else gs_groups st ++ [{| FKs := e_fks e; Roots := [] |}] in
  {| gs_cache := gs_cache st; gs_seenCaveat := gs_seenCaveat st; gs_groups := add_root pd groups; gs_caveats := gs_caveats st;
     gs_lastSnap := Some (e_snapshotID e) |}.

Fixpoint group_loop (x : fkIndex) (fuel : nat) (parentSchema : string) (roots : list ResultRow) (st : group_state)
    : option (group_state + string) :=
  match roots with
  | [] => Some (inl st)
  | pd :: roots =>
      match group_entry x fuel parentSchema pd st with
      | None => None
      | Some (inr e) => Some (inr e)
      | Some (inl (e, st)) => group_loop x fuel parentSchema roots (group_root e pd st)
      end
  end.

Definition by_time (a b : ResultRow) : comparison := EventTimestamp a ?= EventTimestamp b.

(** The groups and the caveats, or an error; [None]: out of fuel. *)
Definition GroupParentDeletesByFKGraph (x : fkIndex) (fuel : nat) (parentSchema : string) (parentDeletes : list ResultRow)
    : option (list FKGraphGroup * list string + string) :=
  match parentDeletes with
  | [] => Some (inl ([], []))
  | _ :: _ =>
      match group_loop x fuel parentSchema (sort_by by_time parentDeletes) group_state0 with
      | None => None
      | Some (inr e) => Some (inr e)
      | Some (inl st) => Some (inl (gs_groups st, gs_caveats st))
      end
  end.

(** ** Merging results *)

Definition first_seen_step {A} (key : A → string) (st : gset string * list A) (a : A) : gset string * list A :=
  if bool_decide (key a ∈ st.1) then st else ({[key a]} ∪ st.1, st.2 ++ [a]).
Definition first_seen {A} (key : A → string) (l : list A) : list A := (foldl (first_seen_step key) (∅, []) l).2.

Definition last_step {A} (key : A → string) (st : gmap string A * list string) (a : A) : gmap string A * list string :=
  (<[key a := a]> st.1, if bool_decide (is_Some (st.1 !! key a)) then st.2 else st.2 ++ [key a]).
Definition last_by_key {A} (key : A → string) (l : list A) : list A :=
  let '(m, order) := foldl (last_step key) (∅, []) l in omap (m !!.) order.

Definition parent_key (p : ResultRow) : string := victim_key p +:+ "|" +:+ pad 0 (EventID p).
Definition sn_key (sr : SetNullRestore) : string :=
  tkey (sn_Schema sr) (sn_Table sr) +:+ "." +:+ sn_Column sr +:+ "|" +:+ sn_PKValues sr.
Definition kr_key (kr : FKKeyRestore) : string :=
  tkey (kr_Schema kr) (kr_Table kr) +:+ "." +:+ kr_Column kr +:+ "|" +:+ kr_PKValues kr.

Definition MergeResults (results : list Result) : Result :=
  match results with
  | [r] => r
  | _ => {|
      Victims := dedupVictimsNewest (concat (Victims <$> results));
      SetNullRows := last_by_key sn_key (concat (SetNullRows <$> results));
      KeyUpdates := last_by_key kr_key (concat (KeyUpdates <$> results));
      KeyUpdateParents := first_seen parent_key (concat (KeyUpdateParents <$> results));
      Incomplete := first_seen id (concat (Incomplete <$> results));
      Warnings := first_seen id (concat (Warnings <$> results)) |}
  end.

(** ** The recovery of a batch *)

Definition zero_result : Result :=
  {| Victims := []; SetNullRows := []; KeyUpdates := []; KeyUpdateParents := []; Incomplete := []; Warnings := [] |}.

(** The merged result and the caveats of [runRecoverCascade]: those of the
    graphs, those of the runs, and the failed reads. *)
Definition recover_cascade (fetch : Options → list ResultRow + string)
    (repick : option (Options → list ResultRow → list ResultRow * LatestPerPKOrder * option string))
    (x : fkIndex) (fuel : nat) (schema : string) (opts : CascadeOptions) (parentEvents : list ResultRow)
    : option (Result * list string + string) :=
  match parentEvents with
  | [] => Some (inl (zero_result, []))
  | _ :: _ =>
      match GroupParentDeletesByFKGraph x fuel schema parentEvents with
      | None => None
      | Some (inr e) => Some (inr ("load FK graph: " +:+ e))
      | Some (inl (groups, fkCaveats)) =>
          let runs := (λ g, SynthesizeVictims fetch repick (FKs g) (Roots g) opts) <$> groups in
          let res := MergeResults (fst <$> runs) in
          let synthErr := concat (snd <$> runs) in
          Some (inl (res, fkCaveats ++ Incomplete res ++
            match synthErr with
            | [] => []
            | _ => ["an index query failed mid-synthesis; the result is partial: " +:+ String.concat (str1 "010") synthErr]
            end))
      end
  end.

(** ** First and last of each key *)

Lemma first_seen_grows {A} (key : A → string) l st : st.2 ≠ [] → (foldl (first_seen_step key) st l).2 ≠ [].
Proof.
  revert st. induction l as [|a l IH]; intros st Hst; simpl; [done|]. apply IH. unfold first_seen_step.
  case_bool_decide; [done|]. simpl. by intros [? ?]%app_nil.
Qed.

Lemma first_seen_nil {A} (key : A → string) l : first_seen key l = [] → l = [].
Proof. destruct l as [|a l]; [done|]. intros E. by destruct (first_seen_grows key l (first_seen_step key (∅, []) a)). Qed.

Record last_inv {A} (key : A → string) (seen : list A) (st : gmap string A * list string) : Prop := {
  li_some : ∀ k a, st.1 !! k = Some a → a ∈ seen ∧ key a = k;
  li_all : ∀ a, a ∈ seen → is_Some (st.1 !! key a);
  li_order : ∀ k, k ∈ st.2 ↔ is_Some (st.1 !! k);
}.

Lemma last_step_inv {A} (key : A → string) seen st a : last_inv key seen st → last_inv key (seen ++ [a]) (last_step key st a).
Proof.
  intros [H1 H2 H3]. split; simpl.
  - intros k b. rewrite lookup_insert_Some. intros [[<- <-]|[_ Hb]]; [split; [set_solver|done]|]. destruct (H1 k b Hb). set_solver.
  - intros b [Hb| ->%list_elem_of_singleton]%elem_of_app; [|rewrite lookup_insert_eq; by eexists].
    destruct (decide (key a = key b)) as [->|Hne]; [rewrite lookup_insert_eq; by eexists|]. rewrite lookup_insert_ne by done. auto.
  - intros k. destruct (decide (key a = k)) as [<-|Hne].
    + rewrite lookup_insert_eq. split; [by eexists|]. intros _. case_bool_decide as E; [by apply H3|]. set_solver.
    + rewrite lookup_insert_ne by done. rewrite <- (H3 k). case_bool_decide; [done|]. rewrite elem_of_app, list_elem_of_singleton. naive_solver.
Qed.

Lemma last_by_key_spec {A} (key : A → string) l :
  (∀ a, a ∈ last_by_key key l → a ∈ l) ∧ (∀ a, a ∈ l → ∃ b, b ∈ last_by_key key l ∧ key b = key a).
Proof.
  assert (∀ l seen st, last_inv key seen st → last_inv key (seen ++ l) (foldl (last_step key) st l)) as H.
  { clear. induction l as [|a l IH]; intros seen st Hi; simpl; [by rewrite app_nil_r|].
    replace (seen ++ a :: l) with ((seen ++ [a]) ++ l) by by rewrite <- app_assoc. by apply IH, last_step_inv. }
  assert (last_inv key [] (∅, [])) as H0.
  { split; simpl; [|set_solver|]; intros k; rewrite lookup_empty; [done|]. split; [by intros ?%not_elem_of_nil|by intros []]. }
  apply (H l) in H0. simpl in H0. unfold last_by_key. destruct (foldl (last_step key) (∅, []) l) as [m order]. destruct H0 as [H1 H2 H3]. simpl in *.
  split.
  - intros a (k & _ & Hk)%list_elem_of_omap. by apply (H1 k).
  - intros a Ha. destruct (H2 a Ha) as [b Hb]. exists b. destruct (H1 _ _ Hb) as [_ E]. split; [|done].
    apply list_elem_of_omap. exists (key a). split; [apply H3; by eexists|done].
Qed.

(** ** The edges of a root *)

Section recover.
Context (x : fkIndex) (graph : Z → list CascadeFK) (fuel : nat).

(** The index holds the foreign keys of each snapshot. *)
Record fk_truth : Prop := {
  ft_load : ∀ id refs, ∃ batch, x_load x id refs = inl batch ∧ ∀ fk, fk ∈ batch ↔ fk ∈ graph id ∧ ReferencedSchema fk ∈ refs;
  ft_keys : ∀ id fk fk', fk ∈ graph id → fk' ∈ graph id → edge_key fk = edge_key fk' → fk = fk';
  ft_fuel : ∀ id, (size (child_schemas (graph id)) < fuel)%nat;
}.

(** The foreign keys in effect at a moment. *)
Definition graph_at (t : Z) : list CascadeFK :=
  let id := (fkSnapshotIDAt (x_fkIDs x) (x_snapshots x) t).1 in if id =? 0 then [] else graph id.

Lemma load_edges schema t : fk_truth → ∃ fks cav,
  LoadCascadeFKsForParent x fuel schema t = Some (inl (fks, (fkSnapshotIDAt (x_fkIDs x) (x_snapshots x) t).1, cav)) ∧
  (∀ fk, fk ∈ fks → fk ∈ graph_at t) ∧
  ∀ log root rule fk pk row, SchemaName root = schema → reached log fks rule root fk pk row ↔ reached log (graph_at t) rule root fk pk row.
Proof.
  intros [H1 H2 H3]. unfold LoadCascadeFKsForParent, graph_at.
  destruct (fkSnapshotIDAt (x_fkIDs x) (x_snapshots x) t) as [id approx]. simpl.
  destruct (Z.eqb_spec id 0) as [->|]; [by exists [], ""|].
  destruct (closure_enough (x_load x id) (graph id) schema fuel (H1 id) (H2 id) (H3 id)) as (fks & -> & _ & Hsub & Hre).
  eexists fks, _. split; [done|]. split; [done|]. intros. by apply Hre.
Qed.

(** One snapshot has one graph. *)
Lemma load_same schema t t' fks fks' id cav cav' :
  LoadCascadeFKsForParent x fuel schema t = Some (inl (fks, id, cav)) →
  LoadCascadeFKsForParent x fuel schema t' = Some (inl (fks', id, cav')) → fks = fks'.
Proof.
  unfold LoadCascadeFKsForParent.
  destruct (fkSnapshotIDAt _ _ t) as [i a], (fkSnapshotIDAt _ _ t') as [i' a'].
  destruct (Z.eqb_spec i 0), (Z.eqb_spec i' 0).
  - naive_solver.
  - destruct (loadCascadeClosure (x_load x i') fuel schema) as [[]|]; naive_solver.
  - destruct (loadCascadeClosure (x_load x i) fuel schema) as [[]|]; naive_solver.
  - destruct (loadCascadeClosure (x_load x i) fuel schema) as [[]|] eqn:E, (loadCascadeClosure (x_load x i') fuel schema) as [[]|] eqn:E'; naive_solver.
Qed.

(** ** Groups *)

Context (schema : string) (all : list ResultRow).
Context (Hnano : ∀ r r', r ∈ all → r' ∈ all → unixNano (EventTimestamp r) = unixNano (EventTimestamp r') → EventTimestamp r = EventTimestamp r').

Definition loaded (fks : list CascadeFK) (r : ResultRow) : Prop :=
  ∃ id cav, LoadCascadeFKsForParent x fuel schema (EventTimestamp r) = Some (inl (fks, id, cav)).

Record group_inv (todo : list ResultRow) (st : group_state) : Prop := {
  gi_cache : ∀ k e, gs_cache st !! k = Some e → ∃ r, r ∈ all ∧ unixNano (EventTimestamp r) = k ∧
    LoadCascadeFKsForParent x fuel schema (EventTimestamp r) = Some (inl (e_fks e, e_snapshotID e, e_caveat e));
  gi_groups : ∀ g r, g ∈ gs_groups st → r ∈ Roots g → loaded (FKs g) r;
  gi_some : ∀ g, g ∈ gs_groups st → Roots g ≠ [];
  gi_roots : concat (Roots <$> gs_groups st) = todo;
  gi_last : match gs_lastSnap st with
            | None => gs_groups st = []
            | Some id => ∃ gs g t cav, gs_groups st = gs ++ [g] ∧ LoadCascadeFKsForParent x fuel schema t = Some (inl (FKs g, id, cav))
            end;
}.

Lemma group_entry_inv pd todo st : fk_truth → pd ∈ all → group_inv todo st → ∃ e st',
  group_entry x fuel schema pd st = Some (inl (e, st')) ∧ group_inv todo st' ∧
  LoadCascadeFKsForParent x fuel schema (EventTimestamp pd) = Some (inl (e_fks e, e_snapshotID e, e_caveat e)).
Proof.
  intros Hft Hpd [H1 H2 H2' H3 H4]. unfold group_entry. destruct (gs_cache st !! _) as [e|] eqn:E.
  - destruct (H1 _ _ E) as (r & Hr & Ek & El). apply Hnano in Ek; [|done..]. rewrite Ek in El. by exists e, st.
  - destruct (load_edges schema (EventTimestamp pd) Hft) as (fks & cav & El & _). rewrite El. eexists _, _. split; [done|]. split; [|done].
    split; simpl; [|done..]. intros k e'. rewrite lookup_insert_Some. intros [[<- <-]|[_ ?]]; [|eauto]. by exists pd.
Qed.

Lemma add_root_last pd gs g : add_root pd (gs ++ [g]) = gs ++ [{| FKs := FKs g; Roots := Roots g ++ [pd] |}].
Proof.
  unfold add_root. rewrite length_app. simpl. replace (pred (length gs + 1)) with (length gs + 0)%nat by lia.
  by rewrite alter_app_r.
Qed.

Lemma group_root_inv pd e todo st : group_inv todo st →
  LoadCascadeFKsForParent x fuel schema (EventTimestamp pd) = Some (inl (e_fks e, e_snapshotID e, e_caveat e)) →
  group_inv (todo ++ [pd]) (group_root e pd st).
Proof.
  intros [H1 H2 H2' H3 H4] El. unfold group_root.
  assert (∃ gs g, (if bool_decide (gs_lastSnap st = Some (e_snapshotID e)) then gs_groups st
      else gs_groups st ++ [{| FKs := e_fks e; Roots := [] |}]) = gs ++ [g] ∧ FKs g = e_fks e ∧
    concat (Roots <$> gs ++ [g]) = todo ∧ (∀ g' r, g' ∈ gs ++ [g] → r ∈ Roots g' → loaded (FKs g') r) ∧
    ∀ g', g' ∈ gs → Roots g' ≠ []) as (gs & g & Eg & Ef & Er & Hl & Hs).
  { case_bool_decide as Es.
    - rewrite Es in H4. destruct H4 as (gs & g & t & cav & E & Ht). exists gs, g. rewrite <- E. repeat split; [|done..|].
      + by eapply load_same.
      + intros g' Hg. apply H2'. rewrite E. set_solver.
    - eexists _, _. split; [done|]. split; [done|]. rewrite fmap_app, concat_app. simpl. rewrite app_nil_r. split; [done|].
      split; [|done]. intros g' r [Hg| ->%list_elem_of_singleton]%elem_of_app Hr; [by apply H2|by apply not_elem_of_nil in Hr]. }
  rewrite Eg, add_root_last. rewrite fmap_app, concat_app in Er. simpl in Er. rewrite app_nil_r in Er. split; simpl.
  - done.
  - intros g' r [Hg| ->%list_elem_of_singleton]%elem_of_app Hr; [by apply Hl; [apply elem_of_app; left|]|]. simpl in *.
    apply elem_of_app in Hr as [Hr| ->%list_elem_of_singleton].
    + apply Hl; [|done]. apply elem_of_app. right. by apply list_elem_of_singleton.
    + rewrite Ef. by eexists _, _.
  - intros g' [Hg| ->%list_elem_of_singleton]%elem_of_app; [auto|]. simpl. by intros [? ?]%app_nil.
  - rewrite fmap_app, concat_app. simpl. by rewrite app_nil_r, app_assoc, Er.
  - eexists gs, _, _, _. split; [done|]. simpl. by rewrite Ef.
Qed.

Lemma group_loop_inv roots : ∀ todo st, fk_truth → (∀ r, r ∈ roots → r ∈ all) → group_inv todo st →
  ∃ st', group_loop x fuel schema roots st = Some (inl st') ∧ group_inv (todo ++ roots) st'.
Proof.
  induction roots as [|pd roots IH]; intros todo st Hft Hall Hi; simpl; [exists st; by rewrite app_nil_r|].
  destruct (group_entry_inv pd todo st Hft ltac:(set_solver) Hi) as (e & st1 & -> & Hi1 & El).
  destruct (IH (todo ++ [pd]) (group_root e pd st1)) as (st' & E & Hi'); [done|set_solver|by apply group_root_inv|].
  exists st'. split; [done|]. by rewrite <- app_assoc in Hi'.
Qed.

(** The groups hold the roots, each with the edges of its own moment. *)
Lemma GroupParentDeletesByFKGraph_spec : fk_truth → ∃ groups caveats,
  GroupParentDeletesByFKGraph x fuel schema all = Some (inl (groups, caveats)) ∧
  concat (Roots <$> groups) = sort_by by_time all ∧ (∀ g, g ∈ groups → Roots g ≠ []) ∧
  ∀ g r, g ∈ groups → r ∈ Roots g → loaded (FKs g) r.
Proof.
  intros Hft.
  destruct (group_loop_inv (sort_by by_time all) [] group_state0) as (st & E & [_ H2 H2' H3 _]); [done| | |].
  - intros r. by rewrite elem_of_sort_by.
  - split; simpl; [intros k e; by rewrite lookup_empty|set_solver|set_solver|done|done].
  - unfold GroupParentDeletesByFKGraph. destruct all as [|r0 l]; [exists [], []; set_solver|].
    rewrite E. eexists _, _. split; [done|]. by split.
Qed.
End recover.

(** ** The merged result *)

Lemma elem_of_concat_fmap {A B} (f : A → list B) (l : list A) b : b ∈ concat (f <$> l) ↔ ∃ a, a ∈ l ∧ b ∈ f a.
Proof.
  induction l as [|a l IH]; simpl; [set_solver|]. rewrite elem_of_app, IH. setoid_rewrite elem_of_cons. naive_solver.
Qed.

Lemma merge_incomplete rs : Incomplete (MergeResults rs) = [] → ∀ r, r ∈ rs → Incomplete r = [].
Proof.
  intros E r Hr. assert (concat (Incomplete <$> rs) = []) as En.
  { destruct rs as [|a [|b rs]]; [done|by simpl; rewrite app_nil_r|by apply first_seen_nil in E]. }
  destruct (Incomplete r) as [|m l] eqn:Em; [done|].
  assert (m ∈ concat (Incomplete <$> rs)) as Hm by (apply elem_of_concat_fmap; exists r; rewrite Em; set_solver).
  rewrite En in Hm. by apply not_elem_of_nil in Hm.
Qed.

(** One victim of each key of the results, one restore of each foreign key. *)
Lemma merge_victims rs : (∀ r, r ∈ rs → NoDup (victim_key <$> Victims r)) →
  NoDup (victim_key <$> Victims (MergeResults rs)) ∧
  (∀ v, v ∈ Victims (MergeResults rs) → ∃ r, r ∈ rs ∧ v ∈ Victims r) ∧
  (∀ r v, r ∈ rs → v ∈ Victims r → ∃ w, w ∈ Victims (MergeResults rs) ∧ victim_key w = victim_key v).
Proof.
  intros Hnd. destruct (dedupVictimsNewest_spec (concat (Victims <$> rs))) as (H1 & H2 & H3 & _).
  destruct rs as [|a [|b rs]]; [|clear H1 H2 H3; simpl; set_solver|]; cbn [MergeResults Victims];
    (split; [done|]; split; [intros v Hv; by apply elem_of_concat_fmap, H2|]);
    intros r v Hr Hv; apply H3, elem_of_concat_fmap; eauto.
Qed.

Lemma merge_nulls rs :
  (∀ sn, sn ∈ SetNullRows (MergeResults rs) → ∃ r, r ∈ rs ∧ sn ∈ SetNullRows r) ∧
  (∀ r sn, r ∈ rs → sn ∈ SetNullRows r → ∃ sn', sn' ∈ SetNullRows (MergeResults rs) ∧ sn_key sn' = sn_key sn).
Proof.
  destruct (last_by_key_spec sn_key (concat (SetNullRows <$> rs))) as [H2 H3].
  destruct rs as [|a [|b rs]]; [|clear H2 H3; simpl; set_solver|]; cbn [MergeResults SetNullRows];
    (split; [intros v Hv; by apply elem_of_concat_fmap, H2|]);
    intros r v Hr Hv; apply H3, elem_of_concat_fmap; eauto.
Qed.

(** Roots that are truthful one by one are so together. *)
Lemma truthful_group fetch repick opts log fks roots : roots ≠ [] →
  (∀ r, r ∈ roots → ∃ graph, (∀ fk, fk ∈ fks → fk ∈ graph) ∧ truthful fetch repick opts log graph [r]) →
  (∀ r r', r ∈ roots → r' ∈ roots → EventID r = EventID r' → r = r') → truthful fetch repick opts log fks roots.
Proof.
  intros Hne H Hid. destruct roots as [|r0 roots]; [done|]. destruct (H r0 ltac:(set_solver)) as (G0 & Hs0 & T0).
  split.
  - intros r (G & _ & T)%H. apply (tr_delete _ _ _ _ _ _ T). set_solver.
  - done.
  - intros r row (G & _ & T)%H. apply (tr_gone _ _ _ _ _ _ T). set_solver.
  - intros fk Hfk. by apply (tr_names _ _ _ _ _ _ T0), Hs0.
  - intros r (G & _ & T)%H. apply (tr_root_names _ _ _ _ _ _ T). set_solver.
  - intros r fk pk row v (G & Hs & T)%H Hfk Hd. apply (tr_keys _ _ _ _ _ _ T r fk pk); [set_solver|auto|].
    by eapply doomed_mono.
  - intros r fk k (G & Hs & T)%H Hfk. apply (tr_serves _ _ _ _ _ _ T); [set_solver|auto].
  - intros r fk (G & Hs & T)%H Hfk. apply (tr_chained _ _ _ _ _ _ T); [set_solver|auto].
Qed.

Section exact.
Context (fetch : Options → list ResultRow + string)
        (repick : option (Options → list ResultRow → list ResultRow * LatestPerPKOrder * option string))
        (x : fkIndex) (graph : Z → list CascadeFK) (fuel : nat) (schema : string) (opts : CascadeOptions)
        (log parents : list ResultRow).

(** What is assumed of a batch: the foreign keys of each snapshot, and for each
    root the index under the foreign keys of its own time. *)
Record batch_truth : Prop := {
  ba_fks : fk_truth x graph fuel;
  ba_depth : 0 ≤ MaxDepth opts;
  ba_schema : ∀ r, r ∈ parents → SchemaName r = schema;
  ba_times : ∀ r, r ∈ parents → - 2 ^ 63 ≤ EventTimestamp r - unixEpoch * second < 2 ^ 63;
  ba_ids : ∀ r r', r ∈ parents → r' ∈ parents → EventID r = EventID r' → r = r';
  ba_truth : ∀ r, r ∈ parents → truthful fetch repick (withDefaults opts) log (graph_at x graph (EventTimestamp r)) [r];
}.

(** A child the cascade of a root reaches under the foreign keys of its time. *)
Definition cascade_of (rule : string) (r : ResultRow) (fk : CascadeFK) (pk : string) (row : Row) : Prop :=
  reached log (graph_at x graph (EventTimestamp r)) rule r fk pk row.

(** A result is the effect of the cascades of these roots: one DELETE for each
    row removed, with an image it held, one restore for each foreign key set to
    NULL. *)
Record delivers (roots : list ResultRow) (res : Result) : Prop := {
  dl_once : NoDup (victim_key <$> Victims res);
  dl_victim : ∀ v, v ∈ Victims res → EventType v = EventDelete ∧ ∃ r fk row, r ∈ roots ∧
    cascade_of "CASCADE" r fk (PKValues v) row ∧ SchemaName v = fk_Schema fk ∧ TableName v = fk_Table fk ∧ RowBefore v = Some row;
  dl_removed : ∀ r fk pk row, r ∈ roots → cascade_of "CASCADE" r fk pk row →
    ∃ v, v ∈ Victims res ∧ SchemaName v = fk_Schema fk ∧ TableName v = fk_Table fk ∧ PKValues v = pk;
  dl_restore : ∀ sn, sn ∈ SetNullRows res → ∃ r fk row, r ∈ roots ∧ cascade_of "SET NULL" r fk (sn_PKValues sn) row ∧
    sn_Schema sn = fk_Schema fk ∧ sn_Table sn = fk_Table fk ∧ sn_Column sn = fk_Column fk;
  dl_nulled : ∀ r fk pk row, r ∈ roots → cascade_of "SET NULL" r fk pk row →
    ∃ sn, sn ∈ SetNullRows res ∧ sn_Schema sn = fk_Schema fk ∧ sn_Table sn = fk_Table fk ∧ sn_Column sn = fk_Column fk ∧ sn_PKValues sn = pk;
}.

Context (Hb : batch_truth).

Lemma batch_groups : ∃ groups caveats, GroupParentDeletesByFKGraph x fuel schema parents = Some (inl (groups, caveats)) ∧
  (∀ r, r ∈ parents ↔ ∃ g, g ∈ groups ∧ r ∈ Roots g) ∧
  (∀ g, g ∈ groups → truthful fetch repick (withDefaults opts) log (FKs g) (Roots g)) ∧
  ∀ g r rule fk pk row, g ∈ groups → r ∈ Roots g →
    reached log (FKs g) rule r fk pk row ↔ reached log (graph_at x graph (EventTimestamp r)) rule r fk pk row.
Proof.
  destruct Hb as [Hft _ Hschema Htimes Hids Htruth].
  destruct (GroupParentDeletesByFKGraph_spec x graph fuel schema parents) as (groups & caveats & E & Hroots & Hne & Hl); [|done|].
  { intros r r' Hr Hr'. unfold unixNano, wrap64, two64. pose proof (Htimes r Hr). pose proof (Htimes r' Hr').
    rewrite !Z.mod_small by lia. lia. }
  exists groups, caveats. split; [done|].
  assert (∀ r, r ∈ parents ↔ ∃ g, g ∈ groups ∧ r ∈ Roots g) as Hin.
  { intros r. rewrite <- (elem_of_sort_by by_time), <- Hroots. apply elem_of_concat_fmap. }
  assert (∀ g r, g ∈ groups → r ∈ Roots g → (∀ fk, fk ∈ FKs g → fk ∈ graph_at x graph (EventTimestamp r)) ∧
    ∀ rule fk pk row, reached log (FKs g) rule r fk pk row ↔ reached log (graph_at x graph (EventTimestamp r)) rule r fk pk row) as Hfk.
  { intros g r Hg Hr. destruct (Hl g r Hg Hr) as (id & cav & El).
    destruct (load_edges x graph fuel schema (EventTimestamp r) Hft) as (fks & cav' & El' & Hsub & Hre).
    rewrite El in El'. injection El' as -> _ _. split; [done|]. intros. apply Hre, Hschema, Hin. eauto. }
  split; [done|]. split; [|intros; by apply Hfk].
  intros g Hg. apply truthful_group; [auto| |].
  - intros r Hr. exists (graph_at x graph (EventTimestamp r)). split; [by apply Hfk|]. apply Htruth, Hin. eauto.
  - intros r r' Hr Hr'. apply Hids; apply Hin; eauto.
Qed.

Lemma group_delivers g : truthful fetch repick (withDefaults opts) log (FKs g) (Roots g) →
  (∀ r rule fk pk row, r ∈ Roots g → reached log (FKs g) rule r fk pk row ↔ cascade_of rule r fk pk row) →
  Incomplete (SynthesizeVictims fetch repick (FKs g) (Roots g) opts).1 = [] →
  delivers (Roots g) (SynthesizeVictims fetch repick (FKs g) (Roots g) opts).1 ∧
  (SynthesizeVictims fetch repick (FKs g) (Roots g) opts).2 = [].
Proof.
  intros Htr Hre Hc. destruct (SynthesizeVictims fetch repick (FKs g) (Roots g) opts) as [res errs] eqn:E. simpl in *.
  destruct (SynthesizeVictims_closure fetch repick opts log (FKs g) (Roots g) res errs Htr (ba_depth Hb) E) as (H1 & H2 & H3 & H4 & H5).
  { unfold Complete. by rewrite Hc. }
  split; [|done]. split; [done| | | |].
  - intros v Hv. destruct (H2 v Hv) as (? & r & fk & row & Hr & Hra & ?). split; [done|]. exists r, fk, row. by rewrite <- Hre.
  - intros r fk pk row Hr Hra%Hre; [|done]. apply H1. eauto 8.
  - intros sn Hsn. destruct (H4 (sn_Schema sn) (sn_Table sn) (sn_Column sn) (sn_PKValues sn)) as [H _].
    destruct H as (r & fk & row & Hr & Hra & ? & ? & ?); [by exists sn|]. exists r, fk, row. by rewrite <- Hre.
  - intros r fk pk row Hr Hra%Hre; [|done]. apply H4. eauto 10.
Qed.

Lemma cascade_plain rule r fk pk row : r ∈ parents → cascade_of rule r fk pk row →
  plain (fk_Schema fk) = true ∧ plain (fk_Table fk) = true ∧ plain (fk_Column fk) = true.
Proof. intros Hr (Hfk & _). destruct (tr_names _ _ _ _ _ _ (ba_truth Hb r Hr) fk Hfk) as (? & ? & ? & _). done. Qed.

Lemma merge_delivers (groups : list FKGraphGroup) (run : FKGraphGroup → Result) :
  (∀ r, r ∈ parents ↔ ∃ g, g ∈ groups ∧ r ∈ Roots g) → (∀ g, g ∈ groups → delivers (Roots g) (run g)) →
  delivers parents (MergeResults (run <$> groups)).
Proof.
  intros Hin Hd.
  assert (∀ g r, g ∈ groups → r ∈ Roots g → r ∈ parents) as Hpar by (intros; apply Hin; eauto).
  destruct (merge_victims (run <$> groups)) as (V1 & V2 & V3).
  { intros r (g & -> & Hg)%list_elem_of_fmap. by apply (dl_once _ _ (Hd g Hg)). }
  destruct (merge_nulls (run <$> groups)) as (N2 & N3).
  assert (∀ v, v ∈ Victims (MergeResults (run <$> groups)) → EventType v = EventDelete ∧ ∃ r fk row, r ∈ parents ∧
    cascade_of "CASCADE" r fk (PKValues v) row ∧ SchemaName v = fk_Schema fk ∧ TableName v = fk_Table fk ∧ RowBefore v = Some row) as Hv.
  { intros v (res & (g & -> & Hg)%list_elem_of_fmap & Hv)%V2.
    destruct (dl_victim _ _ (Hd g Hg) v Hv) as (? & r & fk & row & Hr & ?). split; [done|]. exists r, fk, row. eauto. }
  assert (∀ sn, sn ∈ SetNullRows (MergeResults (run <$> groups)) → ∃ r fk row, r ∈ parents ∧
    cascade_of "SET NULL" r fk (sn_PKValues sn) row ∧ sn_Schema sn = fk_Schema fk ∧ sn_Table sn = fk_Table fk ∧ sn_Column sn = fk_Column fk) as Hn.
  { intros sn (res & (g & -> & Hg)%list_elem_of_fmap & Hs)%N2.
    destruct (dl_restore _ _ (Hd g Hg) sn Hs) as (r & fk & row & Hr & ?). exists r, fk, row. eauto. }
  split; [done|done| |done|].
  - intros r fk pk row Hr Hra. pose proof (proj1 (Hin r) Hr) as (g & Hg & Hrg).
    destruct (dl_removed _ _ (Hd g Hg) r fk pk row Hrg Hra) as (v & Hv' & E1 & E2 & E3).
    destruct (V3 (run g) v) as (w & Hw & Ek); [by apply list_elem_of_fmap_2|done|].
    destruct (Hv w Hw) as (_ & r' & fk' & row' & Hr' & Hra' & W1 & W2 & _).
    destruct (cascade_plain _ _ _ _ _ Hr Hra) as (? & ? & _), (cascade_plain _ _ _ _ _ Hr' Hra') as (? & ? & _).
    apply row_key_inj in Ek as (K1 & K2 & K3); [|by rewrite W1|by rewrite W2|by rewrite E1|by rewrite E2].
    exists w. split; [done|]. split; [|split]; congruence.
  - intros r fk pk row Hr Hra. pose proof (proj1 (Hin r) Hr) as (g & Hg & Hrg).
    destruct (dl_nulled _ _ (Hd g Hg) r fk pk row Hrg Hra) as (v & Hv' & E1 & E2 & E3 & E4).
    destruct (N3 (run g) v) as (w & Hw & Ek); [by apply list_elem_of_fmap_2|done|].
    destruct (Hn w Hw) as (r' & fk' & row' & Hr' & Hra' & W1 & W2 & W3).
    destruct (cascade_plain _ _ _ _ _ Hr Hra) as (? & ? & ?), (cascade_plain _ _ _ _ _ Hr' Hra') as (? & ? & ?).
    apply null_key_inj in Ek as (K1 & K2 & K3 & K4); [|by rewrite W1|by rewrite W2|by rewrite W3|by rewrite E1|by rewrite E2|by rewrite E3].
    exists w. split; [done|]. split; [|split; [|split]]; congruence.
Qed.
End exact.

(** C8: A recovery of a batch of deleted parents returns, and when it reports no caveat it delivers one DELETE for each row the cascades of the parents removed, each parent under the foreign keys in effect at its own time, with an image the row held, and one restore for each foreign key they set to NULL, and nothing else. What it takes of index and baselines ([truthful], [serves]): every change of a child is logged under an unchanged primary key, no referenced key is NULL or empty, names are plain, a candidate read answers for its window, no child is older than the lookback where there is no baseline, and where the window since a baseline has unreadable hours the baseline lists a child of the parent. *)
Theorem recover_cascade_delivers fetch repick x graph fuel schema opts log parents :
  batch_truth fetch repick x graph fuel schema opts log parents →
  ∃ res caveats, recover_cascade fetch repick x fuel schema opts parents = Some (inl (res, caveats)) ∧
    (caveats = [] → delivers x graph log parents res).
Proof.
  intros Hb. destruct (batch_groups _ _ _ _ _ _ _ _ _ Hb) as (groups & cav & Eg & Hin & Htr & Hre). unfold recover_cascade.
  destruct parents as [|p ps] eqn:Ep.
  { eexists _, _. split; [done|]. intros _.
    split; [constructor|by intros v ?%not_elem_of_nil|by intros r fk pk row ?%not_elem_of_nil|by intros v ?%not_elem_of_nil|by intros r fk pk row ?%not_elem_of_nil]. }
  rewrite <- Ep in *. rewrite Eg. eexists _, _. split; [done|].
  intros [_ [Hinc _]%app_nil]%app_nil. rewrite <- list_fmap_compose in *.
  apply (merge_delivers fetch repick x graph fuel schema opts log parents Hb groups (fst ∘ _)); [done|].
  intros g Hg. apply (group_delivers fetch repick x graph fuel schema opts log parents Hb); [by apply Htr|intros; by apply Hre|].
  apply (merge_incomplete _ Hinc).
  by apply (list_elem_of_fmap_2 (fst ∘ λ g, SynthesizeVictims fetch repick (FKs g) (Roots g) opts) groups g).
Qed.

(** The shop, with one foreign-key snapshot. *)
Definition shop_index : fkIndex :=
  {| x_fkIDs := [7]; x_snapshots := [(7, Shop.t0)]; x_load := λ _ refs, inl (on_edges refs Shop.fks) |}.
Definition shop_recovery : option (Result * list string + string) :=
  recover_cascade (ref_fetch Shop.log) None shop_index 3 "shop" (Shop.options (Some (ref_baseline Shop.log (Shop.t0 + 20)))) [Shop.root].

Lemma shop_truth : batch_truth (ref_fetch Shop.log) None shop_index (λ _, Shop.fks) 3 "shop"
  (Shop.options (Some (ref_baseline Shop.log (Shop.t0 + 20)))) Shop.log [Shop.root].
Proof.
  split.
  - split.
    + intros id refs. eexists. split; [done|]. intros fk. unfold on_edges. rewrite list_elem_of_filter. naive_solver.
    + assert (Forall (λ fk, Forall (λ fk', edge_key fk = edge_key fk' → fk = fk') Shop.fks) Shop.fks) as H
        by (repeat constructor; vm_compute; congruence).
      intros _ fk fk' Hfk Hfk'. rewrite Forall_forall in H. specialize (H fk Hfk). rewrite Forall_forall in H. by apply H.
    + intros _. vm_compute. lia.
  - done.
  - by intros r ->%list_elem_of_singleton.
  - intros r ->%list_elem_of_singleton. by vm_compute.
  - intros r r' ->%list_elem_of_singleton ->%list_elem_of_singleton. done.
  - intros r ->%list_elem_of_singleton. exact Shop.truth.
Qed.

Lemma recover_cascade_delivers_witness :
  (∃ res, shop_recovery = Some (inl (res, [])) ∧ delivers shop_index (λ _, Shop.fks) Shop.log [Shop.root] res) ∧
  match shop_recovery with
  | Some (inl (res, _)) => (victim_key <$> Victims res, sn_PKValues <$> SetNullRows res) =
      (["shop.orders|2"; "shop.orders|1"; "shop.items|100"], ["7"])
  | _ => False
  end.
Proof.
  split; [|vm_compute; reflexivity].
  assert (match shop_recovery with Some (inl (_, c)) => c = [] | _ => False end) as Hc by (vm_compute; reflexivity).
  destruct (recover_cascade_delivers _ _ _ _ _ _ _ _ _ shop_truth) as (res & cav & E & H).
  fold shop_recovery in E. rewrite E in Hc. subst cav. exists res. split; [exact E|]. apply H. reflexivity.
Defined.
