(* ===== verification/CascadeCases.v ===== *)
(** * What the search for a cascade's children gets wrong

    Closed runs of [SynthesizeVictims] that report no caveat: a parent with a
    NULL key, a child whose primary key was changed, and a window whose hours
    cannot all be read. *)
From S2P Require Import Prelude GoStrings GoText GoTime GoBytes GoVal Event Rows Merge BinlogOrder TopN PkRange PositionFloor QueryWhere LatestPK Cascade CascadeScan CascadeRef CascadeClosure.

Open Scope Z_scope.

Module NullKey.
(** Orders refer to a customer's code, which is unique and may be NULL. *)
Definition fk : CascadeFK := {|
  fk_Schema := "shop"; fk_Table := "orders"; ConstraintName := "fk_code"; fk_Column := "code"; ReferencedSchema := "shop";
  ReferencedTable := "customers"; ReferencedColumn := "code"; DeleteRule := "CASCADE"; UpdateRule := "RESTRICT";
  ChildExcludedFromSnapshot := false |}.
Definition row (id : string) (code : GoVal) : Row := list_to_map [("id", VNumber id); ("code", code)].
Definition order : Row := row "1" (VString "").
Definition root : ResultRow := synthetic "shop" "customers" 40 EventDelete "5" (Some (row "5" VNil)) None.
(** Customer 6 has the empty code, and order 1; customer 5 has none. *)
Definition log : list ResultRow :=
  [synthetic "shop" "customers" 10 EventInsert "6" None (Some (row "6" (VString "")));
   synthetic "shop" "customers" 11 EventInsert "5" None (Some (row "5" VNil));
   synthetic "shop" "orders" 12 EventInsert "1" None (Some order); root].
End NullKey.

(** C34: The delete path takes a NULL referenced key for the empty text: deleting a parent with a NULL key delivers the children of the parent whose key is the empty string as its victims, with no caveat, although the cascade of the deleted parent reaches no row. *)
Theorem null_key_victims :
  (let res := SynthesizeVictims (ref_fetch NullKey.log) None [NullKey.fk] [NullKey.root] (Shop.options None) in
   Victims res.1 = [synthetic "shop" "orders" 12 EventDelete "1" (Some NullKey.order) None] ∧ Complete res.1 = true ∧ res.2 = []) ∧
  ∀ rule fk pk row, ¬ reached NullKey.log [NullKey.fk] rule NullKey.root fk pk row.
Proof.
  split; [vm_compute; done|].
  intros rule fk pk row (->%list_elem_of_singleton & _ & ppk & prow & Hd & (v & Hv & Hnil & _)).
  simpl in Hd. inversion Hd as [row' E| fk' ppk' prow' pk' row' _ Hfk' _ _ E1 E2]; subst.
  - injection E as <-. vm_compute in Hv. injection Hv as <-. done.
  - apply list_elem_of_singleton in Hfk' as ->. done.
Qed.

Module MovedKey.
Definition fk : CascadeFK := Shop.fk "orders" "customer" "customers" "CASCADE".
Definition order (id : string) : Row := Shop.img [("id", id); ("customer", "5")].
Definition root : ResultRow := synthetic "shop" "customers" 40 EventDelete "5" (Some (Shop.img [("id", "5")])) None.
(** Order 1 becomes order 2, filed under the key it had, and order 2 is deleted. *)
Definition deleted : ResultRow := synthetic "shop" "orders" 30 EventDelete "2" (Some (order "2")) None.
Definition log : list ResultRow :=
  [synthetic "shop" "orders" 10 EventInsert "1" None (Some (order "1"));
   synthetic "shop" "orders" 20 EventUpdate "1" (Some (order "1")) (Some (order "2")); deleted; root].
End MovedKey.

(** A table under its own events: an event changes the row that is its before
    image; [None] when the table has no such row. *)
Definition change_row (db : list Row) (e : ResultRow) : option (list Row) :=
  let rest := match RowBefore e with
              | None => Some db
              | Some before => if decide (before ∈ db) then Some (filter (λ r, r ≠ before) db) else None
              end in
  (λ rest, match RowAfter e with Some after => after :: rest | None => rest end) <$> rest.
Definition table_at (log : list ResultRow) (schema table : string) (T : Z) : option (list Row) :=
  foldl (λ db e, db ← db; change_row db e) (Some []) (hist log schema table T).

(** A change of a child's primary key is filed under the key it had, and the
    scan takes it for that key's state: there is a log that is a history of the
    child table and leaves it empty at the time of the parent's delete, for
    which the parent's delete delivers a victim of that table, with no caveat. *)
Theorem moved_child_resurrected : ∃ log fk root,
  table_at log (fk_Schema fk) (fk_Table fk) (EventTimestamp root) = Some [] ∧
  let res := SynthesizeVictims (ref_fetch log) None [fk] [root] (Shop.options None) in
  (∃ v, v ∈ Victims res.1 ∧ SchemaName v = fk_Schema fk ∧ TableName v = fk_Table fk) ∧ Complete res.1 = true ∧ res.2 = [].
Proof.
  exists MovedKey.log, MovedKey.fk, MovedKey.root. split; [vm_compute; reflexivity|].
  split; [|vm_compute; done]. exists (synthetic "shop" "orders" 20 EventDelete "1" (Some (MovedKey.order "2")) None). vm_compute.
  by split; [left|].
Qed.

Module GappedWindow.
(** A baseline that covers the table and lists no child of the parent, and a
    window the probe says cannot be read in full. *)
Definition snapshot : BaselineProvider := λ _ _ _ _ _ _,
  inl ({| SnapshotTime := 20; bl_Rows := []; Truncated := false; bl_SincePos := None; StaleMessage := ""; UncheckedMessage := "" |}, true).
Definition options (covered : bool + string) : CascadeOptions := {|
  Lookback := 0; MaxDepth := 0; CandidateLimit := 0; Baseline := Some snapshot; ArchivesPresent := true;
  co_WindowCovered := Some (λ _ _, covered); PKMetas := None |}.
End GappedWindow.

(** A window the probe reports as gapped, or could not check, leaves no caveat
    when the snapshot lists no child of the parent. *)
Theorem gapped_window_complete :
  Forall (λ covered, let res := SynthesizeVictims (ref_fetch []) None [MovedKey.fk] [MovedKey.root] (GappedWindow.options covered) in
    Complete res.1 = true ∧ Victims res.1 = [] ∧ res.2 = []) [inl false; inr "archive_state: connection refused"].
Proof. repeat constructor. Qed.
