(* ===== verification/PartitionHour.v ===== *)
(** * Hourly partitions and the windows they are dropped on

    The names of the partitions of [binlog_events] and the hour each stands for
    ([internal/indexer/partitions.go]), where the archive of one goes
    ([rotation.HiveArchivePath], [storage.BuildS3Key]), how many partitions a
    rotation adds and from which hour, the retention of an index that has no
    explicit one, and the guard over history an upgrade found
    ([internal/rotation/rotation.go], [loop.go], [implicit_retain.go]).

    A time is a [Z] of nanoseconds ([GoTime]), zero for Go's zero time. A
    directory is taken to be in the form [filepath.Clean] gives, and neither
    the root nor the working directory. *)
From S2P Require Import Prelude GoStrings GoTime SysVersion Planner GoBytes GoText.

Open Scope Z_scope.

(** ** Names *)

(** [indexer.PartitionDate]; the planner has the same function under its own
    name. *)
Definition PartitionDate (name : string) : option Z := ParsePartitionName name.

(** [d.UTC().Hour()]. *)
Definition hour_of_day (t : Z) : Z := t mod day / hour.

(** [indexer.PartitionName]: layout [p_2006010215]. *)
Definition PartitionName (t : Z) : string :=
  let '(y, m, d) := civil (t / day) in
  "p_" +:+ padZ 4 y +:+ padZ 2 m +:+ padZ 2 d +:+ padZ 2 (hour_of_day t).

(** The path [HiveArchivePath] joins, for the partition of one hour. *)
Definition hivePathAt (archiveDir bintrailID : string) (d : Z) : string :=
  archiveDir +:+ "/bintrail_id=" +:+ bintrailID +:+ "/event_date=" +:+ format_date d
    +:+ "/event_hour=" +:+ padZ 2 (hour_of_day d) +:+ "/events.parquet".

Definition HiveArchivePath (archiveDir bintrailID partitionName : string) : option string :=
  d ← PartitionDate partitionName; Some (hivePathAt archiveDir bintrailID d).

(** [filepath.Rel] for a file below [baseDir]. *)
Definition relPath (baseDir filePath : string) : option string :=
  if has_prefix filePath (baseDir +:+ "/") then Some (str_drop (S (String.length baseDir)) filePath) else None.

(** [storage.BuildS3Key]. *)
Definition BuildS3Key (baseDir filePath prefix : string) : option string :=
  rel ← relPath baseDir filePath;
  Some (if bool_decide (prefix = "") then rel else trim_suffix prefix "/" +:+ "/" +:+ rel).

(** [storage.ParseS3URL]: bucket and prefix. *)
Definition ParseS3URL (u : string) : option (string * string) :=
  if negb (has_prefix u "s3://") then None
  else
    let '(bucket, prefix, _) := str_cut (str_drop 5 u) "/" in
    if bool_decide (bucket = "") then None else Some (bucket, prefix).

(** [partitionInfo]. *)
Record partitionInfo := { Name : string; Description : string; Ordinal : Z }.

(** [droppedBound]: the end of the latest of the named hours. *)
Fixpoint droppedBoundFrom (top : Z) (names : list string) : Z + string :=
  match names with
  | [] => inl top
  | n :: names' =>
      d ←? or_err (PartitionDate n) n;
      droppedBoundFrom (if top <? d + hour then d + hour else top) names'
  end.

Definition droppedBound (names : list string) : Z + string :=
  match names with [] => inr "" | _ => droppedBoundFrom 0 names end.

(** [escapesLabelHour]. *)
Definition escapesLabelHour (partitionName : string) (minTS maxTS : Z) : bool :=
  match PartitionDate partitionName with
  | None => false
  | Some labelStart =>
      if (minTS =? 0) || (maxTS =? 0) then false
      else (minTS <? labelStart) || negb (maxTS <? labelStart + hour)
  end.

(** ** How many partitions to add, and from where *)

(** [computeToAdd]. *)
Definition computeToAdd (target futureCount dropped : Z) (noReplace : bool) : Z :=
  (if futureCount <? target then target - futureCount else 0) + (if noReplace then 0 else dropped).

(** [countFuturePartitions]. *)
Fixpoint countFuturePartitions (partitions : list partitionInfo) (ref : Z) : Z :=
  match partitions with
  | [] => 0
  | p :: ps =>
      match PartitionDate (Name p) with
      | None => countFuturePartitions ps ref
      | Some d => (if ref <? d then 1 else 0) + countFuturePartitions ps ref
      end
  end.

(** The loop that [hoursBehind] and [nextPartitionStart] begin with: the latest
    named hour, or the zero time. *)
Definition maxPartitionDate (partitions : list partitionInfo) : Z :=
  fold_left (λ maxDate p,
    match PartitionDate (Name p) with Some d => if maxDate <? d then d else maxDate | None => maxDate end)
    partitions 0.

(** [time.Time.Sub], which stops at the ends of an [int64]. *)
Definition time_Sub (t u : Z) : Z := Z.max (- 2 ^ 63) (Z.min (2 ^ 63 - 1) (t - u)).

(** [hoursBehind]. *)
Definition hoursBehind (partitions : list partitionInfo) (nowHour : Z) : Z :=
  let maxDate := maxPartitionDate partitions in
  if (maxDate =? 0) || negb (maxDate <? nowHour) then 0 else Z.quot (time_Sub nowHour maxDate) hour.

(** [partitionsToAdd]: how many to add, and how many of them catch up. *)
Definition partitionsToAdd (target : Z) (partitions : list partitionInfo) (nowHour dropped : Z)
    (noReplace : bool) : Z * Z :=
  let toAdd := computeToAdd target (countFuturePartitions partitions nowHour) dropped noReplace in
  let behind := if (0 <? toAdd) && (0 <? target) then hoursBehind partitions nowHour else 0 in
  (toAdd + behind, behind).

(** [nextPartitionStart]; [now] is the clock it reads. *)
Definition nextPartitionStart (partitions : list partitionInfo) (now : Z) : Z :=
  let maxDate := maxPartitionDate partitions in
  if maxDate =? 0 then truncate_hour now else maxDate + hour.

(** The hours [addFuturePartitions] adds. *)
Definition hours_from (startDate : Z) (n : Z) : list Z :=
  (λ i, startDate + Z.of_nat i * hour) <$> seq 0 (Z.to_nat n).

(** ** Retention *)

(** [cliutil.parseUnitDuration], for a list of unit letters and spans. *)
Definition parseUnitDuration (s : string) (units : list (ascii * Z)) : option Z :=
  if (String.length s <? 2)%nat then None
  else
    n ← atoi (str_take (String.length s - 1) s);
    if n <=? 0 then None
    else
      unit ← String.get (String.length s - 1) s;
      '(_, span) ← head (filter (λ u, u.1 = unit) units);
      if (2 ^ 63 - 1) / span <? n then None else Some (n * span).

(** [retainUnits], [intervalUnits]. *)
Definition retainUnits : list (ascii * Z) := [("d"%char, 24 * hour); ("h"%char, hour)].

(** [cliutil.ParseRetain]. *)
Definition ParseRetain (s : string) : option Z := parseUnitDuration s retainUnits.

Definition LegacyRetain : string := "30d".
Definition legacyRetainDur : Z := 30 * 24 * hour.

(** What [indexer.ReadInitialRetain] answers: an error, no record, or a record
    and when it was written. *)
Inductive initialRetain :=
  | RetainUnread
  | NoRecord
  | Recorded (value : string) (recordedAt : Z).

(** [implicitRetain]. *)
Record implicitRetain := { ir_retain : Z; ir_raw : string; ir_recorded : bool; ir_recordedAt : Z }.

Definition legacyRetain : implicitRetain :=
  {| ir_retain := legacyRetainDur; ir_raw := LegacyRetain; ir_recorded := false; ir_recordedAt := 0 |}.

(** [implicitRetainFrom]: the window, and whether an error goes with it. *)
Definition implicitRetainFrom (r : initialRetain) : implicitRetain * bool :=
  match r with
  | RetainUnread => (legacyRetain, true)
  | NoRecord => (legacyRetain, false)
  | Recorded value recordedAt =>
      match ParseRetain value with
      | None => (legacyRetain, true)
      | Some d =>
          if d <=? 0 then (legacyRetain, true)
          else ({| ir_retain := d; ir_raw := value; ir_recorded := true; ir_recordedAt := recordedAt |}, false)
      end
  end.

(** [RetainSource]; [RetainConfigured] is never answered here. *)
Inductive RetainSource := RetainRecorded | RetainLegacy | RetainUnreadable | RetainConfigured.

#[export] Instance RetainSource_eq_dec : EqDecision RetainSource.
Proof. solve_decision. Defined.

(** [Effective]. *)
Record Effective := { ef_Retain : Z; ef_Raw : string; ef_Source : RetainSource; ef_RecordedAt : Z }.

(** [ResolveEffective], given what the index's record answered. *)
Definition ResolveEffective (r : initialRetain) : Effective :=
  let '(imp, err) := implicitRetainFrom r in
  if err then {| ef_Retain := ir_retain imp; ef_Raw := ir_raw imp; ef_Source := RetainUnreadable; ef_RecordedAt := 0 |}
  else if ir_recorded imp then
    {| ef_Retain := ir_retain imp; ef_Raw := ir_raw imp; ef_Source := RetainRecorded; ef_RecordedAt := ir_recordedAt imp |}
  else {| ef_Retain := ir_retain imp; ef_Raw := ir_raw imp; ef_Source := RetainLegacy; ef_RecordedAt := 0 |}.

(** [Settings]. *)
Record Settings := {
  st_Enabled : bool;
  st_Retain : Z;
  st_RetainRaw : string;
  st_Interval : Z;
  st_AddFuture : Z;
  st_Explicit : bool;
}.

(** [DropWindow]. *)
Definition DropWindow (s : Settings) (effective : Effective) : Z * bool :=
  if negb (st_Enabled s) then (0, false)
  else if st_Explicit s then (st_Retain s, 0 <? st_Retain s)
  else if bool_decide (ef_Source effective = RetainUnreadable) || (ef_Retain effective <=? 0) then (0, false)
  else (ef_Retain effective, true).

(** [futureHeadroom]. *)
Definition futureHeadroom (s : Settings) : Z :=
  Z.max (st_AddFuture s) (Z.quot (wrap64 (st_Interval s + hour - 1)) hour).

(** The loop of [guardTrips]: the oldest named hour, or the zero time. *)
Definition oldestPartitionDate (partitions : list partitionInfo) : Z :=
  fold_left (λ oldest p,
    match PartitionDate (Name p) with
    | Some d => if (oldest =? 0) || (d <? oldest) then d else oldest
    | None => oldest
    end) partitions 0.

(** [guardTrips]. *)
Definition guardTrips (partitions : list partitionInfo) (retain now : Z) : bool * Z :=
  let oldest := oldestPartitionDate partitions in
  if oldest =? 0 then (false, 0) else (wrap64 (2 * retain) <? time_Sub now oldest, oldest).

(** [Guard]. *)
Record Guard := { g_Blocked : bool; g_Oldest : Z; g_HistoryPredatesRecord : bool }.

(** [guardBlocks]. *)
Definition guardBlocks (partitions : list partitionInfo) (retain : Z) (recorded : bool)
    (recordedAt now : Z) : Guard :=
  if retain <=? 0 then {| g_Blocked := false; g_Oldest := 0; g_HistoryPredatesRecord := false |}
  else
    let '(trips, oldest) := guardTrips partitions retain now in
    let exempt := recorded && negb (oldest =? 0) && negb (oldest <? recordedAt) in
    {| g_Blocked := trips && negb exempt; g_Oldest := oldest;
       g_HistoryPredatesRecord := trips && negb exempt && recorded |}.

(** [Window]; the note is the source's sentence, kept as the source. *)
Record Window := { wi_Retain : Z; wi_Note : option RetainSource; wi_Guard : Guard }.

Definition noGuard : Guard := {| g_Blocked := false; g_Oldest := 0; g_HistoryPredatesRecord := false |}.

(** [ResolveWindow] with [UpgradeGuard]: the partitions are [None] when their
    listing failed. *)
Definition ResolveWindow (r : initialRetain) (partitions : option (list partitionInfo)) (now : Z)
    (s : Settings) : Window :=
  if negb (st_Enabled s) then {| wi_Retain := 0; wi_Note := None; wi_Guard := noGuard |}
  else if st_Explicit s then {| wi_Retain := st_Retain s; wi_Note := None; wi_Guard := noGuard |}
  else
    let e := ResolveEffective r in
    {| wi_Retain := ef_Retain e; wi_Note := Some (ef_Source e);
       wi_Guard :=
         match partitions with
         | None => noGuard
         | Some ps => guardBlocks ps (ef_Retain e) (bool_decide (ef_Source e = RetainRecorded)) (ef_RecordedAt e) now
         end |}.

Example hour_samples :
  let t := days_from_civil 2026 7 14 * day + 9 * hour in
  PartitionName t = "p_2026071409" ∧ PartitionDate "p_2026071409" = Some t ∧
  HiveArchivePath "/a" "x" "p_2026071409" = Some "/a/bintrail_id=x/event_date=2026-07-14/event_hour=09/events.parquet" ∧
  BuildS3Key "/a" "/a/b/c" "pre/" = Some "pre/b/c" ∧ ParseS3URL "s3://bk/pre/x" = Some ("bk", "pre/x") ∧
  ParseRetain "48h" = Some (48 * hour) ∧ ParseRetain "384307168202282326d" = None ∧
  ParseRetain LegacyRetain = Some legacyRetainDur ∧ ParseRetain "5m" = None.
Proof. vm_compute. done. Qed.

(** ** The calendar

    [civil] inverts [days_from_civil]. The day of an era gives its year because
    the quotient grows with the day and is right at both ends of each year; the
    400 years and the 366 days of one are checked by evaluation. *)

(** Checks [f] on 0, 1, ..., [n] - 1. *)
Definition check_below (f : Z → bool) (n : N) : Z * bool :=
  N.iter n (λ '(d, ok), (d + 1, ok && f d)) (0, true).

Lemma check_below_spec f n d : (check_below f n).2 = true → 0 ≤ d < Z.of_N n → f d = true.
Proof.
  assert ((check_below f n).1 = Z.of_N n ∧ ((check_below f n).2 = true → ∀ d, 0 ≤ d < Z.of_N n → f d = true)) as [_ H];
    [|auto].
  unfold check_below. induction n as [|n IH] using N.peano_ind; [split; [done|lia]|].
  rewrite N.iter_succ. destruct (N.iter n _ _) as [e ok]. simpl in *. destruct IH as [-> IH].
  split; [lia|]. intros [Hok Hf]%andb_true_iff d' Hd'. destruct (decide (d' = Z.of_N n)) as [->|]; [done|].
  apply IH; [done|lia].
Qed.

(** The first day of a year of the era, years counted from March. *)
Definition year_start (y : Z) : Z := 365 * y + y / 4 - y / 100 + y / 400.

Definition era_shift (doe : Z) : Z := doe - doe / 1460 + doe / 36524 - doe / 146096.

Definition year_ok (y : Z) : bool :=
  (era_shift (year_start y) / 365 =? y) && (era_shift (year_start (y + 1) - 1) / 365 =? y)
  && (year_start (y + 1) - year_start y =? (if is_leap (y + 1) then 366 else 365))
  && (0 <=? year_start y) && (year_start (y + 1) <=? 146097).

Definition yday_ok (doy : Z) : bool :=
  let mp := (5 * doy + 2) / 153 in
  let dd := doy - (153 * mp + 2) / 5 + 1 in
  let m := if mp <? 10 then mp + 3 else mp - 9 in
  ((153 * ((m + 9) mod 12) + 2) / 5 + dd - 1 =? doy) && (1 <=? m) && (m <=? 12) && (1 <=? dd)
  && (if doy =? 365 then (m =? 2) && (dd =? 29) else dd <=? days_in m 1)
  && Bool.eqb (m <=? 2) (306 <=? doy).

Lemma years_ok : (check_below year_ok 400).2 = true.
Proof. vm_compute. reflexivity. Qed.

Lemma ydays_ok : (check_below yday_ok 366).2 = true.
Proof. vm_compute. reflexivity. Qed.

Lemma era_shift_mono a b : 0 ≤ a → a ≤ b → b < 146097 → era_shift a ≤ era_shift b.
Proof.
  unfold era_shift. intros. assert (a = b ∨ a < b) as [->|] by lia; [lia|].
  assert (b / 1460 ≤ a / 1460 + (b - a)).
  { rewrite <-Z.div_add by done. apply Z.div_le_mono; lia. }
  assert (a / 36524 ≤ b / 36524) by (apply Z.div_le_mono; lia).
  assert (a / 146096 = 0) as -> by (apply Z.div_small; lia).
  assert (b = 146096 ∨ b < 146096) as [->|] by lia.
  - assert (a / 36524 ≤ 3) by (apply Z.lt_succ_r, Z.div_lt_upper_bound; lia). change (146096 / 36524) with 4. change (146096 / 146096) with 1. lia.
  - rewrite (Z.div_small b 146096) by lia. lia.
Qed.

Lemma year_of_day doe : 0 ≤ doe < 146097 →
  let y := era_shift doe / 365 in 0 ≤ y < 400 ∧ year_start y ≤ doe < year_start (y + 1).
Proof.
  intros Hd y.
  assert (0 ≤ y < 400) as Hy.
  { subst y. clear -Hd. pose proof (era_shift_mono 0 doe ltac:(lia) ltac:(lia) ltac:(lia)) as H0.
    pose proof (era_shift_mono doe 146096 ltac:(lia) ltac:(lia) ltac:(lia)) as H1.
    change (era_shift 0) with 0 in H0. change (era_shift 146096) with 145999 in H1.
    split; [apply Z.div_pos; lia|apply Z.div_lt_upper_bound; lia]. }
  split; [done|].
  assert (∀ z, 0 ≤ z < 400 → era_shift (year_start z) / 365 = z ∧ era_shift (year_start (z + 1) - 1) / 365 = z ∧
    0 ≤ year_start z ∧ year_start (z + 1) ≤ 146097) as Hok.
  { intros z Hz. pose proof (check_below_spec year_ok 400 z years_ok Hz) as H. unfold year_ok in H.
    rewrite !andb_true_iff in H. destruct H as [[[[?%Z.eqb_eq ?%Z.eqb_eq] _] ?%Z.leb_le] ?%Z.leb_le]. auto. }
  split.
  - destruct (Z.leb_spec (year_start y) doe) as [|Hlt]; [done|exfalso].
    assert (1 ≤ y). { assert (y = 0 ∨ 1 ≤ y) as [E|] by lia; [|done]. rewrite E in Hlt. change (year_start 0) with 0 in Hlt. lia. }
    destruct (Hok y) as (_ & _ & _ & Hb); [done|]. destruct (Hok (y - 1)) as (_ & He & _ & Hb'); [lia|].
    rewrite Z.sub_add in He, Hb'.
    pose proof (era_shift_mono doe (year_start y - 1) ltac:(lia) ltac:(lia) ltac:(lia)) as Hm.
    apply (Z.div_le_mono _ _ 365) in Hm; [|lia]. fold y in Hm. lia.
  - destruct (Z.ltb_spec doe (year_start (y + 1))) as [|Hge]; [done|exfalso].
    assert (y = 399 ∨ y < 399) as [E|] by lia; [rewrite E in Hge; change (year_start (399 + 1)) with 146097 in Hge; lia|].
    destruct (Hok (y + 1)) as (He & _ & H0 & _); [lia|].
    pose proof (era_shift_mono (year_start (y + 1)) doe ltac:(lia) ltac:(lia) ltac:(lia)) as Hm.
    apply (Z.div_le_mono _ _ 365) in Hm; [|lia]. fold y in Hm. lia.
Qed.

(** The days of the years 0 to 9999. *)
Definition in_years (d : Z) : Prop := - 366 ≤ d < 3652059.

Lemma days_in_era m y era : days_in m (y + era * 400) = days_in m y.
Proof.
  unfold days_in, is_leap. replace (y + era * 400) with (y + (era * 100) * 4) at 1 by lia.
  rewrite Z.mod_add by done. replace (y + era * 400) with (y + (era * 4) * 100) at 1 by lia.
  rewrite Z.mod_add by done. by rewrite Z.mod_add by done.
Qed.

Lemma days_in_not_leap m y : days_in m 1 ≤ days_in m y.
Proof. unfold days_in. change (is_leap 1) with false. repeat case_match; lia. Qed.

Lemma civil_spec d y m dd : civil d = (y, m, dd) →
  days_from_civil y m dd = d ∧ 1 ≤ m ≤ 12 ∧ 1 ≤ dd ≤ days_in m y ∧ (in_years d → 0 ≤ y ≤ 9999).
Proof.
  unfold civil. intros Hc. pose proof (Z.mod_pos_bound (d + 306) 146097 ltac:(lia)) as Hb.
  pose proof (Z.div_mod (d + 306) 146097 ltac:(lia)) as Hd.
  destruct (year_of_day _ Hb) as [Hy Hs]. unfold era_shift in Hy, Hs.
  set (doe := (d + 306) mod 146097) in *. set (era := (d + 306) / 146097) in *.
  set (yoe := (doe - doe / 1460 + doe / 36524 - doe / 146096) / 365) in *.
  set (doy := doe - (365 * yoe + yoe / 4 - yoe / 100)) in *.
  pose proof (check_below_spec year_ok 400 yoe years_ok Hy) as Hlen. unfold year_ok in Hlen.
  rewrite !andb_true_iff, !Z.eqb_eq in Hlen. destruct Hlen as [[[_ Hlen] _] _].
  assert (year_start yoe = doe - doy) as E.
  { unfold year_start, doy. rewrite (Z.div_small yoe 400) by lia. lia. }
  assert (0 ≤ doy < 366) as Hdoy by (destruct (is_leap (yoe + 1)); lia).
  pose proof (check_below_spec yday_ok 366 doy ydays_ok Hdoy) as Hok. unfold yday_ok in Hok.
  injection Hc as Hy' Hm Hdd. rewrite Hdd, Hm in Hok. rewrite Hm in Hy'.
  rewrite !andb_true_iff, Z.eqb_eq, !Z.leb_le in Hok. destruct Hok as [[[[[Hday Hm1] Hm2] Hd1] Hd2] Hlate%eqb_prop].
  assert (dd ≤ days_in m (yoe + (if m <=? 2 then 1 else 0))) as Hdd'.
  { destruct (Z.eqb_spec doy 365) as [E'|]; [|apply Z.leb_le in Hd2; pose proof (days_in_not_leap m (yoe + (if m <=? 2 then 1 else 0))); lia].
    apply andb_true_iff in Hd2 as [->%Z.eqb_eq ->%Z.eqb_eq]. simpl. unfold days_in. simpl.
    destruct (is_leap (yoe + 1)); lia. }
  set (late := if m <=? 2 then 1 else 0) in *.
  assert (late = 1 ∧ 306 ≤ doy ∨ late = 0 ∧ doy < 306) as Hl.
  { unfold late. rewrite Hlate. destruct (Z.leb_spec 306 doy); auto. }
  subst y. split_and!; [|done..| |].
  - unfold days_from_civil. fold late.
    assert ((if m <=? 2 then yoe + era * 400 + late - 1 else yoe + era * 400 + late) = yoe + era * 400) as ->
      by (unfold late; destruct (m <=? 2); lia).
    rewrite Z.div_add, Z.mod_add by done. rewrite (Z.div_small yoe 400), (Z.mod_small yoe) by lia.
    rewrite Z.add_0_l. unfold doy in Hday. lia.
  - replace (yoe + era * 400 + late) with (yoe + late + era * 400) by lia. by rewrite days_in_era.
  - unfold in_years. intros Hr. assert (-1 ≤ era ≤ 24) by lia.
    assert (yoe = 399 ∨ yoe < 399) as [H399|] by lia.
    + rewrite H399 in E. change (year_start 399) with 145731 in E. lia.
    + assert (yoe = 0 ∨ 0 < yoe) as [Hz|] by lia; [rewrite Hz in E; change (year_start 0) with 0 in E|].
      * assert (era = -1 ∨ 0 ≤ era) as [->|] by lia; lia.
      * assert (era = -1 ∨ 0 ≤ era) as [->|] by lia; [|lia].
        assert (yoe < 399 → year_start (yoe + 1) ≤ 145731); [|lia].
        unfold year_start. intros. pose proof (Z.div_le_mono (yoe + 1) 399 4). pose proof (Z.div_pos (yoe + 1) 100).
        rewrite (Z.div_small (yoe + 1) 400) by lia. change (399 / 4) with 99 in *.
        assert (yoe + 1 = 399 ∨ yoe + 1 < 399) as [->|] by lia; [vm_compute; congruence|]. lia.
Qed.

Lemma days_from_civil_in_years y m dd :
  0 ≤ y ≤ 9999 → 1 ≤ m ≤ 12 → 1 ≤ dd ≤ days_in m y → in_years (days_from_civil y m dd).
Proof.
  intros Hy Hm Hd. unfold in_years, days_from_civil.
  assert (dd ≤ 31) by (unfold days_in in Hd; repeat case_match; lia).
  set (y' := if m <=? 2 then y - 1 else y).
  assert (m = 1 ∨ m = 2 ∨ 3 ≤ m ∧ y' = y) as Hc.
  { unfold y'. destruct (Z.leb_spec m 2); [lia|]. right. right. lia. }
  pose proof (Z.div_mod y' 400 ltac:(lia)). pose proof (Z.mod_pos_bound y' 400 ltac:(lia)).
  set (yoe := y' mod 400) in *. set (era := y' / 400) in *.
  pose proof (Z.div_pos yoe 4 ltac:(lia) ltac:(lia)). pose proof (Z.div_pos yoe 100 ltac:(lia) ltac:(lia)).
  assert (yoe / 4 ≤ 99) by (apply Z.lt_succ_r, Z.div_lt_upper_bound; lia).
  assert (yoe / 100 ≤ 3) by (apply Z.lt_succ_r, Z.div_lt_upper_bound; lia).
  assert (yoe / 100 ≤ yoe / 4) by (apply Z.div_le_compat_l; lia).
  assert (yoe = 399 → yoe / 4 = 99 ∧ yoe / 100 = 3) as H399 by (by intros ->).
  assert (yoe < 399 → yoe * 365 + yoe / 4 - yoe / 100 ≤ 398 * 365 + 99) as Hlt by lia.
  set (a := yoe / 4) in *. set (b := yoe / 100) in *.
  set (q := (153 * ((m + 9) mod 12) + 2) / 5).
  assert (y' ≤ 9998 ∧ -1 ≤ y' ∧ 306 ≤ q ≤ 337 ∨ 0 ≤ y' ≤ 9999 ∧ 0 ≤ q ∧ q + dd ≤ 306) as [?|?].
  { assert (m = 1 ∨ m = 2 ∨ m = 3 ∨ m = 4 ∨ m = 5 ∨ m = 6 ∨ m = 7 ∨ m = 8 ∨ m = 9 ∨ m = 10 ∨ m = 11 ∨ m = 12)
      as Hm' by lia.
    unfold q, days_in in *; clearbody yoe era; subst y'; clear - Hm' Hd Hy.
    destruct Hm' as [->|[->|[->|[->|[->|[->|[->|[->|[->|[->|[->| ->]]]]]]]]]]]; cbn -[Z.mul Z.add Z.div] in *;
      match goal with |- context [(153 * ?e + 2) / 5] =>
        let v := eval vm_compute in ((153 * e + 2) / 5) in change ((153 * e + 2) / 5) with v end;
      first [left; split_and!; lia | right; split_and!; lia | destruct (is_leap y); left; split_and!; lia]. }
  all: destruct Hd as [Hd1 _]; clearbody yoe era q y' a b; clear Hm Hy Hc.
  all: assert (era ≤ 24 ∧ -1 ≤ era) by lia; assert (era = -1 → yoe = 399) by lia.
  all: assert (yoe = 399 ∨ yoe < 399) as [He|He] by lia; [destruct (H399 He)|specialize (Hlt He)]; subst; lia.
Qed.

(** ** Names and paths of hours *)

(** The hours a partition name can stand for. *)
Definition named_hour (t : Z) : Prop := in_years (t / day) ∧ t mod hour = 0.

Definition pad4_ok (y : Z) : bool :=
  let s := padZ 4 y in
  (String.length s =? 4)%nat && forallb is_digit (String.list_ascii_of_string s)
  && bool_decide (digits_val s 0 = Some y).

Definition pad2_ok (m : Z) : bool :=
  match padZ 2 m with
  | String a (String b "") =>
      is_digit a && is_digit b && (digit_val a * 10 + digit_val b =? m)
  | _ => false
  end.

Lemma pads4_ok : (check_below pad4_ok 10000).2 = true.
Proof. vm_compute. reflexivity. Qed.

Lemma pads2_ok : (check_below pad2_ok 100).2 = true.
Proof. vm_compute. reflexivity. Qed.

Lemma padZ4 y : 0 ≤ y ≤ 9999 →
  String.length (padZ 4 y) = 4%nat ∧ forallb is_digit (String.list_ascii_of_string (padZ 4 y)) = true ∧
  digits_val (padZ 4 y) 0 = Some y.
Proof.
  intros Hy. pose proof (check_below_spec pad4_ok 10000 y pads4_ok ltac:(lia)) as H. unfold pad4_ok in H.
  rewrite !andb_true_iff, Nat.eqb_eq, bool_decide_eq_true in H. tauto.
Qed.

Lemma padZ2 m : 0 ≤ m ≤ 99 → ∃ a b, padZ 2 m = String a (String b "") ∧ is_digit a = true ∧ is_digit b = true ∧
  digit_val a * 10 + digit_val b = m.
Proof.
  intros Hm. pose proof (check_below_spec pad2_ok 100 m pads2_ok ltac:(lia)) as H. unfold pad2_ok in H.
  destruct (padZ 2 m) as [|a [|b [|]]]; try done. rewrite !andb_true_iff, Z.eqb_eq in H. exists a, b. tauto.
Qed.

Lemma getnum_padZ2 m fixed s : 0 ≤ m ≤ 99 → getnum (padZ 2 m +:+ s) fixed = Some (m, s).
Proof. intros (a & b & -> & Ha & Hb & Hv)%padZ2. simpl. by rewrite Ha, Hb, Hv. Qed.

Lemma padZ2_length m : 0 ≤ m ≤ 99 → String.length (padZ 2 m) = 2%nat.
Proof. by intros (a & b & -> & _)%padZ2. Qed.

Lemma hour_of_day_range t : 0 ≤ hour_of_day t < 24.
Proof.
  unfold hour_of_day. pose proof (Z.mod_pos_bound t day ltac:(done)).
  split; [apply Z.div_pos; [lia|done]|apply Z.div_lt_upper_bound; [done|]]. change (hour * 24) with day. lia.
Qed.

Lemma hour_split t : t mod hour = 0 → t = t / day * day + hour_of_day t * hour.
Proof.
  intros Ht. unfold hour_of_day. pose proof (Z.div_mod t day ltac:(done)).
  assert (t mod day mod hour = 0) as Hm.
  { change day with (hour * 24). rewrite Z.rem_mul_r by done.
    rewrite (Z.mul_comm hour), Z.mod_add by done. by rewrite Z.mod_mod. }
  pose proof (Z.div_mod (t mod day) hour ltac:(done)). lia.
Qed.

(** A partition's name is read back as its hour. *)
Lemma PartitionDate_Name t : named_hour t → PartitionDate (PartitionName t) = Some t.
Proof.
  intros [Hd Ht]. unfold PartitionName. destruct (civil (t / day)) as [[y m] d] eqn:Hc.
  apply civil_spec in Hc as (He & Hm & Hdd & Hy). specialize (Hy Hd).
  assert (d ≤ 31) by (unfold days_in in Hdd; repeat case_match; lia). pose proof (hour_of_day_range t).
  destruct (padZ4 y Hy) as (Hl & Hf & Hv).
  unfold PartitionDate, ParsePartitionName.
  assert ((String.length ("p_" +:+ padZ 4 y +:+ padZ 2 m +:+ padZ 2 d +:+ padZ 2 (hour_of_day t)) =? 12)%nat = true) as ->.
  { rewrite !str_length_app, Hl, !padZ2_length by lia. done. }
  assert (has_prefix ("p_" +:+ padZ 4 y +:+ padZ 2 m +:+ padZ 2 d +:+ padZ 2 (hour_of_day t)) "p_" = true) as ->
    by (apply bool_decide_eq_true; simpl; by destruct (padZ 4 y)).
  cbn [negb orb]. change (str_drop 2 ("p_" +:+ ?s)) with s.
  set (rest := padZ 2 m +:+ padZ 2 d +:+ padZ 2 (hour_of_day t)).
  pose proof (str_take_app (padZ 4 y) rest) as Ht4. pose proof (str_drop_app (padZ 4 y) rest) as Hd4.
  rewrite Hl in Ht4, Hd4. rewrite Ht4, Hd4, Hf, Hv. unfold rest. cbn [mbind option_bind].
  rewrite getnum_padZ2 by lia. cbn [mbind option_bind].
  rewrite getnum_padZ2 by lia. cbn [mbind option_bind].
  pose proof (getnum_padZ2 (hour_of_day t) false "" ltac:(lia)) as Hg. rewrite str_app_nil_r in Hg.
  rewrite Hg. cbn [mbind option_bind].
  rewrite (bool_decide_eq_true_2 ("" = "")) by done. cbn [andb].
  repeat match goal with |- context [?a <=? ?b] => rewrite (proj2 (Z.leb_le a b)) by lia end.
  rewrite (proj2 (Z.ltb_lt _ _)) by lia. cbn [andb]. f_equal. rewrite He. symmetry. by apply hour_split.
Qed.

(** What a name is read as is an hour of the years 0 to 9999. *)
Lemma digits_val_range s acc v : digits_val s acc = Some v → 0 ≤ acc →
  0 ≤ v < (acc + 1) * 10 ^ Z.of_nat (String.length s).
Proof.
  revert acc. induction s as [|c s IH]; simpl; intros acc Hs Ha; [simplify_eq; lia|].
  destruct (is_digit c) eqn:Hc; [|done]. unfold is_digit in Hc. apply andb_true_iff in Hc as [Hc1%N.leb_le Hc2%N.leb_le].
  apply IH in Hs; [|lia]. split; [lia|]. eapply Z.lt_le_trans; [apply Hs|].
  rewrite Nat2Z.inj_succ, Z.pow_succ_r by lia. rewrite Z.mul_assoc. apply Z.mul_le_mono_nonneg_r; [lia|].
  change (byte_val c <= 57)%N in Hc2. lia.
Qed.

Lemma getnum_range s fixed v s' : getnum s fixed = Some (v, s') → 0 ≤ v.
Proof.
  unfold getnum, digit_val. destruct s as [|a [|b s]]; intros; repeat case_match; simplify_eq; unfold is_digit in *;
    repeat match goal with H : (_ && _)%bool = true |- _ => apply andb_true_iff in H as [?%N.leb_le ?%N.leb_le] end;
    simpl in *; lia.
Qed.

Lemma PartitionDate_named name t : PartitionDate name = Some t → named_hour t.
Proof.
  unfold PartitionDate, ParsePartitionName. destruct (_ || _) eqn:Hn; [done|].
  apply orb_false_iff in Hn as [Hl _]. apply negb_false_iff, Nat.eqb_eq in Hl. intros H.
  destruct (forallb _ _); [|done].
  destruct (digits_val _ 0) as [y|] eqn:Hy; [|done]. cbn [mbind option_bind] in H.
  destruct (getnum _ true) as [[m s1]|]; [|done]. cbn [mbind option_bind] in H.
  destruct (getnum s1 true) as [[d s2]|]; [|done]. cbn [mbind option_bind] in H.
  destruct (getnum s2 false) as [[h s3]|] eqn:Hh; [|done]. cbn [mbind option_bind] in H.
  apply getnum_range in Hh. case_match eqn:Hg; [|done]. simplify_eq.
  rewrite !andb_true_iff, !Z.leb_le, Z.ltb_lt in Hg. destruct Hg as [[[[[_ ?] ?] ?] ?] ?].
  apply digits_val_range in Hy; [|lia].
  assert (String.length (str_take 4 (str_drop 2 name)) = 4%nat) as Hl4.
  { destruct name as [|? [|? [|? [|? [|? [|? ?]]]]]]; simpl in *; try done. }
  rewrite Hl4 in Hy.
  assert ((days_from_civil y m d * day + h * hour) / day = days_from_civil y m d) as Hdiv.
  { rewrite Z.add_comm, Z.div_add by done. rewrite Z.div_small; [done|]. unfold day, hour, second. lia. }
  split.
  - rewrite Hdiv. apply days_from_civil_in_years; lia.
  - replace (days_from_civil y m d * day + h * hour) with ((days_from_civil y m d * 24 + h) * hour)
      by (unfold day; lia). by apply Z.mod_mul.
Qed.

Lemma str_app_inj_len s s' t t' :
  String.length s = String.length s' → s +:+ t = s' +:+ t' → s = s' ∧ t = t'.
Proof.
  intros Hl H. assert (s = s') as <-; [|split; [done|by eapply str_app_inj_l]].
  rewrite <-(str_take_app s t), H, Hl. apply str_take_app.
Qed.

Lemma padZ4_inj y y' s s' : 0 ≤ y ≤ 9999 → 0 ≤ y' ≤ 9999 →
  padZ 4 y +:+ s = padZ 4 y' +:+ s' → y = y' ∧ s = s'.
Proof.
  intros (Hl & _ & Hv)%padZ4 (Hl' & _ & Hv')%padZ4 [E ->]%str_app_inj_len; [|congruence].
  rewrite E in Hv. naive_solver.
Qed.

Lemma padZ2_inj y y' s s' : 0 ≤ y ≤ 99 → 0 ≤ y' ≤ 99 →
  padZ 2 y +:+ s = padZ 2 y' +:+ s' → y = y' ∧ s = s'.
Proof. intros (a & b & -> & _ & _ & <-)%padZ2 (a' & b' & -> & _ & _ & <-)%padZ2. simpl. naive_solver. Qed.

(** The part of a path below the archive directory. *)
Definition hiveRel (bintrailID : string) (d : Z) : string :=
  "bintrail_id=" +:+ bintrailID +:+ "/event_date=" +:+ format_date d
    +:+ "/event_hour=" +:+ padZ 2 (hour_of_day d) +:+ "/events.parquet".

Lemma hiveRel_inj id t t' : named_hour t → named_hour t' → hiveRel id t = hiveRel id t' → t = t'.
Proof.
  intros [Hd Ht] [Hd' Ht'] H. unfold hiveRel in H.
  apply str_app_inj_l in H. apply str_app_inj_l in H. apply str_app_inj_l in H. unfold format_date in H.
  destruct (civil (t / day)) as [[y m] d] eqn:Hc, (civil (t' / day)) as [[y' m'] d'] eqn:Hc'.
  apply civil_spec in Hc as (He & Hm & Hdd & Hy), Hc' as (He' & Hm' & Hdd' & Hy'). specialize (Hy Hd). specialize (Hy' Hd').
  assert (d ≤ 31) by (unfold days_in in Hdd; repeat case_match; lia).
  assert (d' ≤ 31) by (unfold days_in in Hdd'; repeat case_match; lia).
  pose proof (hour_of_day_range t). pose proof (hour_of_day_range t').
  rewrite !str_app_assoc in H. apply padZ4_inj in H as [<- H]; [|lia..].
  apply str_app_inj_l, padZ2_inj in H as [<- H]; [|lia..].
  apply str_app_inj_l, padZ2_inj in H as [<- H]; [|lia..].
  apply str_app_inj_l, padZ2_inj in H as [Hh _]; [|lia..].
  rewrite (hour_split t), (hour_split t') by done. congruence.
Qed.

Lemma hivePathAt_rel dir id t : hivePathAt dir id t = (dir +:+ "/") +:+ hiveRel id t.
Proof. unfold hivePathAt, hiveRel. by rewrite !str_app_assoc. Qed.

Lemma hivePathAt_inj dir id t t' :
  named_hour t → named_hour t' → hivePathAt dir id t = hivePathAt dir id t' → t = t'.
Proof. rewrite !hivePathAt_rel. intros Ht Ht' H%str_app_inj_l. by eapply hiveRel_inj. Qed.

(** The key an archive is uploaded under. *)
Definition hiveKeyAt (prefix bintrailID : string) (d : Z) : string :=
  if bool_decide (prefix = "") then hiveRel bintrailID d
  else trim_suffix prefix "/" +:+ "/" +:+ hiveRel bintrailID d.

Lemma BuildS3Key_hive dir id prefix t : BuildS3Key dir (hivePathAt dir id t) prefix = Some (hiveKeyAt prefix id t).
Proof.
  unfold BuildS3Key, relPath. rewrite hivePathAt_rel.
  assert (has_prefix ((dir +:+ "/") +:+ hiveRel id t) (dir +:+ "/") = true) as ->
    by (apply bool_decide_eq_true; by rewrite str_take_app).
  assert (S (String.length dir) = String.length (dir +:+ "/")) as -> by (rewrite str_length_app; simpl; lia).
  by rewrite str_drop_app.
Qed.

Lemma hiveKeyAt_inj prefix id t t' :
  named_hour t → named_hour t' → hiveKeyAt prefix id t = hiveKeyAt prefix id t' → t = t'.
Proof.
  unfold hiveKeyAt. intros Ht Ht'. case_bool_decide; intros Hk; [by eapply hiveRel_inj|].
  apply str_app_inj_l, str_app_inj_l in Hk. by eapply hiveRel_inj.
Qed.

(** ** The latest and the oldest named hour *)

Definition dates (partitions : list partitionInfo) : list Z := omap (PartitionDate ∘ Name) partitions.

Lemma maxPartitionDate_go ps m :
  let r := fold_left (λ maxDate p,
    match PartitionDate (Name p) with Some d => if maxDate <? d then d else maxDate | None => maxDate end) ps m in
  m ≤ r ∧ (∀ d, d ∈ dates ps → d ≤ r) ∧ (r = m ∨ r ∈ dates ps).
Proof.
  revert m. induction ps as [|p ps IH]; intros m; [split_and!; [done|set_solver|by left]|].
  cbn [fold_left]. unfold dates. cbn [omap list_omap]. unfold compose in *. fold (dates ps).
  destruct (PartitionDate (Name p)) as [d|]; [|apply IH].
  destruct (IH (if m <? d then d else m)) as (Hm & Hall & Hin).
  set (r := fold_left _ ps _) in *. split_and!.
  - destruct (Z.ltb_spec m d); lia.
  - intros d' [->|Hd']%elem_of_cons; [destruct (Z.ltb_spec m d); lia|auto].
  - destruct (Z.ltb_spec m d); set_solver.
Qed.

Lemma maxPartitionDate_ge ps d : d ∈ dates ps → d ≤ maxPartitionDate ps.
Proof. apply maxPartitionDate_go. Qed.

Lemma maxPartitionDate_in ps : maxPartitionDate ps = 0 ∨ maxPartitionDate ps ∈ dates ps.
Proof. apply maxPartitionDate_go. Qed.

Lemma maxPartitionDate_nonneg ps : 0 ≤ maxPartitionDate ps.
Proof. apply (proj1 (maxPartitionDate_go ps 0)). Qed.

Lemma elem_of_dates ps d : d ∈ dates ps ↔ ∃ p, p ∈ ps ∧ PartitionDate (Name p) = Some d.
Proof. unfold dates. rewrite list_elem_of_omap. done. Qed.

(** ** Names past the year 9999 *)

Lemma civil_year_nonneg d y m dd : 0 ≤ d → civil d = (y, m, dd) → 0 ≤ y.
Proof.
  unfold civil. intros Hd0 Hc. pose proof (Z.mod_pos_bound (d + 306) 146097 ltac:(lia)) as Hb.
  destruct (year_of_day _ Hb) as [Hy _]. unfold era_shift in Hy.
  pose proof (Z.div_pos (d + 306) 146097 ltac:(lia) ltac:(lia)).
  injection Hc as Hy' _ _. rewrite <-Hy'. case_match; lia.
Qed.

(** A name made from an hour is read as that hour or not at all. *)
Lemma PartitionDate_Name_only t d :
  0 ≤ t → t mod hour = 0 → PartitionDate (PartitionName t) = Some d → d = t.
Proof.
  intros Ht0 Ht H. destruct (decide (in_years (t / day))) as [Hd|Hd].
  { rewrite PartitionDate_Name in H by done. congruence. }
  exfalso. assert (0 ≤ t / day) by (by apply Z.div_pos).
  unfold PartitionName in H. destruct (civil (t / day)) as [[y m] dd] eqn:Hc.
  pose proof (civil_year_nonneg _ _ _ _ ltac:(done) Hc).
  apply civil_spec in Hc as (He & Hm & Hdd & _).
  assert (dd ≤ 31) by (unfold days_in in Hdd; repeat case_match; lia). pose proof (hour_of_day_range t).
  assert (10000 ≤ y).
  { destruct (Z.le_gt_cases 10000 y); [done|]. exfalso. apply Hd. rewrite <-He.
    apply days_from_civil_in_years; lia. }
  assert (5 ≤ String.length (padZ 4 y))%nat.
  { unfold padZ. rewrite pad_length. pose proof (ndigits_bound (Z.to_N y)).
    destruct (decide (5 ≤ ndigits (Z.to_N y))%nat); [lia|].
    assert (10 ^ N.of_nat (ndigits (Z.to_N y)) ≤ 10 ^ 4)%N by (apply N.pow_le_mono_r; lia).
    change (10 ^ 4)%N with 10000%N in *. lia. }
  unfold PartitionDate, ParsePartitionName in H.
  assert ((String.length ("p_" +:+ padZ 4 y +:+ padZ 2 m +:+ padZ 2 dd +:+ padZ 2 (hour_of_day t)) =? 12)%nat = false) as Hl.
  { apply Nat.eqb_neq. rewrite !str_length_app, !padZ2_length by lia. simpl. lia. }
  rewrite Hl in H. done.
Qed.
