(* ===== verification/RotateWorld.v ===== *)
(** * What a rotation works on

    The index server's tables, the local disk and the bucket a rotation reads
    and changes, and the calls that do it, one definition per statement or
    helper of [internal/rotation/rotation.go], [ddl_lock.go],
    [internal/indexer/partition_history.go] and [internal/archive/archive.go].

    Every call that leaves the process takes one step of a script: before the
    call time passes and capture inserts rows; the call is then done, refused,
    done without an answer, or the process dies. The script is an argument, so
    a theorem about a run holds for every order of failures, crashes and
    insertions. Reads of the local disk ([os.Stat], a Parquet footer) are not
    calls: they answer what is there.

    [w_all], [w_counted] and [w_late] are ghosts, read by no operation: the
    rows the index ever held, how many rows the last count of a partition saw,
    and the rows dropped that the last count before the drop had not seen. *)
From S2P Require Import Prelude GoStrings GoTime GoText PartitionHour.

Open Scope Z_scope.

(** ** The data *)

(** A row of [binlog_events]: its id, its timestamp, the rest of its columns. *)
Record erow := { e_id : Z; e_ts : Z; e_rest : string }.

#[export] Instance erow_eq_dec : EqDecision erow.
Proof. solve_decision. Defined.

(** A RANGE partition of [binlog_events] on the second of [event_timestamp];
    no bound is [MAXVALUE]. *)
Record partition := { p_Name : string; p_bound : option Z; p_rows : list erow }.

(** A row of [archive_state], without the columns no step reads (the file's
    size, its column set, its newest change, [archived_at]). *)
Record arow := {
  ar_partition : string;
  ar_id : option string;
  ar_local_path : string;
  ar_row_count : option Z;
  ar_s3_bucket : option string;
  ar_s3_key : option string;
  ar_s3_uploaded_at : option Z;
  ar_min_event_ts : option Z;
  ar_max_event_ts : option Z;
}.

(** A file: a complete Parquet file of some rows, one with no valid footer, or
    an empty one. *)
Inductive pfile := Whole (rows : list erow) | Torn | Zero.

Record world := {
  w_now : Z;
  w_parts : list partition;
  w_archive : list arow;
  w_files : gmap string pfile;
  w_s3 : gmap (string * string) pfile;
  w_history : option (option Z);
  w_policy : option (string * Z);
  w_all : list erow;
  w_counted : gmap string nat;
  w_late : list erow;
}.

(** ** Insertions

    A row goes to the first partition whose bound is above its timestamp. *)

Definition below (bound : option Z) (ts : Z) : bool :=
  match bound with None => true | Some b => ts <? b end.

Definition add_row (p : partition) (e : erow) : partition :=
  {| p_Name := p_Name p; p_bound := p_bound p; p_rows := p_rows p ++ [e] |}.

(** None: no partition takes it, and the insert fails. *)
Fixpoint place (ps : list partition) (e : erow) : option (list partition) :=
  match ps with
  | [] => None
  | p :: ps' => if below (p_bound p) (e_ts e) then Some (add_row p e :: ps') else cons p <$> place ps' e
  end.

Definition insert_row (w : world) (e : erow) : world :=
  match place (w_parts w) e with
  | None => w
  | Some ps =>
      {| w_now := w_now w; w_parts := ps; w_archive := w_archive w; w_files := w_files w; w_s3 := w_s3 w;
         w_history := w_history w; w_policy := w_policy w; w_all := w_all w ++ [e];
         w_counted := w_counted w; w_late := w_late w |}
  end.

Definition set_now (t : Z) (w : world) : world :=
  {| w_now := t; w_parts := w_parts w; w_archive := w_archive w; w_files := w_files w; w_s3 := w_s3 w;
     w_history := w_history w; w_policy := w_policy w; w_all := w_all w;
     w_counted := w_counted w; w_late := w_late w |}.

(** ** Calls *)

(** How a call fails: MySQL's 1205 and 1146, the context ended, anything else. *)
Inductive callErr := LockWait | NoTable | Ended | Failed.

#[export] Instance callErr_eq_dec : EqDecision callErr.
Proof. solve_decision. Defined.

Inductive answer := Done | Refused (e : callErr) | Unanswered (e : callErr) | Dies.

(** One step of the script: how long passes, what capture inserts, the answer. *)
Record step := { s_wait : nat; s_rows : list erow; s_answer : answer }.

Definition quiet : step := {| s_wait := 0; s_rows := []; s_answer := Done |}.

Definition arrive (s : step) (w : world) : world :=
  fold_left insert_row (s_rows s) (set_now (w_now w + Z.of_nat (s_wait s)) w).

(** A run: the world and the rest of the script. *)
Record sys := { y_world : world; y_script : list step }.

(** A function that may return, fail, or die with the process. *)
Inductive res (E A : Type) := Ret (a : A) | Raise (e : E) | Crash.
Arguments Ret {E A} a.
Arguments Raise {E A} e.
Arguments Crash {E A}.

Definition M (E A : Type) : Type := sys → res E A * sys.

#[export] Instance M_ret E : MRet (M E) := λ _ a y, (Ret a, y).
#[export] Instance M_bind E : MBind (M E) := λ _ _ k m y,
  match m y with
  | (Ret a, y') => k a y'
  | (Raise e, y') => (Raise e, y')
  | (Crash, y') => (Crash, y')
  end.
Definition raise {E A} (e : E) : M E A := λ y, (Raise e, y).

(** The world at hand: the clock, and what the local disk holds. *)
Definition look {E A} (f : world → A) : M E A := λ y, (Ret (f (y_world y)), y).

(** One call: [f] is what the other side does when it takes it. *)
Definition call {E A} (f : world → (A + callErr) * world) : M E (A + callErr) := λ y,
  let s := match y_script y with [] => quiet | s :: _ => s end in
  let script := tail (y_script y) in
  let w := arrive s (y_world y) in
  match s_answer s with
  | Done => let '(r, w') := f w in (Ret r, {| y_world := w'; y_script := script |})
  | Refused e => (Ret (inr e), {| y_world := w; y_script := script |})
  | Unanswered e => let '(_, w') := f w in (Ret (inr e), {| y_world := w'; y_script := script |})
  | Dies => (Crash, {| y_world := w; y_script := script |})
  end.

(** A call whose error is raised, tagged. *)
Definition or_raise {E A} (m : M E (A + callErr)) (tag : callErr → E) : M E A :=
  r ← m; match r with inl a => mret a | inr e => raise (tag e) end.

(** A call that changes nothing here: a connection, a setting, a migration, the
    sidecar. *)
Definition touch {E} : M E (unit + callErr) := call (λ w, (inl (), w)).

(** ** Parts of the world *)

Definition set_parts (ps : list partition) (w : world) : world :=
  {| w_now := w_now w; w_parts := ps; w_archive := w_archive w; w_files := w_files w; w_s3 := w_s3 w;
     w_history := w_history w; w_policy := w_policy w; w_all := w_all w;
     w_counted := w_counted w; w_late := w_late w |}.

Definition set_archive (a : list arow) (w : world) : world :=
  {| w_now := w_now w; w_parts := w_parts w; w_archive := a; w_files := w_files w; w_s3 := w_s3 w;
     w_history := w_history w; w_policy := w_policy w; w_all := w_all w;
     w_counted := w_counted w; w_late := w_late w |}.

Definition set_files (f : gmap string pfile) (w : world) : world :=
  {| w_now := w_now w; w_parts := w_parts w; w_archive := w_archive w; w_files := f; w_s3 := w_s3 w;
     w_history := w_history w; w_policy := w_policy w; w_all := w_all w;
     w_counted := w_counted w; w_late := w_late w |}.

Definition set_s3 (o : gmap (string * string) pfile) (w : world) : world :=
  {| w_now := w_now w; w_parts := w_parts w; w_archive := w_archive w; w_files := w_files w; w_s3 := o;
     w_history := w_history w; w_policy := w_policy w; w_all := w_all w;
     w_counted := w_counted w; w_late := w_late w |}.

Definition set_history (h : option (option Z)) (w : world) : world :=
  {| w_now := w_now w; w_parts := w_parts w; w_archive := w_archive w; w_files := w_files w; w_s3 := w_s3 w;
     w_history := h; w_policy := w_policy w; w_all := w_all w;
     w_counted := w_counted w; w_late := w_late w |}.

Definition set_counted (c : gmap string nat) (w : world) : world :=
  {| w_now := w_now w; w_parts := w_parts w; w_archive := w_archive w; w_files := w_files w; w_s3 := w_s3 w;
     w_history := w_history w; w_policy := w_policy w; w_all := w_all w;
     w_counted := c; w_late := w_late w |}.

Definition add_late (l : list erow) (w : world) : world :=
  {| w_now := w_now w; w_parts := w_parts w; w_archive := w_archive w; w_files := w_files w; w_s3 := w_s3 w;
     w_history := w_history w; w_policy := w_policy w; w_all := w_all w;
     w_counted := w_counted w; w_late := w_late w ++ l |}.

(** The rows of a partition, when the table has it. *)
Definition part_rows (ps : list partition) (name : string) : option (list erow) :=
  p_rows <$> head (filter (λ p, p_Name p = name) ps).

(** ** Reading the index *)

(** [PARTITION_DESCRIPTION]: the second the partition is below, counted as
    [TO_SECONDS] does. *)
Definition describe (bound : option Z) : string :=
  match bound with None => "MAXVALUE" | Some b => decimal (b / second + 31622400) end.

Definition infos (ps : list partition) : list partitionInfo :=
  imap (λ i p, {| Name := p_Name p; Description := describe (p_bound p); Ordinal := Z.of_nat (S i) |}) ps.

(** [listPartitions]. *)
Definition listPartitions {E} : M E (list partitionInfo + callErr) := call (λ w, (inl (infos (w_parts w)), w)).

(** [partitionHasData]. *)
Definition partitionHasData {E} : M E (bool + callErr) := call (λ w,
  match part_rows (w_parts w) "p_future" with
  | None => (inr Failed, w)
  | Some rows => (inl (negb (bool_decide (rows = []))), w)
  end).

(** [indexHoldsNoEvents]. *)
Definition indexHoldsNoEvents {E} : M E (bool + callErr) := call (λ w,
  (inl (forallb (λ p, bool_decide (p_rows p = [])) (w_parts w)), w)).

(** [partitionRowCount]. *)
Definition partitionRowCount {E} (partition : string) : M E (Z + callErr) := call (λ w,
  match part_rows (w_parts w) partition with
  | None => (inr Failed, w)
  | Some rows => (inl (Z.of_nat (length rows)), set_counted (<[partition := length rows]> (w_counted w)) w)
  end).

(** [indexer.ReadInitialRetain]; an absent table reads as no record. *)
Definition ReadInitialRetain {E} : M E (initialRetain + callErr) :=
  r ← call (λ w, (inl (w_policy w), w));
  mret match r with
       | inl (Some (retain, recordedAt)) => inl (Recorded (trim_space retain) recordedAt)
       | inl None | inr NoTable => inl NoRecord
       | inr e => inr e
       end.

(** ** [archive_state] *)

(** [WHERE partition_name = ? AND bintrail_id = ?]. *)
Definition is_row (partition bintrailID : string) (r : arow) : Prop :=
  ar_partition r = partition ∧ ar_id r = Some bintrailID.

#[export] Instance is_row_dec partition bintrailID r : Decision (is_row partition bintrailID r).
Proof. unfold is_row. apply _. Defined.

Definition find_row (partition bintrailID : string) (a : list arow) : option arow :=
  head (filter (is_row partition bintrailID) a).

(** A pending upload: a destination recorded and no time of upload. *)
Definition pending (partition : string) (r : arow) : Prop :=
  ar_partition r = partition ∧ ar_s3_bucket r ≠ None ∧ ar_s3_bucket r ≠ Some "" ∧ ar_s3_uploaded_at r = None.

#[export] Instance pending_dec partition r : Decision (pending partition r).
Proof. unfold pending. apply _. Defined.

(** [COALESCE(NULLIF(bintrail_id, ''), '(no id)')]. *)
Definition source_of (r : arow) : string :=
  match ar_id r with None => "(no id)" | Some id => if bool_decide (id = "") then "(no id)" else id end.

(** [pendingS3Uploads]. *)
Definition pendingS3Uploads {E} (partition : string) : M E (list string + callErr) := call (λ w,
  (inl (sort_by String.compare (remove_dups (source_of <$> filter (pending partition) (w_archive w)))), w)).

(** [indexHasArchives]. *)
Definition indexHasArchives {E} : M E (bool + callErr) := call (λ w, (inl (negb (bool_decide (w_archive w = []))), w)).

(** [partitionArchived]. *)
Definition partitionArchived {E} (partition : string) : M E (bool + callErr) := call (λ w,
  (inl (bool_decide (Exists (λ r, ar_partition r = partition) (w_archive w))), w)).

(** [archivedRowCount]; no row reads as an unknown count. *)
Definition archivedRowCount {E} (partition bintrailID : string) : M E (option Z + callErr) := call (λ w,
  (inl (find_row partition bintrailID (w_archive w) ≫= ar_row_count), w)).

(** [archivedPartitionUnchanged]. *)
Definition archivedPartitionUnchanged (archived : option Z) (live : Z) : bool :=
  match archived with Some n => n =? live | None => false end.

(** The INSERT of [Perform] with its [ON DUPLICATE KEY UPDATE]. *)
Definition upsert_row (n : arow) (a : list arow) : list arow :=
  match ar_id n with
  | Some id =>
      if bool_decide (Exists (is_row (ar_partition n) id) a) then
        (λ r, if bool_decide (is_row (ar_partition n) id r) then
                {| ar_partition := ar_partition r; ar_id := ar_id r; ar_local_path := ar_local_path n;
                   ar_row_count := ar_row_count n;
                   ar_s3_bucket := match ar_s3_bucket n with Some b => Some b | None => ar_s3_bucket r end;
                   ar_s3_key := match ar_s3_key n with Some k => Some k | None => ar_s3_key r end;
                   ar_s3_uploaded_at := ar_s3_uploaded_at r;
                   ar_min_event_ts := ar_min_event_ts n; ar_max_event_ts := ar_max_event_ts n |}
              else r) <$> a
      else a ++ [n]
  | None => a ++ [n]
  end.

Definition recordArchive {E} (n : arow) : M E (unit + callErr) := call (λ w,
  (inl (), set_archive (upsert_row n (w_archive w)) w)).

(** The SELECT of [s3_uploaded_at]: no row, or the value. *)
Definition selectUploadedAt {E} (partition bintrailID : string) : M E (option (option Z) + callErr) := call (λ w,
  (inl (ar_s3_uploaded_at <$> find_row partition bintrailID (w_archive w)), w)).

(** The UPDATE after an upload. *)
Definition mark_uploaded (partition bintrailID bucket key : string) (now : Z) (r : arow) : arow :=
  if bool_decide (is_row partition bintrailID r) then
    {| ar_partition := ar_partition r; ar_id := ar_id r; ar_local_path := ar_local_path r;
       ar_row_count := ar_row_count r; ar_s3_bucket := Some bucket; ar_s3_key := Some key;
       ar_s3_uploaded_at := Some (now / second * second);
       ar_min_event_ts := ar_min_event_ts r; ar_max_event_ts := ar_max_event_ts r |}
  else r.

Definition updateUploaded {E} (partition bintrailID bucket key : string) : M E (unit + callErr) := call (λ w,
  (inl (), set_archive (mark_uploaded partition bintrailID bucket key (w_now w) <$> w_archive w) w)).

(** The DELETE of [discardStaleArchive]. *)
Definition deleteArchiveRow {E} (partition bintrailID : string) : M E (unit + callErr) := call (λ w,
  (inl (), set_archive (filter (λ r, ¬ is_row partition bintrailID r) (w_archive w)) w)).

(** ** The local disk and the bucket *)

(** [fileExists]: there, and not empty. *)
Definition fileExists (path : string) (w : world) : bool :=
  match w_files w !! path with Some (Whole _) | Some Torn => true | Some Zero | None => false end.

(** [archive.ValidateArchiveFile]: the row count of the footer, if it has one. *)
Definition ValidateArchiveFile (path : string) (w : world) : option Z :=
  match w_files w !! path with Some (Whole rows) => Some (Z.of_nat (length rows)) | _ => None end.

(** [archive.Stats], as far as it is used. *)
Record Stats := { st_Rows : Z; st_MinEventTS : Z; st_MaxEventTS : Z }.

(** The loop of [ArchivePartition] over the rows it writes. *)
Definition stats_of (rows : list erow) : Stats :=
  fold_left (λ st e,
    {| st_Rows := st_Rows st + 1;
       st_MinEventTS := if (st_MinEventTS st =? 0) || (e_ts e <? st_MinEventTS st) then e_ts e else st_MinEventTS st;
       st_MaxEventTS := if (st_MaxEventTS st =? 0) || (st_MaxEventTS st <? e_ts e) then e_ts e else st_MaxEventTS st |})
    rows {| st_Rows := 0; st_MinEventTS := 0; st_MaxEventTS := 0 |}.

(** [archive.ArchivePartition]: the rows in the order of their ids, written to
    a file of its own that takes the path's place once it is complete. *)
Definition ArchivePartition {E} (partition outputPath : string) : M E (Stats + callErr) := call (λ w,
  match part_rows (w_parts w) partition with
  | None => (inr Failed, w)
  | Some rows =>
      let rows := sort_by (cmp_on e_id Z.compare) rows in
      (inl (stats_of rows), set_files (<[outputPath := Whole rows]> (w_files w)) w)
  end).

(** [os.Remove]. *)
Definition removeFile {E} (path : string) : M E (unit + callErr) := call (λ w,
  (inl (), set_files (delete path (w_files w)) w)).

(** [storage.UploadFile]. *)
Definition uploadFile {E} (path bucket key : string) : M E (unit + callErr) := call (λ w,
  match w_files w !! path with
  | None => (inr Failed, w)
  | Some f => (inl (), set_s3 (<[(bucket, key) := f]> (w_s3 w)) w)
  end).

(** [verifiedExistingArchive]. *)
Definition verifiedExistingArchive {E} (outPath partition bintrailID : string) : M E (bool + callErr) :=
  r ← archivedRowCount partition bintrailID;
  match r with
  | inr e => mret (inr e)
  | inl None => mret (inl false)
  | inl (Some recorded) =>
      fileRows ← look (ValidateArchiveFile outPath);
      mret (inl match fileRows with None => false | Some n => n =? recorded end)
  end.

(** [discardStaleArchive]. *)
Definition discardStaleArchive {E} (name bintrailID outPath : string) : M E (unit + callErr) :=
  r ← deleteArchiveRow name bintrailID;
  match r with
  | inr e => mret (inr e)
  | inl _ => removeFile outPath;; mret (inl ())
  end.

(** ** ALTER TABLE binlog_events *)

(** Why an ALTER, or what surrounds it, did not run. *)
Inductive dropErr := errTableBusy | errChangedWhileWaiting | Unnamed (n : string) | DropFailed (e : callErr).

#[export] Instance dropErr_eq_dec : EqDecision dropErr.
Proof. solve_decision. Defined.

Definition ddlLockAttempts : nat := 5.

(** [alterOnce]. *)
Definition alterOnce {E} (q : world → (unit + callErr) * world) : M E (unit + callErr) :=
  conn ← touch;
  match conn with
  | inr e => mret (inr e)
  | inl _ =>
      s ← touch;
      match s with inr e => mret (inr e) | inl _ => call q end
  end.

(** [typeIndexBuildNote] only reads. *)
Definition typeIndexBuildNote {E} : M E () := touch;; touch;; mret ().

(** The loop of [alterBinlogEvents], with [more] attempts after this one; the
    pause is a call that is refused when the context ends. *)
Fixpoint alterFrom {E} (q : world → (unit + callErr) * world) (stillSafe : option (M E (unit + dropErr)))
    (more : nat) (first : bool) : M E (unit + dropErr) :=
  safe ← match stillSafe with Some f => if first then mret (inl ()) else f | None => mret (inl ()) end;
  match safe with
  | inr e => mret (inr e)
  | inl _ =>
      r ← alterOnce q;
      match r with
      | inl _ => mret (inl ())
      | inr LockWait =>
          match more with
          | O => typeIndexBuildNote;; mret (inr errTableBusy)
          | S more' =>
              p ← touch;
              match p with inr e => mret (inr (DropFailed e)) | inl _ => alterFrom q stillSafe more' false end
          end
      | inr e => mret (inr (DropFailed e))
      end
  end.

Definition alterBinlogEvents {E} (q : world → (unit + callErr) * world)
    (stillSafe : option (M E (unit + dropErr))) : M E (unit + dropErr) :=
  alterFrom q stillSafe (ddlLockAttempts - 1) true.

(** MySQL's DROP PARTITION: every name must be there, and one partition must
    stay. The rows of a partition past those its last count saw are the ghost's
    late ones. *)
Definition late_of (w : world) (p : partition) : list erow := drop (default 0%nat (w_counted w !! p_Name p)) (p_rows p).

Definition drop_partitions (names : list string) (w : world) : (unit + callErr) * world :=
  let gone := filter (λ p, p_Name p ∈ names) (w_parts w) in
  let kept := filter (λ p, p_Name p ∉ names) (w_parts w) in
  if bool_decide (names ⊆ (p_Name <$> w_parts w)) && negb (bool_decide (kept = [])) then
    (inl (), add_late (gone ≫= late_of w) (set_parts kept w))
  else (inr Failed, w).

(** [indexer.MarkPartitionsDropped]; the times of [partition_history] are Unix
    seconds. *)
Definition unix (t : Z) : Z := t / second - 62135596800.

Definition MarkPartitionsDropped {E} (names : list string) : M E (unit + dropErr) :=
  match droppedBound names with
  | inr n => mret (inr (Unnamed n))
  | inl bound =>
      r ← call (λ w, (inl (), set_history ((λ d, Some (Z.max (default 0 d) (unix bound))) <$> w_history w) w));
      match r with
      | inl _ | inr NoTable => mret (inl ())
      | inr e => mret (inr (DropFailed e))
      end
  end.

(** [dropPartitions]. *)
Definition dropPartitions {E} (names : list string) (stillSafe : option (M E (unit + dropErr))) :
    M E (unit + dropErr) :=
  r ← MarkPartitionsDropped names;
  match r with inr e => mret (inr e) | inl _ => alterBinlogEvents (drop_partitions names) stillSafe end.

(** MySQL's REORGANIZE PARTITION p_future INTO the hours from [startDate] and a
    new p_future: names must be new, and bounds rise. Each row of p_future goes
    to the first new partition whose bound is above it. *)
Fixpoint share_out (bounds : list (string * option Z)) (rows : list erow) : list partition :=
  match bounds with
  | [] => []
  | (n, b) :: bounds' =>
      {| p_Name := n; p_bound := b; p_rows := filter (λ e, below b (e_ts e) = true) rows |}
        :: share_out bounds' (filter (λ e, below b (e_ts e) = false) rows)
  end.

Definition bound_lt (a b : option Z) : bool :=
  match a, b with Some a, Some b => a <? b | Some _, None => true | None, _ => false end.

Fixpoint bounds_rise (ps : list partition) : bool :=
  match ps with
  | [] => true
  | p :: ps' => match ps' with [] => true | q :: _ => bound_lt (p_bound p) (p_bound q) end && bounds_rise ps'
  end.

Definition reorganize (startDate n : Z) (w : world) : (unit + callErr) * world :=
  match part_rows (w_parts w) "p_future" with
  | None => (inr Failed, w)
  | Some rows =>
      let hours := hours_from startDate n in
      let news := share_out (((λ d, (PartitionName d, Some (d + hour))) <$> hours) ++ [("p_future", None)]) rows in
      let ps := filter (λ p, p_Name p ≠ "p_future") (w_parts w) ++ news in
      if bool_decide (NoDup (p_Name <$> ps)) && bounds_rise ps then (inl (), set_parts ps w) else (inr Failed, w)
  end.

(** [addFuturePartitions]. *)
Definition addFuturePartitions {E} (startDate n : Z) : M E (unit + dropErr) :=
  alterBinlogEvents (reorganize startDate n) None.
