(* ===== verification/Rotate.v ===== *)
(** * One rotation cycle ([rotation.Perform])

    Old partitions are archived and dropped one by one, or dropped at once when
    no archive directory is set, and partitions are added ahead of the clock.
    The statements are those of [RotateWorld]; what is printed and logged is
    left out. *)
From S2P Require Import Prelude GoStrings GoTime GoText PartitionHour RotateWorld.

Open Scope Z_scope.

(** [Options]. *)
Record Options := {
  RetainDur : Z;
  RetainRaw : string;
  AddFuture : Z;
  NoReplace : bool;
  ArchiveDir : string;
  ArchiveCompression : string;
  BintrailID : string;
  ArchiveS3 : string;
  ArchiveS3Region : string;
  Retry : bool;
  Format : string;
  ProtectUnarchived : bool;
  QuietEmpty : bool;
  PruneLocalAfterUpload : bool;
}.

(** [Result]. *)
Record Result := { Dropped : Z; Added : Z; Deferred : Z; AddSkipped : Z; AddFutureTarget : Z }.

(** What a cycle was doing when it failed. *)
Inductive stage :=
  | ListParts | MigrateState | InitS3 | MakeDir | VerifyArchive | ArchivePart | RecordState
  | CheckUpload | Upload | UpdateState | CheckPending | ReadCount | Recount | DiscardStale
  | CheckHistory | CheckArchived | RefreshList.

Inductive perfErr :=
  | S3WithoutDir
  | BadS3URL
  | BadName (name : string)
  | BadKey (name : string)
  | At (s : stage) (name : string) (e : callErr)
  | DropAt (name : string) (e : dropErr)
  | AddAt (e : dropErr).

Definition P (A : Type) : Type := M perfErr A.

(** ** One partition, archived and dropped *)

(** What becomes of a partition past retention. *)
Inductive fate := Fdropped | Fdeferred | Fbusy.

(** Writes the partition's file, unless a retry finds a complete one that
    [archive_state] vouches for ([None]). *)
Definition archiveToDisk (opts : Options) (name outPath : string) : P (option Stats) :=
  exists_ ← look (fileExists outPath);
  skipped ← (if Retry opts && exists_ then
               or_raise (verifiedExistingArchive outPath name (BintrailID opts)) (At VerifyArchive name)
             else mret false);
  if skipped : bool then mret None
  else
    st ← or_raise (ArchivePartition name outPath) (At ArchivePart name);
    mret (Some st).

(** The row of [archive_state] for a file just written. *)
Definition newRow (opts : Options) (s3 : option (string * string)) (name outPath s3Key : string) (st : Stats) : arow :=
  {| ar_partition := name;
     ar_id := Some (BintrailID opts);
     ar_local_path := outPath;
     ar_row_count := Some (st_Rows st);
     ar_s3_bucket := fst <$> s3;
     ar_s3_key := (λ _, s3Key) <$> s3;
     ar_s3_uploaded_at := None;
     ar_min_event_ts := if st_MinEventTS st =? 0 then None else Some (st_MinEventTS st);
     ar_max_event_ts := if st_MaxEventTS st =? 0 then None else Some (st_MaxEventTS st) |}.

(** The upload and its record; false when the upload failed. *)
Definition uploadOne (opts : Options) (s3 : option (string * string)) (name outPath s3Key : string) : P bool :=
  match s3 with
  | None => mret true
  | Some (bucket, _) =>
      skipUpload ← (if Retry opts then
                      uploadedAt ← or_raise (selectUploadedAt name (BintrailID opts)) (At CheckUpload name);
                      mret (match uploadedAt with Some (Some _) => true | _ => false end)
                    else mret false);
      if skipUpload : bool then mret true
      else
        r ← uploadFile outPath bucket s3Key;
        match r with
        | inr Ended => raise (At Upload name Ended)
        | inr _ => mret false
        | inl _ =>
            or_raise (updateUploaded name (BintrailID opts) bucket s3Key) (At UpdateState name);;
            mret true
        end
  end.

(** Gives up on a partition that changed, and on its archive. *)
Definition deferStale (opts : Options) (name outPath : string) : P fate :=
  or_raise (discardStaleArchive name (BintrailID opts) outPath) (At DiscardStale name);;
  mret Fdeferred.

(** The check before every attempt after the first. *)
Definition unchanged (name : string) (archived : option Z) : P (unit + dropErr) :=
  live ← partitionRowCount name;
  mret match live with
       | inr e => inr (DropFailed e)
       | inl live => if archivedPartitionUnchanged archived live then inl () else inr errChangedWhileWaiting
       end.

(** From the pending check to the drop of an archived partition, and the
    pruning of its local file. *)
Definition dropArchived (opts : Options) (name outPath : string) : P fate :=
  pendingBy ← or_raise (pendingS3Uploads name) (At CheckPending name);
  if negb (bool_decide (pendingBy = [])) then mret Fdeferred
  else
    archived ← or_raise (archivedRowCount name (BintrailID opts)) (At ReadCount name);
    live ← or_raise (partitionRowCount name) (At Recount name);
    if negb (archivedPartitionUnchanged archived live) then deferStale opts name outPath
    else
      r ← dropPartitions [name] (Some (unchanged name archived));
      match r with
      | inr errChangedWhileWaiting => deferStale opts name outPath
      | inr errTableBusy => mret Fbusy
      | inr e => raise (DropAt name e)
      | inl _ =>
          (if PruneLocalAfterUpload opts && negb (bool_decide (ArchiveS3 opts = "")) then
             removeFile outPath;; mret ()
           else mret ());;
          mret Fdropped
      end.

(** The body of the loop over [toDrop]. *)
Definition rotateOne (opts : Options) (s3 : option (string * string)) (name : string) : P fate :=
  match HiveArchivePath (ArchiveDir opts) (BintrailID opts) name with
  | None => raise (BadName name)
  | Some outPath =>
      or_raise touch (At MakeDir name);;
      st ← archiveToDisk opts name outPath;
      match match s3 with
            | None => Some ""
            | Some (_, prefix) => BuildS3Key (ArchiveDir opts) outPath prefix
            end with
      | None => raise (BadKey name)
      | Some s3Key =>
          match st with
          | None => mret ()
          | Some st => or_raise (recordArchive (newRow opts s3 name outPath s3Key st)) (At RecordState name)
          end;;
          uploaded ← uploadOne opts s3 name outPath s3Key;
          if uploaded : bool then dropArchived opts name outPath else mret Fdeferred
      end
  end.

(** The loop: partitions dropped, deferred, and whether the table was busy. *)
Fixpoint rotateEach (opts : Options) (s3 : option (string * string)) (toDrop : list string)
    (dropped deferred : Z) : P (Z * Z * bool) :=
  match toDrop with
  | [] => mret (dropped, deferred, false)
  | name :: rest =>
      f ← rotateOne opts s3 name;
      match f with
      | Fdropped => rotateEach opts s3 rest (dropped + 1) deferred
      | Fdeferred => rotateEach opts s3 rest dropped (deferred + 1)
      | Fbusy => mret (dropped, deferred + Z.of_nat (length toDrop), true)
      end
  end.

(** The sidecar is written and uploaded, or not: no failure of it counts. *)
Definition writeSidecar (s3 : option (string * string)) : P () :=
  r ← touch;
  match r, s3 with
  | inl _, Some _ => touch;; mret ()
  | _, _ => mret ()
  end.

(** The S3 client and its bucket and prefix, when there is a destination. *)
Definition openS3 (opts : Options) : P (option (string * string)) :=
  if bool_decide (ArchiveS3 opts = "") then mret None
  else
    match ParseS3URL (ArchiveS3 opts) with
    | None => raise BadS3URL
    | Some s3 => or_raise touch (At InitS3 "");; mret (Some s3)
    end.

Definition archiveAndDrop (opts : Options) (toDrop : list string) : P (Z * Z * bool) :=
  or_raise touch (At MigrateState "");;
  s3 ← openS3 opts;
  writeSidecar s3;;
  rotateEach opts s3 toDrop 0 0.

(** ** Dropping without archiving *)

(** The partitions that may go, and how many are deferred. *)
Fixpoint keepSafe (protectActive : bool) (toDrop : list string) : P (list string * Z) :=
  match toDrop with
  | [] => mret ([], 0)
  | name :: rest =>
      archived ← (if protectActive then or_raise (partitionArchived name) (At CheckArchived name) else mret true);
      if negb archived then
        '(safe, deferred) ← keepSafe protectActive rest; mret (safe, deferred + 1)
      else
        pendingBy ← or_raise (pendingS3Uploads name) (At CheckPending name);
        '(safe, deferred) ← keepSafe protectActive rest;
        mret (if bool_decide (pendingBy = []) then (name :: safe, deferred) else (safe, deferred + 1))
  end.

Definition dropOnly (opts : Options) (toDrop : list string) : P (Z * Z * bool) :=
  protectActive ← (if ProtectUnarchived opts then or_raise indexHasArchives (At CheckHistory "") else mret false);
  '(safeToDrop, deferred) ← keepSafe protectActive toDrop;
  match safeToDrop with
  | [] => mret (0, deferred, false)
  | _ =>
      r ← dropPartitions safeToDrop None;
      match r with
      | inl _ => mret (Z.of_nat (length safeToDrop), deferred, false)
      | inr errTableBusy => mret (0, deferred + Z.of_nat (length safeToDrop), true)
      | inr e => raise (DropAt "" e)
      end
  end.

(** ** The cycle *)

(** The partitions whose hour starts before [cutoff]. *)
Definition olderThan (cutoff : Z) (partitions : list partitionInfo) : list string :=
  Name <$> filter (λ p, match PartitionDate (Name p) with Some d => d <? cutoff | None => false end = true) partitions.

(** The first part of [Perform]: the counts, and the partitions that are left. *)
Definition dropOld (opts : Options) (partitions : list partitionInfo) : P (Z * Z * bool * list partitionInfo) :=
  if negb (0 <? RetainDur opts) then mret (0, 0, false, partitions)
  else
    now ← look w_now;
    match olderThan (now - RetainDur opts) partitions with
    | [] => mret (0, 0, false, partitions)
    | toDrop =>
        '(dropped, deferred, tableBusy) ←
          (if bool_decide (ArchiveDir opts = "") then dropOnly opts toDrop else archiveAndDrop opts toDrop);
        partitions ← or_raise listPartitions (At RefreshList "");
        mret (dropped, deferred, tableBusy, partitions)
    end.

(** The second part: partitions ahead of the clock. *)
Definition addAhead (opts : Options) (dropped deferred : Z) (tableBusy : bool) (partitions : list partitionInfo) :
    P Result :=
  now ← look w_now;
  let nowHour := truncate_hour now in
  let futureCount := countFuturePartitions partitions nowHour in
  let '(toAdd, behind) := partitionsToAdd (AddFuture opts) partitions nowHour dropped (NoReplace opts) in
  if negb (0 <? toAdd) then
    mret {| Dropped := dropped; Added := toAdd; Deferred := deferred; AddSkipped := 0; AddFutureTarget := 0 |}
  else
    now' ← look w_now;
    r ← (if tableBusy : bool then mret (inr errTableBusy)
         else addFuturePartitions (nextPartitionStart partitions now') toAdd);
    match r with
    | inl _ => mret {| Dropped := dropped; Added := toAdd; Deferred := deferred; AddSkipped := 0; AddFutureTarget := 0 |}
    | inr errTableBusy =>
        mret {| Dropped := dropped; Added := 0; Deferred := deferred + 1; AddSkipped := toAdd;
                AddFutureTarget := futureCount + toAdd - behind |}
    | inr e => raise (AddAt e)
    end.

(** [Perform]. *)
Definition Perform (opts : Options) : P Result :=
  if negb (bool_decide (ArchiveS3 opts = "")) && bool_decide (ArchiveDir opts = "") then raise S3WithoutDir
  else
    partitions ← or_raise listPartitions (At ListParts "");
    '(dropped, deferred, tableBusy, partitions) ← dropOld opts partitions;
    partitionHasData;;
    addAhead opts dropped deferred tableBusy partitions.

(** ** Samples *)

Section samples.

Let t0 : Z := SysVersion.days_from_civil 2026 7 14 * day.

Definition sample_opts : Options := {|
  RetainDur := 48 * hour; RetainRaw := "48h"; AddFuture := 3; NoReplace := true; ArchiveDir := "/staging";
  ArchiveCompression := "zstd"; BintrailID := "id1"; ArchiveS3 := "s3://bk/pre"; ArchiveS3Region := "";
  Retry := true; Format := "json"; ProtectUnarchived := true; QuietEmpty := false; PruneLocalAfterUpload := true |}.

Definition named (t : Z) (rows : list erow) : partition :=
  {| p_Name := PartitionName t; p_bound := Some (t + hour); p_rows := rows |}.

Definition sample_world : world := {|
  w_now := t0 + 72 * hour;
  w_parts := [named t0 [{| e_id := 1; e_ts := t0; e_rest := "a" |}]; named (t0 + hour) [];
              named (t0 + 72 * hour) []; {| p_Name := "p_future"; p_bound := None; p_rows := [] |}];
  w_archive := []; w_files := ∅; w_s3 := ∅; w_history := Some None; w_policy := None;
  w_all := [{| e_id := 1; e_ts := t0; e_rest := "a" |}]; w_counted := ∅; w_late := [] |}.

Example sample_cycle :
  let '(r, y) := Perform sample_opts {| y_world := sample_world; y_script := [] |} in
  r = Ret {| Dropped := 2; Added := 3; Deferred := 0; AddSkipped := 0; AddFutureTarget := 0 |} ∧
  p_Name <$> w_parts (y_world y) = ["p_2026071700"; "p_2026071701"; "p_2026071702"; "p_2026071703"; "p_future"] ∧
  w_files (y_world y) = ∅ ∧
  w_s3 (y_world y) !! ("bk", "pre/bintrail_id=id1/event_date=2026-07-14/event_hour=00/events.parquet")
    = Some (Whole [{| e_id := 1; e_ts := t0; e_rest := "a" |}]).
Proof. vm_compute. done. Qed.

End samples.
