(* ===== verification/RotateKeeps.v ===== *)
(** * A rotation loses no row ([rotation.Perform] with an archive directory)

    Every row the index held stays in the index, in a local archive or in the
    bucket, whatever fails in a cycle, whenever the process dies, and however
    many cycles follow; but for the rows that arrive between a partition's last
    count and its drop ([w_late]). The proof is a Hoare logic over the calls of
    [RotateWorld] with one invariant, [during], and an assertion per stage of
    a partition's way out. *)
From S2P Require Import Prelude GoStrings GoTime GoText PartitionHour RotateWorld Rotate.

Open Scope Z_scope.

(** ** What insertions leave as it was *)

Record part_grows (p q : partition) : Prop := {
  pg_name : p_Name q = p_Name p;
  pg_bound : p_bound q = p_bound p;
  pg_rows : p_rows p `prefix_of` p_rows q;
}.

Record grows (w w' : world) : Prop := {
  gr_now : w_now w ≤ w_now w';
  gr_parts : Forall2 part_grows (w_parts w) (w_parts w');
  gr_archive : w_archive w' = w_archive w;
  gr_files : w_files w' = w_files w;
  gr_s3 : w_s3 w' = w_s3 w;
  gr_policy : w_policy w' = w_policy w;
  gr_counted : w_counted w' = w_counted w;
  gr_late : w_late w' = w_late w;
  gr_all : ∀ e, e ∈ w_all w' → e ∈ w_all w ∨ ∃ p, p ∈ w_parts w' ∧ e ∈ p_rows p;
}.

#[export] Instance part_grows_po : PreOrder part_grows.
Proof.
  split; [by intros p; split|]. intros p q r [H1 H2 H3] [H4 H5 H6]. split; try congruence. by transitivity (p_rows q).
Qed.

Lemma part_grows_rows ps qs e p : Forall2 part_grows ps qs → p ∈ ps → e ∈ p_rows p → ∃ q, q ∈ qs ∧ e ∈ p_rows q.
Proof.
  intros Hf Hp He. apply list_elem_of_lookup in Hp as [i Hi].
  destruct (Forall2_lookup_l _ _ _ _ _ Hf Hi) as (q & Hq & Hg). exists q. split; [by eapply list_elem_of_lookup_2|].
  destruct (pg_rows _ _ Hg) as [k ->]. set_solver.
Qed.

#[export] Instance grows_po : PreOrder grows.
Proof.
  split.
  - intros w. split; [lia|reflexivity|..]; auto.
  - intros w1 w2 w3 [] []. split; try congruence; [lia|by etrans|].
    intros e [He|He]%gr_all1; [|by right]. apply gr_all0 in He as [?|(p & Hp & He)]; [by left|right].
    by eapply part_grows_rows.
Qed.

Lemma place_grows ps e qs : place ps e = Some qs → Forall2 part_grows ps qs ∧ ∃ p, p ∈ qs ∧ e ∈ p_rows p.
Proof.
  revert qs. induction ps as [|p ps IH]; simpl; intros qs; [done|]. destruct (below _ _).
  - intros [= <-]. split; [|exists (add_row p e); simpl; set_solver].
    constructor; [|reflexivity]. split; try done. simpl. by eexists.
  - destruct (place ps e) as [qs'|] eqn:Hp; [|done]. intros [= <-].
    destruct (IH qs') as (Hf & q & Hq & He); [done|]. split; [by constructor|]. exists q. set_solver.
Qed.

Lemma insert_row_grows w e : grows w (insert_row w e).
Proof.
  unfold insert_row. destruct (place (w_parts w) e) as [ps|] eqn:Hp; [|reflexivity].
  apply place_grows in Hp as [Hf Hin]. split; simpl; try done.
  intros x [?| ->%list_elem_of_singleton]%elem_of_app; [by left|by right].
Qed.

Lemma arrive_grows s w : grows w (arrive s w).
Proof.
  unfold arrive. assert (grows w (set_now (w_now w + Z.of_nat (s_wait s)) w)) as H.
  { split; simpl; [lia|reflexivity|auto..]. }
  revert H. generalize (set_now (w_now w + Z.of_nat (s_wait s)) w). induction (s_rows s) as [|e l IH]; intros w' H; [done|].
  simpl. apply IH. etrans; [done|]. apply insert_row_grows.
Qed.

(** ** The logic

    From a world where [Pre] holds, a run that returns ends where [Post] holds
    of the result, and any other run where [Bad] holds. *)

Definition hoare {E A} (Pre : world → Prop) (m : M E A) (Post : A → world → Prop) (Bad : world → Prop) : Prop :=
  ∀ y, Pre (y_world y) →
    match m y with
    | (Ret a, y') => Post a (y_world y')
    | (_, y') => Bad (y_world y')
    end.

(** What insertions cannot break. *)
Class Stable (Pre : world → Prop) : Prop := stable w w' : grows w w' → Pre w → Pre w'.

Section logic.

Context {E : Type} (Bad : world → Prop).

Lemma hoare_ret {A} (a : A) (Pre : world → Prop) (Post : A → world → Prop) :
  (∀ w, Pre w → Post a w) → hoare Pre (mret a : M E A) Post Bad.
Proof. intros H y Hy. simpl. auto. Qed.

Lemma hoare_raise {A} (e : E) (Pre : world → Prop) (Post : A → world → Prop) :
  (∀ w, Pre w → Bad w) → hoare Pre (raise e) Post Bad.
Proof. intros H y Hy. simpl. auto. Qed.

Lemma hoare_bind {A B} (m : M E A) (k : A → M E B) Pre Mid Post :
  hoare Pre m Mid Bad → (∀ a, hoare (Mid a) (k a) Post Bad) → hoare Pre (m ≫= k) Post Bad.
Proof.
  intros Hm Hk y Hy. specialize (Hm y Hy). unfold mbind, M_bind.
  destruct (m y) as [[a|e|] y']; [|done..]. by apply Hk.
Qed.

Lemma hoare_weaken {A} (m : M E A) Pre Pre' (Post Post' : A → world → Prop) :
  hoare Pre m Post Bad → (∀ w, Pre' w → Pre w) → (∀ a w, Post a w → Post' a w) → hoare Pre' m Post' Bad.
Proof.
  intros Hm H1 H2 y Hy. specialize (Hm y (H1 _ Hy)). destruct (m y) as [[a|e|] y']; auto.
Qed.

Lemma hoare_look {A} (f : world → A) (Pre : world → Prop) (Post : A → world → Prop) :
  (∀ w, Pre w → Post (f w) w) → hoare Pre (look f : M E A) Post Bad.
Proof. intros H y Hy. simpl. auto. Qed.

Lemma hoare_call {A} (f : world → (A + callErr) * world) (Pre : world → Prop) `{!Stable Pre}
    (Post : A + callErr → world → Prop) :
  (∀ w, Pre w → Post (f w).1 (f w).2) → (∀ w e, Pre w → Post (inr e) w ∧ Post (inr e) (f w).2) →
  (∀ w, Pre w → Bad w) → hoare Pre (call f : M E (A + callErr)) Post Bad.
Proof.
  intros H1 H2 H3 y Hy. unfold call. set (s := match y_script y with [] => quiet | s :: _ => s end).
  assert (Pre (arrive s (y_world y))) as Ha by (eapply stable; [apply arrive_grows|done]).
  specialize (H1 _ Ha). specialize (H2 _ (match s_answer s with Refused e | Unanswered e => e | _ => Failed end) Ha).
  destruct (s_answer s); simpl in *; destruct (f _); simpl in *; naive_solver.
Qed.

Lemma hoare_or_raise {A} (m : M E (A + callErr)) tag Pre (Post : A → world → Prop) :
  hoare Pre m (λ r w, match r with inl a => Post a w | inr _ => Bad w end) Bad →
  hoare Pre (or_raise m tag) Post Bad.
Proof.
  intros Hm. eapply hoare_bind; [exact Hm|]. intros [a|e]; [by apply hoare_ret|by apply hoare_raise].
Qed.

(** A call that changes nothing: its answer says something about the world. *)
Lemma hoare_read {A} (f : world → A + callErr) (Pre : world → Prop) `{!Stable Pre} :
  (∀ w, Pre w → Bad w) →
  hoare Pre (call (λ w, (f w, w)) : M E (A + callErr)) (λ r w, Pre w ∧ ∀ a, r = inl a → f w = inl a) Bad.
Proof.
  intros HB. apply hoare_call; [done|..|done]; simpl; [naive_solver|]. intros w e Hw. split; by split.
Qed.

Lemma hoare_touch (Pre : world → Prop) `{!Stable Pre} :
  (∀ w, Pre w → Bad w) → hoare Pre (touch : M E _) (λ _ w, Pre w) Bad.
Proof. intros HB. unfold touch. by apply hoare_call. Qed.

End logic.

#[export] Instance stable_and (Q R : world → Prop) : Stable Q → Stable R → Stable (λ w, Q w ∧ R w).
Proof. intros HQ HR w w' Hg [??]. split; [by eapply HQ|by eapply HR]. Qed.

#[export] Instance stable_or (Q R : world → Prop) : Stable Q → Stable R → Stable (λ w, Q w ∨ R w).
Proof. intros HQ HR w w' Hg [?|?]; [left; by eapply HQ|right; by eapply HR]. Qed.

#[export] Instance stable_const (Q : Prop) : Stable (λ _, Q).
Proof. by intros w w' _. Qed.

#[export] Instance stable_ex {A} (Q : A → world → Prop) : (∀ a, Stable (Q a)) → Stable (λ w, ∃ a, Q a w).
Proof. intros HQ w w' Hg [a Ha]. exists a. by eapply HQ. Qed.

#[export] Instance stable_all {A} (Q : A → world → Prop) : (∀ a, Stable (Q a)) → Stable (λ w, ∀ a, Q a w).
Proof. intros HQ w w' Hg Ha a. by eapply HQ. Qed.

(** ** The invariant *)

(** A row that can still be read. *)
Definition held (w : world) (e : erow) : Prop :=
  (∃ p, p ∈ w_parts w ∧ e ∈ p_rows p) ∨
  (∃ path rows, w_files w !! path = Some (Whole rows) ∧ e ∈ rows) ∨
  (∃ key rows, w_s3 w !! key = Some (Whole rows) ∧ e ∈ rows).

(** No row is lost, but those that came after their partition's last count. *)
Definition kept (w : world) : Prop := ∀ e, e ∈ w_all w → held w e ∨ e ∈ w_late w.

(** The first rows of a partition, in any order. *)
Definition of_part (rows : list erow) (p : partition) : Prop := rows ≡ₚ take (length rows) (p_rows p).

Definition has_date (p : partition) (d : Z) : Prop := PartitionDate (p_Name p) = Some d.

(** The partition is in the index. *)
Definition listed (name : string) (w : world) : Prop := name ∈ (p_Name <$> w_parts w).

#[export] Instance listed_dec name w : Decision (listed name w).
Proof. unfold listed. apply _. Defined.

Section invariant.

Context (opts : Options).

(** Where the archives of this configuration go. *)
Definition dest : option (string * string) :=
  if bool_decide (ArchiveS3 opts = "") then None else ParseS3URL (ArchiveS3 opts).

Definition pathOf (d : Z) : string := hivePathAt (ArchiveDir opts) (BintrailID opts) d.

Definition keyOf (d : Z) : option (string * string) :=
  (λ '(bucket, prefix), (bucket, hiveKeyAt prefix (BintrailID opts) d)) <$> dest.

Definition s3At (w : world) (d : Z) : option pfile := k ← keyOf d; w_s3 w !! k.

(** The configuration removes local files. *)
Definition prunes : Prop := PruneLocalAfterUpload opts = true ∧ ArchiveS3 opts ≠ "".

(** Nothing of this configuration is archived for an hour after [T]. *)
Definition no_archive_after (T : Z) (w : world) : Prop := ∀ d, named_hour d → T < d →
  w_files w !! pathOf d = None ∧ s3At w d = None ∧
  ∀ r, r ∈ w_archive w → ar_id r = Some (BintrailID opts) → PartitionDate (ar_partition r) ≠ Some d.

(** What holds between the calls of a cycle; [T] is the latest hour that had a
    partition when it began. *)
Record during (T : Z) (w : world) : Prop := {
  du_names : NoDup (p_Name <$> w_parts w);
  du_dates : ∀ p q d, p ∈ w_parts w → q ∈ w_parts w → has_date p d → has_date q d → p_Name p = p_Name q;
  du_unique : ∀ r r' i, r ∈ w_archive w → r' ∈ w_archive w → ar_id r = Some i → ar_id r' = Some i →
    ar_partition r = ar_partition r' → r = r';
  du_file : ∀ p d rows, p ∈ w_parts w → has_date p d → w_files w !! pathOf d = Some (Whole rows) → of_part rows p;
  du_s3 : ∀ p d rows, p ∈ w_parts w → has_date p d → s3At w d = Some (Whole rows) → of_part rows p;
  du_done : prunes → ∀ p d r, p ∈ w_parts w → has_date p d → r ∈ w_archive w →
    is_row (p_Name p) (BintrailID opts) r → ar_s3_uploaded_at r ≠ None →
    ∃ rows, w_files w !! pathOf d = Some (Whole rows) ∧ s3At w d = Some (Whole rows) ∧
      ar_row_count r = Some (Z.of_nat (length rows));
  du_after : no_archive_after T w;
  du_top : (∃ p, p ∈ w_parts w ∧ has_date p T) ∨ T < w_now w;
  du_kept : kept w;
}.

(** What a cycle leaves: the invariant, unless the index had no partition ahead
    of the clock. *)
Definition after (T : Z) (w : world) : Prop :=
  (NoDup (p_Name <$> w_parts w) ∧ kept w) ∧ (during T w ∨ T < w_now w).

Lemma during_after T w : during T w → after T w.
Proof. intros H. split; [split; apply H|by left]. Qed.

Lemma part_grows_rev ps qs q : Forall2 part_grows ps qs → q ∈ qs → ∃ p, p ∈ ps ∧ part_grows p q.
Proof.
  intros Hf [i Hi]%list_elem_of_lookup. destruct (Forall2_lookup_r _ _ _ _ _ Hf Hi) as (p & Hp & Hg).
  exists p. split; [by eapply list_elem_of_lookup_2|done].
Qed.

Lemma part_grows_fwd ps qs p : Forall2 part_grows ps qs → p ∈ ps → ∃ q, q ∈ qs ∧ part_grows p q.
Proof.
  intros Hf [i Hi]%list_elem_of_lookup. destruct (Forall2_lookup_l _ _ _ _ _ Hf Hi) as (q & Hq & Hg).
  exists q. split; [by eapply list_elem_of_lookup_2|done].
Qed.

Lemma part_grows_names ps qs : Forall2 part_grows ps qs → p_Name <$> qs = p_Name <$> ps.
Proof. induction 1 as [|p q ps qs [] _ IH]; [done|]. csimpl. congruence. Qed.

Lemma has_date_grows p q d : part_grows p q → has_date q d → has_date p d.
Proof. unfold has_date. intros []. congruence. Qed.

Lemma of_part_grows rows p q : part_grows p q → of_part rows p → of_part rows q.
Proof.
  intros [_ _ [k Hk]] H. unfold of_part in *. rewrite Hk. rewrite take_app_le; [done|].
  pose proof (Permutation_length H) as Hl. rewrite length_take in Hl. lia.
Qed.

Lemma held_grows w w' e : grows w w' → held w e → held w' e.
Proof.
  intros [] [(p & Hp & He)|[H|H]].
  - left. by eapply part_grows_rows.
  - right. left. by rewrite gr_files0.
  - right. right. by rewrite gr_s4.
Qed.

#[export] Instance stable_kept : Stable kept.
Proof.
  intros w w' Hg Hk e [He|He]%(gr_all _ _ Hg).
  - destruct (Hk e He) as [Hh|Hl]; [left; by eapply held_grows|right]. by rewrite (gr_late _ _ Hg).
  - left. by left.
Qed.

#[export] Instance stable_listed name : Stable (listed name).
Proof. intros w w' Hg. unfold listed. by rewrite (part_grows_names _ _ (gr_parts _ _ Hg)). Qed.

#[export] Instance stable_during T : Stable (during T).
Proof.
  intros w w' Hg []. pose proof (gr_parts _ _ Hg) as Hf.
  assert (∀ d, s3At w' d = s3At w d) as Hs3 by (intros; unfold s3At; by rewrite (gr_s3 _ _ Hg)).
  split; try (rewrite ?(gr_files _ _ Hg), ?(gr_archive _ _ Hg)).
  - by rewrite (part_grows_names _ _ Hf).
  - intros p q d Hp Hq Hdp Hdq. apply (part_grows_rev _ _ _ Hf) in Hp as (p' & Hp & Gp), Hq as (q' & Hq & Gq).
    rewrite (pg_name _ _ Gp), (pg_name _ _ Gq). eapply du_dates0; try done; by eapply has_date_grows.
  - done.
  - intros p d rows Hp Hd Hx. apply (part_grows_rev _ _ _ Hf) in Hp as (p' & Hp & Gp).
    eapply of_part_grows; [done|]. eapply du_file0; try done. by eapply has_date_grows.
  - intros p d rows Hp Hd Hx. apply (part_grows_rev _ _ _ Hf) in Hp as (p' & Hp & Gp). rewrite Hs3 in Hx.
    eapply of_part_grows; [done|]. eapply du_s4; try done. by eapply has_date_grows.
  - intros Hpr p d r Hp Hd Hr Hir Hu. apply (part_grows_rev _ _ _ Hf) in Hp as (p' & Hp & Gp).
    rewrite Hs3. eapply du_done0; try done; [by eapply has_date_grows|]. by rewrite <-(pg_name _ _ Gp).
  - intros d Hd Ht. rewrite (gr_files _ _ Hg), (gr_archive _ _ Hg), Hs3. by apply du_after0.
  - destruct du_top0 as [(p & Hp & Hd)|Ht]; [left|right; pose proof (gr_now _ _ Hg); lia].
    apply (part_grows_fwd _ _ _ Hf) in Hp as (q & Hq & Gq). exists q. split; [done|].
    unfold has_date in *. by rewrite (pg_name _ _ Gq).
  - by eapply stable_kept.
Qed.

#[export] Instance stable_after T : Stable (after T).
Proof.
  unfold after. intros w w' Hg [[Hn Hk] [Hd|Ht]].
  all: split; [split; [by rewrite (part_grows_names _ _ (gr_parts _ _ Hg))|by eapply stable_kept]|].
  - left. by eapply stable_during.
  - right. pose proof (gr_now _ _ Hg). lia.
Qed.

(** ** What the effects keep *)

Lemma of_part_in rows p e : of_part rows p → e ∈ rows → e ∈ p_rows p.
Proof. intros Ho He. unfold of_part in Ho. rewrite Ho in He. by eapply subseteq_take. Qed.

Lemma pathOf_inj d d' : named_hour d → named_hour d' → pathOf d = pathOf d' → d = d'.
Proof. apply hivePathAt_inj. Qed.

Lemma has_date_named p d : has_date p d → named_hour d.
Proof. apply PartitionDate_named. Qed.

#[local] Hint Resolve has_date_named : core.

Lemma keyOf_inj d d' k : named_hour d → named_hour d' → keyOf d = Some k → keyOf d' = Some k → d = d'.
Proof.
  unfold keyOf. destruct dest as [[b pre]|]; [|done]. simpl. intros ? ? [= <-] [= ?].
  by eapply (hiveKeyAt_inj pre (BintrailID opts)).
Qed.

Lemma kept_weaken w w' : w_all w' = w_all w → w_late w' = w_late w →
  (∀ e, held w e → held w' e) → kept w → kept w'.
Proof. intros Ha Hl Hh Hk e. rewrite Ha, Hl. intros [?|?]%Hk; auto. Qed.

(** Replacing one file, or removing it, when what it held is held elsewhere. *)
Lemma held_alter_file w path f' e :
  (∀ rows, w_files w !! path = Some (Whole rows) → ∀ e, e ∈ rows →
    (∃ p, p ∈ w_parts w ∧ e ∈ p_rows p) ∨ (∃ key rows, w_s3 w !! key = Some (Whole rows) ∧ e ∈ rows)) →
  held w e → held (set_files (partial_alter (λ _, f') path (w_files w)) w) e.
Proof.
  intros Hold [H|[(path' & rows & Hp & He)|H]]; [by left| |by right; right].
  destruct (decide (path' = path)) as [->|Hne].
  - destruct (Hold _ Hp e He) as [?|?]; [by left|by right; right].
  - right. left. exists path', rows. split; [|done]. simpl. by rewrite lookup_partial_alter_ne.
Qed.

Lemma held_alter_s3 w key f' e :
  (∀ rows, w_s3 w !! key = Some (Whole rows) → ∀ e, e ∈ rows → ∃ p, p ∈ w_parts w ∧ e ∈ p_rows p) →
  held w e → held (set_s3 (partial_alter (λ _, f') key (w_s3 w)) w) e.
Proof.
  intros Hold [H|[H|(key' & rows & Hp & He)]]; [by left|by right; left|].
  destruct (decide (key' = key)) as [->|Hne].
  - left. by eapply Hold.
  - right. right. exists key', rows. split; [|done]. simpl. by rewrite lookup_partial_alter_ne.
Qed.

(** The partition a name stands for. *)
Lemma listed_part name d w : PartitionDate name = Some d → listed name w →
  ∃ p, p ∈ w_parts w ∧ p_Name p = name ∧ has_date p d.
Proof.
  intros Hd (p & -> & Hp)%list_elem_of_fmap. by exists p.
Qed.

Lemma du_same_date T w p q d : during T w → p ∈ w_parts w → q ∈ w_parts w → has_date p d → has_date q d → p = q.
Proof.
  intros Hw Hp Hq Hdp Hdq. pose proof (du_dates _ _ Hw _ _ _ Hp Hq Hdp Hdq) as Hn.
  apply list_elem_of_lookup in Hp as [i Hi], Hq as [j Hj]. pose proof (du_names _ _ Hw) as Hnd.
  assert (i = j) as ->; [|congruence].
  eapply NoDup_lookup; [exact Hnd|..]; rewrite list_lookup_fmap.
  - rewrite Hi. done.
  - rewrite Hj. simpl. congruence.
Qed.

Lemma du_same_name T w p q : during T w → p ∈ w_parts w → q ∈ w_parts w → p_Name p = p_Name q → p = q.
Proof.
  intros Hw Hp Hq Hn.
  apply list_elem_of_lookup in Hp as [i Hi], Hq as [j Hj]. pose proof (du_names _ _ Hw) as Hnd.
  assert (i = j) as ->; [|congruence].
  eapply NoDup_lookup; [exact Hnd|..]; rewrite list_lookup_fmap; [by rewrite Hi|]. rewrite Hj. simpl. congruence.
Qed.

(** A partition's rows as [part_rows] finds them. *)
Lemma part_rows_in ps name rows : part_rows ps name = Some rows → ∃ p, p ∈ ps ∧ p_Name p = name ∧ p_rows p = rows.
Proof.
  unfold part_rows. intros (p & Hp & ->)%fmap_Some. exists p.
  apply head_Some_elem_of, list_elem_of_filter in Hp as [Hn Hp]. done.
Qed.

(** Writing the archive of a listed partition. *)
Lemma during_write T w p d rows :
  during T w → p ∈ w_parts w → has_date p d → d ≤ T → of_part rows p →
  (prunes → ∀ r, r ∈ w_archive w → is_row (p_Name p) (BintrailID opts) r → ar_s3_uploaded_at r = None) →
  during T (set_files (<[pathOf d := Whole rows]> (w_files w)) w).
Proof.
  intros Hw Hp Hd HT Ho Hno. pose proof Hw as []. split; try done; simpl.
  - intros q d' rows' Hq Hd' Hl. destruct (decide (pathOf d' = pathOf d)) as [E|Hne].
    + apply pathOf_inj in E as ->; [|eauto..]. rewrite lookup_insert_eq in Hl. simplify_eq.
      by rewrite (du_same_date T w q p d).
    + rewrite lookup_insert_ne in Hl by done. eauto.
  - intros Hpr q d' r Hq Hd' Hr Hir Hu. destruct (decide (d' = d)) as [->|Hne].
    { rewrite (du_same_date T w q p d) in Hir by done. by rewrite (Hno Hpr r) in Hu. }
    assert (pathOf d ≠ pathOf d') by (intros E; apply Hne; symmetry; eapply pathOf_inj; eauto).
    destruct (du_done0 Hpr q d' r) as (rows' & ? & ? & ?); try done.
    exists rows'. rewrite lookup_insert_ne by done. done.
  - intros d' Hd' Ht. simpl. rewrite lookup_insert_ne; [by apply du_after0|].
    intros E. apply pathOf_inj in E; [lia|eauto..].
  - eapply kept_weaken; [..|exact du_kept0]; [done..|]. intros e. apply held_alter_file.
    intros rows' Hf e' He'. left. exists p. split; [done|]. eapply of_part_in; [by eapply du_file0|done].
Qed.

(** Removing the local file of an hour: of a partition without a record, or of
    one that is gone from the index and was uploaded. *)
Lemma during_remove T w d :
  during T w → named_hour d →
  (prunes → ∀ p r, p ∈ w_parts w → has_date p d → r ∈ w_archive w → is_row (p_Name p) (BintrailID opts) r →
    ar_s3_uploaded_at r = None) →
  (∀ rows, w_files w !! pathOf d = Some (Whole rows) →
    (∃ p, p ∈ w_parts w ∧ has_date p d) ∨ s3At w d = Some (Whole rows)) →
  during T (set_files (delete (pathOf d) (w_files w)) w).
Proof.
  intros Hw Hd Hno Hold. pose proof Hw as []. split; try done; simpl.
  - intros q d' rows' Hq Hd' Hl. destruct (decide (pathOf d' = pathOf d)) as [E|Hne].
    + by rewrite E, lookup_delete_eq in Hl.
    + rewrite lookup_delete_ne in Hl by done. eauto.
  - intros Hpr q d' r Hq Hd' Hr Hir Hu. destruct (decide (d' = d)) as [->|Hne].
    { by rewrite (Hno Hpr q r) in Hu. }
    assert (pathOf d ≠ pathOf d') by (intros E; apply Hne; symmetry; eapply pathOf_inj; eauto).
    destruct (du_done0 Hpr q d' r) as (rows' & ? & ? & ?); try done.
    exists rows'. rewrite lookup_delete_ne by done. done.
  - intros d' Hd' Ht. simpl. destruct (du_after0 d' Hd' Ht) as (H1 & H2 & H3). split; [|done].
    destruct (decide (pathOf d = pathOf d')) as [->|]; [apply lookup_delete_eq|by rewrite lookup_delete_ne].
  - eapply kept_weaken; [..|exact du_kept0]; [done..|]. intros e. apply (held_alter_file _ _ None).
    intros rows' Hf e' He'. destruct (Hold _ Hf) as [(p & Hp & Hdp)|Hs].
    + left. exists p. split; [done|]. eapply of_part_in; [by eapply du_file0|done].
    + right. unfold s3At in Hs. destruct (keyOf d) as [k|]; [|done]. by exists k, rows'.
Qed.

(** Uploading the file of a listed partition. *)
Lemma during_upload T w p d k f :
  during T w → p ∈ w_parts w → has_date p d → d ≤ T → keyOf d = Some k → w_files w !! pathOf d = Some f →
  during T (set_s3 (<[k := f]> (w_s3 w)) w).
Proof.
  intros Hw Hp Hd HT Hk Hf. pose proof Hw as [].
  assert (∀ d', s3At (set_s3 (<[k := f]> (w_s3 w)) w) d' = if decide (keyOf d' = Some k) then Some f else s3At w d') as Hs.
  { intros d'. unfold s3At. destruct (decide (keyOf d' = Some k)) as [->|Hne]; [apply lookup_insert_eq|].
    destruct (keyOf d') as [k'|]; [|done]. apply lookup_insert_ne. congruence. }
  split; try done.
  - simpl. intros q d' rows' Hq Hd' Hl. rewrite Hs in Hl. case_decide as E; [|eauto].
    assert (d' = d) as -> by (eapply keyOf_inj; eauto). simplify_eq. eauto.
  - simpl. intros Hpr q d' r Hq Hd' Hr Hir Hu. destruct (du_done0 Hpr q d' r) as (rows' & H1 & H2 & H3); try done.
    exists rows'. split; [done|]. split; [|done]. rewrite Hs. case_decide as E; [|done].
    assert (d' = d) as -> by (eapply keyOf_inj; eauto). congruence.
  - intros d' Hd' Ht. destruct (du_after0 d' Hd' Ht) as (H1 & H2 & H3). split; [done|]. split; [|done].
    rewrite Hs. rewrite decide_False; [done|]. intros E. assert (d' = d) as -> by (eapply keyOf_inj; eauto). lia.
  - eapply kept_weaken; [..|exact du_kept0]; [done..|]. intros e. apply held_alter_s3.
    intros rows' Hk' e' He'. exists p. split; [done|]. eapply of_part_in; [|done].
    eapply du_s4; [done..|]. unfold s3At. by rewrite Hk.
Qed.

(** Changing [archive_state]: a row is of an hour that was known, and says it
    is uploaded only when it is. *)
Lemma during_archive T w a :
  during T w →
  (∀ r r' i, r ∈ a → r' ∈ a → ar_id r = Some i → ar_id r' = Some i → ar_partition r = ar_partition r' → r = r') →
  (prunes → ∀ p d r, p ∈ w_parts w → has_date p d → r ∈ a → is_row (p_Name p) (BintrailID opts) r →
    ar_s3_uploaded_at r ≠ None →
    r ∈ w_archive w ∨
    ∃ rows, w_files w !! pathOf d = Some (Whole rows) ∧ s3At w d = Some (Whole rows) ∧
      ar_row_count r = Some (Z.of_nat (length rows))) →
  (∀ r d, r ∈ a → ar_id r = Some (BintrailID opts) → PartitionDate (ar_partition r) = Some d →
    (∃ r', r' ∈ w_archive w ∧ ar_id r' = ar_id r ∧ ar_partition r' = ar_partition r) ∨ d ≤ T) →
  during T (set_archive a w).
Proof.
  intros Hw Hun Hdone Hhigh. pose proof Hw as []. split; try done; simpl.
  - intros Hpr p d r Hp Hd Hr Hir Hu. destruct (Hdone Hpr p d r) as [Hin|]; try done. by eapply du_done0.
  - intros d Hd Ht. destruct (du_after0 d Hd Ht) as (H1 & H2 & H3). split; [done|]. split; [done|].
    simpl. intros r Hr Hid Hpd. destruct (Hhigh r d) as [(r' & Hr' & Hid' & Hp')|]; [done..| |lia].
    apply (H3 r' Hr'); congruence.
Qed.

Lemma during_history T w h : during T w → during T (set_history h w).
Proof. intros []. by split. Qed.

Lemma during_counted T w c : during T w → during T (set_counted c w).
Proof. intros []. by split. Qed.

(** No partition of the hour is left. *)
Definition gone (d : Z) (w : world) : Prop := ∀ q, q ∈ w_parts w → ¬ has_date q d.

#[export] Instance stable_gone d : Stable (gone d).
Proof.
  intros w w' Hg H q Hq Hd. apply (part_grows_rev _ _ _ (gr_parts _ _ Hg)) in Hq as (p & Hp & Gp).
  apply (H p Hp). by eapply has_date_grows.
Qed.

(** Dropping a partition whose archive has as many rows as its last count saw. *)
Lemma during_drop T w p d rows :
  during T w → p ∈ w_parts w → has_date p d → d < w_now w → w_files w !! pathOf d = Some (Whole rows) →
  w_counted w !! p_Name p = Some (length rows) →
  let r := drop_partitions [p_Name p] w in
  during T r.2 ∧ (r.1 = inl () → gone d r.2) ∧
  (∀ q, q ∈ w_parts w → p_Name q ≠ p_Name p → q ∈ w_parts r.2).
Proof.
  intros Hw Hp Hd Ht Hf Hc r. subst r. unfold drop_partitions.
  destruct (_ && _); [|by split_and!; simpl].
  set (ps := filter (λ q, p_Name q ∉ [p_Name p]) (w_parts w)).
  assert (∀ q, q ∈ ps ↔ q ∈ w_parts w ∧ p_Name q ≠ p_Name p) as Hps.
  { intros q. unfold ps. rewrite list_elem_of_filter. set_solver. }
  pose proof Hw as []. simpl. split_and!; [|intros _ q Hq Hdq|intros q Hq Hne; by apply Hps].
  2: { simpl in Hq. apply Hps in Hq as [Hq Hne]. apply Hne. by eapply du_dates0. }
  split; simpl; try done.
  - unfold ps. eapply sublist_NoDup; [exact du_names0|]. apply fmap_sublist, sublist_filter.
  - intros q q' d' [Hq _]%Hps [Hq' _]%Hps. eauto.
  - intros q d' rows' [Hq _]%Hps. eauto.
  - intros q d' rows' [Hq _]%Hps. eauto.
  - intros Hpr q d' r [Hq _]%Hps. eauto.
  - destruct du_top0 as [(q & Hq & Hdq)|]; [|by right].
    destruct (decide (p_Name q = p_Name p)) as [E|Hne]; [|left; exists q; split; [by apply Hps|done]].
    right. unfold has_date in *. assert (d = T) by congruence. lia.
  - intros e He. destruct (du_kept0 e He) as [[(q & Hq & Heq)|H]|Hl]; [|left; by right|right; set_solver].
    destruct (decide (p_Name q = p_Name p)) as [E|Hne]; [|left; left; exists q; split; [by apply Hps|done]].
    assert (q = p) as -> by (by eapply du_same_name).
    rewrite <-(take_drop (length rows) (p_rows p)) in Heq. apply elem_of_app in Heq as [Htk|Hdr].
    + left. right. left. exists (pathOf d), rows. split; [done|]. pose proof (du_file0 _ _ _ Hp Hd Hf) as Ho.
      unfold of_part in Ho. by rewrite Ho.
    + right. apply elem_of_app. right. apply list_elem_of_bind. exists p. split.
      * unfold late_of. by rewrite Hc.
      * apply list_elem_of_filter. set_solver.
Qed.

Lemma stable_frame (Q : world → Prop) :
  (∀ w w', w_files w' = w_files w → w_archive w' = w_archive w → w_s3 w' = w_s3 w → w_counted w' = w_counted w →
    Q w → Q w') → Stable Q.
Proof. intros H w w' []. by apply H. Qed.

(** ** One partition on its way out

    [T] as above, [L] the partitions still to come. *)

Section one.

Context (T c : Z) (L : list string) (name : string) (d : Z).
Context (Hretry : prunes → Retry opts = true) (Hd : PartitionDate name = Some d) (HT : d ≤ T) (Hdc : d < c)
  (HL : name ∉ L).

Definition base (w : world) : Prop := during T w ∧ (∀ n, n ∈ L → listed n w) ∧ c ≤ w_now w.
Definition cur (w : world) : Prop := base w ∧ listed name w.

(** No record says it is uploaded. *)
Definition no_upload (w : world) : Prop :=
  ∀ r, r ∈ w_archive w → is_row name (BintrailID opts) r → ar_s3_uploaded_at r = None.

(** The file is complete and [archive_state] has its row count. *)
Definition staged (w : world) : Prop := ∃ rows,
  w_files w !! pathOf d = Some (Whole rows) ∧
  find_row name (BintrailID opts) (w_archive w) ≫= ar_row_count = Some (Z.of_nat (length rows)).

(** The file has just been written. *)
Definition written (st : Stats) (w : world) : Prop :=
  (∃ rows, w_files w !! pathOf d = Some (Whole rows) ∧ st_Rows st = Z.of_nat (length rows)) ∧
  (prunes → no_upload w).

(** The bucket has what the file has. *)
Definition uploaded (w : world) : Prop := ∃ rows,
  w_files w !! pathOf d = Some (Whole rows) ∧ s3At w d = Some (Whole rows).

#[export] Instance stable_base : Stable base.
Proof.
  intros w w' Hg (H1 & H2 & H3). split_and!; [by eapply stable_during| |pose proof (gr_now _ _ Hg); lia].
  intros n Hn. eapply stable_listed; eauto.
Qed.

#[export] Instance stable_cur : Stable cur.
Proof. apply _. Qed.

#[export] Instance stable_no_upload : Stable no_upload.
Proof. apply stable_frame. unfold no_upload. intros w w' _ -> _ _. done. Qed.

#[export] Instance stable_staged : Stable staged.
Proof. apply stable_frame. unfold staged. intros w w' -> -> _ _. done. Qed.

#[export] Instance stable_written st : Stable (written st).
Proof. apply stable_frame. unfold written, no_upload. intros w w' -> -> _ _. done. Qed.

#[export] Instance stable_uploaded : Stable uploaded.
Proof. apply stable_frame. unfold uploaded, s3At. intros w w' -> _ -> _. done. Qed.

#[export] Instance stable_imp (C : Prop) (Q : world → Prop) : Stable Q → Stable (λ w, C → Q w).
Proof. intros HQ w w' Hg H k. eapply HQ; eauto. Qed.

Lemma base_after w : base w → after T w.
Proof. intros [H _]. by apply during_after. Qed.

Lemma cur_after w : cur w → after T w.
Proof. intros [H _]. by apply base_after. Qed.

#[local] Hint Resolve base_after cur_after : core.

Lemma cur_part w : cur w → ∃ p, p ∈ w_parts w ∧ p_Name p = name ∧ has_date p d.
Proof. intros [_ Hl]. by apply listed_part. Qed.

Lemma find_row_spec w r :
  during T w → r ∈ w_archive w → is_row name (BintrailID opts) r →
  find_row name (BintrailID opts) (w_archive w) = Some r.
Proof.
  intros Hw Hr Hir. unfold find_row. destruct (head _) as [r'|] eqn:Hh.
  - apply head_Some_elem_of, list_elem_of_filter in Hh as [[Hp' Hi'] Hr']. destruct Hir as [Hp Hi]. f_equal.
    eapply (du_unique _ _ Hw); eauto. congruence.
  - apply head_None in Hh. exfalso.
    assert (r ∈ filter (is_row name (BintrailID opts)) (w_archive w)) as Hf by by apply list_elem_of_filter.
    rewrite Hh in Hf. by apply not_elem_of_nil in Hf.
Qed.

(** When the file is missing, broken or does not match its record, no record
    says it is uploaded. *)
Lemma unverified_no_upload w :
  cur w → prunes →
  (∀ rows, w_files w !! pathOf d = Some (Whole rows) →
    find_row name (BintrailID opts) (w_archive w) ≫= ar_row_count ≠ Some (Z.of_nat (length rows))) →
  no_upload w.
Proof.
  intros Hc Hpr Hv r Hr Hir. destruct (ar_s3_uploaded_at r) as [t|] eqn:Hu; [exfalso|done].
  destruct (cur_part _ Hc) as (p & Hp & Hn & Hpd). destruct Hc as [[Hw _] _].
  destruct (du_done _ _ Hw Hpr p d r) as (rows & Hf & _ & Hcount); [done..|by rewrite Hn|congruence|].
  apply (Hv rows Hf). by rewrite (find_row_spec w r).
Qed.

Lemma stats_of_rows rows : st_Rows (stats_of rows) = Z.of_nat (length rows).
Proof.
  unfold stats_of. set (f := λ st e, _). assert (∀ st, st_Rows (fold_left f rows st) = st_Rows st + Z.of_nat (length rows)) as H.
  { induction rows as [|e rows IH]; intros st; simpl; [lia|]. rewrite IH. simpl. lia. }
  by rewrite H.
Qed.

Lemma of_part_sorted p : of_part (sort_by (cmp_on e_id Z.compare) (p_rows p)) p.
Proof. unfold of_part. rewrite sort_by_length, firstn_all. apply sort_by_perm. Qed.

(** The effect of [ArchivePartition]. *)
Lemma cur_write w rows :
  cur w → (prunes → no_upload w) → part_rows (w_parts w) name = Some rows →
  let sorted := sort_by (cmp_on e_id Z.compare) rows in
  let w' := set_files (<[pathOf d := Whole sorted]> (w_files w)) w in
  cur w' ∧ written (stats_of sorted) w'.
Proof.
  intros Hc Hno Hr sorted w'. apply part_rows_in in Hr as (p & Hp & Hn & <-).
  assert (has_date p d) as Hpd by (unfold has_date; congruence).
  pose proof Hc as [[Hw [Hl Hnow]] Hcur].
  assert (during T w').
  { apply (during_write T w p); [done..|apply of_part_sorted|]. intros Hpr r Hr Hir. apply Hno; [done..|]. by rewrite <-Hn. }
  split; [done|]. split; [|done]. exists sorted. split; [apply lookup_insert_eq|apply stats_of_rows].
Qed.

Lemma archiveToDisk_ok :
  hoare cur (archiveToDisk opts name (pathOf d))
    (λ st w, cur w ∧ match st with None => staged w | Some st => written st w end) (after T).
Proof.
  unfold archiveToDisk.
  eapply hoare_bind; [apply (hoare_look _ _ _ (λ b w, cur w ∧ b = fileExists (pathOf d) w)); auto|].
  intros b. eapply (hoare_bind _ _ _ _ (λ skipped w, cur w ∧ if skipped : bool then staged w else prunes → no_upload w)).
  - destruct (Retry opts && b) eqn:Hrb.
    + eapply hoare_or_raise. unfold verifiedExistingArchive.
      eapply hoare_bind.
      { eapply hoare_weaken; [apply (hoare_read _ _ cur); auto|naive_solver|]. intros a w Hw. exact Hw. }
      intros [[n|]|e]; simpl.
      * eapply hoare_bind; [apply (hoare_look _ _ _ (λ v w, cur w ∧ v = ValidateArchiveFile (pathOf d) w ∧
          find_row name (BintrailID opts) (w_archive w) ≫= ar_row_count = Some n)); naive_solver|].
        intros v. apply hoare_ret. intros w (Hc & -> & Hn). split; [done|]. unfold ValidateArchiveFile.
        destruct (w_files w !! pathOf d) as [[rows| |]|] eqn:Hf.
        2-4: intros Hpr; apply unverified_no_upload; [done..|intros rows; congruence].
        destruct (Z.eqb_spec (Z.of_nat (length rows)) n) as [<-|Hne]; [by exists rows|].
        intros Hpr. apply unverified_no_upload; [done..|]. intros rows'. rewrite Hf. intros [= <-]. congruence.
      * apply hoare_ret. intros w [Hc Hn]. split; [done|]. intros Hpr. apply unverified_no_upload; [done..|].
        intros rows _. injection (Hn _ eq_refl) as ->. done.
      * apply hoare_ret. naive_solver.
    + apply hoare_ret. intros w [Hc ->]. split; [done|]. intros Hpr. apply unverified_no_upload; [done..|].
      intros rows Hf. rewrite (Hretry Hpr) in Hrb. unfold fileExists in Hrb. by rewrite Hf in Hrb.
  - intros [|]; [by apply hoare_ret|].
    eapply hoare_bind; [|intros st; apply hoare_ret; intros w Hw; exact Hw].
    eapply hoare_or_raise. apply hoare_call; [apply _|..|naive_solver].
    + intros w [Hc Hno]. destruct (part_rows _ _) as [rows|] eqn:Hr; simpl; [|auto].
      by apply cur_write.
    + intros w e [Hc Hno]. destruct (part_rows _ _) as [rows|] eqn:Hr; simpl; [|auto].
      split; [auto|]. apply cur_after. by apply cur_write.
Qed.

(** ** Its record *)

Lemma upsert_find n a : ar_id n = Some (BintrailID opts) → ar_partition n = name →
  find_row name (BintrailID opts) (upsert_row n a) ≫= ar_row_count = ar_row_count n.
Proof.
  intros Hi Hn. unfold upsert_row. rewrite Hi, Hn. set (id := BintrailID opts) in *.
  case_bool_decide as Hex.
  - set (f := λ r, if bool_decide (is_row name id r) then _ else r).
    assert (∀ r, is_row name id r → ar_row_count (f r) = ar_row_count n ∧ is_row name id (f r)) as Hf.
    { intros r Hr. unfold f. rewrite bool_decide_eq_true_2 by done. done. }
    assert (∀ r, ¬ is_row name id r → f r = r) as Hf'.
    { intros r Hr. unfold f. by rewrite bool_decide_eq_false_2. }
    clearbody f. unfold find_row. induction a as [|r a IH]; [by inversion Hex|]. csimpl. rewrite !filter_cons.
    destruct (decide (is_row name id r)) as [Hr|Hr].
    + destruct (Hf r Hr). rewrite decide_True by done. simpl. done.
    + rewrite (Hf' r Hr), decide_False by done. apply IH. by inversion Hex.
  - unfold find_row. rewrite filter_app, (filter_none _ a).
    + rewrite app_nil_l, filter_cons, decide_True by done. done.
    + intros r Hr Hir. apply Hex, Exists_exists. eauto.
Qed.

Lemma upsert_elem n a r : ar_id n = Some (BintrailID opts) → ar_partition n = name → r ∈ upsert_row n a →
  r = n ∨ (r ∈ a ∧ ¬ is_row name (BintrailID opts) r) ∨
  (is_row name (BintrailID opts) r ∧ ∃ r', r' ∈ a ∧ is_row name (BintrailID opts) r' ∧
     ar_s3_uploaded_at r = ar_s3_uploaded_at r' ∧ ar_row_count r = ar_row_count n).
Proof.
  intros Hi Hn. unfold upsert_row. rewrite Hi, Hn. case_bool_decide as Hex.
  - intros (r' & -> & Hr')%list_elem_of_fmap. case_bool_decide as Hr; [|auto].
    right. right. split; [done|]. by exists r'.
  - rewrite elem_of_app, list_elem_of_singleton. intros [Hr|]; [|auto]. right. left. split; [done|].
    intros Hir. apply Hex, Exists_exists. eauto.
Qed.

Lemma upsert_unique n a :
  (∀ r r' i, r ∈ a → r' ∈ a → ar_id r = Some i → ar_id r' = Some i → ar_partition r = ar_partition r' → r = r') →
  ∀ r r' i, r ∈ upsert_row n a → r' ∈ upsert_row n a → ar_id r = Some i → ar_id r' = Some i →
    ar_partition r = ar_partition r' → r = r'.
Proof.
  intros Hun r r' i. unfold upsert_row. destruct (ar_id n) as [j|] eqn:Hj.
  - case_bool_decide as Hex.
    + set (f := λ x, if bool_decide (is_row _ j x) then _ else x).
      assert (∀ x, ar_id (f x) = ar_id x ∧ ar_partition (f x) = ar_partition x) as Hf.
      { intros x. unfold f. by case_bool_decide. }
      clearbody f. intros (x & -> & Hx)%list_elem_of_fmap (x' & -> & Hx')%list_elem_of_fmap.
      destruct (Hf x) as [-> ->], (Hf x') as [-> ->]. intros. f_equal. eauto.
    + rewrite !elem_of_app, !list_elem_of_singleton.
      intros [Hr| ->] [Hr'| ->] Hi Hi' Hp; [eauto| | |done]; exfalso; apply Hex, Exists_exists;
        [exists r|exists r']; (split; [done|]); split; congruence.
  - rewrite !elem_of_app, !list_elem_of_singleton. intros [Hr| ->] [Hr'| ->] Hi Hi' Hp; [eauto|congruence..].
Qed.

Context (s3 : option (string * string)) (Hs3 : s3 = dest) (Hnone : s3 = None → ArchiveS3 opts = "").

Lemma cur_record w st key :
  cur w → written st w →
  let w' := set_archive (upsert_row (newRow opts s3 name (pathOf d) key st) (w_archive w)) w in
  cur w' ∧ staged w'.
Proof.
  intros Hc [(rows & Hf & Hst) Hno] w'. pose proof Hc as [[Hw [Hl Hnow]] Hcur].
  set (n := newRow opts s3 name (pathOf d) key st) in *.
  assert (ar_id n = Some (BintrailID opts) ∧ ar_partition n = name) as [Hi Hn] by done.
  assert (during T w').
  { apply during_archive; [done|apply upsert_unique, (du_unique _ _ Hw)|..].
    - intros Hpr p d' r Hp Hpd Hr Hir Hu. left.
      destruct (upsert_elem n _ r Hi Hn Hr) as [->|[[Hin _]|(Hrow & r' & Hr' & Hrow' & Hu' & _)]]; [done|done|].
      rewrite Hu' in Hu. by rewrite (Hno Hpr r') in Hu.
    - intros r d' Hr Hid Hpd.
      destruct (upsert_elem n _ r Hi Hn Hr) as [->|[[Hin _]|([Hrn _] & _)]].
      + right. rewrite Hn in Hpd. assert (d' = d) as -> by congruence. done.
      + left. by exists r.
      + right. rewrite Hrn in Hpd. assert (d' = d) as -> by congruence. done. }
  split; [done|]. exists rows. split; [done|]. change (w_archive w') with (upsert_row n (w_archive w)).
  rewrite (upsert_find n) by done. simpl. by rewrite Hst.
Qed.

(** ** The upload *)

Lemma mark_elem bucket key now (a : list arow) r :
  r ∈ mark_uploaded name (BintrailID opts) bucket key now <$> a →
  (r ∈ a ∧ ¬ is_row name (BintrailID opts) r) ∨
  (is_row name (BintrailID opts) r ∧ ∃ r', r' ∈ a ∧ is_row name (BintrailID opts) r' ∧
     ar_row_count r = ar_row_count r').
Proof.
  intros (r' & -> & Hr')%list_elem_of_fmap. unfold mark_uploaded. case_bool_decide as Hr; [|auto].
  right. split; [done|]. by exists r'.
Qed.

Lemma cur_mark w bucket key :
  cur w → staged w → uploaded w →
  let w' := set_archive (mark_uploaded name (BintrailID opts) bucket key (w_now w) <$> w_archive w) w in
  cur w' ∧ staged w' ∧ uploaded w'.
Proof.
  intros Hc (rows & Hf & Hcount) (rows' & Hf' & Hup) w'. pose proof Hc as [[Hw [Hl Hnow]] Hcur].
  assert (rows' = rows) as -> by congruence.
  set (f := mark_uploaded name (BintrailID opts) bucket key (w_now w)) in *.
  assert (∀ x, ar_id (f x) = ar_id x ∧ ar_partition (f x) = ar_partition x ∧ ar_row_count (f x) = ar_row_count x) as Hfx.
  { intros x. unfold f, mark_uploaded. by case_bool_decide. }
  assert (during T w').
  { apply during_archive; [done|..].
    - intros r r' i (x & -> & Hx)%list_elem_of_fmap (x' & -> & Hx')%list_elem_of_fmap.
      destruct (Hfx x) as (-> & -> & _), (Hfx x') as (-> & -> & _). intros. f_equal. by eapply (du_unique _ _ Hw).
    - intros Hpr p d' r Hp Hpd Hr Hir Hu.
      destruct (mark_elem _ _ _ _ _ Hr) as [[Hin _]|(Hrow & r' & Hr' & Hrow' & Hcnt)]; [by left|right].
      assert (d' = d) as ->.
      { destruct Hir as [Hir _], Hrow as [Hrow _]. unfold has_date in Hpd. congruence. }
      exists rows. split; [done|]. split; [done|]. rewrite Hcnt.
      rewrite (find_row_spec w r') in Hcount by done. done.
    - intros r d' Hr Hid Hpd. left. apply list_elem_of_fmap in Hr as (x & -> & Hx).
      exists x. destruct (Hfx x) as (-> & -> & _). done. }
  split; [done|]. split; [|by exists rows]. exists rows. split; [done|]. simpl. rewrite <-Hcount.
  unfold find_row. clearbody f. clear - Hfx. induction (w_archive w) as [|x a IH]; [done|]. csimpl.
  rewrite !filter_cons. destruct (Hfx x) as (Hi & Hp & Hcnt).
  destruct (decide (is_row name (BintrailID opts) x)) as [Hx|Hx].
  - rewrite decide_True by (unfold is_row in *; rewrite Hi, Hp; done). simpl. done.
  - rewrite decide_False by (unfold is_row in *; rewrite Hi, Hp; done). done.
Qed.

Lemma cur_upload w k f :
  cur w → staged w → keyOf d = Some k → w_files w !! pathOf d = Some f →
  let w' := set_s3 (<[k := f]> (w_s3 w)) w in cur w' ∧ staged w' ∧ uploaded w'.
Proof.
  intros Hc Hst Hk Hf w'. destruct (cur_part _ Hc) as (p & Hp & Hn & Hpd). pose proof Hc as [[Hw [Hl Hnow]] Hcur].
  pose proof (during_upload T w p d k f Hw Hp Hpd HT Hk Hf).
  split; [done|]. split; [done|]. destruct Hst as (rows & Hf' & _). exists rows. split; [done|].
  unfold s3At. rewrite Hk. simpl. rewrite lookup_insert_eq. congruence.
Qed.

Definition ready (w : world) : Prop := cur w ∧ staged w ∧ (prunes → uploaded w).

Lemma uploadOne_ok key : (∀ bucket prefix, s3 = Some (bucket, prefix) → keyOf d = Some (bucket, key)) →
  hoare (λ w, cur w ∧ staged w) (uploadOne opts s3 name (pathOf d) key)
    (λ b w, if b : bool then ready w else cur w) (after T).
Proof.
  intros Hkey. unfold uploadOne. destruct s3 as [[bucket prefix]|].
  2: { apply hoare_ret. intros w [Hc Hs]. split_and!; [done..|]. intros [_ []]. auto. }
  eapply (hoare_bind _ _ _ _ (λ skip w, (cur w ∧ staged w) ∧ (skip = true → prunes → uploaded w))).
  - destruct (Retry opts) eqn:Hr; [|apply hoare_ret; naive_solver].
    eapply hoare_bind.
    { eapply hoare_or_raise. eapply hoare_weaken;
        [apply (hoare_read _ _ (λ w, cur w ∧ staged w)); naive_solver|naive_solver|].
      intros [a|e] w [Hw Ha]; [|naive_solver]. exact (conj Hw (Ha a eq_refl)). }
    intros a. apply hoare_ret. intros w [[Hc Hs] Ha]. split; [done|]. intros Hskip Hpr.
    injection Ha as Ha. unfold find_row in Ha. destruct (head _) as [r|] eqn:Hh; [|by subst a].
    simpl in Ha. subst a. apply head_Some_elem_of, list_elem_of_filter in Hh as [Hrow Hin].
    destruct (cur_part _ Hc) as (p & Hp & Hn & Hpd). destruct Hc as [[Hw _] _].
    destruct (du_done _ _ Hw Hpr p d r) as (rows & Hf & Hup & _); [done..|by rewrite Hn|by destruct (ar_s3_uploaded_at r)|].
    by exists rows.
  - intros [|]; [apply hoare_ret; unfold ready; naive_solver|].
    eapply (hoare_bind _ _ _ _ (λ r w, match r with inl _ => cur w ∧ staged w ∧ uploaded w | inr _ => cur w end)).
    + unfold uploadFile. apply hoare_call; [apply _|..|naive_solver].
      * intros w [[Hc Hs] _]. destruct (w_files w !! pathOf d) as [f|] eqn:Hf; simpl; [|done].
        by eapply cur_upload; eauto.
      * intros w e [[Hc Hs] _]. split; [done|]. destruct (w_files w !! pathOf d) as [f|] eqn:Hf; simpl; [|done].
        eapply cur_upload; eauto.
    + intros [[]|[]]; try (apply hoare_raise; naive_solver); try (by apply hoare_ret).
      eapply hoare_bind; [|intros u; apply hoare_ret; intros w Hw; exact Hw].
      eapply hoare_or_raise. unfold updateUploaded. apply hoare_call; [apply _|..|naive_solver].
      * intros w (Hc & Hs & Hu). simpl. destruct (cur_mark w bucket key Hc Hs Hu) as (? & ? & ?). unfold ready. auto.
      * intros w e (Hc & Hs & Hu). split; [auto|]. simpl. apply cur_after. by apply cur_mark.
Qed.

(** ** Giving up on a stale archive *)

Definition no_row (w : world) : Prop := ∀ r, r ∈ w_archive w → ¬ is_row name (BintrailID opts) r.

#[export] Instance stable_no_row : Stable no_row.
Proof. apply stable_frame. unfold no_row. intros w w' _ -> _ _. done. Qed.

Lemma cur_delete_row w :
  cur w →
  let w' := set_archive (filter (λ r, ¬ is_row name (BintrailID opts) r) (w_archive w)) w in cur w' ∧ no_row w'.
Proof.
  intros Hc w'. pose proof Hc as [[Hw [Hl Hnow]] Hcur].
  assert (during T w').
  { apply during_archive; [done|..].
    - intros r r' i [_ Hr]%list_elem_of_filter [_ Hr']%list_elem_of_filter. by eapply (du_unique _ _ Hw).
    - intros _ p d' r _ _ [_ Hr]%list_elem_of_filter _ _. by left.
    - intros r d' [_ Hr]%list_elem_of_filter _ _. left. by exists r. }
  split; [done|]. intros r [Hr _]%list_elem_of_filter. done.
Qed.

Lemma base_remove w : cur w → no_row w → cur (set_files (delete (pathOf d) (w_files w)) w).
Proof.
  intros Hc Hno. destruct (cur_part _ Hc) as (p & Hp & Hn & Hpd). pose proof Hc as [[Hw [Hl Hnow]] Hcur].
  assert (during T (set_files (delete (pathOf d) (w_files w)) w)); [|done].
  apply during_remove; [done|by eapply has_date_named|..].
  - intros _ q r Hq Hqd Hr Hir. rewrite (du_same_date T w q p d) in Hir by done. rewrite Hn in Hir.
    by apply Hno in Hir.
  - intros rows _. left. by exists p.
Qed.

Lemma deferStale_ok : hoare cur (deferStale opts name (pathOf d)) (λ _ w, base w) (after T).
Proof.
  unfold deferStale. eapply hoare_bind; [|intros u; apply hoare_ret; intros w Hw; exact Hw].
  eapply hoare_or_raise. unfold discardStaleArchive.
  eapply (hoare_bind _ _ _ _ (λ r w, match r with inl _ => cur w ∧ no_row w | inr _ => cur w end)).
  - unfold deleteArchiveRow. apply hoare_call; [apply _|..|naive_solver].
    + intros w Hc. simpl. by apply cur_delete_row.
    + intros w e Hc. split; [done|]. simpl. by apply cur_delete_row.
  - intros [u|e]; [|apply hoare_ret; naive_solver].
    eapply (hoare_bind _ _ _ _ (λ _ w, cur w)); [|intros r; apply hoare_ret; by intros w [? _]].
    unfold removeFile. apply hoare_call; [apply _|..|naive_solver].
    + intros w [Hc Hno]. simpl. by apply base_remove.
    + intros w e [Hc Hno]. split; [done|]. simpl. by apply base_remove.
Qed.

(** ** The drop *)

(** The file holds what the last count saw. *)
Definition counted (w : world) : Prop := ∃ rows,
  w_files w !! pathOf d = Some (Whole rows) ∧ w_counted w !! name = Some (length rows).

#[export] Instance stable_counted : Stable counted.
Proof. apply stable_frame. unfold counted. intros w w' -> _ _ ->. done. Qed.

#[export] Instance stable_ready : Stable ready.
Proof. unfold ready. apply _. Qed.

(** The archive has [n] rows. *)
Definition rows_in_file (n : Z) (w : world) : Prop := ∃ rows,
  w_files w !! pathOf d = Some (Whole rows) ∧ n = Z.of_nat (length rows).

#[export] Instance stable_rows_in_file n : Stable (rows_in_file n).
Proof. apply stable_frame. unfold rows_in_file. intros w w' -> _ _ _. done. Qed.

(** Before the drop: the archive has [n] rows, and they are uploaded if the
    file will be pruned. *)
Definition armed (n : Z) (w : world) : Prop := cur w ∧ rows_in_file n w ∧ (prunes → uploaded w).

(** After it. *)
Definition done_ (w : world) : Prop := base w ∧ gone d w ∧ (prunes → uploaded w).

#[export] Instance stable_armed n : Stable (armed n).
Proof. unfold armed. apply _. Qed.

#[export] Instance stable_done : Stable done_.
Proof. unfold done_. apply _. Qed.

Lemma cur_count w m : cur w → cur (set_counted m w).
Proof. intros [[Hw [Hl Hnow]] Hcur]. split; [|done]. split; [by apply during_counted|done]. Qed.

(** A count, and what it says when it agrees with the archive. *)
Lemma partitionRowCount_ok n :
  hoare (armed n) (partitionRowCount name : P _)
    (λ r w, armed n w ∧ match r with inl live => live = n → counted w | inr _ => True end) (after T).
Proof.
  assert (∀ w, armed n w → after T w) as Haf by (unfold armed; naive_solver).
  unfold partitionRowCount. apply hoare_call; [apply _|..|done].
  - intros w (Hc & Hr & Hu). destruct (part_rows _ _) as [rows|]; simpl; [|done].
    split; [by split; [apply cur_count|]|]. intros <-. destruct Hr as (rows' & Hf & Hlen%Nat2Z.inj).
    exists rows'. split; [done|]. simpl. rewrite lookup_insert_eq. congruence.
  - intros w e (Hc & Hr & Hu). split; [done|]. destruct (part_rows _ _) as [rows|]; simpl; [|done].
    split; [|done]. by split; [apply cur_count|].
Qed.


(** The drop happened, whatever its answer. *)
Definition lost (w : world) : Prop := base w ∧ gone d w.

#[export] Instance stable_lost : Stable lost.
Proof. unfold lost. apply _. Qed.

Lemma lost_rows w : lost w → part_rows (w_parts w) name = None.
Proof.
  intros [_ Hg]. destruct (part_rows _ _) as [rows|] eqn:Hr; [exfalso|done].
  apply part_rows_in in Hr as (p & Hp & Hn & _). apply (Hg p Hp). unfold has_date. congruence.
Qed.

Lemma armed_drop n w : armed n w → counted w →
  let r := drop_partitions [name] w in
  match r.1 with inl _ => done_ r.2 | inr _ => armed n r.2 end.
Proof.
  intros Ha Hcnt. destruct (drop_partitions [name] w) as [[u|e] w'] eqn:Hr; simpl.
  2: { unfold drop_partitions in Hr. destruct (_ && _); simplify_eq. done. }
  destruct Ha as (Hc & (rows & Hf & ->) & Hu). destruct (cur_part _ Hc) as (p & Hp & Hn & Hpd).
  destruct Hc as [[Hw [Hl Hnow]] Hcur]. destruct Hcnt as (rows' & Hf' & Hcnt). assert (rows' = rows) as -> by congruence.
  destruct (during_drop T w p d rows) as (Hdu & Hgone & Hkeep); [done|done|done|lia|done|by rewrite Hn|].
  rewrite Hn, Hr in Hdu, Hgone, Hkeep. simpl in *.
  assert (w_now w' = w_now w ∧ w_files w' = w_files w ∧ w_s3 w' = w_s3 w) as (En & Ef & Es).
  { unfold drop_partitions in Hr. destruct (_ && _); by simplify_eq. }
  split_and!; [split_and!; [done| |by rewrite En]|destruct u; by apply Hgone|].
  - intros m Hm. pose proof (Hl m Hm) as (q & -> & Hq)%list_elem_of_fmap. apply list_elem_of_fmap. exists q.
    split; [done|]. apply Hkeep; [done|]. intros E. apply HL. by rewrite <-E.
  - intros Hpr. destruct (Hu Hpr) as (rows' & H1 & H2). exists rows'. unfold s3At in *. by rewrite Ef, Es.
Qed.

Lemma armed_after n w : armed n w → after T w.
Proof. unfold armed. naive_solver. Qed.

Lemma done_after w : done_ w → after T w.
Proof. unfold done_. naive_solver. Qed.

Lemma lost_after w : lost w → after T w.
Proof. unfold lost. naive_solver. Qed.

#[local] Hint Resolve armed_after done_after lost_after : core.

(** Takes conjunctions and disjunctions apart and ends with the hints. *)
Ltac halves := intros; repeat match goal with H : _ ∧ _ |- _ => destruct H | H : _ ∨ _ |- _ => destruct H end; eauto.

Lemma alterOnce_ok n :
  hoare (λ w, armed n w ∧ counted w) (alterOnce (drop_partitions [name]) : P _)
    (λ r w, match r with inl _ => done_ w | inr _ => armed n w ∨ lost w end) (after T).
Proof.
  unfold alterOnce. eapply hoare_bind; [apply hoare_touch; [apply _|by halves]|].
  intros [u|e]; [|apply hoare_ret; by halves].
  eapply hoare_bind; [apply hoare_touch; [apply _|by halves]|].
  intros [u'|e]; [|apply hoare_ret; by halves].
  apply hoare_call; [apply _|..|by halves].
  - intros w [Ha Hc]. pose proof (armed_drop n w Ha Hc) as H. simpl in H.
    destruct (drop_partitions [name] w) as [[] w']; simpl in *; auto.
  - intros w e [Ha Hc]. split; [by left|]. pose proof (armed_drop n w Ha Hc) as H. simpl in H.
    destruct (drop_partitions [name] w) as [[] w']; simpl in *; [right|by left]. by destruct H as (? & ? & _).
Qed.

(** What an attempt to drop ends with. *)
Definition drop_post (r : unit + dropErr) (w : world) : Prop :=
  match r with inl _ => done_ w | inr errChangedWhileWaiting => cur w | inr _ => base w end.

Lemma unchanged_ok n :
  hoare (λ w, armed n w ∨ lost w) (unchanged name (Some n))
    (λ r w, match r with inl _ => armed n w ∧ counted w | inr _ => drop_post r w end) (after T).
Proof.
  assert (hoare (λ w, armed n w) (unchanged name (Some n))
    (λ r w, match r with inl _ => armed n w ∧ counted w | inr _ => drop_post r w end) (after T)) as H1.
  { unfold unchanged. eapply hoare_bind; [apply partitionRowCount_ok|]. intros [live|e]; apply hoare_ret.
    - intros w [Ha Hc]. simpl. destruct (Z.eqb_spec n live) as [<-|]; [auto|]. simpl. apply Ha.
    - intros w [[[Hb _] _] _]. done. }
  assert (hoare (λ w, lost w) (unchanged name (Some n))
    (λ r w, match r with inl _ => armed n w ∧ counted w | inr _ => drop_post r w end) (after T)) as H2.
  { unfold unchanged.
    eapply (hoare_bind _ _ _ _ (λ r w, match r with inl _ => False | inr _ => lost w end)).
    - unfold partitionRowCount. apply hoare_call; [apply _|..|exact lost_after].
      + intros w Hw. by rewrite (lost_rows w Hw).
      + intros w e Hw. by rewrite (lost_rows w Hw).
    - intros [live|e]; apply hoare_ret; [done|]. by intros w [Hb _]. }
  intros y [Hy|Hy]; [by apply H1|by apply H2].
Qed.

Lemma armed_or_lost_base n w : armed n w ∨ lost w → base w.
Proof. intros [[[Hb _] _]|[Hb _]]; done. Qed.

Lemma alterFrom_ok n more first :
  hoare (λ w, if first : bool then armed n w ∧ counted w else armed n w ∨ lost w)
    (alterFrom (drop_partitions [name]) (Some (unchanged name (Some n))) more first) drop_post (after T).
Proof.
  revert first. induction more as [|more IH]; intros first; cbn [alterFrom].
  all: eapply (hoare_bind _ _ _ _ (λ r w, match r with inl _ => armed n w ∧ counted w | inr _ => drop_post r w end));
    [destruct first; [by apply hoare_ret|apply unchanged_ok]|].
  all: intros [u|e]; [|by apply hoare_ret].
  all: eapply hoare_bind; [apply alterOnce_ok|].
  all: intros [u'|e]; [by apply hoare_ret|].
  all: destruct e; [|apply hoare_ret; intros w; apply (armed_or_lost_base n)..].
  - eapply (hoare_bind _ _ _ _ (λ _ w, armed n w ∨ lost w)); [|intros r; apply hoare_ret; intros w; apply (armed_or_lost_base n)].
    unfold typeIndexBuildNote. eapply hoare_bind; [apply hoare_touch; [apply _|by halves]|]. intros ?.
    eapply hoare_bind; [apply hoare_touch; [apply _|by halves]|]. intros ?. by apply hoare_ret.
  - eapply hoare_bind; [apply hoare_touch; [apply _|by halves]|].
    intros [u'|e]; [exact (IH false)|apply hoare_ret; intros w; apply (armed_or_lost_base n)].
Qed.

Lemma dropPartitions_ok n :
  hoare (λ w, armed n w ∧ counted w) (dropPartitions [name] (Some (unchanged name (Some n)))) drop_post (after T).
Proof.
  unfold dropPartitions, MarkPartitionsDropped. destruct (droppedBound [name]) as [bound|m].
  2: { eapply (hoare_bind _ _ _ _ (λ r w, armed n w ∧ r = inr (Unnamed m))); [apply hoare_ret; naive_solver|].
       intros [u|e]; [intros y [_ [=]]|]. apply hoare_ret. intros w [Ha [= ->]]. apply Ha. }
  eapply (hoare_bind _ _ _ _ (λ r w, armed n w ∧ counted w ∧ r ≠ inr errChangedWhileWaiting)).
  - eapply (hoare_bind _ _ _ _ (λ _ w, armed n w ∧ counted w)).
    + apply hoare_call; [apply _|..|by halves]; simpl.
      * intros w [Ha Hc]. split; [|done]. destruct Ha as ([[Hw [Hl Hnow]] Hcur] & Hr & Hu).
        split_and!; [|done..]. split; [|done]. split; [by apply during_history|done].
      * intros w e [Ha Hc]. split; [done|]. split; [|done]. destruct Ha as ([[Hw [Hl Hnow]] Hcur] & Hr & Hu).
        split_and!; [|done..]. split; [|done]. split; [by apply during_history|done].
    + intros [u|[]]; apply hoare_ret; naive_solver.
  - intros [u|e].
    + eapply hoare_weaken; [apply (alterFrom_ok n _ true)|naive_solver|done].
    + apply hoare_ret. intros w (Ha & Hc & He). destruct e; [apply Ha|done|apply Ha..].
Qed.

Lemma hoare_ex {E A X} (m : M E A) (Q : X → world → Prop) Post Bad :
  (∀ x, hoare (Q x) m Post Bad) → hoare (λ w, ∃ x, Q x w) m Post Bad.
Proof. intros H y [x Hx]. by apply (H x). Qed.

Lemma hoare_pure {E A} (m : M E A) (F : Prop) (Q : world → Prop) Post Bad :
  (F → hoare Q m Post Bad) → hoare (λ w, F ∧ Q w) m Post Bad.
Proof. intros H y [Hf Hq]. by apply (H Hf). Qed.

Lemma ready_armed w : ready w →
  ∃ n, find_row name (BintrailID opts) (w_archive w) ≫= ar_row_count = Some n ∧ armed n w.
Proof.
  intros (Hc & (rows & Hf & Hn) & Hu). exists (Z.of_nat (length rows)). split; [done|].
  split; [done|]. split; [by exists rows|done].
Qed.

Lemma done_remove w : prunes → done_ w → base (set_files (delete (pathOf d) (w_files w)) w).
Proof.
  intros Hpr ((Hw & Hl & Hnow) & Hg & Hu).
  assert (during T (set_files (delete (pathOf d) (w_files w)) w)); [|done].
  apply during_remove; [done|by eapply PartitionDate_named|..].
  - intros _ p r Hp Hpd. by apply Hg in Hpd.
  - intros rows Hf. right. destruct (Hu Hpr) as (rows' & H1 & H2). congruence.
Qed.

Lemma prune_ok :
  hoare done_ ((if PruneLocalAfterUpload opts && negb (bool_decide (ArchiveS3 opts = "")) then
             removeFile (pathOf d);; mret ()
           else mret ()) : P ()) (λ _ w, base w) (after T).
Proof.
  destruct (_ && _) eqn:Hp; [|apply hoare_ret; by intros w [? _]].
  assert prunes as Hpr.
  { apply andb_true_iff in Hp as [H1 H2%negb_true_iff%bool_decide_eq_false]. done. }
  eapply (hoare_bind _ _ _ _ (λ _ w, base w)); [|by intros r; apply hoare_ret].
  unfold removeFile. apply hoare_call; [apply _|..|exact done_after].
  - intros w Hw. by apply done_remove.
  - intros w e Hw. split; [by apply Hw|by apply done_remove].
Qed.

Lemma dropArchived_ok : hoare ready (dropArchived opts name (pathOf d)) (λ _ w, base w) (after T).
Proof.
  assert (∀ w, ready w → after T w) as Hra by (intros w [Hc _]; auto).
  unfold dropArchived.
  eapply hoare_bind.
  { eapply hoare_or_raise. eapply hoare_weaken; [by apply (hoare_read _ _ ready)|done|].
    intros [a|e] w [Hw _]; [exact Hw|auto]. }
  intros pendingBy. case_bool_decide; simpl; [|apply hoare_ret; by intros w [[? _] _]].
  eapply (hoare_bind _ _ _ _ (λ a w, ∃ n, a = Some n ∧ armed n w)).
  { eapply hoare_or_raise. eapply hoare_weaken; [by apply (hoare_read _ _ ready)|done|].
    intros [a|e] w [Hw Ha]; [|auto]. destruct (ready_armed w Hw) as (n & Hn & Har).
    exists n. split; [|done]. specialize (Ha a eq_refl). congruence. }
  intros archived. apply hoare_ex. intros n. apply hoare_pure. intros ->.
  eapply hoare_bind.
  { eapply hoare_or_raise. eapply hoare_weaken; [apply (partitionRowCount_ok n)|done|].
    intros [live|e] w [Hw Hl]; [exact (conj Hw Hl)|eauto]. }
  intros live. cbn [archivedPartitionUnchanged]. destruct (Z.eqb_spec n live) as [<-|Hne]; simpl.
  - eapply hoare_bind; [eapply hoare_weaken; [apply (dropPartitions_ok n)|naive_solver|done]|].
    intros [u|[| | |e]]; simpl.
    + eapply hoare_bind; [apply prune_ok|]. intros v. by apply hoare_ret.
    + by apply hoare_ret.
    + apply deferStale_ok.
    + apply hoare_raise; auto.
    + apply hoare_raise; auto.
  - eapply hoare_weaken; [apply deferStale_ok|by intros w [[? _] _]|done].
Qed.

Lemma rotateOne_ok : hoare cur (rotateOne opts s3 name) (λ _ w, base w) (after T).
Proof.
  unfold rotateOne, HiveArchivePath. rewrite Hd. cbn [mbind option_bind]. fold (pathOf d).
  eapply (hoare_bind _ _ _ _ (λ _ w, cur w)).
  { eapply hoare_or_raise. eapply hoare_weaken; [apply (hoare_touch _ cur); auto|done|]. intros [a|e] w Hw; auto. }
  intros u. eapply hoare_bind; [apply archiveToDisk_ok|]. intros st.
  assert (∃ key, match s3 with None => Some "" | Some (_, prefix) => BuildS3Key (ArchiveDir opts) (pathOf d) prefix end
    = Some key ∧ ∀ bucket prefix, s3 = Some (bucket, prefix) → keyOf d = Some (bucket, key)) as (key & -> & Hkey).
  { unfold keyOf. rewrite <-Hs3. destruct s3 as [[bucket prefix]|]; [|by exists ""].
    exists (hiveKeyAt prefix (BintrailID opts) d). split; [apply BuildS3Key_hive|]. by intros ? ? [= -> ->]. }
  eapply (hoare_bind _ _ _ _ (λ _ w, cur w ∧ staged w)).
  - destruct st as [st|]; [|by apply hoare_ret].
    eapply hoare_or_raise. unfold recordArchive. apply hoare_call; [apply _|..|by halves].
    + intros w [Hc Hw]. simpl. by apply cur_record.
    + intros w e [Hc Hw]. split; [auto|]. simpl. apply cur_after. by apply cur_record.
  - intros v. eapply hoare_bind; [by apply uploadOne_ok|]. intros [|]; [apply dropArchived_ok|].
    apply hoare_ret. by intros w [? _].
Qed.

End one.

(** ** All of them *)

Section all.

Context (T c : Z) (Hretry : prunes → Retry opts = true).

(** The partitions to drop: in the index, and older than the cutoff. *)
Definition queued (names : list string) (w : world) : Prop :=
  during T w ∧ (∀ n, n ∈ names → listed n w) ∧ c ≤ w_now w.

#[export] Instance stable_queued names : Stable (queued names).
Proof.
  intros w w' Hg (H1 & H2 & H3). split_and!; [by eapply stable_during| |pose proof (gr_now _ _ Hg); lia].
  intros n Hn. eapply stable_listed; eauto.
Qed.

Lemma queued_after names w : queued names w → after T w.
Proof. intros (H & _). by apply during_after. Qed.

Lemma rotateEach_ok s3 names dropped deferred :
  s3 = dest → (s3 = None → ArchiveS3 opts = "") → NoDup names →
  (∀ n, n ∈ names → ∃ d, PartitionDate n = Some d ∧ d ≤ T ∧ d < c) →
  hoare (queued names) (rotateEach opts s3 names dropped deferred) (λ _ w, queued [] w) (after T).
Proof.
  intros Hs3 Hnone. revert dropped deferred. induction names as [|name names IH]; intros dropped deferred Hnd Hdates.
  - by apply hoare_ret.
  - apply NoDup_cons in Hnd as [Hn Hnd]. destruct (Hdates name) as (d & Hd & HT & Hdc); [by left|].
    cbn [rotateEach]. eapply hoare_bind.
    { eapply hoare_weaken; [by apply (rotateOne_ok T c names name d)| |].
      - intros w (Hw & Hl & Hnow). split; [|apply Hl; by left]. split_and!; [done| |done]. intros n Hin. apply Hl. by right.
      - intros a w Hw. exact Hw. }
    intros [| |].
    + apply IH; [done|]. intros n Hin. apply Hdates. by right.
    + apply IH; [done|]. intros n Hin. apply Hdates. by right.
    + apply hoare_ret. intros w (Hw & _ & Hnow). split_and!; [done|set_solver|done].
Qed.

Lemma archiveAndDrop_ok names :
  NoDup names → (∀ n, n ∈ names → ∃ d, PartitionDate n = Some d ∧ d ≤ T ∧ d < c) →
  hoare (queued names) (archiveAndDrop opts names) (λ _ w, queued [] w) (after T).
Proof.
  intros Hnd Hdates. unfold archiveAndDrop.
  assert (∀ tag, hoare (queued names) (or_raise touch tag : P ()) (λ _ w, queued names w) (after T)) as Htouch.
  { intros tag. eapply hoare_or_raise. eapply hoare_weaken;
      [apply (hoare_touch _ (queued names)); apply queued_after|done|].
    intros [a|e] w Hw; [done|by eapply queued_after]. }
  eapply hoare_bind; [apply Htouch|]. intros u.
  eapply (hoare_bind _ _ _ _ (λ s3 w, (s3 = dest ∧ (s3 = None → ArchiveS3 opts = "")) ∧ queued names w)).
  - unfold openS3, dest. case_bool_decide; [by apply hoare_ret|]. destruct (ParseS3URL _) as [s3|].
    + eapply hoare_bind; [apply Htouch|]. intros v. by apply hoare_ret.
    + apply hoare_raise. by apply queued_after.
  - intros s3. apply hoare_pure. intros [Hs3 Hnone].
    eapply (hoare_bind _ _ _ _ (λ _ w, queued names w)).
    + unfold writeSidecar. eapply hoare_bind; [apply hoare_touch; [apply _|apply queued_after]|].
      intros [a|e]; [|by apply hoare_ret]. destruct s3; [|by apply hoare_ret].
      eapply hoare_bind; [apply hoare_touch; [apply _|apply queued_after]|]. intros b. by apply hoare_ret.
    + intros v. by apply rotateEach_ok.
Qed.

End all.

(** ** Partitions added ahead *)

Lemma infos_names ps : Name <$> infos ps = p_Name <$> ps.
Proof.
  unfold infos. assert (∀ f : nat → partition → partitionInfo,
    (∀ i p, Name (f i p) = p_Name p) → Name <$> imap f ps = p_Name <$> ps) as H.
  { induction ps as [|p ps IH]; intros f Hf; [done|]. rewrite imap_cons. csimpl. rewrite Hf. f_equal. apply IH. intros. apply Hf. }
  by apply H.
Qed.

Lemma elem_of_dates_infos ps d : d ∈ dates (infos ps) ↔ ∃ p, p ∈ ps ∧ has_date p d.
Proof.
  rewrite elem_of_dates. unfold has_date. split.
  - intros (i & Hi & Hd). assert (Name i ∈ (p_Name <$> ps)) as (p & Hp & Hin)%list_elem_of_fmap
      by (rewrite <-infos_names; by apply list_elem_of_fmap_2). exists p. split; congruence.
  - intros (p & Hp & Hd). assert (p_Name p ∈ (Name <$> infos ps)) as (i & Hi & Hin)%list_elem_of_fmap
      by (rewrite infos_names; by apply list_elem_of_fmap_2). exists i. split; congruence.
Qed.

Lemma infos_grows ps qs : Forall2 part_grows ps qs → infos qs = infos ps.
Proof.
  unfold infos. assert (∀ f : nat → partition → partitionInfo, (∀ i p q, part_grows p q → f i q = f i p) →
    Forall2 part_grows ps qs → imap f qs = imap f ps) as H.
  { intros f Hf Hg. revert f Hf. induction Hg as [|p q ps qs Hp _ IH]; intros f Hf; [done|].
    rewrite !imap_cons. f_equal; [by apply Hf|]. apply IH. intros. by apply Hf. }
  apply H. intros i p q []. by rewrite pg_name0, pg_bound0.
Qed.

#[export] Instance stable_infos (Q : list partitionInfo → Prop) : Stable (λ w, Q (infos (w_parts w))).
Proof. intros w w' Hg. by rewrite (infos_grows _ _ (gr_parts _ _ Hg)). Qed.

Lemma share_out_elem bounds rows q : q ∈ share_out bounds rows → (p_Name q, p_bound q) ∈ bounds.
Proof.
  revert rows. induction bounds as [|[n b] bounds IH]; intros rows; simpl; [set_solver|].
  intros [->|Hq]%elem_of_cons; [by left|right; by eapply IH].
Qed.

Lemma share_out_covers bounds n rows e : e ∈ rows →
  ∃ q, q ∈ share_out (bounds ++ [(n, None)]) rows ∧ e ∈ p_rows q.
Proof.
  revert rows. induction bounds as [|[m b] bounds IH]; intros rows He; simpl.
  - eexists. split; [by left|]. simpl. by apply list_elem_of_filter.
  - destruct (below b (e_ts e)) eqn:Hb.
    + eexists. split; [by left|]. simpl. by apply list_elem_of_filter.
    + destruct (IH (filter (λ e, below b (e_ts e) = false) rows)) as (q & Hq & Hr); [by apply list_elem_of_filter|].
      exists q. split; [by right|done].
Qed.

(** The rows stay, and the clock. *)
Definition sound (w : world) : Prop := NoDup (p_Name <$> w_parts w) ∧ kept w.

Lemma reorganize_sound start n w : sound w →
  sound (reorganize start n w).2 ∧ w_now (reorganize start n w).2 = w_now w.
Proof.
  intros [Hnames Hk]. unfold reorganize. destruct (part_rows _ _) as [rows|] eqn:Hr; [|done].
  destruct (_ && _) eqn:Hok; [|done]. split; [|done]. simpl. apply andb_true_iff in Hok as [Hnd%bool_decide_eq_true _].
  split; [done|].
  eapply kept_weaken; [..|exact Hk]; [done..|]. intros e [(p & Hp & He)|H]; [|by right]. left. simpl.
  destruct (decide (p_Name p = "p_future")) as [Hf|Hf].
  2: { exists p. split; [|done]. apply elem_of_app. left. by apply list_elem_of_filter. }
  apply part_rows_in in Hr as (p' & Hp' & Hn' & <-).
  assert (p = p') as ->.
  { apply list_elem_of_lookup in Hp as [i Hi], Hp' as [j Hj]. assert (i = j) as ->; [|congruence].
    eapply NoDup_lookup; [exact Hnames|..]; rewrite list_lookup_fmap; [by rewrite Hi|]. rewrite Hj. simpl. congruence. }
  destruct (share_out_covers ((λ d, (PartitionName d, Some (d + hour))) <$> hours_from start n) "p_future" (p_rows p') e He)
    as (q & Hq & Heq).
  exists q. split; [|done]. apply elem_of_app. by right.
Qed.

Lemma elem_of_hours_from start n h : h ∈ hours_from start n →
  start ≤ h ∧ (start mod hour = 0 → h mod hour = 0).
Proof.
  unfold hours_from. intros (i & -> & _)%list_elem_of_fmap. split; [unfold hour, second; lia|].
  intros Hs. by rewrite Z.mod_add.
Qed.

(** Adding hours after every hour there is: once, and not twice. *)
Definition addable (T start : Z) (w : world) : Prop :=
  during T w ∧
  ((∀ p d, p ∈ w_parts w → has_date p d → d < start) ∨ PartitionName start ∈ (p_Name <$> w_parts w)).

#[export] Instance stable_addable T start : Stable (addable T start).
Proof.
  intros w w' Hg [Hd Hs]. split; [by eapply stable_during|]. pose proof (gr_parts _ _ Hg) as Hf.
  destruct Hs as [Hs|Hs]; [left|right; by rewrite (part_grows_names _ _ Hf)].
  intros q d Hq Hqd. apply (part_grows_rev _ _ _ Hf) in Hq as (p & Hp & Gp). eapply Hs; [done|by eapply has_date_grows].
Qed.

Lemma PartitionName_not_future t : PartitionName t ≠ "p_future".
Proof.
  unfold PartitionName, padZ. destruct (civil _) as [[y m] d]. destruct (pad_head 4 (Z.to_N y)) as (c & s & -> & Hc).
  simpl. intros [= -> _]. done.
Qed.

Lemma hours_from_first start n : 0 < n → start ∈ hours_from start n.
Proof.
  intros Hn. unfold hours_from. apply list_elem_of_fmap. exists 0%nat. split; [simpl; lia|].
  apply elem_of_seq. lia.
Qed.

Lemma share_out_names bounds rows : p_Name <$> share_out bounds rows = bounds.*1.
Proof. revert rows. induction bounds as [|[m b] bounds IH]; intros rows; [done|]. csimpl. by rewrite IH. Qed.

Lemma reorganize_addable T start n w :
  0 < n → 0 ≤ start → T < start → start mod hour = 0 → addable T start w →
  addable T start (reorganize start n w).2.
Proof.
  intros Hn H0 HT Hal [Hw Hs]. unfold reorganize. destruct (part_rows _ _) as [rows|] eqn:Hr; [|done].
  set (news := share_out _ rows). set (olds := filter _ (w_parts w)).
  destruct (_ && _) eqn:Hok; [|done]. simpl. apply andb_true_iff in Hok as [Hnd%bool_decide_eq_true Hbr].
  assert (PartitionName start ∈ (p_Name <$> news)) as Hfirst.
  { unfold news. rewrite share_out_names, fmap_app, <-list_fmap_compose. apply elem_of_app. left.
    apply list_elem_of_fmap. exists start. split; [done|by apply hours_from_first]. }
  destruct Hs as [Hs|Hs].
  2: { exfalso. rewrite fmap_app in Hnd. apply NoDup_app in Hnd as (_ & Hdis & _). apply (Hdis (PartitionName start)); [|done].
       apply list_elem_of_fmap in Hs as (p & Hp & Hin). rewrite Hp. apply list_elem_of_fmap_2, list_elem_of_filter.
       split; [|done]. rewrite <-Hp. apply PartitionName_not_future. }
  assert (∀ q d, q ∈ news → has_date q d → start ≤ d ∧ p_Name q = PartitionName d) as Hnew.
  { intros q d Hq Hd. apply share_out_elem, elem_of_app in Hq as [Hq|Hq].
    - apply list_elem_of_fmap in Hq as (h & [= Hqn _] & Hh). apply elem_of_hours_from in Hh as [Hge Hmod].
      unfold has_date in Hd. rewrite Hqn in Hd. apply PartitionDate_Name_only in Hd; [|lia|auto]. by subst.
    - apply list_elem_of_singleton in Hq as [= Hqn _]. unfold has_date in Hd. by rewrite Hqn in Hd. }
  assert (∀ p, p ∈ olds → p ∈ w_parts w) as Hold by (intros p [_ Hp]%list_elem_of_filter; done).
  pose proof Hw as [].
  assert (∀ q d, q ∈ news → has_date q d → w_files w !! pathOf d = None ∧ s3At w d = None ∧
    ∀ r, r ∈ w_archive w → ar_id r = Some (BintrailID opts) → PartitionDate (ar_partition r) ≠ Some d) as Hfree.
  { intros q d Hq Hd. apply du_after0; [by eapply has_date_named|]. destruct (Hnew q d Hq Hd). lia. }
  split; [|right; simpl; rewrite fmap_app; apply elem_of_app; by right].
  destruct (reorganize_sound start n w (conj du_names0 du_kept0)) as [[_ Hk] _].
  unfold reorganize in Hk. rewrite Hr in Hk. fold news olds in Hk. rewrite (bool_decide_eq_true_2 _ Hnd), Hbr in Hk.
  split; simpl; try done.
  - intros p q d [Hp|Hp]%elem_of_app [Hq|Hq]%elem_of_app Hdp Hdq.
    + eapply du_dates0; eauto.
    + destruct (Hnew q d Hq Hdq). pose proof (Hs p d (Hold p Hp) Hdp). lia.
    + destruct (Hnew p d Hp Hdp). pose proof (Hs q d (Hold q Hq) Hdq). lia.
    + destruct (Hnew p d Hp Hdp), (Hnew q d Hq Hdq). congruence.
  - intros p d rs [Hp|Hp]%elem_of_app Hd Hf; [eauto|]. destruct (Hfree p d Hp Hd) as [E _]. congruence.
  - intros p d rs [Hp|Hp]%elem_of_app Hd Hf; [eauto|]. destruct (Hfree p d Hp Hd) as (_ & E & _).
    unfold s3At in *. simpl in *. congruence.
  - intros Hpr p d r [Hp|Hp]%elem_of_app Hd Hrow Hir Hu; [eauto|]. destruct (Hfree p d Hp Hd) as (_ & _ & E).
    destruct Hir as [Hir1 Hir2]. exfalso. apply (E r Hrow Hir2). unfold has_date in Hd. congruence.
  - destruct du_top0 as [(p & Hp & Hd)|]; [left|by right]. exists p. split; [|done]. apply elem_of_app. left.
    apply list_elem_of_filter. split; [|done]. intros E. unfold has_date in Hd. by rewrite E in Hd.
Qed.

(** An ALTER that keeps an assertion at every attempt keeps it. *)
Lemma alterFrom_keeps (q : world → (unit + callErr) * world) (J : world → Prop) `{!Stable J} Bad more first :
  (∀ w, J w → J (q w).2) → (∀ w, J w → Bad w) →
  hoare J (alterFrom q None more first : P _) (λ _ w, J w) Bad.
Proof.
  intros Hq HB.
  assert (hoare J (touch : P _) (λ _ w, J w) Bad) as Htouch by by apply hoare_touch.
  assert (hoare J (alterOnce q : P _) (λ _ w, J w) Bad) as Honce.
  { unfold alterOnce. eapply hoare_bind; [apply Htouch|]. intros [u|e]; [|by apply hoare_ret].
    eapply hoare_bind; [apply Htouch|]. intros [u'|e]; [|by apply hoare_ret].
    by apply hoare_call; [|intros w Hw; apply Hq|intros w e Hw; split; [|apply Hq]|]. }
  revert first. induction more as [|more IH]; intros first; cbn [alterFrom].
  all: eapply hoare_bind; [by apply (hoare_ret _ _ _ (λ _ w, J w))|].
  all: intros [u|e]; [|by apply hoare_ret].
  all: eapply hoare_bind; [apply Honce|].
  all: intros [u'|e]; [by apply hoare_ret|].
  all: destruct e; [|by apply hoare_ret..].
  - eapply hoare_bind; [|intros r; by apply (hoare_ret _ _ J)].
    unfold typeIndexBuildNote. eapply hoare_bind; [apply Htouch|]. intros ?.
    eapply hoare_bind; [apply Htouch|]. intros ?. by apply hoare_ret.
  - eapply hoare_bind; [apply Htouch|]. intros [u'|e]; [apply IH|by apply hoare_ret].
Qed.

(** The latest hour is where it was, or the clock has passed it. *)
Definition ahead (T : Z) (ps : list partitionInfo) (w : world) : Prop :=
  during T w ∧ infos (w_parts w) = ps.

#[export] Instance stable_ahead T ps : Stable (ahead T ps).
Proof. unfold ahead. apply stable_and; [apply _|]. apply (stable_infos (λ i, i = ps)). Qed.

Lemma ahead_after T ps w : ahead T ps w → after T w.
Proof. intros [H _]. by apply during_after. Qed.

(** [sound], past the latest hour. *)
Definition past (T : Z) (w : world) : Prop := sound w ∧ T < w_now w.

#[export] Instance stable_past T : Stable (past T).
Proof.
  intros w w' Hg [[Hn Hk] Ht]. split; [split|pose proof (gr_now _ _ Hg); lia]; [|by eapply stable_kept].
  by rewrite (part_grows_names _ _ (gr_parts _ _ Hg)).
Qed.

Lemma past_after T w : past T w → after T w.
Proof. intros [H Ht]. split; [exact H|by right]. Qed.

Lemma addFuturePartitions_ok T ps now n :
  0 < T → 0 < n →
  hoare (ahead T ps) (addFuturePartitions (nextPartitionStart ps now) n : P _) (λ _ w, after T w) (after T).
Proof.
  intros HT Hn. unfold addFuturePartitions, alterBinlogEvents.
  intros y [Hw Hi]. destruct (du_top _ _ Hw) as [(p & Hp & Hd)|Hpast].
  - assert (T ≤ maxPartitionDate ps) as Hmax.
    { apply maxPartitionDate_ge. rewrite <-Hi. apply elem_of_dates_infos. eauto. }
    assert (nextPartitionStart ps now = maxPartitionDate ps + hour) as ->.
    { unfold nextPartitionStart. destruct (Z.eqb_spec (maxPartitionDate ps) 0); [lia|done]. }
    set (start := maxPartitionDate ps + hour).
    assert (hour = 3600000000000) as Hh by done.
    assert (start mod hour = 0) as Hal.
    { destruct (maxPartitionDate_in ps) as [|Hin]; [lia|]. apply elem_of_dates in Hin as (i & _ & [_ Hm]%PartitionDate_named).
      unfold start. rewrite <-Z.add_mod_idemp_r, Z.mod_same, Z.add_0_r by done. done. }
    assert (hoare (addable T start) (alterFrom (reorganize start n) None (ddlLockAttempts - 1) true : P _)
      (λ _ w, after T w) (after T)) as H.
    { eapply hoare_weaken; [apply (alterFrom_keeps _ (addable T start))|done|].
      - intros w. by apply reorganize_addable; [|lia..|].
      - intros w [H _]. by apply during_after.
      - intros r w [H _]. by apply during_after. }
    apply H. split; [done|]. left. intros q d Hq Hqd.
    assert (d ≤ maxPartitionDate ps); [|unfold start; lia].
    apply maxPartitionDate_ge. rewrite <-Hi. apply elem_of_dates_infos. eauto.
  - set (start := nextPartitionStart ps now).
    assert (hoare (past T) (alterFrom (reorganize start n) None (ddlLockAttempts - 1) true : P _)
      (λ _ w, after T w) (after T)) as H.
    { eapply hoare_weaken; [apply (alterFrom_keeps _ (past T))|done|].
      - intros w [Hs Ht]. destruct (reorganize_sound start n w Hs) as [Hs' En]. split; [done|]. by rewrite En.
      - apply past_after.
      - intros r. apply past_after. }
    apply H. split; [|done]. split; apply Hw.
Qed.

Lemma addAhead_ok T ps dropped deferred busy :
  0 < T → hoare (ahead T ps) (addAhead opts dropped deferred busy ps) (λ _ w, after T w) (after T).
Proof.
  intros HT. unfold addAhead.
  eapply hoare_bind; [by apply (hoare_look _ _ _ (λ _ w, ahead T ps w))|]. intros now.
  destruct (partitionsToAdd _ _ _ _ _) as [toAdd behind]. destruct (Z.ltb_spec 0 toAdd) as [Hn|Hn]; simpl.
  2: { apply hoare_ret, ahead_after. }
  eapply hoare_bind; [by apply (hoare_look _ _ _ (λ _ w, ahead T ps w))|]. intros now'.
  eapply (hoare_bind _ _ _ _ (λ _ w, after T w)).
  - destruct busy; [apply hoare_ret, ahead_after|by apply addFuturePartitions_ok].
  - intros [u|[| | |e]]; first [by apply hoare_ret | by apply hoare_raise].
Qed.

(** ** The cycle *)

Lemma olderThan_spec cutoff ps n :
  n ∈ olderThan cutoff ps ↔ n ∈ (Name <$> ps) ∧ ∃ d, PartitionDate n = Some d ∧ d < cutoff.
Proof.
  unfold olderThan. rewrite !list_elem_of_fmap. split.
  - intros (i & -> & Hf%list_elem_of_filter). destruct Hf as [Hd Hi]. split; [by exists i|].
    destruct (PartitionDate (Name i)) as [d|]; [|done]. exists d. split; [done|]. by apply Z.ltb_lt.
  - intros [(i & -> & Hi) (d & Hd & Hlt)]. exists i. split; [done|]. apply list_elem_of_filter. split; [|done].
    rewrite Hd. by apply Z.ltb_lt.
Qed.

Lemma listPartitions_ok J `{!Stable J} tag (Bad : world → Prop) :
  (∀ w, J w → Bad w) →
  hoare J (or_raise listPartitions tag : P _) (λ ps w, J w ∧ infos (w_parts w) = ps) Bad.
Proof.
  intros HB. eapply hoare_or_raise. unfold listPartitions. apply hoare_call; [done|..|done].
  - intros w Hw. done.
  - intros w e Hw. auto.
Qed.

Lemma dropOld_ok T ps :
  (prunes → Retry opts = true) → ArchiveDir opts ≠ "" → T = maxPartitionDate ps →
  hoare (ahead T ps) (dropOld opts ps) (λ r w, ahead T r.2 w) (after T).
Proof.
  intros Hretry Hdir HT. unfold dropOld. destruct (Z.ltb_spec 0 (RetainDur opts)) as [Hr|Hr]; simpl; [|by apply hoare_ret].
  eapply hoare_bind; [apply (hoare_look _ _ _ (λ now w, ahead T ps w ∧ now ≤ w_now w)); intros w Hw; split; [done|lia]|].
  intros now. set (names := olderThan (now - RetainDur opts) ps).
  destruct names as [|n0 names0] eqn:Hnames; [apply hoare_ret; by intros w [? _]|]. rewrite <-Hnames.
  rewrite bool_decide_eq_false_2 by done.
  eapply (hoare_bind _ _ _ _ (λ _ w, queued T now [] w)).
  - assert (∀ n, n ∈ names → ∃ d, PartitionDate n = Some d ∧ d ≤ T ∧ d < now) as Hdates.
    { intros n [Hn (d & Hd & Hlt)]%olderThan_spec. exists d. split_and!; [done| |lia].
      rewrite HT. apply maxPartitionDate_ge, elem_of_dates. apply list_elem_of_fmap in Hn as (i & -> & Hi). eauto. }
    eapply (hoare_weaken _ _ (λ w, NoDup names ∧ queued T now names w)).
    + apply hoare_pure. intros Hnd. by apply archiveAndDrop_ok.
    + intros w [[Hw Hi] Hnow]. split_and!; [|split_and!; [done| |done]].
      * unfold names, olderThan. eapply sublist_NoDup; [|apply fmap_sublist, sublist_filter].
        rewrite <-Hi, infos_names. apply Hw.
      * intros n [Hn _]%olderThan_spec. unfold listed. by rewrite <-infos_names, Hi.
    + done.
  - intros [[dropped deferred] busy].
    eapply hoare_bind; [apply (listPartitions_ok (queued T now [])), queued_after|].
    intros ps'. apply hoare_ret. intros w [[Hw _] Hi]. by split.
Qed.

(** One cycle, from any world the invariant holds in. *)
Lemma Perform_ok T :
  (prunes → Retry opts = true) → ArchiveDir opts ≠ "" → 0 < T →
  hoare (λ w, during T w ∧ maxPartitionDate (infos (w_parts w)) = T) (Perform opts)
    (λ _ w, after T w) (after T).
Proof.
  intros Hretry Hdir HT. unfold Perform. rewrite (bool_decide_eq_false_2 (ArchiveDir opts = "")) by done.
  rewrite andb_false_r.
  assert (Stable (λ w, during T w ∧ maxPartitionDate (infos (w_parts w)) = T)).
  { apply stable_and; [apply _|]. apply (stable_infos (λ i, maxPartitionDate i = T)). }
  assert (∀ w, during T w ∧ maxPartitionDate (infos (w_parts w)) = T → after T w)
    by (intros w [Hw _]; by apply during_after).
  eapply hoare_bind; [by apply (listPartitions_ok (λ w, during T w ∧ maxPartitionDate (infos (w_parts w)) = T))|].
  intros ps. eapply (hoare_weaken _ _ (λ w, T = maxPartitionDate ps ∧ ahead T ps w) _ (λ _ w, after T w)).
  - apply hoare_pure. intros HTp.
    eapply hoare_bind; [by apply dropOld_ok|]. intros [[[dropped deferred] busy] ps']. cbn [snd].
    eapply (hoare_bind _ _ _ _ (λ _ w, ahead T ps' w)).
    + unfold partitionHasData. apply hoare_call; [apply _|..|apply ahead_after].
      * intros w Hw. by destruct (part_rows _ _).
      * intros w e Hw. split; [done|]. by destruct (part_rows _ _).
    + intros u. by apply addAhead_ok.
  - intros w [[Hw <-] <-]. by split.
  - done.
Qed.

End invariant.

(** ** Cycle after cycle *)

(** An index that nothing has archived yet. *)
Record untouched (w : world) : Prop := {
  un_names : NoDup (p_Name <$> w_parts w);
  un_dates : ∀ p q d, p ∈ w_parts w → q ∈ w_parts w → has_date p d → has_date q d → p_Name p = p_Name q;
  un_named : 0 < maxPartitionDate (infos (w_parts w));
  un_archive : w_archive w = [];
  un_files : w_files w = ∅;
  un_s3 : w_s3 w = ∅;
  un_all : ∀ e, e ∈ w_all w → ∃ p, p ∈ w_parts w ∧ e ∈ p_rows p;
}.

(** The index still had a partition ahead of the clock when a cycle ended. *)
Definition had_ahead (w w' : world) : Prop := ∃ p d, p ∈ w_parts w ∧ has_date p d ∧ w_now w' ≤ d.

(** The worlds that cycles of one configuration lead to, whatever each returns. *)
Inductive cycles (opts : Options) (w0 : world) : world → Prop :=
  | no_cycle : cycles opts w0 w0
  | one_more w script r y :
      cycles opts w0 w → Perform opts {| y_world := w; y_script := script |} = (r, y) →
      had_ahead w (y_world y) → cycles opts w0 (y_world y).

Definition between (opts : Options) (w : world) : Prop :=
  ∃ T, 0 < T ∧ during opts T w ∧ maxPartitionDate (infos (w_parts w)) = T.

Lemma untouched_between opts w : untouched w → between opts w.
Proof.
  intros []. exists (maxPartitionDate (infos (w_parts w))). split_and!; [done| |done].
  assert (∀ d, w_files w !! pathOf opts d = None) as Hf by (intros; by rewrite un_files0, lookup_empty).
  assert (∀ d, s3At opts w d = None) as Hs.
  { intros d. unfold s3At. destruct (keyOf opts d); [|done]. simpl. by rewrite un_s4, lookup_empty. }
  split; try done.
  - rewrite un_archive0. set_solver.
  - intros p d rows _ _. by rewrite Hf.
  - intros p d rows _ _. by rewrite Hs.
  - rewrite un_archive0. set_solver.
  - intros d _ _. rewrite Hf, Hs, un_archive0. set_solver.
  - left. destruct (maxPartitionDate_in (infos (w_parts w))) as [E|Hin]; [lia|].
    apply elem_of_dates_infos in Hin as (p & Hp & Hd). by exists p.
  - intros e He. left. left. auto.
Qed.

Lemma after_between opts w w' :
  between opts w → had_ahead w w' →
  (∀ T, 0 < T → during opts T w → maxPartitionDate (infos (w_parts w)) = T → after opts T w') → between opts w'.
Proof.
  intros (T & HT & Hw & Hm) (p & d & Hp & Hd & Hnow) Haf. destruct (Haf T HT Hw Hm) as [_ [Hw'|Hpast]].
  2: { assert (d ≤ T); [|lia]. rewrite <-Hm. apply maxPartitionDate_ge, elem_of_dates_infos. eauto. }
  pose proof Hw' as []. set (T' := maxPartitionDate (infos (w_parts w'))).
  assert (d ≤ T) by (rewrite <-Hm; apply maxPartitionDate_ge, elem_of_dates_infos; eauto).
  destruct du_top0 as [(q & Hq & Hqd)|]; [|lia].
  assert (T ≤ T') by (apply maxPartitionDate_ge, elem_of_dates_infos; eauto).
  exists T'. split_and!; [lia| |done]. split; try done.
  - intros d' Hd' Ht. apply du_after0; [done|lia].
  - left. destruct (maxPartitionDate_in (infos (w_parts w'))) as [E|Hin]; [subst T'; lia|].
    by apply elem_of_dates_infos in Hin.
Qed.

Lemma cycle_after opts w script r y :
  (prunes opts → Retry opts = true) → ArchiveDir opts ≠ "" → between opts w →
  Perform opts {| y_world := w; y_script := script |} = (r, y) →
  ∀ T, 0 < T → during opts T w → maxPartitionDate (infos (w_parts w)) = T → after opts T (y_world y).
Proof.
  intros Hretry Hdir Hb Hrun T HT Hw Hm.
  pose proof (Perform_ok opts T Hretry Hdir HT {| y_world := w; y_script := script |} (conj Hw Hm)) as H.
  rewrite Hrun in H. by destruct r.
Qed.

Lemma cycles_between opts w0 w :
  (prunes opts → Retry opts = true) → ArchiveDir opts ≠ "" → untouched w0 → cycles opts w0 w → between opts w.
Proof.
  intros Hretry Hdir H0. induction 1 as [|w script r y Hc IH Hrun Ha]; [by apply untouched_between|].
  eapply after_between; [exact IH|exact Ha|]. by eapply cycle_after.
Qed.

(** C7: no row is lost by rotating with an archive directory. However many
    cycles ran before, whatever calls of this one fail or go unanswered, and
    wherever the process dies, every row the index ever held is in the index,
    in a complete local archive or in the bucket; or it came between the last
    count of its partition and the drop. What it takes: a configuration that
    prunes local files retries (the built-in loop's does both), the local files
    are still there, and each earlier cycle ended with a partition ahead of the
    clock. *)
Theorem rotation_keeps_rows opts w0 w script r y e :
  (prunes opts → Retry opts = true) → ArchiveDir opts ≠ "" →
  untouched w0 → cycles opts w0 w →
  Perform opts {| y_world := w; y_script := script |} = (r, y) →
  e ∈ w_all (y_world y) → held (y_world y) e ∨ e ∈ w_late (y_world y).
Proof.
  intros Hretry Hdir H0 Hc Hrun He.
  destruct (cycles_between opts w0 w Hretry Hdir H0 Hc) as (T & HT & Hw & Hm).
  destruct (cycle_after opts w script r y Hretry Hdir (ex_intro _ T (conj HT (conj Hw Hm))) Hrun T HT Hw Hm) as [[_ Hk] _].
  by apply Hk.
Qed.
