(* ===== verification/RotateAdds.v ===== *)
(** * The partitions a rotation adds

    [addAhead], the second half of [Perform], brings the partitions ahead of
    the clock to the target, also when the latest one is hours behind. *)
From S2P Require Import Prelude GoStrings GoTime GoText GoBytes PartitionHour RotateWorld Rotate RotateKeeps.

Open Scope Z_scope.

(** The hours after [ref] among [ds]. *)
Definition after_ref (ref : Z) (ds : list Z) : Z := Z.of_nat (length (filter (λ d, ref < d) ds)).

Lemma dates_cons p ps :
  dates (p :: ps) = match PartitionDate (Name p) with Some d => d :: dates ps | None => dates ps end.
Proof. done. Qed.

Lemma countFuture_dates ps ref : countFuturePartitions ps ref = after_ref ref (dates ps).
Proof.
  induction ps as [|p ps IH]; [done|]. cbn [countFuturePartitions]. rewrite dates_cons.
  destruct (PartitionDate (Name p)) as [d|]; [|exact IH].
  rewrite IH. unfold after_ref. rewrite filter_cons. destruct (Z.ltb_spec ref d).
  - rewrite decide_True by done. cbn [length]. lia.
  - rewrite decide_False by lia. lia.
Qed.

Lemma after_ref_app ref l k : after_ref ref (l ++ k) = after_ref ref l + after_ref ref k.
Proof. unfold after_ref. rewrite filter_app, length_app. lia. Qed.

Lemma after_ref_nonneg ref l : 0 ≤ after_ref ref l.
Proof. unfold after_ref. lia. Qed.

Lemma after_ref_all ref l : (∀ d, d ∈ l → ref < d) → after_ref ref l = Z.of_nat (length l).
Proof. intros H. unfold after_ref. by rewrite filter_all. Qed.

Lemma hours_from_length start n : 0 ≤ n → Z.of_nat (length (hours_from start n)) = n.
Proof. intros. unfold hours_from. rewrite length_fmap, length_seq. lia. Qed.

Lemma hours_from_split start m n : 0 ≤ m → 0 ≤ n →
  hours_from start (m + n) = hours_from start m ++ hours_from (start + m * hour) n.
Proof.
  intros Hm Hn. unfold hours_from. rewrite Z2Nat.inj_add, seq_app, fmap_app by lia. f_equal.
  rewrite Nat.add_0_l.
  replace (seq (Z.to_nat m) (Z.to_nat n)) with ((λ i, (Z.to_nat m + i)%nat) <$> seq 0 (Z.to_nat n))
    by (rewrite fmap_add_seq; f_equal; lia).
  rewrite <-list_fmap_compose. apply list_fmap_ext. intros i x _. unfold compose. rewrite Nat2Z.inj_add, Z2Nat.id by done. lia.
Qed.

(** Hours from [start] on: those after [ref]. *)
Lemma after_ref_hours ref start n :
  ref mod hour = 0 → start mod hour = 0 → 0 ≤ n →
  after_ref ref (hours_from start n) = if ref <? start then n else Z.max 0 (n - (ref - start) / hour - 1).
Proof.
  intros Hr Hs Hn. assert (hour = 3600000000000) as Hh by done. destruct (Z.ltb_spec ref start).
  - rewrite after_ref_all, hours_from_length; [done|done|]. intros d [? _]%elem_of_hours_from. lia.
  - set (k := (ref - start) / hour + 1).
    assert (ref = start + (k - 1) * hour ∧ 0 < k) as [Hk Hk0].
    { pose proof (Z.div_mod (ref - start) hour ltac:(done)) as E.
      rewrite Zminus_mod, Hr, Hs in E. change ((0 - 0) mod hour) with 0 in E.
      pose proof (Z.div_pos (ref - start) hour ltac:(lia) ltac:(lia)). unfold k. lia. }
    assert (∀ m, 0 ≤ m ≤ k → after_ref ref (hours_from start m) = 0) as Hno.
    { intros m Hm. unfold after_ref. rewrite filter_none; [done|]. unfold hours_from.
      intros d (i & -> & Hi%elem_of_seq)%list_elem_of_fmap. nia. }
    destruct (Z.le_gt_cases n k).
    + rewrite Hno by lia. unfold k in *. lia.
    + replace n with (k + (n - k)) by lia. rewrite hours_from_split, after_ref_app, Hno by lia.
      rewrite after_ref_all, hours_from_length; [unfold k in *; lia|lia|].
      intros d [? _]%elem_of_hours_from. rewrite Hk. lia.
Qed.

(** ** The number to add *)

Lemma partitionsToAdd_reaches target ps nowHour dropped noReplace now :
  nowHour mod hour = 0 → 0 ≤ dropped → 0 < target → maxPartitionDate ps ≠ 0 →
  nowHour - maxPartitionDate ps < 2 ^ 63 →
  let n := (partitionsToAdd target ps nowHour dropped noReplace).1 in
  target ≤ after_ref nowHour (dates ps) + after_ref nowHour (hours_from (nextPartitionStart ps now) n).
Proof.
  intros Hal Hdr Ht Hmax Hsat n. assert (hour = 3600000000000) as Hh by done.
  subst n. unfold partitionsToAdd, nextPartitionStart, hoursBehind, computeToAdd.
  rewrite countFuture_dates. set (f := after_ref nowHour (dates ps)). set (m := maxPartitionDate ps) in *.
  assert (m mod hour = 0) as Hm.
  { destruct (maxPartitionDate_in ps) as [|Hin]; [done|]. apply elem_of_dates in Hin as (i & _ & [_ H]%PartitionDate_named). done. }
  assert ((m + hour) mod hour = 0) as Hm' by (by rewrite <-Z.add_mod_idemp_r, Z.mod_same, Z.add_0_r by done).
  rewrite (proj2 (Z.eqb_neq m 0)) by done. cbn [orb].
  pose proof (after_ref_nonneg nowHour (dates ps)) as Hf. fold f in Hf.
  set (extra := if noReplace then 0 else dropped). assert (0 ≤ extra) by (unfold extra; destruct noReplace; lia).
  destruct (Z.ltb_spec f target) as [Hft|Hft].
  2: { cbn. pose proof (after_ref_nonneg nowHour (hours_from (m + hour)
      (0 + extra + (if (0 <? 0 + extra) && (0 <? target) then if negb (m <? nowHour) then 0 else Z.quot (time_Sub nowHour m) hour else 0)))).
       unfold extra in *. lia. }
  rewrite (proj2 (Z.ltb_lt 0 (target - f + extra))) by lia. rewrite (proj2 (Z.ltb_lt 0 target)) by lia. cbn [andb fst].
  destruct (Z.ltb_spec m nowHour) as [Hb|Hb]; cbn [negb].
  - assert (f = 0) as Hf0.
    { unfold f, after_ref. rewrite filter_none; [done|]. intros d Hd%maxPartitionDate_ge. fold m in Hd. lia. }
    assert (time_Sub nowHour m = nowHour - m) as -> by (unfold time_Sub; lia).
    rewrite Z.quot_div_nonneg by lia. pose proof (Z.div_pos (nowHour - m) hour ltac:(lia) ltac:(lia)).
    rewrite after_ref_hours by (done || lia). rewrite Hf0. destruct (Z.ltb_spec nowHour (m + hour)) as [Hlt|Hge].
    + lia.
    + assert ((nowHour - (m + hour)) / hour = (nowHour - m) / hour - 1) as ->.
      { replace (nowHour - (m + hour)) with (nowHour - m + (-1) * hour) by lia. by rewrite Z.div_add. }
      lia.
  - rewrite after_ref_hours by (done || lia). rewrite (proj2 (Z.ltb_lt nowHour (m + hour))) by lia. lia.
Qed.

(** ** The partitions after the ALTER *)

Lemma dates_infos ps : dates (infos ps) = omap PartitionDate (p_Name <$> ps).
Proof.
  rewrite <-infos_names. generalize (infos ps). intros l. induction l as [|i l IH]; [done|]. rewrite dates_cons, fmap_cons, IH.
  done.
Qed.

Lemma omap_named (hours : list Z) : (∀ h, h ∈ hours → named_hour h) → omap PartitionDate (PartitionName <$> hours) = hours.
Proof.
  induction hours as [|h hours IH]; intros Hn; [done|]. rewrite fmap_cons. cbn [omap list_omap]. rewrite PartitionDate_Name by (apply Hn; by left).
  f_equal. apply IH. intros k Hk. apply Hn. by right.
Qed.

Lemma reorganize_dates start n w w' u :
  (∀ h, h ∈ hours_from start n → named_hour h) → reorganize start n w = (inl u, w') →
  dates (infos (w_parts w')) = dates (infos (w_parts w)) ++ hours_from start n.
Proof.
  intros Hn. unfold reorganize. destruct (part_rows _ _) as [rows|]; [|done].
  destruct (_ && _); [|done]. intros [= _ <-]. simpl. rewrite !dates_infos, fmap_app, omap_app, share_out_names.
  rewrite fmap_app, <-list_fmap_compose, omap_app. change (fst ∘ _) with PartitionName. rewrite omap_named by done.
  simpl. rewrite app_nil_r. f_equal. induction (w_parts w) as [|p ps IH]; [done|]. rewrite filter_cons. csimpl.
  destruct (decide (p_Name p = "p_future")) as [Hf|Hf].
  - rewrite decide_False by (by intros []). rewrite IH, Hf. done.
  - rewrite decide_True by done. csimpl. by rewrite IH.
Qed.

Definition reached (target ref : Z) (w : world) : Prop := target ≤ after_ref ref (dates (infos (w_parts w))).

(** The partitions are [ps], or the target was reached by an attempt whose
    answer was lost. *)
Definition adding (ps : list partitionInfo) (target ref : Z) (w : world) : Prop :=
  infos (w_parts w) = ps ∨ reached target ref w.

#[export] Instance stable_reached target ref : Stable (reached target ref).
Proof. apply (stable_infos (λ i, target ≤ after_ref ref (dates i))). Qed.

#[export] Instance stable_adding ps target ref : Stable (adding ps target ref).
Proof. unfold adding. apply stable_or; [apply (stable_infos (λ i, i = ps))|apply _]. Qed.

Lemma hoare_true {E A} (m : M E A) : hoare (λ _, True) m (λ _ _, True) (λ _, True).
Proof. intros y _. by destruct (m y) as [[] ?]. Qed.

Lemma alterFrom_reaches q ps target ref more first :
  (∀ w, adding ps target ref w → adding ps target ref (q w).2 ∧ ∀ u, (q w).1 = inl u → reached target ref (q w).2) →
  hoare (adding ps target ref) (alterFrom q None more first : P _)
    (λ r w, match r with inl _ => reached target ref w | inr _ => True end) (λ _, True).
Proof.
  intros Hq. set (J := adding ps target ref).
  assert (hoare J (touch : P _) (λ _ w, J w) (λ _, True)) as Htouch by (apply hoare_touch; [apply _|done]).
  assert (hoare J (alterOnce q : P _) (λ r w, match r with inl _ => reached target ref w | inr _ => J w end) (λ _, True)) as Honce.
  { unfold alterOnce. eapply hoare_bind; [apply Htouch|]. intros [u|e]; [|by apply hoare_ret].
    eapply hoare_bind; [apply Htouch|]. intros [u'|e]; [|by apply hoare_ret].
    apply hoare_call; [apply _|..|done].
    - intros w Hw. destruct (Hq w Hw) as [H1 H2]. destruct (q w) as [[u2|e] w']; [by apply (H2 u2)|done].
    - intros w e Hw. split; [done|]. by apply Hq. }
  revert first. induction more as [|more IH]; intros first; cbn [alterFrom].
  all: eapply hoare_bind; [by apply (hoare_ret _ _ _ (λ _ w, J w))|].
  all: intros [u|e]; [|by apply hoare_ret].
  all: eapply hoare_bind; [apply Honce|].
  all: intros [u'|e]; [by apply hoare_ret|].
  all: destruct e; [|by apply hoare_ret..].
  - eapply hoare_bind; [eapply hoare_weaken; [apply hoare_true|done|]; intros a w Hw; exact Hw|].
    intros r. by apply hoare_ret.
  - eapply hoare_bind; [apply Htouch|]. intros [u'|e]; [apply IH|by apply hoare_ret].
Qed.

(** C28: when the add does not give up, the index ends with at least
    [AddFuture] named hours after the current one, also when the latest named
    hour was behind the clock: the missing hours are added on top. *)
Theorem addAhead_reaches opts dropped deferred y res y' :
  let w := y_world y in
  let ps := infos (w_parts w) in
  let nowHour := truncate_hour (w_now w) in
  maxPartitionDate ps ≠ 0 → 0 ≤ dropped → 0 < AddFuture opts →
  nowHour - maxPartitionDate ps < 2 ^ 63 →
  Z.max nowHour (maxPartitionDate ps) + (AddFuture opts + dropped) * hour < 3652059 * day →
  addAhead opts dropped deferred false ps y = (Ret res, y') → AddSkipped res = 0 →
  AddFuture opts ≤ countFuturePartitions (infos (w_parts (y_world y'))) nowHour.
Proof.
  intros w ps nowHour Hmax Hdr Hadd Hsat Hyears. unfold addAhead, mbind, M_bind, look. fold w nowHour.
  pose proof (partitionsToAdd_reaches (AddFuture opts) ps nowHour dropped (NoReplace opts) (w_now w)) as Hreach.
  assert (nowHour mod hour = 0) as Hal by (unfold nowHour, truncate_hour; by apply Z.mod_mul).
  specialize (Hreach Hal Hdr Hadd Hmax Hsat).
  assert (∀ toAdd behind, partitionsToAdd (AddFuture opts) ps nowHour dropped (NoReplace opts) = (toAdd, behind) →
    maxPartitionDate ps + toAdd * hour < 3652059 * day) as Hlast.
  { intros toAdd behind. unfold partitionsToAdd, computeToAdd. pose proof (after_ref_nonneg nowHour (dates ps)).
    rewrite countFuture_dates. set (b := if _ && _ then _ else 0). intros [= <- <-].
    assert (maxPartitionDate ps + b * hour ≤ Z.max nowHour (maxPartitionDate ps)).
    { unfold b. destruct (_ && _); [|lia]. unfold hoursBehind. destruct (_ || _) eqn:Hb; [lia|].
      apply orb_false_iff in Hb as [_ Hb%negb_false_iff%Z.ltb_lt].
      unfold time_Sub. rewrite Z.max_r, Z.min_r by lia. rewrite Z.quot_div_nonneg by (unfold hour, second; lia).
      pose proof (Z.mul_div_le (nowHour - maxPartitionDate ps) hour ltac:(done)). lia. }
    clearbody b. set (x := (if _ <? _ then _ else 0) + (if NoReplace opts then 0 else dropped)).
    assert (x ≤ AddFuture opts + dropped) by (unfold x; destruct (_ <? _), (NoReplace opts); lia).
    assert (x * hour ≤ (AddFuture opts + dropped) * hour) by (by apply Z.mul_le_mono_nonneg_r).
    rewrite Z.mul_add_distr_r. lia. }
  destruct (partitionsToAdd _ ps _ _ _) as [toAdd behind] eqn:Hp. specialize (Hlast toAdd behind eq_refl). cbn [fst] in Hreach.
  set (start := nextPartitionStart ps (w_now w)) in *.
  assert (start = maxPartitionDate ps + hour) as Hstart by (unfold start, nextPartitionStart; by rewrite (proj2 (Z.eqb_neq _ 0))).
  destruct (Z.ltb_spec 0 toAdd) as [Hn|Hn]; cbn [negb].
  2: { intros [= <- <-] _. fold w ps. rewrite countFuture_dates.
       assert (hours_from start toAdd = []) as E by (unfold hours_from; by rewrite Z2Nat.nonpos). rewrite E in Hreach.
       unfold after_ref in Hreach at 2. simpl in Hreach. lia. }
  assert (∀ h, h ∈ hours_from start toAdd → named_hour h) as Hnamed.
  { intros h Hh. pose proof (elem_of_hours_from _ _ _ Hh) as [Hge Hmod].
    unfold hours_from in Hh. apply list_elem_of_fmap in Hh as (i & Hi & Hi2%elem_of_seq).
    assert (hour = 3600000000000 ∧ day = 86400000000000) as [Eh Ed] by done.
    pose proof (maxPartitionDate_nonneg ps). split.
    - unfold in_years. split; [pose proof (Z.div_pos h day); lia|]. apply Z.div_lt_upper_bound; [done|].
      rewrite Hi, Hstart. nia.
    - apply Hmod. rewrite Hstart, <-Z.add_mod_idemp_r, Z.mod_same, Z.add_0_r by done.
      destruct (maxPartitionDate_in ps) as [|Hin]; [done|]. apply elem_of_dates in Hin as (i' & _ & [_ H']%PartitionDate_named). done. }
  assert (hoare (adding ps (AddFuture opts) nowHour) (addFuturePartitions start toAdd : P _)
    (λ r w, match r with inl _ => reached (AddFuture opts) nowHour w | inr _ => True end) (λ _, True)) as Hh.
  { apply alterFrom_reaches. intros v Hv. destruct (reorganize start toAdd v) as [[u|e] v'] eqn:Hr; simpl.
    - pose proof (reorganize_dates _ _ _ _ _ Hnamed Hr) as Hd.
      assert (reached (AddFuture opts) nowHour v') as Hre; [|split; [by right|done]].
      unfold reached. rewrite Hd, after_ref_app. destruct Hv as [->|Hv]; [done|].
      unfold reached in Hv. pose proof (after_ref_nonneg nowHour (hours_from start toAdd)). lia.
    - unfold reorganize in Hr. destruct (part_rows _ _); [destruct (_ && _)|]; simplify_eq; done. }
  specialize (Hh y (or_introl eq_refl)). cbn -[addFuturePartitions nextPartitionStart countFuturePartitions]. fold w start.
  destruct (addFuturePartitions start toAdd y) as [[[u|e]| |] y1]; cbn; [| |by intros [=]..].
  - intros [= <- <-] _. by rewrite countFuture_dates.
  - destruct e; [|done..]. intros [= <- <-]. simpl. lia.
Qed.
