(* ===== verification/RotateLoop.v ===== *)
(** * The built-in rotation loop ([internal/rotation/loop.go])

    Each cycle rotates every index once; an index that appeared since is
    rotated by a poll. A cycle is a run of [Perform] per index, on the window
    the index is to be dropped on. The loop itself is a state, and its two
    events are functions on it; a panic caught by the loop, the callbacks and
    what is logged are left out. *)
From S2P Require Import Prelude GoStrings GoTime GoBytes PartitionHour RotateWorld Rotate.

Open Scope Z_scope.

(** [RotateTarget]. *)
Record RotateTarget := {
  DSN : string;
  NoWriter : bool;
  t_ArchiveDir : string;
  t_ArchiveS3 : string;
  t_ArchiveS3Region : string;
  t_BintrailID : string;
  t_ArchiveCompression : string;
}.

(** [dedupeTargets]: its loop, with the set of DSNs seen. *)
Fixpoint dedupeFrom (seen : gset string) (l : list RotateTarget) : list RotateTarget :=
  match l with
  | [] => []
  | t :: l' =>
      if bool_decide (DSN t = "") || bool_decide (DSN t ∈ seen) then dedupeFrom seen l'
      else t :: dedupeFrom ({[DSN t]} ∪ seen) l'
  end.

Definition dedupeTargets (l : list RotateTarget) : list RotateTarget := dedupeFrom ∅ l.

(** [loopOptions]. *)
Definition loopOptions (retain : Z) (retainRaw : string) (s : Settings) (t : RotateTarget) (quietEmpty : bool) :
    Options :=
  let archives := negb (bool_decide (t_ArchiveS3 t = "")) in
  let opt (v : string) := if archives then v else "" in
  {| RetainDur := retain; RetainRaw := retainRaw; AddFuture := futureHeadroom s; NoReplace := true;
     ArchiveDir := opt (t_ArchiveDir t); ArchiveCompression := opt (t_ArchiveCompression t);
     BintrailID := opt (t_BintrailID t); ArchiveS3 := opt (t_ArchiveS3 t);
     ArchiveS3Region := opt (t_ArchiveS3Region t); Retry := archives; Format := "json";
     ProtectUnarchived := true; QuietEmpty := quietEmpty; PruneLocalAfterUpload := archives |}.

(** A failure as a value. *)
Definition catch {E E' A} (m : M E A) : M E' (A + E) := λ y,
  match m y with
  | (Ret a, y') => (Ret (inl a), y')
  | (Raise e, y') => (Ret (inr e), y')
  | (Crash, y') => (Crash, y')
  end.

(** The context had ended when a cycle failed. *)
Definition ctxEnded (e : perfErr) : bool :=
  match e with
  | At _ _ Ended | DropAt _ (DropFailed Ended) | AddAt (DropFailed Ended) => true
  | _ => false
  end.

(** What a failed call makes of a cycle: nothing, if it is the shutdown. *)
Definition failedBy (e : callErr) : Z * bool := (0, negb (bool_decide (e = Ended))).

(** The part of [rotateOneIndex] that chooses the window: what it is and how it
    is spelled, or the cycle's end. *)
Definition chooseWindow {E} (s : Settings) : M E ((Z * string) + (Z * bool)) :=
  if st_Explicit s then mret (inl (st_Retain s, st_RetainRaw s))
  else
    r ← ReadInitialRetain;
    match r with
    | inr Ended => mret (inr (0, false))
    | _ =>
        let imp := (implicitRetainFrom (match r with inl a => a | inr _ => RetainUnread end)).1 in
        partitions ← listPartitions;
        match partitions with
        | inr e => mret (inr (0, true))
        | inl partitions =>
            now ← look w_now;
            let g := guardBlocks partitions (ir_retain imp) (ir_recorded imp) (ir_recordedAt imp) now in
            mret (inl (if g_Blocked g then 0 else ir_retain imp, ir_raw imp))
        end
    end.

(** [rotateOneIndex]: the steps left undone, and whether it failed.
    [parseDSN] is the driver's parser, as far as the database's name. *)
Definition rotateOneIndex {E} (parseDSN : string → option string) (t : RotateTarget) (s : Settings) :
    M E (Z * bool) :=
  match parseDSN (DSN t) with
  | None | Some "" => mret (0, true)
  | Some _ =>
      conn ← touch;
      match conn with
      | inr e => mret (0, true)
      | inl _ =>
          quietEmpty ← (if NoWriter t then indexHoldsNoEvents else mret (inl false));
          match quietEmpty with
          | inr e => mret (failedBy e)
          | inl quietEmpty =>
              window ← chooseWindow s;
              match window with
              | inr out => mret out
              | inl (retain, retainRaw) =>
                  r ← catch (Perform (loopOptions retain retainRaw s t quietEmpty));
                  mret match r with
                       | inl res => (Deferred res, false)
                       | inr e => (0, negb (ctxEnded e))
                       end
              end
          end
      end
  end.

(** ** The loop *)

Section loop.

(** [rotateIndex], a variable of the code. *)
Context {Sy : Type} (rotateIndex : RotateTarget → Settings → Sy → (Z * bool) * Sy).

(** [runCycle]: the steps left undone and whether any index failed. *)
Fixpoint runTargets (ts : list RotateTarget) (s : Settings) (deferred : Z) (failed : bool) (y : Sy) :
    (Z * bool) * Sy :=
  match ts with
  | [] => ((deferred, failed), y)
  | t :: ts' =>
      let '((d, err), y') := rotateIndex t s y in
      runTargets ts' s (deferred + d) (failed || err) y'
  end.

Definition runCycle (s : Settings) (targets : list RotateTarget) (y : Sy) : (Z * bool) * Sy :=
  runTargets (dedupeTargets targets) s 0 false y.

(** The variables of [StartLoop]'s goroutine. *)
Record loopState := {
  unhealthyStreak : Z;
  rotated : gset string;
  tries : gmap string Z;
  iv : Z;
}.

Definition escalateAfter : Z := 3.
Definition newTargetTries : Z := 3.

Definition startState (s0 : Settings) : loopState :=
  {| unhealthyStreak := 0; rotated := ∅; tries := ∅; iv := st_Interval s0 |}.

(** [runOne]; the flag is the escalation. *)
Definition runOne (s : Settings) (targets : list RotateTarget) (st : loopState) (y : Sy) :
    loopState * bool * Sy :=
  let '((deferred, failed), y') := runCycle s (dedupeTargets targets) y in
  let streak := if failed || (0 <? deferred) then unhealthyStreak st + 1 else 0 in
  ({| unhealthyStreak := streak;
      rotated := list_to_set (DSN <$> dedupeTargets targets) ∪ rotated st;
      tries := tries st; iv := iv st |},
   escalateAfter <=? streak, y').

(** The change of the ticker after a cycle it fired. *)
Definition retune (s : Settings) (st : loopState) : loopState :=
  {| unhealthyStreak := unhealthyStreak st; rotated := rotated st; tries := tries st;
     iv := if (0 <? st_Interval s) && negb (st_Interval s =? iv st) then st_Interval s else iv st |}.

(** [runNew]: the indexes no cycle has asked about yet. *)
Fixpoint runNewFrom (ts : list RotateTarget) (s : Settings) (st : loopState) (y : Sy) : loopState * Sy :=
  match ts with
  | [] => (st, y)
  | t :: ts' =>
      if bool_decide (DSN t ∈ rotated st) then runNewFrom ts' s st y
      else
        let n := default 0 (tries st !! DSN t) + 1 in
        let '((_, err), y') := rotateIndex t s y in
        runNewFrom ts' s
          {| unhealthyStreak := unhealthyStreak st;
             rotated := if negb err || (newTargetTries <=? n) then {[DSN t]} ∪ rotated st else rotated st;
             tries := <[DSN t := n]> (tries st); iv := iv st |} y'
  end.

Definition runNew (s : Settings) (targets : list RotateTarget) (st : loopState) (y : Sy) : loopState * Sy :=
  runNewFrom (dedupeTargets targets) s st y.

(** An event of the loop's [select]. *)
Inductive event := Poll (s : Settings) (targets : list RotateTarget) | Tick (s : Settings) (targets : list RotateTarget).

Definition react (e : event) (st : loopState) (y : Sy) : loopState * Sy :=
  match e with
  | Poll s targets => runNew s targets st y
  | Tick s targets => let '(st', _, y') := runOne s targets st y in (retune s st', y')
  end.

Fixpoint reacts (es : list event) (st : loopState) (y : Sy) : loopState * Sy :=
  match es with
  | [] => (st, y)
  | e :: es' => let '(st', y') := react e st y in reacts es' st' y'
  end.

(** A run of the goroutine: the first cycle, with the settings and targets it
    finds, then events. *)
Definition runLoop (s0 s : Settings) (targets : list RotateTarget) (es : list event) (y : Sy) : loopState * Sy :=
  let '(st, _, y') := runOne s targets (startState s0) y in reacts es st y'.

End loop.

(** ** The loop's own facts *)

Lemma dedupeFrom_spec seen l :
  dedupeFrom seen l `sublist_of` l ∧ NoDup (DSN <$> dedupeFrom seen l) ∧
  ∀ d, d ∈ (DSN <$> dedupeFrom seen l) ↔ d ∈ (DSN <$> l) ∧ d ≠ "" ∧ d ∉ seen.
Proof.
  revert seen. induction l as [|t l IH]; intros seen; [split_and!; [done|constructor|set_solver]|]. simpl.
  destruct (bool_decide_reflect (DSN t = "")) as [He|He]; simpl.
  { destruct (IH seen) as (H1 & H2 & H3). split_and!; [by constructor|done|]. intros d. rewrite H3. set_solver. }
  destruct (bool_decide_reflect (DSN t ∈ seen)) as [Hs|Hs]; simpl.
  { destruct (IH seen) as (H1 & H2 & H3). split_and!; [by constructor|done|]. intros d. rewrite H3. set_solver. }
  destruct (IH ({[DSN t]} ∪ seen)) as (H1 & H2 & H3). split_and!; [by constructor| |].
  - constructor; [|done]. rewrite H3. set_solver.
  - intros d. rewrite !elem_of_cons, H3. destruct (decide (d = DSN t)); set_solver.
Qed.

Section loop_facts.

Context {Sy : Type} (rotateIndex : RotateTarget → Settings → Sy → (Z * bool) * Sy).

(** What the state keeps: no index was polled more than [newTargetTries] times,
    and one that was polled that often is left to the full cycles. *)
Definition loop_inv (st : loopState) : Prop :=
  0 ≤ unhealthyStreak st ∧
  ∀ d n, tries st !! d = Some n → n ≤ newTargetTries ∧ (n = newTargetTries → d ∈ rotated st).

Lemma runNewFrom_inv ts s st y : loop_inv st → loop_inv (runNewFrom rotateIndex ts s st y).1.
Proof.
  revert st y. induction ts as [|t ts IH]; intros st y Hi; [done|]. simpl.
  destruct (bool_decide_reflect (DSN t ∈ rotated st)) as [Hr|Hr]; [by apply IH|].
  destruct (rotateIndex t s y) as [[d err] y']. apply IH. destruct Hi as [Hs Ht]. split; [done|]. simpl.
  assert (default 0 (tries st !! DSN t) + 1 ≤ newTargetTries) as Hn.
  { destruct (tries st !! DSN t) as [m|] eqn:Hm; simpl; [|done]. destruct (Ht _ _ Hm) as [H1 H2].
    destruct (decide (m = newTargetTries)) as [E|]; [by apply H2 in E|lia]. }
  intros e n [[<- <-]|[Hne Hl]]%lookup_insert_Some.
  - split; [done|]. intros E. rewrite (proj2 (Z.leb_le _ _)) by lia. rewrite orb_true_r. set_solver.
  - destruct (Ht _ _ Hl) as [H1 H2]. split; [done|]. intros E%H2. destruct (_ || _); set_solver.
Qed.

Lemma runOne_inv s ts st y : loop_inv st → loop_inv (runOne rotateIndex s ts st y).1.1.
Proof.
  intros [Hs Ht]. unfold runOne. destruct (runCycle _ _ _ _) as [[d f] y']. split; simpl.
  - destruct (_ || _); lia.
  - intros k n Hk. destruct (Ht k n Hk) as [H1 H2]. split; [done|]. intros E%H2. set_solver.
Qed.

Lemma react_inv e st y : loop_inv st → loop_inv (react rotateIndex e st y).1.
Proof.
  destruct e as [s ts|s ts]; intros Hi; simpl; [by apply runNewFrom_inv|].
  pose proof (runOne_inv s ts st y Hi) as H. by destruct (runOne rotateIndex s ts st y) as [[st' f] y'].
Qed.

(** Whatever the polls and cycles answer, in any order of them, no index
    is polled more than [newTargetTries] times, and an index that was is one
    every full cycle goes on rotating; after a cycle every index it was given
    is left to the cycles. *)
Theorem loop_polls_bounded s0 s1 ts1 es s ts y :
  let '(st, y') := runLoop rotateIndex s0 s1 ts1 es y in
  (∀ d n, tries st !! d = Some n → n ≤ newTargetTries) ∧
  let '(st', _, _) := runOne rotateIndex s ts st y' in
  ∀ t, t ∈ ts → DSN t ≠ "" → DSN t ∈ rotated st'.
Proof.
  assert (∀ st y, loop_inv st → loop_inv (reacts rotateIndex es st y).1) as H.
  { clear y. induction es as [|e es' IH]; intros st y Hi; [done|]. simpl.
    pose proof (react_inv e st y Hi) as Hi'. destruct (react rotateIndex e st y) as [st' y']. by apply IH. }
  assert (loop_inv (startState s0)) as H0 by (split; [done|]; intros d n; simpl; by rewrite lookup_empty).
  apply (runOne_inv s1 ts1 _ y) in H0. unfold runLoop.
  destruct (runOne rotateIndex s1 ts1 (startState s0) y) as [[st0 f] y0]. specialize (H st0 y0 H0).
  destruct (reacts rotateIndex es st0 y0) as [st y']. destruct H as [_ Ht].
  split; [intros d n Hn; by apply (Ht d n)|].
  unfold runOne. destruct (runCycle _ _ _ _) as [[d f'] y'']. intros t Hin Hne. simpl.
  apply elem_of_union. left. apply elem_of_list_to_set. apply (dedupeFrom_spec ∅ ts). split_and!; [|done|set_solver].
  by apply list_elem_of_fmap_2.
Qed.

End loop_facts.
