(* ===== verification/RotateDrops.v ===== *)
(** * What a rotation may drop

    A partition that a cycle of the loop drops is older than the window of its
    index and was let go by the upgrade guard; without an archive directory a
    protected cycle drops only partitions that are archived and not waiting for
    an upload. Both are invariants of one partition: it is still in the index,
    or the reason for its drop holds. *)
From S2P Require Import Prelude GoStrings GoTime GoText GoBytes PartitionHour RotateWorld Rotate RotateKeeps RotateLoop.

Open Scope Z_scope.

(** ** Assertions every call keeps *)

Definition Keep {E A} (J : world → Prop) (m : M E A) : Prop := hoare J m (λ _ w, J w) J.

Lemma hoare_bad {E A} (m : M E A) Pre Post (Bad Bad' : world → Prop) :
  hoare Pre m Post Bad → (∀ w, Bad w → Bad' w) → hoare Pre m Post Bad'.
Proof. intros Hm Hb y Hy. specialize (Hm y Hy). destruct (m y) as [[a|e|] y']; auto. Qed.

Section keep.

Context {E : Type} (J : world → Prop) `{!Stable J}.

Lemma keep_ret {A} (a : A) : Keep J (mret a : M E A).
Proof. by apply hoare_ret. Qed.

Lemma keep_raise {A} (e : E) : Keep J (raise e : M E A).
Proof. by apply hoare_raise. Qed.

Lemma keep_look {A} (f : world → A) : Keep J (look f : M E A).
Proof. by apply hoare_look. Qed.

Lemma keep_bind {A B} (m : M E A) (k : A → M E B) : Keep J m → (∀ a, Keep J (k a)) → Keep J (m ≫= k).
Proof. intros Hm Hk. eapply hoare_bind; [exact Hm|]. intros a. apply Hk. Qed.

Lemma keep_call {A} (f : world → (A + callErr) * world) : (∀ w, J w → J (f w).2) → Keep J (call f : M E _).
Proof. intros Hf. apply hoare_call; auto. Qed.

Lemma keep_or_raise {A} (m : M E (A + callErr)) tag : Keep J m → Keep J (or_raise m tag).
Proof. intros Hm. apply keep_bind; [done|]. intros [a|e]; [apply keep_ret|apply keep_raise]. Qed.

Lemma keep_alter q stillSafe more first :
  (∀ w, J w → J (q w).2) → (∀ f, stillSafe = Some f → Keep J f) →
  Keep J (alterFrom q stillSafe more first : M E _).
Proof.
  intros Hq Hs.
  assert (Keep J (touch : M E _)) as Ht by by apply keep_call.
  assert (Keep J (alterOnce q : M E _)) as Ho.
  { unfold alterOnce. apply keep_bind; [done|]. intros [u|e]; [|apply keep_ret].
    apply keep_bind; [done|]. intros [u'|e]; [by apply keep_call|apply keep_ret]. }
  assert (Keep J (typeIndexBuildNote : M E _)) as Hnote.
  { apply keep_bind; [done|]. intros a. apply keep_bind; [done|]. intros b. apply keep_ret. }
  revert first. induction more as [|more IH]; intros first; cbn [alterFrom].
  all: apply keep_bind; [destruct stillSafe as [f|]; [destruct first; [apply keep_ret|by apply Hs]|apply keep_ret]|].
  all: intros [u|e]; [|apply keep_ret].
  all: apply keep_bind; [done|].
  all: intros [u'|e]; [apply keep_ret|].
  all: destruct e; [|apply keep_ret..].
  - apply keep_bind; [done|]. intros v. apply keep_ret.
  - apply keep_bind; [done|]. intros [v|e]; [apply IH|apply keep_ret].
Qed.

End keep.

(** An assertion that no change of the archives touches, and no added
    partition; and what dropping one partition of a list needs. *)
Class Unmoved (J : world → Prop) : Prop := {
  um_stable :: Stable J;
  um_counted c w : J w → J (set_counted c w);
  um_history h w : J w → J (set_history h w);
  um_add start n w : J w → J (reorganize start n w).2;
}.

Class Unarchived (J : world → Prop) : Prop := {
  ua_files f w : J w → J (set_files f w);
  ua_s3 o w : J w → J (set_s3 o w);
  ua_archive a w : J w → J (set_archive a w);
}.

#[local] Hint Extern 1 (Keep _ (mret _)) => apply keep_ret : core.
#[local] Hint Extern 1 (Keep _ (raise _)) => apply keep_raise : core.

Section cycle.

Context (J : world → Prop) `{!Unmoved J}.

Lemma keep_read {E A} (f : world → A + callErr) : Keep J (call (λ w, (f w, w)) : M E _).
Proof. apply keep_call; [apply _|done]. Qed.

Lemma keep_touch {E} : Keep J (touch : M E _).
Proof. apply keep_call; [apply _|done]. Qed.

Lemma keep_list {E} : Keep J (listPartitions : M E _).
Proof. apply keep_call; [apply _|done]. Qed.

Lemma keep_rowcount {E} name : Keep J (partitionRowCount name : M E _).
Proof. apply keep_call; [apply _|]. intros w Hw. destruct (part_rows _ _); [by apply um_counted|done]. Qed.

Lemma keep_drop {E} names stillSafe :
  (∀ w, J w → J (drop_partitions names w).2) → (∀ f, stillSafe = Some f → Keep J f) →
  Keep J (dropPartitions names stillSafe : M E _).
Proof.
  intros Hd Hs. unfold dropPartitions, MarkPartitionsDropped. apply keep_bind.
  - destruct (droppedBound names); [|auto]. apply keep_bind.
    + apply keep_call; [apply _|]. intros w Hw. by apply um_history.
    + intros [u|[]]; auto.
  - intros [u|e]; [|auto]. by apply keep_alter; [apply _|..].
Qed.

Lemma keep_addAhead opts dropped deferred busy ps : Keep J (addAhead opts dropped deferred busy ps).
Proof.
  unfold addAhead. apply keep_bind; [apply keep_look|]. intros now. destruct (partitionsToAdd _ _ _ _ _) as [n b].
  destruct (negb _); [auto|]. apply keep_bind; [apply keep_look|]. intros now'. apply keep_bind.
  - destruct busy; [auto|]. apply keep_alter; [apply _| |done]. intros w. apply um_add.
  - intros [u|[]]; auto.
Qed.

Lemma keep_hasData {E} : Keep J (partitionHasData : M E _).
Proof. apply keep_call; [apply _|]. intros w Hw. by destruct (part_rows _ _). Qed.

Context `{!Unarchived J}.

Lemma keep_rotateOne opts s3 name :
  (∀ w, J w → J (drop_partitions [name] w).2) → Keep J (rotateOne opts s3 name).
Proof.
  intros Hdrop.
  assert (∀ n, Keep J (unchanged name n)) as Hun.
  { intros n. apply keep_bind; [apply keep_rowcount|]. intros [l|e]; auto. }
  assert (∀ path, Keep J (deferStale opts name path)) as Hdefer.
  { intros path. apply keep_bind; [|auto]. apply keep_or_raise, keep_bind.
    - apply keep_call; [apply _|]. intros w. apply ua_archive.
    - intros [u|e]; [|auto]. apply keep_bind; [|auto]. apply keep_call; [apply _|]. intros w. apply ua_files. }
  unfold rotateOne. destruct (HiveArchivePath _ _ _) as [path|]; [|auto].
  apply keep_bind; [apply keep_or_raise, keep_touch|]. intros u. apply keep_bind.
  { unfold archiveToDisk. apply keep_bind; [apply keep_look|]. intros ex. apply keep_bind.
    - destruct (_ && _); [|auto]. apply keep_or_raise, keep_bind; [apply keep_read|].
      intros [[n|]|e]; [|auto..]. apply keep_bind; [apply keep_look|auto].
    - intros [|]; [auto|]. apply keep_bind; [|auto]. apply keep_or_raise, keep_call; [apply _|].
      intros w Hw. destruct (part_rows _ _); [by apply ua_files|done]. }
  intros st. destruct (match s3 with None => _ | Some _ => _ end) as [key|]; [|auto].
  apply keep_bind.
  { destruct st; [|auto]. apply keep_or_raise, keep_call; [apply _|]. intros w. apply ua_archive. }
  intros v. apply keep_bind.
  { unfold uploadOne. destruct s3 as [[bucket prefix]|]; [|auto]. apply keep_bind.
    - destruct (Retry opts); [|auto]. apply keep_bind; [apply keep_or_raise, keep_read|auto].
    - intros [|]; [auto|]. apply keep_bind.
      + apply keep_call; [apply _|]. intros w Hw. destruct (_ !! _); [by apply ua_s3|done].
      + intros [[]|[]]; auto. apply keep_bind; [|auto]. apply keep_or_raise, keep_call; [apply _|]. intros w. apply ua_archive. }
  intros [|]; [|auto]. unfold dropArchived. apply keep_bind; [apply keep_or_raise, keep_read|].
  intros pend. destruct (negb _); [auto|]. apply keep_bind; [apply keep_or_raise, keep_read|]. intros n.
  apply keep_bind; [apply keep_or_raise, keep_rowcount|]. intros live. destruct (negb _); [auto|].
  apply keep_bind; [apply keep_drop; [done|by intros f [= <-]]|].
  intros [x|[]]; auto. apply keep_bind; [|auto].
  destruct (_ && _); [|auto]. apply keep_bind; [|auto]. apply keep_call; [apply _|]. intros w. apply ua_files.
Qed.

Lemma keep_archiveAndDrop opts names :
  (∀ name w, name ∈ names → J w → J (drop_partitions [name] w).2) → Keep J (archiveAndDrop opts names).
Proof.
  intros Hd. unfold archiveAndDrop. apply keep_bind; [apply keep_or_raise, keep_touch|]. intros u.
  apply keep_bind.
  { unfold openS3. case_bool_decide; [auto|]. destruct (ParseS3URL _); [|auto].
    apply keep_bind; [apply keep_or_raise, keep_touch|auto]. }
  intros s3. apply keep_bind.
  { unfold writeSidecar. apply keep_bind; [apply keep_touch|]. intros [x|e]; [|auto]. destruct s3; [|auto].
    apply keep_bind; [apply keep_touch|auto]. }
  intros v. generalize 0 at 1. generalize 0. revert Hd. induction names as [|name names IH]; intros Hd a b; cbn [rotateEach]; [auto|].
  apply keep_bind; [apply keep_rotateOne; intros w; apply Hd; by left|].
  intros [| |]; [apply IH..|auto]; intros n w Hn; apply Hd; by right.
Qed.

End cycle.

(** ** Drops without an archive *)

(** What [archive_state] must say of a partition dropped without archiving. *)
Definition droppable (a : list arow) (protectActive : bool) (name : string) : Prop :=
  (protectActive = true → Exists (λ r, ar_partition r = name) a) ∧ filter (pending name) a = [].

Definition archived_in (name : string) (a : list arow) : bool := bool_decide (Exists (λ r, ar_partition r = name) a).
Definition has_history (a : list arow) : bool := negb (bool_decide (a = [])).

Section drop_only.

Context (J : world → Prop) `{!Unmoved J} (a : list arow).

Definition frozen (w : world) : Prop := J w ∧ w_archive w = a.

#[export] Instance stable_frozen : Stable frozen.
Proof. intros w w' Hg [Hj Ha]. split; [by eapply um_stable|by rewrite (gr_archive _ _ Hg)]. Qed.

Lemma frozen_read {E A} (f : list arow → A) :
  hoare frozen (call (λ w, (inl (f (w_archive w)), w)) : M E _)
    (λ r w, frozen w ∧ ∀ x, r = inl x → f a = x) J.
Proof.
  eapply hoare_weaken; [apply (hoare_read J (λ w, inl (f (w_archive w))) frozen); by intros w [? _]|done|].
  intros r w [[Hj Ha] Hr]. split; [done|]. intros x ->. specialize (Hr x eq_refl). rewrite <-Ha. by injection Hr.
Qed.

Lemma frozen_raise {A B} (m : P (A + callErr)) tag (k : A → P B) (F : A → Prop) Post :
  hoare frozen m (λ r w, frozen w ∧ ∀ x, r = inl x → F x) J →
  (∀ x, F x → hoare frozen (k x) Post J) → hoare frozen (or_raise m tag ≫= k) Post J.
Proof.
  intros Hm Hk. eapply (hoare_bind _ _ _ _ (λ x w, F x ∧ frozen w)).
  - eapply hoare_or_raise. eapply hoare_weaken; [exact Hm|done|]. intros [x|e] w [Hf HF]; [auto|by destruct Hf].
  - intros x. apply hoare_pure. auto.
Qed.

Lemma keepSafe_ok pa names :
  hoare frozen (keepSafe pa names)
    (λ r w, (∀ n, n ∈ r.1 → n ∈ names ∧ droppable a pa n) ∧ frozen w) J.
Proof.
  induction names as [|name names IH]; [by apply hoare_ret; intros w Hw; split; [set_solver|]|]. cbn [keepSafe].
  eapply (hoare_bind _ _ _ _ (λ archived w, (archived = true → pa = true → Exists (λ r, ar_partition r = name) a) ∧ frozen w)).
  { destruct pa; [|by apply hoare_ret]. eapply hoare_or_raise. eapply hoare_weaken;
      [apply (frozen_read (archived_in name))|done|].
    intros [x|e] w [Hw Hx]; [|by destruct Hw]. split; [|done]. intros -> _. apply (bool_decide_eq_true _), (Hx true eq_refl). }
  intros archived. apply hoare_pure. intros Har.
  assert (∀ (k : list string * Z → P (list string * Z)),
    (∀ r, (∀ n, n ∈ r.1 → n ∈ names ∧ droppable a pa n) → hoare frozen (k r)
      (λ r' w, (∀ n, n ∈ r'.1 → n ∈ name :: names ∧ droppable a pa n) ∧ frozen w) J) →
    hoare frozen (keepSafe pa names ≫= k)
      (λ r' w, (∀ n, n ∈ r'.1 → n ∈ name :: names ∧ droppable a pa n) ∧ frozen w) J) as Hrest.
  { intros k Hk. eapply hoare_bind; [exact IH|]. intros r. apply hoare_pure, Hk. }
  destruct archived; simpl.
  - eapply (frozen_raise _ _ _ (λ pend, pend = [] → filter (pending name) a = [])).
    + eapply hoare_weaken; [apply (frozen_read (λ a,
        sort_by String.compare (remove_dups (source_of <$> filter (pending name) a))))|done|].
      intros r w [Hw Hr]. split; [done|]. intros x Hx E. specialize (Hr x Hx). rewrite E in Hr.
      assert (∀ x, x ∈ (source_of <$> filter (pending name) a) → x ∈ sort_by String.compare
        (remove_dups (source_of <$> filter (pending name) a))) as Hin.
      { intros z Hz. rewrite elem_of_sort_by. by rewrite elem_of_remove_dups. }
      rewrite Hr in Hin. destruct (filter (pending name) a) as [|r0 l]; [done|exfalso].
      apply (not_elem_of_nil (source_of r0)), Hin. by left.
    + intros pend Hp. apply Hrest. intros [safe deferred] Hsafe. apply hoare_ret. intros w Hw.
      split; [|done]. case_bool_decide as E; cbn [fst]; [|intros n Hn; destruct (Hsafe n Hn); split; [by right|done]].
      intros n [->|Hn]%elem_of_cons; [split; [by left|split; auto]|destruct (Hsafe n Hn); split; [by right|done]].
  - apply Hrest. intros [safe deferred] Hsafe. apply hoare_ret. intros w Hw. split; [|done].
    intros n Hn. destruct (Hsafe n Hn). split; [by right|done].
Qed.

Lemma dropOnly_ok opts names :
  (∀ l w, (∀ n, n ∈ l → n ∈ names ∧ droppable a (ProtectUnarchived opts && has_history a) n) →
     J w → J (drop_partitions l w).2) →
  hoare frozen (dropOnly opts names) (λ _ w, J w) J.
Proof.
  intros Hd. unfold dropOnly.
  eapply (hoare_bind _ _ _ _ (λ pa w, pa = ProtectUnarchived opts && has_history a ∧ frozen w)).
  { destruct (ProtectUnarchived opts); [|by apply hoare_ret].
    eapply hoare_or_raise. eapply hoare_weaken; [apply (frozen_read has_history)|done|].
    intros [x|e] w [Hw Hx]; [|by destruct Hw]. split; [|done]. symmetry. by apply Hx. }
  intros pa. apply hoare_pure. intros ->.
  eapply hoare_bind; [apply keepSafe_ok|]. intros [safe deferred]. apply hoare_pure. cbn [fst]. intros Hsafe.
  destruct safe as [|n0 safe0] eqn:Hs; [apply hoare_ret; by intros w [? _]|]. rewrite <-Hs in *.
  eapply (hoare_weaken _ _ J); [|by intros w [? _]|intros r w Hw; exact Hw].
  apply keep_bind; [apply keep_drop; [done| |done]; intros w; by apply Hd|].
  intros [u|[]]; auto.
Qed.

End drop_only.

(** ** The fate of one partition *)

Lemma listed_drop n0 l w : n0 ∉ l → listed n0 w → listed n0 (drop_partitions l w).2.
Proof.
  unfold drop_partitions. intros Hn Hl. destruct (_ && _); [|done]. simpl. unfold listed in *. simpl.
  apply list_elem_of_fmap in Hl as (p & -> & Hp). apply list_elem_of_fmap_2, list_elem_of_filter. done.
Qed.

Lemma drop_now l w : w_now (drop_partitions l w).2 = w_now w.
Proof. unfold drop_partitions. by destruct (_ && _). Qed.

Lemma drop_archive l w : w_archive (drop_partitions l w).2 = w_archive w.
Proof. unfold drop_partitions. by destruct (_ && _). Qed.

Lemma reorganize_same start n w :
  w_now (reorganize start n w).2 = w_now w ∧ w_archive (reorganize start n w).2 = w_archive w.
Proof. unfold reorganize. destruct (part_rows _ _); [by destruct (_ && _)|done]. Qed.

Lemma listed_reorganize start n n0 w : listed n0 w → listed n0 (reorganize start n w).2.
Proof.
  unfold reorganize. destruct (part_rows _ _); [|done]. destruct (_ && _); [|done]. unfold listed. simpl.
  rewrite fmap_app, share_out_names, elem_of_app. intros Hl.
  destruct (decide (n0 = "p_future")) as [->|Hne].
  - right. rewrite fmap_app. apply elem_of_app. right. by left.
  - left. apply list_elem_of_fmap in Hl as (p & -> & Hp). by apply list_elem_of_fmap_2, list_elem_of_filter.
Qed.

(** Still in the index, or dropped past its window; [c] is a time the clock has
    passed. *)
Definition within (n0 : string) (d0 retain c : Z) (w : world) : Prop :=
  (listed n0 w ∨ (0 < retain ∧ d0 + retain < w_now w)) ∧ c ≤ w_now w.

#[export] Instance within_unmoved n0 d0 retain c : Unmoved (within n0 d0 retain c).
Proof.
  split; [|done|done|].
  - intros w w' Hg [H Hc]. pose proof (gr_now _ _ Hg). split; [|lia].
    destruct H as [H|]; [left; by eapply stable_listed|right; lia].
  - intros start n w [H Hc]. unfold within. destruct (reorganize_same start n w) as [-> _].
    split; [|done]. destruct H as [H|]; [left; by apply listed_reorganize|by right].
Qed.

#[export] Instance within_unarchived n0 d0 retain c : Unarchived (within n0 d0 retain c).
Proof. by split. Qed.

Lemma within_drop n0 d0 retain c l w :
  0 < retain → (n0 ∈ l → d0 < c - retain) → within n0 d0 retain c w → within n0 d0 retain c (drop_partitions l w).2.
Proof.
  intros Hr Hl [H Hc]. unfold within. rewrite drop_now. split; [|done].
  destruct H as [H|]; [|by right]. destruct (decide (n0 ∈ l)) as [Hin|]; [right; specialize (Hl Hin); lia|left].
  by apply listed_drop.
Qed.

Lemma Perform_window opts n0 d0 c :
  PartitionDate n0 = Some d0 → Keep (within n0 d0 (RetainDur opts) c) (Perform opts).
Proof.
  intros Hd0. set (J := within n0 d0 (RetainDur opts) c). unfold Perform. destruct (_ && _); [apply keep_raise|].
  apply keep_bind; [apply keep_or_raise, keep_list; apply _|]. intros ps.
  apply keep_bind.
  2: { intros [[[a b] busy] ps']. apply keep_bind; [apply keep_hasData; apply _|]. intros x. apply keep_addAhead, _. }
  unfold dropOld. destruct (Z.ltb_spec 0 (RetainDur opts)) as [Hr|]; simpl; [|apply keep_ret].
  eapply (hoare_bind _ _ _ _ (λ now w, within n0 d0 (RetainDur opts) (Z.max c now) w)).
  { apply hoare_look. intros w [H Hc]. split; [done|lia]. }
  intros now. set (J' := within n0 d0 (RetainDur opts) (Z.max c now)).
  assert (∀ w, J' w → J w) as Hj by (intros w [H Hc]; split; [done|lia]).
  assert (∀ l, (∀ n, n ∈ l → n ∈ olderThan (now - RetainDur opts) ps) → ∀ w, J' w → J' (drop_partitions l w).2) as Hdrop.
  { intros l Hl w. apply within_drop; [done|]. intros Hin%Hl. apply olderThan_spec in Hin as [_ (d & Hd & Hlt)].
    assert (d = d0) as -> by congruence. lia. }
  destruct (olderThan _ ps) as [|n1 names1] eqn:Hnames; [by apply hoare_ret|]. rewrite <-Hnames in *.
  assert (Keep J' (if bool_decide (ArchiveDir opts = "") then dropOnly opts (olderThan (now - RetainDur opts) ps)
    else archiveAndDrop opts (olderThan (now - RetainDur opts) ps))) as Hphase.
  { case_bool_decide.
    - eapply (hoare_weaken _ _ (λ w, ∃ a, frozen J' a w)); [|intros w Hw; exists (w_archive w); done|intros r w Hw; exact Hw].
      apply hoare_ex. intros a. apply dropOnly_ok; [apply _|]. intros l w Hl. apply Hdrop. intros n Hn. by apply Hl.
    - apply keep_archiveAndDrop; [apply _..|]. intros name w Hn. apply Hdrop. intros n ->%list_elem_of_singleton. done. }
  eapply (hoare_weaken _ _ J' _ (λ _ w, J' w)); [apply (hoare_bad _ _ _ J'); [|exact Hj]|done|intros r; apply Hj].
  apply keep_bind; [exact Hphase|]. intros [[d1 d2] busy].
  apply keep_bind; [apply keep_or_raise, keep_list; apply _|]. intros ps'. apply keep_ret.
Qed.

(** Still in the index, or droppable. *)
Definition or_droppable (n0 : string) (F : Prop) (w : world) : Prop := listed n0 w ∨ F.

#[export] Instance or_droppable_unmoved n0 F : Unmoved (or_droppable n0 F).
Proof.
  split; [apply _|done|done|]. intros start n w [H|]; [left; by apply listed_reorganize|by right].
Qed.

Lemma Perform_dropOnly opts n0 a :
  ArchiveDir opts = "" →
  let J := or_droppable n0 (droppable a (ProtectUnarchived opts && has_history a) n0) in
  hoare (frozen J a) (Perform opts) (λ _ w, J w) J.
Proof.
  intros Hdir J. assert (∀ w, frozen J a w → J w) as Hf by by intros w [? _].
  unfold Perform. rewrite Hdir. destruct (negb (bool_decide (ArchiveS3 opts = "")) && _); [by apply hoare_raise|].
  eapply (hoare_bind _ _ _ _ (λ _ w, frozen J a w)).
  { eapply hoare_or_raise. eapply hoare_weaken; [apply (hoare_read J (λ w, inl (infos (w_parts w))) (frozen J a)); done|done|].
    intros [x|e] w [Hw _]; auto. }
  intros ps. eapply (hoare_bind _ _ _ _ (λ _ w, J w)).
  2: { intros [[[d1 d2] busy] ps']. apply (keep_bind J); [apply keep_hasData; apply _|]. intros x. apply keep_addAhead, _. }
  unfold dropOld. destruct (negb _); [by apply hoare_ret|].
  eapply hoare_bind; [by apply (hoare_look _ _ _ (λ _ w, frozen J a w))|]. intros now.
  destruct (olderThan _ ps) as [|n1 names1]; [by apply hoare_ret|]. rewrite Hdir. simpl.
  eapply (hoare_bind _ _ _ _ (λ _ w, J w)).
  - apply dropOnly_ok; [apply _|]. intros l w Hl [H|H]; [|by right].
    destruct (decide (n0 ∈ l)) as [Hin|]; [right; by apply Hl|left; by apply listed_drop].
  - intros [[d1 d2] busy]. apply (keep_bind J); [apply keep_or_raise, keep_list; apply _|]. intros ps'. apply keep_ret.
Qed.

(** C27: a cycle without an archive directory drops a partition only if no
    source of it waits for an upload and, when the cycle protects what is not
    archived (the built-in loop's always does) and the index has any archive,
    [archive_state] has a row for it. It holds for every answer of every call:
    a check that fails ends the cycle before the drop. *)
Theorem protected_drop opts y r y' name :
  ArchiveDir opts = "" → Perform opts y = (r, y') →
  listed name (y_world y) → ¬ listed name (y_world y') →
  (ProtectUnarchived opts = true → w_archive (y_world y) ≠ [] →
     ∃ row, row ∈ w_archive (y_world y) ∧ ar_partition row = name) ∧
  ∀ row, row ∈ w_archive (y_world y) → ¬ pending name row.
Proof.
  intros Hdir Hrun Hl Hgone. set (a := w_archive (y_world y)).
  pose proof (Perform_dropOnly opts name a Hdir y (conj (or_introl Hl) eq_refl)) as H. rewrite Hrun in H.
  assert (droppable a (ProtectUnarchived opts && has_history a) name) as [H1 H2] by (destruct r; destruct H as [|H]; done).
  split.
  - intros Hp Ha. assert (Exists (λ r, ar_partition r = name) a) as (row & Hr & Hn)%Exists_exists; [|by exists row].
    apply H1. rewrite Hp. unfold has_history. by rewrite bool_decide_eq_false_2.
  - intros row Hr Hp. assert (row ∈ filter (pending name) a) as Hin by by apply list_elem_of_filter.
    rewrite H2 in Hin. by apply not_elem_of_nil in Hin.
Qed.

(** ** The window of an index *)

(** The window the record of an index stands for. *)
Definition recordedWindow (w : world) : implicitRetain :=
  (implicitRetainFrom (match w_policy w with
                       | Some (retain, recordedAt) => Recorded (trim_space retain) recordedAt
                       | None => NoRecord
                       end)).1.

(** Why a cycle of the loop may have dropped a partition of hour [d0], for an
    index whose partitions were [ps] at [t0] and whose record says [imp]. *)
Definition aged (s : Settings) (imp : implicitRetain) (ps : list partitionInfo) (t0 d0 : Z) (w : world) : Prop :=
  if st_Explicit s then 0 < st_Retain s ∧ d0 + st_Retain s < w_now w
  else ∃ used now, (used = imp ∨ used = legacyRetain) ∧ t0 ≤ now ≤ w_now w ∧
    d0 + ir_retain used < w_now w ∧
    g_Blocked (guardBlocks ps (ir_retain used) (ir_recorded used) (ir_recordedAt used) now) = false.

Lemma aged_mono s imp ps t0 d0 w w' : w_now w ≤ w_now w' → aged s imp ps t0 d0 w → aged s imp ps t0 d0 w'.
Proof.
  unfold aged. destruct (st_Explicit s); [lia|]. intros Hn (used & now & Hu & Ht & Hd & Hg). exists used, now.
  split_and!; [done|lia..|done].
Qed.

(** Before the drops: nothing has moved. *)
Definition calm (imp : implicitRetain) (ps : list partitionInfo) (n0 : string) (t0 : Z) (w : world) : Prop :=
  infos (w_parts w) = ps ∧ listed n0 w ∧ t0 ≤ w_now w ∧ recordedWindow w = imp.

#[export] Instance stable_calm imp ps n0 t0 : Stable (calm imp ps n0 t0).
Proof.
  intros w w' Hg (H1 & H2 & H3 & H4). split_and!.
  - by rewrite (infos_grows _ _ (gr_parts _ _ Hg)).
  - by eapply stable_listed.
  - pose proof (gr_now _ _ Hg). lia.
  - unfold recordedWindow. by rewrite (gr_policy _ _ Hg).
Qed.

(** What is known of the window a cycle chose. *)
Definition chosen (s : Settings) (imp : implicitRetain) (ps : list partitionInfo) (t0 : Z) (retain : Z) (w : world) : Prop :=
  if st_Explicit s then retain = st_Retain s
  else ∃ used now, (used = imp ∨ used = legacyRetain) ∧ t0 ≤ now ≤ w_now w ∧
    (retain = 0 ∨ retain = ir_retain used ∧
       g_Blocked (guardBlocks ps (ir_retain used) (ir_recorded used) (ir_recordedAt used) now) = false).

Lemma chooseWindow_ok {E} s imp ps n0 t0 :
  hoare (calm imp ps n0 t0) (chooseWindow s : M E _)
    (λ r w, calm imp ps n0 t0 w ∧ match r with inl (retain, _) => chosen s imp ps t0 retain w | inr _ => True end)
    (calm imp ps n0 t0).
Proof.
  unfold chooseWindow, chosen. destruct (st_Explicit s); [by apply hoare_ret|].
  eapply (hoare_bind _ _ _ _ (λ r w, calm imp ps n0 t0 w ∧
    ((implicitRetainFrom (match r with inl a => a | inr _ => RetainUnread end)).1 = imp ∨
     (implicitRetainFrom (match r with inl a => a | inr _ => RetainUnread end)).1 = legacyRetain))).
  - unfold ReadInitialRetain. eapply hoare_bind.
    + apply (hoare_read (calm imp ps n0 t0) (λ w, inl (w_policy w)) (calm imp ps n0 t0)). done.
    + intros [p|e]; apply hoare_ret; intros w [Hw Hp]; (split; [done|]).
      * destruct Hw as (_ & _ & _ & Hi). specialize (Hp p eq_refl). injection Hp as <-. left. rewrite <-Hi.
        unfold recordedWindow. by destruct (w_policy w) as [[retain at_]|].
      * right. by destruct e.
  - intros r. set (used := (implicitRetainFrom (match r with inl a => a | inr _ => RetainUnread end)).1).
    assert (hoare (λ w, calm imp ps n0 t0 w ∧ (used = imp ∨ used = legacyRetain))
      (partitions ← listPartitions;
       match partitions with
       | inr e => mret (inr (0, true))
       | inl partitions =>
           now ← look w_now;
           let g := guardBlocks partitions (ir_retain used) (ir_recorded used) (ir_recordedAt used) now in
           mret (inl (if g_Blocked g then 0 else ir_retain used, ir_raw used))
       end : M E _)
      (λ r w, calm imp ps n0 t0 w ∧ match r with inl (retain, _) => ∃ used now,
          (used = imp ∨ used = legacyRetain) ∧ t0 ≤ now ≤ w_now w ∧
          (retain = 0 ∨ retain = ir_retain used ∧
            g_Blocked (guardBlocks ps (ir_retain used) (ir_recorded used) (ir_recordedAt used) now) = false)
        | inr _ => True end) (calm imp ps n0 t0)) as Hrest.
    { eapply hoare_bind.
      { apply (hoare_read (calm imp ps n0 t0) (λ w, inl (infos (w_parts w)))
          (λ w, calm imp ps n0 t0 w ∧ (used = imp ∨ used = legacyRetain))). by intros w [? _]. }
      intros [partitions|e]; [|apply hoare_ret; by intros w [[? _] _]].
      eapply hoare_bind; [apply (hoare_look _ _ _ (λ now w, (calm imp ps n0 t0 w ∧ (used = imp ∨ used = legacyRetain)) ∧
        partitions = ps ∧ now = w_now w))|].
      { intros w [[Hw Hu] Hp]. split; [done|]. split; [|done]. specialize (Hp _ eq_refl). injection Hp as <-. apply Hw. }
      intros now. apply hoare_ret. intros w [[Hw Hu] [-> ->]]. split; [done|].
      exists used, (w_now w). split; [done|]. split; [destruct Hw as (_ & _ & ? & _); lia|].
      destruct (g_Blocked _) eqn:Hg; [by left|right; auto]. }
    destruct r as [a|[]]; try exact Hrest. apply hoare_ret. by intros w [? _].
Qed.

(** C26: a cycle of the loop drops a partition only when its hour is older than
    the window the index is dropped on: the operator's, when there is one;
    else the one the index was created under, or the legacy one when there is
    no record or it cannot be read, and then only if the upgrade guard, asked
    during the cycle about the partitions it began with, does not block. *)
Theorem rotateOneIndex_drops {E} parseDSN t s y (r : res E (Z * bool)) y' name d0 :
  rotateOneIndex parseDSN t s y = (r, y') → PartitionDate name = Some d0 →
  listed name (y_world y) → ¬ listed name (y_world y') →
  aged s (recordedWindow (y_world y)) (infos (w_parts (y_world y))) (w_now (y_world y)) d0 (y_world y').
Proof.
  intros Hrun Hd0 Hl Hgone. set (imp := recordedWindow (y_world y)). set (ps := infos (w_parts (y_world y))).
  set (t0 := w_now (y_world y)). set (C := calm imp ps name t0).
  set (G := λ w, listed name w ∨ aged s imp ps t0 d0 w).
  assert (∀ w, C w → G w) as HCG by (intros w (_ & H & _); by left).
  assert (hoare C (rotateOneIndex parseDSN t s : M E _) (λ _ w, G w) G) as H.
  { unfold rotateOneIndex. destruct (parseDSN (DSN t)) as [[|c0 s0]|]; [by apply hoare_ret| |by apply hoare_ret].
    eapply hoare_bind; [by apply (hoare_touch _ C)|]. intros [u|e]; [|by apply hoare_ret].
    eapply (hoare_bind _ _ _ _ (λ _ w, C w)).
    { destruct (NoWriter t); [|by apply hoare_ret].
      eapply hoare_weaken; [by apply (hoare_read G _ C)|done|by intros x w [? _]]. }
    intros [quiet_|e]; [|by apply hoare_ret].
    eapply hoare_bind; [eapply hoare_bad; [apply (chooseWindow_ok s imp ps name t0)|exact HCG]|].
    intros [[retain raw]|out]; [|apply hoare_ret; intros w [Hc _]; by apply HCG].
    set (opts := loopOptions retain raw s t quiet_).
    intros y0 [HC Hch]. set (c := w_now (y_world y0)).
    pose proof (Perform_window opts name d0 c Hd0 y0) as Hw.
    assert (within name d0 (RetainDur opts) c (y_world y0)) as Hstart.
    { split; [|done]. left. by destruct HC as (_ & ? & _). }
    specialize (Hw Hstart).
    assert (∀ w, within name d0 (RetainDur opts) c w → G w) as Hend.
    { intros w [[?|[Hr Hd]] Hc]; [by left|right]. change (RetainDur opts) with retain in *. unfold chosen, aged in *.
      destruct (st_Explicit s); [subst retain; done|]. destruct Hch as (used & now & Hu & Ht & [->|[-> Hg]]); [lia|].
      exists used, now. unfold c in Hc. split_and!; [done|lia..|done]. }
    unfold mbind, M_bind, catch. destruct (Perform opts y0) as [[res|e|] y1]; simpl; auto. }
  specialize (H y). rewrite Hrun in H. assert (C (y_world y)) as HC by done. specialize (H HC).
  destruct r; destruct H as [|H]; done.
Qed.
