(* ===== verification/RotateCases.v ===== *)
(** * Rotations on concrete indexes

    The conditions of [rotation_keeps_rows] are needed: cycles that report success
    and lose rows without them; and the witnesses of the rotation's theorems. *)
From S2P Require Import Prelude GoStrings GoTime GoText GoBytes PartitionHour RotateWorld Rotate RotateKeeps RotateAdds RotateLoop RotateDrops.

Open Scope Z_scope.

(** ** What can still be read, as a list *)

Definition file_rows (f : pfile) : list erow := match f with Whole rows => rows | _ => [] end.

Definition holdings (w : world) : list erow :=
  (w_parts w ≫= p_rows) ++ (map_to_list (w_files w) ≫= λ x, file_rows x.2) ++ (map_to_list (w_s3 w) ≫= λ x, file_rows x.2).

Lemma held_holdings w e : held w e → e ∈ holdings w.
Proof.
  unfold holdings. rewrite !elem_of_app, !list_elem_of_bind. intros [(p & Hp & He)|[(k & rows & Hk & He)|(k & rows & Hk & He)]].
  - left. by exists p.
  - right. left. exists (k, Whole rows). split; [done|]. by apply elem_of_map_to_list.
  - right. right. exists (k, Whole rows). split; [done|]. by apply elem_of_map_to_list.
Qed.

(** A row is lost: it was in the index, can be read nowhere, and did not come
    too late for the last count. *)
Definition lost_row (w : world) (e : erow) : Prop := e ∈ w_all w ∧ ¬ held w e ∧ e ∉ w_late w.

Definition lost_row_b (w : world) (e : erow) : bool :=
  bool_decide (e ∈ w_all w) && bool_decide (e ∉ holdings w) && bool_decide (e ∉ w_late w).

Lemma lost_row_by w e : lost_row_b w e = true → lost_row w e.
Proof.
  unfold lost_row_b. rewrite !andb_true_iff, !bool_decide_eq_true. intros [[H1 H2] H3]. split_and!; [done| |done].
  by intros H%held_holdings.
Qed.

(** ** The cycles *)

Definition t0 : Z := SysVersion.days_from_civil 2026 7 14 * day.
Definition row (i : Z) (t : Z) : erow := {| e_id := i; e_ts := t; e_rest := "" |}.

Definition quiets (n : nat) : list step := replicate n quiet.
Definition refuse (e : callErr) : step := {| s_wait := 0; s_rows := []; s_answer := Refused e |}.
Definition arriving (l : list erow) : step := {| s_wait := 0; s_rows := l; s_answer := Done |}.

(** A cycle of the built-in loop's configuration. *)
Definition cycle (w : world) (script : list step) : world :=
  y_world (Perform sample_opts {| y_world := w; y_script := script |}).2.

(** Archived and uploaded; its drop is refused. *)
Definition refusal_script : list step := quiets 17 ++ [refuse Failed].

Definition without_staging (w : world) : world := set_files ∅ w.

(** An index left for longer than its retention: every named hour is past. *)
Definition stopped_world : world := {|
  w_now := t0 + 72 * hour;
  w_parts := [named t0 [row 1 t0]; named (t0 + hour) [row 2 (t0 + hour)];
              {| p_Name := "p_future"; p_bound := None; p_rows := [] |}];
  w_archive := []; w_files := ∅; w_s3 := ∅; w_history := Some None; w_policy := None;
  w_all := [row 1 t0; row 2 (t0 + hour)]; w_counted := ∅; w_late := [] |}.

(** ** Facts of the samples *)

Lemma omap_NoDup_inj {A B} (f : A → option B) (l : list A) x y d :
  NoDup (omap f l) → x ∈ l → y ∈ l → f x = Some d → f y = Some d → x = y.
Proof.
  induction l as [|z l IH]; intros Hnd Hx Hy Hfx Hfy; [by apply not_elem_of_nil in Hx|].
  assert (∀ u, u ∈ l → f u = Some d → d ∈ omap f l) as Hin by (intros u Hu Hfu; apply list_elem_of_omap; eauto).
  csimpl in Hnd. apply elem_of_cons in Hx as [->|Hx], Hy as [->|Hy]; [done| | |].
  - rewrite Hfx in Hnd. apply NoDup_cons in Hnd as [Hn _]. by destruct (Hn (Hin y Hy Hfy)).
  - rewrite Hfy in Hnd. apply NoDup_cons in Hnd as [Hn _]. by destruct (Hn (Hin x Hx Hfx)).
  - apply IH; [|done..]. destruct (f z); [by apply NoDup_cons in Hnd as [_ ?]|done].
Qed.

Lemma dates_distinct ps : NoDup (dates (infos ps)) →
  ∀ p q d, p ∈ ps → q ∈ ps → has_date p d → has_date q d → p_Name p = p_Name q.
Proof.
  rewrite dates_infos. intros Hnd p q d Hp Hq Hpd Hqd.
  eapply (omap_NoDup_inj PartitionDate _ _ _ d Hnd); [by apply list_elem_of_fmap_2..|done|done].
Qed.

Lemma sample_untouched : untouched sample_world.
Proof.
  split; [dec_compute| |vm_compute; reflexivity|done..|].
  - apply dates_distinct. dec_compute.
  - intros e ->%list_elem_of_singleton. eexists. split; [by left|]. by left.
Qed.

Lemma sample_ahead : had_ahead sample_world (cycle sample_world refusal_script).
Proof.
  exists (named (t0 + 72 * hour) []), (t0 + 72 * hour). split_and!; [set_solver|vm_compute; reflexivity|].
  vm_compute. congruence.
Qed.

Lemma cycle_reached w0 w script :
  cycles sample_opts w0 w → had_ahead w (cycle w script) → cycles sample_opts w0 (cycle w script).
Proof.
  intros Hc Ha. unfold cycle in *. destruct (Perform sample_opts _) as [r y] eqn:Hrun.
  exact (one_more sample_opts w0 w script r y Hc Hrun Ha).
Qed.

(** ** The conditions of [rotation_keeps_rows] *)

(** Its statement for the cycles that report success, with [reach] for the
    worlds a cycle starts from. *)
Definition clean_cycles_keep (reach : Options → world → world → Prop) : Prop := ∀ opts w0 w script r y e,
  (prunes opts → Retry opts = true) → ArchiveDir opts ≠ "" →
  untouched w0 → reach opts w0 w →
  Perform opts {| y_world := w; y_script := script |} = (Ret r, y) → Deferred r = 0 → AddSkipped r = 0 →
  e ∈ w_all (y_world y) → held (y_world y) e ∨ e ∈ w_late (y_world y).

(** The staging directory is lost after a cycle. *)
Definition staging_lost (opts : Options) (w0 w : world) : Prop := ∃ w', cycles opts w0 w' ∧ w = without_staging w'.

(** Cycles that may end with no partition ahead of the clock. *)
Inductive any_cycles (opts : Options) (w0 : world) : world → Prop :=
  | any_none : any_cycles opts w0 w0
  | any_more w script r y : any_cycles opts w0 w → Perform opts {| y_world := w; y_script := script |} = (r, y) →
      any_cycles opts w0 (y_world y).

Lemma stopped_untouched : untouched stopped_world.
Proof.
  split; [dec_compute| |vm_compute; reflexivity|done..|].
  - apply dates_distinct. dec_compute.
  - intros e [->| ->%list_elem_of_singleton]%elem_of_cons; [exists (named t0 [row 1 t0])|exists (named (t0 + hour) [row 2 (t0 + hour)])];
      (split; [set_solver|by left]).
Qed.

(** A clean cycle after which a row is lost refutes the statement. *)
Lemma clean_cycles_refuted (reach : Options → world → world → Prop) w0 w script e
    (o := Perform sample_opts {| y_world := w; y_script := script |}) :
  untouched w0 → reach sample_opts w0 w →
  match o.1 with Ret r => (Deferred r =? 0) && (AddSkipped r =? 0) | _ => false end && lost_row_b (y_world o.2) e = true →
  ¬ clean_cycles_keep reach.
Proof.
  intros Hu Hr [Ho (Hin & Hh & Hl)%lost_row_by]%andb_true_iff H. destruct o as [[r|err|] y] eqn:E; [|done..].
  simpl in *. apply andb_true_iff in Ho as [Hd%Z.eqb_eq Ha%Z.eqb_eq].
  destruct (H sample_opts w0 w script r y e); done.
Qed.

(** C33: Two conditions of [rotation_keeps_rows] are needed: for each there are
    cycles that report success, with all its other conditions in force, after
    which a row of the index can be read nowhere. (1) The local files are still
    there. A partition is archived and uploaded, its drop fails, a row arrives
    for it and the staging directory is lost: the next cycle writes the archive
    again but keeps the time of the earlier upload, skips the upload, drops the
    partition and removes the local file. (2) Each earlier cycle ended with a
    partition ahead of the clock. When every named partition is past retention
    and the first one's upload fails, the later ones are dropped, their hours
    are added again, and a row that then arrives for such an hour is archived
    over the same path and taken for uploaded. *)
Theorem rotation_conditions : (¬ clean_cycles_keep staging_lost) ∧ (¬ clean_cycles_keep any_cycles).
Proof.
  split.
  - apply (clean_cycles_refuted staging_lost sample_world (without_staging (cycle sample_world refusal_script))
      [arriving [row 2 (t0 + 5 * second)]] (row 2 (t0 + 5 * second)) sample_untouched); [|vm_compute; reflexivity].
    eexists. split; [|done]. apply cycle_reached; [apply no_cycle|exact sample_ahead].
  - apply (clean_cycles_refuted any_cycles stopped_world (cycle stopped_world (quiets 9 ++ [refuse Failed]))
      [arriving [row 3 (t0 + hour)]] (row 3 (t0 + hour)) stopped_untouched); [|vm_compute; reflexivity].
    eapply any_more; [apply any_none|apply surjective_pairing].
Qed.

(** ** The witnesses *)

Definition next_script : list step := [arriving [row 2 (t0 + 5 * second)]].

Lemma rotation_keeps_rows_witness :
  let y := (Perform sample_opts {| y_world := (cycle sample_world refusal_script); y_script := next_script |}).2 in
  row 2 (t0 + 5 * second) ∈ w_all (y_world y) ∧
  (held (y_world y) (row 2 (t0 + 5 * second)) ∨ row 2 (t0 + 5 * second) ∈ w_late (y_world y)).
Proof.
  assert (row 2 (t0 + 5 * second) ∈
    w_all (y_world (Perform sample_opts {| y_world := (cycle sample_world refusal_script); y_script := next_script |}).2)) as Hin by dec_compute.
  split; [exact Hin|].
  apply (rotation_keeps_rows sample_opts sample_world (cycle sample_world refusal_script) next_script
    (Perform sample_opts {| y_world := (cycle sample_world refusal_script); y_script := next_script |}).1).
  - reflexivity.
  - discriminate.
  - exact sample_untouched.
  - apply cycle_reached; [apply no_cycle|exact sample_ahead].
  - apply surjective_pairing.
  - exact Hin.
Defined.

Lemma addAhead_reaches_witness :
  let y := {| y_world := sample_world; y_script := [] |} in
  let nowHour := truncate_hour (w_now sample_world) in
  let y' := (addAhead sample_opts 0 0 false (infos (w_parts sample_world)) y).2 in
  countFuturePartitions (infos (w_parts sample_world)) nowHour = 0 ∧
  3 ≤ countFuturePartitions (infos (w_parts (y_world y'))) nowHour.
Proof.
  split; [vm_compute; reflexivity|].
  apply (addAhead_reaches sample_opts 0 0 {| y_world := sample_world; y_script := [] |}
    {| Dropped := 0; Added := 3; Deferred := 0; AddSkipped := 0; AddFutureTarget := 0 |}).
  - vm_compute. discriminate.
  - lia.
  - reflexivity.
  - vm_compute. reflexivity.
  - vm_compute. reflexivity.
  - vm_compute. reflexivity.
  - reflexivity.
Defined.

(** The loop without an archive destination, on an index with one archive. *)
Definition drop_target : RotateTarget := {|
  DSN := "d"; NoWriter := false; t_ArchiveDir := ""; t_ArchiveS3 := ""; t_ArchiveS3Region := "";
  t_BintrailID := ""; t_ArchiveCompression := "" |}.

Definition loop_settings : Settings := {|
  st_Enabled := true; st_Retain := 48 * hour; st_RetainRaw := "48h"; st_Interval := hour; st_AddFuture := 3;
  st_Explicit := false |}.

Definition archived_world : world := {|
  w_now := t0 + 72 * hour;
  w_parts := [named t0 [row 1 t0]; named (t0 + hour) [row 2 (t0 + hour)];
              named (t0 + 72 * hour) []; {| p_Name := "p_future"; p_bound := None; p_rows := [] |}];
  w_archive := [{| ar_partition := "p_2026071400"; ar_id := Some "x"; ar_local_path := "/a"; ar_row_count := Some 1;
                   ar_s3_bucket := None; ar_s3_key := None; ar_s3_uploaded_at := None;
                   ar_min_event_ts := None; ar_max_event_ts := None |}];
  w_files := ∅; w_s3 := ∅; w_history := Some None; w_policy := Some ("48h", t0 - hour);
  w_all := [row 1 t0; row 2 (t0 + hour)]; w_counted := ∅; w_late := [] |}.

Definition drop_opts : Options := loopOptions (48 * hour) "48h" loop_settings drop_target false.

Lemma protected_drop_witness :
  let y' := (Perform drop_opts {| y_world := archived_world; y_script := [] |}).2 in
  p_Name <$> w_parts (y_world y') =
    ["p_2026071401"; "p_2026071700"; "p_2026071701"; "p_2026071702"; "p_2026071703"; "p_future"] ∧
  ∃ row, row ∈ w_archive archived_world ∧ ar_partition row = "p_2026071400".
Proof.
  split; [vm_compute; reflexivity|].
  refine (proj1 (protected_drop drop_opts {| y_world := archived_world; y_script := [] |}
    (Perform drop_opts {| y_world := archived_world; y_script := [] |}).1
    (Perform drop_opts {| y_world := archived_world; y_script := [] |}).2 "p_2026071400" _ _ _ _) _ _).
  - reflexivity.
  - apply surjective_pairing.
  - dec_compute.
  - dec_compute.
  - reflexivity.
  - discriminate.
Defined.

Definition parse_any (dsn : string) : option string := Some "idx".

Lemma rotateOneIndex_drops_witness :
  let y' := (rotateOneIndex (E := Empty_set) parse_any drop_target loop_settings
               {| y_world := archived_world; y_script := [] |}).2 in
  aged loop_settings (recordedWindow archived_world) (infos (w_parts archived_world)) (w_now archived_world) t0
    (y_world y') ∧
  ir_retain (recordedWindow archived_world) = 48 * hour.
Proof.
  split; [|vm_compute; reflexivity].
  apply (rotateOneIndex_drops (E := Empty_set) parse_any drop_target loop_settings {| y_world := archived_world; y_script := [] |}
    (rotateOneIndex (E := Empty_set) parse_any drop_target loop_settings {| y_world := archived_world; y_script := [] |}).1
    (rotateOneIndex (E := Empty_set) parse_any drop_target loop_settings {| y_world := archived_world; y_script := [] |}).2
    "p_2026071400" t0).
  - apply surjective_pairing.
  - vm_compute. reflexivity.
  - dec_compute.
  - dec_compute.
Defined.
