(* ===== verification/DdlText.v ===== *)
(** * The text of a logged statement ([internal/ddltext], [internal/parser/parser.go], [txnend.go])

    Which table DDL a QUERY_EVENT holds and the tables it names, whether it is
    row DML logged as a statement, and whether it ends a transaction. The
    regular expressions of the code are written out as functions on bytes: a
    byte from 0x80 up is part of a name, as every code point from U+0080 up and
    every invalid byte is to them. *)
From S2P Require Import Prelude GoStrings GoText GoCodec Event.

Open Scope nat_scope.

Definition backtick : ascii := "`".
Definition dquote : ascii := "034".
Definition squote : ascii := "'".
Definition newline : ascii := "010".

(** [IsSpace]. *)
Definition IsSpace (b : ascii) : bool := is_space b.

(** [strings.Index], [strings.IndexByte]. *)
Fixpoint str_index (s sub : string) : option nat :=
  if has_prefix s sub then Some 0
  else match s with "" => None | String _ s' => S <$> str_index s' sub end.

(** A byte a name goes on with: [\w], [$], or from U+0080 up ([IsNameRune]). *)
Definition name_byte (c : ascii) : bool :=
  is_digit c || ((97 <=? byte_val c) && (byte_val c <=? 122))%N || ((65 <=? byte_val c) && (byte_val c <=? 90))%N
  || bool_decide (c = "_"%char) || bool_decide (c = "$"%char) || negb (is_ascii c).

Fixpoint take_name (s : string) : string * string :=
  match s with
  | "" => ("", "")
  | String c s' => if name_byte c then let '(n, r) := take_name s' in (String c n, r) else ("", s)
  end.

(** ** Normalizing *)

(** How many bytes of [s], the text after an opening quote [q], the quoted
    string takes, the closing quote with them. *)
Fixpoint quoted_len (q : ascii) (s : string) : nat :=
  match s with
  | "" => 0
  | String c s' =>
      if bool_decide (c = backslash) && negb (bool_decide (q = backtick)) then
        match s' with "" => 1 | String _ s'' => S (S (quoted_len q s'')) end
      else if bool_decide (c = q) then
        match s' with
        | "" => 1
        | String d s'' => if bool_decide (d = q) then S (S (quoted_len q s'')) else 1
        end
      else S (quoted_len q s')
  end.

(** What [NormalizeUpTo] builds: the text, whether a space is owed, the
    executable comments still open. *)
Record norm := { nm_b : string; nm_pending : bool; nm_open : nat }.

Definition gap (st : norm) : norm :=
  {| nm_b := nm_b st; nm_pending := negb (bool_decide (nm_b st = "")); nm_open := nm_open st |}.

Definition reopen (n : nat) (st : norm) : norm :=
  {| nm_b := nm_b st; nm_pending := nm_pending st; nm_open := n |}.

(** The space owed is paid before a copied byte. *)
Definition paid (st : norm) : string := if nm_pending st then nm_b st +:+ " " else nm_b st.

Definition copied (b : string) (st : norm) : norm := {| nm_b := b; nm_pending := false; nm_open := nm_open st |}.

(** The loop of [NormalizeUpTo]; every turn takes a byte. *)
Fixpoint norm_loop (fuel limit : nat) (rest : string) (st : norm) : string :=
  match fuel, rest with
  | O, _ | _, "" => nm_b st
  | S fuel, String c rest' =>
      if negb (String.length (nm_b st) <? limit) then nm_b st
      else if IsSpace c then norm_loop fuel limit rest' (gap st)
      else if has_prefix rest "/*!" then
        norm_loop fuel limit (skip_digits (str_drop 3 rest)) (gap (reopen (S (nm_open st)) st))
      else if has_prefix rest "/*M!" then
        norm_loop fuel limit (skip_digits (str_drop 4 rest)) (gap (reopen (S (nm_open st)) st))
      else if has_prefix rest "*/" && (0 <? nm_open st) then
        norm_loop fuel limit (str_drop 2 rest) (gap (reopen (nm_open st - 1) st))
      else if has_prefix rest "/*" then
        match str_index (str_drop 2 rest) "*/" with
        | None => nm_b st
        | Some end_ => norm_loop fuel limit (str_drop (2 + end_ + 2) rest) (gap st)
        end
      else if bool_decide (c = "#"%char) ||
              has_prefix rest "--" && match str_drop 2 rest with "" => true | String d _ => IsSpace d end then
        match str_index rest (str1 newline) with
        | None => nm_b st
        | Some nl => norm_loop fuel limit (str_drop (S nl) rest) (gap st)
        end
      else if bool_decide (c = squote) || bool_decide (c = dquote) || bool_decide (c = backtick) then
        let b := paid st in
        let j := S (quoted_len c rest') in
        norm_loop fuel limit (str_drop j rest) (copied (b +:+ str_take (j `min` (limit - String.length b)) rest) st)
      else norm_loop fuel limit rest' (copied (paid st +:+ str1 c) st)
  end.

Definition NormalizeUpTo (queryStr : string) (limit : nat) : string :=
  norm_loop (String.length queryStr) limit queryStr {| nm_b := ""; nm_pending := false; nm_open := 0 |}.

Definition HeadLimit : nat := 512.

Definition Normalize (queryStr : string) : string := NormalizeUpTo queryStr HeadLimit.

(** ** The scanner

    A [Scanner] is what is left of its text. *)

Definition sc_Space (s : string) : string := trim_left (λ c, bool_decide (c = " "%char)) s.

Definition sc_Byte (c : ascii) (s : string) : bool * string :=
  match s with String d s' => if bool_decide (d = c) then (true, s') else (false, s) | "" => (false, s) end.

Definition sc_Keyword (kw s : string) : bool * string :=
  let s := sc_Space s in
  let n := String.length kw in
  if (String.length s <? n) || negb (equal_fold (str_take n s) kw) then (false, s)
  else match str_drop n s with
       | String c _ => if name_byte c then (false, s) else (true, str_drop n s)
       | "" => (true, "")
       end.

Definition sc_Number (s : string) : string := trim_left (λ c, is_digit c || bool_decide (c = "."%char)) (sc_Space s).

(** A quoted name after its opening quote; [None] when it is empty or has no
    closing quote. *)
Fixpoint quoted_name (q : ascii) (s acc : string) : option (string * string) :=
  match s with
  | "" => None
  | String c s' =>
      if negb (bool_decide (c = q)) then quoted_name q s' (acc +:+ str1 c)
      else
        let closed := if bool_decide (acc = "") then None else Some (acc, s') in
        match s' with
        | String d s'' => if bool_decide (d = q) then quoted_name q s'' (acc +:+ str1 q) else closed
        | "" => closed
        end
  end.

Definition sc_Ident (s : string) : option string * string :=
  let s := sc_Space s in
  match s with
  | "" => (None, s)
  | String q s' =>
      if bool_decide (q = backtick) || bool_decide (q = dquote) then
        match quoted_name q s' "" with Some (n, r) => (Some n, r) | None => (None, s) end
      else
        let '(n, r) := take_name s in
        (if bool_decide (n = "") then None else Some n, r)
  end.

(** [DDLTable]. *)
Record DDLTable := { dt_Schema : string; dt_Table : string }.

#[export] Instance DDLTable_eq_dec : EqDecision DDLTable.
Proof. solve_decision. Defined.

Definition sc_QualifiedName (defaultSchema s : string) : option DDLTable * string :=
  match sc_Ident s with
  | (None, s) => (None, s)
  | (Some first, s) =>
      let '(dot, s) := sc_Byte "." (sc_Space s) in
      if dot then
        match sc_Ident s with
        | (Some table, s) => (Some {| dt_Schema := first; dt_Table := table |}, s)
        | (None, s) => (Some {| dt_Schema := defaultSchema; dt_Table := first |}, s)
        end
      else (Some {| dt_Schema := defaultSchema; dt_Table := first |}, s)
  end.

(** [ddlNameList] after its IF EXISTS; each name takes a byte. *)
Fixpoint names_loop (fuel : nat) (rename : bool) (defaultSchema s : string) (out : list DDLTable) : list DDLTable :=
  match fuel with
  | O => out
  | S fuel =>
      match sc_QualifiedName defaultSchema s with
      | (None, _) => out
      | (Some n, s) =>
          let out := out ++ [n] in
          let more out s :=
            let '(comma, s) := sc_Byte "," (sc_Space s) in
            if comma then names_loop fuel rename defaultSchema s out else out in
          if rename then
            let '(wait, s) := sc_Keyword "WAIT" s in
            let s := if wait then sc_Number s else (sc_Keyword "NOWAIT" s).2 in
            let '(to, s) := sc_Keyword "TO" s in
            if negb to then out
            else
              match sc_QualifiedName defaultSchema s with
              | (None, _) => out
              | (Some n', s) => more (out ++ [n']) s
              end
          else more out s
      end
  end.

Definition ddlNameList (rest : string) (rename : bool) (defaultSchema : string) : list DDLTable :=
  let '(_, s) := sc_Keyword "IF EXISTS" rest in
  names_loop (S (String.length s)) rename defaultSchema s [].

(** ** The regular expressions *)

(** Case-insensitive text: besides the other case of a letter, Go folds U+017F
    into S and U+212A into K. *)
Definition long_s : string := String "197" (String "191" "").
Definition kelvin : string := String "226" (String "132" (String "170" "")).

(** The rest of [s] after [pat], in capitals, in any case. *)
Fixpoint fold_prefix (pat s : string) : option string :=
  match pat with
  | "" => Some s
  | String p pat' =>
      if bool_decide (p = "S"%char) && has_prefix s long_s then fold_prefix pat' (str_drop 2 s)
      else if bool_decide (p = "K"%char) && has_prefix s kelvin then fold_prefix pat' (str_drop 3 s)
      else match s with
           | String c s' => if bool_decide (upper_byte c = p) then fold_prefix pat' s' else None
           | "" => None
           end
  end.

(** [DDLKind], of a MySQL statement. *)
Inductive DDLKind := DDLAlterTable | DDLCreateTable | DDLDropTable | DDLRenameTable | DDLTruncateTable | DDLReplaceTable.

#[export] Instance DDLKind_eq_dec : EqDecision DDLKind.
Proof. solve_decision. Defined.

(** The verbs of [VerbRe] in the order the expression tries them. *)
Definition verbs : list (string * DDLKind) := [
  ("ALTER ONLINE IGNORE TABLE", DDLAlterTable); ("ALTER ONLINE TABLE", DDLAlterTable);
  ("ALTER IGNORE TABLE", DDLAlterTable); ("ALTER TABLE", DDLAlterTable);
  ("CREATE OR REPLACE TABLE", DDLReplaceTable); ("CREATE TABLE", DDLCreateTable);
  ("DROP TABLES", DDLDropTable); ("DROP TABLE", DDLDropTable);
  ("RENAME TABLES", DDLRenameTable); ("RENAME TABLE", DDLRenameTable);
  ("TRUNCATE TABLE", DDLTruncateTable); ("TRUNCATE", DDLTruncateTable)].

(** A verb ends where no name goes on. *)
Definition ends_word (s : string) : bool := match s with "" => true | String c _ => negb (name_byte c) end.

(** [VerbRe]: the kind and the text after the verb. *)
Fixpoint verb_of (l : list (string * DDLKind)) (s : string) : option (DDLKind * string) :=
  match l with
  | [] => None
  | (v, k) :: l' =>
      match fold_prefix v s with
      | Some rest => if ends_word rest then Some (k, rest) else verb_of l' s
      | None => verb_of l' s
      end
  end.

Definition VerbRe (s : string) : option (DDLKind * string) := verb_of verbs s.

Definition opt_space (s : string) : string := (sc_Byte " " s).2.

(** One name of [ddlNameRe], quotes included. *)
Definition re_name (s : string) : option (string * string) :=
  match s with
  | "" => None
  | String c s' =>
      if bool_decide (c = backtick) || bool_decide (c = dquote) then
        match str_index s' (str1 c) with
        | None | Some O => None
        | Some n => Some (str_take (n + 2) s, str_drop (n + 2) s)
        end
      else
        let '(n, r) := take_name s in
        if bool_decide (n = "") then None else Some (n, r)
  end.

(** [schema.]table and what follows. *)
Definition re_names (s : string) : option (string * string * string) :=
  '(n1, r) ← re_name s;
  match sc_Byte "." (opt_space r) with
  | (true, r') =>
      match re_name (opt_space r') with
      | Some (n2, r'') => Some (n1, n2, r'')
      | None => Some ("", n1, r)
      end
  | (false, _) => Some ("", n1, r)
  end.

(** [ddlNameRe]: schema, table, what follows. *)
Definition ddlNameRe (s : string) : option (string * string * string) :=
  let s := opt_space s in
  let after_if := match fold_prefix "IF NOT EXISTS" s with Some r => Some r | None => fold_prefix "IF EXISTS" s end in
  match r ← after_if; re_names (opt_space r) with
  | Some x => Some x
  | None => re_names s
  end.

(** [ddlKeysOnlyRe]. *)
Definition ddlKeysOnlyRe (s : string) : bool :=
  let s := opt_space s in
  match match fold_prefix "DISABLE KEYS" s with Some r => Some r | None => fold_prefix "ENABLE KEYS" s end with
  | None => false
  | Some r => bool_decide (opt_space (sc_Byte ";" (opt_space r)).2 = "")
  end.

Definition unquoteDDLName (s : string) : string :=
  match s with
  | String c s' =>
      if (2 <=? String.length s) && (bool_decide (c = backtick) || bool_decide (c = dquote)) && has_suffix s (str1 c)
      then str_take (String.length s - 2) s' else s
  | "" => s
  end.

(** ** [parseDDL] *)

(** What a DDL event says besides its place. *)
Record DDLInfo := {
  di_Schema : string;
  di_Table : string;
  di_Query : string;
  di_Type : DDLKind;
  di_Tables : list DDLTable;
}.

Definition parseDDL (queryStr defaultSchema : string) : option DDLInfo :=
  '(kind, rest) ← VerbRe (Normalize queryStr);
  let '(schema, table, after) :=
    match ddlNameRe rest with
    | Some (s, t, a) => (unquoteDDLName s, unquoteDDLName t, a)
    | None => ("", "", "")
    end in
  if bool_decide (kind = DDLAlterTable) && ddlKeysOnlyRe after then None
  else
    let schema := if bool_decide (schema = "") then defaultSchema else schema in
    let tables :=
      if bool_decide (kind = DDLDropTable) || bool_decide (kind = DDLRenameTable) then
        match VerbRe (NormalizeUpTo queryStr (S (String.length queryStr))) with
        | Some (_, full) => ddlNameList full (bool_decide (kind = DDLRenameTable)) defaultSchema
        | None => []
        end
      else [] in
    let '(schema, table) := match tables with t :: _ => (dt_Schema t, dt_Table t) | [] => (schema, table) end in
    Some {| di_Schema := schema; di_Table := table; di_Query := queryStr; di_Type := kind; di_Tables := tables |}.

(** ** Statements that are no DDL *)

(** [strings.ToUpper], [ToLower] as far as their ASCII results go: U+0131 and
    U+017F have an ASCII capital, U+0130 and U+212A an ASCII small letter. *)
Fixpoint replace_all (fuel : nat) (s old new : string) : string :=
  match fuel, s with
  | O, _ | _, "" => s
  | S fuel, String c s' =>
      if has_prefix s old then new +:+ replace_all fuel (str_drop (String.length old) s) old new
      else String c (replace_all fuel s' old new)
  end.

Definition replaced (s old new : string) : string := replace_all (String.length s) s old new.

Definition ToUpper (s : string) : string :=
  to_upper (replaced (replaced s (String "196" (String "177" "")) "I") long_s "S").

Definition ToLower (s : string) : string :=
  to_lower (replaced (replaced s (String "196" (String "176" "")) "i") kelvin "k").

(** [stripLeadingSQLComments]; every turn takes a byte. *)
Fixpoint strip_loop (fuel : nat) (s : string) : string :=
  let s := trim_left IsSpace s in
  match fuel with
  | O => s
  | S fuel =>
      let line := match str_index s (str1 newline) with
                  | None => ""
                  | Some nl => strip_loop fuel (str_drop (S nl) s)
                  end in
      if has_prefix s "/*" then
        match str_index (str_drop 2 s) "*/" with
        | None => ""
        | Some end_ => strip_loop fuel (str_drop (2 + end_ + 2) s)
        end
      else if has_prefix s "--" then
        match str_drop 2 s with
        | String c _ => if IsSpace c then line else s
        | "" => line
        end
      else if has_prefix s "#" then line
      else s
  end.

Definition stripLeadingSQLComments (s : string) : string := strip_loop (S (String.length s)) s.

Definition dmlKeywords : list string := ["INSERT"; "UPDATE"; "DELETE"; "REPLACE"; "LOAD DATA"].

Definition statementDML (queryStr : string) : option string :=
  let upper := ToUpper (stripLeadingSQLComments queryStr) in
  head (filter (λ kw, has_prefix upper kw &&
    match str_drop (String.length kw) upper with "" => true | String c _ => IsSpace c end = true) dmlKeywords).

Definition isSnapshotExcludedSchema (schema : string) : bool :=
  bool_decide (ToLower schema ∈ ["information_schema"; "performance_schema"; "mysql"; "sys"]).

Definition statementDMLInScope (schema : string) (filters : Filters) : bool :=
  if bool_decide (schema = "") then true
  else if isSnapshotExcludedSchema schema then false
  else
    match Schemas filters with
    | Some ss => default false (ss !! schema)
    | None => true
    end &&
    match Tables filters with
    | Some ts => existsb (λ kv, has_prefix kv.1 (schema +:+ ".")) (map_to_list ts)
    | None => true
    end.

Definition isTransactionTerminator (query : string) : bool :=
  match fields (ToUpper (stripLeadingSQLComments query)) with
  | [] => false
  | [w] => let w := trim_suffix w ";" in bool_decide (w = "COMMIT") || bool_decide (w = "ROLLBACK")
  | w0 :: w1 :: _ => bool_decide (w0 = "XA") && bool_decide (w1 ∈ ["COMMIT"; "ROLLBACK"; "PREPARE"])
  end.

Example ddl_samples :
  (di_Tables <$> parseDDL "/* app */ DROP  TABLE IF EXISTS `a``b`.t, u /* x */ RESTRICT" "d"
     = Some [{| dt_Schema := "a`b"; dt_Table := "t" |}; {| dt_Schema := "d"; dt_Table := "u" |}]) ∧
  (parseDDL "DROP /*!40005 TEMPORARY */ TABLE t" "d" = None) ∧
  (parseDDL "/*!40000 ALTER TABLE `t` DISABLE KEYS */" "d" = None) ∧
  ((λ i, (di_Schema i, di_Table i, di_Type i)) <$> parseDDL "truncate tables" "d" = Some ("d", "tables", DDLTruncateTable)) ∧
  ((λ i, (di_Schema i, di_Table i, di_Type i)) <$> parseDDL "CREATE OR REPLACE TABLE `s` . `t` (a int)" "d"
     = Some ("s", "t", DDLReplaceTable)) ∧
  (di_Tables <$> parseDDL "rename table a wait 5 to b, c to s.d" "x"
     = Some [{| dt_Schema := "x"; dt_Table := "a" |}; {| dt_Schema := "x"; dt_Table := "b" |};
             {| dt_Schema := "x"; dt_Table := "c" |}; {| dt_Schema := "s"; dt_Table := "d" |}]) ∧
  (parseDDL "ALTER TABLESPACE x" "d" = None) ∧
  statementDML "-- c
 insert into t values (1)" = Some "INSERT" ∧
  statementDML "INSERTX" = None ∧ statementDML "(insert" = None ∧
  isTransactionTerminator "/* x */ commit;" = true ∧ isTransactionTerminator "xa prepare 'a'" = true ∧
  isTransactionTerminator "ROLLBACK TO SAVEPOINT s" = false.
Proof. vm_compute. repeat split. Qed.
