(* ===== verification/DdlNames.v ===== *)
(** * The tables of a logged DROP or RENAME are read back

    The server logs these statements with each name in backticks, a backtick in
    a name doubled. Whatever bytes the names have, the text is left as it is by
    the normalization and the scanner gives the names back. *)
From S2P Require Import Prelude GoStrings GoText GoCodec Event DdlText.

Open Scope nat_scope.

(** A name as the server writes it. *)
Definition backquoted (n : string) : string := String backtick (replace_byte backtick "``" n +:+ str1 backtick).

Definition starts_with (c : ascii) (s : string) : bool := match s with String d _ => bool_decide (d = c) | "" => false end.

Lemma quoted_len_name n rest :
  starts_with backtick rest = false →
  quoted_len backtick (replace_byte backtick "``" n +:+ String backtick rest) = String.length (replace_byte backtick "``" n) + 1.
Proof.
  intros Hr. induction n as [|c n IH]; simpl.
  - destruct rest as [|d rest]; [done|]. simpl in Hr. by rewrite Hr.
  - destruct (decide (backtick = c)) as [<-|Hc]; cbn [replace_byte]; rewrite ?decide_True, ?decide_False by done.
    + rewrite str_app_assoc, str_length_app. simpl. simpl in IH. rewrite IH. lia.
    + rewrite str_app_assoc, str_length_app. simpl. rewrite !(bool_decide_eq_false_2 (c = backtick)) by done.
      rewrite andb_false_r. simpl in IH. rewrite IH. lia.
Qed.

Lemma quoted_name_name n rest acc :
  starts_with backtick rest = false → acc +:+ n ≠ "" →
  quoted_name backtick (replace_byte backtick "``" n +:+ String backtick rest) acc = Some (acc +:+ n, rest).
Proof.
  intros Hr. revert acc. induction n as [|c n IH]; intros acc Hne; simpl.
  - rewrite str_app_nil_r in *. rewrite bool_decide_eq_false_2 by done.
    destruct rest as [|d rest]; [done|]. simpl in Hr. by rewrite Hr.
  - assert (∀ x, acc +:+ str1 x +:+ n ≠ "" ∧ acc +:+ str1 x ≠ "") as Hx by (intros x; by destruct acc).
    assert (∀ x, (acc +:+ str1 x) +:+ n = acc +:+ String x n) as Ha by (intros x; by rewrite str_app_assoc).
    destruct (decide (backtick = c)) as [<-|Hc]; cbn [replace_byte]; rewrite ?decide_True, ?decide_False by done;
      rewrite str_app_assoc; simpl.
    + simpl in IH. rewrite IH; [by rewrite Ha|by rewrite Ha].
    + rewrite !(bool_decide_eq_false_2 (c = backtick)) by done. simpl in IH |- *.
      rewrite IH; [by rewrite Ha|by rewrite Ha].
Qed.

(** ** The normalization leaves such a text alone *)

(** A statement in pieces. *)
Inductive piece := PName (n : string) | PByte (c : ascii) | PSpace.

Definition piece_text (p : piece) : string :=
  match p with PName n => backquoted n | PByte c => str1 c | PSpace => " " end.

Fixpoint text_of (ps : list piece) : string := match ps with [] => "" | p :: ps => piece_text p +:+ text_of ps end.

Definition plain_byte (c : ascii) : bool :=
  negb (IsSpace c) && negb (bool_decide (c ∈ ["/"%char; "*"%char; "#"%char; "-"%char; squote; dquote; backtick])).

(** Spaces are single and inside, names are not side by side; [pending]: a space
    comes before. *)
Fixpoint tidy (pending : bool) (ps : list piece) : bool :=
  match ps with
  | [] => negb pending
  | PSpace :: ps => negb pending && tidy true ps
  | PByte c :: ps => plain_byte c && tidy false ps
  | PName n :: ps => negb (starts_with backtick (text_of ps)) && tidy false ps
  end.

Lemma has_prefix_neq c d s t : c ≠ d → has_prefix (String c s) (String d t) = false.
Proof. intros Hne. unfold has_prefix. apply bool_decide_eq_false_2. simpl. congruence. Qed.

Lemma plain_byte_neq c : plain_byte c = true →
  IsSpace c = false ∧ c ≠ "/"%char ∧ c ≠ "*"%char ∧ c ≠ "#"%char ∧ c ≠ "-"%char ∧ c ≠ squote ∧ c ≠ dquote ∧ c ≠ backtick.
Proof.
  unfold plain_byte. intros [H1 H2]%andb_prop. apply negb_true_iff in H1, H2. apply bool_decide_eq_false in H2. set_solver.
Qed.

Lemma norm_loop_prefix fuel limit s st : ∃ t, norm_loop fuel limit s st = nm_b st +:+ t.
Proof.
  revert s st. induction fuel as [|fuel IH]; intros s st; [exists ""; by rewrite str_app_nil_r|].
  assert (nm_b st = nm_b st +:+ "") as Hid by (by rewrite str_app_nil_r).
  assert (∀ s' st' x, nm_b st' = nm_b st +:+ x → ∃ t, norm_loop fuel limit s' st' = nm_b st +:+ t) as Hgo.
  { intros s' st' x Hx. destruct (IH s' st') as [t Ht]. exists (x +:+ t). by rewrite Ht, Hx, str_app_assoc. }
  assert (∀ x, ∃ y, paid st +:+ x = nm_b st +:+ y) as Hpaid.
  { intros x. unfold paid. destruct (nm_pending st); [|eauto]. exists (" " +:+ x). by rewrite str_app_assoc. }
  destruct s as [|c s]; cbn [norm_loop]; [by exists ""|].
  repeat match goal with
  | |- ∃ t, nm_b st = _ => by exists ""
  | |- ∃ t, norm_loop fuel limit _ (gap _) = _ => by eapply (Hgo _ _ "")
  | |- ∃ t, norm_loop fuel limit _ (copied (paid st +:+ ?x) st) = _ =>
      destruct (Hpaid x) as [y Hy]; by eapply (Hgo _ _ y)
  | |- ∃ t, (if ?b then _ else _) = _ => destruct b
  | |- ∃ t, match ?x with Some _ => _ | None => _ end = _ => destruct x
  end.
Qed.

Lemma backquoted_app n r : backquoted n +:+ r = String backtick (replace_byte backtick "``" n +:+ String backtick r).
Proof. unfold backquoted. simpl. by rewrite str_app_assoc. Qed.

Lemma backquoted_length n : String.length (backquoted n) = S (String.length (replace_byte backtick "``" n) + 1).
Proof. unfold backquoted. simpl. by rewrite str_length_app. Qed.

(** One turn of the loop: a quoted name, a plain byte, a space. *)
Lemma norm_name fuel limit n r st :
  starts_with backtick r = false → String.length (nm_b st) < limit →
  String.length (paid st) + String.length (backquoted n) ≤ limit →
  norm_loop (S fuel) limit (backquoted n +:+ r) st = norm_loop fuel limit r (copied (paid st +:+ backquoted n) st).
Proof.
  intros Hr Hl Hl2. rewrite backquoted_app. cbn [norm_loop].
  rewrite (proj2 (Nat.ltb_lt _ _) Hl). cbn [negb]. change (IsSpace backtick) with false. cbn match.
  rewrite !(has_prefix_neq backtick) by done. cbn [andb orb].
  change (bool_decide (backtick = "#"%char)) with false. change (bool_decide (backtick = squote)) with false.
  change (bool_decide (backtick = dquote)) with false. change (bool_decide (backtick = backtick)) with true. cbn [andb orb].
  rewrite quoted_len_name by done. rewrite <-backquoted_app.
  replace (S (String.length (replace_byte backtick "``" n) + 1)) with (String.length (backquoted n)) by apply backquoted_length.
  rewrite Nat.min_l by lia. by rewrite str_take_app, str_drop_app.
Qed.

Lemma norm_byte fuel limit c r st :
  plain_byte c = true → String.length (nm_b st) < limit → nm_open st = 0 →
  norm_loop (S fuel) limit (String c r) st = norm_loop fuel limit r (copied (paid st +:+ str1 c) st).
Proof.
  intros (Hs & H1 & H2 & H3 & H4 & H5 & H6 & H7)%plain_byte_neq Hl Ho. cbn [norm_loop].
  rewrite (proj2 (Nat.ltb_lt _ _) Hl), Hs, Ho. cbn [negb]. rewrite !(has_prefix_neq c) by done. cbn [andb orb].
  by rewrite !bool_decide_eq_false_2.
Qed.

Lemma norm_space fuel limit r st :
  String.length (nm_b st) < limit → norm_loop (S fuel) limit (String " " r) st = norm_loop fuel limit r (gap st).
Proof. intros Hl. cbn [norm_loop]. by rewrite (proj2 (Nat.ltb_lt _ _) Hl). Qed.

(** A text in pieces is its own normal form. *)
Lemma norm_pieces ps : ∀ fuel limit st,
  tidy (nm_pending st) ps = true → nm_open st = 0 → nm_b st ≠ "" → String.length (text_of ps) ≤ fuel →
  String.length (paid st +:+ text_of ps) < limit → norm_loop fuel limit (text_of ps) st = paid st +:+ text_of ps.
Proof.
  induction ps as [|p ps IH]; intros fuel limit st Ht Ho Hb Hf Hl.
  { simpl in *. apply negb_true_iff in Ht. unfold paid. rewrite Ht, str_app_nil_r. by destruct fuel. }
  assert (String.length (nm_b st) < limit) as Hl0.
  { rewrite str_length_app in Hl. unfold paid in Hl. destruct (nm_pending st); [rewrite str_length_app in Hl|]; lia. }
  assert (paid st ≠ "") as Hp by (unfold paid; destruct (nm_pending st); [by destruct (nm_b st)|done]).
  assert (0 < String.length (piece_text p)) as Hpt by (destruct p; cbn [piece_text]; [rewrite backquoted_length; lia|simpl; lia..]).
  cbn [text_of] in Hf, Hl |- *. rewrite str_length_app in Hf. rewrite !str_length_app in Hl.
  destruct fuel as [|fuel]; [lia|].
  assert (∀ x, paid st +:+ x ≠ "") as Hpx by (intros x; by destruct (paid st)).
  destruct p as [n|c|]; cbn [tidy piece_text] in *.
  - apply andb_prop in Ht as [Hn Ht]. apply negb_true_iff in Hn. rewrite norm_name by (done || lia).
    rewrite IH; unfold copied, paid in *; cbn [nm_pending nm_open nm_b] in *; rewrite ?str_length_app, ?str_app_assoc in *; done || lia.
  - apply andb_prop in Ht as [Hn Ht]. simpl (str1 c +:+ _) at 1. rewrite norm_byte by done.
    rewrite IH; unfold copied, paid in *; cbn [nm_pending nm_open nm_b] in *; rewrite ?str_length_app, ?str_app_assoc in *; done || lia.
  - apply andb_prop in Ht as [Hn Ht]. apply negb_true_iff in Hn. change (" " +:+ text_of ps) with (String " " (text_of ps)).
    rewrite norm_space by done. unfold paid in *. rewrite Hn in *.
    rewrite IH; unfold gap, paid; cbn [nm_pending nm_open nm_b]; rewrite ?(bool_decide_eq_false_2 (nm_b st = "")) by done;
      cbn [negb]; rewrite ?str_length_app, ?str_app_assoc in *; simpl in *; done || lia.
Qed.

#[local] Arguments norm_loop : simpl never.

(** ** The statements *)

(** A table as it is written, with its schema or without, and as it is meant. *)
Definition written : Type := option string * string.
Definition meant (defaultSchema : string) (t : written) : DDLTable := {| dt_Schema := default defaultSchema t.1; dt_Table := t.2 |}.
Definition named (t : written) : Prop := t.1 ≠ Some "" ∧ t.2 ≠ "".

Fixpoint word (w : string) : list piece := match w with "" => [] | String c w => PByte c :: word w end.

Definition name_pieces (t : written) : list piece :=
  match t with (Some s, t) => [PName s; PByte "."; PName t] | (None, t) => [PName t] end.

Fixpoint list_pieces (items : list (list piece)) : list piece :=
  match items with [] => [] | [i] => i | i :: items => i ++ PByte "," :: list_pieces items end.

Definition renamed (p : written * written) : list piece := name_pieces p.1 ++ PSpace :: word "TO" ++ PSpace :: name_pieces p.2.

Definition drop_text (ts : list written) : string := "DROP TABLE " +:+ text_of (list_pieces (name_pieces <$> ts)).
Definition rename_text (ps : list (written * written)) : string := "RENAME TABLE " +:+ text_of (list_pieces (renamed <$> ps)).

Lemma text_of_app a b : text_of (a ++ b) = text_of a +:+ text_of b.
Proof. induction a as [|p a IH]; simpl; [done|]. by rewrite IH, str_app_assoc. Qed.

Lemma text_of_word w : text_of (word w) = w.
Proof. induction w as [|c w IH]; simpl; [done|]. by rewrite IH. Qed.

(** A piece list that begins with a name, to be put anywhere. *)
Definition items_ok (items : list (list piece)) : Prop :=
  Forall (λ i, ∀ b rest, starts_with backtick (text_of rest) = false → tidy false rest = true → tidy b (i ++ rest) = true) items.

Lemma tidy_list items b : items_ok items → items ≠ [] → tidy b (list_pieces items) = true.
Proof.
  intros Hi Hne. revert b Hne. induction Hi as [|i items H Hi IH]; intros b Hne; [done|]. destruct items as [|i' items].
  - cbn [list_pieces]. rewrite <-(app_nil_r i). by apply H.
  - change (list_pieces (i :: i' :: items)) with (i ++ PByte "," :: list_pieces (i' :: items)). apply H; [done|].
    change (tidy false (PByte "," :: list_pieces (i' :: items))) with (tidy false (list_pieces (i' :: items))). by apply IH.
Qed.

Lemma names_ok ts : items_ok (name_pieces <$> ts).
Proof.
  apply Forall_fmap, Forall_true. intros [[s|] t] b rest Hr Ht; simpl; by rewrite Hr, Ht.
Qed.

Lemma renames_ok ps : items_ok (renamed <$> ps).
Proof.
  apply Forall_fmap, Forall_true. intros [[[s|] t] [[s'|] t']] b rest Hr Ht; simpl; by rewrite Hr, Ht.
Qed.

(** The normalization of [verb names]: whole, and its head. *)
Lemma norm_word w : ∀ fuel limit r st,
  str_forall plain_byte w = true → w ≠ "" → nm_pending st = false → nm_open st = 0 → String.length (nm_b st +:+ w) ≤ limit →
  norm_loop (String.length w + fuel) limit (w +:+ r) st = norm_loop fuel limit r (copied (nm_b st +:+ w) st).
Proof.
  induction w as [|c w IH]; intros fuel limit r st Hw Hne Hp Ho Hl; [done|]. simpl in Hw. apply andb_prop in Hw as [Hc Hw].
  rewrite str_length_app in Hl. simpl in Hl |- *. rewrite norm_byte by (done || lia). unfold paid. rewrite Hp.
  destruct (decide (w = "")) as [->|Hw0]; [done|].
  rewrite IH; try done; [unfold copied; simpl; by rewrite str_app_assoc|].
  unfold copied. simpl. rewrite !str_length_app. simpl. lia.
Qed.

Definition empty_norm : norm := {| nm_b := ""; nm_pending := false; nm_open := 0 |}.

Lemma norm_verb v w fuel limit r :
  str_forall plain_byte v = true → str_forall plain_byte w = true → v ≠ "" → w ≠ "" →
  String.length v + String.length w + 2 ≤ limit →
  norm_loop (String.length (v +:+ " " +:+ w +:+ " ") + fuel) limit (v +:+ " " +:+ w +:+ " " +:+ r) empty_norm =
  norm_loop fuel limit r {| nm_b := v +:+ " " +:+ w; nm_pending := true; nm_open := 0 |}.
Proof.
  intros Hv Hw Hv0 Hw0 Hl. rewrite !str_length_app. simpl.
  replace (String.length v + S (String.length w + 1) + fuel) with (String.length v + S (String.length w + S fuel)) by lia.
  rewrite norm_word; [|done..|simpl; lia]. simpl.
  change (String " " (w +:+ String " " r)) with (String " " (w +:+ String " " r)).
  rewrite norm_space by (simpl; lia). unfold gap, copied. simpl. rewrite bool_decide_eq_false_2 by done. simpl.
  destruct w as [|c w]; [done|]. simpl in Hw, Hl. apply andb_prop in Hw as [Hc Hw]. simpl.
  rewrite norm_byte; [|done|simpl; lia|done]. unfold paid, copied. simpl.
  assert (∀ st, nm_b st = v +:+ " " +:+ String c w → nm_pending st = false → nm_open st = 0 →
    norm_loop (S fuel) limit (String " " r) st = norm_loop fuel limit r {| nm_b := v +:+ " " +:+ String c w; nm_pending := true; nm_open := 0 |}) as Hend.
  { intros st H1 H2 H3. rewrite norm_space by (rewrite H1, !str_length_app; simpl; lia).
    unfold gap. rewrite H1, H3, bool_decide_eq_false_2; [done|]. by destruct v. }
  destruct (decide (w = "")) as [->|Hw1].
  - simpl. apply Hend; simpl; try done. by rewrite str_app_assoc.
  - rewrite norm_word; try done; [|simpl; rewrite !str_length_app; simpl; lia].
    apply Hend; simpl; try done. by rewrite !str_app_assoc.
Qed.

(** ** Reading the names *)

Lemma sc_ident_name n r : n ≠ "" → starts_with backtick r = false → sc_Ident (backquoted n +:+ r) = (Some n, r).
Proof.
  intros Hn Hr. rewrite backquoted_app. unfold sc_Ident, sc_Space. simpl. by rewrite quoted_name_name.
Qed.

Lemma sc_ident_space n r : n ≠ "" → starts_with backtick r = false → sc_Ident (String " " (backquoted n +:+ r)) = (Some n, r).
Proof. intros Hn Hr. rewrite <-(sc_ident_name n r Hn Hr). by rewrite backquoted_app. Qed.

#[local] Opaque backquoted.
#[local] Arguments sc_Ident : simpl never.

(** What may follow a name. *)
Definition follows (r : string) : Prop :=
  starts_with backtick r = false ∧ starts_with "." (sc_Space r) = false.

Lemma sc_name d t r (sp : bool) :
  named t → follows r →
  ∃ r', sc_QualifiedName d ((if sp then " " else "") +:+ text_of (name_pieces t) +:+ r) = (Some (meant d t), r') ∧ sc_Space r' = sc_Space r.
Proof.
  intros [Hs Ht] [Hr1 Hr2]. unfold sc_QualifiedName, meant.
  assert (∀ n r, n ≠ "" → starts_with backtick r = false →
    sc_Ident ((if sp then " " else "") +:+ (backquoted n +:+ r)) = (Some n, r)) as Hid.
  { intros n r' Hn Hr'. destruct sp; simpl; [by apply sc_ident_space|by apply sc_ident_name]. }
  assert (∀ s, starts_with "." s = false → sc_Byte "." s = (false, s)) as Hdot.
  { intros [|c s]; simpl; [done|]. by intros ->. }
  destruct t as [[s|] t]; simpl in *.
  - assert (s ≠ "") as Hs' by naive_solver.
    rewrite str_app_nil_r, str_app_assoc. change (String "." (backquoted t) +:+ r) with (String "." (backquoted t +:+ r)).
    rewrite Hid by done. simpl. rewrite sc_ident_name by done. eauto.
  - rewrite str_app_nil_r, Hid by done. rewrite Hdot by done. eexists. split; [done|].
    unfold sc_Space. apply trim_left_id. pose proof (trim_left_head (λ c, bool_decide (c = " "%char)) r) as H.
    by destruct (trim_left _ r).
Qed.

Lemma follows_comma r : follows (String "," r).
Proof. by split. Qed.

Lemma follows_end : follows "".
Proof. by split. Qed.

Lemma sc_space_byte c r r' : c ≠ " "%char → sc_Space r = sc_Space (String c r') → sc_Byte c (sc_Space r) = (true, r').
Proof.
  intros Hc ->. unfold sc_Space. simpl. rewrite bool_decide_eq_false_2 by done. simpl. by rewrite bool_decide_eq_true_2.
Qed.

(** The names of a DROP. *)
Lemma read_drop d ts : ∀ fuel (sp : bool) out,
  ts ≠ [] → Forall named ts → length ts ≤ fuel →
  names_loop fuel false d ((if sp then " " else "") +:+ text_of (list_pieces (name_pieces <$> ts))) out = out ++ (meant d <$> ts).
Proof.
  induction ts as [|t ts IH]; intros fuel sp out Hne Hn Hf; [done|]. apply Forall_cons in Hn as [Ht Hn].
  destruct fuel as [|fuel]; [simpl in Hf; lia|]. cbn [names_loop].
  destruct ts as [|t' ts].
  - simpl. destruct (sc_name d t "" sp Ht follows_end) as (r' & E & Hr). rewrite str_app_nil_r in E. rewrite E.
    rewrite Hr. done.
  - change (list_pieces (name_pieces <$> t :: t' :: ts)) with (name_pieces t ++ PByte "," :: list_pieces (name_pieces <$> t' :: ts)).
    rewrite text_of_app.
    change (text_of (PByte "," :: list_pieces (name_pieces <$> t' :: ts))) with (String "," (text_of (list_pieces (name_pieces <$> t' :: ts)))).
    destruct (sc_name d t (String "," (text_of (list_pieces (name_pieces <$> t' :: ts)))) sp Ht (follows_comma _)) as (r' & E & Hr).
    rewrite E. rewrite (sc_space_byte "," r' _ ltac:(done) Hr).
    etrans; [apply (IH fuel false (out ++ [meant d t])); [done|done|simpl in Hf; simpl; lia]|by rewrite <-app_assoc].
Qed.

(** A keyword that is not the one asked for. *)
Lemma sc_keyword_not kw c r :
  c ≠ " "%char → match kw with String k _ => lower_byte c ≠ lower_byte k | "" => False end →
  sc_Keyword kw (String " " (String c r)) = (false, String c r) ∧ sc_Keyword kw (String c r) = (false, String c r).
Proof.
  intros Hc Hk. unfold sc_Keyword, sc_Space. simpl. rewrite bool_decide_eq_false_2 by done. destruct kw as [|k kw]; [done|].
  assert (equal_fold (str_take (String.length (String k kw)) (String c r)) (String k kw) = false) as E.
  { unfold equal_fold. apply bool_decide_eq_false_2. unfold to_lower. simpl. congruence. }
  rewrite E. by rewrite orb_true_r.
Qed.

(** The pairs of a RENAME. *)
Lemma sc_keyword_to r x : sc_Space r = sc_Space (String " " ("TO " +:+ x)) →
  (sc_Keyword "NOWAIT" (sc_Keyword "WAIT" r).2).2 = "TO " +:+ x ∧ (sc_Keyword "WAIT" r).1 = false ∧
  sc_Keyword "TO" ("TO " +:+ x) = (true, " " +:+ x).
Proof.
  intros Hr. assert (sc_Keyword "WAIT" r = (false, "TO " +:+ x)) as E.
  { pose proof (proj1 (sc_keyword_not "WAIT" "T" (String "O" (String " " x)) ltac:(done) ltac:(done))) as E.
    unfold sc_Keyword in E |- *. rewrite Hr. exact E. }
  rewrite E. split_and!; [|done|done]. cbn [snd].
  change ("TO " +:+ x) with (String "T" (String "O" (String " " x))).
  by rewrite (proj2 (sc_keyword_not "NOWAIT" "T" (String "O" (String " " x)) ltac:(done) ltac:(done))).
Qed.

Lemma read_rename d ps : ∀ fuel (sp : bool) out,
  ps ≠ [] → Forall (λ p, named p.1 ∧ named p.2) ps → length ps ≤ fuel →
  names_loop fuel true d ((if sp then " " else "") +:+ text_of (list_pieces (renamed <$> ps))) out =
  out ++ (p ← ps; [meant d p.1; meant d p.2]).
Proof.
  induction ps as [|p ps IH]; intros fuel sp out Hne Hn Hf; [done|]. apply Forall_cons in Hn as [[Ht1 Ht2] Hn].
  destruct fuel as [|fuel]; [simpl in Hf; lia|]. cbn [names_loop].
  assert (∀ rest, follows rest → ∃ r1 r2 r3,
    sc_QualifiedName d ((if sp then " " else "") +:+ text_of (renamed p) +:+ rest) = (Some (meant d p.1), r1) ∧
    (sc_Keyword "NOWAIT" (sc_Keyword "WAIT" r1).2).2 = r2 ∧ (sc_Keyword "WAIT" r1).1 = false ∧
    sc_Keyword "TO" r2 = (true, " " +:+ text_of (name_pieces p.2) +:+ rest) ∧
    sc_QualifiedName d (" " +:+ text_of (name_pieces p.2) +:+ rest) = (Some (meant d p.2), r3) ∧ sc_Space r3 = sc_Space rest) as Hp.
  { intros rest Hrest.
    assert (text_of (renamed p) +:+ rest = text_of (name_pieces p.1) +:+ String " " ("TO " +:+ text_of (name_pieces p.2) +:+ rest)) as ->.
    { unfold renamed. rewrite text_of_app. simpl. by rewrite str_app_assoc. }
    destruct (sc_name d p.1 (String " " ("TO " +:+ text_of (name_pieces p.2) +:+ rest)) sp Ht1 ltac:(done)) as (r1 & E & Hr).
    destruct (sc_keyword_to r1 _ Hr) as (H1 & H2 & H3).
    destruct (sc_name d p.2 rest true Ht2 Hrest) as (r3 & E' & Hr3). eexists _, _, _. by split_and!. }
  destruct ps as [|p' ps].
  - destruct (Hp "" follows_end) as (r1 & r2 & r3 & E1 & E2 & E3 & E4 & E5 & E6).
    change (list_pieces (renamed <$> [p])) with (renamed p). rewrite str_app_nil_r in E1. rewrite E1.
    destruct (sc_Keyword "WAIT" r1) as [w s'] eqn:Ew. simpl in E2, E3. subst w. rewrite E2, E4. simpl negb. cbn match.
    rewrite E5. rewrite E6. simpl. by rewrite <-app_assoc.
  - change (list_pieces (renamed <$> p :: p' :: ps)) with (renamed p ++ PByte "," :: list_pieces (renamed <$> p' :: ps)).
    rewrite text_of_app.
    change (text_of (PByte "," :: list_pieces (renamed <$> p' :: ps))) with (String "," (text_of (list_pieces (renamed <$> p' :: ps)))).
    destruct (Hp (String "," (text_of (list_pieces (renamed <$> p' :: ps)))) (follows_comma _)) as (r1 & r2 & r3 & E1 & E2 & E3 & E4 & E5 & E6).
    rewrite E1. destruct (sc_Keyword "WAIT" r1) as [w s'] eqn:Ew. simpl in E2, E3. subst w. rewrite E2, E4. simpl negb. cbn match.
    rewrite E5. rewrite (sc_space_byte "," r3 _ ltac:(done) E6).
    etrans; [apply (IH fuel false); [done|done|simpl in Hf; simpl; lia]|by rewrite <-!app_assoc].
Qed.

(** ** The whole statement *)

Lemma items_head items : Forall (λ i, ∃ n i', i = PName n :: i') items → items ≠ [] →
  ∃ x, text_of (list_pieces items) = String backtick x.
Proof.
  intros Hi Hne. destruct Hi as [|i items (n & i' & ->) Hi]; [done|].
  assert (∃ ps, list_pieces ((PName n :: i') :: items) = PName n :: ps) as [ps ->] by (destruct items; simpl; eauto).
  exists (replace_byte backtick "``" n +:+ String backtick (text_of ps)). apply backquoted_app.
Qed.

Lemma names_start ts : Forall (λ i, ∃ n i', i = PName n :: i') (name_pieces <$> ts).
Proof. apply Forall_fmap, Forall_true. intros [[s|] t]; simpl; eauto. Qed.

Lemma renames_start ps : Forall (λ i, ∃ n i', i = PName n :: i') (renamed <$> ps).
Proof. apply Forall_fmap, Forall_true. intros [[[s|] t] q]; simpl; eauto. Qed.

(** Normalized in full, [verb names] is itself; normalized to a limit it still
    begins with the verb and the first quote. *)
Lemma normalize_full v w items :
  str_forall plain_byte v = true → str_forall plain_byte w = true → v ≠ "" → w ≠ "" → items_ok items → items ≠ [] →
  let text := v +:+ " " +:+ w +:+ " " +:+ text_of (list_pieces items) in
  NormalizeUpTo text (S (String.length text)) = text.
Proof.
  intros Hv Hw Hv0 Hw0 Hi Hne text. unfold NormalizeUpTo.
  assert (String.length text = String.length (v +:+ " " +:+ w +:+ " ") + String.length (text_of (list_pieces items))) as Hlen.
  { unfold text. rewrite !str_length_app. simpl. lia. }
  rewrite Hlen at 1. unfold text at 2. rewrite norm_verb; [|done..|].
  - rewrite norm_pieces; try done.
    + unfold paid. simpl. unfold text. by rewrite !str_app_assoc.
    + by apply tidy_list.
    + by destruct v.
    + unfold paid. simpl. rewrite Hlen, !str_length_app. simpl. lia.
  - rewrite Hlen, !str_length_app. simpl. lia.
Qed.

Lemma normalize_head v w x :
  str_forall plain_byte v = true → str_forall plain_byte w = true → v ≠ "" → w ≠ "" →
  String.length v + String.length w + 2 < HeadLimit →
  ∃ y, Normalize (v +:+ " " +:+ w +:+ " " +:+ String backtick x) = (v +:+ " " +:+ w) +:+ String " " (String backtick y).
Proof.
  intros Hv Hw Hv0 Hw0 Hl. unfold Normalize, NormalizeUpTo.
  assert (String.length (v +:+ " " +:+ w +:+ " " +:+ String backtick x) =
    String.length (v +:+ " " +:+ w +:+ " ") + S (String.length x)) as -> by (rewrite !str_length_app; simpl; lia).
  rewrite norm_verb by (done || lia). set (st := {| nm_b := _; nm_pending := true; nm_open := 0 |}).
  assert (String.length (nm_b st) < HeadLimit ∧ String.length (paid st) < HeadLimit) as [H1 H2].
  { unfold paid. simpl. rewrite !str_length_app. simpl. lia. }
  unfold norm_loop at 1. fold norm_loop. rewrite (proj2 (Nat.ltb_lt _ _) H1). cbn [negb].
  change (IsSpace backtick) with false. cbn match. rewrite !(has_prefix_neq backtick) by done. cbn [andb orb].
  change (bool_decide (backtick = "#"%char)) with false. change (bool_decide (backtick = squote)) with false.
  change (bool_decide (backtick = dquote)) with false. change (bool_decide (backtick = backtick)) with true. cbn [andb orb].
  set (k := S (quoted_len backtick x) `min` (HeadLimit - String.length (paid st))).
  assert (∃ k', k = S k') as [k' ->] by (exists (pred k); unfold k; lia).
  destruct (norm_loop_prefix (String.length x) HeadLimit (str_drop (S (quoted_len backtick x)) (String backtick x))
    (copied (paid st +:+ str_take (S k') (String backtick x)) st)) as [t ->].
  exists (str_take k' x +:+ t). unfold paid, copied. simpl. by rewrite !str_app_assoc.
Qed.

(** The event of a statement that names these tables. *)
Definition listed (kind : DDLKind) (query : string) (tables : list DDLTable) : option DDLInfo :=
  t ← head tables;
  Some {| di_Schema := dt_Schema t; di_Table := dt_Table t; di_Query := query; di_Type := kind; di_Tables := tables |}.

(** The shared part: the verb is found in the head, the names in the full text. *)
Lemma parse_list v w kind items tables d (text := v +:+ " " +:+ w +:+ " " +:+ text_of (list_pieces items)) :
  str_forall plain_byte v = true → str_forall plain_byte w = true → v ≠ "" → w ≠ "" → String.length v + String.length w + 2 < HeadLimit →
  (∀ x, VerbRe ((v +:+ " " +:+ w) +:+ String " " x) = Some (kind, String " " x)) → kind = DDLDropTable ∨ kind = DDLRenameTable →
  items_ok items → Forall (λ i, ∃ n i', i = PName n :: i') items → items ≠ [] → tables ≠ [] →
  names_loop (S (String.length (text_of (list_pieces items)))) (bool_decide (kind = DDLRenameTable)) d (text_of (list_pieces items)) [] = tables →
  parseDDL text d = listed kind text tables.
Proof.
  intros Hv Hw Hv0 Hw0 Hl Hverb Hk Hi Hs Hne Hts Hn. destruct (items_head items Hs Hne) as [x Hx].
  pose proof (normalize_full v w items Hv Hw Hv0 Hw0 Hi Hne) as Hfull. cbv zeta in Hfull. fold text in Hfull.
  destruct (normalize_head v w x Hv Hw Hv0 Hw0 Hl) as [y Hy]. rewrite <-Hx in Hy. fold text in Hy.
  unfold parseDDL. rewrite Hy, Hverb. cbn [mbind option_bind].
  destruct (match ddlNameRe _ with Some _ => _ | None => _ end) as [[sch tab] after].
  assert (bool_decide (kind = DDLAlterTable) = false) as -> by (by destruct Hk as [-> | ->]). cbn [andb].
  assert (bool_decide (kind = DDLDropTable) || bool_decide (kind = DDLRenameTable) = true) as -> by (by destruct Hk as [-> | ->]).
  rewrite Hfull. assert (VerbRe text = Some (kind, String " " (text_of (list_pieces items)))) as ->.
  { unfold text. rewrite <-Hverb. by rewrite !str_app_assoc. }
  unfold ddlNameList. rewrite Hx.
  rewrite (proj1 (sc_keyword_not "IF EXISTS" backtick x ltac:(done) ltac:(done))). rewrite <-Hx, Hn.
  by destruct tables as [|t tables].
Qed.

Lemma pieces_length items : Forall (λ i, i ≠ []) items → length items ≤ String.length (text_of (list_pieces items)).
Proof.
  assert (∀ i r, i ≠ [] → 1 + String.length (text_of r) ≤ String.length (text_of (i ++ r))) as Hpos.
  { intros [|p i] r Hne; [done|]. rewrite text_of_app, str_length_app. simpl. rewrite str_length_app.
    assert (0 < String.length (piece_text p)); [|lia]. destruct p; cbn [piece_text]; [rewrite backquoted_length|..]; simpl; lia. }
  induction 1 as [|i items Hi Hn IH]; [done|]. destruct items as [|i' items].
  - simpl. pose proof (Hpos i [] Hi). rewrite app_nil_r in H. lia.
  - change (list_pieces (i :: i' :: items)) with (i ++ PByte "," :: list_pieces (i' :: items)).
    pose proof (Hpos i (PByte "," :: list_pieces (i' :: items)) Hi) as H. cbn [text_of] in H. rewrite str_length_app in H. simpl in *. lia.
Qed.

Lemma starts_nonempty items : Forall (λ i, ∃ n i', i = PName n :: i') items → Forall (λ i, i ≠ []) items.
Proof. intros H. eapply Forall_impl; [exact H|]. by intros i (n & i' & ->). Qed.

(** C32: The tables of a logged DROP TABLE or RENAME TABLE are read back. The
    server logs these statements with each name in backticks, a backtick in a
    name doubled; whatever bytes the names have (commas, dots, quotes, comment
    signs, keywords), however many there are and however long the text, the DDL
    event has the statement's kind and names exactly its tables, in order, a
    name without a schema under the session's. *)
Theorem parseDDL_names d :
  (∀ ts, ts ≠ [] → Forall named ts → parseDDL (drop_text ts) d = listed DDLDropTable (drop_text ts) (meant d <$> ts)) ∧
  (∀ ps, ps ≠ [] → Forall (λ p, named p.1 ∧ named p.2) ps →
     parseDDL (rename_text ps) d = listed DDLRenameTable (rename_text ps) (p ← ps; [meant d p.1; meant d p.2])).
Proof.
  split.
  - intros ts Hne Hn. apply (parse_list "DROP" "TABLE" DDLDropTable (name_pieces <$> ts)); try done.
    + unfold HeadLimit. simpl. lia.
    + by left.
    + apply names_ok.
    + apply names_start.
    + by destruct ts.
    + by destruct ts.
    + apply (read_drop d ts _ false []); [done..|].
      pose proof (pieces_length _ (starts_nonempty _ (names_start ts))) as H. rewrite length_fmap in H. lia.
  - intros ps Hne Hn. apply (parse_list "RENAME" "TABLE" DDLRenameTable (renamed <$> ps)); try done.
    + unfold HeadLimit. simpl. lia.
    + by right.
    + apply renames_ok.
    + apply renames_start.
    + by destruct ps.
    + by destruct ps.
    + apply (read_rename d ps _ false []); [done..|].
      pose proof (pieces_length _ (starts_nonempty _ (renames_start ps))) as H. rewrite length_fmap in H. lia.
Qed.

(** Names with a comma, a dot, a backtick, a comment sign. *)
Definition odd_names : list written := [(None, "a`b,c"); (Some "d.e", "/* f"); (Some "IF EXISTS", "TO")].

Lemma parseDDL_names_witness :
  di_Tables <$> parseDDL (drop_text odd_names) "s" = Some (meant "s" <$> odd_names) ∧
  di_Tables <$> parseDDL (rename_text [((None, "a`b,c"), (Some "d.e", "/* f"))]) "s" =
    Some [{| dt_Schema := "s"; dt_Table := "a`b,c" |}; {| dt_Schema := "d.e"; dt_Table := "/* f" |}].
Proof.
  split.
  - rewrite (proj1 (parseDDL_names "s") odd_names); [reflexivity|done|by repeat constructor].
  - rewrite (proj2 (parseDDL_names "s")); [reflexivity|done|by repeat constructor].
Defined.
