(* ===== verification/MapRow.v ===== *)
(** * A captured row under its column names ([internal/metadata/metadata.go])

    The schema snapshot that gives the values of a row event their names, the
    two conversions made on the way (the sign the replication client drops, the
    bytes it passes on as text), and the names of a drifted table. *)
From S2P Require Import Prelude GoStrings GoText GoTime GoVal Event DdlText.

Open Scope Z_scope.

(** [Resolver]; its tables are keyed by schema.table. *)
Record Resolver := {
  rv_snapshotID : Z;
  rv_snapshotTime : Z;
  rv_tables : gmap string TableMeta;
  rv_excluded : gmap string string;
}.

Definition table_key (schema table : string) : string := schema +:+ "." +:+ table.

Definition Resolve (r : Resolver) (schema table : string) : option TableMeta := rv_tables r !! table_key schema table.

Definition ExclusionReason (r : Resolver) (schema table : string) : option string :=
  rv_excluded r !! table_key schema table.

(** [coerceUnsigned]: the client gives every integer as a signed one. *)
Definition coerceUnsigned (v : GoVal) (col : ColumnMeta) : GoVal :=
  match v with
  | VInt z =>
      let dt := to_lower (DataType col) in
      if bool_decide (dt = "bit") || bool_decide (dt = "set") then VInt (z mod 2 ^ 64)
      else if negb (str_contains (to_lower (ColumnType col)) "unsigned") then v
      else if bool_decide (dt = "tinyint") then VInt (z mod 2 ^ 8)
      else if bool_decide (dt = "smallint") then VInt (z mod 2 ^ 16)
      else if bool_decide (dt = "mediumint") then VInt (Z.land (z mod 2 ^ 32) 16777215)
      else if bool_decide (dt = "int") then VInt (z mod 2 ^ 32)
      else if bool_decide (dt = "bigint") then VInt (z mod 2 ^ 64)
      else v
  | _ => v
  end.

Definition mariaDBFixedWidth : list (string * nat) := [("uuid", 16%nat); ("inet4", 4%nat); ("inet6", 16%nat)].

Fixpoint zero_bytes (n : nat) : string := match n with O => "" | S n => String "000" (zero_bytes n) end.

(** [padFixedBinary]. *)
Definition padFixedBinary (v : GoVal) (width : nat) : GoVal :=
  match v with
  | VString b | VBytes b => VBytes (b +:+ zero_bytes (width - String.length b))
  | _ => v
  end.

(** U+FFFD. *)
Definition rune_error : string := String "239" (String "191" (String "189" "")).

Section charset.

(** The cp1252 decoder of golang.org/x/text; it fails on no byte, and gives
    U+FFFD for one without a character. *)
Context (Windows1252 : string → string).

(** [coerceTextEncoding]; an error keeps no text. *)
Definition coerceTextEncoding (v : GoVal) (col : ColumnMeta) : option GoVal :=
  let dt := to_lower (DataType col) in
  if bool_decide (dt ∈ ["binary"; "varbinary"; "vector"]) then
    Some (match v with VString s => VBytes s | _ => v end)
  else
    match head (filter (λ p, p.1 = dt) mariaDBFixedWidth) with
    | Some (_, width) => Some (padFixedBinary v width)
    | None =>
        if bool_decide (dt ∈ ["char"; "varchar"]) then
          match v with
          | VString s =>
              if utf8_valid s then Some v
              else if bool_decide (to_lower (CharacterSet col) = "latin1") then
                let decoded := Windows1252 s in
                if str_contains decoded rune_error then None else Some (VString decoded)
              else None
          | _ => Some v
          end
        else Some v
    end.

(** The loop of [MapRow]; a later column of the same name wins. *)
Fixpoint map_columns (cols : list ColumnMeta) (row : list GoVal) (named : Row) : option Row :=
  match cols, row with
  | col :: cols', v :: row' =>
      v ← coerceTextEncoding (coerceUnsigned v col) col;
      map_columns cols' row' (<[Name col := v]> named)
  | _, _ => Some named
  end.

(** [MapRow]. *)
Definition MapRow (r : Resolver) (schema table : string) (row : list GoVal) : option Row :=
  tm ← Resolve r schema table;
  if bool_decide (length row = length (Columns tm)) then map_columns (Columns tm) row ∅ else None.

End charset.

(** ** Unsigned values come back *)

(** Two's complement at [w] bits, as the client reads an integer of the binary
    log. *)
Definition signed (w : Z) (u : Z) : Z := if u <? 2 ^ (w - 1) then u else u - 2 ^ w.

Definition widthOf (dt : string) : option Z :=
  snd <$> head (filter (λ p, p.1 = dt) [("tinyint", 8); ("smallint", 16); ("mediumint", 24); ("int", 32); ("bigint", 64)]).

Lemma signed_mod w u : 0 < w → 0 ≤ u < 2 ^ w → signed w u mod 2 ^ w = u.
Proof.
  intros Hw Hu. unfold signed. destruct (u <? 2 ^ (w - 1)); [by apply Z.mod_small|].
  replace (u - 2 ^ w) with (u + (-1) * 2 ^ w) by lia. rewrite Z.mod_add by lia. by apply Z.mod_small.
Qed.

(** The sign the client drops is put back: an unsigned value of the column's
    width, read as a signed one, is the value again. *)
Theorem coerceUnsigned_restores col w u :
  widthOf (to_lower (DataType col)) = Some w → str_contains (to_lower (ColumnType col)) "unsigned" = true →
  0 ≤ u < 2 ^ w → coerceUnsigned (VInt (signed w u)) col = VInt u.
Proof.
  unfold widthOf, coerceUnsigned. intros Hw -> Hu.
  set (dt := to_lower (DataType col)) in *. clearbody dt.
  assert (∃ x, (dt, x) ∈ [("tinyint", 8); ("smallint", 16); ("mediumint", 24); ("int", 32); ("bigint", 64)] ∧ x = w) as (x & Hin & ->).
  { destruct (filter _ _) as [|[n v] l] eqn:Hf; [done|]. injection Hw as <-.
    assert ((n, v) ∈ (n, v) :: l) as Hx by (by left). rewrite <-Hf in Hx.
    apply list_elem_of_filter in Hx as [E Hx]. simpl in *. subst n. eauto. }
  repeat (apply elem_of_cons in Hin as [[= -> ->]|Hin]; [simpl|]); [..|by apply not_elem_of_nil in Hin].
  - by rewrite signed_mod by lia.
  - by rewrite signed_mod by lia.
  - f_equal. change 16777215 with (Z.ones 24). rewrite Z.land_ones by lia.
    rewrite Z.mod_mod_divide; [by apply signed_mod; lia|]. by exists (2 ^ 8).
  - by rewrite signed_mod by lia.
  - by rewrite signed_mod by lia.
Qed.

(** A row is named exactly when it has a value for every column and every value
    has a text; then each column has its own value, converted. *)
Lemma map_columns_lookup W cols row named m :
  NoDup (Name <$> cols) → length row = length cols → map_columns W cols row named = Some m →
  (∀ i col v, cols !! i = Some col → row !! i = Some v →
     ∃ v', coerceTextEncoding W (coerceUnsigned v col) col = Some v' ∧ m !! Name col = Some v') ∧
  ∀ n, n ∉ (Name <$> cols) → m !! n = named !! n.
Proof.
  revert row named. induction cols as [|col cols IH]; intros [|v row] named Hnd Hlen Hm; try done.
  { simpl in *. by injection Hm as ->. }
  simpl in Hm. destruct (coerceTextEncoding W (coerceUnsigned v col) col) as [v'|] eqn:Hv; [|done].
  simpl in Hm, Hnd. apply NoDup_cons in Hnd as [Hni Hnd]. injection Hlen as Hlen.
  destruct (IH row (<[Name col := v']> named) Hnd Hlen Hm) as [H1 H2]. split.
  - intros [|i] c x Hc Hx; simpl in *; [|by eapply H1]. injection Hc as <-. injection Hx as <-.
    exists v'. split; [done|]. rewrite H2 by done. apply lookup_insert_eq.
  - intros n [Hn Hn']%not_elem_of_cons. rewrite H2 by done. by rewrite lookup_insert_ne.
Qed.
