(* ===== verification/Skips.v ===== *)
(** * The tally of discarded changes ([internal/parser/skips.go])

    What capture read and left out, by reason, with the tables it knows, and
    the one error that a long run of discards raises. The persisted JSON and the
    text of the error are left out. *)
From S2P Require Import Prelude GoStrings.

Open Scope Z_scope.

Definition SkipColumnCountMismatch : string := "column_count_mismatch".
Definition SkipTableNotInSnapshot : string := "table_not_in_snapshot".
Definition SkipTableExcludedFromSnapshot : string := "table_excluded_from_snapshot".
Definition SkipNoResolver : string := "no_resolver".
Definition SkipUnhandledRowEvent : string := "unhandled_row_event".
Definition SkipRowMapFailed : string := "row_map_failed".
Definition SkipStatementFormatDML : string := "statement_format_dml".
Definition SkipUnpairedUpdateImage : string := "unpaired_update_image".
Definition SkipUnreadablePreviousLedger : string := "unreadable_previous_ledger".

Definition SkipEscalationThreshold : Z := 100.
Definition MaxLedgerTables : nat := 8.

(** [SkipStat]. *)
Record SkipStat := {
  ss_Count : Z;
  ss_LastAt : Z;
  ss_LastFile : string;
  ss_LastPos : N;
  ss_LastStatementType : string;
  ss_LastConnectionID : N;
  ss_Tables : list string;
  ss_TablesTruncated : bool;
  ss_LastDetail : string;
}.

Definition noStat : SkipStat := {|
  ss_Count := 0; ss_LastAt := 0; ss_LastFile := ""; ss_LastPos := 0; ss_LastStatementType := "";
  ss_LastConnectionID := 0; ss_Tables := []; ss_TablesTruncated := false; ss_LastDetail := "" |}.

(** [SkipAttribution]. *)
Record SkipAttribution := {
  sa_File : string;
  sa_Pos : N;
  sa_StatementType : string;
  sa_ConnectionID : N;
  sa_Schema : string;
  sa_Table : string;
  sa_Detail : string;
}.

Definition noAttribution : SkipAttribution := {|
  sa_File := ""; sa_Pos := 0; sa_StatementType := ""; sa_ConnectionID := 0; sa_Schema := ""; sa_Table := "";
  sa_Detail := "" |}.

#[export] Instance SkipAttribution_eq_dec : EqDecision SkipAttribution.
Proof. solve_decision. Defined.

(** [SkipCounters]; the last field counts the errors it logged, and why. *)
Record SkipCounters := {
  sk_byReason : gmap string SkipStat;
  sk_consecutive : Z;
  sk_escalated : bool;
  sk_errors : list string;
}.

Definition NewSkipCounters : SkipCounters :=
  {| sk_byReason := ∅; sk_consecutive := 0; sk_escalated := false; sk_errors := [] |}.

(** [addLedgerTable]. *)
Definition addLedgerTable (st : SkipStat) (schema table : string) : SkipStat :=
  let name := schema +:+ "." +:+ table in
  let set tables truncated := {|
    ss_Count := ss_Count st; ss_LastAt := ss_LastAt st; ss_LastFile := ss_LastFile st; ss_LastPos := ss_LastPos st;
    ss_LastStatementType := ss_LastStatementType st; ss_LastConnectionID := ss_LastConnectionID st;
    ss_Tables := tables; ss_TablesTruncated := truncated; ss_LastDetail := ss_LastDetail st |} in
  if bool_decide (name ∈ ss_Tables st) then st
  else if (MaxLedgerTables <=? length (ss_Tables st))%nat then set (ss_Tables st) true
  else set (ss_Tables st ++ [name]) (ss_TablesTruncated st).

(** What an attribution other than the zero one leaves in the reason's entry. *)
Definition attribute (st : SkipStat) (attr : SkipAttribution) : SkipStat :=
  let st := {|
    ss_Count := ss_Count st; ss_LastAt := ss_LastAt st; ss_LastFile := sa_File attr; ss_LastPos := sa_Pos attr;
    ss_LastStatementType := sa_StatementType attr; ss_LastConnectionID := sa_ConnectionID attr;
    ss_Tables := ss_Tables st;
    ss_TablesTruncated := ss_TablesTruncated st ||
      negb (bool_decide (sa_Table attr = "")) && (1 <? ss_Count st) && bool_decide (ss_Tables st = []);
    ss_LastDetail := if bool_decide (sa_Detail attr = "") then ss_LastDetail st else sa_Detail attr |} in
  if bool_decide (sa_Table attr = "") then st else addLedgerTable st (sa_Schema attr) (sa_Table attr).

(** [RecordSkipAttributed] at time [now]. *)
Definition RecordSkipAttributed (reason : string) (attr : SkipAttribution) (now : Z) (c : SkipCounters) : SkipCounters :=
  let st := default noStat (sk_byReason c !! reason) in
  let st := {|
    ss_Count := ss_Count st + 1; ss_LastAt := now; ss_LastFile := ss_LastFile st; ss_LastPos := ss_LastPos st;
    ss_LastStatementType := ss_LastStatementType st; ss_LastConnectionID := ss_LastConnectionID st;
    ss_Tables := ss_Tables st; ss_TablesTruncated := ss_TablesTruncated st; ss_LastDetail := ss_LastDetail st |} in
  let st := if bool_decide (attr = noAttribution) then st else attribute st attr in
  let escalate := (SkipEscalationThreshold <=? sk_consecutive c + 1) && negb (sk_escalated c) in
  {| sk_byReason := <[reason := st]> (sk_byReason c);
     sk_consecutive := sk_consecutive c + 1;
     sk_escalated := sk_escalated c || escalate;
     sk_errors := if escalate then sk_errors c ++ [reason] else sk_errors c |}.

Definition RecordSkip (reason : string) (now : Z) (c : SkipCounters) : SkipCounters :=
  RecordSkipAttributed reason noAttribution now c.

Definition RecordCaptured (c : SkipCounters) : SkipCounters :=
  {| sk_byReason := sk_byReason c; sk_consecutive := 0; sk_escalated := false; sk_errors := sk_errors c |}.

(** [Seed] with what the stored document decodes to: nothing stored, entries,
    or no JSON. *)
Definition Seed (m : option (option (gmap string SkipStat))) (c : SkipCounters) : SkipCounters * bool :=
  match m with
  | None => (c, true)
  | Some (Some m) =>
      ({| sk_byReason := m; sk_consecutive := sk_consecutive c; sk_escalated := sk_escalated c; sk_errors := sk_errors c |},
       true)
  | Some None => (c, false)
  end.

Definition SeedPreserving (m : option (option (gmap string SkipStat))) (now : Z) (c : SkipCounters) :
    SkipCounters * bool :=
  let '(c, ok) := Seed m c in
  (if ok then c else RecordSkip SkipUnreadablePreviousLedger now c, ok).

(** [SkipCounters.Count]. *)
Definition skip_count (c : SkipCounters) (reason : string) : Z := ss_Count (default noStat (sk_byReason c !! reason)).

(** ** A history of calls *)

Inductive skipCall := Skipped (reason : string) (attr : SkipAttribution) (now : Z) | Captured.

Definition record (c : SkipCounters) (x : skipCall) : SkipCounters :=
  match x with Skipped reason attr now => RecordSkipAttributed reason attr now c | Captured => RecordCaptured c end.

Definition is_skip (x : skipCall) : bool := match x with Skipped _ _ _ => true | Captured => false end.
Definition skips_of (reason : string) (x : skipCall) : Prop :=
  match x with Skipped r _ _ => r = reason | Captured => False end.

#[export] Instance skips_of_dec reason x : Decision (skips_of reason x).
Proof. destruct x; simpl; apply _. Defined.

(** The discards since the last captured event. *)
Fixpoint run_length (calls : list skipCall) : Z :=
  match calls with [] => 0 | x :: calls' => if is_skip x then 1 + run_length calls' else 0 end.

(** How many runs of discards reached the threshold; calls are newest first. *)
Fixpoint long_runs (calls : list skipCall) : Z :=
  match calls with
  | [] => 0
  | x :: calls' => (if bool_decide (run_length calls = SkipEscalationThreshold) then 1 else 0) + long_runs calls'
  end.

Definition tally (calls : list skipCall) : SkipCounters := fold_left record calls NewSkipCounters.

Lemma run_length_nonneg calls : 0 ≤ run_length calls.
Proof. induction calls as [|x calls IH]; simpl; [done|]. destruct (is_skip x); lia. Qed.

Lemma addLedgerTable_count st s t : ss_Count (addLedgerTable st s t) = ss_Count st.
Proof. unfold addLedgerTable. repeat case_match; done. Qed.

Lemma attribute_count st attr : ss_Count (attribute st attr) = ss_Count st.
Proof. unfold attribute. case_bool_decide; [done|]. by rewrite addLedgerTable_count. Qed.

(** The tally counts each reason's discards, and one error is logged for each
    run of discards that reaches the threshold, however long it goes on. *)
Theorem tally_counts calls :
  (∀ reason, skip_count (tally calls) reason = Z.of_nat (length (filter (skips_of reason) calls))) ∧
  sk_consecutive (tally calls) = run_length (rev calls) ∧
  Z.of_nat (length (sk_errors (tally calls))) = long_runs (rev calls).
Proof.
  cut ((∀ reason, skip_count (tally calls) reason = Z.of_nat (length (filter (skips_of reason) calls))) ∧
    sk_consecutive (tally calls) = run_length (rev calls) ∧
    sk_escalated (tally calls) = (SkipEscalationThreshold <=? run_length (rev calls)) ∧
    Z.of_nat (length (sk_errors (tally calls))) = long_runs (rev calls)); [naive_solver|].
  induction calls as [|x calls IH] using rev_ind; [split_and!; [intros r; done|done..]|].
  unfold tally. rewrite fold_left_app, rev_app_distr. simpl. fold (tally calls). set (c := tally calls) in *.
  destruct IH as (IH1 & IH2 & IH3 & IH4). pose proof (run_length_nonneg (rev calls)) as Hr.
  destruct x as [reason attr now|]; simpl.
  - unfold RecordSkipAttributed. simpl. rewrite IH2, IH3.
    assert (∀ b, (b || negb b && true) = b || negb b) as Hb by (by intros []). split_and!.
    + intros r. unfold skip_count. simpl. rewrite filter_app, length_app. destruct (decide (reason = r)) as [<-|Hne].
      * rewrite lookup_insert_eq. simpl. rewrite filter_cons_True by done. simpl.
        specialize (IH1 reason). unfold skip_count in IH1.
        case_bool_decide; simpl; rewrite ?attribute_count; simpl; rewrite IH1; lia.
      * rewrite lookup_insert_ne by done. rewrite filter_cons_False by done. simpl. specialize (IH1 r).
        unfold skip_count in IH1. lia.
    + lia.
    + destruct (Z.leb_spec SkipEscalationThreshold (run_length (rev calls))) as [H|H]; simpl.
      * symmetry. apply Z.leb_le. lia.
      * rewrite andb_true_r. by rewrite Z.add_comm.
    + unfold SkipEscalationThreshold in *.
      destruct (Z.leb_spec 100 (run_length (rev calls))) as [H|H]; simpl.
      * rewrite andb_false_r. rewrite bool_decide_eq_false_2 by lia. lia.
      * rewrite andb_true_r. destruct (Z.leb_spec 100 (run_length (rev calls) + 1)) as [H'|H'].
        -- rewrite length_app, bool_decide_eq_true_2 by lia. simpl. lia.
        -- rewrite bool_decide_eq_false_2 by lia. lia.
  - split_and!; [|done|done|done]. intros r. rewrite filter_app, length_app. rewrite filter_cons_False by (by intros []).
    specialize (IH1 r). unfold skip_count in *. simpl. rewrite Nat.add_0_r. exact IH1.
Qed.
