(* ===== verification/RowEvents.v ===== *)
(** * One row event of the binary log ([handleRows] of [internal/parser/parser.go])

    The events of the replication client, and what both parsers do with a row
    event: the filters, the guards against a stale snapshot or an incomplete
    image, the events sent on. What a parser sends to and records in is the
    interface [Sink]; the stream and the file reader are its two instances. *)
From S2P Require Import Prelude GoStrings GoText GoTime GoVal GoIO Event TxnBatch PositionFloor DdlText MapRow Skips.

Open Scope Z_scope.

(** ** The replication client's events *)

(** The types of a header that the code looks at. The three versions of a row
    event and MariaDB's compressed one are one. *)
Inductive evType := WriteRows | UpdateRows | DeleteRows | AnonymousGtid | XaPrepare | OtherType.

#[export] Instance evType_eq_dec : EqDecision evType.
Proof. solve_decision. Defined.

Record EventHeader := {
  h_Timestamp : N;
  h_EventType : evType;
  h_ServerID : N;
  h_EventSize : N;
  h_LogPos : N;
  h_Artificial : bool;
}.

(** A [RowsEvent]: its table map's table, column count and names, the images,
    how many columns each image lacks, and [STMT_END_F]. *)
Record RowsEvent := {
  re_Schema : string;
  re_Table : string;
  re_ColumnCount : nat;
  re_ColumnNames : list string;
  re_Rows : list (list GoVal);
  re_SkippedColumns : list nat;
  re_StmtEnd : bool;
}.

Inductive Body :=
  | Rotate (NextLogName : string) (Position : N)
  | FormatDescription
  | Heartbeat (V2 : bool) (Filename : string) (Offset : N)
  | Gtid (SID : string) (GNO : Z) (ImmediateCommitTimestamp : N)
  | MariadbGtid (gtid : string)
  | GtidTagged
  | Query (SlaveProxyID : N) (Schema Query : string)
  | Xid
  | RowsQuery (Query : string)
  | AnnotateRows (Query : string)
  | Rows (ev : RowsEvent)
  | TransactionPayload (events : list (EventHeader * Body))
  | OtherBody.

(** ** Failures and the way out *)

Inductive PErr :=
  | Cancelled
  | ResentCut (gtid : string) (rows : Z)
  | Wraparound (file : string) (from to : N)
  | HookFailed
  | SchemaDrift (schema table : string) (ordinal : nat)
  | PartialImage (schema table : string) (columns : nat)
  | Unestablished (schema table : string)
  | ReplicationFailed.

(** Where a parser's events, discards and gaps go. [sk_tracked]: there is a
    [schemaGapTracker], the last two reach it. *)
Class Sink (S : Type) := {
  sk_send : Event → io S PErr unit;
  sk_skip : string → SkipAttribution → io S PErr unit;
  sk_captured : io S PErr unit;
  sk_tracked : bool;
  sk_gap : io S PErr unit;
  sk_drop : string → Z → string → io S PErr unit;
}.

(** [time.Unix(int64(header.Timestamp), 0)]. *)
Definition eventTime (hdr : EventHeader) : Z := (Z.of_N (h_Timestamp hdr) + unixEpoch) * second.

(** [eventPredatesSnapshot]. *)
Definition eventPredatesSnapshot (hdr : EventHeader) (r : Resolver) : bool :=
  if (h_Timestamp hdr =? 0)%N || (rv_snapshotTime r =? 0) then false else eventTime hdr <? rv_snapshotTime r.

(** [firstPartialImage]. *)
Definition firstPartialImage (skipped : list nat) : option nat := head (filter (λ n, n ≠ 0%nat) skipped).

(** [formatGTID]: the groups of the SID's hexadecimal digits. *)
Definition formatGTID (eventType : evType) (sid : string) (gno : Z) : string :=
  if bool_decide (eventType = AnonymousGtid) then ""
  else if negb (String.length sid =? 16)%nat then ""
  else
    let hex from n := hex_encode (str_take n (str_drop from sid)) in
    hex 0%nat 4%nat +:+ "-" +:+ hex 4%nat 2%nat +:+ "-" +:+ hex 6%nat 2%nat +:+ "-" +:+ hex 8%nat 2%nat +:+ "-"
      +:+ hex 10%nat 6%nat +:+ ":" +:+ decimal gno.

(** [rewriteInnerHeader]. *)
Definition rewriteInnerHeader (inner outer : EventHeader) : EventHeader := {|
  h_Timestamp := h_Timestamp inner; h_EventType := h_EventType inner; h_ServerID := h_ServerID inner;
  h_EventSize := h_EventSize outer; h_LogPos := h_LogPos outer; h_Artificial := h_Artificial inner |}.

(** An event with no table and no images. *)
Definition bare (file : string) (endPos : N) (ts : Z) (gtid : string) (type : N) : Event := {|
  ev_BinlogFile := file; ev_StartPos := 0; ev_EndPos := endPos; ev_Timestamp := ts; ev_GTID := gtid;
  ev_ConnectionID := 0; ev_QueryText := ""; ev_CommitTsUS := 0; ev_Schema := ""; ev_Table := ""; ev_EventType := type;
  ev_PKValues := ""; ev_RowBefore := None; ev_RowAfter := None; ev_SchemaVersion := 0; ev_ReadAt := 0 |}.

(** The event of [parseDDL]. *)
Definition ddl_event (file : string) (hdr : EventHeader) (gtid : string) (d : DDLInfo) (schemaVersion : N) : Event := {|
  ev_BinlogFile := file; ev_StartPos := 0; ev_EndPos := h_LogPos hdr; ev_Timestamp := eventTime hdr; ev_GTID := gtid;
  ev_ConnectionID := 0; ev_QueryText := ""; ev_CommitTsUS := 0; ev_Schema := di_Schema d; ev_Table := di_Table d;
  ev_EventType := EventDDL; ev_PKValues := ""; ev_RowBefore := None; ev_RowAfter := None;
  ev_SchemaVersion := schemaVersion; ev_ReadAt := 0 |}.

Section rows.
Context {S : Type} `{Sink S}.
(** The cp1252 decoder, and Go's case folding of text outside ASCII. *)
Context (Windows1252 : string → string) (EqualFold : string → string → bool).

(** [metadata.IdentEqualFold]: U+0130 and U+0131 are i. *)
Definition IdentEqualFold (a b : string) : bool :=
  let dotless s := replaced (replaced s (String "196" (String "176" "")) "i") (String "196" (String "177" "")) "i" in
  EqualFold a b || EqualFold (dotless a) (dotless b).

(** What the parser knows of a row event when it comes. *)
Record rowContext := {
  rc_resolver : option Resolver;
  rc_filters : Filters;
  rc_file : string;
  rc_gtid : string;
  rc_connectionID : N;
  rc_commitTsUS : N;
  rc_queryText : string;
  rc_schemaVersion : N;
}.

(** The event of one row. *)
Definition row_event (c : rowContext) (hdr : EventHeader) (ev : RowsEvent) (type : N) (pk : string)
    (before after : option Row) : Event := {|
  ev_BinlogFile := rc_file c; ev_StartPos := (h_LogPos hdr - h_EventSize hdr)%N; ev_EndPos := h_LogPos hdr;
  ev_Timestamp := eventTime hdr; ev_GTID := rc_gtid c; ev_ConnectionID := rc_connectionID c;
  ev_QueryText := rc_queryText c; ev_CommitTsUS := rc_commitTsUS c; ev_Schema := re_Schema ev; ev_Table := re_Table ev;
  ev_EventType := type; ev_PKValues := pk; ev_RowBefore := before; ev_RowAfter := after;
  ev_SchemaVersion := rc_schemaVersion c; ev_ReadAt := 0 |}.

(** The loop of [emitInserts], [emitDeletes] and [emitUpdates]: how many rows could not be
    mapped, and the error a send ended it with. *)
Fixpoint emit_rows {A} (of_row : A → option Event) (rows : list A) (unmapped : Z) :
    io S PErr (Z * option PErr) :=
  match rows with
  | [] => io_ret (unmapped, None)
  | row :: rows =>
      match of_row row with
      | None => emit_rows of_row rows (unmapped + 1)
      | Some e =>
          r ←! io_try (sk_send e);
          match r with inr err => io_ret (unmapped, Some err) | inl _ => emit_rows of_row rows unmapped end
      end
  end.

Definition emitInserts (r : Resolver) (tm : TableMeta) (c : rowContext) (hdr : EventHeader) (ev : RowsEvent) :
    io S PErr (Z * option PErr) :=
  emit_rows (λ row,
    named ← MapRow Windows1252 r (re_Schema ev) (re_Table ev) row;
    Some (row_event c hdr ev EventInsert (BuildPKValues (PKColumnMetas tm) named) None (Some named))) (re_Rows ev) 0.

Definition emitDeletes (r : Resolver) (tm : TableMeta) (c : rowContext) (hdr : EventHeader) (ev : RowsEvent) :
    io S PErr (Z * option PErr) :=
  emit_rows (λ row,
    named ← MapRow Windows1252 r (re_Schema ev) (re_Table ev) row;
    Some (row_event c hdr ev EventDelete (BuildPKValues (PKColumnMetas tm) named) (Some named) None)) (re_Rows ev) 0.

(** The images of an UPDATE, two by two; a trailing one without a partner is
    left out. *)
Fixpoint image_pairs (rows : list (list GoVal)) : list (list GoVal * list GoVal) :=
  match rows with before :: after :: rows => (before, after) :: image_pairs rows | _ => [] end.

Definition emitUpdates (r : Resolver) (tm : TableMeta) (c : rowContext) (hdr : EventHeader) (ev : RowsEvent) :
    io S PErr (Z * option PErr) :=
  emit_rows (λ images,
    before ← MapRow Windows1252 r (re_Schema ev) (re_Table ev) images.1;
    after ← MapRow Windows1252 r (re_Schema ev) (re_Table ev) images.2;
    Some (row_event c hdr ev EventUpdate (BuildPKValues (PKColumnMetas tm) before) (Some before) (Some after)))
    (image_pairs (re_Rows ev)) 0.

(** The first column whose name is not the snapshot's. *)
Definition first_drift (names : list string) (cols : list ColumnMeta) : option nat :=
  fst <$> list_find (λ p, IdentEqualFold p.1 (Name p.2) = false) (zip names cols).

Definition when (b : bool) (m : io S PErr unit) : io S PErr unit := if b then m else io_ret tt.

(** The end of [handleRows], once rows are sent: discards are tallied, and the
    error of a send is passed on. *)
Definition conclude (attr : SkipAttribution) (name : string) (emitted : io S PErr (Z * option PErr)) (odd : bool) :
    io S PErr unit :=
  do! sk_captured;
  '(unmapped, err) ←! emitted;
  do! when odd (do! sk_skip SkipUnpairedUpdateImage attr; sk_drop SkipUnpairedUpdateImage 1 name);
  do! when (0 <? unmapped) (do! sk_skip SkipRowMapFailed attr; sk_drop SkipRowMapFailed unmapped name);
  match err with None => io_ret tt | Some e => io_fail e end.

Definition handleRows (c : rowContext) (hdr : EventHeader) (ev : RowsEvent) : io S PErr unit :=
  let schema := re_Schema ev in
  let table := re_Table ev in
  let name := schema +:+ "." +:+ table in
  let attr detail := {| sa_File := rc_file c; sa_Pos := h_LogPos hdr; sa_StatementType := ""; sa_ConnectionID := 0;
                        sa_Schema := schema; sa_Table := table; sa_Detail := detail |} in
  if negb (Matches (rc_filters c) schema table) then io_ret tt
  else
    match rc_resolver c with
    | None => do! sk_skip SkipNoResolver (attr ""); sk_drop SkipNoResolver 1 name
    | Some r =>
        match Resolve r schema table with
        | None =>
            let excluded := ExclusionReason r schema table in
            let system := isSnapshotExcludedSchema schema in
            do! when (sk_tracked && bool_decide (excluded = None) && negb system && negb (eventPredatesSnapshot hdr r))
                  sk_gap;
            when (negb system)
              (sk_skip (match excluded with Some _ => SkipTableExcludedFromSnapshot | None => SkipTableNotInSnapshot end)
                 (attr (default "" excluded)))
        | Some tm =>
            if negb (re_ColumnCount ev =? length (Columns tm))%nat then
              do! when (sk_tracked && negb (isSnapshotExcludedSchema schema) && negb (eventPredatesSnapshot hdr r)) sk_gap;
              sk_skip SkipColumnCountMismatch (attr "")
            else
              let drift :=
                if (length (re_ColumnNames ev) =? length (Columns tm))%nat && negb (eventPredatesSnapshot hdr r)
                then first_drift (re_ColumnNames ev) (Columns tm) else None in
              match drift, firstPartialImage (re_SkippedColumns ev) with
              | Some i, _ => io_fail (SchemaDrift schema table (Datatypes.S i))
              | None, Some n => io_fail (PartialImage schema table n)
              | None, None =>
                  if (h_LogPos hdr <? h_EventSize hdr)%N then io_fail (Unestablished schema table)
                  else
                    match h_EventType hdr with
                    | WriteRows => conclude (attr "") name (emitInserts r tm c hdr ev) false
                    | DeleteRows => conclude (attr "") name (emitDeletes r tm c hdr ev) false
                    | UpdateRows => conclude (attr "") name (emitUpdates r tm c hdr ev) (Nat.odd (length (re_Rows ev)))
                    | _ => do! sk_skip SkipUnhandledRowEvent (attr ""); sk_drop SkipUnhandledRowEvent 1 name
                    end
              end
        end
    end.

End rows.
