(* ===== verification/Stream.v ===== *)
(** * The stream parser ([internal/parser/stream.go], [fillcorrect.go])

    [StreamParser.Run] reads the events the replication client delivers and
    sends on the rows, the statements and the ends of transactions that capture
    writes. Its local variables are the state; the consumer takes events until
    the context ends, which the state says as a number. Time, the resolver
    swapped in from outside and the answer of the DDL hook come with the wire;
    log lines and metrics are left out. *)
From S2P Require Import Prelude GoStrings GoText GoTime GoVal GoIO Event TxnBatch DdlText MapRow Skips RowEvents.

Open Scope Z_scope.

(** ** Positions after a reconnect *)

(** [resumeFillCorrector]; positions are 32-bit. *)
Record fillCorrector := { fc_armed : bool; fc_base : N; fc_ghost : N; fc_adjust : N; fc_prevTrue : N }.

Definition noCorrector : fillCorrector := {| fc_armed := false; fc_base := 0; fc_ghost := 0; fc_adjust := 0; fc_prevTrue := 0 |}.

Definition add32 (a b : N) : N := ((a + b) mod 2 ^ 32)%N.

(** [Observe]: the corrector and the position it leaves in the header. *)
Definition Observe (hdr : EventHeader) (body : Body) (c : fillCorrector) : fillCorrector * N :=
  let pos := h_LogPos hdr in
  match body with
  | Rotate _ Position =>
      (if h_Artificial hdr then
         {| fc_armed := true; fc_base := (Position mod 2 ^ 32)%N; fc_ghost := 0; fc_adjust := 0; fc_prevTrue := 0 |}
       else noCorrector, pos)
  | _ =>
      if h_Artificial hdr then (c, pos)
      else
        match body with
        | FormatDescription =>
            (if fc_armed c && (4 <? fc_base c)%N then
               {| fc_armed := true; fc_base := fc_base c; fc_ghost := h_EventSize hdr; fc_adjust := fc_adjust c;
                  fc_prevTrue := fc_prevTrue c |}
             else noCorrector, pos)
        | _ =>
            if fc_armed c then
              if (fc_ghost c =? 0)%N then (noCorrector, pos)
              else
                let expected := add32 (fc_base c) (h_EventSize hdr) in
                if (pos =? add32 expected (fc_ghost c))%N then
                  ({| fc_armed := false; fc_base := 0; fc_ghost := 0; fc_adjust := fc_ghost c; fc_prevTrue := expected |},
                   expected)
                else (noCorrector, pos)
            else if negb (fc_adjust c =? 0)%N then
              let expected := add32 (fc_prevTrue c) (h_EventSize hdr) in
              if (pos =? add32 expected (fc_adjust c))%N then
                ({| fc_armed := false; fc_base := fc_base c; fc_ghost := fc_ghost c; fc_adjust := fc_adjust c;
                    fc_prevTrue := expected |}, expected)
              else (noCorrector, pos)
            else (c, pos)
        end
  end.

Definition at_pos (pos : N) (hdr : EventHeader) : EventHeader := {|
  h_Timestamp := h_Timestamp hdr; h_EventType := h_EventType hdr; h_ServerID := h_ServerID hdr;
  h_EventSize := h_EventSize hdr; h_LogPos := pos; h_Artificial := h_Artificial hdr |}.

(** ** The state of a run *)

(** The transaction in flight and the re-send guard. *)
Record txnState := {
  currentGTID : string;
  lastCommittedGTID : string;
  ddlTxnGTID : string;
  afterRotate : bool;
  skipTxn : bool;
  txnRows : Z;
}.

(** The statement the next rows belong to. *)
Record stmtState := { currentConnectionID : N; currentCommitTsUS : N; currentQueryText : string }.

(** Where the stream is. *)
Record posState := { currentFile : string; lastLogPos : N; fillCorr : fillCorrector }.

(** The last heartbeat, and when packets were read. *)
Record hbState := { hbFile : string; hbPos : N; hbIdle : bool; waited : Z; prevReadAt : Z; readAt : Z }.

(** What surrounds the parser: its resolver, the skip tally and its clock, the
    files told to the hook, the events sent, how many the consumer takes before
    the context ends. *)
Record outState := {
  resolver : option Resolver;
  schemaVersion : N;
  skips : SkipCounters;
  opened : list (string * string);
  sent : list Event;
  takes : option nat;
}.

Record sp := { sp_txn : txnState; sp_stmt : stmtState; sp_pos : posState; sp_hb : hbState; sp_out : outState }.

Definition in_txn (f : txnState → txnState) (s : sp) : sp :=
  {| sp_txn := f (sp_txn s); sp_stmt := sp_stmt s; sp_pos := sp_pos s; sp_hb := sp_hb s; sp_out := sp_out s |}.
Definition in_stmt (f : stmtState → stmtState) (s : sp) : sp :=
  {| sp_txn := sp_txn s; sp_stmt := f (sp_stmt s); sp_pos := sp_pos s; sp_hb := sp_hb s; sp_out := sp_out s |}.
Definition in_pos (f : posState → posState) (s : sp) : sp :=
  {| sp_txn := sp_txn s; sp_stmt := sp_stmt s; sp_pos := f (sp_pos s); sp_hb := sp_hb s; sp_out := sp_out s |}.
Definition in_hb (f : hbState → hbState) (s : sp) : sp :=
  {| sp_txn := sp_txn s; sp_stmt := sp_stmt s; sp_pos := sp_pos s; sp_hb := f (sp_hb s); sp_out := sp_out s |}.
Definition in_out (f : outState → outState) (s : sp) : sp :=
  {| sp_txn := sp_txn s; sp_stmt := sp_stmt s; sp_pos := sp_pos s; sp_hb := sp_hb s; sp_out := f (sp_out s) |}.

Definition set_gtid (g : string) (t : txnState) : txnState := {|
  currentGTID := g; lastCommittedGTID := lastCommittedGTID t; ddlTxnGTID := ddlTxnGTID t; afterRotate := afterRotate t;
  skipTxn := skipTxn t; txnRows := txnRows t |}.
Definition set_committed (g : string) (t : txnState) : txnState := {|
  currentGTID := currentGTID t; lastCommittedGTID := g; ddlTxnGTID := ddlTxnGTID t; afterRotate := afterRotate t;
  skipTxn := skipTxn t; txnRows := txnRows t |}.
Definition set_ddl (g : string) (t : txnState) : txnState := {|
  currentGTID := currentGTID t; lastCommittedGTID := lastCommittedGTID t; ddlTxnGTID := g; afterRotate := afterRotate t;
  skipTxn := skipTxn t; txnRows := txnRows t |}.
Definition set_skip (b : bool) (t : txnState) : txnState := {|
  currentGTID := currentGTID t; lastCommittedGTID := lastCommittedGTID t; ddlTxnGTID := ddlTxnGTID t;
  afterRotate := afterRotate t; skipTxn := b; txnRows := txnRows t |}.
Definition set_rotated (b : bool) (t : txnState) : txnState := {|
  currentGTID := currentGTID t; lastCommittedGTID := lastCommittedGTID t; ddlTxnGTID := ddlTxnGTID t;
  afterRotate := b; skipTxn := skipTxn t; txnRows := txnRows t |}.
Definition set_rows (n : Z) (t : txnState) : txnState := {|
  currentGTID := currentGTID t; lastCommittedGTID := lastCommittedGTID t; ddlTxnGTID := ddlTxnGTID t;
  afterRotate := afterRotate t; skipTxn := skipTxn t; txnRows := n |}.

Definition set_conn (n : N) (t : stmtState) : stmtState :=
  {| currentConnectionID := n; currentCommitTsUS := currentCommitTsUS t; currentQueryText := currentQueryText t |}.
Definition set_commitTs (n : N) (t : stmtState) : stmtState :=
  {| currentConnectionID := currentConnectionID t; currentCommitTsUS := n; currentQueryText := currentQueryText t |}.
Definition set_text (q : string) (t : stmtState) : stmtState :=
  {| currentConnectionID := currentConnectionID t; currentCommitTsUS := currentCommitTsUS t; currentQueryText := q |}.

Definition set_file (f : string) (p : posState) : posState :=
  {| currentFile := f; lastLogPos := lastLogPos p; fillCorr := fillCorr p |}.
Definition set_lastLogPos (n : N) (p : posState) : posState :=
  {| currentFile := currentFile p; lastLogPos := n; fillCorr := fillCorr p |}.
Definition set_corr (c : fillCorrector) (p : posState) : posState :=
  {| currentFile := currentFile p; lastLogPos := lastLogPos p; fillCorr := c |}.

Definition set_sent (l : list Event) (n : option nat) (o : outState) : outState := {|
  resolver := resolver o; schemaVersion := schemaVersion o; skips := skips o; opened := opened o; sent := l; takes := n |}.
Definition set_skips (c : SkipCounters) (o : outState) : outState := {|
  resolver := resolver o; schemaVersion := schemaVersion o; skips := c; opened := opened o; sent := sent o; takes := takes o |}.
Definition add_opened (f id : string) (o : outState) : outState := {|
  resolver := resolver o; schemaVersion := schemaVersion o; skips := skips o; opened := opened o ++ [(f, id)];
  sent := sent o; takes := takes o |}.

(** [SwapResolver]. *)
Definition SwapResolver (r : Resolver) (o : outState) : outState := {|
  resolver := Some r; schemaVersion := Z.to_N (rv_snapshotID r mod 2 ^ 32); skips := skips o; opened := opened o;
  sent := sent o; takes := takes o |}.

Abbreviation SP := (io sp PErr).

(** ** Sending *)

Definition is_rowEvent (ev : Event) : bool :=
  ((ev_EventType ev =? EventInsert) || (ev_EventType ev =? EventUpdate) || (ev_EventType ev =? EventDelete))%N.

Definition stamped (t : Z) (ev : Event) : Event := {|
  ev_BinlogFile := ev_BinlogFile ev; ev_StartPos := ev_StartPos ev; ev_EndPos := ev_EndPos ev;
  ev_Timestamp := ev_Timestamp ev; ev_GTID := ev_GTID ev; ev_ConnectionID := ev_ConnectionID ev;
  ev_QueryText := ev_QueryText ev; ev_CommitTsUS := ev_CommitTsUS ev; ev_Schema := ev_Schema ev; ev_Table := ev_Table ev;
  ev_EventType := ev_EventType ev; ev_PKValues := ev_PKValues ev; ev_RowBefore := ev_RowBefore ev;
  ev_RowAfter := ev_RowAfter ev; ev_SchemaVersion := ev_SchemaVersion ev; ev_ReadAt := t |}.

(** [emitter.send], with the time the emitter holds. *)
Definition send_at (t : Z) (ev : Event) : SP unit :=
  s ←! io_get;
  match takes (sp_out s) with
  | Some O => io_fail Cancelled
  | n =>
      do! io_mod (in_out (set_sent (sent (sp_out s) ++ [stamped t ev]) (pred <$> n)));
      if is_rowEvent ev then io_mod (in_txn (set_rows (txnRows (sp_txn s) + 1))) else io_ret tt
  end.

Definition send (ev : Event) : SP unit := s ←! io_get; send_at (readAt (sp_hb s)) ev.

(** The stream's parser tallies discards and has no gap tracker. *)
#[export] Instance stream_sink : Sink sp := {|
  sk_send := send;
  sk_skip := λ reason attr, s ←! io_get;
    io_mod (in_out (set_skips (RecordSkipAttributed reason attr (readAt (sp_hb s)) (skips (sp_out s)))));
  sk_captured := s ←! io_get; io_mod (in_out (set_skips (RecordCaptured (skips (sp_out s)))));
  sk_tracked := false;
  sk_gap := io_ret tt;
  sk_drop := λ _ _ _, io_ret tt |}.

(** ** The closures of [Run] *)

(** [emitCommit]. *)
Definition emitCommit (hdr : EventHeader) : SP unit :=
  s ←! io_get;
  let g := currentGTID (sp_txn s) in
  if bool_decide (g = "") then io_ret tt
  else
    do! send (bare (currentFile (sp_pos s)) (h_LogPos hdr) (eventTime hdr) g EventCommit);
    io_mod (in_txn (λ t, set_gtid "" (set_committed g t))).

(** [endTxn]. *)
Definition endTxn (hdr : EventHeader) : SP unit :=
  s ←! io_get;
  if bool_decide (currentGTID (sp_txn s) = "") then
    send (bare (currentFile (sp_pos s)) (h_LogPos hdr) (eventTime hdr) "" EventCommit)
  else emitCommit hdr.

(** Where an event starts: [beginTxn]'s [prevEnd]. *)
Definition event_start (hdr : EventHeader) : EventHeader :=
  if (0 <? h_EventSize hdr)%N && (h_EventSize hdr <=? h_LogPos hdr)%N
  then at_pos (h_LogPos hdr - h_EventSize hdr) hdr else hdr.

(** [beginTxn]. *)
Definition beginTxn (hdr : EventHeader) (gtid : string) : SP unit :=
  s ←! io_get;
  let t := sp_txn s in
  let resent := afterRotate t && negb (bool_decide (currentGTID t = "")) && bool_decide (currentGTID t = gtid) in
  if resent && (0 <? txnRows t) then io_fail (ResentCut gtid (txnRows t))
  else
    do! (if resent then io_mod (in_txn (set_gtid "")) else io_ret tt);
    do! emitCommit (event_start hdr);
    io_mod (in_txn (λ t,
      set_rows 0 (set_ddl "" (set_rotated false
        (set_skip (afterRotate t && negb (bool_decide (gtid = "")) && bool_decide (gtid = lastCommittedGTID t))
          (set_gtid gtid t)))))).

(** [emitGTIDTracking]. *)
Definition emitGTIDTracking (hdr : EventHeader) : SP unit :=
  s ←! io_get;
  let g := currentGTID (sp_txn s) in
  if bool_decide (g = "") then io_ret tt
  else send (bare (currentFile (sp_pos s)) (h_LogPos hdr) (eventTime hdr) g EventGTID).

Section run.
Context (Windows1252 : string → string) (EqualFold : string → string → bool).
(** [sp.filters] and [sp.heartbeatPeriod]. *)
Context (filters : Filters) (heartbeatPeriod : Z).
(** The DDL hook, when one is set, given how many events were sent before: it
    may swap the resolver, or fail. *)
Context (onDDL : option (nat → Event → DDLInfo → option Resolver + unit)).
(** [sp.onFileOpened] is set. *)
Context (fileHook : bool).

(** The body of both GTID cases. *)
Definition onGtid (hdr : EventHeader) (gtid : string) (commitTsUS : N) : SP unit :=
  do! beginTxn hdr gtid;
  s ←! io_get;
  if skipTxn (sp_txn s) then io_mod (in_txn (set_gtid ""))
  else
    do! io_mod (in_stmt (λ t, set_commitTs commitTsUS (set_text "" t)));
    emitGTIDTracking hdr.

(** The case of a QUERY_EVENT. *)
Definition onQuery (hdr : EventHeader) (conn : N) (schema query : string) : SP unit :=
  do! io_mod (in_stmt (λ t, set_text "" (set_conn conn t)));
  s ←! io_get;
  match parseDDL query schema with
  | Some d =>
      let ev := ddl_event (currentFile (sp_pos s)) hdr (currentGTID (sp_txn s)) d (schemaVersion (sp_out s)) in
      do! match onDDL with
          | None => io_ret tt
          | Some hook =>
              match hook (length (sent (sp_out s))) ev d with
              | inl None => io_ret tt
              | inl (Some r) => io_mod (in_out (SwapResolver r))
              | inr _ => io_fail HookFailed
              end
          end;
      do! send ev;
      io_mod (in_txn (λ t, set_gtid "" (set_ddl (currentGTID t) t)))
  | None =>
      match statementDML query with
      | Some kw =>
          when (statementDMLInScope schema filters)
            (sk_skip SkipStatementFormatDML {| sa_File := currentFile (sp_pos s); sa_Pos := h_LogPos hdr;
               sa_StatementType := kw; sa_ConnectionID := conn; sa_Schema := ""; sa_Table := ""; sa_Detail := "" |})
      | None => when (isTransactionTerminator query) (endTxn hdr)
      end
  end.

(** [BinlogFileIdentity]. *)
Definition BinlogFileIdentity (hdr : EventHeader) : string :=
  if (h_Timestamp hdr =? 0)%N then ""
  else "fde:" +:+ pad 0 (h_Timestamp hdr) +:+ ":" +:+ pad 0 (h_ServerID hdr).

(** [onHeartbeat]. *)
Definition onHeartbeat (v2 : bool) (filename : string) (offset : N) (hdr : EventHeader) : SP unit :=
  s ←! io_get;
  let hb := sp_hb s in
  let pos := if v2 then offset else h_LogPos hdr in
  let offWire := (0 <? heartbeatPeriod) && (Z.quot heartbeatPeriod 2 <=? waited hb) in
  let caught :=
    negb (bool_decide (filename = "")) && negb (skipTxn (sp_txn s)) && offWire &&
    (bool_decide (filename = currentFile (sp_pos s)) && negb (lastLogPos (sp_pos s) =? 0)%N
       && (pos =? lastLogPos (sp_pos s))%N
     || hbIdle hb && bool_decide (filename = hbFile hb) && (pos =? hbPos hb)%N) in
  do! io_mod (in_hb (λ hb, {| hbFile := filename; hbPos := pos; hbIdle := true; waited := waited hb;
                              prevReadAt := prevReadAt hb; readAt := readAt hb |}));
  if negb caught || (prevReadAt hb =? 0) then io_ret tt
  else send_at (Z.min (prevReadAt hb + heartbeatPeriod) (readAt hb)) (bare "" 0 0 "" EventCaughtUp).

(** The checks before an event is looked at: positions, and the file it opens. *)
Definition guardPosition (hdr : EventHeader) (body : Body) : SP unit :=
  s ←! io_get;
  let last := lastLogPos (sp_pos s) in
  match body with
  | Rotate _ _ => io_mod (in_pos (set_lastLogPos 0))
  | FormatDescription =>
      let id := BinlogFileIdentity hdr in
      let file := currentFile (sp_pos s) in
      when (fileHook && negb (bool_decide (file = "")) && negb (bool_decide (id = "")))
        (io_mod (in_out (add_opened file id)))
  | _ =>
      if negb (last =? 0)%N && negb (h_LogPos hdr =? 0)%N && (h_LogPos hdr <? last)%N then
        io_fail (Wraparound (currentFile (sp_pos s)) last (h_LogPos hdr))
      else when (last <? h_LogPos hdr)%N (io_mod (in_pos (set_lastLogPos (h_LogPos hdr))))
  end.

(** An event of a re-sent transaction is dropped; a tagged GTID ends that. *)
Definition skipped (body : Body) : SP bool :=
  s ←! io_get;
  if negb (skipTxn (sp_txn s)) then io_ret false
  else
    match body with
    | Rotate _ _ | Gtid _ _ _ | MariadbGtid _ => io_ret false
    | GtidTagged => do! io_mod (in_txn (set_skip false)); io_ret false
    | _ => io_ret true
    end.

(** The context of the rows that come now. *)
Definition row_context (s : sp) : rowContext := {|
  rc_resolver := resolver (sp_out s); rc_filters := filters; rc_file := currentFile (sp_pos s);
  rc_gtid := currentGTID (sp_txn s); rc_connectionID := currentConnectionID (sp_stmt s);
  rc_commitTsUS := currentCommitTsUS (sp_stmt s); rc_queryText := currentQueryText (sp_stmt s);
  rc_schemaVersion := schemaVersion (sp_out s) |}.

(** The case of a RowsEvent; the statement's text is cleared also on an error. *)
Definition onRows (hdr : EventHeader) (ev : RowsEvent) : SP unit :=
  s ←! io_get;
  r ←! io_try (handleRows Windows1252 EqualFold (row_context s) hdr ev);
  do! when (re_StmtEnd ev) (io_mod (in_stmt (set_text "")));
  match r with inl _ => io_ret tt | inr e => io_fail e end.

(** The case of an XID_EVENT. *)
Definition onXid (hdr : EventHeader) : SP unit :=
  do! io_mod (in_stmt (set_text ""));
  do! io_mod (in_txn (λ t,
        if bool_decide (currentGTID t = "") && negb (bool_decide (ddlTxnGTID t = ""))
        then set_ddl "" (set_committed (ddlTxnGTID t) t) else t));
  endTxn hdr.

(** The switch of [handleEvent], for an event that holds no others. *)
Definition on_body (hdr : EventHeader) (body : Body) : SP unit :=
  match body with
  | Rotate next _ =>
      do! io_mod (in_pos (set_file next));
      when (h_Artificial hdr) (io_mod (in_txn (λ t, set_rotated true (set_skip false t))))
  | Gtid sid gno commitTs => onGtid hdr (formatGTID (h_EventType hdr) sid gno) commitTs
  | MariadbGtid gtid => onGtid hdr gtid 0
  | Query conn schema query => onQuery hdr conn schema query
  | Xid => onXid hdr
  | RowsQuery q | AnnotateRows q => io_mod (in_stmt (set_text (SanitizeQueryText q)))
  | Rows ev => onRows hdr ev
  | _ => when (bool_decide (h_EventType hdr = XaPrepare)) (do! io_mod (in_stmt (set_text "")); endTxn hdr)
  end.

(** [handleEvent]. *)
Fixpoint handleEvent (hdr : EventHeader) (body : Body) {struct body} : SP unit :=
  match body with
  | Heartbeat v2 filename offset => onHeartbeat v2 filename offset hdr
  | _ =>
      do! io_mod (in_hb (λ hb, {| hbFile := hbFile hb; hbPos := hbPos hb; hbIdle := false; waited := waited hb;
                                  prevReadAt := prevReadAt hb; readAt := readAt hb |}));
      s ←! io_get;
      let '(c, pos) := Observe hdr body (fillCorr (sp_pos s)) in
      let hdr := at_pos pos hdr in
      do! io_mod (in_pos (set_corr c));
      do! guardPosition hdr body;
      skip ←! skipped body;
      if skip : bool then io_ret tt
      else
        match body with
        | TransactionPayload events =>
            (fix inner (l : list (EventHeader * Body)) : SP unit :=
               match l with
               | [] => io_ret tt
               | (h, b) :: l => do! handleEvent (rewriteInnerHeader h hdr) b; inner l
               end) events
        | _ => on_body hdr body
        end
  end.

(** ** The loop *)

(** A packet of the client: when it was asked for and read, a resolver that was
    swapped in before, the event. *)
Record packet := { p_asked : Z; p_read : Z; p_swap : option Resolver; p_hdr : EventHeader; p_body : Body }.

Definition deliver (p : packet) (s : sp) : sp :=
  let s := in_hb (λ hb, {| hbFile := hbFile hb; hbPos := hbPos hb; hbIdle := hbIdle hb; waited := p_read p - p_asked p;
                           prevReadAt := readAt hb; readAt := p_read p |}) s in
  match p_swap p with None => s | Some r => in_out (SwapResolver r) s end.

(** The loop of [Run], over what the client delivers before it ends. *)
Fixpoint run_loop (wire : list packet) : SP unit :=
  match wire with
  | [] => io_ret tt
  | p :: wire => do! io_mod (deliver p); do! handleEvent (p_hdr p) (p_body p); run_loop wire
  end.

(** [Run] on a wire that ends with the context ([closed] is false) or with the
    connection: nothing, or the error. *)
Definition Run (wire : list packet) (closed : bool) (s : sp) : option PErr * sp :=
  match run_loop wire s with
  | (inl _, s) => (if closed then Some ReplicationFailed else None, s)
  | (inr Cancelled, s) => (None, s)
  | (inr e, s) => (Some e, s)
  end.

End run.

(** [NewStreamParser] and the start of [Run]. *)
Definition NewStreamParser (r : option Resolver) (takes : option nat) : sp := {|
  sp_txn := {| currentGTID := ""; lastCommittedGTID := ""; ddlTxnGTID := ""; afterRotate := false; skipTxn := false;
               txnRows := 0 |};
  sp_stmt := {| currentConnectionID := 0; currentCommitTsUS := 0; currentQueryText := "" |};
  sp_pos := {| currentFile := ""; lastLogPos := 0; fillCorr := noCorrector |};
  sp_hb := {| hbFile := ""; hbPos := 0; hbIdle := false; waited := 0; prevReadAt := 0; readAt := 0 |};
  sp_out := {| resolver := r; schemaVersion := match r with Some r => Z.to_N (rv_snapshotID r mod 2 ^ 32) | None => 0%N end;
               skips := NewSkipCounters; opened := []; sent := []; takes := takes |} |}.
