(* ===== verification/StreamLog.v ===== *)
(** * What a source logs, what a connection delivers, what a parser should send

    The binary log of a source is a list of groups, each a transaction or a
    statement; a connection delivers their events in order, with heartbeats and
    file headers in between, and starts again after it is lost. The reference is
    what the log says on its own, one event after the other, with no state for
    connections. *)
From S2P Require Import Prelude GoStrings GoText GoTime GoVal GoIO Event TxnBatch DdlText MapRow Skips RowEvents Stream.

Open Scope Z_scope.

(** ** The log *)

Abbreviation wevent := (EventHeader * Body)%type.

(** A group: the file it is in, its GTID (empty without one), its events. *)
Record group := { gr_file : string; gr_gtid : string; gr_events : list wevent }.

(** What an event is to the framing. *)
Inductive role := Begins (gtid : string) | Says | Changes | Ends | Defines | Foreign.

Definition role_of (e : wevent) : role :=
  match e.2 with
  | Gtid sid gno _ => Begins (formatGTID (h_EventType e.1) sid gno)
  | MariadbGtid g => Begins g
  | Query _ schema q =>
      match parseDDL q schema with
      | Some _ => Defines
      | None => match statementDML q with
                | Some _ => Says
                | None => if isTransactionTerminator q then Ends else Says
                end
      end
  | Xid => Ends
  | RowsQuery _ | AnnotateRows _ => Says
  | Rows _ => Changes
  | OtherBody => if bool_decide (h_EventType e.1 = XaPrepare) then Ends else Says
  | _ => Foreign
  end.

Definition says (e : wevent) : Prop := role_of e = Says.
Definition says_or_changes (e : wevent) : Prop := role_of e = Says ∨ role_of e = Changes.

(** A transaction with its end, a table DDL, or a statement that commits
    without saying so. *)
Inductive shape : list wevent → Prop :=
  | sh_transaction mid last : Forall says_or_changes mid → role_of last = Ends → shape (mid ++ [last])
  | sh_ddl mid last : Forall says mid → role_of last = Defines → shape (mid ++ [last])
  | sh_implicit mid : Forall says mid → shape mid.

Definition group_ok (g : group) : Prop :=
  ∃ first rest, gr_events g = first :: rest ∧ role_of first = Begins (gr_gtid g) ∧ shape rest.

(** GTIDs name one group each. *)
Definition gtids_distinct (log : list group) : Prop :=
  ∀ i j g h, log !! i = Some g → log !! j = Some h → gr_gtid g = gr_gtid h → gr_gtid g ≠ "" → i = j.

Definition log_ok (log : list group) : Prop := Forall group_ok log ∧ gtids_distinct log.

(** ** A connection *)

(** Where a source is: before a group, or inside one with [a] of its events
    sent and [b] to come. *)
Inductive phase :=
  | Before (done rest : list group)
  | Inside (done : list group) (g : group) (a b : list wevent) (rest : list group).

(** The file the client was told, and its position corrector. *)
Record src := { so_phase : phase; so_file : string; so_corr : fillCorrector }.

(** Events that belong to no group. *)
Definition is_noise (e : wevent) : bool :=
  match e.2 with
  | Heartbeat _ _ _ => true
  | FormatDescription | OtherBody => negb (bool_decide (h_EventType e.1 = XaPrepare))
  | _ => false
  end.

(** The corrector leaves the event's true position, the header [h]. *)
Definition restored (c : fillCorrector) (wire h : EventHeader) (b : Body) (c' : fillCorrector) : Prop :=
  Observe wire b c = (c', h_LogPos h) ∧ at_pos (h_LogPos h) wire = h.

(** The phase once a reconnect by GTID starts the last group again, or a dump by
    position goes on. *)
Definition resumes (byGtid : bool) (p : phase) : phase :=
  match p with
  | Inside done g a b rest => if byGtid && negb (bool_decide (gr_gtid g = "")) then Before done (g :: rest) else p
  | Before _ _ => p
  end.

Definition at_group_end (p : phase) : Prop := match p with Inside _ _ _ b _ => b = [] | Before _ _ => False end.

(** The file of the group a phase is in or before. *)
Definition phase_file (p : phase) : option string :=
  match p with Inside _ g _ _ _ => Some (gr_file g) | Before _ rest => gr_file <$> head rest end.

(** One packet. *)
Inductive sends (byGtid : bool) : src → wevent → src → Prop :=
  | se_first done g a b e rest f c w c' :
      gr_events g = e :: b → a = [e] → f = gr_file g → restored c w e.1 e.2 c' →
      sends byGtid {| so_phase := Before done (g :: rest); so_file := f; so_corr := c |} (w, e.2)
        {| so_phase := Inside done g a b rest; so_file := f; so_corr := c' |}
  | se_following done g0 a0 g a b e rest f c w c' :
      gr_events g = e :: b → a = [e] → f = gr_file g → restored c w e.1 e.2 c' →
      sends byGtid {| so_phase := Inside done g0 a0 [] (g :: rest); so_file := f; so_corr := c |} (w, e.2)
        {| so_phase := Inside (done ++ [g0]) g a b rest; so_file := f; so_corr := c' |}
  | se_next done g a b e rest f c w c' :
      f = gr_file g → restored c w e.1 e.2 c' →
      sends byGtid {| so_phase := Inside done g a (e :: b) rest; so_file := f; so_corr := c |} (w, e.2)
        {| so_phase := Inside done g (a ++ [e]) b rest; so_file := f; so_corr := c' |}
  | se_noise p f c e :
      is_noise e = true →
      sends byGtid {| so_phase := p; so_file := f; so_corr := c |} e
        {| so_phase := p; so_file := f;
           so_corr := match e.2 with Heartbeat _ _ _ => c | _ => (Observe e.1 e.2 c).1 end |}
  | se_switch p f c h f' pos :
      at_group_end p →
      sends byGtid {| so_phase := p; so_file := f; so_corr := c |} (h, Rotate f' pos)
        {| so_phase := p; so_file := f'; so_corr := (Observe h (Rotate f' pos) c).1 |}
  | se_reconnect p f c h f' pos :
      h_Artificial h = true → phase_file p = Some f' →
      sends byGtid {| so_phase := p; so_file := f; so_corr := c |} (h, Rotate f' pos)
        {| so_phase := resumes byGtid p; so_file := f'; so_corr := (Observe h (Rotate f' pos) c).1 |}.

(** What a client is delivered, over any number of connections. *)
Inductive conveys (byGtid : bool) : src → list packet → src → Prop :=
  | co_nil x : conveys byGtid x [] x
  | co_packet x p y wire z :
      p_swap p = None → sends byGtid x (p_hdr p, p_body p) y → conveys byGtid y wire z →
      conveys byGtid x (p :: wire) z.

Definition started (log : list group) : src :=
  {| so_phase := Before [] log; so_file := ""; so_corr := noCorrector |}.

(** ** The reference *)

(** A consumer that only collects. *)
#[export] Instance list_sink : Sink (list Event) := {|
  sk_send := λ ev l, (inl tt, l ++ [ev]);
  sk_skip := λ _ _, io_ret tt; sk_captured := io_ret tt; sk_tracked := false; sk_gap := io_ret tt;
  sk_drop := λ _ _ _, io_ret tt |}.

(** An event without the time it was read and the connection that made it: the
    latter is that of the last QUERY event, which need not be the group's. *)
Definition erase (ev : Event) : Event := {|
  ev_BinlogFile := ev_BinlogFile ev; ev_StartPos := ev_StartPos ev; ev_EndPos := ev_EndPos ev;
  ev_Timestamp := ev_Timestamp ev; ev_GTID := ev_GTID ev; ev_ConnectionID := 0;
  ev_QueryText := ev_QueryText ev; ev_CommitTsUS := ev_CommitTsUS ev; ev_Schema := ev_Schema ev; ev_Table := ev_Table ev;
  ev_EventType := ev_EventType ev; ev_PKValues := ev_PKValues ev; ev_RowBefore := ev_RowBefore ev;
  ev_RowAfter := ev_RowAfter ev; ev_SchemaVersion := ev_SchemaVersion ev; ev_ReadAt := 0 |}.

(** What the log says so far of the statement and the transaction in flight,
    and the snapshot in use. *)
Record reading := { rd_text : string; rd_commitTs : N; rd_gtid : string; rd_resolver : option Resolver; rd_version : N }.

Section reference.
Context (Windows1252 : string → string) (EqualFold : string → string → bool) (filters : Filters).
(** The snapshot the DDL hook takes for a statement of the log, when it takes
    one; the statement's event has no snapshot yet. *)
Context (swap : Event → option Resolver).

(** The rows of a row event, as [handleRows] sends them. *)
Definition rows_of_event (file : string) (rd : reading) (hdr : EventHeader) (ev : RowsEvent) : list Event :=
  (handleRows Windows1252 EqualFold {|
     rc_resolver := rd_resolver rd; rc_filters := filters; rc_file := file; rc_gtid := rd_gtid rd;
     rc_connectionID := 0; rc_commitTsUS := rd_commitTs rd; rc_queryText := rd_text rd;
     rc_schemaVersion := rd_version rd |} hdr ev []).2.

Definition committed_at (file : string) (hdr : EventHeader) (gtid : string) : Event :=
  bare file (h_LogPos hdr) (eventTime hdr) gtid EventCommit.

Definition say (text : string) (rd : reading) : reading := {|
  rd_text := text; rd_commitTs := rd_commitTs rd; rd_gtid := rd_gtid rd; rd_resolver := rd_resolver rd;
  rd_version := rd_version rd |}.

Definition begin_ (file : string) (hdr : EventHeader) (gtid : string) (ts : N) (rd : reading) : reading * list Event :=
  ({| rd_text := ""; rd_commitTs := ts; rd_gtid := gtid; rd_resolver := rd_resolver rd; rd_version := rd_version rd |},
   if bool_decide (rd_gtid rd = "") then [] else [committed_at file (event_start hdr) (rd_gtid rd)]).

Definition finish (file : string) (hdr : EventHeader) (rd : reading) : reading * list Event :=
  ({| rd_text := ""; rd_commitTs := rd_commitTs rd; rd_gtid := ""; rd_resolver := rd_resolver rd;
      rd_version := rd_version rd |}, [committed_at file hdr (rd_gtid rd)]).

Definition define_ (file : string) (hdr : EventHeader) (d : DDLInfo) (rd : reading) : reading * list Event :=
  let swapped := swap (ddl_event file hdr (rd_gtid rd) d 0) in
  ({| rd_text := ""; rd_commitTs := rd_commitTs rd; rd_gtid := "";
      rd_resolver := match swapped with Some r => Some r | None => rd_resolver rd end;
      rd_version := match swapped with Some r => Z.to_N (rv_snapshotID r mod 2 ^ 32) | None => rd_version rd end |},
   [ddl_event file hdr (rd_gtid rd) d (rd_version rd)]).

(** One event of the log: its rows, and the ends of transactions. *)
Definition read_event (file : string) (e : wevent) (rd : reading) : reading * list Event :=
  let '(hdr, body) := e in
  match body with
  | Gtid sid gno ts => begin_ file hdr (formatGTID (h_EventType hdr) sid gno) ts rd
  | MariadbGtid g => begin_ file hdr g 0 rd
  | Query _ schema q =>
      match parseDDL q schema with
      | Some d => define_ file hdr d rd
      | None => match statementDML q with
                | Some _ => (say "" rd, [])
                | None => if isTransactionTerminator q then finish file hdr (say "" rd) else (say "" rd, [])
                end
      end
  | Xid => finish file hdr rd
  | RowsQuery q | AnnotateRows q => (say (SanitizeQueryText q) rd, [])
  | Rows ev => (if re_StmtEnd ev then say "" rd else rd, rows_of_event file rd hdr ev)
  | OtherBody => if bool_decide (h_EventType hdr = XaPrepare) then finish file hdr rd else (rd, [])
  | _ => (rd, [])
  end.

Fixpoint read_events (file : string) (es : list wevent) (rd : reading) : reading * list Event :=
  match es with
  | [] => (rd, [])
  | e :: es => let '(rd, out) := read_event file e rd in let '(rd, out') := read_events file es rd in (rd, out ++ out')
  end.

Fixpoint read_log (log : list group) (rd : reading) : reading * list Event :=
  match log with
  | [] => (rd, [])
  | g :: log =>
      let '(rd, out) := read_events (gr_file g) (gr_events g) rd in
      let '(rd, out') := read_log log rd in (rd, out ++ out')
  end.

(** What is read up to a phase. *)
Definition read_phase (p : phase) (rd : reading) : reading * list Event :=
  match p with
  | Before done _ => read_log done rd
  | Inside done g a _ _ =>
      let '(rd, out) := read_log done rd in
      let '(rd, out') := read_events (gr_file g) a rd in (rd, out ++ out')
  end.

Definition unread (r : option Resolver) : reading := {|
  rd_text := ""; rd_commitTs := 0; rd_gtid := ""; rd_resolver := r;
  rd_version := match r with Some r => Z.to_N (rv_snapshotID r mod 2 ^ 32) | None => 0%N end |}.

End reference.

(** ** What is kept of what a parser sends

    The start of a transaction and an idle source are no change; a DDL that was
    sent again counts once. *)

Definition is_change (ev : Event) : bool :=
  negb ((ev_EventType ev =? EventGTID) || (ev_EventType ev =? EventCaughtUp))%N.

(** [ev] is the DDL that [l] ends with, sent again. *)
Definition again (l : list Event) (ev : Event) : bool :=
  match last l with
  | Some e => (ev_EventType ev =? EventDDL)%N && (ev_EventType e =? EventDDL)%N && bool_decide (ev_GTID e = ev_GTID ev)
              && negb (bool_decide (ev_GTID ev = ""))
  | None => false
  end.

Definition keep (l : list Event) (ev : Event) : list Event :=
  if is_change ev then if again l (erase ev) then l else l ++ [erase ev] else l.

Definition kept (evs : list Event) : list Event := fold_left keep evs [].
