(* ===== verification/StreamRows.v ===== *)
(** * The rows a parser sends for a row event

    The stream sends what [handleRows] gives a consumer that only collects, or
    the part of it before a send fails, and nothing else of its state changes
    but the count of rows. *)
From S2P Require Import Prelude GoStrings GoText GoTime GoVal GoIO Event TxnBatch DdlText MapRow Skips RowEvents Stream StreamLog.

Open Scope Z_scope.

(** ** What is kept *)

Lemma kept_snoc l ev : kept (l ++ [ev]) = keep (kept l) ev.
Proof. unfold kept. by rewrite fold_left_app. Qed.

Lemma keep_plain l ev : is_change ev = true → ev_EventType ev ≠ EventDDL → keep l ev = l ++ [erase ev].
Proof.
  intros Hc Hd. unfold keep, again. rewrite Hc. destruct (last l); [|done].
  change (ev_EventType (erase ev)) with (ev_EventType ev).
  apply N.eqb_neq in Hd. by rewrite Hd.
Qed.

Lemma keep_silent l ev : is_change ev = false → keep l ev = l.
Proof. unfold keep. by intros ->. Qed.

Lemma is_row_change ev : is_rowEvent ev = true → is_change ev = true ∧ ev_EventType ev ≠ EventDDL.
Proof.
  unfold is_rowEvent, is_change. intros H.
  repeat (apply orb_prop in H as [H|H]); apply N.eqb_eq in H; rewrite H; done.
Qed.

(** ** The rows of a row event *)

(** [s'] is [s] after the rows [l] were sent and discards were tallied. *)
Record advanced (s : sp) (l : list Event) (s' : sp) : Prop := {
  ad_txn : sp_txn s' = set_rows (txnRows (sp_txn s) + Z.of_nat (length l)) (sp_txn s);
  ad_stmt : sp_stmt s' = sp_stmt s;
  ad_pos : sp_pos s' = sp_pos s;
  ad_resolver : resolver (sp_out s') = resolver (sp_out s);
  ad_version : schemaVersion (sp_out s') = schemaVersion (sp_out s);
  ad_kept : kept (sent (sp_out s')) = kept (sent (sp_out s)) ++ l;
}.

Lemma set_rows_id n t : n = txnRows t → set_rows n t = t.
Proof. intros ->. by destruct t. Qed.

Lemma advanced_nil s s' :
  sp_txn s' = sp_txn s → sp_stmt s' = sp_stmt s → sp_pos s' = sp_pos s → resolver (sp_out s') = resolver (sp_out s) →
  schemaVersion (sp_out s') = schemaVersion (sp_out s) → sent (sp_out s') = sent (sp_out s) → advanced s [] s'.
Proof.
  intros H1 H2 H3 H4 H5 H6. split; rewrite ?H1, ?H2, ?H3, ?H4, ?H5, ?H6, ?app_nil_r; try done.
  symmetry. apply set_rows_id. simpl. lia.
Qed.

Lemma advanced_app s l s' l' s'' : advanced s l s' → advanced s' l' s'' → advanced s (l ++ l') s''.
Proof.
  intros [A1 A2 A3 A4 A5 A6] [B1 B2 B3 B4 B5 B6]. split; try congruence.
  - rewrite B1, A1. unfold set_rows. simpl. f_equal. rewrite length_app. lia.
  - by rewrite B6, A6, app_assoc.
Qed.

(** A call that sends nothing and cannot fail. *)
Definition silent (m : SP unit) : Prop := ∀ s, (m s).1 = inl tt ∧ advanced s [] (m s).2.

Lemma silent_ret : silent (io_ret tt).
Proof. intros s. split; [done|]. by apply advanced_nil. Qed.
Lemma silent_skip reason attr : silent (sk_skip reason attr).
Proof. intros s. split; [done|]. by apply advanced_nil. Qed.
Lemma silent_drop reason n what : silent (sk_drop reason n what).
Proof. apply silent_ret. Qed.
Lemma silent_captured : silent sk_captured.
Proof. intros s. split; [done|]. by apply advanced_nil. Qed.
Lemma silent_seq m k : silent m → silent k → silent (do! m; k).
Proof.
  intros Hm Hk s. destruct (Hm s) as [H1 H2]. unfold io_bind. destruct (m s) as [[[]|e] s'] eqn:E; [|done].
  destruct (Hk s') as [H3 H4]. split; [done|]. by eapply (advanced_app s [] s' []).
Qed.
Lemma silent_when b m : silent m → silent (when b m).
Proof. destruct b; [done|]. intros _. apply silent_ret. Qed.

Create HintDb silent discriminated.
#[export] Hint Resolve silent_ret silent_skip silent_drop silent_captured silent_seq silent_when : silent.

Lemma send_row s ev :
  is_rowEvent ev = true →
  match send ev s with
  | (inl _, s') => advanced s [erase ev] s'
  | (inr _, s') => s' = s
  end.
Proof.
  intros Hr. destruct (is_row_change ev Hr) as [Hc Hd].
  unfold send, send_at, io_bind, io_get. destruct (takes (sp_out s)) as [[|n]|] eqn:Ht; [done|..].
  all: simpl; rewrite Hr; simpl; split; try done; simpl; rewrite kept_snoc, keep_plain; done.
Qed.

(** What a loop of rows does to a consumer that collects. *)
Lemma emit_rows_list {A} (of_row : A → option Event) rows n (l : list Event) :
  emit_rows of_row rows n l =
  (inl (n + Z.of_nat (length (filter (λ row, of_row row = None) rows)), None), l ++ omap of_row rows).
Proof.
  revert n l. induction rows as [|row rows IH]; intros n l; simpl.
  { unfold io_ret. repeat f_equal; [lia|]. by rewrite app_nil_r. }
  destruct (of_row row) as [e|] eqn:E; simpl.
  - unfold io_bind, io_try. simpl. rewrite IH. rewrite filter_cons_False by (by rewrite E). by rewrite <-app_assoc.
  - rewrite IH. rewrite filter_cons_True by done. f_equal. f_equal. f_equal. cbn [length]. lia.
Qed.

(** The same loop in the stream: all the rows, or those before a failed send. *)
Lemma emit_rows_stream {A} (of_row of_row0 : A → option Event) rows n s :
  (∀ row, erase <$> of_row row = of_row0 row) → (∀ row e, of_row row = Some e → is_rowEvent e = true) →
  ∃ k err s' l, emit_rows of_row rows n s = (inl (k, err), s') ∧ advanced s l s' ∧ l `prefix_of` omap of_row0 rows ∧
    (err = None → l = omap of_row0 rows).
Proof.
  intros He Hr. revert n s. induction rows as [|row rows IH]; intros n s; simpl.
  { eexists _, None, s, []. split_and!; [done| |done..]. by apply advanced_nil. }
  specialize (He row) as He1. destruct (of_row row) as [e|] eqn:E; simpl in He1; rewrite <-He1; simpl; [|apply IH].
  unfold io_bind, io_try. simpl. pose proof (send_row s e (Hr _ _ E)) as Hs. destruct (send e s) as [[[]|err] s'].
  - destruct (IH n s') as (k & err & s'' & l & -> & Ha & Hp & Hl). eexists _, _, _, (erase e :: l).
    split_and!; [done| |by apply prefix_cons|by intros ->%Hl]. by eapply (advanced_app s [erase e]).
  - subst s'. eexists _, (Some err), s, []. split_and!; [done|by apply advanced_nil|apply prefix_nil|done].
Qed.

Definition no_conn (c : rowContext) : rowContext := {|
  rc_resolver := rc_resolver c; rc_filters := rc_filters c; rc_file := rc_file c; rc_gtid := rc_gtid c;
  rc_connectionID := 0; rc_commitTsUS := rc_commitTsUS c; rc_queryText := rc_queryText c;
  rc_schemaVersion := rc_schemaVersion c |}.

(** [m] in the stream sends, from [s], what [m0] collects, or a part of it
    before an error. *)
Definition sends_as (m : SP unit) (m0 : io (list Event) PErr unit) : Prop :=
  ∀ s, ∃ l, advanced s l (m s).2 ∧ l `prefix_of` (m0 []).2 ∧ ((m s).1 = inl tt → l = (m0 []).2).

Lemma silent_sends_as (m : SP unit) (m0 : io (list Event) PErr unit) : silent m → (m0 []).2 = [] → sends_as m m0.
Proof. intros Hm H0 s. exists []. rewrite H0. split_and!; [apply Hm|done..]. Qed.

Lemma fail_sends_as e (m0 : io (list Event) PErr unit) : sends_as (io_fail e) m0.
Proof. intros s. exists []. split_and!; [by apply advanced_nil|apply prefix_nil|done]. Qed.

Lemma conclude_list {A} (of_row : A → option Event) rows attr name odd :
  (conclude attr name (emit_rows of_row rows 0) odd ([] : list Event)).2 = omap of_row rows.
Proof. unfold conclude, io_bind. simpl. rewrite emit_rows_list. destruct odd; simpl; by destruct (_ <? _). Qed.

(** What is tallied after the rows. *)
Definition discards (attr : SkipAttribution) (name : string) (odd : bool) (n : Z) : SP unit :=
  do! when odd (do! sk_skip SkipUnpairedUpdateImage attr; sk_drop SkipUnpairedUpdateImage 1 name);
  when (0 <? n) (do! sk_skip SkipRowMapFailed attr; sk_drop SkipRowMapFailed n name).

Lemma silent_discards attr name odd n : silent (discards attr name odd n).
Proof. unfold discards. auto 10 with silent. Qed.

Lemma conclude_run attr name (emitted : SP (Z * option PErr)) odd s :
  conclude attr name emitted odd s =
  match emitted (sk_captured s).2 with
  | (inl (n, err), s2) =>
      (match err with None => inl tt | Some e => inr e end, (discards attr name odd n s2).2)
  | (inr e, s2) => (inr e, s2)
  end.
Proof.
  unfold conclude, discards, io_bind. simpl. destruct (emitted _) as [[[n err]|e] s2]; [|done].
  destruct odd, (0 <? n), err; done.
Qed.

Lemma conclude_sends_as {A} (of_row of_row0 : A → option Event) rows attr name odd :
  (∀ row, erase <$> of_row row = of_row0 row) → (∀ row e, of_row row = Some e → is_rowEvent e = true) →
  sends_as (conclude attr name (emit_rows of_row rows 0) odd) (conclude attr name (emit_rows of_row0 rows 0) odd).
Proof.
  intros He Hr s. rewrite conclude_list, conclude_run.
  destruct (emit_rows_stream of_row of_row0 rows 0 (sk_captured s).2 He Hr) as (n & err & s2 & l & -> & A2 & Hp & Hl).
  exists l. split_and!; [|done|simpl; by destruct err; [|auto]].
  assert (advanced s (([] ++ l) ++ []) (discards attr name odd n s2).2) as A4
    by (eapply advanced_app; [eapply advanced_app; [apply silent_captured|done]|apply silent_discards]).
  by rewrite app_nil_r in A4.
Qed.

Section rows.
Context (Windows1252 : string → string) (EqualFold : string → string → bool).

Lemma is_row_event c hdr ev type pk before after :
  type = EventInsert ∨ type = EventUpdate ∨ type = EventDelete →
  is_rowEvent (row_event c hdr ev type pk before after) = true.
Proof. intros [->|[->| ->]]; done. Qed.

Ltac named_row := let x := fresh in intros x; simpl; repeat (case_match || simpl; simplify_option_eq); eauto using is_row_event.

(** A row event sends what it sends to a consumer that collects, the connection
    aside. *)
Lemma handleRows_sends_as c hdr ev :
  sends_as (handleRows Windows1252 EqualFold c hdr ev) (handleRows Windows1252 EqualFold (no_conn c) hdr ev).
Proof.
  unfold handleRows. cbn [rc_filters rc_resolver rc_file no_conn].
  destruct (negb (Matches (rc_filters c) _ _)); [apply silent_sends_as; [apply silent_ret|done]|].
  destruct (rc_resolver c) as [r|]; [|apply silent_sends_as; [apply silent_seq; [apply silent_skip|apply silent_ret]|done]].
  destruct (Resolve r _ _) as [tm|].
  2: { apply silent_sends_as; [apply silent_seq; apply silent_when; [apply silent_ret|apply silent_skip]|].
       unfold when. simpl. by repeat case_match. }
  destruct (negb (re_ColumnCount ev =? _)%nat).
  { apply silent_sends_as; [apply silent_seq; [apply silent_when, silent_ret|apply silent_skip]|].
    unfold when. simpl. by repeat case_match. }
  destruct (if _ && _ then first_drift _ _ _ else None); [apply fail_sends_as|].
  destruct (firstPartialImage _); [apply fail_sends_as|].
  destruct (h_LogPos hdr <? h_EventSize hdr)%N; [apply fail_sends_as|].
  destruct (h_EventType hdr).
  4-6: by apply silent_sends_as; [apply silent_seq; [apply silent_skip|apply silent_ret]|].
  - eapply conclude_sends_as; auto with silent.
    + intros row. by destruct (MapRow _ _ _ _ row).
    + intros row e. destruct (MapRow _ _ _ _ row); [|done]. intros [= <-]. by apply is_row_event; auto.
  - eapply conclude_sends_as; auto with silent.
    + intros row. destruct (MapRow _ _ _ _ row.1); [|done]. simpl. by destruct (MapRow _ _ _ _ row.2).
    + intros row e. destruct (MapRow _ _ _ _ row.1); [|done]. simpl. destruct (MapRow _ _ _ _ row.2); [|done].
      intros [= <-]. by apply is_row_event; auto.
  - eapply conclude_sends_as; auto with silent.
    + intros row. by destruct (MapRow _ _ _ _ row).
    + intros row e. destruct (MapRow _ _ _ _ row); [|done]. intros [= <-]. by apply is_row_event; auto.
Qed.
End rows.
