(* ===== verification/StreamTxn.v ===== *)
(** * What each binlog event does to the stream parser

    The closures of [Run] and [handleEvent], each as a triple over the parser's
    fields: the file, the transaction and the statement in flight, the snapshot,
    and what is kept of the events sent. *)
From S2P Require Import Prelude GoStrings GoText GoTime GoVal GoIO Event TxnBatch DdlText MapRow Skips RowEvents Stream StreamLog StreamRows.

Open Scope Z_scope.

(** What is kept so far. *)
Definition keeps (s : sp) : list Event := kept (sent (sp_out s)).

(** [s'] is [s] with the transaction [t] and the statement [st], after [l]. *)
Record moved (s : sp) (t : txnState) (st : stmtState) (l : list Event) (s' : sp) : Prop := {
  mv_txn : sp_txn s' = t;
  mv_stmt : sp_stmt s' = st;
  mv_pos : sp_pos s' = sp_pos s;
  mv_resolver : resolver (sp_out s') = resolver (sp_out s);
  mv_version : schemaVersion (sp_out s') = schemaVersion (sp_out s);
  mv_kept : keeps s' = keeps s ++ l;
}.

Section txn.
(** What the log holds; an error leaves a part of it. *)
Context (all : list Event).
Definition part (s : sp) : Prop := keeps s `prefix_of` all.

Lemma wp_when {S E} b (m : io S E unit) Q F s :
  (b = true → wp m Q F s) → (b = false → Q tt s) → wp (if b then m else io_ret tt) Q F s.
Proof. destruct b; intros H1 H2; [by apply H1|]. apply wp_ret. by apply H2. Qed.

Lemma wp_send_at t ev Q s :
  is_rowEvent ev = false → part s →
  (∀ n, Q tt (in_out (set_sent (sent (sp_out s) ++ [stamped t ev]) n) s)) → wp (send_at t ev) Q part s.
Proof.
  intros Hr Hp HQ. unfold send_at. apply wp_bind, wp_get.
  destruct (takes (sp_out s)) as [[|n]|]; [by apply wp_fail|..]; apply wp_bind, wp_mod; rewrite Hr; apply wp_ret, HQ.
Qed.

Lemma wp_send ev Q s :
  is_rowEvent ev = false → part s →
  (∀ t n, Q tt (in_out (set_sent (sent (sp_out s) ++ [stamped t ev]) n) s)) → wp (send ev) Q part s.
Proof. intros Hr Hp HQ. unfold send. apply wp_bind, wp_get. by apply wp_send_at. Qed.

Lemma keeps_plain t ev n s :
  is_change ev = true → ev_EventType ev ≠ EventDDL →
  keeps (in_out (set_sent (sent (sp_out s) ++ [stamped t ev]) n) s) = keeps s ++ [erase ev].
Proof. intros Hc Hd. unfold keeps. simpl. rewrite kept_snoc. by rewrite keep_plain. Qed.

Lemma keeps_silent t ev n s :
  is_change ev = false → keeps (in_out (set_sent (sent (sp_out s) ++ [stamped t ev]) n) s) = keeps s.
Proof. intros Hc. unfold keeps. simpl. rewrite kept_snoc. by rewrite keep_silent. Qed.

(** The commit of the transaction in flight. *)
Definition closing (s : sp) (hdr : EventHeader) : list Event :=
  if bool_decide (currentGTID (sp_txn s) = "") then []
  else [committed_at (currentFile (sp_pos s)) hdr (currentGTID (sp_txn s))].

Lemma wp_emitCommit hdr Q s :
  part s →
  (∀ s', moved s (if bool_decide (currentGTID (sp_txn s) = "") then sp_txn s
                  else set_gtid "" (set_committed (currentGTID (sp_txn s)) (sp_txn s))) (sp_stmt s) (closing s hdr) s' →
    Q tt s') →
  wp (emitCommit hdr) Q part s.
Proof.
  intros Hp HQ. unfold emitCommit, closing in *. apply wp_bind, wp_get. case_bool_decide.
  - apply wp_ret, HQ. by split; rewrite ?app_nil_r.
  - apply wp_bind, wp_send; [done..|]. intros t n. apply wp_mod, HQ. split; try done.
    by apply (keeps_plain t (bare _ _ _ _ _) n s).
Qed.

Lemma wp_endTxn hdr Q s :
  part s →
  (∀ s', moved s (if bool_decide (currentGTID (sp_txn s) = "") then sp_txn s
                  else set_gtid "" (set_committed (currentGTID (sp_txn s)) (sp_txn s))) (sp_stmt s)
           [committed_at (currentFile (sp_pos s)) hdr (currentGTID (sp_txn s))] s' → Q tt s') →
  wp (endTxn hdr) Q part s.
Proof.
  intros Hp HQ. unfold endTxn. apply wp_bind, wp_get. case_bool_decide as Hg.
  - apply wp_send; [done..|]. intros t n. apply HQ. split; try done.
    rewrite Hg. by apply (keeps_plain t (bare _ _ _ _ _) n s).
  - apply wp_emitCommit; [done|]. intros s' Hm. apply HQ. unfold closing in Hm.
    by rewrite !bool_decide_eq_false_2 in Hm by done.
Qed.

(** The transaction a GTID event leaves in flight. *)
Definition begun (g last : string) : txnState := {|
  currentGTID := g; lastCommittedGTID := last; ddlTxnGTID := ""; afterRotate := false; skipTxn := false; txnRows := 0 |}.

Lemma wp_tracking hdr Q s :
  part s → (∀ s', moved s (sp_txn s) (sp_stmt s) [] s' → Q tt s') → wp (emitGTIDTracking hdr) Q part s.
Proof.
  intros Hp HQ. unfold emitGTIDTracking. apply wp_bind, wp_get. case_bool_decide.
  - apply wp_ret, HQ. by split; rewrite ?app_nil_r.
  - apply wp_send; [done..|]. intros t n. apply HQ. split; try done.
    rewrite app_nil_r. by apply (keeps_silent t (bare _ _ _ _ _) n s).
Qed.

Lemma moved_in_txn s t st l s' f : moved s t st l s' → moved s (f t) st l (in_txn f s').
Proof. intros [? ? ? ? ? Hk]. split; [simpl; congruence..|exact Hk]. Qed.

Lemma moved_in_stmt s t st l s' f : moved s t st l s' → moved s t (f st) l (in_stmt f s').
Proof. intros [? ? ? ? ? Hk]. split; [simpl; congruence..|exact Hk]. Qed.

Lemma parser_moved_trans s t st l s' t' st' l' s'' : moved s t st l s' → moved s' t' st' l' s'' → moved s t' st' (l ++ l') s''.
Proof. intros [? ? ? ? ? Hk] [? ? ? ? ? Hk']. split; try congruence. by rewrite Hk', Hk, app_assoc. Qed.

Lemma parser_moved_refl s : moved s (sp_txn s) (sp_stmt s) [] s.
Proof. by split; rewrite ?app_nil_r. Qed.

Lemma moved_part s t st l s' : moved s t st l s' → keeps s ++ l `prefix_of` all → part s'.
Proof. intros Hm. unfold part. by rewrite (mv_kept _ _ _ _ _ Hm). Qed.

(** The end of both GTID cases. *)
Lemma wp_onGtid_end hdr g ts last s0 l s Q :
  keeps s0 ++ l `prefix_of` all →
  moved s0 (begun g last) (sp_stmt s0) l s →
  (∀ s', moved s0 (begun g last) (set_commitTs ts (set_text "" (sp_stmt s0))) l s' → Q tt s') →
  wp (s ←! io_get;
      if skipTxn (sp_txn s) then io_mod (in_txn (set_gtid ""))
      else do! io_mod (in_stmt (λ t, set_commitTs ts (set_text "" t))); emitGTIDTracking hdr) Q part s.
Proof.
  intros Hp Hm HQ. apply wp_bind, wp_get. rewrite (mv_txn _ _ _ _ _ Hm). simpl. apply wp_bind, wp_mod.
  apply (moved_in_stmt _ _ _ _ _ (λ t, set_commitTs ts (set_text "" t))) in Hm.
  apply wp_tracking; [by eapply moved_part|]. intros s' Hm'. apply HQ.
  rewrite <-(app_nil_r l). eapply parser_moved_trans; [done|].
  by rewrite (mv_txn _ _ _ _ _ Hm), (mv_stmt _ _ _ _ _ Hm) in Hm'.
Qed.

(** A GTID event of a transaction that was not read before ends the one in
    flight. *)
Lemma wp_onGtid_fresh hdr g ts s Q :
  (currentGTID (sp_txn s) = "" ∨ currentGTID (sp_txn s) ≠ g) → (g = "" ∨ lastCommittedGTID (sp_txn s) ≠ g) →
  keeps s ++ closing s (event_start hdr) `prefix_of` all →
  (∀ s', moved s (begun g (if bool_decide (currentGTID (sp_txn s) = "") then lastCommittedGTID (sp_txn s)
                           else currentGTID (sp_txn s)))
           (set_commitTs ts (set_text "" (sp_stmt s))) (closing s (event_start hdr)) s' → Q tt s') →
  wp (onGtid hdr g ts) Q part s.
Proof.
  intros Hg Hl Hp HQ. unfold onGtid. apply wp_bind. unfold beginTxn. apply wp_bind, wp_get.
  assert (∀ b, b && negb (bool_decide (currentGTID (sp_txn s) = "")) && bool_decide (currentGTID (sp_txn s) = g) = false)
    as Hres by (intros []; repeat case_bool_decide; naive_solver).
  rewrite Hres. simpl. apply wp_bind, wp_ret, wp_bind, wp_emitCommit.
  { unfold part. etrans; [|exact Hp]. by apply prefix_app_r. }
  intros s1 Hm. apply wp_mod.
  set (last := if bool_decide (currentGTID (sp_txn s) = "") then _ else _) in HQ.
  assert (∀ t1, sp_txn s1 = t1 → lastCommittedGTID t1 = last ∧ (g = "" ∨ last ≠ g)) as Hlast.
  { intros t1 <-. rewrite (mv_txn _ _ _ _ _ Hm). unfold last. case_bool_decide; simpl; naive_solver. }
  destruct (Hlast _ eq_refl) as [El Hne].
  eapply wp_onGtid_end; [done| |exact HQ].
  destruct Hm as [Ht ? ? ? ? ?]. split; try done. simpl. unfold begun, set_rows, set_ddl, set_rotated, set_skip, set_gtid. simpl.
  rewrite El. f_equal. destruct (afterRotate (sp_txn s1)); repeat case_bool_decide; naive_solver.
Qed.

(** The copy of the transaction in flight, which had no rows yet. *)
Lemma wp_onGtid_resent hdr g ts s Q :
  afterRotate (sp_txn s) = true → currentGTID (sp_txn s) = g → g ≠ "" → lastCommittedGTID (sp_txn s) ≠ g →
  part s →
  (txnRows (sp_txn s) ≤ 0 →
   ∀ s', moved s (begun g (lastCommittedGTID (sp_txn s))) (set_commitTs ts (set_text "" (sp_stmt s))) [] s' → Q tt s') →
  wp (onGtid hdr g ts) Q part s.
Proof.
  intros Hr Hg Hne Hl Hp HQ. unfold onGtid. apply wp_bind. unfold beginTxn. apply wp_bind, wp_get.
  rewrite Hr, Hg, (bool_decide_eq_false_2 (g = "")), (bool_decide_eq_true_2 (g = g)) by done. simpl.
  destruct (Z.ltb_spec 0 (txnRows (sp_txn s))); simpl; [by apply wp_fail|].
  apply wp_bind, wp_mod, wp_bind, wp_emitCommit; [done|]. intros s1 Hm. apply wp_mod.
  assert (moved s (set_gtid "" (sp_txn s)) (sp_stmt s) [] s1) as Hm1 by (by destruct Hm).
  eapply wp_onGtid_end; [by rewrite app_nil_r| |by apply HQ].
  destruct Hm1 as [Ht ? ? ? ? ?]. split; try done. simpl. rewrite Ht.
  unfold begun, set_rows, set_ddl, set_rotated, set_skip, set_gtid. simpl.
  by rewrite (bool_decide_eq_false_2 (g = lastCommittedGTID _)), andb_false_r by congruence.
Qed.

(** The copy of a transaction that was read to its end. *)
Lemma wp_onGtid_skip hdr g ts s Q :
  afterRotate (sp_txn s) = true → currentGTID (sp_txn s) = "" → g ≠ "" → lastCommittedGTID (sp_txn s) = g →
  (∀ s', moved s (set_gtid "" (set_skip true (begun g g))) (sp_stmt s) [] s' → Q tt s') →
  wp (onGtid hdr g ts) Q part s.
Proof.
  intros Hr Hg Hne Hl HQ. unfold onGtid. apply wp_bind. unfold beginTxn, emitCommit. apply wp_bind, wp_get.
  rewrite Hr, Hg. simpl. apply wp_bind, wp_ret, wp_bind, wp_bind, wp_get. rewrite Hg. apply wp_ret, wp_mod, wp_bind, wp_get.
  simpl. rewrite Hr, Hl, (bool_decide_eq_false_2 (g = "")), (bool_decide_eq_true_2 (g = g)) by done. simpl.
  apply wp_mod, HQ. split; simpl; try done; [|by rewrite app_nil_r].
  unfold begun, set_gtid, set_rows, set_ddl, set_rotated, set_skip. simpl.
  by rewrite Hr, Hl, bool_decide_eq_true_2.
Qed.

(** ** The events inside a transaction *)

Section run.
Context (Windows1252 : string → string) (EqualFold : string → string → bool) (filters : Filters) (heartbeatPeriod : Z).
Context (onDDL : option (nat → Event → DDLInfo → option Resolver + unit)) (fileHook : bool).

(** What the DDL hook swaps in is [swap], by the statement's place in the log. *)
Definition hook_swaps (swap : Event → option Resolver) : Prop :=
  match onDDL with
  | None => ∀ ev, swap ev = None
  | Some hook => ∀ n f hdr g d v r, hook n (ddl_event f hdr g d v) d = inl r → swap (ddl_event f hdr g d 0) = r
  end.

Definition versioned (v : N) (r : option Resolver) : N :=
  match r with Some r => Z.to_N (rv_snapshotID r mod 2 ^ 32) | None => v end.
Definition resolved (r0 r : option Resolver) : option Resolver := match r with Some r => Some r | None => r0 end.

(** A table DDL is the end of its transaction. *)
Lemma wp_onQuery_ddl swap hdr conn schema q d s Q :
  hook_swaps swap → parseDDL q schema = Some d →
  let ev := ddl_event (currentFile (sp_pos s)) hdr (currentGTID (sp_txn s)) d (schemaVersion (sp_out s)) in
  let r := swap (ddl_event (currentFile (sp_pos s)) hdr (currentGTID (sp_txn s)) d 0) in
  part s →
  (∀ s', sp_txn s' = set_gtid "" (set_ddl (currentGTID (sp_txn s)) (sp_txn s)) →
     sp_stmt s' = set_text "" (set_conn conn (sp_stmt s)) → sp_pos s' = sp_pos s →
     resolver (sp_out s') = resolved (resolver (sp_out s)) r →
     schemaVersion (sp_out s') = versioned (schemaVersion (sp_out s)) r →
     keeps s' = keep (keeps s) ev → Q tt s') →
  wp (onQuery filters onDDL hdr conn schema q) Q part s.
Proof.
  intros Hh Hd ev r Hp HQ. unfold onQuery. apply wp_bind, wp_mod, wp_bind, wp_get. rewrite Hd. simpl. apply wp_bind.
  assert (∀ s1, sp_txn s1 = sp_txn s → sp_stmt s1 = set_text "" (set_conn conn (sp_stmt s)) → sp_pos s1 = sp_pos s →
     resolver (sp_out s1) = resolved (resolver (sp_out s)) r →
     schemaVersion (sp_out s1) = versioned (schemaVersion (sp_out s)) r → sent (sp_out s1) = sent (sp_out s) →
     wp (do! send ev; io_mod (in_txn (λ t, set_gtid "" (set_ddl (currentGTID t) t)))) Q part s1) as Hrest.
  { intros s1 H1 H2 H3 H4 H5 H6. apply wp_bind, wp_send; [done|unfold part, keeps; by rewrite H6|].
    intros t n. apply wp_mod, HQ; simpl; rewrite ?H1; try done.
    unfold keeps. simpl. by rewrite H6, kept_snoc. }
  unfold hook_swaps in Hh. destruct onDDL as [hook|].
  - fold ev. destruct (hook _ ev d) as [[rr|]|] eqn:Hhk; [| |by apply wp_fail].
    + apply Hh in Hhk. apply wp_mod, Hrest; try done; simpl; unfold r; by rewrite Hhk.
    + apply Hh in Hhk. apply wp_ret, Hrest; try done; simpl; unfold r; by rewrite Hhk.
  - apply wp_ret, Hrest; try done; simpl; unfold r; by rewrite Hh.
Qed.

(** Any other statement: the end of a transaction, or nothing. *)
Lemma wp_onQuery_other hdr conn schema q s Q :
  parseDDL q schema = None → part s →
  (∀ s', isTransactionTerminator q && bool_decide (statementDML q = None) = false →
    moved s (sp_txn s) (set_text "" (set_conn conn (sp_stmt s))) [] s' → Q tt s') →
  (∀ s', isTransactionTerminator q && bool_decide (statementDML q = None) = true →
    moved s (if bool_decide (currentGTID (sp_txn s) = "") then sp_txn s
             else set_gtid "" (set_committed (currentGTID (sp_txn s)) (sp_txn s)))
      (set_text "" (set_conn conn (sp_stmt s))) [committed_at (currentFile (sp_pos s)) hdr (currentGTID (sp_txn s))] s' →
    Q tt s') →
  wp (onQuery filters onDDL hdr conn schema q) Q part s.
Proof.
  intros Hd Hp H1 H2. unfold onQuery. apply wp_bind, wp_mod, wp_bind, wp_get. rewrite Hd.
  assert (∀ s', sp_txn s' = sp_txn s → sp_stmt s' = set_text "" (set_conn conn (sp_stmt s)) → sp_pos s' = sp_pos s →
     resolver (sp_out s') = resolver (sp_out s) → schemaVersion (sp_out s') = schemaVersion (sp_out s) →
     sent (sp_out s') = sent (sp_out s) → moved s (sp_txn s) (set_text "" (set_conn conn (sp_stmt s))) [] s') as Hmv.
  { intros s' ? ? ? ? ? Hs. split; try done. unfold keeps. by rewrite Hs, app_nil_r. }
  destruct (statementDML q) as [kw|].
  - rewrite bool_decide_eq_false_2, andb_false_r in H1 by done. unfold when. apply wp_when; intros _.
    + simpl. apply wp_bind, wp_get, wp_mod, H1, Hmv; done.
    + by apply H1, Hmv.
  - rewrite bool_decide_eq_true_2, andb_true_r in H1, H2 by done. unfold when. apply wp_when; intros Ht.
    + apply wp_endTxn; [done|]. intros s' [? ? ? ? ? ?]. by apply H2.
    + by apply H1, Hmv.
Qed.

Lemma wp_onXid hdr s Q :
  ddlTxnGTID (sp_txn s) = "" ∨ currentGTID (sp_txn s) ≠ "" → part s →
  (∀ s', moved s (if bool_decide (currentGTID (sp_txn s) = "") then sp_txn s
             else set_gtid "" (set_committed (currentGTID (sp_txn s)) (sp_txn s))) (set_text "" (sp_stmt s))
      [committed_at (currentFile (sp_pos s)) hdr (currentGTID (sp_txn s))] s' → Q tt s') →
  wp (onXid hdr) Q part s.
Proof.
  intros Hd Hp HQ. unfold onXid. apply wp_bind, wp_mod, wp_bind, wp_mod. simpl.
  assert (bool_decide (currentGTID (sp_txn s) = "") && negb (bool_decide (ddlTxnGTID (sp_txn s) = "")) = false) as E
    by (repeat case_bool_decide; naive_solver).
  apply wp_endTxn; [done|]. intros s'. unfold in_txn. simpl. rewrite E. intros [? ? ? ? ? ?]. by apply HQ.
Qed.

(** A row event: the rows the log has, or a part of them on an error. *)
Lemma wp_onRows hdr ev s Q :
  let c := row_context filters s in
  let rows := (handleRows Windows1252 EqualFold (no_conn c) hdr ev []).2 in
  keeps s ++ rows `prefix_of` all →
  (∀ s', moved s (set_rows (txnRows (sp_txn s) + Z.of_nat (length rows)) (sp_txn s))
      (if re_StmtEnd ev then set_text "" (sp_stmt s) else sp_stmt s) rows s' → Q tt s') →
  wp (onRows Windows1252 EqualFold filters hdr ev) Q part s.
Proof.
  intros c rows Hp HQ. unfold onRows. apply wp_bind, wp_get. unfold wp, io_bind, io_try. fold c.
  destruct (handleRows_sends_as Windows1252 EqualFold c hdr ev s) as (l & Ha & Hpre & Hl). fold rows in Hpre, Hl.
  destruct (handleRows _ _ c hdr ev s) as [r s'] eqn:E. simpl in Ha, Hl.
  assert (keeps s' = keeps s ++ l) as Hk by apply Ha.
  assert (keeps s' `prefix_of` all) as Hpart.
  { rewrite Hk. etrans; [|exact Hp]. by apply prefix_app. }
  destruct r as [[]|e]; simpl.
  - specialize (Hl eq_refl). subst l. destruct Ha.
    destruct (re_StmtEnd ev); simpl; apply HQ; split; simpl; congruence || done.
  - by destruct (re_StmtEnd ev).
Qed.

(** ** A packet *)

(** [s1] is [s] with the corrector [c], as far as what is sent goes. *)
Record seen (s : sp) (c : fillCorrector) (s1 : sp) : Prop := {
  sn_txn : sp_txn s1 = sp_txn s;
  sn_stmt : sp_stmt s1 = sp_stmt s;
  sn_file : currentFile (sp_pos s1) = currentFile (sp_pos s);
  sn_corr : fillCorr (sp_pos s1) = c;
  sn_resolver : resolver (sp_out s1) = resolver (sp_out s);
  sn_version : schemaVersion (sp_out s1) = schemaVersion (sp_out s);
  sn_kept : keeps s1 = keeps s;
}.

Definition plain (body : Body) : bool :=
  match body with Heartbeat _ _ _ | TransactionPayload _ => false | _ => true end.

Lemma wp_guardPosition hdr body s Q :
  part s → (∀ s1, seen s (fillCorr (sp_pos s)) s1 → Q tt s1) → wp (guardPosition fileHook hdr body) Q part s.
Proof.
  intros Hp HQ. unfold guardPosition, when. apply wp_bind, wp_get.
  destruct body; repeat case_match; first [apply wp_fail; done|apply wp_mod, HQ|apply wp_ret, HQ]; by split.
Qed.

Lemma wp_handleEvent hdr body s Q :
  plain body = true → part s →
  (∀ s1, seen s (Observe hdr body (fillCorr (sp_pos s))).1 s1 →
    wp (skip ←! skipped body;
        if skip : bool then io_ret tt else on_body Windows1252 EqualFold filters onDDL (at_pos (Observe hdr body (fillCorr (sp_pos s))).2 hdr) body) Q part s1) →
  wp (handleEvent Windows1252 EqualFold filters heartbeatPeriod onDDL fileHook hdr body) Q part s.
Proof.
  intros Hb Hp HQ.
  assert (wp (do! io_mod (in_hb (λ hb, {| hbFile := hbFile hb; hbPos := hbPos hb; hbIdle := false; waited := waited hb;
                                  prevReadAt := prevReadAt hb; readAt := readAt hb |}));
    s ←! io_get;
    let '(c, pos) := Observe hdr body (fillCorr (sp_pos s)) in
    do! io_mod (in_pos (set_corr c));
    do! guardPosition fileHook (at_pos pos hdr) body;
    skip ←! skipped body;
    if skip : bool then io_ret tt else on_body Windows1252 EqualFold filters onDDL (at_pos pos hdr) body) Q part s) as H.
  { apply wp_bind, wp_mod, wp_bind, wp_get. simpl. destruct (Observe hdr body _) as [c pos]. simpl in HQ.
    apply wp_bind, wp_mod, wp_bind, wp_guardPosition; [done|].
    intros s1 [? ? ? ? ? ? ?]. apply HQ. by split. }
  destruct body; try discriminate Hb; exact H.
Qed.

(** A heartbeat reports that the source is idle, or nothing. *)
Lemma wp_heartbeat v2 f o hdr s Q :
  part s → (∀ s1, seen s (fillCorr (sp_pos s)) s1 → Q tt s1) → wp (onHeartbeat heartbeatPeriod v2 f o hdr) Q part s.
Proof.
  intros Hp HQ. unfold onHeartbeat. apply wp_bind, wp_get, wp_bind, wp_mod.
  destruct (_ || _); [apply wp_ret, HQ; by split|]. apply wp_send_at; [done..|].
  intros n. apply HQ. split; try done. unfold keeps. simpl. by rewrite kept_snoc, keep_silent.
Qed.

Lemma seen_deliver p s : p_swap p = None → seen s (fillCorr (sp_pos s)) (deliver p s).
Proof. intros Hs. unfold deliver. rewrite Hs. by split. Qed.

Lemma seen_trans s c s1 c' s2 : seen s c s1 → seen s1 c' s2 → seen s c' s2.
Proof. intros [? ? ? ? ? ? ?] [? ? ? ? ? ? ?]. split; congruence. Qed.

End run.
End txn.
