(* ===== verification/LogRead.v ===== *)
(** * Reading a log part by part

    What the reference reads up to an event of a group, what each kind of event
    adds, and what the shape of a group leaves to come. *)
From S2P Require Import Prelude GoStrings GoText GoTime GoVal GoIO Event TxnBatch DdlText MapRow Skips RowEvents Stream StreamLog StreamRows StreamTxn.

Open Scope Z_scope.

#[local] Opaque parseDDL statementDML isTransactionTerminator formatGTID SanitizeQueryText.

Lemma Forall_snoc_1 {A} (P : A → Prop) l x : Forall P (l ++ [x]) → Forall P l ∧ P x.
Proof. intros [Hl Hx]%Forall_app. split; [done|]. by apply Forall_singleton. Qed.

(** ** The reference over a split log *)

Section reads.
Context (Windows1252 : string → string) (EqualFold : string → string → bool) (filters : Filters).
Context (swap : Event → option Resolver) (R : option Resolver).

Local Abbreviation revent := (read_event Windows1252 EqualFold filters swap).
Local Abbreviation revents := (read_events Windows1252 EqualFold filters swap).
Local Abbreviation rlog := (read_log Windows1252 EqualFold filters swap).

(** The log up to the events [a] of the group [g]. *)
Definition upto (done : list group) (g : group) (a : list wevent) : reading * list Event :=
  read_phase Windows1252 EqualFold filters swap (Inside done g a [] []) (unread R).

Lemma read_events_snoc f a e rd :
  revents f (a ++ [e]) rd =
  ((revent f e (revents f a rd).1).1, (revents f a rd).2 ++ (revent f e (revents f a rd).1).2).
Proof.
  revert rd. induction a as [|x a IH]; intros rd; simpl.
  - destruct (revent f e rd) as [rd' out]. by rewrite app_nil_r.
  - destruct (revent f x rd) as [rd' out]. rewrite IH. destruct (revents f a rd') as [rd'' out']. simpl.
    by rewrite app_assoc.
Qed.

Lemma read_log_snoc done g rd :
  rlog (done ++ [g]) rd =
  ((revents (gr_file g) (gr_events g) (rlog done rd).1).1,
   (rlog done rd).2 ++ (revents (gr_file g) (gr_events g) (rlog done rd).1).2).
Proof.
  revert rd. induction done as [|h done IH]; intros rd; simpl.
  - destruct (revents _ _ rd) as [rd' out]. by rewrite app_nil_r.
  - destruct (revents _ _ rd) as [rd' out]. rewrite IH. destruct (rlog done rd') as [rd'' out']. simpl.
    by rewrite app_assoc.
Qed.

Lemma upto_snoc done g a e :
  upto done g (a ++ [e]) =
  ((revent (gr_file g) e (upto done g a).1).1, (upto done g a).2 ++ (revent (gr_file g) e (upto done g a).1).2).
Proof.
  unfold upto. simpl. destruct (rlog done (unread R)) as [rd out]. rewrite read_events_snoc.
  destruct (revents _ a rd) as [rd' out']. simpl. by rewrite app_assoc.
Qed.

Lemma upto_nil done g : upto done g [] = rlog done (unread R).
Proof. unfold upto. simpl. destruct (rlog done (unread R)) as [rd out]. by rewrite app_nil_r. Qed.

Lemma upto_all done g : upto done g (gr_events g) = rlog (done ++ [g]) (unread R).
Proof.
  unfold upto. simpl. rewrite read_log_snoc. destruct (rlog done (unread R)) as [rd out]. simpl. by destruct (revents _ _ rd).
Qed.

(** What is read of a log is a part of what is read of more of it. *)
Lemma read_log_prefix done rest rd : (rlog done rd).2 `prefix_of` (rlog (done ++ rest) rd).2.
Proof.
  induction rest as [|g rest IH] using rev_ind; [by rewrite app_nil_r|].
  rewrite app_assoc, read_log_snoc. simpl. by apply prefix_app_r.
Qed.

Lemma read_events_prefix f a b rd : (revents f a rd).2 `prefix_of` (revents f (a ++ b) rd).2.
Proof.
  induction b as [|e b IH] using rev_ind; [by rewrite app_nil_r|].
  rewrite app_assoc, read_events_snoc. simpl. by apply prefix_app_r.
Qed.

Lemma upto_prefix done g a b rest :
  gr_events g = a ++ b → (upto done g a).2 `prefix_of` (rlog (done ++ g :: rest) (unread R)).2.
Proof.
  intros Hg. trans (upto done g (gr_events g)).2.
  - unfold upto. simpl. destruct (rlog done (unread R)) as [rd out].
    pose proof (read_events_prefix (gr_file g) a b rd) as Hp. rewrite <-Hg in Hp.
    destruct (revents _ a rd), (revents _ (gr_events g) rd). by apply prefix_app.
  - rewrite upto_all. replace (done ++ g :: rest) with ((done ++ [g]) ++ rest) by (by rewrite <-app_assoc).
    apply read_log_prefix.
Qed.

(** An event that says something about the statement, or nothing. *)
Lemma revent_says f e rd :
  says e → ∃ text, revent f e rd = (say text rd, []).
Proof.
  unfold says, role_of. destruct e as [hdr body], body; simpl; try done; try eauto.
  - destruct (parseDDL _ _); [done|]. destruct (statementDML _); [by eauto|]. destruct (isTransactionTerminator _); [done|by eauto].
  - case_bool_decide; [done|]. intros _. exists (rd_text rd). by destruct rd.
Qed.

Lemma says_changes e : says_or_changes e → says e ∨ ∃ ev, e.2 = Rows ev.
Proof.
  intros [H|H]; [by left|]. right. destruct e as [hdr body], body; unfold role_of in H; simpl in *; try done; [|by eauto|].
  - destruct (parseDDL _ _); [done|]. destruct (statementDML _); [done|]. by destruct (isTransactionTerminator _).
  - by case_bool_decide.
Qed.

(** The rows of an event are rows. *)
Lemma rows_are_rows f rd hdr ev e : e ∈ rows_of_event Windows1252 EqualFold filters f rd hdr ev → is_rowEvent e = true.
Proof.
  assert (∀ {A} (of_row : A → option Event) rows attr name odd,
    (∀ row e, of_row row = Some e → is_rowEvent e = true) →
    e ∈ (conclude attr name (emit_rows of_row rows 0) odd ([] : list Event)).2 → is_rowEvent e = true) as Hc.
  { intros A of_row rows attr name odd Hr. rewrite conclude_list, list_elem_of_omap. naive_solver. }
  unfold rows_of_event, handleRows. cbn [rc_filters rc_resolver rc_file].
  destruct (negb (Matches filters _ _)); [by intros ?%elem_of_nil|].
  destruct (rd_resolver rd) as [r|]; [|by intros ?%elem_of_nil].
  destruct (Resolve r _ _) as [tm|]; [|by unfold when; simpl; repeat case_match; intros ?%elem_of_nil].
  destruct (negb (re_ColumnCount ev =? _)%nat); [by unfold when; simpl; repeat case_match; intros ?%elem_of_nil|].
  destruct (if _ && _ then first_drift _ _ _ else None); [by intros ?%elem_of_nil|].
  destruct (firstPartialImage _); [by intros ?%elem_of_nil|].
  destruct (h_LogPos hdr <? h_EventSize hdr)%N; [by intros ?%elem_of_nil|].
  destruct (h_EventType hdr); [..|by intros ?%elem_of_nil|by intros ?%elem_of_nil|by intros ?%elem_of_nil].
  - apply Hc. intros row x. destruct (MapRow _ _ _ _ row); [|done]. intros [= <-]. by apply is_row_event; auto.
  - apply Hc. intros row x. destruct (MapRow _ _ _ _ row.1); [|done]. simpl. destruct (MapRow _ _ _ _ row.2); [|done].
    intros [= <-]. by apply is_row_event; auto.
  - apply Hc. intros row x. destruct (MapRow _ _ _ _ row); [|done]. intros [= <-]. by apply is_row_event; auto.
Qed.

(** What an event inside a transaction leaves of the reading. *)
Lemma revent_inside f e rd :
  says_or_changes e →
  let rd' := (revent f e rd).1 in
  rd_gtid rd' = rd_gtid rd ∧ rd_commitTs rd' = rd_commitTs rd ∧ rd_resolver rd' = rd_resolver rd ∧
  rd_version rd' = rd_version rd ∧ ∀ ev, ev ∈ (revent f e rd).2 → is_rowEvent ev = true.
Proof.
  intros [Hs|[ev He]]%says_changes; simpl.
  - destruct (revent_says f e rd Hs) as [text ->]. split_and!; try done. by intros ev ?%elem_of_nil.
  - destruct e as [hdr body]. simpl in He. subst body. simpl.
    split_and!; try by destruct (re_StmtEnd ev). apply rows_are_rows.
Qed.

(** The start of a transaction. *)
Definition begin_ts (body : Body) : N := match body with Gtid _ _ ts => ts | _ => 0 end.

Lemma role_begins e g :
  role_of e = Begins g →
  (∃ sid gno ts, e.2 = Gtid sid gno ts ∧ formatGTID (h_EventType e.1) sid gno = g) ∨ e.2 = MariadbGtid g.
Proof.
  destruct e as [hdr body], body; unfold role_of; simpl; intros Hf; try done.
  - injection Hf as <-. left. by eexists _, _, _.
  - injection Hf as <-. by right.
  - destruct (parseDDL _ _); [done|]. destruct (statementDML _); [done|]. by destruct (isTransactionTerminator _).
  - by case_bool_decide.
Qed.

Lemma revent_begins f e g rd : role_of e = Begins g → revent f e rd = begin_ f e.1 g (begin_ts e.2) rd.
Proof.
  destruct e as [hdr body]. intros [(sid & gno & ts & Hb & Hg)|Hb]%role_begins; simpl in *; subst body; [|done].
  simpl. by rewrite Hg.
Qed.

Lemma upto_begin done g first :
  role_of first = Begins (gr_gtid g) →
  upto done g [first] =
    ((begin_ (gr_file g) first.1 (gr_gtid g) (begin_ts first.2) (rlog done (unread R)).1).1,
     (rlog done (unread R)).2 ++ (begin_ (gr_file g) first.1 (gr_gtid g) (begin_ts first.2) (rlog done (unread R)).1).2).
Proof.
  intros Hf. change [first] with ([] ++ [first]). rewrite upto_snoc, upto_nil. by rewrite (revent_begins _ _ (gr_gtid g)).
Qed.

Lemma upto_open done g first a :
  role_of first = Begins (gr_gtid g) → Forall says_or_changes a →
  rd_gtid (upto done g (first :: a)).1 = gr_gtid g ∧
  ∀ ev, ev ∈ (upto done g (first :: a)).2 → ev ∈ (rlog done (unread R)).2 ∨ ev_EventType ev ≠ EventDDL.
Proof.
  intros Hf Ha. induction a as [|e a IH] using rev_ind.
  - rewrite upto_begin by done. split; [done|]. simpl. intros ev [?|Hev]%elem_of_app; [by left|].
    right. case_bool_decide; [by apply elem_of_nil in Hev|]. by apply list_elem_of_singleton in Hev as ->.
  - apply Forall_snoc_1 in Ha as [Ha He]. rewrite app_comm_cons, upto_snoc. simpl.
    destruct (IH Ha) as [Hg Hd].
    destruct (revent_inside (gr_file g) e (upto done g (first :: a)).1 He) as (-> & _ & _ & _ & Hrows).
    split; [done|]. intros ev [?|Hev]%elem_of_app; [by apply Hd|]. right. by apply is_row_change, Hrows.
Qed.

(** Inside a transaction the snapshot stays. *)
Lemma upto_snapshot done g first a :
  Forall says_or_changes a →
  rd_resolver (upto done g (first :: a)).1 = rd_resolver (upto done g [first]).1 ∧
  rd_version (upto done g (first :: a)).1 = rd_version (upto done g [first]).1.
Proof.
  intros Ha. induction a as [|e a IH] using rev_ind; [done|].
  apply Forall_snoc_1 in Ha as [Ha He]. rewrite app_comm_cons, upto_snoc. simpl.
  destruct (revent_inside (gr_file g) e (upto done g (first :: a)).1 He) as (_ & _ & -> & -> & _). by apply IH.
Qed.

(** An end of a transaction, and a table DDL. *)
Lemma revent_ends f e rd :
  role_of e = Ends → revent f e rd = finish f e.1 rd.
Proof.
  destruct e as [hdr body], body; unfold role_of; simpl; intros Hf; try done.
  - destruct (parseDDL _ _); [done|]. destruct (statementDML _); [done|]. by destruct (isTransactionTerminator _).
  - by case_bool_decide.
Qed.

Lemma role_ddl e :
  role_of e = Defines → ∃ conn schema q d, e.2 = Query conn schema q ∧ parseDDL q schema = Some d.
Proof.
  destruct e as [hdr body], body; unfold role_of; simpl; intros Hf; try done.
  - destruct (parseDDL _ _) as [d|] eqn:Hd; [by eexists _, _, _, d|].
    destruct (statementDML _); [done|]. by destruct (isTransactionTerminator _).
  - by case_bool_decide.
Qed.

(** ** The shape of a group *)

Lemma shape_says_or_changes mid : Forall says mid → Forall says_or_changes mid.
Proof. intros H. eapply Forall_impl; [exact H|]. by left. Qed.

(** The event after a part of a group that did not end it. *)
Lemma shape_next a e b :
  shape (a ++ e :: b) →
  (says_or_changes e ∧ Forall says_or_changes a) ∨
  (role_of e = Ends ∧ b = [] ∧ Forall says_or_changes a) ∨ (role_of e = Defines ∧ b = [] ∧ Forall says a).
Proof.
  intros Hs. inversion Hs as [mid last Hm Hl E|mid last Hm Hl E|mid Hm E]; clear Hs.
  - destruct b as [|b0 b _] using rev_ind.
    + apply app_inj_tail in E as [-> ->]. naive_solver.
    + rewrite app_comm_cons, app_assoc in E. apply app_inj_tail in E as [-> ->].
      apply Forall_app in Hm as [Ha Hm]. inversion Hm; subst. naive_solver.
  - destruct b as [|b0 b _] using rev_ind.
    + apply app_inj_tail in E as [-> ->]. naive_solver.
    + rewrite app_comm_cons, app_assoc in E. apply app_inj_tail in E as [-> ->].
      apply shape_says_or_changes, Forall_app in Hm as [Ha Hm]. inversion Hm; subst. naive_solver.
  - subst mid. apply shape_says_or_changes, Forall_app in Hm as [Ha Hm]. inversion Hm; subst. naive_solver.
Qed.

(** The DDLs read of a log carry the GTIDs of its groups. *)
Lemma group_ddls done g :
  group_ok g → ∀ ev, ev ∈ (upto done g (gr_events g)).2 → ev_EventType ev = EventDDL →
  ev ∈ (rlog done (unread R)).2 ∨ ev_GTID ev = gr_gtid g.
Proof.
  intros (first & rest & Hg & Hf & Hs) ev. rewrite Hg.
  assert (∀ a, Forall says_or_changes a → ev ∈ (upto done g (first :: a)).2 → ev_EventType ev = EventDDL →
    ev ∈ (rlog done (unread R)).2 ∨ ev_GTID ev = gr_gtid g) as Hopen.
  { intros a Ha Hev Hd. destruct (upto_open done g first a Hf Ha) as [_ H]. destruct (H ev Hev); [by left|done]. }
  inversion Hs as [mid last Hm Hl E|mid last Hm Hl E|mid Hm E]; subst rest.
  - rewrite app_comm_cons, upto_snoc. simpl. rewrite revent_ends by done. simpl.
    intros [Hev|Hev]%elem_of_app Hd; [by apply (Hopen mid)|]. by apply list_elem_of_singleton in Hev as ->.
  - rewrite app_comm_cons, upto_snoc. simpl. apply shape_says_or_changes in Hm.
    intros [Hev|Hev]%elem_of_app Hd; [by apply (Hopen mid)|]. right.
    destruct (role_ddl _ Hl) as (conn & schema & q & d & Hb & Hd'). destruct last as [hdr body]. simpl in Hb. subst body.
    simpl in Hev. rewrite Hd' in Hev. simpl in Hev. apply list_elem_of_singleton in Hev as ->. simpl.
    by apply upto_open.
  - apply Hopen. by apply shape_says_or_changes.
Qed.

Lemma log_ddls done ev :
  Forall group_ok done → ev ∈ (rlog done (unread R)).2 → ev_EventType ev = EventDDL → ∃ g, g ∈ done ∧ ev_GTID ev = gr_gtid g.
Proof.
  intros Hok. induction done as [|g done IH] using rev_ind; [by intros ?%elem_of_nil|].
  apply Forall_snoc_1 in Hok as [Hd Hg]. rewrite <-upto_all. intros Hev Ht.
  destruct (group_ddls done g Hg ev Hev Ht) as [H|H]; [|exists g; set_solver].
  destruct (IH Hd H Ht) as (h & Hh & E). exists h. set_solver.
Qed.

Lemma distinct_before done g rest h :
  gtids_distinct (done ++ g :: rest) → h ∈ done → gr_gtid h = gr_gtid g → gr_gtid g = "".
Proof.
  intros Hdist [i Hi]%list_elem_of_lookup E. destruct (decide (gr_gtid g = "")) as [|Hne]; [done|exfalso].
  pose proof (lookup_lt_Some _ _ _ Hi). enough (i = length done) by lia.
  apply (Hdist i (length done) h g); [by rewrite lookup_app_l|by apply list_lookup_middle|done|congruence].
Qed.

(** A DDL of a group in flight is no copy of one sent before. *)
Lemma first_ddl done g rest first a ev l :
  log_ok (done ++ g :: rest) → role_of first = Begins (gr_gtid g) → Forall says_or_changes a →
  l = (upto done g (first :: a)).2 → ev_GTID ev = gr_gtid g → again l ev = false.
Proof.
  intros [Hok Hdist] Hf Ha -> Hg. unfold again. destruct (last _) as [e|] eqn:Hl; [|done].
  apply last_Some_elem_of in Hl. destruct (upto_open done g first a Hf Ha) as [_ Hd].
  destruct (ev_EventType ev =? EventDDL)%N; [simpl|done].
  destruct (ev_EventType e =? EventDDL)%N eqn:He; [simpl|done]. apply N.eqb_eq in He.
  destruct (Hd e Hl) as [Hin|?]; [|done]. apply Forall_app in Hok as [Hok _].
  destruct (log_ddls done e Hok Hin He) as (h & Hh & E). rewrite Hg, E.
  case_bool_decide as Heq; [|done]. rewrite (distinct_before done g rest h Hdist Hh Heq). done.
Qed.
End reads.
