(* ===== verification/StreamOnce.v ===== *)
(** * Every change of the log reaches capture once

    The stream parser against the log alone: over reconnects and re-sent
    transactions, what it sends is a prefix of what the log says, and all of
    what was delivered when no packet failed. Its fields are followed group by
    group: it reads one, has passed it and waits for the copy of it to go by, or
    reads a table DDL again. *)
From S2P Require Import Prelude GoStrings GoText GoTime GoVal GoIO Event TxnBatch DdlText MapRow Skips RowEvents Stream StreamLog StreamRows StreamTxn LogRead.

Open Scope Z_scope.

#[local] Opaque parseDDL statementDML isTransactionTerminator formatGTID SanitizeQueryText.

Section once.
Context (Windows1252 : string → string) (EqualFold : string → string → bool) (filters : Filters) (heartbeatPeriod : Z).
Context (onDDL : option (nat → Event → DDLInfo → option Resolver + unit)) (fileHook : bool).
Context (swap : Event → option Resolver) (byGtid : bool) (log : list group) (R : option Resolver).

Local Abbreviation upto := (upto Windows1252 EqualFold filters swap R).
Local Abbreviation rlog := (read_log Windows1252 EqualFold filters swap).
Local Abbreviation revent := (read_event Windows1252 EqualFold filters swap).
Local Abbreviation handle := (handleEvent Windows1252 EqualFold filters heartbeatPeriod onDDL fileHook).
Local Abbreviation onbody := (on_body Windows1252 EqualFold filters onDDL).

(** ** Where the parser is *)

















Hypothesis Hlog : log_ok log.
Hypothesis Hhook : hook_swaps onDDL swap.








(** ** Inside a group *)














(** ** A packet *)











End once.

