(* ===== verification/StreamCases.v ===== *)
(** * Runs of the stream parser on concrete wires

    A connection lost between transactions, after a commit and after a table
    DDL; one lost in the rows of a transaction, where the run stops; and one
    lost in the rows of a CREATE TABLE ... SELECT, where it does not. *)
From S2P Require Import Prelude GoStrings GoText GoTime GoVal GoIO Event TxnBatch DdlText MapRow Skips RowEvents Stream StreamLog StreamRows StreamTxn LogRead StreamOnce.

Open Scope Z_scope.

(** A snapshot with one table, [shop.orders], and its row events. *)
Definition orders_id : ColumnMeta := {|
  Name := "id"; OrdinalPosition := 1; IsPK := true; DataType := "int"; ColumnType := "int"; IsGenerated := false;
  CharacterSet := ""; IsNullable := "NO"; IsIdentityAlways := false |}.

Definition shop : Resolver := {|
  rv_snapshotID := 3; rv_snapshotTime := 0;
  rv_tables := {[ "shop.orders" := {| tm_Schema := "shop"; tm_Table := "orders"; Columns := [orders_id]; PKColumns := ["id"] |} ]};
  rv_excluded := ∅ |}.

Definition hdr_at (type : evType) (ts pos : N) : EventHeader := {|
  h_Timestamp := ts; h_EventType := type; h_ServerID := 1; h_EventSize := 40; h_LogPos := pos; h_Artificial := false |}.

Definition inserted (pos : N) (ids : list Z) : wevent :=
  (hdr_at WriteRows 1000 pos,
   Rows {| re_Schema := "shop"; re_Table := "orders"; re_ColumnCount := 1; re_ColumnNames := []; re_Rows := (λ id, [VInt id]) <$> ids;
           re_SkippedColumns := []; re_StmtEnd := true |}).

Definition gtid_at (pos : N) (g : string) : wevent := (hdr_at OtherType 1000 pos, MariadbGtid g).
Definition said (pos : N) (q : string) : wevent := (hdr_at OtherType 1000 pos, Query 7 "shop" q).
Definition xid_at (pos : N) : wevent := (hdr_at OtherType 1000 pos, Xid).

Definition packet_of (e : wevent) : packet := {| p_asked := 0; p_read := 5; p_swap := None; p_hdr := e.1; p_body := e.2 |}.

(** What a client is told when it connects. *)
Definition connected : wevent :=
  ({| h_Timestamp := 0; h_EventType := OtherType; h_ServerID := 1; h_EventSize := 0; h_LogPos := 0; h_Artificial := true |},
   Rotate "binlog.1" 4).


(** The connection is lost after the first commit, after the DDL, and before the
    last row: each time the last transaction comes again. *)
Definition orders_wire : list packet := packet_of <$> [
  connected; gtid_at 100 "0-1-1"; said 140 "BEGIN"; inserted 180 [1; 2]; xid_at 220;
  connected; gtid_at 100 "0-1-1"; said 140 "BEGIN"; inserted 180 [1; 2]; xid_at 220; gtid_at 260 "0-1-2"; said 300 "DROP TABLE old";
  connected; gtid_at 260 "0-1-2"; said 300 "DROP TABLE old"; gtid_at 340 "0-1-3"; said 380 "BEGIN";
  connected; gtid_at 340 "0-1-3"; said 380 "BEGIN"; inserted 420 [3]; xid_at 460 ].

Definition accept_all : Filters := {| Schemas := None; Tables := None |}.

Definition run_orders (wire : list packet) : option PErr * sp :=
  Run (λ s, s) String.eqb accept_all 0 None false wire true (NewStreamParser (Some shop) None).


Example orders_sent : (λ e, (ev_EventType e, ev_PKValues e)) <$> kept (sent (sp_out (run_orders orders_wire).2)) =
  [(EventInsert, "1"); (EventInsert, "2"); (EventCommit, ""); (EventDDL, ""); (EventInsert, "3"); (EventCommit, "")].
Proof. vm_compute. reflexivity. Qed.







(** A connection lost after the first of a transaction's row events. *)
Definition cut_wire (first : string) : list packet := packet_of <$> [
  connected; gtid_at 100 "0-1-1"; said 140 first; inserted 180 [1];
  connected; gtid_at 100 "0-1-1"; said 140 first; inserted 180 [1]; inserted 220 [2]; xid_at 260 ].

Definition rows_sent (s : sp) : list string := ev_PKValues <$> filter (λ e, is_rowEvent e) (sent (sp_out s)).

(** The stream stops at the copy of a transaction it sent rows of. The rows of a
    CREATE TABLE ... SELECT follow a table DDL, whose event took the GTID out of
    flight: the copy is not recognised, and its rows are sent again. *)
Theorem ctas_cut_sent_twice :
  (let run := run_orders (cut_wire "BEGIN") in run.1 = Some (ResentCut "0-1-1" 1) ∧ rows_sent run.2 = ["1"]) ∧
  (let run := run_orders (cut_wire "CREATE TABLE orders SELECT id FROM carts") in
   run.1 = Some ReplicationFailed ∧ rows_sent run.2 = ["1"; "1"; "2"]).
Proof. vm_compute. done. Qed.
