(* ===== verification/BinlogFile.v ===== *)
(** * A binlog file read from disk ([ParseFile] of [internal/parser/parser.go])

    The file reader shares [handleRows] with the stream. It keeps what it had to
    leave out, and the file fails for it: [schemaGapTracker] is its record and
    the verdict its error. The texts of the errors are left out. *)
From S2P Require Import Prelude GoStrings GoText GoTime GoVal GoIO Event TxnBatch DdlText MapRow Skips RowEvents Stream.

Open Scope Z_scope.

(** ** What was left out *)

(** [fileDrop]. *)
Record fileDrop := { fd_changes : Z; fd_names : list string; fd_truncated : bool }.

(** [schemaGapTracker]; the detail of the first gap is left out. *)
Record schemaGapTracker := { gt_count : nat; gt_drops : gmap string fileDrop }.

Definition noGaps : schemaGapTracker := {| gt_count := 0%nat; gt_drops := ∅ |}.

(** [record]. *)
Definition record_gap (t : schemaGapTracker) : schemaGapTracker :=
  {| gt_count := S (gt_count t); gt_drops := gt_drops t |}.

(** [recordDrop]. *)
Definition recordDrop (reason : string) (changes : Z) (name : string) (t : schemaGapTracker) : schemaGapTracker :=
  let d := default {| fd_changes := 0; fd_names := []; fd_truncated := false |} (gt_drops t !! reason) in
  let d := {| fd_changes := fd_changes d + changes; fd_names := fd_names d; fd_truncated := fd_truncated d |} in
  let d :=
    if bool_decide (name = "") || bool_decide (name ∈ fd_names d) then d
    else if (MaxLedgerTables <=? length (fd_names d))%nat
    then {| fd_changes := fd_changes d; fd_names := fd_names d; fd_truncated := true |}
    else {| fd_changes := fd_changes d; fd_names := fd_names d ++ [name]; fd_truncated := fd_truncated d |} in
  {| gt_count := gt_count t; gt_drops := <[reason := d]> (gt_drops t) |}.

Definition dropOrder : list string :=
  [SkipStatementFormatDML; SkipUnhandledRowEvent; SkipRowMapFailed; SkipUnpairedUpdateImage; SkipNoResolver].

(** The errors of a file: [SchemaGapError] and [DroppedChangesError] with its
    telemetry class, and those of the reading. *)
Inductive FileErr := SchemaGap (count : nat) | DroppedChanges (class : string) | ReadErr (e : PErr).

(** [dropsClass]. *)
Definition dropsClass (t : schemaGapTracker) : string :=
  match head (filter (λ reason, is_Some (gt_drops t !! reason)) dropOrder) with
  | Some reason =>
      if bool_decide (reason = SkipNoResolver) then "schema_mismatch"
      else if bool_decide (reason = SkipUnpairedUpdateImage) then "internal" else "config_invalid"
  | None => "internal"
  end.

(** [schemaGapTracker.err]. *)
Definition gap_err (t : schemaGapTracker) : option FileErr :=
  if (gt_count t =? 0)%nat then
    if bool_decide (gt_drops t = ∅) then None else Some (DroppedChanges (dropsClass t))
  else Some (SchemaGap (gt_count t)).

(** ** The reader *)

(** The local variables of [ParseFile], its tracker, and what surrounds it. *)
Record fp := {
  fp_gtid : string;
  fp_conn : N;
  fp_commitTs : N;
  fp_text : string;
  fp_lastEnd : N;
  fp_gaps : schemaGapTracker;
  fp_now : Z;
  fp_out : outState;
}.

Definition with_txn (gtid : string) (ts : N) (s : fp) : fp := {|
  fp_gtid := gtid; fp_conn := fp_conn s; fp_commitTs := ts; fp_text := ""; fp_lastEnd := fp_lastEnd s; fp_gaps := fp_gaps s;
  fp_now := fp_now s; fp_out := fp_out s |}.
Definition with_text (conn : N) (text : string) (s : fp) : fp := {|
  fp_gtid := fp_gtid s; fp_conn := conn; fp_commitTs := fp_commitTs s; fp_text := text; fp_lastEnd := fp_lastEnd s;
  fp_gaps := fp_gaps s; fp_now := fp_now s; fp_out := fp_out s |}.
Definition with_end (pos : N) (s : fp) : fp := {|
  fp_gtid := fp_gtid s; fp_conn := fp_conn s; fp_commitTs := fp_commitTs s; fp_text := fp_text s; fp_lastEnd := pos;
  fp_gaps := fp_gaps s; fp_now := fp_now s; fp_out := fp_out s |}.
Definition with_gaps (f : schemaGapTracker → schemaGapTracker) (s : fp) : fp := {|
  fp_gtid := fp_gtid s; fp_conn := fp_conn s; fp_commitTs := fp_commitTs s; fp_text := fp_text s; fp_lastEnd := fp_lastEnd s;
  fp_gaps := f (fp_gaps s); fp_now := fp_now s; fp_out := fp_out s |}.
Definition with_out (f : outState → outState) (s : fp) : fp := {|
  fp_gtid := fp_gtid s; fp_conn := fp_conn s; fp_commitTs := fp_commitTs s; fp_text := fp_text s; fp_lastEnd := fp_lastEnd s;
  fp_gaps := fp_gaps s; fp_now := fp_now s; fp_out := f (fp_out s) |}.

Abbreviation FP := (io fp PErr).

(** The file path never stamps a read time. *)
Definition send_file (ev : Event) : FP unit :=
  s ←! io_get;
  match takes (fp_out s) with
  | Some O => io_fail Cancelled
  | n => io_mod (with_out (set_sent (sent (fp_out s) ++ [stamped 0 ev]) (pred <$> n)))
  end.

#[export] Instance file_sink : Sink fp := {|
  sk_send := send_file;
  sk_skip := λ reason attr, s ←! io_get;
    io_mod (with_out (set_skips (RecordSkipAttributed reason attr (fp_now s) (skips (fp_out s)))));
  sk_captured := s ←! io_get; io_mod (with_out (set_skips (RecordCaptured (skips (fp_out s)))));
  sk_tracked := true;
  sk_gap := io_mod (with_gaps record_gap);
  sk_drop := λ reason changes name, io_mod (with_gaps (recordDrop reason changes name)) |}.

Section file.
Context (Windows1252 : string → string) (EqualFold : string → string → bool) (filters : Filters) (filename : string).

(** [recordStatementDML]. *)
Definition recordStatementDML (pos : N) (schema kw : string) (conn : N) : FP unit :=
  if negb (statementDMLInScope schema filters) then io_ret tt
  else
    do! sk_skip SkipStatementFormatDML {|
      sa_File := filename; sa_Pos := pos; sa_StatementType := kw; sa_ConnectionID := conn; sa_Schema := ""; sa_Table := "";
      sa_Detail := "" |};
    sk_drop SkipStatementFormatDML 1 (if bool_decide (schema = "") then "(no default database)" else schema).

(** The position of an event that MariaDB writes without one. *)
Definition filled (lastEnd : N) (hdr : EventHeader) : EventHeader :=
  if (h_LogPos hdr =? 0)%N && negb (h_Artificial hdr) then at_pos (add32 lastEnd (h_EventSize hdr)) hdr else hdr.

Definition file_context (s : fp) : rowContext := {|
  rc_resolver := resolver (fp_out s); rc_filters := filters; rc_file := filename; rc_gtid := fp_gtid s;
  rc_connectionID := fp_conn s; rc_commitTsUS := fp_commitTs s; rc_queryText := fp_text s;
  rc_schemaVersion := schemaVersion (fp_out s) |}.

(** The switch of [handleEvent], for an event that holds no others. *)
Definition on_file_body (hdr : EventHeader) (body : Body) : FP unit :=
  match body with
  | Gtid sid gno commitTs => io_mod (with_txn (formatGTID (h_EventType hdr) sid gno) commitTs)
  | MariadbGtid gtid => io_mod (with_txn gtid 0)
  | Query conn schema query =>
      do! io_mod (with_text conn "");
      s ←! io_get;
      match parseDDL query schema with
      | Some d => send_file (ddl_event filename hdr (fp_gtid s) d (schemaVersion (fp_out s)))
      | None =>
          match statementDML query with
          | Some kw => recordStatementDML (h_LogPos hdr) schema kw conn
          | None => io_ret tt
          end
      end
  | RowsQuery q | AnnotateRows q => io_mod (λ s, with_text (fp_conn s) (SanitizeQueryText q) s)
  | Rows ev =>
      s ←! io_get;
      r ←! io_try (handleRows Windows1252 EqualFold (file_context s) hdr ev);
      do! when (re_StmtEnd ev) (io_mod (λ s, with_text (fp_conn s) "" s));
      match r with inl _ => io_ret tt | inr e => io_fail e end
  | _ => io_ret tt
  end.

(** [handleEvent]; the context is over once the consumer takes nothing more. *)
Fixpoint handleFileEvent (hdr : EventHeader) (body : Body) {struct body} : FP unit :=
  s ←! io_get;
  if bool_decide (takes (fp_out s) = Some O) then io_fail Cancelled
  else
    let hdr := filled (fp_lastEnd s) hdr in
    do! when (0 <? h_LogPos hdr)%N (io_mod (with_end (h_LogPos hdr)));
    match body with
    | TransactionPayload events =>
        (fix inner (l : list (EventHeader * Body)) : FP unit :=
           match l with
           | [] => io_ret tt
           | (h, b) :: l => do! handleFileEvent (rewriteInnerHeader h hdr) b; inner l
           end) events
    | _ => on_file_body hdr body
    end.

(** An event of the file: when it is read, a resolver the consumer swapped in
    before. *)
Record fileEvent := { fe_now : Z; fe_swap : option Resolver; fe_hdr : EventHeader; fe_body : Body }.

Definition arrive (e : fileEvent) (s : fp) : fp :=
  let s := {| fp_gtid := fp_gtid s; fp_conn := fp_conn s; fp_commitTs := fp_commitTs s; fp_text := fp_text s;
              fp_lastEnd := fp_lastEnd s; fp_gaps := fp_gaps s; fp_now := fe_now e; fp_out := fp_out s |} in
  match fe_swap e with None => s | Some r => with_out (SwapResolver r) s end.

Fixpoint file_loop (file : list fileEvent) : FP unit :=
  match file with
  | [] => io_ret tt
  | e :: file => do! io_mod (arrive e); do! handleFileEvent (fe_hdr e) (fe_body e); file_loop file
  end.

Definition file_start (o : outState) : fp := {|
  fp_gtid := ""; fp_conn := 0; fp_commitTs := 0; fp_text := ""; fp_lastEnd := 4; fp_gaps := noGaps; fp_now := 0; fp_out := o |}.

(** [ParseFile], of a file the binlog parser reads to its end or to [broken]. *)
Definition ParseFile (file : list fileEvent) (broken : option PErr) (o : outState) : option FileErr * outState :=
  match file_loop file (file_start o) with
  | (inr e, s) => (Some (ReadErr e), fp_out s)
  | (inl _, s) =>
      match broken with
      | Some e => (Some (ReadErr e), fp_out s)
      | None => (gap_err (fp_gaps s), fp_out s)
      end
  end.
End file.

(** [ParseFiles]: the name of the file that failed comes with its error. *)
Fixpoint ParseFiles W EF filters (files : list (string * list fileEvent * option PErr)) (o : outState) :
    option (string * FileErr) * outState :=
  match files with
  | [] => (None, o)
  | (name, file, broken) :: files =>
      if bool_decide (takes o = Some O) then (Some ("", ReadErr Cancelled), o)
      else
        match ParseFile W EF filters name file broken o with
        | (Some e, o) => (Some (name, e), o)
        | (None, o) => ParseFiles W EF filters files o
        end
  end.
