(* ===== verification/FileWhole.v ===== *)
(** * A file is indexed whole or fails

    The verdict on a binlog file against the reading that leaves nothing out:
    a file whose changes in scope can all be read is sent whole and accepted;
    any other fails. *)
From S2P Require Import Prelude GoStrings GoText GoTime GoVal GoIO Event TxnBatch DdlText MapRow Skips RowEvents Stream StreamLog StreamRows StreamCases BinlogFile.

Open Scope Z_scope.

(** Induction on an event with its inner ones. *)
Definition body_ind (P : Body → Prop) (Hpay : ∀ l, Forall (λ e, P e.2) l → P (TransactionPayload l))
    (Hone : ∀ b, match b with TransactionPayload _ => False | _ => True end → P b) : ∀ b, P b :=
  fix IH b :=
    match b with
    | TransactionPayload l =>
        Hpay l ((fix go (l : list (EventHeader * Body)) : Forall (λ e, P e.2) l :=
          match l with [] => Forall_nil_2 _ | e :: l => Forall_cons_2 _ e l (IH e.2) (go l) end) l)
    | b => Hone b I
    end.

Section whole.
Context (Windows1252 : string → string) (EqualFold : string → string → bool) (filters : Filters) (filename : string).

(** ** The reading that leaves nothing out *)

(** The rows of a row event, when all of them have names. *)
Definition all_rows (c : rowContext) (r : Resolver) (tm : TableMeta) (hdr : EventHeader) (ev : RowsEvent) : option (list Event) :=
  let named row := MapRow Windows1252 r (re_Schema ev) (re_Table ev) row in
  let pk m := BuildPKValues (PKColumnMetas tm) m in
  match h_EventType hdr with
  | WriteRows => mapM (λ row, m ← named row; Some (row_event c hdr ev EventInsert (pk m) None (Some m))) (re_Rows ev)
  | DeleteRows => mapM (λ row, m ← named row; Some (row_event c hdr ev EventDelete (pk m) (Some m) None)) (re_Rows ev)
  | UpdateRows =>
      if Nat.odd (length (re_Rows ev)) then None
      else mapM (λ p, m ← named p.1; m' ← named p.2; Some (row_event c hdr ev EventUpdate (pk m) (Some m) (Some m')))
             (image_pairs (re_Rows ev))
  | _ => None
  end.

(** A row event: nothing when it is out of scope or older than the snapshot
    that lacks it, all its rows when they can be read, [None] otherwise. *)
Definition whole_rows (c : rowContext) (hdr : EventHeader) (ev : RowsEvent) : option (list Event) :=
  if negb (Matches filters (re_Schema ev) (re_Table ev)) then Some []
  else
    r ← rc_resolver c;
    let excused := isSnapshotExcludedSchema (re_Schema ev) || eventPredatesSnapshot hdr r in
    match Resolve r (re_Schema ev) (re_Table ev) with
    | None =>
        if excused || negb (bool_decide (ExclusionReason r (re_Schema ev) (re_Table ev) = None)) then Some [] else None
    | Some tm =>
        if negb (re_ColumnCount ev =? length (Columns tm))%nat then (if excused then Some [] else None)
        else if negb (eventPredatesSnapshot hdr r) && (length (re_ColumnNames ev) =? length (Columns tm))%nat &&
                negb (forallb (λ p, IdentEqualFold EqualFold p.1 (Name p.2)) (zip (re_ColumnNames ev) (Columns tm))) then None
        else if existsb (λ n, negb (n =? 0)%nat) (re_SkippedColumns ev) then None
        else if (h_LogPos hdr <? h_EventSize hdr)%N then None
        else all_rows c r tm hdr ev
    end.

(** What the file says of the transaction and the statement, the snapshot in
    use, where the last event ended. *)
Record fileReading := {
  fr_gtid : string; fr_conn : N; fr_commitTs : N; fr_text : string; fr_lastEnd : N; fr_resolver : option Resolver; fr_version : N }.

Definition fr_context (v : fileReading) : rowContext := {|
  rc_resolver := fr_resolver v; rc_filters := filters; rc_file := filename; rc_gtid := fr_gtid v; rc_connectionID := fr_conn v;
  rc_commitTsUS := fr_commitTs v; rc_queryText := fr_text v; rc_schemaVersion := fr_version v |}.

Definition fr_txn (gtid : string) (ts : N) (v : fileReading) : fileReading := {|
  fr_gtid := gtid; fr_conn := fr_conn v; fr_commitTs := ts; fr_text := ""; fr_lastEnd := fr_lastEnd v;
  fr_resolver := fr_resolver v; fr_version := fr_version v |}.
Definition fr_say (conn : N) (text : string) (v : fileReading) : fileReading := {|
  fr_gtid := fr_gtid v; fr_conn := conn; fr_commitTs := fr_commitTs v; fr_text := text; fr_lastEnd := fr_lastEnd v;
  fr_resolver := fr_resolver v; fr_version := fr_version v |}.
Definition fr_end (pos : N) (v : fileReading) : fileReading := {|
  fr_gtid := fr_gtid v; fr_conn := fr_conn v; fr_commitTs := fr_commitTs v; fr_text := fr_text v; fr_lastEnd := pos;
  fr_resolver := fr_resolver v; fr_version := fr_version v |}.

Definition whole_body (hdr : EventHeader) (body : Body) (v : fileReading) : fileReading * option (list Event) :=
  match body with
  | Gtid sid gno ts => (fr_txn (formatGTID (h_EventType hdr) sid gno) ts v, Some [])
  | MariadbGtid g => (fr_txn g 0 v, Some [])
  | Query conn schema q =>
      (fr_say conn "" v,
       match parseDDL q schema with
       | Some d => Some [ddl_event filename hdr (fr_gtid v) d (fr_version v)]
       | None =>
           match statementDML q with
           | Some _ => if statementDMLInScope schema filters then None else Some []
           | None => Some []
           end
       end)
  | RowsQuery q | AnnotateRows q => (fr_say (fr_conn v) (SanitizeQueryText q) v, Some [])
  | Rows ev => (if re_StmtEnd ev then fr_say (fr_conn v) "" v else v, whole_rows (fr_context v) hdr ev)
  | _ => (v, Some [])
  end.

Definition both (a b : option (list Event)) : option (list Event) := x ← a; y ← b; Some (x ++ y).

(** An event; the events of a payload are at its position. *)
Fixpoint whole_event (hdr : EventHeader) (body : Body) (v : fileReading) {struct body} : fileReading * option (list Event) :=
  let hdr := filled (fr_lastEnd v) hdr in
  let v := if (0 <? h_LogPos hdr)%N then fr_end (h_LogPos hdr) v else v in
  match body with
  | TransactionPayload events =>
      (fix inner (l : list (EventHeader * Body)) (v : fileReading) : fileReading * option (list Event) :=
         match l with
         | [] => (v, Some [])
         | (h, b) :: l =>
             let '(v, out) := whole_event (rewriteInnerHeader h hdr) b v in
             let '(v, out') := inner l v in (v, both out out')
         end) events v
  | _ => whole_body hdr body v
  end.

Definition fr_swap (r : option Resolver) (v : fileReading) : fileReading :=
  match r with
  | None => v
  | Some r => {| fr_gtid := fr_gtid v; fr_conn := fr_conn v; fr_commitTs := fr_commitTs v; fr_text := fr_text v;
                 fr_lastEnd := fr_lastEnd v; fr_resolver := Some r; fr_version := Z.to_N (rv_snapshotID r mod 2 ^ 32) |}
  end.

Fixpoint whole_file (file : list fileEvent) (v : fileReading) : option (list Event) :=
  match file with
  | [] => Some []
  | e :: file => let '(v, out) := whole_event (fe_hdr e) (fe_body e) (fr_swap (fe_swap e) v) in both out (whole_file file v)
  end.

Definition reading_of (s : fp) : fileReading := {|
  fr_gtid := fp_gtid s; fr_conn := fp_conn s; fr_commitTs := fp_commitTs s; fr_text := fp_text s; fr_lastEnd := fp_lastEnd s;
  fr_resolver := resolver (fp_out s); fr_version := schemaVersion (fp_out s) |}.

(** ** The reader against it *)

Definition dirty (s : fp) : Prop := gap_err (fp_gaps s) ≠ None.

(** [s'] is [s] after the events [l]; or with a change left out. *)
Definition went (want : option (list Event)) (s s' : fp) : Prop :=
  takes (fp_out s') = None ∧
  match want with
  | Some l => fp_gaps s' = fp_gaps s ∧ sent (fp_out s') = sent (fp_out s) ++ l
  | None => dirty s'
  end.

(** [m] does what is wanted and leaves the reading [v]; a failure is no
    acceptance either. *)
Definition does (m : FP unit) (want : option (list Event)) (v : fileReading) (s : fp) : Prop :=
  match m s with
  | (inl _, s') => reading_of s' = v ∧ went want s s' ∧ (dirty s → dirty s')
  | (inr _, _) => want = None
  end.

Lemma gap_err_recordDrop reason n name t : gap_err (recordDrop reason n name t) ≠ None.
Proof.
  unfold gap_err. simpl. destruct (_ =? 0)%nat; [|done]. rewrite bool_decide_eq_false_2; [done|].
  intros E. by apply insert_non_empty in E.
Qed.

Lemma gap_err_record t : gap_err (record_gap t) ≠ None.
Proof. done. Qed.

Lemma mapM_omap {A} (f : A → option Event) rows :
  match mapM f rows with
  | Some l => omap f rows = l ∧ filter (λ row, f row = None) rows = []
  | None => filter (λ row, f row = None) rows ≠ []
  end.
Proof.
  induction rows as [|row rows IH]; simpl; [done|].
  destruct (f row) as [e|] eqn:E; simpl.
  - rewrite filter_cons_False by (by rewrite E). destruct (mapM f rows); simpl; [|done].
    destruct IH as [IH1 IH2]. rewrite IH2. idtac. by rewrite <-IH1.
  - by rewrite filter_cons_True.
Qed.

Lemma first_drift_none names cols :
  first_drift EqualFold names cols = None ↔ forallb (λ p, IdentEqualFold EqualFold p.1 (Name p.2)) (zip names cols) = true.
Proof.
  unfold first_drift. rewrite fmap_None, list_find_None, Forall_forall, forallb_forall. split.
  - intros H p Hp. apply list_elem_of_In in Hp. specialize (H p Hp). by destruct (IdentEqualFold _ _ _).
  - intros H p Hp. apply list_elem_of_In in Hp. by rewrite (H p Hp).
Qed.

Lemma first_partial_none skipped : firstPartialImage skipped = None ↔ existsb (λ n, negb (n =? 0)%nat) skipped = false.
Proof.
  unfold firstPartialImage. induction skipped as [|n l IH]; simpl; [done|].
  destruct (Nat.eqb_spec n 0) as [->|Hn]; simpl.
  - rewrite filter_cons_False by naive_solver. exact IH.
  - by rewrite filter_cons_True by naive_solver.
Qed.

Lemma emit_rows_file {A} (of_row : A → option Event) rows n s :
  takes (fp_out s) = None → (∀ row e, of_row row = Some e → stamped 0 e = e) →
  ∃ s', emit_rows of_row rows n s = (inl (n + Z.of_nat (length (filter (λ row, of_row row = None) rows)), None), s') ∧
    fp_gaps s' = fp_gaps s ∧ reading_of s' = reading_of s ∧ takes (fp_out s') = None ∧
    sent (fp_out s') = sent (fp_out s) ++ omap of_row rows.
Proof.
  intros Ht He. revert n s Ht. induction rows as [|row rows IH]; intros n s Ht; simpl.
  { exists s. rewrite app_nil_r, Z.add_0_r. done. }
  destruct (of_row row) as [e|] eqn:E; simpl.
  - unfold io_bind, io_try. simpl. unfold send_file, io_bind, io_get. rewrite Ht. simpl. rewrite (He _ _ E).
    rewrite filter_cons_False by (by rewrite E).
    destruct (IH n (with_out (set_sent (sent (fp_out s) ++ [e]) None) s) eq_refl) as (s' & -> & H1 & H2 & H3 & H4).
    exists s'. split_and!; try done. rewrite H4. cbn [fp_out with_out sent set_sent]. by rewrite <-app_assoc.
  - rewrite filter_cons_True by done. destruct (IH (n + 1) s Ht) as (s' & -> & H1 & H2 & H3 & H4).
    exists s'. split_and!; try done. f_equal. f_equal. f_equal. cbn [length]. lia.
Qed.

Lemma conclude_file {A} (of_row : A → option Event) rows attr name odd s :
  takes (fp_out s) = None → (∀ row e, of_row row = Some e → stamped 0 e = e) →
  does (conclude attr name (emit_rows of_row rows 0) odd) (if odd then None else mapM of_row rows) (reading_of s) s.
Proof.
  intros Ht He. unfold does, conclude, io_bind. simpl.
  destruct (emit_rows_file of_row rows 0 (with_out (set_skips (RecordCaptured (skips (fp_out s)))) s) Ht He)
    as (s' & -> & H1 & H2 & H3 & H4).
  pose proof (mapM_omap of_row rows) as Hm. rewrite Z.add_0_l.
  assert ((0 <? Z.of_nat (length (filter (λ row, of_row row = None) rows))) = negb (bool_decide (mapM of_row rows ≠ None))) as Hn.
  { destruct (mapM of_row rows).
    - destruct Hm as [_ ->]. by rewrite bool_decide_eq_true_2.
    - rewrite bool_decide_eq_false_2 by naive_solver. apply Z.ltb_lt. destruct (filter _ rows); simpl; [done|lia]. }
  rewrite Hn. simpl in H1, H2, H4. unfold went, dirty.
  destruct odd, (mapM of_row rows) as [l|]; simpl; try (destruct Hm as [Hm _]);
    repeat (split || intros); try done; try (by apply gap_err_recordDrop); try congruence.
Qed.

Lemma does_ret v s : reading_of s = v → takes (fp_out s) = None → does (io_ret tt) (Some []) v s.
Proof. intros Hv Ht. split; [done|]. split; [|done]. split; [done|]. by rewrite app_nil_r. Qed.

Lemma does_fail e v s : does (io_fail e) None v s.
Proof. done. Qed.

(** A call that sends nothing leaves nothing out, or notes what it left out. *)
Lemma does_clean (m : FP unit) s :
  (m s).1 = inl tt → reading_of (m s).2 = reading_of s → takes (fp_out (m s).2) = None →
  sent (fp_out (m s).2) = sent (fp_out s) → fp_gaps (m s).2 = fp_gaps s → does m (Some []) (reading_of s) s.
Proof.
  unfold does, went, dirty. destruct (m s) as [[[]|e] s']; simpl; [|done]. intros _ H1 H2 H3 H4.
  rewrite app_nil_r, H4. done.
Qed.

Lemma does_dirty (m : FP unit) s :
  (m s).1 = inl tt → reading_of (m s).2 = reading_of s → takes (fp_out (m s).2) = None → dirty (m s).2 →
  does m None (reading_of s) s.
Proof. unfold does, went. by destruct (m s) as [[[]|e] s']. Qed.

Lemma handleRows_does hdr ev s :
  takes (fp_out s) = None →
  does (handleRows Windows1252 EqualFold (file_context filters filename s) hdr ev)
    (whole_rows (file_context filters filename s) hdr ev) (reading_of s) s.
Proof.
  intros Ht. unfold handleRows, whole_rows. cbn [rc_filters rc_resolver rc_file file_context].
  destruct (negb (Matches filters _ _)); [by apply does_ret|].
  destruct (resolver (fp_out s)) as [r|] eqn:Hr; [simpl|apply does_dirty; try done; apply gap_err_recordDrop].
  destruct (Resolve r _ _) as [tm|].
  2: { destruct (isSnapshotExcludedSchema _), (eventPredatesSnapshot _ _), (ExclusionReason _ _ _); simpl;
         first [by apply does_clean|by apply does_dirty]. }
  destruct (negb (re_ColumnCount ev =? _)%nat).
  { destruct (isSnapshotExcludedSchema _), (eventPredatesSnapshot _ _); simpl; first [by apply does_clean|by apply does_dirty]. }
  set (early := eventPredatesSnapshot hdr r).
  set (same := (length (re_ColumnNames ev) =? length (Columns tm))%nat).
  assert (negb early && same && negb (forallb (λ p, IdentEqualFold EqualFold p.1 (Name p.2)) (zip (re_ColumnNames ev) (Columns tm))) =
    match (if same && negb early then first_drift EqualFold (re_ColumnNames ev) (Columns tm) else None) with Some _ => true | None => false end) as Ed.
  { pose proof (first_drift_none (re_ColumnNames ev) (Columns tm)) as Hd.
    destruct early, same; simpl; try done. destruct (first_drift _ _ _), (forallb _ _); simpl; naive_solver. }
  rewrite Ed. destruct (if same && negb early then _ else None); [apply does_fail|].
  assert (existsb (λ n, negb (n =? 0)%nat) (re_SkippedColumns ev) =
    match firstPartialImage (re_SkippedColumns ev) with Some _ => true | None => false end) as Ep.
  { pose proof (first_partial_none (re_SkippedColumns ev)) as Hd.
    destruct (firstPartialImage _), (existsb _ _); naive_solver. }
  rewrite Ep. destruct (firstPartialImage _); [apply does_fail|].
  destruct (h_LogPos hdr <? h_EventSize hdr)%N; [apply does_fail|]. unfold all_rows.
  destruct (h_EventType hdr); [..|apply does_dirty; try done; apply gap_err_recordDrop|
    apply does_dirty; try done; apply gap_err_recordDrop|apply does_dirty; try done; apply gap_err_recordDrop].
  - apply (conclude_file _ _ _ _ false); [done|]. intros row e.
    destruct (MapRow _ _ _ _ row); [|done]. by intros [= <-].
  - apply conclude_file; [done|]. intros row e.
    destruct (MapRow _ _ _ _ row.1); [|done]. simpl. destruct (MapRow _ _ _ _ row.2); [|done]. by intros [= <-].
  - apply (conclude_file _ _ _ _ false); [done|]. intros row e.
    destruct (MapRow _ _ _ _ row); [|done]. by intros [= <-].
Qed.

#[local] Opaque parseDDL statementDML formatGTID SanitizeQueryText handleRows.

Lemma both_nil_r a : both a (Some []) = a.
Proof. destruct a; simpl; by rewrite ?app_nil_r. Qed.

(** A call after a call. *)
Lemma does_bind (m k : FP unit) w1 w2 v1 v2 s :
  does m w1 v1 s → (∀ s1, reading_of s1 = v1 → takes (fp_out s1) = None → does k w2 v2 s1) →
  does (do! m; k) (both w1 w2) v2 s.
Proof.
  unfold does, io_bind. intros Hm Hk. destruct (m s) as [[[]|e] s1]; [|by rewrite Hm].
  destruct Hm as (Hv & [Ht Hw] & Hd). specialize (Hk s1 Hv Ht). destruct (k s1) as [[[]|e] s2]; [|rewrite Hk; by destruct w1].
  destruct Hk as (Hv2 & [Ht2 Hw2] & Hd2). split; [done|]. split; [|by auto]. split; [done|].
  destruct w1 as [l1|], w2 as [l2|]; simpl; auto. destruct Hw as [Hg Hs], Hw2 as [Hg2 Hs2].
  split; [congruence|]. by rewrite Hs2, Hs, app_assoc.
Qed.

(** An assignment. *)
Lemma does_mod f s :
  takes (fp_out (f s)) = None → fp_gaps (f s) = fp_gaps s → sent (fp_out (f s)) = sent (fp_out s) →
  does (io_mod f) (Some []) (reading_of (f s)) s.
Proof. intros Ht Hg Hs. unfold does, went, dirty. simpl. by rewrite Hg, Hs, app_nil_r. Qed.

Lemma does_mod_then f (k : FP unit) w v s :
  takes (fp_out (f s)) = None → fp_gaps (f s) = fp_gaps s → sent (fp_out (f s)) = sent (fp_out s) →
  does k w v (f s) → does (do! io_mod f; k) w v s.
Proof.
  intros Ht Hg Hs. unfold does, io_bind, went, dirty. simpl. destruct (k (f s)) as [[[]|e] s']; [|done].
  by rewrite Hg, Hs.
Qed.

Lemma body_does hdr body s :
  takes (fp_out s) = None →
  let '(v, w) := whole_body hdr body (reading_of s) in
  does (on_file_body Windows1252 EqualFold filters filename hdr body) w v s.
Proof.
  intros Ht. destruct body; simpl; try by apply does_ret.
  - by apply (does_mod (with_txn _ _)).
  - by apply (does_mod (with_txn _ _)).
  - apply does_mod_then; [done..|]. unfold does at 1, io_bind, io_get.
    destruct (parseDDL _ _) as [d|]; [|destruct (statementDML _) as [kw|]].
    + unfold send_file, io_bind, io_get. simpl. rewrite Ht. done.
    + unfold recordStatementDML. destruct (statementDMLInScope _ _); [|by apply does_ret].
      by apply (does_dirty _ (with_text _ _ s)); try done; apply gap_err_recordDrop.
    + by apply does_ret.
  - by apply (does_mod (λ s, with_text (fp_conn s) _ s)).
  - by apply (does_mod (λ s, with_text (fp_conn s) _ s)).
  - pose proof (handleRows_does hdr ev s Ht) as H. unfold does in H |- *. unfold io_bind, io_get, io_try.
    change (fr_context (reading_of s)) with (file_context filters filename s).
    destruct (handleRows _ _ _ hdr ev s) as [[[]|e] s1]; [|by destruct (re_StmtEnd ev)].
    destruct H as (Hv & Hw & Hd). destruct (re_StmtEnd ev); [|done].
    split; [|done]. change (fp_conn s) with (fr_conn (reading_of s)). rewrite <-Hv. reflexivity.
Qed.

(** The events of a payload, one by one. *)
Definition inner_events (hdr : EventHeader) := fix inner (l : list (EventHeader * Body)) : FP unit :=
  match l with
  | [] => io_ret tt
  | (h, b) :: l => do! handleFileEvent Windows1252 EqualFold filters filename (rewriteInnerHeader h hdr) b; inner l
  end.

Definition inner_whole (hdr : EventHeader) := fix inner (l : list (EventHeader * Body)) (v : fileReading) :
    fileReading * option (list Event) :=
  match l with
  | [] => (v, Some [])
  | (h, b) :: l =>
      let '(v, out) := whole_event (rewriteInnerHeader h hdr) b v in
      let '(v, out') := inner l v in (v, both out out')
  end.

Definition event_spec (body : Body) : Prop := ∀ hdr s,
  takes (fp_out s) = None →
  let '(v, w) := whole_event hdr body (reading_of s) in
  does (handleFileEvent Windows1252 EqualFold filters filename hdr body) w v s.

Lemma inner_does hdr l : Forall (λ e, event_spec e.2) l → ∀ s,
  takes (fp_out s) = None →
  let '(v, w) := inner_whole hdr l (reading_of s) in does (inner_events hdr l) w v s.
Proof.
  induction 1 as [|[h b] l Hb Hl IH]; intros s Ht; [by apply does_ret|]. simpl.
  pose proof (Hb (rewriteInnerHeader h hdr) s Ht) as H. cbn [snd] in H.
  destruct (whole_event _ b (reading_of s)) as [v w]. destruct (inner_whole hdr l v) as [v' w'] eqn:E.
  eapply does_bind; [exact H|]. intros s1 Hv Ht1. specialize (IH s1 Ht1). rewrite Hv, E in IH. exact IH.
Qed.

(** The position, then the event. *)
Lemma event_step hdr s (m : FP unit) (whole : fileReading → fileReading * option (list Event)) :
  takes (fp_out s) = None →
  let hdr' := filled (fp_lastEnd s) hdr in
  (∀ s1, takes (fp_out s1) = None →
    let '(v, w) := whole (reading_of s1) in does m w v s1) →
  let '(v, w) := whole (if (0 <? h_LogPos hdr')%N then fr_end (h_LogPos hdr') (reading_of s) else reading_of s) in
  does (s ←! io_get; if bool_decide (takes (fp_out s) = Some O) then io_fail Cancelled
        else do! when (0 <? h_LogPos hdr')%N (io_mod (with_end (h_LogPos hdr'))); m) w v s.
Proof.
  intros Ht hdr' Hm. unfold when. destruct (0 <? h_LogPos hdr')%N.
  - specialize (Hm (with_end (h_LogPos hdr') s) Ht).
    change (reading_of (with_end (h_LogPos hdr') s)) with (fr_end (h_LogPos hdr') (reading_of s)) in Hm.
    destruct (whole _) as [v w]. unfold does, io_bind, io_get in Hm |- *. rewrite bool_decide_eq_false_2 by congruence. exact Hm.
  - specialize (Hm s Ht). destruct (whole _) as [v w]. unfold does, io_bind, io_get in Hm |- *.
    rewrite bool_decide_eq_false_2 by congruence. exact Hm.
Qed.

(** One event of the file, with the events of a payload. *)
Lemma event_does body : event_spec body.
Proof.
  induction body as [l Hl|body Hb] using body_ind; intros hdr s Ht.
  - apply (event_step hdr s (inner_events (filled (fp_lastEnd s) hdr) l) (inner_whole (filled (fp_lastEnd s) hdr) l)); [done|].
    intros s1 Ht1. by apply inner_does.
  - pose proof (event_step hdr s (on_file_body Windows1252 EqualFold filters filename (filled (fp_lastEnd s) hdr) body)
      (whole_body (filled (fp_lastEnd s) hdr) body) Ht (λ s1, body_does _ body s1)) as H.
    destruct body; first [done|exact H].
Qed.

Lemma file_does file s :
  takes (fp_out s) = None →
  match file_loop Windows1252 EqualFold filters filename file s with
  | (inl _, s') => went (whole_file file (reading_of s)) s s' ∧ (dirty s → dirty s')
  | (inr _, _) => whole_file file (reading_of s) = None
  end.
Proof.
  revert s. induction file as [|e file IH]; intros s Ht; simpl.
  { split; [|done]. split; [done|]. by rewrite app_nil_r. }
  assert (reading_of (arrive e s) = fr_swap (fe_swap e) (reading_of s)) as Ea by (unfold arrive; by destruct (fe_swap e)).
  assert (takes (fp_out (arrive e s)) = None ∧ fp_gaps (arrive e s) = fp_gaps s ∧ sent (fp_out (arrive e s)) = sent (fp_out s))
    as (Hta & Hga & Hsa) by (unfold arrive; by destruct (fe_swap e)).
  pose proof (event_does (fe_body e) (fe_hdr e) (arrive e s) Hta) as He. rewrite Ea in He.
  destruct (whole_event _ _ _) as [v w]. unfold does in He. unfold io_bind. simpl.
  destruct (handleFileEvent _ _ _ _ _ _ (arrive e s)) as [[[]|err] s1]; [|by rewrite He].
  destruct He as (Hv & [Ht1 Hw] & Hd). specialize (IH s1 Ht1). rewrite Hv in IH.
  destruct (file_loop _ _ _ _ _ s1) as [[[]|err] s2]; [|rewrite IH; by destruct w].
  destruct IH as [[Ht2 Hw2] Hd2]. unfold dirty in *. rewrite Hga in Hd. split; [|auto]. split; [done|].
  destruct w as [l1|], (whole_file file v) as [l2|]; simpl; [|exact Hw2|exact (Hd2 Hw)|exact Hw2].
  destruct Hw as [Hg Hs], Hw2 as [Hg2 Hs2]. split; [congruence|]. by rewrite Hs2, Hs, Hsa, app_assoc.
Qed.
End whole.

(** C16: A binlog file is accepted exactly when nothing in it had to be left out,
    and then all of it was sent, in order; otherwise it fails, so that no file is
    recorded as done with changes missing. What may be absent from an accepted
    file: tables the filters exclude, system schemas, tables the snapshot
    excluded by validation, and changes older than the snapshot that lacks their
    table or columns. Every other row, and every statement-format DML in scope,
    is sent or fails the file, inside a compressed transaction too and with a
    snapshot swapped in at any point. *)
Theorem ParseFile_whole Windows1252 EqualFold filters filename file broken o :
  takes o = None →
  let run := ParseFile Windows1252 EqualFold filters filename file broken o in
  let whole := whole_file Windows1252 EqualFold filters filename file (reading_of (file_start o)) in
  (run.1 = None ↔ broken = None ∧ whole ≠ None) ∧
  (run.1 = None → ∃ l, whole = Some l ∧ sent run.2 = sent o ++ l).
Proof.
  intros Ht run whole. unfold run, ParseFile.
  pose proof (file_does Windows1252 EqualFold filters filename file (file_start o) Ht) as H.
  destruct (file_loop _ _ _ _ _ _) as [[[]|e] s']; simpl; [|fold whole in H; rewrite H; naive_solver].
  fold whole in H. destruct H as [[Ht' Hw] _]. destruct broken; simpl; [naive_solver|].
  destruct whole as [l|]; [|unfold dirty in Hw; naive_solver]. destruct Hw as [Hg Hs]. rewrite Hg. naive_solver.
Qed.

(** ** A file that is accepted and one that is not *)

Definition file_of (l : list wevent) : list fileEvent :=
  (λ e, {| fe_now := 5; fe_swap := None; fe_hdr := e.1; fe_body := e.2 |}) <$> l.

Definition shop_out : outState :=
  {| resolver := Some shop; schemaVersion := 3; skips := NewSkipCounters; opened := []; sent := []; takes := None |}.

Definition good_file : list fileEvent := file_of [gtid_at 100 "0-1-1"; said 140 "BEGIN"; inserted 180 [1; 2]; xid_at 220].

(** A statement logged as text in between. *)
Definition mixed_file : list fileEvent :=
  file_of [gtid_at 100 "0-1-1"; said 140 "BEGIN"; inserted 180 [1; 2]; said 220 "UPDATE orders SET id = 3"; xid_at 260].

Definition parse_shop (file : list fileEvent) : option FileErr * outState :=
  ParseFile (λ s, s) String.eqb accept_all "binlog.1" file None shop_out.

Lemma ParseFile_whole_witness : (parse_shop good_file).1 = None ∧ (parse_shop mixed_file).1 ≠ None.
Proof.
  unfold parse_shop. split.
  - refine (proj2 (proj1 (ParseFile_whole (λ s, s) String.eqb accept_all "binlog.1" good_file None shop_out eq_refl)) (conj eq_refl _)).
    vm_compute. discriminate.
  - refine (λ H, proj2 (proj1 (proj1 (ParseFile_whole (λ s, s) String.eqb accept_all "binlog.1" mixed_file None shop_out eq_refl)) H) _).
    vm_compute. reflexivity.
Defined.
